(* ===== verification/_CoqProject ===== *)
-Q . S2P
Prelude.v
Word.v
Bytes.v
Double.v
DoubleExact.v
DoubleDiv.v
DoubleBits.v
NumParse.v
LuaApi.v
IntLib.v
BitLib.v
Builtins.v
Digest.v
DigestSpec.v
HashLib.v
HashSpec.v
Tm.v
Arith.v
CMath.v
Compare.v
ForLoop.v
Fold.v
Key.v
TableNode.v
Table.v
TableSpec.v
TableResize.v
TableRehash.v
TableMap.v
TableIter.v
Sort.v
SortSpec.v
SortOrder.v
SortLib.v
TabLib.v
TabMove.v
TabLibSpec.v
TabLibProps.v
Pattern.v
PatternSpec.v
PatternMatch.v
PatternSafe.v
StrLib.v
StrSpec.v
StrSafe.v
StrOps.v
StrType.v
StrProps.v
StrPack.v
StrPackSpec.v
StrPackLoop.v
StrPackProps.v
Utf8Lib.v
Utf8Spec.v
Utf8Ops.v
Utf8Props.v
MathLib.v
FoldBuiltin.v
MathNoise.v
MathRand.v
BaseLib.v
FastLib.v
VecLib.v
MathRound.v
FastLibProps.v
FoldProps.v
BufLib.v
BufMem.v
BufSafe.v
BufProps.v
JsonLib.v
JsonSpec.v
JsonLex.v
JsonStore.v
JsonParse.v
JsonComplete.v
JsonEncode.v
JsonWrite.v
JsonEnds.v
JsonProps.v
