(* ===== verification/Prelude.v ===== *)
(** * Jaci: a verification of parts of the virtual machine and its compiler

    Jaci is a dialect of Luau: a compiler from source text to bytecode
    (Ast/, Compiler/, Bytecode/ under src/) and a virtual machine with its
    libraries (VM/).  This development models, as executable functions, the
    routines of the machine that compute - numbers, values, tables, the
    arithmetic, comparison and loop instructions, the integer, bit32, table,
    string, utf8, math, vector, buffer, json, base, hash and crypto libraries - with the part
    of the compiler that computes at compile time what the machine would compute
    at run time.

    ** How the parts fit together

    A value is a [TValue] (file LuaApi); a number is an IEEE binary64
    [spec_float] (Double, DoubleExact, DoubleDiv); machine words are [Z] with
    the wrap-around written out (Word).  An instruction takes the values of
    its operands and a [heap] (Tm), which answers what the code reads of
    metatables and objects, and yields an [outcome]: a result, a Lua error, or
    [Undefined] where the C++ standard leaves the behaviour open.  A call of a
    metamethod is not executed: it is the value [CallTM f args k] - which
    function, on which arguments, and what is done with the result.  A library
    function takes the list of its arguments and yields the list of its
    results.  A table ([Table.LuaTable]) is a value with an array part and a
    hash part; a [TValue*] into it is a [slot].  The functions of the table
    library work on a store of tables, so that two arguments may be one table; a
    comparison given to [table.sort] is a parameter that may change the table
    that is sorted.

    ** Files, and the sources they model

    - Prelude: outcomes with their notation, tactics, lists.
    - Word, Bytes: machine words and byte strings.
    - Double, DoubleExact, DoubleDiv: binary64, the conversions of
      VM/src/lnumutils.h, exactness of operations on integers below [2^53].
    - NumParse: [luaO_str2d], [luaO_str2l] of VM/src/lobject.cpp.
    - LuaApi: values, [luaL_check*], [lua_to*], [lua_push*]
      (VM/src/lobject.h, laux.cpp, lapi.cpp).
    - IntLib (VM/src/lintlib.cpp), BitLib (VM/src/lbitlib.cpp): the two integer
      libraries.
    - Builtins (VM/src/lbuiltins.cpp and LOP_FASTCALL of lvmexecute.cpp): the
      fast paths of these libraries.
    - Digest, DigestSpec, HashLib, HashSpec (VM/src/lhashlib.cpp): MD5, the SHA
      family, HMAC, CRC-32, FNV-1a, ChaCha20, hex and base64.
    - Tm (VM/src/ltm.cpp, ltm.h): metamethod lookup with its cache.
    - Arith, Compare, ForLoop (VM/src/lvmexecute.cpp, lvmutils.cpp): the
      instructions, with their fast paths and constant forms.
    - Fold (Compiler/src/ConstantFolding.cpp): constant folding.
    - Key (VM/src/ltable.cpp, lstring.cpp, Bytecode/src/BytecodeBuilder.cpp):
      raw equality and hashes of keys.
    - TableNode: the nodes of the hash part of a table, the placement of a new
      key, the invariant [wf_nodes] and its preservation.
    - Table: all of VM/src/ltable.cpp on top of it.
    - TableSpec: the invariant [wf_table], searches against it.
    - TableResize, TableRehash: [resize], the sizes of [rehash], [newkey].
    - TableMap, TableIter: a table as a finite map; length and traversal.
    - Sort, SortSpec, SortOrder, SortLib (VM/src/ltablib.cpp): [table.sort] in a
      monad of state and errors; bounds, recursion and permutation; order; the
      library function.
    - TabLib, TabMove, TabLibSpec, TabLibProps (VM/src/ltablib.cpp): the rest of
      the table library; the three ways of [table.move]; tables as lists.
    - Pattern, PatternSpec, PatternMatch, PatternSafe (VM/src/lstrlib.cpp): the
      pattern matcher; patterns as lists of items and all their matches in order
      of preference; the matcher against them; its safety on every pattern.
    - StrLib, StrSpec, StrSafe, StrOps, StrType, StrProps (VM/src/lstrlib.cpp): the
      functions of the string library on top of the matcher.
    - DoubleBits: rounding to nearest yields numbers of the format; its bounds.
    - StrPack, StrPackSpec, StrPackLoop, StrPackProps (VM/src/lstrlib.cpp):
      [string.pack], [packsize], [unpack].
    - Utf8Lib, Utf8Spec, Utf8Ops, Utf8Props (VM/src/lutf8lib.cpp): the utf8
      library, against the encoding of RFC 3629.

    - CMath: the functions of <math.h>; exact ones are defined, the others are
      fields of the class [LibM].
    - MathLib, MathNoise, MathRand (VM/src/lmathlib.cpp): the math library, its noise
      and its generator.
    - MathRound: rounding to nearest on mantissas; the SSE4.1 form of
      [math.round].
    - BaseLib (VM/src/lbaselib.cpp), VecLib (VM/src/lveclib.cpp): the base and the
      vector library.
    - FastLib, FastLibProps (VM/src/lbuiltins.cpp): the fast paths of the math,
      string, vector and base libraries against the libraries.
    - BufLib (VM/src/lbuflib.cpp, lbuiltins.cpp): the buffer library with its fast
      paths, on a memory in which two arguments may be one buffer.  BufMem: ranges
      of bytes, a buffer as one number.  BufSafe, BufProps: its contracts.
    - JsonLib (VM/src/ljsonlib.cpp): the json library.  JsonSpec: trees, the grammar
      of their texts, and the tables that stand for a tree.  JsonLex, JsonStore,
      JsonParse, JsonComplete: the decoder against the grammar, in both directions.
      JsonEncode, JsonWrite: what the encoder writes for a tree.  JsonEnds:
      the encoder on any store.  JsonProps: the contracts of the library.
    - FoldBuiltin, FoldProps (Compiler/src/BuiltinFolding.cpp): the folder of
      library calls against the libraries.

    ** What the theorems show

    - Tables: a table behaves as a finite map under every sequence of
      operations; insertion keeps the chains, Brent's variation and the boundary
      of the array part; [rehash] never recurses; [luaH_getn] returns a boundary
      and stays inside the array; a traversal visits each entry once and ends, also
      when fields are cleared and collected behind it.
    - Table library: [table.sort] sorts with every comparison that is a strict
      weak order, and with any other comparison stays inside the array, recurses
      to [log2 n + 1] levels at most and ends; [table.move] has one result
      whichever way it takes, and one overflow, for a range that ends near [2^31]; insert, remove, concat, pack and unpack against
      lists.
    - String library: [match] finds the match that is first in the order of
      preference of the pattern, and is safe on malformed patterns; [find],
      [gmatch], [gsub] and [split] against it; results have the right types;
      what [unpack] reads is what [pack] wrote.
    - utf8 library: the decoder accepts exactly the encodings of RFC 3629 (with one
      undefined shift); [char] and [codepoint] are inverse; [len], [offset] and
      [codes] against the list of code points.
    - Instructions: every fast path, constant form and negated jump does what
      the general routine does, or the theorem says where it does not;
      arithmetic on integers is exact below [2^53]; [for] loops over integers
      end after the right number of trips.
    - Compiler: a folded constant - operator or library call - is the value the
      machine computes; the embedded string hashes are those of the machine.
    - Buffer library: no function leaves a buffer, on any argument; what a write stores
      is what a read yields, and nothing else changes; the bit functions against
      the buffer as one number; where an [int] overflows.
    - json library: the decoder accepts exactly the texts of a grammar that contains
      that of RFC 8259, and builds tables that stand for their tree; decoding what was
      encoded gives the tree back, up to what the text keeps of it ([JsonEncode.encoded]);
      the encoder ends on every store, cyclic ones included.  A table may hold dead keys,
      if none has the address of a key that is present ([TableIter.live_apart]).
    - Math library: the generator has full period, ranges of draws are exact and
      even; the noise stays inside its tables; the two ways of rounding agree.
    - Libraries: a fast call is transparent, but for the cases that its theorem names; each function of integer and bit32
      against its mathematical meaning, on every argument, errors included; the
      digests refine their block-wise definitions; codecs are inverse to each
      other.

    ** Bounds and fuel

    A loop of the code that is not structurally recursive takes fuel.  Walks
    along a chain of nodes take the number of nodes (a chain that ends visits no
    node twice, [TableNode.chain_length]); [adjustasize] takes one trip more
    than there are entries ([TableRehash.adjustasize_loop_spec]);
    [computesizes] and [numusearray] take their 27 slices; the binary search of
    [luaH_getn] takes the size of the array; [newkey] takes two levels, its
    theorem shows that the migration needs none.  [sort_rec] takes [log2 n + 1]
    levels, since it calls itself for the smaller part only, and its loops the
    size of their part ([SortSpec.sort_rec_safe]).  [match] takes
    [LUAI_MAXCCALLS + 1] levels, since it raises an error below them, and its loops
    the length of the pattern or of the source; loops over a text or a format take
    its length.  A theorem about a function with fuel says that the given fuel
    yields a result.  The decoder of json takes the length of the text, which bounds its
    nesting; the encoder takes one level more than there are tables, since it refuses a
    table that encloses itself ([JsonEnds.encode_value_ends]).

    ** Not modelled

    - Allocation failure, and the garbage collector except for [removeentry].
    - Signs and payloads of NaN: they are no keys; [string.pack] writes, and the
      hashes take, one pattern for all of them.
    - [pow] of the C library, the decimal printer and the random device are
      parameters.
    - The execution of metamethods, calls, upvalues, coroutines; table access
      instructions; [string.format]; a big-endian target.
      The interrupt callback of [match]; the limit of the string buffer.
      What an error in a function of the table library leaves in the store,
      except for [table.sort].
    - Lexer, parser, type checker, code generation from the tree, native code
      generation, command line tools, [require]: large object graphs or I/O.

    ** What could be added

    [string.format] up to [snprintf], the bytecode format, the fast paths of the
    table library, the tricolour invariant of the collector, the lexer. *)
From Stdlib Require Export ZArith Lia String Btauto.
From stdpp Require Export base tactics list numbers option strings.
#[export] Set Default Goal Selector "!".
Open Scope Z_scope.

(** * Outcomes of a C++ routine

    A library routine of the VM either returns, raises a Lua error through
    [luaL_error] and its relatives, or runs into behaviour that the C++
    standard leaves undefined.  The last case is a value of its own, so that
    a theorem can say that a routine never reaches it. *)

(** The three ways the code of [laux.cpp] raises an error. *)
Inductive lua_error :=
  | ArgError (narg : Z) (extramsg : string)
  | TypeError (narg : Z) (tname : string)
  | RunError (msg : string).

Inductive outcome (A : Type) :=
  | Ret (a : A)
  | Throw (e : lua_error)
  | Undefined (why : string).
Arguments Ret {_} _.
Arguments Throw {_} _.
Arguments Undefined {_} _.

#[export] Instance lua_error_eq_dec : EqDecision lua_error.
Proof. solve_decision. Defined.

#[export] Instance outcome_eq_dec `{EqDecision A} : EqDecision (outcome A).
Proof. solve_decision. Defined.

Definition outcome_bind {A B} (m : outcome A) (f : A -> outcome B) : outcome B :=
  match m with
  | Ret a => f a
  | Throw e => Throw e
  | Undefined w => Undefined w
  end.

Declare Scope outcome_scope.
Delimit Scope outcome_scope with outcome.
Notation "x <- m ;; k" := (outcome_bind m (fun x => k))
  (at level 60, m at next level, right associativity) : outcome_scope.
Notation "m ;;; k" := (outcome_bind m (fun _ => k))
  (at level 60, right associativity) : outcome_scope.
Open Scope outcome_scope.

(** [luaL_argcheck] and the other guards that raise. *)
Definition guard_or {A} (c : bool) (fail : outcome A) (k : outcome A) : outcome A :=
  if c then k else fail.
Notation "'require' c 'else_' e 'in' k" := (guard_or c e k)
  (at level 60, c at level 59, e at level 59, k at level 60) : outcome_scope.

Definition is_ret {A} (o : outcome A) : bool :=
  match o with Ret _ => true | _ => false end.

Definition is_defined {A} (o : outcome A) : bool :=
  match o with Undefined _ => false | _ => true end.

Section OutcomeLaws.
Context {A B C : Type}.

Lemma bind_ret_l (a : A) (f : A -> outcome B) : outcome_bind (Ret a) f = f a.
Proof. reflexivity. Qed.

Lemma bind_ret_r (m : outcome A) : outcome_bind m Ret = m.
Proof. by destruct m. Qed.

Lemma bind_assoc (m : outcome A) (f : A -> outcome B) (g : B -> outcome C) :
  outcome_bind (outcome_bind m f) g
  = outcome_bind m (fun a => outcome_bind (f a) g).
Proof. by destruct m. Qed.

Lemma bind_Ret_inv (m : outcome A) (f : A -> outcome B) (b : B) :
  outcome_bind m f = Ret b -> exists a, m = Ret a /\ f a = Ret b.
Proof. destruct m; naive_solver. Qed.

Lemma bind_defined (m : outcome A) (f : A -> outcome B) :
  is_defined m = true -> (forall a, m = Ret a -> is_defined (f a) = true) ->
  is_defined (outcome_bind m f) = true.
Proof. destruct m; naive_solver. Qed.
End OutcomeLaws.

(** * Tactics *)

(** Split on the scrutinee of some [match] or [if] of the goal or of a
    hypothesis, keeping the equation. *)
Ltac case_goal :=
  match goal with
  | |- context [match ?x with _ => _ end] => destruct x eqn:?
  end.

Ltac case_hyp :=
  match goal with
  | H : context [match ?x with _ => _ end] |- _ => destruct x eqn:?
  end.

(** Turn the boolean tests of the code into propositions. *)
Ltac bool_simpl :=
  repeat match goal with
  | H : andb _ _ = true |- _ => apply andb_prop in H; destruct H
  | H : orb _ _ = false |- _ => apply orb_false_elim in H; destruct H
  | H : negb _ = true |- _ => apply negb_true_iff in H
  | H : negb _ = false |- _ => apply negb_false_iff in H
  | H : (_ <? _) = true |- _ => apply Z.ltb_lt in H
  | H : (_ <? _) = false |- _ => apply Z.ltb_ge in H
  | H : (_ <=? _) = true |- _ => apply Z.leb_le in H
  | H : (_ <=? _) = false |- _ => apply Z.leb_gt in H
  | H : (_ =? _) = true |- _ => apply Z.eqb_eq in H
  | H : (_ =? _) = false |- _ => apply Z.eqb_neq in H
  end.

(** * Lists *)

(** The list [[0; 1; ...; n-1]] of loop indices, as [Z]. *)
Definition zseq (n : nat) : list Z := map Z.of_nat (seq 0 n).

Section Folds.
Context {A B : Type}.

(** An invariant of a loop body is an invariant of the loop. *)
Lemma fold_left_inv (P : A -> Prop) (f : A -> B -> A) (l : list B) (a : A) :
  P a -> (forall x b, P x -> P (f x b)) -> P (fold_left f l a).
Proof. intros Ha Hf. revert a Ha. induction l as [|b l IH]; simpl; auto. Qed.

Lemma fold_left_inv_in (P : A -> Prop) (f : A -> B -> A) (l : list B) (a : A) :
  P a -> (forall x b, In b l -> P x -> P (f x b)) -> P (fold_left f l a).
Proof.
  revert a. induction l as [|b l IH]; simpl; intros a Ha Hf; [done|].
  apply IH; [|intros x b' Hb']; apply Hf; auto.
Qed.

(** Two loops whose bodies agree on the states reached agree. *)
Lemma fold_left_ext_in (f g : A -> B -> A) (l : list B) (a : A) :
  (forall x b, In b l -> f x b = g x b) -> fold_left f l a = fold_left g l a.
Proof.
  revert a. induction l as [|b l IH]; simpl; intros a Hf; [done|].
  rewrite Hf by auto. apply IH. intros x b' Hb'. apply Hf. auto.
Qed.
End Folds.

Lemma zseq_S n : zseq (S n) = zseq n ++ [Z.of_nat n].
Proof. unfold zseq. by rewrite seq_S, map_app. Qed.

Lemma length_zseq n : length (zseq n) = n.
Proof. unfold zseq. by rewrite length_map, length_seq. Qed.

Lemma elem_of_zseq n z : z ∈ zseq n <-> 0 <= z < Z.of_nat n.
Proof.
  unfold zseq. rewrite list_elem_of_fmap. split.
  - intros (i & -> & Hi%elem_of_seq). lia.
  - intros Hz. exists (Z.to_nat z). rewrite elem_of_seq. lia.
Qed.

Lemma lookup_map_seq {A} (f : nat -> A) (n i : nat) :
  (i < n)%nat -> map f (seq 0 n) !! i = Some (f i).
Proof.
  intros Hi. change (map f (seq 0 n)) with (f <$> seq 0 n).
  by rewrite list_lookup_fmap, lookup_seq_lt.
Qed.
