(* ===== verification/Word.v ===== *)
(** Fixed-width integers as the C++ code uses them: [uint8_t] to [uint64_t]
    are integers in [[0, 2^w)], [int] and [int64_t] are integers in
    [[-2^(w-1), 2^(w-1))]; every conversion and every operation that can leave
    the range wraps explicitly.  The file holds the operators, their ranges,
    the bit-level rewriting database [bits] and the tactic [bitwise]. *)
From S2P Require Import Prelude.
Open Scope Z_scope.

Create Rewrite HintDb bits.
Create HintDb word discriminated.

(** * Ranges and conversions *)

Definition in_u (w x : Z) : Prop := 0 <= x < 2 ^ w.
Definition in_s (w x : Z) : Prop := - 2 ^ (w - 1) <= x < 2 ^ (w - 1).

(** [(uintW_t)x] *)
Definition cast_u (w x : Z) : Z := x mod 2 ^ w.

(** [(intW_t)x], two's complement *)
Definition cast_s (w x : Z) : Z :=
  let u := cast_u w x in if u <? 2 ^ (w - 1) then u else u - 2 ^ w.

Abbreviation u8 := (cast_u 8).
Abbreviation u32 := (cast_u 32).
Abbreviation u64 := (cast_u 64).
Abbreviation s32 := (cast_s 32).
Abbreviation s64 := (cast_s 64).

(** * Operators on [uintW_t]

    Shift amounts are always below the width where the code uses these
    (shifting by the width or more is undefined in C++); a routine whose
    amount can be larger tests it itself. *)
Definition add_u (w x y : Z) : Z := cast_u w (x + y).
Definition sub_u (w x y : Z) : Z := cast_u w (x - y).
Definition mul_u (w x y : Z) : Z := cast_u w (x * y).
Definition not_u (w x : Z) : Z := cast_u w (Z.lnot x).
Definition shl_u (w x n : Z) : Z := cast_u w (Z.shiftl x n).
Definition shr_u (x n : Z) : Z := Z.shiftr x n.

(** The rotation macros [ROTL32], [ROTR32], [ROTR64]. *)
Definition rotl_u (w x n : Z) : Z := Z.lor (shl_u w x n) (shr_u x (w - n)).
Definition rotr_u (w x n : Z) : Z := Z.lor (shr_u x n) (shl_u w x (w - n)).

(** Addition and negation on a signed type: overflow is undefined. *)
Definition in_s_b (w x : Z) : bool := (- 2 ^ (w - 1) <=? x) && (x <? 2 ^ (w - 1)).

Definition add_s (w x y : Z) : outcome Z :=
  if in_s_b w (x + y) then Ret (x + y) else Undefined "signed overflow in +".
Definition sub_s (w x y : Z) : outcome Z :=
  if in_s_b w (x - y) then Ret (x - y) else Undefined "signed overflow in -".
Definition neg_s (w x : Z) : outcome Z :=
  if in_s_b w (- x) then Ret (- x) else Undefined "signed overflow in unary -".

(** [__builtin_ctz] and [__builtin_clz] on a nonzero [w]-bit word: the lowest
    set bit, and the distance of the highest one from the top. *)
Definition builtin_ctz (w n : Z) : Z :=
  match list_find (fun i => Z.testbit n i = true) (zseq (Z.to_nat w)) with
  | Some (_, i) => i
  | None => w
  end.
Definition builtin_clz (w n : Z) : Z := w - 1 - Z.log2 n.

Lemma in_s_b_spec w x : in_s_b w x = true <-> in_s w x.
Proof. unfold in_s_b, in_s. by rewrite andb_true_iff, Z.leb_le, Z.ltb_lt. Qed.

Lemma pow2_pos w : 0 <= w -> 0 < 2 ^ w.
Proof. intros. apply Z.pow_pos_nonneg; lia. Qed.

Lemma cast_u_range w x : 0 <= w -> in_u w (cast_u w x).
Proof. intros Hw. apply Z.mod_pos_bound. by apply pow2_pos. Qed.

Lemma cast_u_id w x : in_u w x -> cast_u w x = x.
Proof. intros Hx. by apply Z.mod_small. Qed.

Lemma cast_u_idemp w x : 0 <= w -> cast_u w (cast_u w x) = cast_u w x.
Proof. intros. apply cast_u_id. by apply cast_u_range. Qed.

Lemma pow2_split w : 0 < w -> 2 ^ w = 2 * 2 ^ (w - 1).
Proof. intros. rewrite <- Z.pow_succ_r by lia. f_equal. lia. Qed.

Lemma cast_s_range w x : 0 < w -> in_s w (cast_s w x).
Proof.
  intros Hw. pose proof (cast_u_range w x ltac:(lia)) as Hr.
  pose proof (pow2_split w Hw). unfold in_s, in_u, cast_s in *.
  case_match; bool_simpl; lia.
Qed.

Lemma cast_s_id w x : 0 < w -> in_s w x -> cast_s w x = x.
Proof.
  intros Hw [Hlo Hhi]. pose proof (pow2_split w Hw). pose proof (pow2_pos (w-1)).
  unfold cast_s, cast_u. destruct (Z.lt_ge_cases x 0).
  - rewrite <- (Z_mod_plus_full x 1), Z.mod_small by lia.
    case_match; bool_simpl; lia.
  - rewrite Z.mod_small by lia. case_match; bool_simpl; lia.
Qed.

Lemma cast_s_cast_u w x : 0 < w -> cast_s w (cast_u w x) = cast_s w x.
Proof. intros. unfold cast_s. by rewrite cast_u_idemp by lia. Qed.

Lemma cast_u_cast_s w x : 0 < w -> cast_u w (cast_s w x) = cast_u w x.
Proof.
  intros Hw. unfold cast_s. case_match.
  - apply cast_u_idemp. lia.
  - unfold cast_u.
    replace (x mod 2 ^ w - 2 ^ w) with (x mod 2 ^ w + (-1) * 2 ^ w) by lia.
    rewrite Z_mod_plus_full. apply Zmod_mod.
Qed.

(** Two signed integers with the same bit pattern are equal. *)
Lemma cast_u_inj_s w x y :
  0 < w -> in_s w x -> in_s w y -> cast_u w x = cast_u w y -> x = y.
Proof.
  intros Hw Hx Hy Heq.
  rewrite <- (cast_s_id w x), <- (cast_s_id w y) by done.
  by rewrite <- (cast_s_cast_u w x), Heq, cast_s_cast_u by done.
Qed.

(** [cast_u] absorbs reductions made on the operands of [+], [-] and [*]. *)
Lemma cast_u_add w x y : cast_u w (cast_u w x + cast_u w y) = cast_u w (x + y).
Proof. unfold cast_u. by rewrite <- Zplus_mod. Qed.

Lemma cast_u_add_l w x y : cast_u w (cast_u w x + y) = cast_u w (x + y).
Proof. unfold cast_u. by rewrite Zplus_mod_idemp_l. Qed.

Lemma cast_u_sub w x y : cast_u w (cast_u w x - cast_u w y) = cast_u w (x - y).
Proof. unfold cast_u. by rewrite <- Zminus_mod. Qed.

Lemma cast_u_mul w x y : cast_u w (cast_u w x * cast_u w y) = cast_u w (x * y).
Proof. unfold cast_u. by rewrite <- Zmult_mod. Qed.

(** * Bits *)

Lemma testbit_cast_u w x i :
  0 <= w -> 0 <= i -> Z.testbit (cast_u w x) i = Z.testbit x i && (i <? w).
Proof.
  intros. unfold cast_u. destruct (Z.ltb_spec i w).
  - by rewrite Z.mod_pow2_bits_low, andb_true_r by lia.
  - by rewrite Z.mod_pow2_bits_high, andb_false_r by lia.
Qed.

Lemma testbit_in_u_high w x i : in_u w x -> w <= i -> Z.testbit x i = false.
Proof.
  intros Hx Hi. destruct (Z.lt_ge_cases w 0).
  { unfold in_u in Hx. rewrite Z.pow_neg_r in Hx by done. lia. }
  rewrite <- (cast_u_id w x Hx), testbit_cast_u by lia.
  by rewrite (proj2 (Z.ltb_ge i w)), andb_false_r by lia.
Qed.

Lemma testbit_in_u w x i :
  in_u w x -> 0 <= w -> 0 <= i -> Z.testbit x i = Z.testbit x i && (i <? w).
Proof.
  intros Hx Hw Hi. rewrite <- testbit_cast_u by done. by rewrite cast_u_id.
Qed.

Lemma in_u_of_bits w x :
  0 <= w -> 0 <= x -> (forall i, w <= i -> Z.testbit x i = false) -> in_u w x.
Proof.
  intros Hw Hx Hb. enough (cast_u w x = x) as <- by (by apply cast_u_range).
  apply Z.bits_inj'. intros i Hi. rewrite testbit_cast_u by done.
  destruct (Z.ltb_spec i w); [by rewrite andb_true_r|].
  by rewrite Hb, andb_false_r.
Qed.

(** Equality of two [w]-bit words is equality of their [w] low bits. *)
Lemma word_ext w x y :
  in_u w x -> in_u w y -> 0 <= w ->
  (forall i, 0 <= i < w -> Z.testbit x i = Z.testbit y i) -> x = y.
Proof.
  intros Hx Hy Hw Hb. apply Z.bits_inj'. intros i Hi.
  destruct (Z.lt_ge_cases i w); [by apply Hb|].
  by rewrite (testbit_in_u_high w x), (testbit_in_u_high w y).
Qed.

(** Above the sign bit, a signed word repeats its sign. *)
Lemma testbit_in_s w x i :
  0 < w -> in_s w x -> w - 1 <= i -> Z.testbit x i = (x <? 0).
Proof.
  intros Hw Hx Hi. unfold in_s in Hx. destruct (Z.ltb_spec x 0).
  - rewrite <- (Z.lnot_involutive x), Z.lnot_spec by lia.
    rewrite (testbit_in_u_high (w - 1)); [done| |done].
    unfold in_u, Z.lnot. lia.
  - apply (testbit_in_u_high (w - 1)); [|done]. unfold in_u. lia.
Qed.

Lemma testbit_cast_s w x i :
  0 < w -> 0 <= i ->
  Z.testbit (cast_s w x) i = Z.testbit x (if i <? w then i else w - 1).
Proof.
  intros Hw Hi.
  assert (Hlow : forall j, 0 <= j < w -> Z.testbit (cast_s w x) j = Z.testbit x j).
  { intros j Hj. pose proof (testbit_cast_u w x j) as E1.
    rewrite <- (cast_u_cast_s w x), testbit_cast_u in E1 by lia.
    rewrite (proj2 (Z.ltb_lt j w)), !andb_true_r in E1 by lia. apply E1; lia. }
  pose proof (cast_s_range w x Hw) as Hs. destruct (Z.ltb_spec i w); [by apply Hlow|].
  rewrite (testbit_in_s w) by (done || lia).
  by rewrite <- Hlow, (testbit_in_s w) by (done || lia).
Qed.

Lemma testbit_shl_u w x n i :
  0 <= w -> 0 <= i ->
  Z.testbit (shl_u w x n) i = Z.testbit x (i - n) && (i <? w).
Proof.
  intros. unfold shl_u. by rewrite testbit_cast_u, Z.shiftl_spec by done.
Qed.

Lemma testbit_shr_u x n i : 0 <= i -> Z.testbit (shr_u x n) i = Z.testbit x (i + n).
Proof. intros. unfold shr_u. by rewrite Z.shiftr_spec. Qed.

Lemma testbit_not_u w x i :
  0 <= w -> 0 <= i -> Z.testbit (not_u w x) i = negb (Z.testbit x i) && (i <? w).
Proof.
  intros. unfold not_u. by rewrite testbit_cast_u, Z.lnot_spec by done.
Qed.

Lemma testbit_ones n i :
  0 <= n -> 0 <= i -> Z.testbit (Z.ones n) i = (i <? n).
Proof.
  intros. destruct (Z.ltb_spec i n).
  - by apply Z.ones_spec_low.
  - by apply Z.ones_spec_high.
Qed.

#[export] Hint Rewrite Z.land_spec Z.lor_spec Z.lxor_spec Z.testbit_0_l : bits.
#[export] Hint Rewrite testbit_shl_u testbit_shr_u testbit_not_u testbit_cast_u
  testbit_ones Z.shiftl_spec Z.shiftr_spec Z.lnot_spec using lia : bits.
#[export] Hint Rewrite Z.testbit_neg_r using lia : bits.

Lemma land_ones_u w x : 0 <= w -> in_u w x -> Z.land x (2 ^ w - 1) = x.
Proof.
  intros Hw Hx. replace (2 ^ w - 1) with (Z.ones w) by (rewrite Z.ones_equiv; lia).
  rewrite Z.land_ones by done. by apply Z.mod_small.
Qed.

(** A word whose tested bit is clear or set. *)
Lemma land_bit_zero w x n :
  0 <= n < w -> (Z.land x (shl_u w 1 n) =? 0) = negb (Z.testbit x n).
Proof.
  intros Hn. assert (E : shl_u w 1 n = 2 ^ n).
  { unfold shl_u. rewrite Z.shiftl_1_l. apply cast_u_id. split; [lia|].
    apply Z.pow_lt_mono_r; lia. }
  rewrite E. destruct (Z.testbit x n) eqn:Eb; cbn [negb].
  - apply Z.eqb_neq. intros Hz. assert (Z.testbit (Z.land x (2 ^ n)) n = true) as Ht.
    { rewrite Z.land_spec, Eb, Z.pow2_bits_true by lia. done. }
    by rewrite Hz, Z.testbit_0_l in Ht.
  - apply Z.eqb_eq. apply Z.bits_inj'. intros i Hi.
    rewrite Z.land_spec, Z.pow2_bits_eqb, Z.testbit_0_l by lia.
    destruct (Z.eqb_spec n i) as [<-|]; [by rewrite Eb|apply andb_false_r].
Qed.

(** Prove an equality of words by comparing bits; the arithmetic on the bit
    positions is left to [lia]. *)
Ltac split_ltb :=
  repeat match goal with
  | |- context [?a <? ?b] => destruct (Z.ltb_spec a b); try lia
  end.

Ltac bitwise :=
  apply Z.bits_inj'; intros ?i ?Hi; autorewrite with bits; split_ltb;
  autorewrite with bits; try btauto.

(** * Ranges of the operators *)

Lemma in_u_land_l w x y : 0 <= w -> in_u w x -> 0 <= y -> in_u w (Z.land x y).
Proof.
  intros Hw Hx Hy. apply in_u_of_bits; [done| |].
  - apply Z.land_nonneg. left. apply Hx.
  - intros i Hi. by rewrite Z.land_spec, (testbit_in_u_high w x).
Qed.

Lemma in_u_land_r w x y : 0 <= w -> in_u w y -> in_u w (Z.land x y).
Proof.
  intros Hw Hy. apply in_u_of_bits; [done| |].
  - apply Z.land_nonneg. right. apply Hy.
  - intros i Hi. by rewrite Z.land_spec, (testbit_in_u_high w y), andb_false_r.
Qed.

Lemma in_u_lor w x y : 0 <= w -> in_u w x -> in_u w y -> in_u w (Z.lor x y).
Proof.
  intros Hw Hx Hy. apply in_u_of_bits; [done| |].
  - apply Z.lor_nonneg. split; [apply Hx|apply Hy].
  - intros i Hi. by rewrite Z.lor_spec, !(testbit_in_u_high w).
Qed.

Lemma in_u_lxor w x y : 0 <= w -> in_u w x -> in_u w y -> in_u w (Z.lxor x y).
Proof.
  intros Hw Hx Hy. apply in_u_of_bits; [done| |].
  - apply Z.lxor_nonneg. destruct Hx, Hy. lia.
  - intros i Hi. by rewrite Z.lxor_spec, !(testbit_in_u_high w).
Qed.

Lemma in_u_shr w x n : 0 <= w -> 0 <= n -> in_u w x -> in_u w (shr_u x n).
Proof.
  intros Hw Hn Hx. apply in_u_of_bits; [done| |].
  - apply Z.shiftr_nonneg. apply Hx.
  - intros i Hi. rewrite testbit_shr_u by lia. apply (testbit_in_u_high w); [done|lia].
Qed.

Lemma in_u_mono w w' x : 0 <= w <= w' -> in_u w x -> in_u w' x.
Proof.
  intros Hw Hx. unfold in_u in *. pose proof (Z.pow_le_mono_r 2 w w'). lia.
Qed.

Lemma in_u_add w x y : 0 <= w -> in_u w (add_u w x y).
Proof. apply cast_u_range. Qed.
Lemma in_u_sub w x y : 0 <= w -> in_u w (sub_u w x y).
Proof. apply cast_u_range. Qed.
Lemma in_u_mul w x y : 0 <= w -> in_u w (mul_u w x y).
Proof. apply cast_u_range. Qed.
Lemma in_u_not w x : 0 <= w -> in_u w (not_u w x).
Proof. apply cast_u_range. Qed.
Lemma in_u_shl w x n : 0 <= w -> in_u w (shl_u w x n).
Proof. apply cast_u_range. Qed.

Lemma in_u_rotl w x n : 0 <= n <= w -> in_u w x -> in_u w (rotl_u w x n).
Proof.
  intros Hn Hx. apply in_u_lor; [lia| |]; [apply in_u_shl; lia|].
  apply in_u_shr; [lia..|done].
Qed.

Lemma in_u_rotr w x n : 0 <= n <= w -> in_u w x -> in_u w (rotr_u w x n).
Proof.
  intros Hn Hx. apply in_u_lor; [lia| |]; [|apply in_u_shl; lia].
  apply in_u_shr; [lia..|done].
Qed.

#[export] Hint Resolve cast_u_range in_u_land_r in_u_lor in_u_lxor in_u_shr
  in_u_add in_u_sub in_u_mul in_u_not in_u_shl in_u_rotl in_u_rotr : word.
#[export] Hint Extern 2 (_ <= _) => lia : word.
#[export] Hint Extern 2 (_ <= _ <= _) => lia : word.

(** * Rotations *)

Lemma testbit_rotl_u w x n i :
  0 <= n < w -> in_u w x -> 0 <= i < w ->
  Z.testbit (rotl_u w x n) i = Z.testbit x ((i - n) mod w).
Proof.
  intros Hn Hx Hi. unfold rotl_u. autorewrite with bits.
  destruct (Z.lt_ge_cases i n).
  - rewrite (Z.testbit_neg_r x (i - n)) by lia. cbn.
    f_equal. rewrite <- (Z_mod_plus_full (i - n) 1), Z.mod_small; lia.
  - rewrite (testbit_in_u_high w x (i + (w - n))) by (done || lia).
    rewrite (proj2 (Z.ltb_lt i w)), andb_true_r, orb_false_r by lia.
    by rewrite Z.mod_small by lia.
Qed.

Lemma rotr_rotl_u w x n :
  0 < n < w -> rotr_u w x n = rotl_u w x (w - n).
Proof.
  intros. unfold rotr_u, rotl_u. rewrite Z.lor_comm.
  by replace (w - (w - n)) with n by lia.
Qed.

(** A rotation is undone by the complementary one. *)
Lemma rotl_rotr_u w x n :
  0 < n < w -> in_u w x -> rotr_u w (rotl_u w x n) n = x.
Proof.
  intros Hn Hx. assert (in_u w (rotl_u w x n)) by (apply in_u_rotl; [lia|done]).
  rewrite rotr_rotl_u by done.
  apply (word_ext w); [apply in_u_rotl; [lia|done]|done|lia|].
  intros i Hi. rewrite !testbit_rotl_u; try done; try lia.
  2: { apply Z.mod_pos_bound. lia. }
  f_equal. rewrite Zminus_mod_idemp_l.
  replace (i - (w - n) - n) with (i + (-1) * w) by lia.
  rewrite Z_mod_plus_full. by apply Z.mod_small.
Qed.

(** * Counting zeros *)

Lemma builtin_ctz_spec w n :
  0 <= w -> in_u w n -> n <> 0 ->
  0 <= builtin_ctz w n < w /\ Z.testbit n (builtin_ctz w n) = true /\
  (forall j, 0 <= j < builtin_ctz w n -> Z.testbit n j = false).
Proof.
  intros Hw Hn Hz. unfold builtin_ctz.
  destruct (list_find _ _) as [[k i]|] eqn:E.
  - apply list_find_Some in E as (Hk & Hb & Hlow). cbn in Hb.
    assert (Hki : forall k i, zseq (Z.to_nat w) !! k = Some i ->
                  i = Z.of_nat k /\ 0 <= i < w).
    { unfold zseq. intros k' i' Hk'. rewrite list_lookup_fmap in Hk'.
      destruct (seq 0 _ !! k') as [x|] eqn:Ex; [|done]. cbn in Hk'. injection Hk' as <-.
      apply lookup_seq in Ex as [-> ?]. lia. }
    destruct (Hki k i Hk) as [Hik Hir]. split; [done|]. split; [done|].
    intros j Hj. destruct (zseq (Z.to_nat w) !! Z.to_nat j) as [x|] eqn:Ex.
    + destruct (Hki _ _ Ex) as [-> _]. rewrite Z2Nat.id in Ex by lia.
      specialize (Hlow _ _ Ex ltac:(lia)). by apply not_true_is_false in Hlow.
    + apply lookup_ge_None in Ex. rewrite length_zseq in Ex. lia.
  - exfalso. apply Hz. apply (word_ext w); [done| |done|].
    { split; [lia|by apply pow2_pos]. }
    intros i Hi. rewrite Z.testbit_0_l.
    apply list_find_None in E. rewrite Forall_forall in E.
    specialize (E i). cbn in E. apply not_true_is_false. apply E. apply elem_of_zseq. lia.
Qed.

Lemma builtin_clz_spec w n :
  in_u w n -> n <> 0 ->
  0 <= builtin_clz w n < w /\ Z.testbit n (w - 1 - builtin_clz w n) = true /\
  (forall j, 0 <= j < builtin_clz w n -> Z.testbit n (w - 1 - j) = false).
Proof.
  intros Hn Hz. unfold in_u in Hn. unfold builtin_clz.
  assert (Hl : Z.log2 n < w) by (apply Z.log2_lt_pow2; lia).
  pose proof (Z.log2_nonneg n). replace (w - 1 - (w - 1 - Z.log2 n)) with (Z.log2 n) by lia.
  split; [lia|]. split; [apply Z.bit_log2; lia|].
  intros j Hj. apply Z.bits_above_log2; lia.
Qed.
