(* ===== verification/Bytes.v ===== *)
(** Words as sequences of bytes: the little-endian and big-endian splittings
    that the code writes out as shifts, masks and ors (byte swaps, the block
    loaders and the length fields of the hash functions, the fixed-width
    fields of the bytecode). *)
From S2P Require Import Prelude Word.
Open Scope Z_scope.

Definition byte_list (l : list Z) : Prop := Forall (in_u 8) l.

(** The [n] low bytes of a word, the least significant first. *)
Fixpoint le_split (n : nat) (x : Z) : list Z :=
  match n with
  | O => []
  | S k => u8 x :: le_split k (Z.shiftr x 8)
  end.

Fixpoint le_combine (l : list Z) : Z :=
  match l with
  | [] => 0
  | b :: l' => Z.lor b (Z.shiftl (le_combine l') 8)
  end.

Definition be_split (n : nat) (x : Z) : list Z := rev (le_split n x).
Definition be_combine (l : list Z) : Z := le_combine (rev l).

Lemma length_le_split n x : length (le_split n x) = n.
Proof. revert x. induction n as [|n IH]; intros; cbn; [done|]. by rewrite IH. Qed.

Lemma length_be_split n x : length (be_split n x) = n.
Proof. unfold be_split. by rewrite length_rev, length_le_split. Qed.

Lemma le_split_bytes n x : byte_list (le_split n x).
Proof.
  revert x. induction n as [|n IH]; intros; cbn; constructor; [auto with word|apply IH].
Qed.

Lemma byte_list_rev l : byte_list l -> byte_list (rev l).
Proof. unfold byte_list. intros Hl. by apply Forall_rev. Qed.

Lemma be_split_bytes n x : byte_list (be_split n x).
Proof. apply byte_list_rev, le_split_bytes. Qed.

Lemma testbit_le_combine_nil i : Z.testbit (le_combine []) i = false.
Proof. apply Z.testbit_0_l. Qed.

Lemma testbit_le_combine_cons b l i :
  in_u 8 b -> 0 <= i ->
  Z.testbit (le_combine (b :: l)) i =
    if i <? 8 then Z.testbit b i else Z.testbit (le_combine l) (i - 8).
Proof.
  intros Hb Hi. cbn [le_combine]. rewrite Z.lor_spec, Z.shiftl_spec by done.
  destruct (Z.ltb_spec i 8).
  - by rewrite (Z.testbit_neg_r _ (i - 8)), orb_false_r by lia.
  - by rewrite (testbit_in_u_high 8 b) by (done || lia).
Qed.

Lemma le_combine_nonneg l : byte_list l -> 0 <= le_combine l.
Proof.
  induction 1 as [|b l Hb _ IH]; cbn; [done|].
  apply Z.lor_nonneg. split; [apply Hb|]. by apply Z.shiftl_nonneg.
Qed.

Lemma le_combine_range l : byte_list l -> in_u (8 * Z.of_nat (length l)) (le_combine l).
Proof.
  intros Hl. apply in_u_of_bits; [lia|by apply le_combine_nonneg|].
  induction Hl as [|b l Hb Hl IH]; intros i Hi.
  { apply testbit_le_combine_nil. }
  cbn [length] in Hi. rewrite testbit_le_combine_cons by (done || lia).
  rewrite (proj2 (Z.ltb_ge i 8)) by lia. apply IH. lia.
Qed.

Lemma testbit_le_combine_split n x i :
  0 <= i -> Z.testbit (le_combine (le_split n x)) i = Z.testbit x i && (i <? 8 * Z.of_nat n).
Proof.
  revert x i. induction n as [|n IH]; intros x i Hi; cbn [le_split].
  { rewrite testbit_le_combine_nil. rewrite (proj2 (Z.ltb_ge _ _)) by lia.
    by rewrite andb_false_r. }
  rewrite testbit_le_combine_cons by (auto with word). destruct (Z.ltb_spec i 8).
  - rewrite testbit_cast_u by lia. split_ltb. done.
  - rewrite IH, Z.shiftr_spec by lia. f_equal; [f_equal; lia|].
    destruct (Z.ltb_spec (i - 8) (8 * Z.of_nat n)); split_ltb; done.
Qed.

(** Combining undoes splitting, and splitting undoes combining. *)
Lemma le_combine_split n x : le_combine (le_split n x) = cast_u (8 * Z.of_nat n) x.
Proof.
  apply Z.bits_inj'. intros i Hi. by rewrite testbit_le_combine_split, testbit_cast_u by lia.
Qed.

Lemma le_split_combine l : byte_list l -> le_split (length l) (le_combine l) = l.
Proof.
  induction 1 as [|b l Hb Hl IH]; cbn [length le_split le_combine]; [done|].
  f_equal.
  - apply (word_ext 8); [auto with word|done|lia|]. intros i Hi.
    rewrite testbit_cast_u, Z.lor_spec, Z.shiftl_spec, (Z.testbit_neg_r _ (i - 8)) by lia.
    split_ltb. by rewrite orb_false_r, andb_true_r.
  - etransitivity; [|exact IH]. f_equal. apply Z.bits_inj'. intros i Hi.
    rewrite Z.shiftr_spec, Z.lor_spec, Z.shiftl_spec by lia.
    rewrite (testbit_in_u_high 8 b) by (done || lia). cbn [orb]. f_equal. lia.
Qed.

Lemma be_split_combine l : byte_list l -> be_split (length l) (be_combine l) = l.
Proof.
  intros Hl. unfold be_split, be_combine. rewrite <- (length_rev l), le_split_combine.
  - apply rev_involutive.
  - by apply byte_list_rev.
Qed.

Lemma be_combine_split n x : be_combine (be_split n x) = cast_u (8 * Z.of_nat n) x.
Proof. unfold be_combine, be_split. by rewrite rev_involutive, le_combine_split. Qed.

Lemma be_combine_range l : byte_list l -> in_u (8 * Z.of_nat (length l)) (be_combine l).
Proof.
  intros Hl. unfold be_combine. rewrite <- length_rev. by apply le_combine_range, byte_list_rev.
Qed.

(** A mask that selects one byte. *)
Lemma testbit_byte_mask k i :
  0 <= k -> 0 <= i -> Z.testbit (Z.shiftl 255 k) i = (k <=? i) && (i <? k + 8).
Proof.
  intros. rewrite Z.shiftl_spec by done. change 255 with (Z.ones 8).
  destruct (Z.leb_spec k i).
  - rewrite testbit_ones by lia. split_ltb; done.
  - by rewrite Z.testbit_neg_r by lia.
Qed.

(** One byte of a word moved up or down, as a byte swap writes it. *)
Lemma move_byte_up w a k d :
  0 <= k -> 0 <= d -> k + d + 8 <= w ->
  shl_u w (Z.land a (Z.shiftl 255 k)) d = Z.shiftl (u8 (Z.shiftr a k)) (k + d).
Proof.
  intros. apply Z.bits_inj'. intros i Hi. rewrite testbit_shl_u, Z.shiftl_spec, Z.land_spec by lia.
  destruct (Z.lt_ge_cases i d); [by rewrite !(Z.testbit_neg_r _ (_ - _)) by lia|].
  rewrite testbit_byte_mask by lia. destruct (Z.leb_spec k (i - d)).
  - rewrite testbit_cast_u, Z.shiftr_spec by lia. split_ltb;
      rewrite ?andb_true_r, ?andb_false_r; try done. f_equal. lia.
  - by rewrite andb_false_r, (Z.testbit_neg_r _ (i - (k + d))) by lia.
Qed.

Lemma move_byte_down a k d :
  0 <= d <= k -> shr_u (Z.land a (Z.shiftl 255 k)) d = Z.shiftl (u8 (Z.shiftr a k)) (k - d).
Proof.
  intros. apply Z.bits_inj'. intros i Hi. rewrite testbit_shr_u, Z.shiftl_spec, Z.land_spec by lia.
  rewrite testbit_byte_mask by lia. destruct (Z.leb_spec k (i + d)).
  - rewrite testbit_cast_u, Z.shiftr_spec by lia. split_ltb;
      rewrite ?andb_true_r, ?andb_false_r; try done. f_equal. lia.
  - by rewrite andb_false_r, (Z.testbit_neg_r _ (i - (k - d))) by lia.
Qed.

Lemma le_split_cast n x : le_split n (cast_u (8 * Z.of_nat n) x) = le_split n x.
Proof.
  rewrite <- le_combine_split. rewrite <- (length_le_split n x) at 1.
  apply le_split_combine, le_split_bytes.
Qed.

Lemma le_split_u64 x : le_split 8 (u64 x) = le_split 8 x.
Proof. exact (le_split_cast 8 x). Qed.

Lemma le_split_u32 x : le_split 4 (u32 x) = le_split 4 x.
Proof. exact (le_split_cast 4 x). Qed.

#[export] Hint Resolve le_split_bytes be_split_bytes byte_list_rev : word.

(** A property of every byte, decided by enumeration. *)
Lemma bytes_forall (f : Z -> bool) :
  forallb f (zseq 256) = true -> forall b, in_u 8 b -> f b = true.
Proof.
  intros H b Hb. rewrite forallb_forall in H. apply H. rewrite <- list_elem_of_In.
  by apply elem_of_zseq.
Qed.

(** Equality of bytes, bit by bit with the bit positions computed. *)
Lemma byte_ext x y :
  in_u 8 x -> in_u 8 y ->
  Z.testbit x 0 = Z.testbit y 0 -> Z.testbit x 1 = Z.testbit y 1 ->
  Z.testbit x 2 = Z.testbit y 2 -> Z.testbit x 3 = Z.testbit y 3 ->
  Z.testbit x 4 = Z.testbit y 4 -> Z.testbit x 5 = Z.testbit y 5 ->
  Z.testbit x 6 = Z.testbit y 6 -> Z.testbit x 7 = Z.testbit y 7 -> x = y.
Proof.
  intros Hx Hy H0 H1 H2 H3 H4 H5 H6 H7. apply (word_ext 8); [done..|]. intros i Hi.
  assert (i = 0 \/ i = 1 \/ i = 2 \/ i = 3 \/ i = 4 \/ i = 5 \/ i = 6 \/ i = 7) as Hc by lia.
  by destruct Hc as [->|[->|[->|[->|[->|[->|[->| ->]]]]]]].
Qed.

Ltac compute_positions :=
  repeat match goal with
  | |- context [Z.testbit ?a ?n] =>
      let m := eval vm_compute in n in progress change (Z.testbit a n) with (Z.testbit a m)
  | |- context [?a <? ?b] =>
      let m := eval vm_compute in (a <? b) in
      match m with true => idtac | false => idtac end; change (a <? b) with m
  end.

Ltac byte_bits :=
  apply byte_ext; [auto with word..| | | | | | | |]; autorewrite with bits;
  compute_positions; rewrite ?Z.testbit_neg_r by lia; btauto.
