(* ===== verification/Double.v ===== *)
(** IEEE binary64 numbers, the [double] of the C++ code, as the standard
    library's [spec_float] at precision 53 and exponent bound 1024, with the
    conversions the VM uses ([luai_num2int], [luai_num2long],
    [luai_num2unsigned], [cast_num]) and the [floor]/[trunc] family of the C
    library.  A NaN has no payload here; nothing modelled looks at one. *)
From Stdlib Require Export SpecFloat.
From S2P Require Import Prelude Word.
Open Scope Z_scope.

Abbreviation double := spec_float.

#[export] Instance spec_float_eq_dec : EqDecision spec_float.
Proof. solve_decision. Defined.

(** A bit pattern that is a binary64 number: canonical mantissa, bounded
    exponent. *)
Definition valid_double (d : double) : bool := valid_binary 53 1024 d.

Definition d_add (a b : double) : double := SFadd 53 1024 a b.
Definition d_sub (a b : double) : double := SFsub 53 1024 a b.
Definition d_mul (a b : double) : double := SFmul 53 1024 a b.
Definition d_div (a b : double) : double := SFdiv 53 1024 a b.
Definition d_neg (a : double) : double := SFopp a.
Definition d_eq (a b : double) : bool := SFeqb a b.
Definition d_lt (a b : double) : bool := SFltb a b.
Definition d_le (a b : double) : bool := SFleb a b.

Definition d_isnan (d : double) : bool :=
  match d with S754_nan => true | _ => false end.

Definition d_isfinite (d : double) : bool :=
  match d with S754_zero _ | S754_finite _ _ _ => true | _ => false end.

(** [cast_num]: conversion from an integer type, rounding to nearest even. *)
Definition double_of_Z (z : Z) : double := binary_normalize 53 1024 z 0 false.

(** The integer part of a finite number, rounded toward zero. *)
Definition trunc_Z (d : double) : option Z :=
  match d with
  | S754_zero _ => Some 0
  | S754_finite s m e => Some (cond_Zopp s (Z.shiftl (Zpos m) e))
  | _ => None
  end.

(** [m * 2^e] is an integer. *)
Definition exact_int (m : positive) (e : Z) : bool :=
  Z.shiftl (Z.shiftl (Zpos m) e) (- e) =? Zpos m.

(** [std::isfinite(d) && std::trunc(d) == d] *)
Definition is_integral (d : double) : bool :=
  match d with
  | S754_zero _ => true
  | S754_finite s m e => exact_int m e
  | _ => false
  end.

(** [floor]: toward minus infinity; zeros, infinities and NaN are unchanged. *)
Definition d_floor (d : double) : double :=
  match d with
  | S754_finite s m e =>
      if exact_int m e then d
      else if s then double_of_Z (- Z.shiftl (Zpos m) e - 1)
           else double_of_Z (Z.shiftl (Zpos m) e)
  | _ => d
  end.

(** * Conversions to integer types

    A conversion of a value whose integer part does not fit the destination is
    undefined in C++; the VM relies on the target's conversion instruction
    yielding some value of the destination type.  The value is a parameter of
    the model, so that a theorem holds whatever the target yields. *)
Class Target := {
  oob_int : double -> Z;
  oob_int64 : double -> Z;
  oob_int_range : forall d, in_s 32 (oob_int d);
  oob_int64_range : forall d, in_s 64 (oob_int64 d);
}.

(** x86-64: [cvttsd2si] yields the "integer indefinite" value. *)
#[export, refine] Instance x86_64 : Target := {|
  oob_int := fun _ => - 2 ^ 31;
  oob_int64 := fun _ => - 2 ^ 63;
|}.
Proof. all: unfold in_s; lia. Defined.

Section Conversions.
Context `{Target}.

Definition fits_s (w z : Z) : bool := (- 2 ^ (w - 1) <=? z) && (z <? 2 ^ (w - 1)).

(** [luai_num2int]: [(int)(d)] *)
Definition luai_num2int (d : double) : Z :=
  match trunc_Z d with
  | Some z => if fits_s 32 z then z else oob_int d
  | None => oob_int d
  end.

(** [luai_num2long]: [(int64_t)(d)] *)
Definition luai_num2long (d : double) : Z :=
  match trunc_Z d with
  | Some z => if fits_s 64 z then z else oob_int64 d
  | None => oob_int64 d
  end.

(** [luai_num2unsigned]: [(unsigned)(long long)(d)] *)
Definition luai_num2unsigned (d : double) : Z := u32 (luai_num2long d).

Lemma fits_s_spec w z : fits_s w z = true <-> in_s w z.
Proof.
  unfold fits_s, in_s. rewrite andb_true_iff, Z.leb_le, Z.ltb_lt. done.
Qed.

Lemma luai_num2int_range d : in_s 32 (luai_num2int d).
Proof.
  unfold luai_num2int. repeat case_match; try apply oob_int_range.
  by apply fits_s_spec.
Qed.

Lemma luai_num2long_range d : in_s 64 (luai_num2long d).
Proof.
  unfold luai_num2long. repeat case_match; try apply oob_int64_range.
  by apply fits_s_spec.
Qed.

Lemma luai_num2unsigned_range d : in_u 32 (luai_num2unsigned d).
Proof. by apply cast_u_range. Qed.
End Conversions.

#[export] Hint Resolve luai_num2int_range luai_num2long_range
  luai_num2unsigned_range : word.

(** * Integers below [2^53] are represented exactly *)

Lemma digits2_pos_bounds m :
  2 ^ (Zpos (digits2_pos m) - 1) <= Zpos m < 2 ^ Zpos (digits2_pos m).
Proof.
  induction m as [m IH|m IH|]; simpl digits2_pos; [| |done].
  all: rewrite Pos2Z.inj_succ; replace (Z.succ _ - 1) with (Zpos (digits2_pos m)) by lia.
  all: rewrite Z.pow_succ_r by lia.
  all: pose proof (Z.pow_succ_r 2 (Zpos (digits2_pos m) - 1) ltac:(lia)) as E;
       replace (Z.succ (Zpos (digits2_pos m) - 1)) with (Zpos (digits2_pos m)) in E by lia; lia.
Qed.

Lemma digits2_pos_unique m d :
  0 < d -> 2 ^ (d - 1) <= Zpos m < 2 ^ d -> Zpos (digits2_pos m) = d.
Proof.
  intros Hd Hm. pose proof (digits2_pos_bounds m) as Hb.
  destruct (Z.lt_trichotomy (Zpos (digits2_pos m)) d) as [Hlt|[?|Hgt]]; [|done|].
  - pose proof (Z.pow_le_mono_r 2 (Zpos (digits2_pos m)) (d - 1)). lia.
  - pose proof (Z.pow_le_mono_r 2 d (Zpos (digits2_pos m) - 1)). lia.
Qed.

Lemma Pos_iter_xO m d : Zpos (Pos.iter xO m d) = Zpos m * 2 ^ Zpos d.
Proof.
  revert m. induction d as [|d IH] using Pos.peano_ind; intros m.
  - simpl. lia.
  - rewrite Pos.iter_succ, Pos2Z.inj_xO, IH, Pos2Z.inj_succ, Z.pow_succ_r by lia. lia.
Qed.

(** Rounding a mantissa that already has 53 digits changes nothing. *)
Lemma binary_round_aux_exact s m e :
  Zpos (digits2_pos m) = 53 -> emin 53 1024 <= e <= 971 ->
  binary_round_aux 53 1024 s (Zpos m) e loc_Exact = S754_finite s m e.
Proof.
  intros Hd He. unfold emin in He. unfold binary_round_aux, shr_fexp.
  assert (Hf : fexp 53 1024 (Zdigits2 (Zpos m) + e) - e = 0).
  { unfold fexp, Zdigits2, emin. lia. }
  rewrite Hf. cbn [shr shr_m shr_record_of_loc loc_of_shr_record round_nearest_even].
  rewrite Hf. cbn [shr shr_m shr_record_of_loc].
  rewrite (proj2 (Z.leb_le e _)) by lia. done.
Qed.

Lemma binary_round_small s m :
  Zpos m < 2 ^ 53 ->
  exists m' k, 0 <= k <= 52 /\ Zpos m' = Zpos m * 2 ^ k /\
    binary_round 53 1024 s m 0 = S754_finite s m' (- k) /\
    Zpos (digits2_pos m') = 53.
Proof.
  intros Hm. pose proof (digits2_pos_bounds m) as Hb.
  assert (Hd : Zpos (digits2_pos m) <= 53).
  { destruct (Z.le_gt_cases (Zpos (digits2_pos m)) 53); [done|].
    pose proof (Z.pow_le_mono_r 2 53 (Zpos (digits2_pos m) - 1)). lia. }
  unfold binary_round, shl_align.
  assert (Hf : fexp 53 1024 (Zpos (digits2_pos m) + 0) = Zpos (digits2_pos m) - 53).
  { unfold fexp, emin. lia. }
  rewrite Hf, Z.sub_0_r. destruct (Zpos (digits2_pos m) - 53) as [|p|p] eqn:Ek; [|lia|].
  - exists m, 0. rewrite Z.mul_1_r. repeat split; try lia.
    apply binary_round_aux_exact; unfold emin; lia.
  - assert (Hdig : Zpos (digits2_pos (Pos.iter xO m p)) = 53).
    { apply digits2_pos_unique; [lia|]. rewrite Pos_iter_xO.
      replace 53 with (Zpos (digits2_pos m) + Zpos p) by lia.
      rewrite Z.pow_add_r by lia.
      replace (Zpos (digits2_pos m) + Zpos p - 1)
        with (Zpos (digits2_pos m) - 1 + Zpos p) by lia.
      rewrite Z.pow_add_r by lia. pose proof (pow2_pos (Zpos p)). nia. }
    exists (Pos.iter xO m p), (Zpos p). split; [lia|]. split; [apply Pos_iter_xO|].
    split; [|done]. apply binary_round_aux_exact; unfold emin; lia.
Qed.

Lemma shiftl_neg_exact a k : 0 <= k -> Z.shiftl (a * 2 ^ k) (- k) = a.
Proof.
  intros Hk. rewrite Z.shiftl_opp_r, Z.shiftr_div_pow2 by done.
  apply Z.div_mul. pose proof (pow2_pos k). lia.
Qed.

(** What [double_of_Z] yields on a nonzero integer below [2^53]: the integer,
    scaled to a 53-bit mantissa. *)
Lemma double_of_Z_spec z :
  z <> 0 -> Z.abs z < 2 ^ 53 ->
  exists m k, 0 <= k <= 52 /\ Zpos m = Z.abs z * 2 ^ k /\
    double_of_Z z = S754_finite (z <? 0) m (- k) /\ Zpos (digits2_pos m) = 53.
Proof.
  intros Hz Hb. unfold double_of_Z, binary_normalize. destruct z as [|p|p]; [done| |].
  - destruct (binary_round_small false p) as (m & k & ?); [lia|]. exists m, k. naive_solver.
  - destruct (binary_round_small true p) as (m & k & ?); [lia|]. exists m, k. naive_solver.
Qed.

Lemma trunc_Z_double_of_Z z : Z.abs z < 2 ^ 53 -> trunc_Z (double_of_Z z) = Some z.
Proof.
  intros Hb. destruct (decide (z = 0)) as [->|Hz]; [done|].
  destruct (double_of_Z_spec z Hz Hb) as (m & k & Hk & Hm & -> & _).
  cbn [trunc_Z]. rewrite Hm, shiftl_neg_exact by lia. f_equal.
  unfold cond_Zopp. destruct (Z.ltb_spec z 0); lia.
Qed.

Lemma is_integral_double_of_Z z :
  Z.abs z < 2 ^ 53 -> is_integral (double_of_Z z) = true.
Proof.
  intros Hb. destruct (decide (z = 0)) as [->|Hz]; [done|].
  destruct (double_of_Z_spec z Hz Hb) as (m & k & Hk & Hm & -> & _).
  cbn [is_integral]. unfold exact_int. apply Z.eqb_eq.
  rewrite Hm, shiftl_neg_exact, Z.opp_involutive, Z.shiftl_mul_pow2 by lia. done.
Qed.

Lemma valid_double_of_Z z : Z.abs z < 2 ^ 53 -> valid_double (double_of_Z z) = true.
Proof.
  intros Hb. destruct (decide (z = 0)) as [->|Hz]; [done|].
  destruct (double_of_Z_spec z Hz Hb) as (m & k & Hk & Hm & -> & Hd).
  cbn. unfold bounded, canonical_mantissa, fexp, emin. rewrite Hd.
  apply andb_true_intro. split; [apply Z.eqb_eq|apply Z.leb_le]; lia.
Qed.

Lemma luai_num2long_of_Z `{Target} z :
  Z.abs z < 2 ^ 53 -> luai_num2long (double_of_Z z) = z.
Proof.
  intros Hb. unfold luai_num2long. rewrite trunc_Z_double_of_Z by done.
  destruct (fits_s 64 z) eqn:E; [done|].
  assert (in_s 64 z) as Hs by (unfold in_s; lia). apply fits_s_spec in Hs. congruence.
Qed.

Lemma luai_num2int_of_Z `{Target} z :
  in_s 32 z -> luai_num2int (double_of_Z z) = z.
Proof.
  intros Hb. unfold luai_num2int.
  rewrite trunc_Z_double_of_Z by (unfold in_s in Hb; lia).
  by rewrite (proj2 (fits_s_spec _ _) Hb).
Qed.

Lemma luai_num2unsigned_of_Z `{Target} z :
  in_u 32 z -> luai_num2unsigned (double_of_Z z) = z.
Proof.
  intros Hb. unfold luai_num2unsigned.
  rewrite luai_num2long_of_Z by (unfold in_u in Hb; lia). by apply cast_u_id.
Qed.

(** * The range test before an [int64_t] conversion

    [d >= -9223372036854775808.0 && d < 9223372036854775808.0] *)
Definition in_int64_range (d : double) : bool :=
  d_le (double_of_Z (- 2 ^ 63)) d && d_lt d (double_of_Z (2 ^ 63)).

Lemma valid_finite_inv s m e :
  valid_double (S754_finite s m e) = true ->
  Zpos m < 2 ^ 53 /\ (-1074 < e -> 2 ^ 52 <= Zpos m) /\ -1074 <= e <= 971.
Proof.
  cbn. unfold bounded, canonical_mantissa, fexp, emin. intros Hv.
  apply andb_prop in Hv as [Hc He]. apply Z.eqb_eq in Hc. apply Z.leb_le in He.
  pose proof (digits2_pos_bounds m) as Hb.
  assert (Zpos (digits2_pos m) <= 53) by lia.
  pose proof (Z.pow_le_mono_r 2 (Zpos (digits2_pos m)) 53).
  repeat split; try lia. intros Hlo.
  assert (Zpos (digits2_pos m) = 53) as Hd by lia. rewrite Hd in Hb. lia.
Qed.

Lemma shiftl_bound m e k :
  0 < m < 2 ^ 53 -> e <= k -> 0 <= k -> 0 <= Z.shiftl m e < 2 ^ (53 + k).
Proof.
  intros Hm He Hk. split; [apply Z.shiftl_nonneg; lia|].
  rewrite Z.pow_add_r by lia. destruct (Z.le_gt_cases 0 e).
  - rewrite Z.shiftl_mul_pow2 by done.
    pose proof (Z.pow_le_mono_r 2 e k). pose proof (pow2_pos e). nia.
  - replace e with (- (- e)) by lia.
    rewrite Z.shiftl_opp_r, Z.shiftr_div_pow2 by lia.
    pose proof (pow2_pos (- e)). pose proof (pow2_pos k).
    assert (m / 2 ^ (- e) <= m) by (apply Z.div_le_upper_bound; nia). nia.
Qed.

(** Order of canonical numbers of one sign: by exponent, then by mantissa. *)
Lemma d_lt_pos m1 e1 m2 e2 :
  d_lt (S754_finite false m1 e1) (S754_finite false m2 e2) = true ->
  e1 < e2 \/ (e1 = e2 /\ Zpos m1 < Zpos m2).
Proof.
  unfold d_lt, SFltb. cbn [SFcompare]. destruct (Z.compare_spec e1 e2); try done; [|by left].
  fold (Pos.compare m1 m2). destruct (Pos.compare_spec m1 m2); try done. lia.
Qed.

Lemma d_le_neg m1 e1 m2 e2 :
  d_le (S754_finite true m1 e1) (S754_finite true m2 e2) = true ->
  e2 < e1 \/ (e1 = e2 /\ Zpos m2 <= Zpos m1).
Proof.
  unfold d_le, SFleb. cbn [SFcompare]. destruct (Z.compare_spec e1 e2); try done; [|by left].
  fold (Pos.compare m1 m2). destruct (Pos.compare_spec m1 m2); cbn [CompOpp]; try done; lia.
Qed.

(** A number that passes the test has an integer part that fits [int64_t]:
    the conversion is defined and independent of the target. *)
Lemma in_int64_range_fits d :
  valid_double d = true -> in_int64_range d = true ->
  exists z, trunc_Z d = Some z /\ in_s 64 z.
Proof.
  intros Hv Hr. unfold in_int64_range in Hr. apply andb_prop in Hr as [Hlo Hhi].
  destruct d as [s|[]| |s m e]; try discriminate.
  { exists 0. split; [done|unfold in_s; lia]. }
  apply valid_finite_inv in Hv as (Hm & Hn & He). cbn [trunc_Z].
  eexists. split; [done|]. unfold in_s.
  change (double_of_Z (- 2 ^ 63)) with (S754_finite true 4503599627370496 11) in Hlo.
  change (double_of_Z (2 ^ 63)) with (S754_finite false 4503599627370496 11) in Hhi.
  destruct s; cbn [cond_Zopp].
  - apply d_le_neg in Hlo. clear Hhi Hn. destruct Hlo as [Hlt|[<- Hm']].
    + pose proof (shiftl_bound (Zpos m) e 10). lia.
    + rewrite Z.shiftl_mul_pow2 by lia. lia.
  - apply d_lt_pos in Hhi. clear Hlo. destruct Hhi as [Hlt|[-> Hm']].
    + pose proof (shiftl_bound (Zpos m) e 10). lia.
    + specialize (Hn ltac:(lia)). lia.
Qed.

Lemma luai_num2long_in_range `{Target} d z :
  trunc_Z d = Some z -> in_s 64 z -> luai_num2long d = z.
Proof.
  intros Ht Hz. unfold luai_num2long. by rewrite Ht, (proj2 (fits_s_spec 64 z) Hz).
Qed.
