(* ===== verification/DoubleExact.v ===== *)
(** Arithmetic on the numbers that hold integers: addition, subtraction and
    multiplication of integers are exact as long as the operands and the
    result stay below [2^53] in magnitude. *)
From S2P Require Import Prelude Word Double.
Open Scope Z_scope.

(** * Rounding a mantissa with trailing zeros *)

Lemma iter_pos_iter {A} (f : A -> A) p x : iter_pos f p x = Pos.iter f x p.
Proof.
  revert x. induction p as [p IH|p IH|]; intros x; cbn [iter_pos Pos.iter]; [| |done].
  - rewrite !IH. by rewrite !Pos.iter_swap.
  - by rewrite !IH.
Qed.

Lemma shr_1_double p :
  shr_1 {| shr_m := Zpos (xO p); shr_r := false; shr_s := false |}
  = {| shr_m := Zpos p; shr_r := false; shr_s := false |}.
Proof. done. Qed.

Lemma shr_exact m j e :
  shr {| shr_m := Zpos (Pos.iter xO m j); shr_r := false; shr_s := false |} e (Zpos j)
  = ({| shr_m := Zpos m; shr_r := false; shr_s := false |}, e + Zpos j).
Proof.
  unfold shr. rewrite iter_pos_iter. f_equal.
  induction j as [|j IH] using Pos.peano_ind; [done|].
  rewrite Pos.iter_succ_r, Pos.iter_succ, shr_1_double. exact IH.
Qed.

Lemma Pos_iter_xO_eq m m' j :
  Zpos m' = Zpos m * 2 ^ Zpos j -> m' = Pos.iter xO m j.
Proof. intros E. rewrite <- Pos_iter_xO in E. by injection E. Qed.

Lemma digits2_pos_scale m k j :
  0 <= j -> Zpos k = Zpos m * 2 ^ j -> Zpos (digits2_pos k) = Zpos (digits2_pos m) + j.
Proof.
  intros Hj E. pose proof (digits2_pos_bounds m) as Hb.
  apply digits2_pos_unique; [lia|]. rewrite E.
  replace (Zpos (digits2_pos m) + j - 1) with (Zpos (digits2_pos m) - 1 + j) by lia.
  rewrite !Z.pow_add_r by lia. pose proof (pow2_pos j). nia.
Qed.

(** A mantissa with 53 significant digits and [j] trailing zeros. *)
Lemma binary_round_aux_scaled s m m' e j :
  0 <= j -> Zpos (digits2_pos m) = 53 -> emin 53 1024 <= e <= 971 ->
  Zpos m' = Zpos m * 2 ^ j ->
  binary_round_aux 53 1024 s (Zpos m') (e - j) loc_Exact = S754_finite s m e.
Proof.
  intros Hj Hd He E. destruct j as [|j|j]; [| |lia].
  { rewrite Z.mul_1_r in E. injection E as ->. rewrite Z.sub_0_r.
    by apply binary_round_aux_exact. }
  pose proof (digits2_pos_scale m m' (Zpos j) Hj E) as Hd'.
  apply Pos_iter_xO_eq in E as ->.
  unfold binary_round_aux, shr_fexp at 1. cbn [shr_record_of_loc Zdigits2].
  rewrite Hd', Hd. replace (fexp 53 1024 (53 + Zpos j + (e - Zpos j))) with e
    by (unfold fexp, emin in *; lia).
  replace (e - (e - Zpos j)) with (Zpos j) by lia. rewrite shr_exact.
  cbn [shr_m loc_of_shr_record round_nearest_even].
  replace (e - Zpos j + Zpos j) with e by lia.
  unfold shr_fexp. cbn [shr_record_of_loc Zdigits2]. rewrite Hd.
  replace (fexp 53 1024 (53 + e) - e) with 0 by (unfold fexp, emin in *; lia).
  cbn [shr shr_m]. by rewrite (proj2 (Z.leb_le e _)) by lia.
Qed.

(** The mantissa of an integer, at whatever scale it comes. *)
Lemma binary_round_aux_int s z m k :
  0 < z < 2 ^ 53 -> 0 <= k -> Zpos m = z * 2 ^ k ->
  53 <= Zpos (digits2_pos m) ->
  binary_round_aux 53 1024 s (Zpos m) (- k) loc_Exact
  = double_of_Z (if s then - z else z).
Proof.
  intros Hz Hk Hm Hd.
  destruct (double_of_Z_spec (if s then - z else z)) as (m0 & k0 & Hk0 & Hm0 & -> & Hd0);
    [destruct s; lia..|].
  replace (Z.abs (if s then - z else z)) with z in Hm0 by (destruct s; lia).
  replace ((if s then - z else z) <? 0) with s by (destruct s; lia).
  assert (Hk' : k0 <= k).
  { destruct (Z.le_gt_cases k0 k); [done|].
    assert (Zpos m0 = Zpos m * 2 ^ (k0 - k)) as E.
    { rewrite Hm, Hm0, <- Z.mul_assoc, <- Z.pow_add_r by lia. do 2 f_equal. lia. }
    apply digits2_pos_scale in E; lia. }
  replace (- k) with (- k0 - (k - k0)) by lia.
  apply binary_round_aux_scaled; [lia|done|unfold emin; lia|].
  rewrite Hm, Hm0, <- Z.mul_assoc, <- Z.pow_add_r by lia. do 2 f_equal. lia.
Qed.

Lemma shl_align_int m k k' :
  Zpos (fst (shl_align m (- k) (- k'))) = Zpos m * 2 ^ Z.max 0 (k' - k) /\
  snd (shl_align m (- k) (- k')) = - Z.max k k'.
Proof.
  unfold shl_align. destruct (- k' - - k) as [|d|d] eqn:E; cbn [fst snd].
  - replace (Z.max 0 (k' - k)) with 0 by lia. lia.
  - replace (Z.max 0 (k' - k)) with 0 by lia. lia.
  - replace (Z.max 0 (k' - k)) with (Zpos d) by lia. rewrite Pos_iter_xO. lia.
Qed.

(** Normalising [z * 2^k] at the exponent [-k] gives the integer [z]. *)
Lemma binary_normalize_int z k :
  Z.abs z < 2 ^ 53 -> 0 <= k ->
  binary_normalize 53 1024 (z * 2 ^ k) (- k) false = double_of_Z z.
Proof.
  intros Hz Hk. pose proof (pow2_pos k) as Hp.
  destruct (decide (z = 0)) as [->|Hn]; [done|].
  assert (Hr : forall (s : bool) m, Zpos m = Z.abs z * 2 ^ k -> s = (z <? 0) ->
    binary_round 53 1024 s m (- k) = double_of_Z z).
  { intros s m Hm ->. unfold binary_round.
    pose proof (digits2_pos_bounds m) as Hdb. pose proof (digits2_pos_bounds m) as Hb.
    assert (Hd : Zpos (digits2_pos m) <= 53 + k).
    { destruct (Z.le_gt_cases (Zpos (digits2_pos m)) (53 + k)); [done|].
      pose proof (Z.pow_le_mono_r 2 (53 + k) (Zpos (digits2_pos m) - 1)) as Hmono.
      rewrite Z.pow_add_r in Hmono by lia. nia. }
    assert (Hd1 : k < Zpos (digits2_pos m)).
    { destruct (Z.lt_ge_cases k (Zpos (digits2_pos m))); [done|].
      pose proof (Z.pow_le_mono_r 2 (Zpos (digits2_pos m)) k). nia. }
    replace (fexp 53 1024 (Zpos (digits2_pos m) + - k))
      with (- (53 + k - Zpos (digits2_pos m))) by (unfold fexp, emin; lia).
    destruct (shl_align_int m k (53 + k - Zpos (digits2_pos m))) as [Hsf Hss].
    destruct (shl_align m _ _) as [mz ez]. cbn [fst snd] in Hsf, Hss. subst ez.
    replace z with (if z <? 0 then - Z.abs z else Z.abs z) at 2 by (destruct (Z.ltb_spec z 0); lia).
    apply binary_round_aux_int; [lia|lia| |].
    - rewrite Hsf, Hm, <- Z.mul_assoc, <- Z.pow_add_r by lia. do 2 f_equal. lia.
    - apply digits2_pos_scale in Hsf; lia. }
  unfold binary_normalize. destruct (z * 2 ^ k) as [|m|m] eqn:E; [apply Z.eq_mul_0 in E; lia| |].
  all: assert (Z.abs z * 2 ^ k = Z.abs (z * 2 ^ k)) as Ha by (rewrite Z.abs_mul; lia).
  all: apply Hr; [lia|]; clear Hr; destruct (Z.ltb_spec z 0); [try done; nia..].
Qed.

(** * The operations *)

(** The representation of an integer: [None] for zero, else sign, mantissa and
    scale. *)
Lemma d_add_exact a b :
  Z.abs a < 2 ^ 53 -> Z.abs b < 2 ^ 53 -> Z.abs (a + b) < 2 ^ 53 ->
  d_add (double_of_Z a) (double_of_Z b) = double_of_Z (a + b).
Proof.
  intros Ha Hb Hab.
  destruct (decide (a = 0)) as [->|Ha0]; [|destruct (decide (b = 0)) as [->|Hb0]].
  - rewrite Z.add_0_l. destruct (decide (b = 0)) as [->|Hb0]; [done|].
    by destruct (double_of_Z_spec b Hb0 Hb) as (m & k & _ & _ & -> & _).
  - rewrite Z.add_0_r. by destruct (double_of_Z_spec a Ha0 Ha) as (m & k & _ & _ & -> & _).
  - destruct (double_of_Z_spec a Ha0 Ha) as (m & k & Hk & Hm & -> & _).
    destruct (double_of_Z_spec b Hb0 Hb) as (m' & k' & Hk' & Hm' & -> & _).
    unfold d_add, SFadd.
    replace (Z.min (- k) (- k')) with (- Z.max k k') by lia.
    rewrite <- (binary_normalize_int (a + b) (Z.max k k')) by lia. f_equal.
    rewrite (proj1 (shl_align_int m k _)), (proj1 (shl_align_int m' k' _)), Hm, Hm'.
    rewrite <- !Z.mul_assoc, <- !Z.pow_add_r by lia.
    replace (k + _) with (Z.max k k') by lia. replace (k' + _) with (Z.max k k') by lia.
    unfold cond_Zopp. destruct (Z.ltb_spec a 0), (Z.ltb_spec b 0); nia.
Qed.

(** A change of sign commutes with rounding. *)
Lemma SFopp_round_aux s m e l :
  SFopp (binary_round_aux 53 1024 s m e l) = binary_round_aux 53 1024 (negb s) m e l.
Proof. unfold binary_round_aux. by repeat case_match. Qed.

Lemma SFopp_round s m e : SFopp (binary_round 53 1024 s m e) = binary_round 53 1024 (negb s) m e.
Proof. unfold binary_round. case_match. apply SFopp_round_aux. Qed.

Lemma d_neg_exact a : a <> 0 -> d_neg (double_of_Z a) = double_of_Z (- a).
Proof. destruct a; [done| |]; intros _; apply SFopp_round. Qed.

Lemma d_sub_add_opp a b : d_sub a b = d_add a (d_neg b).
Proof.
  destruct a as [s|s| |s m e], b as [s'|s'| |s' m' e']; cbn; try done.
  - by destruct s, s'.
  - by destruct s, s'.
  - f_equal. unfold cond_Zopp. destruct s'; cbn [negb]; lia.
Qed.

Lemma d_sub_exact a b :
  Z.abs a < 2 ^ 53 -> Z.abs b < 2 ^ 53 -> Z.abs (a - b) < 2 ^ 53 ->
  d_sub (double_of_Z a) (double_of_Z b) = double_of_Z (a - b).
Proof.
  intros Ha Hb Hab. rewrite d_sub_add_opp. destruct (decide (b = 0)) as [->|Hb0].
  - rewrite Z.sub_0_r. destruct (decide (a = 0)) as [->|Ha0]; [done|].
    by destruct (double_of_Z_spec a Ha0 Ha) as (m & k & _ & _ & -> & _).
  - rewrite d_neg_exact by done. apply d_add_exact; lia.
Qed.

Lemma d_mul_exact a b :
  a <> 0 -> b <> 0 -> Z.abs a < 2 ^ 53 -> Z.abs b < 2 ^ 53 -> Z.abs (a * b) < 2 ^ 53 ->
  d_mul (double_of_Z a) (double_of_Z b) = double_of_Z (a * b).
Proof.
  intros Ha0 Hb0 Ha Hb Hab.
  destruct (double_of_Z_spec a Ha0 Ha) as (m & k & Hk & Hm & -> & Hd).
  destruct (double_of_Z_spec b Hb0 Hb) as (m' & k' & Hk' & Hm' & -> & Hd').
  unfold d_mul, SFmul. replace (- k + - k') with (- (k + k')) by lia.
  assert (Hp : Zpos (m * m') = Z.abs (a * b) * 2 ^ (k + k')).
  { rewrite Pos2Z.inj_mul, Hm, Hm', Z.abs_mul, Z.pow_add_r by lia. lia. }
  rewrite (binary_round_aux_int _ (Z.abs (a * b))); [|nia|lia|done|].
  - f_equal. destruct (Z.ltb_spec a 0), (Z.ltb_spec b 0); cbn [xorb]; nia.
  - pose proof (digits2_pos_bounds m) as Hb1. pose proof (digits2_pos_bounds m') as Hb2.
    rewrite Hd in Hb1. rewrite Hd' in Hb2.
    pose proof (digits2_pos_bounds (m * m')) as Hb3.
    destruct (Z.le_gt_cases 53 (Zpos (digits2_pos (m * m')))); [done|].
    pose proof (Z.pow_le_mono_r 2 (Zpos (digits2_pos (m * m'))) 52). nia.
Qed.

(** * Comparisons *)

Lemma SFcompare_pos m e m' e' :
  SFcompare (S754_finite false m e) (S754_finite false m' e')
  = Some (match e ?= e' with Eq => (m ?= m')%positive | c => c end).
Proof. cbn. unfold Pos.compare. by destruct (e ?= e'). Qed.

Lemma compare_scaled x y m k m' k' :
  0 < x -> 0 < y -> 0 <= k -> 0 <= k' ->
  Zpos m = x * 2 ^ k -> Zpos m' = y * 2 ^ k' ->
  Zpos (digits2_pos m) = 53 -> Zpos (digits2_pos m') = 53 ->
  match - k ?= - k' with Eq => (m ?= m')%positive | c => c end = (x ?= y).
Proof.
  intros Hx Hy Hk Hk' Hm Hm' Hd Hd'.
  pose proof (digits2_pos_bounds m) as B. pose proof (digits2_pos_bounds m') as B'.
  rewrite Hd in B. rewrite Hd' in B'. pose proof (pow2_pos k Hk). pose proof (pow2_pos k' Hk').
  destruct (Z.compare_spec (- k) (- k')) as [E|E|E]; symmetry.
  - assert (k' = k) as -> by lia. change (m ?= m')%positive with (Zpos m ?= Zpos m').
    rewrite Hm, Hm'. apply Zmult_compare_compat_r. lia.
  - apply Z.compare_lt_iff. assert (2 * 2 ^ k' <= 2 ^ k); [|nia].
    rewrite <- Z.pow_succ_r by lia. apply Z.pow_le_mono_r; lia.
  - apply Z.compare_gt_iff. assert (2 * 2 ^ k <= 2 ^ k'); [|nia].
    rewrite <- Z.pow_succ_r by lia. apply Z.pow_le_mono_r; lia.
Qed.

Lemma SFcompare_of_Z a b :
  Z.abs a < 2 ^ 53 -> Z.abs b < 2 ^ 53 ->
  SFcompare (double_of_Z a) (double_of_Z b) = Some (a ?= b).
Proof.
  intros Ha Hb.
  destruct (decide (a = 0)) as [->|Ha0]; [|destruct (decide (b = 0)) as [->|Hb0]].
  - destruct (decide (b = 0)) as [->|Hb0]; [done|].
    destruct (double_of_Z_spec b Hb0 Hb) as (m & k & _ & _ & -> & _).
    change (double_of_Z 0) with (S754_zero false). cbn [SFcompare].
    destruct (Z.ltb_spec b 0), (Z.compare_spec 0 b); done || lia.
  - destruct (double_of_Z_spec a Ha0 Ha) as (m & k & _ & _ & -> & _).
    change (double_of_Z 0) with (S754_zero false). cbn [SFcompare].
    destruct (Z.ltb_spec a 0), (Z.compare_spec a 0); done || lia.
  - destruct (double_of_Z_spec a Ha0 Ha) as (m & k & Hk & Hm & -> & Hd).
    destruct (double_of_Z_spec b Hb0 Hb) as (m' & k' & Hk' & Hm' & -> & Hd').
    destruct (Z.ltb_spec a 0), (Z.ltb_spec b 0).
    + transitivity (option_map CompOpp (SFcompare (S754_finite false m (- k)) (S754_finite false m' (- k')))).
      { cbn. by destruct (- k ?= - k'). }
      rewrite SFcompare_pos, (compare_scaled (Z.abs a) (Z.abs b)) by (try done; lia).
      cbn. f_equal. rewrite <- Z.compare_antisym.
      destruct (Z.compare_spec (Z.abs b) (Z.abs a)), (Z.compare_spec a b); done || lia.
    + cbn. f_equal. symmetry. apply Z.compare_lt_iff. lia.
    + cbn. f_equal. symmetry. apply Z.compare_gt_iff. lia.
    + rewrite SFcompare_pos, (compare_scaled (Z.abs a) (Z.abs b)) by (try done; lia).
      f_equal. rewrite !Z.abs_eq by lia. done.
Qed.

Lemma d_lt_of_Z a b :
  Z.abs a < 2 ^ 53 -> Z.abs b < 2 ^ 53 -> d_lt (double_of_Z a) (double_of_Z b) = (a <? b).
Proof. intros Ha Hb. unfold d_lt, SFltb, Z.ltb. rewrite SFcompare_of_Z by done. by destruct (a ?= b). Qed.

Lemma d_le_of_Z a b :
  Z.abs a < 2 ^ 53 -> Z.abs b < 2 ^ 53 -> d_le (double_of_Z a) (double_of_Z b) = (a <=? b).
Proof. intros Ha Hb. unfold d_le, SFleb, Z.leb. rewrite SFcompare_of_Z by done. by destruct (a ?= b). Qed.

Lemma d_eq_of_Z a b :
  Z.abs a < 2 ^ 53 -> Z.abs b < 2 ^ 53 -> d_eq (double_of_Z a) (double_of_Z b) = (a =? b).
Proof.
  intros Ha Hb. unfold d_eq, SFeqb. rewrite SFcompare_of_Z, Z.eqb_compare by done.
  by destruct (a ?= b).
Qed.
