(* ===== verification/DoubleDiv.v ===== *)
(** Division of integers held in numbers: the rounded quotient has the floor of
    the exact one, so that [floor(a / b)] and [a - floor(a / b) * b], the way
    the VM computes [//] and [%], are the floored quotient and its remainder
    for integers below [2^53] in magnitude. *)
From S2P Require Import Prelude Word Double DoubleExact.
Open Scope Z_scope.

(** * Locations *)

(** The location of [q + r / b] above [q]. *)
Definition loc_of (r b : Z) : location :=
  if r =? 0 then loc_Exact else loc_Inexact (2 * r ?= b).

Lemma new_location_spec b r : 0 <= r < b -> new_location b r = loc_of r b.
Proof.
  intros Hr. unfold new_location, new_location_even, new_location_odd, loc_of.
  destruct (Z.even b) eqn:E; [done|]. destruct (r =? 0); [done|]. f_equal.
  assert (Ho : Z.odd b = true) by (rewrite <- Z.negb_even, E; done).
  apply Z.odd_spec in Ho as [c Hc].
  destruct (Z.compare_spec (2 * r + 1) b), (Z.compare_spec (2 * r) b); try done; lia.
Qed.

Lemma record_loc m l : loc_of_shr_record (shr_record_of_loc m l) = l.
Proof. by destruct l as [|[]]. Qed.

Lemma record_m m l : shr_m (shr_record_of_loc m l) = m.
Proof. by destruct l as [|[]]. Qed.

(** One more bit dropped: [q + r/b] as [2 * (q' + r'/b)]. *)
Lemma shr_1_loc q r b :
  0 < q -> 0 <= r < b ->
  let rec := shr_1 (shr_record_of_loc q (loc_of r b)) in
  shr_m rec = q / 2 /\
  forall r', 2 * r' = q mod 2 * b + r -> loc_of_shr_record rec = loc_of r' b.
Proof.
  intros Hq Hr. cbn zeta. assert (Hx : q mod 2 = 0 \/ q mod 2 = 1) by (pose proof (Z.mod_pos_bound q 2); lia).
  pose proof (Z.div_mod q 2 ltac:(lia)) as Hdm.
  unfold loc_of. destruct (Z.eqb_spec r 0) as [->|Hr0]; [|destruct (Z.compare_spec (2 * r) b)].
  all: cbn [shr_record_of_loc]; destruct q as [|[q|q|]|q]; try lia; cbn [shr_1 shr_m orb loc_of_shr_record].
  all: split; [lia|]; intros r' Hr'.
  all: destruct (Z.eqb_spec r' 0); [try done; lia|]; f_equal; try (by apply eq_sym, Z.compare_eq_iff; lia);
       try (by apply eq_sym, Z.compare_lt_iff; lia); try (by apply eq_sym, Z.compare_gt_iff; lia); try lia.
Qed.

(** * Rounding a quotient *)

(** The two candidates of rounding to nearest. *)
Definition rounds_to (q r b M : Z) : Prop :=
  (M = q /\ 2 * r <= b) \/ (M = q + 1 /\ b <= 2 * r).

Lemma round_nearest_even_spec q r b :
  0 <= r < b -> rounds_to q r b (round_nearest_even q (loc_of r b)).
Proof.
  intros Hr. unfold loc_of, rounds_to. destruct (Z.eqb_spec r 0) as [->|]; cbn [round_nearest_even].
  { left. lia. }
  destruct (Z.compare_spec (2 * r) b); [destruct (Z.even q)|..]; lia.
Qed.

Lemma digits2_pos_53 m : 2 ^ 52 <= Zpos m < 2 ^ 53 -> Zpos (digits2_pos m) = 53.
Proof. intros. apply digits2_pos_unique; lia. Qed.

(** The last step of rounding: a mantissa of 53 digits, or [2^53]. *)
Lemma shr_fexp_last M E :
  2 ^ 52 <= M <= 2 ^ 53 -> emin 53 1024 <= E ->
  exists m j, 0 <= j <= 1 /\ Zpos m * 2 ^ j = M /\ Zpos (digits2_pos m) = 53 /\
    shr_fexp 53 1024 M E loc_Exact
    = ({| shr_m := Zpos m; shr_r := false; shr_s := false |}, E + j) /\
    (j = 1 -> M = 2 ^ 53).
Proof.
  intros HM HE. unfold emin in HE. destruct (decide (M = 2 ^ 53)) as [->|Hne].
  - exists (2 ^ 52)%positive, 1. repeat split; try lia.
    unfold shr_fexp. change (Zdigits2 (2 ^ 53)) with 54.
    replace (fexp 53 1024 (54 + E) - E) with 1 by (unfold fexp, emin; lia). done.
  - destruct M as [|m|m]; try lia. exists m, 0.
    rewrite Z.mul_1_r, Z.add_0_r. repeat split; try lia; [apply digits2_pos_53; lia|].
    unfold shr_fexp. cbn [Zdigits2 shr_record_of_loc]. rewrite digits2_pos_53 by lia.
    replace (fexp 53 1024 (53 + E) - E) with 0 by (unfold fexp, emin; lia). done.
Qed.

Lemma div_core m1 k1 m2 k2 :
  Zpos (digits2_pos m1) = 53 -> Zpos (digits2_pos m2) = 53 ->
  0 <= k1 <= 52 -> 0 <= k2 <= 52 ->
  SFdiv_core_binary 53 1024 (Zpos m1) (- k1) (Zpos m2) (- k2)
  = (Zpos m1 * 2 ^ 53 / Zpos m2, - (53 + k1 - k2),
     loc_of (Zpos m1 * 2 ^ 53 mod Zpos m2) (Zpos m2)).
Proof.
  intros H1 H2 Hk1 Hk2. unfold SFdiv_core_binary. cbn [Zdigits2]. rewrite H1, H2.
  replace (Z.min (fexp 53 1024 (53 + - k1 - (53 + - k2))) (- k1 - - k2)) with (- (53 + k1 - k2))
    by (unfold fexp, emin; lia).
  replace (- k1 - - k2 - - (53 + k1 - k2)) with 53 by lia.
  change (match 53 with Zpos _ => Z.shiftl (Zpos m1) 53 | Z0 => Zpos m1 | Zneg _ => 0 end)
    with (Z.shiftl (Zpos m1) 53).
  rewrite Z.shiftl_mul_pow2 by lia.
  pose proof (Z.mod_pos_bound (Zpos m1 * 2 ^ 53) (Zpos m2)) as Hb.
  unfold Z.div, Z.modulo in *. destruct (Z.div_eucl _ _) as [q r].
  rewrite new_location_spec by lia. done.
Qed.

(** Dividing by [2] once more: quotient and remainder at the coarser scale. *)
Lemma coarser N b :
  0 < b -> 
  (2 * N / b) / 2 = N / b /\ 2 * (N mod b) = (2 * N / b) mod 2 * b + 2 * N mod b.
Proof.
  intros Hb. rewrite Z.div_div, (Z.mul_comm b), Z.div_mul_cancel_l by lia. split; [done|].
  pose proof (Z.div_mod (2 * N) b ltac:(lia)). pose proof (Z.div_mod N b ltac:(lia)).
  pose proof (Z.div_mod (2 * N / b) 2 ltac:(lia)) as E.
  rewrite Z.div_div, (Z.mul_comm b), Z.div_mul_cancel_l in E by lia. nia.
Qed.

(** What a rounded quotient is: at a scale [T] where the exact quotient has 53
    digits, one of its two neighbours, whichever is nearer. *)
Definition rounded_quotient (s : bool) (a b : Z) (d : double) : Prop :=
  exists T M j m, 0 <= j <= T /\ 2 ^ 52 <= a * 2 ^ T / b < 2 ^ 53 /\
    rounds_to (a * 2 ^ T / b) (a * 2 ^ T mod b) b M /\
    Zpos m * 2 ^ j = M /\ Zpos (digits2_pos m) = 53 /\
    d = S754_finite s m (j - T).

(** The rounding, once the digits of the quotient are at hand. *)
Lemma round_quotient_at s a b T rec :
  0 < a < 2 ^ 53 -> 0 < b -> 0 <= T <= 105 -> 2 ^ 52 <= a * 2 ^ T / b < 2 ^ 53 ->
  shr_m rec = a * 2 ^ T / b -> loc_of_shr_record rec = loc_of (a * 2 ^ T mod b) b ->
  rounded_quotient s a b
    (let '(rec'', e'') :=
       shr_fexp 53 1024 (round_nearest_even (shr_m rec) (loc_of_shr_record rec)) (- T) loc_Exact in
     match shr_m rec'' with
     | Z0 => S754_zero s
     | Zpos m => if e'' <=? 1024 - 53 then S754_finite s m e'' else S754_infinity s
     | _ => S754_nan
     end).
Proof.
  intros Ha Hb HT Hq -> ->.
  pose proof (Z.mod_pos_bound (a * 2 ^ T) b Hb) as Hr.
  pose proof (round_nearest_even_spec (a * 2 ^ T / b) _ _ Hr) as Hround.
  set (M := round_nearest_even _ _) in *.
  destruct (shr_fexp_last M (- T)) as (m & j & Hj & Hm & Hd & -> & Hj1).
  { unfold rounds_to in Hround. lia. }
  { unfold emin. lia. }
  cbn [shr_m]. rewrite (proj2 (Z.leb_le _ _)) by lia.
  exists T, M, j, m. replace (- T + j) with (j - T) by lia.
  split; [|done]. split; [lia|]. destruct (decide (j = 1)) as [->|]; [|lia].
  destruct (decide (T = 0)) as [->|]; [|lia]. specialize (Hj1 eq_refl).
  rewrite Z.mul_1_r in *. pose proof (Z.div_mod a b ltac:(lia)).
  unfold rounds_to in Hround. nia.
Qed.

Lemma div_rounds s a b m1 k1 m2 k2 :
  0 < a < 2 ^ 53 -> 0 < b < 2 ^ 53 -> 0 <= k1 <= 52 -> 0 <= k2 <= 52 ->
  Zpos m1 = a * 2 ^ k1 -> Zpos m2 = b * 2 ^ k2 ->
  Zpos (digits2_pos m1) = 53 -> Zpos (digits2_pos m2) = 53 ->
  rounded_quotient s a b
    (let '(mz, ez, lz) := SFdiv_core_binary 53 1024 (Zpos m1) (- k1) (Zpos m2) (- k2) in
     binary_round_aux 53 1024 s mz ez lz).
Proof.
  intros Ha Hb Hk1 Hk2 Hm1 Hm2 Hd1 Hd2. rewrite div_core by done.
  pose proof (digits2_pos_bounds m1) as B1. pose proof (digits2_pos_bounds m2) as B2.
  rewrite Hd1 in B1. rewrite Hd2 in B2. change (53 - 1) with 52 in *.
  set (T := 53 + k1 - k2).
  assert (HN : Zpos m1 * 2 ^ 53 = a * 2 ^ T * 2 ^ k2).
  { rewrite Hm1, <- !Z.mul_assoc, <- !Z.pow_add_r by lia. do 2 f_equal. lia. }
  pose proof (pow2_pos k2 ltac:(lia)) as Hp.
  assert (Hq : Zpos m1 * 2 ^ 53 / Zpos m2 = a * 2 ^ T / b).
  { rewrite HN, Hm2. apply Z.div_mul_cancel_r; lia. }
  assert (Hl : loc_of (Zpos m1 * 2 ^ 53 mod Zpos m2) (Zpos m2) = loc_of (a * 2 ^ T mod b) b).
  { rewrite HN, Hm2, Zmult_mod_distr_r. unfold loc_of.
    replace (a * 2 ^ T mod b * 2 ^ k2 =? 0) with (a * 2 ^ T mod b =? 0) by nia.
    rewrite Z.mul_assoc. case_match; [done|]. f_equal. symmetry. apply Zmult_compare_compat_r. lia. }
  assert (Hlo : 2 ^ 52 <= Zpos m1 * 2 ^ 53 / Zpos m2) by (apply Z.div_le_lower_bound; lia).
  assert (Hhi : Zpos m1 * 2 ^ 53 / Zpos m2 < 2 ^ 54) by (apply Z.div_lt_upper_bound; lia).
  rewrite Hq in Hlo, Hhi. rewrite Hq, Hl. clear Hq Hl HN.
  unfold binary_round_aux.
  destruct (a * 2 ^ T / b) as [|q|q] eqn:Eq; try lia. unfold shr_fexp at 1. cbn [Zdigits2].
  destruct (Z.lt_ge_cases (Zpos q) (2 ^ 53)) as [Hlt|Hge].
  - rewrite digits2_pos_53 by lia.
    replace (fexp 53 1024 (53 + - T) - - T) with 0 by (unfold fexp, emin; lia). cbn [shr].
    apply round_quotient_at; rewrite ?Eq, ?record_m, ?record_loc; try done; lia.
  - rewrite (digits2_pos_unique q 54) by lia.
    replace (fexp 53 1024 (54 + - T) - - T) with 1 by (unfold fexp, emin; lia). cbn [shr iter_pos].
    pose proof (Z.mod_pos_bound (a * 2 ^ T) b ltac:(lia)) as Hr.
    destruct (shr_1_loc (Zpos q) (a * 2 ^ T mod b) b ltac:(lia) Hr) as [HM HL].
    assert (HT : a * 2 ^ T = 2 * (a * 2 ^ (T - 1))).
    { replace T with (Z.succ (T - 1)) at 1 by lia. rewrite Z.pow_succ_r by lia. lia. }
    destruct (coarser (a * 2 ^ (T - 1)) b ltac:(lia)) as [C1 C2]. rewrite <- HT, Eq in C1, C2.
    cbn zeta in HM, HL. replace (- T + 1) with (- (T - 1)) by lia.
    rewrite C1 in HM.
    apply round_quotient_at; try done; try lia; [|by apply HL].
    rewrite <- C1. split; [apply Z.div_le_lower_bound|apply Z.div_lt_upper_bound]; lia.
Qed.

(** * Its floor *)

(** No rounding up to an integer: the quotient is not that close to one. *)
Lemma rounds_to_floor a b T M :
  0 < a < 2 ^ 53 -> 0 < b -> 0 <= T -> 2 ^ 52 <= a * 2 ^ T / b ->
  rounds_to (a * 2 ^ T / b) (a * 2 ^ T mod b) b M ->
  M / 2 ^ T = a / b /\ (M mod 2 ^ T = 0 <-> a mod b = 0).
Proof.
  intros Ha Hb HT Hq Hr. pose proof (pow2_pos T HT) as Hp.
  pose proof (Z.div_mod (a * 2 ^ T) b ltac:(lia)) as Hdm.
  pose proof (Z.mod_pos_bound (a * 2 ^ T) b ltac:(lia)) as Hmb.
  pose proof (Z.div_mod a b ltac:(lia)) as Hdm'.
  pose proof (Z.mod_pos_bound a b ltac:(lia)) as Hmb'.
  assert (Hfl : a * 2 ^ T / b / 2 ^ T = a / b).
  { rewrite Z.div_div, Z.div_mul_cancel_r by lia. done. }
  set (q := a * 2 ^ T / b) in *. set (r := a * 2 ^ T mod b) in *.
  pose proof (Z.div_mod q (2 ^ T) ltac:(lia)) as Hq'.
  pose proof (Z.mod_pos_bound q (2 ^ T) ltac:(lia)) as Hqb. rewrite Hfl in Hq'.
  destruct Hr as [[-> H2]|[-> H2]].
  - split; [done|]. split; intros H0.
    + rewrite H0, Z.add_0_r in Hq'. set (n := a / b) in *.
      destruct (decide (a mod b = 0)); [done|exfalso].
      assert (2 ^ T * (a mod b) = r) by nia. assert (2 ^ T * 1 <= 2 ^ T * (a mod b)) by nia.
      nia.
    + assert (r = 0 /\ q = 2 ^ T * (a / b)) as [? ?]; [|lia].
      assert (a * 2 ^ T = b * (2 ^ T * (a / b))) as E by nia.
      assert (b * q + r = b * (2 ^ T * (a / b))) as E' by lia.
      split; [|nia]. subst r. rewrite E, Z.mul_comm. apply Z.mod_mul. lia.
  - assert (Hn : (q + 1) mod 2 ^ T <> 0).
    { intros H0. apply Z.mod_divide in H0 as [n Hn]; [|lia].
      assert (a + 1 <= n * b) by nia.
      assert (2 ^ T * (a + 1) <= 2 ^ T * (n * b)) by nia.
      assert (2 * 2 ^ T <= b) by nia. assert (2 ^ 53 < 2 * 2 ^ T * n) by nia.
      assert (0 < n) by nia. assert (2 * 2 ^ T * n <= b * n) by nia. nia. }
    assert (Hsame : (q + 1) / 2 ^ T = a / b).
    { symmetry. apply (Z.div_unique _ _ _ (q mod 2 ^ T + 1)); [|lia].
      left. split; [lia|]. destruct (Z.eq_dec (q mod 2 ^ T + 1) (2 ^ T)) as [E|]; [|lia].
      exfalso. apply Hn. replace (q + 1) with ((a / b + 1) * 2 ^ T) by lia.
      apply Z.mod_mul. lia. }
    split; [done|]. split; [done|]. intros H0. exfalso.
    assert (a * 2 ^ T = a / b * 2 ^ T * b) as E by nia.
    assert (r = 0); [|lia]. subst r. rewrite E. apply Z.mod_mul. lia.
Qed.

Lemma exact_int_scaled m t :
  0 <= t -> exact_int m (- t) = (Zpos m mod 2 ^ t =? 0).
Proof.
  intros Ht. unfold exact_int. rewrite Z.opp_involutive.
  rewrite Z.shiftl_opp_r, Z.shiftr_div_pow2, Z.shiftl_mul_pow2 by done.
  pose proof (Z.div_mod (Zpos m) (2 ^ t) ltac:(pose proof (pow2_pos t); lia)).
  destruct (Z.eqb_spec (Zpos m mod 2 ^ t) 0); [apply Z.eqb_eq|apply Z.eqb_neq]; lia.
Qed.

Lemma mod_scaled M m j T :
  0 <= j <= T -> m * 2 ^ j = M ->
  M / 2 ^ T = m / 2 ^ (T - j) /\ (M mod 2 ^ T = 0 <-> m mod 2 ^ (T - j) = 0).
Proof.
  intros Hj <-. pose proof (pow2_pos j ltac:(lia)). pose proof (pow2_pos (T - j) ltac:(lia)).
  replace (2 ^ T) with (2 ^ (T - j) * 2 ^ j) by (rewrite <- Z.pow_add_r by lia; f_equal; lia).
  rewrite Z.div_mul_cancel_r, Zmult_mod_distr_r by lia. split; [done|nia].
Qed.

(** The only 53-digit mantissa of an integer. *)
Lemma double_of_Z_unique s z m t :
  0 < z < 2 ^ 53 -> 0 <= t -> Zpos m = z * 2 ^ t -> Zpos (digits2_pos m) = 53 ->
  S754_finite s m (- t) = double_of_Z (if s then - z else z).
Proof.
  intros Hz Ht Hm Hd. rewrite <- (binary_round_aux_int s z m t) by (try done; lia).
  symmetry. apply binary_round_aux_exact; [done|]. unfold emin.
  assert (2 ^ t <= 2 ^ 53); [|destruct (Z.le_gt_cases t 53); [lia|]].
  { pose proof (digits2_pos_bounds m) as Hb. rewrite Hd in Hb. nia. }
  pose proof (Z.pow_lt_mono_r 2 53 t). lia.
Qed.

Lemma floor_rounded s a b d :
  0 < a < 2 ^ 53 -> 0 < b -> rounded_quotient s a b d ->
  d_floor d = double_of_Z (if s then - a / b else a / b).
Proof.
  intros Ha Hb (T & M & j & m & Hj & Hq & Hr & HM & Hd & ->).
  apply rounds_to_floor in Hr as [Hfl Hex]; [|lia..].
  destruct (mod_scaled M (Zpos m) j T Hj HM) as [Hfl' Hex']. rewrite Hfl in Hfl'.
  replace (j - T) with (- (T - j)) by lia. cbn [d_floor]. rewrite exact_int_scaled by lia.
  assert (Hs : Z.shiftl (Zpos m) (- (T - j)) = a / b).
  { rewrite Z.shiftl_opp_r, Z.shiftr_div_pow2 by lia. done. }
  rewrite Hs. destruct (Z.eqb_spec (Zpos m mod 2 ^ (T - j)) 0) as [E|E].
  - assert (E' : a mod b = 0) by tauto.
    pose proof (Z.div_mod (Zpos m) (2 ^ (T - j)) ltac:(pose proof (pow2_pos (T - j)); lia)) as D.
    pose proof (Z.div_mod a b ltac:(lia)).
    assert (0 < a / b <= a) by nia.
    rewrite (double_of_Z_unique s (a / b)); [|lia..|done].
    by rewrite (Z.div_opp_l_z a b) by lia.
  - assert (E' : a mod b <> 0) by tauto.
    destruct s; [|done]. by rewrite (Z.div_opp_l_nz a b) by lia.
Qed.

(** [floor(a / b)] on integers. *)
Theorem d_floor_div_exact a b :
  a <> 0 -> b <> 0 -> Z.abs a < 2 ^ 53 -> Z.abs b < 2 ^ 53 ->
  d_floor (d_div (double_of_Z a) (double_of_Z b)) = double_of_Z (a / b).
Proof.
  intros Ha0 Hb0 Ha Hb.
  destruct (double_of_Z_spec a Ha0 Ha) as (m & k & Hk & Hm & -> & Hd).
  destruct (double_of_Z_spec b Hb0 Hb) as (m' & k' & Hk' & Hm' & -> & Hd').
  unfold d_div, SFdiv.
  rewrite (floor_rounded (xorb (a <? 0) (b <? 0)) (Z.abs a) (Z.abs b)); [|lia..|].
  - f_equal. destruct (Z.ltb_spec a 0), (Z.ltb_spec b 0); cbn [xorb].
    all: try rewrite (Z.abs_neq a) by lia; try rewrite (Z.abs_eq a) by lia.
    all: try rewrite (Z.abs_neq b) by lia; try rewrite (Z.abs_eq b) by lia.
    all: try done; try (by rewrite Z.div_opp_opp by lia).
    by rewrite Z.opp_involutive.
  - apply div_rounds; try done; lia.
Qed.
