(* ===== verification/DoubleBits.v ===== *)
(** Rounding to nearest.  Numbers in memory: rounding yields numbers of the format,
    and the bit pattern of a number determines it.  What [binary_round] yields on a
    mantissa of more than 53 digits, and the bounds that follow. *)
From S2P Require Import Prelude Word Double DoubleExact DoubleDiv.
Open Scope Z_scope.

(** * Rounding yields a number of the format *)

Section Valid.
Context (prec emax : Z) (Hprec : 0 < prec) (Hemax : prec < emax).

Notation fexp := (fexp prec emax).

(** The number of binary digits of a mantissa that is not negative. *)
Lemma Zdigits2_bounds m : 0 < m -> 0 < Zdigits2 m /\ 2 ^ (Zdigits2 m - 1) <= m < 2 ^ Zdigits2 m.
Proof.
  intros Hm. destruct m as [|m|m]; [lia| |lia]. cbn [Zdigits2]. split; [lia|]. apply digits2_pos_bounds.
Qed.

Lemma Zdigits2_unique m d : 0 < d -> 2 ^ (d - 1) <= m < 2 ^ d -> Zdigits2 m = d.
Proof.
  intros Hd Hm. pose proof (pow2_pos (d - 1) ltac:(lia)). destruct m as [|m|m]; [lia| |lia].
  cbn [Zdigits2]. by apply digits2_pos_unique.
Qed.

Lemma Zdigits2_shift m n : 0 <= n -> 0 < m / 2 ^ n -> Zdigits2 (m / 2 ^ n) = Zdigits2 m - n.
Proof.
  intros Hn Hq. pose proof (pow2_pos n Hn) as Hp.
  assert (0 < m) by (destruct (Z.ltb_spec 0 m); [done|]; pose proof (Z.div_le_upper_bound m (2 ^ n) 0); lia).
  destruct (Zdigits2_bounds m) as [Hd Hb]; [done|].
  assert (n < Zdigits2 m).
  { destruct (Z.ltb_spec n (Zdigits2 m)); [done|].
    pose proof (Z.pow_le_mono_r 2 (Zdigits2 m) n ltac:(lia) ltac:(lia)).
    rewrite Z.div_small in Hq by lia. lia. }
  apply Zdigits2_unique; [lia|]. split.
  - apply Z.div_le_lower_bound; [done|]. rewrite <- Z.pow_add_r by lia.
    replace (n + (Zdigits2 m - n - 1)) with (Zdigits2 m - 1) by lia. lia.
  - apply Z.div_lt_upper_bound; [done|]. rewrite <- Z.pow_add_r by lia.
    replace (n + (Zdigits2 m - n)) with (Zdigits2 m) by lia. apply Hb.
Qed.

Lemma shr_1_m rec : 0 <= shr_m rec -> shr_m (shr_1 rec) = shr_m rec / 2.
Proof.
  destruct rec as [[|[p|p|]|p] r s]; cbn [shr_m shr_1]; intros Hm; try lia; try done.
  - rewrite Pos2Z.inj_xI. Z.to_euclidean_division_equations; lia.
  - rewrite Pos2Z.inj_xO. Z.to_euclidean_division_equations; lia.
Qed.

Lemma shr_spec rec e n : 0 <= shr_m rec ->
  shr_m (shr rec e n).1 = shr_m rec / 2 ^ Z.max 0 n /\ (shr rec e n).2 = e + Z.max 0 n.
Proof.
  intros Hm. unfold shr. destruct n as [|p|p]; cbn [fst snd].
  - rewrite Z.max_id, Z.div_1_r. lia.
  - split; [|lia]. rewrite Z.max_r by lia. rewrite iter_pos_iter.
    induction p as [|p IH] using Pos.peano_ind; [by apply shr_1_m|].
    rewrite Pos.iter_succ, shr_1_m; rewrite IH.
    + rewrite Z.div_div by (try apply pow2_pos; lia). f_equal.
      rewrite Pos2Z.inj_succ, Z.pow_succ_r by lia. lia.
    + apply Z.div_pos; [done|]. apply pow2_pos. lia.
  - rewrite Z.max_l by lia. rewrite Z.div_1_r. lia.
Qed.

(** A mantissa shifted to its exponent, when it is not too coarse already. *)
Lemma shr_fexp_spec m e l : 0 < m -> e <= fexp (Zdigits2 m + e) ->
  let '(rec, e') := shr_fexp prec emax m e l in
  0 <= shr_m rec /\ (0 < shr_m rec -> fexp (Zdigits2 (shr_m rec) + e') = e')
  /\ (shr_m rec = 0 -> e' = emin prec emax).
Proof.
  intros Hm He. unfold shr_fexp. set (E := fexp (Zdigits2 m + e)) in *.
  destruct (shr_spec (shr_record_of_loc m l) e (E - e)) as [Hr He']; [by rewrite record_m; lia|].
  destruct (shr _ e (E - e)) as [rec e']. cbn [fst snd] in *. rewrite record_m, Z.max_r in * by lia.
  subst e'. rewrite Hr. pose proof (pow2_pos (E - e) ltac:(lia)) as Hp. split_and!.
  - apply Z.div_pos; lia.
  - intros Hq. rewrite Zdigits2_shift by lia.
    replace (Zdigits2 m - (E - e) + (e + (E - e))) with (Zdigits2 m + e) by lia. fold E. lia.
  - intros H0. apply Z.div_small_iff in H0; [|lia].
    destruct (Zdigits2_bounds m Hm) as [Hd Hb].
    assert (Zdigits2 m - 1 < E - e).
    { destruct (Z.ltb_spec (Zdigits2 m - 1) (E - e)); [done|].
      pose proof (Z.pow_le_mono_r 2 (E - e) (Zdigits2 m - 1)). lia. }
    unfold E, SpecFloat.fexp in *. lia.
Qed.

Lemma round_nearest_even_near m l : round_nearest_even m l = m \/ round_nearest_even m l = m + 1.
Proof. destruct l as [|[]]; cbn; try destruct (Z.even m); auto. Qed.

Lemma Zdigits2_mono m m' : 0 < m <= m' -> Zdigits2 m <= Zdigits2 m'.
Proof.
  intros Hm. destruct (Zdigits2_bounds m) as [Hd Hb]; [lia|].
  destruct (Zdigits2_bounds m') as [Hd' Hb']; [lia|].
  destruct (Z.leb_spec (Zdigits2 m) (Zdigits2 m')); [done|].
  pose proof (Z.pow_le_mono_r 2 (Zdigits2 m') (Zdigits2 m - 1)). lia.
Qed.

Lemma round_aux_valid s m e l : 0 < m -> e <= fexp (Zdigits2 m + e) ->
  valid_binary prec emax (binary_round_aux prec emax s m e l) = true.
Proof.
  intros Hm He. unfold binary_round_aux. pose proof (shr_fexp_spec m e l Hm He) as H1.
  destruct (shr_fexp prec emax m e l) as [rec e']. destruct H1 as (Hpos & Hcan & Hzero).
  set (m1 := round_nearest_even _ _).
  assert (Hm1 : shr_m rec <= m1 <= shr_m rec + 1) by (destruct (round_nearest_even_near (shr_m rec)
    (loc_of_shr_record rec)); subst m1; lia).
  destruct (Z.eqb_spec m1 0) as [H0|H0].
  { rewrite H0. unfold shr_fexp. pose proof (shr_spec (shr_record_of_loc 0 loc_Exact) e'
      (fexp (Zdigits2 0 + e') - e')) as Hs. rewrite record_m in Hs. destruct Hs as [Hs _]; [lia|].
    destruct (shr _ e' _) as [rec2 e2]. cbn [fst] in Hs. rewrite Zdiv_0_l in Hs. by rewrite Hs. }
  assert (He' : e' <= fexp (Zdigits2 m1 + e')).
  { destruct (Z.eqb_spec (shr_m rec) 0) as [Hz|Hz].
    - rewrite (Hzero Hz). unfold SpecFloat.fexp. lia.
    - rewrite <- (Hcan ltac:(lia)) at 1. pose proof (Zdigits2_mono (shr_m rec) m1 ltac:(lia)).
      unfold SpecFloat.fexp. lia. }
  pose proof (shr_fexp_spec m1 e' loc_Exact ltac:(lia) He') as H2.
  destruct (shr_fexp prec emax m1 e' loc_Exact) as [rec2 e2]. destruct H2 as (Hpos2 & Hcan2 & _).
  destruct (shr_m rec2) as [|p|p] eqn:Ep; [done| |lia].
  destruct (Z.leb_spec e2 (emax - prec)) as [Hle|]; [|done].
  cbn [valid_binary]. unfold bounded, canonical_mantissa. cbn [Zdigits2] in Hcan2.
  rewrite (proj2 (Z.eqb_eq _ _)), (proj2 (Z.leb_le _ _)) by (done || by apply Hcan2). done.
Qed.

Lemma round_valid s m e : valid_binary prec emax (binary_round prec emax s m e) = true.
Proof.
  unfold binary_round, shl_align. set (E := fexp (Zpos (digits2_pos m) + e)).
  destruct (E - e) as [|p|p] eqn:Ep.
  - apply round_aux_valid; [lia|]. cbn [Zdigits2]. fold E. lia.
  - apply round_aux_valid; [lia|]. cbn [Zdigits2]. fold E. lia.
  - apply round_aux_valid; [lia|]. rewrite (Zdigits2_unique _ (Zpos (digits2_pos m) + Zpos p)).
    + replace (Zpos (digits2_pos m) + Zpos p + E) with (Zpos (digits2_pos m) + e) by lia. fold E. lia.
    + lia.
    + rewrite Pos_iter_xO. pose proof (digits2_pos_bounds m).
      replace (Zpos (digits2_pos m) + Zpos p - 1) with (Zpos (digits2_pos m) - 1 + Zpos p) by lia.
      rewrite !Z.pow_add_r by lia. pose proof (pow2_pos (Zpos p) ltac:(lia)). nia.
Qed.
End Valid.

(** [a / b] rounded to the nearest integer, half-way cases to the even one. *)
Definition rne (a b : Z) : Z := round_nearest_even (a / b) (loc_of (a mod b) b).

(** * Bounds of a rounded quotient *)

Section Rne.
Variables (a b : Z).
Hypothesis Hb : 0 < b.

Lemma rne_cases :
  (rne a b = a / b /\ (2 * (a mod b) < b \/ 2 * (a mod b) = b /\ Z.even (a / b) = true)) \/
  (rne a b = a / b + 1 /\ (b < 2 * (a mod b) \/ 2 * (a mod b) = b /\ Z.even (a / b) = false)).
Proof.
  unfold rne, loc_of. pose proof (Z.mod_pos_bound a b Hb).
  destruct (Z.eqb_spec (a mod b) 0); cbn [round_nearest_even]; [lia|].
  destruct (Z.compare_spec (2 * (a mod b)) b); [destruct (Z.even (a / b))|..]; lia.
Qed.

(** Rounding does not cross an integer. *)
Lemma rne_le c : a <= c * b -> rne a b <= c.
Proof.
  intros Hc. pose proof (Z.div_mod a b ltac:(lia)). pose proof (Z.mod_pos_bound a b Hb).
  destruct rne_cases as [[-> ?]|[-> ?]]; nia.
Qed.

Lemma rne_ge c : c * b <= a -> c <= rne a b.
Proof.
  intros Hc. pose proof (Z.div_mod a b ltac:(lia)). pose proof (Z.mod_pos_bound a b Hb).
  destruct rne_cases as [[-> ?]|[-> ?]]; nia.
Qed.

(** Less than half a unit below an integer, rounding goes up to it; from half a
    unit, when it is even. *)
Lemma rne_up c :
  (2 * c - 1) * b < 2 * a \/ (2 * c - 1) * b = 2 * a /\ Z.even c = true -> c <= rne a b.
Proof.
  intros Hc. pose proof (Z.div_mod a b ltac:(lia)). pose proof (Z.mod_pos_bound a b Hb).
  destruct (Z.le_gt_cases c (a / b)); [destruct rne_cases as [[-> ?]|[-> ?]]; lia|].
  assert (c = a / b + 1) as -> by nia.
  destruct rne_cases as [[_ Hd]|[-> _]]; [|lia]. exfalso.
  destruct Hc as [Hc|[Hc He]]; [nia|]. destruct Hd as [Hd|[Hd He']]; [nia|].
  rewrite Z.even_add, He' in He. done.
Qed.
(** Less than half a unit above an integer, rounding goes down to it. *)
Lemma rne_down c : 2 * a < (2 * c + 1) * b -> rne a b <= c.
Proof.
  intros Hc. pose proof (Z.div_mod a b ltac:(lia)). pose proof (Z.mod_pos_bound a b Hb).
  destruct (Z.le_gt_cases (a / b + 1) c); [destruct rne_cases as [[-> ?]|[-> ?]]; lia|].
  assert (a / b = c) by nia.
  destruct rne_cases as [[-> ?]|[-> ?]]; nia.
Qed.
End Rne.

(** * [binary_round] *)

(** The number [M * 2^E], for [M] up to [2^53]. *)
Definition mk_float (s : bool) (M E : Z) : double :=
  if M =? 2 ^ 53 then S754_finite s (2 ^ 52) (E + 1) else S754_finite s (Z.to_pos M) E.

Lemma loc_of_scale r b : 0 < b -> loc_of (2 * r) (2 * b) = loc_of r b.
Proof.
  intros Hb. unfold loc_of. replace (2 * r =? 0) with (r =? 0) by lia.
  case_match; [done|]. f_equal.
  destruct (Z.compare_spec (2 * (2 * r)) (2 * b)), (Z.compare_spec (2 * r) b); try done; lia.
Qed.

Lemma record_eta r : shr_record_of_loc (shr_m r) (loc_of_shr_record r) = r.
Proof. by destruct r as [m [] []]. Qed.

(** Dropping [j] digits. *)
Lemma shr_digits S (j : nat) rec :
  2 ^ Z.of_nat j <= S ->
  rec = Nat.iter j shr_1 (shr_record_of_loc S loc_Exact) ->
  rec = shr_record_of_loc (S / 2 ^ Z.of_nat j) (loc_of (S mod 2 ^ Z.of_nat j) (2 ^ Z.of_nat j)).
Proof.
  revert rec. induction j as [|j IH]; intros rec HS ->.
  { cbn [Nat.iter]. change (2 ^ Z.of_nat 0) with 1. by rewrite Z.div_1_r, Z.mod_1_r. }
  rewrite Nat.iter_succ. pose proof (pow2_pos (Z.of_nat j) ltac:(lia)) as Hp.
  rewrite Nat2Z.inj_succ, Z.pow_succ_r in * by lia.
  rewrite (IH _ ltac:(lia) eq_refl), <- (loc_of_scale (S mod _)) by done.
  set (b := 2 ^ Z.of_nat j) in *.
  pose proof (Z.div_mod S b ltac:(lia)) as Hd. pose proof (Z.mod_pos_bound S b Hp) as Hm.
  assert (0 < S / b) as Hq by (apply Z.div_str_pos; lia).
  destruct (shr_1_loc (S / b) (2 * (S mod b)) (2 * b)) as [H1 H2]; [lia..|].
  cbn zeta in H1, H2. rewrite Z.div_div, (Z.mul_comm b) in H1 by lia.
  assert (S mod (2 * b) = (S / b) mod 2 * b + S mod b) as Hr.
  { symmetry. pose proof (Z.div_mod (S / b) 2 ltac:(lia)) as E.
    pose proof (Z.mod_pos_bound (S / b) 2 ltac:(lia)).
    apply (Z.mod_unique _ _ (S / b / 2)); [left; nia|]. nia. }
  specialize (H2 (S mod (2 * b)) ltac:(lia)).
  by rewrite <- H1, <- H2, record_eta.
Qed.

(** A mantissa of [53 + t] digits is rounded at its bit [t]. *)
Lemma binary_round_mk s p e t :
  2 ^ (52 + t) <= Zpos p < 2 ^ (53 + t) -> 0 <= t -> -1074 <= e + t ->
  e + t <= 970 \/ e + t <= 971 /\ rne (Zpos p) (2 ^ t) < 2 ^ 53 ->
  2 ^ 52 <= rne (Zpos p) (2 ^ t) <= 2 ^ 53 /\
  binary_round 53 1024 s p e = mk_float s (rne (Zpos p) (2 ^ t)) (e + t).
Proof.
  intros Hp Ht He He'. pose proof (pow2_pos t Ht) as Hpt. rewrite !Z.pow_add_r in Hp by lia.
  assert (HM : 2 ^ 52 <= rne (Zpos p) (2 ^ t) <= 2 ^ 53).
  { split; [apply rne_ge|apply rne_le]; lia. }
  split; [done|]. rewrite <- !Z.pow_add_r in Hp by lia.
  assert (Hd : Zpos (digits2_pos p) = 53 + t).
  { apply digits2_pos_unique; [lia|]. by replace (53 + t - 1) with (52 + t) by lia. }
  assert (Hf : fexp 53 1024 (Zpos (digits2_pos p) + e) = e + t) by (unfold fexp, emin; lia).
  unfold binary_round, shl_align. rewrite Hf.
  replace (match e + t - e with Zneg d => _ | _ => _ end) with (p, e)
    by (destruct (e + t - e) eqn:?; [done..|lia]).
  unfold binary_round_aux, shr_fexp at 1. cbn [Zdigits2]. rewrite Hf.
  replace (shr _ e (e + t - e)) with
    (shr_record_of_loc (Zpos p / 2 ^ t) (loc_of (Zpos p mod 2 ^ t) (2 ^ t)), e + t).
  - rewrite record_m, record_loc. fold (rne (Zpos p) (2 ^ t)). set (M := rne _ _) in *.
    destruct (shr_fexp_last M (e + t)) as (m & j & Hj & Hm & Hdm & -> & Hj1);
      [done|unfold emin; lia|].
    cbn [shr_m]. rewrite (proj2 (Z.leb_le _ _)) by lia. unfold mk_float.
    destruct (Z.eqb_spec M (2 ^ 53)) as [E|E].
    + destruct (decide (j = 1)) as [->|]; [by replace m with (2 ^ 52)%positive by lia|].
      exfalso. assert (j = 0) as -> by lia. rewrite Z.mul_1_r in Hm.
      pose proof (digits2_pos_bounds m) as Hb. rewrite Hdm in Hb. lia.
    + assert (j = 0) as -> by lia. rewrite Z.add_0_r. by replace (Z.to_pos M) with m by lia.
  - replace (e + t - e) with t by lia. destruct t as [|t|t]; [|cbn [shr]|lia].
    { cbn [shr]. by rewrite Z.pow_0_r, Z.div_1_r, Z.mod_1_r, Z.add_0_r. }
    f_equal. rewrite iter_pos_iter, Pos2Nat.inj_iter, <- (positive_nat_Z t). symmetry.
    apply shr_digits; [|done]. rewrite positive_nat_Z.
    pose proof (Z.pow_le_mono_r 2 (Zpos t) (52 + Zpos t)). lia.
Qed.
