(* ===== verification/NumParse.v ===== *)
(** Numbers read from text: the C library's [strtod], [strtoll], [strtoull]
    (in the "C" locale) and the two routines of [VM/src/lobject.cpp] built on
    them, [luaO_str2d] and [luaO_str2l].

    A C string is the list of its bytes; the terminating NUL is the end of the
    list, and a NUL inside the list stops every scan as it does in C. *)
From S2P Require Import Prelude Word Double.
Open Scope Z_scope.

(** [*p] *)
Definition peek (s : list Z) : Z := match s with [] => 0 | c :: _ => c end.

Definition isspace (c : Z) : bool := (c =? 32) || ((9 <=? c) && (c <=? 13)).
Definition isdigit (c : Z) : bool := (48 <=? c) && (c <=? 57).
Definition tolower (c : Z) : Z := if (65 <=? c) && (c <=? 90) then c + 32 else c.

(** The value of a digit or letter, [36] when it is neither. *)
Definition digit_value (c : Z) : Z :=
  let l := tolower c in
  if isdigit c then c - 48
  else if (97 <=? l) && (l <=? 122) then l - 97 + 10 else 36.

Fixpoint skip_spaces (s : list Z) : list Z :=
  match s with
  | c :: r => if isspace c then skip_spaces r else s
  | [] => []
  end.

(** Read digits of [base] into [acc]: value, number of digits, rest. *)
Fixpoint read_digits (base acc n : Z) (s : list Z) : Z * Z * list Z :=
  match s with
  | c :: r =>
      if digit_value c <? base
      then read_digits base (acc * base + digit_value c) (n + 1) r
      else (acc, n, s)
  | [] => (acc, n, [])
  end.

Definition read_sign (s : list Z) : bool * list Z :=
  match s with
  | 43 :: r => (false, r)
  | 45 :: r => (true, r)
  | _ => (false, s)
  end.

(** [prefix_nocase p s]: [s] with the lower-case word [p] removed. *)
Fixpoint prefix_nocase (p s : list Z) : option (list Z) :=
  match p, s with
  | [], _ => Some s
  | a :: p', c :: r => if tolower c =? a then prefix_nocase p' r else None
  | _ :: _, [] => None
  end.

(** * strtod *)

(** [m * b^e] correctly rounded; [b^|e|] is an exact integer. *)
Definition scaled_to_double (neg : bool) (m b e : Z) : double :=
  match m with
  | Zpos p =>
      if 0 <=? e then
        match m * b ^ e with
        | Zpos q => binary_round 53 1024 neg q 0
        | _ => S754_zero neg
        end
      else
        let '(q, e', l) := SFdiv_core_binary 53 1024 m 0 (b ^ (- e)) 0 in
        binary_round_aux 53 1024 neg q e' l
  | _ => S754_zero neg
  end.

(** [[eE][+-]digits] after the mantissa, taken only when a digit follows. *)
Definition read_exponent (marker : Z) (s : list Z) : Z * list Z :=
  match s with
  | c :: r =>
      if tolower c =? marker then
        let '(neg, r1) := read_sign r in
        if isdigit (peek r1) then
          let '(v, _, r2) := read_digits 10 0 0 r1 in
          ((if neg then - v else v), r2)
        else (0, s)
      else (0, s)
  | [] => (0, [])
  end.

(** Mantissa of [base] digits with an optional point: value, digits read,
    digits after the point, rest. *)
Definition read_mantissa (base : Z) (s : list Z) : Z * Z * Z * list Z :=
  let '(v, n, r) := read_digits base 0 0 s in
  match r with
  | 46 :: r1 =>
      let '(v2, n2, r2) := read_digits base v 0 r1 in
      if n + n2 =? 0 then (0, 0, 0, s) else (v2, n + n2, n2, r2)
  | _ => (v, n, 0, r)
  end.

Definition read_decimal (neg : bool) (s : list Z) : option (double * list Z) :=
  let '(v, n, frac, r) := read_mantissa 10 s in
  if n =? 0 then None
  else let '(e, r1) := read_exponent 101 r in
       Some (scaled_to_double neg v 10 (e - frac), r1).

Definition read_hex (neg : bool) (s : list Z) : option (double * list Z) :=
  let '(v, n, frac, r) := read_mantissa 16 s in
  if n =? 0 then None
  else let '(e, r1) := read_exponent 112 r in
       Some (scaled_to_double neg v 2 (e - 4 * frac), r1).

(** [strtod(s, &endptr)]: the value and the text at [endptr]; when no
    conversion is made, [0] and [s] itself. *)
Definition strtod (s : list Z) : double * list Z :=
  let '(neg, b) := read_sign (skip_spaces s) in
  let number :=
    match prefix_nocase [48; 120] b with
    | Some h =>
        match read_hex neg h with Some x => Some x | None => read_decimal neg b end
    | None => read_decimal neg b
    end in
  match number with
  | Some x => x
  | None =>
      match prefix_nocase [105; 110; 102] b with
      | Some r =>
          (S754_infinity neg,
           match prefix_nocase [105; 110; 105; 116; 121] r with Some r' => r' | None => r end)
      | None =>
          match prefix_nocase [110; 97; 110] b with
          | Some r => (S754_nan, r)
          | None => (S754_zero false, s)
          end
      end
  end.

(** * strtoll and strtoull *)

(** Sign, digits and rest of an integer literal in [base]; base 16 accepts a
    [0x] prefix followed by a digit. [None]: no conversion. *)
Definition read_integer (base : Z) (s : list Z) : option (bool * Z * list Z) :=
  let '(neg, b) := read_sign (skip_spaces s) in
  let plain :=
    let '(v, n, r) := read_digits base 0 0 b in
    if n =? 0 then None else Some (neg, v, r) in
  match (if base =? 16 then prefix_nocase [48; 120] b else None) with
  | Some h =>
      let '(v, n, r) := read_digits 16 0 0 h in
      if n =? 0 then plain else Some (neg, v, r)
  | None => plain
  end.

(** The clamped value, the text at [endptr] and whether [errno] is [ERANGE]. *)
Definition strtoll (s : list Z) (base : Z) : Z * list Z * bool :=
  match read_integer base s with
  | Some (neg, v, r) =>
      let x := if neg then - v else v in
      if x <? - 2 ^ 63 then (- 2 ^ 63, r, true)
      else if 2 ^ 63 - 1 <? x then (2 ^ 63 - 1, r, true)
      else (x, r, false)
  | None => (0, s, false)
  end.

Definition strtoull (s : list Z) (base : Z) : Z * list Z :=
  match read_integer base s with
  | Some (neg, v, r) =>
      if 2 ^ 64 - 1 <? v then (2 ^ 64 - 1, r)
      else ((if neg then u64 (- v) else v), r)
  | None => (0, s)
  end.

(** * lobject.cpp *)

(** The text after the number may only be white space. *)
Definition only_spaces (r : list Z) : bool := peek (skip_spaces r) =? 0.

Definition is_x (c : Z) : bool := (c =? 120) || (c =? 88).

(** No conversion was made: [endptr == s]. *)
Definition at_start (s r : list Z) : bool := bool_decide (length r = length s).

Definition luaO_str2d (s : list Z) : option double :=
  let '(d, r) := strtod s in
  if at_start s r then None
  else
    let '(d1, r1) :=
      if is_x (peek r) then let '(u, r') := strtoull s 16 in (double_of_Z u, r')
      else (d, r) in
    if only_spaces r1 then Some d1 else None.

Definition luaO_str2l (s : list Z) (base : Z) : option Z :=
  let conv :=
    if base =? 10 then
      let '(v, r, _) := strtoll s 10 in
      if at_start s r then None
      else if is_x (peek r) then let '(u, r') := strtoull s 16 in Some (s64 u, r')
      else Some (v, r)
    else
      let '(u, r) := strtoull s base in
      if at_start s r then None else Some (s64 u, r) in
  match conv with
  | None => None
  | Some (v, r) => if only_spaces r then Some v else None
  end.

(** * Digits: printing and reading back *)

(** Decimal digits of a natural number, most significant first. *)
Fixpoint dec_digits_fuel (fuel : nat) (n : Z) (acc : list Z) : list Z :=
  match fuel with
  | O => acc
  | S k =>
      let acc' := (48 + n mod 10) :: acc in
      if n <? 10 then acc' else dec_digits_fuel k (n / 10) acc'
  end.

(** [n] has at most [log2 n + 1] decimal digits. *)
Definition dec_digits (n : Z) : list Z :=
  dec_digits_fuel (S (Z.to_nat (Z.log2 n))) n [].

(** [std::to_string] of a signed integer. *)
Definition dec_of_Z (z : Z) : list Z :=
  if z <? 0 then 45 :: dec_digits (- z) else dec_digits z.

Lemma isdigit_spec c : isdigit c = true <-> 48 <= c <= 57.
Proof. unfold isdigit. rewrite andb_true_iff, !Z.leb_le. done. Qed.

Lemma digit_value_digit d : 0 <= d < 10 -> digit_value (48 + d) = d.
Proof.
  intros Hd. unfold digit_value.
  rewrite (proj2 (isdigit_spec _)) by lia. lia.
Qed.

Lemma digit_value_nondigit c : isdigit c = false -> 10 <= digit_value c.
Proof.
  intros Hc. unfold digit_value. rewrite Hc.
  case_match; bool_simpl; lia.
Qed.

Definition stops_digits (rest : list Z) : Prop := 10 <= digit_value (peek rest).

Lemma read_digits_stop a n rest :
  stops_digits rest -> read_digits 10 a n rest = (a, n, rest).
Proof.
  intros Hs. destruct rest as [|c r]; [done|]. cbn [read_digits].
  unfold stops_digits in Hs. cbn [peek] in Hs.
  by rewrite (proj2 (Z.ltb_ge _ _)) by lia.
Qed.

Lemma dec_digits_fuel_app fuel n acc :
  exists l, dec_digits_fuel fuel n acc = l ++ acc /\ Forall (fun c => isdigit c = true) l.
Proof.
  revert n acc. induction fuel as [|k IH]; intros n acc; cbn [dec_digits_fuel].
  { exists []. done. }
  assert (Hd : isdigit (48 + n mod 10) = true).
  { apply isdigit_spec. pose proof (Z.mod_pos_bound n 10). lia. }
  destruct (n <? 10).
  - exists [48 + n mod 10]. auto.
  - destruct (IH (n / 10) ((48 + n mod 10) :: acc)) as (l & -> & Hl).
    exists (l ++ [48 + n mod 10]). rewrite <- app_assoc. split; [done|].
    apply Forall_app. auto.
Qed.

Lemma read_dec_digits_fuel fuel n acc rest a k :
  0 <= n < 2 ^ Z.of_nat fuel -> (0 < fuel)%nat ->
  exists l, dec_digits_fuel fuel n acc = l ++ acc /\ (0 < length l)%nat /\
    read_digits 10 a k (l ++ rest)
    = read_digits 10 (a * 10 ^ Z.of_nat (length l) + n) (k + Z.of_nat (length l)) rest.
Proof.
  revert n acc rest a k. induction fuel as [|f IH]; intros n acc rest a k Hn Hf; [lia|].
  cbn [dec_digits_fuel]. rewrite Nat2Z.inj_succ, Z.pow_succ_r in Hn by lia.
  pose proof (Z.mod_pos_bound n 10 ltac:(lia)) as Hm.
  assert (Hstep : forall a k rest, read_digits 10 a k ((48 + n mod 10) :: rest)
     = read_digits 10 (a * 10 + n mod 10) (k + 1) rest).
  { intros. cbn [read_digits]. rewrite digit_value_digit by lia.
    by rewrite (proj2 (Z.ltb_lt _ _)) by lia. }
  destruct (Z.ltb_spec n 10) as [Hlt|Hge].
  - exists [48 + n mod 10]. split; [done|]. split; [simpl; lia|].
    cbn [app length]. rewrite Hstep. rewrite Z.mod_small by lia.
    f_equal; lia.
  - assert (Hf' : (0 < f)%nat).
    { destruct f; [|lia]. change (2 ^ Z.of_nat 0) with 1 in Hn. lia. }
    assert (Hn' : 0 <= n / 10 < 2 ^ Z.of_nat f).
    { split; [apply Z.div_pos; lia|]. apply Z.div_lt_upper_bound; lia. }
    destruct (IH (n / 10) ((48 + n mod 10) :: acc) ((48 + n mod 10) :: rest) a k Hn' Hf')
      as (l & E & Hl & Hr).
    exists (l ++ [48 + n mod 10]). rewrite <- !app_assoc. cbn [app].
    split; [done|]. rewrite length_app. cbn [length]. split; [lia|].
    rewrite Hr, Hstep, Nat2Z.inj_add, Z.pow_add_r by lia.
    change (10 ^ Z.of_nat 1) with 10. rewrite (Z_div_mod_eq_full n 10) at 3.
    f_equal; lia.
Qed.

Lemma log2_fuel n : 0 <= n -> n < 2 ^ Z.of_nat (S (Z.to_nat (Z.log2 n))).
Proof.
  intros Hn. rewrite Nat2Z.inj_succ, Z2Nat.id by apply Z.log2_nonneg.
  destruct (Z.eq_dec n 0) as [->|]; [done|]. apply Z.log2_spec. lia.
Qed.

(** Reading back the digits of [n] gives [n], whatever follows them. *)
Lemma read_dec_digits n rest :
  0 <= n -> stops_digits rest ->
  exists k, 0 < k /\ read_digits 10 0 0 (dec_digits n ++ rest) = (n, k, rest).
Proof.
  intros Hn Hs. unfold dec_digits.
  destruct (read_dec_digits_fuel (S (Z.to_nat (Z.log2 n))) n [] rest 0 0)
    as (l & -> & Hl & Hr).
  - split; [done|by apply log2_fuel].
  - lia.
  - rewrite app_nil_r, Hr. exists (Z.of_nat (length l)).
    split; [lia|]. by rewrite read_digits_stop.
Qed.

Lemma dec_digits_isdigit n : Forall (fun c => isdigit c = true) (dec_digits n).
Proof.
  unfold dec_digits. destruct (dec_digits_fuel_app (S (Z.to_nat (Z.log2 n))) n [])
    as (l & -> & Hl). by rewrite app_nil_r.
Qed.

Lemma dec_digits_nonempty n : dec_digits n <> [].
Proof.
  unfold dec_digits. cbn [dec_digits_fuel]. case_match; [done|].
  destruct (dec_digits_fuel_app (Z.to_nat (Z.log2 n)) (n / 10) [48 + n mod 10]) as (l & -> & _).
  by destruct l.
Qed.
