(* ===== verification/LuaApi.v ===== *)
(** Values and the argument-checking layer: the tagged values of
    [VM/src/lobject.h], and the routines of [VM/src/laux.cpp] and
    [VM/src/lapi.cpp] that a library function uses to read its arguments and
    to push its results.

    A library function sees its arguments as the list of values between
    [L->base] and [L->top]; index [i] (from 1) beyond the end of the list is
    [LUA_TNONE].  Its result is the list of values it pushes. *)
From S2P Require Import Prelude Word Double NumParse.
Open Scope Z_scope.
Open Scope outcome_scope.

(** [TValue]: the value types that a library function can receive.  Objects on
    the heap other than strings and buffers are identified by their address. *)
Inductive TValue :=
  | LNil
  | LBoolean (b : bool)
  | LLightUserdata (p tag : Z)
  | LNumber (n : double)
  | LInteger (l : Z)
  | LVector (v : list double)
  | LString (s : list Z)
  | LTable (gc : Z)
  | LFunction (gc : Z)
  | LUserdata (gc : Z)
  | LThread (gc : Z)
  | LBuffer (gc : Z) (data : list Z)
  | LClass (gc : Z)
  | LObject (gc : Z).

#[export] Instance TValue_eq_dec : EqDecision TValue.
Proof. solve_decision. Defined.

(** A value as the VM builds them: integers are [int64_t], numbers are
    binary64, strings and buffers are bytes. *)
Definition wf_value (v : TValue) : Prop :=
  match v with
  | LInteger l => in_s 64 l
  | LNumber n => valid_double n = true
  | LString s | LBuffer _ s => Forall (in_u 8) s
  | _ => True
  end.

(** [ttype] *)
Definition ttype (v : TValue) : Z :=
  match v with
  | LNil => 0
  | LBoolean _ => 1
  | LLightUserdata _ _ => 2
  | LNumber _ => 3
  | LInteger _ => 4
  | LVector _ => 5
  | LString _ => 6
  | LTable _ => 7
  | LFunction _ => 8
  | LUserdata _ => 9
  | LThread _ => 10
  | LBuffer _ _ => 11
  | LClass _ => 12
  | LObject _ => 13
  end.

Definition LUA_TNONE : Z := -1.

(** [index2addr] on a positive index; [None] is [luaO_nilobject]. *)
Definition index2addr (args : list TValue) (idx : Z) : option TValue :=
  args !! Z.to_nat (idx - 1).

Definition lua_gettop (args : list TValue) : Z := Z.of_nat (length args).

Definition lua_type (args : list TValue) (idx : Z) : Z :=
  match index2addr args idx with Some v => ttype v | None => LUA_TNONE end.

Definition lua_isnoneornil (args : list TValue) (idx : Z) : bool :=
  lua_type args idx <=? 0.

Definition l_isfalse (v : TValue) : bool :=
  match v with LNil => true | LBoolean b => negb b | _ => false end.

(** [luaV_tonumber] (lvmutils.cpp) *)
Definition luaV_tonumber (v : TValue) : option double :=
  match v with
  | LNumber n => Some n
  | LString s => luaO_str2d s
  | _ => None
  end.

Section Check.
Context `{Target}.
Variable args : list TValue.

Definition lua_tonumberx (idx : Z) : option double :=
  match index2addr args idx with Some v => luaV_tonumber v | None => None end.

Definition lua_tointegerx (idx : Z) : option Z :=
  match lua_tonumberx idx with Some d => Some (luai_num2int d) | None => None end.

Definition lua_tounsignedx (idx : Z) : option Z :=
  match lua_tonumberx idx with Some d => Some (luai_num2unsigned d) | None => None end.

Definition lua_isinteger64 (idx : Z) : bool :=
  match index2addr args idx with Some (LInteger _) => true | _ => false end.

Definition lua_tointeger64 (idx : Z) : Z :=
  match index2addr args idx with Some (LInteger l) => l | _ => 0 end.

(** [tag_error]: [luaL_typeerrorL] with the name of the tag. *)
Definition tag_error {A} (narg : Z) (tname : string) : outcome A :=
  Throw (TypeError narg tname).

Definition luaL_checknumber (narg : Z) : outcome double :=
  match lua_tonumberx narg with
  | Some d => Ret d
  | None => tag_error narg "number"
  end.

Definition luaL_checkinteger (narg : Z) : outcome Z :=
  match lua_tointegerx narg with
  | Some d => Ret d
  | None => tag_error narg "number"
  end.

Definition luaL_checkunsigned (narg : Z) : outcome Z :=
  match lua_tounsignedx narg with
  | Some d => Ret d
  | None => tag_error narg "number"
  end.

Definition luaL_checkinteger64 (narg : Z) : outcome Z :=
  if lua_isinteger64 narg then Ret (lua_tointeger64 narg)
  else tag_error narg "integer".

(** [luaL_opt] *)
Definition luaL_opt {A} (f : Z -> outcome A) (narg : Z) (def : A) : outcome A :=
  if lua_isnoneornil args narg then Ret def else f narg.

Definition luaL_optinteger (narg def : Z) : outcome Z :=
  luaL_opt luaL_checkinteger narg def.

Definition luaL_optinteger64 (narg def : Z) : outcome Z :=
  luaL_opt luaL_checkinteger64 narg def.

(** The loop [for (int i = from; i <= n; i++) acc = op(acc, get(i))]. *)
Fixpoint loop_args {A} (get : Z -> outcome A) (op : A -> A -> A) (acc : A)
    (from : Z) (n : nat) : outcome A :=
  match n with
  | O => Ret acc
  | S k => x <- get from ;; loop_args get op (op acc x) (from + 1) k
  end.

Definition fold_args {A} (get : Z -> outcome A) (op : A -> A -> A) (acc : A)
    (from : Z) : outcome A :=
  loop_args get op acc from (Z.to_nat (lua_gettop args - from + 1)).
End Check.

(** [luai_num2str] (lnumprint.cpp): the shortest decimal text of a number, a
    parameter of the functions that accept a number where a string is
    expected. *)
Class NumFormat := luai_num2str : double -> list Z.

Section Strings.
Context `{NumFormat}.
Variable args : list TValue.

(** [lua_tolstring]: a number is formatted in place. *)
Definition lua_tolstring (idx : Z) : option (list Z) :=
  match index2addr args idx with
  | Some (LString s) => Some s
  | Some (LNumber n) => Some (luai_num2str n)
  | _ => None
  end.

Definition luaL_checklstring (narg : Z) : outcome (list Z) :=
  match lua_tolstring narg with
  | Some s => Ret s
  | None => tag_error narg "string"
  end.
End Strings.

(** The bytes of a C string literal. *)
Definition chars (s : string) : list Z :=
  map (fun a => Z.of_N (Ascii.N_of_ascii a)) (String.list_ascii_of_string s).

(** [luaL_argerror] and [luaL_error] *)
Definition luaL_argerror {A} (narg : Z) (msg : string) : outcome A :=
  Throw (ArgError narg msg).
Definition luaL_error {A} (msg : string) : outcome A := Throw (RunError msg).

(** [luaL_argcheck] as a statement: continue when the condition holds. *)
Definition luaL_argcheck (c : bool) (narg : Z) (msg : string) : outcome unit :=
  if c then Ret tt else luaL_argerror narg msg.

(** The pushing functions of lapi.cpp. *)
Definition lua_pushinteger64 (n : Z) : TValue := LInteger (s64 n).
Definition lua_pushnumber (d : double) : TValue := LNumber d.
Definition lua_pushunsigned (u : Z) : TValue := LNumber (double_of_Z u).
Definition lua_pushinteger (n : Z) : TValue := LNumber (double_of_Z n).
Definition lua_pushboolean (b : bool) : TValue := LBoolean b.
Definition lua_pushnil : TValue := LNil.
Definition lua_pushlstring (s : list Z) : TValue := LString s.

(** * What the checks return *)

Lemma checkinteger64_inv args i l :
  luaL_checkinteger64 args i = Ret l -> index2addr args i = Some (LInteger l).
Proof.
  unfold luaL_checkinteger64, lua_isinteger64, lua_tointeger64.
  destruct (index2addr args i) as [[]|]; naive_solver.
Qed.

Lemma checkinteger64_range args i l :
  Forall wf_value args -> luaL_checkinteger64 args i = Ret l -> in_s 64 l.
Proof.
  intros Hw Hc%checkinteger64_inv. rewrite Forall_lookup in Hw.
  by apply (Hw _ _ Hc).
Qed.

Lemma checkunsigned_range `{Target} args i u :
  luaL_checkunsigned args i = Ret u -> in_u 32 u.
Proof.
  unfold luaL_checkunsigned, lua_tounsignedx.
  destruct (lua_tonumberx args i); intros [=<-]. auto with word.
Qed.

Lemma checkinteger_range `{Target} args i n :
  luaL_checkinteger args i = Ret n -> in_s 32 n.
Proof.
  unfold luaL_checkinteger, lua_tointegerx.
  destruct (lua_tonumberx args i); intros [=<-]. auto with word.
Qed.

(** A check never runs into undefined behaviour, so neither does a sequence
    of checks. *)
Lemma checkinteger64_defined args i : is_defined (luaL_checkinteger64 args i) = true.
Proof. unfold luaL_checkinteger64. by case_match. Qed.

Lemma checkunsigned_defined `{Target} args i : is_defined (luaL_checkunsigned args i) = true.
Proof. unfold luaL_checkunsigned. by case_match. Qed.

Lemma checkinteger_defined `{Target} args i : is_defined (luaL_checkinteger args i) = true.
Proof. unfold luaL_checkinteger. by case_match. Qed.

Lemma opt_defined {A} args (f : Z -> outcome A) i d :
  is_defined (f i) = true -> is_defined (luaL_opt args f i d) = true.
Proof. unfold luaL_opt. by case_match. Qed.

Lemma argcheck_defined c i m : is_defined (luaL_argcheck c i m) = true.
Proof. by destruct c. Qed.

Create HintDb defined discriminated.
#[export] Hint Resolve checkinteger64_defined checkunsigned_defined
  checkinteger_defined opt_defined argcheck_defined : defined.

(** Reading the first arguments of an argument list written out. *)
Create Rewrite HintDb args.

Section Reads.
Context `{Target}.
Variables (v1 v2 v3 : TValue) (r : list TValue).

Lemma checkinteger64_1 a : luaL_checkinteger64 (LInteger a :: r) 1 = Ret a.
Proof. done. Qed.
Lemma checkinteger64_2 a : luaL_checkinteger64 (v1 :: LInteger a :: r) 2 = Ret a.
Proof. done. Qed.
Lemma checkinteger64_3 a : luaL_checkinteger64 (v1 :: v2 :: LInteger a :: r) 3 = Ret a.
Proof. done. Qed.
Lemma checkinteger64_4 a :
  luaL_checkinteger64 (v1 :: v2 :: v3 :: LInteger a :: r) 4 = Ret a.
Proof. done. Qed.
Lemma optinteger64_3 a d : luaL_optinteger64 (v1 :: v2 :: LInteger a :: r) 3 d = Ret a.
Proof. done. Qed.
Lemma optinteger64_4 a d :
  luaL_optinteger64 (v1 :: v2 :: v3 :: LInteger a :: r) 4 d = Ret a.
Proof. done. Qed.
Lemma optinteger64_3_none d : luaL_optinteger64 [v1; v2] 3 d = Ret d.
Proof. done. Qed.
Lemma optinteger64_4_none d : luaL_optinteger64 [v1; v2; v3] 4 d = Ret d.
Proof. done. Qed.

Lemma checkunsigned_1 n :
  luaL_checkunsigned (LNumber n :: r) 1 = Ret (luai_num2unsigned n).
Proof. done. Qed.
Lemma checkunsigned_2 n :
  luaL_checkunsigned (v1 :: LNumber n :: r) 2 = Ret (luai_num2unsigned n).
Proof. done. Qed.
Lemma checkinteger_2 n : luaL_checkinteger (v1 :: LNumber n :: r) 2 = Ret (luai_num2int n).
Proof. done. Qed.
Lemma checkinteger_3 n :
  luaL_checkinteger (v1 :: v2 :: LNumber n :: r) 3 = Ret (luai_num2int n).
Proof. done. Qed.
Lemma optinteger_3 n d :
  luaL_optinteger (v1 :: v2 :: LNumber n :: r) 3 d = Ret (luai_num2int n).
Proof. done. Qed.
Lemma optinteger_4 n d :
  luaL_optinteger (v1 :: v2 :: v3 :: LNumber n :: r) 4 d = Ret (luai_num2int n).
Proof. done. Qed.
Lemma optinteger_3_none d : luaL_optinteger [v1; v2] 3 d = Ret d.
Proof. done. Qed.
Lemma optinteger_4_none d : luaL_optinteger [v1; v2; v3] 4 d = Ret d.
Proof. done. Qed.
End Reads.

#[export] Hint Rewrite checkinteger64_1 checkinteger64_2 checkinteger64_3
  checkinteger64_4 optinteger64_3 optinteger64_4 optinteger64_3_none
  optinteger64_4_none @checkunsigned_1 @checkunsigned_2 @checkinteger_2
  @checkinteger_3 @optinteger_3 @optinteger_4 @optinteger_3_none
  @optinteger_4_none : args.

(** Evaluate the argument checks at the head of a library function. *)
Ltac read_args := repeat (autorewrite with args; cbn [outcome_bind]).

(** The argument loop over the rest of the list, as a fold. *)
Section LoopArgs.
Context {A : Type} (get : Z -> outcome A) (op : A -> A -> A).

Lemma loop_args_fold (n : nat) (from : Z) (acc : A) (xs : list A) :
  length xs = n ->
  (forall k x, xs !! k = Some x -> get (from + Z.of_nat k) = Ret x) ->
  loop_args get op acc from n = Ret (fold_left op xs acc).
Proof.
  revert from acc xs. induction n as [|n IH]; intros from acc [|x xs] Hl Hg; try done.
  cbn [loop_args]. pose proof (Hg 0%nat x eq_refl) as Hx. rewrite Z.add_0_r in Hx.
  rewrite Hx. cbn [outcome_bind fold_left]. apply IH; [by injection Hl|].
  intros k y Hk. rewrite <- (Hg (S k) y Hk). f_equal. lia.
Qed.

Lemma loop_args_defined (n : nat) (from : Z) (acc : A) :
  (forall i, is_defined (get i) = true) -> is_defined (loop_args get op acc from n) = true.
Proof.
  intros Hg. revert from acc. induction n as [|n IH]; intros from acc; cbn [loop_args]; [done|].
  apply bind_defined; [done|]. intros. apply IH.
Qed.

Lemma loop_args_inv (P : A -> Prop) (n : nat) (from : Z) (acc r : A) :
  P acc -> (forall a i x, P a -> get i = Ret x -> P (op a x)) ->
  loop_args get op acc from n = Ret r -> P r.
Proof.
  intros Ha Hs. revert from acc Ha. induction n as [|n IH]; intros from acc Ha; cbn [loop_args].
  { by intros [=<-]. }
  intros (x & Hx & Hr)%bind_Ret_inv. eauto.
Qed.
End LoopArgs.
