(* ===== verification/IntLib.v ===== *)
(** The [integer] library, [VM/src/lintlib.cpp]: 64-bit integer arithmetic and
    bit operations.  One definition per C function, in the order of the file;
    [int64_t] values are integers of [[-2^63, 2^63)], [uint64_t] intermediate
    values integers of [[0, 2^64)]. *)
From S2P Require Import Prelude Word Bytes Double NumParse LuaApi.
Open Scope Z_scope.
Open Scope outcome_scope.

Definition LLONG_MIN : Z := - 2 ^ 63.
Definition LLONG_MAX : Z := 2 ^ 63 - 1.
Definition ULLONG_MAX : Z := 2 ^ 64 - 1.

(** [mask64(w)] *)
Definition mask64 (w : Z) : Z := shr_u ULLONG_MAX (64 - w).

(** An integer, or a number with an integral value in the range of [int64_t]. *)
Definition checkbitoperand `{Target} (args : list TValue) (index : Z) : outcome Z :=
  match index2addr args index with
  | Some (LInteger l) => Ret l
  | Some (LNumber value) =>
      if is_integral value && in_int64_range value then Ret (luai_num2long value)
      else luaL_argerror index "integer or integral number expected"
  | _ => luaL_argerror index "integer or integral number expected"
  end.

Definition int64_create `{Target} (args : list TValue) : outcome (list TValue) :=
  x <- luaL_checknumber args 1 ;;
  if in_int64_range x then
    let l := luai_num2long x in
    if d_eq (double_of_Z l) x then Ret [lua_pushinteger64 l] else Ret [lua_pushnil]
  else Ret [lua_pushnil].

Definition int64_fromstring `{Target, NumFormat} (args : list TValue) : outcome (list TValue) :=
  s <- luaL_checklstring args 1 ;;
  base <- luaL_optinteger args 2 10 ;;
  luaL_argcheck ((2 <=? base) && (base <=? 36)) 2 "base out of range" ;;;
  match luaO_str2l s base with
  | Some result => Ret [lua_pushinteger64 result]
  | None => Ret [lua_pushnil]
  end.

Section Int64.
Variable args : list TValue.

Definition int64_tonumber : outcome (list TValue) :=
  x <- luaL_checkinteger64 args 1 ;;
  Ret [lua_pushnumber (double_of_Z x)].

Definition int64_neg : outcome (list TValue) :=
  x <- luaL_checkinteger64 args 1 ;;
  Ret [lua_pushinteger64 (add_u 64 (not_u 64 (u64 x)) 1)].

Definition int64_add : outcome (list TValue) :=
  x <- luaL_checkinteger64 args 1 ;;
  y <- luaL_checkinteger64 args 2 ;;
  Ret [lua_pushinteger64 (add_u 64 (u64 x) (u64 y))].

Definition int64_sub : outcome (list TValue) :=
  x <- luaL_checkinteger64 args 1 ;;
  y <- luaL_checkinteger64 args 2 ;;
  Ret [lua_pushinteger64 (sub_u 64 (u64 x) (u64 y))].

Definition int64_mul : outcome (list TValue) :=
  x <- luaL_checkinteger64 args 1 ;;
  y <- luaL_checkinteger64 args 2 ;;
  Ret [lua_pushinteger64 (mul_u 64 (u64 x) (u64 y))].

Definition int64_div : outcome (list TValue) :=
  a <- luaL_checkinteger64 args 1 ;;
  b <- luaL_checkinteger64 args 2 ;;
  if b =? 0 then luaL_error "division by zero"
  else if (a =? LLONG_MIN) && (b =? -1) then luaL_error "integer overflow"
  else Ret [lua_pushinteger64 (Z.quot a b)].

Definition int64_idiv : outcome (list TValue) :=
  a <- luaL_checkinteger64 args 1 ;;
  b <- luaL_checkinteger64 args 2 ;;
  if b =? 0 then luaL_error "division by zero"
  else if (a =? LLONG_MIN) && (b =? -1) then luaL_error "integer overflow"
  else
    let result := Z.quot a b in
    if (result <? 0) && negb (Z.rem a b =? 0)
    then Ret [lua_pushinteger64 (result - 1)]
    else Ret [lua_pushinteger64 result].

Definition int64_rem : outcome (list TValue) :=
  a <- luaL_checkinteger64 args 1 ;;
  b <- luaL_checkinteger64 args 2 ;;
  if b =? 0 then luaL_error "division by zero"
  else if (a =? LLONG_MIN) && (b =? -1) then Ret [lua_pushinteger64 0]
  else Ret [lua_pushinteger64 (Z.rem a b)].

Definition int64_mod : outcome (list TValue) :=
  a <- luaL_checkinteger64 args 1 ;;
  b <- luaL_checkinteger64 args 2 ;;
  if b =? 0 then luaL_error "division by zero"
  else
    let remainder :=
      if negb (a =? LLONG_MIN) || negb (b =? -1) then
        let r := Z.rem a b in
        if negb (r =? 0) && xorb (a <? 0) (b <? 0) then r + b else r
      else 0 in
    Ret [lua_pushinteger64 remainder].

Definition int64_udiv : outcome (list TValue) :=
  a <- luaL_checkinteger64 args 1 ;;
  b <- luaL_checkinteger64 args 2 ;;
  if u64 b =? 0 then luaL_error "division by zero"
  else Ret [lua_pushinteger64 (Z.div (u64 a) (u64 b))].

Definition int64_urem : outcome (list TValue) :=
  a <- luaL_checkinteger64 args 1 ;;
  b <- luaL_checkinteger64 args 2 ;;
  if u64 b =? 0 then luaL_error "division by zero"
  else Ret [lua_pushinteger64 (Z.modulo (u64 a) (u64 b))].

Definition int64_min : outcome (list TValue) :=
  tmin <- luaL_checkinteger64 args 1 ;;
  r <- fold_args args (luaL_checkinteger64 args)
         (fun tmin x => if x <? tmin then x else tmin) tmin 2 ;;
  Ret [lua_pushinteger64 r].

Definition int64_max : outcome (list TValue) :=
  tmax <- luaL_checkinteger64 args 1 ;;
  r <- fold_args args (luaL_checkinteger64 args)
         (fun tmax x => if tmax <? x then x else tmax) tmax 2 ;;
  Ret [lua_pushinteger64 r].

(** Comparisons, signed and on the bit patterns. *)
Definition compare_s (test : Z -> Z -> bool) : outcome (list TValue) :=
  a <- luaL_checkinteger64 args 1 ;;
  b <- luaL_checkinteger64 args 2 ;;
  Ret [lua_pushboolean (test a b)].

Definition compare_u (test : Z -> Z -> bool) : outcome (list TValue) :=
  a <- luaL_checkinteger64 args 1 ;;
  b <- luaL_checkinteger64 args 2 ;;
  Ret [lua_pushboolean (test (u64 a) (u64 b))].

Definition int64_lt := compare_s Z.ltb.
Definition int64_le := compare_s Z.leb.
Definition int64_ult := compare_u Z.ltb.
Definition int64_ule := compare_u Z.leb.
Definition int64_gt := compare_s Z.gtb.
Definition int64_ge := compare_s Z.geb.
Definition int64_ugt := compare_u Z.gtb.
Definition int64_uge := compare_u Z.geb.

Definition int64_arshift : outcome (list TValue) :=
  n <- luaL_checkinteger64 args 1 ;;
  i <- luaL_checkinteger64 args 2 ;;
  if (-63 <=? i) && (i <=? 63) then
    Ret [lua_pushinteger64 (if i <? 0 then shl_u 64 (u64 n) (- i) else Z.shiftr n i)]
  else if i <? -63 then Ret [lua_pushinteger64 0]
  else Ret [lua_pushinteger64 (if n <? 0 then -1 else 0)].

Definition int64_lrotate : outcome (list TValue) :=
  n0 <- luaL_checkinteger64 args 1 ;;
  s0 <- luaL_checkinteger64 args 2 ;;
  let n := u64 n0 in
  let s := Z.modulo (u64 s0) 64 in
  Ret [lua_pushinteger64
         (if negb (s =? 0) then Z.lor (shl_u 64 n s) (shr_u n (64 - s)) else n)].

Definition int64_rrotate : outcome (list TValue) :=
  n0 <- luaL_checkinteger64 args 1 ;;
  s0 <- luaL_checkinteger64 args 2 ;;
  let n := u64 n0 in
  let s := Z.modulo (u64 s0) 64 in
  Ret [lua_pushinteger64
         (if negb (s =? 0) then Z.lor (shr_u n s) (shl_u 64 n (64 - s)) else n)].

Definition int64_extract : outcome (list TValue) :=
  n <- luaL_checkinteger64 args 1 ;;
  f <- luaL_checkinteger64 args 2 ;;
  w <- luaL_optinteger64 args 3 1 ;;
  luaL_argcheck ((0 <=? f) && (f <=? 63)) 2 "field cannot be negative" ;;;
  luaL_argcheck (0 <? w) 3 "width must be positive" ;;;
  fw <- add_s 64 f w ;;
  if 64 <? fw then luaL_error "trying to access non-existent bits"
  else Ret [lua_pushinteger64 (Z.land (shr_u (u64 n) f) (mask64 w))].

Definition int64_replace : outcome (list TValue) :=
  n <- luaL_checkinteger64 args 1 ;;
  r <- luaL_checkinteger64 args 2 ;;
  f <- luaL_checkinteger64 args 3 ;;
  w <- luaL_optinteger64 args 4 1 ;;
  luaL_argcheck ((0 <=? f) && (f <=? 63)) 3 "field cannot be negative" ;;;
  luaL_argcheck (0 <? w) 4 "width must be positive" ;;;
  fw <- add_s 64 f w ;;
  if 64 <? fw then luaL_error "trying to access non-existent bits"
  else
    let baseMask := shr_u ULLONG_MAX (64 - w) in
    let replacement := shl_u 64 (Z.land (u64 r) baseMask) f in
    let mask := Z.lxor ULLONG_MAX (shl_u 64 baseMask f) in
    Ret [lua_pushinteger64 (Z.lor (Z.land (u64 n) mask) replacement)].

Definition int64_clamp : outcome (list TValue) :=
  a <- luaL_checkinteger64 args 1 ;;
  mi <- luaL_checkinteger64 args 2 ;;
  mx <- luaL_checkinteger64 args 3 ;;
  luaL_argcheck (mi <=? mx) 3 "max must be greater than or equal to min" ;;;
  if a <? mi then Ret [lua_pushinteger64 mi]
  else if mx <? a then Ret [lua_pushinteger64 mx]
  else Ret [lua_pushinteger64 a].

Definition int64_btest : outcome (list TValue) :=
  tres <- fold_args args (luaL_checkinteger64 args)
            (fun tres x => Z.land tres (u64 x)) ULLONG_MAX 1 ;;
  Ret [lua_pushboolean (negb (tres =? 0))].

Definition int64_countrz : outcome (list TValue) :=
  n0 <- luaL_checkinteger64 args 1 ;;
  let n := u64 n0 in
  Ret [lua_pushinteger64 (if n =? 0 then 64 else builtin_ctz 64 n)].

Definition int64_countlz : outcome (list TValue) :=
  n0 <- luaL_checkinteger64 args 1 ;;
  let n := u64 n0 in
  Ret [lua_pushinteger64 (if n =? 0 then 64 else builtin_clz 64 n)].

(** The byte swap expression of [int64_bswap]. *)
Definition bswap64 (a : Z) : Z :=
  Z.lor (Z.lor (Z.lor (Z.lor (Z.lor (Z.lor (Z.lor
    (shr_u a 56)
    (shr_u (Z.land a 0xFF000000000000) 40))
    (shr_u (Z.land a 0xFF0000000000) 24))
    (shr_u (Z.land a 0xFF00000000) 8))
    (shl_u 64 (Z.land a 0xFF000000) 8))
    (shl_u 64 (Z.land a 0xFF0000) 24))
    (shl_u 64 (Z.land a 0xFF00) 40))
    (shl_u 64 (Z.land a 0xFF) 56).

Definition int64_bswap : outcome (list TValue) :=
  a <- luaL_checkinteger64 args 1 ;;
  Ret [lua_pushinteger64 (bswap64 (u64 a))].

End Int64.

(** The operations that also accept numbers with integral values. *)
Section Int64Bits.
Context `{Target}.
Variable args : list TValue.

Definition int64_band : outcome (list TValue) :=
  tres <- fold_args args (checkbitoperand args)
            (fun tres x => Z.land tres (u64 x)) ULLONG_MAX 1 ;;
  Ret [lua_pushinteger64 tres].

Definition int64_bor : outcome (list TValue) :=
  tres <- fold_args args (checkbitoperand args)
            (fun tres x => Z.lor tres (u64 x)) 0 1 ;;
  Ret [lua_pushinteger64 tres].

Definition int64_bnot : outcome (list TValue) :=
  a <- checkbitoperand args 1 ;;
  Ret [lua_pushinteger64 (not_u 64 (u64 a))].

Definition int64_bxor : outcome (list TValue) :=
  tres <- fold_args args (checkbitoperand args)
            (fun tres x => Z.lxor tres (u64 x)) 0 1 ;;
  Ret [lua_pushinteger64 tres].

Definition int64_lshift : outcome (list TValue) :=
  n0 <- checkbitoperand args 1 ;;
  i <- checkbitoperand args 2 ;;
  let n := u64 n0 in
  if (-63 <=? i) && (i <=? 63) then
    Ret [lua_pushinteger64 (if i <? 0 then shr_u n (- i) else shl_u 64 n i)]
  else Ret [lua_pushinteger64 0].

Definition int64_rshift : outcome (list TValue) :=
  n0 <- checkbitoperand args 1 ;;
  i <- checkbitoperand args 2 ;;
  let n := u64 n0 in
  if (-63 <=? i) && (i <=? 63) then
    Ret [lua_pushinteger64 (if i <? 0 then shl_u 64 n (- i) else shr_u n i)]
  else Ret [lua_pushinteger64 0].
End Int64Bits.

Lemma checkbitoperand_1 `{Target} a r : checkbitoperand (LInteger a :: r) 1 = Ret a.
Proof. done. Qed.
Lemma checkbitoperand_2 `{Target} v a r : checkbitoperand (v :: LInteger a :: r) 2 = Ret a.
Proof. done. Qed.
#[export] Hint Rewrite @checkbitoperand_1 @checkbitoperand_2 : args.

(** * Two's complement arithmetic *)

Lemma neg_u_spec w x : add_u w (not_u w (cast_u w x)) 1 = cast_u w (- x).
Proof.
  unfold add_u, not_u, cast_u. rewrite Zplus_mod_idemp_l.
  replace (Z.lnot (x mod 2 ^ w) + 1) with (0 - x mod 2 ^ w) by (unfold Z.lnot; lia).
  by rewrite Zminus_mod_idemp_r.
Qed.

(** [add], [sub], [mul] and [neg] are the ring operations modulo [2^64],
    read back as a signed integer: overflow wraps, and a result that fits is
    the exact one. *)
Theorem int64_arith_wraps a b rest :
  let args := LInteger a :: LInteger b :: rest in
  int64_add args = Ret [LInteger (s64 (a + b))] /\
  int64_sub args = Ret [LInteger (s64 (a - b))] /\
  int64_mul args = Ret [LInteger (s64 (a * b))] /\
  int64_neg args = Ret [LInteger (s64 (- a))].
Proof.
  cbn zeta. unfold int64_add, int64_sub, int64_mul, int64_neg. read_args.
  unfold lua_pushinteger64. rewrite neg_u_spec.
  unfold add_u, sub_u, mul_u. rewrite cast_u_add, cast_u_sub, cast_u_mul.
  by rewrite !cast_s_cast_u.
Qed.

(** * Division *)

Lemma rem_range a b : in_s 64 b -> b <> 0 -> in_s 64 (Z.rem a b).
Proof.
  intros Hb Hne. pose proof (Z.rem_bound_abs a b Hne). unfold in_s in *. lia.
Qed.

Lemma mod_range a b : in_s 64 b -> b <> 0 -> in_s 64 (a mod b).
Proof.
  intros Hb Hne. unfold in_s in *. destruct (Z.lt_ge_cases b 0).
  - pose proof (Z.mod_neg_bound a b). lia.
  - pose proof (Z.mod_pos_bound a b). lia.
Qed.

(** Truncated and floored division. *)
Lemma floor_of_trunc a b :
  b <> 0 ->
  a mod b = (if negb (Z.rem a b =? 0) && xorb (a <? 0) (b <? 0)
             then Z.rem a b + b else Z.rem a b) /\
  a / b = (if negb (Z.rem a b =? 0) && xorb (a <? 0) (b <? 0)
           then Z.quot a b - 1 else Z.quot a b).
Proof.
  intros Hb. pose proof (Z.quot_rem' a b) as Hq. pose proof (Z.rem_bound_abs a b Hb) as Hr.
  assert (Hu : forall q r, a = b * q + r -> (0 <= r < b \/ b < r <= 0) ->
               a mod b = r /\ a / b = q).
  { intros q r E Hbr. split; symmetry.
    - by apply (Z.mod_unique a b q r).
    - by apply (Z.div_unique a b q r). }
  pose proof (Z.rem_nonneg a b Hb) as Hp. pose proof (Z.rem_nonpos a b Hb) as Hm.
  destruct (Z.eqb_spec (Z.rem a b) 0); cbn [negb andb]; [apply Hu; lia|].
  destruct (Z.ltb_spec a 0), (Z.ltb_spec b 0); cbn [xorb]; apply Hu; lia.
Qed.

Lemma quot_range a b :
  in_s 64 a -> b <> 0 -> (a =? LLONG_MIN) && (b =? -1) = false -> in_s 64 (Z.quot a b).
Proof.
  intros Ha Hb Hov. unfold in_s, LLONG_MIN in *. change (64 - 1) with 63 in *.
  pose proof (Z.quot_rem' a b) as Hq. pose proof (Z.rem_bound_abs a b Hb) as Hr.
  pose proof (Z.rem_sign_mul a b Hb) as Hs.
  apply andb_false_iff in Hov. rewrite !Z.eqb_neq in Hov.
  assert (Habs : Z.abs (Z.quot a b) <= Z.abs a).
  { rewrite <- Z.quot_abs by done. apply Z.quot_le_upper_bound; [lia|]. nia. }
  destruct (Z.eq_dec a (- 2 ^ 63)) as [->|]; [|lia].
  assert (b <> -1) by (destruct Hov; congruence).
  enough (Z.quot (- 2 ^ 63) b <> 2 ^ 63) by lia. intros E. rewrite E in Hq. nia.
Qed.

(** On every divisor: division by zero is an error; [mod] is the floored
    modulus, of the sign of the divisor; [rem] is the truncated remainder, and
    [div] the truncated quotient with the one overflowing case an error;
    [udiv] and [urem] divide the bit patterns. *)
Theorem int64_division_spec a b rest :
  in_s 64 a -> in_s 64 b ->
  let args := LInteger a :: LInteger b :: rest in
  let zero := Throw (RunError "division by zero") in
  int64_mod args = (if b =? 0 then zero else Ret [LInteger (a mod b)]) /\
  int64_rem args = (if b =? 0 then zero else Ret [LInteger (Z.rem a b)]) /\
  int64_div args =
    (if b =? 0 then zero
     else if (a =? LLONG_MIN) && (b =? -1) then Throw (RunError "integer overflow")
     else Ret [LInteger (Z.quot a b)]) /\
  int64_udiv args =
    (if b =? 0 then zero else Ret [LInteger (s64 (u64 a / u64 b))]) /\
  int64_urem args =
    (if b =? 0 then zero else Ret [LInteger (s64 (u64 a mod u64 b))]).
Proof.
  intros Ha Hb. cbn zeta.
  unfold int64_mod, int64_rem, int64_div, int64_udiv, int64_urem. read_args.
  assert (Hub : (u64 b =? 0) = (b =? 0)).
  { destruct (Z.eqb_spec b 0) as [->|Hne]; [done|]. apply Z.eqb_neq. intros E.
    apply Hne. by apply (cast_u_inj_s 64). }
  rewrite Hub. unfold lua_pushinteger64, luaL_error.
  destruct (Z.eqb_spec b 0) as [|Hne]; [by split_and!|].
  pose proof (rem_range a b Hb Hne) as Hrem. pose proof (mod_range a b Hb Hne) as Hmod.
  destruct (floor_of_trunc a b Hne) as [Hfl _].
  rewrite <- negb_andb. destruct ((a =? LLONG_MIN) && (b =? -1)) eqn:Hov; cbn [negb].
  - bool_simpl. by subst a b.
  - pose proof (quot_range a b Ha Hne Hov). rewrite <- Hfl, !cast_s_id by done. by split_and!.
Qed.

(** [idiv], described as floored division, rounds toward zero exactly when
    the truncated quotient is zero: the correction looks at the sign of the
    quotient, which is lost then. *)
Theorem int64_idiv_spec a b rest :
  in_s 64 a -> in_s 64 b ->
  int64_idiv (LInteger a :: LInteger b :: rest) =
    (if b =? 0 then Throw (RunError "division by zero")
     else if (a =? LLONG_MIN) && (b =? -1) then Throw (RunError "integer overflow")
     else Ret [LInteger (if Z.quot a b =? 0 then 0 else a / b)]).
Proof.
  intros Ha Hb. unfold int64_idiv. read_args. unfold lua_pushinteger64, luaL_error.
  destruct (Z.eqb_spec b 0) as [|Hne]; [done|].
  destruct ((a =? LLONG_MIN) && (b =? -1)) eqn:Hov; [done|].
  pose proof (quot_range a b Ha Hne Hov) as Hq.
  destruct (floor_of_trunc a b Hne) as [_ Hfl].
  pose proof (Z.quot_rem' a b) as Hqr. pose proof (Z.rem_bound_abs a b Hne) as Hr.
  pose proof (Z.rem_sign_mul a b Hne) as Hs.
  assert (Hsgn : Z.quot a b <> 0 -> (Z.quot a b <? 0) = xorb (a <? 0) (b <? 0)).
  { intros Hnz. destruct (Z.ltb_spec (Z.quot a b) 0), (Z.ltb_spec a 0), (Z.ltb_spec b 0);
      cbn; try done; exfalso; nia. }
  destruct (Z.eqb_spec (Z.quot a b) 0) as [E|Hnz].
  - rewrite E. done.
  - rewrite Hfl, andb_comm, <- Hsgn by done.
    destruct (negb (Z.rem a b =? 0) && (Z.quot a b <? 0)) eqn:Hc; rewrite cast_s_id; try done.
    bool_simpl. unfold in_s in *. change (64 - 1) with 63 in *.
    enough (Z.quot a b <> - 2 ^ 63) by lia. intros E. rewrite E in Hqr. nia.
Qed.

(** * Shifts *)

Lemma shl_u_far w x n : 0 <= w <= n -> cast_u w (Z.shiftl x n) = 0.
Proof.
  intros Hn. apply Z.bits_inj'. intros i Hi.
  rewrite testbit_cast_u, Z.shiftl_spec, Z.testbit_0_l by lia. destruct (Z.ltb_spec i w).
  - by rewrite Z.testbit_neg_r by lia.
  - apply andb_false_r.
Qed.

Lemma s64_shiftl_far x i : 64 <= i -> s64 (Z.shiftl x i) = 0.
Proof. intros. rewrite <- cast_s_cast_u, shl_u_far by lia. done. Qed.

Lemma shiftr_u64_far x i : 64 <= i -> Z.shiftr (u64 x) i = 0.
Proof.
  intros Hi. apply Z.shiftr_eq_0_iff. pose proof (cast_u_range 64 x ltac:(lia)) as [H1 H2].
  destruct (Z.eq_dec (u64 x) 0) as [->|]; [by left|right].
  split; [lia|]. enough (Z.log2 (u64 x) < 64) by lia. apply Z.log2_lt_pow2; lia.
Qed.

Lemma shiftr_s64_far x i :
  in_s 64 x -> 63 <= i -> Z.shiftr x i = (if x <? 0 then -1 else 0).
Proof.
  intros Hx Hi. rewrite Z.shiftr_div_pow2 by lia. unfold in_s in Hx.
  change (64 - 1) with 63 in *. pose proof (Z.pow_le_mono_r 2 63 i ltac:(lia) Hi).
  destruct (Z.ltb_spec x 0).
  - symmetry. apply (Z.div_unique _ _ _ (x + 2 ^ i)); lia.
  - apply Z.div_small. lia.
Qed.

Lemma s64_shiftl_u64 x i : 0 <= i -> s64 (Z.shiftl (u64 x) i) = s64 (Z.shiftl x i).
Proof.
  intros Hi. rewrite <- !(cast_s_cast_u 64 (Z.shiftl _ _)) by lia. f_equal.
  apply Z.bits_inj'. intros j Hj. rewrite !testbit_cast_u, !Z.shiftl_spec by lia.
  destruct (Z.lt_ge_cases j i); [by rewrite !Z.testbit_neg_r by lia|].
  rewrite testbit_cast_u by lia. split_ltb; by rewrite ?andb_true_r, ?andb_false_r.
Qed.

(** For every shift amount of [int64_t], out-of-range and negative ones
    included: [lshift] and [rshift] shift the bit pattern logically, [arshift]
    shifts the signed value, a negative amount shifts the other way. *)
Theorem int64_shift_spec `{Target} n i rest :
  in_s 64 n -> in_s 64 i ->
  let args := LInteger n :: LInteger i :: rest in
  int64_lshift args = Ret [LInteger (s64 (Z.shiftl (u64 n) i))] /\
  int64_rshift args = Ret [LInteger (s64 (Z.shiftr (u64 n) i))] /\
  int64_arshift args = Ret [LInteger (s64 (Z.shiftr n i))].
Proof.
  intros Hn Hi. cbn zeta.
  assert (Hl : forall j, s64 (cast_u 64 (Z.shiftl (u64 n) j)) = s64 (Z.shiftl (u64 n) j))
    by (intros; by apply cast_s_cast_u).
  unfold int64_lshift, int64_rshift, int64_arshift, lua_pushinteger64, shl_u, shr_u. read_args.
  destruct (Z.leb_spec (-63) i); cbn [andb]; [destruct (Z.leb_spec i 63); cbn [andb]|].
  - destruct (Z.ltb_spec i 0); rewrite !Hl; [|by split_and!].
    assert (exists j, i = - j /\ 0 <= j) as (j & -> & Hj) by (exists (- i); lia).
    rewrite Z.opp_involutive, Z.shiftl_opp_r, !Z.shiftr_opp_r, s64_shiftl_u64 by lia.
    by split_and!.
  - rewrite s64_shiftl_far, shiftr_u64_far by lia. split_and!; [done..|].
    rewrite (proj2 (Z.ltb_ge i (-63))), shiftr_s64_far by (done || lia). by case_match.
  - rewrite (proj2 (Z.ltb_lt i (-63))) by lia.
    assert (exists j, i = - j /\ 64 <= j) as (j & -> & Hj) by (exists (- i); lia).
    rewrite Z.shiftl_opp_r, !Z.shiftr_opp_r, shiftr_u64_far, !s64_shiftl_far by lia.
    by split_and!.
Qed.

(** * Rotations and byte order *)

(** A rotation of 64 bits by any amount. *)
Definition rotate_left64 (x s : Z) : Z := rotl_u 64 x (s mod 64).

Lemma rotate64 n s :
  in_u 64 n ->
  (if negb (u64 s mod 64 =? 0)
   then Z.lor (shl_u 64 n (u64 s mod 64)) (shr_u n (64 - u64 s mod 64)) else n)
  = rotate_left64 n s /\
  (if negb (u64 s mod 64 =? 0)
   then Z.lor (shr_u n (u64 s mod 64)) (shl_u 64 n (64 - u64 s mod 64)) else n)
  = rotate_left64 n (- s).
Proof.
  intros Hn. unfold rotate_left64, cast_u.
  rewrite (Z.mod_mod_divide s (2 ^ 64) 64) by (by exists (2 ^ 58)).
  pose proof (Z.mod_pos_bound s 64 ltac:(lia)) as Hs.
  destruct (Z.eqb_spec (s mod 64) 0) as [E|Hne]; cbn [negb].
  - rewrite (Z.mod_opp_l_z s 64), E by done. unfold rotl_u, shl_u, shr_u.
    rewrite Z.shiftl_0_r, cast_u_id by done.
    replace (Z.shiftr n (64 - 0)) with 0; [by rewrite Z.lor_0_r|].
    symmetry. rewrite <- (cast_u_id 64 n) by done. by apply shiftr_u64_far.
  - split; [done|]. rewrite Z.mod_opp_l_nz by done.
    apply (rotr_rotl_u 64 n (s mod 64)). lia.
Qed.

Lemma testbit_rotate_left64 x s i :
  in_u 64 x -> 0 <= i < 64 -> Z.testbit (rotate_left64 x s) i = Z.testbit x ((i - s) mod 64).
Proof.
  intros Hx Hi. unfold rotate_left64.
  rewrite testbit_rotl_u by (done || apply Z.mod_pos_bound; lia). by rewrite Zminus_mod_idemp_r.
Qed.

Lemma rotate_left64_range x s : in_u 64 x -> in_u 64 (rotate_left64 x s).
Proof.
  intros. pose proof (Z.mod_pos_bound s 64 ltac:(lia)). apply in_u_rotl; [lia|done].
Qed.

Lemma rotate_left64_inverse x s : in_u 64 x -> rotate_left64 (rotate_left64 x s) (- s) = x.
Proof.
  intros Hx. apply (word_ext 64); auto using rotate_left64_range; [lia|]. intros i Hi.
  rewrite !testbit_rotate_left64; auto using rotate_left64_range.
  2: { apply Z.mod_pos_bound. lia. }
  rewrite Zminus_mod_idemp_l. replace (i - - s - s) with i by lia. by rewrite Z.mod_small.
Qed.

Lemma int64_lrotate_eq n s rest :
  int64_lrotate (LInteger n :: LInteger s :: rest)
  = Ret [LInteger (s64 (rotate_left64 (u64 n) s))].
Proof.
  unfold int64_lrotate, lua_pushinteger64. read_args.
  by rewrite (proj1 (rotate64 (u64 n) s (cast_u_range 64 n ltac:(lia)))).
Qed.

Lemma int64_rrotate_eq n s rest :
  int64_rrotate (LInteger n :: LInteger s :: rest)
  = Ret [LInteger (s64 (rotate_left64 (u64 n) (- s)))].
Proof.
  unfold int64_rrotate, lua_pushinteger64. read_args.
  by rewrite (proj2 (rotate64 (u64 n) s (cast_u_range 64 n ltac:(lia)))).
Qed.

(** [lrotate] sends bit [i] to bit [i + s] modulo 64 for every amount [s],
    and [rrotate] by the same amount gives the operand back. *)
Theorem int64_rotate_spec n s :
  in_s 64 n ->
  exists m, int64_lrotate [LInteger n; LInteger s] = Ret [LInteger m] /\
    (forall i, 0 <= i < 64 -> Z.testbit m ((i + s) mod 64) = Z.testbit n i) /\
    int64_rrotate [LInteger m; LInteger s] = Ret [LInteger n].
Proof.
  intros Hn. eexists. rewrite int64_lrotate_eq. split; [done|].
  assert (Hu : in_u 64 (u64 n)) by auto with word. split.
  - intros i Hi. pose proof (Z.mod_pos_bound (i + s) 64 ltac:(lia)) as Hm.
    rewrite testbit_cast_s, (proj2 (Z.ltb_lt _ 64)), testbit_rotate_left64 by (done || lia).
    rewrite Zminus_mod_idemp_l. replace (i + s - s) with i by lia.
    rewrite Z.mod_small, testbit_cast_u by lia. by rewrite (proj2 (Z.ltb_lt i 64)), andb_true_r by lia.
  - rewrite int64_rrotate_eq, cast_u_cast_s by done.
    rewrite (cast_u_id 64 (rotate_left64 _ _)) by auto using rotate_left64_range.
    rewrite rotate_left64_inverse, cast_s_cast_u, cast_s_id by done. done.
Qed.

(** [int64_bswap] reverses the eight bytes. *)
Lemma bswap64_bytes a : in_u 64 a -> bswap64 a = be_combine (le_split 8 a).
Proof.
  intros Ha. unfold bswap64, be_combine. cbn [le_split rev app le_combine].
  change 0xFF000000000000 with (Z.shiftl 255 48). change 0xFF0000000000 with (Z.shiftl 255 40).
  change 0xFF00000000 with (Z.shiftl 255 32). change 0xFF000000 with (Z.shiftl 255 24).
  change 0xFF0000 with (Z.shiftl 255 16). change 0xFF00 with (Z.shiftl 255 8).
  change 0xFF with (Z.shiftl 255 0). rewrite !move_byte_up, !move_byte_down by lia.
  rewrite !Z.shiftr_shiftr by lia. rewrite Z.shiftl_0_l.
  rewrite Z.lor_0_r. rewrite !Z.shiftl_lor, !Z.shiftl_shiftl by lia.
  replace (shr_u a 56) with (u8 (Z.shiftr a 56)).
  { rewrite !Z.lor_assoc, Z.shiftr_0_r. reflexivity. }
  apply cast_u_id. rewrite Z.shiftr_div_pow2 by lia. unfold in_u in *.
  split; [apply Z.div_pos; lia|]. apply Z.div_lt_upper_bound; lia.
Qed.

(** [bswap] reverses the eight bytes of the bit pattern, and is its own
    inverse. *)
Theorem int64_bswap_spec n :
  in_s 64 n ->
  exists m, int64_bswap [LInteger n] = Ret [LInteger m] /\
    le_split 8 m = rev (le_split 8 n) /\ int64_bswap [LInteger m] = Ret [LInteger n].
Proof.
  intros Hn. unfold int64_bswap, lua_pushinteger64. read_args.
  assert (Hu : in_u 64 (u64 n)) by auto with word. set (b := rev (le_split 8 n)).
  assert (Hb : byte_list b) by (apply byte_list_rev, le_split_bytes).
  assert (Hc : bswap64 (u64 n) = le_combine b).
  { rewrite bswap64_bytes by done. unfold be_combine. by rewrite le_split_u64. }
  assert (Hr : in_u 64 (le_combine b)) by apply (le_combine_range b Hb).
  eexists. split; [done|]. rewrite Hc. read_args.
  assert (E : le_split 8 (s64 (le_combine b)) = b).
  { rewrite <- le_split_u64, cast_u_cast_s by done. rewrite (cast_u_id 64) by done.
    by apply (le_split_combine b). }
  split; [done|]. rewrite bswap64_bytes, le_split_u64, E by auto with word.
  unfold be_combine, b. rewrite rev_involutive, le_combine_split.
  by rewrite cast_s_cast_u, cast_s_id.
Qed.

(** * Bit fields *)

Lemma mask64_ones w : 0 < w <= 64 -> mask64 w = Z.ones w.
Proof.
  intros. unfold mask64. change ULLONG_MAX with (Z.ones 64). bitwise.
  all: rewrite ?testbit_ones by lia; split_ltb; done.
Qed.

Lemma field_of_mask w x : 0 < w <= 64 -> Z.land x (mask64 w) = x mod 2 ^ w.
Proof. intros. rewrite mask64_ones, Z.land_ones by lia. done. Qed.

(** [extract] on three integers, on every branch: it returns bits
    [f .. f + w - 1] of the pattern, raises an error outside the argument
    domain, and computes [f + w] before it compares it with 64, which is
    undefined when the sum exceeds [int64_t]. *)
Theorem int64_extract_spec n f w :
  in_s 64 f -> in_s 64 w ->
  int64_extract [LInteger n; LInteger f; LInteger w] =
    (if negb ((0 <=? f) && (f <=? 63)) then Throw (ArgError 2 "field cannot be negative")
     else if negb (0 <? w) then Throw (ArgError 3 "width must be positive")
     else if LLONG_MAX <? f + w then Undefined "signed overflow in +"
     else if 64 <? f + w then Throw (RunError "trying to access non-existent bits")
     else Ret [LInteger (s64 (Z.shiftr (u64 n) f mod 2 ^ w))]).
Proof.
  intros Hf Hw. unfold int64_extract. read_args. unfold luaL_argcheck, luaL_argerror.
  destruct ((0 <=? f) && (f <=? 63)) eqn:Ef; cbn [negb outcome_bind]; [|done].
  destruct (Z.ltb_spec 0 w); cbn [negb outcome_bind]; [|done]. bool_simpl.
  unfold add_s, in_s_b, LLONG_MAX. change (64 - 1) with 63.
  rewrite (proj2 (Z.leb_le (- 2 ^ 63) (f + w))) by lia. cbn [andb].
  destruct (Z.ltb_spec (2 ^ 63 - 1) (f + w)), (Z.ltb_spec (f + w) (2 ^ 63)); try lia; cbn [outcome_bind].
  - done.
  - destruct (Z.ltb_spec 64 (f + w)); [done|]. by rewrite field_of_mask by lia.
Qed.

(** [replace] writes the low [w] bits of its second operand at position
    [f] and leaves the other bits; [extract] at the same field reads back what
    was written. *)
Theorem int64_replace_spec n r f w :
  in_s 64 n -> 0 <= f -> 0 < w -> f + w <= 64 ->
  exists m, int64_replace [LInteger n; LInteger r; LInteger f; LInteger w] = Ret [LInteger m] /\
    (forall i, 0 <= i < 64 ->
       Z.testbit m i = if (f <=? i) && (i <? f + w) then Z.testbit r (i - f) else Z.testbit n i) /\
    int64_extract [LInteger m; LInteger f; LInteger w] = Ret [LInteger (s64 (u64 r mod 2 ^ w))].
Proof.
  intros Hn Hf Hw Hfw.
  assert (Hsum : add_s 64 f w = Ret (f + w)).
  { unfold add_s. by rewrite (proj2 (in_s_b_spec 64 (f + w))) by (unfold in_s; lia). }
  unfold int64_replace. read_args.
  rewrite (proj2 (Z.leb_le 0 f)), (proj2 (Z.leb_le f 63)), (proj2 (Z.ltb_lt 0 w)) by lia.
  cbn [andb luaL_argcheck outcome_bind]. rewrite Hsum. cbn [outcome_bind].
  rewrite (proj2 (Z.ltb_ge 64 (f + w))) by lia.
  change (shr_u ULLONG_MAX (64 - w)) with (mask64 w). rewrite !mask64_ones by lia.
  eexists. split; [done|].
  assert (Hbits : forall i, 0 <= i < 64 ->
    Z.testbit (Z.lor (Z.land (u64 n) (Z.lxor ULLONG_MAX (shl_u 64 (Z.ones w) f)))
                     (shl_u 64 (Z.land (u64 r) (Z.ones w)) f)) i =
    if (f <=? i) && (i <? f + w) then Z.testbit r (i - f) else Z.testbit n i).
  { intros i Hi. change ULLONG_MAX with (Z.ones 64). autorewrite with bits.
    rewrite (proj2 (Z.ltb_lt i 64)), !andb_true_r by lia. cbn [xorb].
    destruct (Z.leb_spec f i); cbn [andb].
    - autorewrite with bits. split_ltb; cbn [negb]; btauto.
    - rewrite !(Z.testbit_neg_r _ (i - f)) by lia. cbn. by rewrite andb_true_r, orb_false_r. }
  split.
  - intros i Hi. rewrite testbit_cast_s, (proj2 (Z.ltb_lt i 64)) by lia. by apply Hbits.
  - unfold int64_extract. read_args.
    rewrite (proj2 (Z.leb_le 0 f)), (proj2 (Z.leb_le f 63)), (proj2 (Z.ltb_lt 0 w)) by lia.
    cbn [andb luaL_argcheck outcome_bind]. rewrite Hsum. cbn [outcome_bind].
    rewrite (proj2 (Z.ltb_ge 64 (f + w))) by lia. unfold lua_pushinteger64.
    do 4 f_equal. rewrite field_of_mask by lia. apply Z.bits_inj'. intros i Hi.
    rewrite <- !Z.land_ones, !Z.land_spec, testbit_ones by lia.
    destruct (Z.ltb_spec i w); [|by rewrite !andb_false_r]. rewrite !andb_true_r.
    rewrite testbit_shr_u, cast_u_cast_s, !testbit_cast_u by lia.
    rewrite (proj2 (Z.ltb_lt (i + f) 64)), (proj2 (Z.ltb_lt i 64)), !andb_true_r by lia.
    rewrite Hbits, (proj2 (Z.leb_le f (i + f))), (proj2 (Z.ltb_lt (i + f) (f + w))) by lia.
    cbn [andb]. f_equal. lia.
Qed.

(** [countlz] and [countrz] are the lengths of the runs of zeros at the
    two ends of the pattern, 64 for zero. *)
Theorem int64_count_spec n :
  in_s 64 n ->
  exists l r, int64_countlz [LInteger n] = Ret [LInteger l] /\
    int64_countrz [LInteger n] = Ret [LInteger r] /\
    (n = 0 -> l = 64 /\ r = 64) /\
    (n <> 0 ->
       (0 <= l < 64 /\ Z.testbit n (63 - l) = true /\
        forall j, 0 <= j < l -> Z.testbit n (63 - j) = false) /\
       (0 <= r < 64 /\ Z.testbit n r = true /\ forall j, 0 <= j < r -> Z.testbit n j = false)).
Proof.
  intros Hn. unfold int64_countlz, int64_countrz, lua_pushinteger64. read_args. cbv zeta.
  assert (Hu : in_u 64 (u64 n)) by auto with word.
  assert (Hb : forall i, 0 <= i < 64 -> Z.testbit (u64 n) i = Z.testbit n i).
  { intros i Hi. rewrite testbit_cast_u by lia. split_ltb. apply andb_true_r. }
  destruct (Z.eqb_spec (u64 n) 0) as [E|Hz].
  - exists 64, 64. assert (n = 0) by (by apply (cast_u_inj_s 64)). by split_and!.
  - destruct (builtin_clz_spec 64 _ Hu Hz) as (Hl & Hlb & Hlz).
    destruct (builtin_ctz_spec 64 _ ltac:(lia) Hu Hz) as (Hr & Hrb & Hrz).
    eexists _, _. rewrite !cast_s_id by (unfold in_s; lia). split_and!; [done..| |].
    { intros ->. done. }
    intros _. change (64 - 1) with 63 in *. rewrite Hb in Hlb, Hrb by lia.
    split_and!; try done; try lia; intros j Hj.
    + rewrite <- Hb by lia. by apply Hlz.
    + rewrite <- Hb by lia. by apply Hrz.
Qed.

(** * The theorems at concrete values *)

Lemma int64_division_spec_witness :
  int64_mod [LInteger (-7); LInteger 3] = Ret [LInteger 2] /\
  int64_div [LInteger LLONG_MIN; LInteger (-1)] = Throw (RunError "integer overflow").
Proof.
  split.
  - apply (int64_division_spec (-7) 3 []); split; done.
  - apply (int64_division_spec LLONG_MIN (-1) []); split; done.
Defined.

Lemma int64_idiv_spec_witness :
  int64_idiv [LInteger (-7); LInteger 2] = Ret [LInteger (-4)] /\
  int64_idiv [LInteger (-1); LInteger 2] = Ret [LInteger 0].
Proof.
  split.
  - apply (int64_idiv_spec (-7) 2 []); split; done.
  - apply (int64_idiv_spec (-1) 2 []); split; done.
Defined.

Lemma int64_shift_spec_witness :
  int64_arshift [LInteger (-8); LInteger 100] = Ret [LInteger (-1)].
Proof. apply (int64_shift_spec (-8) 100 []); split; done. Defined.

Lemma int64_rotate_spec_witness :
  exists m, int64_lrotate [LInteger 5; LInteger (-2)] = Ret [LInteger m] /\
    int64_rrotate [LInteger m; LInteger (-2)] = Ret [LInteger 5].
Proof.
  destruct (int64_rotate_spec 5 (-2)) as (m & H1 & _ & H3); [split; done|]. by exists m.
Defined.

Lemma int64_bswap_spec_witness :
  exists m, int64_bswap [LInteger 1] = Ret [LInteger m] /\
    le_split 8 m = [0; 0; 0; 0; 0; 0; 0; 1].
Proof.
  destruct (int64_bswap_spec 1) as (m & H1 & H2 & _); [split; done|]. by exists m.
Defined.

Lemma int64_extract_spec_witness :
  int64_extract [LInteger 0x1234; LInteger 4; LInteger 8] = Ret [LInteger 0x23] /\
  int64_extract [LInteger 0; LInteger 1; LInteger LLONG_MAX] = Undefined "signed overflow in +".
Proof.
  split.
  - rewrite (int64_extract_spec 0x1234 4 8) by done. done.
  - rewrite (int64_extract_spec 0 1 LLONG_MAX) by done. done.
Defined.

Lemma int64_replace_spec_witness :
  exists m, int64_replace [LInteger 0xffff; LInteger 0xab; LInteger 4; LInteger 8] = Ret [LInteger m] /\
    int64_extract [LInteger m; LInteger 4; LInteger 8] = Ret [LInteger 0xab].
Proof.
  destruct (int64_replace_spec 0xffff 0xab 4 8) as (m & H1 & _ & H3); [split; done|done..|].
  by exists m.
Defined.

Lemma int64_count_spec_witness :
  exists l r, int64_countlz [LInteger 8] = Ret [LInteger l] /\
    int64_countrz [LInteger 8] = Ret [LInteger r] /\ 0 <= r < 64.
Proof.
  destruct (int64_count_spec 8) as (l & r & H1 & H2 & _ & H3); [split; done|].
  exists l, r. split_and!; try done; by apply H3.
Defined.
