(* ===== verification/BitLib.v ===== *)
(** The [bit32] library, [VM/src/lbitlib.cpp]: operations on 32-bit unsigned
    integers carried by numbers.  [b_uint] is [uint32_t].

    Signed arithmetic of the source that can overflow ([-i], [f + w]) goes
    through [neg_s] and [add_s], whose overflow is [Undefined].  A left shift
    of a negative [int] ([m << f] in [b_replace]) is the two's complement
    shift that every supported compiler generates. *)
From S2P Require Import Prelude Word Bytes Double NumParse LuaApi.
Open Scope Z_scope.
Open Scope outcome_scope.

Definition ALLONES : Z := 2 ^ 32 - 1.
Definition NBITS : Z := 32.

(** [trim(x)] *)
Definition trim (x : Z) : Z := Z.land x ALLONES.

(** [mask(n)]: [n] ones, [1 <= n <= NBITS]. *)
Definition mask (n : Z) : Z := not_u 32 (shl_u 32 (shl_u 32 ALLONES 1) (n - 1)).

(** [for (i = 0; i < NBITS; ++i) if (v & (1u << pos(i))) { r = i; break; }] *)
Fixpoint first_bit (v : Z) (pos : Z -> Z) (i : Z) (n : nat) : Z :=
  match n with
  | O => NBITS
  | S k =>
      if negb (Z.land v (shl_u 32 1 (pos i)) =? 0) then i
      else first_bit v pos (i + 1) k
  end.

(** [n = (n << 24) | ((n << 8) & 0xff0000) | ((n >> 8) & 0xff00) | (n >> 24)] *)
Definition bswap32 (n : Z) : Z :=
  Z.lor (Z.lor (Z.lor (shl_u 32 n 24) (Z.land (shl_u 32 n 8) 0xff0000))
           (Z.land (shr_u n 8) 0xff00)) (shr_u n 24).

(** [b_shift]: left for [i >= 0], right for [i < 0]. *)
Definition b_shift (r i : Z) : outcome (list TValue) :=
  if i <? 0 then
    i' <- neg_s 32 i ;;
    let r1 := trim r in
    Ret [lua_pushunsigned (if NBITS <=? i' then 0 else shr_u r1 i')]
  else
    Ret [lua_pushunsigned (trim (if NBITS <=? i then 0 else shl_u 32 r i))].

Section Bit32.
Context `{Target}.
Variable args : list TValue.

Definition andaux : outcome Z :=
  r <- fold_args args (luaL_checkunsigned args) Z.land (not_u 32 0) 1 ;;
  Ret (trim r).

Definition b_and : outcome (list TValue) :=
  r <- andaux ;; Ret [lua_pushunsigned r].

Definition b_test : outcome (list TValue) :=
  r <- andaux ;; Ret [lua_pushboolean (negb (r =? 0))].

Definition b_or : outcome (list TValue) :=
  r <- fold_args args (luaL_checkunsigned args) Z.lor 0 1 ;;
  Ret [lua_pushunsigned (trim r)].

Definition b_xor : outcome (list TValue) :=
  r <- fold_args args (luaL_checkunsigned args) Z.lxor 0 1 ;;
  Ret [lua_pushunsigned (trim r)].

Definition b_not : outcome (list TValue) :=
  x <- luaL_checkunsigned args 1 ;;
  Ret [lua_pushunsigned (trim (not_u 32 x))].

Definition b_lshift : outcome (list TValue) :=
  r <- luaL_checkunsigned args 1 ;;
  i <- luaL_checkinteger args 2 ;;
  b_shift r i.

Definition b_rshift : outcome (list TValue) :=
  r <- luaL_checkunsigned args 1 ;;
  i <- luaL_checkinteger args 2 ;;
  i' <- neg_s 32 i ;;
  b_shift r i'.

Definition b_arshift : outcome (list TValue) :=
  r <- luaL_checkunsigned args 1 ;;
  i <- luaL_checkinteger args 2 ;;
  if (i <? 0) || (Z.land r (shl_u 32 1 (NBITS - 1)) =? 0) then
    i' <- neg_s 32 i ;; b_shift r i'
  else
    Ret [lua_pushunsigned
           (if NBITS <=? i then ALLONES
            else trim (Z.lor (shr_u r i) (not_u 32 (shr_u (not_u 32 0) i))))].

Definition b_rot (i : Z) : outcome (list TValue) :=
  r <- luaL_checkunsigned args 1 ;;
  let i := Z.land i (NBITS - 1) in
  let r := trim r in
  let r := if negb (i =? 0) then Z.lor (shl_u 32 r i) (shr_u r (NBITS - i)) else r in
  Ret [lua_pushunsigned (trim r)].

Definition b_lrot : outcome (list TValue) :=
  i <- luaL_checkinteger args 2 ;; b_rot i.

Definition b_rrot : outcome (list TValue) :=
  i <- luaL_checkinteger args 2 ;;
  i' <- neg_s 32 i ;;
  b_rot i'.

(** The field position and width. *)
Definition fieldargs (farg : Z) : outcome (Z * Z) :=
  f <- luaL_checkinteger args farg ;;
  w <- luaL_optinteger args (farg + 1) 1 ;;
  luaL_argcheck (0 <=? f) farg "field cannot be negative" ;;;
  luaL_argcheck (0 <? w) (farg + 1) "width must be positive" ;;;
  fw <- add_s 32 f w ;;
  if NBITS <? fw then luaL_error "trying to access non-existent bits"
  else Ret (f, w).

Definition b_extract : outcome (list TValue) :=
  r <- luaL_checkunsigned args 1 ;;
  fw <- fieldargs 2 ;;
  let '(f, w) := fw in
  Ret [lua_pushunsigned (Z.land (shr_u r f) (mask w))].

Definition b_replace : outcome (list TValue) :=
  r <- luaL_checkunsigned args 1 ;;
  v <- luaL_checkunsigned args 2 ;;
  fw <- fieldargs 3 ;;
  let '(f, w) := fw in
  let m := mask w in
  let v := Z.land v m in
  Ret [lua_pushunsigned (Z.lor (Z.land r (not_u 32 (shl_u 32 m f))) (shl_u 32 v f))].

Definition b_countlz : outcome (list TValue) :=
  v <- luaL_checkunsigned args 1 ;;
  Ret [lua_pushunsigned (first_bit v (fun i => NBITS - 1 - i) 0 32)].

Definition b_countrz : outcome (list TValue) :=
  v <- luaL_checkunsigned args 1 ;;
  Ret [lua_pushunsigned (first_bit v (fun i => i) 0 32)].

Definition b_swap : outcome (list TValue) :=
  n <- luaL_checkunsigned args 1 ;;
  Ret [lua_pushunsigned (bswap32 n)].
End Bit32.

(** * Facts about the building blocks *)

Lemma trim_id r : in_u 32 r -> trim r = r.
Proof. intros. by apply (land_ones_u 32). Qed.

(** [mask(n)] is [n] ones. *)
Lemma mask_ones n : 0 < n <= 32 -> mask n = Z.ones n.
Proof.
  intros Hn. unfold mask, not_u, shl_u, ALLONES.
  change (cast_u 32 (Z.shiftl (2 ^ 32 - 1) 1)) with (Z.shiftl (Z.ones 31) 1).
  rewrite Z.shiftl_shiftl by lia. bitwise.
  all: rewrite ?Z.testbit_neg_r, ?testbit_ones by lia; split_ltb; done.
Qed.

Lemma shift_amount s : in_s 32 s -> (u32 s <? 32) = true -> 0 <= s < 32.
Proof.
  intros Hs Hlt%Z.ltb_lt. unfold in_s, cast_u in *.
  destruct (Z.lt_ge_cases s 0); [|rewrite Z.mod_small in Hlt; lia].
  rewrite <- (Z_mod_plus_full s 1), Z.mod_small in Hlt; lia.
Qed.

(** The loop of [b_countlz] and [b_countrz] finds the first position whose bit
    is set. *)
Lemma first_bit_spec v pos i n r :
  (forall j, i <= j < i + Z.of_nat n -> 0 <= pos j < 32) ->
  i <= r < i + Z.of_nat n -> Z.testbit v (pos r) = true ->
  (forall j, i <= j < r -> Z.testbit v (pos j) = false) ->
  first_bit v pos i n = r.
Proof.
  revert i. induction n as [|n IH]; intros i Hp Hr Hb Hlow; [lia|]. cbn [first_bit].
  rewrite land_bit_zero by (apply Hp; lia). destruct (Z.eq_dec i r) as [->|].
  - by rewrite Hb.
  - rewrite Hlow by lia. cbn [negb]. apply IH; try done; try lia.
    + intros j Hj. apply Hp. lia.
    + intros j Hj. apply Hlow. lia.
Qed.

Lemma first_bit_zero pos i n :
  first_bit 0 pos i n = NBITS.
Proof. revert i. induction n as [|n IH]; intros i; cbn [first_bit]; [done|]. by rewrite IH. Qed.

(** An arithmetic shift of a word with the top bit set, in the two forms. *)
Lemma sar_bits u s :
  in_u 32 u -> 0 <= s < 32 ->
  u32 (Z.shiftr (s32 u) s) =
  (if Z.testbit u 31 then Z.lor (shr_u u s) (not_u 32 (shr_u (not_u 32 0) s)) else shr_u u s).
Proof.
  intros Hu Hs. apply (word_ext 32); [auto with word| |lia|].
  { case_match; auto with word. }
  intros i Hi. rewrite testbit_cast_u, Z.shiftr_spec, testbit_cast_s by lia.
  rewrite (proj2 (Z.ltb_lt i 32)), andb_true_r by lia.
  destruct (Z.testbit u 31) eqn:E; autorewrite with bits;
    destruct (Z.ltb_spec (i + s) 32); split_ltb; cbn [negb andb orb];
    rewrite ?E, ?andb_true_r, ?orb_false_r, ?orb_true_r; try done.
  by rewrite (testbit_in_u_high 32 u (i + s)) by (done || lia).
Qed.

(** * Shifts *)

Lemma shiftr_u32_far x i : in_u 32 x -> 32 <= i -> Z.shiftr x i = 0.
Proof.
  intros Hx Hi. apply Z.bits_inj'. intros j Hj.
  rewrite Z.shiftr_spec, Z.testbit_0_l by done. apply (testbit_in_u_high 32); [done|lia].
Qed.

Lemma neg_s_ok s : in_s 32 s -> s <> - 2 ^ 31 -> neg_s 32 s = Ret (- s).
Proof.
  intros Hs Hne. unfold neg_s. rewrite (proj2 (in_s_b_spec 32 _)); [done|].
  unfold in_s in *. change (32 - 1) with 31 in *. lia.
Qed.

Lemma b_shift_spec r i :
  in_u 32 r -> in_s 32 i -> i <> - 2 ^ 31 ->
  b_shift r i = Ret [lua_pushunsigned (u32 (Z.shiftl r i))].
Proof.
  intros Hr Hi Hne. unfold b_shift, NBITS. destruct (Z.ltb_spec i 0).
  - rewrite neg_s_ok by done. cbn [outcome_bind]. rewrite trim_id by done.
    assert (exists j, i = - j /\ 0 <= j) as (j & -> & Hj) by (exists (- i); lia).
    rewrite Z.opp_involutive, Z.shiftl_opp_r.
    destruct (Z.leb_spec 32 j); [by rewrite shiftr_u32_far by done|].
    rewrite cast_u_id by (apply in_u_shr; done). done.
  - destruct (Z.leb_spec 32 i).
    + do 3 f_equal. symmetry. apply Z.bits_inj'. intros j Hj. autorewrite with bits.
      destruct (Z.ltb_spec j 32); [|apply andb_false_r]. by rewrite Z.testbit_neg_r by lia.
    + by rewrite trim_id by auto with word.
Qed.

(** The three shifts of [bit32], for every amount an [int] can hold: the
    amounts beyond 31 and the negative ones shift in zeros (or the sign), and
    the least [int], whose negation the code computes, is undefined. *)
Theorem bit32_shift_spec `{Target} a b rest :
  let args := LNumber a :: LNumber b :: rest in
  let u := luai_num2unsigned a in
  let s := luai_num2int b in
  let result x :=
    if s =? - 2 ^ 31 then Undefined "signed overflow in unary -"
    else Ret [lua_pushunsigned (u32 x)] in
  b_lshift args = result (Z.shiftl u s) /\
  b_rshift args = result (Z.shiftr u s) /\
  b_arshift args = result (Z.shiftr (s32 u) s).
Proof.
  cbn zeta. unfold b_lshift, b_rshift, b_arshift. read_args.
  pose proof (luai_num2unsigned_range a) as Hu. pose proof (luai_num2int_range b) as Hs.
  set (u := luai_num2unsigned a) in *. set (s := luai_num2int b) in *.
  destruct (Z.eqb_spec s (- 2 ^ 31)) as [->|Hne]; [done|].
  assert (Hns : in_s 32 (- s)) by (unfold in_s in *; change (32 - 1) with 31 in *; lia).
  assert (Hn' : s <> 2 ^ 31) by (unfold in_s in *; change (32 - 1) with 31 in *; lia).
  rewrite b_shift_spec, neg_s_ok by done. cbn [outcome_bind].
  rewrite b_shift_spec by (done || lia). rewrite Z.shiftl_opp_r.
  split_and!; [done..|]. unfold NBITS. rewrite land_bit_zero by lia. change (32 - 1) with 31.
  destruct (Z.ltb_spec s 0); cbn [orb].
  - do 3 f_equal. assert (exists j, s = - j /\ 0 <= j) as (j & -> & Hj) by (exists (- s); lia).
    rewrite !Z.shiftr_opp_r. apply Z.bits_inj'. intros i Hi. autorewrite with bits.
    destruct (Z.ltb_spec i 32); [|by rewrite !andb_false_r]. rewrite !andb_true_r.
    destruct (Z.lt_ge_cases i j); [by rewrite !Z.testbit_neg_r by lia|].
    rewrite testbit_cast_s by lia. by rewrite (proj2 (Z.ltb_lt (i - j) 32)) by lia.
  - destruct (Z.leb_spec 32 s).
    + destruct (Z.testbit u 31) eqn:E; cbn [negb]; do 3 f_equal; symmetry;
        apply Z.bits_inj'; intros i Hi; rewrite testbit_cast_u, Z.shiftr_spec, testbit_cast_s by lia;
        rewrite (proj2 (Z.ltb_ge (i + s) 32)) by lia; change (32 - 1) with 31; rewrite E.
      * change ALLONES with (Z.ones 32). by rewrite testbit_ones by lia.
      * rewrite shiftr_u32_far by done. symmetry. apply Z.testbit_0_l.
    + rewrite sar_bits by done. destruct (Z.testbit u 31) eqn:E; cbn [negb].
      * do 3 f_equal. apply trim_id. auto 6 with word.
      * by rewrite cast_u_id by auto with word.
Qed.

(** * Rotations *)

(** Rotation by [k], with the guard for [k = 0] and without it. *)
Lemma rotate_forms u k :
  in_u 32 u -> 0 <= k < 32 ->
  Z.lor (shl_u 32 u k) (shr_u u ((32 - k) mod 32)) =
  (if negb (k =? 0) then Z.lor (shl_u 32 u k) (shr_u u (32 - k)) else u).
Proof.
  intros Hu Hk. destruct (Z.eqb_spec k 0) as [->|Hne]; cbn [negb].
  - unfold shl_u, shr_u. rewrite Z.shiftl_0_r. change ((32 - 0) mod 32) with 0.
    rewrite Z.shiftr_0_r, cast_u_id by done. apply Z.lor_diag.
  - by rewrite (Z.mod_small (32 - k)) by lia.
Qed.

Lemma land31 x : Z.land x 31 = x mod 32.
Proof. apply (Z.land_ones x 5). lia. Qed.

Lemma b_rot_spec `{Target} args a rest i :
  args = LNumber a :: rest ->
  b_rot args i =
    let u := luai_num2unsigned a in
    Ret [lua_pushunsigned
           (Z.lor (shl_u 32 u (i mod 32)) (shr_u u ((32 - i mod 32) mod 32)))].
Proof.
  intros ->. unfold b_rot. read_args. unfold NBITS. change (32 - 1) with 31.
  assert (Hi : 0 <= i mod 32 < 32) by (apply Z.mod_pos_bound; lia).
  rewrite !land31, (trim_id (luai_num2unsigned a)), rotate_forms by auto with word.
  do 3 f_equal. apply trim_id. case_match; auto 6 with word.
Qed.

Lemma b_rot_rotl `{Target} a rest i :
  b_rot (LNumber a :: rest) i =
    Ret [lua_pushunsigned (rotl_u 32 (luai_num2unsigned a) (i mod 32))].
Proof.
  erewrite b_rot_spec by done. cbn zeta. pose proof (Z.mod_pos_bound i 32 ltac:(lia)).
  assert (Hu : in_u 32 (luai_num2unsigned a)) by auto with word.
  rewrite rotate_forms by done. unfold rotl_u.
  destruct (Z.eqb_spec (i mod 32) 0) as [->|]; cbn [negb]; [|done].
  rewrite (shiftr_u32_far _ (32 - 0)) by (done || lia). rewrite Z.lor_0_r.
  unfold shl_u. by rewrite Z.shiftl_0_r, cast_u_id by done.
Qed.

(** [lrotate] moves bit [i] to bit [i + s] modulo 32 for every amount, and
    [rrotate] by the same amount restores the word. *)
Theorem bit32_rotate_spec `{Target} n s :
  in_u 32 n -> in_s 32 s -> s <> - 2 ^ 31 ->
  exists m, in_u 32 m /\
    b_lrot [LNumber (double_of_Z n); LNumber (double_of_Z s)]
      = Ret [LNumber (double_of_Z m)] /\
    (forall i, 0 <= i < 32 -> Z.testbit m ((i + s) mod 32) = Z.testbit n i) /\
    b_rrot [LNumber (double_of_Z m); LNumber (double_of_Z s)]
      = Ret [LNumber (double_of_Z n)].
Proof.
  intros Hn Hs Hne. exists (rotl_u 32 n (s mod 32)).
  pose proof (Z.mod_pos_bound s 32 ltac:(lia)) as Hm.
  assert (Hr : in_u 32 (rotl_u 32 n (s mod 32))) by (apply in_u_rotl; [lia|done]).
  unfold b_lrot, b_rrot. read_args. rewrite luai_num2int_of_Z, neg_s_ok by done.
  cbn [outcome_bind]. rewrite !b_rot_rotl, !luai_num2unsigned_of_Z by done.
  split_and!; [done..| |].
  - intros i Hi. pose proof (Z.mod_pos_bound (i + s) 32 ltac:(lia)).
    rewrite testbit_rotl_u by done. rewrite Zminus_mod_idemp_l, Zminus_mod_idemp_r.
    replace (i + s - s) with i by lia. by rewrite Z.mod_small.
  - unfold lua_pushunsigned. do 4 f_equal. destruct (Z.eq_dec (s mod 32) 0) as [E|Hz].
    + rewrite Z.mod_opp_l_z, E by done. apply (word_ext 32); [|done|lia|].
      { apply in_u_rotl; [lia|]. apply in_u_rotl; [lia|done]. }
      intros i Hi. rewrite !testbit_rotl_u by (done || lia || (apply in_u_rotl; [lia|done]) || (apply Z.mod_pos_bound; lia)).
      rewrite !Z.sub_0_r, Z.mod_mod by done. by rewrite Z.mod_small.
    + rewrite Z.mod_opp_l_nz by done. rewrite <- rotr_rotl_u by lia. by apply rotl_rotr_u; [lia|].
Qed.

(** * Bit fields and byte order *)

(** [replace] writes the low [w] bits of its second operand at position
    [f] and leaves the others, and [extract] reads them back. *)
Theorem bit32_field_roundtrip `{Target} n v f w :
  in_u 32 n -> in_u 32 v -> 0 <= f -> 0 < w -> f + w <= 32 ->
  exists m, in_u 32 m /\
    b_replace [LNumber (double_of_Z n); LNumber (double_of_Z v); LNumber (double_of_Z f);
               LNumber (double_of_Z w)] = Ret [LNumber (double_of_Z m)] /\
    (forall i, 0 <= i < 32 ->
       Z.testbit m i = if (f <=? i) && (i <? f + w) then Z.testbit v (i - f) else Z.testbit n i) /\
    b_extract [LNumber (double_of_Z m); LNumber (double_of_Z f); LNumber (double_of_Z w)]
      = Ret [LNumber (double_of_Z (v mod 2 ^ w))].
Proof.
  intros Hn Hv Hf Hw Hfw.
  assert (Hfs : in_s 32 f) by (unfold in_s; lia). assert (Hws : in_s 32 w) by (unfold in_s; lia).
  assert (Hsum : add_s 32 f w = Ret (f + w)).
  { unfold add_s. by rewrite (proj2 (in_s_b_spec 32 (f + w))) by (unfold in_s; lia). }
  assert (Hargs : forall args farg, luaL_checkinteger args farg = Ret f ->
    luaL_optinteger args (farg + 1) 1 = Ret w -> fieldargs args farg = Ret (f, w)).
  { intros args farg E1 E2. unfold fieldargs. rewrite E1, E2. cbn [outcome_bind].
    rewrite (proj2 (Z.leb_le 0 f)), (proj2 (Z.ltb_lt 0 w)) by done. cbn [luaL_argcheck outcome_bind].
    rewrite Hsum. cbn [outcome_bind]. by rewrite (proj2 (Z.ltb_ge NBITS _)) by done. }
  assert (Hm : mask w = Z.ones w) by (apply mask_ones; lia).
  exists (Z.lor (Z.land n (not_u 32 (shl_u 32 (Z.ones w) f))) (shl_u 32 (Z.land v (Z.ones w)) f)).
  assert (Hbits : forall i, 0 <= i < 32 ->
    Z.testbit (Z.lor (Z.land n (not_u 32 (shl_u 32 (Z.ones w) f)))
                     (shl_u 32 (Z.land v (Z.ones w)) f)) i =
    if (f <=? i) && (i <? f + w) then Z.testbit v (i - f) else Z.testbit n i).
  { intros i Hi. autorewrite with bits. rewrite (proj2 (Z.ltb_lt i 32)), !andb_true_r by lia.
    destruct (Z.leb_spec f i); cbn [andb].
    - autorewrite with bits. split_ltb; cbn [negb]; btauto.
    - rewrite !(Z.testbit_neg_r _ (i - f)) by lia. cbn. by rewrite andb_true_r, orb_false_r. }
  assert (Hr : in_u 32 (Z.lor (Z.land n (not_u 32 (shl_u 32 (Z.ones w) f)))
                     (shl_u 32 (Z.land v (Z.ones w)) f))) by auto with word.
  split; [done|]. split; [|split; [exact Hbits|]].
  - unfold b_replace. read_args. rewrite Hargs.
    2: { rewrite checkinteger_3. by rewrite luai_num2int_of_Z. }
    2: { rewrite optinteger_4. by rewrite luai_num2int_of_Z. }
    cbn [outcome_bind]. by rewrite !luai_num2unsigned_of_Z, Hm by done.
  - unfold b_extract. read_args. rewrite Hargs.
    2: { rewrite checkinteger_2. by rewrite luai_num2int_of_Z. }
    2: { rewrite optinteger_3. by rewrite luai_num2int_of_Z. }
    cbn [outcome_bind]. rewrite luai_num2unsigned_of_Z, Hm by done. unfold lua_pushunsigned.
    do 4 f_equal. rewrite <- Z.land_ones by lia. apply Z.bits_inj'. intros i Hi.
    rewrite !Z.land_spec, testbit_ones by lia.
    destruct (Z.ltb_spec i w); [|by rewrite !andb_false_r]. rewrite !andb_true_r.
    rewrite testbit_shr_u, Hbits by lia.
    rewrite (proj2 (Z.leb_le f (i + f))), (proj2 (Z.ltb_lt (i + f) (f + w))) by lia.
    cbn [andb]. f_equal. lia.
Qed.

(** * The theorems at concrete values *)

Lemma bit32_rotate_spec_witness :
  exists m, b_lrot [LNumber (double_of_Z 0x80000001); LNumber (double_of_Z 1)]
      = Ret [LNumber (double_of_Z m)] /\
    b_rrot [LNumber (double_of_Z m); LNumber (double_of_Z 1)]
      = Ret [LNumber (double_of_Z 0x80000001)].
Proof.
  destruct (bit32_rotate_spec 0x80000001 1) as (m & _ & H1 & _ & H3); [done..|].
  by exists m.
Defined.

Lemma bit32_field_roundtrip_witness :
  exists m, b_replace [LNumber (double_of_Z 0xffff); LNumber (double_of_Z 0xab);
      LNumber (double_of_Z 4); LNumber (double_of_Z 8)] = Ret [LNumber (double_of_Z m)] /\
    b_extract [LNumber (double_of_Z m); LNumber (double_of_Z 4); LNumber (double_of_Z 8)]
      = Ret [LNumber (double_of_Z 0xab)].
Proof.
  destruct (bit32_field_roundtrip 0xffff 0xab 4 8) as (m & _ & H1 & _ & H3); [done..|].
  by exists m.
Defined.
