(* ===== verification/Builtins.v ===== *)
(** The fast paths of [VM/src/lbuiltins.cpp] for the [bit32] and [integer]
    libraries: [LOP_FASTCALL] runs one of these before the real call, and
    performs the real call only when it returns [-1].

    [params] are the [nparams] arguments ([arg0] first, then [args]),
    [nresults] the number of results the call site wants; [Some v] stores [v]
    and returns 1, [None] returns -1. *)
From S2P Require Import Prelude Word Double NumParse LuaApi IntLib BitLib.
Open Scope Z_scope.
Open Scope outcome_scope.

(** The loop over the arguments after the fixed ones: give up on the first
    argument of another type. *)
Fixpoint fast_fold {A} (get : TValue -> option A) (op : A -> A -> A) (r : A)
    (rest : list TValue) : option A :=
  match rest with
  | [] => Some r
  | v :: rest' =>
      match get v with
      | Some a => fast_fold get op (op r a) rest'
      | None => None
      end
  end.

(** [double(r)] of an unsigned, [setnvalue]. *)
Definition setu (r : Z) : option TValue := Some (LNumber (double_of_Z r)).
(** [setlvalue] of a [uint64_t] or an [int64_t]. *)
Definition setl (r : Z) : option TValue := Some (LInteger (s64 r)).
Definition setb (b : bool) : option TValue := Some (LBoolean b).

Section Bit32Fast.
Context `{Target}.
Variables (nresults : Z) (params : list TValue).

(** [ttisnumber] and [luai_num2unsigned]. *)
Definition get_unsigned (v : TValue) : option Z :=
  match v with LNumber n => Some (luai_num2unsigned n) | _ => None end.

Definition luauF_arshift : option TValue :=
  match params with
  | LNumber a1 :: LNumber a2 :: _ =>
      if nresults <=? 1 then
        let u := luai_num2unsigned a1 in
        let s := luai_num2int a2 in
        if u32 s <? 32 then setu (u32 (Z.shiftr (s32 u) s)) else None
      else None
  | _ => None
  end.

Definition fast_binary (op : Z -> Z -> Z) (finish : Z -> option TValue) : option TValue :=
  match params with
  | LNumber a1 :: LNumber a2 :: rest =>
      if nresults <=? 1 then
        match fast_fold get_unsigned op
                (op (luai_num2unsigned a1) (luai_num2unsigned a2)) rest with
        | Some r => finish r
        | None => None
        end
      else None
  | _ => None
  end.

Definition luauF_band := fast_binary Z.land setu.
Definition luauF_bor := fast_binary Z.lor setu.
Definition luauF_bxor := fast_binary Z.lxor setu.
Definition luauF_btest := fast_binary Z.land (fun r => setb (negb (r =? 0))).

Definition luauF_bnot : option TValue :=
  match params with
  | LNumber a1 :: _ =>
      if nresults <=? 1 then setu (not_u 32 (luai_num2unsigned a1)) else None
  | _ => None
  end.

(** [~(0xfffffffeu << (w - 1))] *)
Definition field_mask (w : Z) : Z := not_u 32 (shl_u 32 0xfffffffe (w - 1)).

(** The test [f >= 0 && w > 0 && f + w <= 32]; [None] when the sum
    overflows [int]. *)
Definition field_ok (f w : Z) : option bool :=
  if (0 <=? f) && (0 <? w) then
    if in_s_b 32 (f + w) then Some (f + w <=? 32) else None
  else Some false.

Definition luauF_extract : outcome (option TValue) :=
  match params with
  | LNumber a1 :: LNumber a2 :: rest =>
      if nresults <=? 1 then
        let n := luai_num2unsigned a1 in
        let f := luai_num2int a2 in
        match rest with
        | [] => Ret (if u32 f <? 32 then setu (Z.land (shr_u n f) 1) else None)
        | LNumber a3 :: _ =>
            let w := luai_num2int a3 in
            match field_ok f w with
            | Some true => Ret (setu (Z.land (shr_u n f) (field_mask w)))
            | Some false => Ret None
            | None => Undefined "signed overflow in +"
            end
        | _ => Ret None
        end
      else Ret None
  | _ => Ret None
  end.

Definition luauF_lrotate : outcome (option TValue) :=
  match params with
  | LNumber a1 :: LNumber a2 :: _ =>
      if nresults <=? 1 then
        let u := luai_num2unsigned a1 in
        let s := luai_num2int a2 in
        t <- sub_s 32 32 s ;;
        Ret (setu (Z.lor (shl_u 32 u (Z.land s 31)) (shr_u u (Z.land t 31))))
      else Ret None
  | _ => Ret None
  end.

Definition luauF_lshift : option TValue :=
  match params with
  | LNumber a1 :: LNumber a2 :: _ =>
      if nresults <=? 1 then
        let u := luai_num2unsigned a1 in
        let s := luai_num2int a2 in
        if u32 s <? 32 then setu (shl_u 32 u s) else None
      else None
  | _ => None
  end.

Definition luauF_replace : outcome (option TValue) :=
  match params with
  | LNumber a1 :: LNumber a2 :: LNumber a3 :: rest =>
      if nresults <=? 1 then
        let n := luai_num2unsigned a1 in
        let v := luai_num2unsigned a2 in
        let f := luai_num2int a3 in
        let put m := setu (Z.lor (Z.land n (not_u 32 (shl_u 32 m f)))
                                 (shl_u 32 (Z.land v m) f)) in
        match rest with
        | [] => Ret (if u32 f <? 32 then put 1 else None)
        | LNumber a4 :: _ =>
            let w := luai_num2int a4 in
            match field_ok f w with
            | Some true => Ret (put (field_mask w))
            | Some false => Ret None
            | None => Undefined "signed overflow in +"
            end
        | _ => Ret None
        end
      else Ret None
  | _ => Ret None
  end.

Definition luauF_rrotate : outcome (option TValue) :=
  match params with
  | LNumber a1 :: LNumber a2 :: _ =>
      if nresults <=? 1 then
        let u := luai_num2unsigned a1 in
        let s := luai_num2int a2 in
        t <- sub_s 32 32 s ;;
        Ret (setu (Z.lor (shr_u u (Z.land s 31)) (shl_u 32 u (Z.land t 31))))
      else Ret None
  | _ => Ret None
  end.

Definition luauF_rshift : option TValue :=
  match params with
  | LNumber a1 :: LNumber a2 :: _ =>
      if nresults <=? 1 then
        let u := luai_num2unsigned a1 in
        let s := luai_num2int a2 in
        if u32 s <? 32 then setu (shr_u u s) else None
      else None
  | _ => None
  end.

Definition luauF_countlz : option TValue :=
  match params with
  | LNumber a1 :: _ =>
      if nresults <=? 1 then
        let n := luai_num2unsigned a1 in
        setu (if n =? 0 then 32 else builtin_clz 32 n)
      else None
  | _ => None
  end.

Definition luauF_countrz : option TValue :=
  match params with
  | LNumber a1 :: _ =>
      if nresults <=? 1 then
        let n := luai_num2unsigned a1 in
        setu (if n =? 0 then 32 else builtin_ctz 32 n)
      else None
  | _ => None
  end.

Definition luauF_byteswap : option TValue :=
  match params with
  | LNumber a1 :: _ =>
      if nresults <=? 1 then setu (bswap32 (luai_num2unsigned a1)) else None
  | _ => None
  end.
End Bit32Fast.

Section IntegerFast.
Variables (nresults : Z) (params : list TValue).

(** Two integer operands and at most one result. *)
Definition fast_int2 (f : Z -> Z -> option TValue) : option TValue :=
  match params with
  | LInteger a :: LInteger b :: _ => if nresults <=? 1 then f a b else None
  | _ => None
  end.

Definition fast_int1 (f : Z -> option TValue) : option TValue :=
  match params with
  | LInteger a :: _ => if nresults <=? 1 then f a else None
  | _ => None
  end.

Definition luauF_integertonumber := fast_int1 (fun a => Some (LNumber (double_of_Z a))).
Definition luauF_integeradd := fast_int2 (fun a1 a2 => setl (add_u 64 (u64 a1) (u64 a2))).
Definition luauF_integersub := fast_int2 (fun a1 a2 => setl (sub_u 64 (u64 a1) (u64 a2))).
Definition luauF_integermul := fast_int2 (fun a1 a2 => setl (mul_u 64 (u64 a1) (u64 a2))).
Definition luauF_integerneg := fast_int1 (fun a => setl (add_u 64 (not_u 64 (u64 a)) 1)).

Definition luauF_integerdiv := fast_int2 (fun a b =>
  if (b =? 0) || ((a =? LLONG_MIN) && (b =? -1)) then None else setl (Z.quot a b)).

Definition luauF_integerudiv := fast_int2 (fun a b =>
  if u64 b =? 0 then None else setl (Z.div (u64 a) (u64 b))).

Definition luauF_integerbswap := fast_int1 (fun a => setl (bswap64 (u64 a))).

Definition get_integer (v : TValue) : option Z :=
  match v with LInteger l => Some l | _ => None end.

Definition luauF_integerbtest : option TValue :=
  match params with
  | LInteger a :: rest =>
      if nresults <=? 1 then
        match fast_fold get_integer (fun r l => Z.land r (u64 l)) (u64 a) rest with
        | Some r => setb (negb (r =? 0))
        | None => None
        end
      else None
  | _ => None
  end.

Definition luauF_integerlt := fast_int2 (fun a b => setb (a <? b)).
Definition luauF_integerle := fast_int2 (fun a b => setb (a <=? b)).
Definition luauF_integergt := fast_int2 (fun a b => setb (a >? b)).
Definition luauF_integerge := fast_int2 (fun a b => setb (a >=? b)).
Definition luauF_integerult := fast_int2 (fun a b => setb (u64 a <? u64 b)).
Definition luauF_integerule := fast_int2 (fun a b => setb (u64 a <=? u64 b)).
Definition luauF_integerugt := fast_int2 (fun a b => setb (u64 a >? u64 b)).
Definition luauF_integeruge := fast_int2 (fun a b => setb (u64 a >=? u64 b)).

Definition luauF_integerurem := fast_int2 (fun a b =>
  if u64 b =? 0 then None else setl (Z.modulo (u64 a) (u64 b))).

Definition luauF_integerrem := fast_int2 (fun a b =>
  if b =? 0 then None
  else setl (if (a =? LLONG_MIN) && (b =? -1) then 0 else Z.rem a b)).

Definition luauF_integercountlz := fast_int1 (fun a =>
  let n := u64 a in setl (if n =? 0 then 64 else builtin_clz 64 n)).

Definition luauF_integercountrz := fast_int1 (fun a =>
  let n := u64 a in setl (if n =? 0 then 64 else builtin_ctz 64 n)).

Definition luauF_integerextract : option TValue :=
  let field n f w :=
    if (f <? 0) || (63 <? f) || (w <? 1) || (64 <? w) || (64 <? f + w) then None
    else setl (Z.land (shr_u (u64 n) f) (shr_u ULLONG_MAX (64 - w))) in
  match params with
  | [LInteger n; LInteger f] => if nresults <=? 1 then field n f 1 else None
  | LInteger n :: LInteger f :: LInteger w :: _ =>
      if nresults <=? 1 then field n f w else None
  | _ => None
  end.

Definition luauF_integerclamp : option TValue :=
  match params with
  | LInteger a :: LInteger rmin :: LInteger rmax :: _ =>
      if nresults <=? 1 then
        if rmax <? rmin then None
        else setl (if a <? rmin then rmin else if rmax <? a then rmax else a)
      else None
  | _ => None
  end.

Definition luauF_integerlrotate := fast_int2 (fun a b =>
  let n := u64 a in
  let s := Z.modulo (u64 b) 64 in
  setl (if negb (s =? 0) then Z.lor (shl_u 64 n s) (shr_u n (64 - s)) else n)).

Definition luauF_integerrrotate := fast_int2 (fun a b =>
  let n := u64 a in
  let s := Z.modulo (u64 b) 64 in
  setl (if negb (s =? 0) then Z.lor (shr_u n s) (shl_u 64 n (64 - s)) else n)).

Definition luauF_integerarshift := fast_int2 (fun n i =>
  if (-63 <=? i) && (i <=? 63) then
    setl (if i <? 0 then shl_u 64 (u64 n) (- i) else Z.shiftr n i)
  else if i <? -63 then setl 0
  else setl (if n <? 0 then -1 else 0)).

(** [for (i = 3; i <= nparams; ++i)] over two initial operands. *)
Definition fast_select (pick : Z -> Z -> Z) : option TValue :=
  match params with
  | LInteger a1 :: LInteger a2 :: rest =>
      if nresults <=? 1 then
        match fast_fold get_integer pick (pick a1 a2) rest with
        | Some r => setl r
        | None => None
        end
      else None
  | _ => None
  end.

Definition luauF_integermin := fast_select (fun r a => if a <? r then a else r).
Definition luauF_integermax := fast_select (fun r a => if r <? a then a else r).

Definition luauF_integermod := fast_int2 (fun a1 a2 =>
  if a2 =? 0 then None
  else if (a1 =? LLONG_MIN) && (a2 =? -1) then setl 0
  else
    let remainder := Z.rem a1 a2 in
    setl (if negb (remainder =? 0) && xorb (a1 <? 0) (a2 <? 0)
          then remainder + a2 else remainder)).

Definition luauF_integeridiv := fast_int2 (fun a1 a2 =>
  if a2 =? 0 then None
  else if (a1 =? LLONG_MIN) && (a2 =? -1) then None
  else
    let result := Z.quot a1 a2 in
    if (result <? 0) && negb (Z.rem a1 a2 =? 0) then setl (result - 1)
    else setl result).
End IntegerFast.

Section IntegerBitsFast.
Context `{Target}.
Variables (nresults : Z) (params : list TValue).

Definition getbitoperand (v : TValue) : option Z :=
  match v with
  | LInteger l => Some l
  | LNumber number =>
      if is_integral number && in_int64_range number
      then Some (luai_num2long number) else None
  | _ => None
  end.

Definition fast_bits (op : Z -> Z -> Z) : option TValue :=
  match params with
  | v :: rest =>
      if nresults <=? 1 then
        match getbitoperand v with
        | Some operand =>
            match fast_fold getbitoperand (fun r l => op r (u64 l)) (u64 operand) rest with
            | Some r => setl r
            | None => None
            end
        | None => None
        end
      else None
  | [] => None
  end.

Definition luauF_integerband := fast_bits Z.land.
Definition luauF_integerbor := fast_bits Z.lor.
Definition luauF_integerbxor := fast_bits Z.lxor.

Definition luauF_integerbnot : option TValue :=
  match params with
  | v :: _ =>
      if nresults <=? 1 then
        match getbitoperand v with
        | Some operand => setl (not_u 64 (u64 operand))
        | None => None
        end
      else None
  | [] => None
  end.

Definition fast_shift (f : Z -> Z -> Z) : option TValue :=
  match params with
  | v :: w :: _ =>
      if nresults <=? 1 then
        match getbitoperand v, getbitoperand w with
        | Some l, Some r => setl (f (u64 l) r)
        | _, _ => None
        end
      else None
  | _ => None
  end.

Definition luauF_integerlshift := fast_shift (fun n i =>
  if (-63 <=? i) && (i <=? 63)
  then (if i <? 0 then shr_u n (- i) else shl_u 64 n i) else 0).

Definition luauF_integerrshift := fast_shift (fun n i =>
  if (-63 <=? i) && (i <=? 63)
  then (if i <? 0 then shl_u 64 n (- i) else shr_u n i) else 0).

Definition luauF_integercreate : option TValue :=
  match params with
  | LNumber a1 :: _ =>
      if nresults <=? 1 then
        if in_int64_range a1 then
          let x := luai_num2long a1 in
          if d_eq (double_of_Z x) a1 then setl x else Some LNil
        else Some LNil
      else None
  | _ => None
  end.
End IntegerBitsFast.

(** * The call site *)

Definition fast_function := Z -> list TValue -> outcome (option TValue).

(** A fast path without undefined behaviour of its own. *)
Definition total (fast : Z -> list TValue -> option TValue) : fast_function :=
  fun nresults params => Ret (fast nresults params).

(** The rows of [luauF_table] for the two libraries, each with the function
    that the library registers under the name the builtin id stands for. *)
Definition fast_table `{Target}
    : list (string * fast_function * (list TValue -> outcome (list TValue))) :=
  [("LBF_BIT32_ARSHIFT"%string, total luauF_arshift, b_arshift);
   ("LBF_BIT32_BAND"%string, total luauF_band, b_and);
   ("LBF_BIT32_BNOT"%string, total luauF_bnot, b_not);
   ("LBF_BIT32_BOR"%string, total luauF_bor, b_or);
   ("LBF_BIT32_BXOR"%string, total luauF_bxor, b_xor);
   ("LBF_BIT32_BTEST"%string, total luauF_btest, b_test);
   ("LBF_BIT32_EXTRACT"%string, luauF_extract, b_extract);
   ("LBF_BIT32_LROTATE"%string, luauF_lrotate, b_lrot);
   ("LBF_BIT32_LSHIFT"%string, total luauF_lshift, b_lshift);
   ("LBF_BIT32_REPLACE"%string, luauF_replace, b_replace);
   ("LBF_BIT32_RROTATE"%string, luauF_rrotate, b_rrot);
   ("LBF_BIT32_RSHIFT"%string, total luauF_rshift, b_rshift);
   ("LBF_BIT32_COUNTLZ"%string, total luauF_countlz, b_countlz);
   ("LBF_BIT32_COUNTRZ"%string, total luauF_countrz, b_countrz);
   ("LBF_BIT32_BYTESWAP"%string, total luauF_byteswap, b_swap);
   ("LBF_INTEGER_CREATE"%string, total luauF_integercreate, int64_create);
   ("LBF_INTEGER_TONUMBER"%string, total luauF_integertonumber, int64_tonumber);
   ("LBF_INTEGER_NEG"%string, total luauF_integerneg, int64_neg);
   ("LBF_INTEGER_ADD"%string, total luauF_integeradd, int64_add);
   ("LBF_INTEGER_SUB"%string, total luauF_integersub, int64_sub);
   ("LBF_INTEGER_MUL"%string, total luauF_integermul, int64_mul);
   ("LBF_INTEGER_DIV"%string, total luauF_integerdiv, int64_div);
   ("LBF_INTEGER_MIN"%string, total luauF_integermin, int64_min);
   ("LBF_INTEGER_MAX"%string, total luauF_integermax, int64_max);
   ("LBF_INTEGER_REM"%string, total luauF_integerrem, int64_rem);
   ("LBF_INTEGER_IDIV"%string, total luauF_integeridiv, int64_idiv);
   ("LBF_INTEGER_UDIV"%string, total luauF_integerudiv, int64_udiv);
   ("LBF_INTEGER_UREM"%string, total luauF_integerurem, int64_urem);
   ("LBF_INTEGER_MOD"%string, total luauF_integermod, int64_mod);
   ("LBF_INTEGER_CLAMP"%string, total luauF_integerclamp, int64_clamp);
   ("LBF_INTEGER_BAND"%string, total luauF_integerband, int64_band);
   ("LBF_INTEGER_BOR"%string, total luauF_integerbor, int64_bor);
   ("LBF_INTEGER_BNOT"%string, total luauF_integerbnot, int64_bnot);
   ("LBF_INTEGER_BXOR"%string, total luauF_integerbxor, int64_bxor);
   ("LBF_INTEGER_LT"%string, total luauF_integerlt, int64_lt);
   ("LBF_INTEGER_LE"%string, total luauF_integerle, int64_le);
   ("LBF_INTEGER_ULT"%string, total luauF_integerult, int64_ult);
   ("LBF_INTEGER_ULE"%string, total luauF_integerule, int64_ule);
   ("LBF_INTEGER_GT"%string, total luauF_integergt, int64_gt);
   ("LBF_INTEGER_GE"%string, total luauF_integerge, int64_ge);
   ("LBF_INTEGER_UGT"%string, total luauF_integerugt, int64_ugt);
   ("LBF_INTEGER_UGE"%string, total luauF_integeruge, int64_uge);
   ("LBF_INTEGER_LSHIFT"%string, total luauF_integerlshift, int64_lshift);
   ("LBF_INTEGER_RSHIFT"%string, total luauF_integerrshift, int64_rshift);
   ("LBF_INTEGER_ARSHIFT"%string, total luauF_integerarshift, int64_arshift);
   ("LBF_INTEGER_LROTATE"%string, total luauF_integerlrotate, int64_lrotate);
   ("LBF_INTEGER_RROTATE"%string, total luauF_integerrrotate, int64_rrotate);
   ("LBF_INTEGER_EXTRACT"%string, total luauF_integerextract, int64_extract);
   ("LBF_INTEGER_BTEST"%string, total luauF_integerbtest, int64_btest);
   ("LBF_INTEGER_COUNTRZ"%string, total luauF_integercountrz, int64_countrz);
   ("LBF_INTEGER_COUNTLZ"%string, total luauF_integercountlz, int64_countlz);
   ("LBF_INTEGER_BSWAP"%string, total luauF_integerbswap, int64_bswap)].

Definition LUA_MULTRET : Z := -1.

(** The values a call leaves for its call site: all of them for
    [LUA_MULTRET], otherwise exactly [nresults], cut or padded with nil. *)
Definition adjust_results (nresults : Z) (results : list TValue) : list TValue :=
  if nresults =? LUA_MULTRET then results
  else take (Z.to_nat nresults) (results ++ replicate (Z.to_nat nresults) LNil).

Definition op_call (lib : list TValue -> outcome (list TValue)) (nresults : Z)
    (params : list TValue) : outcome (list TValue) :=
  r <- lib params ;; Ret (adjust_results nresults r).

(** [LOP_FASTCALL] and its variants: run the fast path when the environment
    is safe; on [n >= 0] skip the call, else fall through to [LOP_CALL]. *)
Definition op_fastcall (safeenv : bool) (fast : fast_function)
    (lib : list TValue -> outcome (list TValue)) (nresults : Z)
    (params : list TValue) : outcome (list TValue) :=
  if safeenv then
    r <- fast nresults params ;;
    match r with
    | Some v => Ret (adjust_results nresults [v])
    | None => op_call lib nresults params
    end
  else op_call lib nresults params.

(** * The fast path is the library call

    Each lemma below compares one [luauF_] routine with the C function of the
    library that the same call reaches when the fast path gives up. *)

(** The loop of a fast path over its remaining arguments does what the
    library's loop over stack indices does. *)
Lemma fast_fold_loop {A} (get : TValue -> option A) (getl : Z -> outcome A) op
    (args rest : list TValue) (k : nat) (r x : A) :
  drop k args = rest ->
  (forall i v a, args !! i = Some v -> get v = Some a -> getl (Z.of_nat i + 1) = Ret a) ->
  fast_fold get op r rest = Some x ->
  loop_args getl op r (Z.of_nat k + 1) (length rest) = Ret x.
Proof.
  intros Hd Hg. revert k r Hd. induction rest as [|v rest IH]; intros k r Hd; cbn [fast_fold].
  { by intros [=->]. }
  destruct (get v) as [a|] eqn:Hv; [|done]. intros Hx. cbn [length loop_args].
  assert (Hk : args !! k = Some v) by (by rewrite <- (Nat.add_0_r k), <- lookup_drop, Hd).
  rewrite (Hg _ _ _ Hk Hv). cbn [outcome_bind].
  replace (Z.of_nat k + 1 + 1) with (Z.of_nat (S k) + 1) by lia.
  apply IH; [|done]. by rewrite <- Nat.add_1_r, <- drop_drop, Hd.
Qed.

(** The library's loop from index [from], seen from the fast path that has
    consumed [k] arguments. *)
Lemma fold_args_fast {A} (get : TValue -> option A) (getl : Z -> outcome A) op
    (args rest : list TValue) (k : nat) (r x : A) :
  drop k args = rest -> (k <= length args)%nat ->
  (forall i v a, args !! i = Some v -> get v = Some a -> getl (Z.of_nat i + 1) = Ret a) ->
  fast_fold get op r rest = Some x ->
  fold_args args getl op r (Z.of_nat k + 1) = Ret x.
Proof.
  intros Hd Hk Hg Hx. unfold fold_args, lua_gettop.
  replace (Z.to_nat _) with (length rest); [by eapply fast_fold_loop|].
  rewrite <- Hd, length_drop. lia.
Qed.

Lemma fast_fold_inv {A} (P : A -> Prop) (get : TValue -> option A) op rest r x :
  P r -> (forall a v b, P a -> get v = Some b -> P (op a b)) ->
  fast_fold get op r rest = Some x -> P x.
Proof.
  intros Hr Hs. revert r Hr. induction rest as [|v rest IH]; intros r Hr; cbn [fast_fold].
  { by intros [=<-]. }
  destruct (get v) as [a|] eqn:Hv; [|done]. eauto.
Qed.

Lemma index_lookup (args : list TValue) (i : nat) v :
  args !! i = Some v -> index2addr args (Z.of_nat i + 1) = Some v.
Proof. intros Hi. unfold index2addr. by replace (Z.to_nat _) with i by lia. Qed.

Lemma get_integer_check args i v a :
  args !! i = Some v -> get_integer v = Some a ->
  luaL_checkinteger64 args (Z.of_nat i + 1) = Ret a.
Proof.
  intros Hi%index_lookup Hv. destruct v; try done. injection Hv as <-.
  unfold luaL_checkinteger64, lua_isinteger64, lua_tointeger64. by rewrite Hi.
Qed.

Section FastChecks.
Context `{Target}.

Lemma get_unsigned_check args i v a :
  args !! i = Some v -> get_unsigned v = Some a ->
  luaL_checkunsigned args (Z.of_nat i + 1) = Ret a.
Proof.
  intros Hi%index_lookup Hv. destruct v; try done. injection Hv as <-.
  unfold luaL_checkunsigned, lua_tounsignedx, lua_tonumberx. by rewrite Hi.
Qed.

Lemma getbitoperand_check args i v a :
  args !! i = Some v -> getbitoperand v = Some a ->
  checkbitoperand args (Z.of_nat i + 1) = Ret a.
Proof.
  intros Hi%index_lookup Hv. unfold checkbitoperand. rewrite Hi.
  destruct v; try done; cbn in *; [|congruence]. by case_match; [injection Hv as <-|].
Qed.

Lemma get_unsigned_range v u : get_unsigned v = Some u -> in_u 32 u.
Proof. destruct v; intros [=<-]. auto with word. Qed.
End FastChecks.

(** What it means for a fast path to agree with its library function. *)
Definition fast_sound (fast : fast_function)
    (lib : list TValue -> outcome (list TValue)) : Prop :=
  forall nresults params v,
    fast nresults params = Ret (Some v) -> lib params = Ret [v].

Lemma fast_int2_sound f lib :
  (forall a b rest v, f a b = Some v -> lib (LInteger a :: LInteger b :: rest) = Ret [v]) ->
  fast_sound (total (fun n p => fast_int2 n p f)) lib.
Proof.
  intros Hf n p v Hv. injection Hv as Hv. unfold fast_int2 in Hv.
  destruct p as [|[] [|[] rest]]; try done. destruct (n <=? 1); [|done]. by apply Hf.
Qed.

Lemma fast_int1_sound f lib :
  (forall a rest v, f a = Some v -> lib (LInteger a :: rest) = Ret [v]) ->
  fast_sound (total (fun n p => fast_int1 n p f)) lib.
Proof.
  intros Hf n p v Hv. injection Hv as Hv. unfold fast_int1 in Hv.
  destruct p as [|[] rest]; try done. destruct (n <=? 1); [|done]. by apply Hf.
Qed.

(** Split the guards of a fast path, then evaluate both sides. *)
Ltac fast_cases :=
  repeat match goal with
  | H : None = Some _ |- _ => discriminate H
  | H : setl _ = Some _ |- _ => injection H as <-
  | H : setu _ = Some _ |- _ => injection H as <-
  | H : setb _ = Some _ |- _ => injection H as <-
  | H : Some _ = Some _ |- _ => injection H as <-
  | H : (if ?c then _ else _) = Some _ |- _ => destruct c eqn:?
  end.

Ltac fast_int :=
  first [apply fast_int2_sound | apply fast_int1_sound]; intros; cbv zeta in *;
  fast_cases; try reflexivity.

Lemma integer_arith_sound :
  fast_sound (total luauF_integertonumber) int64_tonumber /\
  fast_sound (total luauF_integeradd) int64_add /\
  fast_sound (total luauF_integersub) int64_sub /\
  fast_sound (total luauF_integermul) int64_mul /\
  fast_sound (total luauF_integerneg) int64_neg /\
  fast_sound (total luauF_integerbswap) int64_bswap /\
  fast_sound (total luauF_integercountlz) int64_countlz /\
  fast_sound (total luauF_integercountrz) int64_countrz /\
  fast_sound (total luauF_integerlrotate) int64_lrotate /\
  fast_sound (total luauF_integerrrotate) int64_rrotate.
Proof. split_and!; fast_int. Qed.

Lemma integer_compare_sound :
  fast_sound (total luauF_integerlt) int64_lt /\
  fast_sound (total luauF_integerle) int64_le /\
  fast_sound (total luauF_integergt) int64_gt /\
  fast_sound (total luauF_integerge) int64_ge /\
  fast_sound (total luauF_integerult) int64_ult /\
  fast_sound (total luauF_integerule) int64_ule /\
  fast_sound (total luauF_integerugt) int64_ugt /\
  fast_sound (total luauF_integeruge) int64_uge.
Proof. split_and!; fast_int. Qed.

Lemma integer_divide_sound :
  fast_sound (total luauF_integerdiv) int64_div /\
  fast_sound (total luauF_integeridiv) int64_idiv /\
  fast_sound (total luauF_integerrem) int64_rem /\
  fast_sound (total luauF_integermod) int64_mod /\
  fast_sound (total luauF_integerudiv) int64_udiv /\
  fast_sound (total luauF_integerurem) int64_urem /\
  fast_sound (total luauF_integerarshift) int64_arshift.
Proof.
  split_and!; fast_int; cbv [int64_div int64_idiv int64_rem int64_mod int64_udiv
    int64_urem int64_arshift]; read_args;
  repeat match goal with
  | H : _ || _ = false |- _ => apply orb_false_iff in H; destruct H
  | H : ?b = _ |- context [if ?b then _ else _] => rewrite H
  | H : ?b && ?c = false |- context [negb ?b || negb ?c] =>
      rewrite <- negb_andb, H; cbn [negb]
  | H : ?b && ?c = true |- context [negb ?b || negb ?c] =>
      rewrite <- negb_andb, H; cbn [negb]
  end; try reflexivity; by case_match.
Qed.

Lemma integer_field_sound :
  fast_sound (total luauF_integerextract) int64_extract /\
  fast_sound (total luauF_integerclamp) int64_clamp.
Proof.
  split; intros n p v Hv; injection Hv as Hv;
    unfold luauF_integerextract, luauF_integerclamp in Hv.
  - assert (Hfield : forall args x f w,
      luaL_checkinteger64 args 1 = Ret x -> luaL_checkinteger64 args 2 = Ret f ->
      luaL_optinteger64 args 3 1 = Ret w ->
      (if (f <? 0) || (63 <? f) || (w <? 1) || (64 <? w) || (64 <? f + w) then None
       else setl (Z.land (shr_u (u64 x) f) (shr_u ULLONG_MAX (64 - w)))) = Some v ->
      int64_extract args = Ret [v]).
    { intros args x f w H1 H2 H3 Hf. fast_cases. bool_simpl.
      unfold int64_extract. rewrite H1, H2, H3. cbn [outcome_bind].
      rewrite (proj2 (Z.leb_le 0 f)), (proj2 (Z.leb_le f 63)), (proj2 (Z.ltb_lt 0 w)) by lia.
      cbn [luaL_argcheck outcome_bind andb]. unfold add_s.
      rewrite (proj2 (in_s_b_spec 64 (f + w))) by (unfold in_s; lia). cbn [outcome_bind].
      by rewrite (proj2 (Z.ltb_ge 64 (f + w))) by lia. }
    destruct p as [|[] [|[] [|[] rest]]]; try done; destruct (n <=? 1); try done;
      by eapply Hfield.
  - destruct p as [|[] [|[] [|[] rest]]]; try done. fast_cases.
    unfold int64_clamp. read_args. bool_simpl.
    rewrite (proj2 (Z.leb_le _ _)) by lia. cbn. by repeat case_match.
Qed.

Lemma integer_fold_sound :
  fast_sound (total luauF_integerbtest) int64_btest /\
  fast_sound (total luauF_integermin) int64_min /\
  fast_sound (total luauF_integermax) int64_max.
Proof.
  assert (Hsel : forall pick n p v,
    fast_select n p pick = Some v ->
    exists a1 a2 rest r, p = LInteger a1 :: LInteger a2 :: rest /\ v = LInteger (s64 r) /\
      fold_args p (luaL_checkinteger64 p) pick a1 2 = Ret r).
  { intros pick n p v Hv. unfold fast_select in Hv.
    destruct p as [|[] [|[] rest]]; try done. destruct (n <=? 1); [|done].
    destruct (fast_fold _ _ _ rest) as [r|] eqn:Hr; [|done]. injection Hv as <-.
    eexists _, _, rest, r. split_and!; [done..|].
    apply (fold_args_fast get_integer _ pick _ (LInteger l0 :: rest) 1); [done|simpl; lia| |done].
    apply get_integer_check. }
  split_and!; intros n p v Hv; injection Hv as Hv.
  - unfold luauF_integerbtest in Hv. destruct p as [|[] rest]; try done.
    destruct (n <=? 1); [|done].
    destruct (fast_fold _ _ _ rest) as [r|] eqn:Hr; [|done]. fast_cases.
    unfold int64_btest.
    rewrite (fold_args_fast get_integer _ _ _ (LInteger l :: rest) 0 _ r); try done.
    + simpl. lia.
    + apply get_integer_check.
    + cbn [fast_fold get_integer]. rewrite <- Hr. f_equal.
      rewrite Z.land_comm. apply (land_ones_u 64); [done|auto with word].
  - apply Hsel in Hv as (a1 & a2 & rest & r & -> & -> & Hr).
    unfold int64_min. read_args. by rewrite Hr.
  - apply Hsel in Hv as (a1 & a2 & rest & r & -> & -> & Hr).
    unfold int64_max. read_args. by rewrite Hr.
Qed.

Section BitSound.
Context `{Target}.

(** The three folds over all arguments; the library starts from the neutral
    element, the fast path from the first operand. *)
Lemma fast_bits_sound op neutral lib :
  (forall args, lib args =
     (tres <- fold_args args (checkbitoperand args)
                (fun tres x => op tres (u64 x)) neutral 1 ;;
      Ret [lua_pushinteger64 tres])) ->
  (forall u, in_u 64 u -> op neutral u = u) ->
  fast_sound (total (fun n p => fast_bits n p op)) lib.
Proof.
  intros Hlib Hn n p v Hv. injection Hv as Hv. unfold fast_bits in Hv.
  destruct p as [|w rest]; [done|]. destruct (n <=? 1); [|done].
  destruct (getbitoperand w) as [o|] eqn:Ho; [|done].
  destruct (fast_fold _ _ _ rest) as [r|] eqn:Hr; [|done]. fast_cases.
  rewrite Hlib, (fold_args_fast getbitoperand _ _ _ (w :: rest) 0 _ r); try done.
  - simpl. lia.
  - apply getbitoperand_check.
  - cbn [fast_fold]. rewrite Ho, <- Hr. f_equal. apply Hn. auto with word.
Qed.

Lemma integer_bits_sound :
  fast_sound (total luauF_integerband) int64_band /\
  fast_sound (total luauF_integerbor) int64_bor /\
  fast_sound (total luauF_integerbxor) int64_bxor.
Proof.
  split_and!.
  - apply fast_bits_sound with (neutral := ULLONG_MAX); [done|].
    intros u Hu. rewrite Z.land_comm. by apply (land_ones_u 64).
  - apply fast_bits_sound with (neutral := 0); done.
  - apply fast_bits_sound with (neutral := 0); [done|]. intros. apply Z.lxor_0_l.
Qed.

Lemma fast_shift_sound f lib :
  (forall args x y, checkbitoperand args 1 = Ret x -> checkbitoperand args 2 = Ret y ->
     lib args = Ret [lua_pushinteger64 (f (u64 x) y)]) ->
  fast_sound (total (fun n p => fast_shift n p f)) lib.
Proof.
  intros Hlib n p v Hv. injection Hv as Hv. unfold fast_shift in Hv.
  destruct p as [|w1 [|w2 rest]]; try done. destruct (n <=? 1); [|done].
  destruct (getbitoperand w1) as [x|] eqn:Hx; [|done].
  destruct (getbitoperand w2) as [y|] eqn:Hy; [|done]. fast_cases.
  apply Hlib; [by apply (getbitoperand_check _ 0 w1)|by apply (getbitoperand_check _ 1 w2)].
Qed.

Lemma integer_shift_sound :
  fast_sound (total luauF_integerlshift) int64_lshift /\
  fast_sound (total luauF_integerrshift) int64_rshift /\
  fast_sound (total luauF_integerbnot) int64_bnot /\
  fast_sound (total luauF_integercreate) int64_create.
Proof.
  split_and!.
  - apply fast_shift_sound. intros args x y Hx Hy. unfold int64_lshift.
    rewrite Hx, Hy. cbn [outcome_bind]. by case_match.
  - apply fast_shift_sound. intros args x y Hx Hy. unfold int64_rshift.
    rewrite Hx, Hy. cbn [outcome_bind]. by case_match.
  - intros n p v Hv. injection Hv as Hv. unfold luauF_integerbnot in Hv.
    destruct p as [|w rest]; [done|]. destruct (n <=? 1); [|done].
    destruct (getbitoperand w) as [x|] eqn:Hx; [|done]. fast_cases.
    unfold int64_bnot. by rewrite (getbitoperand_check _ 0 w x).
  - intros n p v Hv. injection Hv as Hv. unfold luauF_integercreate in Hv.
    destruct p as [|[] rest]; try done. cbv zeta in Hv. unfold int64_create.
    replace (luaL_checknumber (LNumber n0 :: rest) 1) with (Ret n0) by done.
    cbn [outcome_bind]. cbv zeta. fast_cases; by repeat case_match.
Qed.
End BitSound.

Section Bit32Sound.
Context `{Target}.

Lemma fast_binary_sound op neutral finish (finish' : Z -> TValue) lib :
  (forall args, lib args =
     (r <- fold_args args (luaL_checkunsigned args) op neutral 1 ;;
      Ret [finish' (trim r)])) ->
  (forall r, finish r = Some (finish' r)) ->
  (forall u, in_u 32 u -> op neutral u = u) ->
  (forall a b, in_u 32 a -> in_u 32 b -> in_u 32 (op a b)) ->
  fast_sound (total (fun n p => fast_binary n p op finish)) lib.
Proof.
  intros Hlib Hfin Hn Hrange n p v Hv. injection Hv as Hv. unfold fast_binary in Hv.
  destruct p as [|[] [|[] rest]]; try done. destruct (n <=? 1); [|done].
  destruct (fast_fold _ _ _ rest) as [r|] eqn:Hr; [|done].
  rewrite Hlib, (fold_args_fast get_unsigned _ _ _ (LNumber n0 :: LNumber n1 :: rest) 0 _ r);
    try done.
  - cbn [outcome_bind]. rewrite trim_id.
    { rewrite Hfin in Hv. by injection Hv as <-. }
    eapply (fast_fold_inv (in_u 32)); [|..|exact Hr].
    { apply Hrange; auto with word. }
    intros a w b Ha Hw%get_unsigned_range. by apply Hrange.
  - simpl. lia.
  - apply get_unsigned_check.
  - cbn [fast_fold get_unsigned]. rewrite <- Hr. f_equal. f_equal. apply Hn. auto with word.
Qed.

Lemma bit32_fold_sound :
  fast_sound (total luauF_band) b_and /\ fast_sound (total luauF_bor) b_or /\
  fast_sound (total luauF_bxor) b_xor /\ fast_sound (total luauF_btest) b_test.
Proof.
  assert (Hand : forall u, in_u 32 u -> Z.land (not_u 32 0) u = u).
  { intros u Hu. rewrite Z.land_comm. by apply (land_ones_u 32). }
  assert (Haux : forall (f : Z -> TValue) args,
    (r <- andaux args ;; Ret [f r]) =
    (r <- fold_args args (luaL_checkunsigned args) Z.land (not_u 32 0) 1 ;; Ret [f (trim r)])).
  { intros. unfold andaux. by rewrite bind_assoc. }
  split_and!.
  - eapply fast_binary_sound with (finish' := lua_pushunsigned);
      [intros; apply Haux|done|done|auto with word].
  - eapply fast_binary_sound with (finish' := lua_pushunsigned); [done|done|done|auto with word].
  - eapply fast_binary_sound with (finish' := lua_pushunsigned); [done|done| |auto with word].
    intros. apply Z.lxor_0_l.
  - eapply fast_binary_sound with (finish' := fun r => lua_pushboolean (negb (r =? 0)));
      [intros; apply (Haux (fun r => lua_pushboolean (negb (r =? 0))))|done|done|auto with word].
Qed.

(** The argument pattern of the shift and rotation fast paths. *)
Lemma b_shift_left r s :
  in_u 32 r -> 0 <= s < 32 -> b_shift r s = Ret [lua_pushunsigned (shl_u 32 r s)].
Proof.
  intros Hr Hs. unfold b_shift, NBITS.
  rewrite (proj2 (Z.ltb_ge s 0)), (proj2 (Z.leb_gt 32 s)) by lia.
  by rewrite trim_id by auto with word.
Qed.

Lemma b_shift_right r s :
  in_u 32 r -> 0 <= s < 32 -> b_shift r (- s) = Ret [lua_pushunsigned (shr_u r s)].
Proof.
  intros Hr Hs. destruct (Z.eq_dec s 0) as [->|Hne].
  - change (- 0) with 0. rewrite b_shift_left by (done || lia). unfold shl_u, shr_u.
    rewrite Z.shiftl_0_r, Z.shiftr_0_r. by rewrite cast_u_id.
  - unfold b_shift, NBITS, neg_s. rewrite (proj2 (Z.ltb_lt (- s) 0)) by lia.
    rewrite (proj2 (in_s_b_spec 32 _)) by (unfold in_s; lia). cbn [outcome_bind].
    rewrite Z.opp_involutive, (proj2 (Z.leb_gt 32 s)) by lia. by rewrite trim_id.
Qed.

Lemma neg_s_small s : 0 <= s < 32 -> neg_s 32 s = Ret (- s).
Proof.
  intros. unfold neg_s. by rewrite (proj2 (in_s_b_spec 32 _)) by (unfold in_s; lia).
Qed.

Lemma bit32_shift_sound :
  fast_sound (total luauF_lshift) b_lshift /\ fast_sound (total luauF_rshift) b_rshift /\
  fast_sound (total luauF_arshift) b_arshift.
Proof.
  split_and!; intros n p v Hv; injection Hv as Hv;
    unfold luauF_lshift, luauF_rshift, luauF_arshift in Hv;
    destruct p as [|[] [|[] rest]]; try done; cbv zeta in Hv;
    destruct (n <=? 1); try done; destruct (u32 _ <? 32) eqn:Hs; try done;
    apply shift_amount in Hs; auto with word; fast_cases;
    unfold b_lshift, b_rshift, b_arshift; read_args.
  - rewrite b_shift_left by auto with word. done.
  - rewrite neg_s_small by done. cbn [outcome_bind].
    rewrite b_shift_right by auto with word. done.
  - rewrite sar_bits by auto with word. unfold NBITS. rewrite land_bit_zero by lia.
    rewrite (proj2 (Z.ltb_ge _ 0)), (proj2 (Z.leb_gt 32 _)) by lia. cbn [orb].
    change (32 - 1) with 31. destruct (Z.testbit _ 31); cbn [negb].
    + rewrite trim_id by auto 6 with word. done.
    + rewrite neg_s_small by done. cbn [outcome_bind].
      rewrite b_shift_right by auto with word. done.
Qed.

Lemma bit32_rotate_sound :
  fast_sound luauF_lrotate b_lrot /\ fast_sound luauF_rrotate b_rrot.
Proof.
  split; intros n p v Hv; unfold luauF_lrotate, luauF_rrotate in Hv;
    destruct p as [|[] [|[] rest]]; try done; cbv zeta in Hv; destruct (n <=? 1); try done;
    apply bind_Ret_inv in Hv as (t & Ht & Hv); injection Hv as <-;
    unfold sub_s in Ht; destruct (in_s_b 32 _) eqn:Hr; try done; injection Ht as <-;
    apply in_s_b_spec in Hr; unfold b_lrot, b_rrot; read_args.
  - erewrite b_rot_spec by done. cbn zeta. rewrite !land31. do 5 f_equal.
    by rewrite Zminus_mod_idemp_r.
  - unfold neg_s. rewrite (proj2 (in_s_b_spec 32 _)).
    2: { pose proof (luai_num2int_range n1). unfold in_s in *. lia. }
    cbn [outcome_bind]. erewrite b_rot_spec by done. cbn zeta. rewrite !land31.
    rewrite Z.lor_comm, Zminus_mod_idemp_r.
    replace (32 - - luai_num2int n1) with (luai_num2int n1 + 1 * 32) by lia.
    replace (32 - luai_num2int n1) with (- luai_num2int n1 + 1 * 32) by lia.
    by rewrite !Z_mod_plus_full.
Qed.

Lemma bit32_unary_sound :
  fast_sound (total luauF_bnot) b_not /\ fast_sound (total luauF_byteswap) b_swap /\
  fast_sound (total luauF_countlz) b_countlz /\ fast_sound (total luauF_countrz) b_countrz.
Proof.
  split_and!; intros n p v Hv; injection Hv as Hv;
    unfold luauF_bnot, luauF_byteswap, luauF_countlz, luauF_countrz in Hv;
    destruct p as [|[] rest]; try done; cbv zeta in Hv; destruct (n <=? 1); try done;
    injection Hv as <-; unfold b_not, b_swap, b_countlz, b_countrz; read_args.
  - by rewrite trim_id by auto with word.
  - done.
  - unfold lua_pushunsigned. do 4 f_equal. destruct (Z.eqb_spec (luai_num2unsigned n0) 0) as [->|Hz];
      [apply first_bit_zero|].
    destruct (builtin_clz_spec 32 _ (luai_num2unsigned_range n0) Hz) as (Hr & Hb & Hl).
    apply first_bit_spec; unfold NBITS; try done; intros; try apply Hl; lia.
  - unfold lua_pushunsigned. do 4 f_equal. destruct (Z.eqb_spec (luai_num2unsigned n0) 0) as [->|Hz];
      [apply first_bit_zero|].
    destruct (builtin_ctz_spec 32 _ ltac:(lia) (luai_num2unsigned_range n0) Hz)
      as (Hr & Hb & Hl).
    apply first_bit_spec; try done; intros; try apply Hl; lia.
Qed.

(** The field arguments as the fast path and as [fieldargs] check them. *)
Lemma field_ok_fieldargs args farg f w :
  luaL_checkinteger args farg = Ret f -> luaL_optinteger args (farg + 1) 1 = Ret w ->
  field_ok f w = Some true -> fieldargs args farg = Ret (f, w) /\ 0 < w <= 32.
Proof.
  intros Hf Hw Hok. unfold field_ok in Hok.
  destruct ((0 <=? f) && (0 <? w)) eqn:E; [|done]. bool_simpl.
  destruct (in_s_b 32 (f + w)) eqn:Es; [|done]. injection Hok as Hle%Z.leb_le.
  unfold fieldargs. rewrite Hf, Hw. cbn [outcome_bind].
  rewrite (proj2 (Z.leb_le 0 f)), (proj2 (Z.ltb_lt 0 w)) by done. cbn.
  unfold add_s, NBITS. rewrite Es. cbn [outcome_bind].
  rewrite (proj2 (Z.ltb_ge 32 _)) by done. split; [done|lia].
Qed.

Lemma single_bit_field f :
  0 <= f < 32 -> field_ok f 1 = Some true.
Proof.
  intros Hf. unfold field_ok. rewrite (proj2 (Z.leb_le 0 f)) by lia. cbn.
  rewrite (proj2 (in_s_b_spec 32 _)) by (unfold in_s; lia).
  by rewrite (proj2 (Z.leb_le _ 32)) by lia.
Qed.

Lemma bit32_field_sound :
  fast_sound luauF_extract b_extract /\ fast_sound luauF_replace b_replace.
Proof.
  split; intros n p v Hv; unfold luauF_extract, luauF_replace in Hv.
  - destruct p as [|[] [|[] [|v3 rest]]]; try done; cbv zeta in Hv;
      destruct (n <=? 1); try done.
    + destruct (u32 _ <? 32) eqn:Hs; [|done]. apply shift_amount in Hs; [|auto with word].
      injection Hv as <-. unfold b_extract.
      edestruct (field_ok_fieldargs [LNumber n0; LNumber n1] 2) as [-> _];
        [by read_args|by read_args|by apply single_bit_field|]. by read_args.
    + destruct v3; try done. destruct (field_ok _ _) as [[]|] eqn:Hok; try done.
      injection Hv as <-. unfold b_extract.
      edestruct (field_ok_fieldargs (LNumber n0 :: LNumber n1 :: LNumber n2 :: rest) 2)
        as [-> _]; [by read_args|by read_args|exact Hok|]. by read_args.
  - destruct p as [|[] [|[] [|[] [|v4 rest]]]]; try done; cbv zeta in Hv;
      destruct (n <=? 1); try done.
    + destruct (u32 _ <? 32) eqn:Hs; [|done]. apply shift_amount in Hs; [|auto with word].
      injection Hv as <-. unfold b_replace.
      edestruct (field_ok_fieldargs [LNumber n0; LNumber n1; LNumber n2] 3) as [-> _];
        [by read_args|by read_args|by apply single_bit_field|]. by read_args.
    + destruct v4; try done. destruct (field_ok _ _) as [[]|] eqn:Hok; try done.
      injection Hv as <-. unfold b_replace.
      edestruct (field_ok_fieldargs
        (LNumber n0 :: LNumber n1 :: LNumber n2 :: LNumber n3 :: rest) 3)
        as [-> _]; [by read_args|by read_args|exact Hok|]. by read_args.
Qed.
End Bit32Sound.

(** Every row of the table is sound. *)
Lemma fast_table_sound `{Target} name fast lib :
  (name, fast, lib) ∈ fast_table -> fast_sound fast lib.
Proof.
  pose proof integer_arith_sound. pose proof integer_compare_sound.
  pose proof integer_divide_sound. pose proof integer_field_sound.
  pose proof integer_fold_sound. pose proof integer_bits_sound.
  pose proof integer_shift_sound. pose proof bit32_fold_sound.
  pose proof bit32_shift_sound. pose proof bit32_rotate_sound.
  pose proof bit32_unary_sound. pose proof bit32_field_sound. destruct_and?.
  intros Hin. unfold fast_table in Hin.
  repeat (apply elem_of_cons in Hin as [[= -> -> ->]|Hin]; [assumption|]).
  by apply elem_of_nil in Hin.
Qed.

(** A fast path never raises an error itself. *)
Lemma fast_table_never_throws `{Target} name fast lib nresults params e :
  (name, fast, lib) ∈ fast_table -> fast nresults params <> Throw e.
Proof.
  intros Hin. unfold fast_table in Hin.
  repeat (apply elem_of_cons in Hin as [[= -> -> ->]|Hin]);
    [..|by apply elem_of_nil in Hin]; try done;
    unfold luauF_extract, luauF_replace, luauF_lrotate, luauF_rrotate, sub_s;
    repeat case_match; done.
Qed.

(** The rotations of bit32 compute [32 - s] as an [int]; the library does not. *)
Definition rotation_overflows `{Target} (name : string) (nresults : Z) (params : list TValue) : bool :=
  (String.eqb name "LBF_BIT32_LROTATE" || String.eqb name "LBF_BIT32_RROTATE") && (nresults <=? 1) &&
  match params with
  | LNumber _ :: LNumber n :: _ => luai_num2int n <=? 32 - 2 ^ 31
  | _ => false
  end.

Lemma sub_s_32 s : in_s 32 s ->
  sub_s 32 32 s = if s <=? 32 - 2 ^ 31 then Undefined "signed overflow in -" else Ret (32 - s).
Proof.
  unfold sub_s, in_s. intros Hs. destruct (Z.leb_spec s (32 - 2 ^ 31)).
  - destruct (in_s_b 32 (32 - s)) eqn:Hb; [|done]. apply in_s_b_spec in Hb. unfold in_s in Hb. lia.
  - by rewrite (proj2 (in_s_b_spec 32 (32 - s))) by (unfold in_s; lia).
Qed.

(** The overflow of [f + w] in [fieldargs] *)
Lemma field_overflow `{Target} args i f w :
  luaL_checkinteger args i = Ret f -> luaL_optinteger args (i + 1) 1 = Ret w ->
  field_ok f w = None -> fieldargs args i = Undefined "signed overflow in +".
Proof.
  unfold field_ok, fieldargs. intros -> ->. cbn [outcome_bind].
  destruct (Z.leb_spec 0 f); cbn [andb]; [|done]. destruct (Z.ltb_spec 0 w); [|done]. cbn [luaL_argcheck outcome_bind].
  unfold add_s. by destruct (in_s_b 32 (f + w)).
Qed.

(** A fast path that is undefined, where the library is, or in a rotation *)
Definition undefined_alike `{Target} (name : string) (fast : fast_function)
    (lib : list TValue -> outcome (list TValue)) : Prop :=
  forall nresults params,
    match fast nresults params with
    | Undefined w => if rotation_overflows name nresults params then w = "signed overflow in -"%string
                     else lib params = Undefined w
    | _ => rotation_overflows name nresults params = false
    end.

Lemma rotate_undefined `{Target} name (fast : fast_function) lib op :
  String.eqb name "LBF_BIT32_LROTATE" || String.eqb name "LBF_BIT32_RROTATE" = true ->
  (forall n p, fast n p =
    match p with
    | LNumber a1 :: LNumber a2 :: _ =>
        if n <=? 1 then t <- sub_s 32 32 (luai_num2int a2) ;; Ret (op a1 a2 t) else Ret None
    | _ => Ret None
    end) -> undefined_alike name fast lib.
Proof.
  intros Hname Hfast n p. rewrite Hfast. unfold rotation_overflows. rewrite Hname. cbn [andb].
  destruct p as [|[] [|[] p]]; try apply andb_false_r.
  destruct (n <=? 1); [|done]. rewrite sub_s_32 by apply luai_num2int_range. cbn [andb]. by destruct (_ <=? _).
Qed.

Lemma extract_undefined `{Target} : undefined_alike "LBF_BIT32_EXTRACT" (fun n p => luauF_extract n p) b_extract.
Proof.
  intros n p. unfold luauF_extract. destruct p as [|[] [|[] p]]; try done.
  destruct (n <=? 1); [|done]. destruct p as [|[] p]; try done.
  destruct (field_ok _ _) as [[]|] eqn:Hf; [done|done|]. unfold b_extract. read_args.
  match type of Hf with field_ok ?f ?w = _ =>
    by rewrite (field_overflow _ 2 f w) end.
Qed.

Lemma replace_undefined `{Target} : undefined_alike "LBF_BIT32_REPLACE" (fun n p => luauF_replace n p) b_replace.
Proof.
  intros n p. unfold luauF_replace. destruct p as [|[] [|[] [|[] p]]]; try done.
  destruct (n <=? 1); [|done]. destruct p as [|[] p]; try done.
  destruct (field_ok _ _) as [[]|] eqn:Hf; [done|done|]. unfold b_replace. read_args.
  match type of Hf with field_ok ?f ?w = _ =>
    by rewrite (field_overflow _ 3 f w) end.
Qed.

Lemma total_undefined `{Target} name (f : Z -> list TValue -> option TValue) lib :
  String.eqb name "LBF_BIT32_LROTATE" || String.eqb name "LBF_BIT32_RROTATE" = false ->
  undefined_alike name (total f) lib.
Proof. intros Hname n p. cbn. unfold rotation_overflows. by rewrite Hname. Qed.

Lemma fast_table_undefined `{Target} name fast lib :
  (name, fast, lib) ∈ fast_table -> undefined_alike name fast lib.
Proof.
  intros Hin. unfold fast_table in Hin.
  repeat (apply elem_of_cons in Hin as [[= -> -> ->]|Hin];
    [first [by apply total_undefined | by apply extract_undefined | by apply replace_undefined
           | by eapply rotate_undefined]|]).
  by apply elem_of_nil in Hin.
Qed.

(** C3. A fast call is transparent: for every builtin of the two libraries,
    every number of results the call site asks for and every argument list,
    executing the fast path leaves exactly what the call of the library function
    would have left, errors and undefined behaviour included.  The one exception are
    the two rotations of bit32 by an amount of at most [32 - 2^31]: there the fast path
    overflows an [int], and the library function does not. *)
Theorem fastcall_transparent `{Target} name fast lib safeenv nresults params :
  (name, fast, lib) ∈ fast_table ->
  op_fastcall safeenv fast lib nresults params =
    if safeenv && rotation_overflows name nresults params then Undefined "signed overflow in -"
    else op_call lib nresults params.
Proof.
  intros Hin. unfold op_fastcall, op_call. destruct safeenv; [|done]. cbn [andb].
  pose proof (fast_table_undefined _ _ _ Hin nresults params) as Hu.
  destruct (fast nresults params) as [[v|]|e|w] eqn:Hf; cbn [outcome_bind].
  - by rewrite Hu, (fast_table_sound _ _ _ Hin _ _ _ Hf).
  - by rewrite Hu.
  - by apply (fast_table_never_throws _ _ _ nresults params e Hin) in Hf.
  - destruct (rotation_overflows _ _ _); [by rewrite Hu|]. by rewrite Hu.
Qed.

Lemma fastcall_transparent_witness :
  op_fastcall true luauF_lrotate b_lrot 1 [LNumber (double_of_Z 1); LNumber (double_of_Z 33)]
  = Ret [LNumber (double_of_Z 2)].
Proof.
  rewrite (fastcall_transparent "LBF_BIT32_LROTATE" luauF_lrotate b_lrot).
  - vm_compute. reflexivity.
  - unfold fast_table. repeat (apply elem_of_cons; first [by left | right]).
Defined.

(** The two differ: [bit32.lrotate(1, 1e10)], where the library rotates by 0. *)
Example lrotate_fast_overflows :
  let args := [LNumber (double_of_Z 1); LNumber (double_of_Z 10000000000)] in
  op_fastcall true luauF_lrotate b_lrot 1 args = Undefined "signed overflow in -" /\
  op_call b_lrot 1 args = Ret [LNumber (double_of_Z 1)].
Proof. split; vm_compute; reflexivity. Qed.
