(* ===== verification/Digest.v ===== *)
(** The digests of [VM/src/lhashlib.cpp]: the compression functions of MD5,
    SHA-1, SHA-256 and SHA-512, and the byte loop that feeds them.

    The loop is the same text in every [compute_] function of the source: a
    block buffer on the stack, filled one byte at a time, and flushed through
    the compression function when it is full.  It is modelled once, with the
    buffer as an array whose initial contents are arbitrary ([uninit]) and
    whose stale bytes stay in place after a flush. *)
From S2P Require Import Prelude Word Bytes.
Open Scope Z_scope.

(** The contents of an uninitialised local array of [n] bytes. *)
Class Uninit := {
  uninit : nat -> list Z;
  length_uninit : forall n, length (uninit n) = n
}.

#[export, refine] Instance zero_memory : Uninit := {| uninit n := replicate n 0 |}.
Proof. intros. apply length_replicate. Defined.

(** * The block buffer *)

Section Stream.
Context {state : Type}.
Variables (block_size length_pos : nat) (transform : state -> list Z -> state).

(** The locals [state], [buffer] and [offset]. *)
Record md_ctx := MdCtx { md_state : state; md_buffer : list Z; md_offset : nat }.

(** [buffer[offset++] = x] *)
Definition md_put (c : md_ctx) (x : Z) : md_ctx :=
  MdCtx (md_state c) (<[md_offset c := x]> (md_buffer c)) (S (md_offset c)).

(** [transform(state, buffer); offset = 0] *)
Definition md_flush (c : md_ctx) : md_ctx :=
  MdCtx (transform (md_state c) (md_buffer c)) (md_buffer c) 0.

(** The body of the loop over the message. *)
Definition md_update (c : md_ctx) (x : Z) : md_ctx :=
  let c := md_put c x in
  if (md_offset c =? block_size)%nat then md_flush c else c.

(** [while (offset < limit) buffer[offset++] = 0] *)
Definition md_fill (limit : nat) (c : md_ctx) : md_ctx :=
  Nat.iter (limit - md_offset c) (fun c => md_put c 0) c.

(** The loop [buffer[length_pos + i] = field[i]]. *)
Definition md_length_field (field : list Z) (c : md_ctx) : md_ctx :=
  MdCtx (md_state c) (list_inserts length_pos field (md_buffer c)) (md_offset c).

Definition md_final (field : list Z) (c : md_ctx) : md_ctx :=
  let c := md_put c 0x80 in
  let c := if (length_pos <? md_offset c)%nat then md_flush (md_fill block_size c) else c in
  let c := md_fill length_pos c in
  md_flush (md_length_field field c).

Definition md_stream `{Uninit} (iv : state) (data field : list Z) : state :=
  let c := fold_left md_update data (MdCtx iv (uninit block_size) 0) in
  md_state (md_final field c).
End Stream.
Arguments md_ctx : clear implicits.

(** [uint64_t bits = len * 8], and its eight bytes from the low and from the
    high end. *)
Definition bit_length (data : list Z) : Z := mul_u 64 (Z.of_nat (length data)) 8.
Definition bytes_up (x : Z) : list Z :=
  map (fun i => Z.land (shr_u x (i * 8)) 0xFF) [0; 1; 2; 3; 4; 5; 6; 7].
Definition bytes_down (x : Z) : list Z :=
  map (fun i => Z.land (shr_u x ((7 - i) * 8)) 0xFF) [0; 1; 2; 3; 4; 5; 6; 7].

(** One word of a digest, as the output loops write it. *)
Definition out32_le (x : Z) : list Z :=
  [Z.land x 0xFF; Z.land (shr_u x 8) 0xFF; Z.land (shr_u x 16) 0xFF; Z.land (shr_u x 24) 0xFF].
Definition out32_be (x : Z) : list Z :=
  [Z.land (shr_u x 24) 0xFF; Z.land (shr_u x 16) 0xFF; Z.land (shr_u x 8) 0xFF; Z.land x 0xFF].

(** The [i]-th word of a block. *)
Definition load32_le (block : list Z) (i : nat) : Z :=
  let byte k := block !!! (i * 4 + k)%nat in
  Z.lor (Z.lor (Z.lor (byte 0%nat) (shl_u 32 (byte 1%nat) 8)) (shl_u 32 (byte 2%nat) 16))
    (shl_u 32 (byte 3%nat) 24).
Definition load32_be (block : list Z) (i : nat) : Z :=
  let byte k := block !!! (i * 4 + k)%nat in
  Z.lor (Z.lor (Z.lor (shl_u 32 (byte 0%nat) 24) (shl_u 32 (byte 1%nat) 16))
    (shl_u 32 (byte 2%nat) 8)) (byte 3%nat).
Definition load64_be (block : list Z) (i : nat) : Z :=
  let byte k := block !!! (i * 8 + k)%nat in
  Z.lor (Z.lor (Z.lor (Z.lor (Z.lor (Z.lor (Z.lor
    (shl_u 64 (byte 0%nat) 56) (shl_u 64 (byte 1%nat) 48)) (shl_u 64 (byte 2%nat) 40))
    (shl_u 64 (byte 3%nat) 32)) (shl_u 64 (byte 4%nat) 24)) (shl_u 64 (byte 5%nat) 16))
    (shl_u 64 (byte 6%nat) 8)) (byte 7%nat).

(** [for (i = 16; i < n; ++i) w[i] = next(w, i)] *)
Definition expand (next : list Z -> nat -> Z) (w : list Z) (n : nat) : list Z :=
  fold_left (fun w i => w ++ [next w i]) (seq 16 (n - 16)) w.

Abbreviation add32 := (add_u 32).
Abbreviation add64 := (add_u 64).
Abbreviation rotl32 := (rotl_u 32).
Abbreviation rotr32 := (rotr_u 32).
Abbreviation rotr64 := (rotr_u 64).

(** An assignment statement, kept as a function so that a long straight-line
    program is not expanded when it is reasoned about. *)
Definition assign {A B} (e : A) (k : A -> B) : B := k e.
Notation "x <~ e ;; k" := (assign e (fun x => k))
  (at level 60, e at next level, right associativity).

(** * MD5 *)
Module MD5.

Definition F (x y z : Z) : Z := Z.lor (Z.land x y) (Z.land (not_u 32 x) z).
Definition G (x y z : Z) : Z := Z.lor (Z.land x z) (Z.land y (not_u 32 z)).
Definition H (x y z : Z) : Z := Z.lxor (Z.lxor x y) z.
Definition I (x y z : Z) : Z := Z.lxor y (Z.lor x (not_u 32 z)).

Definition word4 : Type := Z * Z * Z * Z.

(** [a = b + ROTL32(a + f(b,c,d) + x[m] + t, s)] *)
Definition round (f : Z -> Z -> Z -> Z) (x : list Z) (a b c d : Z) (m : nat) (s t : Z) : Z :=
  add32 b (rotl32 (add32 (add32 (add32 a (f b c d)) (x !!! m)) t) s).

Definition md5_transform (state : word4) (block : list Z) : word4 :=
  let '(a0, b0, c0, d0) := state in
  let x := map (load32_le block) (seq 0 16) in
  let FF := round F x in
  let GG := round G x in
  let HH := round H x in
  let II := round I x in
  let a := a0 in let b := b0 in let c := c0 in let d := d0 in
  a <~ FF a b c d 0%nat 7 0xd76aa478 ;;
  d <~ FF d a b c 1%nat 12 0xe8c7b756 ;;
  c <~ FF c d a b 2%nat 17 0x242070db ;;
  b <~ FF b c d a 3%nat 22 0xc1bdceee ;;
  a <~ FF a b c d 4%nat 7 0xf57c0faf ;;
  d <~ FF d a b c 5%nat 12 0x4787c62a ;;
  c <~ FF c d a b 6%nat 17 0xa8304613 ;;
  b <~ FF b c d a 7%nat 22 0xfd469501 ;;
  a <~ FF a b c d 8%nat 7 0x698098d8 ;;
  d <~ FF d a b c 9%nat 12 0x8b44f7af ;;
  c <~ FF c d a b 10%nat 17 0xffff5bb1 ;;
  b <~ FF b c d a 11%nat 22 0x895cd7be ;;
  a <~ FF a b c d 12%nat 7 0x6b901122 ;;
  d <~ FF d a b c 13%nat 12 0xfd987193 ;;
  c <~ FF c d a b 14%nat 17 0xa679438e ;;
  b <~ FF b c d a 15%nat 22 0x49b40821 ;;
  a <~ GG a b c d 1%nat 5 0xf61e2562 ;;
  d <~ GG d a b c 6%nat 9 0xc040b340 ;;
  c <~ GG c d a b 11%nat 14 0x265e5a51 ;;
  b <~ GG b c d a 0%nat 20 0xe9b6c7aa ;;
  a <~ GG a b c d 5%nat 5 0xd62f105d ;;
  d <~ GG d a b c 10%nat 9 0x02441453 ;;
  c <~ GG c d a b 15%nat 14 0xd8a1e681 ;;
  b <~ GG b c d a 4%nat 20 0xe7d3fbc8 ;;
  a <~ GG a b c d 9%nat 5 0x21e1cde6 ;;
  d <~ GG d a b c 14%nat 9 0xc33707d6 ;;
  c <~ GG c d a b 3%nat 14 0xf4d50d87 ;;
  b <~ GG b c d a 8%nat 20 0x455a14ed ;;
  a <~ GG a b c d 13%nat 5 0xa9e3e905 ;;
  d <~ GG d a b c 2%nat 9 0xfcefa3f8 ;;
  c <~ GG c d a b 7%nat 14 0x676f02d9 ;;
  b <~ GG b c d a 12%nat 20 0x8d2a4c8a ;;
  a <~ HH a b c d 5%nat 4 0xfffa3942 ;;
  d <~ HH d a b c 8%nat 11 0x8771f681 ;;
  c <~ HH c d a b 11%nat 16 0x6d9d6122 ;;
  b <~ HH b c d a 14%nat 23 0xfde5380c ;;
  a <~ HH a b c d 1%nat 4 0xa4beea44 ;;
  d <~ HH d a b c 4%nat 11 0x4bdecfa9 ;;
  c <~ HH c d a b 7%nat 16 0xf6bb4b60 ;;
  b <~ HH b c d a 10%nat 23 0xbebfbc70 ;;
  a <~ HH a b c d 13%nat 4 0x289b7ec6 ;;
  d <~ HH d a b c 0%nat 11 0xeaa127fa ;;
  c <~ HH c d a b 3%nat 16 0xd4ef3085 ;;
  b <~ HH b c d a 6%nat 23 0x04881d05 ;;
  a <~ HH a b c d 9%nat 4 0xd9d4d039 ;;
  d <~ HH d a b c 12%nat 11 0xe6db99e5 ;;
  c <~ HH c d a b 15%nat 16 0x1fa27cf8 ;;
  b <~ HH b c d a 2%nat 23 0xc4ac5665 ;;
  a <~ II a b c d 0%nat 6 0xf4292244 ;;
  d <~ II d a b c 7%nat 10 0x432aff97 ;;
  c <~ II c d a b 14%nat 15 0xab9423a7 ;;
  b <~ II b c d a 5%nat 21 0xfc93a039 ;;
  a <~ II a b c d 12%nat 6 0x655b59c3 ;;
  d <~ II d a b c 3%nat 10 0x8f0ccc92 ;;
  c <~ II c d a b 10%nat 15 0xffeff47d ;;
  b <~ II b c d a 1%nat 21 0x85845dd1 ;;
  a <~ II a b c d 8%nat 6 0x6fa87e4f ;;
  d <~ II d a b c 15%nat 10 0xfe2ce6e0 ;;
  c <~ II c d a b 6%nat 15 0xa3014314 ;;
  b <~ II b c d a 13%nat 21 0x4e0811a1 ;;
  a <~ II a b c d 4%nat 6 0xf7537e82 ;;
  d <~ II d a b c 11%nat 10 0xbd3af235 ;;
  c <~ II c d a b 2%nat 15 0x2ad7d2bb ;;
  b <~ II b c d a 9%nat 21 0xeb86d391 ;;
  (add32 a0 a, add32 b0 b, add32 c0 c, add32 d0 d).

Definition md5_init : word4 := (0x67452301, 0xefcdab89, 0x98badcfe, 0x10325476).

Definition compute_md5 `{Uninit} (data : list Z) : list Z :=
  let '(a, b, c, d) := md_stream 64 56 md5_transform md5_init data (bytes_up (bit_length data)) in
  flat_map out32_le [a; b; c; d].

End MD5.

(** * SHA-1 *)
Module SHA1.

Definition word5 : Type := Z * Z * Z * Z * Z.

Definition schedule (buffer : list Z) : list Z :=
  expand (fun w i => rotl32 (Z.lxor (Z.lxor (Z.lxor (w !!! (i - 3)%nat) (w !!! (i - 8)%nat))
                               (w !!! (i - 14)%nat)) (w !!! (i - 16)%nat)) 1)
         (map (load32_be buffer) (seq 0 16)) 80.

Definition step (w : list Z) (r : word5) (i : nat) : word5 :=
  let '(a, b, c, d, e) := r in
  let t :=
    if (i <? 20)%nat then
      add32 (Z.lor (Z.land b c) (Z.land (not_u 32 b) d)) 0x5A827999
    else if (i <? 40)%nat then add32 (Z.lxor (Z.lxor b c) d) 0x6ED9EBA1
    else if (i <? 60)%nat then
      add32 (Z.lor (Z.lor (Z.land b c) (Z.land b d)) (Z.land c d)) 0x8F1BBCDC
    else add32 (Z.lxor (Z.lxor b c) d) 0xCA62C1D6 in
  let t := add32 t (add32 (add32 (rotl32 a 5) e) (w !!! i)) in
  (t, a, rotl32 b 30, c, d).

Definition sha1_transform (state : word5) (buffer : list Z) : word5 :=
  let w := schedule buffer in
  let '(a, b, c, d, e) := fold_left (step w) (seq 0 80) state in
  let '(a0, b0, c0, d0, e0) := state in
  (add32 a0 a, add32 b0 b, add32 c0 c, add32 d0 d, add32 e0 e).

Definition sha1_init : word5 :=
  (0x67452301, 0xEFCDAB89, 0x98BADCFE, 0x10325476, 0xC3D2E1F0).

Definition compute_sha1 `{Uninit} (data : list Z) : list Z :=
  let '(a, b, c, d, e) :=
    md_stream 64 56 sha1_transform sha1_init data (bytes_down (bit_length data)) in
  flat_map out32_be [a; b; c; d; e].

End SHA1.

(** * SHA-256 and SHA-224 *)
Module SHA256.

Definition word8 : Type := Z * Z * Z * Z * Z * Z * Z * Z.

Definition CH (x y z : Z) : Z := Z.lxor (Z.land x y) (Z.land (not_u 32 x) z).
Definition MAJ (x y z : Z) : Z := Z.lxor (Z.lxor (Z.land x y) (Z.land x z)) (Z.land y z).
Definition EP0 (x : Z) : Z := Z.lxor (Z.lxor (rotr32 x 2) (rotr32 x 13)) (rotr32 x 22).
Definition EP1 (x : Z) : Z := Z.lxor (Z.lxor (rotr32 x 6) (rotr32 x 11)) (rotr32 x 25).
Definition SIG0 (x : Z) : Z := Z.lxor (Z.lxor (rotr32 x 7) (rotr32 x 18)) (shr_u x 3).
Definition SIG1 (x : Z) : Z := Z.lxor (Z.lxor (rotr32 x 17) (rotr32 x 19)) (shr_u x 10).

Definition k_sha256 : list Z :=
  Eval vm_compute in concat [
    [0x428a2f98; 0x71374491; 0xb5c0fbcf; 0xe9b5dba5; 0x3956c25b; 0x59f111f1; 0x923f82a4; 0xab1c5ed5];
    [0xd807aa98; 0x12835b01; 0x243185be; 0x550c7dc3; 0x72be5d74; 0x80deb1fe; 0x9bdc06a7; 0xc19bf174];
    [0xe49b69c1; 0xefbe4786; 0x0fc19dc6; 0x240ca1cc; 0x2de92c6f; 0x4a7484aa; 0x5cb0a9dc; 0x76f988da];
    [0x983e5152; 0xa831c66d; 0xb00327c8; 0xbf597fc7; 0xc6e00bf3; 0xd5a79147; 0x06ca6351; 0x14292967];
    [0x27b70a85; 0x2e1b2138; 0x4d2c6dfc; 0x53380d13; 0x650a7354; 0x766a0abb; 0x81c2c92e; 0x92722c85];
    [0xa2bfe8a1; 0xa81a664b; 0xc24b8b70; 0xc76c51a3; 0xd192e819; 0xd6990624; 0xf40e3585; 0x106aa070];
    [0x19a4c116; 0x1e376c08; 0x2748774c; 0x34b0bcb5; 0x391c0cb3; 0x4ed8aa4a; 0x5b9cca4f; 0x682e6ff3];
    [0x748f82ee; 0x78a5636f; 0x84c87814; 0x8cc70208; 0x90befffa; 0xa4506ceb; 0xbef9a3f7; 0xc67178f2]].

Definition schedule (data : list Z) : list Z :=
  expand (fun m i => add32 (add32 (add32 (SIG1 (m !!! (i - 2)%nat)) (m !!! (i - 7)%nat))
                              (SIG0 (m !!! (i - 15)%nat))) (m !!! (i - 16)%nat))
         (map (load32_be data) (seq 0 16)) 64.

Definition step (m : list Z) (r : word8) (i : nat) : word8 :=
  let '(a, b, c, d, e, f, g, h) := r in
  let t1 := add32 (add32 (add32 (add32 h (EP1 e)) (CH e f g)) (k_sha256 !!! i)) (m !!! i) in
  let t2 := add32 (EP0 a) (MAJ a b c) in
  (add32 t1 t2, a, b, c, add32 d t1, e, f, g).

Definition sha256_transform (state : word8) (data : list Z) : word8 :=
  let m := schedule data in
  let '(a, b, c, d, e, f, g, h) := fold_left (step m) (seq 0 64) state in
  let '(a0, b0, c0, d0, e0, f0, g0, h0) := state in
  (add32 a0 a, add32 b0 b, add32 c0 c, add32 d0 d,
   add32 e0 e, add32 f0 f, add32 g0 g, add32 h0 h).

Definition sha256_init : word8 :=
  (0x6a09e667, 0xbb67ae85, 0x3c6ef372, 0xa54ff53a,
   0x510e527f, 0x9b05688c, 0x1f83d9ab, 0x5be0cd19).

Definition compute_sha256 `{Uninit} (data : list Z) : list Z :=
  let '(a, b, c, d, e, f, g, h) :=
    md_stream 64 56 sha256_transform sha256_init data (bytes_down (bit_length data)) in
  flat_map out32_be [a; b; c; d; e; f; g; h].

Definition sha224_init : word8 :=
  (0xc1059ed8, 0x367cd507, 0x3070dd17, 0xf70e5939,
   0xffc00b31, 0x68581511, 0x64f98fa7, 0xbefa4fa4).

Definition compute_sha224 `{Uninit} (data : list Z) : list Z :=
  let '(a, b, c, d, e, f, g, h) :=
    md_stream 64 56 sha256_transform sha224_init data (bytes_down (bit_length data)) in
  flat_map out32_be [a; b; c; d; e; f; g].

End SHA256.

(** * SHA-512 and SHA-384 *)
Module SHA512.

Definition word8 : Type := Z * Z * Z * Z * Z * Z * Z * Z.

Definition CH64 (x y z : Z) : Z := Z.lxor (Z.land x y) (Z.land (not_u 64 x) z).
Definition MAJ64 (x y z : Z) : Z := Z.lxor (Z.lxor (Z.land x y) (Z.land x z)) (Z.land y z).
Definition EP0_64 (x : Z) : Z := Z.lxor (Z.lxor (rotr64 x 28) (rotr64 x 34)) (rotr64 x 39).
Definition EP1_64 (x : Z) : Z := Z.lxor (Z.lxor (rotr64 x 14) (rotr64 x 18)) (rotr64 x 41).
Definition SIG0_64 (x : Z) : Z := Z.lxor (Z.lxor (rotr64 x 1) (rotr64 x 8)) (shr_u x 7).
Definition SIG1_64 (x : Z) : Z := Z.lxor (Z.lxor (rotr64 x 19) (rotr64 x 61)) (shr_u x 6).

Definition k_sha512 : list Z :=
  [0x428a2f98d728ae22; 0x7137449123ef65cd; 0xb5c0fbcfec4d3b2f; 0xe9b5dba58189dbbc;
   0x3956c25bf348b538; 0x59f111f1b605d019; 0x923f82a4af194f9b; 0xab1c5ed5da6d8118;
   0xd807aa98a3030242; 0x12835b0145706fbe; 0x243185be4ee4b28c; 0x550c7dc3d5ffb4e2;
   0x72be5d74f27b896f; 0x80deb1fe3b1696b1; 0x9bdc06a725c71235; 0xc19bf174cf692694;
   0xe49b69c19ef14ad2; 0xefbe4786384f25e3; 0x0fc19dc68b8cd5b5; 0x240ca1cc77ac9c65;
   0x2de92c6f592b0275; 0x4a7484aa6ea6e483; 0x5cb0a9dcbd41fbd4; 0x76f988da831153b5;
   0x983e5152ee66dfab; 0xa831c66d2db43210; 0xb00327c898fb213f; 0xbf597fc7beef0ee4;
   0xc6e00bf33da88fc2; 0xd5a79147930aa725; 0x06ca6351e003826f; 0x142929670a0e6e70;
   0x27b70a8546d22ffc; 0x2e1b21385c26c926; 0x4d2c6dfc5ac42aed; 0x53380d139d95b3df;
   0x650a73548baf63de; 0x766a0abb3c77b2a8; 0x81c2c92e47edaee6; 0x92722c851482353b;
   0xa2bfe8a14cf10364; 0xa81a664bbc423001; 0xc24b8b70d0f89791; 0xc76c51a30654be30;
   0xd192e819d6ef5218; 0xd69906245565a910; 0xf40e35855771202a; 0x106aa07032bbd1b8;
   0x19a4c116b8d2d0c8; 0x1e376c085141ab53; 0x2748774cdf8eeb99; 0x34b0bcb5e19b48a8;
   0x391c0cb3c5c95a63; 0x4ed8aa4ae3418acb; 0x5b9cca4f7763e373; 0x682e6ff3d6b2b8a3;
   0x748f82ee5defb2fc; 0x78a5636f43172f60; 0x84c87814a1f0ab72; 0x8cc702081a6439ec;
   0x90befffa23631e28; 0xa4506cebde82bde9; 0xbef9a3f7b2c67915; 0xc67178f2e372532b;
   0xca273eceea26619c; 0xd186b8c721c0c207; 0xeada7dd6cde0eb1e; 0xf57d4f7fee6ed178;
   0x06f067aa72176fba; 0x0a637dc5a2c898a6; 0x113f9804bef90dae; 0x1b710b35131c471b;
   0x28db77f523047d84; 0x32caab7b40c72493; 0x3c9ebe0a15c9bebc; 0x431d67c49c100d4c;
   0x4cc5d4becb3e42b6; 0x597f299cfc657e2a; 0x5fcb6fab3ad6faec; 0x6c44198c4a475817].

Definition schedule (data : list Z) : list Z :=
  expand (fun m i => add64 (add64 (add64 (SIG1_64 (m !!! (i - 2)%nat)) (m !!! (i - 7)%nat))
                              (SIG0_64 (m !!! (i - 15)%nat))) (m !!! (i - 16)%nat))
         (map (load64_be data) (seq 0 16)) 80.

Definition step (m : list Z) (r : word8) (i : nat) : word8 :=
  let '(a, b, c, d, e, f, g, h) := r in
  let t1 := add64 (add64 (add64 (add64 h (EP1_64 e)) (CH64 e f g)) (k_sha512 !!! i)) (m !!! i) in
  let t2 := add64 (EP0_64 a) (MAJ64 a b c) in
  (add64 t1 t2, a, b, c, add64 d t1, e, f, g).

Definition sha512_transform (state : word8) (data : list Z) : word8 :=
  let m := schedule data in
  let '(a, b, c, d, e, f, g, h) := fold_left (step m) (seq 0 80) state in
  let '(a0, b0, c0, d0, e0, f0, g0, h0) := state in
  (add64 a0 a, add64 b0 b, add64 c0 c, add64 d0 d,
   add64 e0 e, add64 f0 f, add64 g0 g, add64 h0 h).

(** [bits_high] and [bits_low]: the length in bits on 128 bits. *)
Definition length_field (data : list Z) : list Z :=
  let len := Z.of_nat (length data) in
  bytes_down (shr_u len 61) ++ bytes_down (mul_u 64 len 8).

Definition sha512_init : word8 :=
  (0x6a09e667f3bcc908, 0xbb67ae8584caa73b, 0x3c6ef372fe94f82b, 0xa54ff53a5f1d36f1,
   0x510e527fade682d1, 0x9b05688c2b3e6c1f, 0x1f83d9abfb41bd6b, 0x5be0cd19137e2179).

Definition compute_sha512 `{Uninit} (data : list Z) : list Z :=
  let '(a, b, c, d, e, f, g, h) :=
    md_stream 128 112 sha512_transform sha512_init data (length_field data) in
  flat_map bytes_down [a; b; c; d; e; f; g; h].

Definition sha384_init : word8 :=
  (0xcbbb9d5dc1059ed8, 0x629a292a367cd507, 0x9159015a3070dd17, 0x152fecd8f70e5939,
   0x67332667ffc00b31, 0x8eb44a8768581511, 0xdb0c2e0d64f98fa7, 0x47b5481dbefa4fa4).

Definition compute_sha384 `{Uninit} (data : list Z) : list Z :=
  let '(a, b, c, d, e, f, g, h) :=
    md_stream 128 112 sha512_transform sha384_init data (length_field data) in
  flat_map bytes_down [a; b; c; d; e; f].

End SHA512.
