(* ===== verification/DigestSpec.v ===== *)
(** What the digests of [Digest] compute: the padded message cut into blocks
    and folded through the compression function, and MD5's unrolled
    compression function as the loop of RFC 1321. *)
From S2P Require Import Prelude Word Bytes Digest.
Open Scope Z_scope.

(** * Padding and blocks *)

(** The message, a [0x80] byte, the least number of zeros that brings the
    length to [length_pos] modulo [block_size], and the length field. *)
Definition md_pad (block_size length_pos : nat) (data field : list Z) : list Z :=
  data ++ [0x80] ++
  replicate (Z.to_nat ((Z.of_nat length_pos - Z.of_nat (length data) - 1)
                         mod Z.of_nat block_size)) 0 ++ field.

(** The first [k] blocks of a message. *)
Fixpoint md_blocks (block_size k : nat) (msg : list Z) : list (list Z) :=
  match k with
  | O => []
  | S k' => take block_size msg :: md_blocks block_size k' (drop block_size msg)
  end.

Definition md_spec {state} (block_size length_pos : nat) (transform : state -> list Z -> state)
    (iv : state) (data field : list Z) : state :=
  let msg := md_pad block_size length_pos data field in
  fold_left transform (md_blocks block_size (length msg / block_size) msg) iv.

Lemma length_md_pad bs lp data field :
  (0 < bs)%nat -> (length field + lp = bs)%nat ->
  (length (md_pad bs lp data field) mod bs = 0)%nat.
Proof.
  intros Hbs Hf. unfold md_pad. rewrite !length_app, length_replicate. cbn [length].
  set (z := (Z.of_nat lp - Z.of_nat (length data) - 1) mod Z.of_nat bs).
  assert (Hz : 0 <= z < Z.of_nat bs) by (apply Z.mod_pos_bound; lia).
  apply Nat2Z.inj. rewrite Nat2Z.inj_mod.
  replace (Z.of_nat _) with (Z.of_nat (length data) + 1 + z + (Z.of_nat bs - Z.of_nat lp)) by lia.
  unfold z.
  rewrite <- Zplus_mod_idemp_l, Zplus_mod_idemp_r, Zplus_mod_idemp_l.
  replace (_ + _) with (1 * Z.of_nat bs) by lia. by rewrite Z.mod_mul by lia.
Qed.

Section Stream.
Context {state : Type}.
Variables (bs lp : nat) (transform : state -> list Z -> state).
Hypothesis Hbs : (0 < bs)%nat.

(** The bytes received and not yet compressed, as a list. *)
Definition consume (s : state * list Z) (x : Z) : state * list Z :=
  let pend := s.2 ++ [x] in
  if (length pend =? bs)%nat then (transform s.1 pend, []) else (s.1, pend).

Lemma consume_length d st pend :
  (length (fold_left consume d (st, pend)).2 mod bs = (length pend + length d) mod bs)%nat.
Proof.
  revert st pend. induction d as [|x d IH]; intros st pend; cbn [fold_left length snd].
  { by rewrite Nat.add_0_r. }
  unfold consume at 2. cbn [fst snd].
  assert (Hl : length (pend ++ [x]) = S (length pend)) by (rewrite length_app; cbn; lia).
  destruct (Nat.eqb_spec (length (pend ++ [x])) bs) as [Hb|Hb]; rewrite IH.
  - cbn [length]. replace (length pend + S (length d))%nat with (length d + 1 * bs)%nat by lia.
    by rewrite Nat.Div0.mod_add.
  - f_equal. lia.
Qed.

Lemma consume_short d st pend :
  (length pend + length d < bs)%nat -> fold_left consume d (st, pend) = (st, pend ++ d).
Proof.
  revert pend. induction d as [|x d IH]; intros pend Hl; cbn [fold_left length] in *.
  { by rewrite app_nil_r. }
  unfold consume at 2. cbn [fst snd]. rewrite length_app. cbn [length].
  rewrite (proj2 (Nat.eqb_neq _ _)) by lia. rewrite IH by (rewrite length_app; cbn; lia).
  by rewrite <- app_assoc.
Qed.

Lemma consume_block d st pend :
  (length pend + length d = bs)%nat -> d <> [] ->
  fold_left consume d (st, pend) = (transform st (pend ++ d), []).
Proof.
  intros Hl Hne. destruct (exists_last Hne) as (d' & x & ->).
  rewrite length_app in Hl. cbn [length] in Hl.
  rewrite fold_left_app, consume_short by lia. cbn [fold_left]. unfold consume. cbn [fst snd].
  rewrite !length_app. cbn [length]. rewrite (proj2 (Nat.eqb_eq _ _)) by lia.
  by rewrite <- app_assoc.
Qed.

Lemma consume_blocks k msg st :
  length msg = (k * bs)%nat ->
  fold_left consume msg (st, []) = (fold_left transform (md_blocks bs k msg) st, []).
Proof.
  revert msg st. induction k as [|k IH]; intros msg st Hl; cbn [md_blocks fold_left].
  { by destruct msg. }
  assert (Ht : length (take bs msg) = bs) by (rewrite length_take; lia).
  rewrite <- (take_drop bs msg) at 1. rewrite fold_left_app, consume_block.
  - apply IH. rewrite length_drop. lia.
  - cbn. lia.
  - intros E. rewrite E in Ht. cbn in Ht. lia.
Qed.

(** The context holds the pending bytes [pend] in its buffer. *)
Definition holds (c : md_ctx state) (st : state) (pend : list Z) : Prop :=
  md_state c = st /\ md_offset c = length pend /\ length (md_buffer c) = bs /\
  take (length pend) (md_buffer c) = pend.

Lemma put_holds c st pend x :
  holds c st pend -> (length pend < bs)%nat -> holds (md_put c x) st (pend ++ [x]).
Proof.
  intros (Hs & Ho & Hl & Ht) Hlt. unfold holds, md_put. cbn [md_state md_offset md_buffer].
  rewrite length_insert, length_app, Nat.add_1_r, Ho. split_and!; try done.
  rewrite (take_S_r _ _ x) by (apply list_lookup_insert_eq; lia).
  by rewrite take_insert_ge, Ht by lia.
Qed.

Lemma flush_holds c st pend :
  holds c st pend -> length pend = bs -> holds (md_flush transform c) (transform st pend) [].
Proof.
  intros (Hs & Ho & Hl & Ht) Hb. unfold holds, md_flush. cbn [md_state md_offset md_buffer].
  split_and!; try done. rewrite Hs. f_equal. rewrite <- Ht, Hb. by rewrite <- Hl, firstn_all.
Qed.

Lemma update_holds c st pend x :
  holds c st pend -> (length pend < bs)%nat ->
  let s' := consume (st, pend) x in
  holds (md_update bs transform c x) s'.1 s'.2 /\ (length s'.2 < bs)%nat.
Proof.
  intros Hc Hlt. pose proof (put_holds c st pend x Hc Hlt) as Hp.
  cbn zeta. unfold md_update, consume. cbn [fst snd].
  rewrite (proj1 (proj2 Hp)).
  destruct (Nat.eqb_spec (length (pend ++ [x])) bs) as [Hb|Hb]; cbn [fst snd].
  - split; [|cbn; lia]. apply flush_holds; [|done]. by apply put_holds.
  - split; [by apply put_holds|]. rewrite length_app in *. cbn [length] in *. lia.
Qed.

Lemma updates_hold d c st pend :
  holds c st pend -> (length pend < bs)%nat ->
  let s' := fold_left consume d (st, pend) in
  holds (fold_left (md_update bs transform) d c) s'.1 s'.2 /\ (length s'.2 < bs)%nat.
Proof.
  revert c st pend. induction d as [|x d IH]; intros c st pend Hc Hlt; cbn [fold_left]; [done|].
  destruct (update_holds c st pend x Hc Hlt) as [Hu Hlu].
  destruct (consume (st, pend) x) as [st' pend']. by apply IH.
Qed.

Lemma fill_holds limit c st pend :
  holds c st pend -> (length pend <= limit <= bs)%nat ->
  holds (md_fill limit c) st (pend ++ replicate (limit - length pend) 0).
Proof.
  intros Hc Hl. unfold md_fill. pose proof Hc as (_ & -> & _).
  remember (limit - length pend)%nat as n eqn:En.
  assert (Hn : (length pend + n <= bs)%nat) by lia. clear En Hl.
  induction n as [|n IH]; cbn [Nat.iter]; [by rewrite app_nil_r|].
  rewrite replicate_S_end, app_assoc.
  apply put_holds; [apply IH; lia|]. rewrite length_app, length_replicate. lia.
Qed.

Lemma field_holds field c st pend :
  holds c st pend -> length pend = lp -> (length field + lp = bs)%nat ->
  holds (md_flush transform (md_length_field lp field c)) (transform st (pend ++ field)) [].
Proof.
  intros (Hs & Ho & Hl & Ht) Hp Hf. unfold holds, md_flush, md_length_field.
  cbn [md_state md_offset md_buffer]. rewrite length_inserts. split_and!; try done.
  rewrite Hs. f_equal. rewrite Hp in Ht. apply list_eq. intros i.
  destruct (decide (i < lp)%nat).
  - rewrite list_lookup_inserts_lt by done. rewrite lookup_app_l, <- Ht by lia.
    by rewrite lookup_take_lt.
  - rewrite lookup_app_r, Hp by lia. destruct (decide (i < bs)%nat).
    + by rewrite list_lookup_inserts by lia.
    + rewrite !lookup_ge_None_2; [done|lia|by rewrite length_inserts; lia].
Qed.

(** The tail of the stream: the padding goes through one or two blocks. *)
Lemma final_holds field c st pend :
  holds c st pend -> (length pend < bs)%nat -> (length field + lp = bs)%nat -> (0 < lp < bs)%nat ->
  md_state (md_final bs lp transform field c) =
  (fold_left consume
     ([0x80] ++ replicate (Z.to_nat ((Z.of_nat lp - Z.of_nat (length pend) - 1)
                                       mod Z.of_nat bs)) 0 ++ field) (st, pend)).1.
Proof.
  intros Hc Hlt Hf Hlp. pose proof (put_holds c st pend 0x80 Hc Hlt) as Hp.
  unfold md_final. rewrite app_assoc, fold_left_app.
  assert (Hlen : length (pend ++ [128]) = S (length pend)) by (rewrite length_app; cbn; lia).
  pose proof Hp as (_ & Ho & _). rewrite Ho, Hlen.
  destruct (Nat.ltb_spec lp (S (length pend))).
  - set (z1 := replicate (bs - S (length pend)) 0).
    assert (Hfl : holds (md_flush transform (md_fill bs (md_put c 128)))
                    (transform st ((pend ++ [128]) ++ z1)) []).
    { pose proof (fill_holds bs _ _ _ Hp ltac:(lia)) as Hb. rewrite Hlen in Hb.
      apply flush_holds; [done|]. rewrite length_app, Hlen. unfold z1. rewrite length_replicate. lia. }
    apply (fill_holds lp) in Hfl; [|cbn; lia]. cbn [length app] in Hfl.
    destruct (field_holds field _ _ _ Hfl ltac:(rewrite length_replicate; lia) Hf) as [-> _].
    replace (Z.to_nat _) with ((bs - S (length pend)) + lp)%nat.
    2: { rewrite <- (Z_mod_plus_full _ 1), Z.mod_small; lia. }
    rewrite replicate_add, app_assoc, <- fold_left_app, <- (app_assoc ([128] ++ z1)), fold_left_app.
    fold z1. rewrite (consume_block ([128] ++ z1)).
    2: { rewrite length_app. unfold z1. rewrite length_replicate. cbn [length]. lia. }
    2: { done. }
    rewrite consume_block; [|rewrite length_app, length_replicate; cbn; lia|].
    2: { intros E. apply app_eq_nil in E as [_ ->]. cbn in Hf. lia. }
    cbn [fst app]. by rewrite Nat.sub_0_r, <- app_assoc.
  - apply (fill_holds lp) in Hp; [|lia]. rewrite Hlen in Hp.
    destruct (field_holds field _ _ _ Hp ltac:(rewrite length_app, length_replicate; lia) Hf)
      as [-> _].
    replace (Z.to_nat _) with (lp - S (length pend))%nat by (rewrite Z.mod_small; lia).
    rewrite <- fold_left_app, consume_block.
    + cbn [fst]. by rewrite !app_assoc.
    + rewrite !length_app, length_replicate. cbn [length]. lia.
    + done.
Qed.

(** The byte loop computes the fold over the blocks of the padded message,
    whatever the buffer contained. *)
Lemma md_stream_spec `{Uninit} iv data field :
  (length field + lp = bs)%nat -> (0 < lp < bs)%nat ->
  md_stream bs lp transform iv data field = md_spec bs lp transform iv data field.
Proof.
  intros Hf Hlp. unfold md_stream, md_spec.
  assert (Hi : holds (MdCtx iv (uninit bs) 0) iv []).
  { split_and!; try done. apply length_uninit. }
  destruct (updates_hold data _ _ _ Hi ltac:(cbn; lia)) as [Hu Hlu].
  destruct (fold_left consume data (iv, [])) as [st pend] eqn:E. cbn [fst snd] in *.
  rewrite (final_holds field _ _ _ Hu Hlu Hf Hlp).
  pose proof (consume_length data iv []) as Hmod. rewrite E in Hmod. cbn [snd length Nat.add] in Hmod.
  apply (f_equal Z.of_nat) in Hmod. rewrite !Nat2Z.inj_mod in Hmod.
  rewrite <- (Z.sub_add_distr _ (Z.of_nat (length pend))).
  rewrite <- Zminus_mod_idemp_r, <- Zplus_mod_idemp_l, Hmod, Zplus_mod_idemp_l, Zminus_mod_idemp_r.
  rewrite Z.sub_add_distr, <- E, <- fold_left_app.
  change (data ++ _) with (md_pad bs lp data field).
  rewrite (consume_blocks (length (md_pad bs lp data field) / bs)); [done|].
  pose proof (length_md_pad bs lp data field Hbs Hf).
  pose proof (Nat.div_mod_eq (length (md_pad bs lp data field)) bs). lia.
Qed.
End Stream.
(** * Byte order *)

(** The output loops and the length fields split words into bytes. *)
Lemma bytes_up_split x : bytes_up x = le_split 8 x.
Proof.
  unfold bytes_up. cbn [map le_split]. rewrite !Z.shiftr_shiftr by lia.
  unfold cast_u, shr_u. change 0xFF with (Z.ones 8). rewrite !Z.land_ones by lia.
  by rewrite Z.shiftr_0_r.
Qed.

Lemma bytes_down_split x : bytes_down x = be_split 8 x.
Proof. unfold be_split. rewrite <- bytes_up_split. reflexivity. Qed.

Lemma out32_le_split x : out32_le x = le_split 4 x.
Proof.
  unfold out32_le. cbn [le_split]. rewrite !Z.shiftr_shiftr by lia.
  unfold cast_u, shr_u. change 0xFF with (Z.ones 8). by rewrite !Z.land_ones by lia.
Qed.

Lemma out32_be_split x : out32_be x = be_split 4 x.
Proof. unfold be_split. rewrite <- out32_le_split. reflexivity. Qed.

Lemma le_split_app n m x : le_split (n + m) x = le_split n x ++ le_split m (Z.shiftr x (8 * Z.of_nat n)).
Proof.
  revert x. induction n as [|n IH]; intros x; [by rewrite Z.shiftr_0_r|].
  cbn [Nat.add le_split app]. rewrite IH, Z.shiftr_shiftr by lia. do 4 f_equal. lia.
Qed.

(** The length field of SHA-512 is the bit length on sixteen bytes. *)
Lemma length_field_split data :
  SHA512.length_field data = be_split 16 (8 * Z.of_nat (length data)).
Proof.
  unfold SHA512.length_field. rewrite !bytes_down_split. set (n := Z.of_nat (length data)).
  unfold be_split. rewrite <- rev_app_distr. f_equal.
  change 16%nat with (8 + 8)%nat. rewrite le_split_app. f_equal.
  - unfold mul_u. rewrite le_split_u64. f_equal. lia.
  - f_equal. unfold shr_u. rewrite Z.mul_comm. change 8 with (2 ^ 3) at 1.
    rewrite <- Z.shiftl_mul_pow2, Z.shiftr_shiftl_r by lia. f_equal.
Qed.

Lemma bit_length_up data :
  bytes_up (bit_length data) = le_split 8 (8 * Z.of_nat (length data)).
Proof.
  rewrite bytes_up_split. unfold bit_length, mul_u. rewrite le_split_u64. f_equal. lia.
Qed.

Lemma bit_length_down data :
  bytes_down (bit_length data) = be_split 8 (8 * Z.of_nat (length data)).
Proof. unfold be_split. by rewrite <- bit_length_up, bytes_down_split, bytes_up_split. Qed.

(** The block loaders read words off consecutive bytes. *)
Lemma shl_byte w b n : in_u 8 b -> 0 <= n -> n + 8 <= w -> shl_u w b n = Z.shiftl b n.
Proof.
  intros [Hb0 Hb8] Hn Hw. unfold shl_u. apply cast_u_id. rewrite Z.shiftl_mul_pow2 by lia.
  pose proof (pow2_pos n). pose proof (Z.pow_le_mono_r 2 (n + 8) w).
  rewrite Z.pow_add_r in * by lia. unfold in_u. nia.
Qed.

Lemma block_slice (n i : nat) block :
  byte_list block -> (i * n + n <= length block)%nat ->
  exists l, take n (drop (i * n) block) = l /\ length l = n /\ byte_list l /\
    forall k, (k < n)%nat -> block !!! (i * n + k)%nat = l !!! k.
Proof.
  intros Hb Hl. eexists. split; [done|]. split; [rewrite length_take, length_drop; lia|].
  split; [by apply Forall_take, Forall_drop|]. intros k Hk.
  by rewrite !list_lookup_total_alt, lookup_take_lt, lookup_drop by done.
Qed.

Ltac load_words :=
  repeat match goal with
  | H : byte_list (_ :: _) |- _ => inversion_clear H
  | H : Forall _ (_ :: _) |- _ => inversion_clear H
  end;
  cbn [be_combine rev app le_combine];
  rewrite ?shl_byte by (done || lia);
  rewrite Z.shiftl_0_l, Z.lor_0_r, ?Z.shiftl_lor, ?Z.shiftl_shiftl, ?Z.lor_assoc by lia;
  reflexivity.

Lemma load32_le_combine block i :
  byte_list block -> (i * 4 + 4 <= length block)%nat ->
  load32_le block i = le_combine (take 4 (drop (i * 4) block)).
Proof.
  intros Hb Hl. destruct (block_slice 4 i block Hb Hl) as (l & -> & Hlen & Hbl & Hk).
  unfold load32_le. rewrite !Hk by lia. destruct l as [|b0 [|b1 [|b2 [|b3 [|? ?]]]]]; try done.
  cbn [lookup_total list_lookup_total]. load_words.
Qed.

Lemma load32_be_combine block i :
  byte_list block -> (i * 4 + 4 <= length block)%nat ->
  load32_be block i = be_combine (take 4 (drop (i * 4) block)).
Proof.
  intros Hb Hl. destruct (block_slice 4 i block Hb Hl) as (l & -> & Hlen & Hbl & Hk).
  unfold load32_be. rewrite !Hk by lia. destruct l as [|b0 [|b1 [|b2 [|b3 [|? ?]]]]]; try done.
  cbn [lookup_total list_lookup_total]. unfold be_combine.
  rewrite (Z.lor_comm _ b3), (Z.lor_comm _ (shl_u 32 b2 8)), (Z.lor_comm _ (shl_u 32 b1 16)).
  load_words.
Qed.

(** * The digests *)

(** What each routine promises: the blocks of the padded message through its
    compression function, the state written out in its byte order. *)
Definition le_words4 (s : MD5.word4) : list Z := let '(a, b, c, d) := s in [a; b; c; d].
Definition words5 (s : SHA1.word5) : list Z := let '(a, b, c, d, e) := s in [a; b; c; d; e].
Definition words8 (s : SHA256.word8) : list Z :=
  let '(a, b, c, d, e, f, g, h) := s in [a; b; c; d; e; f; g; h].

(** The length of a message in bits. *)
Definition bits (data : list Z) : Z := 8 * Z.of_nat (length data).

Definition md5_spec (data : list Z) : list Z :=
  flat_map (le_split 4)
    (le_words4 (md_spec 64 56 MD5.md5_transform MD5.md5_init data (le_split 8 (bits data)))).
Definition sha1_spec (data : list Z) : list Z :=
  flat_map (be_split 4)
    (words5 (md_spec 64 56 SHA1.sha1_transform SHA1.sha1_init data (be_split 8 (bits data)))).
Definition sha256_spec (iv : SHA256.word8) (n : nat) (data : list Z) : list Z :=
  flat_map (be_split 4)
    (take n (words8 (md_spec 64 56 SHA256.sha256_transform iv data (be_split 8 (bits data))))).
Definition sha512_spec (iv : SHA512.word8) (n : nat) (data : list Z) : list Z :=
  flat_map (be_split 8)
    (take n (words8 (md_spec 128 112 SHA512.sha512_transform iv data (be_split 16 (bits data))))).

Lemma flat_map_ext' {A B} (f g : A -> list B) l : (forall x, f x = g x) -> flat_map f l = flat_map g l.
Proof. intros. by apply flat_map_ext. Qed.

Ltac digest_spec data :=
  rewrite ?bit_length_up, ?bit_length_down, ?length_field_split;
  rewrite md_stream_spec by (rewrite ?length_le_split, ?length_be_split; lia);
  change (8 * Z.of_nat (length data)) with (bits data);
  repeat case_match; cbn [take];
  apply flat_map_ext'; auto using out32_le_split, out32_be_split, bytes_down_split.

Lemma digests_eq `{Uninit} data :
  MD5.compute_md5 data = md5_spec data /\
  SHA1.compute_sha1 data = sha1_spec data /\
  SHA256.compute_sha256 data = sha256_spec SHA256.sha256_init 8 data /\
  SHA256.compute_sha224 data = sha256_spec SHA256.sha224_init 7 data /\
  SHA512.compute_sha512 data = sha512_spec SHA512.sha512_init 8 data /\
  SHA512.compute_sha384 data = sha512_spec SHA512.sha384_init 6 data.
Proof.
  unfold MD5.compute_md5, SHA1.compute_sha1, SHA256.compute_sha256, SHA256.compute_sha224,
    SHA512.compute_sha512, SHA512.compute_sha384, md5_spec, sha1_spec, sha256_spec, sha512_spec,
    le_words4, words5, words8.
  split_and!; digest_spec data.
Qed.

(** C32. Every digest is the fold of its compression function over the blocks
    of the padded message, with the bit length in the last block (64 bits of
    it, 128 for the SHA-512 family) and the truncation of SHA-224 and
    SHA-384; the previous contents of the block buffer never matter. *)
Theorem digests_refine `{Uninit} data :
  MD5.compute_md5 data = md5_spec data /\
  SHA1.compute_sha1 data = sha1_spec data /\
  SHA256.compute_sha256 data = sha256_spec SHA256.sha256_init 8 data /\
  SHA256.compute_sha224 data = sha256_spec SHA256.sha224_init 7 data /\
  SHA512.compute_sha512 data = sha512_spec SHA512.sha512_init 8 data /\
  SHA512.compute_sha384 data = sha512_spec SHA512.sha384_init 6 data.
Proof. apply digests_eq. Qed.

(** * MD5 in rounds *)

(** RFC 1321: in step [i], round [i / 16] has its mixing function, its word
    index and its four shift amounts; [T] is the table of the RFC. *)
Definition md5_T : list Z :=
  [0xd76aa478; 0xe8c7b756; 0x242070db; 0xc1bdceee; 0xf57c0faf; 0x4787c62a; 0xa8304613; 0xfd469501;
   0x698098d8; 0x8b44f7af; 0xffff5bb1; 0x895cd7be; 0x6b901122; 0xfd987193; 0xa679438e; 0x49b40821;
   0xf61e2562; 0xc040b340; 0x265e5a51; 0xe9b6c7aa; 0xd62f105d; 0x02441453; 0xd8a1e681; 0xe7d3fbc8;
   0x21e1cde6; 0xc33707d6; 0xf4d50d87; 0x455a14ed; 0xa9e3e905; 0xfcefa3f8; 0x676f02d9; 0x8d2a4c8a;
   0xfffa3942; 0x8771f681; 0x6d9d6122; 0xfde5380c; 0xa4beea44; 0x4bdecfa9; 0xf6bb4b60; 0xbebfbc70;
   0x289b7ec6; 0xeaa127fa; 0xd4ef3085; 0x04881d05; 0xd9d4d039; 0xe6db99e5; 0x1fa27cf8; 0xc4ac5665;
   0xf4292244; 0x432aff97; 0xab9423a7; 0xfc93a039; 0x655b59c3; 0x8f0ccc92; 0xffeff47d; 0x85845dd1;
   0x6fa87e4f; 0xfe2ce6e0; 0xa3014314; 0x4e0811a1; 0xf7537e82; 0xbd3af235; 0x2ad7d2bb; 0xeb86d391].

Definition md5_mix (i : nat) : Z -> Z -> Z -> Z :=
  match (i / 16)%nat with 0%nat => MD5.F | 1%nat => MD5.G | 2%nat => MD5.H | _ => MD5.I end.

Definition md5_word (i : nat) : nat :=
  match (i / 16)%nat with
  | 0%nat => i
  | 1%nat => (5 * i + 1) mod 16
  | 2%nat => (3 * i + 5) mod 16
  | _ => (7 * i) mod 16
  end.

Definition md5_shift (i : nat) : Z :=
  match (i / 16)%nat with
  | 0%nat => [7; 12; 17; 22]
  | 1%nat => [5; 9; 14; 20]
  | 2%nat => [4; 11; 16; 23]
  | _ => [6; 10; 15; 21]
  end !!! (i mod 4)%nat.

Definition md5_step (x : list Z) (r : MD5.word4) (i : nat) : MD5.word4 :=
  let '(a, b, c, d) := r in
  (d, MD5.round (md5_mix i) x a b c d (md5_word i) (md5_shift i) (md5_T !!! i), b, c).

Definition md5_rolled (state : MD5.word4) (block : list Z) : MD5.word4 :=
  let words := map (fun i => le_combine (take 4 (drop (i * 4) block))) (seq 0 16) in
  let '(a, b, c, d) := fold_left (md5_step words) (seq 0 64) state in
  let '(a0, b0, c0, d0) := state in
  (add_u 32 a0 a, add_u 32 b0 b, add_u 32 c0 c, add_u 32 d0 d).

(** One unrolled statement against one iteration. *)
Lemma unroll_step {B} (k : Z -> B) (g : MD5.word4 -> B) x i l a b c d f m s t :
  md5_mix i = f -> md5_word i = m -> md5_shift i = s -> md5_T !!! i = t ->
  (forall v, k v = g (fold_left (md5_step x) l (d, v, b, c))) ->
  assign (MD5.round f x a b c d m s t) k = g (fold_left (md5_step x) (i :: l) (a, b, c, d)).
Proof. intros <- <- <- <- Hk. apply Hk. Qed.

Ltac md5_unroll :=
  simple apply unroll_step; [reflexivity|reflexivity|reflexivity|reflexivity|]; intros ?v.

(** The unrolled compression function of MD5 is the 64-step loop of RFC
    1321 over the little-endian words of the block. *)
Theorem md5_transform_rolled state block :
  byte_list block -> length block = 64%nat ->
  MD5.md5_transform state block = md5_rolled state block.
Proof.
  intros Hb Hl. destruct state as [[[a0 b0] c0] d0].
  assert (Hw : map (load32_le block) (seq 0 16)
               = map (fun i => le_combine (take 4 (drop (i * 4) block))) (seq 0 16)).
  { apply map_ext_in. intros i Hi%in_seq. apply load32_le_combine; [done|lia]. }
  cbv beta iota zeta delta [MD5.md5_transform md5_rolled]. rewrite <- Hw. clear Hw.
  generalize (map (load32_le block) (seq 0 16)). intros x.
  set (post := fun r : MD5.word4 => let '(a, b, c, d) := r in
    (add_u 32 a0 a, add_u 32 b0 b, add_u 32 c0 c, add_u 32 d0 d)).
  let l := eval cbv in (seq 0 64) in
  match goal with
  | |- ?lhs = _ => change (lhs = post (fold_left (md5_step x) l (a0, b0, c0, d0)))
  end.
  do 64 md5_unroll. reflexivity.
Qed.

Lemma md5_transform_rolled_witness :
  MD5.md5_transform MD5.md5_init (replicate 64 7) = md5_rolled MD5.md5_init (replicate 64 7).
Proof. apply (md5_transform_rolled MD5.md5_init (replicate 64 7)); [by repeat constructor|done]. Defined.
