(* ===== verification/HashLib.v ===== *)
(** The [hash] and [crypto] libraries, [VM/src/lhashlib.cpp]: checksums,
    digests, HMAC, base64 and hexadecimal, the constant-time comparison,
    random bytes and ChaCha20.  The digests themselves are in [Digest]. *)
From S2P Require Import Prelude Word Bytes Double NumParse LuaApi Digest DigestSpec.
Open Scope Z_scope.
Open Scope outcome_scope.

Definition get_hash_data (args : list TValue) (idx : Z) : outcome (list Z) :=
  match index2addr args idx with
  | Some (LString s) => Ret s
  | Some (LBuffer _ data) => Ret data
  | _ => Throw (TypeError idx "string or buffer")
  end.

(** * Checksums *)

Definition CRC_POLY : Z := 0xEDB88320.

(** One turn of the inner loop of [hash_crc32]. *)
Definition crc_bit (crc : Z) : Z :=
  if negb (Z.land crc 1 =? 0) then Z.lxor (shr_u crc 1) CRC_POLY else shr_u crc 1.

Definition crc_byte (crc x : Z) : Z := Nat.iter 8 crc_bit (Z.lxor crc x).

Definition crc32 (data : list Z) : Z := Z.lxor (fold_left crc_byte data 0xFFFFFFFF) 0xFFFFFFFF.

Definition hash_crc32 (args : list TValue) : outcome (list TValue) :=
  data <- get_hash_data args 1 ;;
  Ret [lua_pushnumber (double_of_Z (crc32 data))].

Definition fnv1a (data : list Z) : Z :=
  fold_left (fun hash x => mul_u 64 (Z.lxor hash x) 0x100000001b3) data 0xcbf29ce484222325.

Definition hash_fnv1a (args : list TValue) : outcome (list TValue) :=
  data <- get_hash_data args 1 ;;
  Ret [lua_pushnumber (double_of_Z (fnv1a data))].

(** * Hexadecimal *)

Definition hex_chars : list Z := Eval vm_compute in chars "0123456789abcdef".

Definition bytes_to_hex (bytes : list Z) : list Z :=
  flat_map (fun b => [hex_chars !!! Z.to_nat (shr_u b 4); hex_chars !!! Z.to_nat (Z.land b 0x0F)])
    bytes.

Definition hex_char_to_val (c : Z) : Z :=
  if (48 <=? c) && (c <=? 57) then c - 48
  else if (97 <=? c) && (c <=? 102) then c - 97 + 10
  else if (65 <=? c) && (c <=? 70) then c - 65 + 10
  else -1.

Definition hash_hex_encode (args : list TValue) : outcome (list TValue) :=
  data <- get_hash_data args 1 ;;
  Ret [lua_pushlstring (bytes_to_hex data)].

(** The loop over the pairs of characters. *)
Fixpoint hex_pairs (data : list Z) : outcome (list Z) :=
  match data with
  | c1 :: c2 :: rest =>
      let hi := hex_char_to_val c1 in
      let lo := hex_char_to_val c2 in
      if (hi <? 0) || (lo <? 0) then luaL_error "invalid hex character in string"
      else
        out <- hex_pairs rest ;;
        Ret (u8 (Z.lor (Z.shiftl hi 4) lo) :: out)
  | _ => Ret []
  end.

Definition hash_hex_decode (args : list TValue) : outcome (list TValue) :=
  data <- get_hash_data args 1 ;;
  if negb (length data mod 2 =? 0)%nat then luaL_error "invalid hex string length"
  else
    out <- hex_pairs data ;;
    Ret [lua_pushlstring out].

(** * Base64 *)

Definition b64_table : list Z :=
  Eval vm_compute in chars "ABCDEFGHIJKLMNOPQRSTUVWXYZabcdefghijklmnopqrstuvwxyz0123456789+/".

(** One turn of the loop of [hash_base64_encode], at index [i]. *)
Definition b64_quad (data : list Z) (i : nat) : list Z :=
  let len := length data in
  let octet k := if (i + k <? len)%nat then data !!! (i + k)%nat else 0 in
  let triple := Z.lor (Z.lor (shl_u 32 (octet 0%nat) 16) (shl_u 32 (octet 1%nat) 8)) (octet 2%nat) in
  let digit s := b64_table !!! Z.to_nat (Z.land (shr_u triple s) 0x3F) in
  [digit 18; digit 12;
   (if (i + 1 <? len)%nat then digit 6 else 61);
   (if (i + 2 <? len)%nat then digit 0 else 61)].

(** [for (i = 0; i < len; i += 3)] *)
Definition base64_encode (data : list Z) : list Z :=
  flat_map (fun k => b64_quad data (3 * k)) (seq 0 ((length data + 2) / 3)).

(** [dtable[c]]: the index of [c] in [b64_table], [-1] if it is not there. *)
Definition dtable (c : Z) : Z :=
  match list_find (fun x => x = c) b64_table with
  | Some (i, _) => Z.of_nat i
  | None => -1
  end.

Fixpoint b64_loop (data : list Z) (buffer bits : Z) : list Z :=
  match data with
  | [] => []
  | c :: rest =>
      if c =? 61 then []
      else if dtable c <? 0 then b64_loop rest buffer bits
      else
        let buffer := Z.lor (shl_u 32 buffer 6) (dtable c) in
        let bits := bits + 6 in
        if 8 <=? bits then
          let bits := bits - 8 in
          Z.land (shr_u buffer bits) 0xFF :: b64_loop rest buffer bits
        else b64_loop rest buffer bits
  end.

Definition base64_decode (data : list Z) : list Z := b64_loop data 0 0.

Definition hash_base64_encode (args : list TValue) : outcome (list TValue) :=
  data <- get_hash_data args 1 ;;
  Ret [lua_pushlstring (base64_encode data)].

Definition hash_base64_decode (args : list TValue) : outcome (list TValue) :=
  data <- get_hash_data args 1 ;;
  Ret [lua_pushlstring (base64_decode data)].

(** * HMAC *)

(** [memcpy] and [hash_fn] into the front of an array. *)
Definition write_front (src dst : list Z) : list Z := list_inserts 0 src dst.

(** [compute_hmac], and [compute_hmac_sha512] with [block = 128]. *)
Definition compute_hmac (block : nat) (hash_fn : list Z -> list Z) (hash_len : nat)
    (key data : list Z) : list Z :=
  let k_pad := replicate block 0 in
  let k_pad :=
    if (block <? length key)%nat then write_front (hash_fn key) k_pad
    else write_front key k_pad in
  let ipad := map (fun k => Z.lxor k 0x36) k_pad in
  let opad := map (fun k => Z.lxor k 0x5C) k_pad in
  let inner := ipad ++ data in
  let inner_hash := write_front (hash_fn inner) (replicate hash_len 0) in
  let outer := opad ++ inner_hash in
  hash_fn outer.

Section Digests.
Context `{Uninit}.
Variable args : list TValue.

(** The shape of [hash_md5] and the others: digest, then push it raw or in
    hexadecimal. *)
Definition push_digest (f : list Z -> list Z) : outcome (list TValue) :=
  data <- get_hash_data args 1 ;; Ret [lua_pushlstring (f data)].
Definition push_digest_hex (f : list Z -> list Z) : outcome (list TValue) :=
  data <- get_hash_data args 1 ;; Ret [lua_pushlstring (bytes_to_hex (f data))].
Definition push_hmac (f : list Z -> list Z -> list Z) : outcome (list TValue) :=
  key <- get_hash_data args 1 ;;
  data <- get_hash_data args 2 ;;
  Ret [lua_pushlstring (f key data)].
Definition push_hmac_hex (f : list Z -> list Z -> list Z) : outcome (list TValue) :=
  key <- get_hash_data args 1 ;;
  data <- get_hash_data args 2 ;;
  Ret [lua_pushlstring (bytes_to_hex (f key data))].

Definition hash_md5 := push_digest MD5.compute_md5.
Definition hash_md5hex := push_digest_hex MD5.compute_md5.
Definition hash_sha1 := push_digest SHA1.compute_sha1.
Definition hash_sha1hex := push_digest_hex SHA1.compute_sha1.
Definition hash_sha224 := push_digest SHA256.compute_sha224.
Definition hash_sha224hex := push_digest_hex SHA256.compute_sha224.
Definition hash_sha256 := push_digest SHA256.compute_sha256.
Definition hash_sha256hex := push_digest_hex SHA256.compute_sha256.
Definition hash_sha384 := push_digest SHA512.compute_sha384.
Definition hash_sha384hex := push_digest_hex SHA512.compute_sha384.
Definition hash_sha512 := push_digest SHA512.compute_sha512.
Definition hash_sha512hex := push_digest_hex SHA512.compute_sha512.

Definition hmac_md5 := compute_hmac 64 MD5.compute_md5 16.
Definition hmac_sha1 := compute_hmac 64 SHA1.compute_sha1 20.
Definition hmac_sha256 := compute_hmac 64 SHA256.compute_sha256 32.
Definition compute_hmac_sha512 := compute_hmac 128 SHA512.compute_sha512 64.

Definition hash_hmac_md5 := push_hmac hmac_md5.
Definition hash_hmac_md5hex := push_hmac_hex hmac_md5.
Definition hash_hmac_sha1 := push_hmac hmac_sha1.
Definition hash_hmac_sha1hex := push_hmac_hex hmac_sha1.
Definition hash_hmac_sha256 := push_hmac hmac_sha256.
Definition hash_hmac_sha256hex := push_hmac_hex hmac_sha256.
Definition hash_hmac_sha512 := push_hmac compute_hmac_sha512.
Definition hash_hmac_sha512hex := push_hmac_hex compute_hmac_sha512.
End Digests.

(** * Comparison and random bytes *)

Definition hash_timing_safe_equal (args : list TValue) : outcome (list TValue) :=
  a <- get_hash_data args 1 ;;
  b <- get_hash_data args 2 ;;
  if negb (length a =? length b)%nat then Ret [lua_pushboolean false]
  else
    let diff := fold_left (fun diff xy => Z.lor diff (Z.lxor xy.1 xy.2)) (zip a b) 0 in
    Ret [lua_pushboolean (diff =? 0)].

(** The loop that fills the buffer from [/dev/urandom]: [reads] are the
    results of the successive [read] calls, an empty one standing for an error
    or the end of the file; [buf] starts as zeros. *)
Fixpoint random_loop (reads : list (list Z)) (buf : list Z) (readBytes count : nat) : list Z :=
  match reads with
  | [] => buf
  | res :: reads' =>
      if (readBytes <? count)%nat then
        let res := take (count - readBytes) res in
        if (length res =? 0)%nat then buf
        else random_loop reads' (list_inserts readBytes res buf) (readBytes + length res) count
      else buf
  end.

(** [open] fails when [urandom] is [None]. *)
Definition hash_random_bytes `{Target} (urandom : option (list (list Z))) (args : list TValue)
    : outcome (list TValue) :=
  count <- luaL_checkinteger args 1 ;;
  luaL_argcheck ((0 <? count) && (count <=? 1048576)) 1
    "size must be between 1 and 1048576 bytes" ;;;
  let buf := replicate (Z.to_nat count) 0 in
  Ret [lua_pushlstring
         match urandom with
         | Some reads => random_loop reads buf 0 (Z.to_nat count)
         | None => buf
         end].

(** * ChaCha20 *)

(** [CHACHA20_QUARTERROUND] on four entries of [working]. *)
Definition quarterround (a b c d : nat) (w : list Z) : list Z :=
  let add i j (w : list Z) := <[i := add_u 32 (w !!! i) (w !!! j)]> w in
  let xor_rotl i j n (w : list Z) := <[i := rotl_u 32 (Z.lxor (w !!! i) (w !!! j)) n]> w in
  let w := xor_rotl d a 16 (add a b w) in
  let w := xor_rotl b c 12 (add c d w) in
  let w := xor_rotl d a 8 (add a b w) in
  xor_rotl b c 7 (add c d w).

Definition double_round (w : list Z) : list Z :=
  let w := quarterround 0 4 8 12 w in
  let w := quarterround 1 5 9 13 w in
  let w := quarterround 2 6 10 14 w in
  let w := quarterround 3 7 11 15 w in
  let w := quarterround 0 5 10 15 w in
  let w := quarterround 1 6 11 12 w in
  let w := quarterround 2 7 8 13 w in
  quarterround 3 4 9 14 w.

Definition chacha20_block (key nonce : list Z) (counter : Z) : list Z :=
  let state := [0x61707865; 0x3320646e; 0x79622d32; 0x6b206574] ++ key ++ [counter] ++ nonce in
  let working := Nat.iter 10 double_round state in
  flat_map (fun i => out32_le (add_u 32 (working !!! i) (state !!! i))) (seq 0 16).

(** [while (offset < dataLen)]; [None] when the fuel runs out. *)
Fixpoint chacha20_loop (fuel : nat) (key nonce data : list Z) (counter : Z) (offset : nat)
    (result : list Z) : option (list Z) :=
  if (offset <? length data)%nat then
    match fuel with
    | O => None
    | S fuel' =>
        let block := chacha20_block key nonce counter in
        let chunk := if (length data - offset <? 64)%nat then (length data - offset)%nat else 64%nat in
        let out := map (fun i => Z.lxor (data !!! (offset + i)%nat) (block !!! i)) (seq 0 chunk) in
        chacha20_loop fuel' key nonce data (add_u 32 counter 1) (offset + chunk)
          (list_inserts offset out result)
    end
  else Some result.

Definition crypto_chacha20 `{Target} (args : list TValue) : outcome (list TValue) :=
  keyData <- get_hash_data args 1 ;;
  nonceData <- get_hash_data args 2 ;;
  plainData <- get_hash_data args 3 ;;
  c <- luaL_optinteger args 4 1 ;;
  let counter := u32 c in
  luaL_argcheck (length keyData =? 32)%nat 1 "key must be exactly 32 bytes (256-bit)" ;;;
  luaL_argcheck (length nonceData =? 12)%nat 2 "nonce must be exactly 12 bytes (96-bit)" ;;;
  let key := map (load32_le keyData) (seq 0 8) in
  let nonce := map (load32_le nonceData) (seq 0 3) in
  match chacha20_loop (length plainData) key nonce plainData counter 0
          (replicate (length plainData) 0) with
  | Some result => Ret [lua_pushlstring result]
  | None => Undefined "no fuel"
  end.
