(* ===== verification/HashSpec.v ===== *)
(** The properties of the [hash] library: error detection by the checksum,
    the round trips of the text encodings, HMAC as RFC 2104, the stream
    cipher, comparison and random bytes. *)
From S2P Require Import Prelude Word Bytes Double NumParse LuaApi Digest DigestSpec HashLib.
Open Scope Z_scope.
Open Scope outcome_scope.

(** * CRC-32 *)

Lemma odd_test x : negb (Z.land x 1 =? 0) = Z.testbit x 0.
Proof.
  change 1 with (shl_u 32 1 0) at 1. rewrite land_bit_zero by lia. apply negb_involutive.
Qed.

Lemma crc_bit_range x : in_u 32 x -> in_u 32 (crc_bit x).
Proof. intros Hx. unfold crc_bit. case_match; [apply in_u_lxor; [done| |done]|]; auto with word. Qed.

Lemma iter_crc_bit_range n x : in_u 32 x -> in_u 32 (Nat.iter n crc_bit x).
Proof. intros Hx. induction n; [done|]. rewrite Nat.iter_succ. by apply crc_bit_range. Qed.

(** The register shifts out what is added above its low bit. *)
Lemma crc_bit_xor x y : crc_bit (Z.lxor x (Z.shiftl y 1)) = Z.lxor (crc_bit x) y.
Proof.
  unfold crc_bit. rewrite !odd_test, Z.lxor_spec, Z.shiftl_spec by lia.
  rewrite (Z.testbit_neg_r y) by lia. rewrite xorb_false_r.
  assert (E : shr_u (Z.lxor x (Z.shiftl y 1)) 1 = Z.lxor (shr_u x 1) y).
  { unfold shr_u. rewrite Z.shiftr_lxor, Z.shiftr_shiftl_l by lia. by rewrite Z.shiftl_0_r. }
  rewrite E. case_match; [|done]. rewrite !Z.lxor_assoc. f_equal. apply Z.lxor_comm.
Qed.

Lemma iter_crc_bit_xor n x y :
  Nat.iter n crc_bit (Z.lxor x (Z.shiftl y (Z.of_nat n))) = Z.lxor (Nat.iter n crc_bit x) y.
Proof.
  revert y. induction n as [|n IH]; intros y.
  { cbn. by rewrite Z.shiftl_0_r. }
  rewrite !Nat.iter_succ. replace (Z.of_nat (S n)) with (1 + Z.of_nat n) by lia.
  rewrite <- Z.shiftl_shiftl, IH by lia. apply crc_bit_xor.
Qed.

(** Feeding the bytes of a word is feeding its bits. *)
Lemma crc_word n t r :
  in_u (8 * Z.of_nat n) t ->
  fold_left crc_byte (le_split n t) r = Nat.iter (n * 8) crc_bit (Z.lxor r t).
Proof.
  revert t r. induction n as [|n IH]; intros t r Ht; cbn [le_split fold_left].
  { assert (t = 0) as -> by (unfold in_u in Ht; change (2 ^ (8 * Z.of_nat 0)) with 1 in Ht; lia).
    by rewrite Z.lxor_0_r. }
  assert (Hs : in_u (8 * Z.of_nat n) (Z.shiftr t 8)).
  { rewrite <- (cast_u_id _ t Ht). apply in_u_of_bits; [lia| |].
    - apply Z.shiftr_nonneg, cast_u_range. lia.
    - intros i Hi. rewrite Z.shiftr_spec, testbit_cast_u by lia.
      by rewrite (proj2 (Z.ltb_ge _ _)), andb_false_r by lia. }
  rewrite IH by done. replace (S n * 8)%nat with (n * 8 + 8)%nat by lia. rewrite Nat.iter_add.
  f_equal. unfold crc_byte. rewrite <- iter_crc_bit_xor. f_equal.
  rewrite Z.lxor_assoc. f_equal. change (Z.of_nat 8) with 8. apply Z.bits_inj'. intros i Hi.
  rewrite Z.lxor_spec, testbit_cast_u, Z.shiftl_spec by lia. destruct (Z.ltb_spec i 8).
  - by rewrite (Z.testbit_neg_r _ (i - 8)), andb_true_r, xorb_false_r by lia.
  - rewrite Z.shiftr_spec, andb_false_r by lia. cbn. f_equal. lia.
Qed.

Lemma crc_byte_range data r :
  in_u 32 r -> byte_list data -> in_u 32 (fold_left crc_byte data r).
Proof.
  intros Hr Hd. revert r Hr. induction Hd as [|b d Hb _ IH]; intros r Hr; cbn [fold_left]; [done|].
  apply IH, iter_crc_bit_range, in_u_lxor; [done..|]. apply (in_u_mono 8); [lia|done].
Qed.

(** The register can be run backwards. *)
Lemma crc_bit_inj x y : in_u 32 x -> in_u 32 y -> crc_bit x = crc_bit y -> x = y.
Proof.
  intros Hx Hy. unfold crc_bit. rewrite !odd_test. intros E.
  assert (Htop : forall z, in_u 32 z -> Z.testbit (shr_u z 1) 31 = false).
  { intros z Hz. rewrite testbit_shr_u by lia. by apply (testbit_in_u_high 32). }
  assert (H0 : Z.testbit x 0 = Z.testbit y 0).
  { apply (f_equal (fun z => Z.testbit z 31)) in E.
    destruct (Z.testbit x 0), (Z.testbit y 0); try done; exfalso;
      rewrite ?Z.lxor_spec, ?Htop in E by done; discriminate E. }
  assert (Hs : shr_u x 1 = shr_u y 1).
  { rewrite H0 in E. destruct (Z.testbit y 0); [|done].
    apply (f_equal (fun z => Z.lxor z CRC_POLY)) in E.
    by rewrite !Z.lxor_assoc, Z.lxor_nilpotent, !Z.lxor_0_r in E. }
  apply Z.bits_inj'. intros i Hi. destruct (Z.eq_dec i 0) as [->|]; [done|].
  apply (f_equal (fun z => Z.testbit z (i - 1))) in Hs. rewrite !testbit_shr_u in Hs by lia.
  by replace (i - 1 + 1) with i in Hs by lia.
Qed.

Lemma iter_crc_bit_inj n x y :
  in_u 32 x -> in_u 32 y -> Nat.iter n crc_bit x = Nat.iter n crc_bit y -> x = y.
Proof.
  intros Hx Hy. induction n as [|n IH]; [done|]. rewrite !Nat.iter_succ. intros E.
  apply IH, crc_bit_inj; auto using iter_crc_bit_range.
Qed.

Lemma crc_fold_inj s r1 r2 :
  in_u 32 r1 -> in_u 32 r2 -> byte_list s ->
  fold_left crc_byte s r1 = fold_left crc_byte s r2 -> r1 = r2.
Proof.
  intros H1 H2 Hs. revert r1 r2 H1 H2. induction Hs as [|b s Hb _ IH]; intros r1 r2 H1 H2 E; [done|].
  assert (Hb' : in_u 32 b) by (apply (in_u_mono 8); [lia|done]).
  cbn [fold_left] in E. apply IH in E; [|apply iter_crc_bit_range, in_u_lxor; done..].
  apply iter_crc_bit_inj in E; [|by apply in_u_lxor..].
  apply (f_equal (fun z => Z.lxor z b)) in E.
  by rewrite !Z.lxor_assoc, Z.lxor_nilpotent, !Z.lxor_0_r in E.
Qed.

(** [crc32] detects every error confined to four consecutive bytes: two
    messages of the same shape that differ only there have different
    checksums. *)
Theorem crc32_detects_burst p w1 w2 s :
  byte_list p -> byte_list w1 -> byte_list w2 -> byte_list s ->
  length w1 = length w2 -> (length w1 <= 4)%nat ->
  crc32 (p ++ w1 ++ s) = crc32 (p ++ w2 ++ s) -> w1 = w2.
Proof.
  intros Hp H1 H2 Hs Hl Hn E. unfold crc32 in E.
  apply (f_equal (fun z => Z.lxor z 0xFFFFFFFF)) in E.
  rewrite !Z.lxor_assoc, Z.lxor_nilpotent, !Z.lxor_0_r in E.
  rewrite !fold_left_app in E. set (r := fold_left crc_byte p 0xFFFFFFFF) in E.
  assert (Hr : in_u 32 r) by (by apply crc_byte_range).
  apply crc_fold_inj in E; [|by apply crc_byte_range..|done].
  assert (Hw : forall w, byte_list w -> (length w <= 4)%nat ->
    in_u (8 * Z.of_nat (length w)) (le_combine w) /\ in_u 32 (le_combine w)).
  { intros w Hw Hw4. pose proof (le_combine_range w Hw). split; [done|].
    by apply (in_u_mono (8 * Z.of_nat (length w))); [lia|]. }
  destruct (Hw w1 H1 Hn) as [Hr1 Hu1]. destruct (Hw w2 H2 ltac:(lia)) as [Hr2 Hu2].
  rewrite <- (le_split_combine w1 H1), <- (le_split_combine w2 H2), <- Hl.
  rewrite <- (le_split_combine w1 H1), <- (le_split_combine w2 H2) in E.
  rewrite !crc_word, <- Hl in E by done.
  apply iter_crc_bit_inj in E; [|by apply in_u_lxor..].
  apply (f_equal (Z.lxor r)) in E. rewrite <- !Z.lxor_assoc, Z.lxor_nilpotent, !Z.lxor_0_l in E.
  by rewrite E.
Qed.

(** A message followed by its checksum in little-endian order has the
    residue of CRC-32, whatever the message. *)
Theorem crc32_residue data :
  byte_list data -> crc32 (data ++ le_split 4 (crc32 data)) = 0x2144DF1C.
Proof.
  intros Hd. unfold crc32 at 1. rewrite fold_left_app. unfold crc32.
  set (r := fold_left crc_byte data 0xFFFFFFFF).
  assert (Hr : in_u 32 r) by (by apply crc_byte_range).
  rewrite crc_word by (by apply in_u_lxor).
  rewrite <- Z.lxor_assoc, Z.lxor_nilpotent, Z.lxor_0_l. reflexivity.
Qed.

(** * Hexadecimal *)

Lemma hex_byte b :
  in_u 8 b ->
  let c1 := hex_chars !!! Z.to_nat (shr_u b 4) in
  let c2 := hex_chars !!! Z.to_nat (Z.land b 0x0F) in
  0 <= hex_char_to_val c1 /\ 0 <= hex_char_to_val c2 /\
  u8 (Z.lor (Z.shiftl (hex_char_to_val c1) 4) (hex_char_to_val c2)) = b.
Proof.
  intros Hb. set (f := fun b =>
    let c1 := hex_chars !!! Z.to_nat (shr_u b 4) in
    let c2 := hex_chars !!! Z.to_nat (Z.land b 0x0F) in
    (0 <=? hex_char_to_val c1) && (0 <=? hex_char_to_val c2) &&
    (u8 (Z.lor (Z.shiftl (hex_char_to_val c1) 4) (hex_char_to_val c2)) =? b)).
  assert (Hf : f b = true) by (apply (bytes_forall f); [vm_compute; reflexivity|done]).
  unfold f in Hf. cbv zeta in *. bool_simpl. done.
Qed.

Lemma hex_pairs_encode data : byte_list data -> hex_pairs (bytes_to_hex data) = Ret data.
Proof.
  unfold bytes_to_hex. induction 1 as [|b data Hb _ IH]; [done|].
  cbn [flat_map app hex_pairs]. destruct (hex_byte b Hb) as (H1 & H2 & H3).
  rewrite (proj2 (Z.ltb_ge _ _) H1), (proj2 (Z.ltb_ge _ _) H2). cbn [orb].
  by rewrite IH, H3.
Qed.

(** [hex_decode] undoes [hex_encode] on every string. *)
Theorem hex_roundtrip data :
  byte_list data ->
  exists text, hash_hex_encode [LString data] = Ret [LString text] /\
    length text = (2 * length data)%nat /\
    hash_hex_decode [LString text] = Ret [LString data].
Proof.
  intros Hd. exists (bytes_to_hex data).
  assert (Hl : length (bytes_to_hex data) = (2 * length data)%nat).
  { unfold bytes_to_hex. clear Hd. induction data; cbn [flat_map app length] in *; lia. }
  split; [done|]. split; [done|]. unfold hash_hex_decode. cbn [get_hash_data index2addr].
  cbn [outcome_bind lookup list_lookup]. change (get_hash_data _ 1) with (Ret (bytes_to_hex data)).
  cbn [outcome_bind]. rewrite Hl, Nat.mul_comm, Nat.Div0.mod_mul. cbn [Nat.eqb negb].
  by rewrite hex_pairs_encode.
Qed.

(** The lower-case form of a hexadecimal digit. *)
Definition lower (c : Z) : Z := if (65 <=? c) && (c <=? 70) then c + 32 else c.

Lemma hex_digit c :
  in_u 8 c -> 0 <= hex_char_to_val c ->
  hex_char_to_val c < 16 /\ hex_chars !!! Z.to_nat (hex_char_to_val c) = lower c.
Proof.
  intros Hc Hv. set (f := fun c => (hex_char_to_val c <? 0) ||
    ((hex_char_to_val c <? 16) && (hex_chars !!! Z.to_nat (hex_char_to_val c) =? lower c))).
  assert (Hf : f c = true) by (apply (bytes_forall f); [vm_compute; reflexivity|done]).
  unfold f in Hf. rewrite (proj2 (Z.ltb_ge _ _) Hv) in Hf. cbn [orb] in Hf. bool_simpl. done.
Qed.

Lemma hex_pair_byte hi lo :
  0 <= hi < 16 -> 0 <= lo < 16 ->
  let b := u8 (Z.lor (Z.shiftl hi 4) lo) in
  in_u 8 b /\ shr_u b 4 = hi /\ Z.land b 0x0F = lo.
Proof.
  intros Hhi Hlo. cbn zeta. split; [auto with word|].
  set (f := fun b => let hi := shr_u b 4 in let lo := Z.land b 15 in
    let c := u8 (Z.lor (Z.shiftl hi 4) lo) in (shr_u c 4 =? hi) && (Z.land c 0x0F =? lo)).
  assert (E : exists b, in_u 8 b /\ shr_u b 4 = hi /\ Z.land b 15 = lo).
  { exists (hi * 16 + lo). split; [unfold in_u; lia|]. unfold shr_u. change 15 with (Z.ones 4).
    rewrite Z.shiftr_div_pow2, Z.land_ones by lia. change (2 ^ 4) with 16.
    split; [symmetry; apply (Z.div_unique _ _ _ lo); lia|].
    symmetry; apply (Z.mod_unique _ _ hi); lia. }
  destruct E as (b & Hb & <- & <-).
  assert (Hf : f b = true) by (apply (bytes_forall f); [vm_compute; reflexivity|done]).
  unfold f in Hf. cbv zeta in Hf. bool_simpl. done.
Qed.

(** What [hex_decode] accepts is exactly the strings of hexadecimal
    digits of even length: encoding the result gives the input back in lower
    case, and every other string is one of the two errors. *)
Theorem hex_decode_spec text :
  byte_list text ->
  match hash_hex_decode [LString text] with
  | Ret [LString data] =>
      byte_list data /\ Forall (fun c => 0 <= hex_char_to_val c) text /\
      bytes_to_hex data = map lower text
  | Throw (RunError m) =>
      (length text mod 2 <> 0)%nat /\ m = "invalid hex string length"%string \/
      (length text mod 2 = 0)%nat /\ m = "invalid hex character in string"%string /\
        Exists (fun c => hex_char_to_val c < 0) text
  | _ => False
  end.
Proof.
  intros Ht. unfold hash_hex_decode. change (get_hash_data _ 1) with (Ret text). cbn [outcome_bind].
  destruct (Nat.eqb_spec (length text mod 2) 0) as [Hm|Hm]; cbn [negb]; [|by left].
  assert (Hgen : match hex_pairs text with
    | Ret data => byte_list data /\ Forall (fun c => 0 <= hex_char_to_val c) text /\
        bytes_to_hex data = map lower text
    | Throw (RunError m) => m = "invalid hex character in string"%string /\
        Exists (fun c => hex_char_to_val c < 0) text
    | _ => False end).
  { remember (length text) as n eqn:En. revert text Ht En Hm.
    induction (lt_wf n) as [n _ IH]. intros [|c1 [|c2 rest]] Ht En Hm; cbn [hex_pairs].
    { by split_and!; try constructor. }
    { subst n. done. }
    inversion_clear Ht as [|? ? H1 Ht']. inversion_clear Ht' as [|? ? H2 Ht].
    destruct (Z.ltb_spec (hex_char_to_val c1) 0); cbn [orb].
    { split; [done|]. by left. }
    destruct (Z.ltb_spec (hex_char_to_val c2) 0); cbn [orb].
    { split; [done|]. right. by left. }
    cbn [length] in En. specialize (IH (length rest) ltac:(lia) rest Ht eq_refl).
    replace n with (length rest + 1 * 2)%nat in Hm by lia.
    rewrite Nat.Div0.mod_add in Hm. specialize (IH Hm).
    destruct (hex_pairs rest) as [out|[| |m]|]; try done; cbn [outcome_bind].
    - destruct IH as (Ho & Hf & Hr). destruct (hex_digit c1) as [Hv1 Hc1]; [done..|].
      destruct (hex_digit c2) as [Hv2 Hc2]; [done..|].
      destruct (hex_pair_byte (hex_char_to_val c1) (hex_char_to_val c2)) as (Hb & Hhi & Hlo); [lia..|].
      split_and!; [by constructor|by repeat constructor|].
      cbn [bytes_to_hex flat_map app map]. rewrite Hhi, Hlo, Hc1, Hc2. do 2 f_equal. exact Hr.
    - destruct IH as [-> He]. split; [done|]. right. by right. }
  destruct (hex_pairs text) as [data|[| |m]|]; try done; cbn [outcome_bind lua_pushlstring].
  right. by destruct Hgen.
Qed.

(** * Base64 *)

Lemma length_b64_table : length b64_table = 64%nat.
Proof. reflexivity. Qed.

Lemma b64_digit d :
  0 <= d < 64 -> dtable (b64_table !!! Z.to_nat d) = d /\ b64_table !!! Z.to_nat d <> 61.
Proof.
  intros Hd. set (f := fun d => (63 <? d) ||
    ((dtable (b64_table !!! Z.to_nat d) =? d) && negb (b64_table !!! Z.to_nat d =? 61))).
  assert (Hf : f d = true).
  { apply (bytes_forall f); [vm_compute; reflexivity|unfold in_u; lia]. }
  unfold f in Hf. rewrite (proj2 (Z.ltb_ge _ _)) in Hf by lia. cbn [orb] in Hf. bool_simpl. done.
Qed.

(** One digit through the decoder. *)
Lemma b64_loop_digit d rest buffer bits :
  0 <= d < 64 ->
  b64_loop (b64_table !!! Z.to_nat d :: rest) buffer bits =
    let buffer := Z.lor (shl_u 32 buffer 6) d in
    if 8 <=? bits + 6 then
      Z.land (shr_u buffer (bits + 6 - 8)) 0xFF :: b64_loop rest buffer (bits + 6 - 8)
    else b64_loop rest buffer (bits + 6).
Proof.
  intros Hd. destruct (b64_digit d Hd) as [Hv Hne]. cbn [b64_loop].
  rewrite (proj2 (Z.eqb_neq _ _) Hne), Hv. by rewrite (proj2 (Z.ltb_ge d 0)) by lia.
Qed.

Definition digit_of (triple s : Z) : Z := Z.land (shr_u triple s) 0x3F.

Lemma digit_of_range t s : 0 <= digit_of t s < 64.
Proof.
  unfold digit_of. change 0x3F with (Z.ones 6). rewrite Z.land_ones by lia.
  apply Z.mod_pos_bound. lia.
Qed.

Definition triple_of (a b c : Z) : Z := Z.lor (Z.lor (shl_u 32 a 16) (shl_u 32 b 8)) c.

(** The bytes that two, three and four digits of a group carry, whatever the
    decoder's buffer held before. *)
Lemma group_bytes buf a b c :
  in_u 8 a -> in_u 8 b -> in_u 8 c ->
  let t := triple_of a b c in
  let buf2 := Z.lor (shl_u 32 (Z.lor (shl_u 32 buf 6) (digit_of t 18)) 6) (digit_of t 12) in
  let buf3 := Z.lor (shl_u 32 buf2 6) (digit_of t 6) in
  let buf4 := Z.lor (shl_u 32 buf3 6) (digit_of t 0) in
  Z.land (shr_u buf2 4) 0xFF = a /\ Z.land (shr_u buf3 2) 0xFF = b /\ Z.land (shr_u buf4 0) 0xFF = c.
Proof.
  intros Ha Hb Hc. cbn zeta. unfold triple_of, digit_of.
  rewrite <- (cast_u_id 8 a Ha), <- (cast_u_id 8 b Hb), <- (cast_u_id 8 c Hc).
  change 0xFF with (Z.ones 8). change 0x3F with (Z.ones 6).
  assert (H8 : in_u 8 (Z.ones 8)) by done.
  split_and!; byte_bits.
Qed.

Lemma b64_quad_shift a b c rest k :
  b64_quad (a :: b :: c :: rest) (3 * S k) = b64_quad rest (3 * k).
Proof.
  assert (Hlt : forall j, (3 * S k + j <? length (a :: b :: c :: rest))%nat = (3 * k + j <? length rest)%nat).
  { intros j. cbn [length]. replace (3 * S k + j)%nat with (S (S (S (3 * k + j)))) by lia. reflexivity. }
  assert (Hget : forall j, (a :: b :: c :: rest) !!! (3 * S k + j)%nat = rest !!! (3 * k + j)%nat).
  { intros j. by replace (3 * S k + j)%nat with (S (S (S (3 * k + j)))) by lia. }
  unfold b64_quad. by rewrite !Hlt, !Hget.
Qed.

Lemma base64_encode_cons a b c rest :
  base64_encode (a :: b :: c :: rest) = b64_quad (a :: b :: c :: rest) 0 ++ base64_encode rest.
Proof.
  unfold base64_encode. cbn [length].
  replace (S (S (S (length rest))) + 2)%nat with (length rest + 2 + 1 * 3)%nat by lia.
  rewrite Nat.div_add, Nat.add_1_r by lia. cbn [seq flat_map]. f_equal.
  rewrite <- seq_shift, flat_map_concat_map, map_map, <- flat_map_concat_map.
  apply flat_map_ext. intros k. apply b64_quad_shift.
Qed.

(** The group of one, two or three bytes at the front. *)
Lemma b64_quad_front a b c rest :
  let t := triple_of a b c in
  let digit s := b64_table !!! Z.to_nat (digit_of t s) in
  b64_quad (a :: b :: c :: rest) 0 = [digit 18; digit 12; digit 6; digit 0].
Proof. reflexivity. Qed.

Lemma b64_quad_two a b :
  let t := triple_of a b 0 in
  let digit s := b64_table !!! Z.to_nat (digit_of t s) in
  b64_quad [a; b] 0 = [digit 18; digit 12; digit 6; 61].
Proof. reflexivity. Qed.

Lemma b64_quad_one a :
  let t := triple_of a 0 0 in
  let digit s := b64_table !!! Z.to_nat (digit_of t s) in
  b64_quad [a] 0 = [digit 18; digit 12; 61; 61].
Proof. reflexivity. Qed.

Lemma b64_loop_phases d rest buf :
  0 <= d < 64 ->
  let next := Z.lor (shl_u 32 buf 6) d in
  let digit := b64_table !!! Z.to_nat d in
  b64_loop (digit :: rest) buf 0 = b64_loop rest next 6 /\
  b64_loop (digit :: rest) buf 6 = Z.land (shr_u next 4) 0xFF :: b64_loop rest next 4 /\
  b64_loop (digit :: rest) buf 4 = Z.land (shr_u next 2) 0xFF :: b64_loop rest next 2 /\
  b64_loop (digit :: rest) buf 2 = Z.land (shr_u next 0) 0xFF :: b64_loop rest next 0.
Proof. intros Hd. cbv zeta. split_and!; rewrite b64_loop_digit by done; reflexivity. Qed.

Lemma b64_loop_stop rest buf bits : b64_loop (61 :: rest) buf bits = [].
Proof. reflexivity. Qed.

(** Read digits off the front while any is left. *)
Ltac b64_digits :=
  repeat match goal with
  | |- context [b64_loop (b64_table !!! Z.to_nat (digit_of ?t ?s) :: ?rest) ?buf ?bits] =>
      let H := fresh in
      pose proof (b64_loop_phases (digit_of t s) rest buf (digit_of_range t s)) as H;
      cbv zeta in H; destruct H as (? & ? & ? & ?);
      match goal with
      | E : b64_loop (_ :: rest) buf bits = _ |- _ => rewrite E
      end;
      repeat match goal with E : b64_loop (_ :: rest) buf _ = _ |- _ => clear E end
  end.

Lemma b64_loop_encode data buffer :
  byte_list data -> b64_loop (base64_encode data) buffer 0 = data.
Proof.
  remember (length data) as n eqn:En. revert data buffer En.
  induction (lt_wf n) as [n _ IH].
  intros [|a [|b [|c rest]]] buffer En Hd; subst n; [done|..].
  - inversion_clear Hd as [|? ? Ha _]. change (base64_encode [a]) with (b64_quad [a] 0).
    rewrite b64_quad_one. cbv zeta. b64_digits. rewrite b64_loop_stop. f_equal.
    by apply (group_bytes buffer a 0 0).
  - inversion_clear Hd as [|? ? Ha Hd']. inversion_clear Hd' as [|? ? Hb _].
    change (base64_encode [a; b]) with (b64_quad [a; b] 0).
    rewrite b64_quad_two. cbv zeta. b64_digits. rewrite b64_loop_stop.
    destruct (group_bytes buffer a b 0) as (H1 & H2 & _); [done..|]. cbv zeta in H1, H2.
    by rewrite H1, H2.
  - inversion_clear Hd as [|? ? Ha Hd']. inversion_clear Hd' as [|? ? Hb Hd].
    inversion_clear Hd as [|? ? Hc Hr].
    rewrite base64_encode_cons, b64_quad_front. cbv zeta. cbn [app]. b64_digits.
    destruct (group_bytes buffer a b c) as (H1 & H2 & H3); [done..|]. cbv zeta in H1, H2, H3.
    rewrite H1, H2, H3. do 3 f_equal. apply (IH (length rest)); [cbn; lia|done|done].
Qed.

(** C39. [base64_decode] undoes [base64_encode] on every string; the text has
    four characters for every three bytes begun. *)
Theorem base64_roundtrip data :
  byte_list data ->
  exists text, hash_base64_encode [LString data] = Ret [LString text] /\
    length text = (4 * ((length data + 2) / 3))%nat /\
    hash_base64_decode [LString text] = Ret [LString data].
Proof.
  intros Hd. exists (base64_encode data). split; [done|]. split.
  - unfold base64_encode. rewrite (flat_map_constant_length (c := 4)) by done.
    by rewrite length_seq, Nat.mul_comm.
  - unfold hash_base64_decode. change (get_hash_data _ 1) with (Ret (base64_encode data)).
    cbn [outcome_bind]. unfold base64_decode. by rewrite b64_loop_encode.
Qed.

(** * HMAC *)

(** RFC 2104. *)
Definition hmac_spec (block : nat) (H : list Z -> list Z) (key msg : list Z) : list Z :=
  let k := if (block <? length key)%nat then H key else key in
  let k := k ++ replicate (block - length k) 0 in
  H (map (fun x => Z.lxor x 0x5C) k ++ H (map (fun x => Z.lxor x 0x36) k ++ msg)).

Lemma write_front_app src n :
  (length src <= n)%nat -> write_front src (replicate n 0) = src ++ replicate (n - length src) 0.
Proof.
  intros Hl. unfold write_front. apply list_eq. intros i. destruct (decide (i < length src)%nat).
  - by rewrite list_lookup_inserts, Nat.sub_0_r, lookup_app_l by (rewrite ?length_replicate; lia).
  - rewrite list_lookup_inserts_ge, lookup_app_r by lia.
    destruct (decide (i < n)%nat).
    + by rewrite !lookup_replicate_2 by lia.
    + by rewrite !lookup_ge_None_2 by (rewrite length_replicate; lia).
Qed.

Lemma compute_hmac_spec block H n key msg :
  (forall m, length (H m) = n) -> (n <= block)%nat ->
  compute_hmac block H n key msg = hmac_spec block H key msg.
Proof.
  intros HH Hn. unfold compute_hmac, hmac_spec.
  rewrite (write_front_app (H _) n), HH, Nat.sub_diag, app_nil_r by (rewrite HH; lia).
  destruct (Nat.ltb_spec block (length key)); by rewrite write_front_app by (rewrite ?HH; lia).
Qed.

Section Digests.
Context `{Uninit}.

Lemma length_md5 data : length (MD5.compute_md5 data) = 16%nat.
Proof. unfold MD5.compute_md5. repeat case_match; reflexivity. Qed.
Lemma length_sha1 data : length (SHA1.compute_sha1 data) = 20%nat.
Proof. unfold SHA1.compute_sha1. repeat case_match; reflexivity. Qed.
Lemma length_sha224 data : length (SHA256.compute_sha224 data) = 28%nat.
Proof. unfold SHA256.compute_sha224. repeat case_match; reflexivity. Qed.
Lemma length_sha256 data : length (SHA256.compute_sha256 data) = 32%nat.
Proof. unfold SHA256.compute_sha256. repeat case_match; reflexivity. Qed.
Lemma length_sha384 data : length (SHA512.compute_sha384 data) = 48%nat.
Proof. unfold SHA512.compute_sha384. repeat case_match; reflexivity. Qed.
Lemma length_sha512 data : length (SHA512.compute_sha512 data) = 64%nat.
Proof. unfold SHA512.compute_sha512. repeat case_match; reflexivity. Qed.

Lemma digest_bytes data :
  byte_list (MD5.compute_md5 data) /\ byte_list (SHA1.compute_sha1 data) /\
  byte_list (SHA256.compute_sha224 data) /\ byte_list (SHA256.compute_sha256 data) /\
  byte_list (SHA512.compute_sha384 data) /\ byte_list (SHA512.compute_sha512 data).
Proof.
  assert (Hf : forall (f : Z -> list Z) l, (forall x, byte_list (f x)) -> byte_list (flat_map f l)).
  { intros f l Hx. induction l as [|y l IH]; [constructor|]. cbn [flat_map].
    apply Forall_app. split; [apply Hx|exact IH]. }
  destruct (digests_eq data) as (-> & -> & -> & -> & -> & ->).
  split_and!; apply Hf; auto with word.
Qed.
End Digests.

Section Hmac.
Context `{Uninit}.

(** The four HMAC functions compute RFC 2104 over their digest, for keys
    shorter and longer than the block, and the result has the length of
    the digest. *)
Theorem hmac_refines key msg :
  hmac_md5 key msg = hmac_spec 64 MD5.compute_md5 key msg /\
  hmac_sha1 key msg = hmac_spec 64 SHA1.compute_sha1 key msg /\
  hmac_sha256 key msg = hmac_spec 64 SHA256.compute_sha256 key msg /\
  compute_hmac_sha512 key msg = hmac_spec 128 SHA512.compute_sha512 key msg /\
  length (hmac_md5 key msg) = 16%nat /\ length (hmac_sha1 key msg) = 20%nat /\
  length (hmac_sha256 key msg) = 32%nat /\ length (compute_hmac_sha512 key msg) = 64%nat.
Proof.
  unfold hmac_md5, hmac_sha1, hmac_sha256, compute_hmac_sha512.
  split_and!;
    [apply compute_hmac_spec; [exact length_md5|lia]
    |apply compute_hmac_spec; [exact length_sha1|lia]
    |apply compute_hmac_spec; [exact length_sha256|lia]
    |apply compute_hmac_spec; [exact length_sha512|lia]
    |exact (length_md5 _)|exact (length_sha1 _)|exact (length_sha256 _)|exact (length_sha512 _)].
Qed.
End Hmac.

(** Known answers: the abc vectors of the digests (RFC 1321, FIPS 180-4),
    the test cases of RFC 2202 and RFC 4231 for HMAC, the check value of
    CRC-32, an FNV-1a vector, the RFC 4648 vectors of base64 and the block of
    RFC 7539 for ChaCha20. *)
Theorem hash_known_answers :
  let abc := chars "abc" in
  let jefe := chars "Jefe" in
  let what := chars "what do ya want for nothing?" in
  be_combine (MD5.compute_md5 abc) = 0x900150983cd24fb0d6963f7d28e17f72 /\
  be_combine (SHA1.compute_sha1 abc) = 0xa9993e364706816aba3e25717850c26c9cd0d89d /\
  be_combine (SHA256.compute_sha224 abc) =
    0x23097d223405d8228642a477bda255b32aadbce4bda0b3f7e36c9da7 /\
  be_combine (SHA256.compute_sha256 abc) =
    0xba7816bf8f01cfea414140de5dae2223b00361a396177a9cb410ff61f20015ad /\
  be_combine (SHA512.compute_sha384 abc) =
    0xcb00753f45a35e8bb5a03d699ac65007272c32ab0eded1631a8b605a43ff5bed8086072ba1e7cc2358baeca134c825a7 /\
  be_combine (SHA512.compute_sha512 abc) =
    0xddaf35a193617abacc417349ae20413112e6fa4e89a97ea20a9eeee64b55d39a2192992a274fc1a836ba3c23a3feebbd454d4423643ce80e2a9ac94fa54ca49f /\
  be_combine (hmac_md5 jefe what) = 0x750c783e6ab0b503eaa86e310a5db738 /\
  be_combine (hmac_sha1 jefe what) = 0xeffcdf6ae5eb2fa2d27416d5f184df9c259a7c79 /\
  be_combine (hmac_sha256 jefe what) =
    0x5bdcc146bf60754e6a042426089575c75a003f089d2739839dec58b964ec3843 /\
  be_combine (compute_hmac_sha512 jefe what) =
    0x164b7a7bfcf819e2e395fbe73b56e0a387bd64222e831fd610270cd7ea2505549758bf75c05a994a6d034f65f8f0e6fdcaeab1a34d4a6b4b636e070a38bce737 /\
  crc32 (chars "123456789") = 0xCBF43926 /\
  fnv1a (chars "a") = 0xaf63dc4c8601ec8c /\
  base64_encode (chars "fooba") = chars "Zm9vYmE=" /\
  base64_decode (chars "Zm9v YmFy") = chars "foobar" /\
  bytes_to_hex (take 16 (chacha20_block (map (load32_le (map Z.of_nat (seq 0 32))) (seq 0 8))
    (map (load32_le [0; 0; 0; 9; 0; 0; 0; 0x4a; 0; 0; 0; 0]) (seq 0 3)) 1))
    = chars "10f1e7e4d13b5915500fdd1fa32071c4".
Proof. cbv zeta. split_and!; vm_compute; reflexivity. Qed.

(** * Comparison *)

Lemma diff_zero a b acc :
  length a = length b -> Forall (fun x => 0 <= x) a -> Forall (fun x => 0 <= x) b -> 0 <= acc ->
  (fold_left (fun diff xy => Z.lor diff (Z.lxor xy.1 xy.2)) (zip a b) acc = 0 <-> acc = 0 /\ a = b).
Proof.
  revert b acc. induction a as [|x a IH]; intros [|y b] acc Hl Ha Hb Hacc; try done; cbn [zip zip_with fold_left].
  - by split; [|intros []].
  - inversion_clear Ha as [|? ? Hx Ha']. inversion_clear Hb as [|? ? Hy Hb']. injection Hl as Hl.
    assert (0 <= Z.lxor x y) by (by apply Z.lxor_nonneg).
    rewrite IH; [|done..|by apply Z.lor_nonneg]. cbn [fst snd].
    rewrite Z.lor_eq_0_iff, Z.lxor_eq_0_iff. split; [intros [[-> ->] ->]; done|].
    intros [-> [= -> ->]]. done.
Qed.

(** [timing_safe_equal] is equality of the two strings, and on strings of
    the same length it looks at every byte. *)
Theorem timing_safe_equal_spec a b :
  byte_list a -> byte_list b ->
  hash_timing_safe_equal [LString a; LString b] = Ret [LBoolean (bool_decide (a = b))].
Proof.
  intros Ha Hb. unfold hash_timing_safe_equal.
  change (get_hash_data _ 1) with (Ret a). change (get_hash_data _ 2) with (Ret b).
  cbn [outcome_bind]. destruct (Nat.eqb_spec (length a) (length b)) as [Hl|Hl]; cbn [negb].
  - unfold lua_pushboolean. do 3 f_equal. apply Bool.eq_iff_eq_true.
    rewrite Z.eqb_eq, bool_decide_eq_true, diff_zero; [by split; [intros []|]|done| | |done].
    + eapply Forall_impl; [exact Ha|]. by intros ? [].
    + eapply Forall_impl; [exact Hb|]. by intros ? [].
  - rewrite bool_decide_eq_false_2; [done|]. congruence.
Qed.

(** * ChaCha20 *)

Section ChaCha.
Variables (key nonce : list Z) (c0 : Z).

(** Byte [j] of the key stream: byte [j mod 64] of block [c0 + j / 64]. *)
Definition keystream (j : nat) : Z :=
  chacha20_block key nonce (u32 (c0 + Z.of_nat (j / 64))) !!! (j mod 64)%nat.

Definition xor_stream (data : list Z) : list Z := imap (fun j x => Z.lxor x (keystream j)) data.

Lemma xor_stream_involutive data : xor_stream (xor_stream data) = data.
Proof.
  apply list_eq. intros j. unfold xor_stream. rewrite !list_lookup_imap.
  destruct (data !! j) as [x|]; cbn; [|done].
  by rewrite Z.lxor_assoc, Z.lxor_nilpotent, Z.lxor_0_r.
Qed.

Lemma xor_stream_total data j :
  (j < length data)%nat -> xor_stream data !! j = Some (Z.lxor (data !!! j) (keystream j)).
Proof.
  intros Hj. unfold xor_stream. rewrite list_lookup_imap.
  destruct (lookup_lt_is_Some_2 data j Hj) as [x Hx]. rewrite Hx. cbn.
  by rewrite (list_lookup_total_correct _ _ _ Hx).
Qed.

(** The loop terminates within one unit of fuel per byte and computes the
    exclusive or with the key stream. *)
Lemma chacha20_loop_spec fuel data k offset result :
  offset = Nat.min (64 * k) (length data) ->
  length result = length data ->
  (forall j, (j < offset)%nat -> result !! j = xor_stream data !! j) ->
  (length data - offset <= fuel)%nat ->
  chacha20_loop fuel key nonce data (u32 (c0 + Z.of_nat k)) offset result
    = Some (xor_stream data).
Proof.
  revert k offset result. induction fuel as [|fuel IH]; intros k offset result Ho Hl Hr Hf;
    cbn [chacha20_loop]; destruct (Nat.ltb_spec offset (length data)); try lia.
  1, 3: f_equal; apply list_eq; intros j; destruct (decide (j < offset)%nat);
    [by apply Hr|by rewrite !lookup_ge_None_2 by (unfold xor_stream; rewrite ?length_imap; lia)].
  set (chunk := if (length data - offset <? 64)%nat then (length data - offset)%nat else 64%nat).
  assert (Hc : chunk = Nat.min 64 (length data - offset)).
  { unfold chunk. destruct (Nat.ltb_spec (length data - offset) 64); lia. }
  set (out := map _ (seq 0 chunk)).
  assert (Hlo : length out = chunk) by (unfold out; by rewrite length_map, length_seq).
  unfold add_u. rewrite cast_u_add_l.
  replace (c0 + Z.of_nat k + 1) with (c0 + Z.of_nat (S k)) by lia.
  apply IH; [lia|by rewrite length_inserts| |lia].
  intros j Hj. destruct (decide (j < offset)%nat).
  { rewrite list_lookup_inserts_lt by done. by apply Hr. }
  rewrite list_lookup_inserts, xor_stream_total by lia. unfold out.
  rewrite lookup_map_seq by lia. f_equal. f_equal; [f_equal; lia|].
  unfold keystream. assert (Hj' : j = (j - offset + k * 64)%nat) by lia.
  assert (Hd : (j / 64 = k /\ j mod 64 = j - offset)%nat).
  { rewrite Hj' at 1 2. rewrite Nat.div_add, Nat.Div0.mod_add, Nat.div_small, Nat.mod_small by lia. lia. }
  by destruct Hd as [-> ->].
Qed.
End ChaCha.

Lemma crypto_chacha20_eq `{Target} k n p c :
  length k = 32%nat -> length n = 12%nat ->
  crypto_chacha20 [LString k; LString n; LString p; LNumber c] =
    Ret [LString (xor_stream (map (load32_le k) (seq 0 8)) (map (load32_le n) (seq 0 3))
                    (u32 (luai_num2int c)) p)].
Proof.
  intros Hk Hn. unfold crypto_chacha20.
  change (get_hash_data _ 1) with (Ret k). change (get_hash_data _ 2) with (Ret n).
  change (get_hash_data _ 3) with (Ret p). cbn [outcome_bind].
  change (luaL_optinteger _ 4 1) with (Ret (luai_num2int c)). cbn [outcome_bind].
  rewrite Hk, Hn. cbn [Nat.eqb luaL_argcheck outcome_bind].
  assert (Hc : u32 (luai_num2int c) = u32 (u32 (luai_num2int c) + Z.of_nat 0)).
  { by rewrite Z.add_0_r, cast_u_idemp by lia. }
  revert Hc. generalize (u32 (luai_num2int c)). intros c0 Hc.
  generalize (map (load32_le k) (seq 0 8)), (map (load32_le n) (seq 0 3)). intros key nonce.
  assert (E : chacha20_loop (length p) key nonce p c0 0 (replicate (length p) 0)
              = Some (xor_stream key nonce c0 p)).
  { transitivity (chacha20_loop (length p) key nonce p (u32 (c0 + Z.of_nat 0)) 0
                    (replicate (length p) 0)); [by rewrite <- Hc|].
    apply chacha20_loop_spec; [by rewrite Nat.mul_0_r, Nat.min_0_l|apply length_replicate|lia|lia]. }
  rewrite E. reflexivity.
Qed.

(** C40. The ChaCha20 loop always ends, output byte [j] is input byte [j] xored
    with byte [j mod 64] of the block of counter [c + j / 64] modulo [2^32],
    and encrypting twice with the same key, nonce and counter gives the
    message back. *)
Theorem chacha20_spec `{Target} k n p c :
  length k = 32%nat -> length n = 12%nat ->
  let key := map (load32_le k) (seq 0 8) in
  let nonce := map (load32_le n) (seq 0 3) in
  exists ct, crypto_chacha20 [LString k; LString n; LString p; LNumber c] = Ret [LString ct] /\
    length ct = length p /\
    (forall j, (j < length p)%nat ->
       ct !!! j = Z.lxor (p !!! j)
         (chacha20_block key nonce (u32 (luai_num2int c + Z.of_nat (j / 64))) !!! (j mod 64)%nat)) /\
    crypto_chacha20 [LString k; LString n; LString ct; LNumber c] = Ret [LString p].
Proof.
  intros Hk Hn. cbv zeta. eexists. rewrite crypto_chacha20_eq by done. split; [done|].
  split_and!.
  - unfold xor_stream. apply length_imap.
  - intros j Hj. rewrite (list_lookup_total_correct _ _ _ (xor_stream_total _ _ _ p j Hj)).
    unfold keystream. by rewrite cast_u_add_l.
  - rewrite crypto_chacha20_eq by done. by rewrite xor_stream_involutive.
Qed.

(** * Random bytes *)

(** What the device delivered before the first empty [read]. *)
Fixpoint delivered (reads : list (list Z)) : list Z :=
  match reads with
  | [] | [] :: _ => []
  | r :: reads' => r ++ delivered reads'
  end.

Lemma random_loop_spec reads got count :
  (length got <= count)%nat ->
  random_loop reads (got ++ replicate (count - length got) 0) (length got) count =
    let all := take count (got ++ delivered reads) in all ++ replicate (count - length all) 0.
Proof.
  cbv zeta. revert got. induction reads as [|r reads IH]; intros got Hg; cbn [random_loop delivered].
  { by rewrite app_nil_r, firstn_all2. }
  destruct (Nat.ltb_spec (length got) count).
  2: { rewrite take_app_le, firstn_all2 by lia. done. }
  destruct (Nat.eqb_spec (length (take (count - length got) r)) 0) as [E|E]; rewrite length_take in E.
  { destruct r as [|x r]; [by rewrite app_nil_r, firstn_all2|]. cbn [length] in E. lia. }
  set (res := take (count - length got) r).
  assert (Hi : list_inserts (length got) res (got ++ replicate (count - length got) 0)
    = (got ++ res) ++ replicate (count - length (got ++ res)) 0).
  { assert (Hr : length res = Nat.min (count - length got) (length r)) by apply length_take.
    apply list_eq. intros i. rewrite length_app.
    destruct (decide (i < length got)%nat).
    - rewrite list_lookup_inserts_lt, <- app_assoc, !lookup_app_l by done. done.
    - destruct (decide (i < length got + length res)%nat).
      + rewrite list_lookup_inserts by (rewrite ?length_app, ?length_replicate; lia).
        by rewrite lookup_app_l, lookup_app_r by (rewrite ?length_app; lia).
      + rewrite list_lookup_inserts_ge, !lookup_app_r by (rewrite ?length_app; lia).
        rewrite length_app. destruct (decide (i < count)%nat).
        * by rewrite !lookup_replicate_2 by lia.
        * by rewrite !lookup_ge_None_2 by (rewrite length_replicate; lia). }
  rewrite Hi, <- length_app, IH by (rewrite length_app; unfold res; rewrite length_take; lia).
  destruct r as [|x r]; [cbn in E; lia|].
  assert (Ht : take count ((got ++ res) ++ delivered reads)
             = take count (got ++ (x :: r) ++ delivered reads)).
  { rewrite <- app_assoc, !(take_app_ge got) by lia. f_equal. unfold res.
    destruct (decide (length (x :: r) <= count - length got)%nat).
    - by rewrite (firstn_all2 (x :: r)) by done.
    - rewrite !take_app_le by (rewrite ?length_take; lia). by rewrite take_take, Nat.min_id. }
  by rewrite Ht.
Qed.

(** [random_bytes n] returns [n] bytes: those the device delivered, then
    zeros; a device that cannot be opened, or a failed read, is not reported
    and gives zeros. *)
Theorem random_bytes_spec `{Target} urandom count :
  0 < count <= 1048576 ->
  hash_random_bytes urandom [LNumber (double_of_Z count)] =
    (let got := match urandom with Some reads => take (Z.to_nat count) (delivered reads) | None => [] end in
     Ret [LString (got ++ replicate (Z.to_nat count - length got) 0)]).
Proof.
  intros Hc. unfold hash_random_bytes. change (luaL_checkinteger _ 1) with (Ret (luai_num2int (double_of_Z count))).
  rewrite luai_num2int_of_Z by (unfold in_s; lia). cbn [outcome_bind].
  rewrite (proj2 (Z.ltb_lt 0 count)), (proj2 (Z.leb_le count _)) by lia.
  cbn [andb luaL_argcheck outcome_bind]. cbv zeta. unfold lua_pushlstring.
  destruct urandom as [reads|].
  - pose proof (random_loop_spec reads [] (Z.to_nat count) ltac:(cbn; lia)) as Hs.
    cbn [length app] in Hs. rewrite Nat.sub_0_r in Hs. by rewrite Hs.
  - cbn [length app]. by rewrite Nat.sub_0_r.
Qed.

(** * The theorems at concrete values *)

Lemma crc32_detects_burst_witness :
  crc32 ([1; 2] ++ [3; 4; 5] ++ [6]) <> crc32 ([1; 2] ++ [3; 4; 7] ++ [6]).
Proof.
  intros E. enough ([3; 4; 5] = [3; 4; 7]) by discriminate.
  apply (crc32_detects_burst [1; 2] _ _ [6]); try exact E; try reflexivity;
    by repeat constructor.
Defined.

Lemma crc32_residue_witness : crc32 ([49; 50] ++ le_split 4 (crc32 [49; 50])) = 0x2144DF1C.
Proof. apply (crc32_residue [49; 50]). by repeat constructor. Defined.

Lemma hex_roundtrip_witness :
  exists text, hash_hex_encode [LString [0xde; 0xad]] = Ret [LString text] /\
    hash_hex_decode [LString text] = Ret [LString [0xde; 0xad]].
Proof.
  destruct (hex_roundtrip [0xde; 0xad]) as (text & H1 & _ & H2); [by repeat constructor|].
  by exists text.
Defined.

Lemma hex_decode_spec_witness :
  hash_hex_decode [LString (chars "DEad")] = Ret [LString [0xde; 0xad]] /\
  bytes_to_hex [0xde; 0xad] = map lower (chars "DEad").
Proof.
  pose proof (hex_decode_spec (chars "DEad")) as H.
  change (hash_hex_decode [LString (chars "DEad")]) with
    (Ret (A := list TValue) [LString [0xde; 0xad]]) in *.
  split; [done|]. apply H. by repeat constructor.
Defined.

Lemma base64_roundtrip_witness :
  exists text, hash_base64_encode [LString (chars "fooba")] = Ret [LString text] /\
    length text = 8%nat /\
    hash_base64_decode [LString text] = Ret [LString (chars "fooba")].
Proof. apply (base64_roundtrip (chars "fooba")). by repeat constructor. Defined.

Lemma timing_safe_equal_spec_witness :
  hash_timing_safe_equal [LString [1; 2; 3]; LString [1; 2; 4]] = Ret [LBoolean false].
Proof. apply (timing_safe_equal_spec [1; 2; 3] [1; 2; 4]); by repeat constructor. Defined.

Lemma chacha20_spec_witness :
  exists ct, crypto_chacha20 [LString (replicate 32 1); LString (replicate 12 2);
      LString (replicate 70 7); LNumber (double_of_Z 1)] = Ret [LString ct] /\ length ct = 70%nat.
Proof.
  destruct (chacha20_spec (replicate 32 1) (replicate 12 2) (replicate 70 7) (double_of_Z 1)
              eq_refl eq_refl) as (ct & H1 & H2 & _). by exists ct.
Defined.

Lemma random_bytes_spec_witness :
  hash_random_bytes None [LNumber (double_of_Z 4)] = Ret [LString [0; 0; 0; 0]] /\
  hash_random_bytes (Some [[1; 2]; [3; 4; 5]]) [LNumber (double_of_Z 4)]
    = Ret [LString [1; 2; 3; 4]].
Proof. split; rewrite (random_bytes_spec _ 4) by lia; reflexivity. Defined.
