(* ===== verification/Tm.v ===== *)
(** Metatables, [VM/src/ltm.cpp], and the errors of [VM/src/ldebug.cpp] that
    name operand types.

    The objects an operation looks at are read through a [heap]: their
    metatables, the string-keyed part of a table ([luaH_getstr]), its length
    ([luaH_getn]), the kind of a closure.  The one thing the modelled code
    writes is the absence cache of a table, [tmcache], a byte with one bit per
    event up to [TM_EQ]. *)
From stdpp Require Import gmap.
From S2P Require Import Prelude Word Double LuaApi.
Open Scope Z_scope.

Inductive TMS :=
  | TM_INDEX | TM_NEWINDEX | TM_MODE | TM_NAMECALL | TM_CALL | TM_ITER | TM_LEN
  | TM_EQ
  | TM_ADD | TM_SUB | TM_MUL | TM_DIV | TM_IDIV | TM_MOD | TM_POW | TM_UNM
  | TM_LT | TM_LE | TM_CONCAT | TM_TYPE | TM_METATABLE.

#[export] Instance TMS_eq_dec : EqDecision TMS.
Proof. solve_decision. Defined.

(** The value of the enumerator. *)
Definition tm_index (e : TMS) : Z :=
  match e with
  | TM_INDEX => 0 | TM_NEWINDEX => 1 | TM_MODE => 2 | TM_NAMECALL => 3
  | TM_CALL => 4 | TM_ITER => 5 | TM_LEN => 6 | TM_EQ => 7
  | TM_ADD => 8 | TM_SUB => 9 | TM_MUL => 10 | TM_DIV => 11 | TM_IDIV => 12
  | TM_MOD => 13 | TM_POW => 14 | TM_UNM => 15
  | TM_LT => 16 | TM_LE => 17 | TM_CONCAT => 18 | TM_TYPE => 19
  | TM_METATABLE => 20
  end.

Definition luaT_eventname (e : TMS) : string :=
  match e with
  | TM_INDEX => "__index" | TM_NEWINDEX => "__newindex" | TM_MODE => "__mode"
  | TM_NAMECALL => "__namecall" | TM_CALL => "__call" | TM_ITER => "__iter"
  | TM_LEN => "__len" | TM_EQ => "__eq"
  | TM_ADD => "__add" | TM_SUB => "__sub" | TM_MUL => "__mul"
  | TM_DIV => "__div" | TM_IDIV => "__idiv" | TM_MOD => "__mod"
  | TM_POW => "__pow" | TM_UNM => "__unm"
  | TM_LT => "__lt" | TM_LE => "__le" | TM_CONCAT => "__concat"
  | TM_TYPE => "__type" | TM_METATABLE => "__metatable"
  end.

(** Names by [ttype], in the build whose vectors hold floats. *)
Definition luaT_typenames : list string :=
  ["nil"; "boolean"; "userdata"; "number"; "integer"; "vector"; "string";
   "table"; "function"; "userdata"; "thread"; "buffer"; "class"; "object"].

(** What the modelled code reads of the objects and of [global_State]; objects
    and tables are named by their addresses, [None] is a null pointer. *)
Record heap := {
  tab_metatable : Z -> option Z;
  tab_getstr : Z -> string -> TValue;
  tab_getn : Z -> Z;
  ud_metatable : Z -> option Z;
  ud_tag : Z -> Z;
  class_metatable : Z -> option Z;
  class_instancemetatable : Z -> option Z;
  obj_lclass : Z -> Z;
  fn_isC : Z -> bool;
  global_mt : Z -> option Z;
  lightuserdataname : Z -> option (list Z);
  tab_tmcache : gmap Z Z;
}.

Definition set_tmcache (h : heap) (c : gmap Z Z) : heap :=
  {| tab_metatable := tab_metatable h; tab_getstr := tab_getstr h;
     tab_getn := tab_getn h; ud_metatable := ud_metatable h;
     ud_tag := ud_tag h; class_metatable := class_metatable h;
     class_instancemetatable := class_instancemetatable h;
     obj_lclass := obj_lclass h; fn_isC := fn_isC h; global_mt := global_mt h;
     lightuserdataname := lightuserdataname h; tab_tmcache := c |}.

(** [events->tmcache]; a table is created with an empty cache. *)
Definition tmcache (h : heap) (t : Z) : Z := default 0 (tab_tmcache h !! t).

(** [luaT_gettm]; [None] is [NULL]. *)
Definition luaT_gettm (h : heap) (events : Z) (event : TMS) : heap * option TValue :=
  let tm := tab_getstr h events (luaT_eventname event) in
  match tm with
  | LNil =>
      (set_tmcache h (<[events := u8 (Z.lor (tmcache h events)
                                            (u8 (Z.shiftl 1 (tm_index event))))]>
                        (tab_tmcache h)), None)
  | _ => (h, Some tm)
  end.

(** [fasttm] and [fastnotm] *)
Definition fasttm (h : heap) (et : option Z) (e : TMS) : heap * option TValue :=
  match et with
  | None => (h, None)
  | Some t =>
      if negb (Z.land (tmcache h t) (Z.shiftl 1 (tm_index e)) =? 0) then (h, None)
      else luaT_gettm h t e
  end.

Definition fastnotm (h : heap) (et : option Z) (e : TMS) : bool :=
  match et with
  | None => true
  | Some t => negb (Z.land (tmcache h t) (Z.shiftl 1 (tm_index e)) =? 0)
  end.

(** [invalidateTMcache], run by every assignment of a string key. *)
Definition invalidateTMcache (h : heap) (t : Z) : heap :=
  set_tmcache h (<[t := 0]> (tab_tmcache h)).

(** The metatable that [luaT_gettmbyobj] selects. *)
Definition mt_of (h : heap) (o : TValue) : option Z :=
  match o with
  | LTable t => tab_metatable h t
  | LUserdata u => ud_metatable h u
  | LClass c => class_metatable h c
  | LObject i => class_instancemetatable h (obj_lclass h i)
  | _ => global_mt h (ttype o)
  end.

Definition luaT_gettmbyobj (h : heap) (o : TValue) (event : TMS) : TValue :=
  match mt_of h o with
  | Some mt => tab_getstr h mt (luaT_eventname event)
  | None => LNil
  end.

(** * Type names and errors *)

Definition UTAG_PROXY : Z := 129.
Definition LUA_LUTAG_LIMIT : Z := 128.

(** The text that [%s] prints of a string: its bytes up to the first NUL. *)
Fixpoint c_string (s : list Z) : string :=
  match s with
  | [] => EmptyString
  | c :: s' => if c =? 0 then EmptyString
               else String (Ascii.ascii_of_N (Z.to_N c)) (c_string s')
  end.

Definition ttname (o : TValue) : list Z :=
  chars (default EmptyString (luaT_typenames !! Z.to_nat (ttype o))).

Definition luaT_objtypenamestr (h : heap) (o : TValue) : list Z :=
  let global_name :=
    match global_mt h (ttype o) with
    | Some mt =>
        match tab_getstr h mt (luaT_eventname TM_TYPE) with
        | LString s => s
        | _ => ttname o
        end
    | None => ttname o
    end in
  match o with
  | LUserdata u =>
      match ud_metatable h u with
      | Some mt =>
          if ud_tag h u =? UTAG_PROXY then global_name
          else match tab_getstr h mt (luaT_eventname TM_TYPE) with
               | LString s => s
               | _ => ttname o
               end
      | None => global_name
      end
  | LLightUserdata p tag =>
      if u32 tag <? LUA_LUTAG_LIMIT then
        match lightuserdataname h tag with
        | Some s => s
        | None => global_name
        end
      else global_name
  | _ => global_name
  end.

(** [luaT_objtypename] is [getstr] of the name: [%s] prints it as [c_string]
    does, and two names are the same pointer when the interned strings are
    equal. *)
Definition luaT_objtypename (h : heap) (o : TValue) : list Z := luaT_objtypenamestr h o.

(** [s + 2] on a C string. *)
Definition skip2 (s : string) : string := substring 2 (String.length s - 2) s.

Definition luaG_aritherror {A} (h : heap) (p1 p2 : TValue) (op : TMS) : outcome A :=
  let t1 := luaT_objtypename h p1 in
  let t2 := luaT_objtypename h p2 in
  let opname := skip2 (luaT_eventname op) in
  if bool_decide (t1 = t2)
  then luaL_error ("attempt to perform arithmetic (" +:+ opname +:+ ") on " +:+ c_string t1)
  else luaL_error ("attempt to perform arithmetic (" +:+ opname +:+ ") on " +:+ c_string t1
                   +:+ " and " +:+ c_string t2).

Definition luaG_ordererror {A} (h : heap) (p1 p2 : TValue) (op : TMS) : outcome A :=
  let t1 := luaT_objtypename h p1 in
  let t2 := luaT_objtypename h p2 in
  let opname := match op with TM_LT => "<" | TM_LE => "<=" | _ => "==" end in
  luaL_error ("attempt to compare " +:+ c_string t1 +:+ " " +:+ opname +:+ " " +:+ c_string t2).

Definition luaG_typeerror {A} (h : heap) (o : TValue) (opname : string) : outcome A :=
  luaL_error ("attempt to " +:+ opname +:+ " a " +:+ c_string (luaT_objtypename h o) +:+ " value").

(** * What an operation does with its operands

    An operation yields a value, or calls a metamethod on some arguments and
    makes its value of the first result of the call ([nil] without one). *)
Inductive action (A : Type) :=
  | Done (a : A)
  | CallTM (f : TValue) (args : list TValue) (k : TValue -> A).
Arguments Done {_} _.
Arguments CallTM {_} _ _ _.

Definition ttisfunction (v : TValue) : bool :=
  match v with LFunction _ => true | _ => false end.

(** [ttisfunction(fn) && clvalue(fn)->isC] *)
Definition isCfunction (h : heap) (fn : TValue) : bool :=
  match fn with LFunction f => fn_isC h f | _ => false end.

Definition ttisnil (v : TValue) : bool :=
  match v with LNil => true | _ => false end.

(** * The cache

    A bit of the cache is set only when the metamethod is absent. *)
Definition fast_event (e : TMS) : Prop := tm_index e <= 7.

Definition cache_ok (h : heap) : Prop :=
  forall t e, fast_event e ->
    Z.testbit (tmcache h t) (tm_index e) = true ->
    tab_getstr h t (luaT_eventname e) = LNil.

(** What [fasttm] promises: the metamethod, [NULL] when there is none. *)
Definition gettm_spec (h : heap) (et : option Z) (e : TMS) : option TValue :=
  match et with
  | None => None
  | Some t => match tab_getstr h t (luaT_eventname e) with LNil => None | v => Some v end
  end.

Lemma land_shiftl_1 c i : 0 <= i -> (Z.land c (Z.shiftl 1 i) =? 0) = negb (Z.testbit c i).
Proof.
  intros Hi. rewrite Z.shiftl_1_l. destruct (Z.testbit c i) eqn:E.
  - apply Z.eqb_neq. intros H0. assert (Hb : Z.testbit (Z.land c (2 ^ i)) i = true).
    { by rewrite Z.land_spec, E, Z.pow2_bits_true. }
    by rewrite H0, Z.bits_0 in Hb.
  - apply Z.eqb_eq, Z.bits_inj'. intros n Hn.
    rewrite Z.land_spec, Z.pow2_bits_eqb, Z.bits_0 by done.
    destruct (Z.eqb_spec i n) as [<-|]; [by rewrite E|by rewrite andb_false_r].
Qed.

Lemma tm_index_nonneg e : 0 <= tm_index e.
Proof. by destruct e. Qed.

Lemma tm_index_inj : Inj (=) (=) tm_index.
Proof. intros [] []; done. Qed.

(** The byte kept by the cache: the old bits and the new one. *)
Lemma tmcache_bit c e n :
  fast_event e -> 0 <= n <= 7 ->
  Z.testbit (u8 (Z.lor c (u8 (Z.shiftl 1 (tm_index e))))) n
  = Z.testbit c n || (n =? tm_index e).
Proof.
  intros He Hn. unfold fast_event in He. pose proof (tm_index_nonneg e).
  unfold u8, cast_u. rewrite Z.mod_pow2_bits_low by lia.
  rewrite Z.lor_spec, Z.mod_pow2_bits_low, Z.shiftl_1_l, Z.pow2_bits_eqb by lia.
  by rewrite Z.eqb_sym.
Qed.

Lemma tmcache_set h c t : tmcache (set_tmcache h c) t = default 0 (c !! t).
Proof. done. Qed.

Lemma set_tmcache_id h : set_tmcache h (tab_tmcache h) = h.
Proof. by destruct h. Qed.

Section Cache.
Context (h : heap) (Hok : cache_ok h).

Lemma luaT_gettm_ok t e : fast_event e -> cache_ok (luaT_gettm h t e).1.
Proof.
  intros He. unfold luaT_gettm. destruct (tab_getstr h t _) eqn:E; try done.
  intros t' e' He'. cbn [fst]. rewrite tmcache_set. cbn [tab_getstr set_tmcache].
  destruct (decide (t = t')) as [<-|Hne]; [rewrite lookup_insert_eq|rewrite lookup_insert_ne by done].
  - cbn. rewrite tmcache_bit by first [done | split; [apply tm_index_nonneg|exact He']].
    intros [Hb|Hb%Z.eqb_eq]%orb_prop; [by apply Hok|].
    apply tm_index_inj in Hb. by subst e'.
  - by apply Hok.
Qed.

Lemma fasttm_ok et e : fast_event e -> cache_ok (fasttm h et e).1.
Proof.
  intros He. unfold fasttm. destruct et as [t|]; [|done].
  case_match; [done|]. by apply luaT_gettm_ok.
Qed.

Lemma fasttm_spec et e : fast_event e -> (fasttm h et e).2 = gettm_spec h et e.
Proof.
  intros He. unfold fasttm, gettm_spec. destruct et as [t|]; [|done].
  rewrite land_shiftl_1, negb_involutive by apply tm_index_nonneg.
  destruct (Z.testbit _ _) eqn:E.
  - by rewrite (Hok t e He E).
  - unfold luaT_gettm. by destruct (tab_getstr h t _).
Qed.

Lemma invalidateTMcache_ok t : cache_ok (invalidateTMcache h t).
Proof.
  intros t' e' He'. unfold invalidateTMcache. rewrite tmcache_set. cbn [tab_getstr set_tmcache].
  destruct (decide (t = t')) as [<-|Hne]; [rewrite lookup_insert_eq|rewrite lookup_insert_ne by done].
  - cbn. by rewrite Z.bits_0.
  - by apply Hok.
Qed.
End Cache.

(** [fasttm] changes nothing but the cache, and nothing at all when it finds a
    metamethod. *)
Lemma fasttm_heap h et e : exists c, (fasttm h et e).1 = set_tmcache h c.
Proof.
  assert (exists c, h = set_tmcache h c) as Hid.
  { exists (tab_tmcache h). by rewrite set_tmcache_id. }
  unfold fasttm, luaT_gettm. destruct et; [|done]. case_match; [done|].
  destruct (tab_getstr h z _); cbn [fst]; eauto.
Qed.

Lemma fasttm_Some h et e h' v : fasttm h et e = (h', Some v) -> h' = h.
Proof.
  unfold fasttm, luaT_gettm. destruct et; [|done]. case_match; [done|].
  destruct (tab_getstr h z _); naive_solver.
Qed.

Lemma gettm_spec_cache h c et e : gettm_spec (set_tmcache h c) et e = gettm_spec h et e.
Proof. done. Qed.
