(* ===== verification/Arith.v ===== *)
(** Arithmetic of the virtual machine: the arithmetic instructions of
    [VM/src/lvmexecute.cpp] with their fast paths, and [luaV_doarithimpl] of
    [VM/src/lvmutils.cpp], the general routine they stand for.

    The build is the default one, whose vectors hold [float]s
    ([LUA_VECTOR_DOUBLE == 0]); their width, 3 or 4, is the parameter [vec4].
    In a 3-wide build the fourth component of an operand is whatever lies
    behind the vector; [setvvalue] drops what is computed from it. *)
From S2P Require Import Prelude Word Double DoubleExact DoubleDiv LuaApi Tm.
Open Scope Z_scope.

(** * [float] *)

Abbreviation float32 := spec_float.

Definition f_add (a b : float32) : float32 := SFadd 24 128 a b.
Definition f_sub (a b : float32) : float32 := SFsub 24 128 a b.
Definition f_mul (a b : float32) : float32 := SFmul 24 128 a b.
Definition f_div (a b : float32) : float32 := SFdiv 24 128 a b.
Definition f_neg (a : float32) : float32 := SFopp a.

(** [float(d)], and the promotion of a [float] to [double]. *)
Definition float_of_double (d : double) : float32 :=
  match d with
  | S754_finite s m e => binary_round 24 128 s m e
  | _ => d
  end.
Definition double_of_float (f : float32) : double :=
  match f with
  | S754_finite s m e => binary_round 53 1024 s m e
  | _ => f
  end.

(** * lnumutils.h *)

Definition luai_nummod (a b : double) : double :=
  d_sub a (d_mul (d_floor (d_div a b)) b).
Definition luai_numidiv (a b : double) : double := d_floor (d_div a b).

(** [float(luai_numidiv(a, b))] on floats: the quotient is a double's. *)
Definition f_numidiv (a b : float32) : float32 :=
  float_of_double (luai_numidiv (double_of_float a) (double_of_float b)).

Definition d_sqrt (d : double) : double := SFsqrt 53 1024 d.

(** The [pow] of the C library. *)
Class CPow := c_pow : double -> double -> double.

(** [LUA_VECTOR_SIZE == 4] *)
Class VecSize := vec4 : bool.

Section Arith.
Context `{VecSize} `{CPow}.

(** * Vectors *)

(** [v[i]]; beyond the vector, whatever is there. *)
Definition vnth (v : list float32) (i : nat) : float32 := nth i v S754_nan.

Definition setvvalue (x y z w : float32) : TValue :=
  LVector (if vec4 then [x; y; z; w] else [x; y; z]).

(** [setvvalue(L, ra, f(v[0]), f(v[1]), f(v[2]), f(v[3]))] *)
Definition vmap (f : float32 -> float32) (v : list float32) : TValue :=
  setvvalue (f (vnth v 0)) (f (vnth v 1)) (f (vnth v 2)) (f (vnth v 3)).
Definition vmap2 (f : float32 -> float32 -> float32) (v w : list float32) : TValue :=
  setvvalue (f (vnth v 0) (vnth w 0)) (f (vnth v 1) (vnth w 1))
            (f (vnth v 2) (vnth w 2)) (f (vnth v 3) (vnth w 3)).

(** * The general routine *)

(** The metamethod of the first operand, else of the second. *)
Definition call_binTM (h : heap) (p1 p2 : TValue) (event : TMS) : option (action TValue) :=
  let tm := luaT_gettmbyobj h p1 event in
  let tm := if ttisnil tm then luaT_gettmbyobj h p2 event else tm in
  if ttisnil tm then None
  else Some (CallTM tm [p1; p2] (fun r => r)).

(** The part of [luaV_doarithimpl] for operands that are vectors. *)
Definition doarith_vector (op : TMS) (rb rc : TValue) : option TValue :=
  match rb, rc with
  | LVector vb, LVector vc =>
      match op with
      | TM_ADD => Some (vmap2 f_add vb vc)
      | TM_SUB => Some (vmap2 f_sub vb vc)
      | TM_MUL => Some (vmap2 f_mul vb vc)
      | TM_DIV => Some (vmap2 f_div vb vc)
      | TM_IDIV => Some (vmap2 f_numidiv vb vc)
      | TM_UNM => Some (vmap f_neg vb)
      | _ => None
      end
  | LVector vb, _ =>
      match luaV_tonumber rc with
      | Some c =>
          let nc := float_of_double c in
          match op with
          | TM_MUL => Some (vmap (fun x => f_mul x nc) vb)
          | TM_DIV => Some (vmap (fun x => f_div x nc) vb)
          | TM_IDIV => Some (vmap (fun x => f_numidiv x nc) vb)
          | _ => None
          end
      | None => None
      end
  | _, LVector vc =>
      match luaV_tonumber rb with
      | Some b =>
          let nb := float_of_double b in
          match op with
          | TM_MUL => Some (vmap (fun x => f_mul nb x) vc)
          | TM_DIV => Some (vmap (fun x => f_div nb x) vc)
          | TM_IDIV => Some (vmap (fun x => f_numidiv nb x) vc)
          | _ => None
          end
      | None => None
      end
  | _, _ => None
  end.

(** The part for operands that convert to numbers; the template is
    instantiated for these events only. *)
Definition doarith_number (op : TMS) (nb nc : double) : outcome (action TValue) :=
  match op with
  | TM_ADD => Ret (Done (LNumber (d_add nb nc)))
  | TM_SUB => Ret (Done (LNumber (d_sub nb nc)))
  | TM_MUL => Ret (Done (LNumber (d_mul nb nc)))
  | TM_DIV => Ret (Done (LNumber (d_div nb nc)))
  | TM_IDIV => Ret (Done (LNumber (luai_numidiv nb nc)))
  | TM_MOD => Ret (Done (LNumber (luai_nummod nb nc)))
  | TM_POW => Ret (Done (LNumber (c_pow nb nc)))
  | TM_UNM => Ret (Done (LNumber (d_neg nb)))
  | _ => Undefined "LUAU_ASSERT(0)"
  end.

Definition luaV_doarithimpl (op : TMS) (h : heap) (rb rc : TValue)
    : outcome (action TValue) :=
  match doarith_vector op rb rc with
  | Some v => Ret (Done v)
  | None =>
      match luaV_tonumber rb, luaV_tonumber rc with
      | Some nb, Some nc => doarith_number op nb nc
      | _, _ =>
          match call_binTM h rb rc op with
          | Some act => Ret act
          | None => luaG_aritherror h rb rc op
          end
      end
  end.

(** * The instructions

    [luaV_callTM] runs a C function and stores its first result, or [nil],
    in the target register. *)
Definition ttisuserdata (v : TValue) : bool :=
  match v with LUserdata _ => true | _ => false end.
Definition ttisnumber (v : TValue) : bool :=
  match v with LNumber _ => true | _ => false end.

(** The fast path for userdata whose metamethod is a C function. *)
Definition userdata_fast (h : heap) (event : TMS) (rbc : TValue) (args : list TValue)
    (slow : outcome (action TValue)) : outcome (action TValue) :=
  let fn := luaT_gettmbyobj h rbc event in
  if ttisuserdata rbc && isCfunction h fn then Ret (CallTM fn args (fun r => r))
  else slow.

Definition op_add (h : heap) (rb rc : TValue) : outcome (action TValue) :=
  match rb, rc with
  | LNumber nb, LNumber nc => Ret (Done (LNumber (d_add nb nc)))
  | LVector vb, LVector vc => Ret (Done (vmap2 f_add vb vc))
  | _, _ => userdata_fast h TM_ADD rb [rb; rc] (luaV_doarithimpl TM_ADD h rb rc)
  end.

Definition op_sub (h : heap) (rb rc : TValue) : outcome (action TValue) :=
  match rb, rc with
  | LNumber nb, LNumber nc => Ret (Done (LNumber (d_sub nb nc)))
  | LVector vb, LVector vc => Ret (Done (vmap2 f_sub vb vc))
  | _, _ => userdata_fast h TM_SUB rb [rb; rc] (luaV_doarithimpl TM_SUB h rb rc)
  end.

Definition op_mul (h : heap) (rb rc : TValue) : outcome (action TValue) :=
  match rb, rc with
  | LNumber nb, LNumber nc => Ret (Done (LNumber (d_mul nb nc)))
  | LVector vb, LNumber nc =>
      let vc := float_of_double nc in Ret (Done (vmap (fun x => f_mul x vc) vb))
  | LVector vb, LVector vc => Ret (Done (vmap2 f_mul vb vc))
  | LNumber nb, LVector vc =>
      let vb := float_of_double nb in Ret (Done (vmap (fun x => f_mul vb x) vc))
  | _, _ =>
      let rbc := if ttisnumber rb then rc else rb in
      userdata_fast h TM_MUL rbc [rb; rc] (luaV_doarithimpl TM_MUL h rb rc)
  end.

Definition op_div (h : heap) (rb rc : TValue) : outcome (action TValue) :=
  match rb, rc with
  | LNumber nb, LNumber nc => Ret (Done (LNumber (d_div nb nc)))
  | LVector vb, LNumber nc =>
      let vc := float_of_double nc in Ret (Done (vmap (fun x => f_div x vc) vb))
  | LVector vb, LVector vc => Ret (Done (vmap2 f_div vb vc))
  | LNumber nb, LVector vc =>
      let vb := float_of_double nb in Ret (Done (vmap (fun x => f_div vb x) vc))
  | _, _ =>
      let rbc := if ttisnumber rb then rc else rb in
      userdata_fast h TM_DIV rbc [rb; rc] (luaV_doarithimpl TM_DIV h rb rc)
  end.

Definition op_idiv (h : heap) (rb rc : TValue) : outcome (action TValue) :=
  match rb, rc with
  | LNumber nb, LNumber nc => Ret (Done (LNumber (luai_numidiv nb nc)))
  | LVector vb, LNumber nc =>
      let vc := float_of_double nc in Ret (Done (vmap (fun x => f_numidiv x vc) vb))
  | _, _ =>
      let rbc := if ttisnumber rb then rc else rb in
      userdata_fast h TM_IDIV rbc [rb; rc] (luaV_doarithimpl TM_IDIV h rb rc)
  end.

Definition op_mod (h : heap) (rb rc : TValue) : outcome (action TValue) :=
  match rb, rc with
  | LNumber nb, LNumber nc => Ret (Done (LNumber (luai_nummod nb nc)))
  | _, _ => luaV_doarithimpl TM_MOD h rb rc
  end.

Definition op_pow (h : heap) (rb rc : TValue) : outcome (action TValue) :=
  match rb, rc with
  | LNumber nb, LNumber nc => Ret (Done (LNumber (c_pow nb nc)))
  | _, _ => luaV_doarithimpl TM_POW h rb rc
  end.

(** The forms with a constant operand; the constant is a number. *)
Definition op_addk (h : heap) (rb : TValue) (kv : double) : outcome (action TValue) :=
  match rb with
  | LNumber nb => Ret (Done (LNumber (d_add nb kv)))
  | _ => luaV_doarithimpl TM_ADD h rb (LNumber kv)
  end.

Definition op_subk (h : heap) (rb : TValue) (kv : double) : outcome (action TValue) :=
  match rb with
  | LNumber nb => Ret (Done (LNumber (d_sub nb kv)))
  | _ => luaV_doarithimpl TM_SUB h rb (LNumber kv)
  end.

Definition op_mulk (h : heap) (rb : TValue) (kv : double) : outcome (action TValue) :=
  match rb with
  | LNumber nb => Ret (Done (LNumber (d_mul nb kv)))
  | LVector vb =>
      let vc := float_of_double kv in Ret (Done (vmap (fun x => f_mul x vc) vb))
  | _ => userdata_fast h TM_MUL rb [rb; LNumber kv] (luaV_doarithimpl TM_MUL h rb (LNumber kv))
  end.

Definition op_divk (h : heap) (rb : TValue) (kv : double) : outcome (action TValue) :=
  match rb with
  | LNumber nb => Ret (Done (LNumber (d_div nb kv)))
  | LVector vb =>
      let nc := float_of_double kv in Ret (Done (vmap (fun x => f_div x nc) vb))
  | _ => userdata_fast h TM_DIV rb [rb; LNumber kv] (luaV_doarithimpl TM_DIV h rb (LNumber kv))
  end.

Definition op_idivk (h : heap) (rb : TValue) (kv : double) : outcome (action TValue) :=
  match rb with
  | LNumber nb => Ret (Done (LNumber (luai_numidiv nb kv)))
  | LVector vb =>
      let vc := float_of_double kv in Ret (Done (vmap (fun x => f_numidiv x vc) vb))
  | _ => userdata_fast h TM_IDIV rb [rb; LNumber kv] (luaV_doarithimpl TM_IDIV h rb (LNumber kv))
  end.

Definition op_modk (h : heap) (rb : TValue) (kv : double) : outcome (action TValue) :=
  match rb with
  | LNumber nb => Ret (Done (LNumber (luai_nummod nb kv)))
  | _ => luaV_doarithimpl TM_MOD h rb (LNumber kv)
  end.

Definition d_half : double := Eval vm_compute in d_div (double_of_Z 1) (double_of_Z 2).

Definition op_powk (h : heap) (rb : TValue) (kv : double) : outcome (action TValue) :=
  match rb with
  | LNumber nb =>
      let r := if d_eq kv (double_of_Z 2) then d_mul nb nb
               else if d_eq kv d_half then d_sqrt nb
               else if d_eq kv (double_of_Z 3) then d_mul (d_mul nb nb) nb
               else c_pow nb kv in
      Ret (Done (LNumber r))
  | _ => luaV_doarithimpl TM_POW h rb (LNumber kv)
  end.

Definition op_subrk (h : heap) (kv : double) (rc : TValue) : outcome (action TValue) :=
  match rc with
  | LNumber nc => Ret (Done (LNumber (d_sub kv nc)))
  | _ => luaV_doarithimpl TM_SUB h (LNumber kv) rc
  end.

Definition op_divrk (h : heap) (kv : double) (rc : TValue) : outcome (action TValue) :=
  match rc with
  | LNumber nc => Ret (Done (LNumber (d_div kv nc)))
  | LVector vc =>
      let nb := float_of_double kv in Ret (Done (vmap (fun x => f_div nb x) vc))
  | _ => luaV_doarithimpl TM_DIV h (LNumber kv) rc
  end.

Definition op_minus (h : heap) (rb : TValue) : outcome (action TValue) :=
  match rb with
  | LNumber nb => Ret (Done (LNumber (d_neg nb)))
  | LVector vb => Ret (Done (vmap f_neg vb))
  | _ => userdata_fast h TM_UNM rb [rb] (luaV_doarithimpl TM_UNM h rb rb)
  end.

(** [LOP_AND], [LOP_OR] (and their constant forms), [LOP_NOT] *)
Definition op_and (rb rc : TValue) : TValue := if l_isfalse rb then rb else rc.
Definition op_or (rb rc : TValue) : TValue := if l_isfalse rb then rc else rb.
Definition op_not (rb : TValue) : TValue := LBoolean (l_isfalse rb).

(** * Lengths *)

Definition luaV_dolen (h : heap) (rb : TValue) : heap * outcome (action (outcome TValue)) :=
  let call h tm :=
    if ttisnil tm then (h, luaG_typeerror h rb "get length of")
    else (h, Ret (CallTM tm [rb; LNil]
                    (fun res => if ttisnumber res then Ret res
                                else luaL_error "'__len' must return a number"))) in
  match rb with
  | LTable t =>
      match fasttm h (tab_metatable h t) TM_LEN with
      | (h', None) => (h', Ret (Done (Ret (LNumber (double_of_Z (tab_getn h t))))))
      | (h', Some tm) => call h' tm
      end
  | LString ts => (h, Ret (Done (Ret (LNumber (double_of_Z (Z.of_nat (length ts)))))))
  | _ => call h (luaT_gettmbyobj h rb TM_LEN)
  end.

Definition op_length (h : heap) (rb : TValue) : heap * outcome (action (outcome TValue)) :=
  match rb with
  | LTable t =>
      if fastnotm h (tab_metatable h t) TM_LEN
      then (h, Ret (Done (Ret (LNumber (double_of_Z (tab_getn h t))))))
      else luaV_dolen h rb
  | LString ts => (h, Ret (Done (Ret (LNumber (double_of_Z (Z.of_nat (length ts)))))))
  | _ => luaV_dolen h rb
  end.
End Arith.

(** * The fast paths and the general routine agree *)

Section FastPaths.
Context `{VecSize} `{CPow}.

(** The instruction of each binary event. *)
Definition op_arith (op : TMS) (h : heap) (rb rc : TValue) : outcome (action TValue) :=
  match op with
  | TM_ADD => op_add h rb rc
  | TM_SUB => op_sub h rb rc
  | TM_MUL => op_mul h rb rc
  | TM_DIV => op_div h rb rc
  | TM_IDIV => op_idiv h rb rc
  | TM_MOD => op_mod h rb rc
  | TM_POW => op_pow h rb rc
  | _ => luaV_doarithimpl op h rb rc
  end.

(** The instruction with a constant second operand. *)
Definition op_arithk (op : TMS) (h : heap) (rb : TValue) (kv : double)
    : outcome (action TValue) :=
  match op with
  | TM_ADD => op_addk h rb kv
  | TM_SUB => op_subk h rb kv
  | TM_MUL => op_mulk h rb kv
  | TM_DIV => op_divk h rb kv
  | TM_IDIV => op_idivk h rb kv
  | TM_MOD => op_modk h rb kv
  | TM_POW => op_powk h rb kv
  | _ => luaV_doarithimpl op h rb (LNumber kv)
  end.

Lemma isCfunction_not_nil h fn : isCfunction h fn = true -> ttisnil fn = false.
Proof. by destruct fn. Qed.

Lemma call_binTM_first h b c op :
  ttisnil (luaT_gettmbyobj h b op) = false ->
  call_binTM h b c op = Some (CallTM (luaT_gettmbyobj h b op) [b; c] (fun r => r)).
Proof. unfold call_binTM. intros E. by rewrite E, E. Qed.

Lemma call_binTM_second h b c op :
  luaT_gettmbyobj h b op = LNil -> ttisnil (luaT_gettmbyobj h c op) = false ->
  call_binTM h b c op = Some (CallTM (luaT_gettmbyobj h c op) [b; c] (fun r => r)).
Proof. unfold call_binTM. intros -> E. cbn [ttisnil]. by rewrite E. Qed.

(** The general routine on a userdata operand comes to the metamethods. *)
Lemma doarith_userdata_l op h u c :
  luaV_doarithimpl op h (LUserdata u) c =
  match call_binTM h (LUserdata u) c op with
  | Some act => Ret act
  | None => luaG_aritherror h (LUserdata u) c op
  end.
Proof. unfold luaV_doarithimpl. by destruct c. Qed.

Lemma doarith_userdata_r op h n u :
  luaV_doarithimpl op h (LNumber n) (LUserdata u) =
  match call_binTM h (LNumber n) (LUserdata u) op with
  | Some act => Ret act
  | None => luaG_aritherror h (LNumber n) (LUserdata u) op
  end.
Proof. done. Qed.

Lemma userdata_fast_l h op b c :
  userdata_fast h op b [b; c] (luaV_doarithimpl op h b c) = luaV_doarithimpl op h b c.
Proof.
  unfold userdata_fast. destruct (ttisuserdata b && isCfunction _ _) eqn:E; [|done].
  apply andb_prop in E as [Hu Hc%isCfunction_not_nil]. destruct b; try done.
  by rewrite doarith_userdata_l, (call_binTM_first _ _ _ _ Hc).
Qed.

(** The fast path of [*], [/] and [//] takes the metamethod of a userdata on the right
    although the number on the left has one. *)
Definition number_tm_skipped (h : heap) (op : TMS) (rb rc : TValue) : bool :=
  match op with
  | TM_MUL | TM_DIV | TM_IDIV =>
      ttisnumber rb && ttisuserdata rc && isCfunction h (luaT_gettmbyobj h rc op) &&
      negb (ttisnil (luaT_gettmbyobj h rb op))
  | _ => false
  end.

Lemma userdata_fast_r h op n u :
  userdata_fast h op (LUserdata u) [LNumber n; LUserdata u] (luaV_doarithimpl op h (LNumber n) (LUserdata u))
  = if isCfunction h (luaT_gettmbyobj h (LUserdata u) op) && negb (ttisnil (luaT_gettmbyobj h (LNumber n) op))
    then Ret (CallTM (luaT_gettmbyobj h (LUserdata u) op) [LNumber n; LUserdata u] (fun r => r))
    else luaV_doarithimpl op h (LNumber n) (LUserdata u).
Proof.
  unfold userdata_fast. cbn [ttisuserdata andb]. destruct (isCfunction _ _) eqn:E; cbn [andb]; [|done].
  apply isCfunction_not_nil in E. destruct (luaT_gettmbyobj h (LNumber n) op) eqn:En; cbn [ttisnil negb]; try done.
  by rewrite doarith_userdata_r, (call_binTM_second _ _ _ _ En E).
Qed.

(** What [LOP_POWK] computes on a number. *)
Definition powk_value (nb kv : double) : double :=
  if d_eq kv (double_of_Z 2) then d_mul nb nb
  else if d_eq kv d_half then d_sqrt nb
  else if d_eq kv (double_of_Z 3) then d_mul (d_mul nb nb) nb
  else c_pow nb kv.
End FastPaths.

Ltac fast_path :=
  first [ done | apply userdata_fast_l | apply userdata_fast_r ].

(** C33. Each arithmetic instruction, with its fast paths for numbers, vectors and
    userdata whose metamethod is a C function, does what the general routine
    [luaV_doarithimpl] does on the same operands, with three exceptions.  [*], [/] and [//]
    of a number and a userdata call the C metamethod of the userdata even when one is
    registered on the number type; [LOP_POWK] computes [x*x], [sqrt(x)] and [x*x*x] for the
    exponents 2, 0.5 and 3 instead of calling [pow]; unary minus calls the C
    metamethod of a userdata with one argument, not with the operand twice.  The
    instructions are the register forms of the seven operators, their forms with a constant
    on the right, those of [-] and [/] with a constant on the left, and unary minus. *)
Theorem arith_fast_paths `{VecSize} `{CPow} h op rb rc kv :
  op_arith op h rb rc =
    (if number_tm_skipped h op rb rc
     then Ret (CallTM (luaT_gettmbyobj h rc op) [rb; rc] (fun r => r))
     else luaV_doarithimpl op h rb rc) /\
  op_arithk op h rb kv =
    match op, rb with
    | TM_POW, LNumber nb => Ret (Done (LNumber (powk_value nb kv)))
    | _, _ => luaV_doarithimpl op h rb (LNumber kv)
    end /\
  op_subrk h kv rc = luaV_doarithimpl TM_SUB h (LNumber kv) rc /\
  op_divrk h kv rc = luaV_doarithimpl TM_DIV h (LNumber kv) rc /\
  op_minus h rb =
    match rb, luaT_gettmbyobj h rb TM_UNM with
    | LUserdata u, LFunction f =>
        Ret (CallTM (LFunction f) (if fn_isC h f then [rb] else [rb; rb]) (fun r => r))
    | _, _ => luaV_doarithimpl TM_UNM h rb rb
    end.
Proof.
  split_and!.
  - destruct op; cbn [op_arith number_tm_skipped]; try done.
    all: destruct rb, rc; cbn [op_add op_sub op_mul op_div op_idiv op_mod op_pow ttisnumber ttisuserdata andb];
      fast_path.
  - destruct op; cbn [op_arithk]; try by destruct rb.
    all: destruct rb; cbn [op_addk op_subk op_mulk op_divk op_idivk op_modk op_powk]; fast_path.
  - by destruct rc.
  - by destruct rc.
  - destruct rb; try done. cbn [op_minus]. unfold userdata_fast.
    destruct (luaT_gettmbyobj _ _ _) eqn:E; try done.
    cbn [ttisuserdata andb isCfunction]. case_match; [done|].
    rewrite doarith_userdata_l, call_binTM_first by by rewrite E. by rewrite E.
Qed.

(** A heap with one userdata whose metatable [1] has C metamethods [__mul] and
    [__unm] (closures 7 and 8). *)
Definition sample_heap : heap := {|
  tab_metatable := fun _ => None;
  tab_getstr := fun t k =>
    if (t =? 1) && String.eqb k "__mul" then LFunction 7
    else if (t =? 1) && String.eqb k "__unm" then LFunction 8 else LNil;
  tab_getn := fun _ => 0;
  ud_metatable := fun u => if u =? 5 then Some 1 else None;
  ud_tag := fun _ => 0;
  class_metatable := fun _ => None;
  class_instancemetatable := fun _ => None;
  obj_lclass := fun _ => 0;
  fn_isC := fun _ => true;
  global_mt := fun _ => None;
  lightuserdataname := fun _ => None;
  tab_tmcache := ∅;
|}.

#[local] Instance sample_pow : CPow := fun x y => x.
#[local] Instance sample_vec : VecSize := false.

(** The same heap with a metamethod [__mul] (closure 9) on numbers. *)
Definition number_mul_heap : heap := {|
  tab_metatable := tab_metatable sample_heap;
  tab_getstr := fun t k =>
    if (t =? 2) && String.eqb k "__mul" then LFunction 9 else tab_getstr sample_heap t k;
  tab_getn := tab_getn sample_heap;
  ud_metatable := ud_metatable sample_heap;
  ud_tag := ud_tag sample_heap;
  class_metatable := class_metatable sample_heap;
  class_instancemetatable := class_instancemetatable sample_heap;
  obj_lclass := obj_lclass sample_heap;
  fn_isC := fn_isC sample_heap;
  global_mt := fun t => if t =? 3 then Some 2 else None;
  lightuserdataname := lightuserdataname sample_heap;
  tab_tmcache := ∅;
|}.

(** The fast path calls [__mul] of the userdata, the general routine that of the number. *)
Example mul_skips_number_tm : exists k k',
  op_mul number_mul_heap (LNumber (double_of_Z 2)) (LUserdata 5)
  = Ret (CallTM (LFunction 7) [LNumber (double_of_Z 2); LUserdata 5] k) /\
  luaV_doarithimpl TM_MUL number_mul_heap (LNumber (double_of_Z 2)) (LUserdata 5)
  = Ret (CallTM (LFunction 9) [LNumber (double_of_Z 2); LUserdata 5] k').
Proof. eexists _, _. split; vm_compute; reflexivity. Qed.

(** [-u] calls a C metamethod with one argument. *)
Example minus_one_argument : exists k k',
  op_minus sample_heap (LUserdata 5) = Ret (CallTM (LFunction 8) [LUserdata 5] k) /\
  luaV_doarithimpl TM_UNM sample_heap (LUserdata 5) (LUserdata 5)
  = Ret (CallTM (LFunction 8) [LUserdata 5; LUserdata 5] k').
Proof. eexists _, _. split; vm_compute; reflexivity. Qed.

(** [x ^ 0.5] with a constant exponent is not [pow(x, 0.5)] for a negative
    zero and for minus infinity: with the values that the C standard gives to
    [pow] there (Annex F: [pow(-0, y)] is [+0] and [pow(-inf, y)] is [+inf] for
    a positive [y] that is not an odd integer), the instruction yields [-0]
    and NaN. *)
Theorem powk_half_diverges `{VecSize} `{CPow} h :
  c_pow (S754_zero true) d_half = S754_zero false ->
  c_pow (S754_infinity true) d_half = S754_infinity false ->
  op_powk h (LNumber (S754_zero true)) d_half = Ret (Done (LNumber (S754_zero true))) /\
  op_pow h (LNumber (S754_zero true)) (LNumber d_half) = Ret (Done (LNumber (S754_zero false))) /\
  op_powk h (LNumber (S754_infinity true)) d_half = Ret (Done (LNumber S754_nan)) /\
  op_pow h (LNumber (S754_infinity true)) (LNumber d_half)
    = Ret (Done (LNumber (S754_infinity false))).
Proof. intros Hz Hi. cbn [op_pow]. rewrite Hz, Hi. done. Qed.

(** * Algebraic laws of the modelled arithmetic *)

Lemma SFmul_comm p e a b : SFmul p e a b = SFmul p e b a.
Proof.
  destruct a as [s|s| |s m x], b as [s'|s'| |s' m' x']; cbn; try done.
  all: try by rewrite xorb_comm.
  by rewrite xorb_comm, Pos.mul_comm, Z.add_comm.
Qed.

Lemma SFadd_comm p e a b : SFadd p e a b = SFadd p e b a.
Proof.
  destruct a as [s|s| |s m x], b as [s'|s'| |s' m' x']; cbn; try done.
  - by destruct s, s'.
  - by destruct s, s'.
  - by rewrite Z.min_comm, Z.add_comm.
Qed.

Lemma nummod_exact a b :
  Z.abs a < 2 ^ 53 -> Z.abs b < 2 ^ 53 -> b <> 0 -> Z.abs (a / b * b) < 2 ^ 53 ->
  luai_nummod (double_of_Z a) (double_of_Z b) = double_of_Z (a mod b).
Proof.
  intros Ha Hb Hb0 Hp. unfold luai_nummod.
  destruct (double_of_Z_spec b Hb0 Hb) as (m & k & _ & _ & Eb & _).
  destruct (decide (a = 0)) as [->|Ha0].
  { rewrite Eb, Z.mod_0_l by done. by destruct (b <? 0). }
  rewrite d_floor_div_exact by done.
  pose proof (Z.div_mod a b Hb0) as Hdm.
  destruct (decide (a / b = 0)) as [E|E].
  { rewrite E, Z.mul_0_r, Z.add_0_l in *. rewrite <- Hdm.
    destruct (double_of_Z_spec a Ha0 Ha) as (m' & k' & _ & _ & Ea & _). by rewrite Ea, Eb. }
  assert (Z.abs (a / b) < 2 ^ 53) by (rewrite Z.abs_mul in Hp; nia).
  rewrite d_mul_exact by done.
  assert (Z.abs (a mod b) < Z.abs b).
  { destruct (Z.lt_ge_cases 0 b); [pose proof (Z.mod_pos_bound a b)|pose proof (Z.mod_neg_bound a b)]; lia. }
  rewrite d_sub_exact by lia. f_equal. lia.
Qed.

(** Arithmetic on numbers that hold integers below [2^53] in magnitude is
    exact: [+], [-] and [*] while the result stays below [2^53], [//] is the
    floored quotient and [%] its remainder (the product [floor(a/b) * b] of the
    remainder staying below [2^53] too). *)
Theorem integer_arith_exact `{VecSize} `{CPow} h a b :
  Z.abs a < 2 ^ 53 -> Z.abs b < 2 ^ 53 ->
  let num z := LNumber (double_of_Z z) in
  let yields act z := act = Ret (Done (num z)) in
  (Z.abs (a + b) < 2 ^ 53 -> yields (op_add h (num a) (num b)) (a + b)) /\
  (Z.abs (a - b) < 2 ^ 53 -> yields (op_sub h (num a) (num b)) (a - b)) /\
  (a <> 0 -> b <> 0 -> Z.abs (a * b) < 2 ^ 53 -> yields (op_mul h (num a) (num b)) (a * b)) /\
  (a <> 0 -> b <> 0 -> yields (op_idiv h (num a) (num b)) (a / b)) /\
  (b <> 0 -> Z.abs (a / b * b) < 2 ^ 53 -> yields (op_mod h (num a) (num b)) (a mod b)).
Proof.
  intros Ha Hb num yields. unfold num, yields. cbn [op_add op_sub op_mul op_idiv op_mod].
  split; [|split; [|split; [|split]]]; intros.
  - by rewrite d_add_exact.
  - by rewrite d_sub_exact.
  - by rewrite d_mul_exact.
  - unfold luai_numidiv. by rewrite d_floor_div_exact.
  - by rewrite nummod_exact.
Qed.

Lemma integer_arith_exact_witness :
  op_mod sample_heap (LNumber (double_of_Z (-7))) (LNumber (double_of_Z 3))
  = Ret (Done (LNumber (double_of_Z (-7 mod 3)))).
Proof.
  destruct (integer_arith_exact sample_heap (-7) 3 ltac:(lia) ltac:(lia)) as (_ & _ & _ & _ & H).
  apply H; vm_compute; congruence.
Defined.

(** The bound on the product is needed: here [floor(a/b) * b] is not
    representable, and the result is one off. *)
Example nummod_inexact :
  luai_nummod (double_of_Z (2 ^ 53 - 1)) (double_of_Z (-3602879701896397))
  = double_of_Z ((2 ^ 53 - 1) mod -3602879701896397 - 1).
Proof. vm_compute. reflexivity. Qed.

(** The values of the C standard's Annex F at the two arguments. *)
Definition annex_pow : CPow := fun x y =>
  match x with
  | S754_zero _ => S754_zero false
  | S754_infinity _ => S754_infinity false
  | _ => x
  end.

Lemma powk_half_diverges_witness :
  @op_pow sample_vec annex_pow sample_heap (LNumber (S754_zero true)) (LNumber d_half)
  = Ret (Done (LNumber (S754_zero false))).
Proof.
  apply (@powk_half_diverges sample_vec annex_pow sample_heap); reflexivity.
Defined.

(** The length instruction does what [luaV_dolen] does. *)
Lemma length_fast_path h rb : op_length h rb = luaV_dolen h rb.
Proof.
  destruct rb; try done. cbn [op_length luaV_dolen]. unfold fastnotm, fasttm.
  destruct (tab_metatable h gc); [|done]. by destruct (negb _).
Qed.
