(* ===== verification/CMath.v ===== *)
(** The functions of the C library's [<math.h>] that the math library of the VM
    and the builtin folder of the compiler call.

    Those that the standard defines exactly - [fabs], [ceil], [trunc], [round],
    [fmod], [modf], [frexp], [ldexp], [sqrt] ([d_sqrt]), the classification
    macros - are defined on binary64 numbers.  The others are rounded in a way
    that the implementation chooses: they are fields of the class [LibM]. *)
From S2P Require Import Prelude Word Double NumParse LuaApi Arith.
Open Scope Z_scope.

Class LibM := {
  c_acos : double -> double;
  c_asin : double -> double;
  c_atan : double -> double;
  c_atan2 : double -> double -> double;
  c_cos : double -> double;
  c_cosh : double -> double;
  c_exp : double -> double;
  c_log : double -> double;
  c_log2 : double -> double;
  c_log10 : double -> double;
  c_sin : double -> double;
  c_sinh : double -> double;
  c_tan : double -> double;
  c_tanh : double -> double;
  (** what [frexp] stores as the exponent of a NaN or an infinity *)
  frexp_special : double -> Z;
}.

(** * Classification *)

Definition d_isinf (d : double) : bool :=
  match d with S754_infinity _ => true | _ => false end.

(** * Rounding to integers *)

(** A number with an integer value and a given sign, so that a zero keeps it. *)
Definition signed_int (s : bool) (n : Z) : double :=
  if n =? 0 then S754_zero s else double_of_Z (cond_Zopp s n).

Definition d_fabs (d : double) : double := SFabs d.

Definition d_trunc (d : double) : double :=
  match d with
  | S754_finite s m e =>
      if exact_int m e then d else signed_int s (Z.shiftl (Zpos m) e)
  | _ => d
  end.

Definition d_ceil (d : double) : double :=
  match d with
  | S754_finite s m e =>
      if exact_int m e then d
      else signed_int s (Z.shiftl (Zpos m) e + (if s then 0 else 1))
  | _ => d
  end.

(** [round]: half-way cases away from zero. *)
Definition d_round (d : double) : double :=
  match d with
  | S754_finite s m e =>
      if exact_int m e then d
      else signed_int s (Z.shiftl (Zpos m + Z.shiftl 1 (- e - 1)) e)
  | _ => d
  end.

(** * Remainders, mantissas and exponents *)

(** The remainder of [m * 2^e] by [m' * 2^e'] as a mantissa, and its exponent. *)
Definition rem_scaled (m : positive) (e : Z) (m' : positive) (e' : Z) : Z * Z :=
  let k := Z.min e e' in
  (Z.rem (Z.shiftl (Zpos m) (e - k)) (Z.shiftl (Zpos m') (e' - k)), k).

Definition d_fmod (x y : double) : double :=
  match x, y with
  | S754_nan, _ | _, S754_nan | S754_infinity _, _ | _, S754_zero _ => S754_nan
  | S754_zero s, _ => x
  | _, S754_infinity _ => x
  | S754_finite s m e, S754_finite _ m' e' =>
      match rem_scaled m e m' e' with
      | (Zpos r, k) => binary_round 53 1024 s r k
      | _ => S754_zero s
      end
  end.

(** [modf]: the fractional part, then the integer part. *)
Definition d_modf (d : double) : double * double :=
  match d with
  | S754_nan => (d, d)
  | S754_infinity s | S754_zero s => (S754_zero s, d)
  | S754_finite s m e =>
      if exact_int m e then (S754_zero s, d)
      else let ip := d_trunc d in (d_sub d ip, ip)
  end.

Definition d_ldexp (d : double) (n : Z) : double := SFldexp 53 1024 d n.

Definition d_frexp `{LibM} (d : double) : double * Z :=
  match d with
  | S754_finite _ _ _ => SFfrexp 53 1024 d
  | S754_zero _ => (d, 0)
  | _ => (d, frexp_special d)
  end.

(** * [float] *)

(** [floor] on a [float]: the floor of a [float] is a [float]. *)
Definition f_floor (f : float32) : float32 := float_of_double (d_floor (double_of_float f)).

(** * Literals

    A decimal literal denotes the nearest number, which is what [strtod] reads. *)
Definition literal (s : string) : double := fst (strtod (chars s)).

(** * Sanity of the definitions on small inputs *)

Definition dec (m e : Z) : double := binary_normalize 53 1024 m e false.

Example ceil_examples :
  map d_ceil [dec 3 (-1); dec (-3) (-1); dec 1 (-1); dec (-1) (-1); dec 7 0]
  = [dec 2 0; dec (-1) 0; dec 1 0; S754_zero true; dec 7 0].
Proof. vm_compute. reflexivity. Qed.

Example round_examples :
  map d_round [dec 3 (-1); dec (-5) (-1); dec 1 (-2); dec (-1) (-2); dec 7 0]
  = [dec 2 0; dec (-3) 0; S754_zero false; S754_zero true; dec 7 0].
Proof. vm_compute. reflexivity. Qed.

Example fmod_examples :
  d_fmod (dec 11 (-1)) (dec 3 0) = dec 5 (-1) /\
  d_fmod (dec (-11) (-1)) (dec 3 0) = dec (-5) (-1) /\
  d_fmod (dec (-6) 0) (dec 3 0) = S754_zero true.
Proof. vm_compute. auto. Qed.

Example modf_ldexp_examples :
  d_modf (dec (-5) (-1)) = (dec (-1) (-1), dec (-2) 0) /\
  d_modf (dec (-1) (-1)) = (dec (-1) (-1), S754_zero true) /\
  d_ldexp (dec 3 0) 4 = dec 48 0.
Proof. vm_compute. auto. Qed.
