(* ===== verification/Compare.v ===== *)
(** Comparison and equality in the virtual machine: [luaV_strcmp],
    [luaV_lessthan], [luaV_lessequal] and [luaV_equalval] of
    [VM/src/lvmutils.cpp], [luaO_rawequalObj] of [VM/src/lobject.cpp], and the
    conditional jumps of [VM/src/lvmexecute.cpp] that use them.

    An instruction [pc += c ? LUAU_INSN_D(insn) : 1] is modelled by the
    condition [c]: whether the jump is taken.  Strings are interned, so two
    string objects are the same object when their contents are equal. *)
From S2P Require Import Prelude Word Double LuaApi Tm Arith.
Open Scope Z_scope.

(** * Strings *)

(** [memcmp(l, r, n)]: the difference of the first bytes that differ.  The
    standard promises its sign only, and its sign is all that the callers use. *)
Fixpoint memcmp (l r : list Z) (n : nat) : Z :=
  match n, l, r with
  | S n, x :: l, y :: r => if x =? y then memcmp l r n else x - y
  | _, _, _ => 0
  end.

(** The first byte of the C string; the terminator of an empty one. *)
Definition first_char (s : list Z) : Z := default 0 (head s).

Definition luaV_strcmp (ls rs : list Z) : Z :=
  if bool_decide (ls = rs) then 0
  else if negb (first_char ls =? first_char rs) then first_char ls - first_char rs
  else
    let ll := length ls in
    let lr := length rs in
    let lmin := if (ll <? lr)%nat then ll else lr in
    let res := memcmp ls rs lmin in
    if negb (res =? 0) then res
    else if (ll =? lr)%nat then 0 else if (ll <? lr)%nat then -1 else 1.

Section Compare.
Context `{VecSize}.

(** * Equality *)

Definition luai_veceq (a b : list float32) : bool :=
  let eq i := SFeqb (vnth a i) (vnth b i) in
  if vec4 then eq 0%nat && eq 1%nat && eq 2%nat && eq 3%nat
  else eq 0%nat && eq 1%nat && eq 2%nat.

(** [gcvalue(t1) == gcvalue(t2)] for values of one type. *)
Definition same_object (t1 t2 : TValue) : bool :=
  match t1, t2 with
  | LString a, LString b => bool_decide (a = b)
  | LTable a, LTable b | LFunction a, LFunction b | LUserdata a, LUserdata b
  | LThread a, LThread b | LClass a, LClass b | LObject a, LObject b => a =? b
  | LBuffer a _, LBuffer b _ => a =? b
  | _, _ => false
  end.

Definition luaO_rawequalObj (t1 t2 : TValue) : bool :=
  if negb (ttype t1 =? ttype t2) then false
  else match t1, t2 with
       | LNil, LNil => true
       | LNumber a, LNumber b => d_eq a b
       | LInteger a, LInteger b => a =? b
       | LVector a, LVector b => luai_veceq a b
       | LBoolean a, LBoolean b => Bool.eqb a b
       | LLightUserdata p a, LLightUserdata q b => (p =? q) && (a =? b)
       | _, _ => same_object t1 t2
       end.

(** [mt1 == mt2] on pointers to tables. *)
Definition same_mt (mt1 mt2 : option Z) : bool := bool_decide (mt1 = mt2).

Definition get_compTM (h : heap) (mt1 mt2 : option Z) (event : TMS)
    : heap * option TValue :=
  match fasttm h mt1 event with
  | (h1, None) => (h1, None)
  | (h1, Some tm1) =>
      if same_mt mt1 mt2 then (h1, Some tm1)
      else match fasttm h1 mt2 event with
           | (h2, None) => (h2, None)
           | (h2, Some tm2) =>
               if luaO_rawequalObj tm1 tm2 then (h2, Some tm1) else (h2, None)
           end
  end.

(** [callTMres(L, L->top, tm, t1, t2); return !l_isfalse(L->top)] *)
Definition call_pred (tm t1 t2 : TValue) : action bool :=
  CallTM tm [t1; t2] (fun r => negb (l_isfalse r)).

Definition luaV_equalval (h : heap) (t1 t2 : TValue) : heap * outcome (action bool) :=
  match t1, t2 with
  | LNil, LNil => (h, Ret (Done true))
  | LNumber a, LNumber b => (h, Ret (Done (d_eq a b)))
  | LInteger a, LInteger b => (h, Ret (Done (a =? b)))
  | LVector a, LVector b => (h, Ret (Done (luai_veceq a b)))
  | LBoolean a, LBoolean b => (h, Ret (Done (Bool.eqb a b)))
  | LLightUserdata p a, LLightUserdata q b => (h, Ret (Done ((p =? q) && (a =? b))))
  | LUserdata u1, LUserdata u2 =>
      match get_compTM h (ud_metatable h u1) (ud_metatable h u2) TM_EQ with
      | (h', None) => (h', Ret (Done (u1 =? u2)))
      | (h', Some tm) => (h', Ret (call_pred tm t1 t2))
      end
  | LClass a, LClass b => (h, Ret (Done (a =? b)))
  | LObject a, LObject b =>
      if negb (obj_lclass h a =? obj_lclass h b) then (h, Ret (Done false))
      else
        let tm := luaT_gettmbyobj h t1 TM_EQ in
        if ttisnil tm then (h, Ret (Done (a =? b)))
        else (h, Ret (call_pred tm t1 t2))
  | LTable a, LTable b =>
      match get_compTM h (tab_metatable h a) (tab_metatable h b) TM_EQ with
      | (h', None) => (h', Ret (Done (a =? b)))
      | (h', Some tm) => (h', Ret (call_pred tm t1 t2))
      end
  | _, _ =>
      if ttype t1 =? ttype t2 then (h, Ret (Done (same_object t1 t2)))
      else (h, Undefined "LUAU_ASSERT(ttype(t1) == ttype(t2))")
  end.

(** * Order *)

(** [None] is the [-1] of a missing metamethod. *)
Definition call_orderTM (h : heap) (p1 p2 : TValue) (event : TMS) : option (action bool) :=
  let tm1 := luaT_gettmbyobj h p1 event in
  if ttisnil tm1 then None
  else
    let tm2 := luaT_gettmbyobj h p2 event in
    if negb (luaO_rawequalObj tm1 tm2) then None
    else Some (call_pred tm1 p1 p2).

(** [call_orderTM] with [error] set. *)
Definition call_orderTM_error (h : heap) (p1 p2 : TValue) (event : TMS)
    : outcome (action bool) :=
  match call_orderTM h p1 p2 event with
  | Some act => Ret act
  | None => luaG_ordererror h p1 p2 event
  end.

Definition luaV_lessthan (h : heap) (l r : TValue) : outcome (action bool) :=
  if negb (ttype l =? ttype r) then luaG_ordererror h l r TM_LT
  else match l, r with
       | LNumber a, LNumber b => Ret (Done (d_lt a b))
       | LString a, LString b => Ret (Done (luaV_strcmp a b <? 0))
       | _, _ => call_orderTM_error h l r TM_LT
       end.

(** [!res] on the result of the metamethod. *)
Definition not_action (act : action bool) : action bool :=
  match act with
  | Done b => Done (negb b)
  | CallTM f args k => CallTM f args (fun r => negb (k r))
  end.

Definition luaV_lessequal (h : heap) (l r : TValue) : outcome (action bool) :=
  if negb (ttype l =? ttype r) then luaG_ordererror h l r TM_LE
  else match l, r with
       | LNumber a, LNumber b => Ret (Done (d_le a b))
       | LString a, LString b => Ret (Done (luaV_strcmp a b <=? 0))
       | _, _ =>
           match call_orderTM h l r TM_LE with
           | Some res => Ret res
           | None =>
               match call_orderTM h r l TM_LT with
               | None => luaG_ordererror h l r TM_LE
               | Some res => Ret (not_action res)
               end
           end
       end.

(** * The conditional jumps *)

Definition omap_action (f : action bool -> action bool) (o : outcome (action bool))
    : outcome (action bool) := x <- o ;; Ret (f x).

Definition op_jumpifle (h : heap) (ra rb : TValue) : outcome (action bool) :=
  match ra, rb with
  | LNumber a, LNumber b => Ret (Done (d_le a b))
  | LString a, LString b => Ret (Done (luaV_strcmp a b <=? 0))
  | _, _ => luaV_lessequal h ra rb
  end.

Definition op_jumpifnotle (h : heap) (ra rb : TValue) : outcome (action bool) :=
  match ra, rb with
  | LNumber a, LNumber b => Ret (Done (negb (d_le a b)))
  | LString a, LString b => Ret (Done (negb (luaV_strcmp a b <=? 0)))
  | _, _ => omap_action not_action (luaV_lessequal h ra rb)
  end.

Definition op_jumpiflt (h : heap) (ra rb : TValue) : outcome (action bool) :=
  match ra, rb with
  | LNumber a, LNumber b => Ret (Done (d_lt a b))
  | LString a, LString b => Ret (Done (luaV_strcmp a b <? 0))
  | _, _ => luaV_lessthan h ra rb
  end.

Definition op_jumpifnotlt (h : heap) (ra rb : TValue) : outcome (action bool) :=
  match ra, rb with
  | LNumber a, LNumber b => Ret (Done (negb (d_lt a b)))
  | LString a, LString b => Ret (Done (negb (luaV_strcmp a b <? 0)))
  | _, _ => omap_action not_action (luaV_lessthan h ra rb)
  end.

Definition op_jumpifeq (h : heap) (ra rb : TValue) : heap * outcome (action bool) :=
  if ttype ra =? ttype rb then
    match ra, rb with
    | LNil, LNil => (h, Ret (Done true))
    | LBoolean a, LBoolean b => (h, Ret (Done (Bool.eqb a b)))
    | LLightUserdata p a, LLightUserdata q b => (h, Ret (Done ((p =? q) && (a =? b))))
    | LNumber a, LNumber b => (h, Ret (Done (d_eq a b)))
    | LVector a, LVector b => (h, Ret (Done (luai_veceq a b)))
    | LString _, _ | LFunction _, _ | LThread _, _ | LBuffer _ _, _ =>
        (h, Ret (Done (same_object ra rb)))
    | LTable a, LTable b =>
        if same_mt (tab_metatable h a) (tab_metatable h b) then
          match fasttm h (tab_metatable h a) TM_EQ with
          | (h', None) => (h', Ret (Done (a =? b)))
          | (h', Some _) => luaV_equalval h' ra rb
          end
        else luaV_equalval h ra rb
    | LUserdata a, LUserdata b =>
        if same_mt (ud_metatable h a) (ud_metatable h b) then
          match fasttm h (ud_metatable h a) TM_EQ with
          | (h', None) => (h', Ret (Done (a =? b)))
          | (h', Some fn) =>
              if isCfunction h' fn then (h', Ret (call_pred fn ra rb))
              else luaV_equalval h' ra rb
          end
        else luaV_equalval h ra rb
    | LClass a, LClass b => (h, Ret (Done (a =? b)))
    | LInteger a, LInteger b => (h, Ret (Done (a =? b)))
    | _, _ => luaV_equalval h ra rb
    end
  else (h, Ret (Done false)).

Definition op_jumpifnoteq (h : heap) (ra rb : TValue) : heap * outcome (action bool) :=
  if ttype ra =? ttype rb then
    match ra, rb with
    | LNil, LNil => (h, Ret (Done false))
    | LBoolean a, LBoolean b => (h, Ret (Done (negb (Bool.eqb a b))))
    | LLightUserdata p a, LLightUserdata q b =>
        (h, Ret (Done (negb (p =? q) || negb (a =? b))))
    | LNumber a, LNumber b => (h, Ret (Done (negb (d_eq a b))))
    | LVector a, LVector b => (h, Ret (Done (negb (luai_veceq a b))))
    | LString _, _ | LFunction _, _ | LThread _, _ | LBuffer _ _, _ =>
        (h, Ret (Done (negb (same_object ra rb))))
    | LTable a, LTable b =>
        if same_mt (tab_metatable h a) (tab_metatable h b) then
          match fasttm h (tab_metatable h a) TM_EQ with
          | (h', None) => (h', Ret (Done (negb (a =? b))))
          | (h', Some _) => let '(h'', r) := luaV_equalval h' ra rb in
                            (h'', omap_action not_action r)
          end
        else let '(h'', r) := luaV_equalval h ra rb in (h'', omap_action not_action r)
    | LUserdata a, LUserdata b =>
        if same_mt (ud_metatable h a) (ud_metatable h b) then
          match fasttm h (ud_metatable h a) TM_EQ with
          | (h', None) => (h', Ret (Done (negb (a =? b))))
          | (h', Some fn) =>
              if isCfunction h' fn
              then (h', Ret (CallTM fn [ra; rb] (fun r => l_isfalse r)))
              else let '(h'', r) := luaV_equalval h' ra rb in
                   (h'', omap_action not_action r)
          end
        else let '(h'', r) := luaV_equalval h ra rb in (h'', omap_action not_action r)
    | LClass a, LClass b => (h, Ret (Done (negb (a =? b))))
    | LInteger a, LInteger b => (h, Ret (Done (negb (a =? b))))
    | _, _ => let '(h'', r) := luaV_equalval h ra rb in (h'', omap_action not_action r)
    end
  else (h, Ret (Done true)).

(** * Comparisons with constants

    [aux] is the second word of the instruction. *)
Definition LUAU_INSN_AUX_NOT (aux : Z) : Z := Z.shiftr aux 31.
Definition LUAU_INSN_AUX_KB (aux : Z) : Z := Z.land aux 1.

Definition Zb (b : bool) : Z := if b then 1 else 0.

(** [int((ttype(ra) - 1) ^ aux) < 0] *)
Definition op_jumpxeqknil (ra : TValue) (aux : Z) : bool :=
  s32 (Z.lxor (u32 (ttype ra - 1)) aux) <? 0.

Definition op_jumpxeqkb (ra : TValue) (aux : Z) : bool :=
  let eq := match ra with LBoolean b => Zb b =? LUAU_INSN_AUX_KB aux | _ => false end in
  negb (Zb eq =? LUAU_INSN_AUX_NOT aux).

Definition op_jumpxeqkn (ra : TValue) (kv : double) (aux : Z) : bool :=
  let eq := match ra with LNumber n => d_eq n kv | _ => false end in
  negb (Zb eq =? LUAU_INSN_AUX_NOT aux).

Definition op_jumpxeqks (ra : TValue) (kv : list Z) (aux : Z) : bool :=
  let eq := match ra with LString s => bool_decide (s = kv) | _ => false end in
  negb (Zb eq =? LUAU_INSN_AUX_NOT aux).
End Compare.

(** * Strings are ordered as byte sequences *)

Fixpoint lex_compare (l r : list Z) : comparison :=
  match l, r with
  | [], [] => Eq
  | [], _ :: _ => Lt
  | _ :: _, [] => Gt
  | x :: l, y :: r => match x ?= y with Eq => lex_compare l r | c => c end
  end.

Lemma lex_compare_refl l : lex_compare l l = Eq.
Proof. induction l as [|x l IH]; [done|]. cbn. by rewrite Z.compare_refl. Qed.

Lemma lex_compare_eq l r : lex_compare l r = Eq -> l = r.
Proof.
  revert r. induction l as [|x l IH]; intros [|y r]; cbn; try done.
  destruct (Z.compare_spec x y) as [->| |]; try done. intros E. by rewrite (IH r E).
Qed.

Lemma lex_compare_antisym l r : lex_compare r l = CompOpp (lex_compare l r).
Proof.
  revert r. induction l as [|x l IH]; intros [|y r]; cbn; try done.
  rewrite (Z.compare_antisym x y). destruct (x ?= y); cbn; auto.
Qed.

Lemma lex_compare_trans a b c :
  lex_compare a b = Lt -> lex_compare b c = Lt -> lex_compare a c = Lt.
Proof.
  revert b c. induction a as [|x a IH]; intros [|y b] [|z c]; cbn; try done.
  destruct (Z.compare_spec x y) as [->|Hxy|]; try done.
  - destruct (Z.compare_spec y z) as [->|Hyz|]; try done. apply IH.
  - destruct (Z.compare_spec y z) as [->|Hyz|]; try done; intros _ _.
    + by rewrite (proj2 (Z.compare_lt_iff x z)) by lia.
    + by rewrite (proj2 (Z.compare_lt_iff x z)) by lia.
Qed.

(** [memcmp] over the common length, then the lengths. *)
Lemma memcmp_lex l r :
  let n := Nat.min (length l) (length r) in
  lex_compare l r =
    if memcmp l r n =? 0 then (length l ?= length r)%nat else (memcmp l r n ?= 0).
Proof.
  cbn zeta. revert r. induction l as [|x l IH]; intros [|y r]; cbn; try done.
  destruct (Z.compare_spec x y) as [->|H|H].
  - rewrite Z.eqb_refl. apply IH.
  - rewrite (proj2 (Z.eqb_neq x y)) by lia. rewrite (proj2 (Z.eqb_neq _ _)) by lia.
    symmetry. apply Z.compare_lt_iff. lia.
  - rewrite (proj2 (Z.eqb_neq x y)) by lia. rewrite (proj2 (Z.eqb_neq _ _)) by lia.
    symmetry. apply Z.compare_gt_iff. lia.
Qed.

Lemma strcmp_lex l r :
  Forall (in_u 8) l -> Forall (in_u 8) r ->
  (luaV_strcmp l r ?= 0) = lex_compare l r.
Proof.
  intros Hl Hr. unfold luaV_strcmp. destruct (bool_decide_reflect (l = r)) as [->|Hne].
  { by rewrite lex_compare_refl. }
  destruct (Z.eqb_spec (first_char l) (first_char r)) as [E|E]; cbn [negb].
  - pose proof (memcmp_lex l r) as Hm. cbn zeta in Hm.
    replace (if (length l <? length r)%nat then length l else length r)
      with (Nat.min (length l) (length r)) by (destruct (Nat.ltb_spec (length l) (length r)); lia).
    rewrite Hm. destruct (memcmp l r _ =? 0); cbn [negb]; [|done].
    destruct (Nat.eqb_spec (length l) (length r)), (Nat.ltb_spec (length l) (length r)),
      (Nat.compare_spec (length l) (length r)); try done; lia.
  - destruct l as [|x l], r as [|y r]; cbn in E |- *; try done.
    + apply Forall_cons in Hr as [Hy _]. unfold in_u in Hy. apply Z.compare_lt_iff. lia.
    + apply Forall_cons in Hl as [Hx _]. unfold in_u in Hx. apply Z.compare_gt_iff. lia.
    + destruct (Z.compare_spec x y); [done|apply Z.compare_lt_iff; lia|apply Z.compare_gt_iff; lia].
Qed.

(** [luaV_strcmp] orders strings as sequences of bytes: it is zero exactly
    on equal strings, negative exactly when the first string is
    lexicographically smaller (a proper prefix is smaller, an embedded NUL is
    a byte like any other), and [<] on strings is a strict total order. *)
Theorem strcmp_spec l r t :
  Forall (in_u 8) l -> Forall (in_u 8) r -> Forall (in_u 8) t ->
  (luaV_strcmp l r ?= 0) = lex_compare l r /\
  (luaV_strcmp l r = 0 <-> l = r) /\
  (luaV_strcmp l r < 0 <-> 0 < luaV_strcmp r l) /\
  (luaV_strcmp l r < 0 -> luaV_strcmp r t < 0 -> luaV_strcmp l t < 0).
Proof.
  intros Hl Hr Ht. rewrite <- !Z.compare_lt_iff, <- Z.compare_eq_iff.
  rewrite (Z.compare_antisym _ 0). rewrite !strcmp_lex by done.
  split; [done|]. split; [|split].
  - split; [apply lex_compare_eq|intros ->; apply lex_compare_refl].
  - rewrite lex_compare_antisym. by destruct (lex_compare r l).
  - apply lex_compare_trans.
Qed.

Lemma strcmp_spec_witness :
  luaV_strcmp [97; 0] [97; 0; 1] < 0 <-> 0 < luaV_strcmp [97; 0; 1] [97; 0].
Proof.
  apply (strcmp_spec [97; 0] [97; 0; 1] []); repeat constructor; unfold in_u; lia.
Defined.

(** * Actions up to the continuation *)

(** Two actions are equivalent when they do the same and their continuations
    agree on every result of the call. *)
#[export] Instance action_equiv {A} : Equiv (action A) := fun x y =>
  match x, y with
  | Done a, Done b => a = b
  | CallTM f args k, CallTM f' args' k' => f = f' /\ args = args' /\ forall r, k r = k' r
  | _, _ => False
  end.

#[export] Instance action_equivalence {A} : Equivalence (≡@{action A}).
Proof.
  split.
  - by intros [].
  - intros [] []; unfold equiv; cbn; try done. by intros (-> & -> & Hk).
  - intros [] [] []; unfold equiv; cbn; try done; [congruence|].
    intros (-> & -> & Hk) (-> & -> & Hk'). repeat split. intros r. by rewrite Hk.
Qed.

#[export] Instance outcome_equiv {A} `{Equiv A} : Equiv (outcome A) := fun x y =>
  match x, y with
  | Ret a, Ret b => a ≡ b
  | Throw e, Throw e' => e = e'
  | Undefined w, Undefined w' => w = w'
  | _, _ => False
  end.

#[export] Instance outcome_equivalence {A} `{Equiv A} `{!Equivalence (≡@{A})} :
  Equivalence (≡@{outcome A}).
Proof.
  split.
  - intros [a|e|w]; unfold equiv, outcome_equiv; [reflexivity|done|done].
  - intros [a|e|w] [b|e'|w']; unfold equiv, outcome_equiv; try done; intros E; by symmetry.
  - intros [a|e|w] [b|e1|w1] [c|e2|w2]; unfold equiv, outcome_equiv; try done;
      intros E E1; by etransitivity.
Qed.

#[export] Instance not_action_proper : Proper ((≡) ==> (≡)) not_action.
Proof.
  intros [] []; unfold equiv; cbn; try done; [congruence|].
  intros (-> & -> & Hk). repeat split. intros r. by rewrite Hk.
Qed.

Lemma not_not_action act : not_action (not_action act) ≡ act.
Proof.
  destruct act as [b|f args k]; unfold equiv; cbn; [by destruct b|].
  repeat split. intros r. by destruct (k r).
Qed.

Section CompareProps.
Context `{VecSize}.

(** The ordering jumps do what the general routines do, and each negated
    jump takes the complementary branch on every pair of operands: same
    errors, same metamethod called on the same arguments in the same order,
    opposite decision (for NaN too: [not (a < b)] is not [b <= a]). *)
Theorem order_jumps h ra rb :
  op_jumpiflt h ra rb = luaV_lessthan h ra rb /\
  op_jumpifle h ra rb = luaV_lessequal h ra rb /\
  op_jumpifnotlt h ra rb = omap_action not_action (op_jumpiflt h ra rb) /\
  op_jumpifnotle h ra rb = omap_action not_action (op_jumpifle h ra rb).
Proof. destruct ra, rb; done. Qed.

(** The equality a script sees, with the cache of metamethods left out. *)
Definition comp_tm (h : heap) (mt1 mt2 : option Z) : option TValue :=
  match gettm_spec h mt1 TM_EQ, gettm_spec h mt2 TM_EQ with
  | Some tm1, Some tm2 =>
      if same_mt mt1 mt2 || luaO_rawequalObj tm1 tm2 then Some tm1 else None
  | _, _ => None
  end.

Definition equal_spec (h : heap) (t1 t2 : TValue) : action bool :=
  let with_tm tm same :=
    match tm with Some f => call_pred f t1 t2 | None => Done same end in
  match t1, t2 with
  | LTable a, LTable b => with_tm (comp_tm h (tab_metatable h a) (tab_metatable h b)) (a =? b)
  | LUserdata a, LUserdata b =>
      with_tm (comp_tm h (ud_metatable h a) (ud_metatable h b)) (a =? b)
  | LObject a, LObject b =>
      if obj_lclass h a =? obj_lclass h b then
        match luaT_gettmbyobj h t1 TM_EQ with
        | LNil => Done (a =? b)
        | f => call_pred f t1 t2
        end
      else Done false
  | _, _ => Done (luaO_rawequalObj t1 t2)
  end.

Lemma fast_event_eq : fast_event TM_EQ.
Proof. by unfold fast_event; cbn. Qed.

Lemma get_compTM_spec h mt1 mt2 :
  cache_ok h ->
  (get_compTM h mt1 mt2 TM_EQ).2 = comp_tm h mt1 mt2 /\
  cache_ok (get_compTM h mt1 mt2 TM_EQ).1.
Proof.
  intros Hok. pose proof (fasttm_spec h Hok mt1 TM_EQ fast_event_eq) as H1.
  pose proof (fasttm_ok h Hok mt1 TM_EQ fast_event_eq) as O1.
  unfold get_compTM, comp_tm. destruct (fasttm h mt1 TM_EQ) as [h1 [tm1|]] eqn:E1; cbn [fst snd] in *.
  - rewrite <- H1. apply fasttm_Some in E1 as ->.
    pose proof (fasttm_spec h Hok mt2 TM_EQ fast_event_eq) as H2.
    pose proof (fasttm_ok h Hok mt2 TM_EQ fast_event_eq) as O2.
    unfold same_mt. destruct (bool_decide_reflect (mt1 = mt2)) as [<-|].
    + by rewrite <- H1.
    + destruct (fasttm h mt2 TM_EQ) as [h2 [tm2|]]; cbn [fst snd] in *; rewrite <- H2; [|done].
      by destruct (luaO_rawequalObj tm1 tm2).
  - by rewrite <- H1.
Qed.

(** The instruction and the routine agree, the cache included. *)
Lemma jumpifeq_equalval h ra rb :
  op_jumpifeq h ra rb =
    if ttype ra =? ttype rb then luaV_equalval h ra rb else (h, Ret (Done false)).
Proof.
  unfold op_jumpifeq. destruct (ttype ra =? ttype rb) eqn:Et; [|done].
  destruct ra, rb; try done; cbn [luaV_equalval]; unfold get_compTM, same_mt.
  - destruct (bool_decide_reflect (tab_metatable h gc = tab_metatable h gc0)) as [E|]; [|done].
    destruct (fasttm h (tab_metatable h gc) TM_EQ) as [h' [tm|]] eqn:F; [|done].
    pose proof (fasttm_Some _ _ _ _ _ F) as ->. by rewrite F, bool_decide_eq_true_2.
  - destruct (bool_decide_reflect (ud_metatable h gc = ud_metatable h gc0)) as [E|]; [|done].
    destruct (fasttm h (ud_metatable h gc) TM_EQ) as [h' [tm|]] eqn:F; [|done].
    pose proof (fasttm_Some _ _ _ _ _ F) as ->. rewrite F, bool_decide_eq_true_2 by done.
    by destruct (isCfunction h tm).
Qed.

Lemma noteq_equalval h ra rb :
  (op_jumpifnoteq h ra rb).1 = (if ttype ra =? ttype rb then luaV_equalval h ra rb
                                else (h, Ret (Done false))).1 /\
  (op_jumpifnoteq h ra rb).2 ≡
    omap_action not_action (if ttype ra =? ttype rb then (luaV_equalval h ra rb).2
                            else Ret (Done false)).
Proof.
  unfold op_jumpifnoteq. destruct (ttype ra =? ttype rb) eqn:Et; [|done].
  destruct ra, rb; try done; cbn [luaV_equalval]; unfold get_compTM, same_mt.
  - cbn. by rewrite negb_andb.
  - destruct (bool_decide_reflect (tab_metatable h gc = tab_metatable h gc0)) as [E|].
    + destruct (fasttm h (tab_metatable h gc) TM_EQ) as [h' [tm|]] eqn:F; [|done].
      pose proof (fasttm_Some _ _ _ _ _ F) as ->. by rewrite F, bool_decide_eq_true_2.
    + by repeat case_match.
  - destruct (bool_decide_reflect (ud_metatable h gc = ud_metatable h gc0)) as [E|].
    + destruct (fasttm h (ud_metatable h gc) TM_EQ) as [h' [tm|]] eqn:F; [|done].
      pose proof (fasttm_Some _ _ _ _ _ F) as ->. rewrite F, bool_decide_eq_true_2 by done.
      destruct (isCfunction h tm); [|done]. split; [done|]. unfold equiv. cbn.
      repeat split. intros r. by rewrite negb_involutive.
    + by repeat case_match.
  - by repeat case_match.
Qed.

Lemma equalval_spec h t1 t2 :
  cache_ok h -> ttype t1 = ttype t2 ->
  (luaV_equalval h t1 t2).2 = Ret (equal_spec h t1 t2) /\
  cache_ok (luaV_equalval h t1 t2).1.
Proof.
  intros Hok Ht. destruct t1, t2; try done; cbn [luaV_equalval equal_spec].
  - destruct (get_compTM_spec h (tab_metatable h gc) (tab_metatable h gc0) Hok) as [<- Hc].
    by destruct (get_compTM _ _ _ _) as [h' [tm|]].
  - destruct (get_compTM_spec h (ud_metatable h gc) (ud_metatable h gc0) Hok) as [<- Hc].
    by destruct (get_compTM _ _ _ _) as [h' [tm|]].
  - by repeat case_match.
Qed.
End CompareProps.

(** The equality jump decides the specification of equality on every pair
    of operands, the negated jump the opposite, whatever the absence cache
    holds as long as it is sound, and the cache stays sound: the fast paths and
    the cache are invisible. *)
Theorem equality_jumps `{VecSize} h ra rb :
  cache_ok h ->
  let spec := if ttype ra =? ttype rb then equal_spec h ra rb else Done false in
  (op_jumpifeq h ra rb).2 ≡ Ret spec /\
  (op_jumpifnoteq h ra rb).2 ≡ Ret (not_action spec) /\
  cache_ok (op_jumpifeq h ra rb).1 /\
  (op_jumpifnoteq h ra rb).1 = (op_jumpifeq h ra rb).1.
Proof.
  intros Hok spec. subst spec. rewrite jumpifeq_equalval.
  destruct (noteq_equalval h ra rb) as [N1 N2]. rewrite N1, N2. clear N1 N2.
  destruct (Z.eqb_spec (ttype ra) (ttype rb)) as [Et|Et].
  - destruct (equalval_spec h ra rb Hok Et) as [-> Hc].
    split; [reflexivity|]. split; [reflexivity|]. by split.
  - split; [reflexivity|]. split; [reflexivity|]. by split.
Qed.

Lemma equality_jumps_witness :
  (op_jumpifeq (H := false) sample_heap (LUserdata 5) (LUserdata 6)).2 ≡ Ret (Done false).
Proof.
  refine (proj1 (equality_jumps (H := false) sample_heap (LUserdata 5) (LUserdata 6) _)).
  intros t e _ Hb. cbn in Hb. by rewrite Z.bits_0 in Hb.
Defined.

Lemma Zb_eqb (a b : bool) : (Zb a =? Zb b) = Bool.eqb a b.
Proof. by destruct a, b. Qed.

Lemma not_eqb_xorb (a b : bool) : negb (Bool.eqb a b) = xorb a b.
Proof. by destruct a, b. Qed.

Lemma aux_not_bit aux : in_u 32 aux -> LUAU_INSN_AUX_NOT aux = Zb (Z.testbit aux 31).
Proof.
  unfold in_u, LUAU_INSN_AUX_NOT. intros Ha. rewrite Z.shiftr_div_pow2 by lia.
  assert (aux / 2 ^ 31 = Z.b2z (Z.testbit aux 31)) as ->; [|by destruct (Z.testbit aux 31)].
  rewrite Z.testbit_spec' by lia. rewrite Z.mod_small; [done|].
  split; [apply Z.div_pos; lia|apply Z.div_lt_upper_bound; lia].
Qed.

Lemma aux_kb_bit aux : LUAU_INSN_AUX_KB aux = Zb (Z.testbit aux 0).
Proof.
  unfold LUAU_INSN_AUX_KB. change 1 with (Z.ones 1). rewrite Z.land_ones by lia.
  rewrite <- Z.bit0_mod. by destruct (Z.testbit aux 0).
Qed.

Lemma sign_bit x : (s32 x <? 0) = Z.testbit x 31.
Proof.
  rewrite <- (testbit_in_s 32 (s32 x) 31) by (try lia; apply cast_s_range; lia).
  by rewrite testbit_cast_s by lia.
Qed.

(** The comparisons with a constant decide equality with the constant,
    complemented when the top bit of the second word is set: [nil] by the sign
    of [(type - 1) ^ aux], whatever the other bits hold; booleans, numbers and
    strings by type and value. *)
Theorem constant_jumps ra kv ks aux :
  in_u 32 aux ->
  let not_bit := Z.testbit aux 31 in
  op_jumpxeqknil ra aux = xorb (bool_decide (ra = LNil)) not_bit /\
  op_jumpxeqkb ra aux = xorb (bool_decide (ra = LBoolean (Z.testbit aux 0))) not_bit /\
  op_jumpxeqkn ra kv aux =
    xorb (match ra with LNumber n => d_eq n kv | _ => false end) not_bit /\
  op_jumpxeqks ra ks aux = xorb (bool_decide (ra = LString ks)) not_bit.
Proof.
  intros Ha not_bit. unfold op_jumpxeqknil, op_jumpxeqkb, op_jumpxeqkn, op_jumpxeqks.
  rewrite (aux_not_bit aux Ha), aux_kb_bit, sign_bit, Z.lxor_spec, !Zb_eqb, !not_eqb_xorb.
  split; [|split; [|split]]; try done; f_equal.
  - by destruct ra.
  - destruct ra; try done. rewrite Zb_eqb.
    by destruct b, (Z.testbit aux 0).
  - destruct ra; try done. destruct (decide (s = ks)) as [->|Hne].
    + by rewrite !bool_decide_eq_true_2.
    + rewrite !bool_decide_eq_false_2; congruence.
Qed.

Lemma constant_jumps_witness :
  op_jumpxeqknil LNil (2 ^ 31 + 5) = xorb (bool_decide (LNil = LNil)) (Z.testbit (2 ^ 31 + 5) 31).
Proof.
  apply (constant_jumps LNil (S754_zero false) [] (2 ^ 31 + 5)). unfold in_u. lia.
Defined.
