(* ===== verification/ForLoop.v ===== *)
(** The numeric [for] loop: [LOP_FORNPREP] and [LOP_FORNLOOP] of
    [VM/src/lvmexecute.cpp] and [luaV_prepareFORN] of [VM/src/lvmutils.cpp].

    Three consecutive registers hold the limit, the step and the index.  The
    compiler gives the body its own copy of the index, so that nothing between
    the two instructions writes the three registers. *)
From S2P Require Import Prelude Word Double DoubleExact LuaApi Tm.
Open Scope Z_scope.

Definition luaG_forerror {A} (h : heap) (o : TValue) (what : string) : outcome A :=
  luaL_error ("invalid 'for' " +:+ what +:+ " (number expected, got "
              +:+ c_string (luaT_objtypename h o) +:+ ")").

Record for_state := { for_limit : double; for_step : double; for_idx : double }.

(** The three conversions, in the order of the code. *)
Definition luaV_prepareFORN (h : heap) (plimit pstep pinit : TValue) : outcome for_state :=
  let tonum o what :=
    match luaV_tonumber o with Some n => Ret n | None => luaG_forerror h o what end in
  idx <- tonum pinit "initial value" ;;
  limit <- tonum plimit "limit" ;;
  step <- tonum pstep "step" ;;
  Ret {| for_limit := limit; for_step := step; for_idx := idx |}.

(** [step > 0 ? idx <= limit : limit <= idx] *)
Definition for_continues (s : for_state) : bool :=
  if d_lt (S754_zero false) (for_step s) then d_le (for_idx s) (for_limit s)
  else d_le (for_limit s) (for_idx s).

(** [LOP_FORNPREP]: the registers, and whether the body is entered. *)
Definition op_fornprep (h : heap) (ra0 ra1 ra2 : TValue) : outcome (for_state * bool) :=
  match ra0, ra1, ra2 with
  | LNumber limit, LNumber step, LNumber idx =>
      let s := {| for_limit := limit; for_step := step; for_idx := idx |} in
      Ret (s, for_continues s)
  | _, _, _ => s <- luaV_prepareFORN h ra0 ra1 ra2 ;; Ret (s, for_continues s)
  end.

(** [LOP_FORNLOOP]: the registers, and whether it jumps back to the body. *)
Definition op_fornloop (s : for_state) : for_state * bool :=
  let s' := {| for_limit := for_limit s; for_step := for_step s;
               for_idx := d_add (for_idx s) (for_step s) |} in
  (s', for_continues s').

(** The indices for which the body runs, from a state at its entry; [None]
    when [fuel] bodies do not finish the loop. *)
Fixpoint for_body (fuel : nat) (s : for_state) : option (list double) :=
  match fuel with
  | O => None
  | S k =>
      let '(s', again) := op_fornloop s in
      if again then cons (for_idx s) <$> for_body k s' else Some [for_idx s]
  end.

Definition for_loop (fuel : nat) (h : heap) (ra0 ra1 ra2 : TValue)
    : outcome (option (list double)) :=
  r <- op_fornprep h ra0 ra1 ra2 ;;
  let '(s, enter) := r in
  Ret (if (enter : bool) then for_body fuel s else Some []).

(** * Integer loops *)

Definition int_state (a b c : Z) : for_state :=
  {| for_limit := double_of_Z b; for_step := double_of_Z c; for_idx := double_of_Z a |}.

(** The number of values from [a] to [b] by steps of [c]. *)
Definition for_count (a b c : Z) : nat :=
  if 0 <? c then Z.to_nat ((b - a) / c + 1) else Z.to_nat ((a - b) / - c + 1).

(** [a], [a + c], [a + 2c], ..., [n] of them. *)
Definition for_values (a c : Z) (n : nat) : list double :=
  map (fun i => double_of_Z (a + Z.of_nat i * c)) (seq 0 n).

Definition small (z : Z) : Prop := Z.abs z < 2 ^ 53.

Lemma continues_int a b c :
  small a -> small b -> small c ->
  for_continues (int_state a b c) = if 0 <? c then a <=? b else b <=? a.
Proof.
  intros Ha Hb Hc. unfold for_continues, int_state; cbn [for_step for_idx for_limit].
  change (S754_zero false) with (double_of_Z 0). rewrite d_lt_of_Z, !d_le_of_Z by done. done.
Qed.

Lemma for_count_enter a b c :
  c <> 0 -> (if 0 <? c then a <=? b else b <=? a) = negb (Nat.eqb (for_count a b c) 0).
Proof.
  intros Hc. unfold for_count.
  destruct (Z.ltb_spec 0 c); [destruct (Z.leb_spec a b)|destruct (Z.leb_spec b a)]; symmetry.
  1,3: apply negb_true_iff, Nat.eqb_neq.
  3,4: apply negb_false_iff, Nat.eqb_eq.
  - pose proof (Z.div_pos (b - a) c). lia.
  - pose proof (Z.div_pos (a - b) (- c)). lia.
  - pose proof (Z.div_lt_upper_bound (b - a) c 0). lia.
  - pose proof (Z.div_lt_upper_bound (a - b) (- c) 0). lia.
Qed.

Lemma for_count_step a b c :
  c <> 0 -> for_count a b c <> 0%nat -> for_count a b c = S (for_count (a + c) b c).
Proof.
  intros Hc. unfold for_count. destruct (Z.ltb_spec 0 c); intros Hn.
  - replace (b - a) with (b - (a + c) + 1 * c) in * by lia.
    rewrite Z.div_add in * by lia. lia.
  - replace (a - b) with (a + c - b + 1 * - c) in * by lia.
    rewrite Z.div_add in * by lia. lia.
Qed.

Lemma for_values_S a c n : for_values a c (S n) = double_of_Z a :: for_values (a + c) c n.
Proof.
  unfold for_values. cbn [seq map]. f_equal; [f_equal; lia|].
  rewrite <- seq_shift, map_map. apply map_ext. intros i. f_equal. lia.
Qed.

Lemma for_body_S k s :
  for_body (S k) s =
    let '(s', again) := op_fornloop s in
    if again then cons (for_idx s) <$> for_body k s' else Some [for_idx s].
Proof. done. Qed.

Lemma for_body_int n a b c :
  c <> 0 -> small a -> small b -> small c -> small (b + c) ->
  for_count a b c = S n -> for_body (S n) (int_state a b c) = Some (for_values a c (S n)).
Proof.
  intros Hc Ha Hb Hsc Hbc. revert a Ha. induction n as [|n IH]; intros a Ha Hn.
  all: assert (Hin : (if 0 <? c then a <=? b else b <=? a) = true)
    by (rewrite for_count_enter by done; by rewrite Hn).
  all: assert (Hac : small (a + c)) by (unfold small in *; destruct (Z.ltb_spec 0 c); lia).
  all: pose proof (for_count_step a b c Hc ltac:(lia)) as Hs.
  all: pose proof (for_count_enter (a + c) b c Hc) as He; rewrite Hn in Hs; injection Hs as Hs.
  all: rewrite for_values_S, for_body_S; unfold op_fornloop.
  all: cbn [int_state for_limit for_step for_idx]; rewrite d_add_exact by done.
  all: fold (int_state (a + c) b c); rewrite continues_int, He, <- Hs by done; cbn [Nat.eqb negb].
  - done.
  - by rewrite IH.
Qed.

Lemma for_body_mono n fuel s l :
  (n <= fuel)%nat -> for_body n s = Some l -> for_body fuel s = Some l.
Proof.
  revert fuel s l. induction n as [|n IH]; intros fuel s l Hf Hn; [done|].
  destruct fuel as [|fuel]; [lia|]. cbn [for_body] in *.
  destruct (op_fornloop s) as [s' []]; [|done].
  destruct (for_body n s') eqn:E; [|done]. by rewrite (IH fuel s' l0) by (done || lia).
Qed.

(** C31. A numeric [for] loop over integers ends, and its body runs for exactly
    [init], [init + step], [init + 2*step], ... up to the limit: the count is
    [(limit - init) / step + 1] when that is positive, none otherwise.  (The
    bound on [limit + step] keeps the last increment exact.) *)
Theorem for_loop_integers h a b c :
  c <> 0 -> small a -> small b -> small c -> small (b + c) ->
  forall fuel, (for_count a b c <= fuel)%nat -> (0 < fuel)%nat ->
  for_loop fuel h (LNumber (double_of_Z b)) (LNumber (double_of_Z c)) (LNumber (double_of_Z a))
  = Ret (Some (for_values a c (for_count a b c))).
Proof.
  intros Hc Ha Hb Hsc Hbc fuel Hf H0. unfold for_loop. cbn [op_fornprep outcome_bind].
  fold (int_state a b c). rewrite continues_int, for_count_enter by done.
  destruct (for_count a b c) as [|n] eqn:E; cbn [Nat.eqb negb]; [done|]. do 2 f_equal.
  apply (for_body_mono (S n)); [lia|]. by apply for_body_int.
Qed.

Lemma for_loop_integers_witness :
  for_loop 10 {| tab_metatable := fun _ => None; tab_getstr := fun _ _ => LNil;
    tab_getn := fun _ => 0; ud_metatable := fun _ => None; ud_tag := fun _ => 0;
    class_metatable := fun _ => None; class_instancemetatable := fun _ => None;
    obj_lclass := fun _ => 0; fn_isC := fun _ => true; global_mt := fun _ => None;
    lightuserdataname := fun _ => None; tab_tmcache := ∅ |}
    (LNumber (double_of_Z 2)) (LNumber (double_of_Z (-3))) (LNumber (double_of_Z 10))
  = Ret (Some (map double_of_Z [10; 7; 4])).
Proof. apply (for_loop_integers _ 10 2 (-3)); try (unfold small; lia); vm_compute; lia. Defined.

(** A loop whose index does not move never ends: a step of zero, or an
    index so large that adding the step rounds back to it ([2^53 + 1]). *)
Theorem for_loop_stuck s fuel :
  d_add (for_idx s) (for_step s) = for_idx s -> for_continues s = true ->
  for_body fuel s = None.
Proof.
  intros Hs Hc. induction fuel as [|fuel IH]; [done|]. cbn [for_body]. unfold op_fornloop.
  rewrite Hs. replace {| for_limit := for_limit s; for_step := for_step s;
                         for_idx := for_idx s |} with s by (by destruct s).
  by rewrite Hc, IH.
Qed.

Lemma for_loop_stuck_witness :
  for_body 1000 (int_state (2 ^ 53) (2 ^ 53 + 4) 1) = None.
Proof. apply for_loop_stuck; reflexivity. Defined.
