(* ===== verification/Fold.v ===== *)
(** Constant folding of the compiler, [Compiler/src/ConstantFolding.cpp]: the
    value of an operator on constants, computed at compile time.

    [result] is the constant the C++ code fills in; it enters the functions as
    [CUnknown] and comes back unchanged when nothing is folded.  The feature
    flag [LuauIntegerType2] is the parameter [integer_type]. *)
From S2P Require Import Prelude Word Double LuaApi IntLib Tm Arith CMath Compare.
Open Scope Z_scope.

(** [Constant] (ConstantFolding.h): a tagged union. *)
Inductive Constant :=
  | CUnknown
  | CNil
  | CBoolean (b : bool)
  | CNumber (n : double)
  | CInteger (l : Z)
  | CVectorf (x y z w : float32)
  | CVectord (x y z w : double)
  | CString (s : list Z)
  | CTable (index : Z).

Definition isTruthful (c : Constant) : bool :=
  match c with CNil => false | CBoolean false => false | _ => true end.

Definition is_unknown (c : Constant) : bool :=
  match c with CUnknown => true | _ => false end.

Inductive UnaryOp := Not | Minus | Len | BitNot | Await.

Inductive BinaryOp :=
  | Add | Sub | Mul | Div | FloorDiv | Mod | Pow | Concat
  | CompareNe | CompareEq | CompareLt | CompareLe | CompareGt | CompareGe
  | BitAnd | BitOr | BitXor | ShiftLeft | ShiftRight
  | And | Or.

Definition kConstantFoldStringLimit : Z := 4096.

Section Fold.
Context `{CPow} `{Target}.
Variable integer_type : bool.

Definition constantToInteger (value : Constant) : option Z :=
  match value with
  | CInteger l => Some l
  | CNumber n => if is_integral n && in_int64_range n then Some (luai_num2long n) else None
  | _ => None
  end.

(** [None] is the failed assertion. *)
Definition constantsEqual (la ra : Constant) : option bool :=
  match la with
  | CNil => Some (match ra with CNil => true | _ => false end)
  | CBoolean a => Some (match ra with CBoolean b => Bool.eqb a b | _ => false end)
  | CNumber a => Some (match ra with CNumber b => d_eq a b | _ => false end)
  | CVectorf x y z w =>
      Some (match ra with
            | CVectorf x' y' z' w' => SFeqb x x' && SFeqb y y' && SFeqb z z' && SFeqb w w'
            | _ => false
            end)
  | CVectord x y z w =>
      Some (match ra with
            | CVectord x' y' z' w' => d_eq x x' && d_eq y y' && d_eq z z' && d_eq w w'
            | _ => false
            end)
  | CString a => Some (match ra with CString b => bool_decide (a = b) | _ => false end)
  | CTable a => Some (match ra with CTable b => a =? b | _ => false end)
  | CInteger a =>
      if integer_type then Some (match ra with CInteger b => a =? b | _ => false end) else None
  | CUnknown => None
  end.

Definition foldUnary (result : Constant) (op : UnaryOp) (arg : Constant) : Constant :=
  match op with
  | Not => if is_unknown arg then result else CBoolean (negb (isTruthful arg))
  | Minus =>
      match arg with
      | CNumber n => CNumber (d_neg n)
      | CVectorf x y z w => CVectorf (f_neg x) (f_neg y) (f_neg z) (f_neg w)
      | CVectord x y z w => CVectord (d_neg x) (d_neg y) (d_neg z) (d_neg w)
      | _ => result
      end
  | Len =>
      match arg with
      | CString s => CNumber (double_of_Z (Z.of_nat (length s)))
      | _ => result
      end
  | BitNot =>
      if integer_type then
        match constantToInteger arg with
        | Some value => CInteger (Z.lnot value)
        | None => result
        end
      else result
  | Await => result
  end.

(** The bit operators. *)
Definition fold_bits (result : Constant) (op : BinaryOp) (la ra : Constant) : Constant :=
  if negb integer_type then result
  else match constantToInteger la, constantToInteger ra with
       | Some lv, Some rv =>
           let value :=
             match op with
             | BitAnd => Z.land (u64 lv) (u64 rv)
             | BitOr => Z.lor (u64 lv) (u64 rv)
             | BitXor => Z.lxor (u64 lv) (u64 rv)
             | _ =>
                 if (rv <=? -64) || (64 <=? rv) then 0
                 else match op with
                      | ShiftLeft =>
                          if rv <? 0 then shr_u (u64 lv) (- rv)
                          else shl_u 64 (u64 lv) rv
                      | _ =>
                          if rv <? 0 then shl_u 64 (u64 lv) (- rv)
                          else shr_u (u64 lv) rv
                      end
             end in
           CInteger (s64 value)
       | _, _ => result
       end.

(** [+] and [-] *)
Definition fold_addsub (fd : double -> double -> double)
    (ff : float32 -> float32 -> float32) (result la ra : Constant) : Constant :=
  match la, ra with
  | CNumber a, CNumber b => CNumber (fd a b)
  | CVectorf x y z w, CVectorf x' y' z' w' => CVectorf (ff x x') (ff y y') (ff z z') (ff w w')
  | CVectord x y z w, CVectord x' y' z' w' => CVectord (fd x x') (fd y y') (fd z z') (fd w w')
  | _, _ => result
  end.

(** [v != 0] *)
Definition nonzero (v : spec_float) : bool := negb (SFeqb v (S754_zero false)).

(** [*], [/] and [//] on vectors: the fourth component is kept out of the way
    of builds without one, so that the fold happens only when its result is
    zero or some operand had a fourth component. *)
Definition fold_w (hadW : bool) (resultW : spec_float) (folded result : Constant) : Constant :=
  if SFeqb resultW (S754_zero false) || hadW then folded else result.

Definition fold_scaled (fd : double -> double -> double)
    (ff : float32 -> float32 -> float32) (result la ra : Constant) : Constant :=
  match la, ra with
  | CNumber a, CNumber b => CNumber (fd a b)
  | CVectorf x y z w, CVectorf x' y' z' w' =>
      fold_w (nonzero w || nonzero w') (ff w w')
        (CVectorf (ff x x') (ff y y') (ff z z') (ff w w')) result
  | CNumber n, CVectorf x y z w =>
      let f := float_of_double n in
      fold_w (nonzero w) (ff f w) (CVectorf (ff f x) (ff f y) (ff f z) (ff f w)) result
  | CVectorf x y z w, CNumber n =>
      let f := float_of_double n in
      fold_w (nonzero w) (ff w f) (CVectorf (ff x f) (ff y f) (ff z f) (ff w f)) result
  | CVectord x y z w, CVectord x' y' z' w' =>
      fold_w (nonzero w || nonzero w') (fd w w')
        (CVectord (fd x x') (fd y y') (fd z z') (fd w w')) result
  | CNumber n, CVectord x y z w =>
      fold_w (nonzero w) (fd n w) (CVectord (fd n x) (fd n y) (fd n z) (fd n w)) result
  | CVectord x y z w, CNumber n =>
      fold_w (nonzero w) (fd w n) (CVectord (fd x n) (fd y n) (fd z n) (fd w n)) result
  | _, _ => result
  end.

Definition fold_add := fold_addsub d_add f_add.
Definition fold_sub := fold_addsub d_sub f_sub.
Definition fold_mul := fold_scaled d_mul f_mul.
Definition fold_div := fold_scaled d_div f_div.
Definition fold_floordiv :=
  fold_scaled (fun a b => d_floor (d_div a b)) (fun a b => f_floor (f_div a b)).

Definition fold_mod (result la ra : Constant) : Constant :=
  match la, ra with
  | CNumber a, CNumber b => CNumber (d_sub a (d_mul (d_floor (d_div a b)) b))
  | _, _ => result
  end.

Definition fold_pow (result la ra : Constant) : Constant :=
  match la, ra with CNumber a, CNumber b => CNumber (c_pow a b) | _, _ => result end.

Definition fold_concat (result la ra : Constant) : Constant :=
  match la, ra with
  | CString a, CString b =>
      if Z.of_nat (length a) + Z.of_nat (length b) <=? kConstantFoldStringLimit
      then CString (a ++ b) else result
  | _, _ => result
  end.

(** [==] and [~=]; a failed assertion leaves [false] in release builds. *)
Definition fold_equal (negated : bool) (result la ra : Constant) : Constant :=
  if is_unknown la || is_unknown ra then result
  else CBoolean (xorb negated (default false (constantsEqual la ra))).

Definition fold_order (cmp : double -> double -> bool) (result la ra : Constant) : Constant :=
  match la, ra with CNumber a, CNumber b => CBoolean (cmp a b) | _, _ => result end.

Definition foldBinary (result : Constant) (op : BinaryOp) (la ra : Constant) : Constant :=
  match op with
  | BitAnd | BitOr | BitXor | ShiftLeft | ShiftRight => fold_bits result op la ra
  | Add => fold_add result la ra
  | Sub => fold_sub result la ra
  | Mul => fold_mul result la ra
  | Div => fold_div result la ra
  | FloorDiv => fold_floordiv result la ra
  | Mod => fold_mod result la ra
  | Pow => fold_pow result la ra
  | Concat => fold_concat result la ra
  | CompareNe => fold_equal true result la ra
  | CompareEq => fold_equal false result la ra
  | CompareLt => fold_order d_lt result la ra
  | CompareLe => fold_order d_le result la ra
  | CompareGt => fold_order (fun a b => d_lt b a) result la ra
  | CompareGe => fold_order (fun a b => d_le b a) result la ra
  | And => if is_unknown la then result else if isTruthful la then ra else la
  | Or => if is_unknown la then result else if isTruthful la then la else ra
  end.

(** [foldInterpString] on the literal parts and the constants between them:
    one more part than constants, every constant a string. *)
Fixpoint interp_append (strings : list (list Z)) (exprs : list (list Z)) : list Z :=
  match strings, exprs with
  | s :: strings, e :: exprs => s ++ e ++ interp_append strings exprs
  | s :: strings, [] => s ++ interp_append strings []
  | [], _ => []
  end.

Definition foldInterpString (result : Constant) (strings exprs : list (list Z)) : Constant :=
  let resultLength :=
    fold_left (fun n s => n + Z.of_nat (length s)) exprs
      (fold_left (fun n s => n + Z.of_nat (length s)) strings 0) in
  if kConstantFoldStringLimit <? resultLength then result
  else if resultLength =? 0 then CString []
  else CString (interp_append strings exprs).
End Fold.

(** * The value of a constant

    What the loader puts into the constant table.  A constant of unknown value
    has none; a table constant stands for a table built at run time; double
    vectors do not occur in the build that is modelled. *)
Section Values.
Context `{VecSize} `{CPow} `{Target}.
Variable integer_type : bool.

Definition const_value (c : Constant) : option TValue :=
  match c with
  | CNil => Some LNil
  | CBoolean b => Some (LBoolean b)
  | CNumber n => Some (LNumber n)
  | CInteger l => Some (LInteger l)
  | CVectorf x y z w => Some (setvvalue x y z w)
  | CString s => Some (LString s)
  | CUnknown | CVectord _ _ _ _ | CTable _ => None
  end.

(** The event of an arithmetic operator. *)
Definition op_event (op : BinaryOp) : option TMS :=
  match op with
  | Add => Some TM_ADD | Sub => Some TM_SUB | Mul => Some TM_MUL | Div => Some TM_DIV
  | FloorDiv => Some TM_IDIV | Mod => Some TM_MOD | Pow => Some TM_POW
  | _ => None
  end.

Definition is_vector (c : Constant) : bool :=
  match c with CVectorf _ _ _ _ => true | _ => false end.

(** A folded constant is right for an operation: absent, or the value that the
    operation yields. *)
Definition agrees (c : Constant) (o : outcome (action TValue)) : Prop :=
  c = CUnknown \/ exists v, const_value c = Some v /\ o = Ret (Done v).

Lemma agrees_unknown o : agrees CUnknown o.
Proof. by left. Qed.

Lemma agrees_value c v o : const_value c = Some v -> o = Ret (Done v) -> agrees c o.
Proof. right. eauto. Qed.

Lemma agrees_w hadW w c o : agrees c o -> agrees (fold_w hadW w c CUnknown) o.
Proof. unfold fold_w. case_match; [done|by left]. Qed.

(** The VM's component-wise operations on vectors built by [setvvalue]: the
    fourth component matters only where there is one. *)
Lemma vmap2_setvvalue f x y z w x' y' z' w' :
  vmap2 f (if vec4 then [x; y; z; w] else [x; y; z])
          (if vec4 then [x'; y'; z'; w'] else [x'; y'; z'])
  = setvvalue (f x x') (f y y') (f z z') (f w w').
Proof. unfold vmap2, setvvalue. by destruct vec4. Qed.

Lemma vmap_setvvalue f x y z w :
  vmap f (if vec4 then [x; y; z; w] else [x; y; z]) = setvvalue (f x) (f y) (f z) (f w).
Proof. unfold vmap, setvvalue. by destruct vec4. Qed.

End Values.

Create HintDb fold discriminated.
#[export] Hint Resolve agrees_unknown agrees_w agrees_value : fold.

(** The equation of an arithmetic instruction on constants. *)
Ltac arith_value :=
  first
    [ reflexivity
    | exact (f_equal (fun v => Ret (Done v)) (vmap2_setvvalue _ _ _ _ _ _ _ _ _))
    | exact (f_equal (fun v => Ret (Done v)) (vmap_setvvalue _ _ _ _ _)) ].

(** C30. Folding an arithmetic operator on constants gives no constant or the value that
    the virtual machine computes for the operands, in builds with three and with four vector
    components, for numbers and vectors alike, whichever instruction the operation is compiled
    to: the register form, the form with a constant on the right, or that of [-] and [/] with a
    constant on the left.  There are two exceptions: [//] of a vector ([fold_divergences] has a
    wrong fold), and the power with a constant exponent, which is folded to [pow(n, k)] and which
    [LOP_POWK] computes as [n*n], [sqrt(n)] and [n*n*n] for [k = 2, 0.5, 3]. *)
Theorem fold_arith_sound `{VecSize} `{CPow} `{Target} it h op ev la ra va vb :
  op_event op = Some ev ->
  const_value la = Some va -> const_value ra = Some vb ->
  (op = FloorDiv -> is_vector la || is_vector ra = false) ->
  let c := foldBinary it CUnknown op la ra in
  agrees c (op_arith ev h va vb) /\
  (forall kv, vb = LNumber kv -> op <> Pow -> agrees c (op_arithk ev h va kv)) /\
  (forall kv, va = LNumber kv ->
     (op = Sub -> agrees c (op_subrk h kv vb)) /\ (op = Div -> agrees c (op_divrk h kv vb))) /\
  (forall n kv, op = Pow -> va = LNumber n -> vb = LNumber kv ->
     c = CNumber (c_pow n kv) /\ op_arithk ev h va kv = Ret (Done (LNumber (powk_value n kv)))).
Proof.
  intros He Ha Hb Hf c. unfold c.
  destruct op; try discriminate; injection He as <-; cbn [foldBinary].
  all: destruct la, ra; try discriminate; injection Ha as <-; injection Hb as <-.
  all: try (by specialize (Hf eq_refl)).
  all: repeat match goal with |- _ /\ _ => split end; intros; simplify_eq; try done.
  all: try (by apply agrees_unknown).
  all: repeat match goal with |- _ /\ _ => split end; intros; simplify_eq; try done.
  all: repeat apply agrees_w; try (eapply agrees_value; [reflexivity|arith_value]).
  all: apply agrees_unknown.
Qed.

#[local] Instance fold_pow_sample : CPow := fun x _ => x.
#[local] Instance fold_vec_sample : VecSize := false.

Lemma fold_arith_sound_witness :
  agrees (foldBinary true CUnknown FloorDiv (CNumber (double_of_Z (-7))) (CNumber (double_of_Z 2)))
    (op_arith TM_IDIV sample_heap (LNumber (double_of_Z (-7))) (LNumber (double_of_Z 2))) /\
  agrees (foldBinary true CUnknown FloorDiv (CNumber (double_of_Z (-7))) (CNumber (double_of_Z 2)))
    (op_idivk sample_heap (LNumber (double_of_Z (-7))) (double_of_Z 2)).
Proof.
  destruct (fold_arith_sound true sample_heap FloorDiv TM_IDIV
    (CNumber (double_of_Z (-7))) (CNumber (double_of_Z 2)) _ _ eq_refl eq_refl eq_refl (fun _ => eq_refl))
    as (Hr & Hk & _).
  split; [exact Hr|]. apply (Hk (double_of_Z 2)); [reflexivity|discriminate].
Defined.

(** * Comparisons *)

Section FoldCompare.
Context `{VecSize} `{CPow} `{Target}.

(** The same for a decision. *)
Definition agrees_bool (c : Constant) (o : outcome (action bool)) : Prop :=
  c = CUnknown \/ exists b, c = CBoolean b /\ o = Ret (Done b).

(** The instructions of the comparison operators; [>] and [>=] are compiled
    with their operands exchanged. *)
Definition compare_action (op : BinaryOp) (h : heap) (va vb : TValue)
    : outcome (action bool) :=
  match op with
  | CompareEq => (op_jumpifeq h va vb).2
  | CompareNe => (op_jumpifnoteq h va vb).2
  | CompareLt => op_jumpiflt h va vb
  | CompareLe => op_jumpifle h va vb
  | CompareGt => op_jumpiflt h vb va
  | _ => op_jumpifle h vb va
  end.

Definition is_comparison (op : BinaryOp) : bool :=
  match op with
  | CompareEq | CompareNe | CompareLt | CompareLe | CompareGt | CompareGe => true
  | _ => false
  end.

(** The fourth components compare equal, where there are any. *)
Definition w_equal (la ra : Constant) : bool :=
  match la, ra with
  | CVectorf _ _ _ w, CVectorf _ _ _ w' => SFeqb w w'
  | _, _ => true
  end.

Lemma veceq_setvvalue x y z w x' y' z' w' :
  luai_veceq (if vec4 then [x; y; z; w] else [x; y; z])
             (if vec4 then [x'; y'; z'; w'] else [x'; y'; z'])
  = SFeqb x x' && SFeqb y y' && SFeqb z z' && (if vec4 then SFeqb w w' else true).
Proof. unfold luai_veceq. destruct vec4; cbn; by rewrite ?andb_true_r. Qed.

Lemma agrees_bool_value c b o : c = CBoolean b -> o = Ret (Done b) -> agrees_bool c o.
Proof. right. eauto. Qed.

Lemma constantsEqual_sound h la ra va vb :
  const_value la = Some va -> const_value ra = Some vb ->
  vec4 = true \/ w_equal la ra = true ->
  exists b, constantsEqual true la ra = Some b /\
    (op_jumpifeq h va vb).2 = Ret (Done b) /\
    (op_jumpifnoteq h va vb).2 = Ret (Done (negb b)).
Proof.
  intros Ha Hb Hw. destruct la, ra; try discriminate;
    injection Ha as <-; injection Hb as <-; cbn [constantsEqual]; eexists;
    (split; [reflexivity|]); try done.
  cbn [w_equal] in Hw.
  unfold op_jumpifeq, op_jumpifnoteq, setvvalue. cbn [ttype Z.eqb Pos.eqb snd].
  rewrite veceq_setvvalue.
  replace (if vec4 then SFeqb w w0 else true) with (SFeqb w w0)
    by (destruct vec4; [done|]; by destruct Hw).
  done.
Qed.
End FoldCompare.

(** Folding a comparison decides what the virtual machine's jump decides
    on the same values, NaN included; for two vectors in a build with three
    components, provided that their fourth components compare equal. *)
Theorem fold_compare_sound `{VecSize} `{CPow} `{Target} h op la ra va vb :
  is_comparison op = true ->
  const_value la = Some va -> const_value ra = Some vb ->
  vec4 = true \/ w_equal la ra = true ->
  agrees_bool (foldBinary true CUnknown op la ra) (compare_action op h va vb).
Proof.
  intros Ho Ha Hb Hw. destruct op; try discriminate; cbn [foldBinary compare_action].
  1,2: destruct (constantsEqual_sound h la ra va vb Ha Hb Hw) as (b & E & Q1 & Q2);
    unfold fold_equal; rewrite E; destruct (is_unknown la || is_unknown ra); [by left|];
    eapply agrees_bool_value; [reflexivity|]; by destruct b.
  all: destruct la, ra; try (by left); injection Ha as <-; injection Hb as <-;
    by eapply agrees_bool_value.
Qed.

Lemma fold_compare_sound_witness :
  agrees_bool (foldBinary true CUnknown CompareLe (CNumber S754_nan) (CNumber S754_nan))
    (compare_action CompareLe sample_heap (LNumber S754_nan) (LNumber S754_nan)).
Proof.
  exact (fold_compare_sound sample_heap CompareLe (CNumber S754_nan) (CNumber S754_nan) _ _
  eq_refl eq_refl eq_refl (or_intror eq_refl)).
Defined.

(** Unary operators and the short-circuit operators: [not], [-] and [#]
    fold to what the instructions yield, [and] and [or] select the operand that
    the instructions select (also when the second one is not constant and the
    first decides). *)
Theorem fold_unary_logic_sound `{VecSize} `{CPow} `{Target} it h c va :
  const_value c = Some va ->
  agrees (foldUnary it CUnknown Not c) (Ret (Done (op_not va))) /\
  agrees (foldUnary it CUnknown Minus c) (op_minus h va) /\
  (foldUnary it CUnknown Len c = CUnknown \/
   exists v, const_value (foldUnary it CUnknown Len c) = Some v /\
     op_length h va = (h, Ret (Done (Ret v)))) /\
  (forall c2, foldBinary it CUnknown And c c2 = if l_isfalse va then c else c2) /\
  (forall c2, foldBinary it CUnknown Or c c2 = if l_isfalse va then c2 else c).
Proof.
  intros Hv. destruct c; try discriminate; injection Hv as <-.
  all: split; [eapply agrees_value; [reflexivity|by try destruct b]|].
  all: split; [first [by apply agrees_unknown | eapply agrees_value; [reflexivity|arith_value]]|].
  all: split; [first [by left | right; by eexists]|].
  all: by try destruct b.
Qed.

Lemma fold_unary_logic_sound_witness :
  foldBinary true CUnknown And (CBoolean false) CUnknown = CBoolean false.
Proof. exact (proj1 (proj2 (proj2 (proj2 (fold_unary_logic_sound true sample_heap (CBoolean false) _ eq_refl)))) CUnknown). Defined.

(** * Bit operators *)

(** The library function a bit operator is compiled to a call of. *)
Definition bit_function `{Target} (op : BinaryOp) : list TValue -> outcome (list TValue) :=
  match op with
  | BitAnd => int64_band
  | BitOr => int64_bor
  | BitXor => int64_bxor
  | ShiftLeft => int64_lshift
  | _ => int64_rshift
  end.

Definition is_bitop (op : BinaryOp) : bool :=
  match op with BitAnd | BitOr | BitXor | ShiftLeft | ShiftRight => true | _ => false end.

(** What makes a constant usable as an operand is what makes a value usable. *)
Lemma constantToInteger_operand `{VecSize} `{Target} c v args i :
  const_value c = Some v -> index2addr args i = Some v ->
  checkbitoperand args i =
    match constantToInteger c with
    | Some l => Ret l
    | None => luaL_argerror i "integer or integral number expected"
    end.
Proof.
  intros Hc Hi. unfold checkbitoperand. rewrite Hi.
  destruct c; try discriminate; injection Hc as <-; try done.
  cbn [constantToInteger]. by destruct (is_integral n && in_int64_range n).
Qed.

(** Integer constants are [int64_t]. *)
Definition wf_constant (c : Constant) : Prop :=
  match c with CInteger l => in_s 64 l | _ => True end.

Lemma not_u_signed a : in_s 64 a -> s64 (not_u 64 (u64 a)) = Z.lnot a.
Proof.
  intros Ha. unfold not_u. rewrite cast_s_cast_u by lia.
  replace (Z.lnot (u64 a)) with (-1 - u64 a) by (unfold Z.lnot; lia).
  replace (Z.lnot a) with (-1 - a) by (unfold Z.lnot; lia).
  rewrite <- (cast_s_id 64 (-1 - a)) by (unfold in_s in *; lia).
  rewrite <- (cast_s_cast_u 64 (-1 - u64 a)), <- (cast_s_cast_u 64 (-1 - a)) by lia.
  f_equal. unfold cast_u. by rewrite Zminus_mod_idemp_r.
Qed.

Lemma ullong_land x : Z.land ULLONG_MAX (u64 x) = u64 x.
Proof.
  change ULLONG_MAX with (Z.ones 64). rewrite Z.land_comm, Z.land_ones by lia.
  apply cast_u_idemp. lia.
Qed.

Lemma constantToInteger_range `{Target} c l :
  wf_constant c -> constantToInteger c = Some l -> in_s 64 l.
Proof.
  destruct c; try discriminate; cbn [wf_constant constantToInteger].
  - intros _. case_match; [|done]. intros [=<-]. apply luai_num2long_range.
  - by intros ? [=<-].
Qed.

Lemma shift_guard r : (r <=? -64) || (64 <=? r) = negb ((-63 <=? r) && (r <=? 63)).
Proof. lia. Qed.

Lemma fold_args_2 (get : Z -> outcome Z) op acc va vb :
  fold_args [va; vb] get op acc 1 = (x <- get 1 ;; y <- get 2 ;; Ret (op (op acc x) y)).
Proof. reflexivity. Qed.

(** The call raises the error of an operand that is not an integer. *)
Definition operand_error (o : outcome (list TValue)) : Prop :=
  exists i, o = luaL_argerror i "integer or integral number expected".

(** The bit operators fold exactly when both operands are integers or
    integral numbers of the [int64_t] range, to the integer that the call of
    the [integer] library they are otherwise compiled to returns; otherwise
    that call raises an error.  The same holds for the unary operator. *)
Theorem fold_bits_sound `{VecSize} `{CPow} `{Target} op la ra va vb :
  is_bitop op = true -> wf_constant la -> wf_constant ra ->
  const_value la = Some va -> const_value ra = Some vb ->
  ((exists r, foldBinary true CUnknown op la ra = CInteger r /\
      bit_function op [va; vb] = Ret [LInteger r]) \/
   (foldBinary true CUnknown op la ra = CUnknown /\ operand_error (bit_function op [va; vb]))) /\
  ((exists r, foldUnary true CUnknown BitNot la = CInteger r /\
      int64_bnot [va] = Ret [LInteger r]) \/
   (foldUnary true CUnknown BitNot la = CUnknown /\ operand_error (int64_bnot [va]))).
Proof.
  intros Ho Wa Wb Ha Hb. split.
  - pose proof (constantToInteger_operand la va [va; vb] 1 Ha eq_refl) as E1.
    pose proof (constantToInteger_operand ra vb [va; vb] 2 Hb eq_refl) as E2.
    replace (foldBinary true CUnknown op la ra) with (fold_bits true CUnknown op la ra)
      by by destruct op.
    unfold fold_bits. cbn [negb].
    destruct op; try discriminate; cbn [bit_function];
      unfold int64_band, int64_bor, int64_bxor, int64_lshift, int64_rshift;
      rewrite ?fold_args_2, E1;
      (destruct (constantToInteger la) as [l|] eqn:Hl; [|right; split; [done|by eexists]]);
      cbn [outcome_bind]; rewrite E2;
      (destruct (constantToInteger ra) as [r|] eqn:Hr; [|right; split; [done|by eexists]]);
      left; eexists; (split; [reflexivity|]); cbn [outcome_bind].
    + by rewrite ullong_land.
    + done.
    + done.
    + by rewrite (shift_guard r); case_match.
    + by rewrite (shift_guard r); case_match.
  - pose proof (constantToInteger_operand la va [va] 1 Ha eq_refl) as E1.
    unfold int64_bnot. rewrite E1. cbn [foldUnary].
    destruct (constantToInteger la) as [l|] eqn:Hl.
    + left. eexists. split; [reflexivity|]. cbn [outcome_bind]. unfold lua_pushinteger64.
      by rewrite (not_u_signed l (constantToInteger_range la l Wa Hl)).
    + right. split; [done|]. by eexists.
Qed.

Lemma fold_bits_sound_witness :
  (exists r, foldBinary true CUnknown ShiftLeft (CInteger 1) (CNumber (double_of_Z (-3))) = CInteger r
     /\ int64_lshift [LInteger 1; LNumber (double_of_Z (-3))] = Ret [LInteger r]) \/
  (foldBinary true CUnknown ShiftLeft (CInteger 1) (CNumber (double_of_Z (-3))) = CUnknown
     /\ operand_error (int64_lshift [LInteger 1; LNumber (double_of_Z (-3))])).
Proof.
  refine (proj1 (fold_bits_sound ShiftLeft (CInteger 1) (CNumber (double_of_Z (-3))) _ _
    eq_refl _ I eq_refl eq_refl)).
  unfold wf_constant, in_s. lia.
Defined.

(** * Where folding and execution part

    Floor division of a vector divides floats where the virtual machine divides
    doubles. *)

(** Two ways in which the optimised program differs from the unoptimised
    one: [vector(50331652, ...) // 3] folds to 16777218 and computes 16777216
    (the fold rounds the quotient to a [float] before taking the floor, the
    virtual machine divides doubles and rounds the floor), and in a build with
    three components two vectors that differ in a fourth component are folded to
    be different while the virtual machine finds them equal. *)
Theorem fold_divergences `{CPow} `{Target} h :
  let f z := float_of_double (double_of_Z z) in
  let v3 := CVectorf (f 50331652) (f 1) (f 1) (f 1) in
  (foldBinary true CUnknown FloorDiv v3 (CNumber (double_of_Z 3))
     = CVectorf (f 16777218) (f 0) (f 0) (f 0) /\
   (let _ : VecSize := true in
    op_idiv h (setvvalue (f 50331652) (f 1) (f 1) (f 1)) (LNumber (double_of_Z 3))
    = Ret (Done (setvvalue (f 16777216) (f 0) (f 0) (f 0))))) /\
  (let _ : VecSize := false in
   let a := CVectorf (f 1) (f 2) (f 3) (f 4) in
   let b := CVectorf (f 1) (f 2) (f 3) (f 5) in
   foldBinary true CUnknown CompareEq a b = CBoolean false /\
   exists v, const_value a = Some v /\ const_value b = Some v /\
     (op_jumpifeq h v v).2 = Ret (Done true)).
Proof. split; [split; vm_compute; reflexivity|]. split; [vm_compute; reflexivity|]. eexists. split; [reflexivity|]. split; [reflexivity|]. vm_compute. reflexivity. Qed.
