(* ===== verification/Key.v ===== *)
(** Table keys: raw equality of keys and their hashes, [VM/src/ltable.cpp] and
    [luaS_hash] of [VM/src/lstring.cpp] with its copy in
    [Bytecode/src/BytecodeBuilder.cpp].

    [ALT_HASH_FUNCTION] is 0, as in the source.  A pointer is the address of
    its object. *)
From S2P Require Import Prelude Word Bytes Double LuaApi Arith Compare.
Open Scope Z_scope.

(** * Memory images of floating point numbers

    The bit pattern of a NaN is not modelled: a NaN is never a key. *)
Definition sign_bit_at (w : Z) (s : bool) : Z := if s then 2 ^ w else 0.

Definition double_bits (d : double) : Z :=
  match d with
  | S754_zero s => sign_bit_at 63 s
  | S754_infinity s => sign_bit_at 63 s + Z.shiftl 2047 52
  | S754_nan => Z.shiftl 4095 51
  | S754_finite s m e =>
      if Zpos m <? 2 ^ 52 then sign_bit_at 63 s + Zpos m
      else sign_bit_at 63 s + Z.shiftl (e + 1075) 52 + (Zpos m - 2 ^ 52)
  end.

Definition float_bits (f : float32) : Z :=
  match f with
  | S754_zero s => sign_bit_at 31 s
  | S754_infinity s => sign_bit_at 31 s + Z.shiftl 255 23
  | S754_nan => Z.shiftl 511 22
  | S754_finite s m e =>
      if Zpos m <? 2 ^ 23 then sign_bit_at 31 s + Zpos m
      else sign_bit_at 31 s + Z.shiftl (e + 150) 23 + (Zpos m - 2 ^ 23)
  end.

(** * Hash functions *)

(** The finalizer of MurmurHash64B on two words, its low half. *)
Definition murmur_final (h1 h2 : Z) : Z :=
  let m := 0x5bd1e995 in
  let h1 := Z.lxor h1 (shr_u h2 18) in
  let h1 := mul_u 32 h1 m in
  let h2 := Z.lxor h2 (shr_u h1 22) in
  let h2 := mul_u 32 h2 m in
  let h1 := Z.lxor h1 (shr_u h2 17) in
  let h1 := mul_u 32 h1 m in
  let h2 := Z.lxor h2 (shr_u h1 19) in
  mul_u 32 h2 m.

Definition hashpointer (p : Z) : Z :=
  let h := u32 p in
  let h := Z.lxor h (shr_u h 16) in
  let h := mul_u 32 h 0x85ebca6b in
  let h := Z.lxor h (shr_u h 13) in
  let h := mul_u 32 h 0xc2b2ae35 in
  Z.lxor h (shr_u h 16).

Definition hashnum (n : double) : Z :=
  let i := double_bits n in
  murmur_final (u32 i) (Z.land (shr_u i 32) 0x7fffffff).

Definition hashint (n : Z) : Z :=
  let i := u64 n in
  murmur_final (u32 i) (shr_u i 32).

(** One coordinate: [-0] as [0], then scrambled. *)
Definition scramble (f : float32) : Z :=
  let i := float_bits f in
  let i := if i =? 0x80000000 then 0 else i in
  Z.lxor i (shr_u i 17).

Section Hash.
Context `{VecSize}.

Definition hashvec (v : list float32) : Z :=
  let i n := scramble (vnth v n) in
  let h := Z.lxor (Z.lxor (mul_u 32 (i 0%nat) 73856093) (mul_u 32 (i 1%nat) 19349663))
                  (mul_u 32 (i 2%nat) 83492791) in
  if vec4 then Z.lxor h (mul_u 32 (i 3%nat) 39916801) else h.

(** [rol] and [mix] of [luaS_hash]; [rol] is in fact a rotation to the right. *)
Definition rol (x s : Z) : Z := rotr_u 32 x s.

Definition mix (a b h u v w : Z) : Z * Z * Z :=
  let a := Z.lxor a h in
  let a := sub_u 32 a (rol h u) in
  let b := Z.lxor b a in
  let b := sub_u 32 b (rol a v) in
  let h := Z.lxor h b in
  let h := sub_u 32 h (rol b w) in
  (a, b, h).

(** [while (len >= 32)]: 12 bytes at a time. *)
Fixpoint hash_blocks (fuel : nat) (a b h : Z) (str : list Z) : Z * list Z :=
  match fuel with
  | O => (h, str)
  | S k =>
      if (32 <=? Z.of_nat (length str)) then
        let block n := le_combine (take 4 (drop (4 * n) str)) in
        let '(a, b, h) := mix (add_u 32 a (block 0%nat)) (add_u 32 b (block 1%nat))
                              (add_u 32 h (block 2%nat)) 14 11 25 in
        hash_blocks k a b h (drop 12 str)
      else (h, str)
  end.

(** [h ^= (h << 5) + (h >> 2) + c] over the bytes, the last one first. *)
Definition hash_step (h c : Z) : Z :=
  Z.lxor h (add_u 32 (add_u 32 (shl_u 32 h 5) (shr_u h 2)) c).

Definition luaS_hash (str : list Z) : Z :=
  let h := u32 (Z.of_nat (length str)) in
  let '(h, rest) := hash_blocks (length str) 0 0 h str in
  fold_left hash_step (rev rest) h.

(** The compiler's copy. *)
Definition getStringHash (key : list Z) : Z :=
  fold_left hash_step (rev key) (u32 (Z.of_nat (length key))).

(** The hash of which [mainposition] keeps the low bits. *)
Definition key_hash (key : TValue) : Z :=
  match key with
  | LNumber n => hashnum n
  | LInteger l => hashint l
  | LVector v => hashvec v
  | LString s => luaS_hash s
  | LBoolean b => Zb b
  | LLightUserdata p _ => hashpointer p
  | LTable gc | LFunction gc | LUserdata gc | LThread gc | LClass gc | LObject gc
  | LBuffer gc _ => hashpointer gc
  | LNil => 0
  end.

(** * Raw equality of keys *)

(** [luaO_rawequalKey]: the same text as [luaO_rawequalObj]. *)
Definition luaO_rawequalKey (t1 t2 : TValue) : bool := luaO_rawequalObj t1 t2.

(** The representative of the keys equal to a key: [-0] becomes [0], what is
    not compared is dropped. *)
Definition norm_num (n : spec_float) : spec_float :=
  match n with S754_zero _ => S754_zero false | _ => n end.

Definition key_norm (k : TValue) : TValue :=
  match k with
  | LNumber n => LNumber (norm_num n)
  | LVector v =>
      LVector (map (fun i => norm_num (vnth v i)) (seq 0 (if vec4 then 4 else 3)))
  | LBuffer gc _ => LBuffer gc []
  | _ => k
  end.

(** Keys that [luaH_newkey] accepts. *)
Definition luai_vecisnan (v : list float32) : bool :=
  let nan i := negb (SFeqb (vnth v i) (vnth v i)) in
  if vec4 then nan 0%nat || nan 1%nat || nan 2%nat || nan 3%nat
  else nan 0%nat || nan 1%nat || nan 2%nat.

Definition valid_key (k : TValue) : bool :=
  match k with
  | LNil => false
  | LNumber n => d_eq n n
  | LVector v => negb (luai_vecisnan v)
  | _ => true
  end.
End Hash.

Lemma SFeqb_norm a b :
  SFeqb a a = true -> SFeqb a b = bool_decide (norm_num a = norm_num b).
Proof.
  intros Ha. symmetry.
  destruct a as [s|s| |s m e], b as [s'|s'| |s' m' e']; try done.
  all: try (transitivity false; [by apply bool_decide_eq_false_2|by destruct s, s']).
  all: try (transitivity false; [by apply bool_decide_eq_false_2|by destruct s]).
  all: try (transitivity false; [by apply bool_decide_eq_false_2|by destruct s']).
  - destruct s, s'; first [by transitivity true; [apply bool_decide_eq_true_2|]
                          |by transitivity false; [apply bool_decide_eq_false_2|]].
  - cbn [norm_num]. unfold SFeqb. cbn [SFcompare].
    destruct (decide (S754_finite s m e = S754_finite s' m' e')) as [[= -> -> ->]|Hne].
    + rewrite bool_decide_eq_true_2 by done. rewrite Z.compare_refl.
      change (Pos.compare_cont Eq m' m') with (m' ?= m')%positive.
      rewrite Pos.compare_refl. by destruct s'.
    + rewrite bool_decide_eq_false_2 by done.
      destruct s, s'; try done; destruct (Z.compare_spec e e') as [->| |]; try done.
      all: change (Pos.compare_cont Eq m m') with (m ?= m')%positive;
           destruct (Pos.compare_spec m m') as [->| |]; done.
Qed.

Lemma SFeqb_refl_norm a b : norm_num a = norm_num b -> SFeqb a a = true -> SFeqb b b = true.
Proof. by destruct a as [[]|[]| |], b as [[]|[]| |]; cbn; intros E ?; simplify_eq. Qed.

Section KeyFacts.
Context `{VecSize}.

Lemma forallb_norm (a b : list float32) l :
  (forall i, i ∈ l -> SFeqb (vnth a i) (vnth a i) = true) ->
  forallb (fun i => SFeqb (vnth a i) (vnth b i)) l
  = bool_decide (map (fun i => norm_num (vnth a i)) l = map (fun i => norm_num (vnth b i)) l).
Proof.
  induction l as [|i l IH]; intros Hl; cbn [forallb map]; [done|].
  rewrite SFeqb_norm by (apply Hl; left).
  rewrite IH by (intros j Hj; apply Hl; by right).
  destruct (decide (norm_num (vnth a i) = norm_num (vnth b i))) as [E|E].
  - rewrite (bool_decide_eq_true_2 _ E), E. cbn [andb]. apply bool_decide_ext.
    split; [by intros ->|by intros [=]].
  - rewrite (bool_decide_eq_false_2 _ E). cbn [andb]. symmetry.
    apply bool_decide_eq_false_2. intros [=]. done.
Qed.

Lemma veceq_forallb a b :
  luai_veceq a b = forallb (fun i => SFeqb (vnth a i) (vnth b i)) (seq 0 (if vec4 then 4 else 3)).
Proof. unfold luai_veceq. destruct vec4; cbn; by rewrite ?andb_true_r, ?andb_assoc. Qed.

Lemma vec_valid a :
  luai_vecisnan a = false ->
  forall i, i ∈ seq 0 (if vec4 then 4 else 3) -> SFeqb (vnth a i) (vnth a i) = true.
Proof.
  unfold luai_vecisnan. intros Hn i Hi.
  destruct vec4; repeat (apply elem_of_cons in Hi as [->|Hi]); bool_simpl; try done;
    by apply elem_of_nil in Hi.
Qed.

(** Raw equality is equality of representatives. *)
Lemma rawequalKey_norm a b :
  valid_key a = true -> luaO_rawequalKey a b = bool_decide (key_norm a = key_norm b).
Proof.
  intros Ha. unfold luaO_rawequalKey, luaO_rawequalObj.
  destruct a, b; try discriminate; cbn [ttype Z.eqb Pos.eqb negb key_norm valid_key] in *;
    try (symmetry; apply bool_decide_eq_false_2; discriminate).
  all: cbn [same_object].
  all: lazymatch goal with
       | |- (?x =? ?y) = _ =>
           destruct (Z.eqb_spec x y); symmetry;
             [apply bool_decide_eq_true_2|apply bool_decide_eq_false_2]; congruence
       | _ => idtac
       end.
  - by destruct b, b0.
  - destruct (Z.eqb_spec p p0), (Z.eqb_spec tag tag0); cbn [andb]; symmetry;
      [apply bool_decide_eq_true_2|apply bool_decide_eq_false_2..]; congruence.
  - unfold d_eq. rewrite SFeqb_norm by done. apply bool_decide_ext.
    split; [by intros ->|by intros [=]].
  - rewrite veceq_forallb, forallb_norm.
    + apply bool_decide_ext. split; [by intros ->|by intros [=]].
    + apply vec_valid. by apply negb_true_iff in Ha.
  - apply bool_decide_ext. split; congruence.
Qed.
End KeyFacts.

(** * Equal keys have equal hashes *)

Section HashFacts.
Context `{VecSize}.

Lemma norm_num_cases a b :
  norm_num a = norm_num b -> a = b \/ exists s s', a = S754_zero s /\ b = S754_zero s'.
Proof. destruct a as [s|s| |s m e], b as [s'|s'| |s' m' e']; cbn; intros E; simplify_eq; eauto. Qed.

Lemma hashnum_norm a b : norm_num a = norm_num b -> hashnum a = hashnum b.
Proof. intros [->|(s & s' & -> & ->)]%norm_num_cases; [done|]. by destruct s, s'. Qed.

Lemma scramble_norm a b : norm_num a = norm_num b -> scramble a = scramble b.
Proof. intros [->|(s & s' & -> & ->)]%norm_num_cases; [done|]. by destruct s, s'. Qed.

Lemma hashvec_norm a b : key_norm (LVector a) = key_norm (LVector b) -> hashvec a = hashvec b.
Proof.
  cbn [key_norm]. intros [= E]. unfold hashvec.
  destruct vec4; injection E as E0 E1 E2.
  - by rewrite (scramble_norm _ _ E0), (scramble_norm _ _ E1), (scramble_norm _ _ E2),
      (scramble_norm _ _ H0).
  - by rewrite (scramble_norm _ _ E0), (scramble_norm _ _ E1), (scramble_norm _ _ E2).
Qed.

Lemma key_hash_norm a b : key_norm a = key_norm b -> key_hash a = key_hash b.
Proof.
  destruct a, b; try discriminate; try (by intros [= -> ]); try (by intros [= -> ->]); try done.
  - intros [= E]. by apply hashnum_norm.
  - apply hashvec_norm.
Qed.

Lemma valid_key_norm a b : key_norm a = key_norm b -> valid_key a = true -> valid_key b = true.
Proof.
  destruct a, b; try discriminate; try done.
  - intros [= E]. by apply SFeqb_refl_norm.
  - intros [= E]. cbn [valid_key]. unfold luai_vecisnan. rewrite !negb_true_iff.
    destruct vec4; injection E; intros; bool_simpl; repeat (apply orb_false_intro);
      apply negb_false_iff; eauto using SFeqb_refl_norm.
Qed.

End HashFacts.

(** The hash of a string that the compiler embeds in an instruction is the
    hash the virtual machine computes, for every string shorter than 32 bytes;
    from 32 bytes on the two algorithms differ. *)
Theorem string_hash_agree str :
  (length str < 32)%nat -> getStringHash str = luaS_hash str.
Proof.
  intros Hl. unfold getStringHash, luaS_hash.
  destruct str as [|c str]; [done|].
  cbn [length hash_blocks]. rewrite (proj2 (Z.leb_gt _ _)) by (cbn [length] in *; lia). done.
Qed.

(** "HttpService", as the compiler and the machine hash it. *)
Lemma string_hash_agree_witness :
  getStringHash [72; 116; 116; 112; 83; 101; 114; 118; 105; 99; 101]
  = luaS_hash [72; 116; 116; 112; 83; 101; 114; 118; 105; 99; 101].
Proof.
  apply (string_hash_agree [72; 116; 116; 112; 83; 101; 114; 118; 105; 99; 101]).
  cbn. lia.
Defined.

(** The hashes part from 32 bytes on. *)
Example string_hash_differ :
  getStringHash (repeat 97 32) <> luaS_hash (repeat 97 32).
Proof. vm_compute. discriminate. Qed.
