(* ===== verification/TableNode.v ===== *)
(** The hash part of a table, [VM/src/ltable.cpp]: a chained scatter table with
    Brent's variation in an array of [2^lsizenode] nodes, each linked to the
    next one of its chain by a signed offset.

    The file holds the walks along a chain, the free position search and the
    placement of a new key ([newkey] without its calls of [rehash]), the
    invariant of the hash part and its preservation. *)
From stdpp Require Import sets sorting.
From S2P Require Import Prelude Word Double LuaApi Arith Compare Key.
Open Scope Z_scope.

(** [TKey]: a value, or the address of a collected object whose entry is
    empty ([LUA_TDEADKEY]). *)
Inductive TKey := KLive (k : TValue) | KDead (gc : Z).

#[export] Instance TKey_eq_dec : EqDecision TKey.
Proof. solve_decision. Defined.

Record LuaNode := { nval : TValue; nkey : TKey; nnext : Z }.

(** A node as [memset] leaves it, and as [luaH_dummynode] is. *)
Definition empty_node : LuaNode := {| nval := LNil; nkey := KLive LNil; nnext := 0 |}.

Definition set_nval (v : TValue) (n : LuaNode) : LuaNode :=
  {| nval := v; nkey := nkey n; nnext := nnext n |}.
Definition setnodekey (k : TValue) (n : LuaNode) : LuaNode :=
  {| nval := nval n; nkey := KLive k; nnext := nnext n |}.
Definition set_nnext (d : Z) (n : LuaNode) : LuaNode :=
  {| nval := nval n; nkey := nkey n; nnext := d |}.

(** [gnode(t, i)]; the model reads an empty node out of range. *)
Definition gnode (nodes : list LuaNode) (i : nat) : LuaNode := default empty_node (nodes !! i).

(** [n + gnext(n)] *)
Definition next_index (nodes : list LuaNode) (i : nat) : nat :=
  Z.to_nat (Z.of_nat i + nnext (gnode nodes i)).

(** The loop of every search: from a node along its chain, up to the first
    node whose key satisfies [p]. *)
Fixpoint chain_find (fuel : nat) (nodes : list LuaNode) (p : TKey -> bool) (i : nat)
    : option nat :=
  match fuel with
  | O => None
  | S f =>
      if p (nkey (gnode nodes i)) then Some i
      else if nnext (gnode nodes i) =? 0 then None
      else chain_find f nodes p (next_index nodes i)
  end.

(** [while (othern + gnext(othern) != mp) othern += gnext(othern)] *)
Fixpoint find_previous (fuel : nat) (nodes : list LuaNode) (othern mp : nat) : option nat :=
  match fuel with
  | O => None
  | S f =>
      if Nat.eqb (next_index nodes othern) mp then Some othern
      else find_previous f nodes (next_index nodes othern) mp
  end.

Definition ttisnilkey (k : TKey) : bool :=
  match k with KLive LNil => true | _ => false end.

(** The loop of [getfreepos], from [lastfree] down. *)
Fixpoint getfreepos_loop (nodes : list LuaNode) (lastfree : nat) : option nat * nat :=
  match lastfree with
  | O => (None, O)
  | S k => if ttisnilkey (nkey (gnode nodes k)) then (Some k, k) else getfreepos_loop nodes k
  end.

Definition getfreepos (nodes : list LuaNode) (lastfree : Z) : option nat * Z :=
  if 0 <? lastfree then
    let '(r, lf) := getfreepos_loop nodes (Z.to_nat lastfree) in (r, Z.of_nat lf)
  else (None, lastfree).

Section Nodes.
Context `{VecSize}.

(** [hashpow2]: the low [lsizenode] bits of the hash. *)
Definition mainposition (lsizenode : Z) (key : TValue) : nat :=
  Z.to_nat (Z.land (key_hash key) (Z.shiftl 1 lsizenode - 1)).

(** [newkey] when the main position is taken and [n] is a free node: the
    colliding node moves, or the new key goes to the free node.  The result
    is the node that receives the key. *)
Definition newkey_collide (lsizenode : Z) (nodes : list LuaNode) (mp n : nat) (mk : TValue)
    : option (list LuaNode * nat) :=
  let othern := mainposition lsizenode mk in
  let offset a b := Z.of_nat a - Z.of_nat b in
  if negb (Nat.eqb othern mp) then
    match find_previous (length nodes) nodes othern mp with
    | None => None
    | Some othern =>
        let nodes := <[othern := set_nnext (offset n othern) (gnode nodes othern)]> nodes in
        let nodes := <[n := gnode nodes mp]> nodes in
        let nodes :=
          if negb (nnext (gnode nodes mp) =? 0) then
            let nodes := <[n := set_nnext (nnext (gnode nodes n) + offset mp n)
                                  (gnode nodes n)]> nodes in
            <[mp := set_nnext 0 (gnode nodes mp)]> nodes
          else nodes in
        Some (<[mp := set_nval LNil (gnode nodes mp)]> nodes, mp)
    end
  else
    let nodes :=
      if negb (nnext (gnode nodes mp) =? 0)
      then <[n := set_nnext (offset (next_index nodes mp) n) (gnode nodes n)]> nodes
      else nodes in
    Some (<[mp := set_nnext (offset n mp) (gnode nodes mp)]> nodes, n).

Definition live_key (k : TKey) : option TValue :=
  match k with KLive LNil => None | KLive k => Some k | KDead _ => None end.

(** The placement of a new key: [None] when there is no free node. *)
Definition newkey_place (lsizenode : Z) (nodes : list LuaNode) (lastfree : Z) (key : TValue)
    : option (list LuaNode * Z * nat) :=
  let mp := mainposition lsizenode key in
  if negb (match nval (gnode nodes mp) with LNil => true | _ => false end) then
    match getfreepos nodes lastfree with
    | (None, _) => None
    | (Some n, lastfree) =>
        match nkey (gnode nodes mp) with
        | KLive mk =>
            match newkey_collide lsizenode nodes mp n mk with
            | Some (nodes, mp) => Some (<[mp := setnodekey key (gnode nodes mp)]> nodes, lastfree, mp)
            | None => None
            end
        | KDead _ => None
        end
    end
  else Some (<[mp := setnodekey key (gnode nodes mp)]> nodes, lastfree, mp).

(** * Chains *)

(** The next node of a chain. *)
Definition succ (nodes : list LuaNode) (i : nat) : option nat :=
  if nnext (gnode nodes i) =? 0 then None else Some (next_index nodes i).
End Nodes.

(** The nodes of the chain that starts at [i], under a successor function on
    the nodes below [len]. *)
Inductive chain (len : nat) (s : nat -> option nat) : nat -> list nat -> Prop :=
  | chain_last i : (i < len)%nat -> s i = None -> chain len s i [i]
  | chain_cons i j l : (i < len)%nat -> s i = Some j -> chain len s j l -> chain len s i (i :: l).

Section Chains.
Context (len : nat).
Implicit Types s : nat -> option nat.

Lemma chain_det s i l l' : chain len s i l -> chain len s i l' -> l = l'.
Proof.
  intros Hc. revert l'. induction Hc as [i Hi Hs|i j l Hi Hs Hc IH]; intros l' Hc'.
  - inversion Hc'; subst; [done|congruence].
  - inversion Hc' as [|? j' l2 _ Hs' Hc2]; subst; [congruence|].
    rewrite Hs in Hs'. injection Hs' as <-. by rewrite (IH _ Hc2).
Qed.

Lemma chain_head s i l : chain len s i l -> i ∈ l.
Proof. destruct 1; left. Qed.

Lemma chain_lt s i l j : chain len s i l -> j ∈ l -> (j < len)%nat.
Proof.
  induction 1 as [i Hi Hs|i k l Hi Hs Hc IH]; intros Hj.
  - by apply list_elem_of_singleton in Hj as ->.
  - apply elem_of_cons in Hj as [->|Hj]; auto.
Qed.

Lemma chain_suffix s i l j :
  chain len s i l -> j ∈ l -> exists l1 l2, l = l1 ++ l2 /\ chain len s j l2.
Proof.
  induction 1 as [i Hi Hs|i k l Hi Hs Hc IH]; intros Hj.
  - apply list_elem_of_singleton in Hj as ->. exists [], [i]. split; [done|by constructor].
  - apply elem_of_cons in Hj as [->|Hj].
    + exists [], (i :: l). split; [done|by econstructor].
    + destruct (IH Hj) as (l1 & l2 & -> & H2). by exists (i :: l1), l2.
Qed.

(** A chain that ends visits no node twice. *)
Lemma chain_NoDup s i l : chain len s i l -> NoDup l.
Proof.
  induction 1 as [i Hi Hs|i j l Hi Hs Hc IH]; [apply NoDup_singleton|].
  apply NoDup_cons. split; [|done]. intros Hin.
  destruct (chain_suffix _ _ _ _ Hc Hin) as (l1 & l2 & -> & H2).
  assert (chain len s i (i :: l1 ++ l2)) as H1 by by econstructor.
  pose proof (chain_det _ _ _ _ H1 H2) as E. apply (f_equal length) in E.
  cbn in E. rewrite length_app in E. lia.
Qed.

Lemma chain_length s i l : chain len s i l -> (length l <= len)%nat.
Proof.
  intros Hc. rewrite <- (length_seq len 0). apply submseteq_length, NoDup_submseteq.
  - by eapply chain_NoDup.
  - intros j Hj. apply elem_of_seq. pose proof (chain_lt _ _ _ _ Hc Hj). lia.
Qed.

Lemma chain_ext s s' i l :
  (forall j, j ∈ l -> s' j = s j) -> chain len s i l -> chain len s' i l.
Proof.
  intros He Hc. induction Hc as [i Hi Hs|i j l Hi Hs Hc IH].
  - constructor; [done|]. rewrite He; [done|left].
  - econstructor; [done|rewrite He; [done|left]|]. apply IH. intros k Hk. apply He. by right.
Qed.

(** Every node of the chain but its head is somebody's successor. *)
Lemma chain_pred s i l j : chain len s i l -> j ∈ l -> j <> i -> exists k, s k = Some j.
Proof.
  induction 1 as [i Hi Hs|i k l Hi Hs Hc IH]; intros Hj Hne.
  - by apply list_elem_of_singleton in Hj as ->.
  - apply elem_of_cons in Hj as [->|Hj]; [done|].
    destruct (decide (j = k)) as [->|]; [by exists i|auto].
Qed.

(** Inserting the fresh node [n] behind [mp]. *)
Lemma chain_insert s s' mp n i l :
  s' mp = Some n -> s' n = s mp -> (forall j, j <> mp -> j <> n -> s' j = s j) ->
  (n < len)%nat -> n ∉ l -> chain len s i l ->
  exists l', chain len s' i l' /\ (forall j, j ∈ l -> j ∈ l') /\ (mp ∈ l -> n ∈ l').
Proof.
  intros Hmp Hn Ho Hlt Hnl Hc. induction Hc as [i Hi Hs|i j l Hi Hs Hc IH].
  - rewrite not_elem_of_cons in Hnl. destruct (decide (i = mp)) as [->|Hne].
    + exists [mp; n]. split; [|set_solver].
      apply chain_cons with n; [done|done|]. constructor; congruence.
    + exists [i]. split; [|set_solver]. constructor; [done|]. rewrite Ho; naive_solver.
  - rewrite not_elem_of_cons in Hnl. destruct Hnl as [Hni Hnl].
    destruct (IH Hnl) as (l' & Hc' & Hsub & Hin).
    destruct (decide (i = mp)) as [->|Hne].
    + exists (mp :: n :: l'). split; [|set_solver].
      apply chain_cons with n; [done|done|]. apply chain_cons with j; [done|congruence|done].
    + exists (i :: l'). split; [|set_solver].
      apply chain_cons with j; [done| |done]. rewrite Ho; naive_solver.
Qed.

(** Moving the node [mp], the successor of [p] alone, to the fresh node [n]. *)
Lemma chain_move s s' p mp n i l :
  s p = Some mp -> (forall k, s k = Some mp -> k = p) ->
  s' p = Some n -> s' n = s mp ->
  (forall j, j <> p -> j <> mp -> j <> n -> s' j = s j) ->
  p <> mp -> p <> n -> (n < len)%nat -> n ∉ l -> i <> mp -> chain len s i l ->
  exists l', chain len s' i l' /\ (forall j, j ∈ l -> j <> mp -> j ∈ l') /\ (mp ∈ l -> n ∈ l').
Proof.
  intros Hp Huniq Hp' Hn' Ho Hpmp Hpn Hlt Hnl Himp Hc.
  induction Hc as [i Hi Hs|i j l Hi Hs Hc IH].
  - exists [i]. split; [|set_solver]. constructor; [done|].
    rewrite Ho; [done|congruence|done|set_solver].
  - rewrite not_elem_of_cons in Hnl. destruct Hnl as [Hni Hnl].
    destruct (decide (i = p)) as [->|Hip].
    + assert (j = mp) as -> by congruence.
      assert (Hnd : NoDup (p :: l)).
      { apply (chain_NoDup s p). by apply chain_cons with mp. }
      apply NoDup_cons in Hnd as [Hpl Hnd].
      assert (Htail : exists t, l = mp :: t /\ chain len s' n (n :: t)).
      { inversion Hc as [? Hmlt Hms|? j t Hmlt Hms Hct]; subst.
        - exists []. split; [done|]. constructor; [done|congruence].
        - exists t. split; [done|]. apply chain_cons with j; [done|congruence|].
          apply NoDup_cons in Hnd as [Hmt _]. apply chain_ext with s; [|done].
          intros k Hk. apply Ho; set_solver. }
      destruct Htail as (t & -> & Ht). exists (p :: n :: t). split; [|set_solver].
      by apply chain_cons with n.
    + assert (j <> mp) as Hj by (intros ->; apply Hip; by apply Huniq).
      destruct (IH Hnl Hj) as (l' & Hc' & Hsub & Hin). exists (i :: l').
      split; [|set_solver]. apply chain_cons with j; [done| |done]. by rewrite Ho.
Qed.
End Chains.

(** * Reading updated nodes *)

Lemma gnode_insert_eq nodes i x : (i < length nodes)%nat -> gnode (<[i := x]> nodes) i = x.
Proof. intros Hi. unfold gnode. by rewrite list_lookup_insert_eq. Qed.

Lemma gnode_insert_ne nodes i j x : i <> j -> gnode (<[i := x]> nodes) j = gnode nodes j.
Proof. intros Hne. unfold gnode. by rewrite list_lookup_insert_ne. Qed.

Lemma gnode_beyond nodes i : (length nodes <= i)%nat -> gnode nodes i = empty_node.
Proof. intros Hi. unfold gnode. by rewrite lookup_ge_None_2. Qed.

Lemma gnode_lookup nodes i : (i < length nodes)%nat -> nodes !! i = Some (gnode nodes i).
Proof. intros Hi. unfold gnode. by destruct (lookup_lt_is_Some_2 nodes i Hi) as [n ->]. Qed.

(** Read the nodes of a chain of updates at distinct places. *)
Ltac gnode_simpl :=
  repeat first
    [ rewrite gnode_insert_eq by (rewrite ?length_insert; lia)
    | rewrite gnode_insert_ne by congruence ].

(** The index of the nodes whose key is taken. *)
Definition occupied (ns : list LuaNode) : list nat :=
  filter (fun i => ttisnilkey (nkey (gnode ns i)) = false) (seq 0 (length ns)).

Lemma occupied_le ns : (length (occupied ns) <= length ns)%nat.
Proof. unfold occupied. rewrite <- (length_seq (length ns) 0) at 2. apply length_filter. Qed.

Lemma occupied_full ns :
  (forall i, (i < length ns)%nat -> ttisnilkey (nkey (gnode ns i)) = false) ->
  length (occupied ns) = length ns.
Proof.
  intros Hall. apply Nat.le_antisymm; [apply occupied_le|].
  rewrite <- (length_seq (length ns) 0) at 1.
  apply submseteq_length, NoDup_submseteq; [apply NoDup_seq|].
  intros i Hi. apply list_elem_of_filter. split; [|done].
  apply elem_of_seq in Hi. apply Hall. lia.
Qed.

Lemma occupied_step ns ns' i0 :
  length ns' = length ns ->
  (forall i, i <> i0 -> ttisnilkey (nkey (gnode ns' i)) = false ->
     ttisnilkey (nkey (gnode ns i)) = false) ->
  (length (occupied ns') <= S (length (occupied ns)))%nat.
Proof.
  intros Hlen Hi. change (S (length (occupied ns))) with (length (i0 :: occupied ns)).
  apply submseteq_length, NoDup_submseteq; [apply NoDup_filter, NoDup_seq|].
  intros j [Hj Hs]%list_elem_of_filter. rewrite Hlen in Hs.
  destruct (decide (j = i0)) as [->|Hne]; [left|right]. apply list_elem_of_filter. eauto.
Qed.

(** * The invariant *)

Section Invariant.
Context `{VecSize}.
Variable ls : Z.

(** The node [i] holds the key [k] (its value may be [nil]). *)
Definition live (nodes : list LuaNode) (i : nat) (k : TValue) : Prop :=
  live_key (nkey (gnode nodes i)) = Some k.

Record wf_nodes (nodes : list LuaNode) (lastfree : Z) : Prop := {
  wf_size : 0 <= ls /\ length nodes = Z.to_nat (2 ^ ls);
  wf_bound : forall i, (i < length nodes)%nat ->
    0 <= Z.of_nat i + nnext (gnode nodes i) < Z.of_nat (length nodes);
  wf_chain : forall i, (i < length nodes)%nat ->
    exists l, chain (length nodes) (succ nodes) i l;
  wf_inj : forall i i' j, succ nodes i = Some j -> succ nodes i' = Some j -> i = i';
  wf_nil : forall i, (i < length nodes)%nat -> ttisnilkey (nkey (gnode nodes i)) = true ->
    nval (gnode nodes i) = LNil /\ nnext (gnode nodes i) = 0 /\
    (forall j, succ nodes j <> Some i) /\
    (forall j k, live nodes j k -> mainposition ls k <> i);
  wf_reach : forall i k, live nodes i k ->
    exists l, chain (length nodes) (succ nodes) (mainposition ls k) l /\ i ∈ l;
  wf_brent : forall i k, live nodes i k -> mainposition ls k <> i ->
    forall j k', live nodes j k' -> mainposition ls k' <> i;
  wf_uniq : forall i j k k', live nodes i k -> live nodes j k' ->
    key_norm k = key_norm k' -> i = j;
  wf_val : forall i, nval (gnode nodes i) <> LNil -> exists k, live nodes i k;
  wf_key : forall i k, live nodes i k -> valid_key k = true;
  wf_free : forall i, lastfree <= Z.of_nat i -> (i < length nodes)%nat ->
    ttisnilkey (nkey (gnode nodes i)) = false;
}.

Lemma mainposition_lt k : 0 <= ls -> (mainposition ls k < Z.to_nat (2 ^ ls))%nat.
Proof.
  intros Hls. unfold mainposition. rewrite Z.shiftl_1_l.
  replace (2 ^ ls - 1) with (Z.ones ls) by (rewrite Z.ones_equiv; lia).
  rewrite Z.land_ones by done. pose proof (Z.mod_pos_bound (key_hash k) (2 ^ ls)).
  pose proof (pow2_pos ls Hls). lia.
Qed.

Lemma mainposition_norm k k' : key_norm k = key_norm k' -> mainposition ls k = mainposition ls k'.
Proof. intros E. unfold mainposition. by rewrite (key_hash_norm _ _ E). Qed.

Lemma live_lt nodes i k : live nodes i k -> (i < length nodes)%nat.
Proof.
  unfold live. intros Hl. destruct (Nat.lt_ge_cases i (length nodes)); [done|].
  by rewrite gnode_beyond in Hl.
Qed.

Lemma live_not_nil nodes i k : live nodes i k -> ttisnilkey (nkey (gnode nodes i)) = false.
Proof. unfold live. by destruct (nkey (gnode nodes i)) as [[]|]. Qed.

Lemma live_det nodes i k k' : live nodes i k -> live nodes i k' -> k = k'.
Proof. unfold live. congruence. Qed.

Lemma live_key_valid k : valid_key k = true -> live_key (KLive k) = Some k.
Proof. by destruct k. Qed.

Lemma succ_Some nodes i j :
  succ nodes i = Some j <-> nnext (gnode nodes i) <> 0 /\ j = next_index nodes i.
Proof.
  unfold succ. destruct (Z.eqb_spec (nnext (gnode nodes i)) 0); naive_solver.
Qed.

(** ** Empty vectors of nodes *)

Lemma gnode_replicate n i : gnode (replicate n empty_node) i = empty_node.
Proof.
  unfold gnode. destruct (replicate n empty_node !! i) as [x|] eqn:E; [|done].
  by apply lookup_replicate in E as [-> _].
Qed.

Lemma wf_nodes_empty lastfree :
  0 <= ls -> 2 ^ ls <= lastfree -> wf_nodes (replicate (Z.to_nat (2 ^ ls)) empty_node) lastfree.
Proof.
  intros Hls Hf.
  assert (Hs : forall i, succ (replicate (Z.to_nat (2 ^ ls)) empty_node) i = None).
  { intros i. unfold succ. by rewrite gnode_replicate. }
  assert (Hl : forall i k, ~ live (replicate (Z.to_nat (2 ^ ls)) empty_node) i k).
  { intros i k. unfold live. by rewrite gnode_replicate. }
  split; rewrite ?length_replicate; try (by split); intros; rewrite ?gnode_replicate;
    try (by exfalso; eapply Hl).
  - cbn. lia.
  - exists [i]. by constructor.
  - rewrite Hs in *. done.
  - split; [done|]. split; [done|]. split; [intros j; by rewrite Hs|].
    intros j k Hk. by destruct (Hl j k).
  - by rewrite gnode_replicate in *.
  - lia.
Qed.

(** ** The free position *)

Lemma getfreepos_loop_spec nodes k n lf :
  (k <= length nodes)%nat -> getfreepos_loop nodes k = (Some n, lf) ->
  n = lf /\ (n < k)%nat /\ ttisnilkey (nkey (gnode nodes n)) = true /\
  (forall i, (n < i)%nat -> (i < k)%nat -> ttisnilkey (nkey (gnode nodes i)) = false).
Proof.
  induction k as [|k IH]; intros Hk; cbn [getfreepos_loop]; [done|].
  destruct (ttisnilkey (nkey (gnode nodes k))) eqn:E.
  - intros [= <- <-]. repeat split; try done; lia.
  - intros (-> & Hlt & Hn & Hi)%IH; [|lia]. repeat split; try done; [lia|].
    intros i H1 H2. destruct (decide (i = k)) as [->|]; [done|]. apply Hi; lia.
Qed.

Lemma getfreepos_loop_None nodes k lf :
  getfreepos_loop nodes k = (None, lf) ->
  forall i, (i < k)%nat -> ttisnilkey (nkey (gnode nodes i)) = false.
Proof.
  induction k as [|k IH]; cbn [getfreepos_loop]; [lia|].
  destruct (ttisnilkey (nkey (gnode nodes k))) eqn:E; [done|].
  intros Hl i Hi. destruct (decide (i = k)) as [->|]; [done|]. apply (IH Hl). lia.
Qed.

Lemma getfreepos_Some nodes lastfree n lf :
  wf_nodes nodes lastfree -> lastfree <= Z.of_nat (length nodes) ->
  getfreepos nodes lastfree = (Some n, lf) ->
  lf = Z.of_nat n /\ lf < lastfree /\ (n < length nodes)%nat /\
  ttisnilkey (nkey (gnode nodes n)) = true /\
  (forall i, (n < i)%nat -> (i < length nodes)%nat -> ttisnilkey (nkey (gnode nodes i)) = false).
Proof.
  intros Hwf Hlf. unfold getfreepos. destruct (Z.ltb_spec 0 lastfree) as [Hp|]; [|done].
  destruct (getfreepos_loop nodes (Z.to_nat lastfree)) as [r lf'] eqn:E. intros [= -> <-].
  apply getfreepos_loop_spec in E as (<- & Hlt & Hn & Hi); [|lia].
  repeat split; try lia; try done.
  intros i H1 H2. destruct (Z.lt_ge_cases (Z.of_nat i) lastfree); [apply Hi; lia|].
  by apply (wf_free _ _ Hwf).
Qed.

Lemma getfreepos_None nodes lastfree lf :
  wf_nodes nodes lastfree -> getfreepos nodes lastfree = (None, lf) ->
  forall i, (i < length nodes)%nat -> ttisnilkey (nkey (gnode nodes i)) = false.
Proof.
  intros Hwf. unfold getfreepos. intros Hg i Hi.
  destruct (Z.lt_ge_cases (Z.of_nat i) lastfree) as [Hlt|Hge]; [|by apply (wf_free _ _ Hwf)].
  destruct (Z.ltb_spec 0 lastfree); [|lia].
  destruct (getfreepos_loop nodes (Z.to_nat lastfree)) as [r lf'] eqn:E. injection Hg as -> <-.
  apply (getfreepos_loop_None _ _ _ E). lia.
Qed.

(** ** The walks along a chain *)

Lemma find_previous_spec nodes fuel o mp l :
  chain (length nodes) (succ nodes) o l -> mp ∈ l -> o <> mp -> (length l <= fuel)%nat ->
  exists p, find_previous fuel nodes o mp = Some p /\ succ nodes p = Some mp.
Proof.
  intros Hc. revert fuel. induction Hc as [i Hi Hs|i j l Hi Hs Hc IH]; intros fuel Hin Hne Hf.
  - apply list_elem_of_singleton in Hin as ->. done.
  - destruct fuel as [|fuel]; cbn [length] in Hf; [lia|]. cbn [find_previous].
    pose proof (proj1 (succ_Some _ _ _) Hs) as [_ <-].
    destruct (Nat.eqb_spec j mp) as [->|Hj]; [by exists i|].
    apply elem_of_cons in Hin as [->|Hin]; [done|]. apply IH; [done|done|lia].
Qed.

Lemma chain_find_spec nodes fuel p i l :
  chain (length nodes) (succ nodes) i l -> (length l <= fuel)%nat ->
  match chain_find fuel nodes p i with
  | Some j => j ∈ l /\ p (nkey (gnode nodes j)) = true
  | None => forall j, j ∈ l -> p (nkey (gnode nodes j)) = false
  end.
Proof.
  intros Hc. revert fuel. induction Hc as [i Hi Hs|i j l Hi Hs Hc IH]; intros fuel Hf;
    (destruct fuel as [|fuel]; cbn [length] in Hf; [lia|]); cbn [chain_find];
    (destruct (p (nkey (gnode nodes i))) eqn:E; [by split; [left|]|]).
  - unfold succ in Hs. destruct (nnext (gnode nodes i) =? 0); [|done].
    by intros k ->%list_elem_of_singleton.
  - apply succ_Some in Hs as [Hn ->].
    destruct (Z.eqb_spec (nnext (gnode nodes i)) 0) as [|_]; [done|].
    specialize (IH fuel ltac:(lia)). destruct (chain_find _ _ _ _).
    + destruct IH. split; [by right|done].
    + intros k [->|Hk]%elem_of_cons; auto.
Qed.

(** ** The nodes after a new key is placed *)

Definition new_node (key : TValue) (d : Z) : LuaNode :=
  {| nval := LNil; nkey := KLive key; nnext := d |}.

(** The colliding node [mp] moves to [n]; [p] is the node before it. *)
Record moved (nodes nodes' : list LuaNode) (mp n p : nat) (key : TValue) : Prop := {
  moved_length : length nodes' = length nodes;
  moved_mp : gnode nodes' mp = new_node key 0;
  moved_n : gnode nodes' n =
    set_nnext (if nnext (gnode nodes mp) =? 0 then 0
               else nnext (gnode nodes mp) + (Z.of_nat mp - Z.of_nat n)) (gnode nodes mp);
  moved_p : gnode nodes' p = set_nnext (Z.of_nat n - Z.of_nat p) (gnode nodes p);
  moved_other : forall j, j <> mp -> j <> n -> j <> p -> gnode nodes' j = gnode nodes j;
}.

(** The new key goes to [n], behind [mp]. *)
Record chained (nodes nodes' : list LuaNode) (mp n : nat) (key : TValue) : Prop := {
  chained_length : length nodes' = length nodes;
  chained_mp : gnode nodes' mp = set_nnext (Z.of_nat n - Z.of_nat mp) (gnode nodes mp);
  chained_n : gnode nodes' n =
    new_node key (if nnext (gnode nodes mp) =? 0 then 0
                  else Z.of_nat (next_index nodes mp) - Z.of_nat n);
  chained_other : forall j, j <> mp -> j <> n -> gnode nodes' j = gnode nodes j;
}.

(** The new key goes to its main position. *)
Record filled (nodes nodes' : list LuaNode) (mp : nat) (key : TValue) : Prop := {
  filled_length : length nodes' = length nodes;
  filled_mp : gnode nodes' mp = new_node key (nnext (gnode nodes mp));
  filled_other : forall j, j <> mp -> gnode nodes' j = gnode nodes j;
}.

Lemma newkey_collide_moved nodes mp n p mk key :
  (mp < length nodes)%nat -> (n < length nodes)%nat -> (p < length nodes)%nat ->
  mp <> n -> mp <> p -> n <> p ->
  mainposition ls mk <> mp ->
  find_previous (length nodes) nodes (mainposition ls mk) mp = Some p ->
  exists nodes', newkey_collide ls nodes mp n mk = Some (nodes', mp) /\
    moved nodes (<[mp := setnodekey key (gnode nodes' mp)]> nodes') mp n p key.
Proof.
  intros Hmp Hn Hp H1' H2' H3' Hmk Hf. unfold newkey_collide.
  rewrite (proj2 (Nat.eqb_neq _ _) Hmk), Hf. cbn [negb]. eexists. split; [reflexivity|].
  set (a := <[p := _]> nodes). set (b := <[n := gnode a mp]> a).
  assert (Hbm : gnode b mp = gnode nodes mp) by (unfold b, a; by gnode_simpl).
  assert (Hbn : gnode b n = gnode nodes mp).
  { unfold b, a. by rewrite gnode_insert_eq, gnode_insert_ne by (rewrite ?length_insert; done). }
  rewrite Hbm, Hbn. destruct (Z.eqb_spec (nnext (gnode nodes mp)) 0) as [E|E]; cbn [negb].
  all: split; [by unfold b, a; rewrite !length_insert|..].
  all: unfold b, a; gnode_simpl; rewrite ?E; try done.
  - unfold setnodekey, set_nval, new_node. cbn. by rewrite E.
  - rewrite <- E at 3. by destruct (gnode nodes mp).
  - intros j ???. by gnode_simpl.
  - rewrite (proj2 (Z.eqb_neq _ _) E). done.
  - intros j ???. by gnode_simpl.
Qed.

Lemma newkey_collide_chained nodes mp n mk key :
  (mp < length nodes)%nat -> (n < length nodes)%nat -> mp <> n ->
  mainposition ls mk = mp -> nval (gnode nodes n) = LNil -> nnext (gnode nodes n) = 0 ->
  exists nodes', newkey_collide ls nodes mp n mk = Some (nodes', n) /\
    chained nodes (<[n := setnodekey key (gnode nodes' n)]> nodes') mp n key.
Proof.
  intros Hmp Hn H1' Hmk Hv Hd. unfold newkey_collide.
  rewrite (proj2 (Nat.eqb_eq _ _) Hmk). cbn [negb]. eexists. split; [reflexivity|].
  destruct (Z.eqb_spec (nnext (gnode nodes mp)) 0) as [E|E]; cbn [negb].
  all: split; [by rewrite !length_insert|..]; gnode_simpl; try done.
  - unfold setnodekey, new_node. by rewrite Hv, Hd, E.
  - intros j ??. by gnode_simpl.
  - unfold setnodekey, set_nnext, new_node. cbn. rewrite Hv.
    by destruct (Z.eqb_spec (nnext (gnode nodes mp)) 0).
  - intros j ??. by gnode_simpl.
Qed.

(** ** The placement keeps the invariant *)

Lemma succ_gnode nodes i d :
  nnext (gnode nodes i) = d ->
  succ nodes i = if d =? 0 then None else Some (Z.to_nat (Z.of_nat i + d)).
Proof. intros <-. reflexivity. Qed.

Lemma succ_ext nodes nodes' i :
  gnode nodes' i = gnode nodes i -> succ nodes' i = succ nodes i.
Proof. intros E. unfold succ, next_index. by rewrite E. Qed.

Section Place.
Context (nodes : list LuaNode) (lastfree : Z) (key : TValue).
Hypothesis Hwf : wf_nodes nodes lastfree.
Hypothesis Hkey : valid_key key = true.
Hypothesis Hfresh : forall j k, live nodes j k -> key_norm k <> key_norm key.

Let mp := mainposition ls key.

Lemma mp_lt : (mp < length nodes)%nat.
Proof.
  destruct (wf_size _ _ Hwf) as [Hls ->]. by apply mainposition_lt.
Qed.

Lemma new_node_live d : live_key (nkey (new_node key d)) = Some key.
Proof. by apply live_key_valid. Qed.

Lemma new_node_not_nil d : ttisnilkey (nkey (new_node key d)) = false.
Proof. cbn. by destruct key. Qed.

(** A free node is on no chain but its own. *)
Lemma free_not_in n i l :
  (n < length nodes)%nat -> ttisnilkey (nkey (gnode nodes n)) = true ->
  chain (length nodes) (succ nodes) i l -> i <> n -> n ∉ l.
Proof.
  intros Hn Hnil Hc Hne Hin. destruct (wf_nil _ _ Hwf n Hn Hnil) as (_ & _ & Hp & _).
  destruct (chain_pred _ _ _ _ _ Hc Hin ltac:(done)) as [k Hk]. by apply (Hp k).
Qed.

Section Moved.
Context (nodes' : list LuaNode) (n p : nat) (mk : TValue).
Hypothesis Hn : (n < length nodes)%nat.
Hypothesis Hnil : ttisnilkey (nkey (gnode nodes n)) = true.
Hypothesis Hfree : forall i, (n < i)%nat -> (i < length nodes)%nat ->
  ttisnilkey (nkey (gnode nodes i)) = false.
Hypothesis Hmk : live nodes mp mk.
Hypothesis Hout : mainposition ls mk <> mp.
Hypothesis Hp : succ nodes p = Some mp.
Hypothesis Hm : moved nodes nodes' mp n p key.

Lemma moved_ne : mp <> n /\ mp <> p /\ n <> p.
Proof.
  clear Hkey Hfree Hout Hm.
  destruct (wf_nil _ _ Hwf n Hn Hnil) as (_ & Hd & Hpn & _).
  pose proof (live_not_nil _ _ _ Hmk). repeat split; try congruence.
  - intros <-. destruct (wf_chain _ _ Hwf mp mp_lt) as [l Hc].
    inversion Hc as [|i j l' _ Hs Hc']; subst; [congruence|].
    assert (j = mp) as -> by congruence. pose proof (chain_det _ _ _ _ _ Hc Hc') as E.
    apply (f_equal length) in E. cbn in E. lia.
  - intros <-. apply succ_Some in Hp as [? _]. done.
Qed.

Lemma moved_succ :
  succ nodes' mp = None /\ succ nodes' n = succ nodes mp /\ succ nodes' p = Some n /\
  (forall j, j <> p -> j <> mp -> j <> n -> succ nodes' j = succ nodes j).
Proof.
  destruct moved_ne as (N1 & N2 & N3). destruct Hm as [Hlen E1 E2 E3 E4]. repeat split.
  - unfold succ. by rewrite E1.
  - rewrite (succ_gnode _ _ _ (f_equal nnext E2)). cbn [nnext set_nnext].
    destruct (Z.eqb_spec (nnext (gnode nodes mp)) 0) as [E|E].
    + cbn. unfold succ. by rewrite E.
    + destruct (Z.eqb_spec (nnext (gnode nodes mp) + (Z.of_nat mp - Z.of_nat n)) 0) as [E'|E'].
      * destruct (wf_nil _ _ Hwf n Hn Hnil) as (_ & _ & Hpn & _). destruct (Hpn mp).
        apply succ_Some. split; [done|]. unfold next_index. lia.
      * symmetry. apply succ_Some. split; [done|]. unfold next_index. lia.
  - rewrite (succ_gnode _ _ _ (f_equal nnext E3)). cbn [nnext set_nnext].
    destruct (Z.eqb_spec (Z.of_nat n - Z.of_nat p) 0); [lia|]. f_equal. lia.
  - intros j H1' H2' H3'. apply succ_ext. by apply E4.
Qed.

Lemma moved_live j k :
  live nodes' j k <->
  j = mp /\ k = key \/ j = n /\ live nodes mp k \/ j <> mp /\ j <> n /\ live nodes j k.
Proof.
  destruct moved_ne as (N1 & N2 & N3). destruct Hm as [Hlen E1 E2 E3 E4]. unfold live.
  destruct (decide (j = mp)) as [->|Hj]; [rewrite E1, new_node_live; naive_solver|].
  destruct (decide (j = n)) as [->|Hj']; [rewrite E2; cbn; naive_solver|].
  destruct (decide (j = p)) as [->|Hj'']; [rewrite E3; cbn; naive_solver|].
  rewrite E4 by done. naive_solver.
Qed.

Lemma moved_nil j :
  ttisnilkey (nkey (gnode nodes' j)) = true ->
  j <> mp /\ j <> n /\ j <> p /\ ttisnilkey (nkey (gnode nodes j)) = true /\
  gnode nodes' j = gnode nodes j.
Proof.
  destruct moved_ne as (N1 & N2 & N3). destruct Hm as [Hlen E1 E2 E3 E4]. intros Hj.
  destruct (decide (j = mp)) as [->|Hjm]; [by rewrite E1, new_node_not_nil in Hj|].
  destruct (decide (j = n)) as [->|Hjn].
  { rewrite E2 in Hj. cbn [nkey set_nnext] in Hj. by rewrite (live_not_nil _ _ _ Hmk) in Hj. }
  destruct (decide (j = p)) as [->|Hjp].
  - rewrite E3 in Hj. cbn [nkey set_nnext] in Hj. apply succ_Some in Hp as [Hd Hx].
    assert (p < length nodes)%nat as Hlt.
    { destruct (Nat.lt_ge_cases p (length nodes)) as [|Hge]; [done|].
      by rewrite (gnode_beyond _ _ Hge) in Hd. }
    by destruct (wf_nil _ _ Hwf p Hlt Hj) as (_ & ? & _).
  - rewrite E4 in * by done. done.
Qed.

Lemma moved_chain i l :
  i <> mp -> i <> n -> chain (length nodes) (succ nodes) i l ->
  exists l', chain (length nodes') (succ nodes') i l' /\
    (forall j, j ∈ l -> j <> mp -> j ∈ l') /\ (mp ∈ l -> n ∈ l').
Proof.
  destruct moved_ne as (N1 & N2 & N3). destruct moved_succ as (S1 & S2 & S3 & S4).
  intros H1' H2' Hc. rewrite (moved_length _ _ _ _ _ _ Hm).
  apply (chain_move _ (succ nodes) (succ nodes') p mp n i l); try done.
  - intros k Hk. by apply (wf_inj _ _ Hwf) with mp.
  - by apply (free_not_in _ i).
Qed.

Lemma moved_main k : live nodes mp k \/ (exists j, j <> mp /\ live nodes j k) ->
  mainposition ls k <> mp /\ mainposition ls k <> n.
Proof.
  destruct (wf_nil _ _ Hwf n Hn Hnil) as (_ & _ & _ & Hmain).
  intros [Hk|(j & Hj & Hk)]; (split; [|by eapply Hmain]).
  - by rewrite (live_det _ _ _ _ Hk Hmk).
  - by eapply (wf_brent _ _ Hwf mp mk).
Qed.

Lemma moved_bound i :
  (i < length nodes')%nat ->
  0 <= Z.of_nat i + nnext (gnode nodes' i) < Z.of_nat (length nodes').
Proof.
  destruct moved_ne as (N1 & N2 & N3). destruct Hm as [Hlen E1 E2 E3 E4]. rewrite Hlen. intros Hi.
  pose proof (wf_bound _ _ Hwf mp mp_lt) as Hb.
  destruct (decide (i = mp)) as [->|Hj]; [rewrite E1; cbn; lia|].
  destruct (decide (i = n)) as [->|Hj'].
  { rewrite E2. cbn [nnext set_nnext]. destruct (Z.eqb_spec (nnext (gnode nodes mp)) 0); lia. }
  destruct (decide (i = p)) as [->|Hj'']; [rewrite E3; cbn; lia|].
  rewrite E4 by done. by apply (wf_bound _ _ Hwf).
Qed.

Lemma moved_all_chains i :
  (i < length nodes')%nat -> exists l, chain (length nodes') (succ nodes') i l.
Proof.
  destruct moved_ne as (N1 & N2 & N3). destruct moved_succ as (S1 & S2 & S3 & S4).
  pose proof (moved_length _ _ _ _ _ _ Hm) as Hlen. intros Hi.
  destruct (decide (i = mp)) as [->|Hj]; [exists [mp]; by constructor|].
  destruct (decide (i = n)) as [->|Hj'].
  - assert (p < length nodes)%nat as Hlt.
    { apply succ_Some in Hp as [Hd _]. destruct (Nat.lt_ge_cases p (length nodes)) as [|Hge]; [done|].
      by rewrite (gnode_beyond _ _ Hge) in Hd. }
    destruct (wf_chain _ _ Hwf p Hlt) as [l Hl].
    destruct (moved_chain p l ltac:(done) ltac:(done) Hl) as (l' & Hl' & _ & Hin).
    destruct (chain_suffix _ _ _ _ n Hl') as (l1 & l2 & _ & Hc2); [|by exists l2].
    apply Hin. inversion Hl as [|? j t _ Hs Ht]; subst; [congruence|].
    assert (j = mp) as -> by congruence. right. by eapply chain_head.
  - destruct (wf_chain _ _ Hwf i ltac:(lia)) as [l Hl].
    destruct (moved_chain i l Hj Hj' Hl) as (l' & Hl' & _). by exists l'.
Qed.

Lemma moved_inj i i' j : succ nodes' i = Some j -> succ nodes' i' = Some j -> i = i'.
Proof.
  destruct moved_ne as (N1 & N2 & N3). destruct moved_succ as (S1 & S2 & S3 & S4).
  destruct (wf_nil _ _ Hwf n Hn Hnil) as (_ & _ & Hpn & _).
  pose proof (wf_inj _ _ Hwf) as Hinj.
  destruct (decide (i = mp)) as [->|]; [congruence|].
  destruct (decide (i' = mp)) as [->|]; [congruence|].
  destruct (decide (i = n)) as [->|]; destruct (decide (i' = n)) as [->|]; try done.
  - rewrite S2. intros Hs. destruct (decide (i' = p)) as [->|].
    + intros. exfalso. apply (Hpn mp). congruence.
    + rewrite S4 by done. intros Hs'. by destruct (Hinj _ _ _ Hs Hs').
  - rewrite S2. destruct (decide (i = p)) as [->|].
    + intros. exfalso. apply (Hpn mp). congruence.
    + rewrite S4 by done. intros Hs' Hs. by destruct (Hinj _ _ _ Hs Hs').
  - destruct (decide (i = p)) as [->|], (decide (i' = p)) as [->|]; try done.
    + rewrite (S4 i') by done. intros. exfalso. apply (Hpn i'). congruence.
    + rewrite (S4 i) by done. intros. exfalso. apply (Hpn i). congruence.
    + rewrite !S4 by done. apply Hinj.
Qed.

Lemma moved_reach i k : live nodes' i k ->
  exists l, chain (length nodes') (succ nodes') (mainposition ls k) l /\ i ∈ l.
Proof.
  destruct moved_succ as (S1 & S2 & S3 & S4). pose proof (moved_length _ _ _ _ _ _ Hm) as Hlen.
  intros [[-> ->]|[[-> Hk]|(Hi & Hi' & Hk)]]%moved_live.
  - exists [mp]. split; [|left]. constructor; [rewrite Hlen; apply mp_lt|done].
  - destruct (moved_main k ltac:(by left)) as [M1 M2].
    destruct (wf_reach _ _ Hwf _ _ Hk) as (l & Hl & Hin).
    destruct (moved_chain _ l M1 M2 Hl) as (l' & Hl' & _ & Hin'). eauto.
  - destruct (moved_main k ltac:(right; eauto)) as [M1 M2].
    destruct (wf_reach _ _ Hwf _ _ Hk) as (l & Hl & Hin).
    destruct (moved_chain _ l M1 M2 Hl) as (l' & Hl' & Hin' & _). eauto.
Qed.

Lemma moved_wf : wf_nodes nodes' (Z.of_nat n).
Proof.
  destruct moved_ne as (N1 & N2 & N3). destruct moved_succ as (S1 & S2 & S3 & S4).
  pose proof (moved_length _ _ _ _ _ _ Hm) as Hlen.
  destruct (wf_nil _ _ Hwf n Hn Hnil) as (_ & _ & Hpn & Hmain).
  split; auto using moved_bound, moved_all_chains, moved_reach.
  - rewrite Hlen. apply (wf_size _ _ Hwf).
  - apply moved_inj.
  - intros i Hi Ht. destruct (moved_nil i Ht) as (H1' & H2' & H3' & Ht' & E).
    destruct (wf_nil _ _ Hwf i ltac:(lia) Ht') as (V & D & P & M). rewrite E.
    split; [done|]. split; [done|]. split.
    + intros j. destruct (decide (j = mp)) as [->|]; [congruence|].
      destruct (decide (j = n)) as [->|]; [rewrite S2; apply P|].
      destruct (decide (j = p)) as [->|]; [congruence|]. rewrite S4 by done. apply P.
    + intros j k [[-> ->]|[[-> Hk]|(_ & _ & Hk)]]%moved_live; eauto.
  - intros i k [[-> ->]|[[-> Hk]|(Hi & Hi' & Hk)]]%moved_live Hout';
      intros j k' [[-> ->]|[[-> Hk']|(_ & _ & Hk')]]%moved_live; eauto.
    all: by eapply (wf_brent _ _ Hwf).
  - intros i j k k' [[-> ->]|[[-> Hk]|(Hi & Hi' & Hk)]]%moved_live
      [[-> ->]|[[-> Hk']|(Hj & Hj' & Hk')]]%moved_live E; try done.
    all: try (exfalso; by eapply Hfresh).
    all: pose proof (wf_uniq _ _ Hwf _ _ _ _ Hk Hk' E); congruence.
  - intros i. setoid_rewrite moved_live. destruct Hm as [_ E1 E2 E3 E4].
    destruct (decide (i = mp)) as [->|Hj]; [by rewrite E1|].
    destruct (decide (i = n)) as [->|Hj']; [eauto|]. intros Hv.
    assert (Hv' : nval (gnode nodes i) <> LNil).
    { destruct (decide (i = p)) as [->|]; [by rewrite E3 in Hv|by rewrite E4 in Hv]. }
    destruct (wf_val _ _ Hwf i Hv') as [k Hk]. eauto 6.
  - intros i k [[-> ->]|[[-> Hk]|(Hi & Hi' & Hk)]]%moved_live; [done|..];
      by eapply (wf_key _ _ Hwf).
  - intros i Hi Hi2. destruct (ttisnilkey (nkey (gnode nodes' i))) eqn:E; [|done].
    destruct (moved_nil i E) as (_ & H2' & _ & Ht & _). rewrite Hfree in Ht; [done|lia|lia].
Qed.
End Moved.

Section Chained.
Context (nodes' : list LuaNode) (n : nat) (mk : TValue).
Hypothesis Hn : (n < length nodes)%nat.
Hypothesis Hnil : ttisnilkey (nkey (gnode nodes n)) = true.
Hypothesis Hfree : forall i, (n < i)%nat -> (i < length nodes)%nat ->
  ttisnilkey (nkey (gnode nodes i)) = false.
Hypothesis Hmk : live nodes mp mk.
Hypothesis Hin : mainposition ls mk = mp.
Hypothesis Hm : chained nodes nodes' mp n key.

Lemma chained_ne : mp <> n.
Proof. intros E. pose proof (live_not_nil _ _ _ Hmk). congruence. Qed.

Lemma chained_succ :
  succ nodes' mp = Some n /\ succ nodes' n = succ nodes mp /\
  (forall j, j <> mp -> j <> n -> succ nodes' j = succ nodes j).
Proof.
  pose proof chained_ne as N. destruct Hm as [Hlen E1 E2 E3]. repeat split.
  - rewrite (succ_gnode _ _ _ (f_equal nnext E1)). cbn [nnext set_nnext].
    destruct (Z.eqb_spec (Z.of_nat n - Z.of_nat mp) 0); [lia|]. f_equal. lia.
  - rewrite (succ_gnode _ _ _ (f_equal nnext E2)). cbn [nnext new_node].
    pose proof (wf_bound _ _ Hwf mp mp_lt) as Hb.
    destruct (Z.eqb_spec (nnext (gnode nodes mp)) 0) as [E|E]; [unfold succ; by rewrite E|].
    destruct (Z.eqb_spec (Z.of_nat (next_index nodes mp) - Z.of_nat n) 0) as [E'|E'].
    + destruct (wf_nil _ _ Hwf n Hn Hnil) as (_ & _ & Hpn & _). destruct (Hpn mp).
      apply succ_Some. split; [done|lia].
    + symmetry. apply succ_Some. split; [done|]. unfold next_index. lia.
  - intros j ??. apply succ_ext. by apply E3.
Qed.

Lemma chained_live j k : live nodes' j k <-> j = n /\ k = key \/ j <> n /\ live nodes j k.
Proof.
  pose proof chained_ne as N. destruct Hm as [Hlen E1 E2 E3]. unfold live.
  destruct (decide (j = n)) as [->|Hj]; [rewrite E2, new_node_live; naive_solver|].
  destruct (decide (j = mp)) as [->|Hj']; [rewrite E1; cbn; naive_solver|].
  rewrite E3 by done. naive_solver.
Qed.

Lemma chained_nil j :
  ttisnilkey (nkey (gnode nodes' j)) = true ->
  j <> mp /\ j <> n /\ ttisnilkey (nkey (gnode nodes j)) = true /\ gnode nodes' j = gnode nodes j.
Proof.
  destruct Hm as [Hlen E1 E2 E3]. intros Hj.
  destruct (decide (j = n)) as [->|Hjn]; [by rewrite E2, new_node_not_nil in Hj|].
  destruct (decide (j = mp)) as [->|Hjm].
  { rewrite E1 in Hj. cbn [nkey set_nnext] in Hj. by rewrite (live_not_nil _ _ _ Hmk) in Hj. }
  rewrite E3 in * by done. done.
Qed.

Lemma chained_chain i l :
  i <> n -> chain (length nodes) (succ nodes) i l ->
  exists l', chain (length nodes') (succ nodes') i l' /\
    (forall j, j ∈ l -> j ∈ l') /\ (mp ∈ l -> n ∈ l').
Proof.
  destruct chained_succ as (S1 & S2 & S3). intros Hi Hc.
  rewrite (chained_length _ _ _ _ _ Hm).
  apply (chain_insert _ (succ nodes) (succ nodes') mp n i l); try done.
  by apply (free_not_in _ i).
Qed.

Lemma chained_bound i :
  (i < length nodes')%nat ->
  0 <= Z.of_nat i + nnext (gnode nodes' i) < Z.of_nat (length nodes').
Proof.
  destruct Hm as [Hlen E1 E2 E3]. rewrite Hlen. intros Hi.
  pose proof (wf_bound _ _ Hwf mp mp_lt) as Hb.
  destruct (decide (i = n)) as [->|Hj'].
  { rewrite E2. cbn [nnext new_node]. unfold next_index.
    destruct (Z.eqb_spec (nnext (gnode nodes mp)) 0); lia. }
  destruct (decide (i = mp)) as [->|Hj]; [rewrite E1; cbn; lia|].
  rewrite E3 by done. by apply (wf_bound _ _ Hwf).
Qed.

Lemma chained_all_chains i :
  (i < length nodes')%nat -> exists l, chain (length nodes') (succ nodes') i l.
Proof.
  pose proof (chained_length _ _ _ _ _ Hm) as Hlen. intros Hi.
  destruct (decide (i = n)) as [->|Hj'].
  - destruct (wf_chain _ _ Hwf mp mp_lt) as [l Hl].
    destruct (chained_chain mp l chained_ne Hl) as (l' & Hl' & _ & Hin').
    destruct (chain_suffix _ _ _ _ n Hl') as (l1 & l2 & _ & Hc2); [|by exists l2].
    apply Hin'. by eapply chain_head.
  - destruct (wf_chain _ _ Hwf i ltac:(lia)) as [l Hl].
    destruct (chained_chain i l Hj' Hl) as (l' & Hl' & _). by exists l'.
Qed.

Lemma chained_inj i i' j : succ nodes' i = Some j -> succ nodes' i' = Some j -> i = i'.
Proof.
  destruct chained_succ as (S1 & S2 & S3). pose proof (wf_inj _ _ Hwf) as Hinj.
  destruct (wf_nil _ _ Hwf n Hn Hnil) as (_ & _ & Hpn & _).
  destruct (decide (i = n)) as [->|]; destruct (decide (i' = n)) as [->|]; try done.
  - rewrite S2. destruct (decide (i' = mp)) as [->|].
    + intros. exfalso. apply (Hpn mp). congruence.
    + rewrite S3 by done. intros Hs Hs'. by destruct (Hinj _ _ _ Hs Hs').
  - rewrite S2. destruct (decide (i = mp)) as [->|].
    + intros. exfalso. apply (Hpn mp). congruence.
    + rewrite S3 by done. intros Hs' Hs. by destruct (Hinj _ _ _ Hs Hs').
  - destruct (decide (i = mp)) as [->|], (decide (i' = mp)) as [->|]; try done.
    + rewrite (S3 i') by done. intros. exfalso. apply (Hpn i'). congruence.
    + rewrite (S3 i) by done. intros. exfalso. apply (Hpn i). congruence.
    + rewrite !S3 by done. apply Hinj.
Qed.

Lemma chained_reach i k : live nodes' i k ->
  exists l, chain (length nodes') (succ nodes') (mainposition ls k) l /\ i ∈ l.
Proof.
  destruct (wf_nil _ _ Hwf n Hn Hnil) as (_ & _ & _ & Hmain).
  intros [[-> ->]|[Hi Hk]]%chained_live.
  - destruct (wf_chain _ _ Hwf mp mp_lt) as [l Hl].
    destruct (chained_chain mp l chained_ne Hl) as (l' & Hl' & _ & Hin').
    exists l'. split; [done|]. apply Hin'. by eapply chain_head.
  - destruct (wf_reach _ _ Hwf _ _ Hk) as (l & Hl & Hin').
    destruct (chained_chain _ l ltac:(by eapply Hmain) Hl) as (l' & Hl' & Hin2 & _). eauto.
Qed.

Lemma chained_wf : wf_nodes nodes' (Z.of_nat n).
Proof.
  destruct chained_succ as (S1 & S2 & S3).
  pose proof (chained_length _ _ _ _ _ Hm) as Hlen. pose proof chained_ne as N.
  destruct (wf_nil _ _ Hwf n Hn Hnil) as (_ & _ & Hpn & Hmain).
  split; auto using chained_bound, chained_all_chains, chained_reach.
  - rewrite Hlen. apply (wf_size _ _ Hwf).
  - apply chained_inj.
  - intros i Hi Ht. destruct (chained_nil i Ht) as (H1' & H2' & Ht' & E).
    destruct (wf_nil _ _ Hwf i ltac:(lia) Ht') as (V & D & P & M). rewrite E.
    split; [done|]. split; [done|]. split.
    + intros j. destruct (decide (j = mp)) as [->|]; [congruence|].
      destruct (decide (j = n)) as [->|]; [rewrite S2; apply P|]. rewrite S3 by done. apply P.
    + intros j k [[-> ->]|[_ Hk]]%chained_live; eauto.
  - intros i k [[-> ->]|[Hi Hk]]%chained_live Hout; intros j k' [[-> ->]|[_ Hk']]%chained_live;
      try by eauto.
    + intros E. apply Hout. fold mp in E. subst i. by rewrite (live_det _ _ _ _ Hk Hmk).
    + by eapply (wf_brent _ _ Hwf).
  - intros i j k k' [[-> ->]|[Hi Hk]]%chained_live [[-> ->]|[Hj Hk']]%chained_live E; try done.
    + exfalso. by eapply Hfresh.
    + exfalso. by eapply Hfresh.
    + by apply (wf_uniq _ _ Hwf _ _ _ _ Hk Hk').
  - intros i. setoid_rewrite chained_live. destruct Hm as [_ E1 E2 E3].
    destruct (decide (i = n)) as [->|Hj]; [by rewrite E2|]. intros Hv.
    assert (Hv' : nval (gnode nodes i) <> LNil).
    { destruct (decide (i = mp)) as [->|]; [by rewrite E1 in Hv|by rewrite E3 in Hv]. }
    destruct (wf_val _ _ Hwf i Hv') as [k Hk]. eauto.
  - intros i k [[-> ->]|[Hi Hk]]%chained_live; [done|]. by eapply (wf_key _ _ Hwf).
  - intros i Hi Hi2. destruct (ttisnilkey (nkey (gnode nodes' i))) eqn:E; [|done].
    destruct (chained_nil i E) as (_ & H2' & Ht & _). rewrite Hfree in Ht; [done|lia|lia].
Qed.
End Chained.

Section Filled.
Context (nodes' : list LuaNode).
Hypothesis Hval : nval (gnode nodes mp) = LNil.
Hypothesis Hm : filled nodes nodes' mp key.

Lemma filled_succ j : succ nodes' j = succ nodes j.
Proof.
  destruct Hm as [Hlen E1 E2]. destruct (decide (j = mp)) as [->|Hj].
  - unfold succ, next_index. by rewrite E1.
  - apply succ_ext. by apply E2.
Qed.

Lemma filled_live j k : live nodes' j k <-> j = mp /\ k = key \/ j <> mp /\ live nodes j k.
Proof.
  destruct Hm as [Hlen E1 E2]. unfold live.
  destruct (decide (j = mp)) as [->|Hj]; [rewrite E1, new_node_live; naive_solver|].
  rewrite E2 by done. naive_solver.
Qed.

Lemma filled_nil j :
  ttisnilkey (nkey (gnode nodes' j)) = true ->
  j <> mp /\ ttisnilkey (nkey (gnode nodes j)) = true /\ gnode nodes' j = gnode nodes j.
Proof.
  destruct Hm as [Hlen E1 E2]. intros Hj.
  destruct (decide (j = mp)) as [->|Hjm]; [by rewrite E1, new_node_not_nil in Hj|].
  rewrite E2 in * by done. done.
Qed.

Lemma filled_chain i l :
  chain (length nodes) (succ nodes) i l -> chain (length nodes') (succ nodes') i l.
Proof.
  rewrite (filled_length _ _ _ _ Hm). apply chain_ext. intros j _. apply filled_succ.
Qed.

Lemma filled_wf : wf_nodes nodes' lastfree.
Proof.
  pose proof (filled_length _ _ _ _ Hm) as Hlen. split.
  - rewrite Hlen. apply (wf_size _ _ Hwf).
  - intros i. rewrite Hlen. intros Hi. pose proof (wf_bound _ _ Hwf i Hi) as Hb.
    destruct Hm as [_ E1 E2]. destruct (decide (i = mp)) as [->|]; [by rewrite E1|by rewrite E2].
  - intros i Hi. rewrite Hlen in Hi. destruct (wf_chain _ _ Hwf i Hi) as [l Hl].
    exists l. by apply filled_chain.
  - intros i i' j. rewrite !filled_succ. apply (wf_inj _ _ Hwf).
  - intros i Hi Ht. destruct (filled_nil i Ht) as (H1' & Ht' & E).
    destruct (wf_nil _ _ Hwf i ltac:(lia) Ht') as (V & D & P & M). rewrite E.
    split; [done|]. split; [done|]. split; [intros j; rewrite filled_succ; apply P|].
    intros j k [[-> ->]|[_ Hk]]%filled_live; eauto.
  - intros i k [[-> ->]|[_ Hk]]%filled_live.
    + destruct (wf_chain _ _ Hwf mp mp_lt) as [l Hl]. exists l.
      split; [by apply filled_chain|by eapply chain_head].
    + destruct (wf_reach _ _ Hwf _ _ Hk) as (l & Hl & Hin). exists l.
      split; [by apply filled_chain|done].
  - intros i k [[-> ->]|[Hi Hk]]%filled_live Hout; [done|].
    intros j k' [[-> ->]|[_ Hk']]%filled_live; [done|]. by eapply (wf_brent _ _ Hwf).
  - intros i j k k' [[-> ->]|[Hi Hk]]%filled_live [[-> ->]|[Hj Hk']]%filled_live E; try done.
    + exfalso. by eapply Hfresh.
    + exfalso. by eapply Hfresh.
    + by apply (wf_uniq _ _ Hwf _ _ _ _ Hk Hk').
  - intros i. setoid_rewrite filled_live. destruct Hm as [_ E1 E2].
    destruct (decide (i = mp)) as [->|Hj]; [by rewrite E1|]. rewrite E2 by done. intros Hv.
    destruct (wf_val _ _ Hwf i Hv) as [k Hk]. eauto.
  - intros i k [[-> ->]|[Hi Hk]]%filled_live; [done|]. by eapply (wf_key _ _ Hwf).
  - intros i Hi Hi2. destruct (ttisnilkey (nkey (gnode nodes' i))) eqn:E; [|done].
    destruct (filled_nil i E) as (H2' & Ht & _). rewrite (wf_free _ _ Hwf) in Ht; [done|lia|lia].
Qed.
End Filled.

(** ** The specification of [newkey_place] *)

(** The node of key [k] holds [v]. *)
Definition entry (ns : list LuaNode) (k v : TValue) : Prop :=
  exists j, live ns j k /\ nval (gnode ns j) = v.

(** The nodes [ns'] are [ns] with the new key at [i], its value [nil]. *)
Record placed (ns ns' : list LuaNode) (lf lf' : Z) (i : nat) : Prop := {
  placed_wf : wf_nodes ns' lf';
  placed_length : length ns' = length ns;
  placed_lf : lf' <= lf /\ (0 <= lf -> 0 <= lf');
  placed_live : live ns' i key;
  placed_nil : nval (gnode ns' i) = LNil;
  placed_keys : forall j k, live ns' j k -> k = key \/ exists j', live ns j' k;
  placed_entry : forall k v, v <> LNil -> (entry ns' k v <-> entry ns k v);
  placed_occupied : (length (occupied ns') <= S (length (occupied ns)))%nat;
}.

Lemma moved_placed nodes' n p mk :
  (n < length nodes)%nat -> ttisnilkey (nkey (gnode nodes n)) = true ->
  (forall i, (n < i)%nat -> (i < length nodes)%nat -> ttisnilkey (nkey (gnode nodes i)) = false) ->
  live nodes mp mk -> mainposition ls mk <> mp -> succ nodes p = Some mp ->
  moved nodes nodes' mp n p key -> Z.of_nat n < lastfree ->
  placed nodes nodes' lastfree (Z.of_nat n) mp.
Proof.
  intros Hn Hnil Hfree Hmk Hout Hp Hm Hlf.
  destruct (moved_ne n p mk) as (N1 & N2 & N3); try done.
  pose proof (moved_live nodes' n p mk Hn Hnil Hmk Hout Hp Hm) as HL.
  pose proof Hm as [Hlen E1 E2 E3 E4].
  assert (Hv : forall j, j <> mp -> j <> n -> nval (gnode nodes' j) = nval (gnode nodes j)).
  { intros j ??. destruct (decide (j = p)) as [->|]; [by rewrite E3|by rewrite E4]. }
  split.
  - by apply (moved_wf nodes' n p mk).
  - done.
  - lia.
  - apply HL. by left.
  - by rewrite E1.
  - intros j k [[-> ->]|[[-> Hk]|(_ & _ & Hk)]]%HL; eauto.
  - intros k v Hnv. split.
    + intros (j & [[-> ->]|[[-> Hk]|(Hj & Hj' & Hk)]]%HL & <-).
      * by rewrite E1 in Hnv.
      * exists mp. by rewrite E2.
      * exists j. by rewrite Hv.
    + intros (j & Hk & <-). destruct (decide (j = mp)) as [->|Hj].
      * exists n. rewrite HL, E2. split; [|done]. right. by left.
      * assert (j <> n) as Hj' by (intros ->; pose proof (live_not_nil _ _ _ Hk); congruence).
        exists j. rewrite HL, Hv by done. split; [|done]. by right; right.
  - apply (occupied_step _ _ n); [done|]. intros j Hj.
    destruct (decide (j = mp)) as [->|]; [intros _; by apply live_not_nil with mk|].
    destruct (decide (j = p)) as [->|]; [by rewrite E3|by rewrite E4].
Qed.

Lemma chained_placed nodes' n mk :
  (n < length nodes)%nat -> ttisnilkey (nkey (gnode nodes n)) = true ->
  (forall i, (n < i)%nat -> (i < length nodes)%nat -> ttisnilkey (nkey (gnode nodes i)) = false) ->
  live nodes mp mk -> mainposition ls mk = mp ->
  chained nodes nodes' mp n key -> Z.of_nat n < lastfree ->
  placed nodes nodes' lastfree (Z.of_nat n) n.
Proof.
  intros Hn Hnil Hfree Hmk Hin Hm Hlf.
  pose proof (chained_live nodes' n mk Hnil Hmk Hin Hm) as HL.
  pose proof Hm as [Hlen E1 E2 E3].
  assert (Hv : forall j, j <> n -> nval (gnode nodes' j) = nval (gnode nodes j)).
  { intros j ?. destruct (decide (j = mp)) as [->|]; [by rewrite E1|by rewrite E3]. }
  split.
  - by apply (chained_wf nodes' n mk).
  - done.
  - lia.
  - apply HL. by left.
  - by rewrite E2.
  - intros j k [[-> ->]|[_ Hk]]%HL; eauto.
  - intros k v Hnv. split.
    + intros (j & [[-> ->]|[Hj Hk]]%HL & <-); [by rewrite E2 in Hnv|]. exists j. by rewrite Hv.
    + intros (j & Hk & <-).
      assert (j <> n) as Hj' by (intros ->; pose proof (live_not_nil _ _ _ Hk); congruence).
      exists j. rewrite HL, Hv by done. eauto.
  - apply (occupied_step _ _ n); [done|]. intros j Hj.
    destruct (decide (j = mp)) as [->|]; [by rewrite E1|by rewrite E3].
Qed.

Lemma filled_placed nodes' :
  nval (gnode nodes mp) = LNil -> filled nodes nodes' mp key ->
  placed nodes nodes' lastfree lastfree mp.
Proof.
  intros Hval Hm. pose proof (filled_live nodes' Hval Hm) as HL. pose proof Hm as [Hlen E1 E2]. split.
  - by apply filled_wf.
  - done.
  - lia.
  - apply HL. by left.
  - by rewrite E1.
  - intros j k [[-> ->]|[_ Hk]]%HL; eauto.
  - intros k v Hnv. split.
    + intros (j & [[-> ->]|[Hj Hk]]%HL & <-); [by rewrite E1 in Hnv|]. exists j. by rewrite E2.
    + intros (j & Hk & <-). destruct (decide (j = mp)) as [->|Hj]; [by rewrite Hval in Hnv|].
      exists j. rewrite HL, E2 by done. eauto.
  - apply (occupied_step _ _ mp); [done|]. intros j Hj. by rewrite E2.
Qed.

Theorem newkey_place_spec :
  lastfree <= Z.of_nat (length nodes) ->
  match newkey_place ls nodes lastfree key with
  | Some (nodes', lf', i) => placed nodes nodes' lastfree lf' i
  | None => forall i, (i < length nodes)%nat -> ttisnilkey (nkey (gnode nodes i)) = false
  end.
Proof.
  intros Hlf. unfold newkey_place. fold mp.
  destruct (decide (nval (gnode nodes mp) = LNil)) as [Hv|Hv].
  { rewrite Hv. cbn [negb]. apply filled_placed; [done|]. split; [by rewrite length_insert|..].
    - rewrite gnode_insert_eq by apply mp_lt. unfold setnodekey, new_node. by rewrite Hv.
    - intros j ?. by rewrite gnode_insert_ne. }
  destruct (negb _) eqn:E; [clear E|by destruct (nval (gnode nodes mp))].
  destruct (getfreepos nodes lastfree) as [[n|] lf] eqn:Eg; [|by eapply getfreepos_None].
  apply getfreepos_Some in Eg as (-> & Hlt & Hn & Hnil & Hfree); [|done|done].
  destruct (wf_val _ _ Hwf mp Hv) as [mk Hmk]. pose proof Hmk as Hmk'. unfold live in Hmk'.
  destruct (nkey (gnode nodes mp)) as [mk0|] eqn:Ek; [|done].
  assert (mk0 = mk) as -> by (destruct mk0; by inversion Hmk'). clear Hmk'.
  assert (N : mp <> n) by (intros <-; pose proof (live_not_nil _ _ _ Hmk); congruence).
  destruct (decide (mainposition ls mk = mp)) as [Hin|Hout].
  - destruct (wf_nil _ _ Hwf n Hn Hnil) as (V & D & _).
    destruct (newkey_collide_chained nodes mp n mk key mp_lt Hn N Hin V D) as (nodes' & -> & Hm).
    by apply chained_placed with mk.
  - destruct (wf_reach _ _ Hwf _ _ Hmk) as (l & Hl & Hin).
    destruct (find_previous_spec _ (length nodes) _ _ _ Hl Hin Hout) as (p & Hf & Hp);
      [by eapply chain_length|].
    assert (Hplt : (p < length nodes)%nat).
    { apply succ_Some in Hp as [Hd _]. destruct (Nat.lt_ge_cases p (length nodes)) as [|Hge]; [done|].
      by rewrite (gnode_beyond _ _ Hge) in Hd. }
    destruct (moved_ne n p mk) as (N1 & N2 & N3); try done.
    destruct (newkey_collide_moved nodes mp n p mk key mp_lt Hn Hplt N1 N2 N3 Hout Hf)
      as (nodes' & -> & Hm).
    by apply moved_placed with p mk.
Qed.
End Place.

(** Changing values and forgetting keys keeps the invariant. *)
Lemma wf_nodes_weaken nodes nodes' lastfree :
  wf_nodes nodes lastfree -> length nodes' = length nodes ->
  (forall i, nnext (gnode nodes' i) = nnext (gnode nodes i)) ->
  (forall i, ttisnilkey (nkey (gnode nodes' i)) = ttisnilkey (nkey (gnode nodes i))) ->
  (forall i k, live nodes' i k -> live nodes i k) ->
  (forall i, nval (gnode nodes' i) <> LNil -> exists k, live nodes' i k) ->
  wf_nodes nodes' lastfree.
Proof.
  intros Hwf Hlen Hn Ht Hl Hv.
  assert (Hs : forall i, succ nodes' i = succ nodes i).
  { intros i. unfold succ, next_index. by rewrite Hn. }
  assert (Hc : forall i l, chain (length nodes) (succ nodes) i l ->
    chain (length nodes') (succ nodes') i l).
  { intros i l. rewrite Hlen. apply chain_ext. auto. }
  split; rewrite ?Hlen.
  - apply (wf_size _ _ Hwf).
  - intros i Hi. rewrite Hn. by apply (wf_bound _ _ Hwf).
  - intros i Hi. destruct (wf_chain _ _ Hwf i Hi) as [l Hl']. exists l.
    rewrite <- Hlen. by apply Hc.
  - intros i i' j. rewrite !Hs. apply (wf_inj _ _ Hwf).
  - intros i Hi. rewrite Ht. intros Hnil.
    destruct (wf_nil _ _ Hwf i Hi Hnil) as (V & D & P & M). rewrite Hn. split; [|split; [done|]].
    + destruct (decide (nval (gnode nodes' i) = LNil)) as [|E]; [done|].
      destruct (Hv i E) as [k Hk]. apply Hl, live_not_nil in Hk. congruence.
    + split; [intros j; by rewrite Hs|]. eauto.
  - intros i k Hk. destruct (wf_reach _ _ Hwf _ _ (Hl _ _ Hk)) as (l & Hl' & Hin).
    exists l. split; [|done]. rewrite <- Hlen. by apply Hc.
  - intros i k Hk%Hl Hout j k' Hk'%Hl. by eapply (wf_brent _ _ Hwf).
  - intros i j k k' Hk%Hl Hk'%Hl. by apply (wf_uniq _ _ Hwf).
  - done.
  - intros i k Hk%Hl. by eapply (wf_key _ _ Hwf).
  - intros i Hi Hi'. rewrite Ht. by apply (wf_free _ _ Hwf).
Qed.
End Invariant.
