(* ===== verification/Table.v ===== *)
(** Tables, [VM/src/ltable.cpp]: the array part, the hash part of
    [TableNode.v], search, insertion with its rehash, resizing, the length
    operator and traversal.

    A table is a value; a [TValue*] into it is a [slot].  A routine that may
    raise returns an [outcome].  The memory of the allocator is not bounded
    here.  [newkey] and [rehash] call each other, so [newkey] takes fuel; the
    file [TableSpec.v] shows that two calls are enough. *)
From S2P Require Import Prelude Word Double LuaApi Arith Compare Key TableNode.
Open Scope Z_scope.
Open Scope outcome_scope.

Definition MAXBITS : Z := 26.
Definition MAXSIZE : Z := Z.shiftl 1 MAXBITS.

(** [LuaTable]: [node] is [None] for the shared [dummynode]; [lastfree] is the
    union with [aboundary]. *)
Record LuaTable := {
  tmcache : Z;
  readonly : bool;
  safeenv : bool;
  lsizenode : Z;
  lastfree : Z;
  metatable : option Z;
  array : list TValue;
  node : option (list LuaNode);
}.

Definition sizearray (t : LuaTable) : Z := Z.of_nat (length (array t)).
Definition sizenode (t : LuaTable) : Z := Z.shiftl 1 (lsizenode t).

(** The nodes at [t->node]. *)
Definition nodes_of (t : LuaTable) : list LuaNode :=
  match node t with None => [empty_node] | Some ns => ns end.

Definition set_array (a : list TValue) (t : LuaTable) : LuaTable :=
  {| tmcache := tmcache t; readonly := readonly t; safeenv := safeenv t;
     lsizenode := lsizenode t; lastfree := lastfree t; metatable := metatable t;
     array := a; node := node t |}.

Definition set_node (ns : option (list LuaNode)) (lsize lf : Z) (t : LuaTable) : LuaTable :=
  {| tmcache := tmcache t; readonly := readonly t; safeenv := safeenv t;
     lsizenode := lsize; lastfree := lf; metatable := metatable t;
     array := array t; node := ns |}.

Definition set_lastfree (lf : Z) (t : LuaTable) : LuaTable :=
  set_node (node t) (lsizenode t) lf t.

Definition set_tmcache (c : Z) (t : LuaTable) : LuaTable :=
  {| tmcache := c; readonly := readonly t; safeenv := safeenv t;
     lsizenode := lsizenode t; lastfree := lastfree t; metatable := metatable t;
     array := array t; node := node t |}.

Definition invalidateTMcache (t : LuaTable) : LuaTable := set_tmcache 0 t.

(** A pointer to a value of a table. *)
Inductive slot := ArraySlot (i : nat) | NodeSlot (i : nat).

#[export] Instance slot_eq_dec : EqDecision slot.
Proof. solve_decision. Defined.

Definition slot_value (t : LuaTable) (s : slot) : TValue :=
  match s with
  | ArraySlot i => default LNil (array t !! i)
  | NodeSlot i => nval (gnode (nodes_of t) i)
  end.

(** [setobj2t(L, slot, v)] *)
Definition setslot (t : LuaTable) (s : slot) (v : TValue) : LuaTable :=
  match s with
  | ArraySlot i => set_array (<[i := v]> (array t)) t
  | NodeSlot i =>
      match node t with
      | None => t
      | Some ns => set_node (Some (<[i := set_nval v (gnode ns i)]> ns))
                     (lsizenode t) (lastfree t) t
      end
  end.

Definition ttisnil (v : TValue) : bool := match v with LNil => true | _ => false end.

(** [luaO_log2] on a positive number, and [ceillog2]. *)
Definition luaO_log2 (x : Z) : Z := if x <=? 0 then -1 else Z.log2 x.
Definition ceillog2 (x : Z) : Z := luaO_log2 (x - 1) + 1.

Section Search.
Context `{VecSize, Target}.

(** [arrayindex] *)
Definition arrayindex (key : double) : Z :=
  let i := luai_num2int key in
  if d_eq (double_of_Z i) key then i else -1.

(** [unsigned(key) - 1 < unsigned(t->sizearray)] *)
Definition in_array (key : Z) (t : LuaTable) : bool :=
  sub_u 32 (u32 key) 1 <? u32 (sizearray t).

(** The loop of the search functions from the node [mp]. *)
Definition find_node (t : LuaTable) (p : TKey -> bool) (mp : nat) : option slot :=
  match chain_find (length (nodes_of t)) (nodes_of t) p mp with
  | Some i => Some (NodeSlot i)
  | None => None
  end.

Definition luaH_getnum (t : LuaTable) (key : Z) : option slot :=
  if in_array key t then Some (ArraySlot (Z.to_nat (key - 1)))
  else match node t with
  | None => None
  | Some _ =>
      let nk := double_of_Z key in
      find_node t (fun k => match k with KLive (LNumber n) => d_eq n nk | _ => false end)
        (mainposition (lsizenode t) (LNumber nk))
  end.

(** Strings are interned: pointer equality is equality of the bytes. *)
Definition luaH_getstr (t : LuaTable) (key : list Z) : option slot :=
  match node t with
  | None => None
  | Some _ =>
      find_node t (fun k => match k with
                            | KLive (LString s) => bool_decide (s = key)
                            | _ => false
                            end)
        (mainposition (lsizenode t) (LString key))
  end.

Definition luaH_getp (t : LuaTable) (key tag : Z) : option slot :=
  match node t with
  | None => None
  | Some _ =>
      find_node t (fun k => match k with
                            | KLive (LLightUserdata p tg) => (p =? key) && (tg =? tag)
                            | _ => false
                            end)
        (mainposition (lsizenode t) (LLightUserdata key tag))
  end.

(** The [default] case of [luaH_get]. *)
Definition get_generic (t : LuaTable) (key : TValue) : option slot :=
  match node t with
  | None => None
  | Some _ =>
      find_node t (fun k => match k with KLive k => luaO_rawequalKey k key | KDead _ => false end)
        (mainposition (lsizenode t) key)
  end.

Definition luaH_get (t : LuaTable) (key : TValue) : option slot :=
  match key with
  | LNil => None
  | LString s => luaH_getstr t s
  | LNumber n =>
      let k := luai_num2int n in
      if d_eq (double_of_Z k) n then luaH_getnum t k else get_generic t key
  | _ => get_generic t key
  end.

(** What the slot of [luaH_get] holds; [luaO_nilobject] holds [nil]. *)
Definition slot_get (t : LuaTable) (s : option slot) : TValue :=
  match s with Some s => slot_value t s | None => LNil end.

Definition get (t : LuaTable) (key : TValue) : TValue := slot_get t (luaH_get t key).
End Search.

(** * Rehash *)

Definition getaboundary (t : LuaTable) : Z :=
  if lastfree t <? 0 then - lastfree t else sizearray t.

Definition maybesetaboundary (t : LuaTable) (boundary : Z) : LuaTable :=
  if lastfree t <=? 0 then set_lastfree (- boundary) t else t.

(** [nums[i]]; the code reads no index outside of the array. *)
Definition nums_at (nums : list Z) (i : nat) : Z := default 0 (nums !! i).

(** The loop of [computesizes]; the fuel bounds the trips by the number of
    slices. *)
Fixpoint computesizes_loop (fuel i : nat) (twotoi a na n : Z) (nums : list Z) (narray : Z)
    : Z * Z :=
  match fuel with
  | O => (na, n)
  | S f =>
      if twotoi / 2 <? narray then
        let x := nums_at nums i in
        let '(a, na, n) :=
          if 0 <? x then
            let a := a + x in
            if twotoi / 2 <? a then (a, a, twotoi) else (a, na, n)
          else (a, na, n) in
        if a =? narray then (na, n)
        else computesizes_loop f (S i) (twotoi * 2) a na n nums narray
      else (na, n)
  end.

(** The result is [na] and the new [*narray]. *)
Definition computesizes (nums : list Z) (narray : Z) : Z * Z :=
  computesizes_loop (length nums) 0 1 0 0 0 nums narray.

Section Rehash.
Context `{VecSize, Target}.

Definition countint (key : double) (nums : list Z) : Z * list Z :=
  let k := arrayindex key in
  if (0 <? k) && (k <=? MAXSIZE) then
    let lg := Z.to_nat (ceillog2 k) in (1, <[lg := nums_at nums lg + 1]> nums)
  else (0, nums).

(** The values of [i .. lim] of the array that are not [nil]. *)
Definition count_slice (a : list TValue) (i lim : Z) : Z :=
  Z.of_nat (length (filter (fun v => ttisnil v = false)
    (take (Z.to_nat (lim - i + 1)) (drop (Z.to_nat (i - 1)) a)))).

(** The loop over the slices [(2^(lg-1), 2^lg]]. *)
Fixpoint numusearray_loop (fuel : nat) (t : LuaTable) (lg : nat) (ttlg ause i : Z)
    (nums : list Z) : Z * list Z :=
  match fuel with
  | O => (ause, nums)
  | S f =>
      let lim := if sizearray t <? ttlg then sizearray t else ttlg in
      if (sizearray t <? ttlg) && (lim <? i) then (ause, nums)
      else
        let lc := count_slice (array t) i lim in
        numusearray_loop f t (S lg) (ttlg * 2) (ause + lc) (Z.max i (lim + 1))
          (<[lg := nums_at nums lg + lc]> nums)
  end.

Definition numusearray (t : LuaTable) (nums : list Z) : Z * list Z :=
  numusearray_loop (Z.to_nat (MAXBITS + 1)) t 0 1 0 1 nums.

(** One node of the loop of [numusehash]. *)
Definition numusehash_step (acc : Z * Z * list Z) (n : LuaNode) : Z * Z * list Z :=
  let '(totaluse, ause, nums) := acc in
  if negb (ttisnil (nval n)) then
    let '(c, nums) :=
      match nkey n with
      | KLive (LNumber d) => countint d nums
      | _ => (0, nums)
      end in
    (totaluse + 1, ause + c, nums)
  else (totaluse, ause, nums).

(** The total, the new [*pnasize] and the counts. *)
Definition numusehash (t : LuaTable) (nums : list Z) (nasize : Z) : Z * Z * list Z :=
  let '(totaluse, ause, nums) :=
    fold_left numusehash_step (rev (nodes_of t)) (0, 0, nums) in
  (totaluse, nasize + ause, nums).

Definition setarrayvector (t : LuaTable) (size : Z) : outcome LuaTable :=
  require negb (MAXSIZE <? size) else_ Throw (RunError "table overflow") in
  Ret (set_array (if sizearray t <? size
                  then array t ++ replicate (Z.to_nat (size - sizearray t)) LNil
                  else take (Z.to_nat size) (array t)) t).

Definition setnodevector (t : LuaTable) (size : Z) : outcome LuaTable :=
  if size =? 0 then Ret (set_node None 0 0 t)
  else
    let lsize := ceillog2 size in
    require negb (MAXBITS <? lsize) else_ Throw (RunError "table overflow") in
    let size := Z.shiftl 1 lsize in
    Ret (set_node (Some (replicate (Z.to_nat size) empty_node)) lsize size t).

(** [ek && ttisnumber(ek) ? arrayindex(nvalue(ek)) : -1] *)
Definition ekindex (ek : option TValue) : Z :=
  match ek with Some (LNumber n) => arrayindex n | _ => -1 end.

Definition is_dummy (t : LuaTable) : bool :=
  match node t with None => true | Some _ => false end.

(** The loop moves [size] while [size + 1] is an index in use, so it ends
    within one trip per entry. *)
Fixpoint adjustasize_loop (fuel : nat) (t : LuaTable) (tbound : bool) (ekindex size : Z) : Z :=
  match fuel with
  | O => size
  | S f =>
      if (size + 1 =? ekindex) || (tbound && negb (ttisnil (slot_get t (luaH_getnum t (size + 1)))))
      then adjustasize_loop f t tbound ekindex (size + 1)
      else size
  end.

Definition adjustasize (t : LuaTable) (size : Z) (ek : option TValue) : Z :=
  let tbound := negb (is_dummy t) || (size <? sizearray t) in
  adjustasize_loop (length (array t) + length (nodes_of t) + 2) t tbound (ekindex ek) size.

Definition key_type := LuaTable -> TValue -> outcome (LuaTable * slot).

Section Resize.
Variable newkey : key_type.

Definition arrayornewkey (t : LuaTable) (key : TValue) : outcome (LuaTable * slot) :=
  match key with
  | LNumber n =>
      let k := luai_num2int n in
      if d_eq (double_of_Z k) n && in_array k t then Ret (t, ArraySlot (Z.to_nat (k - 1)))
      else newkey t key
  | _ => newkey t key
  end.

(** [setobjt2t(L, insert(L, t, &ok), v)] *)
Definition reinsert (insert : key_type) (t : LuaTable) (kv : TValue * TValue)
    : outcome LuaTable :=
  p <- insert t kv.1 ;;
  let '(t, s) := p in Ret (setslot t s kv.2).

(** The loop over the vanishing slice of the array: [vs] from index [i]. *)
Fixpoint reinsert_array (t : LuaTable) (i : Z) (vs : list TValue) : outcome LuaTable :=
  match vs with
  | [] => Ret t
  | v :: vs =>
      t <- (if negb (ttisnil v) then reinsert newkey t (LNumber (double_of_Z (i + 1)), v)
            else Ret t) ;;
      reinsert_array t (i + 1) vs
  end.

(** The loop over the old nodes, the last one first. *)
Fixpoint reinsert_nodes (t : LuaTable) (ns : list LuaNode) : outcome LuaTable :=
  match ns with
  | [] => Ret t
  | n :: ns =>
      t <- (if negb (ttisnil (nval n)) then
              match nkey n with
              | KLive k => reinsert arrayornewkey t (k, nval n)
              | KDead _ => Undefined "a dead key with a value"
              end
            else Ret t) ;;
      reinsert_nodes t ns
  end.

Definition resize (t : LuaTable) (nasize nhsize : Z) : outcome LuaTable :=
  require negb ((MAXSIZE <? nasize) || (MAXSIZE <? nhsize))
  else_ Throw (RunError "table overflow") in
  let oldasize := sizearray t in
  let nold := nodes_of t in
  let aold := array t in
  t <- (if oldasize <? nasize then setarrayvector t nasize else Ret t) ;;
  t <- setnodevector t nhsize ;;
  t <- (if nasize <? oldasize then
          reinsert_array (set_array (take (Z.to_nat nasize) aold) t) nasize
            (drop (Z.to_nat nasize) aold)
        else Ret t) ;;
  reinsert_nodes t (rev nold).

Definition rehash (t : LuaTable) (ek : TValue) : outcome LuaTable :=
  let nums := replicate (Z.to_nat (MAXBITS + 1)) 0 in
  let '(nasize, nums) := numusearray t nums in
  let totaluse := nasize in
  let '(hashuse, nasize, nums) := numusehash t nums nasize in
  let totaluse := totaluse + hashuse in
  let '(c, nums) := match ek with LNumber n => countint n nums | _ => (0, nums) end in
  let nasize := nasize + c in
  let totaluse := totaluse + 1 in
  let '(na, nasize) := computesizes nums nasize in
  let nh := totaluse - na in
  let nadjusted := adjustasize t nasize (Some ek) in
  let aextra := nadjusted - nasize in
  if negb (aextra =? 0) then
    let nh := nh - aextra in
    let nasize := nadjusted + aextra in
    let nasize := adjustasize t nasize (Some ek) in
    resize t nasize nh
  else resize t nasize nh.

(** [ttisnumber(key) && nvalue(key) == t->sizearray + 1] *)
Definition at_boundary (t : LuaTable) (key : TValue) : bool :=
  match key with LNumber n => d_eq n (double_of_Z (sizearray t + 1)) | _ => false end.

(** The body of [newkey], its recursive call apart. *)
Definition newkey_body (t : LuaTable) (key : TValue) : outcome (LuaTable * slot) :=
  let grow := t <- rehash t key ;; arrayornewkey t key in
  if at_boundary t key then grow
  else match node t with
  | None => grow
  | Some ns =>
      match newkey_place (lsizenode t) ns (lastfree t) key with
      | None => grow
      | Some (ns, lf, i) => Ret (set_node (Some ns) (lsizenode t) lf t, NodeSlot i)
      end
  end.
End Resize.

Fixpoint newkey (fuel : nat) (t : LuaTable) (key : TValue) : outcome (LuaTable * slot) :=
  match fuel with
  | O => Undefined "recursive rehash"
  | S f => newkey_body (newkey f) t key
  end.
End Rehash.

(** * The operations *)

Section Operations.
Context `{VecSize, Target}.

(** The last test of [adjustasize] computes [asize + 1] in an [int]. *)
Definition luaH_resizearray (t : LuaTable) (nasize : Z) : outcome LuaTable :=
  let nsize := if is_dummy t then 0 else sizenode t in
  let asize := adjustasize t nasize None in
  add_s 32 asize 1 ;;;
  resize (newkey 2) t asize nsize.

Definition luaH_resizehash (t : LuaTable) (nhsize : Z) : outcome LuaTable :=
  resize (newkey 2) t (sizearray t) nhsize.

Definition luaH_new (narray nhash : Z) : outcome LuaTable :=
  let t := {| tmcache := 255; readonly := false; safeenv := false; lsizenode := 0;
              lastfree := 0; metatable := None; array := []; node := None |} in
  t <- (if 0 <? narray then setarrayvector t narray else Ret t) ;;
  if 0 <? nhash then setnodevector t nhash else Ret t.

Definition luaH_newkey (t : LuaTable) (key : TValue) : outcome (LuaTable * slot) :=
  match key with
  | LNil => Throw (RunError "table index is nil")
  | LNumber n =>
      if d_isnan n then Throw (RunError "table index is NaN") else newkey 2 t key
  | LVector v =>
      if luai_vecisnan v then Throw (RunError "table index contains NaN") else newkey 2 t key
  | _ => newkey 2 t key
  end.

Definition luaH_set (t : LuaTable) (key : TValue) : outcome (LuaTable * slot) :=
  let p := luaH_get t key in
  let t := invalidateTMcache t in
  match p with
  | Some s => Ret (t, s)
  | None => luaH_newkey t key
  end.

Definition luaH_newkeystr (t : LuaTable) (key : list Z) : outcome (LuaTable * slot) :=
  match node t with
  | Some ns =>
      let mp := mainposition (lsizenode t) (LString key) in
      if ttisnil (nval (gnode ns mp)) && ttisnilkey (nkey (gnode ns mp)) then
        Ret (set_node (Some (<[mp := setnodekey (LString key) (gnode ns mp)]> ns))
               (lsizenode t) (lastfree t) t, NodeSlot mp)
      else newkey 2 t (LString key)
  | None => newkey 2 t (LString key)
  end.

Definition luaH_setnum (t : LuaTable) (key : Z) : outcome (LuaTable * slot) :=
  if in_array key t then Ret (t, ArraySlot (Z.to_nat (key - 1)))
  else
    let t := invalidateTMcache t in
    match luaH_getnum t key with
    | Some s => Ret (t, s)
    | None => newkey 2 t (LNumber (double_of_Z key))
    end.

Definition luaH_setstr (t : LuaTable) (key : list Z) : outcome (LuaTable * slot) :=
  let p := luaH_getstr t key in
  let t := invalidateTMcache t in
  match p with
  | Some s => Ret (t, s)
  | None => luaH_newkeystr t key
  end.

Definition luaH_setp (t : LuaTable) (key tag : Z) : outcome (LuaTable * slot) :=
  let p := luaH_getp t key tag in
  let t := invalidateTMcache t in
  match p with
  | Some s => Ret (t, s)
  | None => newkey 2 t (LLightUserdata key tag)
  end.

(** [luaH_set] and the assignment of [v] through its slot. *)
Definition set (t : LuaTable) (key v : TValue) : outcome LuaTable :=
  p <- luaH_set t key ;; let '(t, s) := p in Ret (setslot t s v).

(** ** Length *)

(** [t->array[i]]; a read outside of the array is undefined. *)
Definition read_array {A} (t : LuaTable) (i : Z) (k : TValue -> outcome A) : outcome A :=
  if i <? 0 then Undefined "read outside of the array"
  else match array t !! Z.to_nat i with
       | Some v => k v
       | None => Undefined "read outside of the array"
       end.

Definition updateaboundary (t : LuaTable) (boundary : Z) : outcome (LuaTable * Z) :=
  let next :=
    if boundary + 1 <? sizearray t then
      read_array t boundary (fun b =>
        if negb (ttisnil b) then
          read_array t (boundary + 1) (fun c =>
            if ttisnil c then Ret (maybesetaboundary t (boundary + 1), boundary + 1)
            else Ret (t, 0))
        else Ret (t, 0))
    else Ret (t, 0) in
  if boundary <? sizearray t then
    read_array t (boundary - 1) (fun a =>
      if ttisnil a then
        if 2 <=? boundary then
          read_array t (boundary - 2) (fun b =>
            if negb (ttisnil b) then Ret (maybesetaboundary t (boundary - 1), boundary - 1)
            else Ret (t, 0))
        else Ret (t, 0)
      else next)
  else next.

(** The binary search: [base] is an index of the array; each trip halves
    [rest]. *)
Fixpoint search_boundary (fuel : nat) (t : LuaTable) (base rest : Z) : outcome Z :=
  match fuel with
  | O => Undefined "endless search"
  | S f =>
      let half := Z.shiftr rest 1 in
      if negb (half =? 0) then
        read_array t (base + half) (fun v =>
          search_boundary f t (if ttisnil v then base else base + half) (rest - half))
      else read_array t base (fun v => Ret (Zb (negb (ttisnil v)) + base))
  end.

(** The part of [luaH_getn] after its fast paths. *)
Definition getn_search (t : LuaTable) : outcome (LuaTable * Z) :=
  let j := sizearray t in
  if 0 <? j then
    read_array t (j - 1) (fun v =>
      if ttisnil v then
        boundary <- search_boundary (S (Z.to_nat j)) t 0 j ;;
        Ret (maybesetaboundary t boundary, boundary)
      else Ret (t, j))
  else Ret (t, j).

Definition luaH_getn (t : LuaTable) : outcome (LuaTable * Z) :=
  let boundary := getaboundary t in
  if 0 <? boundary then
    read_array t (sizearray t - 1) (fun last =>
      if negb (ttisnil last) && is_dummy t then Ret (t, sizearray t)
      else
        let slow :=
          p <- updateaboundary t boundary ;;
          let '(t, foundboundary) := p in
          if 0 <? foundboundary then Ret (t, foundboundary) else getn_search t in
        if boundary <? sizearray t then
          read_array t (boundary - 1) (fun a =>
            if negb (ttisnil a) then
              read_array t boundary (fun b =>
                if ttisnil b then Ret (t, boundary) else slow)
            else slow)
        else slow)
  else getn_search t.

(** ** Traversal *)

Definition iscollectable (v : TValue) : bool := 6 <=? ttype v.

(** The address of an interned string. *)
Variable str_addr : list Z -> Z.

Definition gcvalue (v : TValue) : Z :=
  match v with
  | LString s => str_addr s
  | LTable gc | LFunction gc | LUserdata gc | LThread gc | LClass gc | LObject gc
  | LBuffer gc _ => gc
  | _ => 0
  end.

Definition findindex (t : LuaTable) (key : TValue) : outcome Z :=
  let generic :=
    match find_node t
            (fun k => match k with
                      | KLive k => luaO_rawequalKey k key
                      | KDead gc => iscollectable key && (gc =? gcvalue key)
                      end) (mainposition (lsizenode t) key) with
    | Some (NodeSlot i) => Ret (Z.of_nat i + sizearray t)
    | _ => Throw (RunError "invalid key to 'next'")
    end in
  match key with
  | LNil => Ret (-1)
  | LNumber n =>
      let i := arrayindex n in
      if (0 <? i) && (i <=? sizearray t) then Ret (i - 1) else generic
  | _ => generic
  end.

(** The first value from index [i] on that is not [nil]. *)
Fixpoint scan_array (i : Z) (vs : list TValue) : option (Z * TValue) :=
  match vs with
  | [] => None
  | v :: vs => if negb (ttisnil v) then Some (i, v) else scan_array (i + 1) vs
  end.

Fixpoint scan_nodes (i : Z) (ns : list LuaNode) : option (Z * LuaNode) :=
  match ns with
  | [] => None
  | n :: ns => if negb (ttisnil (nval n)) then Some (i, n) else scan_nodes (i + 1) ns
  end.

(** [getnodekey] *)
Definition getnodekey (n : LuaNode) : outcome TValue :=
  match nkey n with KLive k => Ret k | KDead _ => Undefined "a dead key with a value" end.

(** The next pair; [None] at the end. *)
Definition luaH_next (t : LuaTable) (key : TValue) : outcome (option (TValue * TValue)) :=
  i <- findindex t key ;;
  let i := i + 1 in
  match scan_array i (drop (Z.to_nat i) (array t)) with
  | Some (i, v) => Ret (Some (LNumber (double_of_Z (i + 1)), v))
  | None =>
      let i := Z.max i (sizearray t) - sizearray t in
      match scan_nodes i (drop (Z.to_nat i) (nodes_of t)) with
      | Some (_, n) => k <- getnodekey n ;; Ret (Some (k, nval n))
      | None => Ret None
      end
  end.

(** [lua_rawiter] (lapi.cpp): the pair pushed and the next [iter]; [None] is
    the result [-1]. *)
Definition lua_rawiter (t : LuaTable) (iter : Z) : outcome (option (Z * TValue * TValue)) :=
  match scan_array iter (drop (Z.to_nat iter) (array t)) with
  | Some (i, v) => Ret (Some (i + 1, LNumber (double_of_Z (i + 1)), v))
  | None =>
      let i := Z.max iter (sizearray t) - sizearray t in
      match scan_nodes i (drop (Z.to_nat i) (nodes_of t)) with
      | Some (i, n) => k <- getnodekey n ;; Ret (Some (i + sizearray t + 1, k, nval n))
      | None => Ret None
      end
  end.

(** ** Copy, clear, collect *)

Definition luaH_clone (tt : LuaTable) : LuaTable :=
  let t := {| tmcache := tmcache tt; readonly := false; safeenv := false; lsizenode := 0;
              lastfree := 0; metatable := metatable tt; array := []; node := None |} in
  let t := if negb (sizearray tt =? 0)
           then set_array (array tt) (maybesetaboundary t (getaboundary tt)) else t in
  match node tt with
  | Some ns => set_node (Some ns) (lsizenode tt) (lastfree tt) t
  | None => t
  end.

Definition luaH_clear (t : LuaTable) : LuaTable :=
  let t := set_array (replicate (length (array t)) LNil) t in
  let t := maybesetaboundary t 0 in
  let t :=
    match node t with
    | Some ns => set_node (Some (replicate (Z.to_nat (sizenode t)) empty_node))
                   (lsizenode t) (sizenode t) t
    | None => t
    end in
  set_tmcache 255 t.

(** [removeentry] (lgc.cpp): the collector forgets the key of an empty node. *)
Definition removeentry (n : LuaNode) : LuaNode :=
  match nkey n with
  | KLive k => if iscollectable k
               then {| nval := nval n; nkey := KDead (gcvalue k); nnext := nnext n |} else n
  | KDead _ => n
  end.

Definition removeentry_at (t : LuaTable) (i : nat) : LuaTable :=
  match node t with
  | None => t
  | Some ns =>
      if ttisnil (nval (gnode ns i))
      then set_node (Some (<[i := removeentry (gnode ns i)]> ns)) (lsizenode t) (lastfree t) t
      else t
  end.
End Operations.
