(* ===== verification/TableSpec.v ===== *)
(** What a table promises: its invariant, the finite map it implements, and the
    routines of [Table.v] against them.

    The keys of the map are the keys up to raw equality ([key_norm]); [get]
    reads it.  [wf_table] is the invariant of the two parts together: no key
    of the hash part is an index of the array part or the index right behind
    it, which is the boundary invariant of [ltable.cpp]. *)
From stdpp Require Import sets sorting.
From S2P Require Import Prelude Word Double DoubleExact LuaApi Arith Compare Key TableNode Table.
Open Scope Z_scope.
Open Scope outcome_scope.

Lemma MAXSIZE_eq : MAXSIZE = 67108864.
Proof. reflexivity. Qed.

(** The key of the array index [i]. *)
Definition akey (i : Z) : TValue := LNumber (double_of_Z i).

Section Indices.
Context `{VecSize, Target}.

Lemma double_of_Z_self i : Z.abs i < 2 ^ 53 -> d_eq (double_of_Z i) (double_of_Z i) = true.
Proof. intros Hi. rewrite d_eq_of_Z by done. apply Z.eqb_refl. Qed.

Lemma d_eq_index i d :
  i <> 0 -> Z.abs i < 2 ^ 53 -> d_eq (double_of_Z i) d = bool_decide (d = double_of_Z i).
Proof.
  intros Hi Hb. unfold d_eq. rewrite SFeqb_norm by by apply double_of_Z_self.
  apply bool_decide_ext. split; [|by intros ->].
  intros [->|(s & s' & E & _)]%norm_num_cases; [done|].
  destruct (double_of_Z_spec i Hi Hb) as (m & k & _ & _ & E' & _). congruence.
Qed.

Lemma arrayindex_of_Z i : in_s 32 i -> arrayindex (double_of_Z i) = i.
Proof.
  intros Hi. unfold arrayindex. rewrite luai_num2int_of_Z by done.
  rewrite double_of_Z_self; [done|]. unfold in_s in Hi. lia.
Qed.

(** A positive array index is the integer itself. *)
Lemma arrayindex_pos d : 0 < arrayindex d -> d = double_of_Z (arrayindex d).
Proof.
  unfold arrayindex. pose proof (luai_num2int_range d) as Hr. unfold in_s in Hr.
  destruct (d_eq _ _) eqn:E; [|lia]. intros Hp.
  rewrite d_eq_index in E by lia. by apply bool_decide_eq_true in E.
Qed.

Lemma akey_inj i j : in_s 32 i -> in_s 32 j -> akey i = akey j -> i = j.
Proof.
  intros Hi Hj [= E]. by rewrite <- (arrayindex_of_Z i Hi), <- (arrayindex_of_Z j Hj), E.
Qed.

Lemma akey_valid i : Z.abs i < 2 ^ 53 -> valid_key (akey i) = true.
Proof. apply double_of_Z_self. Qed.

(** Only the index itself is raw equal to an index. *)
Lemma akey_norm i k :
  i <> 0 -> Z.abs i < 2 ^ 53 -> key_norm k = key_norm (akey i) -> k = akey i.
Proof.
  intros Hi Hb. destruct k; try discriminate. cbn. intros [= E].
  apply norm_num_cases in E as [->|(s & s' & _ & E)]; [done|].
  destruct (double_of_Z_spec i Hi Hb) as (m & k & _ & _ & E' & _). congruence.
Qed.

Lemma in_array_spec t key :
  in_s 32 key -> sizearray t <= MAXSIZE -> in_array key t = (1 <=? key) && (key <=? sizearray t).
Proof.
  intros Hk Hs. rewrite MAXSIZE_eq in Hs. unfold in_array, sub_u, u32, cast_u.
  assert (0 <= sizearray t) by (unfold sizearray; lia).
  rewrite (Z.mod_small (sizearray t)) by lia. unfold in_s in Hk.
  rewrite Zminus_mod_idemp_l.
  destruct (Z.leb_spec 1 key) as [H1'|H1'].
  - rewrite Z.mod_small by lia.
    destruct (Z.ltb_spec (key - 1) (sizearray t)), (Z.leb_spec key (sizearray t)); cbn; lia.
  - rewrite <- (Z.mod_unique (key - 1) (2 ^ 32) (-1) (key - 1 + 2 ^ 32)) by lia.
    destruct (Z.ltb_spec (key - 1 + 2 ^ 32) (sizearray t)); cbn; lia.
Qed.
End Indices.

(** * The invariant *)

Section Spec.
Context `{VecSize, Target}.

Record wf_table (t : LuaTable) : Prop := {
  wt_asize : sizearray t <= MAXSIZE;
  wt_node :
    match node t with
    | None => lsizenode t = 0 /\ lastfree t <= 0
    | Some ns => lsizenode t <= MAXBITS /\ wf_nodes (lsizenode t) ns (lastfree t) /\
                 lastfree t <= Z.of_nat (length ns)
    end;
  wt_boundary : - sizearray t <= lastfree t;
  wt_split : forall j i, 1 <= i <= sizearray t + 1 -> ~ live (nodes_of t) j (akey i);
}.

(** The slot [s] is the slot of the key [k]. *)
Definition slot_key (t : LuaTable) (s : slot) (k : TValue) : Prop :=
  match s with
  | ArraySlot i => Z.of_nat i < sizearray t /\ k = akey (Z.of_nat i + 1)
  | NodeSlot j => live (nodes_of t) j k
  end.

Lemma dummy_not_live j k : ~ live [empty_node] j k.
Proof. unfold live, gnode. by destruct j as [|[|j]]. Qed.

Lemma wt_nodes t ns : wf_table t -> node t = Some ns ->
  lsizenode t <= MAXBITS /\ wf_nodes (lsizenode t) ns (lastfree t) /\
  lastfree t <= Z.of_nat (length ns).
Proof. intros Hwf E. pose proof (wt_node _ Hwf) as Hn. by rewrite E in Hn. Qed.

Lemma live_node t j k : live (nodes_of t) j k -> exists ns, node t = Some ns /\ nodes_of t = ns.
Proof.
  unfold nodes_of. destruct (node t); [eauto|]. intros Hl. by apply dummy_not_live in Hl.
Qed.

Lemma live_valid t j k : wf_table t -> live (nodes_of t) j k -> valid_key k = true.
Proof.
  intros Hwf Hl. destruct (live_node _ _ _ Hl) as (ns & En & E). rewrite E in Hl.
  destruct (wt_nodes _ _ Hwf En) as (_ & Hn & _). by eapply (wf_key _ _ _ Hn).
Qed.

Lemma slot_key_valid t s k : wf_table t -> slot_key t s k -> valid_key k = true.
Proof.
  intros Hwf. pose proof (wt_asize _ Hwf) as Hs. rewrite MAXSIZE_eq in Hs.
  destruct s as [i|j]; [|by apply live_valid]. intros [Hi ->]. apply akey_valid. lia.
Qed.

(** Every key has one slot. *)
Lemma slot_key_inj t s s' k k' :
  wf_table t -> slot_key t s k -> slot_key t s' k' -> key_norm k = key_norm k' -> s = s'.
Proof.
  intros Hwf. pose proof (wt_asize _ Hwf) as Hs. rewrite MAXSIZE_eq in Hs.
  destruct s as [i|j], s' as [i'|j']; cbn [slot_key].
  - intros [Hi ->] [Hi' ->] E. apply akey_norm in E; [|lia|lia].
    apply akey_inj in E; [|unfold in_s; lia|unfold in_s; lia]. f_equal. lia.
  - intros [Hi ->] Hl E. symmetry in E. apply akey_norm in E as ->; [|lia|lia].
    exfalso. eapply (wt_split _ Hwf); [|done]. lia.
  - intros Hl [Hi ->] E. apply akey_norm in E as ->; [|lia|lia].
    exfalso. eapply (wt_split _ Hwf); [|done]. lia.
  - intros Hl Hl' E. f_equal. destruct (live_node _ _ _ Hl) as (ns & En & E').
    rewrite E' in *. destruct (wt_nodes _ _ Hwf En) as (_ & Hn & _).
    by apply (wf_uniq _ _ _ Hn _ _ _ _ Hl Hl').
Qed.

(** * Search *)

Lemma chain_find_ext fuel nodes p q i :
  (forall k, p k = q k) -> chain_find fuel nodes p i = chain_find fuel nodes q i.
Proof.
  intros E. revert i. induction fuel as [|f IH]; intros i; cbn; [done|]. by rewrite E, IH.
Qed.

Lemma get_generic_spec t k :
  wf_table t -> valid_key k = true ->
  match get_generic t k with
  | Some s => exists j k', s = NodeSlot j /\ live (nodes_of t) j k' /\ key_norm k' = key_norm k
  | None => forall j k', live (nodes_of t) j k' -> key_norm k' <> key_norm k
  end.
Proof.
  intros Hwf Hv. unfold get_generic. destruct (node t) as [ns|] eqn:En.
  2:{ unfold nodes_of. rewrite En. intros j k' Hl. by apply dummy_not_live in Hl. }
  destruct (wt_nodes _ _ Hwf En) as (_ & Hn & _).
  unfold find_node, nodes_of. rewrite En. set (p := fun k0 : TKey => _).
  assert (Hp : forall j k', live ns j k' ->
    p (nkey (gnode ns j)) = bool_decide (key_norm k' = key_norm k)).
  { intros j k' Hl. pose proof (wf_key _ _ _ Hn _ _ Hl) as Hv'. unfold live in Hl, p.
    destruct (nkey (gnode ns j)) as [k0|]; [|done].
    assert (k0 = k') as -> by (destruct k0; by inversion Hl). by apply rawequalKey_norm. }
  destruct (wf_size _ _ _ Hn) as [Hls Hlen].
  pose proof (mainposition_lt (lsizenode t) k Hls) as Hm. rewrite <- Hlen in Hm.
  destruct (wf_chain _ _ _ Hn _ Hm) as [l Hl].
  pose proof (chain_find_spec ns (length ns) p _ l Hl (chain_length _ _ _ _ Hl)) as Hf.
  destruct (chain_find _ _ _ _) as [j|].
  - destruct Hf as [Hin Hpj]. exists j.
    assert (exists k', live ns j k') as [k' Hk'].
    { unfold p in Hpj. unfold live. destruct (nkey (gnode ns j)) as [k0|]; [|done].
      destruct k0; eauto. by destruct k. }
    exists k'. split; [done|]. split; [done|]. rewrite (Hp _ _ Hk') in Hpj.
    by apply bool_decide_eq_true in Hpj.
  - intros j k' Hk' E. destruct (wf_reach _ _ _ Hn _ _ Hk') as (l' & Hl' & Hin).
    rewrite (mainposition_norm _ _ _ E) in Hl'. rewrite (chain_det _ _ _ _ _ Hl' Hl) in Hin.
    specialize (Hf _ Hin). rewrite (Hp _ _ Hk') in Hf. by apply bool_decide_eq_false in Hf.
Qed.

(** The specialised searches are the generic one. *)
Lemma luaH_getnum_generic t i :
  luaH_getnum t i = if in_array i t then Some (ArraySlot (Z.to_nat (i - 1)))
                    else get_generic t (akey i).
Proof.
  unfold luaH_getnum, get_generic. destruct (in_array i t); [done|].
  destruct (node t); [|done]. unfold find_node.
  rewrite (chain_find_ext _ _ _ (fun k => match k with
    | KLive k => luaO_rawequalKey k (akey i) | KDead _ => false end)); [done|].
  intros [k|]; [|done]. by destruct k.
Qed.

Lemma luaH_getstr_generic t s : luaH_getstr t s = get_generic t (LString s).
Proof.
  unfold luaH_getstr, get_generic. destruct (node t); [|done]. unfold find_node.
  rewrite (chain_find_ext _ _ _ (fun k => match k with
    | KLive k => luaO_rawequalKey k (LString s) | KDead _ => false end)); [done|].
  intros [k|]; [|done]. by destruct k.
Qed.

Lemma luaH_getp_generic t p tag : luaH_getp t p tag = get_generic t (LLightUserdata p tag).
Proof.
  unfold luaH_getp, get_generic. destruct (node t); [|done]. unfold find_node.
  rewrite (chain_find_ext _ _ _ (fun k => match k with
    | KLive k => luaO_rawequalKey k (LLightUserdata p tag) | KDead _ => false end)); [done|].
  intros [k|]; [|done]. by destruct k.
Qed.

(** The slot that a search yields for the keys equal to [k]. *)
Definition finds (t : LuaTable) (k : TValue) (r : option slot) : Prop :=
  match r with
  | Some s => exists k', slot_key t s k' /\ key_norm k' = key_norm k
  | None => forall s k', slot_key t s k' -> key_norm k' <> key_norm k
  end.

Lemma finds_norm t k k' r : key_norm k = key_norm k' -> finds t k r -> finds t k' r.
Proof. unfold finds. by intros ->. Qed.

Lemma get_generic_finds t k :
  wf_table t -> valid_key k = true ->
  (forall i, 1 <= i <= sizearray t -> k <> akey i) -> finds t k (get_generic t k).
Proof.
  intros Hwf Hv Hk. pose proof (wt_asize _ Hwf) as Hs. rewrite MAXSIZE_eq in Hs.
  pose proof (get_generic_spec t k Hwf Hv) as Hg. unfold finds.
  destruct (get_generic t k) as [s|].
  - destruct Hg as (j & k' & -> & Hl & E). by exists k'.
  - intros [i|j] k'; [|apply Hg]. intros [Hi ->] E. symmetry in E.
    apply akey_norm in E as ->; [|lia|lia]. apply (Hk (Z.of_nat i + 1)); [lia|done].
Qed.

Lemma luaH_getnum_finds t i :
  wf_table t -> in_s 32 i -> finds t (akey i) (luaH_getnum t i).
Proof.
  intros Hwf Hi. pose proof (wt_asize _ Hwf) as Hs. pose proof Hs as Hs'. rewrite MAXSIZE_eq in Hs'.
  rewrite luaH_getnum_generic, in_array_spec by done.
  destruct (Z.leb_spec 1 i), (Z.leb_spec i (sizearray t)); cbn [andb].
  1:{ exists (akey i). split; [|done]. cbn [slot_key]. rewrite Z2Nat.id by lia.
      split; [lia|f_equal; lia]. }
  all: apply get_generic_finds; [done|apply akey_valid; unfold in_s in Hi; lia|].
  all: intros j Hj E; apply akey_inj in E; [lia|done|unfold in_s; lia].
Qed.

Lemma luaH_get_finds t k : wf_table t -> valid_key k = true -> finds t k (luaH_get t k).
Proof.
  intros Hwf Hv. pose proof (wt_asize _ Hwf) as Hs. rewrite MAXSIZE_eq in Hs.
  destruct k; cbn [luaH_get]; try (by apply get_generic_finds); [done| |].
  - destruct (d_eq _ _) eqn:E.
    + pose proof (luai_num2int_range n) as Hr. apply finds_norm with (akey (luai_num2int n)).
      * unfold akey. cbn [key_norm]. f_equal. unfold in_s in Hr.
        unfold d_eq in E. rewrite SFeqb_norm in E by (apply double_of_Z_self; lia).
        by apply bool_decide_eq_true in E.
      * by apply luaH_getnum_finds.
    + apply get_generic_finds; [done|done|]. intros i Hi [= ->].
      rewrite luai_num2int_of_Z, double_of_Z_self in E; [done|lia|unfold in_s; lia].
  - rewrite luaH_getstr_generic. by apply get_generic_finds.
Qed.

Lemma finds_unique t k r s k' :
  wf_table t -> finds t k r -> slot_key t s k' -> key_norm k' = key_norm k -> r = Some s.
Proof.
  intros Hwf. destruct r as [s'|]; cbn [finds].
  - intros (k2 & Hs & E) Hs' E'. f_equal.
    apply (slot_key_inj t s' s k2 k' Hwf Hs Hs'). congruence.
  - intros Hn Hs' E'. by destruct (Hn _ _ Hs').
Qed.

Lemma luaH_get_iff t k s :
  wf_table t -> valid_key k = true ->
  luaH_get t k = Some s <-> exists k', slot_key t s k' /\ key_norm k' = key_norm k.
Proof.
  intros Hwf Hv. pose proof (luaH_get_finds t k Hwf Hv) as Hf. split.
  - intros E. by rewrite E in Hf.
  - intros (k' & Hs & E). by eapply finds_unique.
Qed.

(** * The map *)

(** The pairs of a table. *)
Definition holds (t : LuaTable) (k v : TValue) : Prop :=
  exists s, slot_key t s k /\ slot_value t s = v.

Lemma get_holds t k v :
  wf_table t -> valid_key k = true -> v <> LNil ->
  get t k = v <-> exists k', key_norm k' = key_norm k /\ holds t k' v.
Proof.
  intros Hwf Hv Hnv. unfold get, slot_get. split.
  - destruct (luaH_get t k) as [s|] eqn:E; [|congruence]. intros Hs.
    apply luaH_get_iff in E as (k' & Hk & E); [|done|done]. exists k'. split; [done|]. by exists s.
  - intros (k' & E & s & Hk & Hs). by rewrite (proj2 (luaH_get_iff t k s Hwf Hv) ltac:(eauto)).
Qed.

Lemma get_ext t t' k :
  wf_table t -> wf_table t' -> valid_key k = true ->
  (forall k v, v <> LNil -> holds t' k v <-> holds t k v) -> get t' k = get t k.
Proof.
  intros Hwf Hwf' Hv Hh.
  assert (Hs : forall v, v <> LNil -> get t' k = v <-> get t k = v).
  { intros v Hnv. rewrite !get_holds by done. by setoid_rewrite Hh. }
  destruct (decide (get t k = LNil)) as [E|E].
  - destruct (decide (get t' k = LNil)) as [E'|E']; [congruence|].
    symmetry. by apply Hs.
  - by apply Hs.
Qed.

(** ** Assignment through a slot *)

Lemma setslot_facts t s v :
  sizearray (setslot t s v) = sizearray t /\ lsizenode (setslot t s v) = lsizenode t /\
  lastfree (setslot t s v) = lastfree t /\ length (nodes_of (setslot t s v)) = length (nodes_of t).
Proof.
  unfold sizearray, nodes_of. destruct s as [i|j]; cbn.
  - by rewrite length_insert.
  - destruct (node t) eqn:E; cbn; by rewrite ?E, ?length_insert.
Qed.

Lemma setslot_node t j v i :
  nkey (gnode (nodes_of (setslot t (NodeSlot j) v)) i) = nkey (gnode (nodes_of t) i) /\
  nnext (gnode (nodes_of (setslot t (NodeSlot j) v)) i) = nnext (gnode (nodes_of t) i).
Proof.
  unfold nodes_of, setslot. destruct (node t) as [ns|] eqn:E; cbn; rewrite ?E; [|done].
  destruct (decide (j = i)) as [->|]; [|by rewrite gnode_insert_ne].
  destruct (Nat.lt_ge_cases i (length ns)); [by rewrite gnode_insert_eq|].
  by rewrite list_insert_ge.
Qed.

Lemma setslot_live t s v j k : live (nodes_of (setslot t s v)) j k <-> live (nodes_of t) j k.
Proof.
  destruct s as [i|i]; [done|]. unfold live. by rewrite (proj1 (setslot_node t i v j)).
Qed.

Lemma setslot_key t s v s' k : slot_key (setslot t s v) s' k <-> slot_key t s' k.
Proof.
  destruct s'; cbn [slot_key]; [|apply setslot_live].
  by rewrite (proj1 (setslot_facts t s v)).
Qed.

Lemma setslot_value t s s' v k :
  slot_key t s k -> slot_value (setslot t s v) s' = if decide (s' = s) then v else slot_value t s'.
Proof.
  intros Hk. destruct s as [i|i].
  - destruct Hk as [Hi _]. unfold sizearray in Hi. destruct s' as [j|j]; cbn.
    + destruct (decide (j = i)) as [->|Hne].
      * rewrite list_lookup_insert_eq by lia. by rewrite decide_True.
      * rewrite list_lookup_insert_ne by done. rewrite decide_False by congruence. done.
    + by rewrite decide_False.
  - cbn [slot_key] in Hk. destruct (live_node _ _ _ Hk) as (ns & En & E).
    rewrite E in Hk. apply live_lt in Hk. destruct s' as [j|j]; cbn; rewrite En; cbn.
    + by rewrite decide_False.
    + rewrite E. destruct (decide (j = i)) as [->|Hne].
      * rewrite gnode_insert_eq by done. by rewrite decide_True.
      * rewrite gnode_insert_ne by done. rewrite decide_False by congruence. done.
Qed.

Lemma setslot_wf t s v k : wf_table t -> slot_key t s k -> wf_table (setslot t s v).
Proof.
  intros Hwf Hk. destruct (setslot_facts t s v) as (Ea & El & Ef & En). split.
  - rewrite Ea. apply (wt_asize _ Hwf).
  - pose proof (wt_node _ Hwf) as Hn. destruct s as [i|i]; [done|]. cbn [setslot].
    destruct (node t) as [ns|] eqn:E; [|by rewrite E]. cbn.
    destruct Hn as (Hls & Hn & Hlf). rewrite length_insert. split; [done|]. split; [|done].
    pose proof (setslot_node t i v) as Hs. unfold nodes_of in Hs. rewrite E in Hs. cbn in Hs.
    rewrite E in Hs. cbn in Hs.
    apply wf_nodes_weaken with ns; [done|by rewrite length_insert|..].
    + intros j. apply Hs.
    + intros j. by rewrite (proj1 (Hs j)).
    + intros j k'. unfold live. by rewrite (proj1 (Hs j)).
    + intros j Hj. unfold live. rewrite (proj1 (Hs j)).
      cbn [slot_key] in Hk. unfold nodes_of in Hk. rewrite E in Hk.
      destruct (decide (j = i)) as [->|Hne]; [by exists k|].
      rewrite gnode_insert_ne in Hj by done. by apply (wf_val _ _ _ Hn).
  - rewrite Ea, Ef. apply (wt_boundary _ Hwf).
  - intros j i. rewrite Ea, setslot_live. apply (wt_split _ Hwf).
Qed.

Lemma setslot_holds t s v k :
  wf_table t -> slot_key t s k ->
  forall k' v', holds (setslot t s v) k' v' <->
    (k' = k /\ v' = v) \/ (key_norm k' <> key_norm k /\ holds t k' v').
Proof.
  intros Hwf Hk k' v'. unfold holds. setoid_rewrite setslot_key. split.
  - intros (s' & Hs' & Hv'). rewrite (setslot_value _ _ _ _ _ Hk) in Hv'.
    destruct (decide (s' = s)) as [->|Hne].
    + left. split; [|done]. destruct s; cbn [slot_key] in *; [naive_solver|].
      by eapply live_det.
    + right. split; [|eauto]. intros E. apply Hne. by eapply slot_key_inj.
  - intros [[-> ->]|[Hne (s' & Hs' & Hv')]].
    + exists s. split; [done|]. rewrite (setslot_value _ _ _ _ _ Hk). by rewrite decide_True.
    + exists s'. split; [done|]. rewrite (setslot_value _ _ _ _ _ Hk).
      rewrite decide_False; [done|]. intros ->. apply Hne.
      destruct s; cbn [slot_key] in *; [naive_solver|]. by rewrite (live_det _ _ _ _ Hs' Hk).
Qed.
End Spec.
