(* ===== verification/TableResize.v ===== *)
(** Resizing a table, [resize] of [VM/src/ltable.cpp]: every entry is found
    again at its key, and the migration never calls [rehash] when the new parts
    are large enough. *)
From stdpp Require Import sets sorting.
From S2P Require Import Prelude Word Double LuaApi Arith Compare Key TableNode Table TableSpec.
Open Scope Z_scope.
Open Scope outcome_scope.

Abbreviation norms items := (map (fun kv : TValue * TValue => key_norm kv.1) items).

Lemma elem_of_rev {A} (x : A) l : x ∈ rev l <-> x ∈ l.
Proof. by rewrite <- Permutation_rev. Qed.

Section Resize.
Context `{VecSize, Target}.

(** * Capacity *)

Definition capacity (t : LuaTable) : nat :=
  match node t with None => 0 | Some ns => length ns end.

Definition occ (t : LuaTable) : nat :=
  match node t with None => 0 | Some ns => length (occupied ns) end.

(** The key is one of the indices [1 .. n]. *)
Definition in_range (n : Z) (k : TValue) : bool :=
  match k with LNumber d => (0 <? arrayindex d) && (arrayindex d <=? n) | _ => false end.

Lemma in_range_true n k : in_range n k = true -> exists i, 1 <= i <= n /\ k = akey i.
Proof.
  unfold in_range. destruct k; try done. intros Hb. bool_simpl.
  exists (arrayindex n0). split; [lia|]. unfold akey. f_equal. by apply arrayindex_pos.
Qed.

Lemma in_range_akey n i : in_s 32 i -> in_range n (akey i) = (1 <=? i) && (i <=? n).
Proof.
  intros Hi. cbn [in_range akey]. rewrite arrayindex_of_Z by done.
  destruct (Z.ltb_spec 0 i), (Z.leb_spec 1 i); (done || lia).
Qed.

Lemma in_range_false n k :
  n <= MAXSIZE -> in_range n k = false -> forall i, 1 <= i <= n -> k <> akey i.
Proof.
  rewrite MAXSIZE_eq. intros Hn Hf i Hi ->. rewrite in_range_akey in Hf by (unfold in_s; lia).
  destruct (Z.leb_spec 1 i), (Z.leb_spec i n); (done || lia).
Qed.

(** The number of pairs whose key is outside of [1 .. n]. *)
Definition outside (n : Z) (items : list (TValue * TValue)) : nat :=
  length (filter (fun kv => in_range n kv.1 = false) items).

Lemma outside_cons n kv items :
  outside n (kv :: items) = ((if in_range n kv.1 then 0 else 1) + outside n items)%nat.
Proof. unfold outside. rewrite filter_cons. by destruct (in_range n kv.1). Qed.

Lemma outside_app n l l' : outside n (l ++ l') = (outside n l + outside n l')%nat.
Proof. unfold outside. by rewrite filter_app, length_app. Qed.

Lemma outside_perm n l l' : l ≡ₚ l' -> outside n l = outside n l'.
Proof. intros E. unfold outside. by rewrite E. Qed.

(** * The insertion of one key *)

(** The table [t'] is [t] with a slot [s] for [key], still empty. *)
Record inserted (t t' : LuaTable) (s : slot) (key : TValue) : Prop := {
  ins_wf : wf_table t';
  ins_key : slot_key t' s key;
  ins_nil : slot_value t' s = LNil;
  ins_holds : forall k v, v <> LNil -> holds t' k v <-> holds t k v;
}.

(** The key has no slot; the next index has none either, by [wt_split]. *)
Definition fresh (t : LuaTable) (key : TValue) : Prop :=
  forall s k, slot_key t s k -> key_norm k <> key_norm key.

Lemma at_boundary_akey t key :
  sizearray t <= MAXSIZE -> at_boundary t key = bool_decide (key = akey (sizearray t + 1)).
Proof.
  rewrite MAXSIZE_eq. intros Hs. assert (0 <= sizearray t) by (unfold sizearray; lia).
  unfold at_boundary, akey. destruct key; try (symmetry; by apply bool_decide_eq_false_2).
  unfold d_eq. destruct (SFeqb n _) eqn:E.
  - symmetry. apply bool_decide_eq_true_2. f_equal.
    assert (SFeqb n n = true) as Hn.
    { destruct n as [[]|[]| |[] m e]; try done; cbn.
      all: rewrite Z.compare_refl; change (Pos.compare_cont Eq m m) with (m ?= m)%positive;
        by rewrite Pos.compare_refl. }
    rewrite SFeqb_norm in E by done. apply bool_decide_eq_true in E.
    assert (key_norm (LNumber n) = key_norm (akey (sizearray t + 1))) as E' by (cbn; by rewrite E).
    apply akey_norm in E'; [by injection E'|lia|lia].
  - symmetry. apply bool_decide_eq_false_2. intros [= ->].
    rewrite double_of_Z_self in E; [done|lia].
Qed.

(** The table with its nodes after [newkey_place]. *)
Definition place_in (t : LuaTable) (r : list LuaNode * Z * nat) : LuaTable * slot :=
  let '(ns, lf, i) := r in (set_node (Some ns) (lsizenode t) lf t, NodeSlot i).

(** What the migration needs of [newkey]: with a free node, it places the key. *)
Definition places (nk : key_type) : Prop := forall t key ns r,
  at_boundary t key = false -> node t = Some ns ->
  newkey_place (lsizenode t) ns (lastfree t) key = Some r -> nk t key = Ret (place_in t r).

Lemma newkey_places f : places (newkey (S f)).
Proof.
  intros t key ns [[ns' lf] i] Hb En Ep. cbn [newkey]. unfold newkey_body. by rewrite Hb, En, Ep.
Qed.

Lemma place_inserted t key ns ns' lf i :
  wf_table t -> valid_key key = true -> fresh t key -> at_boundary t key = false ->
  node t = Some ns -> newkey_place (lsizenode t) ns (lastfree t) key = Some (ns', lf, i) ->
  let t' := set_node (Some ns') (lsizenode t) lf t in
  inserted t t' (NodeSlot i) key /\ capacity t' = capacity t /\ (occ t' <= S (occ t))%nat /\
  (forall j k, live (nodes_of t') j k -> k = key \/ exists j', live (nodes_of t) j' k).
Proof.
  intros Hwf Hv Hf Hb En Ep t'. destruct (wt_nodes _ _ Hwf En) as (Hls & Hn & Hlf).
  assert (Hnode : nodes_of t = ns) by (unfold nodes_of; by rewrite En).
  assert (Hfr : forall j k, live ns j k -> key_norm k <> key_norm key).
  { intros j k Hl. apply (Hf (NodeSlot j)). cbn. by rewrite Hnode. }
  pose proof (newkey_place_spec _ ns (lastfree t) key Hn Hv Hfr Hlf) as Hp.
  rewrite Ep in Hp. destruct Hp as [Pwf Plen Plf Plive Pnil Pkeys Pentry Pocc].
  rewrite at_boundary_akey in Hb by apply (wt_asize _ Hwf). apply bool_decide_eq_false in Hb.
  split; [split|].
  - split.
    + apply (wt_asize _ Hwf).
    + cbn. rewrite Plen. split; [done|]. split; [done|]. lia.
    + cbn. pose proof (wt_boundary _ Hwf).
      destruct (Z.lt_ge_cases (lastfree t) 0) as [Hneg|]; [|unfold sizearray in *; cbn; lia].
      unfold newkey_place, getfreepos in Ep. unfold sizearray in *; cbn.
      destruct (Z.ltb_spec 0 (lastfree t)); [lia|]. destruct (negb _); [done|].
      injection Ep as _ <- _. done.
    + intros j i0 Hi Hl. apply Pkeys in Hl as [E|[j' Hl]].
      * destruct (decide (i0 = sizearray t + 1)) as [->|]; [by apply Hb|].
        apply (Hf (ArraySlot (Z.to_nat (i0 - 1))) key); [|done].
        unfold sizearray in *. cbn in *. split; [unfold sizearray; lia|].
        rewrite <- E. f_equal. lia.
      * apply (wt_split _ Hwf j' i0); [done|]. by rewrite Hnode.
  - done.
  - done.
  - intros k v Hnv. unfold holds. split.
    + intros ([a|j] & Hk & Hv'); [by exists (ArraySlot a)|]. cbn in Hk, Hv'.
      destruct (proj1 (Pentry k v Hnv) ltac:(by exists j)) as (j' & Hl & Hv2).
      exists (NodeSlot j'). cbn. by rewrite Hnode.
    + intros ([a|j] & Hk & Hv'); [by exists (ArraySlot a)|]. cbn in Hk, Hv'.
      rewrite Hnode in *. destruct (proj2 (Pentry k v Hnv) ltac:(by exists j)) as (j' & Hl & Hv2).
      by exists (NodeSlot j').
  - unfold capacity, occ. cbn. rewrite En. split; [done|]. split; [done|].
    rewrite Hnode. apply Pkeys.
Qed.

Lemma newkey_place_room t key ns :
  wf_table t -> valid_key key = true -> fresh t key -> node t = Some ns ->
  (occ t < capacity t)%nat ->
  exists r, newkey_place (lsizenode t) ns (lastfree t) key = Some r.
Proof.
  intros Hwf Hv Hf En Hc. destruct (wt_nodes _ _ Hwf En) as (Hls & Hn & Hlf).
  assert (Hfr : forall j k, live ns j k -> key_norm k <> key_norm key).
  { intros j k Hl. apply (Hf (NodeSlot j)). cbn. unfold nodes_of. by rewrite En. }
  pose proof (newkey_place_spec _ ns (lastfree t) key Hn Hv Hfr Hlf) as Hp.
  destruct (newkey_place _ _ _ _) as [r|]; [by exists r|].
  pose proof (occupied_full _ Hp). unfold occ, capacity in Hc. rewrite En in Hc. lia.
Qed.

(** * The migration *)

(** The pairs are not in the table yet: neither a node nor a value has one of
    the keys. *)
Definition absent (t : LuaTable) (k : TValue) : Prop :=
  (forall j k', live (nodes_of t) j k' -> key_norm k' <> key_norm k) /\
  (forall v, v <> LNil -> ~ holds t k v).

Definition good_item (n : Z) (kv : TValue * TValue) : Prop :=
  valid_key kv.1 = true /\ kv.2 <> LNil /\ kv.1 <> akey (n + 1).

Section Migration.
Variable nk : key_type.
Hypothesis Hnk : places nk.

(** The pairs inserted one after the other. *)
Fixpoint reinsert_all (ins : key_type) (t : LuaTable) (items : list (TValue * TValue))
    : outcome LuaTable :=
  match items with
  | [] => Ret t
  | kv :: items => t <- reinsert ins t kv ;; reinsert_all ins t items
  end.

(** [newkey] serves for keys outside of the array. *)
Definition inserts (n : Z) (items : list (TValue * TValue)) (ins : key_type) : Prop :=
  ins = arrayornewkey nk \/
  (ins = nk /\ Forall (fun kv => in_range n kv.1 = false) items).

Lemma arrayornewkey_in t i :
  sizearray t <= MAXSIZE -> 1 <= i <= sizearray t ->
  arrayornewkey nk t (akey i) = Ret (t, ArraySlot (Z.to_nat (i - 1))).
Proof.
  intros Hs Hi. pose proof Hs as Hs'. rewrite MAXSIZE_eq in Hs'. cbn [arrayornewkey akey].
  rewrite luai_num2int_of_Z by (unfold in_s; lia). rewrite double_of_Z_self by lia.
  rewrite in_array_spec by (try done; unfold in_s; lia).
  destruct (Z.leb_spec 1 i), (Z.leb_spec i (sizearray t)); (done || lia).
Qed.

Lemma arrayornewkey_out t k :
  sizearray t <= MAXSIZE -> in_range (sizearray t) k = false -> arrayornewkey nk t k = nk t k.
Proof.
  intros Hs. destruct k; try done. cbn. unfold arrayindex.
  pose proof (luai_num2int_range n) as Hr.
  destruct (d_eq _ _); [|done]. cbn [andb]. rewrite in_array_spec by done.
  destruct (Z.ltb_spec 0 (luai_num2int n)), (Z.leb_spec 1 (luai_num2int n)),
    (luai_num2int n <=? sizearray t); (done || lia).
Qed.

(** The effect of one insertion with its assignment. *)
Record reinserted (t t' : LuaTable) (kv : TValue * TValue) : Prop := {
  re_wf : wf_table t';
  re_size : sizearray t' = sizearray t;
  re_capacity : capacity t' = capacity t;
  re_occ : (occ t' <= occ t + if in_range (sizearray t) kv.1 then 0 else 1)%nat;
  re_keys : forall j k, live (nodes_of t') j k -> k = kv.1 \/ exists j', live (nodes_of t) j' k;
  re_holds : forall k v, v <> LNil -> holds t' k v <-> holds t k v \/ (k, v) = kv;
}.

Lemma setslot_capacity t s v : capacity (setslot t s v) = capacity t.
Proof.
  unfold capacity. destruct s as [i|j]; cbn; [done|].
  destruct (node t) eqn:E; cbn; by rewrite ?E, ?length_insert.
Qed.

Lemma setslot_occ t s v : occ (setslot t s v) = occ t.
Proof.
  destruct s as [i|j]; [done|]. pose proof (setslot_node t j v) as Hs. unfold occ.
  unfold nodes_of in Hs. cbn in *. destruct (node t) as [ns|] eqn:E; cbn in *; rewrite ?E in *; [|done].
  cbn. unfold occupied. rewrite length_insert. f_equal. apply list_filter_iff. intros i.
  by rewrite (proj1 (Hs i)).
Qed.

Lemma reinsert_out t k v :
  wf_table t -> good_item (sizearray t) (k, v) -> absent t k ->
  in_range (sizearray t) k = false -> (occ t < capacity t)%nat ->
  exists t', reinsert nk t (k, v) = Ret t' /\ reinserted t t' (k, v).
Proof.
  intros Hwf (Hv & Hnv & Hb) (Ha & Hh) Hr Hc. cbn [fst snd] in *.
  pose proof (wt_asize _ Hwf) as Hs. pose proof Hs as Hs'. rewrite MAXSIZE_eq in Hs'.
  assert (Hf : fresh t k).
  { intros [i|j] k' Hk'; [|by apply (Ha j)]. destruct Hk' as [Hi ->]. intros E. symmetry in E.
    apply akey_norm in E as ->; [|lia|lia].
    by apply (in_range_false _ _ Hs Hr (Z.of_nat i + 1)); [lia|]. }
  destruct (node t) as [ns|] eqn:En.
  2:{ unfold capacity in Hc. rewrite En in Hc. lia. }
  assert (Hbd : at_boundary t k = false).
  { rewrite at_boundary_akey by done. by apply bool_decide_eq_false_2. }
  destruct (newkey_place_room t k ns Hwf Hv Hf En Hc) as [[[ns' lf] i] Hp].
  destruct (place_inserted t k ns ns' lf i Hwf Hv Hf Hbd En Hp) as (Hi & Hcap & Ho & Hkeys).
  unfold reinsert. cbn [fst snd]. rewrite (Hnk _ _ _ _ Hbd En Hp). cbn [outcome_bind place_in].
  set (t1 := set_node _ _ _ _) in *. destruct Hi as [Iwf Ikey Inil Iholds].
  exists (setslot t1 (NodeSlot i) v). split; [done|]. split.
  - by apply setslot_wf with k.
  - by rewrite (proj1 (setslot_facts _ _ _)).
  - by rewrite setslot_capacity.
  - rewrite setslot_occ. cbn [fst]. rewrite Hr. lia.
  - intros j k'. rewrite setslot_live. apply Hkeys.
  - intros k' v' Hnv'. rewrite (setslot_holds t1 _ v k Iwf Ikey), Iholds by done. split.
    + intros [[-> ->]|[_ Hh']]; eauto.
    + intros [Hh'|[= -> ->]]; [|by left]. right. split; [|done].
      destruct Hh' as (s & Hk' & _). by apply (Hf s).
Qed.

Lemma array_value_holds t i :
  slot_value t (ArraySlot i) <> LNil -> holds t (akey (Z.of_nat i + 1)) (slot_value t (ArraySlot i)).
Proof.
  intros Hv. exists (ArraySlot i). split; [|done]. cbn in *. split; [|done].
  unfold sizearray. destruct (array t !! i) eqn:E; [|done]. apply lookup_lt_Some in E. lia.
Qed.

Lemma reinsert_in t i v :
  wf_table t -> good_item (sizearray t) (akey i, v) -> absent t (akey i) -> 1 <= i <= sizearray t ->
  exists t', reinsert (arrayornewkey nk) t (akey i, v) = Ret t' /\ reinserted t t' (akey i, v).
Proof.
  intros Hwf (Hv & Hnv & Hb) (Ha & Hh) Hi. cbn [fst snd] in *.
  pose proof (wt_asize _ Hwf) as Hs. pose proof Hs as Hs'. rewrite MAXSIZE_eq in Hs'.
  unfold reinsert. cbn [fst snd]. rewrite arrayornewkey_in by done. cbn [outcome_bind].
  set (s := ArraySlot (Z.to_nat (i - 1))). eexists. split; [reflexivity|].
  assert (Hk : slot_key t s (akey i)).
  { cbn. split; [lia|f_equal; lia]. }
  split.
  - by apply setslot_wf with (akey i).
  - by rewrite (proj1 (setslot_facts _ _ _)).
  - by rewrite setslot_capacity.
  - rewrite setslot_occ. lia.
  - intros j k'. rewrite setslot_live. eauto.
  - intros k' v' Hnv'. rewrite (setslot_holds t s v _ Hwf Hk). split.
    + intros [[-> ->]|[_ Hh']]; eauto.
    + intros [Hh'|[= -> ->]]; [|by left]. right. split; [|done]. intros E.
      apply akey_norm in E as ->; [|lia|lia]. by destruct (Hh v').
Qed.

Lemma reinsert_all_spec ins items t :
  wf_table t -> inserts (sizearray t) items ins -> Forall (good_item (sizearray t)) items ->
  NoDup (map (fun kv => key_norm kv.1) items) ->
  (forall kv, kv ∈ items -> absent t kv.1) ->
  (occ t + outside (sizearray t) items <= capacity t)%nat ->
  exists t', reinsert_all ins t items = Ret t' /\ wf_table t' /\
    sizearray t' = sizearray t /\ capacity t' = capacity t /\
    (occ t' <= occ t + outside (sizearray t) items)%nat /\
    (forall j k, live (nodes_of t') j k ->
       k ∈ map fst items \/ exists j', live (nodes_of t) j' k) /\
    (forall k v, v <> LNil -> holds t' k v <-> holds t k v \/ (k, v) ∈ items).
Proof.
  revert t. induction items as [|[k v] items IH]; intros t Hwf Hins Hg Hnd Ha Hc.
  { exists t. change (outside (sizearray t) []) with 0%nat. split_and!; try done; [lia|eauto|].
    intros k v _. rewrite elem_of_nil. tauto. }
  apply Forall_cons in Hg as [Hg Hgs]. cbn [map fst] in Hnd. apply NoDup_cons in Hnd as [Hni Hnd].
  rewrite outside_cons in Hc. cbn [fst] in Hc. pose proof (wt_asize _ Hwf) as Hs.
  assert (exists t1, reinsert ins t (k, v) = Ret t1 /\ reinserted t t1 (k, v))
    as (t1 & E1 & [Rwf Rsize Rcap Rocc Rkeys Rholds]).
  { destruct (in_range (sizearray t) k) eqn:Er.
    - destruct Hins as [->|[_ Ho]]; [|apply Forall_cons in Ho as [Ho _]; cbn in *; congruence].
      apply in_range_true in Er as (i & Hi & ->). apply reinsert_in; try done.
      apply (Ha (akey i, v)). left.
    - assert (reinsert ins t (k, v) = reinsert nk t (k, v)) as ->.
      { destruct Hins as [->|[-> _]]; [|done]. unfold reinsert. cbn [fst].
        by rewrite arrayornewkey_out. }
      apply (reinsert_out t k v); try done; [|lia]. apply (Ha (k, v)). left. }
  cbn [fst] in *. destruct (IH t1) as (t' & E' & Hwf' & Hs' & Hc' & Ho' & Hk' & Hh'); try done.
  - rewrite Rsize. destruct Hins as [->|[-> Ho]]; [by left|right].
    by apply Forall_cons in Ho as [_ Ho].
  - by rewrite Rsize.
  - intros [k1 v1] Hin. cbn. destruct (Ha (k1, v1) ltac:(by right)) as [Hl Hh]. cbn in Hl, Hh.
    assert (key_norm k <> key_norm k1) as Hne.
    { intros E. apply Hni. apply list_elem_of_fmap. by exists (k1, v1). }
    split.
    + intros j k' [->|[j' Hl']]%Rkeys; [done|]. by apply (Hl j').
    + intros v' Hnv' [Hh2|[= -> ->]]%Rholds; [|done|done]. by apply (Hh v').
  - rewrite Rsize, Rcap. lia.
  - exists t'. cbn [reinsert_all]. rewrite E1. cbn [outcome_bind]. split; [done|].
    split; [done|]. split; [congruence|]. split; [congruence|].
    split; [|split].
    + rewrite outside_cons. cbn [fst]. rewrite Rsize in Ho'. lia.
    + intros j k' [Hin|[j' Hl]]%Hk'; [left; by right|].
      apply Rkeys in Hl as [->|Hl]; [left; by left|by right].
    + intros k' v' Hnv'. rewrite Hh', Rholds by done. rewrite elem_of_cons. tauto.
Qed.

(** * The entries of a table *)

(** The pairs of the array, from index [i]. *)
Fixpoint array_entries (i : Z) (vs : list TValue) : list (TValue * TValue) :=
  match vs with
  | [] => []
  | v :: vs => (if ttisnil v then [] else [(akey (i + 1), v)]) ++ array_entries (i + 1) vs
  end.

Definition node_entry (n : LuaNode) : list (TValue * TValue) :=
  if ttisnil (nval n) then []
  else match nkey n with KLive k => [(k, nval n)] | KDead _ => [] end.

Definition node_entries (ns : list LuaNode) : list (TValue * TValue) := ns ≫= node_entry.

Definition entries (t : LuaTable) : list (TValue * TValue) :=
  array_entries 0 (array t) ++ node_entries (nodes_of t).

Lemma reinsert_nodes_all t ns :
  (forall n, n ∈ ns -> nval n <> LNil -> exists k, nkey n = KLive k) ->
  reinsert_nodes nk t ns = reinsert_all (arrayornewkey nk) t (node_entries ns).
Proof.
  revert t. induction ns as [|n ns IH]; intros t Hl; [done|].
  assert (IH' : forall t, reinsert_nodes nk t ns
    = reinsert_all (arrayornewkey nk) t (node_entries ns)).
  { intros t'. apply IH. intros n' Hn'. apply Hl. by right. }
  cbn [reinsert_nodes]. unfold node_entries. cbn [mbind list_bind].
  fold (node_entries ns). unfold node_entry. destruct (ttisnil (nval n)) eqn:E; cbn [negb]; [apply IH'|].
  destruct (Hl n) as [k ->]; [left|by destruct (nval n)|]. cbn [app reinsert_all].
  destruct (reinsert _ _ _); cbn; [|done..]. apply IH'.
Qed.

Lemma reinsert_array_all t i vs :
  reinsert_array nk t i vs = reinsert_all nk t (array_entries i vs).
Proof.
  revert t i. induction vs as [|v vs IH]; intros t i; [done|].
  cbn [reinsert_array array_entries]. destruct (ttisnil v); cbn [negb app reinsert_all].
  - apply IH.
  - destruct (reinsert _ _ _); cbn; [|done..]. apply IH.
Qed.
End Migration.

Lemma ttisnil_false v : ttisnil v = false <-> v <> LNil.
Proof. by destruct v. Qed.

Lemma elem_of_array_entries i vs k v :
  (k, v) ∈ array_entries i vs <->
  exists j, vs !! j = Some v /\ v <> LNil /\ k = akey (i + Z.of_nat j + 1).
Proof.
  revert i. induction vs as [|w vs IH]; intros i; cbn [array_entries].
  - rewrite elem_of_nil. split; [done|]. intros (j & Hj & _). by rewrite lookup_nil in Hj.
  - rewrite elem_of_app, IH. split.
    + intros [Hin|(j & Hj & Hnv & ->)].
      * destruct (ttisnil w) eqn:E; [by apply elem_of_nil in Hin|].
        apply list_elem_of_singleton in Hin as [= -> ->]. exists 0%nat.
        split; [done|]. split; [by apply ttisnil_false|]. f_equal. lia.
      * exists (S j). split; [done|]. split; [done|]. f_equal. lia.
    + intros ([|j] & Hj & Hnv & ->).
      * left. injection Hj as ->. rewrite (proj2 (ttisnil_false v) Hnv).
        apply list_elem_of_singleton. f_equal. f_equal. lia.
      * right. exists j. split; [done|]. split; [done|]. f_equal. lia.
Qed.

Lemma elem_of_node_entries ns k v :
  (k, v) ∈ node_entries ns <->
  exists n, n ∈ ns /\ nval n = v /\ v <> LNil /\ nkey n = KLive k.
Proof.
  unfold node_entries. rewrite list_elem_of_bind. unfold node_entry. split.
  - intros (n & Hk & Hn). exists n. split; [done|].
    destruct (ttisnil (nval n)) eqn:E; [by apply elem_of_nil in Hk|]. apply ttisnil_false in E.
    destruct (nkey n); [|by apply elem_of_nil in Hk].
    by apply list_elem_of_singleton in Hk as [= -> ->].
  - intros (n & Hn & <- & Hnv & Hk). exists n. split; [|done].
    rewrite (proj2 (ttisnil_false _) Hnv), Hk. by apply list_elem_of_singleton.
Qed.

Lemma node_entries_entry ns ls lf k v :
  wf_nodes ls ns lf -> v <> LNil -> (k, v) ∈ node_entries ns <-> entry ns k v.
Proof.
  intros Hwf Hnv. rewrite elem_of_node_entries. unfold entry, live. split.
  - intros (n & [j Hj]%list_elem_of_lookup & Hv & _ & Hk). exists j. unfold gnode. rewrite Hj. cbn.
    split; [|done]. rewrite Hk.
    assert (nval (gnode ns j) <> LNil) as Hx by (unfold gnode; rewrite Hj; cbn; congruence).
    destruct (wf_val _ _ _ Hwf j Hx) as [k' Hl]. unfold live, gnode in Hl. rewrite Hj in Hl.
    cbn in Hl. rewrite Hk in Hl. by destruct k.
  - intros (j & Hl & <-). pose proof (live_lt _ _ _ Hl) as Hlt.
    exists (gnode ns j). split; [apply list_elem_of_lookup_2 with j, gnode_lookup, Hlt|].
    split; [done|]. split; [done|]. destruct (nkey (gnode ns j)) as [k0|]; [|done].
    destruct k0; by inversion Hl.
Qed.

Lemma holds_entries t k v : wf_table t -> v <> LNil -> holds t k v <-> (k, v) ∈ entries t.
Proof.
  intros Hwf Hnv. unfold entries. rewrite elem_of_app, elem_of_array_entries.
  assert (Hn : (k, v) ∈ node_entries (nodes_of t) <-> entry (nodes_of t) k v).
  { unfold nodes_of. destruct (node t) as [ns|] eqn:E.
    - destruct (wt_nodes _ _ Hwf E) as (_ & Hn & _). by eapply node_entries_entry.
    - rewrite elem_of_node_entries. split.
      + intros (n & ->%list_elem_of_singleton & Hv & _). by subst.
      + intros (j & Hl & _). by apply dummy_not_live in Hl. }
  rewrite Hn. unfold holds, entry. split.
  - intros ([i|j] & Hk & Hv); [left|by right; exists j].
    destruct Hk as [Hi ->]. exists i. cbn in Hv. split; [|split; [done|f_equal; lia]].
    unfold sizearray in Hi. destruct (array t !! i) eqn:E; [by cbn in Hv; subst|].
    apply lookup_ge_None in E. lia.
  - intros [(j & Hj & _ & ->)|(j & Hl & Hv)]; [|by exists (NodeSlot j)].
    exists (ArraySlot j). cbn. rewrite Hj. pose proof (lookup_lt_Some _ _ _ Hj) as Hlt.
    unfold sizearray. split; [|done]. split; [lia|f_equal; lia].
Qed.

(** ** Every key occurs once *)

Lemma elem_of_norms x items : x ∈ norms items <-> exists k v, x = key_norm k /\ (k, v) ∈ items.
Proof.
  rewrite list_elem_of_fmap. split.
  - intros ([k v] & -> & Hin). by exists k, v.
  - intros (k & v & -> & Hin). by exists (k, v).
Qed.

Lemma norms_app l l' : norms (l ++ l') = norms l ++ norms l'.
Proof. apply map_app. Qed.

Lemma array_entries_NoDup i vs :
  0 <= i -> i + Z.of_nat (length vs) <= MAXSIZE -> NoDup (norms (array_entries i vs)).
Proof.
  rewrite MAXSIZE_eq. revert i. induction vs as [|v vs IH]; intros i Hi Hb; cbn [array_entries].
  { apply NoDup_nil_2. }
  cbn [length] in Hb. specialize (IH (i + 1) ltac:(lia) ltac:(lia)).
  destruct (ttisnil v); cbn [app map]; [done|]. apply NoDup_cons. split; [|done].
  intros (k & w & E & (j & Hj & _ & ->)%elem_of_array_entries)%elem_of_norms.
  pose proof (lookup_lt_Some _ _ _ Hj). cbn [fst] in E. symmetry in E.
  apply akey_norm in E; [|lia|lia]. apply akey_inj in E; unfold in_s; lia.
Qed.

Lemma node_entries_NoDup ns :
  (forall i, nval (gnode ns i) <> LNil -> exists k, live ns i k) ->
  (forall i j k k', live ns i k -> live ns j k' -> key_norm k = key_norm k' -> i = j) ->
  NoDup (norms (node_entries ns)).
Proof.
  induction ns as [|n ns IH]; intros Hl Hu; [apply NoDup_nil_2|].
  unfold node_entries. cbn [mbind list_bind]. fold (node_entries ns).
  assert (NoDup (norms (node_entries ns))) as Hn.
  { apply IH; [intros i Hi; by apply (Hl (S i))|].
    intros i j k k' Hi Hj E. specialize (Hu (S i) (S j) k k' Hi Hj E). lia. }
  unfold node_entry. destruct (ttisnil (nval n)) eqn:Ev; [done|]. apply ttisnil_false in Ev.
  destruct (nkey n) as [k|] eqn:Ek; [|done]. cbn [app map]. apply NoDup_cons. split; [|done].
  intros (k' & w & E & (n' & [j Hj]%list_elem_of_lookup & Hv & Hnv & Hk)%elem_of_node_entries)
    %elem_of_norms. cbn [fst] in E.
  assert (Hg : gnode (n :: ns) (S j) = n').
  { unfold gnode. change ((n :: ns) !! S j) with (ns !! j). by rewrite Hj. }
  destruct (Hl 0%nat Ev) as [k1 H1']. destruct (Hl (S j)) as [k2 H2']; [by rewrite Hg, Hv|].
  assert (k1 = k) as -> by (unfold live, gnode in H1'; cbn in H1'; rewrite Ek in H1';
    destruct k; by inversion H1').
  assert (k2 = k') as -> by (unfold live in H2'; rewrite Hg, Hk in H2'; destruct k'; by inversion H2').
  by specialize (Hu 0%nat (S j) _ _ H1' H2' E).
Qed.

Lemma entries_NoDup t : wf_table t -> NoDup (norms (entries t)).
Proof.
  intros Hwf. pose proof (wt_asize _ Hwf) as Hs. pose proof Hs as Hs'. rewrite MAXSIZE_eq in Hs'.
  unfold entries. rewrite norms_app. apply NoDup_app. split; [|split].
  - apply array_entries_NoDup; [done|]. done.
  - intros x (k & v & -> & Hk)%elem_of_norms (k' & v' & E & Hk')%elem_of_norms.
    apply elem_of_array_entries in Hk as (j & Hj & _ & ->). apply lookup_lt_Some in Hj.
    unfold sizearray in *.
    symmetry in E. apply akey_norm in E as ->; [|lia|lia].
    apply elem_of_node_entries in Hk' as Hx. destruct Hx as (n & _ & _ & Hnv & _).
    assert (Hh : holds t (akey (0 + Z.of_nat j + 1)) v').
    { apply holds_entries; [done|done|]. apply elem_of_app. by right. }
    unfold nodes_of in Hk'. destruct (node t) as [ns|] eqn:En.
    + destruct (wt_nodes _ _ Hwf En) as (_ & Hn & _).
      apply (node_entries_entry _ _ _ _ _ Hn Hnv) in Hk' as (j' & Hl & _).
      apply (wt_split _ Hwf j' (0 + Z.of_nat j + 1)); [unfold sizearray; lia|].
      unfold nodes_of. by rewrite En.
    + by apply elem_of_node_entries in Hk' as (n' & ->%list_elem_of_singleton & <- & _).
  - unfold nodes_of. destruct (node t) as [ns|] eqn:En; [|apply NoDup_nil_2].
    destruct (wt_nodes _ _ Hwf En) as (_ & Hn & _). apply node_entries_NoDup.
    + apply (wf_val _ _ _ Hn).
    + apply (wf_uniq _ _ _ Hn).
Qed.

(** * The empty parts *)

Lemma ceillog2_up x : 1 <= x -> ceillog2 x = Z.log2_up x.
Proof.
  intros Hx. unfold ceillog2, luaO_log2, Z.log2_up.
  destruct (Z.leb_spec (x - 1) 0), (Z.compare_spec 1 x); try lia.
  rewrite <- Z.sub_1_r. lia.
Qed.

Lemma ceillog2_bounds x :
  1 <= x -> 0 <= ceillog2 x /\ x <= 2 ^ ceillog2 x /\ (x <= MAXSIZE -> ceillog2 x <= MAXBITS).
Proof.
  intros Hx. rewrite ceillog2_up by done. split; [apply Z.log2_up_nonneg|]. split.
  - destruct (Z.eq_dec x 1) as [->|]; [done|]. apply Z.log2_up_spec. lia.
  - intros Hm. change MAXBITS with (Z.log2_up MAXSIZE). by apply Z.log2_up_le_mono.
Qed.

Lemma occupied_replicate n : occupied (replicate n empty_node) = [].
Proof.
  unfold occupied. destruct (filter _ _) as [|i l] eqn:E; [done|].
  assert (i ∈ i :: l) as Hi by left. rewrite <- E in Hi.
  apply list_elem_of_filter in Hi as [Hi _]. by rewrite gnode_replicate in Hi.
Qed.

(** A table without entries in its hash part. *)
Record empty_hash (t : LuaTable) : Prop := {
  eh_occ : occ t = 0%nat;
  eh_lastfree : 0 <= lastfree t;
  eh_live : forall j k, ~ live (nodes_of t) j k;
}.

Lemma setnodevector_spec t size :
  0 <= size <= MAXSIZE -> sizearray t <= MAXSIZE ->
  exists t', setnodevector t size = Ret t' /\ array t' = array t /\ wf_table t' /\
    empty_hash t' /\ size <= Z.of_nat (capacity t').
Proof.
  intros Hs Ha. unfold setnodevector. destruct (Z.eqb_spec size 0) as [->|Hne].
  { eexists. split; [done|]. split; [done|]. split; [|split; [|done]].
    - split; cbn; [done|done|unfold sizearray; cbn; lia|].
      intros j i _ Hl. by apply dummy_not_live in Hl.
    - split; [done|done|]. intros j k Hl. by apply dummy_not_live in Hl. }
  destruct (ceillog2_bounds size) as (Hl & Hp & Hm); [lia|]. specialize (Hm ltac:(lia)).
  rewrite (proj2 (Z.ltb_ge _ _)) by done. cbn [negb guard_or].
  eexists. split; [done|]. split; [done|]. rewrite Z.shiftl_1_l.
  pose proof (pow2_pos _ Hl) as Hpos.
  split; [split|split; [split|]]; unfold nodes_of, sizearray, occ, capacity; cbn.
  - done.
  - split; [done|]. split; [|rewrite length_replicate; lia]. by apply wf_nodes_empty.
  - lia.
  - intros j i _. unfold live. by rewrite gnode_replicate.
  - by rewrite occupied_replicate.
  - lia.
  - intros j k. unfold live. by rewrite gnode_replicate.
  - rewrite length_replicate. lia.
Qed.

(** * The specification of [resize] *)

(** The result of a resize: the same map in parts of the new sizes, the hash
    part holding just the entries that are outside of the array. *)
Record resized (t t' : LuaTable) (nasize nhsize : Z) : Prop := {
  rs_wf : wf_table t';
  rs_asize : sizearray t' = nasize;
  rs_hsize : nhsize <= Z.of_nat (capacity t');
  rs_occ : (occ t' <= outside nasize (entries t))%nat;
  rs_holds : forall k v, v <> LNil -> holds t' k v <-> holds t k v;
  rs_live : forall j k, live (nodes_of t') j k -> exists v, v <> LNil /\ holds t k v;
}.

(** The array of the new size before the migration, and what leaves it. *)
Definition new_array (a : list TValue) (n : Z) : list TValue :=
  if Z.of_nat (length a) <? n then a ++ replicate (Z.to_nat (n - Z.of_nat (length a))) LNil
  else take (Z.to_nat n) a.

Lemma array_entries_app i a b :
  array_entries i (a ++ b) = array_entries i a ++ array_entries (i + Z.of_nat (length a)) b.
Proof.
  revert i. induction a as [|v a IH]; intros i; cbn [app array_entries length].
  - f_equal. lia.
  - rewrite IH, <- app_assoc. do 3 f_equal. lia.
Qed.

Lemma array_entries_nil i n : array_entries i (replicate n LNil) = [].
Proof. revert i. induction n as [|n IH]; intros i; cbn; [done|apply IH]. Qed.

Lemma new_array_spec a n :
  0 <= n ->
  Z.of_nat (length (new_array a n)) = n /\
  array_entries 0 a = array_entries 0 (new_array a n) ++
    (if n <? Z.of_nat (length a) then array_entries n (drop (Z.to_nat n) a) else []).
Proof.
  intros Hn. unfold new_array. destruct (Z.ltb_spec (Z.of_nat (length a)) n) as [Hl|Hl].
  - rewrite length_app, length_replicate, (proj2 (Z.ltb_ge _ _)) by lia. split; [lia|].
    by rewrite array_entries_app, array_entries_nil, !app_nil_r.
  - rewrite length_take. split; [lia|]. destruct (Z.ltb_spec n (Z.of_nat (length a))).
    + rewrite <- (take_drop (Z.to_nat n) a) at 1. rewrite array_entries_app. f_equal.
      rewrite length_take. f_equal. lia.
    + by rewrite take_ge, app_nil_r by lia.
Qed.

Lemma node_entries_rev ns : node_entries (rev ns) ≡ₚ node_entries ns.
Proof. unfold node_entries. by rewrite <- Permutation_rev. Qed.

Lemma entries_not_nil t k v : (k, v) ∈ entries t -> v <> LNil.
Proof.
  unfold entries. rewrite elem_of_app, elem_of_array_entries, elem_of_node_entries.
  intros [(? & _ & ? & _)|(? & _ & _ & ? & _)]; done.
Qed.

Lemma good_entry t n kv :
  wf_table t -> (forall v, v <> LNil -> ~ holds t (akey (n + 1)) v) ->
  kv ∈ entries t -> good_item n kv.
Proof.
  intros Hwf Hb Hin. destruct kv as [k v]. pose proof (entries_not_nil _ _ _ Hin) as Hnv.
  apply holds_entries in Hin as Hh; [|done|done]. split; [|split; [done|]].
  - destruct Hh as (s & Hk & _). by eapply slot_key_valid.
  - cbn. intros ->. by apply (Hb v).
Qed.

Lemma nodes_live t :
  wf_table t -> forall n, n ∈ nodes_of t -> nval n <> LNil -> exists k, nkey n = KLive k.
Proof.
  intros Hwf n Hn Hv. unfold nodes_of in Hn. destruct (node t) as [ns|] eqn:E.
  - destruct (wt_nodes _ _ Hwf E) as (_ & Hw & _).
    apply list_elem_of_lookup in Hn as [j Hj].
    assert (gnode ns j = n) as Hg by (unfold gnode; by rewrite Hj).
    destruct (wf_val _ _ _ Hw j) as [k Hl]; [by rewrite Hg|]. unfold live in Hl. rewrite Hg in Hl.
    destruct (nkey n) as [k0|]; [by exists k0|done].
  - by apply list_elem_of_singleton in Hn as ->.
Qed.

Lemma reinsert_nodes_table nk t t1 :
  wf_table t -> reinsert_nodes nk t1 (rev (nodes_of t))
    = reinsert_all (arrayornewkey nk) t1 (node_entries (rev (nodes_of t))).
Proof.
  intros Hwf. apply reinsert_nodes_all. intros n Hn. apply (nodes_live t Hwf).
  by apply (proj1 (elem_of_rev _ _)).
Qed.

Section ResizeSpec.
Variable nk : key_type.
Hypothesis Hnk : places nk.
Variables (t : LuaTable) (nasize nhsize : Z).
Hypothesis Hwf : wf_table t.
Hypothesis Hna : 0 <= nasize <= MAXSIZE.
Hypothesis Hnh : 0 <= nhsize <= MAXSIZE.
Hypothesis Hnext : forall v, v <> LNil -> ~ holds t (akey (nasize + 1)) v.
Hypothesis Hroom : Z.of_nat (outside nasize (entries t)) <= nhsize.

Let vanishing := if nasize <? sizearray t
                 then array_entries nasize (drop (Z.to_nat nasize) (array t)) else [].
Let kept := array_entries 0 (new_array (array t) nasize).
Let moved := node_entries (rev (nodes_of t)).

Lemma entries_split : entries t ≡ₚ kept ++ vanishing ++ moved.
Proof.
  unfold entries, kept, vanishing, moved. rewrite node_entries_rev, app_assoc.
  destruct (new_array_spec (array t) nasize) as [_ ->]; [lia|]. done.
Qed.

(** The table before the migration. *)
Lemma resize_base :
  exists base, resize nk t nasize nhsize =
      (t1 <- reinsert_all nk base vanishing ;; reinsert_all (arrayornewkey nk) t1 moved) /\
    wf_table base /\ sizearray base = nasize /\ empty_hash base /\
    nhsize <= Z.of_nat (capacity base) /\
    (forall k v, v <> LNil -> holds base k v <-> (k, v) ∈ kept).
Proof.
  unfold resize. rewrite (proj2 (Z.ltb_ge _ _)), (proj2 (Z.ltb_ge MAXSIZE nhsize)) by lia.
  cbn [orb negb guard_or].
  assert (Hg : exists t1, (if sizearray t <? nasize then setarrayvector t nasize else Ret t) = Ret t1
    /\ sizearray t1 <= MAXSIZE
    /\ array t1 = if sizearray t <? nasize then new_array (array t) nasize else array t).
  { pose proof (wt_asize _ Hwf). unfold setarrayvector, new_array. fold (sizearray t).
    destruct (Z.ltb_spec (sizearray t) nasize); [|by exists t].
    rewrite (proj2 (Z.ltb_ge _ _)) by lia. cbn [negb guard_or]. eexists. split; [done|].
    unfold sizearray in *. cbn. split; [|done]. rewrite length_app, length_replicate. lia. }
  destruct Hg as (t1 & -> & Hs1 & Ha1). cbn [outcome_bind].
  destruct (setnodevector_spec t1 nhsize Hnh Hs1) as (t2 & -> & Ha2 & Hwf2 & He2 & Hc2).
  cbn [outcome_bind].
  set (base := set_array (new_array (array t) nasize) t2).
  assert (Hsb : sizearray base = nasize).
  { by destruct (new_array_spec (array t) nasize) as [? _]; [lia|]. }
  assert (He : empty_hash base) by (destruct He2; by split).
  assert (Hwb : wf_table base).
  { destruct Hwf2 as [W1 W2 W3 W4], He as [_ Hlf Hl].
    split; rewrite ?Hsb; [lia|done|lia|intros j i _; apply Hl]. }
  exists base. split; [|split_and!; try done].
  - transitivity (t1 <- reinsert_all nk base vanishing ;; reinsert_nodes nk t1 (rev (nodes_of t))).
    2:{ destruct (reinsert_all nk base vanishing); cbn; [by apply reinsert_nodes_table|done..]. }
    f_equal. unfold vanishing. destruct (Z.ltb_spec nasize (sizearray t)) as [Hlt|Hge].
    + rewrite <- reinsert_array_all. unfold base, new_array. fold (sizearray t).
      by rewrite (proj2 (Z.ltb_ge _ _)) by lia.
    + cbn [reinsert_all]. f_equal. unfold base.
      assert (new_array (array t) nasize = array t2) as ->; [|by destruct t2].
      rewrite Ha2, Ha1. destruct (Z.ltb_spec (sizearray t) nasize); [done|].
      unfold new_array. fold (sizearray t). rewrite (proj2 (Z.ltb_ge _ _)) by lia.
      apply take_ge. unfold sizearray in *. lia.
  - intros k v Hnv. rewrite (holds_entries _ _ _ Hwb Hnv).
    unfold entries. rewrite elem_of_app. unfold base at 1. cbn [array set_array].
    fold kept. split; [|by left]. intros [|Hin]; [done|].
    assert (holds base k v) as (s & Hk & Hv).
    { apply (holds_entries _ _ _ Hwb Hnv). unfold entries. apply elem_of_app. by right. }
    destruct s as [i|j]; [|by destruct (eh_live _ He j k)].
    assert (Hh : holds base k v) by (by exists (ArraySlot i)).
    pose proof (entries_NoDup _ Hwb) as Hnd. unfold entries in Hnd.
    rewrite norms_app in Hnd. apply NoDup_app in Hnd as (_ & Hd & _).
    exfalso. destruct Hk as [Hi ->]. apply (Hd (key_norm (akey (Z.of_nat i + 1)))).
    + apply elem_of_norms. eexists _, v. split; [done|]. apply elem_of_array_entries.
      exists i. unfold slot_value in Hv. unfold sizearray in Hi.
      split; [|split; [done|f_equal; lia]].
      destruct (array base !! i) eqn:E; [f_equal; exact Hv|].
      apply lookup_ge_None in E. lia.
    + apply elem_of_norms. by eexists _, v.
Qed.

Lemma kept_facts :
  NoDup (norms (kept ++ vanishing ++ moved)) /\
  (forall kv, kv ∈ kept ++ vanishing ++ moved -> good_item nasize kv) /\
  Z.of_nat (outside nasize vanishing + outside nasize moved) <= nhsize /\
  Forall (fun kv => in_range nasize kv.1 = false) vanishing.
Proof.
  pose proof entries_split as Hp. split_and!.
  - rewrite <- Hp. by apply entries_NoDup.
  - intros kv. rewrite <- Hp. by apply good_entry.
  - rewrite (outside_perm _ _ _ Hp), !outside_app in Hroom. lia.
  - apply Forall_forall. intros [k v] Hin. unfold vanishing in Hin.
    destruct (Z.ltb_spec nasize (sizearray t)) as [Hlt|]; [|by apply elem_of_nil in Hin].
    apply elem_of_array_entries in Hin as (j & Hj & _ & ->). apply lookup_lt_Some in Hj.
    rewrite length_drop in Hj. pose proof (wt_asize _ Hwf). pose proof MAXSIZE_eq.
    unfold sizearray in *. cbn [fst]. rewrite in_range_akey by (unfold in_s; lia).
    apply andb_false_intro2. apply Z.leb_gt. lia.
Qed.

Theorem resize_spec : exists t', resize nk t nasize nhsize = Ret t' /\ resized t t' nasize nhsize.
Proof.
  destruct resize_base as (b & -> & Hwb & Hsb & [He _ Hl] & Hcb & Hhb).
  destruct kept_facts as (Hnd & Hg & Hr & Hv). rewrite !norms_app in Hnd.
  apply NoDup_app in Hnd as (_ & Hd1 & (Hnv & Hd2 & Hnm)%NoDup_app).
  assert (Habs : forall kv l, (forall x, x ∈ norms kept -> x ∉ norms l) -> kv ∈ l -> absent b kv.1).
  { intros [k v] l Hd Hin. split; [intros j k' Hk'; by apply Hl in Hk'|].
    intros v' Hnv' Hh%Hhb; [|done]. apply (Hd (key_norm k)); apply elem_of_norms; eauto. }
  destruct (reinsert_all_spec nk Hnk nk vanishing b) as (t1 & E1 & W1 & S1 & C1 & O1 & L1 & H1').
  { done. }
  { right. by rewrite Hsb. }
  { rewrite Hsb. apply Forall_forall. intros kv Hin. apply Hg. set_solver. }
  { done. }
  { intros kv Hin. apply (Habs kv vanishing); set_solver. }
  { rewrite Hsb. lia. }
  rewrite E1. cbn [outcome_bind].
  destruct (reinsert_all_spec nk Hnk (arrayornewkey nk) moved t1)
    as (t2 & E2 & W2 & S2 & C2 & O2 & L2 & H2').
  { done. }
  { by left. }
  { rewrite S1, Hsb. apply Forall_forall. intros kv Hin. apply Hg. set_solver. }
  { done. }
  { intros [k v] Hin. destruct (Habs (k, v) moved) as [_ Ha]; [set_solver|done|].
    assert (Hno : key_norm k ∉ norms vanishing).
    { intros Hx. apply (Hd2 _ Hx). apply elem_of_norms. eauto. }
    split.
    - intros j k' [Hk'|[j' Hk']]%L1; [|by apply Hl in Hk'].
      apply list_elem_of_fmap in Hk' as ([k2 v2] & -> & Hin2). intros E. apply Hno. cbn in E.
      rewrite <- E. apply elem_of_norms. eauto.
    - intros v' Hnv' [Hh|Hh]%H1'; [by apply (Ha v')| |done].
      apply Hno, elem_of_norms. eauto. }
  { rewrite S1, C1, Hsb in *. lia. }
  exists t2. split; [done|]. pose proof entries_split as Hp. split.
  - done.
  - congruence.
  - rewrite C2, C1. done.
  - rewrite (outside_perm _ _ _ Hp), !outside_app. rewrite S1, Hsb in O2. rewrite Hsb in O1. lia.
  - intros k v Hnv'. rewrite H2', H1', Hhb, holds_entries, Hp, !elem_of_app by done. tauto.
  - intros j k Hk.
    assert (exists v, (k, v) ∈ vanishing ++ moved) as [v Hin].
    { apply L2 in Hk as [Hk|[j' [Hk|[j2 Hk]]%L1]]; [| |by apply Hl in Hk];
        apply list_elem_of_fmap in Hk as ([k2 v2] & -> & Hin2); exists v2; set_solver. }
    assert (Hin' : (k, v) ∈ kept ++ vanishing ++ moved) by set_solver.
    destruct (Hg _ Hin') as (_ & Hnv' & _). exists v. split; [done|].
    apply holds_entries; [done|done|]. by rewrite Hp.
Qed.
End ResizeSpec.
End Resize.
