(* ===== verification/TableRehash.v ===== *)
(** The sizes that [rehash] of [VM/src/ltable.cpp] computes, and the insertion
    of a new key: [rehash] makes room for the key, the migration calls it never
    again, and the map is unchanged. *)
From stdpp Require Import sets sorting.
From S2P Require Import Prelude Word Double LuaApi Arith Compare Key TableNode Table TableSpec.
From S2P Require Import TableResize.
Open Scope Z_scope.
Open Scope outcome_scope.

Section Counts.
Context `{VecSize, Target}.

Abbreviation pairs := (list (TValue * TValue)).

(** The number of pairs whose key is one of the indices [1 .. n]. *)
Definition inside (n : Z) (items : pairs) : nat :=
  length (filter (fun kv => in_range n kv.1 = true) items).

Lemma inside_cons n kv items :
  inside n (kv :: items) = ((if in_range n kv.1 then 1 else 0) + inside n items)%nat.
Proof. unfold inside. rewrite filter_cons. by destruct (in_range n kv.1). Qed.

Lemma inside_app n l l' : inside n (l ++ l') = (inside n l + inside n l')%nat.
Proof. unfold inside. by rewrite filter_app, length_app. Qed.

Lemma inside_outside n l : (inside n l + outside n l)%nat = length l.
Proof.
  induction l as [|kv l IH]; [done|]. rewrite inside_cons, outside_cons. cbn [length].
  destruct (in_range n kv.1); lia.
Qed.

Lemma in_range_mono n n' k : n <= n' -> in_range n k = true -> in_range n' k = true.
Proof.
  intros Hn. unfold in_range. destruct k; try done. intros Hb. bool_simpl.
  apply andb_true_intro. split; [by apply Z.ltb_lt|apply Z.leb_le; lia].
Qed.

Lemma inside_mono n n' l : n <= n' -> (inside n l <= inside n' l)%nat.
Proof.
  intros Hn. induction l as [|kv l IH]; [done|]. rewrite !inside_cons.
  destruct (in_range n kv.1) eqn:E; [rewrite (in_range_mono n n') by done; lia|].
  destruct (in_range n' kv.1); lia.
Qed.

Lemma inside_step n l :
  0 <= n < 2 ^ 31 - 1 -> akey (n + 1) ∈ map fst l -> (S (inside n l) <= inside (n + 1) l)%nat.
Proof.
  intros Hn. induction l as [|[k v] l IH]; intros Hin; [by apply elem_of_nil in Hin|].
  rewrite !inside_cons. cbn [map fst] in *. apply elem_of_cons in Hin as [<-|Hin].
  - rewrite !in_range_akey by (unfold in_s; lia).
    rewrite (proj2 (Z.leb_gt (n + 1) n)), (proj2 (Z.leb_le 1 (n + 1))), Z.leb_refl by lia.
    cbn [andb]. pose proof (inside_mono n (n + 1) l). lia.
  - specialize (IH Hin). destruct (in_range n k) eqn:E.
    + rewrite (in_range_mono n (n + 1) k) by (done || lia). lia.
    + destruct (in_range (n + 1) k); lia.
Qed.

(** All the indices of [(n, n']] are keys. *)
Definition all_used (n n' : Z) (l : pairs) : Prop :=
  forall i, n < i <= n' -> akey i ∈ map fst l.

Lemma inside_all_used n n' l :
  0 <= n <= n' -> n' < 2 ^ 31 -> all_used n n' l ->
  Z.of_nat (inside n l) + (n' - n) <= Z.of_nat (inside n' l).
Proof.
  intros Hn Hb Hu. assert (exists d, n' = n + Z.of_nat d) as [d ->]
    by (exists (Z.to_nat (n' - n)); lia).
  induction d as [|d IH]; [replace (n + Z.of_nat 0) with n by lia; lia|].
  assert (IH' : Z.of_nat (inside n l) + Z.of_nat d <= Z.of_nat (inside (n + Z.of_nat d) l)).
  { rewrite Z.add_simpl_l in IH. apply IH; [|lia|lia]. intros i Hi. apply Hu. lia. }
  pose proof (inside_step (n + Z.of_nat d) l ltac:(lia)) as Hs.
  replace (n + Z.of_nat (S d)) with (n + Z.of_nat d + 1) in * by lia.
  specialize (Hs ltac:(apply Hu; lia)). lia.
Qed.

Lemma outside_all_used n n' l :
  0 <= n <= n' -> n' < 2 ^ 31 -> all_used n n' l ->
  Z.of_nat (outside n' l) + (n' - n) <= Z.of_nat (outside n l).
Proof.
  intros Hn Hb Hu. pose proof (inside_all_used n n' l Hn Hb Hu).
  pose proof (inside_outside n l). pose proof (inside_outside n' l). lia.
Qed.

Lemma outside_mono n n' l : n <= n' -> (outside n' l <= outside n l)%nat.
Proof.
  intros Hn. pose proof (inside_mono n n' l Hn).
  pose proof (inside_outside n l). pose proof (inside_outside n' l). lia.
Qed.

(** * The boundary: [adjustasize] *)

(** The pairs counted for a table and the key to be added. *)
Definition with_key (t : LuaTable) (ek : option TValue) : pairs :=
  entries t ++ match ek with Some k => [(k, LNil)] | None => [] end.

Lemma elem_of_keys k (l : pairs) : k ∈ map fst l <-> exists v, (k, v) ∈ l.
Proof.
  rewrite list_elem_of_fmap. split.
  - intros ([k' v] & -> & Hin). by exists v.
  - intros [v Hin]. by exists (k, v).
Qed.

Lemma entries_length t : (length (entries t) <= length (array t) + length (nodes_of t))%nat.
Proof.
  unfold entries. rewrite length_app. apply Nat.add_le_mono.
  - generalize 0. induction (array t) as [|v vs IH]; intros i; [done|].
    cbn [array_entries length]. specialize (IH (i + 1)). destruct (ttisnil v); cbn [app length]; lia.
  - induction (nodes_of t) as [|n ns IH]; [done|].
    unfold node_entries. cbn [mbind list_bind]. fold (node_entries ns). rewrite length_app.
    unfold node_entry. cbn [length]. destruct (ttisnil (nval n)), (nkey n); cbn [length]; lia.
Qed.

Lemma with_key_length t ek :
  (length (with_key t ek) <= length (array t) + length (nodes_of t) + 1)%nat.
Proof.
  pose proof (entries_length t). unfold with_key. rewrite length_app.
  destruct ek; cbn [length]; lia.
Qed.

(** The test of the loop: is the index [i] a key? *)
Lemma adjust_test t ek tbound i :
  wf_table t -> 1 <= i < 2 ^ 31 ->
  (tbound = false -> is_dummy t = true /\ sizearray t < i) ->
  (i =? ekindex ek) || (tbound && negb (ttisnil (slot_get t (luaH_getnum t i))))
  = bool_decide (akey i ∈ map fst (with_key t ek)).
Proof.
  intros Hwf Hi Hb. unfold with_key. rewrite map_app.
  assert (He : (i =? ekindex ek) = bool_decide (ek = Some (akey i))).
  { destruct (Z.eqb_spec i (ekindex ek)) as [E|E]; symmetry.
    - apply bool_decide_eq_true_2. unfold ekindex in E. destruct ek as [k|]; [|lia].
      destruct k; try lia. f_equal. unfold akey. f_equal. rewrite E. apply arrayindex_pos. lia.
    - apply bool_decide_eq_false_2. intros ->. apply E. cbn. symmetry. apply arrayindex_of_Z.
      unfold in_s. lia. }
  assert (Hg : negb (ttisnil (slot_get t (luaH_getnum t i)))
    = bool_decide (akey i ∈ map fst (entries t))).
  { pose proof (luaH_getnum_finds t i Hwf ltac:(unfold in_s; lia)) as Hf.
    destruct (luaH_getnum t i) as [s|]; cbn [slot_get finds] in *.
    - destruct Hf as (k' & Hk & E). apply akey_norm in E as ->; [|lia|lia].
      destruct (ttisnil (slot_value t s)) eqn:Ev; symmetry.
      + apply bool_decide_eq_false_2. intros [v Hin]%elem_of_keys.
        pose proof (entries_not_nil _ _ _ Hin) as Hnv.
        apply holds_entries in Hin as (s' & Hk' & Hv); [|done|done].
        rewrite (slot_key_inj t s s' _ _ Hwf Hk Hk' eq_refl) in Ev. rewrite Hv in Ev. by destruct v.
      + apply bool_decide_eq_true_2. apply elem_of_keys. exists (slot_value t s).
        apply ttisnil_false in Ev. apply holds_entries; [done|done|]. by exists s.
    - symmetry. apply bool_decide_eq_false_2. intros [v Hin]%elem_of_keys.
      pose proof (entries_not_nil _ _ _ Hin) as Hnv.
      apply holds_entries in Hin as (s' & Hk' & Hv); [|done|done]. by apply (Hf s' _ Hk'). }
  rewrite He, Hg.
  assert (Ht : tbound = false -> akey i ∉ map fst (entries t)).
  { intros Et [v Hin]%elem_of_keys. destruct (Hb Et) as [Hd Hs]. unfold is_dummy in Hd.
    pose proof (wt_asize _ Hwf) as Ha. rewrite MAXSIZE_eq in Ha.
    unfold entries, nodes_of in Hin. destruct (node t); [done|].
    rewrite elem_of_app, elem_of_array_entries, elem_of_node_entries in Hin.
    destruct Hin as [(j & Hj & _ & E)|(n & ->%list_elem_of_singleton & <- & ? & _)]; [|done].
    apply lookup_lt_Some in Hj. unfold sizearray in *.
    apply akey_inj in E; unfold in_s; lia. }
  assert (Hk : akey i ∈ map fst match ek with Some k => [(k, LNil)] | None => [] end
    <-> ek = Some (akey i)).
  { destruct ek as [k|]; cbn; [rewrite list_elem_of_singleton|rewrite elem_of_nil]; naive_solver. }
  destruct (decide (ek = Some (akey i))) as [E|E].
  - rewrite (bool_decide_eq_true_2 _ E). symmetry. apply bool_decide_eq_true_2.
    apply elem_of_app. right. by apply Hk.
  - rewrite (bool_decide_eq_false_2 _ E). cbn [orb]. destruct tbound; cbn [andb].
    + apply bool_decide_ext. rewrite elem_of_app, Hk. naive_solver.
    + symmetry. apply bool_decide_eq_false_2. rewrite elem_of_app, Hk. naive_solver.
Qed.

Lemma all_used_length n n' (l : pairs) :
  0 <= n -> n + Z.of_nat (length l) < 2 ^ 31 - 1 -> all_used n n' l ->
  n' - n <= Z.of_nat (length l).
Proof.
  intros Hn Hb Hu. destruct (Z.le_gt_cases (n' - n) (Z.of_nat (length l))) as [|Hgt]; [done|].
  set (m := n + Z.of_nat (length l) + 1).
  assert (Hu' : all_used n m l) by (intros i Hi; apply Hu; unfold m in Hi; lia).
  pose proof (inside_all_used n m l ltac:(unfold m; lia) ltac:(unfold m; lia) Hu').
  pose proof (inside_outside m l). unfold m in *. lia.
Qed.

Lemma adjustasize_loop_spec fuel t ek tbound size size0 :
  wf_table t -> 0 <= size0 <= size -> (tbound = false -> is_dummy t = true /\ sizearray t <= size0) ->
  size0 + Z.of_nat (length (with_key t ek)) < 2 ^ 31 - 1 ->
  all_used size0 size (with_key t ek) ->
  Z.of_nat (length (with_key t ek)) - (size - size0) < Z.of_nat fuel ->
  let r := adjustasize_loop fuel t tbound (ekindex ek) size in
  size <= r /\ all_used size0 r (with_key t ek) /\ akey (r + 1) ∉ map fst (with_key t ek).
Proof.
  intros Hwf Hs Ht Hb. revert size Hs. induction fuel as [|f IH]; intros size Hs Hu Hf.
  { pose proof (all_used_length size0 size _ ltac:(lia) Hb Hu). lia. }
  pose proof (all_used_length size0 size _ ltac:(lia) Hb Hu) as Hsz.
  cbn [adjustasize_loop]. rewrite adjust_test; [|done|lia|intros E; destruct (Ht E); lia || (split; [done|lia])].
  destruct (bool_decide _) eqn:E.
  - apply bool_decide_eq_true in E. destruct (IH (size + 1)) as (H1' & H2' & H3'); [lia| |lia|].
    + intros i Hi. destruct (decide (i = size + 1)) as [->|]; [done|]. apply Hu. lia.
    + split; [lia|done].
  - apply bool_decide_eq_false in E. split; [lia|done].
Qed.

Lemma adjustasize_spec t size ek :
  wf_table t -> 0 <= size -> size + Z.of_nat (length (with_key t ek)) < 2 ^ 31 - 1 ->
  let r := adjustasize t size ek in
  size <= r /\ all_used size r (with_key t ek) /\ akey (r + 1) ∉ map fst (with_key t ek).
Proof.
  intros Hwf Hs Hb. unfold adjustasize. pose proof (with_key_length t ek).
  apply adjustasize_loop_spec; [done|lia| |done| |lia].
  - destruct (is_dummy t); cbn [negb orb]; [|done]. intros E%Z.ltb_ge. done.
  - intros i Hi. lia.
Qed.

(** * The counts: [nums[i]] keys in [(2^(i-1), 2^i]] *)

Definition in_slice (lg : nat) (k : TValue) : bool :=
  match k with
  | LNumber d => in_range MAXSIZE k && (Z.to_nat (ceillog2 (arrayindex d)) =? lg)%nat
  | _ => false
  end.

Definition slice_count (items : pairs) (lg : nat) : Z :=
  Z.of_nat (length (filter (fun kv => in_slice lg kv.1 = true) items)).

Definition SLICES : nat := Z.to_nat (MAXBITS + 1).

Definition nums_of (items : pairs) : list Z := map (slice_count items) (seq 0 SLICES).

Lemma nums_of_nil : nums_of [] = replicate SLICES 0.
Proof. reflexivity. Qed.

Lemma slice_count_app l l' lg : slice_count (l ++ l') lg = slice_count l lg + slice_count l' lg.
Proof. unfold slice_count. rewrite filter_app, length_app. lia. Qed.

Lemma nums_of_perm l l' : l ≡ₚ l' -> nums_of l = nums_of l'.
Proof.
  intros Hp. unfold nums_of. apply map_ext. intros lg. unfold slice_count. by rewrite Hp.
Qed.

Lemma nums_at_of l lg : (lg < SLICES)%nat -> nums_at (nums_of l) lg = slice_count l lg.
Proof. intros Hl. unfold nums_at, nums_of. by rewrite lookup_map_seq. Qed.

Lemma slice_count_all l lg lg' :
  (forall kv, kv ∈ l -> in_slice lg' kv.1 = (lg' =? lg)%nat) ->
  slice_count l lg' = if (lg' =? lg)%nat then Z.of_nat (length l) else 0.
Proof.
  intros Hl. unfold slice_count. induction l as [|kv l IH]; [by destruct (lg' =? lg)%nat|].
  rewrite filter_cons, (Hl kv) by left.
  specialize (IH ltac:(intros kv' Hin; apply Hl; by right)).
  destruct (lg' =? lg)%nat; cbn [length]; [rewrite decide_True by done|rewrite decide_False by done];
    cbn [length]; lia.
Qed.

(** Counting pairs of one slice. *)
Lemma nums_of_add items l lg :
  (lg < SLICES)%nat -> (forall kv lg', kv ∈ l -> in_slice lg' kv.1 = (lg' =? lg)%nat) ->
  <[lg := nums_at (nums_of items) lg + Z.of_nat (length l)]> (nums_of items) = nums_of (items ++ l).
Proof.
  intros Hlg Hl. rewrite nums_at_of by done. apply list_eq. intros i.
  destruct (decide (i < SLICES)%nat) as [Hi|Hi].
  2:{ rewrite !lookup_ge_None_2; [done|unfold nums_of; rewrite length_map, length_seq; lia|].
      rewrite length_insert. unfold nums_of. rewrite length_map, length_seq. lia. }
  unfold nums_of at 2. rewrite lookup_map_seq by done.
  rewrite slice_count_app, (slice_count_all l lg) by auto.
  destruct (Nat.eqb_spec i lg) as [->|Hne].
  - rewrite list_lookup_insert_eq; [done|]. unfold nums_of. by rewrite length_map, length_seq.
  - rewrite list_lookup_insert_ne by done. unfold nums_of. rewrite lookup_map_seq by done.
    f_equal. lia.
Qed.

Lemma nums_of_skip items l :
  (forall kv lg, kv ∈ l -> in_slice lg kv.1 = false) -> nums_of (items ++ l) = nums_of items.
Proof.
  intros Hl. unfold nums_of. apply map_ext. intros lg. rewrite slice_count_app.
  enough (slice_count l lg = 0) by lia. unfold slice_count.
  induction l as [|kv l IH]; [done|]. rewrite filter_cons, (Hl kv) by left.
  rewrite decide_False by done. apply IH. intros kv' lg' Hin. apply Hl. by right.
Qed.

Lemma ceillog2_slices i : 1 <= i <= MAXSIZE -> (Z.to_nat (ceillog2 i) < SLICES)%nat.
Proof.
  intros Hi. destruct (ceillog2_bounds i) as (Hl & _ & Hm); [lia|]. specialize (Hm ltac:(lia)).
  unfold SLICES. unfold MAXBITS in *. lia.
Qed.

Lemma countint_spec d v items :
  countint d (nums_of items)
  = (Z.of_nat (inside MAXSIZE [(LNumber d, v)]), nums_of (items ++ [(LNumber d, v)])).
Proof.
  unfold countint. rewrite inside_cons. cbn [fst in_range].
  destruct (Z.ltb_spec 0 (arrayindex d)) as [Hp|Hp], (Z.leb_spec (arrayindex d) MAXSIZE) as [Hm|Hm];
    cbn [andb].
  1:{ f_equal. change 1 with (Z.of_nat (length [(LNumber d, v)])). apply nums_of_add.
      - apply ceillog2_slices. lia.
      - intros kv lg' ->%list_elem_of_singleton. cbn [fst in_slice in_range].
        rewrite (proj2 (Z.ltb_lt _ _)), (proj2 (Z.leb_le _ _)) by done. cbn [andb].
        apply Nat.eqb_sym. }
  all: f_equal; symmetry; apply nums_of_skip; intros kv lg ->%list_elem_of_singleton.
  all: cbn [fst in_slice in_range].
  all: first [rewrite (proj2 (Z.leb_gt (arrayindex d) MAXSIZE)) by lia; by rewrite andb_false_r
             |by rewrite (proj2 (Z.ltb_ge 0 (arrayindex d))) by lia].
Qed.

Lemma numusehash_fold ns tot ause items :
  (forall n, n ∈ ns -> nval n <> LNil -> exists k, nkey n = KLive k) ->
  fold_left numusehash_step ns (tot, ause, nums_of items)
  = (tot + Z.of_nat (length (node_entries ns)), ause + Z.of_nat (inside MAXSIZE (node_entries ns)),
     nums_of (items ++ node_entries ns)).
Proof.
  revert tot ause items. induction ns as [|n ns IH]; intros tot ause items Hl.
  { cbn. rewrite app_nil_r, !Z.add_0_r. done. }
  assert (IH' : forall tot ause items, fold_left numusehash_step ns (tot, ause, nums_of items)
    = (tot + Z.of_nat (length (node_entries ns)),
       ause + Z.of_nat (inside MAXSIZE (node_entries ns)), nums_of (items ++ node_entries ns))).
  { intros tot' ause' items'. apply IH. intros n' Hn'. apply Hl. by right. }
  unfold node_entries. cbn [mbind list_bind fold_left]. fold (node_entries ns).
  unfold node_entry, numusehash_step at 2. destruct (ttisnil (nval n)) eqn:E; cbn [negb]; [apply IH'|].
  destruct (Hl n) as [k Ek]; [left|by apply ttisnil_false|]. rewrite Ek.
  rewrite app_assoc, length_app, inside_app. cbn [length].
  assert (Hskip : (forall d, k <> LNumber d) -> nums_of (items ++ [(k, nval n)]) = nums_of items
    /\ inside MAXSIZE [(k, nval n)] = 0%nat).
  { intros Hk. split.
    - apply nums_of_skip. intros kv lg ->%list_elem_of_singleton. cbn.
      destruct k; try done. by destruct (Hk n0).
    - rewrite inside_cons. cbn. destruct k; try done. by destruct (Hk n0). }
  destruct k as [| | |d| | | | | | | | | |];
    try (destruct (Hskip ltac:(done)) as [Hs1 Hs2]; rewrite Hs2, <- Hs1, IH';
         f_equal; f_equal; lia).
  rewrite (countint_spec d (nval n)), IH'. f_equal. f_equal; lia.
Qed.

(** ** Slices and powers of two *)

(** The bounds of the slice [lg]. *)
Definition below (lg : nat) : Z := match lg with O => 0 | S k => 2 ^ Z.of_nat k end.
Definition upto (lg : nat) : Z := 2 ^ Z.of_nat lg.

Lemma upto_S lg : upto (S lg) = 2 * upto lg.
Proof. unfold upto. rewrite Nat2Z.inj_succ, Z.pow_succ_r by lia. done. Qed.

Lemma upto_pos lg : 0 < upto lg.
Proof. unfold upto. apply pow2_pos. lia. Qed.

Lemma below_upto lg : 0 <= below lg < upto lg.
Proof.
  destruct lg as [|k]; [done|]. rewrite upto_S. change (below (S k)) with (upto k).
  pose proof (upto_pos k). lia.
Qed.

Lemma upto_mono i j : (i <= j)%nat -> upto i <= upto j.
Proof. intros Hij. unfold upto. apply Z.pow_le_mono_r; lia. Qed.

Lemma upto_half i : upto i / 2 = below i.
Proof.
  destruct i as [|k]; [done|]. rewrite upto_S, Z.mul_comm, Z.div_mul by done. done.
Qed.

Lemma ceillog2_le x i : 1 <= x -> (Z.to_nat (ceillog2 x) <= i)%nat <-> x <= upto i.
Proof.
  intros Hx. rewrite ceillog2_up by done. unfold upto.
  pose proof (Z.log2_up_nonneg x). rewrite Z.log2_up_le_pow2 by lia. lia.
Qed.

Lemma ceillog2_slice x i :
  1 <= x -> (Z.to_nat (ceillog2 x) =? i)%nat = (below i <? x) && (x <=? upto i).
Proof.
  intros Hx. pose proof (ceillog2_le x i Hx) as Hi. destruct i as [|k].
  - cbn [below]. rewrite (proj2 (Z.ltb_lt 0 x)) by lia. cbn [andb].
    destruct (Nat.eqb_spec (Z.to_nat (ceillog2 x)) 0), (Z.leb_spec x (upto 0)); lia.
  - pose proof (ceillog2_le x k Hx) as Hk. change (below (S k)) with (upto k).
    destruct (Nat.eqb_spec (Z.to_nat (ceillog2 x)) (S k)), (Z.ltb_spec (upto k) x),
      (Z.leb_spec x (upto (S k))); cbn; (done || lia).
Qed.

Lemma slice_range lg k :
  (lg < SLICES)%nat ->
  ((if in_slice lg k then 1 else 0) + (if in_range (below lg) k then 1 else 0)
   = (if in_range (upto lg) k then 1 else 0))%nat.
Proof.
  intros Hlg. assert (Hm : upto lg <= MAXSIZE).
  { change MAXSIZE with (upto 26). apply upto_mono. change SLICES with 27%nat in Hlg. lia. }
  pose proof (below_upto lg). destruct k; try done. cbn [in_slice in_range].
  destruct (Z.ltb_spec 0 (arrayindex n)); cbn [andb]; [|done].
  rewrite ceillog2_slice by lia.
  destruct (Z.leb_spec (arrayindex n) MAXSIZE), (Z.ltb_spec (below lg) (arrayindex n)),
    (Z.leb_spec (arrayindex n) (upto lg)), (Z.leb_spec (arrayindex n) (below lg)); cbn; (done || lia).
Qed.

Lemma slice_inside items lg :
  (lg < SLICES)%nat ->
  slice_count items lg + Z.of_nat (inside (below lg) items) = Z.of_nat (inside (upto lg) items).
Proof.
  intros Hlg. unfold slice_count. induction items as [|kv items IH]; [done|].
  rewrite filter_cons, !inside_cons. pose proof (slice_range lg kv.1 Hlg).
  destruct (in_slice lg kv.1); [rewrite decide_True by done|rewrite decide_False by done];
    cbn [length]; destruct (in_range (below lg) kv.1), (in_range (upto lg) kv.1); lia.
Qed.

(** ** The array *)

Lemma array_entries_length i vs :
  length (array_entries i vs) = length (filter (fun v => ttisnil v = false) vs).
Proof.
  revert i. induction vs as [|v vs IH]; intros i; [done|]. cbn [array_entries].
  rewrite filter_cons, length_app, IH.
  destruct (ttisnil v); [by rewrite decide_False|by rewrite decide_True].
Qed.

Lemma numusearray_loop_spec fuel t lg i :
  sizearray t <= MAXSIZE -> (fuel + lg = SLICES)%nat -> i - 1 = Z.min (below lg) (sizearray t) ->
  let seen := array_entries 0 (take (Z.to_nat (i - 1)) (array t)) in
  numusearray_loop fuel t lg (upto lg) (Z.of_nat (length seen)) i (nums_of seen)
  = (Z.of_nat (length (array_entries 0 (array t))), nums_of (array_entries 0 (array t))).
Proof.
  intros Hs. assert (H0' : 0 <= sizearray t) by (unfold sizearray; lia).
  revert lg i. induction fuel as [|f IH]; intros lg i Hf Hi seen.
  { assert (sizearray t <= below lg) as Hle.
    { replace lg with SLICES by lia. done. }
    cbn [numusearray_loop]. unfold seen. rewrite take_ge; [done|]. unfold sizearray in *. lia. }
  pose proof (below_upto lg) as Hb. cbn [numusearray_loop].
  set (lim := if sizearray t <? upto lg then sizearray t else upto lg).
  assert (Hlim : lim = Z.min (upto lg) (sizearray t)).
  { unfold lim. destruct (Z.ltb_spec (sizearray t) (upto lg)); lia. }
  destruct ((sizearray t <? upto lg) && (lim <? i)) eqn:Ebrk.
  { bool_simpl. unfold seen. rewrite take_ge; [done|]. unfold sizearray in *. lia. }
  set (seg := take (Z.to_nat (lim - i + 1)) (drop (Z.to_nat (i - 1)) (array t))).
  assert (Hc : count_slice (array t) i lim = Z.of_nat (length (array_entries (i - 1) seg))).
  { unfold count_slice. by rewrite array_entries_length. }
  assert (Hsplit : array_entries 0 (take (Z.to_nat lim) (array t))
    = seen ++ array_entries (i - 1) seg).
  { replace (take (Z.to_nat lim) (array t)) with (take (Z.to_nat (i - 1)) (array t) ++ seg).
    - rewrite array_entries_app. unfold seen. do 2 f_equal.
      rewrite length_take. unfold sizearray in *. lia.
    - unfold seg. rewrite take_take_drop. f_equal. lia. }
  rewrite Hc, nums_of_add.
  - replace (upto lg * 2) with (upto (S lg)) by (rewrite upto_S; lia).
    replace (Z.max i (lim + 1)) with (lim + 1) by lia.
    rewrite <- Nat2Z.inj_add, <- length_app, <- Hsplit.
    pose proof (IH (S lg) (lim + 1)) as IH'. cbv zeta in IH'.
    replace (lim + 1 - 1) with lim in IH' by lia. apply IH'; [lia|].
    change (below (S lg)) with (upto lg). lia.
  - lia.
  - intros [k v] lg' (j & Hj & _ & ->)%elem_of_array_entries.
    apply lookup_lt_Some in Hj. unfold seg in Hj. rewrite length_take, length_drop in Hj.
    pose proof MAXSIZE_eq. cbn [fst in_slice akey].
    change (LNumber (double_of_Z ?x)) with (akey x).
    rewrite in_range_akey, arrayindex_of_Z by (unfold in_s; lia).
    rewrite (proj2 (Z.leb_le 1 _)), (proj2 (Z.leb_le _ MAXSIZE)) by lia. cbn [andb].
    assert ((Z.to_nat (ceillog2 (i - 1 + Z.of_nat j + 1)) =? lg)%nat = true) as ->%Nat.eqb_eq.
    { rewrite ceillog2_slice by lia. apply andb_true_intro. split; [apply Z.ltb_lt|apply Z.leb_le]; lia. }
    apply Nat.eqb_sym.
Qed.

Lemma numusearray_spec t :
  sizearray t <= MAXSIZE ->
  numusearray t (replicate SLICES 0)
  = (Z.of_nat (length (array_entries 0 (array t))), nums_of (array_entries 0 (array t))).
Proof.
  intros Hs. unfold numusearray.
  assert (0 <= sizearray t) by (unfold sizearray; lia).
  apply (numusearray_loop_spec SLICES t 0 1 Hs); [lia|]. cbn [below]. lia.
Qed.

(** ** [computesizes] *)

(** The size [n] of the array part: no part at all, or a power of two more than
    half of which is used, by [na] keys. *)
Definition array_size (items : pairs) (n na : Z) : Prop :=
  (n = 0 /\ na = 0) \/
  exists j, (j < SLICES)%nat /\ n = upto j /\ na = Z.of_nat (inside n items) /\ upto j / 2 < na.

(** No candidate size below [2^i] is larger. *)
Definition largest_below (items : pairs) (i : nat) (n : Z) : Prop :=
  forall j, (j < i)%nat -> upto j / 2 < Z.of_nat (inside (upto j) items) -> upto j <= n.

Definition distinct_indices (items : pairs) : Prop :=
  forall n, 0 <= n <= MAXSIZE -> Z.of_nat (inside n items) <= n.

Lemma inside_max items j : (j < SLICES)%nat -> (inside (upto j) items <= inside MAXSIZE items)%nat.
Proof.
  intros Hj. apply inside_mono. change MAXSIZE with (upto 26). apply upto_mono.
  change SLICES with 27%nat in Hj. lia.
Qed.

Lemma computesizes_loop_spec items fuel i na n :
  distinct_indices items -> (fuel + i = SLICES)%nat ->
  array_size items n na -> largest_below items i n ->
  let '(na', n') :=
    computesizes_loop fuel i (upto i) (Z.of_nat (inside (below i) items)) na n (nums_of items)
      (Z.of_nat (inside MAXSIZE items)) in
  array_size items n' na' /\ largest_below items SLICES n'.
Proof.
  intros Hd. revert i na n. induction fuel as [|f IH]; intros i na n Hf Ha Hl.
  { cbn in *. by subst. }
  assert (Hi : (i < SLICES)%nat) by lia. cbn [computesizes_loop]. rewrite upto_half.
  pose proof (upto_pos i) as Hpos.
  assert (Hdi : forall j, (j < SLICES)%nat -> Z.of_nat (inside (upto j) items) <= upto j).
  { intros j Hj. apply Hd. pose proof (upto_pos j). split; [lia|].
    change MAXSIZE with (upto 26). apply upto_mono. change SLICES with 27%nat in Hj. lia. }
  destruct (Z.ltb_spec (below i) (Z.of_nat (inside MAXSIZE items))) as [Hlt|Hge].
  2:{ split; [done|]. intros j Hj Hx. destruct (Nat.lt_ge_cases j i); [by apply Hl|].
      rewrite upto_half in Hx. pose proof (inside_max items j Hj).
      assert (below i <= below j); [|lia]. destruct i as [|i], j as [|j]; cbn [below]; try lia.
      apply Z.pow_le_mono_r; lia. }
  rewrite nums_at_of by done. pose proof (slice_inside items i Hi) as Hs.
  set (x := slice_count items i) in *.
  assert (Hx0 : 0 <= x) by (unfold x, slice_count; lia).
  assert (Hbelow : Z.of_nat (inside (below i) items) <= below i).
  { apply Hd. pose proof (below_upto i). pose proof (inside_max items i Hi).
    change MAXSIZE with (upto 26). assert (upto i <= upto 26); [|lia]. apply upto_mono.
    change SLICES with 27%nat in Hi. lia. }
  set (r := if 0 <? x then _ else _).
  assert (Hr : exists na1 n1, r = (Z.of_nat (inside (upto i) items), na1, n1) /\
    array_size items n1 na1 /\ largest_below items (S i) n1).
  { assert (Hstep : forall n1, largest_below items i n1 ->
      (below i < Z.of_nat (inside (upto i) items) -> upto i <= n1) ->
      largest_below items (S i) n1).
    { intros n1 Hl1 Hn1 j Hj Hx. destruct (decide (j = i)) as [->|]; [|apply Hl1; [lia|done]].
      apply Hn1. by rewrite <- upto_half. }
    unfold r. destruct (Z.ltb_spec 0 x) as [Hx|Hx].
    - replace (Z.of_nat (inside (below i) items) + x) with (Z.of_nat (inside (upto i) items)) by lia.
      destruct (Z.ltb_spec (below i) (Z.of_nat (inside (upto i) items))) as [Hb|Hb].
      + exists (Z.of_nat (inside (upto i) items)), (upto i). split; [done|]. split.
        * right. exists i. rewrite upto_half. done.
        * apply Hstep; [|done]. intros j Hj _. apply upto_mono. lia.
      + exists na, n. split; [done|]. split; [done|]. apply Hstep; [done|lia].
    - exists na, n. split; [f_equal; f_equal; lia|]. split; [done|]. apply Hstep; [done|lia]. }
  destruct Hr as (na1 & n1 & -> & Ha1 & Hl1).
  destruct (Z.eqb_spec (Z.of_nat (inside (upto i) items)) (Z.of_nat (inside MAXSIZE items))) as [E|E].
  - split; [done|]. intros j Hj Hx. destruct (Nat.lt_ge_cases j (S i)); [by apply Hl1|].
    rewrite upto_half in Hx. pose proof (inside_max items j Hj). pose proof (Hdi i Hi).
    assert (upto i <= below j); [|lia]. destruct j as [|j]; [lia|]. apply upto_mono. lia.
  - replace (upto i * 2) with (upto (S i)) by (rewrite upto_S; lia).
    change (inside (upto i) items) with (inside (below (S i)) items). apply IH; [lia|done|done].
Qed.

(** [computesizes] chooses the largest power of two, of the candidates, such
    that more than half of the indices are in use. *)
Lemma computesizes_spec items :
  distinct_indices items ->
  let '(na, n) := computesizes (nums_of items) (Z.of_nat (inside MAXSIZE items)) in
  array_size items n na /\ largest_below items SLICES n.
Proof.
  intros Hd. unfold computesizes.
  replace (length (nums_of items)) with SLICES
    by (unfold nums_of; by rewrite length_map, length_seq).
  assert (E : Z.of_nat (inside (below 0) items) = 0).
  { specialize (Hd 0). change (below 0) with 0. pose proof MAXSIZE_eq. lia. }
  pose proof (computesizes_loop_spec items SLICES 0 0 0 Hd) as Hc. rewrite E in Hc.
  apply Hc; [lia|by left|]. intros j Hj. lia.
Qed.

(** * [rehash] *)

Lemma norms_distinct (items : pairs) : NoDup (norms items) -> distinct_indices items.
Proof.
  intros Hnd n Hn. rewrite MAXSIZE_eq in Hn. unfold inside.
  set (l := filter _ items).
  assert (Hl : NoDup (norms l)).
  { eapply sublist_NoDup; [exact Hnd|].
    apply (fmap_sublist (fun kv : TValue * TValue => key_norm kv.1)), sublist_filter. }
  set (ix := map (fun i => key_norm (akey (Z.of_nat i))) (seq 1 (Z.to_nat n))).
  enough (length (norms l) <= length ix)%nat as Hle.
  { unfold ix in Hle. rewrite !length_map, length_seq in Hle. lia. }
  apply submseteq_length, NoDup_submseteq; [done|].
  intros x (k & v & -> & [Hr Hin]%list_elem_of_filter)%elem_of_norms.
  change (in_range n k = true) in Hr. apply in_range_true in Hr as (i & Hi & ->).
  apply list_elem_of_fmap.
  exists (Z.to_nat i). rewrite elem_of_seq, Z2Nat.id by lia. split; [done|lia].
Qed.

Lemma with_key_NoDup t ek :
  wf_table t -> (forall k v, holds t k v -> v <> LNil -> key_norm k <> key_norm ek) ->
  NoDup (norms (with_key t (Some ek))).
Proof.
  intros Hwf Hf. unfold with_key. rewrite norms_app. apply NoDup_app.
  split; [by apply entries_NoDup|]. split; [|apply NoDup_singleton].
  intros x (k & v & -> & Hin)%elem_of_norms (k' & v' & E & Hin')%elem_of_norms.
  apply list_elem_of_singleton in Hin' as [= -> ->].
  pose proof (entries_not_nil _ _ _ Hin) as Hnv. apply holds_entries in Hin; [|done|done].
  by apply (Hf k v).
Qed.

Lemma inside_array_entries i vs :
  0 <= i -> i + Z.of_nat (length vs) <= MAXSIZE ->
  inside MAXSIZE (array_entries i vs) = length (array_entries i vs).
Proof.
  intros Hi Hl. pose proof MAXSIZE_eq.
  pose proof (inside_outside MAXSIZE (array_entries i vs)) as Hio.
  enough (outside MAXSIZE (array_entries i vs) = 0%nat) by lia. unfold outside.
  destruct (filter _ _) as [|[k v] l] eqn:E; [done|].
  assert (Hin : (k, v) ∈ (k, v) :: l) by left. rewrite <- E in Hin.
  apply list_elem_of_filter in Hin as [Hr (j & Hj & _ & ->)%elem_of_array_entries].
  apply lookup_lt_Some in Hj. cbn [fst] in Hr. rewrite in_range_akey in Hr by (unfold in_s; lia).
  destruct (Z.leb_spec 1 (i + Z.of_nat j + 1)), (Z.leb_spec (i + Z.of_nat j + 1) MAXSIZE);
    (done || lia).
Qed.

Lemma ek_count ek items :
  match ek with LNumber n => countint n (nums_of items) | _ => (0, nums_of items) end
  = (Z.of_nat (inside MAXSIZE [(ek, LNil)]), nums_of (items ++ [(ek, LNil)])).
Proof.
  assert (Hskip : (forall d, ek <> LNumber d) -> (0, nums_of items)
    = (Z.of_nat (inside MAXSIZE [(ek, LNil)]), nums_of (items ++ [(ek, LNil)]))).
  { intros Hk. f_equal.
    - rewrite inside_cons. cbn. destruct ek; try done. by destruct (Hk n).
    - symmetry. apply nums_of_skip. intros kv lg ->%list_elem_of_singleton. cbn.
      destruct ek; try done. by destruct (Hk n). }
  destruct ek; try (by apply Hskip). apply countint_spec.
Qed.

Lemma inside_0 items : inside 0 items = 0%nat.
Proof.
  unfold inside. induction items as [|kv items IH]; [done|]. rewrite filter_cons.
  rewrite decide_False; [done|]. unfold in_range. destruct kv.1; try done.
  destruct (Z.ltb_spec 0 (arrayindex n)), (Z.leb_spec (arrayindex n) 0); cbn; (done || lia).
Qed.

Lemma array_size_bounds items n na :
  array_size items n na ->
  0 <= n <= MAXSIZE /\ n <= 2 * na /\ na = Z.of_nat (inside n items).
Proof.
  intros [[-> ->]|(j & Hj & -> & -> & Hna)].
  - rewrite inside_0. rewrite MAXSIZE_eq. lia.
  - pose proof (upto_pos j). split; [|split; [|done]].
    + split; [lia|]. change MAXSIZE with (upto 26). apply upto_mono.
      change SLICES with 27%nat in Hj. lia.
    + rewrite upto_half in Hna. destruct j as [|j]; [change (upto 0) with 1 in *; change (below 0) with 0 in Hna; lia|].
      rewrite upto_S in *. change (below (S j)) with (upto j) in Hna. lia.
Qed.

Lemma with_key_small t ek :
  wf_table t -> Z.of_nat (length (with_key t ek)) <= 2 * MAXSIZE + 1.
Proof.
  intros Hwf. pose proof (with_key_length t ek) as Hl. pose proof (wt_asize _ Hwf) as Ha.
  enough (Z.of_nat (length (nodes_of t)) <= MAXSIZE) by (unfold sizearray in Ha; lia).
  unfold nodes_of. destruct (node t) as [ns|] eqn:E; [|done].
  destruct (wt_nodes _ _ Hwf E) as (Hls & Hn & _). destruct (wf_size _ _ _ Hn) as [H0' ->].
  pose proof (pow2_pos _ H0'). rewrite Z2Nat.id by lia.
  change MAXSIZE with (2 ^ MAXBITS). by apply Z.pow_le_mono_r.
Qed.

(** The sizes [rehash] asks for: the keys outside of the array fit in the hash
    part, and the index behind the array is free. *)
Record good_sizes (items : pairs) (nasize nh : Z) : Prop := {
  gs_nasize : 0 <= nasize <= 2 * Z.of_nat (length items);
  gs_nh : Z.of_nat (outside nasize items) <= nh <= Z.of_nat (length items);
  gs_next : akey (nasize + 1) ∉ map fst items;
}.

Lemma rehash_sizes nk t ek :
  wf_table t -> (forall k v, holds t k v -> v <> LNil -> key_norm k <> key_norm ek) ->
  exists nasize nh, rehash nk t ek = resize nk t nasize nh /\
    good_sizes (with_key t (Some ek)) nasize nh.
Proof.
  intros Hwf Hf. pose proof (wt_asize _ Hwf) as Ha. pose proof MAXSIZE_eq as Hmax.
  unfold rehash. change (Z.to_nat (MAXBITS + 1)) with SLICES. rewrite numusearray_spec by done.
  unfold numusehash. rewrite numusehash_fold.
  2:{ intros n Hn. apply (nodes_live t Hwf). by apply (proj1 (elem_of_rev _ _)). }
  rewrite ek_count. set (items := with_key t (Some ek)).
  set (A := array_entries 0 (array t)). set (N := node_entries (rev (nodes_of t))).
  assert (Hp : (A ++ N) ++ [(ek, LNil)] ≡ₚ items).
  { unfold items, with_key, entries, A, N. by rewrite node_entries_rev. }
  rewrite (nums_of_perm _ _ Hp).
  pose proof (norms_distinct _ (with_key_NoDup t ek Hwf Hf)) as Hd. fold items in Hd.
  pose proof (with_key_small t (Some ek) Hwf) as Hsm. fold items in Hsm.
  assert (Hlen : Z.of_nat (length A) + (0 + Z.of_nat (length N)) + 1 = Z.of_nat (length items)).
  { rewrite <- Hp, !length_app. cbn [length]. lia. }
  assert (Hin : Z.of_nat (length A) + (0 + Z.of_nat (inside MAXSIZE N)) +
    Z.of_nat (inside MAXSIZE [(ek, LNil)]) = Z.of_nat (inside MAXSIZE items)).
  { unfold inside at 3. rewrite <- Hp. fold (inside MAXSIZE ((A ++ N) ++ [(ek, LNil)])).
    rewrite !inside_app. unfold A at 2. rewrite inside_array_entries; [fold A; lia|done|].
    unfold sizearray in Ha. lia. }
  rewrite Hlen, Hin. pose proof (computesizes_spec items Hd) as Hc.
  destruct (computesizes _ _) as [na n]. destruct Hc as [Hc _].
  apply array_size_bounds in Hc as (Hn & Hn2 & ->).
  pose proof (inside_outside n items) as Hio.
  destruct (adjustasize_spec t n (Some ek) Hwf) as (Ha1 & Hu1 & Hk1); [lia|fold items; lia|].
  fold items in Hu1, Hk1. set (nadj := adjustasize t n (Some ek)) in *.
  pose proof (all_used_length n nadj items ltac:(lia) ltac:(lia) Hu1) as Hext.
  pose proof (outside_all_used n nadj items ltac:(lia) ltac:(lia) Hu1) as Ho1.
  destruct (Z.eqb_spec (nadj - n) 0) as [E|E]; cbn [negb].
  - exists n, (Z.of_nat (length items) - Z.of_nat (inside n items)). split; [done|].
    split; [lia|lia|]. by replace n with nadj by lia.
  - destruct (adjustasize_spec t (nadj + (nadj - n)) (Some ek) Hwf) as (Ha2 & Hu2 & Hk2);
      [lia|fold items; lia|].
    fold items in Hu2, Hk2. set (nfin := adjustasize t (nadj + (nadj - n)) (Some ek)) in *.
    pose proof (all_used_length (nadj + (nadj - n)) nfin items ltac:(lia) ltac:(lia) Hu2) as Hext2.
    pose proof (outside_all_used (nadj + (nadj - n)) nfin items ltac:(lia) ltac:(lia) Hu2) as Ho2.
    pose proof (outside_mono nadj (nadj + (nadj - n)) items ltac:(lia)).
    eexists nfin, _. split; [done|]. split; [lia|lia|done].
Qed.

Lemma fresh_unused t key k v :
  wf_table t -> fresh t key -> holds t k v -> v <> LNil -> key_norm k <> key_norm key.
Proof. intros Hwf Hf (s & Hk & _) _. by apply (Hf s). Qed.

(** The only error of a rehash, and when it cannot occur. *)
Definition overflows (t : LuaTable) (key : TValue) (e : lua_error) : Prop :=
  e = RunError "table overflow" /\
  MAXSIZE < 2 * Z.of_nat (length (with_key t (Some key))).

Lemma rehash_spec nk t key :
  places nk -> wf_table t -> fresh t key ->
  match rehash nk t key with
  | Ret t' => exists nasize nh, resized t t' nasize nh /\
                good_sizes (with_key t (Some key)) nasize nh
  | Throw e => overflows t key e
  | Undefined _ => False
  end.
Proof.
  intros Hnk Hwf Hf. destruct (rehash_sizes nk t key Hwf) as (na & nh & -> & Hg).
  { intros k v Hh Hnv. by eapply fresh_unused. }
  pose proof Hg as [G1 G2 G3].
  destruct (Z.lt_ge_cases MAXSIZE na) as [Hov|Hna]; [|destruct (Z.lt_ge_cases MAXSIZE nh) as [Hov|Hnh]].
  1,2: unfold resize; rewrite (proj2 (Z.ltb_lt _ _) Hov), ?orb_true_r; cbn; split; [done|lia].
  destruct (resize_spec nk Hnk t na nh Hwf) as (t' & -> & Hr); [lia|lia| | |by exists na, nh].
  - intros v Hnv Hh. apply G3. unfold with_key. rewrite map_app, elem_of_app. left.
    apply elem_of_keys. exists v. by apply holds_entries.
  - unfold with_key in G2. rewrite outside_app in G2. lia.
Qed.

(** After a rehash the key has a place without another one. *)
Lemma newkey_after_rehash nk t t1 key nasize nh :
  places nk -> wf_table t -> valid_key key = true -> fresh t key ->
  resized t t1 nasize nh -> good_sizes (with_key t (Some key)) nasize nh ->
  exists t' s, arrayornewkey nk t1 key = Ret (t', s) /\ inserted t t' s key.
Proof.
  intros Hnk Hwf Hv Hf [W Sa Sh So Hh Hl] [G1 G2 G3].
  pose proof (wt_asize _ W) as Ha. pose proof Ha as Ha'. rewrite MAXSIZE_eq in Ha'.
  destruct (in_range (sizearray t1) key) eqn:Er.
  - apply in_range_true in Er as (i & Hi & ->). rewrite arrayornewkey_in by done.
    eexists t1, _. split; [done|].
    assert (Hk : slot_key t1 (ArraySlot (Z.to_nat (i - 1))) (akey i)).
    { cbn. split; [lia|f_equal; lia]. }
    split; try done.
    destruct (decide (slot_value t1 (ArraySlot (Z.to_nat (i - 1))) = LNil)) as [|Hnv]; [done|].
    exfalso. assert (Hh1 : holds t (akey i) (slot_value t1 (ArraySlot (Z.to_nat (i - 1))))).
    { apply Hh; [done|]. eexists. split; [exact Hk|done]. }
    by apply (fresh_unused _ _ _ _ Hwf Hf Hh1).
  - rewrite arrayornewkey_out by done.
    assert (Hf1 : fresh t1 key).
    { intros [i|j] k Hk E.
      - destruct Hk as [Hi ->]. symmetry in E. apply akey_norm in E as ->; [|lia|lia].
        by apply (in_range_false _ _ Ha Er (Z.of_nat i + 1)); [lia|].
      - apply Hl in Hk as (v & Hnv & Hh1). by apply (fresh_unused _ _ _ _ Hwf Hf Hh1). }
    assert (Hbd : at_boundary t1 key = false).
    { rewrite at_boundary_akey by done. apply bool_decide_eq_false_2. intros E. apply G3.
      rewrite <- Sa, <- E. unfold with_key. rewrite map_app, elem_of_app. right. by left. }
    assert (Hroom : (occ t1 < capacity t1)%nat).
    { unfold with_key in G2. rewrite outside_app, outside_cons in G2. cbn [fst] in G2.
      rewrite <- Sa, Er in G2. rewrite <- Sa in So. lia. }
    destruct (node t1) as [ns|] eqn:En; [|unfold capacity in Hroom; rewrite En in Hroom; lia].
    destruct (newkey_place_room t1 key ns W Hv Hf1 En Hroom) as [[[ns' lf] i] Hp].
    rewrite (Hnk _ _ _ _ Hbd En Hp).
    destruct (place_inserted t1 key ns ns' lf i W Hv Hf1 Hbd En Hp) as ([I1 I2 I3 I4] & _).
    eexists _, _. split; [done|]. split; [done|done|done|]. intros k v Hnv. by rewrite I4, Hh.
Qed.

Lemma newkey_spec f t key :
  wf_table t -> valid_key key = true -> fresh t key ->
  match newkey (S (S f)) t key with
  | Ret (t', s) => inserted t t' s key
  | Throw e => overflows t key e
  | Undefined _ => False
  end.
Proof.
  intros Hwf Hv Hf. set (nk := newkey (S f)). pose proof (newkey_places f : places nk) as Hnk.
  change (newkey (S (S f)) t key) with (newkey_body nk t key). unfold newkey_body.
  set (grow := t' <- rehash nk t key ;; arrayornewkey nk t' key).
  assert (Hgrow : match grow with
    | Ret (t', s) => inserted t t' s key | Throw e => overflows t key e | Undefined _ => False end).
  { unfold grow. pose proof (rehash_spec nk t key Hnk Hwf Hf) as Hr.
    destruct (rehash nk t key) as [t1|e|w]; cbn [outcome_bind]; [|done|done].
    destruct Hr as (na & nh & Hr & Hg).
    by destruct (newkey_after_rehash nk t t1 key na nh Hnk Hwf Hv Hf Hr Hg) as (t' & s & -> & Hi). }
  destruct (at_boundary t key) eqn:Hb; [done|]. destruct (node t) as [ns|] eqn:En; [|done].
  destruct (newkey_place _ _ _ _) as [[[ns' lf] i]|] eqn:Ep; [|done].
  apply (place_inserted t key ns ns' lf i Hwf Hv Hf Hb En Ep).
Qed.
End Counts.
