(* ===== verification/TableMap.v ===== *)
(** The operations of a table as operations of a finite map: search,
    assignment, creation, copy, clearing and resizing.  The keys of the map
    are the keys up to raw equality. *)
From stdpp Require Import sets sorting.
From S2P Require Import Prelude Word Double LuaApi Arith Compare Key TableNode Table TableSpec.
From S2P Require Import TableResize TableRehash.
Open Scope Z_scope.
Open Scope outcome_scope.

Section Map.
Context `{VecSize, Target}.

(** * Keys that are no keys *)

Lemma SFeqb_self a : SFeqb a a = negb (d_isnan a).
Proof.
  destruct a as [[]|[]| |[] m e]; try done; cbn; rewrite Z.compare_refl;
    change (Pos.compare_cont Eq m m) with (m ?= m)%positive; by rewrite Pos.compare_refl.
Qed.

Lemma SFeqb_true_self a b : SFeqb a b = true -> SFeqb b b = true.
Proof. rewrite SFeqb_self. destruct b; try done. by destruct a as [[]|[]| |[] m e]. Qed.

Lemma veceq_valid a b : luai_veceq a b = true -> luai_vecisnan b = false.
Proof.
  unfold luai_veceq, luai_vecisnan. destruct vec4; intros He; bool_simpl;
    repeat apply orb_false_intro; apply negb_false_iff; by eapply SFeqb_true_self.
Qed.

Lemma rawequalKey_invalid k k' : valid_key k = false -> luaO_rawequalKey k' k = true -> k = LNil.
Proof.
  unfold luaO_rawequalKey, luaO_rawequalObj. destruct k; try done; cbn [valid_key].
  - destruct k'; try done. cbn. unfold d_eq. intros Hn He%SFeqb_true_self. congruence.
  - destruct k'; try done. cbn [ttype Z.eqb Pos.eqb negb]. intros Hn He%veceq_valid.
    by rewrite He in Hn.
Qed.

Lemma get_generic_invalid t k :
  wf_table t -> valid_key k = false -> k <> LNil -> get_generic t k = None.
Proof.
  intros Hwf Hv Hk. unfold get_generic. destruct (node t) as [ns|]; [|done]. unfold find_node.
  destruct (chain_find _ _ _ _) as [i|] eqn:E; [|done]. exfalso.
  assert (Hp : forall fuel j, chain_find fuel (nodes_of t) (fun k0 => match k0 with
    | KLive k0 => luaO_rawequalKey k0 k | KDead _ => false end) j <> Some i).
  { induction fuel as [|f IH]; intros j; cbn [chain_find]; [done|].
    destruct (match nkey (gnode (nodes_of t) j) with
      | KLive k0 => luaO_rawequalKey k0 k | KDead _ => false end) eqn:Ek.
    - destruct (nkey _); [|done]. by apply rawequalKey_invalid in Ek.
    - destruct (nnext (gnode (nodes_of t) j) =? 0); [done|apply IH]. }
  by apply (Hp _ _ E).
Qed.

Lemma luaH_get_invalid t k : wf_table t -> valid_key k = false -> luaH_get t k = None.
Proof.
  intros Hwf Hv. destruct k; try done; cbn [luaH_get].
  - destruct (d_eq _ _) eqn:E; [|by apply get_generic_invalid].
    exfalso. apply SFeqb_true_self in E. cbn in Hv. unfold d_eq in Hv. congruence.
  - by apply get_generic_invalid.
Qed.

(** * Assignment *)

(** The error of [luaH_newkey] for a key that is none. *)
Definition key_error (k : TValue) : lua_error :=
  match k with
  | LNil => RunError "table index is nil"
  | LNumber _ => RunError "table index is NaN"
  | _ => RunError "table index contains NaN"
  end.

Lemma luaH_newkey_valid t k : valid_key k = true -> luaH_newkey t k = newkey 2 t k.
Proof.
  destruct k; try done; cbn [valid_key luaH_newkey].
  - unfold d_eq. rewrite SFeqb_self. by destruct (d_isnan n).
  - by destruct (luai_vecisnan v).
Qed.

Lemma luaH_newkey_invalid t k : valid_key k = false -> luaH_newkey t k = Throw (key_error k).
Proof.
  destruct k; try done; cbn [valid_key luaH_newkey].
  - unfold d_eq. rewrite SFeqb_self. by destruct (d_isnan n).
  - by destruct (luai_vecisnan v).
Qed.

Lemma set_tmcache_wf c t : wf_table t -> wf_table (set_tmcache c t).
Proof. by intros [? ? ? ?]. Qed.

(** The table with a slot for [key]. *)
Record prepared (t t' : LuaTable) (s : slot) (key : TValue) : Prop := {
  pr_wf : wf_table t';
  pr_key : exists k, slot_key t' s k /\ key_norm k = key_norm key;
  pr_get : forall k, valid_key k = true -> get t' k = get t k;
}.

Lemma luaH_set_spec t key :
  wf_table t ->
  match luaH_set t key with
  | Ret (t', s) => valid_key key = true /\ prepared t t' s key
  | Throw e => valid_key key = false /\ e = key_error key \/
               valid_key key = true /\ overflows t key e
  | Undefined _ => False
  end.
Proof.
  intros Hwf. unfold luaH_set. set (t1 := invalidateTMcache t).
  assert (Hwf1 : wf_table t1) by by apply set_tmcache_wf.
  destruct (valid_key key) eqn:Hv.
  2:{ rewrite luaH_get_invalid, luaH_newkey_invalid by done. by left. }
  pose proof (luaH_get_finds t key Hwf Hv) as Hf. destruct (luaH_get t key) as [s|].
  - split; [done|]. split; [done| |done]. destruct Hf as (k & Hk & E). by exists k.
  - rewrite luaH_newkey_valid by done.
    assert (Hf1 : fresh t1 key) by exact Hf.
    pose proof (newkey_spec 0 t1 key Hwf1 Hv Hf1) as Hn.
    destruct (newkey 2 t1 key) as [[t' s]|e|]; [|by right|done].
    destruct Hn as [I1 I2 I3 I4]. split; [done|]. split; [done|by exists key|].
    intros k Hvk. by apply (get_ext t1).
Qed.

Lemma get_setslot t s v key k0 :
  wf_table t -> slot_key t s k0 -> key_norm k0 = key_norm key ->
  forall k, valid_key k = true ->
  get (setslot t s v) k = if decide (key_norm k = key_norm key) then v else get t k.
Proof.
  intros Hwf Hk E k Hv. pose proof (setslot_wf t s v k0 Hwf Hk) as Hwf'. rewrite <- E.
  destruct (decide (key_norm k = key_norm k0)) as [E'|Hne].
  - unfold get. rewrite (proj2 (luaH_get_iff (setslot t s v) k s Hwf' Hv)).
    + cbn [slot_get]. rewrite (setslot_value _ _ _ _ _ Hk). by rewrite decide_True.
    + exists k0. by rewrite setslot_key.
  - assert (Hg : forall w, w <> LNil -> get (setslot t s v) k = w <-> get t k = w).
    { intros w Hw. rewrite !get_holds by done. setoid_rewrite (setslot_holds t s v k0 Hwf Hk).
      split.
      - intros (k' & E' & [[-> _]|[_ Hh]]); [congruence|eauto].
      - intros (k' & E' & Hh). exists k'. split; [done|]. right. split; [congruence|done]. }
    destruct (decide (get t k = LNil)) as [En|En]; [|by apply Hg].
    destruct (decide (get (setslot t s v) k = LNil)) as [En'|En']; [congruence|].
    symmetry. by apply Hg.
Qed.

(** ** The specialised operations *)

Lemma luaH_newkeystr_eq t s : luaH_newkeystr t s = luaH_newkey t (LString s).
Proof.
  unfold luaH_newkeystr. cbn [luaH_newkey]. destruct (node t) as [ns|] eqn:En; [|done].
  destruct (_ && _) eqn:E; [|done]. apply andb_prop in E as [E _].
  cbn [newkey]. unfold newkey_body. cbn [at_boundary]. rewrite En. unfold newkey_place.
  by destruct (nval (gnode ns (mainposition (lsizenode t) (LString s)))).
Qed.

Lemma luaH_get_akey t i : in_s 32 i -> luaH_get t (akey i) = luaH_getnum t i.
Proof.
  intros Hi. cbn [luaH_get akey]. rewrite luai_num2int_of_Z by done.
  rewrite double_of_Z_self; [done|]. unfold in_s in Hi. lia.
Qed.

Lemma setnum_eq t i :
  in_s 32 i -> luaH_setnum t i = if in_array i t then Ret (t, ArraySlot (Z.to_nat (i - 1)))
                                 else luaH_set t (akey i).
Proof.
  intros Hi. unfold luaH_setnum, luaH_set. rewrite luaH_get_akey by done.
  destruct (in_array i t) eqn:Ei; [done|]. cbn [luaH_newkey akey].
  assert (d_isnan (double_of_Z i) = false) as ->.
  { apply negb_true_iff. rewrite <- SFeqb_self. apply (double_of_Z_self i).
    unfold in_s in Hi. lia. }
  unfold luaH_getnum. change (in_array i (invalidateTMcache t)) with (in_array i t). by rewrite Ei.
Qed.

Lemma setstr_eq t s : luaH_setstr t s = luaH_set t (LString s).
Proof. unfold luaH_setstr, luaH_set. cbn [luaH_get]. by rewrite luaH_newkeystr_eq. Qed.

(** The searches and assignments for strings, light userdata and integers
    are the general ones on the same key: the slot, the table and the error are
    the same, except that an assignment to an index of the array keeps the
    metamethod cache. *)
Theorem specialised_operations t :
  (forall s, luaH_getstr t s = luaH_get t (LString s) /\
             luaH_setstr t s = luaH_set t (LString s)) /\
  (forall p tag, luaH_getp t p tag = luaH_get t (LLightUserdata p tag) /\
                 luaH_setp t p tag = luaH_set t (LLightUserdata p tag)) /\
  (forall i, in_s 32 i -> luaH_getnum t i = luaH_get t (akey i) /\
     luaH_setnum t i = if in_array i t then Ret (t, ArraySlot (Z.to_nat (i - 1)))
                       else luaH_set t (akey i)).
Proof.
  split_and!.
  - intros s. split; [done|apply setstr_eq].
  - intros p tag. split; [by rewrite luaH_getp_generic|]. unfold luaH_setp, luaH_set.
    by rewrite luaH_getp_generic.
  - intros i Hi. split; [by rewrite luaH_get_akey|by apply setnum_eq].
Qed.

(** * A table is a finite map *)

(** The effect of an assignment. *)
Lemma set_spec t key v :
  wf_table t ->
  match set t key v with
  | Ret t' => valid_key key = true /\ wf_table t' /\
      forall k, valid_key k = true ->
        get t' k = if decide (key_norm k = key_norm key) then v else get t k
  | Throw e => valid_key key = false /\ e = key_error key \/
      valid_key key = true /\ e = RunError "table overflow" /\
      2 ^ 25 <= Z.of_nat (length (entries t))
  | Undefined _ => False
  end.
Proof.
  intros Hwf. unfold set. pose proof (luaH_set_spec t key Hwf) as Hs.
  destruct (luaH_set t key) as [[t' s]|e|]; cbn [outcome_bind]; [| |done].
  - destruct Hs as (Hv & [Pw (k0 & Hk & E) Pg]). split; [done|].
    split; [by apply setslot_wf with k0|]. intros k Hvk.
    rewrite (get_setslot t' s v key k0 Pw Hk E k Hvk). by rewrite Pg.
  - destruct Hs as [Hs|(Hv & -> & Hov)]; [by left|right]. split; [done|]. split; [done|].
    rewrite MAXSIZE_eq in Hov. unfold with_key in Hov. rewrite length_app in Hov.
    cbn [length] in Hov. lia.
Qed.

(** C38. Assignment: [luaH_set] and the write through its slot store the value
    at the key and at no other, and keep the invariant of the table, whatever
    rehash the insertion needs.  A key that is [nil] or holds a NaN raises its
    own error.  The only other error is "table overflow", and only when the
    table has more than [2^25] entries. *)
Theorem set_refines t key v :
  wf_table t ->
  match set t key v with
  | Ret t' => valid_key key = true /\ wf_table t' /\
      forall k, valid_key k = true ->
        get t' k = if decide (key_norm k = key_norm key) then v else get t k
  | Throw e => valid_key key = false /\ e = key_error key \/
      valid_key key = true /\ e = RunError "table overflow" /\
      2 ^ 25 <= Z.of_nat (length (entries t))
  | Undefined _ => False
  end.
Proof. apply set_spec. Qed.

(** * Creation, clearing, copying *)

Lemma get_empty t k : wf_table t -> entries t = [] -> valid_key k = true -> get t k = LNil.
Proof.
  intros Hwf He Hv. destruct (decide (get t k = LNil)) as [|Hne]; [done|].
  destruct (proj1 (get_holds t k _ Hwf Hv Hne) eq_refl) as (k' & _ & Hh).
  apply holds_entries in Hh; [|done|done]. rewrite He in Hh. by apply elem_of_nil in Hh.
Qed.

Lemma node_entries_empty n : node_entries (replicate n empty_node) = [].
Proof. induction n as [|n IH]; [done|]. cbn [replicate]. exact IH. Qed.

Lemma luaH_new_spec narray nhash :
  narray <= MAXSIZE -> nhash <= MAXSIZE ->
  exists t, luaH_new narray nhash = Ret t /\ wf_table t /\ entries t = [] /\
    sizearray t = Z.max 0 narray.
Proof.
  intros Ha Hh. pose proof MAXSIZE_eq as Hmax. unfold luaH_new. set (t0 := {| tmcache := 255 |}).
  assert (Hwf0 : forall n, Z.of_nat n <= MAXSIZE -> wf_table (set_array (replicate n LNil) t0)).
  { intros n Hn. split; unfold sizearray; cbn; rewrite ?length_replicate; try done; try lia.
    intros j i _ Hl. by apply dummy_not_live in Hl. }
  assert (Hsa : exists n, (if 0 <? narray then setarrayvector t0 narray else Ret t0)
    = Ret (set_array (replicate n LNil) t0) /\ Z.of_nat n = Z.max 0 narray).
  { destruct (Z.ltb_spec 0 narray).
    - exists (Z.to_nat narray). unfold setarrayvector.
      rewrite (proj2 (Z.ltb_ge _ _)) by done. cbn [negb guard_or].
      change (sizearray t0) with 0. rewrite (proj2 (Z.ltb_lt _ _)) by done.
      rewrite Z.sub_0_r. split; [done|lia].
    - exists 0%nat. split; [done|lia]. }
  destruct Hsa as (n & -> & Hn). cbn [outcome_bind].
  destruct (Z.ltb_spec 0 nhash) as [Hp|Hp].
  - destruct (setnodevector_spec (set_array (replicate n LNil) t0) nhash) as (t & Et & Ea & Hw & He & _).
    { lia. } { unfold sizearray. cbn. rewrite length_replicate. lia. }
    exists t. split; [done|]. split; [done|]. split.
    + unfold entries. rewrite Ea. cbn [array set_array]. rewrite array_entries_nil.
      unfold setnodevector in Et. destruct (nhash =? 0); [injection Et as <-; done|].
      destruct (negb _); cbn in Et; [|done]. injection Et as <-. apply node_entries_empty.
    + unfold sizearray. rewrite Ea. cbn. by rewrite length_replicate.
  - eexists. split; [done|]. split; [apply Hwf0; lia|]. split.
    + unfold entries. cbn [array set_array]. by rewrite array_entries_nil.
    + unfold sizearray. cbn. by rewrite length_replicate.
Qed.

Lemma luaH_clear_spec t : wf_table t -> wf_table (luaH_clear t) /\ entries (luaH_clear t) = [].
Proof.
  intros Hwf. unfold luaH_clear, maybesetaboundary. cbn [lastfree set_array].
  pose proof (wt_asize _ Hwf). pose proof (wt_node _ Hwf) as Hn. pose proof MAXSIZE_eq.
  assert (Hsz : sizearray t = Z.of_nat (length (replicate (length (array t)) LNil)))
    by by rewrite length_replicate.
  destruct (node t) as [ns|] eqn:En.
  - destruct Hn as (Hls & Hw & Hlf). destruct (wf_size _ _ _ Hw) as [H0' Hlen].
    pose proof (pow2_pos _ H0').
    assert (Hwfe : forall lf, 2 ^ lsizenode t <= lf ->
      wf_nodes (lsizenode t) (replicate (Z.to_nat (2 ^ lsizenode t)) empty_node) lf).
    { intros lf Hlf'. by apply wf_nodes_empty. }
    destruct (lastfree t <=? 0); cbn [node set_lastfree set_node set_array]; rewrite En.
    all: cbn [node set_lastfree set_node set_array set_tmcache].
    all: split; [split|]; unfold sizearray, sizenode, entries, nodes_of in *;
      cbn [node set_lastfree set_node set_array set_tmcache array lsizenode lastfree] in *;
      rewrite ?Z.shiftl_1_l, ?length_replicate, ?array_entries_nil; try lia.
    all: try (split; [done|]; split; [by apply Hwfe|lia]).
    all: try (intros j i _; unfold live; by rewrite gnode_replicate).
    all: by rewrite node_entries_empty.
  - destruct Hn as [Hls Hlf]. rewrite (proj2 (Z.leb_le _ _) Hlf).
    cbn [node set_lastfree set_node set_array]. rewrite En.
    split; [split|]; unfold sizearray, entries, nodes_of in *;
      cbn [node set_lastfree set_node set_array set_tmcache array lsizenode lastfree] in *;
      rewrite ?En, ?length_replicate, ?array_entries_nil; try lia; try done.
    intros j i _ Hl. by apply dummy_not_live in Hl.
Qed.

Lemma luaH_clone_spec t :
  wf_table t -> wf_table (luaH_clone t) /\
  array (luaH_clone t) = array t /\ node (luaH_clone t) = node t /\
  lsizenode (luaH_clone t) = lsizenode t.
Proof.
  intros Hwf. pose proof (wt_node _ Hwf) as Hn. pose proof (wt_boundary _ Hwf) as Hb.
  pose proof (wt_asize _ Hwf) as Hs. pose proof (wt_split _ Hwf) as Hsp.
  assert (Ha : array (luaH_clone t) = array t /\ node (luaH_clone t) = node t /\
    lsizenode (luaH_clone t) = lsizenode t).
  { unfold luaH_clone. destruct (Z.eqb_spec (sizearray t) 0) as [E|E]; cbn [negb].
    - assert (array t = []) as ->.
      { unfold sizearray in E. by destruct (array t). }
      destruct (node t); [done|]. destruct Hn as [-> _]. done.
    - destruct (node t) eqn:En; cbn; [done|]. destruct Hn as [-> _]. done. }
  split; [|done]. destruct Ha as (Ea & En & El). split.
  - unfold sizearray in *. by rewrite Ea.
  - rewrite En, El. unfold luaH_clone. destruct (node t) as [ns|]; [done|].
    destruct Hn as [Hls Hlf]. split; [done|]. destruct (negb (sizearray t =? 0)); [|done].
    cbn. unfold getaboundary. destruct (Z.ltb_spec (lastfree t) 0); [lia|]. unfold sizearray. lia.
  - unfold sizearray. rewrite Ea. fold (sizearray t). unfold luaH_clone.
    destruct (node t) as [ns|]; [done|]. assert (0 <= sizearray t) by (unfold sizearray; lia).
    destruct (negb (sizearray t =? 0)); cbn; [|lia].
    unfold getaboundary. destruct (Z.ltb_spec (lastfree t) 0); lia.
  - unfold sizearray, nodes_of. rewrite Ea, En. apply Hsp.
Qed.

Lemma get_entries t t' k :
  wf_table t -> wf_table t' -> valid_key k = true -> entries t' = entries t -> get t' k = get t k.
Proof.
  intros Hwf Hwf' Hv He. apply get_ext; try done. intros k' v Hnv.
  by rewrite !holds_entries, He by done.
Qed.

(** * Growing the array *)

Lemma node_entries_outside t :
  wf_table t -> Z.of_nat (outside (sizearray t) (entries t)) <= if is_dummy t then 0 else sizenode t.
Proof.
  intros Hwf. unfold entries. rewrite outside_app.
  assert (outside (sizearray t) (array_entries 0 (array t)) = 0%nat) as ->.
  { unfold outside. destruct (filter _ _) as [|[k v] l] eqn:E; [done|].
    assert (Hin : (k, v) ∈ (k, v) :: l) by left. rewrite <- E in Hin.
    apply list_elem_of_filter in Hin as [Hr (j & Hj & _ & ->)%elem_of_array_entries].
    apply lookup_lt_Some in Hj. cbn [fst] in Hr.
    pose proof (wt_asize _ Hwf) as Ha. rewrite MAXSIZE_eq in Ha. unfold sizearray in *.
    exfalso. apply (in_range_false _ _ ltac:(by rewrite MAXSIZE_eq) Hr (0 + Z.of_nat j + 1));
      [lia|done]. }
  pose proof (length_filter (fun kv : TValue * TValue => in_range (sizearray t) kv.1 = false)
    (node_entries (nodes_of t))) as Hf. fold (outside (sizearray t) (node_entries (nodes_of t))) in Hf.
  assert (Hl : forall ns, (length (node_entries ns) <= length ns)%nat).
  { induction ns as [|n ns IH]; [done|].
    unfold node_entries. cbn [mbind list_bind]. fold (node_entries ns). rewrite length_app.
    unfold node_entry. cbn [length]. destruct (ttisnil (nval n)), (nkey n); cbn [length]; lia. }
  specialize (Hl (nodes_of t)). unfold is_dummy, sizenode, nodes_of in *.
  destruct (node t) as [ns|] eqn:E; [|cbn in *; lia].
  destruct (wt_nodes _ _ Hwf E) as (_ & Hw & _). destruct (wf_size _ _ _ Hw) as [H0' Hlen].
  rewrite Z.shiftl_1_l. pose proof (pow2_pos _ H0'). lia.
Qed.

Lemma resizearray_spec t nasize :
  wf_table t -> sizearray t <= nasize -> nasize + (2 * MAXSIZE + 2) < 2 ^ 31 ->
  match luaH_resizearray t nasize with
  | Ret t' => wf_table t' /\ nasize <= sizearray t' /\
      forall k, valid_key k = true -> get t' k = get t k
  | Throw e => e = RunError "table overflow"
  | Undefined _ => False
  end.
Proof.
  intros Hwf Hs Hb. assert (0 <= sizearray t) by (unfold sizearray; lia).
  pose proof (with_key_small t None Hwf) as Hsm. pose proof MAXSIZE_eq as Hm.
  unfold luaH_resizearray. destruct (adjustasize_spec t nasize None Hwf) as (Ha & Hu & Hk); [lia|lia|].
  set (asize := adjustasize t nasize None) in *.
  pose proof (all_used_length nasize asize (with_key t None) ltac:(lia) ltac:(lia) Hu) as Hal.
  unfold add_s. rewrite (proj2 (in_s_b_spec 32 (asize + 1))) by (unfold in_s; lia).
  cbn [outcome_bind].
  pose proof (node_entries_outside t Hwf) as Ho.
  pose proof (outside_mono (sizearray t) asize (entries t) ltac:(lia)) as Hom.
  set (nsize := if is_dummy t then 0 else sizenode t) in *.
  assert (Hns : 0 <= nsize <= MAXSIZE).
  { unfold nsize, is_dummy, sizenode. destruct (node t) as [ns|] eqn:E; [|lia].
    destruct (wt_nodes _ _ Hwf E) as (Hls & Hw & _). destruct (wf_size _ _ _ Hw) as [H0' _].
    rewrite Z.shiftl_1_l. pose proof (pow2_pos _ H0'). split; [lia|].
    change MAXSIZE with (2 ^ MAXBITS). by apply Z.pow_le_mono_r. }
  destruct (Z.lt_ge_cases MAXSIZE asize) as [Hov|Hna].
  { unfold resize. by rewrite (proj2 (Z.ltb_lt _ _) Hov). }
  destruct (resize_spec (newkey 2) (newkey_places 1) t asize nsize Hwf) as (t' & -> & Hr);
    [lia|done| |lia|].
  - intros v Hnv Hh. apply Hk. unfold with_key. rewrite app_nil_r. apply elem_of_keys.
    exists v. by apply holds_entries.
  - destruct Hr as [W Sa _ _ Hh _]. split; [done|]. split; [lia|].
    intros k Hv. by apply get_ext.
Qed.

(** * Sequences of operations *)

Inductive table_op :=
  | OpSet (k v : TValue)
  | OpSetStr (s : list Z) (v : TValue)
  | OpSetNum (i : Z) (v : TValue)
  | OpGet (k : TValue)
  | OpGetNum (i : Z)
  | OpGrow (nasize : Z)
  | OpClear
  | OpClone.

(** An operation of the program: the table after it and the values read.  An
    [OpGrow] is the resize of [LOP_SETLIST], which is guarded by the size. *)
Definition store (p : outcome (LuaTable * slot)) (v : TValue) : outcome (LuaTable * list TValue) :=
  p <- p ;; let '(t, s) := p in Ret (setslot t s v, []).

Definition run_op (t : LuaTable) (o : table_op) : outcome (LuaTable * list TValue) :=
  match o with
  | OpSet k v => store (luaH_set t k) v
  | OpSetStr s v => store (luaH_setstr t s) v
  | OpSetNum i v => store (luaH_setnum t i) v
  | OpGet k => Ret (t, [get t k])
  | OpGetNum i => Ret (t, [slot_get t (luaH_getnum t i)])
  | OpGrow n =>
      t <- (if sizearray t <? n then luaH_resizearray t n else Ret t) ;; Ret (t, [])
  | OpClear => Ret (luaH_clear t, [])
  | OpClone => Ret (luaH_clone t, [])
  end.

(** The same operation of a finite map. *)
Abbreviation fmap_t := (TValue -> TValue).

Definition map_set (m : fmap_t) (k v : TValue) : fmap_t :=
  fun k' => if decide (key_norm k' = key_norm k) then v else m k'.

Definition spec_op (m : fmap_t) (o : table_op) : fmap_t * list TValue :=
  match o with
  | OpSet k v => (map_set m k v, [])
  | OpSetStr s v => (map_set m (LString s) v, [])
  | OpSetNum i v => (map_set m (akey i) v, [])
  | OpGet k => (m, [if valid_key k then m k else LNil])
  | OpGetNum i => (m, [m (akey i)])
  | OpGrow _ | OpClone => (m, [])
  | OpClear => (fun _ => LNil, [])
  end.

(** The arguments are an [int] and a size that the caller has checked. *)
Definition op_ok (o : table_op) : Prop :=
  match o with
  | OpSetNum i _ | OpGetNum i => in_s 32 i
  | OpGrow n => n < 2 ^ 30
  | _ => True
  end.

(** The abstraction relation. *)
Definition implements (t : LuaTable) (m : fmap_t) : Prop :=
  wf_table t /\ forall k, valid_key k = true -> get t k = m k.

(** The errors of an operation. *)
Definition op_error (o : table_op) (e : lua_error) : Prop :=
  e = RunError "table overflow" \/
  exists k v, o = OpSet k v /\ valid_key k = false /\ e = key_error k.

Lemma set_implements t m key v :
  implements t m ->
  match set t key v with
  | Ret t' => implements t' (map_set m key v)
  | Throw e => e = RunError "table overflow" \/ valid_key key = false /\ e = key_error key
  | Undefined _ => False
  end.
Proof.
  intros [Hwf Hm]. pose proof (set_spec t key v Hwf) as Hs.
  destruct (set t key v) as [t'|e|]; [| |done].
  - destruct Hs as (Hv & Hwf' & Hg). split; [done|]. intros k Hvk. rewrite Hg by done.
    unfold map_set. by rewrite Hm.
  - naive_solver.
Qed.

Lemma store_set t key v :
  store (luaH_set t key) v = (t' <- set t key v ;; Ret (t', [])).
Proof. unfold store, set. by destruct (luaH_set t key) as [[t' s]| |]. Qed.

(** What an operation promises. *)
Definition op_correct (m : fmap_t) (o : table_op) (r : outcome (LuaTable * list TValue)) : Prop :=
  match r with
  | Ret (t', out) => implements t' (fst (spec_op m o)) /\ out = snd (spec_op m o)
  | Throw e => op_error o e
  | Undefined _ => False
  end.

Lemma set_op_correct t m k v o :
  implements t m -> (valid_key k = true \/ o = OpSet k v) -> spec_op m o = (map_set m k v, []) ->
  op_correct m o (store (luaH_set t k) v).
Proof.
  intros Hi Ho Es. unfold op_correct. rewrite store_set, Es.
  pose proof (set_implements t m k v Hi) as Hs.
  destruct (set t k v) as [t'|e|]; cbn; [done| |done].
  destruct Hs as [->|[Hv ->]]; [by left|right]. destruct Ho as [Ho| ->]; [congruence|by exists k, v].
Qed.

Lemma op_implements t m o : implements t m -> op_ok o -> op_correct m o (run_op t o).
Proof.
  intros Hi Ho. pose proof Hi as [Hwf Hm]. pose proof (wt_asize _ Hwf) as Ha.
  pose proof Ha as Ha'. rewrite MAXSIZE_eq in Ha'. destruct o as [k v|s v|i v|k|i|n| |]; cbn [run_op].
  - apply set_op_correct; auto.
  - rewrite setstr_eq. apply set_op_correct; auto.
  - cbn [op_ok] in Ho. assert (Hv : valid_key (akey i) = true)
      by (apply akey_valid; unfold in_s in Ho; lia).
    rewrite setnum_eq by done. destruct (in_array i t) eqn:E.
    + rewrite in_array_spec in E by done. bool_simpl.
      assert (Hk : slot_key t (ArraySlot (Z.to_nat (i - 1))) (akey i)).
      { cbn. split; [lia|f_equal; lia]. }
      cbn [store outcome_bind]. split; [|done]. split; [by apply setslot_wf with (akey i)|].
      intros k Hvk. rewrite (get_setslot t _ v (akey i) (akey i) Hwf Hk eq_refl k Hvk).
      cbn. unfold map_set. by rewrite Hm.
    + apply set_op_correct; auto.
  - split; [done|]. cbn. destruct (valid_key k) eqn:Hv; [by rewrite Hm|].
    unfold get. by rewrite luaH_get_invalid.
  - split; [done|]. cbn [op_ok spec_op snd] in *. rewrite <- luaH_get_akey by done.
    rewrite <- Hm by (apply akey_valid; unfold in_s in Ho; lia). done.
  - cbn [op_ok] in Ho. destruct (Z.ltb_spec (sizearray t) n) as [Hlt|]; [|by split].
    pose proof (resizearray_spec t n Hwf ltac:(lia) ltac:(rewrite MAXSIZE_eq; lia)) as Hr.
    destruct (luaH_resizearray t n) as [t'|e|]; cbn; [|by left|done].
    destruct Hr as (Hwf' & _ & Hg). split; [|done]. split; [done|]. intros k Hv.
    by rewrite Hg, Hm.
  - destruct (luaH_clear_spec t Hwf) as [Hwf' He]. split; [|done]. split; [done|].
    intros k Hv. by apply get_empty.
  - destruct (luaH_clone_spec t Hwf) as (Hwf' & Ec & En & El). split; [|done]. split; [done|].
    intros k Hv. cbn. rewrite <- Hm by done. apply get_entries; try done.
    unfold entries, nodes_of. by rewrite Ec, En.
Qed.

Fixpoint run_ops (t : LuaTable) (ops : list table_op) : outcome (LuaTable * list TValue) :=
  match ops with
  | [] => Ret (t, [])
  | o :: ops =>
      p <- run_op t o ;; let '(t, out) := p in
      q <- run_ops t ops ;; let '(t, outs) := q in Ret (t, out ++ outs)
  end.

Fixpoint spec_ops (m : fmap_t) (ops : list table_op) : fmap_t * list TValue :=
  match ops with
  | [] => (m, [])
  | o :: ops =>
      let '(m, out) := spec_op m o in
      let '(m, outs) := spec_ops m ops in (m, out ++ outs)
  end.

Lemma ops_implement ops t m :
  implements t m -> Forall op_ok ops ->
  match run_ops t ops with
  | Ret (t', outs) => implements t' (fst (spec_ops m ops)) /\ outs = snd (spec_ops m ops)
  | Throw e => exists o, o ∈ ops /\ op_error o e
  | Undefined _ => False
  end.
Proof.
  intros Hi Ho. revert t m Hi. induction Ho as [|o ops Ho Hos IH]; intros t m Hi; [by split|].
  cbn [run_ops spec_ops]. pose proof (op_implements t m o Hi Ho) as Hop. unfold op_correct in Hop.
  destruct (run_op t o) as [[t' out]|e|]; cbn [outcome_bind]; [| |done].
  2:{ exists o. split; [left|done]. }
  destruct (spec_op m o) as [m' out']. cbn [fst snd] in Hop. destruct Hop as [Hi' ->].
  specialize (IH t' m' Hi'). destruct (run_ops t' ops) as [[t2 outs]|e|]; cbn [outcome_bind]; [| |done].
  - destruct (spec_ops m' ops) as [m2 outs']. cbn in *. by destruct IH as [? ->].
  - destruct IH as (o' & Hin & He). exists o'. split; [by right|done].
Qed.

(** C1. A table is a finite map: any sequence of assignments, searches,
    resizes, clears and copies on a new table reads the values that the same
    sequence reads from a finite map.  No step is undefined; a step can only
    raise the error of its key or "table overflow". *)
Theorem table_refines_map narray nhash ops :
  narray <= MAXSIZE -> nhash <= MAXSIZE -> Forall op_ok ops ->
  match (t <- luaH_new narray nhash ;; run_ops t ops) with
  | Ret (t', outs) => wf_table t' /\ outs = snd (spec_ops (fun _ => LNil) ops) /\
      forall k, valid_key k = true -> get t' k = fst (spec_ops (fun _ => LNil) ops) k
  | Throw e => exists o, o ∈ ops /\ op_error o e
  | Undefined _ => False
  end.
Proof.
  intros Ha Hh Ho. destruct (luaH_new_spec narray nhash Ha Hh) as (t & -> & Hwf & He & _).
  cbn [outcome_bind].
  assert (Hi : implements t (fun _ => LNil)) by (split; [done|]; intros k; by apply get_empty).
  pose proof (ops_implement ops t _ Hi Ho) as Hr.
  destruct (run_ops t ops) as [[t' outs]|e|]; [|done|done]. destruct Hr as [[Hwf' Hg] ->]. done.
Qed.
(** C2. Insertion of a new key: for a key that the table has not, [newkey]
    yields a table that satisfies the invariant - the chains of the hash part
    with Brent's variation, and the boundary of the array part - with an empty
    slot for the key and every other entry as before.  One call of [rehash] makes
    room enough: neither the migration nor the insertion after it calls [rehash]
    again, so that two levels of [newkey] always suffice. *)
Theorem newkey_inserts f t key :
  wf_table t -> valid_key key = true -> fresh t key ->
  match newkey (S (S f)) t key with
  | Ret (t', s) => wf_table t' /\ slot_key t' s key /\ slot_value t' s = LNil /\
      forall k v, v <> LNil -> holds t' k v <-> holds t k v
  | Throw e => e = RunError "table overflow" /\ 2 ^ 25 <= Z.of_nat (length (entries t))
  | Undefined _ => False
  end.
Proof.
  intros Hwf Hv Hf. pose proof (newkey_spec f t key Hwf Hv Hf) as Hn.
  destruct (newkey (S (S f)) t key) as [[t' s]|e|]; [by destruct Hn| |done].
  destruct Hn as [-> Hov]. split; [done|]. rewrite MAXSIZE_eq in Hov. unfold with_key in Hov.
  rewrite length_app in Hov. cbn [length] in Hov. lia.
Qed.

(** The size of the array part: for keys that are pairwise different,
    [computesizes] yields the largest power of two, up to [2^26], such that more
    than half of the indices up to it are among the keys, or 0 when there is
    none, and the number of the keys that go to the array part. *)
Theorem computesizes_optimal items :
  NoDup (norms items) ->
  let '(na, n) := computesizes (nums_of items) (Z.of_nat (inside MAXSIZE items)) in
  na = Z.of_nat (inside n items) /\
  (n = 0 \/ exists j, 0 <= j <= 26 /\ n = 2 ^ j /\ 2 ^ j / 2 < Z.of_nat (inside n items)) /\
  (forall j, 0 <= j <= 26 -> 2 ^ j / 2 < Z.of_nat (inside (2 ^ j) items) -> 2 ^ j <= n).
Proof.
  intros Hnd. pose proof (computesizes_spec items (norms_distinct _ Hnd)) as Hc.
  destruct (computesizes _ _) as [na n]. destruct Hc as [Ha Hl]. split_and!.
  - by destruct (array_size_bounds _ _ _ Ha) as (_ & _ & ?).
  - destruct Ha as [[-> _]|(j & Hj & -> & -> & Hx)]; [by left|right].
    change SLICES with 27%nat in Hj. exists (Z.of_nat j). split; [lia|]. done.
  - intros j Hj Hx. specialize (Hl (Z.to_nat j)). unfold upto in Hl. rewrite Z2Nat.id in Hl by lia.
    apply Hl; [change SLICES with 27%nat; lia|done].
Qed.
End Map.

(** * Witnesses *)

#[local] Existing Instance sample_vec.

(** What [luaH_new(L, 0, 0)] returns. *)
Definition empty_table : LuaTable :=
  {| tmcache := 255; readonly := false; safeenv := false; lsizenode := 0; lastfree := 0;
     metatable := None; array := []; node := None |}.

Lemma empty_table_wf : wf_table empty_table.
Proof. destruct (luaH_new_spec 0 0 ltac:(done) ltac:(done)) as (t & [= <-] & Hwf & _). done. Qed.

Lemma set_refines_witness : exists t',
  set empty_table (LString [120]) (LBoolean true) = Ret t' /\
  get t' (LString [120]) = LBoolean true /\ get t' (LInteger 3) = LNil.
Proof.
  pose proof (set_refines empty_table (LString [120]) (LBoolean true) empty_table_wf) as Hs.
  destruct (set _ _ _) as [t'|e|w] eqn:E; [|vm_compute in E; discriminate|destruct Hs].
  destruct Hs as (_ & _ & Hg). exists t'. split; [reflexivity|].
  split; rewrite Hg by reflexivity; vm_compute; reflexivity.
Defined.

(** Keys of several types, among them enough integers for an array part. *)
Definition sample_ops : list table_op :=
  [OpSetNum 1 (LBoolean true); OpSetStr [120] (LInteger 7); OpSetNum 2 (LInteger 8);
   OpSetNum 4 (LInteger 9); OpSet (LBoolean false) (LInteger 10); OpSetNum 3 (LInteger 11);
   OpSetNum 6 (LInteger 12); OpGrow 8; OpSet (LInteger 5) (LInteger 13);
   OpSetNum 2 LNil; OpGetNum 4; OpClone; OpGet (LString [120])].

Lemma table_refines_map_witness : exists t',
  (t <- luaH_new 0 4 ;; run_ops t sample_ops) = Ret (t', [LInteger 9; LInteger 7]) /\
  wf_table t' /\ get t' (akey 2) = LNil.
Proof.
  pose proof (table_refines_map 0 4 sample_ops ltac:(done) ltac:(done)
    ltac:(repeat constructor; done)) as Hs.
  destruct (t <- luaH_new 0 4 ;; run_ops t sample_ops) as [[t' outs]|e|w] eqn:E;
    [|vm_compute in E; discriminate|destruct Hs].
  destruct Hs as (Hwf & -> & Hg). exists t'. split; [f_equal; f_equal; vm_compute; reflexivity|].
  split; [exact Hwf|]. rewrite Hg by reflexivity. vm_compute. reflexivity.
Defined.

(** The table after those operations. *)
Definition sample_table : LuaTable :=
  match (t <- luaH_new 0 4 ;; run_ops t sample_ops) with Ret (t, _) => t | _ => empty_table end.

Lemma sample_table_wf : wf_table sample_table.
Proof.
  unfold sample_table. destruct (luaH_new_spec 0 4 ltac:(done) ltac:(done)) as (t & -> & Hwf & He & _).
  cbn [outcome_bind].
  assert (Hi : implements t (fun _ => LNil)) by (split; [done|]; intros k; by apply get_empty).
  pose proof (ops_implement sample_ops t _ Hi ltac:(repeat constructor; done)) as Hr.
  destruct (run_ops t sample_ops) as [[t' outs]|e|w]; [|exact empty_table_wf|exact empty_table_wf].
  apply Hr.
Qed.

Lemma newkey_inserts_witness : exists t' s,
  newkey 2 sample_table (LInteger 99) = Ret (t', s) /\ slot_key t' s (LInteger 99).
Proof.
  assert (Hf : fresh sample_table (LInteger 99)).
  { pose proof (luaH_get_finds sample_table (LInteger 99) sample_table_wf eq_refl) as Hx.
    replace (luaH_get sample_table (LInteger 99)) with (@None slot) in Hx
      by (vm_compute; reflexivity). exact Hx. }
  pose proof (newkey_inserts 0 sample_table (LInteger 99) sample_table_wf eq_refl Hf) as Hn.
  destruct (newkey 2 sample_table (LInteger 99)) as [[t' s]|e|w] eqn:E;
    [|vm_compute in E; discriminate|destruct Hn].
  exists t', s. split; [reflexivity|apply Hn].
Defined.

(** The keys 1, 2, 3, 5 and 9: four of the first eight indices are not enough. *)
Definition sample_items : list (TValue * TValue) :=
  map (fun i => (akey i, LBoolean true)) [1; 2; 3; 5; 9].

Lemma computesizes_optimal_witness :
  computesizes (nums_of sample_items) (Z.of_nat (inside MAXSIZE sample_items)) = (3, 4) /\
  forall j, 0 <= j <= 26 -> 2 ^ j / 2 < Z.of_nat (inside (2 ^ j) sample_items) -> 2 ^ j <= 4.
Proof.
  assert (Hnd : NoDup (norms sample_items)).
  { unfold sample_items. vm_compute. repeat (constructor; [by set_solver by congruence|]).
    constructor. }
  pose proof (computesizes_optimal sample_items Hnd) as Hc.
  replace (computesizes (nums_of sample_items) (Z.of_nat (inside MAXSIZE sample_items)))
    with (3, 4) in * by (vm_compute; reflexivity).
  split; [reflexivity|apply Hc].
Defined.

Lemma specialised_operations_example :
  luaH_getnum sample_table 4 = luaH_get sample_table (akey 4) /\
  slot_get sample_table (luaH_getnum sample_table 4) = LInteger 9.
Proof. split; vm_compute; reflexivity. Qed.
