(* ===== verification/TableIter.v ===== *)
(** The length operator and the traversal of tables, [luaH_getn], [luaH_next]
    of [VM/src/ltable.cpp] and [lua_rawiter] of [VM/src/lapi.cpp]. *)
From stdpp Require Import sets sorting relations.
From S2P Require Import Prelude Word Double LuaApi Arith Compare Key TableNode Table TableSpec.
From S2P Require Import TableResize TableRehash TableMap.
Open Scope Z_scope.
Open Scope outcome_scope.

Section Length.
Context `{VecSize, Target}.

(** The value at the index [i] of the array, from 1. *)
Definition at_index (t : LuaTable) (i : Z) : TValue := slot_value t (ArraySlot (Z.to_nat (i - 1))).

Lemma read_array_in {A} t i (k : TValue -> outcome A) :
  0 <= i < sizearray t -> read_array t i k = k (at_index t (i + 1)).
Proof.
  intros Hi. unfold read_array, at_index, slot_value. rewrite (proj2 (Z.ltb_ge _ _)) by lia.
  rewrite Z.add_simpl_r. destruct (array t !! Z.to_nat i) eqn:E; [done|].
  apply lookup_ge_None in E. unfold sizearray in Hi. lia.
Qed.

Lemma get_at_index t i :
  wf_table t -> 1 <= i <= sizearray t -> get t (akey i) = at_index t i.
Proof.
  intros Hwf Hi. pose proof (wt_asize _ Hwf) as Ha. pose proof Ha as Ha'. rewrite MAXSIZE_eq in Ha'.
  unfold get. rewrite luaH_get_akey by (unfold in_s; lia).
  rewrite luaH_getnum_generic, in_array_spec by (try done; unfold in_s; lia).
  by rewrite (proj2 (Z.leb_le _ _)), (proj2 (Z.leb_le _ _)) by lia.
Qed.

(** The index behind the array holds nothing: the boundary invariant. *)
Lemma get_boundary t : wf_table t -> get t (akey (sizearray t + 1)) = LNil.
Proof.
  intros Hwf. pose proof (wt_asize _ Hwf) as Ha. rewrite MAXSIZE_eq in Ha.
  assert (0 <= sizearray t) by (unfold sizearray; lia).
  unfold get. pose proof (luaH_get_finds t (akey (sizearray t + 1)) Hwf) as Hf.
  destruct (luaH_get _ _) as [s|]; [|done]. destruct Hf as (k & Hk & E); [apply akey_valid; lia|].
  apply akey_norm in E as ->; [|lia|lia]. destruct s as [i|j].
  - destruct Hk as [Hi E]. apply akey_inj in E; unfold in_s; lia.
  - exfalso. apply (wt_split _ Hwf j (sizearray t + 1)); [lia|done].
Qed.

(** A boundary of the array. *)
Definition border (t : LuaTable) (n : Z) : Prop :=
  0 <= n <= sizearray t /\ (n = 0 \/ at_index t n <> LNil) /\
  (n = sizearray t \/ at_index t (n + 1) = LNil).

(** The search keeps [at_index t (base + d + 1) = nil] for a [d] of [rest - 1] or
    [rest], and ends since [rest] shrinks. *)
Lemma search_boundary_spec fuel t base rest d :
  1 <= rest -> rest <= Z.of_nat fuel -> 0 <= base -> rest - 1 <= d <= rest ->
  base + d < sizearray t -> at_index t (base + d + 1) = LNil ->
  (base = 0 \/ at_index t (base + 1) <> LNil) ->
  exists n, search_boundary fuel t base rest = Ret n /\ border t n.
Proof.
  revert base rest d. induction fuel as [|f IH]; intros base rest d Hr Hf Hb Hd Hs Hn Hbase; [lia|].
  cbn [search_boundary]. rewrite Z.shiftr_div_pow2 by lia. change (2 ^ 1) with 2.
  pose proof (Z.div_mod rest 2 ltac:(lia)). pose proof (Z.mod_pos_bound rest 2 ltac:(lia)).
  set (half := rest / 2) in *. destruct (Z.eqb_spec half 0) as [E|E]; cbn [negb].
  - assert (rest = 1) as -> by lia. rewrite read_array_in by lia.
    eexists. split; [done|]. destruct (ttisnil (at_index t (base + 1))) eqn:En; cbn [negb Zb].
    + destruct (at_index t (base + 1)) eqn:Ev; try done. destruct Hbase as [->|?]; [|done].
      split; [lia|]. split; [by left|by right].
    + apply ttisnil_false in En. assert (d <> 0) by (intros ->; rewrite Z.add_0_r in Hn; done).
      assert (d = 1) as -> by lia. split; [lia|]. split; right.
      * by replace (1 + base) with (base + 1) by lia.
      * by replace (1 + base + 1) with (base + 1 + 1) by lia.
  - rewrite read_array_in by lia. destruct (ttisnil (at_index t (base + half + 1))) eqn:En.
    + apply (IH base (rest - half) half); try lia; try done.
      by destruct (at_index t (base + half + 1)).
    + apply ttisnil_false in En.
      assert (d <> half) by (intros ->; done).
      apply (IH (base + half) (rest - half) (d - half)); try lia; [|by right].
      by replace (base + half + (d - half)) with (base + d) by lia.
Qed.

(** ** The fast paths *)

Definition finds_border (t : LuaTable) (r : outcome (LuaTable * Z)) : Prop :=
  exists lf n, r = Ret (set_lastfree lf t, n) /\ border t n /\
    (lf = lastfree t \/ lastfree t <= 0 /\ lf = - n).

Lemma set_lastfree_id t : set_lastfree (lastfree t) t = t.
Proof. by destruct t. Qed.

Lemma finds_same t n : border t n -> finds_border t (Ret (t, n)).
Proof. intros Hb. exists (lastfree t), n. rewrite set_lastfree_id. auto. Qed.

Lemma finds_maybe t n : border t n -> finds_border t (Ret (maybesetaboundary t n, n)).
Proof.
  intros Hb. unfold maybesetaboundary. destruct (Z.leb_spec (lastfree t) 0).
  - exists (- n), n. auto.
  - by apply finds_same.
Qed.

Lemma getn_search_spec t : finds_border t (getn_search t).
Proof.
  unfold getn_search. assert (H0' : 0 <= sizearray t) by (unfold sizearray; lia).
  destruct (Z.ltb_spec 0 (sizearray t)) as [Hp|Hp].
  - rewrite read_array_in by lia. rewrite Z.sub_add.
    destruct (ttisnil (at_index t (sizearray t))) eqn:E.
    + destruct (search_boundary_spec (S (Z.to_nat (sizearray t))) t 0 (sizearray t) (sizearray t - 1))
        as (n & -> & Hb); try lia.
      * rewrite Z.add_0_l, Z.sub_add. by destruct (at_index t (sizearray t)).
      * cbn [outcome_bind]. by apply finds_maybe.
    + apply ttisnil_false in E. apply finds_same. split; [lia|]. split; [by right|by left].
  - apply finds_same. assert (sizearray t = 0) as E by lia. split; [lia|]. split; by left.
Qed.

Lemma ttisnil_true v : ttisnil v = true -> v = LNil.
Proof. by destruct v. Qed.

Lemma updateaboundary_spec t b :
  0 < b ->
  (exists t', updateaboundary t b = Ret (t', 0) /\ t' = t) \/
  (exists n, updateaboundary t b = Ret (maybesetaboundary t n, n) /\ 0 < n /\ border t n).
Proof.
  intros Hb. unfold updateaboundary.
  set (next := if b + 1 <? sizearray t then _ else _).
  assert (Hnext : (exists t', next = Ret (t', 0) /\ t' = t) \/
    (exists n, next = Ret (maybesetaboundary t n, n) /\ 0 < n /\ border t n)).
  { unfold next. destruct (Z.ltb_spec (b + 1) (sizearray t)); [|left; by exists t].
    rewrite read_array_in by lia. destruct (ttisnil (at_index t (b + 1))) eqn:E1; cbn [negb];
      [left; by exists t|].
    rewrite read_array_in by lia. destruct (ttisnil (at_index t (b + 1 + 1))) eqn:E2;
      [|left; by exists t].
    right. exists (b + 1). split; [done|]. split; [lia|]. apply ttisnil_false in E1.
    apply ttisnil_true in E2. split; [lia|]. split; by right. }
  destruct (Z.ltb_spec b (sizearray t)); [|done].
  rewrite read_array_in by lia. rewrite Z.sub_add.
  destruct (ttisnil (at_index t b)) eqn:E1; [|done].
  destruct (Z.leb_spec 2 b); [|left; by exists t].
  rewrite read_array_in by lia.
  destruct (ttisnil (at_index t (b - 2 + 1))) eqn:E2; cbn [negb]; [left; by exists t|].
  right. exists (b - 1). split; [done|]. split; [lia|]. apply ttisnil_false in E2.
  apply ttisnil_true in E1. split; [lia|]. replace (b - 2 + 1) with (b - 1) in E2 by lia.
  split; right; [done|]. by rewrite Z.sub_add.
Qed.

Lemma getn_spec t : - sizearray t <= lastfree t -> finds_border t (luaH_getn t).
Proof.
  intros Hlf. unfold luaH_getn. assert (H0' : 0 <= sizearray t) by (unfold sizearray; lia).
  set (b := getaboundary t). destruct (Z.ltb_spec 0 b) as [Hb|_]; [|apply getn_search_spec].
  assert (Hs : 0 < sizearray t).
  { unfold b, getaboundary in Hb. destruct (Z.ltb_spec (lastfree t) 0); lia. }
  rewrite read_array_in by lia. rewrite Z.sub_add.
  destruct (negb (ttisnil (at_index t (sizearray t))) && is_dummy t) eqn:Efast.
  { bool_simpl. apply finds_same. split; [lia|]. split; [right; by apply ttisnil_false|by left]. }
  set (slow := p <- updateaboundary t b ;; _).
  assert (Hslow : finds_border t slow).
  { unfold slow. destruct (updateaboundary_spec t b Hb) as [(t' & -> & ->)|(n & -> & Hn & Hbn)];
      cbn [outcome_bind].
    - apply getn_search_spec.
    - rewrite (proj2 (Z.ltb_lt _ _) Hn). by apply finds_maybe. }
  destruct (Z.ltb_spec b (sizearray t)) as [Hlt|]; [|done].
  rewrite read_array_in by lia. rewrite Z.sub_add.
  destruct (ttisnil (at_index t b)) eqn:E1; cbn [negb]; [done|].
  rewrite read_array_in by lia. destruct (ttisnil (at_index t (b + 1))) eqn:E2; [|done].
  apply finds_same. apply ttisnil_false in E1. apply ttisnil_true in E2.
  split; [lia|]. split; by right.
Qed.

Lemma wf_set_lastfree t lf :
  wf_table t -> 0 <= sizearray t ->
  lf = lastfree t \/ lastfree t <= 0 /\ - sizearray t <= lf <= 0 -> wf_table (set_lastfree lf t).
Proof.
  intros [W1 W2 W3 W4] Hs Hc. split; [done| | |done].
  - destruct Hc as [->|[Hle Hlf]]; [by rewrite set_lastfree_id|]. cbn.
    destruct (node t) as [ns|]; [|split; [apply W2|lia]]. destruct W2 as (V1 & V2 & V3).
    split; [done|]. split; [|lia].
    destruct V2 as [X1 X2 X3 X4 X5 X6 X7 X8 X9 X10 X11]. split; try done.
    intros i Hi Hlt. apply X11; [|done]. lia.
  - destruct Hc as [->|[Hle Hlf]]; [done|]. unfold sizearray in *. cbn. lia.
Qed.

Lemma getn_wf t :
  wf_table t ->
  exists lf n, luaH_getn t = Ret (set_lastfree lf t, n) /\ border t n /\
    wf_table (set_lastfree lf t).
Proof.
  intros Hwf. destruct (getn_spec t (wt_boundary _ Hwf)) as (lf & n & -> & Hb & Hc).
  exists lf, n. split; [done|]. split; [done|].
  destruct Hb as (Hn & _). apply wf_set_lastfree; [done|lia|].
  destruct Hc as [->|[Hle ->]]; [by left|right]. lia.
Qed.

Lemma border_get t n :
  wf_table t -> border t n ->
  (n = 0 \/ get t (akey n) <> LNil) /\ get t (akey (n + 1)) = LNil.
Proof.
  intros Hwf (Hn & Hl & Hr). split.
  - destruct Hl as [|Hl]; [by left|]. destruct (Z.eq_dec n 0); [by left|right].
    by rewrite get_at_index by (try done; lia).
  - destruct Hr as [->|Hr]; [by apply get_boundary|]. destruct (Z.eq_dec n (sizearray t)) as [->|].
    + by apply get_boundary.
    + by rewrite get_at_index by (try done; lia).
Qed.

(** C29. The length operator returns a boundary: [luaH_getn] always returns, it
    reads the array within its bounds only, the value at its result [n] is not
    [nil] unless [n] is 0, the value behind [n] is [nil] - also when [n] is the
    size of the array part and the next index could be in the hash part - and
    the cached boundary leaves the table and its invariant unchanged. *)
Theorem getn_is_border t :
  wf_table t ->
  exists t' n, luaH_getn t = Ret (t', n) /\
    0 <= n <= sizearray t /\
    (n = 0 \/ get t (akey n) <> LNil) /\ get t (akey (n + 1)) = LNil /\
    wf_table t' /\ forall k, valid_key k = true -> get t' k = get t k.
Proof.
  intros Hwf. destruct (getn_wf t Hwf) as (lf & n & -> & (Hn & Hl & Hr) & Hwf').
  destruct (border_get t n Hwf (conj Hn (conj Hl Hr))) as [Hl' Hr'].
  exists (set_lastfree lf t), n. split_and!; try done; try lia.
Qed.
End Length.

(** * Traversal *)

Section Traversal.
Context `{VecSize, Target}.
Variable str_addr : list Z -> Z.

(** The position of a slot in the order of a traversal. *)
Definition pos (t : LuaTable) (s : slot) : nat :=
  match s with ArraySlot i => i | NodeSlot j => length (array t) + j end.

(** The entries from a position on. *)
Definition entries_from (t : LuaTable) (p : nat) : list (TValue * TValue) :=
  array_entries (Z.of_nat p) (drop p (array t)) ++
  node_entries (drop (p - length (array t)) (nodes_of t)).

Lemma entries_from_0 t : entries_from t 0 = entries t.
Proof. done. Qed.

Lemma scan_array_spec i vs :
  match scan_array i vs with
  | None => array_entries i vs = []
  | Some (i', v) => exists j, i' = i + Z.of_nat j /\ vs !! j = Some v /\ v <> LNil /\
      array_entries i vs = (akey (i' + 1), v) :: array_entries (i' + 1) (drop (S j) vs)
  end.
Proof.
  revert i. induction vs as [|v vs IH]; intros i; [done|]. cbn [scan_array array_entries].
  destruct (ttisnil v) eqn:E; cbn [negb].
  - specialize (IH (i + 1)). destruct (scan_array (i + 1) vs) as [[i' w]|]; [|done].
    destruct IH as (j & -> & Hj & Hw & ->). exists (S j). split; [lia|done].
  - exists 0%nat. apply ttisnil_false in E. rewrite Z.add_0_r. done.
Qed.

Lemma scan_nodes_spec i ns :
  match scan_nodes i ns with
  | None => node_entries ns = []
  | Some (i', n) => exists j, i' = i + Z.of_nat j /\ ns !! j = Some n /\ nval n <> LNil /\
      node_entries ns = node_entry n ++ node_entries (drop (S j) ns)
  end.
Proof.
  revert i. induction ns as [|n ns IH]; intros i; [done|]. cbn [scan_nodes].
  unfold node_entries. cbn [mbind list_bind]. fold (node_entries ns).
  destruct (ttisnil (nval n)) eqn:E; cbn [negb].
  - assert (node_entry n = []) as -> by (unfold node_entry; by rewrite E). cbn [app].
    specialize (IH (i + 1)). destruct (scan_nodes (i + 1) ns) as [[i' w]|]; [|done].
    destruct IH as (j & -> & Hj & Hw & ->). exists (S j). split; [lia|done].
  - exists 0%nat. apply ttisnil_false in E. rewrite Z.add_0_r. done.
Qed.

(** The entries from [p] on begin with the entry of a slot [s], if there is one. *)
Definition first_from (t : LuaTable) (p : nat) (r : option (slot * TValue * TValue)) : Prop :=
  match r with
  | None => entries_from t p = []
  | Some (s, k, v) => slot_key t s k /\ slot_value t s = v /\
      entries_from t p = (k, v) :: entries_from t (S (pos t s))
  end.

(** The two scans of [luaH_next] and [lua_rawiter]. *)
Definition scan (t : LuaTable) (p : nat) : option (slot * TValue * TValue) :=
  match scan_array (Z.of_nat p) (drop p (array t)) with
  | Some (i, v) => Some (ArraySlot (Z.to_nat i), akey (i + 1), v)
  | None =>
      let i := Z.max (Z.of_nat p) (sizearray t) - sizearray t in
      match scan_nodes i (drop (Z.to_nat i) (nodes_of t)) with
      | Some (j, n) =>
          match nkey n with
          | KLive k => Some (NodeSlot (Z.to_nat j), k, nval n)
          | KDead _ => None
          end
      | None => None
      end
  end.

Lemma scan_spec t p : wf_table t -> first_from t p (scan t p).
Proof.
  intros Hwf. unfold scan, first_from, entries_from.
  pose proof (scan_array_spec (Z.of_nat p) (drop p (array t))) as Ha.
  destruct (scan_array _ _) as [[i v]|].
  - destruct Ha as (j & -> & Hj & Hv & ->). rewrite lookup_drop in Hj.
    pose proof (lookup_lt_Some _ _ _ Hj) as Hlt. rewrite <- Nat2Z.inj_add, Nat2Z.id.
    cbn [slot_key slot_value pos app]. rewrite Hj. unfold sizearray. split_and!; [lia|done|done|].
    rewrite drop_drop. do 2 f_equal.
    + f_equal; [lia|]. f_equal. lia.
    + f_equal. f_equal. lia.
  - rewrite Ha. cbn [app]. set (i := Z.max (Z.of_nat p) (sizearray t) - sizearray t).
    assert (Hi : Z.to_nat i = (p - length (array t))%nat) by (unfold i, sizearray; lia).
    rewrite <- Hi. pose proof (scan_nodes_spec i (drop (Z.to_nat i) (nodes_of t))) as Hn.
    destruct (scan_nodes _ _) as [[i' n]|]; [|done].
    destruct Hn as (j & -> & Hj & Hv & Hns). rewrite lookup_drop in Hj.
    destruct (nodes_live t Hwf n) as [k Ek]; [by eapply list_elem_of_lookup_2|done|].
    rewrite Ek. assert (Hg : gnode (nodes_of t) (Z.to_nat i + j) = n) by (unfold gnode; by rewrite Hj).
    assert (Z.to_nat (i + Z.of_nat j) = (Z.to_nat i + j)%nat) as -> by (unfold i; lia).
    cbn [slot_key slot_value pos]. rewrite Hg. split_and!; [|done|].
    + unfold nodes_of in *. destruct (node t) as [ns|] eqn:En.
      * destruct (wt_nodes _ _ Hwf En) as (_ & Hw & _).
        destruct (wf_val _ _ _ Hw (Z.to_nat i + j)%nat) as [k' Hl]; [by rewrite Hg|].
        pose proof Hl as Hl'. unfold live in Hl'. rewrite Hg, Ek in Hl'.
        destruct k; try discriminate; by injection Hl' as <-.
      * apply list_elem_of_lookup_2, list_elem_of_singleton in Hj as ->. done.
    + rewrite Hns. unfold node_entry. rewrite (proj2 (ttisnil_false _) Hv), Ek. cbn [app]. f_equal.
      rewrite (drop_ge (array t)) by lia. cbn [array_entries app]. rewrite drop_drop. f_equal.
      f_equal. lia.
Qed.

(** ** The position of a key *)

(** No key of a removed entry that the collector has forgotten is the object
    [k]. *)
Definition not_dead (t : LuaTable) (k : TValue) : Prop :=
  forall n, n ∈ nodes_of t -> iscollectable k = true -> nkey n <> KDead (gcvalue str_addr k).

(** No key that the collector has forgotten has the address of a key that is present. *)
Definition live_apart (t : LuaTable) : Prop := forall s k, slot_key t s k -> not_dead t k.

Lemma chain_find_ext_in fuel nodes p q i :
  (forall j, p (nkey (gnode nodes j)) = q (nkey (gnode nodes j))) ->
  chain_find fuel nodes p i = chain_find fuel nodes q i.
Proof.
  intros E. revert i. induction fuel as [|f IH]; intros i; cbn; [done|]. by rewrite E, IH.
Qed.

Lemma find_live_or_dead t k :
  wf_table t -> valid_key k = true -> not_dead t k ->
  find_node t (fun k0 => match k0 with
    | KLive k0 => luaO_rawequalKey k0 k
    | KDead gc => iscollectable k && (gc =? gcvalue str_addr k)
    end) (mainposition (lsizenode t) k) = get_generic t k.
Proof.
  intros Hwf Hv Hd. unfold get_generic. destruct (node t) as [ns|] eqn:En.
  - unfold find_node. erewrite chain_find_ext_in; [done|]. intros j. cbn beta.
    destruct (nkey (gnode (nodes_of t) j)) as [k0|gc] eqn:Ek; [done|].
    destruct (iscollectable k) eqn:Ec; [|done]. cbn [andb]. apply Z.eqb_neq. intros ->.
    unfold gnode in Ek. destruct (nodes_of t !! j) as [n|] eqn:Ej; [|done].
    apply (Hd n); [by eapply list_elem_of_lookup_2|done|done].
  - unfold find_node, nodes_of. rewrite En. cbn [length chain_find].
    assert (Hnil : luaO_rawequalKey LNil k = false) by by destruct k.
    assert (mainposition (lsizenode t) k = 0%nat) as ->.
    { pose proof (wt_node _ Hwf) as Hn. rewrite En in Hn. destruct Hn as [-> _].
      pose proof (mainposition_lt 0 k). cbn in *. lia. }
    cbn. by rewrite Hnil.
Qed.

Lemma findindex_slot t k s k' :
  wf_table t -> valid_key k = true -> not_dead t k -> slot_key t s k' -> key_norm k' = key_norm k ->
  findindex str_addr t k = Ret (Z.of_nat (pos t s)).
Proof.
  intros Hwf Hv Hd Hk E. pose proof (wt_asize _ Hwf) as Ha. rewrite MAXSIZE_eq in Ha.
  assert (Hgen : (forall i, 1 <= i <= sizearray t -> k <> akey i) ->
    match find_node t (fun k0 => match k0 with
      | KLive k0 => luaO_rawequalKey k0 k
      | KDead gc => iscollectable k && (gc =? gcvalue str_addr k)
      end) (mainposition (lsizenode t) k) with
    | Some (NodeSlot i) => Ret (Z.of_nat i + sizearray t)
    | _ => Throw (RunError "invalid key to 'next'")
    end = Ret (Z.of_nat (pos t s))).
  { intros Hnot. rewrite find_live_or_dead by done.
    pose proof (get_generic_finds t k Hwf Hv Hnot) as Hf.
    rewrite (finds_unique t k _ s k' Hwf Hf Hk E). destruct s as [i|j].
    - exfalso. destruct Hk as [Hi ->]. symmetry in E. apply akey_norm in E as ->; [|lia|lia].
      apply (Hnot (Z.of_nat i + 1)); [lia|done].
    - cbn [pos]. f_equal. unfold sizearray. lia. }
  destruct k; try discriminate Hv; try (by apply Hgen). unfold findindex.
  destruct (Z.ltb_spec 0 (arrayindex n)) as [Hp|Hp];
    [destruct (Z.leb_spec (arrayindex n) (sizearray t)) as [Hle|Hgt]|]; cbn [andb].
  - assert (En : LNumber n = akey (arrayindex n)) by (unfold akey; f_equal; by apply arrayindex_pos).
    assert (Hs : slot_key t (ArraySlot (Z.to_nat (arrayindex n - 1))) (akey (arrayindex n))).
    { cbn. split; [lia|f_equal; lia]. }
    rewrite En in E.
    rewrite (slot_key_inj t s _ _ _ Hwf Hk Hs E). cbn [pos]. f_equal. lia.
  - apply Hgen. intros i Hi [= ->]. rewrite arrayindex_of_Z in Hgt by (unfold in_s; lia); lia.
  - apply Hgen. intros i Hi [= ->]. rewrite arrayindex_of_Z in Hp by (unfold in_s; lia); lia.
Qed.

Lemma findindex_absent t k :
  wf_table t -> valid_key k = true -> not_dead t k ->
  (forall s k', slot_key t s k' -> key_norm k' <> key_norm k) ->
  findindex str_addr t k = Throw (RunError "invalid key to 'next'").
Proof.
  intros Hwf Hv Hd Hno. pose proof (wt_asize _ Hwf) as Ha. rewrite MAXSIZE_eq in Ha.
  assert (Hnot : forall i, 1 <= i <= sizearray t -> k <> akey i).
  { intros i Hi ->. apply (Hno (ArraySlot (Z.to_nat (i - 1))) (akey i)); [|done].
    cbn. split; [lia|f_equal; lia]. }
  assert (Hgen : match find_node t (fun k0 => match k0 with
      | KLive k0 => luaO_rawequalKey k0 k
      | KDead gc => iscollectable k && (gc =? gcvalue str_addr k)
      end) (mainposition (lsizenode t) k) with
    | Some (NodeSlot i) => Ret (Z.of_nat i + sizearray t)
    | _ => Throw (RunError "invalid key to 'next'")
    end = Throw (RunError "invalid key to 'next'")).
  { rewrite find_live_or_dead by done. pose proof (get_generic_finds t k Hwf Hv Hnot) as Hf.
    destruct (get_generic t k) as [s|]; [|done]. destruct Hf as (k' & Hk & E).
    by destruct (Hno s k'). }
  destruct k; try done. unfold findindex.
  destruct (Z.ltb_spec 0 (arrayindex n)) as [Hp|Hp];
    [destruct (Z.leb_spec (arrayindex n) (sizearray t)) as [Hle|Hgt]|]; cbn [andb]; try done.
  exfalso. apply (Hnot (arrayindex n)); [lia|]. unfold akey. f_equal. by apply arrayindex_pos.
Qed.

(** ** One step *)

Definition pair_of (r : option (slot * TValue * TValue)) : option (TValue * TValue) :=
  match r with Some (_, k, v) => Some (k, v) | None => None end.

Lemma next_scan t k p :
  wf_table t -> findindex str_addr t k = Ret (Z.of_nat p - 1) ->
  luaH_next str_addr t k = Ret (pair_of (scan t p)).
Proof.
  intros Hwf Hf. unfold luaH_next. rewrite Hf. cbn [outcome_bind]. rewrite Z.sub_add, Nat2Z.id.
  unfold scan. destruct (scan_array _ _) as [[i v]|]; [done|].
  set (i := Z.max _ _ - _). pose proof (scan_nodes_spec i (drop (Z.to_nat i) (nodes_of t))) as Hn.
  destruct (scan_nodes _ _) as [[j n]|]; [|done]. destruct Hn as (j' & _ & Hj & Hv & _).
  rewrite lookup_drop in Hj. unfold getnodekey.
  by destruct (nodes_live t Hwf n) as [k' ->]; [by eapply list_elem_of_lookup_2|done|].
Qed.

Lemma rawiter_scan t p :
  wf_table t ->
  lua_rawiter t (Z.of_nat p) =
  Ret (match scan t p with
       | Some (s, k, v) => Some (Z.of_nat (S (pos t s)), k, v) | None => None end).
Proof.
  intros Hwf. unfold lua_rawiter, scan. rewrite Nat2Z.id.
  pose proof (scan_array_spec (Z.of_nat p) (drop p (array t))) as Ha.
  destruct (scan_array _ _) as [[i v]|].
  { destruct Ha as (j & -> & _). cbn [pos]. do 4 f_equal. lia. }
  set (i := Z.max _ _ - _). pose proof (scan_nodes_spec i (drop (Z.to_nat i) (nodes_of t))) as Hn.
  destruct (scan_nodes _ _) as [[j n]|]; [|done]. destruct Hn as (j' & -> & Hj & Hv & _).
  rewrite lookup_drop in Hj. unfold getnodekey.
  destruct (nodes_live t Hwf n) as [k' ->]; [by eapply list_elem_of_lookup_2|done|].
  cbn [outcome_bind pos]. do 4 f_equal. unfold i, sizearray. lia.
Qed.

(** One step of a traversal: after the key of any slot, its value being
    [nil] by now or not, [luaH_next] yields the first entry behind that slot, or
    the end; [nil] starts at the first entry; a key that the table has not is
    "invalid key to 'next'".  [lua_rawiter] yields the same entries. *)
Theorem next_step t k :
  wf_table t -> not_dead t k ->
  luaH_next str_addr t LNil = Ret (head (entries t)) /\
  (forall s k', slot_key t s k' -> key_norm k' = key_norm k -> valid_key k = true ->
     luaH_next str_addr t k = Ret (head (entries_from t (S (pos t s))))) /\
  ((forall s k', slot_key t s k' -> key_norm k' <> key_norm k) -> valid_key k = true ->
     luaH_next str_addr t k = Throw (RunError "invalid key to 'next'")) /\
  (forall p, exists q, lua_rawiter t (Z.of_nat p) =
     Ret (match head (entries_from t p) with Some (k, v) => Some (q, k, v) | None => None end)).
Proof.
  intros Hwf Hd.
  assert (Hhead : forall p, pair_of (scan t p) = head (entries_from t p)).
  { intros p. pose proof (scan_spec t p Hwf) as Hs. destruct (scan t p) as [[[s k'] v]|].
    - destruct Hs as (_ & _ & ->). done.
    - cbn in Hs. by rewrite Hs. }
  split_and!.
  - rewrite (next_scan t LNil 0 Hwf eq_refl), Hhead. done.
  - intros s k' Hk E Hv. rewrite (next_scan t k (S (pos t s)) Hwf), Hhead; [done|].
    rewrite (findindex_slot t k s k' Hwf Hv Hd Hk E). f_equal. lia.
  - intros Hno Hv. unfold luaH_next. by rewrite findindex_absent.
  - intros p. rewrite rawiter_scan, <- Hhead by done.
    destruct (scan t p) as [[[s k'] v]|]; [by eexists|by exists 0].
Qed.

(** ** A whole traversal *)

(** [for k, v in next, t do ... end], from the key [k]. *)
Fixpoint traverse (fuel : nat) (t : LuaTable) (k : TValue) : outcome (list (TValue * TValue)) :=
  match fuel with
  | O => Undefined "endless traversal"
  | S f =>
      r <- luaH_next str_addr t k ;;
      match r with
      | None => Ret []
      | Some (k, v) => l <- traverse f t k ;; Ret ((k, v) :: l)
      end
  end.

(** The loop over [lua_rawiter]. *)
Fixpoint raw_traverse (fuel : nat) (t : LuaTable) (iter : Z) : outcome (list (TValue * TValue)) :=
  match fuel with
  | O => Undefined "endless traversal"
  | S f =>
      r <- lua_rawiter t iter ;;
      match r with
      | None => Ret []
      | Some (iter, k, v) => l <- raw_traverse f t iter ;; Ret ((k, v) :: l)
      end
  end.

Lemma traverse_from t p k fuel :
  wf_table t -> live_apart t -> (length (entries_from t p) < fuel)%nat ->
  findindex str_addr t k = Ret (Z.of_nat p - 1) ->
  traverse fuel t k = Ret (entries_from t p).
Proof.
  intros Hwf Hd. revert p k. induction fuel as [|f IH]; intros p k Hf Hk; [lia|].
  cbn [traverse]. rewrite (next_scan t k p Hwf Hk). cbn [outcome_bind].
  pose proof (scan_spec t p Hwf) as Hs. destruct (scan t p) as [[[s k'] v]|]; cbn [pair_of].
  - destruct Hs as (Hs & _ & He). rewrite He in *. cbn [length] in Hf.
    rewrite (IH (S (pos t s)) k'); [done|lia|].
    rewrite (findindex_slot t k' s k' Hwf (slot_key_valid _ _ _ Hwf Hs) (Hd s k' Hs) Hs eq_refl).
    f_equal. lia.
  - cbn in Hs. by rewrite Hs.
Qed.

Lemma raw_traverse_from t p fuel :
  wf_table t -> (length (entries_from t p) < fuel)%nat ->
  raw_traverse fuel t (Z.of_nat p) = Ret (entries_from t p).
Proof.
  intros Hwf. revert p. induction fuel as [|f IH]; intros p Hf; [lia|].
  cbn [raw_traverse]. rewrite (rawiter_scan t p Hwf). cbn [outcome_bind].
  pose proof (scan_spec t p Hwf) as Hs. destruct (scan t p) as [[[s k'] v]|].
  - destruct Hs as (Hs & _ & He). rewrite He in *. cbn [length] in Hf.
    by rewrite IH by lia.
  - cbn in Hs. by rewrite Hs.
Qed.

Lemma entry_get t k v :
  wf_table t -> (k, v) ∈ entries t -> valid_key k = true /\ v <> LNil /\ get t k = v.
Proof.
  clear. intros Hwf Hin. pose proof (entries_not_nil _ _ _ Hin) as Hnv.
  apply holds_entries in Hin; [|done|done].
  assert (Hv : valid_key k = true) by (destruct Hin as (s & Hk & _); by eapply slot_key_valid).
  split; [done|]. split; [done|]. apply get_holds; [done|done|done|by exists k].
Qed.

Lemma get_entry t k :
  wf_table t -> valid_key k = true -> get t k <> LNil ->
  exists k', key_norm k' = key_norm k /\ (k', get t k) ∈ entries t.
Proof.
  clear. intros Hwf Hv Hne. destruct (proj1 (get_holds t k _ Hwf Hv Hne) eq_refl) as (k' & E & Hh).
  exists k'. split; [done|]. by apply holds_entries.
Qed.

Lemma get_norm t k k' :
  wf_table t -> valid_key k = true -> valid_key k' = true -> key_norm k = key_norm k' ->
  get t k = get t k'.
Proof.
  clear. intros Hwf Hv Hv' E.
  assert (Hone : forall x y, valid_key x = true -> valid_key y = true -> key_norm x = key_norm y ->
    get t x <> LNil -> get t y = get t x).
  { intros x y Hx Hy Exy Hne. apply get_holds; try done.
    destruct (get_entry t x Hwf Hx Hne) as (k2 & E2 & Hin).
    exists k2. split; [congruence|]. by apply holds_entries. }
  destruct (decide (get t k = LNil)) as [En|Hne]; [|by rewrite (Hone k k')].
  destruct (decide (get t k' = LNil)) as [En'|Hne']; [congruence|by apply Hone].
Qed.

(** ** Changes during a traversal *)

(** What may happen to a table between two steps: an assignment to a field that is
    present, which may be [nil]; an assignment of [nil] to a field that is empty; and the
    collector may forget the key of an empty node. *)
Inductive change : LuaTable -> LuaTable -> Prop :=
  | ch_assign t s k v : slot_key t s k -> (slot_value t s = LNil -> v = LNil) -> change t (setslot t s v)
  | ch_collect t i : change t (removeentry_at str_addr t i).

Definition changes : LuaTable -> LuaTable -> Prop := rtc change.

(** The loop whose body changes the table. *)
Fixpoint traverse_with (body : TValue -> TValue -> LuaTable -> LuaTable) (fuel : nat) (t : LuaTable) (k : TValue)
    : outcome (list (TValue * TValue) * LuaTable) :=
  match fuel with
  | O => Undefined "endless traversal"
  | S f =>
      r <- luaH_next str_addr t k ;;
      match r with
      | None => Ret ([], t)
      | Some (k, v) =>
          r <- traverse_with body f (body k v t) k ;;
          let '(l, t) := r in Ret ((k, v) :: l, t)
      end
  end.

(** Two different keys that are present have different addresses. *)
Definition addresses_differ (t : LuaTable) : Prop := forall s s' k k',
  slot_key t s k -> slot_key t s' k' -> iscollectable k = true -> iscollectable k' = true ->
  gcvalue str_addr k = gcvalue str_addr k' -> s = s'.

(** What the changes keep. *)
Record kept (t t' : LuaTable) : Prop := {
  kept_wf : wf_table t';
  kept_array : length (array t') = length (array t);
  kept_lsize : lsizenode t' = lsizenode t;
  kept_nodes : length (nodes_of t') = length (nodes_of t);
  kept_next : forall j, nnext (gnode (nodes_of t') j) = nnext (gnode (nodes_of t) j);
  kept_key : forall j, nkey (gnode (nodes_of t') j) = nkey (gnode (nodes_of t) j) \/
    exists k, live (nodes_of t) j k /\ iscollectable k = true /\
      nkey (gnode (nodes_of t') j) = KDead (gcvalue str_addr k);
  kept_nil : forall s, slot_value t s = LNil -> slot_value t' s = LNil;
}.

Lemma kept_live t t' j k : kept t t' -> live (nodes_of t') j k -> live (nodes_of t) j k.
Proof.
  intros Hk. unfold live. destruct (kept_key _ _ Hk j) as [->|(k' & _ & _ & ->)]; [done|]. done.
Qed.

Lemma kept_slot_key t t' s k : kept t t' -> slot_key t' s k -> slot_key t s k.
Proof.
  intros Hk. destruct s as [i|j]; cbn [slot_key]; [|by apply kept_live].
  unfold sizearray. by rewrite (kept_array _ _ Hk).
Qed.

Lemma kept_refl t : wf_table t -> kept t t.
Proof. intros Hwf. split; auto. Qed.

Lemma kept_trans t1 t2 t3 : kept t1 t2 -> kept t2 t3 -> kept t1 t3.
Proof.
  intros H1 H2. pose proof H1 as [_ A1 B1 C1 D1 E1 F1]. pose proof H2 as [W2 A2 B2 C2 D2 E2 F2].
  split; [done|congruence..| | |by auto].
  - intros j. by rewrite D2.
  - intros j. destruct (E2 j) as [->|(k & Hl & Hc & E)]; [apply E1|]. right. exists k.
    split; [by apply (kept_live t1 t2)|done].
Qed.

Lemma removeentry_at_facts t i :
  array (removeentry_at str_addr t i) = array t /\ lsizenode (removeentry_at str_addr t i) = lsizenode t /\
  lastfree (removeentry_at str_addr t i) = lastfree t /\
  length (nodes_of (removeentry_at str_addr t i)) = length (nodes_of t).
Proof.
  unfold removeentry_at. destruct (node t) as [ns|] eqn:E; [|done]. destruct (ttisnil _); [|done].
  unfold nodes_of. cbn. by rewrite E, length_insert.
Qed.

Lemma removeentry_node t i j :
  let n := gnode (nodes_of t) j in
  let n' := gnode (nodes_of (removeentry_at str_addr t i)) j in
  nval n' = nval n /\ nnext n' = nnext n /\
  (nkey n' = nkey n \/ nval n = LNil /\
     exists k, nkey n = KLive k /\ iscollectable k = true /\ nkey n' = KDead (gcvalue str_addr k)).
Proof.
  cbv zeta. unfold removeentry_at. destruct (node t) as [ns|] eqn:E; [|auto].
  destruct (ttisnil (nval (gnode ns i))) eqn:En; [|auto].
  unfold nodes_of. cbn. rewrite E. destruct (decide (i = j)) as [<-|Hne]; [|rewrite gnode_insert_ne by done; auto].
  destruct (Nat.lt_ge_cases i (length ns)) as [Hlt|Hge]; [|rewrite list_insert_ge by done; auto].
  rewrite gnode_insert_eq by done. unfold removeentry.
  destruct (nkey (gnode ns i)) as [k|] eqn:Ek; [|auto]. destruct (iscollectable k) eqn:Ec; [|auto]. cbn.
  split_and!; [done..|]. right. split; [by apply ttisnil_true|]. by exists k.
Qed.

Lemma removeentry_live t i j k :
  live (nodes_of (removeentry_at str_addr t i)) j k -> live (nodes_of t) j k.
Proof. unfold live. by destruct (removeentry_node t i j) as (_ & _ & [->|(_ & k' & _ & _ & ->)]). Qed.

Lemma removeentry_wf t i : wf_table t -> wf_table (removeentry_at str_addr t i).
Proof.
  intros Hwf. destruct (removeentry_at_facts t i) as (Ea & El & Ef & En).
  pose proof (removeentry_node t i) as Hs. pose proof (removeentry_live t i) as Hl. split.
  - unfold sizearray. rewrite Ea. apply (wt_asize _ Hwf).
  - pose proof (wt_node _ Hwf) as Hn. rewrite El, Ef. unfold nodes_of in En, Hs, Hl.
    unfold removeentry_at in *. destruct (node t) as [ns|] eqn:E; [|by rewrite E].
    destruct (ttisnil (nval (gnode ns i))); [|by rewrite E]. cbn in *.
    destruct Hn as (Hls & Hn & Hlf). rewrite En. split; [done|]. split; [|done].
    apply wf_nodes_weaken with ns; [done|done|..].
    + intros j. apply Hs.
    + intros j. destruct (Hs j) as (_ & _ & [->|(_ & k & Ek & Ec & ->)]); [done|]. rewrite Ek. by destruct k.
    + apply Hl.
    + intros j Hj. destruct (Hs j) as (Ev & _ & Hk). rewrite Ev in Hj.
      destruct (wf_val _ _ _ Hn j Hj) as [k Hk']. exists k. unfold live in *.
      by destruct Hk as [->|(Hv & _)].
  - unfold sizearray. rewrite Ea, Ef. apply (wt_boundary _ Hwf).
  - intros j k Hk Hlive. apply (wt_split _ Hwf j k); [|by apply Hl]. unfold sizearray in *. by rewrite Ea in Hk.
Qed.

Lemma change_kept t t' : wf_table t -> change t t' -> kept t t'.
Proof.
  intros Hwf Hc. destruct Hc as [t0 s k v Hs Hv|t0 i].
  - destruct (setslot_facts t0 s v) as (Ea & El & Ef & En). split; try done.
    + by apply setslot_wf with k.
    + unfold sizearray in Ea. lia.
    + intros j. destruct s as [i|i]; [done|]. apply (setslot_node t0 i v j).
    + intros j. left. destruct s as [i|i]; [done|]. apply (setslot_node t0 i v j).
    + intros s' E. rewrite (setslot_value _ _ _ _ _ Hs). case_decide as E'; [|done]. subst s'. by apply Hv.
  - destruct (removeentry_at_facts t0 i) as (Ea & El & Ef & En). split; try done.
    + by apply removeentry_wf.
    + by rewrite Ea.
    + intros j. apply (removeentry_node t0 i j).
    + intros j. destruct (removeentry_node t0 i j) as (_ & _ & [E|(_ & k & Ek & Ec & E)]); [by left|right].
      exists k. split; [|done]. unfold live. rewrite Ek. by destruct k.
    + intros [j|j]; cbn [slot_value]; [by rewrite Ea|]. by rewrite (proj1 (removeentry_node t0 i j)).
Qed.

Lemma changes_kept t t' : wf_table t -> changes t t' -> kept t t'.
Proof.
  intros Hwf Hc. induction Hc as [t|t t1 t2 H1 _ IH]; [by apply kept_refl|].
  pose proof (change_kept _ _ Hwf H1) as Hk. apply (kept_trans _ _ _ Hk), IH, (kept_wf _ _ Hk).
Qed.

(** ** The position of a key behind the changes *)

Lemma chain_find_kept fuel ns ns' p p' i :
  (forall j, nnext (gnode ns' j) = nnext (gnode ns j)) ->
  (forall j, p' (nkey (gnode ns' j)) = p (nkey (gnode ns j))) ->
  chain_find fuel ns' p' i = chain_find fuel ns p i.
Proof.
  intros En Ep. revert i. induction fuel as [|f IH]; intros i; cbn [chain_find]; [done|].
  unfold next_index. by rewrite Ep, En, IH.
Qed.

(** The key may be dead by now. *)
Lemma findindex_kept t t' s k :
  wf_table t -> live_apart t -> addresses_differ t -> kept t t' -> slot_key t s k ->
  findindex str_addr t' k = Ret (Z.of_nat (pos t s)).
Proof.
  intros Hwf Hd Ha Hk Hs. pose proof (slot_key_valid _ _ _ Hwf Hs) as Hv.
  rewrite <- (findindex_slot t k s k Hwf Hv (Hd s k Hs) Hs eq_refl).
  assert (Hf : find_node t' (fun k0 => match k0 with
      | KLive k0 => luaO_rawequalKey k0 k
      | KDead gc => iscollectable k && (gc =? gcvalue str_addr k)
      end) (mainposition (lsizenode t') k) =
    find_node t (fun k0 => match k0 with
      | KLive k0 => luaO_rawequalKey k0 k
      | KDead gc => iscollectable k && (gc =? gcvalue str_addr k)
      end) (mainposition (lsizenode t) k)).
  { unfold find_node. rewrite (kept_lsize _ _ Hk), (kept_nodes _ _ Hk).
    erewrite chain_find_kept; [done|apply (kept_next _ _ Hk)|]. intros j. cbn beta.
    destruct (kept_key _ _ Hk j) as [->|(k0 & Hl & Hc & ->)]; [done|].
    assert (nkey (gnode (nodes_of t) j) = KLive k0) as ->.
    { unfold live in Hl. destruct (nkey _) as [[]|]; try done; by injection Hl as <-. }
    pose proof (slot_key_valid t (NodeSlot j) k0 Hwf Hl) as Hv0. rewrite rawequalKey_norm by done.
    apply eq_true_iff_eq. rewrite bool_decide_eq_true, andb_true_iff, Z.eqb_eq. split.
    - intros [Hck E]. pose proof (Ha (NodeSlot j) s k0 k Hl Hs Hc Hck E) as <-.
      cbn [slot_key] in Hs. unfold live in *. congruence.
    - intros E. destruct k0; try done; destruct k; try done; by injection E as ->. }
  unfold findindex. rewrite Hf. unfold sizearray. by rewrite (kept_array _ _ Hk).
Qed.

(** ** The entries behind the changes *)

(** The entries of one position: one or none. *)
Definition entry_at (t : LuaTable) (p : nat) : list (TValue * TValue) :=
  match array t !! p with
  | Some v => if ttisnil v then [] else [(akey (Z.of_nat p + 1), v)]
  | None => match nodes_of t !! (p - length (array t))%nat with Some n => node_entry n | None => [] end
  end.

Lemma entries_step t p : entries_from t p = entry_at t p ++ entries_from t (S p).
Proof.
  unfold entries_from, entry_at. destruct (array t !! p) as [v|] eqn:Ev.
  - pose proof (lookup_lt_Some _ _ _ Ev) as Hlt. rewrite (drop_S _ _ _ Ev). cbn [array_entries].
    rewrite <- app_assoc. replace (Z.of_nat (S p)) with (Z.of_nat p + 1) by lia.
    by replace (S p - length (array t))%nat with (p - length (array t))%nat by lia.
  - apply lookup_ge_None in Ev. rewrite !drop_ge with (l := array t) by lia. cbn [array_entries app].
    replace (S p - length (array t))%nat with (S (p - length (array t))) by lia.
    destruct (nodes_of t !! _) as [n|] eqn:En; [by rewrite (drop_S _ _ _ En)|].
    apply lookup_ge_None in En. by rewrite !drop_ge by lia.
Qed.

(** A position that is empty stays empty, and a key does not change. *)
Lemma entry_at_kept t t' p : kept t t' -> (entry_at t' p).*1 `sublist_of` (entry_at t p).*1.
Proof.
  intros Hk. unfold entry_at. destruct (array t' !! p) as [v'|] eqn:E'.
  - destruct (lookup_lt_is_Some_2 (array t) p) as [v E].
    { rewrite <- (kept_array _ _ Hk). by eapply lookup_lt_Some. }
    rewrite E. pose proof (kept_nil _ _ Hk (ArraySlot p)) as Hn. cbn in Hn. rewrite E, E' in Hn. cbn in Hn.
    destruct v; try (destruct v'; cbn; first [apply sublist_nil_l|done]). by rewrite (Hn eq_refl).
  - assert (array t !! p = None) as ->.
    { apply lookup_ge_None. rewrite <- (kept_array _ _ Hk). by apply lookup_ge_None. }
    rewrite (kept_array _ _ Hk). set (j := (p - length (array t))%nat).
    destruct (nodes_of t' !! j) as [n'|] eqn:En'; [|apply sublist_nil_l].
    destruct (lookup_lt_is_Some_2 (nodes_of t) j) as [n En].
    { rewrite <- (kept_nodes _ _ Hk). by eapply lookup_lt_Some. }
    rewrite En. pose proof (kept_nil _ _ Hk (NodeSlot j)) as Hn. pose proof (kept_key _ _ Hk j) as Hkey.
    cbn in Hn. unfold gnode in *. rewrite En, En' in *. cbn in *. unfold node_entry.
    destruct (ttisnil (nval n')) eqn:Ev'; [apply sublist_nil_l|].
    destruct (ttisnil (nval n)) eqn:Ev.
    { apply ttisnil_true in Ev. rewrite (Hn Ev) in Ev'. done. }
    destruct Hkey as [->|(k & _ & _ & ->)]; [by destruct (nkey n)|apply sublist_nil_l].
Qed.

Lemma entries_between t t' p q : kept t t' -> (p <= q)%nat ->
  exists m m', entries_from t p = m ++ entries_from t q /\ entries_from t' p = m' ++ entries_from t' q /\
    m'.*1 `sublist_of` m.*1.
Proof.
  intros Hk Hpq. induction Hpq as [|q _ (m & m' & E & E' & Hs)]; [by exists [], []|].
  exists (m ++ entry_at t q), (m' ++ entry_at t' q). rewrite E, E', !(entries_step _ q), !app_assoc.
  split_and!; [done..|]. rewrite !fmap_app. by apply sublist_app; [|apply entry_at_kept].
Qed.

Lemma scan_after t p s k v : wf_table t -> scan t p = Some (s, k, v) -> (p <= pos t s)%nat.
Proof.
  intros Hwf Hs. pose proof (rawiter_scan t p Hwf) as Hr. rewrite Hs in Hr.
  unfold lua_rawiter in Hr. rewrite Nat2Z.id in Hr.
  pose proof (scan_array_spec (Z.of_nat p) (drop p (array t))) as Ha.
  destruct (scan_array _ _) as [[i w]|].
  { destruct Ha as (j & -> & _). injection Hr as Hr _ _. lia. }
  set (i := Z.max _ _ - _) in *. pose proof (scan_nodes_spec i (drop (Z.to_nat i) (nodes_of t))) as Hn.
  destruct (scan_nodes _ _) as [[j n]|]; [|done]. destruct Hn as (j' & -> & _).
  destruct (getnodekey n); cbn [outcome_bind] in Hr; try done. injection Hr as Hr _ _.
  unfold sizearray in *. lia.
Qed.

Lemma traverse_with_from body t :
  (forall k v t, wf_table t -> valid_key k = true -> changes t (body k v t)) ->
  wf_table t -> live_apart t -> addresses_differ t ->
  forall fuel p t1 k, kept t t1 -> (length (entries_from t p) < fuel)%nat ->
  findindex str_addr t1 k = Ret (Z.of_nat p - 1) ->
  exists l t2, traverse_with body fuel t1 k = Ret (l, t2) /\ changes t1 t2 /\
    l.*1 `sublist_of` (entries_from t p).*1 /\ (entries_from t2 p).*1 ⊆ l.*1.
Proof.
  intros Hbody Hwf Hd Ha. induction fuel as [|f IH]; intros p t1 k Hk1 Hf Hi; [lia|].
  pose proof (kept_wf _ _ Hk1) as Hwf1. cbn [traverse_with].
  rewrite (next_scan t1 k p Hwf1 Hi). cbn [outcome_bind].
  pose proof (scan_spec t1 p Hwf1) as Hs. destruct (scan t1 p) as [[[s k'] v]|] eqn:Es; cbn [pair_of].
  2:{ exists [], t1. split_and!; [done|apply rtc_refl|apply sublist_nil_l|]. cbn in Hs. by rewrite Hs. }
  destruct Hs as (Hs & _ & He). pose proof (scan_after _ _ _ _ _ Hwf1 Es) as Hp.
  pose proof (kept_slot_key _ _ _ _ Hk1 Hs) as Hs0. set (q := S (pos t1 s)) in *.
  assert (Eq : q = S (pos t s)) by (unfold q; destruct s; cbn; rewrite ?(kept_array _ _ Hk1); lia).
  set (t1' := body k' v t1). pose proof (Hbody k' v t1 Hwf1 (slot_key_valid _ _ _ Hwf Hs0)) as Hc. fold t1' in Hc.
  pose proof (changes_kept _ _ Hwf1 Hc) as Hk1'. pose proof (kept_trans _ _ _ Hk1 Hk1') as Hk.
  destruct (entries_between t t1 p q Hk1 ltac:(lia)) as (m & m1 & Em & Em1 & Hm).
  assert (m1 = [(k', v)]) as ->.
  { rewrite He in Em1. change (?x :: ?y) with ([x] ++ y) in Em1 at 1. by apply app_inv_tail in Em1. }
  pose proof (sublist_length _ _ Hm) as Hlm. rewrite !length_fmap in Hlm.
  destruct (IH q t1' k') as (l & t2 & -> & Hc2 & Hl & Hvis).
  - done.
  - rewrite Em, length_app in Hf. cbn in Hlm. lia.
  - rewrite (findindex_kept t t1' s k') by done. f_equal. lia.
  - cbn [outcome_bind]. exists ((k', v) :: l), t2. split; [done|].
    split; [by trans t1'|].
    pose proof (changes_kept _ _ (kept_wf _ _ Hk1') Hc2) as Hk2.
    pose proof (kept_trans _ _ _ Hk1' Hk2) as Hk12. split.
    + rewrite Em, fmap_app. change (((k', v) :: l).*1) with ([(k', v)].*1 ++ l.*1). by apply sublist_app.
    + destruct (entries_between t1 t2 p q Hk12 ltac:(lia)) as (x & y & Ex & Ey & Hxy).
      assert (x = [(k', v)]) as ->.
      { rewrite He in Ex. change (?a :: ?b) with ([a] ++ b) in Ex at 1. by apply app_inv_tail in Ex. }
      rewrite Ey, fmap_app. intros k2 [Hin|Hin]%elem_of_app; [|right; by apply Hvis].
      cbn. apply elem_of_cons. left. apply list_elem_of_singleton. by eapply sublist_subseteq.
Qed.

(** C27. A traversal visits every entry exactly once and ends: the loop over
    [luaH_next] from [nil], like the loop over [lua_rawiter] from 0, yields a list
    of pairs with pairwise different keys, and a pair is in the list when, and
    only when, the table has that value, not [nil], at that key.  The table may hold
    dead keys, if none of them has the address of a key that is present.

    When the body of the loop assigns to fields that are present, clears them, and the
    collector forgets keys of cleared fields, the one that was visited last included, the
    loop over [luaH_next] still ends without an error: it visits keys of the table in the
    same order, none twice, and among them every key that has a value in the end. *)
Theorem traversal_visits_all t :
  wf_table t -> live_apart t ->
  let l := entries t in
    (forall fuel, (length l < fuel)%nat ->
      traverse fuel t LNil = Ret l /\ raw_traverse fuel t 0 = Ret l) /\
    NoDup (norms l) /\
    (forall k v, (k, v) ∈ l -> v <> LNil /\ get t k = v) /\
    (forall k, valid_key k = true -> get t k <> LNil ->
       exists k', key_norm k' = key_norm k /\ (k', get t k) ∈ l) /\
    (addresses_differ t ->
     forall body, (forall k v t, wf_table t -> valid_key k = true -> changes t (body k v t)) ->
     forall fuel, (length l < fuel)%nat ->
       exists l' t', traverse_with body fuel t LNil = Ret (l', t') /\ wf_table t' /\
         l'.*1 `sublist_of` l.*1 /\
         forall k, valid_key k = true -> get t' k <> LNil ->
           exists k', key_norm k' = key_norm k /\ k' ∈ l'.*1).
Proof.
  intros Hwf Hd l. unfold l. split_and!.
  - intros fuel Hf. rewrite <- entries_from_0 in *. split.
    + by apply traverse_from.
    + by apply (raw_traverse_from t 0).
  - by apply entries_NoDup.
  - intros k v Hin. by apply entry_get in Hin as (_ & ? & ?).
  - intros k. by apply get_entry.
  - intros Ha body Hbody fuel Hf.
    destruct (traverse_with_from body t Hbody Hwf Hd Ha fuel 0 t LNil) as (l' & t' & E & Hc & Hl & Hv);
      [by apply kept_refl|done|done|].
    pose proof (kept_wf _ _ (changes_kept _ _ Hwf Hc)) as Hwf'. exists l', t'. split_and!; try done.
    intros k Hk Hne. destruct (get_entry t' k Hwf' Hk Hne) as (k' & Ek & Hin). exists k'. split; [done|].
    apply Hv. rewrite entries_from_0. apply list_elem_of_fmap. by exists (k', get t' k).
Qed.
End Traversal.

(** * Witnesses *)

#[local] Existing Instance sample_vec.

Lemma getn_is_border_witness : exists t' n,
  luaH_getn sample_table = Ret (t', n) /\ n = 4 /\ get sample_table (akey 5) = LNil /\ wf_table t'.
Proof.
  destruct (getn_is_border sample_table sample_table_wf) as (t' & n & E & _ & _ & Hn & Hwf & _).
  exists t', n. split; [exact E|]. assert (n = 4) as ->.
  { vm_compute in E. congruence. }
  split; [reflexivity|]. split; [exact Hn|exact Hwf].
Defined.

(** A test of the addresses of the keys, dead or alive. *)
Definition key_addr (addr : list Z -> Z) (k : TKey) : option Z :=
  match k with
  | KLive k => if iscollectable k then Some (gcvalue addr k) else None
  | KDead gc => Some gc
  end.

Definition addresses_ok (addr : list Z -> Z) (t : LuaTable) : bool :=
  let ns := nodes_of t in
  forallb (fun i => forallb (fun j =>
    bool_decide (i = j) || match key_addr addr (nkey (gnode ns i)), key_addr addr (nkey (gnode ns j)) with
    | Some a, Some b => negb (a =? b)
    | _, _ => true
    end) (seq 0 (length ns))) (seq 0 (length ns)).

Section Addresses.
Context `{VecSize, Target} (addr : list Z -> Z).

Lemma addresses_ok_spec t i j a :
  addresses_ok addr t = true -> (i < length (nodes_of t))%nat -> (j < length (nodes_of t))%nat ->
  key_addr addr (nkey (gnode (nodes_of t) i)) = Some a ->
  key_addr addr (nkey (gnode (nodes_of t) j)) = Some a -> i = j.
Proof.
  unfold addresses_ok. intros Hok Hi Hj Ei Ej. rewrite forallb_forall in Hok.
  specialize (Hok i ltac:(apply in_seq; lia)). rewrite forallb_forall in Hok.
  specialize (Hok j ltac:(apply in_seq; lia)). rewrite Ei, Ej, Z.eqb_refl in Hok.
  apply orb_true_iff in Hok as [Hok|Hok]; [by apply bool_decide_eq_true in Hok|done].
Qed.

Lemma live_gnode t j k : live (nodes_of t) j k ->
  (j < length (nodes_of t))%nat /\ nkey (gnode (nodes_of t) j) = KLive k.
Proof.
  unfold live. intros Hl. split.
  - unfold gnode in Hl. destruct (nodes_of t !! j) eqn:E; [by eapply lookup_lt_Some|done].
  - destruct (nkey _) as [[]|]; try done; by injection Hl as <-.
Qed.

Lemma slot_key_collectable t s k : slot_key t s k -> iscollectable k = true ->
  exists j, s = NodeSlot j /\ live (nodes_of t) j k.
Proof. destruct s as [i|j]; [by intros [_ ->]|]. intros Hl _. by exists j. Qed.

Lemma addresses_ok_sound t : addresses_ok addr t = true -> live_apart addr t /\ addresses_differ addr t.
Proof.
  intros Hok. split.
  - intros s k Hs n Hn Hc E. destruct (slot_key_collectable t s k Hs Hc) as (j & -> & Hl).
    apply live_gnode in Hl as [Hj Ek]. apply list_elem_of_lookup_1 in Hn as [i Ei].
    assert (Hg : gnode (nodes_of t) i = n) by (unfold gnode; by rewrite Ei).
    pose proof (lookup_lt_Some _ _ _ Ei) as Hi.
    assert (i = j) as ->.
    { apply (addresses_ok_spec t i j (gcvalue addr k)); try done; [by rewrite Hg, E|].
      rewrite Ek. cbn. by rewrite Hc. }
    rewrite Hg, E in Ek. done.
  - intros s s' k k' Hs Hs' Hc Hc' E. destruct (slot_key_collectable t s k Hs Hc) as (i & -> & Hl).
    destruct (slot_key_collectable t s' k' Hs' Hc') as (j & -> & Hl'). f_equal.
    apply live_gnode in Hl as [Hi Ek]. apply live_gnode in Hl' as [Hj Ek'].
    apply (addresses_ok_spec t i j (gcvalue addr k)); try done; rewrite ?Ek, ?Ek'; cbn;
      [by rewrite Hc|by rewrite Hc', E].
Qed.

(** The collector goes over all nodes. *)
Definition collect_nodes (t : LuaTable) : LuaTable :=
  fold_left (removeentry_at addr) (seq 0 (length (nodes_of t))) t.

(** [t[k] = nil], and the collector runs. *)
Definition clear_and_collect (k v : TValue) (t : LuaTable) : LuaTable :=
  collect_nodes (match luaH_get t k with Some s => setslot t s LNil | None => t end).

Lemma clear_and_collect_changes k v t :
  wf_table t -> valid_key k = true -> changes addr t (clear_and_collect k v t).
Proof.
  intros Hwf Hv. unfold clear_and_collect, collect_nodes.
  assert (Hf : forall js t', changes addr t' (fold_left (removeentry_at addr) js t')).
  { intros js. induction js as [|i js IH]; intros t'; cbn; [apply rtc_refl|].
    eapply rtc_l; [apply ch_collect|apply IH]. }
  destruct (luaH_get t k) as [s|] eqn:E; [|apply Hf].
  apply luaH_get_iff in E as (k' & Hs & _); [|done|done].
  eapply rtc_l; [by apply ch_assign with (k := k')|apply Hf].
Qed.
End Addresses.

Lemma sample_live_apart : live_apart (fun _ => 0) sample_table.
Proof. apply (addresses_ok_sound (fun _ => 0)). vm_compute. reflexivity. Qed.

Lemma sample_not_dead : not_dead (fun _ => 0) sample_table (LInteger 4).
Proof. by intros n Hn. Qed.

(** A table with a dead key: the strings "a", "b", "c" and the index 1; "a" is cleared and
    collected. *)
Definition first_byte (s : list Z) : Z := hd 0 s.

Definition letters : LuaTable :=
  match (t <- luaH_new 0 4 ;; run_ops t [OpSetStr [97] (LInteger 1); OpSetStr [98] (LInteger 2);
           OpSetStr [99] (LInteger 3); OpSetNum 1 (LBoolean true)]) with
  | Ret (t, _) => t | _ => empty_table end.

Lemma letters_wf : wf_table letters.
Proof.
  unfold letters. destruct (luaH_new_spec 0 4 ltac:(done) ltac:(done)) as (t & -> & Hwf & He & _).
  cbn [outcome_bind].
  assert (Hi : implements t (fun _ => LNil)) by (split; [done|]; intros k; by apply get_empty).
  set (ops := [_; _; _; _]).
  pose proof (ops_implement ops t _ Hi ltac:(repeat constructor; done)) as Hr.
  destruct (run_ops t ops) as [[t' outs]|e|w]; [|exact empty_table_wf|exact empty_table_wf].
  apply Hr.
Qed.

Definition dead_table : LuaTable := clear_and_collect first_byte (LString [97]) LNil letters.

Lemma dead_table_wf : wf_table dead_table.
Proof.
  apply (kept_wf first_byte letters), (changes_kept first_byte); [apply letters_wf|].
  by apply clear_and_collect_changes; [apply letters_wf|].
Qed.

Lemma next_step_witness :
  luaH_next (fun _ => 0) sample_table LNil = Ret (Some (akey 1, LBoolean true)) /\
  luaH_next (fun _ => 0) sample_table (LInteger 4)
  = Throw (RunError "invalid key to 'next'").
Proof.
  destruct (next_step (fun _ => 0) sample_table (LInteger 4) sample_table_wf
    sample_not_dead) as (Hn & _ & Ha & _).
  split; [rewrite Hn; vm_compute; reflexivity|]. apply Ha; [|reflexivity].
  pose proof (luaH_get_finds sample_table (LInteger 4) sample_table_wf eq_refl) as Hx.
  replace (luaH_get sample_table (LInteger 4)) with (@None slot) in Hx by (vm_compute; reflexivity).
  exact Hx.
Defined.

(** The traversal of a table with a dead key whose body clears every field that it visits. *)
Lemma traversal_visits_all_witness :
  traverse (fun _ => 0) 8 sample_table LNil = Ret (entries sample_table) /\
  length (entries sample_table) = 7%nat /\
  raw_traverse 4 dead_table 0 = Ret (entries dead_table) /\
  existsb (fun n => match nkey n with KDead _ => true | _ => false end) (nodes_of dead_table) = true /\
  exists l t', traverse_with first_byte (clear_and_collect first_byte) 4 dead_table LNil = Ret (l, t') /\
    l = entries dead_table /\ length l = 3%nat /\ wf_table t' /\ entries t' = [].
Proof.
  destruct (traversal_visits_all (fun _ => 0) sample_table sample_table_wf sample_live_apart) as (Hs & _).
  destruct (addresses_ok_sound first_byte dead_table ltac:(vm_compute; reflexivity)) as [Hd Ha].
  destruct (traversal_visits_all first_byte dead_table dead_table_wf Hd) as (Hl & _ & _ & _ & Hc).
  assert (Hn : length (entries sample_table) = 7%nat) by (vm_compute; reflexivity).
  assert (Hn' : length (entries dead_table) = 3%nat) by (vm_compute; reflexivity).
  split; [apply (Hs 8%nat); rewrite Hn; lia|]. split; [exact Hn|].
  split; [apply (Hl 4%nat); rewrite Hn'; lia|]. split; [vm_compute; reflexivity|].
  destruct (Hc Ha (clear_and_collect first_byte) (clear_and_collect_changes first_byte) 4%nat ltac:(rewrite Hn'; lia))
    as (l & t' & E & Hwf & _).
  exists l, t'. split; [exact E|]. vm_compute in E. injection E as E1 E2.
  split; [rewrite <- E1; vm_compute; reflexivity|]. split; [rewrite <- E1; reflexivity|].
  split; [exact Hwf|]. rewrite <- E2. vm_compute. reflexivity.
Defined.
