(* ===== verification/Sort.v ===== *)
(** [table.sort], [VM/src/ltablib.cpp]: introspective quicksort with a fall back
    to heapsort.

    The comparison may be a Lua function or a metamethod, which may do anything:
    change the table that is being sorted, raise an error, keep state.  A
    routine is a function of the state - the table and the rest of the world -
    that returns an outcome with the state it leaves, after an error too.  An
    access outside of the array is [Undefined].

    The heap siftdown and the scans take the length of the range as fuel, the
    loop of [sort_rec] one trip more than the range has elements; the recursion
    takes [depth] levels.  The file [SortSpec.v] shows that this is enough, and
    that [log2 n + 1] levels are. *)
From S2P Require Import Prelude Word Double LuaApi Tm Arith Compare Key TableNode Table.
Open Scope Z_scope.

Section Sort.
Context `{VecSize, Target}.

(** The world outside of the table. *)
Variable W : Type.

Record sort_state := { st_table : LuaTable; st_world : W }.

Definition set_table (t : LuaTable) (s : sort_state) : sort_state :=
  {| st_table := t; st_world := st_world s |}.

(** * Routines with state *)

Definition M (A : Type) : Type := sort_state -> outcome A * sort_state.

Definition ret {A} (a : A) : M A := fun s => (Ret a, s).
Definition lift {A} (o : outcome A) : M A := fun s => (o, s).
Definition bind {A B} (m : M A) (f : A -> M B) : M B := fun s =>
  match m s with
  | (Ret a, s) => f a s
  | (Throw e, s) => (Throw e, s)
  | (Undefined w, s) => (Undefined w, s)
  end.

#[local] Notation "'let*' x := m 'in' k" := (bind m (fun x => k))
  (at level 200, x pattern, m at level 100, k at level 200).
#[local] Notation "'do*' m 'in' k" := (bind m (fun _ => k))
  (at level 200, m at level 100, k at level 200).

Definition t_sizearray : M Z := fun s => (Ret (sizearray (st_table s)), s).

(** [arr[i]] *)
Definition arr_get (i : Z) : M TValue := fun s =>
  (read_array (st_table s) i Ret, s).

(** [setobj2t(L, &arr[i], v)] *)
Definition arr_set (i : Z) (v : TValue) : M unit := fun s =>
  let t := st_table s in
  if (0 <=? i) && (i <? sizearray t) then (Ret tt, set_table (setslot t (ArraySlot (Z.to_nat i)) v) s)
  else (Undefined "write outside of the array", s).

(** * The comparison *)

Definition SortPredicate : Type := TValue -> TValue -> M bool.

(** A call of a Lua function, and what the machine reads of the objects of the
    world. *)
Variable call : TValue -> list TValue -> M TValue.
Variable objects : sort_state -> heap.

(** [sort_func] for the function at [L->base[1]] *)
Definition sort_func (f : TValue) : SortPredicate := fun l r =>
  let* v := call f [l; r] in ret (negb (l_isfalse v)).

(** [luaV_lessthan] as a predicate: its metamethods are called. *)
Definition sort_lessthan : SortPredicate := fun l r s =>
  match luaV_lessthan (objects s) l r with
  | Ret (Done b) => (Ret b, s)
  | Ret (CallTM f args k) => bind (call f args) (fun v => ret (k v)) s
  | Throw e => (Throw e, s)
  | Undefined w => (Undefined w, s)
  end.

Section Algorithm.
Variable pred : SortPredicate.

Definition sort_swap (i j : Z) : M unit :=
  let* temp := arr_get i in
  let* v := arr_get j in
  do* arr_set i v in
  arr_set j temp.

Definition sort_less (i j : Z) : M bool :=
  let* n := t_sizearray in
  let* l := arr_get i in
  let* r := arr_get j in
  let* res := pred l r in
  let* n' := t_sizearray in
  if negb (n' =? n) then lift (luaL_error "table modified during sorting") else ret res.

(** * Heapsort *)

(** The loop over the elements with two children; the result is the root it
    stops at. *)
Fixpoint sift_loop (fuel : nat) (l count root : Z) : M Z :=
  match fuel with
  | O => lift (Undefined "endless sift")
  | S f =>
      if root * 2 + 2 <? count then
        let left := root * 2 + 1 in
        let right := root * 2 + 2 in
        let next := root in
        let* b := sort_less (l + next) (l + left) in
        let next := if b : bool then left else next in
        let* b := sort_less (l + next) (l + right) in
        let next := if b : bool then right else next in
        if next =? root then ret root
        else
          do* sort_swap (l + root) (l + next) in
          sift_loop f l count next
      else ret root
  end.

Definition sort_siftheap (l u root : Z) : M unit :=
  let count := u - l + 1 in
  let* root := sift_loop (S (Z.to_nat count)) l count root in
  let lastleft := root * 2 + 1 in
  if lastleft =? count - 1 then
    let* b := sort_less (l + root) (l + lastleft) in
    if b : bool then sort_swap (l + root) (l + lastleft) else ret tt
  else ret tt.

(** The first loop of [sort_heap] for [i = n - 1, ..., 0]. *)
Fixpoint heap_build (n : nat) (l u : Z) : M unit :=
  match n with
  | O => ret tt
  | S i => do* sort_siftheap l u (Z.of_nat i) in heap_build i l u
  end.

(** The second loop for [i = n, ..., 1]. *)
Fixpoint heap_drain (n : nat) (l : Z) : M unit :=
  match n with
  | O => ret tt
  | S m =>
      let i := Z.of_nat n in
      do* sort_swap l (l + i) in
      do* sort_siftheap l (l + i - 1) 0 in
      heap_drain m l
  end.

Definition sort_heap (l u : Z) : M unit :=
  let count := u - l + 1 in
  do* heap_build (Z.to_nat (Z.quot count 2)) l u in
  heap_drain (Z.to_nat (count - 1)) l.

(** * Quicksort *)

Definition invalid_order {A} : M A := lift (luaL_error "invalid order function for sorting").

(** [while (sort_less(L, t, ++i, p, pred))]; the result is [i] behind the loop. *)
Fixpoint scan_up (fuel : nat) (u p i : Z) : M Z :=
  match fuel with
  | O => lift (Undefined "endless scan")
  | S f =>
      let i := i + 1 in
      let* b := sort_less i p in
      if b : bool then if u <=? i then invalid_order else scan_up f u p i
      else ret i
  end.

(** [while (sort_less(L, t, p, --j, pred))] *)
Fixpoint scan_down (fuel : nat) (l p j : Z) : M Z :=
  match fuel with
  | O => lift (Undefined "endless scan")
  | S f =>
      let j := j - 1 in
      let* b := sort_less p j in
      if b : bool then if j <=? l then invalid_order else scan_down f l p j
      else ret j
  end.

(** The loop [for (;;)]: the index where the pivot goes. *)
Fixpoint partition (fuel : nat) (l u p i j : Z) : M Z :=
  match fuel with
  | O => lift (Undefined "endless partition")
  | S f =>
      let* i := scan_up (Z.to_nat (u - l + 1)) u p i in
      let* j := scan_down (Z.to_nat (u - l + 1)) l p j in
      if j <? i then ret i
      else
        do* sort_swap i j in
        partition f l u p i j
  end.

(** The sort of [a[l]], [a[m]] and [a[u]], with its early exits for two and
    three elements: whether there are more. *)
Definition sort_three (l u : Z) : M bool :=
  let* b := sort_less u l in
  do* (if b : bool then sort_swap u l else ret tt) in
  if u - l =? 1 then ret false
  else
    let m := l + Z.shiftr (u - l) 1 in
    let* b := sort_less m l in
    do* (if b : bool then sort_swap m l
         else
           let* b := sort_less u m in
           if b : bool then sort_swap m u else ret tt) in
    ret (negb (u - l =? 2)).

(** The new limit of the recursion. *)
Definition next_limit (limit : Z) : Z := Z.shiftr limit 1 + Z.shiftr limit 2.

(** One trip of the loop of [sort_rec]: [rec] sorts the smaller half, [next] is
    the following trip. *)
Definition sort_trip (rec next : Z -> Z -> Z -> M unit) (l u limit : Z) : M unit :=
  if l <? u then
    if limit =? 0 then sort_heap l u
    else
      let* more := sort_three l u in
      if negb more then ret tt
      else
        let m := l + Z.shiftr (u - l) 1 in
        let p := u - 1 in
        do* sort_swap m (u - 1) in
        let* i := partition (Z.to_nat (u - l)) l u p l (u - 1) in
        do* sort_swap p i in
        let limit := next_limit limit in
        if i - l <? u - i then
          do* rec l (i - 1) limit in next (i + 1) u limit
        else
          do* rec (i + 1) u limit in next l (i - 1) limit
  else ret tt.

Fixpoint sort_loop (rec : Z -> Z -> Z -> M unit) (fuel : nat) (l u limit : Z) : M unit :=
  match fuel with
  | O => lift (Undefined "endless sort")
  | S f => sort_trip rec (sort_loop rec f) l u limit
  end.

(** [depth] bounds the levels of the recursion. *)
Fixpoint sort_rec (depth : nat) (l u limit : Z) : M unit :=
  match depth with
  | O => lift (Undefined "recursion of sort_rec")
  | S d => sort_loop (sort_rec d) (S (Z.to_nat (u - l))) l u limit
  end.
End Algorithm.

(** * The library function *)

(** [luaH_getn] on the table of the state *)
Definition t_getn : M Z := fun s =>
  match luaH_getn (st_table s) with
  | Ret (t, n) => (Ret n, set_table t s)
  | Throw e => (Throw e, s)
  | Undefined w => (Undefined w, s)
  end.

Definition t_readonly : M bool := fun s => (Ret (readonly (st_table s)), s).

Definition luaL_checktable (args : list TValue) (narg : Z) : outcome unit :=
  match index2addr args narg with Some (LTable _) => Ret tt | _ => tag_error narg "table" end.

Definition luaL_checkfunction (args : list TValue) (narg : Z) : outcome TValue :=
  match index2addr args narg with
  | Some (LFunction f) => Ret (LFunction f)
  | _ => tag_error narg "function"
  end.

Definition luaG_readonlyerror {A} : outcome A := luaL_error "attempt to modify a readonly table".

(** The number of levels that [tsort] needs. *)
Definition sort_depth (n : Z) : nat := Z.to_nat (Z.log2 n + 1).

(** The table of the state is the first argument. *)
Definition tsort (args : list TValue) : M (list TValue) :=
  do* lift (luaL_checktable args 1) in
  let* n := t_getn in
  let* ro := t_readonly in
  do* (if ro : bool then lift luaG_readonlyerror else ret tt) in
  let* pred := (if negb (lua_isnoneornil args 2) then
                  let* f := lift (luaL_checkfunction args 2) in ret (sort_func f)
                else ret sort_lessthan) in
  do* (if 0 <? n then sort_rec pred (sort_depth n) 0 (n - 1) n else ret tt) in
  ret [].
End Sort.
