(* ===== verification/SortSpec.v ===== *)
(** Sorting, [Sort.v]: it stays inside the array whatever the comparison does,
    it permutes the elements, it ends, and under a strict weak order it sorts. *)
From stdpp Require Import sorting relations.
From S2P Require Import Prelude Word Double LuaApi Tm Arith Compare Key TableNode Table.
From S2P Require Import TableSpec TableIter Sort.
Open Scope Z_scope.

(** * Weakest preconditions *)

Section Wp.
Context {W : Type}.

(** [m] does not run into undefined behaviour from [s]; [Q] holds of what it
    returns and leaves, [E] of the error it raises and what that leaves. *)
Definition wp {A} (m : M W A) (Q : A -> sort_state W -> Prop)
    (E : lua_error -> sort_state W -> Prop) (s : sort_state W) : Prop :=
  match m s with
  | (Ret a, s') => Q a s'
  | (Throw e, s') => E e s'
  | (Undefined _, _) => False
  end.

Lemma wp_bind {A B} (m : M W A) (f : A -> M W B) Q E s :
  wp m (fun a => wp (f a) Q E) E s -> wp (bind W m f) Q E s.
Proof. unfold wp, bind. by destruct (m s) as [[a|e|w] s']. Qed.

Lemma wp_ret {A} (a : A) (Q : A -> sort_state W -> Prop) E s : Q a s -> wp (ret W a) Q E s.
Proof. done. Qed.

Lemma wp_mono {A} (m : M W A) (Q Q' : A -> sort_state W -> Prop) (E E' : lua_error -> _ -> Prop) s :
  (forall a s', Q a s' -> Q' a s') -> (forall e s', E e s' -> E' e s') ->
  wp m Q E s -> wp m Q' E' s.
Proof. unfold wp. intros HQ HE. destruct (m s) as [[a|e|w] s']; auto. Qed.

Lemma wp_conseq {A} (m : M W A) (Q Q' : A -> sort_state W -> Prop) E s :
  wp m Q E s -> (forall a s', Q a s' -> Q' a s') -> wp m Q' E s.
Proof. intros Hm HQ. by eapply wp_mono; [exact HQ| |exact Hm]. Qed.
End Wp.

Create HintDb wp discriminated.
#[export] Hint Resolve wp_ret : wp.

(** * Whatever the comparison does *)

(** The indices of a range are in the larger range [lo .. hi], over which
    comparisons and swaps keep the invariant [I]. *)
Section Invariant.
Context {W : Type} (pred : SortPredicate W) (I : sort_state W -> Prop).
Context (E : lua_error -> sort_state W -> Prop) (lo hi : Z).
Context (less_keeps : forall i j s, lo <= i <= hi -> lo <= j <= hi -> I s ->
  wp (sort_less W pred i j) (fun _ => I) E s).
Context (swap_keeps : forall i j s, lo <= i <= hi -> lo <= j <= hi -> I s ->
  wp (sort_swap W i j) (fun _ => I) E s).
Context (invalid_raises : forall s, I s ->
  E (RunError "invalid order function for sorting") s).

(** Execute the next comparison or swap. *)
Ltac step :=
  apply wp_bind; eapply wp_conseq; [first [apply less_keeps|apply swap_keeps]; try lia; done|];
  cbv beta; intros.

Lemma sift_loop_keeps fuel l count root s :
  lo <= l -> l + count - 1 <= hi -> 0 <= root < count -> (Z.to_nat (count - root) < fuel)%nat ->
  I s -> wp (sift_loop W pred fuel l count root) (fun r s' => 0 <= r < count /\ I s') E s.
Proof.
  intros Hl Hu. revert root s. induction fuel as [|f IH]; intros root s Hr Hf Hs; [lia|].
  cbn [sift_loop]. destruct (Z.ltb_spec (root * 2 + 2) count) as [Hc|Hc]; [|by apply wp_ret].
  step. set (n1 := if _ : bool then _ else root).
  assert (Hn1 : n1 = root \/ n1 = root * 2 + 1) by (subst n1; case_match; auto).
  step. set (n2 := if _ : bool then _ else n1).
  assert (Hn2 : n2 = root \/ root < n2 <= root * 2 + 2)
    by (subst n2; case_match; [right; lia|destruct Hn1 as [->| ->]; [by left|right; lia]]).
  clearbody n1 n2. destruct (Z.eqb_spec n2 root) as [->|Hne]; [by apply wp_ret|].
  step. apply IH; [lia|lia|done].
Qed.

Lemma siftheap_keeps l u root s :
  lo <= l -> u <= hi -> 0 <= root <= u - l -> I s ->
  wp (sort_siftheap W pred l u root) (fun _ => I) E s.
Proof.
  intros Hl Hu Hr Hs. unfold sort_siftheap. apply wp_bind. eapply wp_conseq.
  { apply sift_loop_keeps; try lia; done. }
  cbv beta. intros r s1 [Hr1 Hs1]. destruct (Z.eqb_spec (r * 2 + 1) (u - l + 1 - 1)); [|by apply wp_ret].
  step. case_match; [|by apply wp_ret]. apply swap_keeps; try lia; done.
Qed.

Lemma heap_build_keeps n l u s :
  lo <= l -> u <= hi -> Z.of_nat n <= u - l + 1 -> I s ->
  wp (heap_build W pred n l u) (fun _ => I) E s.
Proof.
  intros Hl Hu. revert s. induction n as [|n IH]; intros s Hn Hs; [by apply wp_ret|].
  cbn [heap_build]. apply wp_bind. eapply wp_conseq.
  { apply siftheap_keeps; try lia; done. }
  cbv beta. intros _ s1 Hs1. apply IH; [lia|done].
Qed.

Lemma heap_drain_keeps n l s :
  lo <= l -> l + Z.of_nat n <= hi -> I s ->
  wp (heap_drain W pred n l) (fun _ => I) E s.
Proof.
  intros Hl. revert s. induction n as [|n IH]; intros s Hn Hs; [by apply wp_ret|].
  cbn [heap_drain]. step. apply wp_bind. eapply wp_conseq.
  { apply siftheap_keeps; try lia; done. }
  cbv beta. intros _ s2 Hs2. apply IH; [lia|done].
Qed.

Lemma sort_heap_keeps l u s :
  lo <= l -> u <= hi -> l <= u -> I s -> wp (sort_heap W pred l u) (fun _ => I) E s.
Proof.
  intros Hl Hu Hlu Hs. unfold sort_heap.
  assert (0 <= Z.quot (u - l + 1) 2 <= u - l + 1).
  { rewrite Z.quot_div_nonneg by lia. split; [apply Z.div_pos; lia|].
    apply Z.div_le_upper_bound; lia. }
  apply wp_bind. eapply wp_conseq; [apply heap_build_keeps; try lia; done|].
  cbv beta. intros _ s1 Hs1. apply heap_drain_keeps; try lia. done.
Qed.

Lemma scan_up_keeps fuel u p i s :
  lo <= p <= hi -> u <= hi -> lo <= i + 1 <= u -> (Z.to_nat (u - i) <= fuel)%nat -> I s ->
  wp (scan_up W pred fuel u p i) (fun r s' => i < r <= u /\ I s') E s.
Proof.
  intros Hp Hu. revert i s. induction fuel as [|f IH]; intros i s Hi Hf Hs; [lia|].
  cbn [scan_up]. step. case_match; [|apply wp_ret; split; [lia|done]].
  destruct (Z.leb_spec u (i + 1)); [by apply invalid_raises|].
  eapply wp_conseq; [apply IH; try lia; done|]. cbv beta. intros r s2 [??]. split; [lia|done].
Qed.

Lemma scan_down_keeps fuel l p j s :
  lo <= p <= hi -> lo <= l -> l <= j - 1 <= hi -> (Z.to_nat (j - l) <= fuel)%nat -> I s ->
  wp (scan_down W pred fuel l p j) (fun r s' => l <= r < j /\ I s') E s.
Proof.
  intros Hp Hl. revert j s. induction fuel as [|f IH]; intros j s Hj Hf Hs; [lia|].
  cbn [scan_down]. step. case_match; [|apply wp_ret; split; [lia|done]].
  destruct (Z.leb_spec (j - 1) l); [by apply invalid_raises|].
  eapply wp_conseq; [apply IH; try lia; done|]. cbv beta. intros r s2 [??]. split; [lia|done].
Qed.

Lemma partition_keeps fuel l u p i j s :
  lo <= l -> u <= hi -> lo <= p <= hi -> l <= i < u -> l < j < u ->
  (Z.to_nat (u - i) <= fuel)%nat -> I s ->
  wp (partition W pred fuel l u p i j) (fun r s' => l < r <= u /\ I s') E s.
Proof.
  intros Hl Hu Hp. revert i j s. induction fuel as [|f IH]; intros i j s Hi Hj Hf Hs; [lia|].
  cbn [partition]. apply wp_bind. eapply wp_conseq; [apply scan_up_keeps; try lia; done|].
  cbv beta. intros i1 s1 [Hi1 Hs1]. apply wp_bind.
  eapply wp_conseq; [apply scan_down_keeps; try lia; done|].
  cbv beta. intros j1 s2 [Hj1 Hs2]. destruct (Z.ltb_spec j1 i1); [apply wp_ret; split; [lia|done]|].
  step. apply IH; try lia. done.
Qed.

Lemma sort_three_keeps l u s :
  lo <= l -> u <= hi -> l < u -> I s ->
  wp (sort_three W pred l u) (fun more s' => (more = true -> 3 <= u - l) /\ I s') E s.
Proof.
  intros Hl Hu Hlu Hs. unfold sort_three.
  assert (Hm : l <= l + Z.shiftr (u - l) 1 <= u).
  { rewrite Z.shiftr_div_pow2 by lia. change (2 ^ 1) with 2.
    pose proof (Z.div_pos (u - l) 2). pose proof (Z.div_le_upper_bound (u - l) 2 (u - l)). lia. }
  set (m := l + _) in *. clearbody m.
  assert (Hsw : forall (b : bool) (i j : Z) s0, lo <= i <= hi -> lo <= j <= hi -> I s0 ->
    wp (if b then sort_swap W i j else ret W ()) (fun _ => I) E s0).
  { intros [] i j s0 Hi Hj Hs0; [by apply swap_keeps|by apply wp_ret]. }
  step. apply wp_bind. eapply wp_conseq; [apply Hsw; try lia; done|].
  cbv beta. intros _ s1 Hs1. destruct (Z.eqb_spec (u - l) 1); [by apply wp_ret|].
  step. apply wp_bind. eapply wp_conseq with (Q := fun _ => I).
  { case_match; [apply swap_keeps; try lia; done|]. step. apply Hsw; try lia. done. }
  cbv beta. intros _ s3 Hs3. apply wp_ret. split; [|done].
  destruct (Z.eqb_spec (u - l) 2); [done|lia].
Qed.

(** One trip; a recursive call gets less than half of the range. *)
Lemma sort_trip_keeps rec next l u limit s :
  lo <= l -> u <= hi ->
  (forall l' u' lim s', 3 <= u - l -> l <= l' -> u' <= u -> 2 * (u' - l' + 1) <= u - l ->
     I s' -> wp (rec l' u' lim) (fun _ => I) E s') ->
  (forall l' u' lim s', l < u -> l <= l' -> u' <= u -> u' - l' < u - l ->
     I s' -> wp (next l' u' lim) (fun _ => I) E s') ->
  I s -> wp (sort_trip W pred rec next l u limit) (fun _ => I) E s.
Proof.
  intros Hl Hu Hrec Hnext Hs. unfold sort_trip.
  destruct (Z.ltb_spec l u) as [Hlu|]; [|by apply wp_ret].
  destruct (limit =? 0); [apply sort_heap_keeps; try lia; done|].
  apply wp_bind. eapply wp_conseq; [apply sort_three_keeps; try lia; done|].
  cbv beta. intros more s1 [Hmore Hs1]. destruct more; cbn [negb]; [|by apply wp_ret].
  specialize (Hmore eq_refl).
  assert (Hm : l <= l + Z.shiftr (u - l) 1 <= u).
  { rewrite Z.shiftr_div_pow2 by lia. change (2 ^ 1) with 2.
    pose proof (Z.div_pos (u - l) 2). pose proof (Z.div_le_upper_bound (u - l) 2 (u - l)). lia. }
  set (m := l + _) in *. clearbody m.
  step. apply wp_bind. eapply wp_conseq; [apply partition_keeps; try lia; done|].
  cbv beta. intros i s3 [Hi Hs3]. step.
  destruct (Z.ltb_spec (i - l) (u - i)); apply wp_bind.
  all: eapply wp_conseq; [apply Hrec; try lia; done|]; cbv beta; intros.
  all: apply Hnext; try lia; done.
Qed.

Lemma sort_rec_keeps depth l u limit s :
  lo <= l -> u <= hi -> (1 <= depth)%nat -> u - l + 1 < 2 ^ Z.of_nat depth ->
  I s -> wp (sort_rec W pred depth l u limit) (fun _ => I) E s.
Proof.
  revert l u limit s. induction depth as [|d IH]; intros l u limit s Hl Hu Hd Hn Hs; [lia|].
  cbn [sort_rec]. rewrite Nat2Z.inj_succ, Z.pow_succ_r in Hn by lia.
  assert (Hf : (Z.to_nat (u - l) < S (Z.to_nat (u - l)))%nat) by lia. revert Hf.
  generalize (S (Z.to_nat (u - l))) as fuel. intros fuel. revert l u limit s Hl Hu Hn Hs.
  induction fuel as [|f IHf]; intros l u limit s Hl Hu Hn Hs Hf; [lia|].
  cbn [sort_loop]. apply sort_trip_keeps; try done.
  - intros l' u' lim s' ? ? ? ? Hs'. apply IH; try lia; [|done].
    destruct d; [cbn in Hn|]; lia.
  - intros l' u' lim s' ? ? ? ? Hs'. apply IHf; try lia. done.
Qed.
End Invariant.

(** * Swaps *)

Definition elt (a : list TValue) (i : Z) : TValue := default LNil (a !! Z.to_nat i).

Definition swap_elts (a : list TValue) (i j : Z) : list TValue :=
  <[Z.to_nat j := elt a i]> (<[Z.to_nat i := elt a j]> a).

Definition inside (a : list TValue) (i : Z) : Prop := 0 <= i < Z.of_nat (length a).

Lemma elt_lookup a i : inside a i -> a !! Z.to_nat i = Some (elt a i).
Proof.
  unfold inside, elt. intros Hi. destruct (lookup_lt_is_Some_2 a (Z.to_nat i)) as [v Hv]; [lia|].
  by rewrite Hv.
Qed.

Lemma length_swap a i j : length (swap_elts a i j) = length a.
Proof. unfold swap_elts. by rewrite !length_insert. Qed.

Lemma swap_lookup a i j k :
  inside a i -> inside a j -> swap_elts a i j !! k =
    if decide (k = Z.to_nat j) then a !! Z.to_nat i
    else if decide (k = Z.to_nat i) then a !! Z.to_nat j else a !! k.
Proof.
  intros Hi Hj. unfold swap_elts. rewrite !elt_lookup by done. unfold inside in *.
  destruct (decide (k = Z.to_nat j)) as [->|Hk].
  { rewrite list_lookup_insert_eq; [done|]. rewrite length_insert. lia. }
  rewrite list_lookup_insert_ne by done. destruct (decide (k = Z.to_nat i)) as [->|Hk'].
  - by rewrite list_lookup_insert_eq by lia.
  - by rewrite list_lookup_insert_ne.
Qed.

Lemma elt_swap a i j k :
  inside a i -> inside a j -> 0 <= k -> elt (swap_elts a i j) k =
    if k =? j then elt a i else if k =? i then elt a j else elt a k.
Proof.
  intros Hi Hj Hk. unfold elt at 1. rewrite swap_lookup by done. unfold inside in *.
  destruct (Z.eqb_spec k j), (decide (Z.to_nat k = Z.to_nat j)); try lia; [done|].
  destruct (Z.eqb_spec k i), (decide (Z.to_nat k = Z.to_nat i)); try lia; done.
Qed.

Lemma swap_Permutation a i j : inside a i -> inside a j -> swap_elts a i j ≡ₚ a.
Proof.
  intros Hi Hj. apply Permutation_inj. split; [by rewrite length_swap|].
  exists (fun k => if decide (k = Z.to_nat j) then Z.to_nat i
                   else if decide (k = Z.to_nat i) then Z.to_nat j else k). split.
  - intros x y. repeat case_decide; congruence.
  - intros k. rewrite swap_lookup by done. by repeat case_decide.
Qed.

(** One swap within [lo .. hi], and any number of them. *)
Definition swapped (lo hi : Z) (a a' : list TValue) : Prop :=
  exists i j, lo <= i <= hi /\ lo <= j <= hi /\ inside a i /\ inside a j /\ a' = swap_elts a i j.

Definition permuted (lo hi : Z) : relation (list TValue) := rtc (swapped lo hi).

Lemma permuted_weaken lo hi lo' hi' a a' :
  permuted lo hi a a' -> lo' <= lo -> hi <= hi' -> permuted lo' hi' a a'.
Proof.
  intros Hp Hl Hh. eapply rtc_subrel; [|exact Hp].
  intros x y (i & j & ? & ? & ? & ? & ->). exists i, j. split_and!; try done; lia.
Qed.

Lemma permuted_spec lo hi a a' :
  0 <= lo -> permuted lo hi a a' ->
  a' ≡ₚ a /\ (forall k, 0 <= k -> (k < lo \/ hi < k) -> elt a' k = elt a k) /\
  (forall k, lo <= k <= hi -> exists k', lo <= k' <= hi /\ elt a' k = elt a k').
Proof.
  intros H0. induction 1 as [a|a b c (i & j & Hi & Hj & Ii & Ij & ->) _ (IP & IO & II)].
  { split_and!; eauto. }
  split_and!.
  - rewrite IP. by apply swap_Permutation.
  - intros k Hk Ho. rewrite IO, elt_swap by done.
    destruct (Z.eqb_spec k j), (Z.eqb_spec k i); try lia. done.
  - intros k Hk. destruct (II k Hk) as (k' & Hk' & ->). rewrite elt_swap by (try done; lia).
    destruct (Z.eqb_spec k' j); [eauto|]. destruct (Z.eqb_spec k' i); eauto.
Qed.

Lemma permuted_length lo hi a a' : permuted lo hi a a' -> length a' = length a.
Proof.
  induction 1 as [|a b c (i & j & _ & _ & _ & _ & ->) _ IH]; [done|].
  by rewrite IH, length_swap.
Qed.

(** * The comparisons and the swaps of the code *)

Section Rules.
Context {W : Type}.

Lemma arr_get_eq (s : sort_state W) i :
  inside (array (st_table W s)) i -> arr_get W i s = (Ret (elt (array (st_table W s)) i), s).
Proof.
  intros Hi. unfold arr_get, read_array. rewrite elt_lookup by done. unfold inside in Hi.
  by destruct (Z.ltb_spec i 0); [lia|].
Qed.

Lemma arr_set_eq (s : sort_state W) i v :
  inside (array (st_table W s)) i -> arr_set W i v s =
    (Ret (), set_table W (set_array (<[Z.to_nat i := v]> (array (st_table W s))) (st_table W s)) s).
Proof.
  intros Hi. unfold arr_set, sizearray. unfold inside in Hi.
  destruct (Z.leb_spec 0 i), (Z.ltb_spec i (Z.of_nat (length (array (st_table W s))))); try lia.
  done.
Qed.

Lemma sort_swap_eq (s : sort_state W) i j :
  let t := st_table W s in inside (array t) i -> inside (array t) j ->
  sort_swap W i j s = (Ret (), set_table W (set_array (swap_elts (array t) i j) t) s).
Proof.
  intros t Hi Hj. unfold sort_swap, bind. rewrite !arr_get_eq by done. rewrite arr_set_eq by done.
  rewrite arr_set_eq; [done|]. unfold inside in *. cbn. by rewrite length_insert.
Qed.

Lemma sort_less_eq pred (s : sort_state W) i j :
  let t := st_table W s in inside (array t) i -> inside (array t) j ->
  sort_less W pred i j s =
    match pred (elt (array t) i) (elt (array t) j) s with
    | (Ret b, s') =>
        if sizearray (st_table W s') =? sizearray t then (Ret b, s')
        else (Throw (RunError "table modified during sorting"), s')
    | r => r
    end.
Proof.
  intros t Hi Hj. unfold sort_less, bind. cbn [t_sizearray]. rewrite !arr_get_eq by done.
  fold t. destruct (pred _ _ s) as [[b|e|w] s']; [|done|done]. cbn [t_sizearray].
  by destruct (_ =? _).
Qed.
End Rules.

(** * Safety *)

Section Safety.
Context {W : Type} (pred : SortPredicate W).
Context (pred_defined : forall l r s, is_defined (pred l r s).1 = true).

(** Whatever the comparison does, the code reads and writes the array only
    where it is, recurses at most [log2 n + 1] levels deep and ends; the
    comparison cannot shrink the array under it. *)
Lemma sort_rec_safe depth l u limit s :
  0 <= l -> u < sizearray (st_table W s) -> (1 <= depth)%nat -> u - l + 1 < 2 ^ Z.of_nat depth ->
  wp (sort_rec W pred depth l u limit)
    (fun _ s' => sizearray (st_table W s') = sizearray (st_table W s)) (fun _ _ => True) s.
Proof.
  intros Hl Hu Hd Hn. set (n := sizearray (st_table W s)) in *.
  apply (sort_rec_keeps pred (fun s' => sizearray (st_table W s') = n) (fun _ _ => True) 0 (n - 1));
    try done; try lia.
  - intros i j s' Hi Hj <-. unfold wp.
    rewrite sort_less_eq by (unfold inside, sizearray in *; lia).
    pose proof (pred_defined (elt (array (st_table W s')) i) (elt (array (st_table W s')) j) s') as Hp.
    destruct (pred _ _ s') as [[b|e|w] s2]; [|done|done].
    by destruct (Z.eqb_spec (sizearray (st_table W s2)) (sizearray (st_table W s'))).
  - intros i j s' Hi Hj Hs. unfold wp.
    rewrite sort_swap_eq by (unfold inside, sizearray in *; lia).
    rewrite <- Hs. unfold sizearray. cbn. by rewrite length_swap.
Qed.
End Safety.

(** * Permutation *)

Section Permutation.
Context {W : Type} (pred : SortPredicate W).
Context (pred_defined : forall l r s, is_defined (pred l r s).1 = true).
Context (pred_keeps : forall l r s, st_table W (pred l r s).2 = st_table W s).

(** The table of [s'] is that of [s] with elements of [lo .. hi] permuted. *)
Definition table_permuted (lo hi : Z) (s s' : sort_state W) : Prop :=
  exists a, permuted lo hi (array (st_table W s)) a /\
    st_table W s' = set_array a (st_table W s).

Lemma sort_rec_permutes depth l u limit s :
  0 <= l -> u < sizearray (st_table W s) -> (1 <= depth)%nat -> u - l + 1 < 2 ^ Z.of_nat depth ->
  wp (sort_rec W pred depth l u limit) (fun _ => table_permuted l u s) (fun _ => table_permuted l u s) s.
Proof.
  intros Hl Hu Hd Hn.
  apply (sort_rec_keeps pred (table_permuted l u s) (fun _ => table_permuted l u s) l u);
    try done; try lia.
  - intros i j s' Hi Hj (a & Ha & Et). pose proof (permuted_length _ _ _ _ Ha). unfold wp.
    rewrite sort_less_eq; rewrite ?Et; cbn [array set_array];
      [|unfold inside, sizearray in *; lia|unfold inside, sizearray in *; lia].
    pose proof (pred_defined (elt a i) (elt a j) s') as Hp.
    pose proof (pred_keeps (elt a i) (elt a j) s') as Hk.
    destruct (pred _ _ s') as [[b|e|w] s2]; [| |done]; cbn in Hk.
    + rewrite Hk, Et, Z.eqb_refl. exists a. split; [done|congruence].
    + exists a. split; [done|congruence].
  - intros i j s' Hi Hj (a & Ha & Et). pose proof (permuted_length _ _ _ _ Ha). unfold wp.
    assert (inside a i /\ inside a j) as [Ii Ij] by (unfold inside, sizearray in *; lia).
    rewrite sort_swap_eq; rewrite ?Et; [|done|done].
    exists (swap_elts a i j). split; [|done].
    eapply rtc_r; [exact Ha|]. exists i, j. done.
  - exists (array (st_table W s)). split; [by apply rtc_refl|]. by destruct (st_table W s).
Qed.
End Permutation.
