(* ===== verification/SortOrder.v ===== *)
(** Sorting, [Sort.v]: under a comparison that decides a strict weak order,
    [table.sort] raises no error and sorts. *)
From stdpp Require Import sorting relations.
From S2P Require Import Prelude Word Double LuaApi Tm Arith Compare Key TableNode Table.
From S2P Require Import TableSpec TableIter Sort SortSpec.
Open Scope Z_scope.

(** The comparison decides [lt] on the [good] values and leaves the table
    alone; [lt] is a strict weak order on them. *)
Section Order.
Context {W : Type} (pred : SortPredicate W) (good : TValue -> Prop) (lt : TValue -> TValue -> bool).
Context (pred_decides : forall l r s, good l -> good r ->
  exists w, pred l r s = (Ret (lt l r), {| st_table := st_table W s; st_world := w |})).

Definition le (x y : TValue) : Prop := lt y x = false.

Context (le_total : forall x y, good x -> good y -> le x y \/ le y x).
Context (le_trans : forall x y z, good x -> good y -> good z -> le x y -> le y z -> le x z).

(** The table is [t0] with [a] for its array, its first [N] elements good. *)
Context (t0 : LuaTable) (N : Z) (N_inside : N <= Z.of_nat (length (array t0))).

Definition goods (a : list TValue) : Prop := forall i, 0 <= i < N -> good (elt a i).

Record holds_array (a : list TValue) (s : sort_state W) : Prop := {
  ha_table : st_table W s = set_array a t0;
  ha_length : length a = length (array t0);
  ha_good : goods a;
}.

Definition no_error (e : lua_error) (s : sort_state W) : Prop := False.

Lemma le_refl x : good x -> le x x.
Proof. intros Hx. by destruct (le_total x x Hx Hx). Qed.

Lemma lt_le x y : good x -> good y -> lt x y = true -> le x y.
Proof. intros Hx Hy Hlt. destruct (le_total x y Hx Hy) as [|Hle]; [done|]. unfold le in Hle. congruence. Qed.

Lemma good_elt a i : goods a -> 0 <= i < N -> good (elt a i).
Proof. auto. Qed.

Lemma goods_permuted lo hi a a' :
  0 <= lo -> hi < N -> permuted lo hi a a' -> goods a -> goods a'.
Proof.
  intros H0 Hh (_ & Ho & Hi)%permuted_spec Hg k Hk; [|done].
  destruct (decide (lo <= k <= hi)) as [Hin|Hout].
  - destruct (Hi k Hin) as (k' & Hk' & ->). apply Hg. lia.
  - rewrite Ho by lia. by apply Hg.
Qed.

(** The rules of the two primitives. *)
Lemma less_rule a s i j (Q : bool -> sort_state W -> Prop) :
  holds_array a s -> 0 <= i < N -> 0 <= j < N ->
  (forall s', holds_array a s' -> Q (lt (elt a i) (elt a j)) s') ->
  wp (sort_less W pred i j) Q no_error s.
Proof.
  intros [Et Hl Hg] Hi Hj HQ. unfold wp.
  rewrite sort_less_eq; rewrite Et; cbn [array set_array]; [|unfold inside; lia|unfold inside; lia].
  destruct (pred_decides (elt a i) (elt a j) s) as [w ->].
  { apply good_elt; [done|lia]. } { apply good_elt; [done|lia]. }
  cbn [st_table]. rewrite Et, Z.eqb_refl. by apply HQ.
Qed.

Lemma swap_rule a s i j (Q : unit -> sort_state W -> Prop) :
  holds_array a s -> 0 <= i < N -> 0 <= j < N ->
  (forall s', holds_array (swap_elts a i j) s' -> Q () s') ->
  wp (sort_swap W i j) Q no_error s.
Proof.
  intros [Et Hl Hg] Hi Hj HQ. unfold wp.
  assert (inside a i /\ inside a j) as [Ii Ij] by (unfold inside; lia).
  rewrite sort_swap_eq; rewrite Et; cbn [array set_array]; [|done|done].
  apply HQ. split; [done|by rewrite length_swap|]. intros k Hk. rewrite elt_swap by (try done; lia).
  destruct (k =? j); [by apply Hg|]. destruct (k =? i); by apply Hg.
Qed.

Lemma permuted_swap lo hi a s i j :
  holds_array a s -> lo <= i <= hi -> lo <= j <= hi -> 0 <= lo -> hi < N ->
  permuted lo hi a (swap_elts a i j).
Proof.
  intros Ha Hi Hj Hl Hh. apply rtc_once. exists i, j. pose proof (ha_length _ _ Ha).
  unfold inside. split_and!; try done; lia.
Qed.

(** A routine leaves the elements of [lo .. hi] permuted, with [P] of its
    result and of the array. *)
Definition arranges {A} (m : M W A) (lo hi : Z) (a : list TValue)
    (P : A -> list TValue -> Prop) (s : sort_state W) : Prop :=
  wp m (fun r s' => exists a', permuted lo hi a a' /\ holds_array a' s' /\ P r a') no_error s.

Lemma arranges_ret {A} (r : A) lo hi a (P : A -> list TValue -> Prop) s :
  holds_array a s -> P r a -> arranges (ret W r) lo hi a P s.
Proof. intros Ha HP. apply wp_ret. exists a. split; [by apply rtc_refl|done]. Qed.

Lemma arranges_bind {A B} (m : M W A) (f : A -> M W B) lo hi a P Q s :
  arranges m lo hi a P s ->
  (forall r a' s', permuted lo hi a a' -> holds_array a' s' -> P r a' ->
     arranges (f r) lo hi a' Q s') ->
  arranges (bind W m f) lo hi a Q s.
Proof.
  intros Hm Hf. apply wp_bind. eapply wp_conseq; [exact Hm|].
  intros r s' (a' & Hp & Ha' & HP). eapply wp_conseq; [by apply (Hf r a' s')|].
  intros r' s2 (a2 & Hp2 & Ha2 & HQ). exists a2. split; [|done]. by transitivity a'.
Qed.

Lemma arranges_conseq {A} (m : M W A) lo hi lo' hi' a (P Q : A -> list TValue -> Prop) s :
  arranges m lo hi a P s -> lo' <= lo -> hi <= hi' ->
  (forall r a', permuted lo hi a a' -> P r a' -> Q r a') -> arranges m lo' hi' a Q s.
Proof.
  intros Hm Hl Hh HQ. eapply wp_conseq; [exact Hm|]. intros r s' (a' & Hp & Ha' & HP).
  exists a'. split; [by apply permuted_weaken with lo hi|]. split; [done|by apply HQ].
Qed.

Lemma arranges_less a s i j lo hi :
  holds_array a s -> 0 <= i < N -> 0 <= j < N ->
  arranges (sort_less W pred i j) lo hi a (fun b a' => a' = a /\ b = lt (elt a i) (elt a j)) s.
Proof.
  intros Ha Hi Hj. apply (less_rule a); try done. intros s' Hs'. exists a.
  split; [by apply rtc_refl|done].
Qed.

Lemma arranges_swap a s i j lo hi :
  holds_array a s -> lo <= i <= hi -> lo <= j <= hi -> 0 <= lo -> hi < N ->
  arranges (sort_swap W i j) lo hi a (fun _ a' => a' = swap_elts a i j) s.
Proof.
  intros Ha Hi Hj Hl Hh. apply (swap_rule a); try done; try lia. intros s' Hs'.
  exists (swap_elts a i j). split; [by eapply permuted_swap|done].
Qed.

(** ** The heap *)

Definition child (k c : Z) : Prop := c = 2 * k + 1 \/ c = 2 * k + 2.

(** The elements from [r] on are a heap, [l + k] the place of node [k]. *)
Definition heap_from (r l count : Z) (a : list TValue) : Prop :=
  forall k c, r <= k -> child k c -> c < count -> le (elt a (l + c)) (elt a (l + k)).

(** The same but for the children of [root], which are below its parent. *)
Definition sift_inv (r root l count : Z) (a : list TValue) : Prop :=
  (forall k c, r <= k -> k <> root -> child k c -> c < count -> le (elt a (l + c)) (elt a (l + k))) /\
  (forall k c, r <= k -> child k root -> child root c -> c < count ->
     le (elt a (l + c)) (elt a (l + k))).

Lemma sift_inv_done r root l count a :
  sift_inv r root l count a ->
  (forall c, child root c -> c < count -> le (elt a (l + c)) (elt a (l + root))) ->
  heap_from r l count a.
Proof.
  intros [Hi _] Hd k c Hk Hc Hlt. destruct (Z.eq_dec k root) as [->|]; [by apply Hd|by apply Hi].
Qed.

(** The root changes places with its largest child. *)
Lemma sift_inv_step r root next l count a :
  0 <= r <= root -> 0 <= l -> l + count <= Z.of_nat (length a) -> next < count -> goods a ->
  sift_inv r root l count a -> child root next ->
  le (elt a (l + root)) (elt a (l + next)) ->
  (forall c, child root c -> c < count -> le (elt a (l + c)) (elt a (l + next))) ->
  sift_inv r next l count (swap_elts a (l + root) (l + next)).
Proof.
  intros Hr Hl Hlen Hn Hg [Hi1 Hi2] Hch Hle Hmax.
  assert (Hin : forall x, 0 <= x < count -> inside a (l + x)) by (intros; unfold inside; lia).
  assert (He : forall x, 0 <= x < count ->
    elt (swap_elts a (l + root) (l + next)) (l + x) =
      if x =? next then elt a (l + root) else if x =? root then elt a (l + next) else elt a (l + x)).
  { intros x Hx. rewrite elt_swap; [|apply Hin; unfold child in *; lia..|lia].
    destruct (Z.eqb_spec (l + x) (l + next)), (Z.eqb_spec x next); try lia; [done|].
    destruct (Z.eqb_spec (l + x) (l + root)), (Z.eqb_spec x root); try lia; done. }
  assert (Hcu : forall k k' c, child k c -> child k' c -> k = k') by (unfold child; lia).
  assert (Hcl : forall k c, r <= k -> child k c -> k < c) by (unfold child; lia).
  split.
  - intros k c Hk Hne Hc Hlt. pose proof (Hcl _ _ Hk Hc). rewrite !He by lia.
    destruct (Z.eqb_spec k next); [done|]. destruct (Z.eqb_spec k root) as [->|Hkr].
    + destruct (Z.eqb_spec c next); [done|]. destruct (Z.eqb_spec c root); [lia|]. by apply Hmax.
    + destruct (Z.eqb_spec c next) as [->|]; [by rewrite (Hcu _ _ _ Hc Hch) in Hkr|].
      destruct (Z.eqb_spec c root) as [->|]; [by apply Hi2|by apply Hi1].
  - intros k c Hk Hkn Hc Hlt. assert (k = root) as -> by by apply (Hcu _ _ _ Hkn).
    pose proof (Hcl _ _ Hk Hkn). assert (Hrn : r <= next) by lia. pose proof (Hcl _ _ Hrn Hc).
    rewrite !He by lia. rewrite (proj2 (Z.eqb_neq c next)), (proj2 (Z.eqb_neq c root)) by lia.
    rewrite (proj2 (Z.eqb_neq root next)), Z.eqb_refl by lia. by apply Hi1; try lia.
Qed.

(** The index [x] holds the larger element. *)
Lemma pick_spec a x y :
  goods a -> 0 <= x < N -> 0 <= y < N ->
  let z := if lt (elt a x) (elt a y) then y else x in
  le (elt a x) (elt a z) /\ le (elt a y) (elt a z).
Proof.
  intros Hg Hx Hy z. subst z. pose proof (good_elt _ _ Hg Hx). pose proof (good_elt _ _ Hg Hy).
  destruct (lt (elt a x) (elt a y)) eqn:E.
  - split; [by apply lt_le|by apply le_refl].
  - split; [by apply le_refl|done].
Qed.

Lemma sift_loop_heap fuel r root l count a s :
  0 <= l -> l + count <= N -> 0 <= r <= root -> root < count ->
  (Z.to_nat (count - root) < fuel)%nat ->
  holds_array a s -> sift_inv r root l count a ->
  arranges (sift_loop W pred fuel l count root) l (l + count - 1) a
    (fun root' a' => r <= root' < count /\ sift_inv r root' l count a' /\
       (root' * 2 + 2 < count -> heap_from r l count a')) s.
Proof.
  intros Hl Hc. revert root a s. induction fuel as [|f IH]; intros root a s Hr Hrc Hf Ha Hi; [lia|].
  cbn [sift_loop]. destruct (Z.ltb_spec (root * 2 + 2) count) as [Hlt|Hlt].
  2:{ apply arranges_ret; [done|]. split; [lia|]. split; [done|lia]. }
  pose proof (ha_length _ _ Ha) as Hlen. pose proof (ha_good _ _ Ha) as Hg.
  assert (Hin : forall x, 0 <= x < count -> inside a (l + x)) by (intros; unfold inside; lia).
  eapply arranges_bind; [apply (arranges_less a); try done; lia|].
  intros b a1 s1 _ Ha1 [-> ->].
  pose proof (pick_spec a (l + root) (l + (root * 2 + 1)) Hg ltac:(lia) ltac:(lia))
    as [Hp1 Hp2].
  set (n1 := if lt _ _ then root * 2 + 1 else root).
  assert (En1 : (if lt (elt a (l + root)) (elt a (l + (root * 2 + 1))) then l + (root * 2 + 1) else l + root)
    = l + n1) by (subst n1; by destruct (lt _ _)). rewrite En1 in *. clear En1.
  assert (Hn1 : n1 = root \/ n1 = root * 2 + 1) by (subst n1; destruct (lt _ _); auto).
  clearbody n1. eapply arranges_bind; [apply (arranges_less a); try done; lia|].
  intros b a2 s2 _ Ha2 [-> ->].
  pose proof (pick_spec a (l + n1) (l + (root * 2 + 2)) Hg ltac:(lia) ltac:(lia))
    as [Hq1 Hq2].
  set (n2 := if lt _ _ then root * 2 + 2 else n1).
  assert (En2 : (if lt (elt a (l + n1)) (elt a (l + (root * 2 + 2))) then l + (root * 2 + 2) else l + n1)
    = l + n2) by (subst n2; by destruct (lt _ _)). rewrite En2 in *. clear En2.
  assert (Hn2 : n2 = n1 \/ n2 = root * 2 + 2) by (subst n2; destruct (lt _ _); auto).
  clearbody n2.
  assert (Hgd : forall x, 0 <= x < count -> good (elt a (l + x)))
    by (intros; apply good_elt; [done|lia]).
  assert (Ht : forall x, 0 <= x < count -> le (elt a (l + x)) (elt a (l + n1)) ->
    le (elt a (l + x)) (elt a (l + n2))).
  { intros x Hx Hle. eapply le_trans; [..|exact Hq1]; try apply Hgd; try lia. done. }
  apply Ht in Hp1; [|lia]. apply Ht in Hp2; [|lia]. clear Ht Hq1.
  assert (Hmax : forall c, child root c -> c < count -> le (elt a (l + c)) (elt a (l + n2))).
  { intros c [->| ->] _; rewrite (Z.mul_comm 2); done. }
  destruct (Z.eqb_spec n2 root) as [->|Hne].
  { apply arranges_ret; [done|]. split; [lia|]. split; [done|]. intros _. by eapply sift_inv_done. }
  assert (Hch : child root n2) by (unfold child; lia).
  eapply arranges_bind; [apply arranges_swap; try done; lia|].
  intros _ a3 s3 _ Ha3 ->. apply IH; try lia; [done|].
  apply sift_inv_step; try done; lia.
Qed.

Lemma siftheap_heap l u root a s :
  0 <= l -> u < N -> 0 <= root <= u - l -> holds_array a s ->
  heap_from (root + 1) l (u - l + 1) a ->
  arranges (sort_siftheap W pred l u root) l u a (fun _ => heap_from root l (u - l + 1)) s.
Proof.
  intros Hl Hu Hr Ha Hh. unfold sort_siftheap. set (count := u - l + 1) in *.
  assert (Hi : sift_inv root root l count a).
  { split.
    - intros k c Hk Hne Hc Hlt. apply Hh; [lia|done|done].
    - intros k c Hk Hc. unfold child in Hc. lia. }
  pose proof (sift_loop_heap (S (Z.to_nat count)) root root l count a s) as Hs.
  replace (l + count - 1) with u in Hs by lia.
  eapply arranges_bind; [apply Hs; try done; lia|].
  intros r a1 s1 _ Ha1 (Hr1 & Hi1 & Hd).
  destruct (Z.eqb_spec (r * 2 + 1) (count - 1)) as [E|E].
  2:{ apply arranges_ret; [done|]. destruct (Z_lt_dec (r * 2 + 2) count) as [|Hge]; [by apply Hd|].
      eapply sift_inv_done; [done|]. intros c Hc Hlt. unfold child in Hc. lia. }
  pose proof (ha_length _ _ Ha1) as Hlen. pose proof (ha_good _ _ Ha1) as Hg.
  assert (Hin : forall x, 0 <= x < count -> inside a1 (l + x)) by (intros; unfold inside; lia).
  eapply arranges_bind; [apply (arranges_less a1); try done; lia|].
  intros b a2 s2 _ Ha2 [-> ->].
  assert (Hone : forall c, child r c -> c < count -> c = r * 2 + 1) by (unfold child; lia).
  destruct (lt _ _) eqn:Elt.
  - eapply arranges_conseq; [apply (arranges_swap a1 _ _ _ l u); try done; lia|lia|lia|].
    cbv beta. intros _ a3 _ ->. eapply sift_inv_done.
    + apply sift_inv_step; try done; try lia; [unfold child; lia| |].
      * apply lt_le; [..|done]; apply good_elt; try done; lia.
      * intros c Hc Hlt. rewrite (Hone c Hc Hlt). apply le_refl, good_elt; [done|lia].
    + intros c Hc Hlt. unfold child in Hc. lia.
  - apply arranges_ret; [done|]. eapply sift_inv_done; [done|]. intros c Hc Hlt.
    rewrite (Hone c Hc Hlt). exact Elt.
Qed.

Lemma heap_build_heap n l u a s :
  0 <= l -> u < N -> Z.of_nat n <= u - l + 1 -> holds_array a s ->
  heap_from (Z.of_nat n) l (u - l + 1) a ->
  arranges (heap_build W pred n l u) l u a (fun _ => heap_from 0 l (u - l + 1)) s.
Proof.
  intros Hl Hu. revert a s. induction n as [|n IH]; intros a s Hn Ha Hh.
  { by apply arranges_ret. }
  cbn [heap_build]. eapply arranges_bind.
  { apply siftheap_heap; try done; try lia. by replace (Z.of_nat n + 1) with (Z.of_nat (S n)) by lia. }
  intros [] a1 s1 _ Ha1 Hh1. apply IH; [lia|done|done].
Qed.

(** The root of a heap is its largest element. *)
Lemma heap_root l count a k :
  goods a -> 0 <= l -> l + count <= N -> heap_from 0 l count a ->
  0 <= k < count -> le (elt a (l + k)) (elt a (l + 0)).
Proof.
  intros Hg Hl Hc Hh. assert (Hgd : forall x, 0 <= x < count -> good (elt a (l + x))).
  { intros x Hx. apply good_elt; [done|]. lia. }
  induction k as [k IH] using (well_founded_induction (Z.lt_wf 0)). intros Hk.
  destruct (Z.eq_dec k 0) as [->|]; [apply le_refl, Hgd; lia|].
  assert (Hq : 0 <= (k - 1) / 2 < k /\ child ((k - 1) / 2) k).
  { pose proof (Z.div_mod (k - 1) 2). pose proof (Z.mod_pos_bound (k - 1) 2).
    unfold child. lia. }
  destruct Hq as [Hq Hch]. apply le_trans with (elt a (l + (k - 1) / 2)); try (apply Hgd; lia).
  - apply Hh; [lia|done|lia].
  - apply IH; lia.
Qed.

(** Sorted from [lo] to [hi]; the elements of [lo .. mid - 1] are below those
    of [mid .. hi]. *)
Definition sorted_range (lo hi : Z) (a : list TValue) : Prop :=
  forall x y, lo <= x -> x <= y -> y <= hi -> le (elt a x) (elt a y).

Definition below (lo mid hi : Z) (a : list TValue) : Prop :=
  forall x y, lo <= x -> x < mid -> mid <= y -> y <= hi -> le (elt a x) (elt a y).

(** A permutation on one side keeps what lies on the other side of [mid]. *)
Lemma below_permuted lo mid hi l u a a' :
  0 <= lo -> permuted l u a a' -> lo <= l -> u <= hi -> u < mid \/ mid <= l ->
  below lo mid hi a -> below lo mid hi a'.
Proof.
  intros H0 Hp Hl Hu Hm Hb x y Hx Hxm Hym Hy.
  destruct (permuted_spec l u a a' ltac:(lia) Hp) as (_ & Ho & Hi).
  assert (Hsrc : forall k, lo <= k <= hi -> exists k', elt a' k = elt a k' /\
    lo <= k' <= hi /\ (k < mid <-> k' < mid)).
  { intros k Hk. destruct (Z_lt_dec k l); [|destruct (Z_lt_dec u k)].
    - exists k. rewrite Ho by lia. split; [done|lia].
    - exists k. rewrite Ho by lia. split; [done|lia].
    - destruct (Hi k) as (k' & Hk' & ->); [lia|]. exists k'. split; [done|lia]. }
  destruct (Hsrc x) as (x' & -> & ? & ?); [lia|]. destruct (Hsrc y) as (y' & -> & ? & ?); [lia|].
  apply Hb; lia.
Qed.

Lemma sorted_range_outside lo hi l u a a' :
  0 <= lo -> 0 <= l -> permuted l u a a' -> u < lo \/ hi < l ->
  sorted_range lo hi a -> sorted_range lo hi a'.
Proof.
  intros H0 Hl0 Hp Hd Hs x y Hx Hxy Hy. destruct (permuted_spec l u a a' Hl0 Hp) as (_ & Ho & _).
  rewrite !Ho by lia. by apply Hs.
Qed.

Lemma sorted_join lo mid hi a :
  sorted_range lo (mid - 1) a -> sorted_range mid hi a -> below lo mid hi a ->
  sorted_range lo hi a.
Proof.
  intros H1 H2 Hb x y Hx Hxy Hy. destruct (Z_lt_dec y mid); [apply H1; lia|].
  destruct (Z_lt_dec x mid); [apply Hb; lia|apply H2; lia].
Qed.

Lemma sorted_single lo hi a :
  goods a -> 0 <= lo -> hi <= lo -> lo < N -> sorted_range lo hi a.
Proof.
  intros Hg Hl Hh Hi x y Hx Hxy Hy. replace y with x by lia. apply le_refl, good_elt; [done|].
  lia.
Qed.

Lemma heap_drain_sorts n l a s :
  0 <= l -> l + Z.of_nat n < N -> holds_array a s -> heap_from 0 l (Z.of_nat n + 1) a ->
  arranges (heap_drain W pred n l) l (l + Z.of_nat n) a
    (fun _ => sorted_range l (l + Z.of_nat n)) s.
Proof.
  intros Hl. revert a s. induction n as [|n IH]; intros a s Hn Ha Hh;
    pose proof (ha_length _ _ Ha) as Hlen; pose proof (ha_good _ _ Ha) as Hg.
  { apply arranges_ret; [done|]. apply sorted_single; try done; lia. }
  cbn [heap_drain]. set (i := Z.of_nat (S n)) in *.
  eapply arranges_bind; [apply arranges_swap; try done; lia|].
  intros [] a1 s1 Hp1 Ha1 Ea1.
  assert (He : forall x, 0 <= x < i -> elt a1 (l + x) = if x =? 0 then elt a (l + i) else elt a (l + x)).
  { intros x Hx. rewrite Ea1, elt_swap by (unfold inside; lia).
    destruct (Z.eqb_spec (l + x) (l + i)), (Z.eqb_spec (l + x) l), (Z.eqb_spec x 0); try lia; done. }
  assert (Hmax : below l (l + i) (l + i) a1).
  { intros x y Hx Hxi Hy Hyi. replace y with (l + i) by lia.
    replace x with (l + (x - l)) by lia. rewrite He by lia.
    assert (elt a1 (l + i) = elt a (l + 0)) as ->.
    { rewrite Ea1, elt_swap, Z.eqb_refl by (unfold inside; lia). f_equal. lia. }
    destruct (x - l =? 0); apply heap_root with (i + 1); try done; lia. }
  eapply arranges_bind.
  { eapply arranges_conseq; [apply (siftheap_heap l (l + i - 1) 0 a1); try done; try lia|lia|lia|].
    - intros k c Hk Hc Hlt. assert (k < c < i) by (unfold child in Hc; lia).
      rewrite (He c), (He k), (proj2 (Z.eqb_neq c 0)), (proj2 (Z.eqb_neq k 0)) by lia. apply Hh; [lia|done|lia].
    - intros r a2 Hp2 Hh2. exact (conj Hp2 Hh2). }
  intros [] a2 s2 _ Ha2 [Hp2 Hh2]. replace (l + i - 1 - l + 1) with (Z.of_nat n + 1) in Hh2 by lia.
  eapply arranges_conseq; [apply (IH a2); [lia|done|exact Hh2]|lia|lia|].
  intros [] a3 Hp3 Hs3. apply sorted_join with (l + i).
  - by replace (l + i - 1) with (l + Z.of_nat n) by lia.
  - apply sorted_single; try lia.
    eapply goods_permuted; [| |exact Hp3|apply (ha_good _ _ Ha2)]; lia.
  - apply below_permuted with (l := l) (u := l + Z.of_nat n) (a := a2); try done; try lia.
    apply below_permuted with (l := l) (u := l + i - 1) (a := a1); try done; lia.
Qed.

Lemma sort_heap_sorts l u a s :
  0 <= l -> l <= u -> u < N -> holds_array a s ->
  arranges (sort_heap W pred l u) l u a (fun _ => sorted_range l u) s.
Proof.
  intros Hl Hlu Hu Ha. unfold sort_heap. set (count := u - l + 1).
  assert (Hq : 0 <= Z.quot count 2 <= count /\ count <= 2 * Z.quot count 2 + 1).
  { rewrite Z.quot_div_nonneg by lia. pose proof (Z.div_mod count 2).
    pose proof (Z.mod_pos_bound count 2). lia. }
  eapply arranges_bind.
  { apply heap_build_heap; try done; try lia. intros k c Hk Hc Hlt. unfold child in Hc. lia. }
  intros [] a1 s1 _ Ha1 Hh1. pose proof (heap_drain_sorts (Z.to_nat (count - 1)) l a1 s1) as Hd.
  replace (l + Z.of_nat (Z.to_nat (count - 1))) with u in Hd by lia.
  replace (Z.of_nat (Z.to_nat (count - 1)) + 1) with count in Hd by lia.
  by apply Hd.
Qed.

(** ** The partition *)

(** The scan stops at [k] at the latest, without an error. *)
Lemma scan_up_order fuel u p i k lo hi a s :
  holds_array a s -> 0 <= p < N -> 0 <= i + 1 -> i < k <= u -> u < N ->
  (Z.to_nat (k - i) <= fuel)%nat -> le (elt a p) (elt a k) ->
  arranges (scan_up W pred fuel u p i) lo hi a
    (fun r a' => a' = a /\ i < r <= k /\ le (elt a p) (elt a r) /\
       forall x, i < x < r -> le (elt a x) (elt a p)) s.
Proof.
  intros Ha Hp. revert i s Ha. induction fuel as [|f IH]; intros i s Ha Hi Hk Hu Hf Hs; [lia|].
  pose proof (ha_length _ _ Ha) as Hlen. pose proof (ha_good _ _ Ha) as Hg.
  cbn [scan_up]. eapply arranges_bind; [apply (arranges_less a); try done; lia|].
  intros b a1 s1 _ Ha1 [-> ->]. destruct (lt (elt a (i + 1)) (elt a p)) eqn:Elt.
  2:{ apply arranges_ret; [done|]. split; [done|]. split; [lia|]. split; [done|lia]. }
  assert (i + 1 <> k) by (intros E; rewrite <- E in Hs; unfold le in Hs; congruence).
  destruct (Z.leb_spec u (i + 1)); [lia|].
  eapply arranges_conseq; [apply IH; try done; lia|lia|lia|].
  intros r a2 _ (-> & Hr & Hle & Hx). split; [done|]. split; [lia|]. split; [done|].
  intros x Hxr. destruct (Z.eq_dec x (i + 1)) as [->|]; [|apply Hx; lia].
  apply lt_le; [..|done]; apply good_elt; try done; lia.
Qed.

Lemma scan_down_order fuel l p j k lo hi a s :
  holds_array a s -> 0 <= p < N -> 0 <= l -> j - 1 < N -> l <= k < j ->
  (Z.to_nat (j - k) <= fuel)%nat -> le (elt a k) (elt a p) ->
  arranges (scan_down W pred fuel l p j) lo hi a
    (fun r a' => a' = a /\ k <= r < j /\ le (elt a r) (elt a p) /\
       forall x, r < x < j -> le (elt a p) (elt a x)) s.
Proof.
  intros Ha Hp Hl. revert j s Ha. induction fuel as [|f IH]; intros j s Ha Hj Hk Hf Hs; [lia|].
  pose proof (ha_length _ _ Ha) as Hlen. pose proof (ha_good _ _ Ha) as Hg.
  cbn [scan_down]. eapply arranges_bind; [apply (arranges_less a); try done; lia|].
  intros b a1 s1 _ Ha1 [-> ->]. destruct (lt (elt a p) (elt a (j - 1))) eqn:Elt.
  2:{ apply arranges_ret; [done|]. split; [done|]. split; [lia|]. split; [done|lia]. }
  assert (j - 1 <> k) by (intros E; rewrite <- E in Hs; unfold le in Hs; congruence).
  destruct (Z.leb_spec (j - 1) l); [lia|].
  eapply arranges_conseq; [apply IH; try done; lia|lia|lia|].
  intros r a2 _ (-> & Hr & Hle & Hx). split; [done|]. split; [lia|]. split; [done|].
  intros x Hxr. destruct (Z.eq_dec x (j - 1)) as [->|]; [|apply Hx; lia].
  apply lt_le; [..|done]; apply good_elt; try done; lia.
Qed.

(** The elements up to [i] are at most the pivot, those from [j] on at least. *)
Definition split_at (l i j u : Z) (v : TValue) (a : list TValue) : Prop :=
  (forall x, l <= x <= i -> le (elt a x) v) /\ (forall x, j <= x <= u -> le v (elt a x)).

Lemma partition_order fuel l u i j a s :
  holds_array a s -> 0 <= l -> u < N -> l <= i < u - 1 -> i <= j -> l < j < u ->
  (Z.to_nat (u - i) <= fuel)%nat -> split_at l i j u (elt a (u - 1)) a ->
  arranges (partition W pred fuel l u (u - 1) i j) l (u - 2) a
    (fun r a' => l < r < u /\ split_at l (r - 1) r u (elt a (u - 1)) a') s.
Proof.
  intros Ha Hl Hu. revert i j a s Ha.
  induction fuel as [|f IH]; intros i j a s Ha Hi Hij Hj Hf [Hlo Hhi]; [lia|].
  pose proof (ha_length _ _ Ha) as Hlen. set (v := elt a (u - 1)) in *.
  cbn [partition]. eapply arranges_bind.
  { apply (scan_up_order _ u (u - 1) i (Z.max j (i + 1))); try done; try lia. apply Hhi. lia. }
  intros i1 a1 s1 _ Ha1 (-> & Hi1 & Hv1 & Hx1). fold v in Hv1, Hx1.
  assert (Hlo1 : forall x, l <= x < i1 -> le (elt a x) v).
  { intros x Hx. destruct (Z_le_dec x i); [apply Hlo; lia|apply Hx1; lia]. }
  eapply arranges_bind.
  { apply (scan_down_order _ l (u - 1) j (Z.min (i1 - 1) (j - 1))); try done; try lia.
    apply Hlo1. lia. }
  intros j1 a2 s2 _ Ha2 (-> & Hj1 & Hv2 & Hx2). fold v in Hv2, Hx2.
  assert (Hhi1 : forall x, j1 < x <= u -> le v (elt a x)).
  { intros x Hx. destruct (Z_lt_dec x j); [apply Hx2; lia|apply Hhi; lia]. }
  destruct (Z.ltb_spec j1 i1) as [Hlt|Hge].
  { apply arranges_ret; [done|]. split; [lia|].
    split; intros x Hx; [apply Hlo1; lia|apply Hhi1; lia]. }
  assert (inside a i1 /\ inside a j1) as [Ii Ij] by (unfold inside; lia).
  eapply arranges_bind; [apply arranges_swap; try done; lia|].
  intros [] a3 s3 _ Ha3 ->.
  assert (Ev : elt (swap_elts a i1 j1) (u - 1) = v).
  { rewrite elt_swap by (try done; lia).
    by rewrite (proj2 (Z.eqb_neq (u - 1) j1)), (proj2 (Z.eqb_neq (u - 1) i1)) by lia. }
  pose proof (IH i1 j1 _ s3 Ha3) as Hn. rewrite Ev in Hn. apply Hn; try lia.
  split; intros x Hx; rewrite elt_swap by (try done; lia);
    destruct (Z.eqb_spec x j1); destruct (Z.eqb_spec x i1); try done; try (apply Hlo1; lia);
    try (apply Hhi1; lia); subst; try lia; done.
Qed.

(** ** Quicksort *)

Lemma midpoint_bounds l u : l < u -> l <= l + Z.shiftr (u - l) 1 < u /\
  (2 <= u - l -> l < l + Z.shiftr (u - l) 1).
Proof.
  intros Hlu. rewrite Z.shiftr_div_pow2 by lia. change (2 ^ 1) with 2.
  pose proof (Z.div_mod (u - l) 2). pose proof (Z.mod_pos_bound (u - l) 2). lia.
Qed.

Lemma arranges_assoc {A B C} (m : M W A) (f : A -> M W B) (g : B -> M W C) lo hi a P s :
  arranges (bind W (bind W m f) g) lo hi a P s ->
  arranges (bind W m (fun x => bind W (f x) g)) lo hi a P s.
Proof. unfold arranges, wp, bind. by destruct (m s) as [[x|e|w] s']. Qed.

Lemma sorted_pair l a :
  goods a -> 0 <= l -> l + 1 < N -> le (elt a l) (elt a (l + 1)) ->
  sorted_range l (l + 1) a.
Proof.
  intros Hg Hl Hl1 Hle x y Hx Hxy Hy.
  assert (x = y \/ x = l /\ y = l + 1) as [->|[-> ->]] by lia; [|done].
  apply le_refl, good_elt; [done|]. lia.
Qed.

(** A comparison followed by the swap that it asks for; [le x y] afterwards. *)
Lemma less_swap a s i j lo hi :
  holds_array a s -> lo <= i <= hi -> lo <= j <= hi -> 0 <= lo -> hi < N ->
  arranges (bind W (sort_less W pred i j) (fun b => if b then sort_swap W i j else ret W ())) lo hi a
    (fun _ a' => le (elt a' j) (elt a' i) /\ (a' = a \/
       lt (elt a i) (elt a j) = true /\ a' = swap_elts a i j)) s.
Proof.
  intros Ha Hi Hj Hl Hh. pose proof (ha_length _ _ Ha). pose proof (ha_good _ _ Ha).
  assert (inside a i /\ inside a j) as [Ii Ij] by (unfold inside; lia).
  eapply arranges_bind; [apply (arranges_less a); try done; lia|].
  intros b a1 s1 _ Ha1 [-> ->]. destruct (lt _ _) eqn:E.
  - eapply arranges_conseq; [by apply (arranges_swap a _ _ _ lo hi)|lia|lia|].
    intros _ a2 _ ->. split; [|by right]. rewrite !elt_swap by (try done; lia).
    rewrite Z.eqb_refl. destruct (Z.eqb_spec i j) as [->|].
    + apply le_refl, good_elt; [done|lia].
    + rewrite Z.eqb_refl. apply lt_le; [..|done]; apply good_elt; try done; lia.
  - apply arranges_ret; [done|]. split; [exact E|by left].
Qed.

(** The median of three. *)
Definition ordered_three (l m u : Z) (a : list TValue) : Prop :=
  le (elt a l) (elt a m) /\ le (elt a m) (elt a u).

(** The second half of [sort_three]. *)
Lemma median_order l m u a s :
  holds_array a s -> 0 <= l -> l < m < u -> u < N -> le (elt a l) (elt a u) ->
  arranges (bind W (sort_less W pred m l) (fun b =>
              if b then sort_swap W m l
              else bind W (sort_less W pred u m) (fun b => if b then sort_swap W m u else ret W ())))
    l u a (fun _ => ordered_three l m u) s.
Proof.
  intros Ha Hl Hm Hu Hle. pose proof (ha_length _ _ Ha) as Hlen. pose proof (ha_good _ _ Ha) as Hg.
  assert (Hin : forall x, l <= x <= u -> inside a x) by (intros; unfold inside; lia).
  assert (Hgd : forall x, l <= x <= u -> good (elt a x)) by (intros; apply good_elt; [done|lia]).
  assert (Hne : forall x y, x <> y -> (x =? y) = false) by (intros; by apply Z.eqb_neq).
  eapply arranges_bind; [apply (arranges_less a); try done; lia|].
  intros b a1 s1 _ Ha1 [-> ->]. destruct (lt (elt a m) (elt a l)) eqn:E1.
  - eapply arranges_conseq; [apply (arranges_swap a _ _ _ l u); try done; lia|lia|lia|].
    intros _ a2 _ ->. unfold ordered_three. rewrite !elt_swap by (try apply Hin; lia).
    rewrite !Z.eqb_refl, (Hne m l), (Hne u l), (Hne u m) by lia.
    split; [apply lt_le; try done; apply Hgd; lia|done].
  - eapply arranges_bind; [apply (arranges_less a); try done; lia|].
    intros b a2 s2 _ Ha2 [-> ->]. destruct (lt (elt a u) (elt a m)) eqn:E2.
    + eapply arranges_conseq; [apply (arranges_swap a _ _ _ l u); try done; lia|lia|lia|].
      intros _ a3 _ ->. unfold ordered_three. rewrite !elt_swap by (try apply Hin; lia).
      rewrite !Z.eqb_refl, (Hne l m), (Hne l u), (Hne m u) by lia.
      split; [done|apply lt_le; try done; apply Hgd; lia].
    + by apply arranges_ret.
Qed.

Lemma sort_three_order l u a s :
  holds_array a s -> 0 <= l -> l < u -> u < N ->
  arranges (sort_three W pred l u) l u a
    (fun more a' => if more : bool then 3 <= u - l /\ ordered_three l (l + Z.shiftr (u - l) 1) u a'
                    else sorted_range l u a') s.
Proof.
  intros Ha Hl Hlu Hu. unfold sort_three.
  destruct (midpoint_bounds l u Hlu) as [Hm Hm2]. set (m := l + _) in *.
  apply arranges_assoc. eapply arranges_bind; [apply less_swap; try done; lia|].
  intros [] a1 s1 _ Ha1 [Hle _].
  pose proof (ha_length _ _ Ha1) as Hlen. pose proof (ha_good _ _ Ha1) as Hg.
  destruct (Z.eqb_spec (u - l) 1).
  { apply arranges_ret; [done|]. replace u with (l + 1) in * by lia.
    apply sorted_pair; try done; lia. }
  assert (Hlm : l < m) by (apply Hm2; lia). clearbody m. apply arranges_assoc.
  eapply arranges_bind; [apply median_order; try done; lia|].
  intros [] a2 s2 _ Ha2 [Hlm' Hmu]. apply arranges_ret; [done|].
  destruct (Z.eqb_spec (u - l) 2); cbn [negb]; [|split; [lia|done]].
  pose proof (ha_length _ _ Ha2). pose proof (ha_good _ _ Ha2).
  assert (m = l + 1) as -> by lia. assert (u = l + 1 + 1) as -> by lia.
  apply sorted_join with (l + 1).
  - apply sorted_single; try done; lia.
  - apply sorted_pair; try done; lia.
  - intros x y Hx Hxm Hmy Hy. assert (x = l) as -> by lia.
    assert (y = l + 1 \/ y = l + 1 + 1) as [->| ->] by lia; [done|].
    eapply le_trans; [..|exact Hmu]; try done; apply good_elt; try done; lia.
Qed.

(** The pivot changes places with the element at [r]. *)
Lemma pivot_placed l u r a :
  goods a -> 0 <= l -> u < N -> N <= Z.of_nat (length a) -> l < r < u ->
  split_at l (r - 1) r u (elt a (u - 1)) a ->
  let a' := swap_elts a (u - 1) r in below l r u a' /\ below l (r + 1) u a'.
Proof.
  intros Hg Hl Hu HN Hr [Hlo Hhi] a'. set (v := elt a (u - 1)) in *.
  assert (Hin : forall x, l <= x <= u -> inside a x) by (intros; unfold inside; lia).
  assert (Hgd : forall x, l <= x <= u -> good (elt a x)) by (intros; apply good_elt; [done|lia]).
  assert (Hv : good v) by (apply Hgd; lia).
  assert (He : forall x, l <= x <= u -> elt a' x = if x =? r then v else if x =? u - 1 then elt a r else elt a x).
  { intros x Hx. unfold a'. rewrite elt_swap by (try apply Hin; lia). done. }
  assert (Hlo' : forall x, l <= x <= r -> le (elt a' x) v).
  { intros x Hx. rewrite He by lia. destruct (Z.eqb_spec x r); [by apply le_refl|].
    rewrite (proj2 (Z.eqb_neq x (u - 1))) by lia. apply Hlo. lia. }
  assert (Hhi' : forall x, r <= x <= u -> le v (elt a' x)).
  { intros x Hx. rewrite He by lia. destruct (Z.eqb_spec x r); [by apply le_refl|].
    destruct (Z.eqb_spec x (u - 1)); apply Hhi; lia. }
  assert (Hg' : forall x, l <= x <= u -> good (elt a' x)).
  { intros x Hx. rewrite He by lia. destruct (x =? r); [done|]. destruct (x =? u - 1); apply Hgd; lia. }
  split; intros x y Hx Hxr Hry Hy; apply le_trans with v; try done;
    try (apply Hg'; lia); try (apply Hlo'; lia); apply Hhi'; lia.
Qed.

(** Both halves sorted, one after the other, around the element at [r]. *)
Lemma halves_sort l r u l1 u1 l2 u2 m1 m2 a s :
  holds_array a s -> 0 <= l -> u < N -> l < r < u ->
  (l1 = l /\ u1 = r - 1 /\ l2 = r + 1 /\ u2 = u \/ l1 = r + 1 /\ u1 = u /\ l2 = l /\ u2 = r - 1) ->
  below l r u a -> below l (r + 1) u a ->
  arranges m1 l1 u1 a (fun _ => sorted_range l1 u1) s ->
  (forall a' s', holds_array a' s' -> arranges m2 l2 u2 a' (fun _ => sorted_range l2 u2) s') ->
  arranges (bind W m1 (fun _ : unit => m2)) l u a (fun _ : unit => sorted_range l u) s.
Proof.
  intros Ha Hl Hu Hr Hcase Hb1 Hb2 Hm1 Hm2.
  eapply arranges_bind.
  { eapply arranges_conseq; [exact Hm1|lia|lia|]. intros x a1 Hp Hs. exact (conj Hp Hs). }
  intros [] a1 s1 _ Ha1 [Hp1 Hs1].
  eapply arranges_conseq; [by apply Hm2|lia|lia|]. intros [] a2 Hp2 Hs2.
  pose proof (ha_good _ _ Ha1) as Hg1. pose proof (ha_length _ _ Ha1) as Hlen1.
  pose proof (permuted_length _ _ _ _ Hp2).
  assert (Hg2 : goods a2) by (eapply goods_permuted; [| |exact Hp2|done]; lia).
  assert (Hs1' : sorted_range l1 u1 a2).
  { eapply (sorted_range_outside l1 u1 l2 u2 a1 a2); try done; lia. }
  assert (Hb : forall mid, r <= mid <= r + 1 -> below l mid u a -> below l mid u a2).
  { intros mid Hmid Hb. apply (below_permuted l mid u l2 u2 a1 a2); try done; try lia.
    apply (below_permuted l mid u l1 u1 a a1); try done; lia. }
  apply sorted_join with r.
  - destruct Hcase as [(-> & -> & -> & ->)|(-> & -> & -> & ->)]; done.
  - apply sorted_join with (r + 1).
    + apply sorted_single; try done; lia.
    + destruct Hcase as [(-> & -> & -> & ->)|(-> & -> & -> & ->)]; done.
    + intros x y Hx Hxr Hry Hy. apply (Hb (r + 1)); try done; lia.
  - apply Hb; [lia|done].
Qed.

Lemma sort_trip_sorts rec next l u limit a s :
  holds_array a s -> 0 <= l -> u < N ->
  (forall l' u' lim a' s', 3 <= u - l -> l <= l' -> u' <= u -> 2 * (u' - l' + 1) <= u - l ->
     holds_array a' s' -> arranges (rec l' u' lim) l' u' a' (fun _ => sorted_range l' u') s') ->
  (forall l' u' lim a' s', l < u -> l <= l' -> u' <= u -> u' - l' < u - l ->
     holds_array a' s' -> arranges (next l' u' lim) l' u' a' (fun _ => sorted_range l' u') s') ->
  arranges (sort_trip W pred rec next l u limit) l u a (fun _ => sorted_range l u) s.
Proof.
  intros Ha Hl Hu Hrec Hnext. unfold sort_trip.
  pose proof (ha_length _ _ Ha) as Hlen. pose proof (ha_good _ _ Ha) as Hg.
  destruct (Z.ltb_spec l u) as [Hlu|Hul].
  2:{ apply arranges_ret; [done|]. destruct (Z.eq_dec l u) as [->|].
      - apply sorted_single; try done; lia.
      - intros x y. lia. }
  destruct (limit =? 0); [apply sort_heap_sorts; try done; lia|].
  eapply arranges_bind; [apply sort_three_order; done|].
  intros more a1 s1 _ Ha1 Hm. destruct more; cbn [negb]; [|by apply arranges_ret].
  destruct Hm as [Hn [Hlm Hmu]].
  destruct (midpoint_bounds l u Hlu) as [Hmb Hmb2]. specialize (Hmb2 ltac:(lia)).
  set (m := l + _) in *. clearbody m.
  pose proof (ha_length _ _ Ha1) as Hlen1.
  eapply arranges_bind; [apply arranges_swap; try done; lia|].
  intros [] a2 s2 _ Ha2 Ea2. assert (Hin : forall x, l <= x <= u -> inside a1 x) by (intros; unfold inside; lia).
  eapply arranges_bind.
  { eapply arranges_conseq; [apply (partition_order _ l u l (u - 1) a2); try done; try lia|lia|lia|].
    - rewrite Ea2. split; intros x Hx; rewrite !elt_swap by (try apply Hin; lia);
        rewrite Z.eqb_refl.
      + replace x with l by lia. rewrite (proj2 (Z.eqb_neq l (u - 1))), (proj2 (Z.eqb_neq l m)) by lia. done.
      + destruct (Z.eqb_spec x (u - 1)).
        * apply le_refl, good_elt; [apply (ha_good _ _ Ha1)|lia].
        * rewrite (proj2 (Z.eqb_neq x m)) by lia. by replace x with u by lia.
    - intros r a3 Hp3 Hr. exact (conj Hp3 Hr). }
  intros r a3 s3 _ Ha3 (Hp3 & Hr & Hsp).
  assert (Ev : elt a3 (u - 1) = elt a2 (u - 1)).
  { destruct (permuted_spec _ _ _ _ Hl Hp3) as (_ & Ho & _). apply Ho; lia. }
  rewrite <- Ev in Hsp. eapply arranges_bind; [apply arranges_swap; try done; lia|].
  intros [] a4 s4 _ Ha4 Ea4. pose proof (ha_length _ _ Ha3) as Hlen3.
  destruct (pivot_placed l u r a3 (ha_good _ _ Ha3) Hl ltac:(lia) ltac:(lia) Hr Hsp) as [Hb1 Hb2].
  rewrite <- Ea4 in Hb1, Hb2.
  destruct (Z.ltb_spec (r - l) (u - r)).
  - apply (halves_sort l r u l (r - 1) (r + 1) u); try done; [by left|apply Hrec; try done; lia|].
    intros a' s' Ha'. apply Hnext; try done; lia.
  - apply (halves_sort l r u (r + 1) u l (r - 1)); try done; [by right|apply Hrec; try done; lia|].
    intros a' s' Ha'. apply Hnext; try done; lia.
Qed.

Lemma sort_rec_sorts depth l u limit a s :
  holds_array a s -> 0 <= l -> u < N -> (1 <= depth)%nat -> u - l + 1 < 2 ^ Z.of_nat depth ->
  arranges (sort_rec W pred depth l u limit) l u a (fun _ => sorted_range l u) s.
Proof.
  revert l u limit a s. induction depth as [|d IH]; intros l u limit a s Ha Hl Hu Hd Hn; [lia|].
  cbn [sort_rec]. rewrite Nat2Z.inj_succ, Z.pow_succ_r in Hn by lia.
  assert (Hf : (Z.to_nat (u - l) < S (Z.to_nat (u - l)))%nat) by lia. revert Hf.
  generalize (S (Z.to_nat (u - l))) as fuel. intros fuel. revert l u limit a s Ha Hl Hu Hn.
  induction fuel as [|f IHf]; intros l u limit a s Ha Hl Hu Hn Hf; [lia|].
  cbn [sort_loop]. apply sort_trip_sorts; try done.
  - intros l' u' lim a' s' ? ? ? ? Ha'. apply IH; try done; try lia. destruct d; [cbn in Hn|]; lia.
  - intros l' u' lim a' s' ? ? ? ? Ha'. apply IHf; try done; lia.
Qed.
End Order.
