(* ===== verification/SortLib.v ===== *)
(** [table.sort] as a whole: the length of the table, the checks, the choice of
    the comparison and the sort.  The comparison of the machine is a strict weak
    order on numbers that are no NaN and on strings. *)
From stdpp Require Import sorting relations.
From S2P Require Import Prelude Word Double DoubleExact LuaApi Tm Arith Compare Key TableNode Table.
From S2P Require Import TableSpec TableIter TableMap Sort SortSpec SortOrder.
Open Scope Z_scope.

(** * The table after a sort *)

Section Rearranged.
Context `{VecSize, Target}.

Lemma wf_set_array t a : wf_table t -> length a = length (array t) -> wf_table (set_array a t).
Proof.
  intros [W1 W2 W3 W4] Hl. unfold sizearray in *.
  split; unfold sizearray; cbn [array set_array node lastfree lsizenode]; rewrite ?Hl; done.
Qed.

Lemma permuted_take_drop n lo hi a a' :
  0 <= lo -> hi < Z.of_nat n -> permuted lo hi a a' ->
  drop n a' = drop n a /\ take n a' ≡ₚ take n a.
Proof.
  intros Hl Hh Hp. pose proof (permuted_length _ _ _ _ Hp) as Hlen.
  destruct (permuted_spec _ _ _ _ Hl Hp) as (HP & Ho & _).
  assert (Hd : drop n a' = drop n a).
  { apply list_eq. intros i. rewrite !lookup_drop.
    destruct (decide (n + i < length a)%nat) as [Hi|Hi].
    2:{ by rewrite !lookup_ge_None_2 by lia. }
    pose proof (Ho (Z.of_nat (n + i)) ltac:(lia) ltac:(lia)) as E.
    rewrite <- (Nat2Z.id (n + i)). rewrite !elt_lookup by (unfold inside; lia). by rewrite E. }
  split; [done|]. apply Permutation_app_inv_r with (drop n a).
  rewrite take_drop, <- Hd, take_drop. done.
Qed.

(** [t'] is [t] with the elements up to its length in another order. *)
Definition rearranged (t t' : LuaTable) : Prop :=
  wf_table t' /\ (exists lf a, t' = set_array a (set_lastfree lf t)) /\
  exists t1 n, luaH_getn t = Ret (t1, n) /\ 0 <= n <= sizearray t /\
    take (Z.to_nat n) (array t') ≡ₚ take (Z.to_nat n) (array t) /\
    drop (Z.to_nat n) (array t') = drop (Z.to_nat n) (array t).

Lemma rearranged_permuted t lf n a :
  luaH_getn t = Ret (set_lastfree lf t, n) -> border t n -> wf_table (set_lastfree lf t) ->
  permuted 0 (n - 1) (array t) a -> rearranged t (set_array a (set_lastfree lf t)).
Proof.
  intros Hg [Hn _] Hwf Hp. destruct (permuted_take_drop (Z.to_nat n) 0 (n - 1) (array t) a) as [Hd Ht];
    [lia|lia|done|].
  split; [|split; [eauto|]].
  - apply wf_set_array; [done|]. apply (permuted_length _ _ _ _ Hp).
  - by exists (set_lastfree lf t), n.
Qed.

Lemma rearranged_lastfree t lf n :
  luaH_getn t = Ret (set_lastfree lf t, n) -> border t n -> wf_table (set_lastfree lf t) ->
  rearranged t (set_lastfree lf t).
Proof.
  intros Hg Hb Hwf. pose proof (rearranged_permuted t lf n (array t) Hg Hb Hwf (rtc_refl _ _)) as Hr.
  by replace (set_array (array t) (set_lastfree lf t)) with (set_lastfree lf t) in Hr by by destruct t.
Qed.

Lemma rearranged_refl t : wf_table t -> rearranged t t.
Proof.
  intros Hwf. destruct (getn_wf t Hwf) as (lf & n & Hg & [Hn _] & _). split; [done|]. split.
  - exists (lastfree t), (array t). by destruct t.
  - by exists (set_lastfree lf t), n.
Qed.
End Rearranged.

(** * The library function *)

Section Library.
Context `{VecSize, Target}.
Context {W : Type} (call : TValue -> list TValue -> M W TValue) (objects : sort_state W -> heap).
Context (call_defined : forall f args s, is_defined (call f args s).1 = true).

Lemma sort_depth_enough n : 0 < n -> (1 <= sort_depth n)%nat /\ n < 2 ^ Z.of_nat (sort_depth n).
Proof.
  intros Hn. unfold sort_depth. pose proof (Z.log2_nonneg n). pose proof (Z.log2_spec n Hn).
  rewrite Z2Nat.id by lia. replace (Z.succ (Z.log2 n)) with (Z.log2 n + 1) in * by lia. lia.
Qed.

(** The comparison that the arguments select. *)
Definition select_pred (args : list TValue) : option (SortPredicate W) :=
  if negb (lua_isnoneornil args 2) then
    match luaL_checkfunction args 2 with Ret f => Some (sort_func W call f) | _ => None end
  else Some (sort_lessthan W call objects).

Lemma lessthan_defined h l r : is_defined (luaV_lessthan h l r) = true.
Proof.
  unfold luaV_lessthan, luaG_ordererror, call_orderTM_error, luaG_ordererror.
  repeat case_match; done.
Qed.

Lemma sort_func_defined f l r s : is_defined (sort_func W call f l r s).1 = true.
Proof.
  unfold sort_func, bind. pose proof (call_defined f [l; r] s) as Hd.
  by destruct (call f [l; r] s) as [[]].
Qed.

Lemma sort_lessthan_defined l r s : is_defined (sort_lessthan W call objects l r s).1 = true.
Proof.
  unfold sort_lessthan. pose proof (lessthan_defined (objects s) l r) as Hd.
  destruct (luaV_lessthan (objects s) l r) as [[b|f args k]|e|w]; try done.
  unfold bind. pose proof (call_defined f args s) as Hc. by destruct (call f args s) as [[]].
Qed.

Lemma select_pred_defined args pred l r s :
  select_pred args = Some pred -> is_defined (pred l r s).1 = true.
Proof.
  unfold select_pred. destruct (negb _).
  - destruct (luaL_checkfunction args 2); intros [= <-]. apply sort_func_defined.
  - intros [= <-]. apply sort_lessthan_defined.
Qed.

(** What holds of every error and of every sort holds of the call. *)
Lemma wp_tsort args s (Q : list TValue -> sort_state W -> Prop) E :
  wf_table (st_table W s) ->
  (forall e, E e s) ->
  (forall lf n, let s1 := set_table W (set_lastfree lf (st_table W s)) s in
     luaH_getn (st_table W s) = Ret (set_lastfree lf (st_table W s), n) ->
     border (st_table W s) n -> wf_table (st_table W s1) ->
     (forall e, E e s1) /\ (n <= 0 -> Q [] s1) /\
     forall pred, select_pred args = Some pred -> 0 < n ->
       wp (sort_rec W pred (sort_depth n) 0 (n - 1) n) (fun _ => Q []) E s1) ->
  wp (tsort W call objects args) Q E s.
Proof.
  intros Hwf HE HR. unfold tsort. apply wp_bind. unfold lift, wp at 1, luaL_checktable.
  assert (HT : forall A (f : A -> _ -> Prop), wp (lift W (@tag_error A 1 "table")) f E s)
    by (intros; apply HE).
  destruct (index2addr args 1) as [[]|]; try apply HE. clear HT.
  destruct (getn_wf _ Hwf) as (lf & n & Hg & Hb & Hwf1).
  destruct (HR lf n Hg Hb Hwf1) as (HE1 & HQ & HS). clear HR.
  apply wp_bind. unfold wp at 1, t_getn. rewrite Hg. set (s1 := set_table W _ s) in *.
  apply wp_bind. unfold wp at 1, t_readonly. apply wp_bind.
  destruct (readonly (st_table W s1)); [apply HE1|]. apply wp_ret. apply wp_bind.
  unfold select_pred in HS. destruct (negb (lua_isnoneornil args 2)).
  - apply wp_bind. unfold wp at 1, lift.
    destruct (luaL_checkfunction args 2) as [f|e|w] eqn:Ef; [|apply HE1|].
    + apply wp_ret. apply wp_bind. destruct (Z.ltb_spec 0 n); [|apply wp_ret, wp_ret; auto].
      by apply HS.
    + unfold luaL_checkfunction in Ef. by destruct (index2addr args 2) as [[]|].
  - apply wp_ret. apply wp_bind. destruct (Z.ltb_spec 0 n); [|apply wp_ret, wp_ret; auto].
    by apply HS.
Qed.

(** C14. Whatever the comparison does - change the table, raise an error, answer
    at random - [table.sort] reads and writes the array within its bounds only,
    recurses at most [log2 n + 1] levels deep, and ends; when it returns, the
    array has the size it had, and a comparison that changes the size is
    answered by an error. *)
Theorem table_sort_safe args s :
  wf_table (st_table W s) ->
  match tsort W call objects args s with
  | (Ret r, s') => r = [] /\ sizearray (st_table W s') = sizearray (st_table W s)
  | (Throw _, _) => True
  | (Undefined _, _) => False
  end.
Proof.
  intros Hwf. set (n0 := sizearray (st_table W s)).
  apply (wp_tsort args s (fun r s' => r = [] /\ sizearray (st_table W s') = n0) (fun _ _ => True));
    [done|done|].
  intros lf n s1 Hg Hb Hwf1. split; [done|]. split; [done|]. intros pred Hp Hn.
  destruct (sort_depth_enough n Hn) as [Hd1 Hd2]. destruct Hb as [Hb _].
  eapply wp_conseq; [apply sort_rec_safe; try lia|].
  - intros. by eapply select_pred_defined.
  - change (sizearray (st_table W s1)) with n0. unfold n0. lia.
  - cbv beta. intros _ s' Hs'. done.
Qed.

(** C20. When the comparison leaves the table alone, [table.sort] leaves a
    permutation of the elements up to the length of the table and everything
    else as it was - also when it ends with an error, be it the comparison's or
    "invalid order function for sorting" - and the table keeps its invariant. *)
Theorem table_sort_permutes args s :
  (forall f a s', st_table W (call f a s').2 = st_table W s') ->
  wf_table (st_table W s) ->
  match tsort W call objects args s with
  | (Ret _, s') | (Throw _, s') => rearranged (st_table W s) (st_table W s')
  | (Undefined _, _) => False
  end.
Proof.
  intros Hk Hwf. set (R := fun s' => rearranged (st_table W s) (st_table W s')).
  cut (wp (tsort W call objects args) (fun _ => R) (fun _ => R) s).
  { unfold wp. by destruct (tsort W call objects args s) as [[r|e|w] s']. }
  apply wp_tsort; [done|by intros; apply rearranged_refl|].
  intros lf n s1 Hg Hb Hwf1.
  assert (Hr : R s1) by by apply (rearranged_lastfree _ lf n).
  split; [done|]. split; [done|]. intros pred Hp Hn.
  destruct (sort_depth_enough n Hn) as [Hd1 Hd2]. pose proof Hb as [Hb1 _].
  assert (Hstep : forall s', table_permuted 0 (n - 1) s1 s' -> R s').
  { intros s' (a & Ha & Et). unfold R. rewrite Et. by apply (rearranged_permuted _ lf n). }
  eapply wp_mono; [| |apply sort_rec_permutes; try lia].
  - intros ? s2. apply Hstep.
  - intros ? s2. apply Hstep.
  - intros. by eapply select_pred_defined.
  - intros l r s'. revert Hp. unfold select_pred. destruct (negb _).
    + destruct (luaL_checkfunction args 2) as [f| |]; intros [= <-]. unfold sort_func, bind.
      specialize (Hk f [l; r] s'). by destruct (call f [l; r] s') as [[] ?].
    + intros [= <-]. unfold sort_lessthan.
      destruct (luaV_lessthan (objects s') l r) as [[b|f a k]|e|w]; try done.
      unfold bind. specialize (Hk f a s'). by destruct (call f a s') as [[] ?].
  - unfold sizearray in *. cbn. lia.
Qed.
End Library.

(** * Sorted *)

(** [lt] is a strict weak order on the [good] values: its complement is total
    and transitive. *)
Record weak_order (good : TValue -> Prop) (lt : TValue -> TValue -> bool) : Prop := {
  wo_total : forall x y, good x -> good y -> le lt x y \/ le lt y x;
  wo_trans : forall x y z, good x -> good y -> good z -> le lt x y -> le lt y z -> le lt x z;
}.

Section Sorted.
Context `{VecSize, Target}.
Context {W : Type} (call : TValue -> list TValue -> M W TValue) (objects : sort_state W -> heap).

(** The result of a sort of the elements up to the length of the table. *)
Definition sorted_by (lt : TValue -> TValue -> bool) (t t' : LuaTable) : Prop :=
  rearranged t t' /\
  forall t1 n i j x y, luaH_getn t = Ret (t1, n) -> (i <= j)%nat -> Z.of_nat j < n ->
    array t' !! i = Some x -> array t' !! j = Some y -> lt y x = false.

(** The first elements are good. *)
Definition good_prefix (good : TValue -> Prop) (t : LuaTable) : Prop :=
  forall t1 n i x, luaH_getn t = Ret (t1, n) -> Z.of_nat i < n -> array t !! i = Some x -> good x.

Lemma tsort_sorted pred args good lt s :
  (forall l r s', good l -> good r ->
     exists w, pred l r s' = (Ret (lt l r), {| st_table := st_table W s'; st_world := w |})) ->
  weak_order good lt ->
  wf_table (st_table W s) -> readonly (st_table W s) = false ->
  (exists g, index2addr args 1 = Some (LTable g)) -> select_pred call objects args = Some pred ->
  good_prefix good (st_table W s) ->
  exists s', tsort W call objects args s = (Ret [], s') /\
    sorted_by lt (st_table W s) (st_table W s').
Proof.
  intros Hpred [Htot Htr] Hwf Hro [g Ha1] Hsel Hgood. set (t := st_table W s) in *.
  destruct (getn_wf t Hwf) as (lf & n & Hg & Hb & Hwf1). pose proof Hb as [Hn _].
  set (t1 := set_lastfree lf t) in *. set (s1 := set_table W t1 s).
  assert (Hrun : tsort W call objects args s =
    bind W (if 0 <? n then sort_rec W pred (sort_depth n) 0 (n - 1) n else ret W ())
      (fun _ => ret W []) s1).
  { unfold tsort, bind at 1, lift at 1, luaL_checktable. rewrite Ha1. unfold bind at 1, t_getn.
    fold t. rewrite Hg. fold s1. unfold bind at 1, t_readonly.
    change (readonly (st_table W s1)) with (readonly t). rewrite Hro. unfold bind at 1, ret at 1.
    unfold bind at 1. revert Hsel. unfold select_pred.
    destruct (negb (lua_isnoneornil args 2)).
    - unfold bind at 2, lift. destruct (luaL_checkfunction args 2); intros [= <-]. done.
    - intros [= <-]. done. }
  rewrite Hrun. clear Hrun. destruct (Z.ltb_spec 0 n) as [Hn0|Hn0].
  2:{ exists s1. split; [done|]. split; [by apply (rearranged_lastfree t lf n)|].
      intros t2 n2 i j x y Hg2. rewrite Hg in Hg2. injection Hg2 as _ <-. lia. }
  destruct (sort_depth_enough n Hn0) as [Hd1 Hd2].
  pose proof (sort_rec_sorts pred good lt Hpred Htot Htr t1 n) as Hs.
  specialize (Hs ltac:(unfold sizearray in Hn; cbn; lia) (sort_depth n) 0 (n - 1) n (array t) s1).
  assert (Hha : holds_array good t1 n (array t) s1).
  { split; [by destruct t|done|]. intros i Hi. unfold elt.
    destruct (lookup_lt_is_Some_2 (array t) (Z.to_nat i)) as [v Hv]; [unfold sizearray in Hn; lia|].
    rewrite Hv. cbn. eapply Hgood; [exact Hg| |exact Hv]. lia. }
  specialize (Hs Hha ltac:(lia) ltac:(lia) Hd1 ltac:(lia)).
  unfold arranges, wp in Hs. unfold bind.
  destruct (sort_rec W pred (sort_depth n) 0 (n - 1) n s1) as [[[]|e|w] s2]; [|done|done].
  destruct Hs as (a & Hp & [Et Hl _] & Hso). exists s2. split; [done|]. rewrite Et.
  split; [by apply (rearranged_permuted t lf n)|].
  intros t2 n2 i j x y Hg2 Hij Hj Hx Hy. rewrite Hg in Hg2. injection Hg2 as _ <-.
  pose proof (Hso (Z.of_nat i) (Z.of_nat j) ltac:(lia) ltac:(lia) ltac:(lia)) as Hle.
  unfold elt in Hle. rewrite !Nat2Z.id in Hle. cbn in Hx, Hy. rewrite Hx, Hy in Hle. done.
Qed.

(** C13. [table.sort] with a Lua function that decides a strict weak order on
    the elements up to the length of the table raises no error, permutes these
    elements, changes nothing else, and leaves them sorted: no element is less
    than one before it. *)
Theorem table_sort_sorts g f good lt s :
  (forall l r s', good l -> good r -> exists v w,
     call (LFunction f) [l; r] s' = (Ret v, {| st_table := st_table W s'; st_world := w |}) /\
     lt l r = negb (l_isfalse v)) ->
  weak_order good lt ->
  wf_table (st_table W s) -> readonly (st_table W s) = false ->
  good_prefix good (st_table W s) ->
  exists s', tsort W call objects [LTable g; LFunction f] s = (Ret [], s') /\
    sorted_by lt (st_table W s) (st_table W s').
Proof.
  intros Hf Hwo Hwf Hro Hgood. eapply (tsort_sorted (sort_func W call (LFunction f))); try done.
  - intros l r s' Hl Hr. destruct (Hf l r s' Hl Hr) as (v & w & E & Hlt). exists w.
    unfold sort_func, bind. by rewrite E, Hlt.
  - by exists g.
Qed.

(** ** The order of the machine *)

Definition value_lt (l r : TValue) : bool :=
  match l, r with
  | LNumber a, LNumber b => d_lt a b
  | LString a, LString b => luaV_strcmp a b <? 0
  | _, _ => false
  end.

Definition good_number (v : TValue) : Prop := exists d, v = LNumber d /\ d_isnan d = false.
Definition good_string (v : TValue) : Prop := exists x, v = LString x /\ Forall (in_u 8) x.

(** A number as a lexicographic triple: the class, the exponent, the mantissa. *)
Definition dkey (d : double) : Z * Z * Z :=
  match d with
  | S754_zero _ | S754_nan => (0, 0, 0)
  | S754_infinity s => (if s then -2 else 2, 0, 0)
  | S754_finite s m e => if s then (-1, - e, - Zpos m) else (1, e, Zpos m)
  end.

Definition key_lt (x y : Z * Z * Z) : Prop :=
  let '(a, b, c) := x in let '(a', b', c') := y in
  a < a' \/ a = a' /\ (b < b' \/ b = b' /\ c < c').

Lemma d_lt_key a b :
  d_isnan a = false -> d_isnan b = false -> d_lt a b = true <-> key_lt (dkey a) (dkey b).
Proof.
  unfold d_lt, SFltb. destruct a as [sa|[]| |[] m e], b as [sb|[]| |[] m' e']; intros Ha Hb;
    try discriminate Ha; try discriminate Hb;
    cbn -[Z.compare Pos.compare_cont]; try (split; [done|lia]); try (split; [lia|done]).
  all: change (Pos.compare_cont Eq m m') with (m ?= m')%positive.
  all: destruct (Z.compare_spec e e'), (Pos.compare_spec m m'); cbn; split; try done; lia.
Qed.

Lemma value_lt_numbers : weak_order good_number value_lt.
Proof.
  assert (Hk : forall a b, d_isnan a = false -> d_isnan b = false ->
    d_lt b a = false <-> ~ key_lt (dkey b) (dkey a)).
  { intros a b Ha Hb. rewrite <- d_lt_key by done. by rewrite not_true_iff_false. }
  split; unfold le; cbn.
  - intros x y (a & -> & Ha) (b & -> & Hb). cbn. rewrite !Hk by done.
    destruct (dkey a) as [[??]?], (dkey b) as [[??]?]. cbn. lia.
  - intros x y z (a & -> & Ha) (b & -> & Hb) (c & -> & Hc). cbn. rewrite !Hk by done.
    destruct (dkey a) as [[??]?], (dkey b) as [[??]?], (dkey c) as [[??]?]. cbn. lia.
Qed.

Lemma value_lt_strings : weak_order good_string value_lt.
Proof.
  assert (Hk : forall a b, Forall (in_u 8) a -> Forall (in_u 8) b ->
    (luaV_strcmp b a <? 0) = false <-> lex_compare b a <> Lt).
  { intros a b Ha Hb. rewrite Z.ltb_ge, <- strcmp_lex, Z.compare_lt_iff by done. lia. }
  split; unfold le; cbn.
  - intros x y (a & -> & Ha) (b & -> & Hb). cbn. rewrite !Hk by done.
    rewrite (lex_compare_antisym a b). destruct (lex_compare a b); cbn; auto.
  - intros x y z (a & -> & Ha) (b & -> & Hb) (c & -> & Hc). cbn. rewrite !Hk by done.
    intros Hba Hcb Hca. destruct (lex_compare b a) eqn:E1; [|done|].
    + apply lex_compare_eq in E1 as ->. done.
    + apply Hcb. eapply lex_compare_trans; [exact Hca|]. by rewrite lex_compare_antisym, E1.
Qed.

(** Without a comparison [table.sort] sorts by the order of the machine:
    numbers of which none is a NaN, or strings, end up in ascending order,
    without an error. *)
Theorem table_sort_default g args s good :
  good = good_number \/ good = good_string ->
  index2addr args 1 = Some (LTable g) -> lua_isnoneornil args 2 = true ->
  wf_table (st_table W s) -> readonly (st_table W s) = false ->
  good_prefix good (st_table W s) ->
  exists s', tsort W call objects args s = (Ret [], s') /\
    sorted_by value_lt (st_table W s) (st_table W s').
Proof.
  intros Hcase Ha1 Ha2 Hwf Hro Hgood.
  eapply (tsort_sorted (sort_lessthan W call objects) args good); try done.
  - intros l r s' Hl Hr. exists (st_world W s'). unfold sort_lessthan.
    destruct Hcase as [-> | ->].
    + destruct Hl as (a & -> & _), Hr as (b & -> & _). by destruct s'.
    + destruct Hl as (a & -> & _), Hr as (b & -> & _). by destruct s'.
  - destruct Hcase as [-> | ->]; [apply value_lt_numbers|apply value_lt_strings].
  - by exists g.
  - unfold select_pred. by rewrite Ha2.
Qed.
End Sorted.

(** * Witnesses *)

#[local] Existing Instance sample_vec.

(** A table with an array part only. *)
Definition array_table (a : list TValue) : LuaTable :=
  {| tmcache := 255; readonly := false; safeenv := false; lsizenode := 0; lastfree := 0;
     metatable := None; array := a; node := None |}.

Lemma array_table_wf a : Z.of_nat (length a) <= MAXSIZE -> wf_table (array_table a).
Proof.
  intros Ha. split; unfold sizearray; cbn; [done|lia|lia|].
  intros j i _ Hl. by apply dummy_not_live in Hl.
Qed.

Definition number (n : Z) : TValue := LNumber (double_of_Z n).
Definition sample_numbers : list TValue := map number [5; 2; 8; 1; 9; 3; 7; 3; 6; 4].
Definition sample_sort_state : sort_state unit :=
  {| st_table := array_table (sample_numbers ++ [LNil; LNil]); st_world := () |}.

Lemma sample_sort_wf : wf_table (st_table unit sample_sort_state).
Proof. by apply array_table_wf. Qed.

(** What the code reads of a world without metatables. *)
Definition no_objects (s : sort_state unit) : heap :=
  {| tab_metatable := fun _ => None; tab_getstr := fun _ _ => LNil; tab_getn := fun _ => 0;
     ud_metatable := fun _ => None; ud_tag := fun _ => 0; class_metatable := fun _ => None;
     class_instancemetatable := fun _ => None; obj_lclass := fun _ => 0; fn_isC := fun _ => false;
     global_mt := fun _ => None; lightuserdataname := fun _ => None; tab_tmcache := ∅ |}.

(** Functions of Lua: [a > b]; [true]; one that cuts the table in half; one that
    freezes it. *)
Definition sample_call (f : TValue) (args : list TValue) : M unit TValue := fun s =>
  let t := st_table unit s in
  match f, args with
  | LFunction 1, [l; r] => (Ret (LBoolean (value_lt r l)), s)
  | LFunction 2, _ => (Ret (LBoolean true), s)
  | LFunction 3, _ =>
      (Ret (LBoolean true), set_table unit (set_array (take (length (array t) / 2) (array t)) t) s)
  | LFunction 4, [l; r] =>
      (Ret (LBoolean (value_lt l r)),
       set_table unit {| tmcache := tmcache t; readonly := true; safeenv := safeenv t;
         lsizenode := lsizenode t; lastfree := lastfree t; metatable := metatable t;
         array := array t; node := node t |} s)
  | _, _ => (Throw (RunError "attempt to call a nil value"), s)
  end.

Lemma sample_call_defined f args s : is_defined (sample_call f args s).1 = true.
Proof. unfold sample_call. repeat case_match; done. Qed.

Definition sample_sort (args : list TValue) : outcome (list TValue) * sort_state unit :=
  tsort unit sample_call no_objects args sample_sort_state.

(** The comparison cuts the table: the sort notices. *)
Lemma table_sort_safe_witness :
  (sample_sort [LTable 0; LFunction 3]).1 = Throw (RunError "table modified during sorting") /\
  match sample_sort [LTable 0; LFunction 3] with
  | (Ret r, s') => r = [] /\ sizearray (st_table unit s') = 12
  | (Throw _, _) => True
  | (Undefined _, _) => False
  end.
Proof.
  split; [vm_compute; reflexivity|].
  exact (table_sort_safe sample_call no_objects sample_call_defined [LTable 0; LFunction 3]
    sample_sort_state sample_sort_wf).
Defined.

Definition keeping_call (f : TValue) (args : list TValue) : M unit TValue :=
  ret unit (LBoolean true).

(** An order function that is none: an error, and the elements are all there. *)
Lemma table_sort_permutes_witness :
  (tsort unit keeping_call no_objects [LTable 0; LFunction 2] sample_sort_state).1
    = Throw (RunError "invalid order function for sorting") /\
  match tsort unit keeping_call no_objects [LTable 0; LFunction 2] sample_sort_state with
  | (Ret _, s') | (Throw _, s') =>
      rearranged (st_table unit sample_sort_state) (st_table unit s')
  | (Undefined _, _) => False
  end.
Proof.
  split; [vm_compute; reflexivity|].
  exact (table_sort_permutes keeping_call no_objects ltac:(done) [LTable 0; LFunction 2]
    sample_sort_state ltac:(done) sample_sort_wf).
Defined.

Lemma weak_order_flip good lt : weak_order good lt -> weak_order good (fun x y => lt y x).
Proof.
  intros [Ht Hr]. split; unfold le in *.
  - intros x y Hx Hy. destruct (Ht x y Hx Hy); auto.
  - intros x y z Hx Hy Hz H1 H2. by apply (Hr z y x).
Qed.

Lemma sample_good : good_prefix good_number (st_table unit sample_sort_state).
Proof.
  intros t1 n i x Hg. vm_compute in Hg. injection Hg as _ <-. intros Hi Hx.
  do 10 (destruct i as [|i]; [injection Hx as <-; eexists; split; reflexivity|]). lia.
Qed.

(** Sorted by [a > b]. *)
Lemma table_sort_sorts_witness : exists s',
  sample_sort [LTable 0; LFunction 1] = (Ret [], s') /\
  array (st_table unit s') = map number [9; 8; 7; 6; 5; 4; 3; 3; 2; 1] ++ [LNil; LNil] /\
  sorted_by (fun x y => value_lt y x) (st_table unit sample_sort_state) (st_table unit s').
Proof.
  destruct (table_sort_sorts sample_call no_objects 0 1 good_number (fun x y => value_lt y x)
    sample_sort_state) as (s' & E & Hs).
  - intros l r s' _ _. exists (LBoolean (value_lt r l)), (). split; [by destruct s' as [? []]|].
    cbn. by destruct (value_lt r l).
  - apply weak_order_flip, value_lt_numbers.
  - exact sample_sort_wf.
  - reflexivity.
  - exact sample_good.
  - exists s'. split; [exact E|]. split; [|exact Hs].
    assert (E' : snd (sample_sort [LTable 0; LFunction 1]) = s') by (unfold sample_sort; by rewrite E).
    rewrite <- E'. vm_compute. reflexivity.
Defined.

Lemma table_sort_default_witness : exists s',
  sample_sort [LTable 0] = (Ret [], s') /\
  array (st_table unit s') = map number [1; 2; 3; 3; 4; 5; 6; 7; 8; 9] ++ [LNil; LNil] /\
  sorted_by value_lt (st_table unit sample_sort_state) (st_table unit s').
Proof.
  destruct (table_sort_default sample_call no_objects 0 [LTable 0] sample_sort_state good_number
    (or_introl eq_refl) eq_refl eq_refl sample_sort_wf eq_refl sample_good) as (s' & E & Hs).
  exists s'. split; [exact E|]. split; [|exact Hs].
  assert (E' : snd (sample_sort [LTable 0]) = s') by (unfold sample_sort; by rewrite E).
  rewrite <- E'. vm_compute. reflexivity.
Defined.

(** * Two observations *)

(** The read-only flag is looked at once: a table that the comparison freezes is
    sorted nevertheless. *)
Example sort_writes_frozen_table :
  let s' := (sample_sort [LTable 0; LFunction 4]).2 in
  readonly (st_table unit s') = true /\
  array (st_table unit s') = map number [1; 2; 3; 3; 4; 5; 6; 7; 8; 9] ++ [LNil; LNil].
Proof. split; vm_compute; reflexivity. Qed.

(** The limit of the recursion lasts for more than [2 log2 n] trips, not for
    [1.5 log2 n]: each trip takes a quarter of it away. *)
Example sort_limit_trips :
  Nat.iter 20 next_limit 1024 = 1 /\ Nat.iter 21 next_limit 1024 = 0 /\ Z.log2 1024 = 10.
Proof. by vm_compute. Qed.
