(* ===== verification/TabLib.v ===== *)
(** The table library, [VM/src/ltablib.cpp], but for [table.sort] (file
    [Sort.v]): insertion, removal, [table.move] with its three ways of moving,
    concatenation, packing and the rest.

    Tables are shared objects: a value [LTable a] names the table at the address
    [a] of the store [tables], and two arguments may name one table.  A function
    takes the arguments and the store and yields the results and the store; what
    an error leaves in the store is not modelled.  A Lua function that the library
    calls is the parameter [call].  [DFFlag::LuauTableMoveTimeoutFix] is a
    parameter.  Additions of [int] that the code does not guard are checked. *)
From stdpp Require Import gmap pretty.
From S2P Require Import Prelude Word Double LuaApi Tm Arith Compare Key TableNode Table Sort.
Open Scope Z_scope.
Open Scope outcome_scope.

Abbreviation tables := (gmap Z LuaTable).

Definition table_at (σ : tables) (a : Z) : outcome LuaTable :=
  match σ !! a with Some t => Ret t | None => Undefined "no table at this address" end.

(** [luaL_checktype(L, narg, LUA_TTABLE)] and [hvalue] *)
Definition check_table (args : list TValue) (narg : Z) : outcome Z :=
  match index2addr args narg with Some (LTable a) => Ret a | _ => tag_error narg "table" end.

Definition INT_MAX : Z := 2 ^ 31 - 1.

Section TabLib.
Context `{VecSize, Target, NumFormat}.
Variable str_addr : list Z -> Z.
Variable objects : tables -> heap.
Variable call : TValue -> list TValue -> tables -> outcome (TValue * tables).

(** * The API on tables (lapi.cpp) *)

Definition rawgeti (t : LuaTable) (n : Z) : TValue := slot_get t (luaH_getnum t n).

Definition rawseti (t : LuaTable) (n : Z) (v : TValue) : outcome LuaTable :=
  require negb (readonly t) else_ luaG_readonlyerror in
  p <- luaH_setnum t n ;; let '(t, s) := p in Ret (setslot t s v).

Definition lua_rawgeti (σ : tables) (a n : Z) : outcome TValue :=
  t <- table_at σ a ;; Ret (rawgeti t n).

Definition lua_rawseti (σ : tables) (a n : Z) (v : TValue) : outcome tables :=
  t <- table_at σ a ;; t <- rawseti t n v ;; Ret (<[a := t]> σ).

(** [lua_objlen] on a table; the boundary is cached. *)
Definition lua_objlen (σ : tables) (a : Z) : outcome (Z * tables) :=
  t <- table_at σ a ;; p <- luaH_getn t ;; let '(t, n) := p in Ret (n, <[a := t]> σ).

(** [for (i ...) body] over the values of [i]. *)
Fixpoint for_each {S : Type} (l : list Z) (body : Z -> S -> outcome S) (s : S) : outcome S :=
  match l with
  | [] => Ret s
  | i :: l => s <- body i s ;; for_each l body s
  end.

(** * foreachi, foreach, maxn, getn *)

(** The loop of [foreachi] for the indices of a list. *)
Fixpoint foreachi_loop (a : Z) (f : TValue) (l : list Z) (σ : tables)
    : outcome (list TValue * tables) :=
  match l with
  | [] => Ret ([], σ)
  | i :: l =>
      v <- lua_rawgeti σ a i ;;
      r <- call f [LNumber (double_of_Z i); v] σ ;;
      let '(r, σ) := r in
      if negb (ttisnil r) then Ret ([r], σ) else foreachi_loop a f l σ
  end.

Definition foreachi (args : list TValue) (σ : tables) : outcome (list TValue * tables) :=
  a <- check_table args 1 ;;
  f <- luaL_checkfunction args 2 ;;
  p <- lua_objlen σ a ;; let '(n, σ) := p in
  foreachi_loop a f (map (Z.add 1) (zseq (Z.to_nat n))) σ.

(** The loop of [foreach]; a function that keeps adding entries can make it
    run for ever. *)
Fixpoint foreach_loop (fuel : nat) (a : Z) (f k : TValue) (σ : tables)
    : outcome (list TValue * tables) :=
  match fuel with
  | O => Undefined "endless traversal"
  | S n =>
      t <- table_at σ a ;;
      r <- luaH_next str_addr t k ;;
      match r with
      | None => Ret ([], σ)
      | Some (k, v) =>
          r <- call f [k; v] σ ;;
          let '(r, σ) := r in
          if negb (ttisnil r) then Ret ([r], σ) else foreach_loop n a f k σ
      end
  end.

Definition foreach (fuel : nat) (args : list TValue) (σ : tables)
    : outcome (list TValue * tables) :=
  a <- check_table args 1 ;;
  f <- luaL_checkfunction args 2 ;;
  foreach_loop fuel a f LNil σ.

Definition maxn (args : list TValue) (σ : tables) : outcome (list TValue) :=
  a <- check_table args 1 ;;
  t <- table_at σ a ;;
  let amax := fold_left (fun m i => if negb (ttisnil (default LNil (array t !! Z.to_nat i)))
                                    then double_of_Z (i + 1) else m)
                (zseq (length (array t))) (double_of_Z 0) in
  let max := fold_left (fun m n =>
      match nkey n with
      | KLive (LNumber v) => if negb (ttisnil (nval n)) && d_lt m v then v else m
      | _ => m
      end) (nodes_of t) amax in
  Ret [LNumber max].

Definition getn (args : list TValue) (σ : tables) : outcome (list TValue * tables) :=
  a <- check_table args 1 ;;
  p <- lua_objlen σ a ;; let '(n, σ) := p in Ret ([lua_pushinteger n], σ).

(** * move, insert, remove *)

Definition shouldsparsemove (src dst : LuaTable) (n : Z) : bool :=
  let srcelems := sizearray src + sizenode src in
  let dstelems := sizearray dst + sizenode dst in
  let maxelems := if dstelems <? srcelems then srcelems else dstelems in
  (32 <? n) && (maxelems <? Z.quot n 2).

(** The integer of a key, when it lies in [[f, e]]. *)
Definition tovalidintkey (k : TValue) (f e : Z) : option Z :=
  match k with
  | LNumber nkey =>
      if d_le (double_of_Z f) nkey && d_le nkey (double_of_Z e) then
        let result := luai_num2int nkey in
        if d_eq (double_of_Z result) nkey then Some result else None
      else None
  | _ => None
  end.

(** [setobj2t(L, &dstarray[di], &srcarray[si])] *)
Definition copy_elt (src dst si di : Z) (σ : tables) : outcome tables :=
  s <- table_at σ src ;;
  v <- read_array s si Ret ;;
  d <- table_at σ dst ;;
  if (0 <=? di) && (di <? sizearray d)
  then Ret (<[dst := setslot d (ArraySlot (Z.to_nat di)) v]> σ)
  else Undefined "write outside of the array".

(** [lua_rawgeti(L, srct, si); lua_rawseti(L, dstt, di)] *)
Definition copy_slot (src dst si di : Z) (σ : tables) : outcome tables :=
  v <- lua_rawgeti σ src si ;; lua_rawseti σ dst di v.

(** A loop over [lua_rawiter]: [body] gets the key and the value. *)
Fixpoint rawiter_loop {S : Type} (fuel : nat) (get : S -> outcome LuaTable)
    (body : TValue -> TValue -> S -> outcome S) (iter : Z) (s : S) : outcome S :=
  match fuel with
  | O => Undefined "endless traversal"
  | S n =>
      t <- get s ;;
      r <- lua_rawiter t iter ;;
      match r with
      | None => Ret s
      | Some (iter, k, v) => s <- body k v s ;; rawiter_loop n get body iter s
      end
  end.

(** The trips that a loop over the entries of a table needs. *)
Definition iter_fuel (t : LuaTable) : nat := S (length (array t) + length (nodes_of t)).

Definition sparse_move (src dst f e t n : Z) (σ : tables) : outcome tables :=
  let te := t + (n - 1) in
  s <- table_at σ src ;;
  temp <- luaH_new 0 0 ;;
  temp <- rawiter_loop (iter_fuel s) (fun _ => Ret s)
            (fun k v temp => match tovalidintkey k f e with
                             | Some ikey => rawseti temp ikey v
                             | None => Ret temp
                             end) 0 temp ;;
  d <- table_at σ dst ;;
  d <- rawiter_loop (iter_fuel d) Ret
         (fun k v d => match tovalidintkey k t te with
                       | Some ikey => rawseti d ikey LNil
                       | None => Ret d
                       end) 0 d ;;
  d <- rawiter_loop (iter_fuel temp) (fun _ => Ret temp)
         (fun k v d => match k with
                       | LNumber nk => rawseti d (luai_num2int nk - f + t) v
                       | _ => Undefined "a key of the temporary table"
                       end) 0 d ;;
  Ret (<[dst := d]> σ).

Section Move.
(** [DFFlag::LuauTableMoveTimeoutFix] *)
Variable LuauTableMoveTimeoutFix : bool.

(** [srct] and [dstt] are the places of the tables on the stack, [src] and [dst]
    their addresses. *)
Definition moveelements (srct dstt src dst f e t : Z) (sparsemove : bool) (σ : tables)
    : outcome tables :=
  s <- table_at σ src ;;
  d <- table_at σ dst ;;
  require negb (readonly d) else_ luaG_readonlyerror in
  let n := e - f + 1 in
  let up := zseq (Z.to_nat n) in
  let in_range x a := (sub_u 32 (u32 x) 1 <? u32 (sizearray a)) in
  let fits x a := (add_u 32 (sub_u 32 (u32 x) 1) (u32 n) <=? u32 (sizearray a)) in
  if in_range f s && in_range t d && fits f s && fits t d then
    let body i := copy_elt src dst (f + i - 1) (t + i - 1) in
    if (e <? t) || (t <=? f) || (negb (dstt =? srct) && negb (dst =? src))
    then for_each up body σ
    else for_each (rev up) body σ
  else if LuauTableMoveTimeoutFix && sparsemove then sparse_move src dst f e t n σ
  else
    let body i := copy_slot src dst (f + i) (t + i) in
    if (e <? t) || (t <=? f) || negb (dst =? src)
    then for_each up body σ
    else for_each (rev up) body σ.

Definition tinsert (args : list TValue) (σ : tables) : outcome (list TValue * tables) :=
  a <- check_table args 1 ;;
  p <- lua_objlen σ a ;; let '(n, σ) := p in
  r <- (if lua_gettop args =? 2 then Ret (n + 1, σ)
        else if lua_gettop args =? 3 then
          pos <- luaL_checkinteger args 2 ;;
          σ <- (if (1 <=? pos) && (pos <=? n)
                then moveelements 1 1 a a pos n (pos + 1) false σ else Ret σ) ;;
          Ret (pos, σ)
        else luaL_error "wrong number of arguments to 'insert'") ;;
  let '(pos, σ) := r in
  σ <- lua_rawseti σ a pos (default LNil (last args)) ;;
  Ret ([], σ).

Definition tremove (args : list TValue) (σ : tables) : outcome (list TValue * tables) :=
  a <- check_table args 1 ;;
  p <- lua_objlen σ a ;; let '(n, σ) := p in
  pos <- luaL_optinteger args 2 n ;;
  if negb ((1 <=? pos) && (pos <=? n)) then Ret ([], σ)
  else
    v <- lua_rawgeti σ a pos ;;
    σ <- moveelements 1 1 a a (pos + 1) n pos false σ ;;
    σ <- lua_rawseti σ a n LNil ;;
    Ret ([v], σ).

Definition tmove (args : list TValue) (σ : tables) : outcome (list TValue * tables) :=
  src <- check_table args 1 ;;
  f <- luaL_checkinteger args 2 ;;
  e <- luaL_checkinteger args 3 ;;
  t <- luaL_checkinteger args 4 ;;
  let tt := if negb (lua_isnoneornil args 5) then 5 else 1 in
  dst <- check_table args tt ;;
  σ <- (if f <=? e then
          luaL_argcheck ((0 <? f) || (e <? INT_MAX + f)) 3 "too many elements to move" ;;;
          let n := e - f + 1 in
          luaL_argcheck (t <=? INT_MAX - n + 1) 4 "destination wrap around" ;;;
          d <- table_at σ dst ;;
          require negb (readonly d) else_ luaG_readonlyerror in
          s <- table_at σ src ;;
          let sparsemove := LuauTableMoveTimeoutFix && shouldsparsemove s d n in
          σ <- (if (0 <? t) && (t - 1 <=? sizearray d) && (sizearray d <? t - 1 + n) then
                  d <- luaH_resizearray d (t - 1 + n) ;; Ret (<[dst := d]> σ)
                else Ret σ) ;;
          moveelements 1 tt src dst f e t sparsemove σ
        else Ret σ) ;;
  Ret ([LTable dst], σ).
End Move.

(** * concat *)

Definition luaL_optlstring (args : list TValue) (narg : Z) (def : list Z) : outcome (list Z) :=
  if lua_isnoneornil args narg then Ret def else luaL_checklstring args narg.

(** The message of [addfield], with the name of the type and the index. *)
Definition concat_message (σ : tables) (v : TValue) (i : Z) : string :=
  ("invalid value (" +:+ c_string (luaT_objtypename (objects σ) v) +:+ ") at index " +:+ pretty i
     +:+ " in table for 'concat'")%string.

(** The bytes that [addfield] appends. *)
Definition addfield (σ : tables) (a i : Z) (t : LuaTable) : outcome (list Z) :=
  let general :=
    v <- lua_rawgeti σ a i ;;
    match v with
    | LString s => Ret s
    | LNumber n => Ret (luai_num2str n)
    | _ => luaL_error (concat_message σ v i)
    end in
  i1 <- sub_s 32 i 1 ;;
  if u32 i1 <? u32 (sizearray t) then
    match array t !! Z.to_nat i1 with
    | Some (LString s) => Ret s
    | _ => general
    end
  else general.

(** The loop from [i], [n] trips to [last]. *)
Fixpoint concat_loop (n : nat) (σ : tables) (a : Z) (t : LuaTable) (sep : list Z) (i : Z)
    (b : list Z) : outcome (list Z) :=
  match n with
  | O => Ret b
  | S n =>
      s <- addfield σ a i t ;;
      concat_loop n σ a t sep (i + 1) (b ++ s ++ sep)
  end.

Definition tconcat (args : list TValue) (σ : tables) : outcome (list TValue * tables) :=
  sep <- luaL_optlstring args 2 [] ;;
  a <- check_table args 1 ;;
  i <- luaL_optinteger args 3 1 ;;
  r <- (if lua_isnoneornil args 4 then lua_objlen σ a
        else last <- luaL_checkinteger args 4 ;; Ret (last, σ)) ;;
  let '(last, σ) := r in
  t <- table_at σ a ;;
  b <- concat_loop (Z.to_nat (last - i)) σ a t sep i [] ;;
  b <- (if i <=? last then s <- addfield σ a last t ;; Ret (b ++ s) else Ret b) ;;
  Ret ([LString b], σ).

(** * pack, unpack *)

(** The result is the new table. *)
Definition tpack (args : list TValue) : outcome LuaTable :=
  let n := lua_gettop args in
  t <- luaH_new n 1 ;;
  let t := set_array (args ++ drop (length args) (array t)) t in
  p <- luaH_setstr t (chars "n") ;;
  let '(t, s) := p in
  Ret (setslot t s (LNumber (double_of_Z n))).

Definition LUAI_MAXCSTACK : Z := 8000.

(** [lua_checkstack], the growth of the stack apart *)
Definition lua_checkstack (top size : Z) : bool :=
  negb ((LUAI_MAXCSTACK <? size) || (LUAI_MAXCSTACK <? top + size)).

Definition tunpack (args : list TValue) (σ : tables) : outcome (list TValue * tables) :=
  a <- check_table args 1 ;;
  i <- luaL_optinteger args 2 1 ;;
  r <- (if lua_isnoneornil args 3 then lua_objlen σ a
        else e <- luaL_checkinteger args 3 ;; Ret (e, σ)) ;;
  let '(e, σ) := r in
  if e <? i then Ret ([], σ)
  else
    let n := sub_u 32 (u32 e) (u32 i) in
    if (INT_MAX <=? n) || negb (lua_checkstack (lua_gettop args) (n + 1))
    then luaL_error "too many results to unpack"
    else
      let n := n + 1 in
      t <- table_at σ a ;;
      if (i =? 1) && (n <=? sizearray t) then Ret (take (Z.to_nat n) (array t), σ)
      else Ret (map (fun k => rawgeti t (i + k)) (zseq (Z.to_nat (e - i))) ++ [rawgeti t e], σ).

(** * create, find, clear, freeze, isfrozen, clone *)

(** The result is the new table. *)
Definition tcreate (args : list TValue) : outcome LuaTable :=
  size <- luaL_checkinteger args 1 ;;
  if size <? 0 then luaL_argerror 1 "size out of range"
  else
    t <- luaH_new size 0 ;;
    match index2addr args 2 with
    | None | Some LNil => Ret t
    | Some v => Ret (set_array (replicate (Z.to_nat size) v) t)
    end.

(** [equalobj]; the metamethod cache that it fills is not written back. *)
Definition equalobj (σ : tables) (o1 o2 : TValue) : outcome (bool * tables) :=
  if negb (ttype o1 =? ttype o2) then Ret (false, σ)
  else
    r <- snd (luaV_equalval (objects σ) o1 o2) ;;
    match r with
    | Done b => Ret (b, σ)
    | CallTM f args k => r <- call f args σ ;; let '(v, σ) := r in Ret (k v, σ)
    end.

Fixpoint find_loop (fuel : nat) (a : Z) (v : TValue) (i : Z) (σ : tables)
    : outcome (list TValue * tables) :=
  match fuel with
  | O => Undefined "endless search"
  | S n =>
      e <- lua_rawgeti σ a i ;;
      if ttisnil e then Ret ([LNil], σ)
      else
        r <- equalobj σ v e ;;
        let '(b, σ) := r in
        if b : bool then Ret ([lua_pushinteger i], σ)
        else i <- add_s 32 i 1 ;; find_loop n a v i σ
  end.

Definition tfind (fuel : nat) (args : list TValue) (σ : tables) : outcome (list TValue * tables) :=
  a <- check_table args 1 ;;
  match index2addr args 2 with
  | None => luaL_error "missing argument #2"
  | Some v =>
      init <- luaL_optinteger args 3 1 ;;
      if init <? 1 then luaL_argerror 3 "index out of range"
      else find_loop fuel a v init σ
  end.

Definition tclear (args : list TValue) (σ : tables) : outcome (list TValue * tables) :=
  a <- check_table args 1 ;;
  t <- table_at σ a ;;
  require negb (readonly t) else_ luaG_readonlyerror in
  Ret ([], <[a := luaH_clear t]> σ).

(** [luaL_getmetafield(L, 1, event)] on a table *)
Definition has_metafield (σ : tables) (t : LuaTable) (event : list Z) : outcome bool :=
  match metatable t with
  | None => Ret false
  | Some mt => m <- table_at σ mt ;; Ret (negb (ttisnil (get m (LString event))))
  end.

Definition set_readonly (t : LuaTable) : LuaTable :=
  {| tmcache := tmcache t; readonly := true; safeenv := safeenv t; lsizenode := lsizenode t;
     lastfree := lastfree t; metatable := metatable t; array := array t; node := node t |}.

Definition tfreeze (args : list TValue) (σ : tables) : outcome (list TValue * tables) :=
  a <- check_table args 1 ;;
  t <- table_at σ a ;;
  luaL_argcheck (negb (readonly t)) 1 "table is already frozen" ;;;
  m <- has_metafield σ t (chars "__metatable") ;;
  luaL_argcheck (negb m) 1 "table has a protected metatable" ;;;
  Ret ([LTable a], <[a := set_readonly t]> σ).

Definition tisfrozen (args : list TValue) (σ : tables) : outcome (list TValue) :=
  a <- check_table args 1 ;; t <- table_at σ a ;; Ret [LBoolean (readonly t)].

(** The result is the new table. *)
Definition tclone (args : list TValue) (σ : tables) : outcome LuaTable :=
  a <- check_table args 1 ;;
  t <- table_at σ a ;;
  m <- has_metafield σ t (chars "__metatable") ;;
  luaL_argcheck (negb m) 1 "table has a protected metatable" ;;;
  Ret (luaH_clone t).
End TabLib.
