(* ===== verification/TabMove.v ===== *)
(** Moving elements, [moveelements] of [TabLib.v]: the copy inside the arrays,
    the copy slot by slot and, with the fix for sparse tables, the copy through a
    temporary table all do the same, also when source and destination are one
    table and the ranges overlap. *)
From stdpp Require Import gmap.
From S2P Require Import Prelude Word Double DoubleExact LuaApi Tm Arith Compare Key TableNode Table.
From S2P Require Import TableSpec TableResize TableMap TableIter Sort TabLib.
Open Scope Z_scope.
Open Scope outcome_scope.

(** The map that a table implements. *)
Abbreviation fmap_t := (TValue -> TValue).

(** * What an insertion leaves alone *)

Section Flags.
Context `{VecSize, Target}.

Definition flags (t : LuaTable) : bool * bool * option Z := (readonly t, safeenv t, metatable t).

(** The routine keeps the flags of the table. *)
Definition keeps {A} (o : outcome A) (proj : A -> LuaTable) (t : LuaTable) : Prop :=
  forall a, o = Ret a -> flags (proj a) = flags t.

Definition keeps_key (insert : key_type) : Prop := forall t k, keeps (insert t k) fst t.

Lemma keeps_bind {A B} (o : outcome A) (g : A -> outcome B) pa pb t :
  keeps o pa t -> (forall a, flags (pa a) = flags t -> keeps (g a) pb t) ->
  keeps (outcome_bind o g) pb t.
Proof. intros Ho Hg b (a & Ea & Eb)%bind_Ret_inv. by apply (Hg a (Ho a Ea)). Qed.

Lemma keeps_ret {A} (a : A) proj t : flags (proj a) = flags t -> keeps (Ret a) proj t.
Proof. by intros E b [= <-]. Qed.

Lemma keeps_weaken {A} (o : outcome A) proj t t' :
  flags t = flags t' -> keeps o proj t -> keeps o proj t'.
Proof. intros E Ho a Ea. rewrite <- E. by apply Ho. Qed.

Lemma keeps_throw {A} e (proj : A -> LuaTable) t : keeps (Throw e) proj t.
Proof. done. Qed.

Lemma setslot_flags t s v : flags (setslot t s v) = flags t.
Proof. destruct s; cbn; [done|]. by destruct (node t). Qed.

Lemma arrayornewkey_keeps nk : keeps_key nk -> keeps_key (arrayornewkey nk).
Proof. intros Hn t k. unfold arrayornewkey. destruct k; try apply Hn. case_match; [by apply keeps_ret|apply Hn]. Qed.

Lemma reinsert_keeps ins t kv : keeps_key ins -> keeps (reinsert ins t kv) id t.
Proof.
  intros Hi. unfold reinsert. eapply keeps_bind; [apply Hi|]. intros [t' s] E.
  apply keeps_ret. cbn. by rewrite setslot_flags.
Qed.

Lemma reinsert_array_keeps nk vs t i : keeps_key nk -> keeps (reinsert_array nk t i vs) id t.
Proof.
  intros Hn. revert t i. induction vs as [|v vs IH]; intros t i; [by apply keeps_ret|].
  cbn [reinsert_array]. apply keeps_bind with (pa := id).
  - case_match; [by apply reinsert_keeps|by apply keeps_ret].
  - intros t' E. eapply keeps_weaken; [exact E|apply IH].
Qed.

Lemma reinsert_nodes_keeps nk ns t : keeps_key nk -> keeps (reinsert_nodes nk t ns) id t.
Proof.
  intros Hn. revert t. induction ns as [|n ns IH]; intros t; [by apply keeps_ret|].
  cbn [reinsert_nodes]. apply keeps_bind with (pa := id).
  - destruct (negb _); [|by apply keeps_ret]. destruct (nkey n); [|done].
    by apply reinsert_keeps, arrayornewkey_keeps.
  - intros t' E. eapply keeps_weaken; [exact E|apply IH].
Qed.

Lemma setarrayvector_keeps t size : keeps (setarrayvector t size) id t.
Proof. unfold setarrayvector, guard_or. case_match; [by apply keeps_ret|apply keeps_throw]. Qed.

Lemma setnodevector_keeps t size : keeps (setnodevector t size) id t.
Proof.
  unfold setnodevector, guard_or. case_match; [by apply keeps_ret|].
  case_match; [by apply keeps_ret|apply keeps_throw].
Qed.

Lemma resize_keeps nk t na nh : keeps_key nk -> keeps (resize nk t na nh) id t.
Proof.
  intros Hn. unfold resize, guard_or. destruct (negb _); [|apply keeps_throw].
  apply keeps_bind with (pa := id).
  { case_match; [apply setarrayvector_keeps|by apply keeps_ret]. }
  intros t1 E1. apply keeps_bind with (pa := id).
  { eapply keeps_weaken; [exact E1|apply setnodevector_keeps]. }
  intros t2 E2. apply keeps_bind with (pa := id).
  { case_match; [|by apply keeps_ret]. eapply keeps_weaken; [|by apply reinsert_array_keeps]. done. }
  intros t3 E3. eapply keeps_weaken; [exact E3|by apply reinsert_nodes_keeps].
Qed.

Lemma rehash_keeps nk t k : keeps_key nk -> keeps (rehash nk t k) id t.
Proof. intros Hn. unfold rehash. repeat case_match; by apply resize_keeps. Qed.

Lemma newkey_keeps fuel : keeps_key (newkey fuel).
Proof.
  induction fuel as [|f IH]; intros t k; [done|]. cbn [newkey]. unfold newkey_body.
  assert (Hg : keeps (t <- rehash (newkey f) t k ;; arrayornewkey (newkey f) t k) fst t).
  { eapply keeps_bind; [by apply rehash_keeps|]. intros t' E.
    eapply keeps_weaken; [exact E|by apply arrayornewkey_keeps]. }
  repeat case_match; try done. by apply keeps_ret.
Qed.

Lemma luaH_setnum_keeps t i : keeps (luaH_setnum t i) fst t.
Proof.
  unfold luaH_setnum. case_match; [by apply keeps_ret|]. case_match; [by apply keeps_ret|].
  by apply (keeps_weaken _ _ (invalidateTMcache t)); [|apply newkey_keeps].
Qed.

Lemma rawseti_keeps t n v : keeps (rawseti t n v) id t.
Proof.
  unfold rawseti, guard_or. destruct (negb _); [|apply keeps_throw].
  eapply keeps_bind; [apply luaH_setnum_keeps|]. intros [t' s] E. apply keeps_ret.
  cbn. by rewrite setslot_flags.
Qed.
End Flags.

(** * Integer keys *)

Section Index.
Context `{VecSize, Target}.

(** The integer that a key is equal to. *)
Definition index_of (k : TValue) : option Z :=
  match k with
  | LNumber d => let i := luai_num2int d in if d_eq (double_of_Z i) d then Some i else None
  | _ => None
  end.

Lemma index_of_akey i : in_s 32 i -> index_of (akey i) = Some i.
Proof.
  intros Hi. cbn. rewrite luai_num2int_of_Z by done. rewrite double_of_Z_self; [done|].
  unfold in_s in Hi. lia.
Qed.

Lemma index_of_norm k i : in_s 32 i -> index_of k = Some i <-> key_norm k = key_norm (akey i).
Proof.
  intros Hi. assert (Hb : Z.abs i < 2 ^ 53) by (unfold in_s in Hi; lia).
  pose proof (double_of_Z_self i Hb) as Hs. unfold d_eq in Hs. split.
  - destruct k; try done. cbn. destruct (d_eq _ n) eqn:E; [|done]. intros [= <-].
    unfold d_eq in E. rewrite SFeqb_norm in E by done. apply bool_decide_eq_true in E. by rewrite E.
  - destruct k; try discriminate. cbn. intros [= E].
    assert (E' : luai_num2int n = i).
    { apply norm_num_cases in E as [->|(s & s' & -> & E0)].
      - by apply luai_num2int_of_Z.
      - pose proof (luai_num2int_of_Z i Hi) as Hz. rewrite E0 in Hz. by destruct s, s'. }
    rewrite E'. unfold d_eq. rewrite SFeqb_norm by done. by rewrite bool_decide_eq_true_2.
Qed.

Lemma index_of_range k i : index_of k = Some i -> in_s 32 i.
Proof. destruct k; try done. cbn. case_match; [|done]. intros [= <-]. apply luai_num2int_range. Qed.

(** Assignment to an index. *)
Lemma map_set_index m i v k :
  in_s 32 i -> map_set m (akey i) v k = if bool_decide (index_of k = Some i) then v else m k.
Proof.
  intros Hi. unfold map_set. destruct (decide _) as [E|E].
  - rewrite bool_decide_eq_true_2; [done|by apply index_of_norm].
  - rewrite bool_decide_eq_false_2; [done|]. rewrite index_of_norm by done. done.
Qed.

(** The map [md] with the elements [f + lo], ..., [f + hi - 1] of [ms] at
    [t + lo], ..., [t + hi - 1]. *)
Definition moved (ms md : fmap_t) (f t lo hi : Z) : fmap_t := fun k =>
  match index_of k with
  | Some j => if (t + lo <=? j) && (j <? t + hi) then ms (akey (f + (j - t))) else md k
  | None => md k
  end.

Lemma moved_empty ms md f t lo k : moved ms md f t lo lo k = md k.
Proof.
  unfold moved. destruct (index_of k) as [j|]; [|done].
  destruct (Z.leb_spec (t + lo) j), (Z.ltb_spec j (t + lo)); try done; lia.
Qed.

Lemma moved_up ms md f t lo hi k :
  in_s 32 (t + hi) -> lo <= hi ->
  map_set (moved ms md f t lo hi) (akey (t + hi)) (ms (akey (f + hi))) k
    = moved ms md f t lo (hi + 1) k.
Proof.
  intros Hi Hlh. rewrite map_set_index by done. unfold moved.
  destruct (bool_decide_reflect (index_of k = Some (t + hi))) as [->|Hne].
  - destruct (Z.leb_spec (t + lo) (t + hi)), (Z.ltb_spec (t + hi) (t + (hi + 1))); try lia.
    cbn. do 2 f_equal. lia.
  - destruct (index_of k) as [j|]; [|done]. assert (j <> t + hi) by congruence.
    destruct (Z.ltb_spec j (t + hi)), (Z.ltb_spec j (t + (hi + 1))); try lia; done.
Qed.

Lemma moved_down ms md f t lo hi k :
  in_s 32 (t + lo) -> lo < hi ->
  map_set (moved ms md f t (lo + 1) hi) (akey (t + lo)) (ms (akey (f + lo))) k
    = moved ms md f t lo hi k.
Proof.
  intros Hi Hlh. rewrite map_set_index by done. unfold moved.
  destruct (bool_decide_reflect (index_of k = Some (t + lo))) as [->|Hne].
  - destruct (Z.leb_spec (t + lo) (t + lo)), (Z.ltb_spec (t + lo) (t + hi)); try lia.
    cbn. do 2 f_equal. lia.
  - destruct (index_of k) as [j|]; [|done]. assert (j <> t + lo) by congruence.
    destruct (Z.leb_spec (t + lo) j), (Z.leb_spec (t + (lo + 1)) j); try lia; done.
Qed.

Lemma moved_outside ms md f t lo hi i :
  in_s 32 i -> i < t + lo \/ t + hi <= i -> moved ms md f t lo hi (akey i) = md (akey i).
Proof.
  intros Hi Ho. unfold moved. rewrite index_of_akey by done.
  destruct (Z.leb_spec (t + lo) i), (Z.ltb_spec i (t + hi)); try done; lia.
Qed.
End Index.

(** * Reading and writing one index *)

Section Raw.
Context `{VecSize, Target}.

Lemma akey_int i : in_s 32 i -> valid_key (akey i) = true.
Proof. intros Hi. apply akey_valid. unfold in_s in Hi. lia. Qed.

Lemma rawgeti_spec t m i : implements t m -> in_s 32 i -> rawgeti t i = m (akey i).
Proof.
  intros [Hwf Hm] Hi. rewrite <- Hm by by apply akey_int. unfold rawgeti, get.
  by rewrite luaH_get_akey.
Qed.

(** The result [Q], or the error of a full table. *)
Definition full_or {A} (Q : A -> Prop) (o : outcome A) : Prop :=
  match o with Ret a => Q a | Throw e => e = RunError "table overflow" | Undefined _ => False end.

Lemma full_or_bind {A B} (P : A -> Prop) (Q : B -> Prop) (o : outcome A) (g : A -> outcome B) :
  full_or P o -> (forall a, P a -> full_or Q (g a)) -> full_or Q (outcome_bind o g).
Proof. destruct o; cbn; auto. Qed.

Lemma full_or_mono {A} (P Q : A -> Prop) (o : outcome A) :
  full_or P o -> (forall a, P a -> Q a) -> full_or Q o.
Proof. destruct o; cbn; auto. Qed.

Lemma rawseti_spec t m i v :
  implements t m -> in_s 32 i -> readonly t = false ->
  full_or (fun t' => implements t' (map_set m (akey i) v) /\ readonly t' = false) (rawseti t i v).
Proof.
  intros Him Hi Hro. pose proof (op_implements t m (OpSetNum i v) Him Hi) as Hop.
  pose proof (rawseti_keeps t i v) as Hk. unfold op_correct in Hop. cbn [run_op spec_op fst snd] in Hop.
  unfold rawseti, store in *. rewrite Hro in *. cbn [negb guard_or] in *.
  destruct (luaH_setnum t i) as [[t' s]|e|w]; cbn [outcome_bind full_or] in *.
  - destruct Hop as [Hop _]. split; [done|]. specialize (Hk _ eq_refl). unfold flags, id in Hk. congruence.
  - destruct Hop as [|(k & v' & E & _)]; [done|discriminate].
  - done.
Qed.
End Raw.

(** * Loops *)

Section Loops.
Context {S : Type}.

Lemma for_each_app (l1 l2 : list Z) (body : Z -> S -> outcome S) s :
  for_each (l1 ++ l2) body s = (s <- for_each l1 body s ;; for_each l2 body s).
Proof.
  revert s. induction l1 as [|i l1 IH]; intros s; [done|]. cbn [for_each app].
  rewrite bind_assoc. destruct (body i s); cbn [outcome_bind]; auto.
Qed.

Lemma for_each_up (J : Z -> S -> Prop) (n : nat) (body : Z -> S -> outcome S) s :
  J 0 s ->
  (forall i s, 0 <= i < Z.of_nat n -> J i s -> full_or (J (i + 1)) (body i s)) ->
  full_or (J (Z.of_nat n)) (for_each (zseq n) body s).
Proof.
  intros H0 Hs. induction n as [|n IH]; [done|]. rewrite zseq_S, for_each_app.
  eapply full_or_bind; [apply IH; intros; apply Hs; [lia|done]|].
  intros s' Hj. cbn [for_each]. rewrite bind_ret_r.
  replace (Z.of_nat (Datatypes.S n)) with (Z.of_nat n + 1) by lia. apply Hs; [lia|done].
Qed.

Lemma for_each_down (J : Z -> S -> Prop) (n : nat) (body : Z -> S -> outcome S) s :
  J (Z.of_nat n) s ->
  (forall i s, 0 <= i < Z.of_nat n -> J (i + 1) s -> full_or (J i) (body i s)) ->
  full_or (J 0) (for_each (rev (zseq n)) body s).
Proof.
  revert s. induction n as [|n IH]; intros s H0 Hs; [done|].
  rewrite zseq_S, rev_app_distr. cbn [rev app for_each].
  apply full_or_bind with (J (Z.of_nat n)).
  - apply Hs; [lia|]. by replace (Z.of_nat n + 1) with (Z.of_nat (Datatypes.S n)) by lia.
  - intros s' Hj. apply IH; [done|]. intros i s2 Hi. apply Hs. lia.
Qed.

(** Two bodies that agree as long as an invariant holds. *)
Lemma for_each_ext (I : S -> Prop) (l : list Z) (b1 b2 : Z -> S -> outcome S) s :
  I s ->
  (forall i s, i ∈ l -> I s -> b1 i s = b2 i s /\ forall s', b1 i s = Ret s' -> I s') ->
  for_each l b1 s = for_each l b2 s.
Proof.
  revert s. induction l as [|i l IH]; intros s Hs Hb; [done|]. cbn [for_each].
  destruct (Hb i s ltac:(left) Hs) as [E Hi]. rewrite <- E.
  destruct (b1 i s) as [s'|e|w] eqn:E1; cbn [outcome_bind]; [|done|done].
  apply IH; [by apply Hi|]. intros j s2 Hj. apply Hb. by right.
Qed.
End Loops.

(** * The copy slot by slot *)

Section Slots.
Context `{VecSize, Target}.
Context (src dst : Z) (ms md : fmap_t) (f t n : Z) (σ0 : tables).
Context (same_map : src = dst -> forall k, ms k = md k).
Context (src_implements : exists s, σ0 !! src = Some s /\ implements s ms).
Context (from_int : forall i, 0 <= i < n -> in_s 32 (f + i)).
Context (to_int : forall i, 0 <= i < n -> in_s 32 (t + i)).

(** The destination implements a map; it can be written to. *)
Definition dst_is (m : fmap_t) (σ : tables) : Prop :=
  exists d, σ !! dst = Some d /\ implements d m /\ readonly d = false.

Definition others (σ : tables) : Prop := forall a, a <> dst -> σ !! a = σ0 !! a.

Lemma dst_is_ext m m' σ : (forall k, m k = m' k) -> dst_is m σ -> dst_is m' σ.
Proof.
  intros Hm (d & Ed & [Hwf Hi] & Hr). exists d. split; [done|]. split; [|done].
  split; [done|]. intros k Hv. by rewrite Hi, Hm.
Qed.

Definition progress (lo hi : Z) (σ : tables) : Prop :=
  dst_is (moved ms md f t lo hi) σ /\ others σ.

(** The source still has its element [f + i]. *)
Lemma source_read lo hi i σ :
  progress lo hi σ -> 0 <= i < n -> dst <> src \/ f + i < t + lo \/ t + hi <= f + i ->
  lua_rawgeti σ src (f + i) = Ret (ms (akey (f + i))).
Proof.
  intros [(d & Ed & Hd & _) Ho] Hi Hout. unfold lua_rawgeti, table_at.
  destruct (decide (src = dst)) as [->|Hne].
  - rewrite Ed. cbn [outcome_bind]. f_equal. rewrite (rawgeti_spec _ _ _ Hd (from_int i Hi)).
    rewrite moved_outside; [by rewrite same_map|by apply from_int|]. destruct Hout; [done|lia].
  - rewrite Ho by done. destruct src_implements as (s & -> & Hs). cbn [outcome_bind]. f_equal.
    by apply rawgeti_spec, from_int.
Qed.

Lemma write_step m i v σ :
  dst_is m σ -> others σ -> 0 <= i < n ->
  full_or (fun σ' => dst_is (map_set m (akey (t + i)) v) σ' /\ others σ')
    (lua_rawseti σ dst (t + i) v).
Proof.
  intros (d & Ed & Hd & Hr) Ho Hi. unfold lua_rawseti, table_at. rewrite Ed. cbn [outcome_bind].
  eapply full_or_bind; [apply rawseti_spec; [done|by apply to_int|done]|].
  intros d' [Hd' Hr']. split.
  - exists d'. by rewrite lookup_insert_eq.
  - intros a Ha. rewrite lookup_insert_ne by done. by apply Ho.
Qed.

Lemma copy_slots_up σ :
  0 <= n -> progress 0 0 σ -> dst <> src \/ f + n <= t \/ t <= f ->
  full_or (progress 0 n) (for_each (zseq (Z.to_nat n)) (fun i => copy_slot src dst (f + i) (t + i)) σ).
Proof.
  intros Hn Hp Hdir. rewrite <- (Z2Nat.id n) at 1 by done. apply (for_each_up (progress 0)); [done|].
  rewrite Z2Nat.id by done. intros i σ1 Hi Hp1. unfold copy_slot.
  rewrite (source_read 0 i i σ1 Hp1 Hi) by lia. cbn [outcome_bind].
  destruct Hp1 as [Hd Ho]. eapply full_or_mono; [by apply write_step|].
  intros σ2 [Hd2 Ho2]. split; [|done]. eapply dst_is_ext; [|exact Hd2].
  intros k. apply moved_up; [by apply to_int|lia].
Qed.

Lemma copy_slots_down σ :
  0 <= n -> progress n n σ -> f < t ->
  full_or (progress 0 n)
    (for_each (rev (zseq (Z.to_nat n))) (fun i => copy_slot src dst (f + i) (t + i)) σ).
Proof.
  intros Hn Hp Hdir. apply (for_each_down (fun i => progress i n)); rewrite Z2Nat.id by done; [done|].
  intros i σ1 Hi Hp1. unfold copy_slot.
  rewrite (source_read (i + 1) n i σ1 Hp1 Hi) by lia. cbn [outcome_bind].
  destruct Hp1 as [Hd Ho]. eapply full_or_mono; [by apply write_step|].
  intros σ2 [Hd2 Ho2]. split; [|done]. eapply dst_is_ext; [|exact Hd2].
  intros k. apply moved_down; [by apply to_int|lia].
Qed.

Lemma progress_start lo σ : dst_is md σ -> others σ -> progress lo lo σ.
Proof.
  intros Hd Ho. split; [|done]. eapply dst_is_ext; [|exact Hd]. intros k. by rewrite moved_empty.
Qed.
End Slots.

(** * The copy inside the arrays *)

Section Arrays.
Context `{VecSize, Target}.

(** The ranges lie in the arrays. *)
Definition arrays_fit (src dst f t n : Z) (σ : tables) : Prop :=
  (exists s, σ !! src = Some s /\ sizearray s <= MAXSIZE /\ 1 <= f /\ f + n <= sizearray s + 1) /\
  (exists d, σ !! dst = Some d /\ sizearray d <= MAXSIZE /\ 1 <= t /\ t + n <= sizearray d + 1 /\
     readonly d = false).

Lemma in_array_fits i t : sizearray t <= MAXSIZE -> 1 <= i <= sizearray t -> in_array i t = true.
Proof.
  intros Hs Hi. pose proof MAXSIZE_eq. rewrite in_array_spec by (try done; unfold in_s; lia).
  destruct (Z.leb_spec 1 i), (Z.leb_spec i (sizearray t)); try lia; done.
Qed.

Lemma copy_elt_slot src dst f t n i σ :
  arrays_fit src dst f t n σ -> 0 <= i < n ->
  copy_elt src dst (f + i - 1) (t + i - 1) σ = copy_slot src dst (f + i) (t + i) σ /\
  forall σ', copy_elt src dst (f + i - 1) (t + i - 1) σ = Ret σ' -> arrays_fit src dst f t n σ'.
Proof.
  intros [(s & Es & Hs & Hf1 & Hf2) (d & Ed & Hd & Ht1 & Ht2 & Hr)] Hi.
  unfold copy_elt, copy_slot, lua_rawgeti, lua_rawseti, table_at. rewrite Es, Ed.
  cbn [outcome_bind]. unfold rawgeti, rawseti, luaH_getnum, luaH_setnum, read_array.
  rewrite !in_array_fits by lia. rewrite Hr. cbn [negb guard_or slot_get slot_value outcome_bind].
  destruct (Z.ltb_spec (f + i - 1) 0), (Z.leb_spec 0 (t + i - 1)),
    (Z.ltb_spec (t + i - 1) (sizearray d)); try lia. cbn [andb].
  destruct (lookup_lt_is_Some_2 (array s) (Z.to_nat (f + i - 1))) as [v Hv];
    [unfold sizearray in Hf2; lia|]. rewrite Hv. cbn [outcome_bind default]. split; [done|].
  intros σ' [= <-]. set (d' := setslot d (ArraySlot (Z.to_nat (t + i - 1))) v).
  assert (Hl : sizearray d' = sizearray d) by (unfold sizearray; cbn; by rewrite length_insert).
  split.
  - destruct (decide (src = dst)) as [->|Hne].
    + exists d'. rewrite lookup_insert_eq. assert (d = s) as -> by congruence. rewrite Hl. done.
    + exists s. by rewrite lookup_insert_ne.
  - exists d'. rewrite lookup_insert_eq, Hl. done.
Qed.

(** The condition of the code for the copy inside the arrays. *)
Lemma arrays_fit_cond s d f t n :
  sizearray s <= MAXSIZE -> sizearray d <= MAXSIZE -> in_s 32 f -> in_s 32 t -> 0 <= n < 2 ^ 31 ->
  let in_range x a := (sub_u 32 (u32 x) 1 <? u32 (sizearray a)) in
  let fits x a := (add_u 32 (sub_u 32 (u32 x) 1) (u32 n) <=? u32 (sizearray a)) in
  in_range f s && in_range t d && fits f s && fits t d = true ->
  (1 <= f /\ f + n <= sizearray s + 1) /\ 1 <= t /\ t + n <= sizearray d + 1.
Proof.
  intros Hs Hd Hf Ht Hn in_range fits Hc. pose proof MAXSIZE_eq as HM.
  assert (Hone : forall x a, sizearray a <= MAXSIZE -> in_s 32 x -> in_range x a = true ->
    fits x a = true -> 1 <= x /\ x + n <= sizearray a + 1).
  { intros x a Ha Hx H1 H2. unfold in_range in H1. fold (in_array x a) in H1.
    rewrite in_array_spec in H1 by done. unfold fits, add_u, sub_u, cast_u in H2. bool_simpl.
    unfold in_s in Hx.
    assert (0 <= sizearray a) by (unfold sizearray; lia).
    rewrite Zminus_mod_idemp_l, (Z.mod_small (x - 1)) in H2 by lia.
    rewrite (Z.mod_small n), (Z.mod_small (sizearray a)) in H2 by lia.
    rewrite Z.mod_small in H2 by lia. lia. }
  bool_simpl. split; apply Hone; done.
Qed.
End Arrays.

(** * The copy through a temporary table *)

(** Updates of a map by the entries of a list: an entry whose key [g] maps to an
    index sets that index. *)
Section Updates.
Context `{VecSize, Target}.
Context (g : TValue -> option Z) (h : TValue -> TValue).
Context (g_int : forall k i, g k = Some i -> in_s 32 i).

Definition update (m : fmap_t) (kv : TValue * TValue) : fmap_t :=
  match g kv.1 with Some i => map_set m (akey i) (h kv.2) | None => m end.

Definition updates (l : list (TValue * TValue)) (m : fmap_t) : fmap_t := fold_left update l m.

(** An index has the value of some entry of the list, or no entry sets it. *)
Lemma updates_spec l m k i :
  index_of k = Some i ->
  (exists k' v, (k', v) ∈ l /\ g k' = Some i /\ updates l m k = h v) \/
  ((forall k' v, (k', v) ∈ l -> g k' <> Some i) /\ updates l m k = m k).
Proof.
  intros Hk. induction l as [|[k1 v1] l IH] using rev_ind.
  { right. split; [|done]. intros k' v Hin. by apply elem_of_nil in Hin. }
  unfold updates in *. rewrite fold_left_app. cbn [fold_left]. unfold update at 1. cbn [fst snd].
  unfold update at 3. cbn [fst snd].
  destruct (g k1) as [i1|] eqn:E1.
  - rewrite map_set_index by by eapply g_int. rewrite Hk.
    destruct (bool_decide_reflect (Some i = Some i1)) as [[= <-]|Hne].
    + left. exists k1, v1. split; [apply elem_of_app; right; by left|done].
    + destruct IH as [(k' & v & Hin & Hg & Hu)|[Hno Hu]].
      * left. exists k', v. split; [apply elem_of_app; by left|done].
      * right. split; [|done].
        intros k' v [Hin|Hin%list_elem_of_singleton]%elem_of_app; [by eapply Hno|]. congruence.
  - destruct IH as [(k' & v & Hin & Hg & Hu)|[Hno Hu]].
    + left. exists k', v. split; [apply elem_of_app; by left|done].
    + right. split; [|done].
      intros k' v [Hin|Hin%list_elem_of_singleton]%elem_of_app; [by eapply Hno|]. congruence.
Qed.

(** Keys that are no index are left alone. *)
Lemma updates_other l m k : index_of k = None -> updates l m k = m k.
Proof.
  intros Hk. unfold updates. revert m. induction l as [|[k1 v1] l IH]; intros m; [done|].
  cbn [fold_left]. rewrite IH. unfold update. cbn [fst snd]. destruct (g k1) as [i|] eqn:E; [|done].
  rewrite map_set_index by by eapply g_int. by rewrite Hk.
Qed.
End Updates.

Section Iteration.
Context `{VecSize, Target}.

(** A loop over the entries of a table that does not change. *)
Fixpoint kv_each {S : Type} (body : TValue -> TValue -> S -> outcome S)
    (l : list (TValue * TValue)) (s : S) : outcome S :=
  match l with
  | [] => Ret s
  | (k, v) :: l => s <- body k v s ;; kv_each body l s
  end.

Lemma rawiter_const {S : Type} t p fuel (body : TValue -> TValue -> S -> outcome S) s :
  wf_table t -> (length (entries_from t p) < fuel)%nat ->
  rawiter_loop fuel (fun _ => Ret t) body (Z.of_nat p) s = kv_each body (entries_from t p) s.
Proof.
  intros Hwf. revert p s. induction fuel as [|f IH]; intros p s Hf; [lia|].
  cbn [rawiter_loop outcome_bind]. rewrite (rawiter_scan t p Hwf). cbn [outcome_bind].
  pose proof (scan_spec t p Hwf) as Hs. destruct (scan t p) as [[[sl k] v]|].
  - destruct Hs as (Hs & _ & He). rewrite He in *. cbn [length kv_each] in *.
    destruct (body k v s); cbn [outcome_bind]; [|done|done]. apply IH. lia.
  - cbn in Hs. by rewrite Hs.
Qed.

Lemma length_entries t : (length (entries t) < iter_fuel t)%nat.
Proof.
  unfold iter_fuel, entries. rewrite length_app.
  assert (Ha : forall i vs, (length (array_entries i vs) <= length vs)%nat).
  { intros i vs. revert i. induction vs as [|v vs IH]; intros i; cbn; [done|].
    specialize (IH (i + 1)). rewrite ?length_app. case_match; cbn; lia. }
  assert (Hn : forall ns, (length (node_entries ns) <= length ns)%nat).
  { induction ns as [|n ns IH]; [done|]. unfold node_entries. cbn [mbind list_bind].
    fold (node_entries ns). rewrite length_app. unfold node_entry. cbn [length].
    destruct (ttisnil (nval n)), (nkey n); cbn [length]; lia. }
  specialize (Ha 0 (array t)). specialize (Hn (nodes_of t)). lia.
Qed.

(** Assignments of the entries of a list to indices of a table. *)
Lemma kv_each_updates (g : TValue -> option Z) (h : TValue -> TValue) body l t m :
  (forall k i, g k = Some i -> in_s 32 i) ->
  (forall k v t, (k, v) ∈ l -> body k v t = match g k with Some i => rawseti t i (h v) | None => Ret t end) ->
  implements t m -> readonly t = false ->
  full_or (fun t' => implements t' (updates g h l m) /\ readonly t' = false) (kv_each body l t).
Proof.
  intros Hg. revert t m. induction l as [|[k v] l IH]; intros t m Hb Hi Hr; [by split|].
  cbn [kv_each]. rewrite (Hb k v t) by by left. unfold updates. cbn [fold_left].
  apply full_or_bind with (fun t' => implements t' (update g h m (k, v)) /\ readonly t' = false).
  - unfold update. cbn [fst snd]. destruct (g k) as [i|] eqn:E; [|by split].
    apply rawseti_spec; [done|by eapply Hg|done].
  - intros t' [Hi' Hr']. apply IH; [|done|done]. intros k' v' t2 Hin. apply Hb. by right.
Qed.
End Iteration.

Section Sparse.
Context `{VecSize, Target}.

Lemma d_le_eq c a b :
  d_eq a a = true -> d_eq a b = true -> d_le c a = d_le c b /\ d_le a c = d_le b c.
Proof.
  intros Hs E. unfold d_eq in *. rewrite SFeqb_norm in E by done. apply bool_decide_eq_true in E.
  apply norm_num_cases in E as [->|(s & s' & -> & ->)]; [done|].
  split; destruct c as [[]|[]| |[] m e], s, s'; done.
Qed.

Lemma tovalidintkey_spec k f e j :
  in_s 32 f -> in_s 32 e -> tovalidintkey k f e = Some j <-> index_of k = Some j /\ f <= j <= e.
Proof.
  intros Hf He. destruct k; try (split; [done|by intros [? _]]). cbn.
  pose proof (luai_num2int_range n) as Hr. set (i := luai_num2int n) in *. clearbody i.
  unfold in_s in Hf, He, Hr. destruct (d_eq (double_of_Z i) n) eqn:E.
  - destruct (d_le_eq (double_of_Z f) (double_of_Z i) n) as [E1 _]; [by apply double_of_Z_self; lia|done|].
    destruct (d_le_eq (double_of_Z e) (double_of_Z i) n) as [_ E2]; [by apply double_of_Z_self; lia|done|].
    rewrite <- E1, <- E2, !d_le_of_Z by lia.
    destruct (Z.leb_spec f i), (Z.leb_spec i e); cbn [andb]; split; try done; try (intros [= <-]; done);
      intros [[= <-] ?]; try done; lia.
  - destruct (_ && _); split; try done; by intros [? _].
Qed.

(** Clearing the slot of an index of the table. *)
Lemma rawseti_clear d s k j :
  wf_table d -> readonly d = false -> slot_key d s k -> key_norm k = key_norm (akey j) -> in_s 32 j ->
  exists d0, rawseti d j LNil = Ret (setslot d0 s LNil) /\ array d0 = array d /\ node d0 = node d.
Proof.
  intros Hwf Hr Hk E Hj. unfold rawseti, luaH_setnum. rewrite Hr. cbn [negb guard_or].
  pose proof (finds_unique d _ _ s k Hwf (luaH_getnum_finds d j Hwf Hj) Hk E) as Hg.
  change (luaH_getnum (invalidateTMcache d) j) with (luaH_getnum d j). rewrite Hg.
  unfold luaH_getnum in Hg. destruct (in_array j d); cbn [outcome_bind].
  - injection Hg as <-. by exists d.
  - by exists (invalidateTMcache d).
Qed.

Lemma entries_from_setslot d0 d s v :
  array d0 = array d -> node d0 = node d -> (exists k, slot_key d s k) ->
  entries_from (setslot d0 s v) (S (pos d s)) = entries_from d (S (pos d s)).
Proof.
  intros Ea En [k Hk]. unfold entries_from, nodes_of. destruct s as [i|i]; cbn [setslot pos].
  - cbn [array set_array node]. rewrite Ea, En, length_insert. f_equal.
    by rewrite drop_insert_lt by lia.
  - apply live_node in Hk as (ns & En' & _). rewrite En, En'. cbn [array node set_node].
    rewrite Ea. rewrite !(drop_ge (array d)) by lia. f_equal.
    replace (S (length (array d) + i) - length (array d))%nat with (S i) by lia.
    by rewrite drop_insert_lt by lia.
Qed.

(** The loop that clears the entries of a range, over the table it changes. *)
Lemma clear_loop (f e : Z) (body : TValue -> TValue -> LuaTable -> outcome LuaTable) fuel d m p :
  in_s 32 f -> in_s 32 e ->
  (forall k v d, body k v d = match tovalidintkey k f e with
                              | Some j => rawseti d j LNil | None => Ret d end) ->
  implements d m -> readonly d = false -> (length (entries_from d p) < fuel)%nat ->
  full_or (fun d' => implements d' (updates (fun k => tovalidintkey k f e) (fun _ => LNil) (entries_from d p) m)
                     /\ readonly d' = false)
    (rawiter_loop fuel Ret body (Z.of_nat p) d).
Proof.
  intros Hf He Hb. revert d m p. induction fuel as [|n IH]; intros d m p Hi Hr Hl; [lia|].
  pose proof Hi as [Hwf Hm]. cbn [rawiter_loop outcome_bind]. rewrite (rawiter_scan d p Hwf).
  cbn [outcome_bind]. pose proof (scan_spec d p Hwf) as Hs. destruct (scan d p) as [[[s k] v]|].
  2:{ cbn in Hs. rewrite Hs. by split. }
  destruct Hs as (Hs & _ & Hent). rewrite Hent in *. cbn [length] in Hl. rewrite Hb.
  unfold updates. cbn [fold_left]. unfold update at 2. cbn [fst snd].
  destruct (tovalidintkey k f e) as [j|] eqn:Ek.
  - apply tovalidintkey_spec in Ek as [Ek _]; [|done|done]. pose proof (index_of_range _ _ Ek) as Hj.
    pose proof (rawseti_spec d m j LNil Hi Hj Hr) as Hset.
    apply index_of_norm in Ek; [|done].
    destruct (rawseti_clear d s k j Hwf Hr Hs Ek Hj) as (d0 & E & Ea & En). rewrite E in *.
    cbn [outcome_bind full_or] in *. destruct Hset as [Hi1 Hr1].
    pose proof (entries_from_setslot d0 d s LNil Ea En ltac:(eauto)) as Hrest.
    rewrite <- Hrest. apply (IH _ _ (S (pos d s))); [done|done|]. rewrite Hrest. lia.
  - cbn [outcome_bind]. apply (IH _ _ (S (pos d s))); [done|done|lia].
Qed.
End Sparse.

Section SparseMove.
Context `{VecSize, Target}.
Context (f e t n : Z) (n_is : n = e - f + 1) (some : 1 <= n).
Context (f_int : in_s 32 f) (e_int : in_s 32 e) (t_int : in_s 32 t) (te_int : in_s 32 (t + (n - 1))).
Context (s : LuaTable) (ms : fmap_t) (s_implements : implements s ms).

(** What the temporary table implements. *)
Definition collected (temp : LuaTable) : Prop :=
  wf_table temp /\ forall k, valid_key k = true -> get temp k =
    match index_of k with
    | Some j => if (f <=? j) && (j <=? e) then ms (akey j) else LNil
    | None => LNil
    end.

Lemma entry_index t0 m k v k' i :
  implements t0 m -> in_s 32 i -> (k, v) ∈ entries t0 -> index_of k = Some i ->
  valid_key k' = true -> index_of k' = Some i -> m k' = v.
Proof.
  intros [Hwf Hm] Hi (Hv & _ & <-)%entry_get Hk Hv' Hk'; [|done]. rewrite <- Hm by done.
  apply get_norm; try done. apply index_of_norm in Hk, Hk'; try done. congruence.
Qed.

Lemma index_entry t0 m k i :
  implements t0 m -> in_s 32 i -> valid_key k = true -> index_of k = Some i -> m k <> LNil ->
  exists k', (k', m k) ∈ entries t0 /\ index_of k' = Some i.
Proof.
  intros [Hwf Hm] Hi Hv Hk Hne. rewrite <- Hm in * by done.
  destruct (get_entry t0 k Hwf Hv Hne) as (k' & E & Hin). exists k'. split; [done|].
  apply index_of_norm; [done|]. apply index_of_norm in Hk; [|done]. congruence.
Qed.

(** The first loop of the sparse move. *)
Lemma collect_spec temp0 :
  wf_table temp0 -> entries temp0 = [] -> readonly temp0 = false ->
  full_or collected
    (rawiter_loop (iter_fuel s) (fun _ => Ret s)
       (fun k v temp => match tovalidintkey k f e with
                        | Some ikey => rawseti temp ikey v
                        | None => Ret temp
                        end) 0 temp0).
Proof.
  intros Hwf0 He0 Hr0. pose proof s_implements as [Hwf Hm]. change 0 with (Z.of_nat 0).
  rewrite rawiter_const by (try done; apply length_entries). rewrite entries_from_0.
  assert (Hg : forall k i, tovalidintkey k f e = Some i -> in_s 32 i).
  { intros k i Hk%tovalidintkey_spec; [|done|done]. by eapply index_of_range, Hk. }
  eapply full_or_mono; [apply (kv_each_updates (fun k => tovalidintkey k f e) id _ _ _ (fun _ => LNil)); try done|].
  { split; [done|]. intros k Hv. by apply get_empty. }
  cbv beta. intros temp [[Hwf' Hm'] _]. split; [done|]. intros k Hv. rewrite Hm' by done.
  destruct (index_of k) as [j|] eqn:Ek; [|by apply updates_other].
  pose proof (index_of_range _ _ Ek) as Hj.
  destruct (updates_spec (fun k => tovalidintkey k f e) id Hg (entries s) (fun _ => LNil) k j Ek)
    as [(k' & v & Hin & Hk' & ->)|[Hno ->]].
  - apply tovalidintkey_spec in Hk' as [Hk' Hr]; [|done|done].
    destruct (Z.leb_spec f j), (Z.leb_spec j e); try lia. symmetry.
    apply (entry_index s ms k' v (akey j) j); try done; [by apply akey_int|by apply index_of_akey].
  - destruct (Z.leb_spec f j), (Z.leb_spec j e); cbn [andb]; try done.
    destruct (decide (ms (akey j) = LNil)) as [|Hne]; [done|]. exfalso.
    destruct (index_entry s ms (akey j) j) as (k' & Hin & Hk'); try done;
      [by apply akey_int|by apply index_of_akey|].
    apply (Hno _ _ Hin). by apply tovalidintkey_spec.
Qed.

Context (d : LuaTable) (md : fmap_t) (d_implements : implements d md) (d_writable : readonly d = false).

(** The last two loops: clear the range, then copy. *)
Lemma sparse_result temp d1 :
  collected temp ->
  implements d1 (updates (fun k => tovalidintkey k t (t + (n - 1))) (fun _ => LNil) (entries d) md) ->
  readonly d1 = false ->
  full_or (fun d2 => implements d2 (moved ms md f t 0 n) /\ readonly d2 = false)
    (rawiter_loop (iter_fuel temp) (fun _ => Ret temp)
       (fun k v d => match k with
                     | LNumber nk => rawseti d (luai_num2int nk - f + t) v
                     | _ => Undefined "a key of the temporary table"
                     end) 0 d1).
Proof.
  intros [Hwft Ht] Hd1 Hr1. change 0 with (Z.of_nat 0) at 2.
  rewrite rawiter_const by (try done; apply length_entries). rewrite entries_from_0.
  set (g := fun k => match tovalidintkey k f e with Some j => Some (j - f + t) | None => None end).
  assert (Hg : forall k i, g k = Some i <-> exists j, index_of k = Some j /\ f <= j <= e /\ i = j - f + t).
  { intros k i. unfold g. destruct (tovalidintkey k f e) as [j|] eqn:E.
    - apply tovalidintkey_spec in E as [E Hr]; [|done|done]. split; [intros [= <-]; eauto|].
      intros (j' & E' & _ & ->). congruence.
    - split; [done|]. intros (j & E' & Hr & _).
      rewrite (proj2 (tovalidintkey_spec k f e j f_int e_int)) in E; done. }
  assert (Hgi : forall k i, g k = Some i -> in_s 32 i).
  { intros k i (j & _ & Hr & ->)%Hg. unfold in_s in *. lia. }
  assert (Hgc : forall k i, tovalidintkey k t (t + (n - 1)) = Some i -> in_s 32 i).
  { intros k i Hk%tovalidintkey_spec; [|done|done]. by eapply index_of_range, Hk. }
  assert (Hent : forall k v, (k, v) ∈ entries temp -> exists j, index_of k = Some j /\ f <= j <= e /\
    v = ms (akey j) /\ g k = Some (j - f + t)).
  { intros k v (Hv & Hne & E)%entry_get; [|done]. rewrite Ht in E by done.
    destruct (index_of k) as [j|] eqn:Ek; [|congruence].
    destruct (Z.leb_spec f j), (Z.leb_spec j e); cbn [andb] in E; try congruence.
    exists j. split; [done|]. split; [lia|]. split; [done|]. apply Hg. eauto. }
  eapply full_or_mono; [apply (kv_each_updates g id); [done| |exact Hd1|done]|].
  { intros k v d' Hin. destruct (Hent k v Hin) as (j & Ek & _ & _ & ->).
    destruct k; try done. cbn in Ek. destruct (d_eq _ _); [|done]. by injection Ek as ->. }
  cbv beta. intros d2 [[Hwf2 Hm2] Hr2]. split; [|done]. split; [done|].
  intros k Hv. rewrite Hm2 by done. unfold moved.
  destruct (index_of k) as [i|] eqn:Ek; [|by rewrite !updates_other].
  pose proof (index_of_range _ _ Ek) as Hi.
  destruct (updates_spec g id Hgi (entries temp)
    (updates (fun k => tovalidintkey k t (t + (n - 1))) (fun _ => LNil) (entries d) md) k i Ek)
    as [(k' & v & Hin & Hk' & ->)|[Hno ->]].
  { destruct (Hent k' v Hin) as (j & _ & Hj & -> & Hg'). rewrite Hg' in Hk'. injection Hk' as <-.
    destruct (Z.leb_spec (t + 0) (j - f + t)), (Z.ltb_spec (j - f + t) (t + n)); try lia.
    cbn [andb]. unfold id. do 2 f_equal. lia. }
  assert (Hnil : t <= i < t + n -> ms (akey (f + (i - t))) = LNil).
  { intros Hr. destruct (decide (ms (akey (f + (i - t))) = LNil)) as [|Hne]; [done|]. exfalso.
    assert (Hj : in_s 32 (f + (i - t))) by (unfold in_s in *; lia).
    pose proof (Ht (akey (f + (i - t))) (akey_int _ Hj)) as Hget. rewrite index_of_akey in Hget by done.
    destruct (Z.leb_spec f (f + (i - t))), (Z.leb_spec (f + (i - t)) e); try lia. cbn [andb] in Hget.
    rewrite <- Hget in Hne. apply get_entry in Hne as (k' & E & Hin); [|done|by apply akey_int].
    apply (Hno _ _ Hin). apply Hg. exists (f + (i - t)). split; [by apply index_of_norm|lia]. }
  destruct (updates_spec (fun k => tovalidintkey k t (t + (n - 1))) (fun _ => LNil) Hgc (entries d) md k i Ek)
    as [(k' & v & Hin & Hk' & ->)|[Hno2 ->]].
  { apply tovalidintkey_spec in Hk' as [_ Hr]; [|done|done].
    destruct (Z.leb_spec (t + 0) i), (Z.ltb_spec i (t + n)); try lia. symmetry. apply Hnil. lia. }
  destruct (Z.leb_spec (t + 0) i), (Z.ltb_spec i (t + n)); cbn [andb]; try done.
  rewrite Hnil by lia. destruct (decide (md k = LNil)) as [|Hne]; [done|]. exfalso.
  destruct (index_entry d md k i d_implements Hi Hv Ek Hne) as (k' & Hin & Hk').
  apply (Hno2 _ _ Hin). apply tovalidintkey_spec; [done|done|]. split; [done|lia].
Qed.
End SparseMove.

(** * moveelements *)

Section MoveElements.
Context `{VecSize, Target}.

Lemma sparse_move_spec src dst f e t n σ s d :
  σ !! src = Some s -> σ !! dst = Some d -> wf_table s -> wf_table d -> readonly d = false ->
  n = e - f + 1 -> 1 <= n -> in_s 32 f -> in_s 32 e -> in_s 32 t -> in_s 32 (t + (n - 1)) ->
  full_or (progress dst (get s) (get d) f t σ 0 n) (sparse_move src dst f e t n σ).
Proof.
  intros Es Ed Hs Hd Hr Hn Hn1 Hf He Ht Hte. unfold sparse_move, table_at. rewrite Es.
  cbn [outcome_bind].
  destruct (luaH_new_spec 0 0 ltac:(done) ltac:(done)) as (temp & Enew & Hwft & Hent & _).
  assert (Hrt : readonly temp = false) by (cbn in Enew; by injection Enew as <-).
  rewrite Enew. cbn [outcome_bind].
  eapply full_or_bind; [by apply (collect_spec f e Hf He s (get s))|].
  intros temp1 Hcol. rewrite Ed. cbn [outcome_bind]. change 0 with (Z.of_nat 0) at 1.
  eapply full_or_bind.
  { apply (clear_loop t (t + (n - 1)) _ (iter_fuel d) d (get d) 0 Ht Hte); try done.
    rewrite entries_from_0. apply length_entries. }
  cbv beta. rewrite entries_from_0. intros d1 [Hi1 Hr1].
  eapply full_or_bind; [by apply (sparse_result f e t n Hn Hf He Ht Hte (get s) d (get d))|].
  cbv beta. intros d2 [Hi2 Hr2]. split.
  - exists d2. by rewrite lookup_insert_eq.
  - intros a Ha. by rewrite lookup_insert_ne.
Qed.

Lemma slot_move_spec srcdst_up src dst f t n σ s d :
  σ !! src = Some s -> σ !! dst = Some d -> wf_table s -> wf_table d -> readonly d = false ->
  0 <= n -> (forall i, 0 <= i < n -> in_s 32 (f + i)) -> (forall i, 0 <= i < n -> in_s 32 (t + i)) ->
  (if srcdst_up : bool then dst <> src \/ f + n <= t \/ t <= f else f < t) ->
  full_or (progress dst (get s) (get d) f t σ 0 n)
    (for_each (if srcdst_up then zseq (Z.to_nat n) else rev (zseq (Z.to_nat n)))
       (fun i => copy_slot src dst (f + i) (t + i)) σ).
Proof.
  intros Es Ed Hs Hd Hr Hn Hfi Hti Hdir.
  assert (Hsame : src = dst -> forall k, get s k = get d k) by (intros ->; congruence).
  assert (Hsrc : exists s0, σ !! src = Some s0 /\ implements s0 (get s)) by by exists s.
  assert (Hdst : dst_is dst (get d) σ) by by exists d.
  destruct srcdst_up.
  - apply copy_slots_up; try done. by apply progress_start.
  - apply copy_slots_down; try done. by apply progress_start.
Qed.

Lemma array_move_slots up src dst f t n σ :
  arrays_fit src dst f t n σ -> 0 <= n ->
  for_each (if up : bool then zseq (Z.to_nat n) else rev (zseq (Z.to_nat n)))
    (fun i => copy_elt src dst (f + i - 1) (t + i - 1)) σ =
  for_each (if up then zseq (Z.to_nat n) else rev (zseq (Z.to_nat n)))
    (fun i => copy_slot src dst (f + i) (t + i)) σ.
Proof.
  intros Hfit Hn. apply (for_each_ext (arrays_fit src dst f t n)); [done|].
  intros i σ1 Hi Hfit1. apply copy_elt_slot; [done|].
  assert (Hi' : i ∈ zseq (Z.to_nat n)) by (destruct up; [done|by rewrite <- elem_of_rev]).
  apply elem_of_zseq in Hi'. lia.
Qed.

Lemma for_each_if {S : Type} (b : bool) (l1 l2 : list Z) (body : Z -> S -> outcome S) s :
  (if b then for_each l1 body s else for_each l2 body s) = for_each (if b then l1 else l2) body s.
Proof. by destruct b. Qed.

Lemma moveelements_spec fix_flag srct dstt src dst f e t sparse σ s d :
  let n := e - f + 1 in
  σ !! src = Some s -> σ !! dst = Some d -> wf_table s -> wf_table d ->
  (srct = dstt -> src = dst) ->
  0 <= n < 2 ^ 31 -> in_s 32 f -> in_s 32 e -> in_s 32 t -> in_s 32 (t + (n - 1)) ->
  (sparse = true -> 1 <= n) ->
  match moveelements fix_flag srct dstt src dst f e t sparse σ with
  | Ret σ' => readonly d = false /\ progress dst (get s) (get d) f t σ 0 n σ'
  | Throw err => readonly d = true /\ err = RunError "attempt to modify a readonly table" \/
                 readonly d = false /\ err = RunError "table overflow"
  | Undefined _ => False
  end.
Proof.
  intros n Es Ed Hs Hd Hst Hn Hf He Ht Hte Hsp. unfold moveelements, table_at. rewrite Es, Ed.
  cbn [outcome_bind]. destruct (readonly d) eqn:Hr; cbn [negb guard_or]; [by left|]. fold n.
  assert (Hgoal : forall o, full_or (progress dst (get s) (get d) f t σ 0 n) o ->
    match o with
    | Ret σ' => false = false /\ progress dst (get s) (get d) f t σ 0 n σ'
    | Throw err => false = true /\ err = RunError "attempt to modify a readonly table" \/
                   false = false /\ err = RunError "table overflow"
    | Undefined _ => False
    end) by (intros [σ'|err|w] Ho; [by split|by right|done]).
  apply Hgoal. clear Hgoal.
  assert (Hfi : forall i, 0 <= i < n -> in_s 32 (f + i)) by (unfold in_s in *; lia).
  assert (Hti : forall i, 0 <= i < n -> in_s 32 (t + i)) by (unfold in_s in *; lia).
  assert (Hup : forall b, (b = true -> dst <> src) ->
    if (e <? t) || (t <=? f) || b then dst <> src \/ f + n <= t \/ t <= f else f < t).
  { intros b Hb. destruct (Z.ltb_spec e t); cbn [orb]; [right; left; lia|].
    destruct (Z.leb_spec t f); cbn [orb]; [by right; right|]. destruct b; [left; by apply Hb|lia]. }
  destruct (_ && _ && _ && _) eqn:Hc.
  - pose proof (arrays_fit_cond s d f t n (wt_asize _ Hs) (wt_asize _ Hd) Hf Ht Hn Hc) as [[? ?] [? ?]].
    assert (Hfit : arrays_fit src dst f t n σ).
    { split; [exists s|exists d]; split_and!; try done; by apply wt_asize. }
    rewrite for_each_if, array_move_slots by (done || lia).
    apply slot_move_spec; try done; [lia|]. apply Hup.
    intros Hb. apply andb_prop in Hb as [_ Hb]. bool_simpl. done.
  - destruct (fix_flag && sparse) eqn:Hfs.
    + apply andb_prop in Hfs as [_ ->]. apply sparse_move_spec; auto.
    + rewrite for_each_if. apply slot_move_spec; try done; [lia|]. apply Hup.
      intros Hb. bool_simpl. done.
Qed.
End MoveElements.
