(* ===== verification/TabLibSpec.v ===== *)
(** What the functions of the table library do, [TabLib.v]: moving, insertion
    and removal as operations on the list of the elements, packing and
    unpacking, concatenation, search. *)
From stdpp Require Import gmap.
From S2P Require Import Prelude Word Double DoubleExact LuaApi Tm Arith Compare Key TableNode Table.
From S2P Require Import TableSpec TableResize TableRehash TableMap TableIter Sort TabLib TabMove.
Open Scope Z_scope.
Open Scope outcome_scope.

Section Spec.
Context `{VecSize, Target}.

(** The store has a well formed table at [a]. *)
Definition has_table (σ : tables) (a : Z) (t : LuaTable) : Prop := σ !! a = Some t /\ wf_table t.

(** Two tables that are one map, with the same flags. *)
Definition same_content (t t' : LuaTable) : Prop :=
  wf_table t' /\ flags t' = flags t /\ forall k, valid_key k = true -> get t' k = get t k.

Lemma same_content_refl t : wf_table t -> same_content t t.
Proof. done. Qed.

Lemma border_bound t n : wf_table t -> border t n -> 0 <= n <= MAXSIZE.
Proof. intros Hwf [Hn _]. pose proof (wt_asize _ Hwf). lia. Qed.

Lemma lua_objlen_spec σ a t :
  has_table σ a t ->
  exists t' n, luaH_getn t = Ret (t', n) /\ lua_objlen σ a = Ret (n, <[a := t']> σ) /\
    border t n /\ same_content t t'.
Proof.
  intros [Et Hwf]. destruct (getn_wf t Hwf) as (lf & n & Hg & Hb & Hwf').
  exists (set_lastfree lf t), n. split; [done|]. split.
  { unfold lua_objlen, table_at. rewrite Et. cbn [outcome_bind]. by rewrite Hg. }
  split; [done|]. split; [done|]. split; [done|].
  intros k Hv. by apply get_entries.
Qed.

(** ** Growing *)

Lemma resizearray_content t nasize :
  wf_table t -> sizearray t <= nasize -> nasize + (2 * MAXSIZE + 2) < 2 ^ 31 ->
  full_or (same_content t) (luaH_resizearray t nasize).
Proof.
  intros Hwf Hs Hb. pose proof (resizearray_spec t nasize Hwf Hs Hb) as Hr.
  assert (Hk : keeps (luaH_resizearray t nasize) id t).
  { unfold luaH_resizearray, add_s. destruct (in_s_b _ _); [|done]. cbn [outcome_bind].
    apply resize_keeps, newkey_keeps. }
  destruct (luaH_resizearray t nasize) as [t'|e|w]; [|done|done].
  destruct Hr as (Hwf' & _ & Hg). split; [done|]. split; [|done]. by apply (Hk t').
Qed.

(** ** move *)

(** The result of a move of [f .. e] to [t ..]. *)
Definition move_result (s d d' : LuaTable) (f e t : Z) : Prop :=
  wf_table d' /\ forall k, valid_key k = true -> get d' k =
    match index_of k with
    | Some j => if (t <=? j) && (j <=? t + (e - f)) then get s (akey (f + (j - t))) else get d k
    | None => get d k
    end.

Lemma progress_result s d s1 d1 dst f e t σ σ' :
  same_content s s1 -> same_content d d1 -> in_s 32 f -> in_s 32 e ->
  progress dst (get s1) (get d1) f t σ 0 (e - f + 1) σ' ->
  exists d', has_table σ' dst d' /\ move_result s d d' f e t /\ readonly d' = false /\
    forall a, a <> dst -> σ' !! a = σ !! a.
Proof.
  intros (_ & _ & Hs) (_ & _ & Hd) Hf He [(d' & Ed & [Hwf Hg] & Hr) Ho].
  exists d'. split; [done|]. split; [|done]. split; [done|]. intros k Hv. rewrite Hg by done.
  unfold moved. destruct (index_of k) as [j|] eqn:Ek; [|by apply Hd].
  destruct (Z.leb_spec (t + 0) j), (Z.ltb_spec j (t + (e - f + 1))), (Z.leb_spec t j),
    (Z.leb_spec j (t + (e - f))); try lia; cbn [andb]; try (by apply Hd).
  apply Hs, akey_int. unfold in_s in *. lia.
Qed.

Lemma check_table_inv args i a : check_table args i = Ret a -> index2addr args i = Some (LTable a).
Proof. unfold check_table. destruct (index2addr args i) as [[]|]; naive_solver. Qed.

(** The resize of [table.move] before the elements are moved. *)
Lemma grow_spec (c : bool) (σ : tables) src dst s d size :
  has_table σ src s -> has_table σ dst d -> sizearray d <= size \/ c = false ->
  size + (2 * MAXSIZE + 2) < 2 ^ 31 \/ c = false ->
  full_or (fun σ' => exists s1 d1, has_table σ' src s1 /\ has_table σ' dst d1 /\
      same_content s s1 /\ same_content d d1 /\ forall a, a <> dst -> σ' !! a = σ !! a)
    (if c then d <- luaH_resizearray d size ;; Ret (<[dst := d]> σ) else Ret σ).
Proof.
  intros [Es Hs] [Ed Hd] Hsize Hb. destruct c.
  2:{ exists s, d. split_and!; try done. }
  eapply full_or_bind; [apply resizearray_content; [done|by destruct Hsize|by destruct Hb]|].
  intros d1 Hd1. pose proof Hd1 as (Hwf1 & _).
  destruct (decide (src = dst)) as [->|Hne].
  - assert (s = d) as -> by congruence. exists d1, d1. unfold has_table. rewrite lookup_insert_eq.
    repeat (split; [done|]). intros a Ha. by rewrite lookup_insert_ne.
  - exists s, d1. unfold has_table. rewrite lookup_insert_eq, lookup_insert_ne by done.
    repeat (split; [done|]). intros a Ha. by rewrite lookup_insert_ne.
Qed.

Lemma adjustasize_loop_grows fuel t tbound ek size : size <= adjustasize_loop fuel t tbound ek size.
Proof.
  revert size. induction fuel as [|f IH]; intros size; cbn [adjustasize_loop]; [lia|].
  destruct (_ || _); [|lia]. specialize (IH (size + 1)). lia.
Qed.

(** A resize to more than the largest array fails, or computes too large an [int]. *)
Lemma resizearray_huge t nasize : MAXSIZE < nasize ->
  luaH_resizearray t nasize = Throw (RunError "table overflow") \/
  luaH_resizearray t nasize = Undefined "signed overflow in +".
Proof.
  intros Hn. unfold luaH_resizearray, add_s. destruct (in_s_b _ _); [left|by right]. cbn [outcome_bind].
  unfold resize. pose proof (adjustasize_loop_grows (length (array t) + length (nodes_of t) + 2) t
    (negb (is_dummy t) || (nasize <? sizearray t)) (ekindex None) nasize) as Ha.
  fold (adjustasize t nasize None) in Ha. by rewrite (proj2 (Z.ltb_lt MAXSIZE _)) by lia.
Qed.

Lemma tmove_spec fix_flag args σ src dst f e t s d :
  check_table args 1 = Ret src -> luaL_checkinteger args 2 = Ret f ->
  luaL_checkinteger args 3 = Ret e -> luaL_checkinteger args 4 = Ret t ->
  check_table args (if negb (lua_isnoneornil args 5) then 5 else 1) = Ret dst ->
  has_table σ src s -> has_table σ dst d ->
  match tmove fix_flag args σ with
  | Ret (r, σ') => r = [LTable dst] /\ (e < f -> σ' = σ) /\
      (f <= e -> exists d', has_table σ' dst d' /\ move_result s d d' f e t /\
         forall a, a <> dst -> σ' !! a = σ !! a)
  | Throw err => f <= e /\
      (err = ArgError 3 "too many elements to move" /\ f <= 0 /\ INT_MAX <= e - f \/
       err = ArgError 4 "destination wrap around" /\ INT_MAX < t + (e - f) \/
       err = RunError "attempt to modify a readonly table" /\ readonly d = true \/
       err = RunError "table overflow" /\ readonly d = false)
  | Undefined w => w = "signed overflow in +"%string /\ readonly d = false /\
      1 <= t <= sizearray d + 1 /\ 2 ^ 31 - (2 * MAXSIZE + 2) <= t + (e - f) < 2 ^ 31
  end.
Proof.
  intros E1 Ef Ee Et E5 Hs Hd. pose proof (checkinteger_range _ _ _ Ef) as Hf.
  pose proof (checkinteger_range _ _ _ Ee) as He. pose proof (checkinteger_range _ _ _ Et) as Ht.
  unfold tmove. rewrite E1, Ef, Ee, Et. cbn [outcome_bind]. rewrite E5. cbn [outcome_bind].
  destruct (Z.leb_spec f e) as [Hfe|Hfe].
  2:{ cbn [outcome_bind]. split; [done|]. split; [done|lia]. }
  set (n := e - f + 1). unfold luaL_argcheck, luaL_argerror.
  destruct ((0 <? f) || (e <? INT_MAX + f)) eqn:Ec1; cbn [outcome_bind].
  2:{ split; [done|]. left. bool_simpl. split; [done|]. lia. }
  destruct (Z.leb_spec t (INT_MAX - n + 1)) as [Hc2|Hc2]; cbn [outcome_bind].
  2:{ split; [done|]. right. left. split; [done|]. unfold n in Hc2. lia. }
  assert (Hn : 1 <= n < 2 ^ 31).
  { apply orb_prop in Ec1. unfold INT_MAX, in_s in *. bool_simpl.
    destruct Ec1 as [Ec1|Ec1]; bool_simpl; lia. }
  pose proof Hs as [Es Hwfs]. pose proof Hd as [Ed Hwfd]. unfold table_at. rewrite Ed, Es.
  cbn [outcome_bind]. destruct (readonly d) eqn:Hr; cbn [negb guard_or outcome_bind].
  { split; [done|]. do 2 right. by left. }
  set (sp := fix_flag && shouldsparsemove s d n). pose proof MAXSIZE_eq.
  pose proof (wt_asize _ Hwfd) as Hsz. assert (0 <= sizearray d) by (unfold sizearray; lia).
  set (c := (0 <? t) && (t - 1 <=? sizearray d) && (sizearray d <? t - 1 + n)).
  destruct (decide (2 ^ 31 - (2 * MAXSIZE + 2) <= t - 1 + n /\ c = true)) as [[Hhuge Hc]|Hsmall].
  { rewrite Hc. unfold c in Hc. bool_simpl.
    destruct (resizearray_huge d (t - 1 + n)) as [-> | ->]; [lia|..]; cbn [outcome_bind].
    - split; [done|]. do 3 right. done.
    - split_and!; try done; unfold n, INT_MAX in *; lia. }
  pose proof (grow_spec c σ src dst s d (t - 1 + n) Hs Hd) as Hgrow.
  specialize (Hgrow ltac:(unfold c; destruct (Z.ltb_spec (sizearray d) (t - 1 + n)); [left; lia|right; by rewrite andb_false_r])
    ltac:(destruct c; [left|by right]; destruct (Z.lt_ge_cases (t - 1 + n + (2 * MAXSIZE + 2)) (2 ^ 31)); [done|];
      destruct Hsmall; split; [lia|done])).
  match type of Hgrow with full_or _ ?o => destruct o as [σ1|err|w] end;
    cbn [outcome_bind full_or] in *; [| |done].
  2:{ split; [done|]. do 3 right. done. }
  destruct Hgrow as (s1 & d1 & [Es1 Hwfs1] & [Ed1 Hwfd1] & Hs1 & Hd1 & Ho1).
  pose proof (moveelements_spec fix_flag 1 (if negb (lua_isnoneornil args 5) then 5 else 1)
    src dst f e t sp σ1 s1 d1 Es1 Ed1 Hwfs1 Hwfd1) as Hm. fold n in Hm.
  specialize (Hm ltac:(destruct (negb _); [done|intros _; congruence]) ltac:(lia) Hf He Ht
    ltac:(unfold INT_MAX, in_s in *; lia) ltac:(lia)).
  destruct (moveelements _ _ _ _ _ _ _ _ _ _) as [σ2|err|w]; cbn [outcome_bind]; [| |done].
  - destruct Hm as [_ Hp]. split; [done|]. split; [lia|]. intros _.
    destruct (progress_result s d s1 d1 dst f e t σ1 σ2 Hs1 Hd1 Hf He Hp) as (d' & Hd' & Hres & _ & Ho2).
    exists d'. split; [done|]. split; [done|]. intros a Ha. by rewrite Ho2, Ho1.
  - split; [done|]. assert (Hr1 : readonly d1 = false).
    { destruct Hd1 as (_ & Hfl & _). unfold flags in Hfl. congruence. }
    destruct Hm as [[Hr2 _]|[_ ->]]; [congruence|]. do 3 right. done.
Qed.

(** ** insert and remove *)

(** The list of the elements [1 .. n]. *)
Definition elements (t : LuaTable) (n : Z) : list TValue :=
  map (fun i => get t (akey (Z.of_nat i + 1))) (seq 0 (Z.to_nat n)).

Lemma length_elements t n : length (elements t n) = Z.to_nat n.
Proof. unfold elements. by rewrite length_map, length_seq. Qed.

Lemma elements_lookup t n i :
  elements t n !! i = if decide (i < Z.to_nat n)%nat then Some (get t (akey (Z.of_nat i + 1))) else None.
Proof.
  case_decide.
  - unfold elements. by rewrite lookup_map_seq.
  - apply lookup_ge_None. rewrite length_elements. lia.
Qed.

(** The table [t'] is [t] but for the indices in [lo .. hi]. *)
Definition same_outside (lo hi : Z) (t t' : LuaTable) : Prop :=
  wf_table t' /\ forall k, valid_key k = true ->
    (forall i, index_of k = Some i -> i < lo \/ hi < i) -> get t' k = get t k.

Lemma get_index (t : LuaTable) (m : fmap_t) i :
  (forall k, valid_key k = true -> get t k = m k) -> in_s 32 i -> get t (akey i) = m (akey i).
Proof. intros Hm Hi. by apply Hm, akey_int. Qed.

(** The two errors of an assignment. *)
Definition write_error (t : LuaTable) (err : lua_error) : Prop :=
  err = RunError "attempt to modify a readonly table" /\ readonly t = true \/
  err = RunError "table overflow" /\ readonly t = false.

Lemma lua_rawseti_spec σ a t m i v :
  σ !! a = Some t -> implements t m -> in_s 32 i ->
  match lua_rawseti σ a i v with
  | Ret σ' => exists t', σ' = <[a := t']> σ /\ implements t' (map_set m (akey i) v)
  | Throw err => write_error t err
  | Undefined _ => False
  end.
Proof.
  intros Et Him Hi. unfold lua_rawseti, table_at. rewrite Et. cbn [outcome_bind].
  destruct (readonly t) eqn:Hr.
  - unfold rawseti. rewrite Hr. by left.
  - pose proof (rawseti_spec t m i v Him Hi Hr) as Hs.
    destruct (rawseti t i v) as [t'|err|w]; cbn [outcome_bind full_or] in *; [|by right|done].
    exists t'. by destruct Hs.
Qed.

(** What [table.insert] does to the map: the indices [pos .. n] move up when
    [pos] is one of them. *)
Definition inserted (m : fmap_t) (n pos : Z) (v : TValue) : fmap_t :=
  map_set (if (1 <=? pos) && (pos <=? n) then moved m m pos (pos + 1) 0 (n - pos + 1) else m)
    (akey pos) v.

Lemma inserted_elements t t' n pos v :
  0 <= n < 2 ^ 30 -> 1 <= pos <= n + 1 -> implements t' (inserted (get t) n pos v) ->
  elements t' (n + 1) = take (Z.to_nat (pos - 1)) (elements t n) ++ v :: drop (Z.to_nat (pos - 1)) (elements t n) /\
  same_outside pos (n + 1) t t'.
Proof.
  intros Hn Hp [Hwf Hm].
  assert (Hi : forall i, in_s 32 i -> get t' (akey i) =
    if i =? pos then v else if (pos <? i) && (i <=? n + 1) then get t (akey (i - 1)) else get t (akey i)).
  { intros i Hi. rewrite (get_index t' _ i Hm Hi). unfold inserted.
    rewrite map_set_index, index_of_akey by (unfold in_s in *; (done || lia)).
    destruct (Z.eqb_spec i pos) as [->|Hne]; [by rewrite bool_decide_eq_true_2|].
    rewrite bool_decide_eq_false_2 by congruence.
    destruct (Z.leb_spec 1 pos), (Z.leb_spec pos n); try lia; cbn [andb].
    - unfold moved. rewrite index_of_akey by done.
      destruct (Z.leb_spec (pos + 1 + 0) i), (Z.ltb_spec i (pos + 1 + (n - pos + 1))),
        (Z.ltb_spec pos i), (Z.leb_spec i (n + 1)); try lia; cbn [andb]; try done.
      do 2 f_equal. lia.
    - destruct (Z.ltb_spec pos i), (Z.leb_spec i (n + 1)); try lia; done. }
  split.
  - apply list_eq. intros i. rewrite elements_lookup.
    assert (Hlen : length (take (Z.to_nat (pos - 1)) (elements t n)) = Z.to_nat (pos - 1))
      by (rewrite length_take, length_elements; lia).
    destruct (decide (i < Z.to_nat (pos - 1))%nat) as [Hlt|Hge].
    + rewrite lookup_app_l by lia. rewrite lookup_take_lt, elements_lookup by lia.
      rewrite !decide_True by lia. rewrite Hi by (unfold in_s; lia).
      destruct (Z.eqb_spec (Z.of_nat i + 1) pos), (Z.ltb_spec pos (Z.of_nat i + 1)); try lia. done.
    + rewrite lookup_app_r, Hlen by lia. destruct (i - Z.to_nat (pos - 1))%nat as [|j] eqn:E.
      * cbn. rewrite decide_True by lia. rewrite Hi by (unfold in_s; lia).
        destruct (Z.eqb_spec (Z.of_nat i + 1) pos); [done|lia].
      * rewrite lookup_cons_ne_0, lookup_drop, elements_lookup by done. cbn [Nat.pred].
        destruct (decide (i < Z.to_nat (n + 1))%nat).
        -- rewrite decide_True by lia. rewrite Hi by (unfold in_s; lia).
           destruct (Z.eqb_spec (Z.of_nat i + 1) pos), (Z.ltb_spec pos (Z.of_nat i + 1)),
             (Z.leb_spec (Z.of_nat i + 1) (n + 1)); try lia. cbn [andb]. do 3 f_equal. lia.
        -- by rewrite decide_False by lia.
  - split; [done|]. intros k Hv Hout. rewrite Hm by done. unfold inserted.
    rewrite map_set_index by (unfold in_s; lia).
    destruct (index_of k) as [i|] eqn:Ek.
    + specialize (Hout i eq_refl). rewrite bool_decide_eq_false_2 by (intros [= ->]; lia).
      destruct (_ && _); [|done]. unfold moved. rewrite Ek.
      destruct (Z.leb_spec (pos + 1 + 0) i), (Z.ltb_spec i (pos + 1 + (n - pos + 1))); try lia; done.
    + rewrite bool_decide_eq_false_2 by done. destruct (_ && _); [|done]. unfold moved. by rewrite Ek.
Qed.

(** What [table.remove] does to the map. *)
Definition removed (m : fmap_t) (n pos : Z) : fmap_t :=
  map_set (moved m m (pos + 1) pos 0 (n - pos)) (akey n) LNil.

Lemma removed_elements t t' n pos :
  1 <= pos <= n -> n < 2 ^ 30 -> implements t' (removed (get t) n pos) ->
  elements t' (n - 1) = take (Z.to_nat (pos - 1)) (elements t n) ++ drop (Z.to_nat pos) (elements t n) /\
  get t' (akey n) = LNil /\ same_outside pos n t t'.
Proof.
  intros Hp Hn [Hwf Hm].
  assert (Hi : forall i, in_s 32 i -> get t' (akey i) =
    if i =? n then LNil else if (pos <=? i) && (i <? n) then get t (akey (i + 1)) else get t (akey i)).
  { intros i Hi. rewrite (get_index t' _ i Hm Hi). unfold removed.
    rewrite map_set_index, index_of_akey by (unfold in_s in *; (done || lia)).
    destruct (Z.eqb_spec i n) as [->|Hne]; [by rewrite bool_decide_eq_true_2|].
    rewrite bool_decide_eq_false_2 by congruence. unfold moved. rewrite index_of_akey by done.
    destruct (Z.leb_spec (pos + 0) i), (Z.ltb_spec i (pos + (n - pos))),
      (Z.leb_spec pos i), (Z.ltb_spec i n); try lia; cbn [andb]; try done.
    do 2 f_equal. lia. }
  split; [|split].
  - apply list_eq. intros i. rewrite elements_lookup.
    assert (Hlen : length (take (Z.to_nat (pos - 1)) (elements t n)) = Z.to_nat (pos - 1))
      by (rewrite length_take, length_elements; lia).
    destruct (decide (i < Z.to_nat (pos - 1))%nat) as [Hlt|Hge].
    + rewrite lookup_app_l by lia. rewrite lookup_take_lt, elements_lookup by lia.
      rewrite !decide_True by lia. rewrite Hi by (unfold in_s; lia).
      destruct (Z.eqb_spec (Z.of_nat i + 1) n), (Z.leb_spec pos (Z.of_nat i + 1)); try lia. done.
    + rewrite lookup_app_r, Hlen by lia. rewrite lookup_drop, elements_lookup.
      destruct (decide (i < Z.to_nat (n - 1))%nat).
      * rewrite decide_True by lia. rewrite Hi by (unfold in_s; lia).
        destruct (Z.eqb_spec (Z.of_nat i + 1) n), (Z.leb_spec pos (Z.of_nat i + 1)),
          (Z.ltb_spec (Z.of_nat i + 1) n); try lia. cbn [andb]. do 3 f_equal. lia.
      * by rewrite decide_False by lia.
  - rewrite Hi by (unfold in_s; lia). by rewrite Z.eqb_refl.
  - split; [done|]. intros k Hv Hout. rewrite Hm by done. unfold removed.
    rewrite map_set_index by (unfold in_s; lia). unfold moved.
    destruct (index_of k) as [i|] eqn:Ek; [|by rewrite bool_decide_eq_false_2].
    specialize (Hout i eq_refl). rewrite bool_decide_eq_false_2 by (intros [= ->]; lia).
    destruct (Z.leb_spec (pos + 0) i), (Z.ltb_spec i (pos + (n - pos))); try lia; done.
Qed.

Lemma same_content_implements t t1 : same_content t t1 -> implements t1 (get t).
Proof. by intros (Hwf & _ & Hg). Qed.

Lemma implements_ext t m m' :
  (forall k, valid_key k = true -> m k = m' k) -> implements t m -> implements t m'.
Proof. intros E [Hwf Hm]. split; [done|]. intros k Hv. by rewrite Hm, E. Qed.

Lemma moved_content t t1 f g lo hi k :
  same_content t t1 -> valid_key k = true ->
  (forall j, g + lo <= j < g + hi -> in_s 32 (f + (j - g))) ->
  moved (get t1) (get t1) f g lo hi k = moved (get t) (get t) f g lo hi k.
Proof.
  intros (_ & _ & Hg) Hv Hi. unfold moved. destruct (index_of k) as [j|]; [|by apply Hg].
  destruct (Z.leb_spec (g + lo) j), (Z.ltb_spec j (g + hi)); cbn [andb]; try (by apply Hg).
  apply Hg, akey_int, Hi. lia.
Qed.

(** A move inside a table that the cached length has just changed. *)
Lemma move_within fix_flag a f e g σ t t1 :
  let n := e - f + 1 in
  σ !! a = Some t1 -> same_content t t1 -> 0 <= n < 2 ^ 31 -> in_s 32 f -> in_s 32 e -> in_s 32 g ->
  in_s 32 (g + (n - 1)) ->
  match moveelements fix_flag 1 1 a a f e g false σ with
  | Ret σ' => exists t2, σ' !! a = Some t2 /\ readonly t = false /\ readonly t2 = false /\
      implements t2 (moved (get t) (get t) f g 0 n) /\ forall a', a' <> a -> σ' !! a' = σ !! a'
  | Throw err => write_error t err
  | Undefined _ => False
  end.
Proof.
  intros n Et Hc Hn Hf He Hg Hge. pose proof Hc as (Hwf1 & Hfl & _).
  assert (Hro : readonly t1 = readonly t) by (unfold flags in Hfl; congruence).
  pose proof (moveelements_spec fix_flag 1 1 a a f e g false σ t1 t1 Et Et Hwf1 Hwf1
    ltac:(done) Hn Hf He Hg Hge ltac:(done)) as Hm.
  destruct (moveelements _ _ _ _ _ _ _ _ _ _) as [σ'|err|w]; [| |done].
  - destruct Hm as [Hr [(t2 & Et2 & Hi2 & Hr2) Ho]]. exists t2. split; [done|].
    split; [congruence|]. split; [done|]. split; [|done].
    eapply implements_ext; [|exact Hi2]. intros k Hv. apply moved_content; [done|done|].
    unfold in_s in *. lia.
  - rewrite Hro in Hm. destruct Hm as [[? ->]|[? ->]]; [by left|by right].
Qed.

Lemma map_set_ext m m' k v k' : m k' = m' k' -> map_set m k v k' = map_set m' k v k'.
Proof. unfold map_set. by case_decide. Qed.

Lemma tinsert_spec fix_flag args σ a t t1 n pos :
  check_table args 1 = Ret a -> has_table σ a t -> luaH_getn t = Ret (t1, n) ->
  lua_gettop args = 2 /\ pos = n + 1 \/ lua_gettop args = 3 /\ luaL_checkinteger args 2 = Ret pos ->
  match tinsert fix_flag args σ with
  | Ret (r, σ') => r = [] /\ exists t', has_table σ' a t' /\
      implements t' (inserted (get t) n pos (default LNil (last args))) /\
      forall a', a' <> a -> σ' !! a' = σ !! a'
  | Throw err => write_error t err
  | Undefined _ => False
  end.
Proof.
  intros E1 Ht Hg Hpos. unfold tinsert. rewrite E1. cbn [outcome_bind].
  destruct (lua_objlen_spec σ a t Ht) as (t1' & n' & Hg' & -> & Hb & Hc).
  rewrite Hg in Hg'. injection Hg' as <- <-. cbn [outcome_bind].
  pose proof (border_bound t n (proj2 Ht) Hb) as Hn. rewrite MAXSIZE_eq in Hn.
  set (v := default LNil (last args)). set (σ1 := <[a := t1]> σ).
  assert (Et1 : σ1 !! a = Some t1) by apply lookup_insert_eq.
  assert (Ho1 : forall a', a' <> a -> σ1 !! a' = σ !! a') by (intros; by apply lookup_insert_ne).
  pose proof Hc as (Hwf1 & Hfl & Hc1).
  assert (Hro : readonly t1 = readonly t) by (unfold flags in Hfl; congruence).
  assert (Hint : in_s 32 pos).
  { destruct Hpos as [[_ ->]|[_ Hp]]; [unfold in_s; lia|by eapply checkinteger_range]. }
  (* the assignment, after whatever was moved *)
  assert (Hset : forall σ2 t2 m, σ2 !! a = Some t2 -> implements t2 m -> readonly t2 = readonly t ->
    (forall a', a' <> a -> σ2 !! a' = σ !! a') ->
    (forall k, valid_key k = true -> map_set m (akey pos) v k = inserted (get t) n pos v k) ->
    match (σ3 <- lua_rawseti σ2 a pos v ;; Ret ([] : list TValue, σ3)) with
    | Ret (r, σ') => r = [] /\ exists t', has_table σ' a t' /\
        implements t' (inserted (get t) n pos v) /\ forall a', a' <> a -> σ' !! a' = σ !! a'
    | Throw err => write_error t err
    | Undefined _ => False
    end).
  { intros σ2 t2 m Et2 Hi2 Hr2 Ho2 Hext. pose proof (lua_rawseti_spec σ2 a t2 m pos v Et2 Hi2 Hint) as Hs.
    destruct (lua_rawseti σ2 a pos v) as [σ3|err|w]; cbn [outcome_bind]; [| |done].
    - destruct Hs as (t3 & -> & Hi3). split; [done|]. exists t3. unfold has_table.
      rewrite lookup_insert_eq. split; [by destruct Hi3|]. split; [by eapply implements_ext|].
      intros a' Ha. rewrite lookup_insert_ne by done. by apply Ho2.
    - unfold write_error in *. by rewrite Hr2 in Hs. }
  destruct Hpos as [[-> ->]|[-> Hp]].
  { cbn [outcome_bind]. change (2 =? 2) with true. cbn [outcome_bind].
    apply (Hset σ1 t1 (get t) Et1 (same_content_implements _ _ Hc) Hro Ho1).
    intros k _. unfold inserted. destruct (Z.leb_spec (n + 1) n); [lia|]. by rewrite andb_false_r. }
  change (3 =? 2) with false. change (3 =? 3) with true. cbn beta iota. rewrite Hp. cbn [outcome_bind].
  destruct ((1 <=? pos) && (pos <=? n)) eqn:Ein; cbn [outcome_bind].
  - bool_simpl. pose proof (move_within fix_flag a pos n (pos + 1) σ1 t t1 Et1 Hc) as Hm. cbv zeta in Hm.
    specialize (Hm ltac:(lia) Hint ltac:(unfold in_s; lia) ltac:(unfold in_s; lia) ltac:(unfold in_s; lia)).
    destruct (moveelements _ _ _ _ _ _ _ _ _ _) as [σ2|err|w]; cbn [outcome_bind]; [|done|done].
    destruct Hm as (t2 & Et2 & Hr0 & Hr2 & Hi2 & Ho2).
    apply (Hset σ2 t2 _ Et2 Hi2); [congruence| |].
    + intros a' Ha. by rewrite Ho2, Ho1.
    + intros k _. unfold inserted. destruct (Z.leb_spec 1 pos), (Z.leb_spec pos n); try lia; done.
  - apply (Hset σ1 t1 (get t) Et1 (same_content_implements _ _ Hc) Hro Ho1).
    intros k _. unfold inserted. by rewrite Ein.
Qed.

Lemma tremove_spec fix_flag args σ a t t1 n pos :
  check_table args 1 = Ret a -> has_table σ a t -> luaH_getn t = Ret (t1, n) ->
  luaL_optinteger args 2 n = Ret pos ->
  match tremove fix_flag args σ with
  | Ret (r, σ') => exists t', has_table σ' a t' /\ (forall a', a' <> a -> σ' !! a' = σ !! a') /\
      if (1 <=? pos) && (pos <=? n)
      then r = [get t (akey pos)] /\ implements t' (removed (get t) n pos)
      else r = [] /\ same_content t t'
  | Throw err => write_error t err /\ 1 <= pos <= n
  | Undefined _ => False
  end.
Proof.
  intros E1 Ht Hg Hpos. unfold tremove. rewrite E1. cbn [outcome_bind].
  destruct (lua_objlen_spec σ a t Ht) as (t1' & n' & Hg' & -> & Hb & Hc).
  rewrite Hg in Hg'. injection Hg' as <- <-. cbn [outcome_bind]. rewrite Hpos. cbn [outcome_bind].
  pose proof (border_bound t n (proj2 Ht) Hb) as Hn. rewrite MAXSIZE_eq in Hn.
  set (σ1 := <[a := t1]> σ). pose proof Hc as (Hwf1 & Hfl & Hc1).
  assert (Et1 : σ1 !! a = Some t1) by apply lookup_insert_eq.
  assert (Ho1 : forall a', a' <> a -> σ1 !! a' = σ !! a') by (intros; by apply lookup_insert_ne).
  destruct ((1 <=? pos) && (pos <=? n)) eqn:Ein; cbn [negb].
  2:{ exists t1. split; [done|]. split; [done|]. by split. }
  bool_simpl. unfold lua_rawgeti, table_at at 1. rewrite Et1. cbn [outcome_bind].
  rewrite (rawgeti_spec t1 (get t) pos (same_content_implements _ _ Hc)) by (unfold in_s; lia).
  pose proof (move_within fix_flag a (pos + 1) n pos σ1 t t1 Et1 Hc) as Hm. cbv zeta in Hm.
  specialize (Hm ltac:(lia) ltac:(unfold in_s; lia) ltac:(unfold in_s; lia) ltac:(unfold in_s; lia)
    ltac:(unfold in_s; lia)).
  destruct (moveelements _ _ _ _ _ _ _ _ _ _) as [σ2|err|w]; cbn [outcome_bind]; [|split; [done|lia]|done].
  destruct Hm as (t2 & Et2 & Hr0 & Hr2 & Hi2 & Ho2).
  replace (n - (pos + 1) + 1) with (n - pos) in Hi2 by lia.
  pose proof (lua_rawseti_spec σ2 a t2 _ n LNil Et2 Hi2 ltac:(unfold in_s; lia)) as Hs.
  destruct (lua_rawseti σ2 a n LNil) as [σ3|err|w]; cbn [outcome_bind]; [| |done].
  - destruct Hs as (t3 & -> & Hi3). exists t3. unfold has_table. rewrite lookup_insert_eq.
    split; [by destruct Hi3|]. split; [|done].
    intros a' Ha. rewrite lookup_insert_ne by done. by rewrite Ho2, Ho1.
  - split; [|lia]. unfold write_error in *. by rewrite Hr0, Hr2 in *.
Qed.

(** ** pack and unpack *)

(** The elements from [i] to [e]. *)
Definition range_of (t : LuaTable) (i e : Z) : list TValue :=
  map (fun k => get t (akey (i + k))) (zseq (Z.to_nat (e - i + 1))).

Lemma array_get t i : wf_table t -> 1 <= i <= sizearray t -> array t !! Z.to_nat (i - 1) = Some (get t (akey i)).
Proof.
  intros Hwf Hi. pose proof (wt_asize _ Hwf). pose proof MAXSIZE_eq.
  assert (Hin : in_s 32 i) by (unfold in_s; lia). unfold get.
  rewrite luaH_get_akey by done. unfold luaH_getnum. rewrite in_array_fits by done.
  cbn [slot_get slot_value]. destruct (lookup_lt_is_Some_2 (array t) (Z.to_nat (i - 1))) as [v Hv];
    [unfold sizearray in Hi; lia|]. by rewrite Hv.
Qed.

Lemma take_array t n : wf_table t -> 0 <= n <= sizearray t -> take (Z.to_nat n) (array t) = range_of t 1 n.
Proof.
  intros Hwf Hn. unfold range_of. replace (n - 1 + 1) with n by lia. apply list_eq. intros i.
  unfold zseq. rewrite map_map. destruct (decide (i < Z.to_nat n)%nat) as [Hi|Hi].
  - rewrite lookup_take_lt, lookup_map_seq by done. rewrite <- array_get by (try done; lia).
    f_equal. lia.
  - rewrite !lookup_ge_None_2; [done|rewrite length_map, length_seq; lia|rewrite length_take; lia].
Qed.

Lemma range_of_snoc t i e :
  i <= e -> map (fun k => get t (akey (i + k))) (zseq (Z.to_nat (e - i))) ++ [get t (akey e)] = range_of t i e.
Proof.
  intros Hie. unfold range_of. replace (Z.to_nat (e - i + 1)) with (S (Z.to_nat (e - i))) by lia.
  rewrite zseq_S, map_app. cbn [map]. do 4 f_equal. lia.
Qed.

(** The last index: the third argument, or the length. *)
Definition last_arg (args : list TValue) (narg : Z) (t : LuaTable) (e : Z) : Prop :=
  if lua_isnoneornil args narg then exists t1, luaH_getn t = Ret (t1, e)
  else luaL_checkinteger args narg = Ret e.

(** Reading the last index leaves the content of the table. *)
Lemma read_last args narg σ a t e :
  has_table σ a t -> last_arg args narg t e ->
  exists t1, (if lua_isnoneornil args narg then lua_objlen σ a
              else e <- luaL_checkinteger args narg ;; Ret (e, σ)) = Ret (e, <[a := t1]> σ) /\
    same_content t t1 /\ in_s 32 e.
Proof.
  intros Ht. unfold last_arg. destruct (lua_isnoneornil args narg).
  - intros [t0 Hg]. destruct (lua_objlen_spec σ a t Ht) as (t1 & n & Hg' & -> & Hb & Hc).
    rewrite Hg in Hg'. injection Hg' as _ <-. exists t1. split; [done|]. split; [done|].
    pose proof (border_bound t e (proj2 Ht) Hb) as Hn. rewrite MAXSIZE_eq in Hn. unfold in_s. lia.
  - intros He. exists t. rewrite He. cbn [outcome_bind]. rewrite insert_id by apply Ht.
    split; [done|]. split; [by apply same_content_refl, Ht|]. by eapply checkinteger_range.
Qed.

Lemma range_of_content t t1 i e :
  same_content t t1 -> in_s 32 i -> in_s 32 e -> range_of t1 i e = range_of t i e.
Proof.
  intros (_ & _ & Hg) Hi He. unfold range_of. apply map_ext_in. intros k Hk.
  apply list_elem_of_In, elem_of_zseq in Hk. apply Hg, akey_int. unfold in_s in *. lia.
Qed.

Lemma tunpack_spec args σ a t i e :
  check_table args 1 = Ret a -> has_table σ a t ->
  luaL_optinteger args 2 1 = Ret i -> in_s 32 i -> last_arg args 3 t e ->
  match tunpack args σ with
  | Ret (r, σ') => r = range_of t i e /\
      exists t', σ' = <[a := t']> σ /\ same_content t t'
  | Throw err => err = RunError "too many results to unpack" /\
      LUAI_MAXCSTACK < lua_gettop args + (e - i + 1)
  | Undefined _ => False
  end.
Proof.
  intros E1 Ht Ei Hi He. unfold tunpack. rewrite E1. cbn [outcome_bind]. rewrite Ei. cbn [outcome_bind].
  destruct (read_last args 3 σ a t e Ht He) as (t1 & -> & Hc & Hein). cbn [outcome_bind].
  pose proof (proj1 Hc) as Hwf1. pose proof (same_content_implements _ _ Hc) as Him.
  destruct (Z.ltb_spec e i) as [Hlt|Hge].
  { split; [|by exists t1]. unfold range_of. by replace (Z.to_nat (e - i + 1)) with O by lia. }
  assert (Hsub : sub_u 32 (u32 e) (u32 i) = e - i).
  { unfold sub_u, cast_u. rewrite <- Zminus_mod. apply Z.mod_small. unfold in_s in *. lia. }
  rewrite Hsub. assert (Htop : 0 <= lua_gettop args) by (unfold lua_gettop; lia).
  unfold lua_checkstack. unfold LUAI_MAXCSTACK, INT_MAX in *.
  destruct (Z.leb_spec (2 ^ 31 - 1) (e - i)), (Z.ltb_spec 8000 (e - i + 1)),
    (Z.ltb_spec 8000 (lua_gettop args + (e - i + 1))); cbn [negb orb]; try lia; try (split; [done|lia]).
  unfold table_at. rewrite lookup_insert_eq. cbn [outcome_bind].
  destruct (Z.eqb_spec i 1) as [->|Hne]; [destruct (Z.leb_spec (e - 1 + 1) (sizearray t1))|]; cbn [andb].
  { split; [|by exists t1]. replace (e - 1 + 1) with e in * by lia. rewrite take_array by (try done; lia).
    by apply range_of_content. }
  all: split; [|by exists t1]; rewrite <- (range_of_content t t1), <- range_of_snoc by done.
  all: f_equal; [apply map_ext_in; intros k Hk; apply list_elem_of_In, elem_of_zseq in Hk|f_equal].
  all: pose proof (proj2 Hc) as [_ Hg].
  all: rewrite Hg by (apply akey_int; unfold in_s in *; lia).
  all: apply rawgeti_spec; [done|unfold in_s in *; lia].
Qed.

Lemma tpack_spec args :
  Z.of_nat (length args) <= MAXSIZE ->
  full_or (fun t => wf_table t /\ range_of t 1 (Z.of_nat (length args)) = args /\
      get t (LString (chars "n")) = LNumber (double_of_Z (Z.of_nat (length args)))) (tpack args).
Proof.
  intros Hlen. unfold tpack, lua_gettop. set (n := Z.of_nat (length args)) in *.
  destruct (luaH_new_spec n 1 Hlen ltac:(done)) as (t & -> & Hwf & _ & Hsz). cbn [outcome_bind].
  rewrite drop_ge, app_nil_r by (unfold sizearray in Hsz; lia).
  set (t1 := set_array args t). assert (Hwf1 : wf_table t1).
  { unfold t1. split; unfold sizearray in *; cbn [array set_array node lastfree lsizenode nodes_of].
    - done.
    - apply (wt_node _ Hwf).
    - pose proof (wt_boundary _ Hwf) as Hb. unfold sizearray in Hb. lia.
    - intros j i Hi. apply (wt_split _ Hwf). unfold sizearray. lia. }
  rewrite setstr_eq. fold (set t1 (LString (chars "n")) (LNumber (double_of_Z n))).
  pose proof (set_spec t1 (LString (chars "n")) (LNumber (double_of_Z n)) Hwf1) as Hs.
  destruct (set t1 _ _) as [t2|err|w]; cbn [full_or]; [| |done].
  2:{ destruct Hs as [[Hv _]|(_ & -> & _)]; [discriminate|done]. }
  destruct Hs as (_ & Hwf2 & Hg2). split; [done|]. split.
  - assert (Hr : range_of t2 1 n = range_of t1 1 n).
    { unfold range_of. apply map_ext_in. intros k Hk. apply list_elem_of_In, elem_of_zseq in Hk.
      pose proof MAXSIZE_eq. rewrite Hg2 by (apply akey_int; unfold in_s; lia).
      rewrite decide_False; [done|]. cbn. done. }
    rewrite Hr, <- take_array by (try done; unfold sizearray, t1; cbn; lia).
    unfold t1, n. cbn. by rewrite Nat2Z.id, firstn_all.
  - rewrite Hg2 by done. by rewrite decide_True.
Qed.
End Spec.

(** ** concat *)

Section Concat.
Context `{VecSize, Target, NumFormat}.
Variable objects : tables -> heap.

(** The text of an element. *)
Definition field_text (v : TValue) : option (list Z) :=
  match v with LString s => Some s | LNumber n => Some (luai_num2str n) | _ => None end.

Fixpoint join (sep : list Z) (l : list (list Z)) : list Z :=
  match l with
  | [] => []
  | [x] => x
  | x :: l => x ++ sep ++ join sep l
  end.

(** The first element that is no text raises an error that names it. *)
Definition concat_error (σ : tables) (t : LuaTable) (i e : Z) (err : lua_error) : Prop :=
  exists k, i <= k <= e /\ field_text (get t (akey k)) = None /\
    (forall j, i <= j < k -> field_text (get t (akey j)) <> None) /\
    err = RunError (concat_message objects σ (get t (akey k)) k).

Lemma addfield_spec σ a t i :
  has_table σ a t -> - 2 ^ 31 < i < 2 ^ 31 ->
  addfield objects σ a i t =
    match field_text (get t (akey i)) with
    | Some s => Ret s
    | None => Throw (RunError (concat_message objects σ (get t (akey i)) i))
    end.
Proof.
  intros [Et Hwf] Hi. unfold addfield, lua_rawgeti, table_at. rewrite Et. cbn [outcome_bind].
  assert (Hint : in_s 32 i) by (unfold in_s; lia).
  rewrite (rawgeti_spec t (get t) i) by (done || by split).
  assert (Hgen : match get t (akey i) with
    | LNumber n => Ret (luai_num2str n)
    | LString s => Ret s
    | _ => luaL_error (concat_message objects σ (get t (akey i)) i)
    end = match field_text (get t (akey i)) with
    | Some s => Ret s
    | None => Throw (RunError (concat_message objects σ (get t (akey i)) i))
    end) by by destruct (get t (akey i)).
  unfold sub_s. rewrite (proj2 (in_s_b_spec 32 (i - 1))) by (unfold in_s; lia). cbn [outcome_bind].
  assert (Hc : (u32 (i - 1) <? u32 (sizearray t)) = in_array i t).
  { unfold in_array, sub_u, cast_u. by rewrite Zminus_mod_idemp_l. }
  rewrite Hc, in_array_spec by (try done; by apply wt_asize).
  destruct (Z.leb_spec 1 i), (Z.leb_spec i (sizearray t)); cbn [andb]; try exact Hgen.
  rewrite array_get by done. destruct (get t (akey i)); exact Hgen.
Qed.

(** The loop, its last element apart. *)
Lemma concat_loop_spec n σ a t sep i b :
  has_table σ a t -> - 2 ^ 31 < i -> i + Z.of_nat n < 2 ^ 31 ->
  match concat_loop objects n σ a t sep i b with
  | Ret r => exists l, Forall2 (fun k s => field_text (get t (akey (i + k))) = Some s) (zseq n) l /\
      r = b ++ flat_map (fun s => s ++ sep) l
  | Throw err => concat_error σ t i (i + Z.of_nat n - 1) err
  | Undefined _ => False
  end.
Proof.
  intros Ht. revert i b. induction n as [|n IH]; intros i b Hi Hb.
  { exists []. split; [constructor|by rewrite app_nil_r]. }
  cbn [concat_loop]. rewrite addfield_spec by (done || lia).
  destruct (field_text (get t (akey i))) as [s|] eqn:Es; cbn [outcome_bind].
  2:{ exists i. split; [lia|]. split; [done|]. split; [lia|done]. }
  specialize (IH (i + 1) (b ++ s ++ sep) ltac:(lia) ltac:(lia)).
  destruct (concat_loop objects n σ a t sep (i + 1) (b ++ s ++ sep)) as [r|err|w]; [| |done].
  - destruct IH as (l & Hl & ->). exists (s :: l). split; [|cbn; by rewrite <- !app_assoc].
    change (zseq (S n)) with (Z.of_nat 0 :: map Z.of_nat (seq 1 n)). constructor.
    { by rewrite Z.add_0_r. }
    rewrite <- seq_shift, map_map. unfold zseq in Hl. rewrite Forall2_fmap_l in *.
    eapply Forall2_impl; [exact Hl|]. unfold compose. intros j s' <-. do 3 f_equal. lia.
  - destruct IH as (k & Hk & Hn & Hj & ->). exists k. split; [lia|]. split; [done|]. split; [|done].
    intros j Hjk. destruct (Z.eq_dec j i) as [->|]; [congruence|apply Hj; lia].
Qed.

Lemma join_snoc sep l s : join sep (l ++ [s]) = flat_map (fun x => x ++ sep) l ++ s.
Proof.
  induction l as [|x l IH]; [done|]. transitivity (x ++ sep ++ join sep (l ++ [s])).
  - cbn [app join]. destruct (l ++ [s]) eqn:E; [by destruct l|done].
  - rewrite IH. cbn [flat_map]. by rewrite <- !app_assoc.
Qed.

Lemma tconcat_spec args σ a t sep i e :
  luaL_optlstring args 2 [] = Ret sep -> check_table args 1 = Ret a -> has_table σ a t ->
  luaL_optinteger args 3 1 = Ret i -> - 2 ^ 31 < i < 2 ^ 31 -> last_arg args 4 t e ->
  match tconcat objects args σ with
  | Ret (r, σ') => exists l, Forall2 (fun v s => field_text v = Some s) (range_of t i e) l /\
      r = [LString (join sep l)] /\ exists t', σ' = <[a := t']> σ /\ same_content t t'
  | Throw err => exists σ', concat_error σ' t i e err
  | Undefined _ => False
  end.
Proof.
  intros Esep E1 Ht Ei Hi He. unfold tconcat. rewrite Esep, E1. cbn [outcome_bind]. rewrite Ei.
  cbn [outcome_bind]. destruct (read_last args 4 σ a t e Ht He) as (t1 & -> & Hc & Hein).
  cbn [outcome_bind]. set (σ1 := <[a := t1]> σ).
  assert (Ht1 : has_table σ1 a t1) by (split; [apply lookup_insert_eq|apply Hc]).
  unfold table_at. rewrite (proj1 Ht1). cbn [outcome_bind].
  assert (Hint : in_s 32 i) by (unfold in_s; lia).
  pose proof Hc as (_ & _ & Hg).
  assert (Hsame : forall k, in_s 32 k -> get t1 (akey k) = get t (akey k)) by (intros; by apply Hg, akey_int).
  assert (Herr : forall k err, k <= e -> concat_error σ1 t1 i k err -> concat_error σ1 t i e err).
  { intros k err Hke (j & Hj & Hn & Hb & ->). unfold in_s in *. exists j.
    rewrite <- Hsame by (unfold in_s; lia). split; [lia|]. split; [done|]. split; [|done].
    intros j' Hj'. rewrite <- Hsame by (unfold in_s; lia). by apply Hb. }
  assert (Hr1 : range_of t i e = range_of t1 i e) by (symmetry; by apply range_of_content).
  rewrite Hr1. unfold in_s in Hein.
  destruct (Z.leb_spec i e) as [Hle|Hgt].
  - pose proof (concat_loop_spec (Z.to_nat (e - i)) σ1 a t1 sep i [] Ht1 ltac:(lia) ltac:(lia)) as Hl.
    destruct (concat_loop _ _ _ _ _ _ _ _) as [b|err|w]; cbn [outcome_bind]; [| |done].
    2:{ exists σ1. eapply Herr; [|exact Hl]. lia. }
    destruct Hl as (l & Hl & ->). rewrite addfield_spec by (done || lia).
    destruct (field_text (get t1 (akey e))) as [s|] eqn:Es; cbn [outcome_bind].
    2:{ exists σ1. apply (Herr e); [lia|]. exists e. split; [lia|]. split; [done|]. split; [|done].
        intros j Hj. rewrite Forall2_lookup in Hl. specialize (Hl (Z.to_nat (j - i))).
        unfold zseq in Hl. rewrite lookup_map_seq in Hl by lia. inversion Hl as [x y Hxy E1' E2'|].
        replace (i + Z.of_nat (Z.to_nat (j - i))) with j in Hxy by lia. congruence. }
    exists (l ++ [s]). split; [|split; [by rewrite join_snoc|by exists t1]].
    rewrite <- range_of_snoc by done. apply Forall2_app; [|by repeat constructor].
    rewrite Forall2_fmap_l. exact Hl.
  - replace (Z.to_nat (e - i)) with O by lia. cbn [concat_loop outcome_bind].
    exists []. split; [|split; [done|by exists t1]]. unfold range_of.
    replace (Z.to_nat (e - i + 1)) with O by lia. constructor.
Qed.
End Concat.

(** ** find *)

Section Find.
Context `{VecSize, Target}.
Variable objects : tables -> heap.
Variable call : TValue -> list TValue -> tables -> outcome (TValue * tables).

(** The search ends at the first index that holds [nil] or the value; the sum
    [i + 1] does not overflow before it. *)
Lemma find_loop_spec (eqb : TValue -> bool) fuel a v i k σ t :
  (forall e, equalobj objects call σ v e = Ret (eqb e, σ)) ->
  has_table σ a t -> - 2 ^ 31 <= i <= k -> k < 2 ^ 31 -> (Z.to_nat (k - i) < fuel)%nat ->
  (forall j, i <= j < k -> get t (akey j) <> LNil /\ eqb (get t (akey j)) = false) ->
  get t (akey k) = LNil \/ eqb (get t (akey k)) = true ->
  find_loop objects call fuel a v i σ =
    Ret ([if ttisnil (get t (akey k)) then LNil else lua_pushinteger k], σ).
Proof.
  intros Heq Ht. revert i. induction fuel as [|f IH]; intros i Hi Hk Hf Hb Hend; [lia|].
  cbn [find_loop]. unfold lua_rawgeti, table_at. rewrite (proj1 Ht). cbn [outcome_bind].
  rewrite (rawgeti_spec t (get t) i) by (first [by split; [apply Ht|]|unfold in_s; lia]).
  destruct (Z.eq_dec i k) as [->|Hne].
  - destruct (ttisnil (get t (akey k))) eqn:En; [done|]. rewrite Heq. cbn [outcome_bind].
    destruct Hend as [E| ->]; [by rewrite E in En|done].
  - destruct (Hb i ltac:(lia)) as [Hn He]. rewrite (proj2 (ttisnil_false _) Hn), Heq. cbn [outcome_bind].
    rewrite He. unfold add_s. rewrite (proj2 (in_s_b_spec 32 (i + 1))) by (unfold in_s; lia).
    cbn [outcome_bind]. apply IH; [lia|lia|lia| |done]. intros j Hj. apply Hb. lia.
Qed.
End Find.
