(* ===== verification/TabLibProps.v ===== *)
(** The contracts of the table library, [TabLib.v], with their witnesses. *)
From stdpp Require Import gmap.
From S2P Require Import Prelude Word Double DoubleExact LuaApi Tm Arith Compare Key TableNode Table.
From S2P Require Import TableSpec TableResize TableRehash TableMap TableIter Sort SortLib TabLib TabMove.
From S2P Require Import TabLibSpec.
Open Scope Z_scope.
Open Scope outcome_scope.

Section Props.
Context `{VecSize, Target}.

(** C15. [table.move(src, f, e, t, dst)] copies the elements [f .. e], as they
    were before the call, to [t ..] and changes no other key and no other table,
    whether it copies inside the arrays, slot by slot, or (with the fix for
    sparse tables) through a temporary table, and also when both ranges overlap
    in one table.  Its errors are the two of its range checks, that of a
    read-only table and "table overflow".  Its one undefined behaviour is the
    overflow of an [int] in the resize of the destination, which only a range that
    starts inside its array, or right behind it, and ends within [2^27 + 2] of [2^31]
    can reach. *)
Theorem table_move_spec fix_flag args σ src dst f e t s d :
  check_table args 1 = Ret src -> luaL_checkinteger args 2 = Ret f ->
  luaL_checkinteger args 3 = Ret e -> luaL_checkinteger args 4 = Ret t ->
  check_table args (if negb (lua_isnoneornil args 5) then 5 else 1) = Ret dst ->
  has_table σ src s -> has_table σ dst d ->
  match tmove fix_flag args σ with
  | Ret (r, σ') => r = [LTable dst] /\ (e < f -> σ' = σ) /\
      (f <= e -> exists d', has_table σ' dst d' /\ move_result s d d' f e t /\
         forall a, a <> dst -> σ' !! a = σ !! a)
  | Throw err => f <= e /\
      (err = ArgError 3 "too many elements to move" /\ f <= 0 /\ INT_MAX <= e - f \/
       err = ArgError 4 "destination wrap around" /\ INT_MAX < t + (e - f) \/
       err = RunError "attempt to modify a readonly table" /\ readonly d = true \/
       err = RunError "table overflow" /\ readonly d = false)
  | Undefined w => w = "signed overflow in +"%string /\ readonly d = false /\
      1 <= t <= sizearray d + 1 /\ 2 ^ 31 - (2 * MAXSIZE + 2) <= t + (e - f) < 2 ^ 31
  end.
Proof. apply tmove_spec. Qed.

(** C21. For a position inside the list of the elements up to the length,
    [table.insert] inserts the value before that position, [table.remove]
    deletes the element there and returns it; no other key and no other table
    changes; the errors are that of a read-only table and "table overflow". *)
Theorem table_insert_remove fix_flag args σ a t t1 n pos :
  check_table args 1 = Ret a -> has_table σ a t -> luaH_getn t = Ret (t1, n) -> 1 <= pos <= n ->
  (lua_gettop args = 3 -> luaL_checkinteger args 2 = Ret pos ->
   match tinsert fix_flag args σ with
   | Ret (r, σ') => r = [] /\ exists t', has_table σ' a t' /\
       elements t' (n + 1) = take (Z.to_nat (pos - 1)) (elements t n) ++
         default LNil (last args) :: drop (Z.to_nat (pos - 1)) (elements t n) /\
       same_outside pos (n + 1) t t' /\ forall a', a' <> a -> σ' !! a' = σ !! a'
   | Throw err => write_error t err
   | Undefined _ => False
   end) /\
  (luaL_optinteger args 2 n = Ret pos ->
   match tremove fix_flag args σ with
   | Ret (r, σ') => r = [get t (akey pos)] /\ exists t', has_table σ' a t' /\
       elements t' (n - 1) = take (Z.to_nat (pos - 1)) (elements t n) ++ drop (Z.to_nat pos) (elements t n) /\
       get t' (akey n) = LNil /\ same_outside pos n t t' /\ forall a', a' <> a -> σ' !! a' = σ !! a'
   | Throw err => write_error t err
   | Undefined _ => False
   end).
Proof.
  intros E1 Ht Hg Hp. assert (Hn : n <= MAXSIZE).
  { destruct (lua_objlen_spec σ a t Ht) as (t2 & n' & Hg' & _ & Hb & _). rewrite Hg in Hg'.
    injection Hg' as _ <-. by apply (border_bound t n (proj2 Ht) Hb). }
  rewrite MAXSIZE_eq in Hn. split.
  - intros Htop Epos.
    pose proof (tinsert_spec fix_flag args σ a t t1 n pos E1 Ht Hg ltac:(by right)) as Hs.
    destruct (tinsert fix_flag args σ) as [[r σ']|err|w]; [|done|done].
    destruct Hs as (-> & t' & Ht' & Hi & Ho). split; [done|]. exists t'. split; [done|].
    destruct (inserted_elements t t' n pos _ ltac:(lia) ltac:(lia) Hi) as [He Hsame]. done.
  - intros Epos. pose proof (tremove_spec fix_flag args σ a t t1 n pos E1 Ht Hg Epos) as Hs.
    destruct (tremove fix_flag args σ) as [[r σ']|err|w]; [|by destruct Hs|done].
    destruct Hs as (t' & Ht' & Ho & Hr).
    destruct (Z.leb_spec 1 pos), (Z.leb_spec pos n); try lia. cbn [andb] in Hr.
    destruct Hr as [-> Hi]. split; [done|]. exists t'. split; [done|].
    destruct (removed_elements t t' n pos ltac:(lia) ltac:(lia) Hi) as (He & Hnil & Hsame). done.
Qed.

(** [table.pack] followed by [unpack] from 1 to the field [n] gives the
    arguments back, [nil]s included, up to the limit of the C stack. *)
Theorem table_pack_unpack args σ a :
  Z.of_nat (length args) + 3 <= LUAI_MAXCSTACK ->
  match tpack args with
  | Ret t => exists σ', tunpack [LTable a; LNumber (double_of_Z 1); get t (LString (chars "n"))]
                          (<[a := t]> σ) = Ret (args, σ')
  | Throw err => err = RunError "table overflow"
  | Undefined _ => False
  end.
Proof.
  intros Hlen. unfold LUAI_MAXCSTACK in Hlen. set (n := Z.of_nat (length args)) in *.
  pose proof (tpack_spec args ltac:(rewrite MAXSIZE_eq; lia)) as Hp. fold n in Hp.
  destruct (tpack args) as [t|err|w]; [|done|done]. destruct Hp as (Hwf & Hr & ->).
  set (uargs := [LTable a; LNumber (double_of_Z 1); LNumber (double_of_Z n)]).
  pose proof (tunpack_spec uargs (<[a := t]> σ) a t 1 n) as Hu.
  assert (Hlast : last_arg uargs 3 t n).
  { unfold last_arg. change (lua_isnoneornil uargs 3) with false. cbn iota.
    change (luaL_checkinteger uargs 3) with (Ret (luai_num2int (double_of_Z n))).
    rewrite luai_num2int_of_Z; [done|unfold in_s; lia]. }
  specialize (Hu eq_refl ltac:(split; [apply lookup_insert_eq|done]) eq_refl ltac:(done) Hlast).
  destruct (tunpack uargs (<[a := t]> σ)) as [[r σ']|err|w]; [| |done].
  - destruct Hu as [-> _]. exists σ'. by rewrite Hr.
  - destruct Hu as [_ Hover]. unfold LUAI_MAXCSTACK in Hover. change (lua_gettop uargs) with 3 in Hover. lia.
Qed.
End Props.

(** [table.concat] joins the texts of the elements from [i] to [e] - read
    by the fast path of the array or not - with the separator, and yields the
    empty string for an empty range; the first element that is neither a string
    nor a number raises an error with the name of its type and its index. *)
Theorem table_concat_spec `{VecSize, Target, NumFormat} objects args σ a t sep i e :
  luaL_optlstring args 2 [] = Ret sep -> check_table args 1 = Ret a -> has_table σ a t ->
  luaL_optinteger args 3 1 = Ret i -> - 2 ^ 31 < i < 2 ^ 31 -> last_arg args 4 t e ->
  match tconcat objects args σ with
  | Ret (r, σ') => exists l, Forall2 (fun v s => field_text v = Some s) (range_of t i e) l /\
      r = [LString (join sep l)] /\ exists t', σ' = <[a := t']> σ /\ same_content t t'
  | Throw err => exists σ', concat_error objects σ' t i e err
  | Undefined _ => False
  end.
Proof. apply tconcat_spec. Qed.

(** * Witnesses *)

#[local] Existing Instance sample_vec.
#[local] Instance sample_format : NumFormat := fun _ => chars "#".

(** The tables [{10, 20, 30, 40, 50}] and [{}], and one with a single far key. *)
Definition five : LuaTable := array_table (map number [10; 20; 30; 40; 50]).
Definition sample_store : tables := <[1 := five]> (<[2 := empty_table]> ∅).

Lemma five_wf : wf_table five.
Proof. by apply array_table_wf. Qed.

Lemma sample_has_1 : has_table sample_store 1 five.
Proof. split; [reflexivity|apply five_wf]. Qed.

Lemma sample_has_2 : has_table sample_store 2 empty_table.
Proof. split; [reflexivity|apply empty_table_wf]. Qed.

(** An overlapping move upwards inside one table. *)
Lemma table_move_spec_witness : exists σ' d',
  tmove false [LTable 1; number 1; number 4; number 2] sample_store = Ret ([LTable 1], σ') /\
  has_table σ' 1 d' /\ array d' = map number [10; 10; 20; 30; 40] /\ get d' (akey 5) = number 40.
Proof.
  pose proof (table_move_spec false [LTable 1; number 1; number 4; number 2] sample_store 1 1 1 4 2
    five five eq_refl eq_refl eq_refl eq_refl eq_refl sample_has_1 sample_has_1) as Hm.
  destruct (tmove false _ sample_store) as [[r σ']|err|w] eqn:E; [|vm_compute in E; discriminate|vm_compute in E; discriminate].
  destruct Hm as (-> & _ & Hm). destruct (Hm ltac:(lia)) as (d' & Hd' & [Hwf Hg] & _).
  exists σ', d'. split; [reflexivity|]. split; [exact Hd'|]. split.
  - assert (Hd : Some d' = σ' !! 1) by (symmetry; apply Hd').
    assert (Hs : tmove false [LTable 1; number 1; number 4; number 2] sample_store = Ret ([LTable 1], σ')) by exact E.
    vm_compute in Hs. injection Hs as <-. vm_compute in Hd. injection Hd as ->. vm_compute. reflexivity.
  - rewrite Hg by reflexivity. vm_compute. reflexivity.
Defined.

Lemma table_insert_remove_witness : exists σ' t',
  tinsert false [LTable 1; number 2; number 15] sample_store = Ret ([], σ') /\
  has_table σ' 1 t' /\ elements t' 6 = map number [10; 15; 20; 30; 40; 50] /\
  exists σ2 t2, tremove false [LTable 1; number 2] sample_store = Ret ([number 20], σ2) /\
  has_table σ2 1 t2 /\ elements t2 4 = map number [10; 30; 40; 50].
Proof.
  assert (Hg : luaH_getn five = Ret (five, 5)) by (vm_compute; reflexivity).
  destruct (table_insert_remove false [LTable 1; number 2; number 15] sample_store 1 five _ 5 2
    eq_refl sample_has_1 Hg ltac:(lia)) as [Hi _].
  destruct (table_insert_remove false [LTable 1; number 2] sample_store 1 five _ 5 2
    eq_refl sample_has_1 Hg ltac:(lia)) as [_ Hr].
  specialize (Hi eq_refl eq_refl). specialize (Hr eq_refl).
  destruct (tinsert false _ sample_store) as [[r σ']|err|w] eqn:E; [|vm_compute in E; discriminate|destruct Hi].
  destruct (tremove false _ sample_store) as [[r2 σ2]|err|w] eqn:E2; [|vm_compute in E2; discriminate|destruct Hr].
  destruct Hi as (-> & t' & Ht' & He & _). destruct Hr as (-> & t2 & Ht2 & He2 & _).
  exists σ', t'. split; [reflexivity|]. split; [exact Ht'|]. split.
  { change (5 + 1) with 6 in He. rewrite He. vm_compute. reflexivity. }
  exists σ2, t2. split; [f_equal; f_equal; vm_compute; reflexivity|]. split; [exact Ht2|].
  change (5 - 1) with 4 in He2. rewrite He2. vm_compute. reflexivity.
Defined.

Lemma table_pack_unpack_witness : exists t σ',
  tpack [LBoolean true; LNil; number 3; LNil] = Ret t /\
  tunpack [LTable 1; number 1; get t (LString (chars "n"))] (<[1 := t]> ∅) =
    Ret ([LBoolean true; LNil; number 3; LNil], σ').
Proof.
  pose proof (table_pack_unpack [LBoolean true; LNil; number 3; LNil] ∅ 1 ltac:(vm_compute; discriminate)) as Hp.
  destruct (tpack _) as [t|err|w] eqn:E; [|vm_compute in E; discriminate|destruct Hp].
  destruct Hp as [σ' Hp]. exists t, σ'. split; [reflexivity|exact Hp].
Defined.

Definition texts : LuaTable := array_table [LString (chars "a"); number 7; LString (chars "b")].

Definition results (o : outcome (list TValue * tables)) : list TValue :=
  match o with Ret (r, _) => r | _ => [] end.

Lemma table_concat_spec_witness : exists l σ',
  tconcat (fun _ => no_objects sample_sort_state) [LTable 1; LString (chars ", ")] (<[1 := texts]> ∅) =
    Ret ([LString (join (chars ", ") l)], σ') /\ join (chars ", ") l = chars "a, #, b".
Proof.
  set (o := tconcat _ _ _).
  assert (Hv : results o = [LString (chars "a, #, b")]) by (vm_compute; reflexivity).
  pose proof (table_concat_spec (fun _ => no_objects sample_sort_state)
    [LTable 1; LString (chars ", ")] (<[1 := texts]> ∅) 1 texts (chars ", ") 1 3 eq_refl eq_refl
    ltac:(split; [reflexivity|by apply array_table_wf]) eq_refl ltac:(lia)
    ltac:(eexists; vm_compute; reflexivity)) as Hc. fold o in Hc.
  destruct o as [[r σ']|err|w]; [|discriminate Hv|destruct Hc].
  destruct Hc as (l & _ & -> & _). exists l, σ'. split; [reflexivity|]. by injection Hv.
Defined.

(** * Overflows of [int] *)

(** [table.find(t, v, 2147483647)] increments the largest [int]. *)
Example find_overflows :
  (t <- set empty_table (akey INT_MAX) (LBoolean true) ;;
   tfind (fun _ => no_objects sample_sort_state) (fun _ _ _ => Undefined "no call") 9
     [LTable 1; LBoolean false; number INT_MAX] (<[1 := t]> ∅)) = Undefined "signed overflow in +".
Proof. vm_compute. reflexivity. Qed.

(** [table.concat] from index -2147483648 decrements the least one. *)
Example concat_overflows :
  tconcat (fun _ => no_objects sample_sort_state)
    [LTable 1; LString []; number (- 2 ^ 31); number (- 2 ^ 31)] (<[1 := five]> ∅)
  = Undefined "signed overflow in -".
Proof. vm_compute. reflexivity. Qed.

(** [table.move(a, 1, 2147483647, 1)]: [adjustasize] adds 1 to the size. *)
Example move_overflows :
  tmove false [LTable 2; number 1; number INT_MAX; number 1] sample_store
  = Undefined "signed overflow in +".
Proof. vm_compute. reflexivity. Qed.
