(* ===== verification/Pattern.v ===== *)
(** The pattern matcher of the string library, [VM/src/lstrlib.cpp]: a
    backtracking matcher over C strings.

    A string is its bytes; the code also reads the zero that ends it, which is
    the byte at the index [length].  A pointer into the source or the pattern is
    an index, NULL is [None], and an access behind the zero is [Undefined].  The
    [MatchState] is passed along; an error ends the match, so what it leaves in
    the state is not modelled.  The [goto init] of [match] is the loop
    [match_loop], which takes the length of the pattern as fuel; the recursion of
    [match] takes [LUAI_MAXCCALLS + 1] levels, which is what [matchdepth]
    allows.  The interrupt callback of the host is not called. *)
From Stdlib Require Import Ascii.
From stdpp Require Import gmap pretty.
From S2P Require Import Prelude Word LuaApi.
Open Scope Z_scope.
Open Scope outcome_scope.

(** * C strings and characters *)

Definition zlen (l : list Z) : Z := Z.of_nat (length l).

(** [b[i]] *)
Definition cget (b : list Z) (i : Z) : outcome Z :=
  if (0 <=? i) && (i <=? zlen b) then Ret (nth (Z.to_nat i) b 0)
  else Undefined "read outside of a string".

(** The bytes [b[i .. i + n - 1]], and a read of them. *)
Definition slice (b : list Z) (i n : Z) : list Z := take (Z.to_nat n) (drop (Z.to_nat i) b).

Definition bytes (b : list Z) (i n : Z) : outcome (list Z) :=
  if (0 <=? i) && (0 <=? n) && (i + n <=? zlen b) then Ret (slice b i n)
  else Undefined "read outside of a string".

(** The classes of ctype.h in the C locale. *)
Definition between (a b c : Z) : bool := (a <=? c) && (c <=? b).
Definition isdigit (c : Z) : bool := between 48 57 c.
Definition isupper (c : Z) : bool := between 65 90 c.
Definition islower (c : Z) : bool := between 97 122 c.
Definition isalpha (c : Z) : bool := isupper c || islower c.
Definition isalnum (c : Z) : bool := isalpha c || isdigit c.
Definition iscntrl (c : Z) : bool := between 0 31 c || (c =? 127).
Definition isgraph (c : Z) : bool := between 33 126 c.
Definition ispunct (c : Z) : bool := isgraph c && negb (isalnum c).
Definition isspace (c : Z) : bool := between 9 13 c || (c =? 32).
Definition isxdigit (c : Z) : bool := isdigit c || between 65 70 c || between 97 102 c.
Definition tolower (c : Z) : Z := if isupper c then c + 32 else c.
Definition toupper (c : Z) : Z := if islower c then c - 32 else c.

(** The code of a character literal. *)
Definition chr (a : Ascii.ascii) : Z := Z.of_N (Ascii.N_of_ascii a).
Notation "'ch' a" := (ltac:(let r := eval vm_compute in (chr a) in exact r))
  (at level 1, a constr at level 0, only parsing).

Definition L_ESC : Z := ch "%"%char.
Definition LUA_MAXCAPTURES : Z := 32.
Definition LUAI_MAXCCALLS : Z := 200.
Definition CAP_UNFINISHED : Z := -1.
Definition CAP_POSITION : Z := -2.

(** * The state of a match *)

(** The captures that were never set are uninitialised memory. *)
Record MatchState := {
  matchdepth : Z;
  level : Z;
  capture : gmap Z (Z * Z);
}.

Definition set_depth (d : Z) (ms : MatchState) : MatchState :=
  {| matchdepth := d; level := level ms; capture := capture ms |}.
Definition set_level (l : Z) (ms : MatchState) : MatchState :=
  {| matchdepth := matchdepth ms; level := l; capture := capture ms |}.
Definition set_capture (l : Z) (c : Z * Z) (ms : MatchState) : MatchState :=
  {| matchdepth := matchdepth ms; level := level ms; capture := <[l := c]> (capture ms) |}.

Definition get_capture (ms : MatchState) (l : Z) : outcome (Z * Z) :=
  match capture ms !! l with
  | Some c => Ret c
  | None => Undefined "read of uninitialised memory"
  end.

(** What a step of the matcher yields: where the match ends, and the state. *)
Abbreviation result := (outcome (option Z * MatchState)).

(** * Captures *)

Definition check_capture (ms : MatchState) (l : Z) : outcome Z :=
  let l := l - ch "1"%char in
  let fail := luaL_error ("invalid capture index %" +:+ pretty (l + 1)) in
  if (l <? 0) || (level ms <=? l) then fail
  else
    c <- get_capture ms l ;;
    if c.2 =? CAP_UNFINISHED then fail else Ret l.

(** The loop over the levels [n - 1, ..., 0]. *)
Fixpoint close_loop (ms : MatchState) (n : nat) : outcome Z :=
  match n with
  | O => luaL_error "invalid pattern capture"
  | S l =>
      c <- get_capture ms (Z.of_nat l) ;;
      if c.2 =? CAP_UNFINISHED then Ret (Z.of_nat l) else close_loop ms l
  end.

Definition capture_to_close (ms : MatchState) : outcome Z :=
  close_loop ms (Z.to_nat (level ms)).

(** * Single characters *)

Section Classes.
(** The pattern. *)
Variable pat : list Z.

Definition p_end : Z := zlen pat.

(** The loop of [classend] that looks for a [']']. *)
Fixpoint classend_loop (fuel : nat) (p : Z) : outcome Z :=
  match fuel with
  | O => Undefined "endless class"
  | S f =>
      if p =? p_end then luaL_error "malformed pattern (missing ']')"
      else
        c <- cget pat p ;;
        let p := p + 1 in
        let p := if (c =? L_ESC) && (p <? p_end) then p + 1 else p in
        c <- cget pat p ;;
        if c =? ch "]"%char then Ret (p + 1) else classend_loop f p
  end.

Definition classend (p : Z) : outcome Z :=
  c <- cget pat p ;;
  let p := p + 1 in
  if c =? L_ESC then
    if p =? p_end then luaL_error "malformed pattern (ends with '%')" else Ret (p + 1)
  else if c =? ch "["%char then
    c <- cget pat p ;;
    let p := if c =? ch "^"%char then p + 1 else p in
    classend_loop (S (length pat)) p
  else Ret p.
End Classes.

Definition match_class (c cl : Z) : bool :=
  let k := tolower cl in
  let some res := if islower cl then res else negb res in
  if k =? ch "a"%char then some (isalpha c)
  else if k =? ch "c"%char then some (iscntrl c)
  else if k =? ch "d"%char then some (isdigit c)
  else if k =? ch "g"%char then some (isgraph c)
  else if k =? ch "l"%char then some (islower c)
  else if k =? ch "p"%char then some (ispunct c)
  else if k =? ch "s"%char then some (isspace c)
  else if k =? ch "u"%char then some (isupper c)
  else if k =? ch "w"%char then some (isalnum c)
  else if k =? ch "x"%char then some (isxdigit c)
  else if k =? ch "z"%char then some (c =? 0)
  else cl =? c.

Section Single.
Variable pat : list Z.

(** The loop [while (++p < ec)]. *)
Fixpoint bracket_loop (fuel : nat) (c : Z) (sig : bool) (p ec : Z) : outcome bool :=
  match fuel with
  | O => Undefined "endless set"
  | S f =>
      let p := p + 1 in
      if negb (p <? ec) then Ret (negb sig)
      else
        x <- cget pat p ;;
        if x =? L_ESC then
          let p := p + 1 in
          y <- cget pat p ;;
          if match_class c y then Ret sig else bracket_loop f c sig p ec
        else
          y <- cget pat (p + 1) ;;
          if (y =? ch "-"%char) && (p + 2 <? ec) then
            let p := p + 2 in
            lo <- cget pat (p - 2) ;;
            hi <- cget pat p ;;
            if (lo <=? c) && (c <=? hi) then Ret sig else bracket_loop f c sig p ec
          else if x =? c then Ret sig else bracket_loop f c sig p ec
  end.

Definition matchbracketclass (c p ec : Z) : outcome bool :=
  x <- cget pat (p + 1) ;;
  if x =? ch "^"%char then bracket_loop (S (length pat)) c false (p + 1) ec
  else bracket_loop (S (length pat)) c true p ec.

(** The source. *)
Variable src : list Z.

Definition src_end : Z := zlen src.

Definition singlematch (s p ep : Z) : outcome bool :=
  if src_end <=? s then Ret false
  else
    c <- cget src s ;;
    x <- cget pat p ;;
    if x =? ch "."%char then Ret true
    else if x =? L_ESC then
      y <- cget pat (p + 1) ;; Ret (match_class c y)
    else if x =? ch "["%char then matchbracketclass c p (ep - 1)
    else Ret (x =? c).

Definition is_literal_word_hyphen (p ep : Z) : outcome bool :=
  x <- cget pat ep ;;
  if (x =? ch "-"%char) && (ep =? p + 1) && (ep + 1 <? p_end pat) then
    y <- cget pat p ;;
    if isalnum y then z <- cget pat (ep + 1) ;; Ret (isalnum z) else Ret false
  else Ret false.

(** The loop [while (++s < ms->src_end)]. *)
Fixpoint balance_loop (fuel : nat) (b e cont s : Z) : outcome (option Z) :=
  match fuel with
  | O => Undefined "endless balance"
  | S f =>
      let s := s + 1 in
      if negb (s <? src_end) then Ret None
      else
        x <- cget src s ;;
        if x =? e then
          let cont := cont - 1 in
          if cont =? 0 then Ret (Some (s + 1)) else balance_loop f b e cont s
        else if x =? b then balance_loop f b e (cont + 1) s
        else balance_loop f b e cont s
  end.

Definition matchbalance (s p : Z) : outcome (option Z) :=
  if p_end pat - 1 <=? p then luaL_error "malformed pattern (missing arguments to '%b')"
  else
    x <- cget src s ;;
    b <- cget pat p ;;
    if negb (x =? b) then Ret None
    else e <- cget pat (p + 1) ;; balance_loop (S (length src)) b e 1 s.

(** * match *)

Section Recursion.
(** The recursive call of [match]. *)
Variable rec : Z -> Z -> MatchState -> result.

(** How often a single item matches from [s + i]. *)
Fixpoint max_count (fuel : nat) (s p ep i : Z) : outcome Z :=
  match fuel with
  | O => Undefined "endless expansion"
  | S f =>
      b <- singlematch (s + i) p ep ;;
      if b : bool then max_count f s p ep (i + 1) else Ret i
  end.

(** The loop [while (i >= 0)]; [n] is [i + 1]. *)
Fixpoint max_try (n : nat) (s ep : Z) (ms : MatchState) : result :=
  match n with
  | O => Ret (None, ms)
  | S i =>
      r <- rec (s + Z.of_nat i) (ep + 1) ms ;;
      let '(res, ms) := r in
      match res with Some _ => Ret (res, ms) | None => max_try i s ep ms end
  end.

Definition max_expand (s p ep : Z) (ms : MatchState) : result :=
  i <- max_count (S (length src)) s p ep 0 ;;
  max_try (S (Z.to_nat i)) s ep ms.

Fixpoint min_loop (fuel : nat) (s p ep : Z) (ms : MatchState) : result :=
  match fuel with
  | O => Undefined "endless expansion"
  | S f =>
      r <- rec s (ep + 1) ms ;;
      let '(res, ms) := r in
      match res with
      | Some _ => Ret (res, ms)
      | None =>
          b <- singlematch s p ep ;;
          if b : bool then min_loop f (s + 1) p ep ms else Ret (None, ms)
      end
  end.

Definition min_expand (s p ep : Z) (ms : MatchState) : result :=
  min_loop (S (length src)) s p ep ms.

Definition start_capture (s p what : Z) (ms : MatchState) : result :=
  let l := level ms in
  if LUA_MAXCAPTURES <=? l then luaL_error "too many captures"
  else
    let ms := set_level (l + 1) (set_capture l (s, what) ms) in
    r <- rec s p ms ;;
    let '(res, ms) := r in
    match res with
    | Some _ => Ret (res, ms)
    | None => Ret (res, set_level (level ms - 1) ms)
    end.

Definition end_capture (s p : Z) (ms : MatchState) : result :=
  l <- capture_to_close ms ;;
  c <- get_capture ms l ;;
  let ms := set_capture l (c.1, s - c.1) ms in
  r <- rec s p ms ;;
  let '(res, ms) := r in
  match res with
  | Some _ => Ret (res, ms)
  | None => c <- get_capture ms l ;; Ret (res, set_capture l (c.1, CAP_UNFINISHED) ms)
  end.

Definition match_capture (s l : Z) (ms : MatchState) : outcome (option Z) :=
  l <- check_capture ms l ;;
  c <- get_capture ms l ;;
  let len := u64 c.2 in
  if len <=? src_end - s then
    x <- bytes src c.1 len ;;
    y <- bytes src s len ;;
    Ret (if bool_decide (x = y) then Some (s + len) else None)
  else Ret None.

(** The body of [match] behind the label [dflt]; [again s p] is [goto init]. *)
Definition match_default (again : Z -> Z -> MatchState -> result) (s p : Z) (ms : MatchState)
    : result :=
  ep <- classend pat p ;;
  b <- singlematch s p ep ;;
  x <- cget pat ep ;;
  if negb b then
    empty <- (if (x =? ch "*"%char) || (x =? ch "?"%char) then Ret true
              else if x =? ch "-"%char then
                w <- is_literal_word_hyphen p ep ;; Ret (negb w)
              else Ret false) ;;
    if empty : bool then again s (ep + 1) ms else Ret (None, ms)
  else if x =? ch "?"%char then
    r <- rec (s + 1) (ep + 1) ms ;;
    let '(res, ms) := r in
    match res with Some _ => Ret (res, ms) | None => again s (ep + 1) ms end
  else if x =? ch "+"%char then max_expand (s + 1) p ep ms
  else if x =? ch "*"%char then max_expand s p ep ms
  else if x =? ch "-"%char then
    w <- is_literal_word_hyphen p ep ;;
    if w : bool then again (s + 1) ep ms else min_expand s p ep ms
  else again (s + 1) ep ms.

(** The statements from [init] on. *)
Fixpoint match_loop (fuel : nat) (s p : Z) (ms : MatchState) : result :=
  match fuel with
  | O => Undefined "endless pattern"
  | S f =>
      let again := match_loop f in
      let dflt := match_default again s p ms in
      if p =? p_end pat then Ret (Some s, ms)
      else
        x <- cget pat p ;;
        if x =? ch "("%char then
          y <- cget pat (p + 1) ;;
          if y =? ch ")"%char then start_capture s (p + 2) CAP_POSITION ms
          else start_capture s (p + 1) CAP_UNFINISHED ms
        else if x =? ch ")"%char then end_capture s (p + 1) ms
        else if x =? ch "$"%char then
          if negb (p + 1 =? p_end pat) then dflt
          else Ret (if s =? src_end then Some s else None, ms)
        else if x =? L_ESC then
          y <- cget pat (p + 1) ;;
          if y =? ch "b"%char then
            r <- matchbalance s (p + 2) ;;
            match r with
            | Some s => again s (p + 4) ms
            | None => Ret (None, ms)
            end
          else if y =? ch "f"%char then
            let p := p + 2 in
            z <- cget pat p ;;
            require z =? ch "["%char else_ luaL_error "missing '[' after '%f' in pattern" in
            ep <- classend pat p ;;
            previous <- (if s =? 0 then Ret 0 else cget src (s - 1)) ;;
            b <- matchbracketclass previous p (ep - 1) ;;
            if negb b then
              c <- cget src s ;;
              b <- matchbracketclass c p (ep - 1) ;;
              if b : bool then again s ep ms else Ret (None, ms)
            else Ret (None, ms)
          else if isdigit y then
            r <- match_capture s y ms ;;
            match r with
            | Some s => again s (p + 2) ms
            | None => Ret (None, ms)
            end
          else dflt
        else dflt
  end.
End Recursion.

(** [match], with its count of nested calls. *)
Fixpoint do_match (fuel : nat) (s p : Z) (ms : MatchState) : result :=
  match fuel with
  | O => Undefined "recursion of match"
  | S f =>
      let depth := matchdepth ms in
      let ms := set_depth (depth - 1) ms in
      if depth =? 0 then luaL_error "pattern too complex"
      else
        r <- match_loop (do_match f) (S (length pat)) s p ms ;;
        let '(res, ms) := r in
        Ret (res, set_depth (matchdepth ms + 1) ms)
  end.

(** [prepstate] and [reprepstate] *)
Definition prepstate : MatchState :=
  {| matchdepth := LUAI_MAXCCALLS; level := 0; capture := ∅ |}.
Definition reprepstate (ms : MatchState) : MatchState := set_level 0 ms.

(** A match at [s] from the beginning of the pattern. *)
Definition match_at (s : Z) (ms : MatchState) : result :=
  do_match (S (Z.to_nat LUAI_MAXCCALLS)) s 0 ms.
End Single.
