(* ===== verification/PatternSpec.v ===== *)
(** What a pattern of the string library means, against the matcher of
    [Pattern.v].

    A pattern is parsed into items; an item list has, at a position of the
    source, the list of all its matches in the order in which a backtracking
    matcher prefers them ([matches]).  [match] finds the first of them. *)
From Stdlib Require Import Ascii.
From stdpp Require Import gmap.
From S2P Require Import Prelude Word LuaApi Pattern.
Open Scope Z_scope.
Open Scope outcome_scope.

(** * Patterns *)

Inductive set_item :=
  | SClass (cl : Z)
  | SRange (lo hi : Z)
  | SChar (c : Z).

Inductive class :=
  | CAny
  | CChar (c : Z)
  | CClass (cl : Z)
  | CSet (neg : bool) (l : list set_item).

Inductive quantifier := QOne | QOption | QStar | QPlus | QMinus.

Inductive item :=
  | ISingle (k : class) (q : quantifier)
  | IOpen
  | IPosition
  | IClose
  | IEnd
  | IBalance (x y : Z)
  | IFrontier (k : class)
  | IBack (l : Z).

Definition in_item (c : Z) (i : set_item) : bool :=
  match i with
  | SClass cl => match_class c cl
  | SRange lo hi => (lo <=? c) && (c <=? hi)
  | SChar x => x =? c
  end.

Definition in_class (c : Z) (k : class) : bool :=
  match k with
  | CAny => true
  | CChar x => x =? c
  | CClass cl => match_class c cl
  | CSet neg l => xorb neg (existsb (in_item c) l)
  end.

(** The text of a set up to its ']' and the text behind that. *)
Fixpoint set_scan (l : list Z) : option (list Z * list Z) :=
  match l with
  | c :: ((d :: l2) as l1) =>
      if c =? L_ESC then
        match l2 with
        | e :: l3 =>
            if e =? ch "]"%char then Some ([c; d], l3)
            else '(t, r) ← set_scan l2; Some (c :: d :: t, r)
        | [] => None
        end
      else if d =? ch "]"%char then Some ([c], l2)
      else '(t, r) ← set_scan l1; Some (c :: t, r)
  | _ => None
  end.

(** The items of a set.  A '%' that is the upper bound of a range and the last
    character also escapes the ']' behind it. *)
Fixpoint set_items (l : list Z) : list set_item :=
  match l with
  | [] => []
  | c :: l1 =>
      match l1 with
      | [] => [if c =? L_ESC then SClass (ch "]"%char) else SChar c]
      | d :: l2 =>
          if c =? L_ESC then SClass d :: set_items l2
          else
            match l2 with
            | e :: l3 =>
                if d =? ch "-"%char then SRange c e :: set_items l3
                else SChar c :: set_items l1
            | [] => SChar c :: set_items l1
            end
      end
  end.

Definition parse_set (l : list Z) : option (class * list Z) :=
  let '(neg, l) := match l with
                   | c :: l' => if c =? ch "^"%char then (true, l') else (false, l)
                   | [] => (false, l)
                   end in
  '(t, r) ← set_scan l; Some (CSet neg (set_items t), r).

(** The class at the head of a pattern, and what follows. *)
Definition parse_class (l : list Z) : option (class * list Z) :=
  match l with
  | [] => None
  | c :: r =>
      if c =? L_ESC then match r with d :: r => Some (CClass d, r) | [] => None end
      else if c =? ch "["%char then parse_set r
      else if c =? ch "."%char then Some (CAny, r)
      else Some (CChar c, r)
  end.

Definition quantifier_of (c : Z) : option quantifier :=
  if c =? ch "?"%char then Some QOption
  else if c =? ch "*"%char then Some QStar
  else if c =? ch "+"%char then Some QPlus
  else if c =? ch "-"%char then Some QMinus
  else None.

(** A hyphen between two alphanumeric characters stands for itself. *)
Definition word_hyphen (k : class) (r : list Z) : bool :=
  match k, r with
  | CChar x, h :: d :: _ => (h =? ch "-"%char) && isalnum x && isalnum d
  | _, _ => false
  end.

(** A class with its quantifier. *)
Definition parse_single (l : list Z) : option (item * list Z) :=
  '(k, r) ← parse_class l;
  match r with
  | c :: r' =>
      match quantifier_of c with
      | Some q => if word_hyphen k r then Some (ISingle k QOne, r) else Some (ISingle k q, r')
      | None => Some (ISingle k QOne, r)
      end
  | [] => Some (ISingle k QOne, r)
  end.

Definition parse_item (l : list Z) : option (item * list Z) :=
  match l with
  | [] => None
  | x :: r =>
      if x =? ch "("%char then
        match r with
        | y :: r' => if y =? ch ")"%char then Some (IPosition, r') else Some (IOpen, r)
        | [] => Some (IOpen, r)
        end
      else if x =? ch ")"%char then Some (IClose, r)
      else if (x =? ch "$"%char) && bool_decide (r = []) then Some (IEnd, r)
      else if x =? L_ESC then
        match r with
        | y :: r' =>
            if y =? ch "b"%char then
              match r' with a :: b :: r'' => Some (IBalance a b, r'') | _ => None end
            else if y =? ch "f"%char then
              match r' with
              | z :: r'' =>
                  if z =? ch "["%char then '(k, r) ← parse_set r''; Some (IFrontier k, r)
                  else None
              | [] => None
              end
            else if isdigit y then Some (IBack (y - ch "1"%char), r')
            else parse_single l
        | [] => None
        end
      else parse_single l
  end.

Fixpoint parse_items (n : nat) (l : list Z) : option (list item) :=
  match l, n with
  | [], _ => Some []
  | _, O => None
  | _, S n => '(i, r) ← parse_item l; its ← parse_items n r; Some (i :: its)
  end.

Definition parse (l : list Z) : option (list item) := parse_items (length l) l.

(** * Their meaning *)

(** A capture is its beginning and its length, or [CAP_UNFINISHED], or
    [CAP_POSITION]. *)
Abbreviation captures := (list (Z * Z)).

(** Close the innermost open capture. *)
Fixpoint close (s : Z) (caps : captures) : option captures :=
  match caps with
  | [] => None
  | c :: r =>
      match close s r with
      | Some r' => Some (c :: r')
      | None => if c.2 =? CAP_UNFINISHED then Some ((c.1, s - c.1) :: r) else None
      end
  end.

(** How many characters at the head of a text are in a class. *)
Fixpoint run (k : class) (l : list Z) : nat :=
  match l with
  | c :: l => if in_class c k then S (run k l) else O
  | [] => O
  end.

(** The numbers of repetitions to try, in order, when [n] are possible. *)
Definition counts (q : quantifier) (n : nat) : list Z :=
  match q with
  | QOne => if (0 <? n)%nat then [1] else []
  | QOption => if (0 <? n)%nat then [1; 0] else [0]
  | QStar => rev (zseq (S n))
  | QPlus => rev (map (fun i => i + 1) (zseq n))
  | QMinus => zseq (S n)
  end.

(** The length of the shortest balanced text behind [cont] opening characters. *)
Fixpoint balanced (x y cont : Z) (l : list Z) : option Z :=
  match l with
  | [] => None
  | c :: l =>
      if c =? y then
        if cont =? 1 then Some 1 else Z.succ <$> balanced x y (cont - 1) l
      else Z.succ <$> balanced x y (if c =? x then cont + 1 else cont) l
  end.

Section Matches.
Variable src : list Z.

Definition text (s : Z) : list Z := drop (Z.to_nat s) src.

(** The character at a position; there are zeros on both sides of the source. *)
Definition char_at (s : Z) : Z := if s <? 0 then 0 else nth (Z.to_nat s) src 0.

(** Where a single way to go on leads, if the item matches. *)
Definition step_item (i : item) (s : Z) (caps : captures) : list (Z * captures) :=
  match i with
  | ISingle k q => map (fun n => (s + n, caps)) (counts q (run k (text s)))
  | IOpen => [(s, caps ++ [(s, CAP_UNFINISHED)])]
  | IPosition => [(s, caps ++ [(s, CAP_POSITION)])]
  | IClose => match close s caps with Some caps => [(s, caps)] | None => [] end
  | IEnd => if s =? zlen src then [(s, caps)] else []
  | IBalance x y =>
      match text s with
      | c :: l =>
          if c =? x then
            match balanced x y 1 l with Some n => [(s + 1 + n, caps)] | None => [] end
          else []
      | [] => []
      end
  | IFrontier k =>
      if negb (in_class (char_at (s - 1)) k) && in_class (char_at s) k
      then [(s, caps)] else []
  | IBack l =>
      match caps !! Z.to_nat l with
      | Some (i, n) =>
          if (0 <=? n) && (s + n <=? zlen src) && bool_decide (slice src i n = slice src s n)
          then [(s + n, caps)] else []
      | None => []
      end
  end.

(** All matches of an item list from [s], in the order of preference. *)
Fixpoint matches (l : list item) (s : Z) (caps : captures) : list (Z * captures) :=
  match l with
  | [] => [(s, caps)]
  | i :: l => flat_map (fun '(s, caps) => matches l s caps) (step_item i s caps)
  end.
End Matches.

(** * Patterns without errors *)

Inductive status := Open | Position | Closed.

#[export] Instance status_eq_dec : EqDecision status.
Proof. solve_decision. Defined.

Definition status_of (c : Z * Z) : status :=
  if c.2 =? CAP_UNFINISHED then Open else if c.2 =? CAP_POSITION then Position else Closed.

Fixpoint close_status (l : list status) : option (list status) :=
  match l with
  | [] => None
  | x :: r =>
      match close_status r with
      | Some r' => Some (x :: r')
      | None => if bool_decide (x = Open) then Some (Closed :: r) else None
      end
  end.

(** The captures behind an item list that starts with the captures [l]; [None]
    when a capture is missing or too many. *)
Fixpoint wf_items (l : list status) (its : list item) : option (list status) :=
  match its with
  | [] => Some l
  | i :: its =>
      match i with
      | IOpen => if (length l <? 32)%nat then wf_items (l ++ [Open]) its else None
      | IPosition => if (length l <? 32)%nat then wf_items (l ++ [Position]) its else None
      | IClose => l ← close_status l; wf_items l its
      | IBack n =>
          if (0 <=? n) && match l !! Z.to_nat n with None | Some Open => false | _ => true end
          then wf_items l its else None
      | _ => wf_items l its
      end
  end.

(** How deep an item list makes [match] call itself. *)
Definition item_calls (i : item) : nat :=
  match i with
  | ISingle _ QOne | IEnd | IBalance _ _ | IFrontier _ | IBack _ => 0
  | _ => 1
  end.

Definition calls (l : list item) : nat := list_sum (map item_calls l).

(** * Pointers into a string *)

Arguments zlen : simpl never.

(** [l] is what is left of [b] from the index [p]. *)
Definition points (b : list Z) (p : Z) (l : list Z) : Prop :=
  0 <= p <= zlen b /\ drop (Z.to_nat p) b = l.

Lemma zlen_nonneg l : 0 <= zlen l.
Proof. unfold zlen. lia. Qed.

Lemma zlen_nil : zlen [] = 0.
Proof. done. Qed.

Lemma zlen_cons x l : zlen (x :: l) = zlen l + 1.
Proof. unfold zlen. cbn [length]. lia. Qed.

Lemma zlen_app l1 l2 : zlen (l1 ++ l2) = zlen l1 + zlen l2.
Proof. unfold zlen. rewrite length_app. lia. Qed.

Create Rewrite HintDb zlen.
#[export] Hint Rewrite zlen_nil zlen_cons zlen_app : zlen.

Lemma points_start b : points b 0 b.
Proof. split; [pose proof (zlen_nonneg b); lia|]. done. Qed.

Lemma points_drop b p : 0 <= p <= zlen b -> points b p (drop (Z.to_nat p) b).
Proof. done. Qed.

Lemma hd_drop (l : list Z) n : hd 0 (drop n l) = nth n l 0.
Proof. revert n. induction l as [|x l IH]; intros [|n]; cbn; done. Qed.

Section Points.
Context (b : list Z) (p : Z).

Lemma points_len l : points b p l -> p + zlen l = zlen b.
Proof. intros [Hp <-]. unfold zlen in *. rewrite length_drop. lia. Qed.

Lemma points_hd l : points b p l -> cget b p = Ret (hd 0 l).
Proof.
  intros [Hp <-]. unfold cget. rewrite (proj2 (Z.leb_le 0 p)), (proj2 (Z.leb_le p _)) by lia.
  cbn [andb]. f_equal. by rewrite hd_drop.
Qed.

Lemma points_app l1 l2 : points b p (l1 ++ l2) -> points b (p + zlen l1) l2.
Proof.
  intros Hp. pose proof (points_len _ Hp) as Hl. destruct Hp as [Hp Hd].
  rewrite zlen_app in Hl. pose proof (zlen_nonneg l1). pose proof (zlen_nonneg l2).
  split; [lia|]. rewrite Z2Nat.inj_add, <- drop_drop, Hd by lia. unfold zlen.
  by rewrite Nat2Z.id, drop_app_length.
Qed.

Lemma points_tl x l : points b p (x :: l) -> points b (p + 1) l.
Proof. apply (points_app [x]). Qed.

Lemma points_lt x l : points b p (x :: l) -> 0 <= p < zlen b.
Proof.
  intros Hp. pose proof (points_len _ Hp) as Hl. rewrite zlen_cons in Hl.
  pose proof (zlen_nonneg l). destruct Hp. lia.
Qed.

Lemma points_end : points b p [] -> p = zlen b.
Proof. intros Hp%points_len. rewrite zlen_nil in Hp. lia. Qed.
End Points.

Lemma points_inj b p p' l : points b p l -> points b p' l -> p = p'.
Proof. intros H1%points_len H2%points_len. lia. Qed.

Lemma zlen_eqb b p l : points b p l -> (p =? zlen b) = bool_decide (l = []).
Proof.
  intros Hp. destruct l as [|x l].
  - rewrite (points_end _ _ Hp), Z.eqb_refl. done.
  - pose proof (points_lt _ _ _ _ Hp). rewrite bool_decide_eq_false_2 by done. lia.
Qed.

(** Read the next character through a pointer, and step over it. *)
Ltac read :=
  match goal with
  | H : points ?b ?p ?l |- context [cget ?b ?p] =>
      rewrite (points_hd b p l H); cbn [hd outcome_bind]
  | H : points ?b ?p (?x :: ?l) |- context [cget ?b (?p + 1)] =>
      rewrite (points_hd b (p + 1) l (points_tl b p x l H)); cbn [hd outcome_bind]
  end.

Ltac step_over H :=
  match type of H with
  | points ?b ?p (?x :: ?l) =>
      pose proof (points_lt b p x l H); apply points_tl in H
  end.

(** * Sets *)

Lemma set_scan_cons c d l :
  set_scan (c :: d :: l) =
    if c =? L_ESC then
      match l with
      | e :: l3 =>
          if e =? ch "]"%char then Some ([c; d], l3)
          else '(t, r) ← set_scan l; Some (c :: d :: t, r)
      | [] => None
      end
    else if d =? ch "]"%char then Some ([c], l)
    else '(t, r) ← set_scan (d :: l); Some (c :: t, r).
Proof. done. Qed.

Lemma set_scan_app n l t r :
  (length l <= n)%nat -> set_scan l = Some (t, r) -> l = t ++ ch "]"%char :: r /\ t <> [].
Proof.
  revert l t r. induction n as [|n IH]; intros [|c [|d l]] t r Hn Hs; try done;
    cbn [length] in Hn; try lia. rewrite set_scan_cons in Hs.
  destruct (c =? L_ESC).
  - destruct l as [|e l]; [done|]. destruct (Z.eqb_spec e (ch "]"%char)) as [->|_].
    { injection Hs as <- <-. done. }
    destruct (set_scan (e :: l)) as [[t' r']|] eqn:E; [|done]. injection Hs as <- <-.
    apply IH in E as [-> _]; [done|cbn in *; lia].
  - destruct (Z.eqb_spec d (ch "]"%char)) as [->|_].
    { injection Hs as <- <-. done. }
    destruct (set_scan (d :: l)) as [[t' r']|] eqn:E; [|done]. injection Hs as <- <-.
    apply IH in E as [-> _]; [done|cbn in *; lia].
Qed.

Lemma set_items_cons x y l :
  set_items (x :: y :: l) =
    if x =? L_ESC then SClass y :: set_items l
    else match y =? ch "-"%char, l with
         | true, e :: l' => SRange x e :: set_items l'
         | _, _ => SChar x :: set_items (y :: l)
         end.
Proof. by destruct l; cbn [set_items]; repeat case_match. Qed.

Section Pattern.
Context (pat : list Z).

Lemma classend_loop_spec fuel p l t r :
  points pat p l -> set_scan l = Some (t, r) -> (length l <= fuel)%nat ->
  exists ep, classend_loop pat fuel p = Ret ep /\ points pat ep r.
Proof.
  revert p l t r. induction fuel as [|n IH]; intros p [|c [|d l]] t r Hp Hs Hn;
    try done; cbn [length] in Hn; try lia. rewrite set_scan_cons in Hs.
  cbn [classend_loop]. pose proof (points_lt _ _ _ _ Hp) as Hlt.
  unfold p_end. rewrite (proj2 (Z.eqb_neq p (zlen pat))) by lia. read. step_over Hp.
  rewrite (proj2 (Z.ltb_lt (p + 1) (zlen pat))), andb_true_r by (apply points_lt in Hp; lia).
  destruct (c =? L_ESC).
  - step_over Hp. read. destruct l as [|e l]; [done|]. cbn [hd].
    destruct (Z.eqb_spec e (ch "]"%char)) as [->|_].
    { injection Hs as <- <-. eexists. split; [done|]. by apply points_tl in Hp. }
    destruct (set_scan (e :: l)) as [[t' r']|] eqn:E; [|done]. injection Hs as <- <-.
    by apply (IH _ _ _ _ Hp E); cbn in *; lia.
  - read. destruct (Z.eqb_spec d (ch "]"%char)) as [->|_].
    { injection Hs as <- <-. eexists. split; [done|]. by apply points_tl in Hp. }
    destruct (set_scan (d :: l)) as [[t' r']|] eqn:E; [|done]. injection Hs as <- <-.
    by apply (IH _ _ _ _ Hp E); cbn in *; lia.
Qed.

Lemma bracket_loop_end fuel c sig p ec :
  ec <= p + 1 -> bracket_loop pat (S fuel) c sig p ec = Ret (negb sig).
Proof. intros. cbn [bracket_loop]. by rewrite (proj2 (Z.ltb_ge _ _)) by lia. Qed.

(** The loop over a set whose text is [t]. *)
Lemma bracket_loop_spec fuel c sig p t r ec :
  points pat (p + 1) (t ++ ch "]"%char :: r) -> ec = p + 1 + zlen t -> (length t < fuel)%nat ->
  bracket_loop pat fuel c sig p ec
  = Ret (if existsb (in_item c) (set_items t) then sig else negb sig).
Proof.
  revert p t. induction fuel as [|n IH]; intros p t Hp Hec Hn; [lia|].
  destruct t as [|x t]; [apply bracket_loop_end; rewrite zlen_nil in Hec; lia|].
  rewrite zlen_cons in Hec. pose proof (zlen_nonneg t). cbn [length app] in *.
  cbn [bracket_loop]. rewrite (proj2 (Z.ltb_lt (p + 1) _)) by lia. cbn [negb]. read.
  pose proof Hp as Hx. step_over Hp. destruct t as [|y t]; cbn [app] in Hp; [destruct n; [lia|]|].
  - rewrite zlen_nil in Hec. read. cbn [set_items existsb in_item length app Z.eqb Pos.eqb andb] in *.
    destruct (x =? L_ESC); cbn [existsb in_item]; rewrite ?orb_false_r;
      case_match; try done; by apply bracket_loop_end; lia.
  - rewrite zlen_cons in Hec. pose proof (zlen_nonneg t). read. rewrite set_items_cons.
    cbn [length] in Hn. destruct (x =? L_ESC).
    { cbn [existsb in_item]. destruct (match_class c y); [done|]. apply IH; [|lia|lia].
      by apply points_tl in Hp. }
    destruct (y =? ch "-"%char) eqn:Hy, t as [|e t].
    all: rewrite ?zlen_nil, ?zlen_cons in Hec; cbn [andb].
    2:{ rewrite (proj2 (Z.ltb_lt _ _)) by (pose proof (zlen_nonneg t); lia).
        replace (p + 1 + 2 - 2) with (p + 1) by lia. replace (p + 1 + 2) with (p + 1 + 1 + 1) by lia.
        cbn [app] in Hp. rewrite (points_hd _ _ _ Hx). step_over Hp. read. step_over Hp.
        cbn [hd existsb in_item length] in *. destruct ((x <=? c) && (c <=? e)); [done|].
        apply IH; [done|lia|lia]. }
    1: rewrite (proj2 (Z.ltb_ge _ _)) by lia.
    all: cbn [existsb in_item]; destruct (x =? c); [done|]; apply IH; rewrite ?zlen_cons, ?zlen_nil;
      [done|lia|cbn [length] in *; lia].
Qed.

(** A set, from its '[' on. *)
Lemma bracket_spec p l k r :
  points pat p (ch "["%char :: l) -> parse_set l = Some (k, r) ->
  exists ep, classend pat p = Ret ep /\ points pat ep r /\ p + 1 < ep /\
    forall c, matchbracketclass pat c p (ep - 1) = Ret (in_class c k).
Proof.
  intros Hp Hk. unfold parse_set in Hk.
  set (neg := match l with c :: _ => c =? ch "^"%char | [] => false end).
  set (l' := if neg then tl l else l).
  assert (exists t, set_scan l' = Some (t, r) /\ k = CSet neg (set_items t)) as (t & Hs & ->).
  { subst neg l'. destruct l as [|c l]; [done|]. destruct (c =? ch "^"%char); cbn [tl];
    (destruct (set_scan _) as [[t r']|]; [|done]); injection Hk as <- <-; eauto. }
  assert (hd 0 l =? ch "^"%char = neg) as Hneg by (by destruct l).
  pose proof Hp as Hb. step_over Hp.
  assert (points pat (if neg then p + 2 else p + 1) l') as Hp'.
  { subst neg l'. destruct l as [|c l]; [done|]. destruct (c =? ch "^"%char); [|done]. cbn [tl].
    replace (p + 2) with (p + 1 + 1) by lia. by apply points_tl in Hp. }
  pose proof (set_scan_app _ _ _ _ (le_n _) Hs) as [Hl' Ht].
  assert ((length l' <= length pat)%nat) as Hlen.
  { pose proof (points_len _ _ _ Hp') as Hl. unfold zlen in Hl. destruct Hp'. lia. }
  destruct (classend_loop_spec (S (length pat)) _ _ _ _ Hp' Hs) as (ep & Hep & Hr); [lia|].
  rewrite Hl' in Hp'. pose proof (points_app _ _ _ _ Hp') as He.
  apply points_tl in He. pose proof (points_inj _ _ _ _ He Hr) as Heq.
  pose proof (zlen_nonneg t). exists ep. split_and!; [|done|destruct neg; lia|].
  - unfold classend. rewrite (points_hd _ _ _ Hb). cbn [hd outcome_bind]. read.
    rewrite Hneg. cbn [Z.eqb Pos.eqb]. unfold L_ESC. cbn [Z.eqb Pos.eqb].
    rewrite <- Hep. f_equal. destruct neg; lia.
  - intros c. unfold matchbracketclass. read. rewrite Hneg.
    assert (length t < S (length pat))%nat.
    { rewrite Hl', length_app in Hlen. lia. }
    rewrite Hl' in *. cbn [in_class].
    destruct neg; erewrite (bracket_loop_spec _ _ _ _ _ r); try done; try lia;
      try (by destruct (existsb _ _)).
    replace (p + 1 + 1) with (p + 2) by lia. done.
Qed.

(** * The class at the head of a pattern *)

Context (src : list Z).

Definition matches_class (s : Z) (k : class) : bool :=
  match text src s with c :: _ => in_class c k | [] => false end.

(** [classend] finds where the class ends, and [singlematch] decides it. *)
Lemma class_spec p l k r :
  points pat p l -> parse_class l = Some (k, r) ->
  exists ep, classend pat p = Ret ep /\ points pat ep r /\ p < ep /\
    forall s, 0 <= s -> singlematch pat src s p ep = Ret (matches_class s k).
Proof.
  intros Hp Hk. destruct l as [|x l]; [done|]. cbn [parse_class] in Hk.
  assert (forall s ep (b : Z -> bool), 0 <= s ->
    (forall c, (if x =? ch "."%char then Ret true
                else if x =? L_ESC then y <- cget pat (p + 1) ;; Ret (match_class c y)
                else if x =? ch "["%char then matchbracketclass pat c p (ep - 1)
                else Ret (x =? c)) = Ret (b c)) ->
    singlematch pat src s p ep
    = Ret (match text src s with c :: _ => b c | [] => false end)) as Hsingle.
  { intros s ep b Hs Hb. unfold singlematch, src_end.
    destruct (Z.leb_spec (zlen src) s) as [Hle|Hlt].
    - unfold text. rewrite drop_ge; [done|]. unfold zlen in Hle. lia.
    - pose proof (points_drop src s ltac:(lia)) as Hd. read. fold (text src s) in *.
      destruct (text src s) as [|c t] eqn:Ht; [apply points_end in Hd; lia|]. cbn [hd].
      read. apply Hb. }
  destruct (x =? L_ESC) eqn:Hx.
  - destruct l as [|d l]; [done|]. injection Hk as <- <-. pose proof Hp as Hb. step_over Hp.
    exists (p + 1 + 1). split_and!; [|by apply points_tl in Hp|lia|].
    + unfold classend. rewrite (points_hd _ _ _ Hb). cbn [hd outcome_bind]. rewrite Hx.
      unfold p_end. apply points_lt in Hp. by rewrite (proj2 (Z.eqb_neq _ _)) by lia.
    + intros s Hs. apply (Hsingle s _ (fun c => match_class c d)); [done|]. intros c.
      apply Z.eqb_eq in Hx as ->. cbn [Z.eqb Pos.eqb]. by read.
  - destruct (x =? ch "["%char) eqn:Hset.
    + apply Z.eqb_eq in Hset as ->.
      destruct (bracket_spec p l k r Hp Hk) as (ep & He & Hr & Hlt & Hm).
      exists ep. split_and!; [done..|lia|]. intros s Hs. apply Hsingle; [done|]. intros c.
      cbn [Z.eqb Pos.eqb]. apply Hm.
    + assert (classend pat p = Ret (p + 1)) as He.
      { unfold classend. read. by rewrite Hx, Hset. }
      pose proof Hp as Hb. step_over Hp. exists (p + 1).
      destruct (x =? ch "."%char) eqn:Hany; injection Hk as <- <-; (split_and!; [done..|lia|]);
        intros s Hs; (apply Hsingle; [done|]); done.
Qed.

(** * Runs of characters *)

Lemma text_next s c l : 0 <= s -> text src s = c :: l -> text src (s + 1) = l /\ s < zlen src.
Proof.
  intros Hs Ht. assert (s < zlen src) as Hlt.
  { unfold text in Ht. apply (f_equal length) in Ht. rewrite length_drop in Ht.
    cbn [length] in Ht. unfold zlen. lia. }
  split; [|done]. assert (points src s (c :: l)) as Hp%points_tl by (split; [lia|done]). apply Hp.
Qed.

Lemma text_end s : zlen src <= s -> text src s = [].
Proof. intros. unfold text. apply drop_ge. unfold zlen in *. lia. Qed.

Lemma run_text s k :
  0 <= s -> run k (text src s) = if matches_class s k then S (run k (text src (s + 1))) else O.
Proof.
  intros Hs. unfold matches_class. destruct (text src s) as [|c l] eqn:Ht; [done|].
  destruct (text_next _ _ _ Hs Ht) as [-> _]. done.
Qed.

Lemma run_bound s k : 0 <= s <= zlen src -> s + Z.of_nat (run k (text src s)) <= zlen src.
Proof.
  intros Hs. assert (forall l, run k l <= length l)%nat as H.
  { induction l as [|c l IH]; cbn; [lia|]. destruct (in_class c k); lia. }
  specialize (H (text src s)). unfold text in *. rewrite length_drop in H. unfold zlen in *. lia.
Qed.

(** The hyphen of a word. *)
Lemma parse_class_shape l k r :
  parse_class l = Some (k, r) ->
  (exists x, l = x :: r /\ (k = CChar x \/ k = CAny /\ x = ch "."%char))
  \/ (exists m, l = m ++ r /\ (2 <= length m)%nat /\ forall x, k <> CChar x).
Proof.
  destruct l as [|x l]; [done|]. cbn [parse_class].
  destruct (x =? L_ESC).
  { destruct l as [|d l]; [done|]. intros [=<- <-]. right. by exists [x; d]. }
  destruct (x =? ch "["%char).
  - unfold parse_set. intros Hk. right.
    assert (exists m t, l = m ++ t /\ set_scan t ≫= (fun p => Some p.2) = Some r /\ forall x, k <> CChar x)
      as (m & t & -> & Hs & Hc).
    { destruct l as [|c l]; [done|]. destruct (c =? ch "^"%char).
      - exists [c], l. destruct (set_scan l) as [[??]|]; [|done]. by injection Hk as <- <-.
      - exists [], (c :: l). destruct (set_scan (c :: l)) as [[??]|]; [|done]. by injection Hk as <- <-. }
    destruct (set_scan t) as [[t' r']|] eqn:E; [|done]. injection Hs as ->.
    apply (set_scan_app _ _ _ _ (le_n _)) in E as [-> ?]. exists (x :: m ++ t' ++ [ch "]"%char]).
    split; [cbn [app]; by rewrite <- !app_assoc|]. split; [|done].
    cbn [length]. rewrite !length_app. cbn [length]. lia.
  - destruct (Z.eqb_spec x (ch "."%char)); intros [=<- <-]; left; exists x; auto.
Qed.

Lemma word_hyphen_spec p l k r ep :
  points pat p l -> parse_class l = Some (k, r) -> points pat ep r ->
  is_literal_word_hyphen pat p ep = Ret (word_hyphen k r).
Proof.
  intros Hp Hk Hr. unfold is_literal_word_hyphen, p_end. read.
  apply parse_class_shape in Hk as [(x & -> & Hk)|(m & -> & Hm & Hk)].
  - pose proof (points_tl _ _ _ _ Hp) as Hr'. pose proof (points_inj _ _ _ _ Hr Hr') as ->.
    rewrite Z.eqb_refl, andb_true_r. destruct r as [|h r]; cbn [hd].
    { cbn. destruct k; done. }
    pose proof (points_tl _ _ _ _ Hr) as Hd.
    destruct r as [|d r].
    { rewrite (proj2 (Z.ltb_ge _ _)), andb_false_r by (apply points_end in Hd; lia).
      by destruct k. }
    rewrite (proj2 (Z.ltb_lt (p + 1 + 1) _)) by (apply points_lt in Hd; lia).
    rewrite andb_true_r. destruct Hk as [->|[-> ->]]; cbn [word_hyphen].
    + destruct (h =? ch "-"%char); [|done]. rewrite (points_hd _ _ _ Hp). cbn [hd outcome_bind].
      destruct (isalnum x); [|done]. by rewrite (points_hd _ _ _ Hd).
    + destruct (h =? ch "-"%char); [|done]. by rewrite (points_hd _ _ _ Hp).
  - pose proof (points_app _ _ _ _ Hp) as Hr'. pose proof (points_inj _ _ _ _ Hr Hr') as ->.
    rewrite (proj2 (Z.eqb_neq (p + zlen m) (p + 1))) by (unfold zlen; lia). rewrite andb_false_r. cbn [andb].
    destruct k; try done. by destruct (Hk c).
Qed.
End Pattern.
