(* ===== verification/PatternMatch.v ===== *)
(** [match] finds the first match of a pattern: the matcher of [Pattern.v]
    against the meaning of [PatternSpec.v]. *)
From Stdlib Require Import Ascii.
From stdpp Require Import gmap.
From S2P Require Import Prelude Word LuaApi Pattern PatternSpec.
Open Scope Z_scope.
Open Scope outcome_scope.

(** * Captures *)

(** The state holds a list of captures. *)
Definition holds (ms : MatchState) (caps : captures) : Prop :=
  level ms = Z.of_nat (length caps)
  /\ forall i c, caps !! i = Some c -> capture ms !! Z.of_nat i = Some c.

(** A capture of the text before [s], or not closed, or a position. *)
Definition wf_capture (s : Z) (c : Z * Z) : Prop :=
  0 <= c.1 <= s /\ (c.2 = CAP_UNFINISHED \/ c.2 = CAP_POSITION \/ 0 <= c.2 /\ c.1 + c.2 <= s).

Lemma wf_capture_mono s s' c : wf_capture s c -> s <= s' -> wf_capture s' c.
Proof. unfold wf_capture. intuition lia. Qed.

Lemma wf_captures_mono s s' caps :
  Forall (wf_capture s) caps -> s <= s' -> Forall (wf_capture s') caps.
Proof. intros Hc Hs. eapply Forall_impl; [done|]. intros c Hw. by eapply wf_capture_mono. Qed.

Lemma status_open c : (c.2 =? CAP_UNFINISHED) = bool_decide (status_of c = Open).
Proof.
  unfold status_of. destruct (c.2 =? CAP_UNFINISHED); [done|]. by destruct (c.2 =? CAP_POSITION).
Qed.

Lemma close_status_of s caps :
  Forall (wf_capture s) caps ->
  close_status (map status_of caps) = map status_of <$> close s caps.
Proof.
  induction 1 as [|c caps Hc _ IH]; [done|]. cbn [map close_status close]. rewrite IH.
  destruct (close s caps) as [caps'|]; [done|]. cbn [fmap option_fmap option_map].
  rewrite status_open. case_bool_decide as Ho; [|done]. cbn. do 2 f_equal.
  unfold status_of. cbn. destruct Hc as [Hc _].
  rewrite (proj2 (Z.eqb_neq (s - c.1) CAP_UNFINISHED)) by (unfold CAP_UNFINISHED; lia).
  by rewrite (proj2 (Z.eqb_neq (s - c.1) CAP_POSITION)) by (unfold CAP_POSITION; lia).
Qed.

(** The innermost open capture, by its index. *)
Lemma close_split s caps caps' :
  close s caps = Some caps' ->
  exists pre c post, caps = pre ++ c :: post /\ caps' = pre ++ (c.1, s - c.1) :: post
    /\ c.2 = CAP_UNFINISHED /\ Forall (fun c => c.2 <> CAP_UNFINISHED) post.
Proof.
  revert caps'. induction caps as [|c caps IH]; intros caps' Hc; [done|]. cbn [close] in Hc.
  destruct (close s caps) as [r|] eqn:E.
  - injection Hc as <-. destruct (IH _ eq_refl) as (pre & x & post & -> & -> & ? & ?).
    by exists (c :: pre), x, post.
  - destruct (Z.eqb_spec c.2 CAP_UNFINISHED); [|done]. injection Hc as <-.
    exists [], c, caps. split_and!; try done. clear IH. induction caps as [|x caps IH]; [done|].
    cbn [close] in E. destruct (close s caps); [done|].
    destruct (Z.eqb_spec x.2 CAP_UNFINISHED); [done|]. constructor; auto.
Qed.

Lemma close_wf s caps caps' :
  close s caps = Some caps' -> Forall (wf_capture s) caps -> Forall (wf_capture s) caps'.
Proof.
  intros (pre & c & post & -> & -> & _ & _)%close_split Hw.
  apply Forall_app in Hw as [Hpre Hpost]. apply Forall_cons in Hpost as [Hc Hpost].
  apply Forall_app. split; [done|]. constructor; [|done].
  destruct Hc as [Hc _]. split; cbn; [done|]. lia.
Qed.

Section Holds.
Context (ms : MatchState) (caps : captures) (Hms : holds ms caps).

Lemma holds_get i c : caps !! i = Some c -> get_capture ms (Z.of_nat i) = Ret c.
Proof. intros Hi. unfold get_capture. by rewrite (proj2 Hms _ _ Hi). Qed.

Lemma holds_depth d : holds (set_depth d ms) caps.
Proof. exact Hms. Qed.

(** Push a capture, and drop it again. *)
Lemma holds_push c :
  holds (set_level (level ms + 1) (set_capture (level ms) c ms)) (caps ++ [c]).
Proof.
  destruct Hms as [Hl Hc]. split; cbn.
  - rewrite length_app. cbn. lia.
  - intros i x Hi. rewrite Hl. destruct (decide (i = length caps)) as [->|Hn].
    + rewrite lookup_app_r, Nat.sub_diag in Hi by lia. injection Hi as <-. by rewrite lookup_insert_eq.
    + assert (i < length caps)%nat as Hlt.
      { apply lookup_lt_Some in Hi. rewrite length_app in Hi. cbn in Hi. lia. }
      rewrite lookup_app_l in Hi by done. rewrite lookup_insert_ne by lia. auto.
Qed.

Lemma holds_set pre c post x :
  caps = pre ++ c :: post -> holds (set_capture (Z.of_nat (length pre)) x ms) (pre ++ x :: post).
Proof.
  intros ->. destruct Hms as [Hl Hc]. split; cbn.
  - rewrite Hl, !length_app. done.
  - intros i y Hi. destruct (decide (i = length pre)) as [->|Hn].
    + rewrite list_lookup_middle in Hi by done. injection Hi as <-. by rewrite lookup_insert_eq.
    + rewrite lookup_insert_ne by lia. apply Hc. rewrite <- Hi.
      destruct (decide (i < length pre)%nat); [by rewrite !lookup_app_l by lia|].
      rewrite !lookup_app_r by lia. by destruct (i - length pre)%nat eqn:E; [lia|].
Qed.

Lemma close_loop_spec pre c post :
  caps = pre ++ c :: post -> c.2 = CAP_UNFINISHED -> Forall (fun c => c.2 <> CAP_UNFINISHED) post ->
  capture_to_close ms = Ret (Z.of_nat (length pre)).
Proof.
  intros Hcaps Hc Hpost. unfold capture_to_close. rewrite (proj1 Hms), Nat2Z.id.
  assert (forall n, (length pre < n <= length caps)%nat ->
    close_loop ms n = Ret (Z.of_nat (length pre))) as H.
  { induction n as [|n IH]; intros Hn; [lia|]. cbn [close_loop].
    destruct (lookup_lt_is_Some_2 caps n ltac:(lia)) as [x Hx]. rewrite (holds_get _ _ Hx).
    cbn [outcome_bind]. rewrite Hcaps in Hx. destruct (decide (n = length pre)) as [->|Hne].
    - rewrite list_lookup_middle in Hx by done. injection Hx as <-. by rewrite Hc.
    - rewrite lookup_app_r in Hx by lia. destruct (n - length pre)%nat as [|j] eqn:E; [lia|].
      cbn in Hx. rewrite Forall_lookup in Hpost. apply Hpost in Hx.
      rewrite (proj2 (Z.eqb_neq _ _) Hx). apply IH. lia. }
  apply H. rewrite Hcaps, length_app. cbn. lia.
Qed.
End Holds.

Lemma holds_pop ms caps c : holds ms (caps ++ [c]) -> holds (set_level (level ms - 1) ms) caps.
Proof.
  intros [Hl Hc]. rewrite length_app in Hl. cbn in Hl. split; cbn; [lia|].
  intros i x Hi. apply Hc. rewrite lookup_app_l; [done|]. by eapply lookup_lt_Some.
Qed.

(** * Where the matches of an item end *)

Lemma balanced_bound x y cont l n :
  balanced x y cont l = Some n -> 1 <= n <= zlen l.
Proof.
  revert cont n. induction l as [|c l IH]; intros cont n Hb; [done|]. cbn [balanced] in Hb.
  rewrite zlen_cons. pose proof (zlen_nonneg l).
  destruct (c =? y); [destruct (cont =? 1); [injection Hb as <-; lia|]|];
    apply fmap_Some in Hb as (m & Hm & ->); apply IH in Hm; lia.
Qed.

Lemma counts_bound q n i : i ∈ counts q n -> 0 <= i <= Z.of_nat n.
Proof.
  destruct q; cbn [counts].
  - destruct (Nat.ltb_spec 0 n); [|by intros ?%elem_of_nil]. intros ->%list_elem_of_singleton. lia.
  - destruct (Nat.ltb_spec 0 n).
    + intros [->|[->|[]%elem_of_nil]%elem_of_cons]%elem_of_cons; lia.
    + intros ->%list_elem_of_singleton. lia.
  - intros Hi. apply list_elem_of_In, in_rev, list_elem_of_In, elem_of_zseq in Hi. lia.
  - intros Hi. apply list_elem_of_In, in_rev, list_elem_of_In in Hi.
    apply list_elem_of_fmap in Hi as (j & -> & Hj%elem_of_zseq). lia.
  - intros Hi%elem_of_zseq. lia.
Qed.

Section Match.
Context (pat src : list Z).

Lemma step_item_wf i s caps e caps' st :
  (e, caps') ∈ step_item src i s caps -> 0 <= s <= zlen src -> Forall (wf_capture s) caps ->
  wf_items (map status_of caps) [i] = Some st ->
  s <= e <= zlen src /\ Forall (wf_capture e) caps' /\ map status_of caps' = st.
Proof.
  intros He Hs Hw Hst.
  assert (forall e', (e, caps') = (e', caps) -> s <= e' <= zlen src ->
    map status_of caps = st -> s <= e <= zlen src /\ Forall (wf_capture e) caps'
    /\ map status_of caps' = st) as Hsame.
  { intros e' [= <- <-] ? ?. split; [done|]. split; [|done]. apply (wf_captures_mono s); [done|lia]. }
  assert (forall n, n = CAP_UNFINISHED \/ n = CAP_POSITION ->
    Forall (wf_capture s) (caps ++ [(s, n)])) as Hnew.
  { intros n Hn. apply Forall_app. split; [done|]. constructor; [|done]. unfold wf_capture. cbn.
    intuition lia. }
  destruct i; cbn [wf_items step_item] in *.
  - injection Hst as <-. apply list_elem_of_fmap in He as (n & He & Hn%counts_bound).
    apply (Hsame _ He); [|done]. pose proof (run_bound src s k Hs). lia.
  - case_match; [|done]. injection Hst as <-. apply list_elem_of_singleton in He as [= -> ->].
    split_and!; [lia..|auto|]. by rewrite map_app.
  - case_match; [|done]. injection Hst as <-. apply list_elem_of_singleton in He as [= -> ->].
    split_and!; [lia..|auto|]. by rewrite map_app.
  - rewrite (close_status_of s caps Hw) in Hst. destruct (close s caps) eqn:Hc; [|done].
    injection Hst as <-. apply list_elem_of_singleton in He as [= -> ->].
    split_and!; [lia..|by eapply close_wf|done].
  - injection Hst as <-. destruct (s =? zlen src); [|by apply elem_of_nil in He].
    apply list_elem_of_singleton in He. by apply (Hsame _ He); [lia|].
  - injection Hst as <-. destruct (text src s) as [|c l] eqn:Ht; [by apply elem_of_nil in He|].
    destruct (text_next src s c l ltac:(lia) Ht) as [Ht' Hlt].
    destruct (c =? x); [|by apply elem_of_nil in He].
    destruct (balanced x y 1 l) as [n|] eqn:Hb; [|by apply elem_of_nil in He].
    apply list_elem_of_singleton in He. apply (Hsame _ He); [|done].
    apply balanced_bound in Hb. rewrite <- Ht' in Hb.
    pose proof (points_len src (s + 1) _ (points_drop src (s + 1) ltac:(lia))) as Hlen.
    unfold text in Hb. lia.
  - injection Hst as <-. case_match; [|by apply elem_of_nil in He].
    apply list_elem_of_singleton in He. by apply (Hsame _ He); [lia|].
  - case_match eqn:Hl; [|done]. injection Hst as <-.
    destruct (caps !! Z.to_nat l) as [[i n]|]; [|by apply elem_of_nil in He].
    destruct (_ && bool_decide _) eqn:Hb in He; [|by apply elem_of_nil in He]. bool_simpl.
    apply list_elem_of_singleton in He. by apply (Hsame _ He); [lia|].
Qed.

(** * The result of a call of [match] *)

(** The first of the matches [l], or NULL when there is none; the state keeps
    its depth, and its captures when there is none. *)
Definition agrees (r : outcome (option Z * MatchState)) (l : list (Z * captures))
    (ms : MatchState) (caps : captures) : Prop :=
  exists ms', r = Ret (fst <$> head l, ms') /\ matchdepth ms' = matchdepth ms
    /\ holds ms' (match head l with Some (_, caps') => caps' | None => caps end).

Lemma agrees_here s ms caps : holds ms caps -> agrees (Ret (Some s, ms)) [(s, caps)] ms caps.
Proof. intros. by exists ms. Qed.

Lemma agrees_fail ms caps : holds ms caps -> agrees (Ret (None, ms)) [] ms caps.
Proof. intros. by exists ms. Qed.

(** Try one way, then another. *)
Lemma agrees_orelse r k l1 l2 ms caps :
  agrees r l1 ms caps ->
  (forall ms', matchdepth ms' = matchdepth ms -> holds ms' caps -> agrees (k ms') l2 ms' caps) ->
  agrees (r <- r ;;
          let '(res, ms) := r in
          match res with Some _ => Ret (res, ms) | None => k ms end) (l1 ++ l2) ms caps.
Proof.
  intros (ms' & -> & Hd & Hh) Hk. cbn [outcome_bind]. destruct l1 as [|[e c] l1]; cbn in *.
  - destruct (Hk ms' Hd Hh) as (ms'' & -> & Hd' & Hh'). exists ms''. split_and!; [done|lia|done].
  - by exists ms'.
Qed.

(** A match from another state with the same depth, whose captures on failure
    are undone. *)
Lemma agrees_undo r l ms ms1 caps caps1 f :
  agrees r l ms1 caps1 -> matchdepth ms1 = matchdepth ms ->
  (forall ms', holds ms' caps1 -> exists ms'', f None ms' = Ret (None, ms'')
     /\ matchdepth ms'' = matchdepth ms' /\ holds ms'' caps) ->
  agrees (r <- r ;;
          let '(res, ms) := r in
          match res with Some _ => Ret (res, ms) | None => f res ms end) l ms caps.
Proof.
  intros (ms' & -> & Hd & Hh) Hd1 Hf. cbn [outcome_bind]. destruct l as [|[e c] l]; cbn in *.
  - destruct (Hf ms' Hh) as (ms'' & -> & Hd' & Hh'). exists ms''. split_and!; [done|lia|done].
  - exists ms'. split_and!; [done|lia|done].
Qed.

(** * The induction over the pattern *)

(** [match] can be called at [p], where the items [its] begin. *)
Record ready (its : list item) (s p : Z) (caps : captures) (ms : MatchState) : Prop := {
  ready_parse : exists n l, points pat p l /\ parse_items n l = Some its;
  ready_wf : is_Some (wf_items (map status_of caps) its);
  ready_caps : Forall (wf_capture s) caps;
  ready_source : 0 <= s <= zlen src;
  ready_holds : holds ms caps;
}.

(** Calls of [rec] at the depth [d] find the first match. *)
Definition finds (rec : Z -> Z -> MatchState -> outcome (option Z * MatchState)) (d : nat) : Prop :=
  forall its s p caps ms, ready its s p caps ms -> (calls its < d)%nat ->
    matchdepth ms = Z.of_nat d -> agrees (rec s p ms) (matches src its s caps) ms caps.

(** The same for [goto init], which goes forward in the pattern. *)
Definition continues (again : Z -> Z -> MatchState -> outcome (option Z * MatchState))
    (d : nat) (p0 : Z) : Prop :=
  forall its s p caps ms, p0 < p -> ready its s p caps ms -> (calls its <= d)%nat ->
    matchdepth ms = Z.of_nat d -> agrees (again s p ms) (matches src its s caps) ms caps.

(** An item was matched: the rest of the items is ready. *)
Lemma ready_next i its n l p e caps' s caps ms' st :
  parse_items n l = Some its -> points pat p l ->
  wf_items (map status_of caps) [i] = Some st -> is_Some (wf_items st its) ->
  (e, caps') ∈ step_item src i s caps -> 0 <= s <= zlen src -> Forall (wf_capture s) caps ->
  holds ms' caps' -> ready its e p caps' ms'.
Proof.
  intros Hl Hp Hi Hst He Hs Hw Hh. destruct (step_item_wf _ _ _ _ _ _ He Hs Hw Hi) as (? & ? & <-).
  split; eauto. lia.
Qed.

Lemma wf_items_cons st i its :
  wf_items st (i :: its) = st' ← wf_items st [i]; wf_items st' its.
Proof. destruct i; cbn [wf_items]; repeat case_match; try done. by destruct (close_status st). Qed.

(** * A class with its quantifier *)

Lemma zseq_cons n : zseq (S n) = 0 :: map (fun i => i + 1) (zseq n).
Proof.
  unfold zseq. cbn [seq map]. f_equal. rewrite <- seq_shift, !map_map. apply map_ext. lia.
Qed.

Lemma rev_zseq_S n : rev (zseq (S n)) = Z.of_nat n :: rev (zseq n).
Proof. by rewrite zseq_S, rev_app_distr. Qed.

Lemma flat_map_shift {A} (f : Z -> list A) (l : list Z) :
  flat_map f (map (fun i => i + 1) l) = flat_map (fun i => f (i + 1)) l.
Proof. induction l as [|x l IH]; cbn; [done|]. by rewrite IH. Qed.

Lemma matches_single k q its s caps :
  matches src (ISingle k q :: its) s caps
  = flat_map (fun n => matches src its (s + n) caps) (counts q (run k (text src s))).
Proof.
  cbn [matches step_item]. induction (counts q _) as [|n l IH]; cbn; [done|]. by rewrite IH.
Qed.

Section Single.
Context (rec : Z -> Z -> MatchState -> outcome (option Z * MatchState)) (d : nat).
Context (Hrec : finds rec d).
Context (k : class) (p ep : Z) (its : list item) (caps : captures).
Context (Hsingle : forall s, 0 <= s -> singlematch pat src s p ep = Ret (matches_class src s k)).

(** The rest of the pattern is ready behind one more character. *)
Let rest_ready (q s : Z) : Prop := forall j ms, 0 <= j <= Z.of_nat (run k (text src s)) ->
  holds ms caps -> ready its (s + j) q caps ms.

Lemma max_count_spec fuel s i :
  0 <= s -> 0 <= i -> (run k (text src (s + i)) < fuel)%nat ->
  max_count pat src fuel s p ep i = Ret (i + Z.of_nat (run k (text src (s + i)))).
Proof.
  revert i. induction fuel as [|n IH]; intros i Hs Hi Hf; [lia|]. cbn [max_count].
  rewrite Hsingle by lia. cbn [outcome_bind]. rewrite (run_text src (s + i) k) in * by lia.
  destruct (matches_class src (s + i) k); [|f_equal; lia].
  replace (s + i + 1) with (s + (i + 1)) in * by lia. rewrite IH by lia. f_equal. lia.
Qed.

Lemma max_try_spec m s ms :
  rest_ready (ep + 1) s -> (m <= S (run k (text src s)))%nat -> holds ms caps ->
  (calls its < d)%nat -> matchdepth ms = Z.of_nat d ->
  agrees (max_try rec m s ep ms) (flat_map (fun n => matches src its (s + n) caps) (rev (zseq m)))
    ms caps.
Proof.
  intros Hr. revert ms. induction m as [|m IH]; intros ms Hm Hh Hc Hd.
  - by apply agrees_fail.
  - rewrite rev_zseq_S. cbn [max_try flat_map]. apply agrees_orelse.
    + apply Hrec; [apply Hr; [lia|done]|done..].
    + intros ms' Hd' Hh'. apply IH; [lia|done|done|lia].
Qed.

Lemma max_expand_spec s ms :
  0 <= s <= zlen src -> rest_ready (ep + 1) s -> holds ms caps -> (calls its < d)%nat ->
  matchdepth ms = Z.of_nat d ->
  agrees (max_expand pat src rec s p ep ms)
    (flat_map (fun n => matches src its (s + n) caps) (rev (zseq (S (run k (text src s)))))) ms caps.
Proof.
  intros Hs Hr Hh Hc Hd. unfold max_expand. pose proof (run_bound src s k Hs) as Hb.
  rewrite max_count_spec; [|lia|lia|rewrite Z.add_0_r; unfold zlen in *; lia].
  cbn [outcome_bind]. rewrite Z.add_0_r, Z.add_0_l, Nat2Z.id. by apply max_try_spec.
Qed.

Lemma min_loop_spec fuel s ms :
  (run k (text src s) < fuel)%nat -> 0 <= s <= zlen src -> rest_ready (ep + 1) s ->
  holds ms caps -> (calls its < d)%nat -> matchdepth ms = Z.of_nat d ->
  agrees (min_loop pat src rec fuel s p ep ms)
    (flat_map (fun n => matches src its (s + n) caps) (zseq (S (run k (text src s))))) ms caps.
Proof.
  revert s ms. induction fuel as [|n IH]; intros s ms Hf Hs Hr Hh Hc Hd; [lia|].
  rewrite zseq_cons. cbn [min_loop flat_map]. rewrite flat_map_shift. apply agrees_orelse.
  { rewrite Z.add_0_r. apply Hrec; [|done..]. rewrite <- (Z.add_0_r s). apply Hr; [lia|done]. }
  intros ms' Hd' Hh'. rewrite Hsingle by lia. cbn [outcome_bind].
  pose proof (run_bound src s k Hs) as Hb. unfold rest_ready in Hr.
  rewrite (run_text src s k) in * by lia.
  destruct (matches_class src s k); [|by apply agrees_fail].
  assert (rest_ready (ep + 1) (s + 1)) as Hr'.
  { intros j ms'' Hj Hh''. replace (s + 1 + j) with (s + (j + 1)) by lia. apply Hr; [lia|done]. }
  replace (flat_map _ _) with
    (flat_map (fun n => matches src its (s + 1 + n) caps) (zseq (S (run k (text src (s + 1)))))).
  { apply IH; [lia|lia|done..|lia]. }
  apply flat_map_ext. intros a. f_equal. lia.
Qed.
End Single.

Lemma calls_cons i its : calls (i :: its) = (item_calls i + calls its)%nat.
Proof. done. Qed.

(** How the code tests for a quantifier. *)
Lemma quantifier_cases x :
  quantifier_of x = None /\ x <> ch "?"%char /\ x <> ch "*"%char /\ x <> ch "+"%char
    /\ x <> ch "-"%char
  \/ x = ch "?"%char \/ x = ch "*"%char \/ x = ch "+"%char \/ x = ch "-"%char.
Proof. unfold quantifier_of. repeat case_match; bool_simpl; intuition. Qed.

Lemma word_hyphen_hd k r : word_hyphen k r = true -> hd 0 r = ch "-"%char.
Proof.
  destruct k, r as [|h [|e r]]; try done. cbn. intros Hw. bool_simpl. done.
Qed.

Section Default.
Context (rec again : Z -> Z -> MatchState -> outcome (option Z * MatchState)) (d : nat).
Context (p s : Z) (its : list item) (caps : captures) (ms : MatchState).
Context (Hrec : finds rec d) (Hagain : continues again d p).
Context (Hs : 0 <= s <= zlen src) (Hh : holds ms caps) (Hd : matchdepth ms = Z.of_nat d).
Context (Hcaps : Forall (wf_capture s) caps).
Context (Hwf : is_Some (wf_items (map status_of caps) its)).

Lemma single_ready k n q r j ms' :
  points pat q r -> parse_items n r = Some its ->
  0 <= j <= Z.of_nat (run k (text src s)) -> holds ms' caps -> ready its (s + j) q caps ms'.
Proof.
  intros Hq Hn Hj Hh'. pose proof (run_bound src s k Hs). split; eauto; [|lia].
  apply (wf_captures_mono s); [done|lia].
Qed.

(** An item without a quantifier. *)
Lemma one_spec k ep r n :
  points pat ep r -> parse_items n r = Some its -> p < ep -> (calls its <= d)%nat ->
  agrees (if matches_class src s k then again (s + 1) ep ms else Ret (None, ms))
    (matches src (ISingle k QOne :: its) s caps) ms caps.
Proof.
  intros Hr Hn Hlt Hc. rewrite matches_single, run_text by lia.
  destruct (matches_class src s k) eqn:Hm; [|by apply agrees_fail].
  cbn [counts Nat.ltb Nat.leb flat_map]. rewrite app_nil_r.
  apply Hagain; [done| |done..]. eapply single_ready; [done..| |done].
  rewrite run_text, Hm by lia. lia.
Qed.

(** One with a quantifier, by the character of the quantifier. *)
Lemma quantified_spec k ep r n q x :
  (forall s, 0 <= s -> singlematch pat src s p ep = Ret (matches_class src s k)) ->
  points pat (ep + 1) r -> parse_items n r = Some its -> p < ep ->
  quantifier_of x = Some q -> (calls (ISingle k q :: its) <= d)%nat ->
  agrees (if matches_class src s k then
            if x =? ch "?"%char then
              r <- rec (s + 1) (ep + 1) ms ;;
              let '(res, ms) := r in
              match res with Some _ => Ret (res, ms) | None => again s (ep + 1) ms end
            else if x =? ch "+"%char then max_expand pat src rec (s + 1) p ep ms
            else if x =? ch "*"%char then max_expand pat src rec s p ep ms
            else min_expand pat src rec s p ep ms
          else if x =? ch "+"%char then Ret (None, ms) else again s (ep + 1) ms)
    (matches src (ISingle k q :: its) s caps) ms caps.
Proof.
  intros Hsingle Hr Hn Hlt Hq Hc. rewrite matches_single.
  assert (forall j ms', 0 <= j <= Z.of_nat (run k (text src s)) -> holds ms' caps ->
    ready its (s + j) (ep + 1) caps ms') as Hready by (intros; by eapply single_ready).
  assert (forall ms', holds ms' caps -> ready its s (ep + 1) caps ms') as Hready0.
  { intros ms' Hh'. rewrite <- (Z.add_0_r s). apply Hready; [lia|done]. }
  assert (calls its < d)%nat as Hc'.
  { unfold quantifier_of in Hq. repeat case_match; simplify_eq; rewrite calls_cons in Hc; cbn in Hc; lia. }
  pose proof (run_bound src s k Hs) as Hb.
  destruct (matches_class src s k) eqn:Hm.
  2:{ rewrite run_text, Hm by lia.
      destruct (quantifier_cases x) as [[Hx _]|[->|[->|[->| ->]]]]; [congruence|..];
        injection Hq as <-; cbn; rewrite ?app_nil_r, ?Z.add_0_r; try (by apply agrees_fail);
        (apply Hagain; [lia|auto|lia|done]). }
  destruct (quantifier_cases x) as [[Hx _]|[->|[->|[->| ->]]]]; [congruence|..];
    injection Hq as <-; cbn [Z.eqb Pos.eqb counts].
  - rewrite run_text, Hm by lia. cbn [Nat.ltb Nat.leb flat_map]. rewrite app_nil_r, Z.add_0_r.
    apply agrees_orelse.
    + apply Hrec; [|done..]. apply Hready; [rewrite run_text, Hm by lia; lia|done].
    + intros ms' Hd' Hh'. apply Hagain; [lia|auto|lia|lia].
  - by eapply max_expand_spec.
  - rewrite run_text, Hm by lia. rewrite <- map_rev, flat_map_shift.
    rewrite (flat_map_ext _ (fun n => matches src its (s + 1 + n) caps)) by (intros; f_equal; lia).
    eapply max_expand_spec; try done; [|].
    + rewrite run_text, Hm in Hb by lia. lia.
    + intros j ms' Hj Hh'. replace (s + 1 + j) with (s + (j + 1)) by lia. apply Hready; [|done].
      rewrite run_text, Hm by lia. lia.
  - eapply min_loop_spec; try done. unfold zlen in *. lia.
Qed.

Lemma neq_eqb (x y : Z) : x <> y -> (x =? y) = false.
Proof. apply Z.eqb_neq. Qed.

Lemma default_spec l i r n :
  points pat p l -> parse_single l = Some (i, r) -> parse_items n r = Some its ->
  (calls (i :: its) <= d)%nat ->
  agrees (match_default pat src rec again s p ms) (matches src (i :: its) s caps) ms caps.
Proof.
  intros Hp Hi Hn Hc. unfold parse_single in Hi.
  destruct (parse_class l) as [[k r0]|] eqn:Hk; [|done]. cbn [mbind option_bind] in Hi.
  destruct (class_spec pat src p l k r0 Hp Hk) as (ep & He & Hr & Hlt & Hsingle).
  pose proof (word_hyphen_spec pat p l k r0 ep Hp Hk Hr) as Hw.
  unfold match_default. rewrite He. cbn [outcome_bind]. rewrite Hsingle by lia. cbn [outcome_bind].
  rewrite (points_hd _ _ _ Hr), Hw. cbn [outcome_bind].
  destruct (quantifier_cases (hd 0 r0)) as [(Hq & H1 & H2 & H3 & H4)|Hq].
  - assert (i = ISingle k QOne /\ r = r0) as [-> ->].
    { destruct r0; [by injection Hi|]. cbn in Hq. rewrite Hq in Hi. by injection Hi. }
    rewrite !neq_eqb by done. cbn [orb outcome_bind].
    pose proof (one_spec k ep r0 n Hr Hn Hlt Hc) as H. by destruct (matches_class src s k).
  - destruct r0 as [|x r']; [cbn in Hq; naive_solver lia|]. cbn [hd] in Hq |- *.
    assert (exists q, quantifier_of x = Some q) as [q Hx] by (destruct Hq as [->|[->|[->| ->]]]; eauto).
    rewrite Hx in Hi. destruct (word_hyphen k (x :: r')) eqn:Hwh.
    + injection Hi as <- <-. apply word_hyphen_hd in Hwh. cbn in Hwh. subst x.
      pose proof (one_spec k ep _ n Hr Hn Hlt Hc) as H. by destruct (matches_class src s k).
    + injection Hi as <- <-. pose proof (points_tl _ _ _ _ Hr) as Hr'.
      pose proof (quantified_spec k ep r' n q x Hsingle Hr' Hn Hlt Hx Hc) as H.
      destruct (matches_class src s k); destruct Hq as [->|[->|[->| ->]]]; exact H.
Qed.
End Default.

(** * The other items *)

Lemma balance_spec fuel b e cont s l :
  0 <= s -> text src (s + 1) = l -> (length l < fuel)%nat ->
  balance_loop src fuel b e cont s
  = Ret ((fun n => s + 1 + n) <$> balanced b e cont l).
Proof.
  intros Hs. revert cont s l Hs. induction fuel as [|n IH]; intros cont s l Hs Hl Hf; [lia|].
  cbn [balance_loop]. unfold src_end. destruct l as [|c l].
  - rewrite (proj2 (Z.ltb_ge _ _)); [done|]. unfold text in Hl. apply (f_equal length) in Hl.
    rewrite length_drop in Hl. cbn in Hl. unfold zlen. lia.
  - destruct (text_next src (s + 1) c l ltac:(lia) Hl) as [Hl' Hlt].
    rewrite (proj2 (Z.ltb_lt _ _)) by done. cbn [negb].
    assert (points src (s + 1) (c :: l)) as Hp by (split; [lia|done]).
    rewrite (points_hd _ _ _ Hp). cbn [hd outcome_bind balanced length] in *.
    assert (forall k : option Z, Ret ((fun n => s + 1 + 1 + n) <$> k)
      = Ret ((fun n => s + 1 + n) <$> (Z.succ <$> k))) as Hk.
    { intros [x|]; [|done]. cbn. do 2 f_equal. lia. }
    destruct (c =? e).
    + destruct (Z.eqb_spec cont 1) as [->|Hc]; [done|]. rewrite (proj2 (Z.eqb_neq _ 0)) by lia.
      rewrite (IH _ _ l) by (done || lia). apply Hk.
    + destruct (c =? b); rewrite (IH _ _ l) by (done || lia); apply Hk.
Qed.

Lemma char_at_get s : 0 <= s <= zlen src -> cget src s = Ret (char_at src s).
Proof.
  intros Hs. unfold cget, char_at. rewrite (proj2 (Z.leb_le _ _)), (proj2 (Z.leb_le s _)) by lia.
  by rewrite (proj2 (Z.ltb_ge _ _)) by lia.
Qed.

Lemma matchbalance_spec s p x y l :
  0 <= s <= zlen src -> points pat p (x :: y :: l) ->
  matchbalance pat src s p
  = Ret (match text src s with
         | c :: t => if c =? x then (fun n => s + 1 + n) <$> balanced x y 1 t else None
         | [] => None
         end).
Proof.
  intros Hs Hp. unfold matchbalance, p_end. pose proof (points_tl _ _ _ _ Hp) as Hp'.
  rewrite (proj2 (Z.leb_gt _ _)) by (apply points_lt in Hp'; lia).
  rewrite char_at_get, (points_hd _ _ _ Hp) by done. cbn [hd outcome_bind].
  rewrite (points_hd _ _ _ Hp'). cbn [hd outcome_bind].
  unfold char_at. rewrite (proj2 (Z.ltb_ge _ _)), <- hd_drop by lia. fold (text src s).
  destruct (text src s) as [|c t] eqn:Ht; cbn [hd].
  - destruct (negb _); [done|]. assert (zlen src <= s).
    { unfold text in Ht. apply (f_equal length) in Ht. rewrite length_drop in Ht. cbn in Ht.
      unfold zlen. lia. }
    rewrite (balance_spec _ _ _ _ _ []); [done|lia|by apply text_end; lia|cbn; lia].
  - destruct (text_next src s c t ltac:(lia) Ht) as [Ht' _]. destruct (c =? x); [|done].
    apply balance_spec; [lia|done|]. rewrite <- Ht'. unfold text. rewrite length_drop. lia.
Qed.

(** * Captures *)

Lemma matches_step i its s caps e caps' :
  step_item src i s caps = [(e, caps')] -> matches src (i :: its) s caps = matches src its e caps'.
Proof. intros Hi. cbn [matches]. rewrite Hi. cbn. apply app_nil_r. Qed.

Lemma matches_stuck i its s caps :
  step_item src i s caps = [] -> matches src (i :: its) s caps = [].
Proof. intros Hi. cbn [matches]. by rewrite Hi. Qed.

Section Captures.
Context (rec : Z -> Z -> MatchState -> outcome (option Z * MatchState)) (d : nat).
Context (Hrec : finds rec d).
Context (s q : Z) (its : list item) (caps : captures) (ms : MatchState).
Context (Hh : holds ms caps) (Hd : matchdepth ms = Z.of_nat d) (Hc : (calls its < d)%nat).

Lemma start_capture_spec what :
  (length caps < 32)%nat ->
  (forall ms', holds ms' (caps ++ [(s, what)]) -> ready its s q (caps ++ [(s, what)]) ms') ->
  agrees (start_capture rec s q what ms) (matches src its s (caps ++ [(s, what)])) ms caps.
Proof.
  intros Hl Hr. unfold start_capture, LUA_MAXCAPTURES.
  rewrite (proj2 (Z.leb_gt _ _)) by (rewrite (proj1 Hh); lia).
  eapply (agrees_undo _ _ _ _ _ _ (fun res ms => _)).
  - apply Hrec; [apply Hr, holds_push, Hh|done|done].
  - done.
  - intros ms' Hh'. eexists. split; [done|]. split; [done|]. by eapply holds_pop.
Qed.

Lemma end_capture_spec caps' :
  close s caps = Some caps' ->
  (forall ms', holds ms' caps' -> ready its s q caps' ms') ->
  agrees (end_capture rec s q ms) (matches src its s caps') ms caps.
Proof.
  intros Hcl Hr. destruct (close_split _ _ _ Hcl) as (pre & c & post & Hcaps & -> & Hopen & Hpost).
  unfold end_capture. rewrite (close_loop_spec ms caps Hh pre c post) by done.
  cbn [outcome_bind].
  assert (caps !! length pre = Some c) as Hpre by (rewrite Hcaps; by apply list_lookup_middle).
  rewrite (holds_get ms caps Hh _ _ Hpre). cbn [outcome_bind].
  pose proof (holds_set ms caps Hh pre c post (c.1, s - c.1) Hcaps) as Hset.
  eapply (agrees_undo _ _ _ _ _ _ (fun res ms => _)).
  - apply Hrec; [by apply Hr|done|done].
  - done.
  - intros ms' Hh'. cbv beta. erewrite (holds_get ms' _ Hh' (length pre)) by (by apply list_lookup_middle).
    cbn [outcome_bind fst]. eexists. split; [done|]. split; [done|].
    rewrite Hcaps. destruct c as [c1 c2]. cbn in *. subst c2. by eapply holds_set.
Qed.
End Captures.

Lemma bytes_in b i n : 0 <= i -> 0 <= n -> i + n <= zlen b -> bytes b i n = Ret (slice b i n).
Proof.
  intros. unfold bytes.
  by rewrite (proj2 (Z.leb_le 0 i)), (proj2 (Z.leb_le 0 n)), (proj2 (Z.leb_le (i + n) _)).
Qed.

(** A reference to a capture that is not open. *)
Lemma match_capture_spec s l caps ms i n :
  zlen src < 2 ^ 63 -> 0 <= s <= zlen src -> Forall (wf_capture s) caps -> holds ms caps ->
  0 <= l - ch "1"%char -> caps !! Z.to_nat (l - ch "1"%char) = Some (i, n) -> n <> CAP_UNFINISHED ->
  match_capture src s l ms
  = Ret (if (0 <=? n) && (s + n <=? zlen src) && bool_decide (slice src i n = slice src s n)
         then Some (s + n) else None).
Proof.
  intros Hsrc Hs Hw Hh Hl Hi Hn. unfold match_capture, check_capture.
  rewrite (proj2 (Z.ltb_ge _ _)) by done.
  rewrite (proj2 (Z.leb_gt (level ms) _)).
  2:{ rewrite (proj1 Hh). apply lookup_lt_Some in Hi. lia. }
  pose proof (holds_get ms caps Hh _ _ Hi) as Hg. rewrite Z2Nat.id in Hg by done.
  cbn [orb]. rewrite Hg. cbn [outcome_bind snd]. rewrite (proj2 (Z.eqb_neq _ _) Hn).
  cbn [outcome_bind]. rewrite Hg. cbn [outcome_bind fst snd]. unfold src_end.
  rewrite Forall_lookup in Hw. destruct (Hw _ _ Hi) as [? [?|[Hp|[Hp ?]]]]; cbn in *; [done| |].
  - rewrite Hp. change (u64 CAP_POSITION) with (2 ^ 64 - 2). unfold CAP_POSITION.
    rewrite (proj2 (Z.leb_gt (2 ^ 64 - 2) _)) by lia. done.
  - rewrite cast_u_id by (unfold in_u; lia). rewrite (proj2 (Z.leb_le 0 n)) by done.
    replace (n <=? zlen src - s) with (s + n <=? zlen src) by lia. cbn [andb].
    destruct (Z.leb_spec (s + n) (zlen src)); [|done].
    rewrite !bytes_in by lia. done.
Qed.

(** * The loop *)

Lemma close_ready s caps st :
  Forall (wf_capture s) caps -> close_status (map status_of caps) = Some st ->
  exists caps', close s caps = Some caps' /\ map status_of caps' = st.
Proof.
  intros Hw Hst. rewrite (close_status_of s) in Hst by done.
  destruct (close s caps) as [caps'|]; [|done]. injection Hst as <-. eauto.
Qed.

Context (Hsrc : zlen src < 2 ^ 63).

Lemma points_two b p x y l : points b p (x :: y :: l) -> points b (p + 2) l.
Proof. intros H%points_tl%points_tl. by replace (p + 2) with (p + 1 + 1) by lia. Qed.

Section Items.
Context (rec again : Z -> Z -> MatchState -> outcome (option Z * MatchState)) (d : nat).
Context (p s : Z) (i : item) (its : list item) (caps : captures) (ms : MatchState).
Context (Hrec : finds rec d) (Hagain : continues again d p).
Context (Hw : Forall (wf_capture s) caps) (Hs : 0 <= s <= zlen src) (Hh : holds ms caps).
Context (Hwf : is_Some (wf_items (map status_of caps) (i :: its))).
Context (Hd : matchdepth ms = Z.of_nat d) (Hc : (calls (i :: its) <= d)%nat).
(** The rest of the pattern. *)
Context (q : Z) (r : list Z) (n : nat) (Hq : points pat q r) (Hn : parse_items n r = Some its).

Lemma item_next e caps' ms' :
  (e, caps') ∈ step_item src i s caps -> holds ms' caps' -> ready its e q caps' ms'.
Proof.
  intros He Hh'. rewrite wf_items_cons in Hwf.
  destruct (wf_items (map status_of caps) [i]) as [st|] eqn:Hi; [|by destruct Hwf].
  by eapply ready_next.
Qed.

(** An item that captures nothing, and matches in one way at most. *)
Lemma item_again e (b : bool) :
  p < q -> step_item src i s caps = (if b then [(e, caps)] else []) ->
  agrees (if b then again e q ms else Ret (None, ms)) (matches src (i :: its) s caps) ms caps.
Proof.
  intros Hlt Hi. destruct b.
  - rewrite (matches_step _ _ _ _ _ _ Hi). rewrite calls_cons in Hc.
    apply Hagain; [done| |lia|done]. apply item_next; [|done]. rewrite Hi. by apply list_elem_of_here.
  - rewrite (matches_stuck _ _ _ _ Hi). by apply agrees_fail.
Qed.

Lemma item_open what stt :
  wf_items (map status_of caps) [i] =
    (if (length (map status_of caps) <? 32)%nat then Some (map status_of caps ++ [stt]) else None) ->
  step_item src i s caps = [(s, caps ++ [(s, what)])] -> item_calls i = 1%nat ->
  agrees (start_capture rec s q what ms) (matches src (i :: its) s caps) ms caps.
Proof.
  intros Hi Hstep Hcalls. rewrite (matches_step _ _ _ _ _ _ Hstep).
  rewrite calls_cons in Hc. pose proof Hwf as Hl. rewrite wf_items_cons, Hi, length_map in Hl.
  destruct (Nat.ltb_spec (length caps) 32); [|by destruct Hl].
  apply (start_capture_spec _ _ Hrec); [done|done|lia|done|].
  intros ms' Hh'. apply item_next; [|done]. rewrite Hstep. by apply list_elem_of_here.
Qed.

Lemma item_close :
  i = IClose -> agrees (end_capture rec s q ms) (matches src (i :: its) s caps) ms caps.
Proof.
  intros Hi. pose proof Hwf as Hl. rewrite Hi in Hl. cbn [wf_items] in Hl.
  destruct (close_status (map status_of caps)) as [st|] eqn:Hst; [|by destruct Hl].
  destruct (close_ready _ _ _ Hw Hst) as (caps' & Hcl & Heq).
  assert (step_item src i s caps = [(s, caps')]) as Hstep by (rewrite Hi; cbn; by rewrite Hcl).
  rewrite (matches_step _ _ _ _ _ _ Hstep). rewrite calls_cons, Hi in Hc. cbn [item_calls] in Hc.
  apply (end_capture_spec _ _ Hrec); [done|done|lia|done|].
  intros ms' Hh'. apply item_next; [|done]. rewrite Hstep. by apply list_elem_of_here.
Qed.

Lemma item_default l :
  points pat p l -> parse_single l = Some (i, r) ->
  agrees (match_default pat src rec again s p ms) (matches src (i :: its) s caps) ms caps.
Proof.
  intros Hp Hi. eapply default_spec; try done.
  rewrite wf_items_cons in Hwf. unfold parse_single in Hi.
  destruct (parse_class _) as [[k r0]|]; [|done]. cbn [mbind option_bind] in Hi.
  repeat case_match; injection Hi as <- _; exact Hwf.
Qed.

Lemma item_balance x y l :
  i = IBalance x y -> points pat (p + 2) (x :: y :: l) -> q = p + 4 ->
  agrees (r <- matchbalance pat src s (p + 2) ;;
          match r with Some s => again s q ms | None => Ret (None, ms) end)
    (matches src (i :: its) s caps) ms caps.
Proof.
  intros Hi Hp Hq4. rewrite (matchbalance_spec s _ x y l) by done. cbn [outcome_bind].
  set (o := match text src s with [] => None | c :: t => _ end).
  assert (step_item src i s caps = match o with Some e => [(e, caps)] | None => [] end)
    as Hstep.
  { subst o. rewrite Hi. cbn [step_item]. destruct (text src s) as [|c t]; [done|]. destruct (c =? x); [|done].
    by destruct (balanced x y 1 t). }
  destruct o as [e|]; [apply (item_again e true)|apply (item_again 0 false)]; done || lia.
Qed.

Lemma item_frontier k l :
  i = IFrontier k -> points pat (p + 2) (ch "["%char :: l) -> parse_set l = Some (k, r) ->
  agrees (ep <- classend pat (p + 2) ;;
          previous <- (if s =? 0 then Ret 0 else cget src (s - 1)) ;;
          b <- matchbracketclass pat previous (p + 2) (ep - 1) ;;
          if negb b then
            c <- cget src s ;;
            b <- matchbracketclass pat c (p + 2) (ep - 1) ;;
            if b : bool then again s ep ms else Ret (None, ms)
          else Ret (None, ms))
    (matches src (i :: its) s caps) ms caps.
Proof.
  intros Hi Hp Hk. destruct (bracket_spec pat _ _ _ _ Hp Hk) as (ep & -> & Hep & Hlt & Hb).
  pose proof (points_inj _ _ _ _ Hep Hq) as ->. cbn [outcome_bind].
  assert ((if s =? 0 then Ret 0 else cget src (s - 1)) = Ret (char_at src (s - 1))) as ->.
  { destruct (Z.eqb_spec s 0) as [->|Hne]; [done|]. apply char_at_get. lia. }
  cbn [outcome_bind]. rewrite Hb, char_at_get by done. cbn [outcome_bind]. rewrite Hb. cbn [outcome_bind].
  assert (step_item src i s caps
    = if negb (in_class (char_at src (s - 1)) k) && in_class (char_at src s) k
      then [(s, caps)] else []) as Hstep by by rewrite Hi.
  pose proof (item_again s _ ltac:(lia) Hstep) as H.
  by destruct (in_class (char_at src (s - 1)) k).
Qed.

Lemma item_back y :
  i = IBack (y - ch "1"%char) -> p < q ->
  agrees (r <- match_capture src s y ms ;;
          match r with Some s => again s q ms | None => Ret (None, ms) end)
    (matches src (i :: its) s caps) ms caps.
Proof.
  intros Hi Hlt. pose proof Hwf as Hl. rewrite Hi in Hl. cbn [wf_items] in Hl.
  rewrite list_lookup_fmap in Hl.
  destruct (caps !! Z.to_nat (y - ch "1"%char)) as [[a m]|] eqn:Ha.
  2:{ cbn in Hl. rewrite andb_false_r in Hl. by destruct Hl. }
  destruct (Z.leb_spec 0 (y - ch "1"%char)) as [Hy|]; [|by destruct Hl].
  assert (m <> CAP_UNFINISHED) as Hm.
  { intros ->. by destruct Hl. }
  rewrite (match_capture_spec s y caps ms a m) by done. cbn [outcome_bind].
  assert (step_item src i s caps
    = if (0 <=? m) && (s + m <=? zlen src) && bool_decide (slice src a m = slice src s m)
      then [(s + m, caps)] else []) as Hstep by (rewrite Hi; cbn [step_item]; by rewrite Ha).
  pose proof (item_again _ _ Hlt Hstep) as H. by destruct (_ && bool_decide _).
Qed.
End Items.

Lemma loop_spec rec d fuel its s p caps ms :
  finds rec d -> (Z.to_nat (zlen pat - p) < fuel)%nat -> ready its s p caps ms ->
  (calls its <= d)%nat -> matchdepth ms = Z.of_nat d ->
  agrees (match_loop pat src rec fuel s p ms) (matches src its s caps) ms caps.
Proof.
  intros Hrec. revert its s p caps ms.
  induction fuel as [|f IH]; intros its s p caps ms Hf Hr Hc Hd; [lia|].
  destruct Hr as [(n & l & Hp & Hn) Hwf Hw Hs Hh]. cbn [match_loop]. unfold p_end.
  rewrite (zlen_eqb _ _ _ Hp). destruct l as [|x l].
  { rewrite bool_decide_eq_true_2 by done. destruct n; injection Hn as <-; by apply agrees_here. }
  rewrite bool_decide_eq_false_2 by done. destruct n as [|n]; [done|]. cbn [parse_items] in Hn.
  destruct (parse_item (x :: l)) as [[i r]|] eqn:Hi; [|done]. cbn [mbind option_bind] in Hn.
  destruct (parse_items n r) as [its'|] eqn:Hn'; [|done]. injection Hn as <-.
  pose proof (points_lt _ _ _ _ Hp) as Hlt. pose proof (points_tl _ _ _ _ Hp) as Hp1.
  rewrite (points_hd _ _ _ Hp). cbn [hd outcome_bind].
  assert (continues (match_loop pat src rec f) d p) as Hagain.
  { intros its1 s1 p1 caps1 ms1 Hp' Hr1 Hc1 Hd1. apply IH; [|done..].
    destruct (ready_parse _ _ _ _ _ Hr1) as (? & ? & [? _] & _). lia. }
  rewrite (points_hd _ _ _ Hp1). unfold parse_item in Hi. cbn [outcome_bind].
  rewrite (zlen_eqb _ _ _ Hp1).
  destruct (x =? ch "("%char).
  { destruct l as [|y l]; cbn [hd]; [|destruct (y =? ch ")"%char)]; injection Hi as <- <-.
    - by eapply (item_open _ _ _ _ _ _ _ Hrec) with (stt := Open).
    - eapply (item_open _ _ _ _ _ _ _ Hrec) with (stt := Position); try done. by eapply points_two.
    - by eapply (item_open _ _ _ _ _ _ _ Hrec) with (stt := Open). }
  destruct (x =? ch ")"%char); [injection Hi as <- <-; by eapply item_close|].
  destruct (Z.eqb_spec x (ch "$"%char)) as [->|Hx].
  { case_bool_decide as Hl; cbn in Hi |- *; [|by eapply item_default].
    injection Hi as <- <-. subst l. destruct n; injection Hn' as <-; unfold src_end;
      cbn [matches step_item]; (destruct (s =? zlen src); [by apply agrees_here|by apply agrees_fail]). }
  destruct (x =? L_ESC) eqn:Hesc; [|by eapply item_default].
  destruct l as [|y l]; [done|]. cbn [hd andb] in *.
  destruct (y =? ch "b"%char).
  { destruct l as [|a [|b l]]; try done. injection Hi as <- <-. pose proof (points_two _ _ _ _ _ Hp) as Hp2.
    eapply item_balance; try done.
    replace (p + 4) with (p + 2 + 2) by lia. by eapply points_two. }
  destruct (y =? ch "f"%char).
  { destruct l as [|z l]; [done|]. pose proof (points_two _ _ _ _ _ Hp) as Hp2.
    rewrite (points_hd _ _ _ Hp2). cbn [hd outcome_bind].
    destruct (Z.eqb_spec z (ch "["%char)) as [->|]; [|done]. cbn [guard_or].
    destruct (parse_set l) as [[k r']|] eqn:Hk; [|done]. injection Hi as <- <-.
    destruct (bracket_spec pat _ _ _ _ Hp2 Hk) as (ep & _ & Hep & _ & _). by eapply item_frontier. }
  destruct (isdigit y); [|by eapply item_default].
  injection Hi as <- <-. eapply item_back; try done; [by eapply points_two|lia].
Qed.

(** * The theorem *)

Lemma do_match_spec fuel d : (d <= fuel)%nat -> finds (do_match pat src fuel) d.
Proof.
  revert d. induction fuel as [|f IH]; intros d Hd its s p caps ms Hr Hc Hm; [lia|].
  cbn [do_match]. rewrite Hm, (proj2 (Z.eqb_neq _ 0)) by lia.
  destruct d as [|d]; [lia|].
  destruct (loop_spec (do_match pat src f) d (S (length pat)) its s p caps
    (set_depth (Z.of_nat (S d) - 1) ms)) as (ms' & -> & Hd' & Hh'); [apply IH; lia| | |lia|cbn; lia|].
  - destruct (ready_parse _ _ _ _ _ Hr) as (? & ? & [? _] & _). unfold zlen in *. lia.
  - destruct Hr. by split.
  - cbn [outcome_bind]. eexists. split; [done|]. cbn in *. split; [lia|by apply holds_depth].
Qed.

(** A pattern without errors in it that needs no more than the depth allows. *)
Definition regular (its : list item) : Prop :=
  parse pat = Some its /\ is_Some (wf_items [] its) /\ (calls its < 200)%nat.

Lemma match_at_spec its s ms :
  regular its -> 0 <= s <= zlen src -> level ms = 0 -> matchdepth ms = LUAI_MAXCCALLS ->
  agrees (match_at pat src s ms) (matches src its s []) ms [].
Proof.
  intros (Hp & Hwf & Hc) Hs Hl Hd. unfold match_at. apply (do_match_spec _ 200).
  - unfold LUAI_MAXCCALLS. lia.
  - split; [|done|done|done|split; [done|]; intros i c Hi; done].
    exists (length pat), pat. split; [apply points_start|done].
  - done.
  - by rewrite Hd.
Qed.
End Match.
