(* ===== verification/PatternSafe.v ===== *)
(** The pattern matcher of [Pattern.v] on every pattern, malformed ones
    included: it never reads outside of the source, the pattern and the captures
    that were set, and it ends; what it returns is inside the source. *)
From Stdlib Require Import Ascii.
From stdpp Require Import gmap.
From S2P Require Import Prelude Word LuaApi Pattern PatternSpec PatternMatch.
Open Scope Z_scope.
Open Scope outcome_scope.

(** * Routines that may raise errors *)

(** [o] does not run into undefined behaviour, and [Q] holds of what it
    returns. *)
Definition safe {A} (o : outcome A) (Q : A -> Prop) : Prop :=
  match o with Ret a => Q a | Throw _ => True | Undefined _ => False end.

Lemma safe_bind {A B} (m : outcome A) (f : A -> outcome B) Q :
  safe m (fun a => safe (f a) Q) -> safe (outcome_bind m f) Q.
Proof. by destruct m. Qed.

Lemma safe_mono {A} (m : outcome A) (P Q : A -> Prop) :
  safe m P -> (forall a, P a -> Q a) -> safe m Q.
Proof. destruct m; cbn; auto. Qed.

Lemma safe_step {A B} (m : outcome A) (f : A -> outcome B) P Q :
  safe m P -> (forall a, P a -> safe (f a) Q) -> safe (outcome_bind m f) Q.
Proof. intros Hm Hf. apply safe_bind. by eapply safe_mono. Qed.

Lemma safe_error {A} msg (Q : A -> Prop) : safe (luaL_error msg) Q.
Proof. done. Qed.

Lemma safe_defined {A} (m : outcome A) Q : safe m Q -> is_defined m = true.
Proof. by destruct m. Qed.

Create HintDb safe discriminated.
#[export] Hint Resolve safe_error : safe.

Lemma cget_safe b i : 0 <= i <= zlen b -> exists x, cget b i = Ret x /\ (i = zlen b -> x = 0).
Proof.
  intros Hi. unfold cget. rewrite (proj2 (Z.leb_le 0 i)), (proj2 (Z.leb_le i _)) by lia.
  eexists. split; [done|]. intros ->. apply nth_overflow. unfold zlen. lia.
Qed.

(** Run a routine by a lemma about it. *)
Tactic Notation "run_by" tactic3(t) := eapply safe_step; [t|cbv beta].

(** Read a character at an index that is in the string. *)
Ltac fetch x H :=
  match goal with
  | |- context [cget ?b ?i] =>
      let E := fresh in
      destruct (cget_safe b i) as (x & E & H); [lia|]; rewrite E; cbn [outcome_bind]; clear E
  end.

Section Safe.
Context (pat src : list Z).

(** * Classes *)

Lemma classend_loop_safe fuel p :
  0 <= p <= zlen pat -> zlen pat - p < Z.of_nat fuel ->
  safe (classend_loop pat fuel p) (fun ep => p + 1 < ep <= zlen pat).
Proof.
  revert p. induction fuel as [|n IH]; intros p Hp Hf; [lia|]. cbn [classend_loop]. unfold p_end.
  destruct (Z.eqb_spec p (zlen pat)); [done|]. fetch c Hc.
  set (p' := if (c =? L_ESC) && (p + 1 <? zlen pat) then p + 1 + 1 else p + 1).
  assert (p + 1 <= p' <= zlen pat) as Hp'.
  { subst p'. destruct (c =? L_ESC), (Z.ltb_spec (p + 1) (zlen pat)); cbn; lia. }
  fetch x Hx. destruct (Z.eqb_spec x (ch "]"%char)) as [->|].
  - cbn. assert (p' <> zlen pat) by (intros E; by apply Hx in E). lia.
  - eapply safe_mono; [apply IH; lia|]. cbn. lia.
Qed.

Lemma classend_safe p :
  0 <= p < zlen pat ->
  safe (classend pat p) (fun ep => p < ep <= zlen pat).
Proof.
  intros Hp. unfold classend, p_end. fetch c Hc. destruct (c =? L_ESC).
  - destruct (Z.eqb_spec (p + 1) (zlen pat)); [done|]. cbn. lia.
  - destruct (c =? ch "["%char); [|cbn; lia]. fetch x Hx.
    destruct (Z.eqb_spec x (ch "^"%char)) as [->|].
    + assert (p + 1 <> zlen pat) by (intros E; by apply Hx in E).
      eapply safe_mono; [apply classend_loop_safe; unfold zlen in *; lia|]. cbn. lia.
    + eapply safe_mono; [apply classend_loop_safe; unfold zlen in *; lia|]. cbn. lia.
Qed.

Lemma bracket_loop_safe fuel c sig p ec :
  -1 <= p -> ec <= zlen pat -> ec - p < Z.of_nat fuel -> (0 < fuel)%nat ->
  safe (bracket_loop pat fuel c sig p ec) (fun _ => True).
Proof.
  revert p. induction fuel as [|n IH]; intros p Hp Hec Hf Hf0; [lia|]. cbn [bracket_loop].
  destruct (Z.ltb_spec (p + 1) ec); cbn [negb]; [|done]. fetch x Hx.
  assert (forall q, p < q -> safe (bracket_loop pat n c sig q ec) (fun _ => True)) as IH'.
  { intros q Hq. apply IH; lia. }
  fetch y Hy. destruct (x =? L_ESC); [case_match; [done|apply IH'; lia]|].
  destruct (y =? ch "-"%char), (Z.ltb_spec (p + 1 + 2) ec); cbn [andb];
    try (case_match; [done|apply IH'; lia]).
  fetch lo Hlo. fetch hi Hhi. case_match; [done|apply IH'; lia].
Qed.

Lemma matchbracketclass_safe c p ec :
  0 <= p -> p + 1 <= zlen pat -> ec <= zlen pat ->
  safe (matchbracketclass pat c p ec) (fun _ => True).
Proof.
  intros. unfold matchbracketclass. fetch x Hx.
  case_match; apply bracket_loop_safe; unfold zlen in *; lia.
Qed.

Lemma singlematch_safe s p ep :
  0 <= s -> 0 <= p < zlen pat -> ep <= zlen pat ->
  safe (singlematch pat src s p ep) (fun b => b = true -> s < zlen src).
Proof.
  intros. unfold singlematch, src_end. destruct (Z.leb_spec (zlen src) s); [done|].
  assert (forall b : bool, b = true -> s < zlen src) as Hlt by lia.
  fetch c Hc. fetch x Hx. destruct (x =? ch "."%char); [by cbn|].
  destruct (x =? L_ESC); [fetch y Hy; by cbn|].
  destruct (x =? ch "["%char); [|by cbn].
  eapply safe_mono; [apply matchbracketclass_safe; lia|]. auto.
Qed.

Lemma hyphen_safe p ep :
  0 <= p < zlen pat -> p < ep <= zlen pat ->
  safe (is_literal_word_hyphen pat p ep) (fun _ => True).
Proof.
  intros. unfold is_literal_word_hyphen, p_end. fetch x Hx.
  destruct (x =? ch "-"%char), (ep =? p + 1), (Z.ltb_spec (ep + 1) (zlen pat)); cbn [andb]; try done.
  fetch y Hy. destruct (isalnum y); [|done]. fetch z Hz. done.
Qed.

Lemma balance_loop_safe fuel b e cont s :
  -1 <= s -> zlen src - s <= Z.of_nat fuel -> (0 < fuel)%nat ->
  safe (balance_loop src fuel b e cont s)
    (fun r => match r with Some e => s < e <= zlen src | None => True end).
Proof.
  revert cont s. induction fuel as [|n IH]; intros cont s Hs Hf Hf0; [lia|]. cbn [balance_loop].
  unfold src_end. destruct (Z.ltb_spec (s + 1) (zlen src)); cbn [negb]; [|done]. fetch x Hx.
  assert (forall k, safe (balance_loop src n b e k (s + 1))
    (fun r => match r with Some e => s < e <= zlen src | None => True end)) as IH'.
  { intros k. eapply safe_mono; [apply IH; lia|]. intros [|]; lia || done. }
  repeat (case_match; try apply IH'). cbn. lia.
Qed.

Lemma matchbalance_safe s p :
  0 <= s <= zlen src -> 0 <= p ->
  safe (matchbalance pat src s p)
    (fun r => match r with Some e => s < e <= zlen src | None => True end /\ p + 2 <= zlen pat).
Proof.
  intros. unfold matchbalance, p_end. destruct (Z.leb_spec (zlen pat - 1) p); [done|].
  fetch x Hx. fetch b Hb. destruct (negb _); [cbn; lia|]. fetch e He.
  eapply safe_mono; [apply balance_loop_safe; unfold zlen in *; lia|]. cbn. intros. split; [done|lia].
Qed.

(** * The recursion *)

(** What a call of [match] leaves: the depth, the captures when it fails, and a
    position in the source when it succeeds. *)
Definition leaves (s : Z) (caps : captures) (ms : MatchState) (r : option Z * MatchState) : Prop :=
  matchdepth r.2 = matchdepth ms
  /\ match r.1 with
     | None => holds r.2 caps
     | Some e => s <= e <= zlen src
                 /\ exists caps', holds r.2 caps' /\ Forall (wf_capture e) caps'
                                 /\ (length caps' <= 32)%nat
     end.

Record state_ok (s : Z) (caps : captures) (ms : MatchState) : Prop := {
  ok_source : 0 <= s <= zlen src;
  ok_holds : holds ms caps;
  ok_caps : Forall (wf_capture s) caps;
  ok_length : (length caps <= 32)%nat;
}.

Definition safe_calls (rec : Z -> Z -> MatchState -> outcome (option Z * MatchState)) (d : Z) : Prop :=
  forall s p caps ms, 0 <= p <= zlen pat -> state_ok s caps ms -> matchdepth ms = d ->
    safe (rec s p ms) (leaves s caps ms).

Lemma ok_forward s s' caps ms : state_ok s caps ms -> s <= s' <= zlen src -> state_ok s' caps ms.
Proof. intros [? ? ? ?] ?. split; [lia|done|by apply (wf_captures_mono s); [|lia]|done]. Qed.

Lemma ok_state s caps ms ms' : state_ok s caps ms -> holds ms' caps -> state_ok s caps ms'.
Proof. by intros [? ? ? ?]. Qed.

Lemma left_none s caps ms : state_ok s caps ms -> leaves s caps ms (None, ms).
Proof. by intros [? ? ? ?]. Qed.

Lemma left_here s e caps ms :
  state_ok s caps ms -> s <= e <= zlen src -> leaves s caps ms (Some e, ms).
Proof.
  intros Hok He. split; [done|]. split; [done|]. exists caps.
  destruct (ok_forward _ _ _ _ Hok He). auto.
Qed.

Lemma left_forward s s' caps ms ms' r :
  leaves s' caps ms' r -> s <= s' -> matchdepth ms' = matchdepth ms -> leaves s caps ms r.
Proof.
  intros [Hd Hr] Hs Hd'. split; [lia|]. destruct r.1; [|done]. intuition lia.
Qed.

(** Try a call, and go on when it fails. *)
Lemma safe_orelse s caps ms m k :
  safe m (leaves s caps ms) ->
  (forall ms', holds ms' caps -> matchdepth ms' = matchdepth ms -> safe (k ms') (leaves s caps ms)) ->
  safe (r <- m ;;
        let '(res, ms) := r in
        match res with Some _ => Ret (res, ms) | None => k ms end) (leaves s caps ms).
Proof.
  intros Hm Hk. run_by (done). intros [[e|] ms'] [Hd Hl]; cbn in *; [by split|auto].
Qed.

Section Calls.
Context (rec : Z -> Z -> MatchState -> outcome (option Z * MatchState)) (d : Z).
Context (Hrec : safe_calls rec d).

Lemma max_count_safe fuel s p ep i :
  0 <= s <= zlen src -> 0 <= p < zlen pat -> ep <= zlen pat -> 0 <= i ->
  s + i <= zlen src -> zlen src - s - i < Z.of_nat fuel ->
  safe (max_count pat src fuel s p ep i) (fun n => 0 <= n /\ s + n <= zlen src).
Proof.
  revert i. induction fuel as [|n IH]; intros i Hs Hp Hep Hi Hsi Hf; [lia|]. cbn [max_count].
  run_by (apply singlematch_safe; lia). intros [|] Hb; [|cbn; lia].
  specialize (Hb eq_refl). apply IH; lia.
Qed.

Lemma max_try_safe n s ep caps ms :
  0 <= ep < zlen pat -> state_ok s caps ms -> matchdepth ms = d ->
  s + Z.of_nat n <= zlen src + 1 ->
  safe (max_try rec n s ep ms) (leaves s caps ms).
Proof.
  intros Hep. revert ms. induction n as [|n IH]; intros ms Hok Hd Hn; cbn [max_try].
  - by apply left_none.
  - apply safe_orelse.
    + pose proof (ok_source _ _ _ Hok).
      eapply safe_mono; [apply Hrec; [lia|eapply ok_forward; [done|lia]|done]|].
      intros r Hr. eapply (left_forward _ _ _ _ _ _ Hr); [lia|done].
    + intros ms' Hh' Hd'. eapply safe_mono; [apply IH; [by eapply ok_state|lia|lia]|].
      intros r Hr. eapply (left_forward _ _ _ _ _ _ Hr); [lia|done].
Qed.

Lemma max_expand_safe s p ep caps ms :
  0 <= p < zlen pat -> 0 <= ep < zlen pat -> state_ok s caps ms -> matchdepth ms = d ->
  safe (max_expand pat src rec s p ep ms) (leaves s caps ms).
Proof.
  intros Hp Hep Hok Hd. unfold max_expand. pose proof (ok_source _ _ _ Hok).
  run_by (apply max_count_safe; unfold zlen in *; lia). intros n [Hn Hsn].
  apply max_try_safe; done || lia.
Qed.

Lemma min_loop_safe fuel s p ep caps ms :
  0 <= p < zlen pat -> 0 <= ep < zlen pat -> state_ok s caps ms -> matchdepth ms = d ->
  zlen src - s < Z.of_nat fuel ->
  safe (min_loop pat src rec fuel s p ep ms) (leaves s caps ms).
Proof.
  intros Hp Hep. revert s ms. induction fuel as [|n IH]; intros s ms Hok Hd Hf.
  { pose proof (ok_source _ _ _ Hok). lia. }
  pose proof (ok_source _ _ _ Hok). cbn [min_loop]. apply safe_orelse.
  - apply Hrec; [lia|done|done].
  - intros ms' Hh' Hd'. run_by (apply singlematch_safe; lia).
    intros [|] Hb; [|by split]. specialize (Hb eq_refl).
    eapply safe_mono; [apply IH; [eapply ok_forward; [by eapply ok_state|lia]|lia|lia]|].
    intros r Hr. eapply (left_forward _ _ _ _ _ _ Hr); [lia|done].
Qed.

Lemma start_capture_safe s p what caps ms :
  what = CAP_UNFINISHED \/ what = CAP_POSITION ->
  0 <= p <= zlen pat -> state_ok s caps ms -> matchdepth ms = d ->
  safe (start_capture rec s p what ms) (leaves s caps ms).
Proof.
  intros Hw Hp [Hs Hh Hcaps Hlen] Hd. unfold start_capture, LUA_MAXCAPTURES.
  destruct (Z.leb_spec 32 (level ms)); [done|].
  eapply safe_step.
  - apply (Hrec s p (caps ++ [(s, what)])); [done| |done]. split; [done|by apply holds_push| |].
    + apply Forall_app. split; [done|]. constructor; [|done]. unfold wf_capture. cbn. intuition lia.
    + rewrite length_app. cbn. rewrite (proj1 Hh) in *. lia.
  - intros [[e|] ms'] [Hd' Hl]; cbn in *; [by split|]. split; [done|]. by eapply holds_pop.
Qed.

Lemma capture_to_close_safe s caps ms :
  state_ok s caps ms ->
  safe (capture_to_close ms) (fun l => exists pre c post, caps = pre ++ c :: post
    /\ l = Z.of_nat (length pre) /\ c.2 = CAP_UNFINISHED).
Proof.
  intros [Hs Hh Hcaps Hlen]. unfold capture_to_close. rewrite (proj1 Hh), Nat2Z.id.
  assert (forall n, (n <= length caps)%nat -> safe (close_loop ms n) (fun l =>
    exists pre c post, caps = pre ++ c :: post /\ l = Z.of_nat (length pre)
      /\ c.2 = CAP_UNFINISHED)) as H; [|by apply H].
  induction n as [|n IH]; intros Hn; [done|]. cbn [close_loop].
  destruct (lookup_lt_is_Some_2 caps n ltac:(lia)) as [c Hc]. rewrite (holds_get _ _ Hh _ _ Hc).
  cbn [outcome_bind]. destruct (Z.eqb_spec c.2 CAP_UNFINISHED); [|apply IH; lia].
  exists (take n caps), c, (drop (S n) caps). split_and!; [by rewrite take_drop_middle| |done].
  rewrite length_take. lia.
Qed.

Lemma end_capture_safe s p caps ms :
  0 <= p <= zlen pat -> state_ok s caps ms -> matchdepth ms = d ->
  safe (end_capture rec s p ms) (leaves s caps ms).
Proof.
  intros Hp Hok Hd. unfold end_capture.
  run_by (by eapply capture_to_close_safe). intros l (pre & c & post & Hcaps & -> & Hc).
  destruct Hok as [Hs Hh Hw Hlen].
  assert (caps !! length pre = Some c) as Hpre by (rewrite Hcaps; by apply list_lookup_middle).
  rewrite (holds_get _ _ Hh _ _ Hpre). cbn [outcome_bind].
  pose proof Hw as Hw'. rewrite Hcaps in Hw'. apply Forall_app in Hw' as [Hw1 Hw2].
  apply Forall_cons in Hw2 as [Hwc Hw2].
  eapply safe_step.
  - apply (Hrec s p (pre ++ (c.1, s - c.1) :: post)); [done| |done]. split; [done| | |].
    + by eapply holds_set.
    + apply Forall_app. split; [done|]. constructor; [|done]. destruct Hwc as [? _].
      unfold wf_capture. cbn. intuition lia.
    + rewrite Hcaps, length_app in Hlen. rewrite length_app. exact Hlen.
  - intros [[e|] ms'] [Hd' Hl]; cbn in *; [by split|].
    erewrite (holds_get ms' _ Hl (length pre)) by (by apply list_lookup_middle).
    cbn [outcome_bind fst]. split; [done|]. cbn. rewrite Hcaps. destruct c as [c1 c2]. cbn in *. subst c2.
    by eapply holds_set.
Qed.

Context (Hsrc : zlen src < 2 ^ 63).

Lemma match_capture_safe s l caps ms :
  state_ok s caps ms ->
  safe (match_capture src s l ms)
    (fun r => match r with Some e => s <= e <= zlen src | None => True end).
Proof.
  intros [Hs Hh Hw Hlen]. unfold match_capture, check_capture.
  destruct (Z.ltb_spec (l - ch "1"%char) 0); [done|].
  destruct (Z.leb_spec (level ms) (l - ch "1"%char)); [done|]. cbn [orb].
  destruct (lookup_lt_is_Some_2 caps (Z.to_nat (l - ch "1"%char))) as [c Hc].
  { rewrite (proj1 Hh) in *. lia. }
  pose proof (holds_get _ _ Hh _ _ Hc) as Hg. rewrite Z2Nat.id in Hg by done.
  rewrite Hg. cbn [outcome_bind]. destruct (Z.eqb_spec c.2 CAP_UNFINISHED); [done|].
  cbn [outcome_bind]. rewrite Hg. cbn [outcome_bind]. unfold src_end.
  rewrite Forall_lookup in Hw. destruct (Hw _ _ Hc) as [? [?|[Hp|[Hp ?]]]]; [done| |].
  - rewrite Hp. change (u64 CAP_POSITION) with (2 ^ 64 - 2).
    by rewrite (proj2 (Z.leb_gt (2 ^ 64 - 2) _)) by lia.
  - rewrite cast_u_id by (unfold in_u; lia). destruct (Z.leb_spec c.2 (zlen src - s)); [|done].
    rewrite !bytes_in by lia. cbn. case_bool_decide; [lia|done].
Qed.

Section Loop.
Context (again : Z -> Z -> MatchState -> outcome (option Z * MatchState)).
Context (p s : Z) (caps : captures) (ms : MatchState).
Context (Hok : state_ok s caps ms) (Hd : matchdepth ms = d) (Hp : 0 <= p < zlen pat).
(** [goto init], further on in the pattern. *)
Context (Hagain : forall s' p' ms', p < p' <= zlen pat -> s <= s' <= zlen src ->
  holds ms' caps -> matchdepth ms' = d -> safe (again s' p' ms') (leaves s caps ms)).

Lemma default_safe : safe (match_default pat src rec again s p ms) (leaves s caps ms).
Proof.
  pose proof (ok_source _ _ _ Hok) as Hs. pose proof (ok_holds _ _ _ Hok) as Hh.
  unfold match_default. run_by (apply classend_safe; lia). intros ep Hep.
  run_by (apply singlematch_safe; lia). intros b Hb. fetch x Hx.
  assert (x <> 0 -> ep < zlen pat) as Hlt by (intros; destruct (decide (ep = zlen pat)) as [E|]; [by apply Hx in E|lia]).
  assert (state_ok s caps ms -> b = true -> state_ok (s + 1) caps ms) as Hok'.
  { intros _ Hb'. eapply ok_forward; [done|]. specialize (Hb Hb'). lia. }
  destruct b; cbn [negb]; [specialize (Hb eq_refl)|].
  - destruct (Z.eqb_spec x (ch "?"%char)) as [->|_].
    { apply safe_orelse; [|intros; apply Hagain; try done; lia].
      eapply safe_mono; [apply Hrec; [lia|by apply Hok'|done]|].
      intros r Hr. eapply (left_forward _ _ _ _ _ _ Hr); [lia|done]. }
    destruct (Z.eqb_spec x (ch "+"%char)) as [->|_].
    { eapply safe_mono; [apply max_expand_safe; [done|lia|by apply Hok'|done]|].
      intros r Hr. eapply (left_forward _ _ _ _ _ _ Hr); [lia|done]. }
    destruct (Z.eqb_spec x (ch "*"%char)) as [->|_]; [apply max_expand_safe; done || lia|].
    destruct (Z.eqb_spec x (ch "-"%char)) as [->|_]; [|apply Hagain; done || lia].
    run_by (by apply hyphen_safe). intros [|] _; [apply Hagain; done || lia|].
    apply min_loop_safe; unfold zlen in *; done || lia.
  - eapply (safe_step _ _ (fun e => e = true -> ep < zlen pat)).
    + destruct (Z.eqb_spec x (ch "*"%char)) as [->|_]; [intros _; by apply Hlt|].
      destruct (Z.eqb_spec x (ch "?"%char)) as [->|_]; [intros _; by apply Hlt|]. cbn [orb].
      destruct (Z.eqb_spec x (ch "-"%char)) as [->|_]; [|done].
      run_by (by apply hyphen_safe). intros w _ _. by apply Hlt.
    + intros [|] He; [|by apply left_none]. specialize (He eq_refl). apply Hagain; done || lia.
Qed.

(** The result of a routine that only moves the source pointer. *)
Lemma moved_safe m q :
  safe m (fun r => match r with Some e => s <= e <= zlen src | None => True end /\ q <= zlen pat) ->
  p < q ->
  safe (r <- m ;; match r with Some s => again s q ms | None => Ret (None, ms) end) (leaves s caps ms).
Proof.
  intros Hm Hq. run_by (exact Hm). intros [e|] [He Hq']; [|by apply left_none].
  apply Hagain; try done. by destruct Hok.
Qed.
End Loop.

Lemma loop_safe fuel s p caps ms :
  zlen pat - p < Z.of_nat fuel -> 0 <= p <= zlen pat -> state_ok s caps ms -> matchdepth ms = d ->
  safe (match_loop pat src rec fuel s p ms) (leaves s caps ms).
Proof.
  revert s p ms. induction fuel as [|f IH]; intros s p ms Hf Hp Hok Hd; [lia|].
  cbn [match_loop]. unfold p_end. pose proof (ok_source _ _ _ Hok) as Hs.
  destruct (Z.eqb_spec p (zlen pat)); [apply left_here; done || lia|].
  assert (forall s' p' ms', p < p' <= zlen pat -> s <= s' <= zlen src -> holds ms' caps ->
    matchdepth ms' = d -> safe (match_loop pat src rec f s' p' ms') (leaves s caps ms)) as Hagain.
  { intros s' p' ms' Hp' Hs' Hh' Hd'.
    eapply safe_mono; [apply IH; [lia|lia|eapply ok_forward; [by eapply ok_state|done]|done]|].
    intros r Hr. eapply (left_forward _ _ _ _ _ _ Hr); [lia|lia]. }
  pose proof (default_safe (match_loop pat src rec f) p s caps ms Hok Hd ltac:(lia) Hagain) as Hdflt.
  fetch x Hx. fetch y Hy.
  destruct (Z.eqb_spec x (ch "("%char)) as [->|_].
  { destruct (Z.eqb_spec y (ch ")"%char)) as [->|_]; apply start_capture_safe; auto; [|lia].
    assert (p + 1 <> zlen pat) by (intros E; by apply Hy in E). lia. }
  destruct (x =? ch ")"%char); [apply end_capture_safe; done || lia|].
  destruct (x =? ch "$"%char).
  { destruct (p + 1 =? zlen pat); cbn [negb]; [|done]. cbn.
    destruct (s =? src_end src); [apply left_here; done || lia|by apply left_none]. }
  destruct (x =? L_ESC); [|done].
  assert (y <> 0 -> p + 2 <= zlen pat) as Hy' by
    (intros; destruct (decide (p + 1 = zlen pat)) as [E|]; [by apply Hy in E|lia]).
  destruct (Z.eqb_spec y (ch "b"%char)) as [->|_].
  { eapply moved_safe; [done..| |lia]. eapply safe_mono; [apply matchbalance_safe; lia|].
    intros [e|] [? ?]; (split; [done || lia|lia]). }
  destruct (Z.eqb_spec y (ch "f"%char)) as [->|_].
  { specialize (Hy' ltac:(done)). fetch z Hz.
    destruct (Z.eqb_spec z (ch "["%char)) as [->|_]; cbn [guard_or]; [|done].
    assert (p + 2 <> zlen pat) by (intros E; by apply Hz in E).
    run_by (apply classend_safe; lia). intros ep Hep.
    apply (safe_step _ _ (fun _ => True)).
    { destruct (Z.eqb_spec s 0); [done|]. fetch c Hc. done. }
    intros previous _. run_by (apply matchbracketclass_safe; lia). intros [|] _; [by apply left_none|].
    cbn [negb]. fetch c Hc. run_by (apply matchbracketclass_safe; lia).
    intros [|] _; [apply Hagain; destruct Hok; done || lia|by apply left_none]. }
  destruct (isdigit y) eqn:Hdigit; [|done].
  eapply moved_safe; [done..| |lia]. eapply safe_mono; [by eapply match_capture_safe|].
  intros r Hr. split; [done|]. apply Hy'. by intros ->.
Qed.
End Calls.

Context (Hsrc : zlen src < 2 ^ 63).

Lemma do_match_safe fuel d : 0 <= d < Z.of_nat fuel -> safe_calls (do_match pat src fuel) d.
Proof.
  revert d. induction fuel as [|f IH]; intros d Hd s p caps ms Hp Hok Hm; [lia|]. cbn [do_match].
  destruct (Z.eqb_spec (matchdepth ms) 0); [done|].
  eapply safe_step.
  - apply (loop_safe (do_match pat src f) (d - 1)) with (caps := caps);
      [apply IH; lia|done|unfold zlen in *; lia|done|by destruct Hok|cbn; lia].
  - intros [res ms'] [Hd' Hl]. cbn in *. split; cbn; [lia|]. by destruct res.
Qed.

(** A match from a position, on any pattern. *)
Lemma match_at_safe s ms :
  0 <= s <= zlen src -> level ms = 0 -> matchdepth ms = LUAI_MAXCCALLS ->
  safe (match_at pat src s ms) (leaves s [] ms).
Proof.
  intros Hs Hl Hd. apply (do_match_safe _ LUAI_MAXCCALLS); [unfold LUAI_MAXCCALLS; lia| | |done].
  - unfold zlen. lia.
  - split; [done| |done|cbn; lia]. split; [done|]. intros i c Hi. done.
Qed.
End Safe.
