(* ===== verification/StrLib.v ===== *)
(** The string library, [VM/src/lstrlib.cpp], but for [string.format] and the
    packing functions: substrings, bytes, repetition, splitting, and the
    functions that search with the pattern matcher of [Pattern.v].

    Strings have at most [MAXSSIZE] bytes, so a length is an [int].  Pointers are
    indices and are compared as such.  The Lua function that [string.gsub] calls,
    and a table access with its metamethods, are parameters that may change the
    world [W]; the strings they are given cannot change.  Loops over a string take
    its length as fuel. *)
From Stdlib Require Import Ascii.
From stdpp Require Import gmap pretty.
From S2P Require Import Prelude Word Double LuaApi Tm Arith Key TableNode Table TabLib Pattern.
Open Scope Z_scope.
Open Scope outcome_scope.

Definition MAXSSIZE : Z := 2 ^ 30.

Definition luaL_checkstack (top space : Z) (mes : string) : outcome unit :=
  if lua_checkstack top space then Ret tt
  else luaL_error ("stack overflow (" +:+ mes +:+ ")").

Definition posrelat (pos len : Z) : Z :=
  let pos := if pos <? 0 then pos + (len + 1) else pos in
  if 0 <=? pos then pos else 0.

Section Basic.
Context `{VecSize, Target, NumFormat}.

Definition str_len (args : list TValue) : outcome (list TValue) :=
  s <- luaL_checklstring args 1 ;;
  Ret [lua_pushinteger (zlen s)].

Definition str_sub (args : list TValue) : outcome (list TValue) :=
  s <- luaL_checklstring args 1 ;;
  let l := zlen s in
  start <- luaL_checkinteger args 2 ;;
  let start := posrelat start l in
  e <- luaL_optinteger args 3 (-1) ;;
  let e := posrelat e l in
  let start := if start <? 1 then 1 else start in
  let e := if l <? e then l else e in
  if start <=? e then r <- bytes s (start - 1) (e - start + 1) ;; Ret [LString r]
  else Ret [LString []].

(** The loop [while (l--)]. *)
Fixpoint reverse_loop (s : list Z) (l : nat) : outcome (list Z) :=
  match l with
  | O => Ret []
  | S l => c <- cget s (Z.of_nat l) ;; r <- reverse_loop s l ;; Ret (c :: r)
  end.

Definition str_reverse (args : list TValue) : outcome (list TValue) :=
  s <- luaL_checklstring args 1 ;;
  r <- reverse_loop s (length s) ;;
  Ret [LString r].

Definition str_lower (args : list TValue) : outcome (list TValue) :=
  s <- luaL_checklstring args 1 ;; Ret [LString (map tolower s)].

Definition str_upper (args : list TValue) : outcome (list TValue) :=
  s <- luaL_checklstring args 1 ;; Ret [LString (map toupper s)].

(** The loop of [str_rep]: [b] is what is written so far. *)
Fixpoint rep_loop (fuel : nat) (b : list Z) (remaining step : Z) : outcome (list Z * Z) :=
  match fuel with
  | O => Undefined "endless repetition"
  | S f =>
      if step <? remaining then
        c <- bytes b 0 step ;; rep_loop f (b ++ c) (remaining - step) (shl_u 64 step 1)
      else Ret (b, remaining)
  end.

Definition str_rep (args : list TValue) : outcome (list TValue) :=
  s <- luaL_checklstring args 1 ;;
  n <- luaL_checkinteger args 2 ;;
  let l := zlen s in
  if n <=? 0 then Ret [LString []]
  else if MAXSSIZE / n <? l then luaL_error "resulting string too large"
  else
    let remaining := l * n in
    let step := l in
    let remaining := remaining - l in
    r <- rep_loop 64 s remaining step ;;
    let '(b, remaining) := r in
    c <- bytes b 0 remaining ;;
    Ret [LString (b ++ c)].

Definition str_byte (args : list TValue) : outcome (list TValue) :=
  s <- luaL_checklstring args 1 ;;
  let l := zlen s in
  posi <- luaL_optinteger args 2 1 ;;
  let posi := posrelat posi l in
  pose <- luaL_optinteger args 3 posi ;;
  let pose := posrelat pose l in
  let posi := if posi <=? 0 then 1 else posi in
  let pose := if l <? pose then l else pose in
  if pose <? posi then Ret []
  else
    let n := pose - posi + 1 in
    if posi + n <=? pose then luaL_error "string slice too long"
    else
      luaL_checkstack (lua_gettop args) n "string slice too long" ;;;
      r <- bytes s (posi - 1) n ;;
      Ret (map lua_pushinteger r).

(** The loop over the arguments [i, ..., i + n - 1]. *)
Fixpoint char_loop (args : list TValue) (n : nat) (i : Z) : outcome (list Z) :=
  match n with
  | O => Ret []
  | S n =>
      c <- luaL_checkinteger args i ;;
      luaL_argcheck (u8 c =? c) i "invalid value" ;;;
      r <- char_loop args n (i + 1) ;;
      Ret (u8 c :: r)
  end.

Definition str_char (args : list TValue) : outcome (list TValue) :=
  r <- char_loop args (length args) 1 ;; Ret [LString r].

(** * split *)

(** [lua_settable(L, -3)] with the next number as the key *)
Definition push_span (t : LuaTable) (k : Z) (s : list Z) : outcome LuaTable :=
  p <- luaH_set t (LNumber (double_of_Z k)) ;;
  let '(t, slot) := p in Ret (setslot t slot (LString s)).

(** The loop from [iter]: the table, its length, and where the last span begins. *)
Fixpoint split_loop (fuel : nat) (haystack needle : list Z) (iter spanStart numMatches : Z)
    (t : LuaTable) : outcome (LuaTable * Z * Z) :=
  match fuel with
  | O => Undefined "endless split"
  | S f =>
      if iter <=? zlen haystack - zlen needle then
        h <- bytes haystack iter (zlen needle) ;;
        if bool_decide (h = needle) then
          let numMatches := numMatches + 1 in
          s <- bytes haystack spanStart (iter - spanStart) ;;
          t <- push_span t numMatches s ;;
          let spanStart := iter + zlen needle in
          let iter := if 0 <? zlen needle then iter + (zlen needle - 1) else iter in
          split_loop f haystack needle (iter + 1) spanStart numMatches t
        else split_loop f haystack needle (iter + 1) spanStart numMatches t
      else Ret (t, numMatches, spanStart)
  end.

(** The result is the new table. *)
Definition str_split (args : list TValue) : outcome LuaTable :=
  haystack <- luaL_checklstring args 1 ;;
  needle <- luaL_optlstring args 2 (chars ",") ;;
  t <- luaH_new 0 0 ;;
  let begin := if zlen needle =? 0 then 1 else 0 in
  r <- split_loop (S (S (length haystack))) haystack needle begin 0 0 t ;;
  let '(t, numMatches, spanStart) := r in
  if 0 <? zlen needle then
    s <- bytes haystack spanStart (zlen haystack - spanStart) ;;
    push_span t (numMatches + 1) s
  else Ret t.
End Basic.

(** * Plain searches *)

(** [memchr(b + i, c, n)] *)
Fixpoint memchr (b : list Z) (c i : Z) (n : nat) : outcome (option Z) :=
  match n with
  | O => Ret None
  | S n => x <- cget b i ;; if x =? c then Ret (Some i) else memchr b c (i + 1) n
  end.

(** The loop of [lmemfind]; [l2] is already decremented. *)
Fixpoint memfind_loop (fuel : nat) (b : list Z) (s1 l1 : Z) (s2 : list Z) (l2 : Z)
    : outcome (option Z) :=
  match fuel with
  | O => Undefined "endless search"
  | S f =>
      if 0 <? l1 then
        c <- cget s2 0 ;;
        r <- memchr b c s1 (Z.to_nat l1) ;;
        match r with
        | None => Ret None
        | Some init =>
            let init := init + 1 in
            x <- bytes b init l2 ;;
            y <- bytes s2 1 l2 ;;
            if bool_decide (x = y) then Ret (Some (init - 1))
            else memfind_loop f b init (l1 - (init - s1)) s2 l2
        end
      else Ret None
  end.

(** A search for [s2] in the [l1] bytes of [b] from [s1] on. *)
Definition lmemfind (b : list Z) (s1 l1 : Z) (s2 : list Z) : outcome (option Z) :=
  let l2 := zlen s2 in
  if l2 =? 0 then Ret (Some s1)
  else if l1 <? l2 then Ret None
  else memfind_loop (S (Z.to_nat l1)) b s1 (l1 - (l2 - 1)) s2 (l2 - 1).

Definition SPECIALS : list Z := Eval vm_compute in chars "^$*+?.([%-".

(** [strlen(b + i)], and [strpbrk(b + i, SPECIALS)]: the bytes before a zero *)
Fixpoint c_bytes (l : list Z) : list Z :=
  match l with
  | c :: l => if c =? 0 then [] else c :: c_bytes l
  | [] => []
  end.

Definition cstr (b : list Z) (i : Z) : outcome (list Z) :=
  cget b i ;;; Ret (c_bytes (drop (Z.to_nat i) b)).

(** The loop [do ... while (upto <= l)]. *)
Fixpoint nospecials_loop (fuel : nat) (p : list Z) (upto : Z) : outcome bool :=
  match fuel with
  | O => Undefined "endless search"
  | S f =>
      s <- cstr p upto ;;
      if existsb (fun c => bool_decide (c ∈ SPECIALS)) s then Ret false
      else
        let upto := upto + (zlen s + 1) in
        if upto <=? zlen p then nospecials_loop f p upto else Ret true
  end.

Definition nospecials (p : list Z) : outcome bool := nospecials_loop (S (S (length p))) p 0.

(** * Captures as results *)

Section Search.
Context `{Target, NumFormat}.

(** [se] is the whole match, from [s] to [e]; [None] when [s] is NULL. *)
Definition push_onecapture (src : list Z) (ms : MatchState) (i : Z) (se : option (Z * Z))
    : outcome TValue :=
  if level ms <=? i then
    if i =? 0 then
      match se with
      | Some (s, e) => r <- bytes src s (e - s) ;; Ret (LString r)
      | None => Undefined "NULL is dereferenced"
      end
    else luaL_error "invalid capture index"
  else
    c <- get_capture ms i ;;
    let '(init, l) := c in
    if l =? CAP_UNFINISHED then luaL_error "unfinished capture"
    else if l =? CAP_POSITION then Ret (lua_pushinteger (init + 1))
    else r <- bytes src init l ;; Ret (LString r).

(** The loop over the captures [i, ..., i + n - 1]. *)
Fixpoint push_loop (src : list Z) (ms : MatchState) (se : option (Z * Z)) (n : nat) (i : Z)
    : outcome (list TValue) :=
  match n with
  | O => Ret []
  | S n =>
      v <- push_onecapture src ms i se ;;
      r <- push_loop src ms se n (i + 1) ;;
      Ret (v :: r)
  end.

(** [top] is the number of values on the stack. *)
Definition push_captures (top : Z) (src : list Z) (ms : MatchState) (se : option (Z * Z))
    : outcome (list TValue) :=
  let nlevels := if (level ms =? 0) && bool_decide (is_Some se) then 1 else level ms in
  luaL_checkstack top nlevels "too many captures" ;;;
  push_loop src ms se (Z.to_nat nlevels) 0.

(** * find and match *)

Definition lua_toboolean (args : list TValue) (idx : Z) : bool :=
  match index2addr args idx with Some v => negb (l_isfalse v) | None => false end.

(** The loop [do ... while (s1++ < ms.src_end && !anchor)]: the place and the end
    of the first match. *)
Fixpoint find_loop (fuel : nat) (pat src : list Z) (anchor : bool) (s1 : Z) (ms : MatchState)
    : outcome (option (Z * Z) * MatchState) :=
  match fuel with
  | O => Undefined "endless search"
  | S f =>
      r <- match_at pat src s1 (reprepstate ms) ;;
      let '(res, ms) := r in
      match res with
      | Some e => Ret (Some (s1, e), ms)
      | None =>
          if (s1 <? src_end src) && negb anchor then find_loop f pat src anchor (s1 + 1) ms
          else Ret (None, ms)
      end
  end.

(** [*p == '^'], and the pattern behind it. *)
Definition anchored (p : list Z) : bool * list Z :=
  match p with
  | c :: p' => if c =? ch "^"%char then (true, p') else (false, p)
  | [] => (false, p)
  end.

Definition str_find_aux (find : bool) (args : list TValue) : outcome (list TValue) :=
  s <- luaL_checklstring args 1 ;;
  p <- luaL_checklstring args 2 ;;
  let ls := zlen s in
  let lp := zlen p in
  init <- luaL_optinteger args 3 1 ;;
  let init := posrelat init ls in
  let init1 := if init <? 1 then 1 else init in
  if (1 <=? init) && (ls + 1 <? init) then Ret [LNil]
  else
    plain <- (if find then
                if lua_toboolean args 4 then Ret true else nospecials p
              else Ret false) ;;
    if plain : bool then
      r <- lmemfind s (init1 - 1) (ls - init1 + 1) p ;;
      match r with
      | Some s2 => Ret [lua_pushinteger (s2 + 1); lua_pushinteger (s2 + lp)]
      | None => Ret [LNil]
      end
    else
      let '(anchor, p) := anchored p in
      r <- find_loop (S (S (length s))) p s anchor (init1 - 1) prepstate ;;
      let '(res, ms) := r in
      match res with
      | Some (s1, e) =>
          if find then
            caps <- push_captures (lua_gettop args + 2) s ms None ;;
            Ret (lua_pushinteger (s1 + 1) :: lua_pushinteger e :: caps)
          else push_captures (lua_gettop args) s ms (Some (s1, e))
      | None => Ret [LNil]
      end.

Definition str_find : list TValue -> outcome (list TValue) := str_find_aux true.
Definition str_match : list TValue -> outcome (list TValue) := str_find_aux false.

(** * gmatch *)

(** The upvalues of the iterator. *)
Record gmatch_closure := { gm_s : list Z; gm_p : list Z; gm_start : Z }.

(** The loop [for (src = ...; src <= ms.src_end; src++)]. *)
Fixpoint gmatch_loop (fuel : nat) (pat s : list Z) (src : Z) (ms : MatchState)
    : outcome (option (Z * Z) * MatchState) :=
  match fuel with
  | O => Undefined "endless search"
  | S f =>
      if src <=? src_end s then
        r <- match_at pat s src (reprepstate ms) ;;
        let '(res, ms) := r in
        match res with
        | Some e => Ret (Some (src, e), ms)
        | None => gmatch_loop f pat s (src + 1) ms
        end
      else Ret (None, ms)
  end.

(** A call of the iterator: its results, and its upvalues. *)
Definition gmatch_aux (c : gmatch_closure) : outcome (list TValue * gmatch_closure) :=
  r <- gmatch_loop (S (S (length (gm_s c)))) (gm_p c) (gm_s c) (gm_start c) prepstate ;;
  let '(res, ms) := r in
  match res with
  | Some (src, e) =>
      let newstart := if e =? src then e + 1 else e in
      caps <- push_captures 0 (gm_s c) ms (Some (src, e)) ;;
      Ret (caps, {| gm_s := gm_s c; gm_p := gm_p c; gm_start := newstart |})
  | None => Ret ([], c)
  end.

Definition gmatch (args : list TValue) : outcome gmatch_closure :=
  s <- luaL_checklstring args 1 ;;
  p <- luaL_checklstring args 2 ;;
  Ret {| gm_s := s; gm_p := p; gm_start := 0 |}.

(** * gsub *)

(** The bytes of a value that is a string or a number: [luaL_addvalue]. *)
Definition value_text (v : TValue) : outcome (list Z) :=
  match v with
  | LString s => Ret s
  | LNumber n => Ret (luai_num2str n)
  | _ => Undefined "a value that is no string"
  end.

(** The loop of [add_s] from [i], [n] bytes to the end of [news]. *)
Fixpoint add_s_loop (fuel : nat) (src : list Z) (ms : MatchState) (news : list Z) (s e i : Z)
    (b : list Z) : outcome (list Z) :=
  match fuel with
  | O => Undefined "endless replacement"
  | S f =>
      if i <? zlen news then
        c <- cget news i ;;
        if negb (c =? L_ESC) then add_s_loop f src ms news s e (i + 1) (b ++ [c])
        else
          let i := i + 1 in
          c <- cget news i ;;
          if negb (isdigit c) then
            if negb (c =? L_ESC) then luaL_error "invalid use of '%' in replacement string"
            else add_s_loop f src ms news s e (i + 1) (b ++ [c])
          else if c =? ch "0"%char then
            r <- bytes src s (e - s) ;; add_s_loop f src ms news s e (i + 1) (b ++ r)
          else
            v <- push_onecapture src ms (c - ch "1"%char) (Some (s, e)) ;;
            r <- value_text v ;;
            add_s_loop f src ms news s e (i + 1) (b ++ r)
      else Ret b
  end.

Definition add_s (src : list Z) (ms : MatchState) (news : list Z) (s e : Z) (b : list Z)
    : outcome (list Z) :=
  add_s_loop (S (length news)) src ms news s e 0 b.

(** The world, a call of a Lua function with one result, and [lua_gettable]. *)
Variable W : Type.
Variable objects : W -> heap.
Variable call : TValue -> list TValue -> W -> outcome (TValue * W).
Variable gettable : TValue -> TValue -> W -> outcome (TValue * W).

(** What [add_value] does with the result [v] of a call or an access. *)
Definition add_result (src : list Z) (w : W) (v : TValue) (s e : Z) (b : list Z)
    : outcome (list Z * W) :=
  if l_isfalse v then r <- bytes src s (e - s) ;; Ret (b ++ r, w)
  else
    match v with
    | LString _ | LNumber _ => r <- value_text v ;; Ret (b ++ r, w)
    | _ => luaL_error ("invalid replacement value (a "
                         +:+ c_string (luaT_objtypename (objects w) v) +:+ ")")
    end.

(** [repl] is the third argument, [top] the number of values on the stack. *)
Definition add_value (top : Z) (src : list Z) (ms : MatchState) (repl : TValue) (s e : Z)
    (b : list Z) (w : W) : outcome (list Z * W) :=
  match repl with
  | LFunction _ =>
      caps <- push_captures (top + 1) src ms (Some (s, e)) ;;
      r <- call repl caps w ;; let '(v, w) := r in add_result src w v s e b
  | LTable _ =>
      k <- push_onecapture src ms 0 (Some (s, e)) ;;
      r <- gettable repl k w ;; let '(v, w) := r in add_result src w v s e b
  | _ =>
      news <- value_text repl ;;
      b <- add_s src ms news s e b ;; Ret (b, w)
  end.

(** The loop [while (n < max_s)]: the text so far, the rest of the source, the
    number of substitutions. *)
Fixpoint gsub_loop (fuel : nat) (top : Z) (pat src : list Z) (anchor : bool) (repl : TValue)
    (max_s s n : Z) (ms : MatchState) (b : list Z) (w : W) : outcome (list Z * Z * Z * W) :=
  match fuel with
  | O => Undefined "endless substitution"
  | S f =>
      if n <? max_s then
        r <- match_at pat src s (reprepstate ms) ;;
        let '(e, ms) := r in
        r <- (match e with
              | Some e => r <- add_value top src ms repl s e b w ;; let '(b, w) := r in Ret (n + 1, b, w)
              | None => Ret (n, b, w)
              end) ;;
        let '(n, b, w) := r in
        let moved := match e with Some e => s <? e | None => false end in
        if moved then
          let s := default s e in
          if anchor then Ret (b, s, n, w)
          else gsub_loop f top pat src anchor repl max_s s n ms b w
        else if s <? src_end src then
          c <- cget src s ;;
          let b := b ++ [c] in
          let s := s + 1 in
          if anchor then Ret (b, s, n, w)
          else gsub_loop f top pat src anchor repl max_s s n ms b w
        else Ret (b, s, n, w)
      else Ret (b, s, n, w)
  end.

Definition str_gsub (args : list TValue) (w : W) : outcome (list TValue * W) :=
  src <- luaL_checklstring args 1 ;;
  p <- luaL_checklstring args 2 ;;
  max_s <- luaL_optinteger args 4 (zlen src + 1) ;;
  match index2addr args 3 with
  | Some ((LNumber _ | LString _ | LFunction _ | LTable _) as repl) =>
      let '(anchor, pat) := anchored p in
      r <- gsub_loop (S (S (length src))) (lua_gettop args) pat src anchor repl max_s 0 0 prepstate
             [] w ;;
      let '(b, s, n, w) := r in
      c <- bytes src s (zlen src - s) ;;
      Ret ([LString (b ++ c); lua_pushinteger n], w)
  | _ => Throw (TypeError 3 "string/function/table")
  end.
End Search.
