(* ===== verification/StrSpec.v ===== *)
(** Searches of the string library, [StrLib.v]: the first occurrence of a plain
    text, the first match of a pattern, and that a pattern without special
    characters is searched for as a plain text with the same result. *)
From Stdlib Require Import Ascii.
From stdpp Require Import gmap.
From S2P Require Import Prelude Word Double LuaApi Tm Arith Key TableNode Table TabLib.
From S2P Require Import Pattern PatternSpec PatternMatch PatternSafe StrLib.
Open Scope Z_scope.
Open Scope outcome_scope.

(** * The first index with a property *)

(** Among the [n] indices from [s] on. *)
Fixpoint find_first (f : Z -> bool) (s : Z) (n : nat) : option Z :=
  match n with
  | O => None
  | S n => if f s then Some s else find_first f (s + 1) n
  end.

Definition is_first (f : Z -> bool) (s : Z) (n : nat) (r : option Z) : Prop :=
  match r with
  | Some k => s <= k < s + Z.of_nat n /\ f k = true /\ forall j, s <= j < k -> f j = false
  | None => forall j, s <= j < s + Z.of_nat n -> f j = false
  end.

Lemma find_first_spec f s n : is_first f s n (find_first f s n).
Proof.
  revert s. induction n as [|n IH]; intros s; cbn; [lia|].
  destruct (f s) eqn:Hs; [cbn; split_and!; try lia; done|].
  specialize (IH (s + 1)). unfold is_first in *. destruct (find_first f (s + 1) n) as [k|].
  - destruct IH as (Hk & Hf & Hj). split_and!; [lia|lia|done|]. intros j Hjk.
    destruct (decide (j = s)) as [->|]; [done|]. apply Hj. lia.
  - intros j Hj. destruct (decide (j = s)) as [->|]; [done|]. apply IH. lia.
Qed.

Lemma is_first_unique f s n r : is_first f s n r -> r = find_first f s n.
Proof.
  intros Hr. pose proof (find_first_spec f s n) as Hf. unfold is_first in *.
  destruct r as [k|], (find_first f s n) as [k'|]; try done.
  - destruct Hr as (? & Hk & Hl), Hf as (? & Hk' & Hl'). f_equal.
    destruct (Z.lt_trichotomy k k') as [?|[?|?]]; [|done|].
    + rewrite Hl' in Hk by lia. done.
    + rewrite Hl in Hk' by lia. done.
  - destruct Hr as (? & Hk & _). by rewrite Hf in Hk by lia.
  - destruct Hf as (? & Hk & _). by rewrite Hr in Hk by lia.
Qed.

Lemma find_first_ext f g s n :
  (forall j, s <= j < s + Z.of_nat n -> f j = g j) -> find_first f s n = find_first g s n.
Proof.
  revert s. induction n as [|n IH]; intros s Hfg; cbn; [done|].
  rewrite (Hfg s), (IH (s + 1)) by (intros; apply Hfg; lia) || lia. done.
Qed.

(** Indices behind that have not the property change nothing. *)
Lemma find_first_shorter f s n m :
  (n <= m)%nat -> (forall j, s + Z.of_nat n <= j -> f j = false) ->
  find_first f s m = find_first f s n.
Proof.
  intros Hnm Hf. symmetry. apply is_first_unique.
  pose proof (find_first_spec f s n) as H. unfold is_first in *. destruct (find_first f s n) as [k|].
  - intuition lia.
  - intros j Hj. destruct (Z.lt_ge_cases j (s + Z.of_nat n)); [apply H; lia|by apply Hf].
Qed.

(** * Plain searches *)

Definition occurs (b t : list Z) (k : Z) : bool :=
  (0 <=? k) && (k + zlen t <=? zlen b) && bool_decide (slice b k (zlen t) = t).

Lemma cget_nth b i : 0 <= i <= zlen b -> cget b i = Ret (nth (Z.to_nat i) b 0).
Proof.
  intros. unfold cget. by rewrite (proj2 (Z.leb_le 0 i)), (proj2 (Z.leb_le i _)) by lia.
Qed.

Lemma memchr_spec b c i n :
  0 <= i -> i + Z.of_nat n <= zlen b + 1 ->
  memchr b c i n = Ret (find_first (fun k => nth (Z.to_nat k) b 0 =? c) i n).
Proof.
  revert i. induction n as [|n IH]; intros i Hi Hn; cbn; [done|].
  rewrite cget_nth by lia. cbn [outcome_bind]. case_match; [done|]. apply IH; lia.
Qed.

(** An occurrence is its first byte and the others. *)
Lemma slice_cons b k n : 0 <= k -> 0 <= n -> k + n < zlen b ->
  slice b k (n + 1) = nth (Z.to_nat k) b 0 :: slice b (k + 1) n.
Proof.
  intros. unfold slice. replace (Z.to_nat (n + 1)) with (S (Z.to_nat n)) by lia.
  rewrite (Z2Nat.inj_add k 1), <- drop_drop by lia.
  destruct (drop (Z.to_nat k) b) as [|x l] eqn:Hd.
  { apply (f_equal length) in Hd. rewrite length_drop in Hd. unfold zlen in *. cbn in Hd. lia. }
  rewrite <- hd_drop, Hd. done.
Qed.

Lemma occurs_cons b c t k :
  occurs b (c :: t) k = true <->
  0 <= k /\ k + 1 + zlen t <= zlen b /\ nth (Z.to_nat k) b 0 = c /\ slice b (k + 1) (zlen t) = t.
Proof.
  unfold occurs. rewrite zlen_cons, !andb_true_iff, Z.leb_le, Z.leb_le, bool_decide_eq_true.
  pose proof (zlen_nonneg t). split.
  - intros [[? ?] Hs]. rewrite slice_cons in Hs by lia. injection Hs as Hc Ht.
    split_and!; [lia|lia|done|done].
  - intros (? & ? & Hc & Ht). split; [lia|]. rewrite slice_cons by lia. congruence.
Qed.

Lemma memfind_loop_spec fuel b s1 l1 c t :
  0 <= s1 -> 0 <= l1 -> s1 + l1 + zlen t <= zlen b -> (Z.to_nat l1 < fuel)%nat ->
  memfind_loop fuel b s1 l1 (c :: t) (zlen t)
  = Ret (find_first (occurs b (c :: t)) s1 (Z.to_nat l1)).
Proof.
  revert s1 l1. induction fuel as [|f IH]; intros s1 l1 Hs Hl Hb Hf; [lia|]. cbn [memfind_loop].
  pose proof (zlen_nonneg t). destruct (Z.ltb_spec 0 l1).
  2:{ by replace l1 with 0 by lia. }
  rewrite cget_nth by (rewrite zlen_cons; lia). cbn [Z.to_nat nth outcome_bind].
  rewrite memchr_spec by lia. cbn [outcome_bind].
  pose proof (find_first_spec (fun k => nth (Z.to_nat k) b 0 =? c) s1 (Z.to_nat l1)) as Hm.
  destruct (find_first _ s1 _) as [i|]; cbn [is_first] in Hm.
  - destruct Hm as (Hi & Hc & Hless). apply Z.eqb_eq in Hc.
    rewrite bytes_in by lia. rewrite (bytes_in (c :: t)) by (rewrite ?zlen_cons; lia).
    cbn [outcome_bind].
    assert (slice (c :: t) 1 (zlen t) = t) as ->.
    { unfold slice, zlen. cbn [Z.to_nat Pos.to_nat]. change (Z.to_nat 1) with 1%nat.
      rewrite Nat2Z.id. cbn. apply firstn_all. }
    assert (forall j, s1 <= j < i -> occurs b (c :: t) j = false) as Hbefore.
    { intros j Hj. apply not_true_iff_false. intros (_ & _ & Hjc & _)%occurs_cons.
      specialize (Hless j Hj). lia. }
    case_bool_decide as Heq.
    + f_equal. replace (i + 1 - 1) with i by lia. apply is_first_unique. cbn.
      split_and!; [lia|lia| |done]. apply occurs_cons. split_and!; [lia|lia|done|done].
    + rewrite IH by lia. f_equal. apply is_first_unique.
      pose proof (find_first_spec (occurs b (c :: t)) (i + 1) (Z.to_nat (l1 - (i + 1 - s1)))) as Hn.
      assert (occurs b (c :: t) i = false) as Hi'.
      { apply not_true_iff_false. by intros (_ & _ & _ & ?)%occurs_cons. }
      assert (forall j, s1 <= j < i + 1 -> occurs b (c :: t) j = false) as Hupto.
      { intros j Hj. destruct (decide (j = i)) as [->|]; [done|]. apply Hbefore. lia. }
      unfold is_first in *. destruct (find_first _ (i + 1) _).
      * destruct Hn as (? & ? & Hj). split_and!; [lia|lia|done|]. intros j Hj'.
        destruct (Z.lt_ge_cases j (i + 1)); [apply Hupto|apply Hj]; lia.
      * intros j Hj'. destruct (Z.lt_ge_cases j (i + 1)); [apply Hupto|apply Hn]; lia.
  - f_equal. apply is_first_unique. intros j Hj. apply not_true_iff_false.
    intros (_ & _ & Hjc & _)%occurs_cons. specialize (Hm j Hj). lia.
Qed.

(** [lmemfind] finds the first occurrence. *)
Lemma lmemfind_spec b s t :
  0 <= s <= zlen b ->
  lmemfind b s (zlen b - s) t = Ret (find_first (occurs b t) s (S (Z.to_nat (zlen b - s)))).
Proof.
  intros Hs. unfold lmemfind. destruct t as [|c t].
  { cbn [zlen length Z.of_nat Z.eqb find_first]. rewrite zlen_nil. cbn [Z.eqb].
    unfold occurs at 1. rewrite zlen_nil.
    rewrite (proj2 (Z.leb_le 0 s)), (proj2 (Z.leb_le (s + 0) _)) by lia.
    rewrite bool_decide_eq_true_2 by done. done. }
  rewrite zlen_cons. pose proof (zlen_nonneg t). rewrite (proj2 (Z.eqb_neq _ 0)) by lia.
  replace (zlen t + 1 - 1) with (zlen t) by lia.
  assert (forall j, zlen b - zlen t <= j -> occurs b (c :: t) j = false) as Hend.
  { intros j Hj. apply not_true_iff_false. intros (_ & ? & _)%occurs_cons. lia. }
  destruct (Z.ltb_spec (zlen b - s) (zlen t + 1)).
  - f_equal. symmetry. rewrite (find_first_shorter _ _ 0); [done|lia|]. intros j Hj. apply Hend. lia.
  - rewrite memfind_loop_spec by lia. f_equal. symmetry. apply find_first_shorter; [lia|].
    intros j Hj. apply Hend. lia.
Qed.

(** * Searches with a pattern *)

Lemma matches_wf src its s caps e caps' st :
  (e, caps') ∈ matches src its s caps -> 0 <= s <= zlen src -> Forall (wf_capture s) caps ->
  wf_items (map status_of caps) its = Some st ->
  s <= e <= zlen src /\ Forall (wf_capture e) caps' /\ map status_of caps' = st.
Proof.
  revert s caps. induction its as [|i its IH]; intros s caps He Hs Hw Hst.
  - apply list_elem_of_singleton in He as [= -> ->]. injection Hst as <-. split_and!; [lia..|done|done].
  - rewrite wf_items_cons in Hst.
    destruct (wf_items (map status_of caps) [i]) as [st1|] eqn:Hi; [|done].
    cbn [matches] in He. apply list_elem_of_In, in_flat_map in He as ([e1 caps1] & H1 & He).
    apply list_elem_of_In in H1, He.
    destruct (step_item_wf src i s caps e1 caps1 st1 H1 Hs Hw Hi) as (? & ? & <-).
    destruct (IH e1 caps1 He ltac:(lia) ltac:(done) Hst) as (? & ? & ?). split_and!; [lia..|done|done].
Qed.

Section Search.
Context (pat src : list Z) (its : list item).
Context (Hreg : regular pat its) (Hsrc : zlen src <= MAXSSIZE).

(** The items match at [k]. *)
Definition can_match (k : Z) : bool :=
  match matches src its k [] with [] => false | _ => true end.

(** The end and the captures of the preferred match at [k]. *)
Definition best (k : Z) : Z * captures :=
  match matches src its k [] with m :: _ => m | [] => (0, []) end.

Lemma best_in k : can_match k = true -> best k ∈ matches src its k [].
Proof.
  unfold can_match, best. destruct (matches src its k []); [done|]. intros _. apply list_elem_of_here.
Qed.

Lemma best_wf k st :
  wf_items [] its = Some st -> can_match k = true -> 0 <= k <= zlen src ->
  k <= (best k).1 <= zlen src /\ Forall (wf_capture (best k).1) (best k).2
  /\ map status_of (best k).2 = st.
Proof.
  intros Hst Hk Hs. apply best_in in Hk. destruct (best k) as [e caps].
  by apply (matches_wf src its k [] e caps st).
Qed.

(** What the state holds after a match at [k]. *)
Definition found (k : Z) (ms : MatchState) : Prop := holds ms (best k).2.

(** A call of [match] at [k]. *)
Lemma match_at_best k ms :
  0 <= k <= zlen src -> matchdepth ms = LUAI_MAXCCALLS ->
  exists ms', match_at pat src k (reprepstate ms)
    = Ret (if can_match k then Some (best k).1 else None, ms')
    /\ matchdepth ms' = LUAI_MAXCCALLS /\ (can_match k = true -> found k ms').
Proof.
  intros Hk Hd. unfold MAXSSIZE in Hsrc.
  destruct (match_at_spec pat src ltac:(lia) its k (reprepstate ms) Hreg Hk eq_refl Hd)
    as (ms' & Hr & Hd' & Hh).
  exists ms'. unfold can_match, found, best. rewrite Hr. split_and!.
  - destruct (matches src its k []) as [|[e caps] l]; done.
  - by rewrite Hd'.
  - destruct (matches src its k []) as [|[e caps] l]; [done|]. done.
Qed.

(** [find_loop] finds the first place where the pattern matches. *)
Lemma first_find_spec fuel anchor s ms :
  0 <= s <= zlen src -> matchdepth ms = LUAI_MAXCCALLS -> zlen src - s < Z.of_nat fuel ->
  let r := find_first can_match s (if anchor : bool then 1 else S (Z.to_nat (zlen src - s))) in
  exists ms', find_loop fuel pat src anchor s ms = Ret ((fun k => (k, (best k).1)) <$> r, ms')
    /\ forall k, r = Some k -> found k ms'.
Proof.
  revert s ms. induction fuel as [|f IH]; intros s ms Hs Hd Hf; [lia|]. cbn [find_loop].
  destruct (match_at_best s ms Hs Hd) as (ms' & -> & Hd' & Hh). cbn [outcome_bind].
  destruct (can_match s) eqn:Hm.
  - assert (forall n, find_first can_match s (S n) = Some s) as Hr by (intros n; cbn; by rewrite Hm).
    exists ms'. destruct anchor; rewrite Hr; split; try done; intros k [= <-]; auto.
  - unfold src_end. destruct anchor; cbn [negb].
    + rewrite andb_false_r. exists ms'. cbn. by rewrite Hm.
    + rewrite andb_true_r. cbn [find_first]. rewrite Hm. destruct (Z.ltb_spec s (zlen src)).
      * replace (Z.to_nat (zlen src - s)) with (S (Z.to_nat (zlen src - (s + 1)))) by lia.
        apply IH; lia || done.
      * exists ms'. by replace (Z.to_nat (zlen src - s)) with 0%nat by lia.
Qed.

(** * Captures as values *)

Definition capture_value (c : Z * Z) : TValue :=
  if c.2 =? CAP_POSITION then lua_pushinteger (c.1 + 1) else LString (slice src c.1 c.2).

(** The results of a match from [s] to [e]. *)
Definition match_values (s e : Z) (caps : captures) : list TValue :=
  match caps with [] => [LString (slice src s (e - s))] | _ => map capture_value caps end.

Definition all_closed (caps : captures) : Prop := Forall (fun c => status_of c <> Open) caps.

Lemma push_one_spec ms caps i c se :
  holds ms caps -> caps !! i = Some c -> wf_capture (zlen src) c -> status_of c <> Open ->
  push_onecapture src ms (Z.of_nat i) se = Ret (capture_value c).
Proof.
  intros Hh Hi Hw Hc. unfold push_onecapture, capture_value.
  rewrite (proj2 (Z.leb_gt _ _)) by (rewrite (proj1 Hh); apply lookup_lt_Some in Hi; lia).
  rewrite (holds_get ms caps Hh i c Hi). cbn [outcome_bind]. destruct c as [b l]. cbn [fst snd].
  destruct Hw as [? Hl]. cbn in *. unfold status_of in Hc. cbn in Hc.
  destruct (l =? CAP_UNFINISHED) eqn:Hu; [done|]. destruct (l =? CAP_POSITION) eqn:Hp; [done|].
  bool_simpl. rewrite bytes_in by intuition lia. done.
Qed.

Lemma push_loop_spec ms caps se n i :
  holds ms caps -> Forall (wf_capture (zlen src)) caps -> all_closed caps ->
  (i + n = length caps)%nat ->
  push_loop src ms se n (Z.of_nat i) = Ret (map capture_value (drop i caps)).
Proof.
  intros Hh Hw Hc. revert i. induction n as [|n IH]; intros i Hi; cbn [push_loop].
  { rewrite drop_ge by lia. done. }
  destruct (lookup_lt_is_Some_2 caps i ltac:(lia)) as [c Hci].
  rewrite (drop_S _ _ _ Hci). unfold all_closed in Hc. rewrite Forall_lookup in Hw, Hc.
  rewrite (push_one_spec ms caps i c) by eauto. cbn [outcome_bind].
  replace (Z.of_nat i + 1) with (Z.of_nat (S i)) by lia. rewrite IH by lia. done.
Qed.

(** [push_captures] on a few stack slots; [n] captures at most. *)
Lemma push_captures_spec top ms caps se :
  holds ms caps -> Forall (wf_capture (zlen src)) caps -> all_closed caps ->
  0 <= top <= 1000 -> (length caps <= 32)%nat ->
  (forall s e, se = Some (s, e) -> 0 <= s <= e /\ e <= zlen src) ->
  push_captures top src ms se
  = Ret (match se with Some (s, e) => match_values s e caps | None => map capture_value caps end).
Proof.
  intros Hh Hw Hc Htop Hlen Hse. unfold push_captures, luaL_checkstack, lua_checkstack, LUAI_MAXCSTACK.
  rewrite (proj1 Hh). set (n := if _ && _ then 1 else _).
  assert (0 <= n <= 32) as Hn by (subst n; case_match; lia).
  rewrite (proj2 (Z.ltb_ge _ n)), (proj2 (Z.ltb_ge _ (top + n))) by lia. cbn [orb negb outcome_bind].
  destruct caps as [|c caps].
  - clear Hn. subst n. destruct se as [[s e]|]; [|done]. destruct (Hse s e eq_refl).
    rewrite bool_decide_eq_true_2 by eauto. change (Z.to_nat _) with 1%nat. cbn [push_loop].
    unfold push_onecapture. rewrite (proj1 Hh). change (Z.of_nat (length []) <=? 0) with true.
    cbn [Z.eqb]. rewrite bytes_in by lia. done.
  - assert (n = Z.of_nat (length (c :: caps))) as ->.
    { subst n. by rewrite (proj2 (Z.eqb_neq _ 0)) by (cbn; lia). }
    rewrite Nat2Z.id. rewrite (push_loop_spec ms (c :: caps) se _ 0) by done.
    by destruct se as [[s e]|].
Qed.
End Search.

(** * Patterns without special characters *)

Definition special (c : Z) : bool := bool_decide (c ∈ SPECIALS).

(** A ')' is no special character for [nospecials], but one for the matcher. *)
Definition plain_char (c : Z) : bool := negb (special c) && negb (c =? ch ")"%char).

Lemma c_bytes_split l :
  existsb special l = existsb special (c_bytes l) || existsb special (drop (S (length (c_bytes l))) l)
  /\ (length (c_bytes l) <= length l)%nat.
Proof.
  induction l as [|c l [IH Hl]]; [done|]. cbn [c_bytes existsb]. destruct (Z.eqb_spec c 0) as [->|].
  - cbn. split; [done|lia].
  - cbn [existsb length]. split; [|lia]. rewrite IH. cbn [drop]. by rewrite orb_assoc.
Qed.

Lemma nospecials_loop_spec fuel p upto :
  0 <= upto <= zlen p -> zlen p - upto < Z.of_nat fuel ->
  nospecials_loop fuel p upto = Ret (negb (existsb special (drop (Z.to_nat upto) p))).
Proof.
  revert upto. induction fuel as [|f IH]; intros upto Hu Hf; [lia|]. cbn [nospecials_loop].
  unfold cstr. rewrite cget_nth by done. cbn [outcome_bind].
  destruct (c_bytes_split (drop (Z.to_nat upto) p)) as [Hs Hl]. rewrite length_drop in Hl.
  set (s := c_bytes _) in *. rewrite Hs. change (existsb (fun c => bool_decide (c ∈ SPECIALS)) s)
    with (existsb special s). destruct (existsb special s); [done|]. cbn [orb].
  rewrite drop_drop. unfold zlen in *. destruct (Z.leb_spec (upto + (Z.of_nat (length s) + 1)) (Z.of_nat (length p))).
  - rewrite IH by lia. do 4 f_equal. lia.
  - rewrite drop_ge by lia. done.
Qed.

Lemma nospecials_spec p : nospecials p = Ret (negb (existsb special p)).
Proof. apply nospecials_loop_spec; unfold zlen; lia. Qed.

Definition literal (p : list Z) : list item := map (fun c => ISingle (CChar c) QOne) p.

Lemma plain_not c x : plain_char c = true -> plain_char x = false -> (c =? x) = false.
Proof. intros Hc Hx. apply Z.eqb_neq. intros ->. congruence. Qed.

Lemma parse_plain p n :
  forallb plain_char p = true -> (length p <= n)%nat -> parse_items n p = Some (literal p).
Proof.
  revert n. induction p as [|c p IH]; intros n Hp Hn; [by destruct n|].
  destruct n as [|n]; [cbn in Hn; lia|]. cbn [forallb length] in *. apply andb_true_iff in Hp as [Hc Hp].
  cbn [parse_items]. assert (parse_item (c :: p) = Some (ISingle (CChar c) QOne, p)) as ->.
  { unfold parse_item, L_ESC. rewrite !(plain_not c) by done. cbn [andb].
    unfold parse_single, parse_class, L_ESC. rewrite !(plain_not c) by done. cbn.
    destruct p as [|d p]; [done|]. cbn [forallb] in Hp. apply andb_true_iff in Hp as [Hd _].
    unfold quantifier_of. by rewrite !(plain_not d) by done. }
  cbn. rewrite IH by (done || lia). done.
Qed.

Lemma text_nth src k c : 0 <= k ->
  (match text src k with x :: _ => c =? x | [] => false end)
  = (k <? zlen src) && (nth (Z.to_nat k) src 0 =? c).
Proof.
  intros Hk. rewrite <- hd_drop. fold (text src k). destruct (Z.ltb_spec k (zlen src)) as [Hlt|Hge].
  - assert (points src k (text src k)) as Hp by (split; [lia|done]).
    destruct (text src k); [apply points_end in Hp; lia|]. cbn. apply Z.eqb_sym.
  - by rewrite text_end.
Qed.

(** A literal pattern matches where it occurs, in one way. *)
Lemma matches_literal src p k caps :
  0 <= k <= zlen src ->
  matches src (literal p) k caps = if occurs src p k then [(k + zlen p, caps)] else [].
Proof.
  revert k. induction p as [|c p IH]; intros k Hk.
  - cbn. unfold occurs. rewrite zlen_nil, (proj2 (Z.leb_le 0 k)), (proj2 (Z.leb_le (k + 0) _)) by lia.
    rewrite bool_decide_eq_true_2 by done. by rewrite Z.add_0_r.
  - cbn [literal map]. rewrite matches_single, run_text by lia. fold (literal p).
    pose proof (text_nth src k c ltac:(lia)) as Ht. unfold matches_class.
    assert ((match text src k with [] => false | x :: _ => in_class x (CChar c) end)
      = (k <? zlen src) && (nth (Z.to_nat k) src 0 =? c)) as -> by exact Ht.
    destruct (Z.ltb_spec k (zlen src)); cbn [andb].
    + destruct (Z.eqb_spec (nth (Z.to_nat k) src 0) c).
      * cbn [counts Nat.ltb Nat.leb flat_map]. rewrite app_nil_r, IH by lia.
        assert (occurs src (c :: p) k = occurs src p (k + 1)) as ->.
        { apply eq_bool_prop_intro. rewrite !Is_true_true, occurs_cons. unfold occurs.
          rewrite !andb_true_iff, !Z.leb_le, bool_decide_eq_true. intuition lia. }
        destruct (occurs src p (k + 1)); [|done]. rewrite zlen_cons. do 2 f_equal. lia.
      * cbn. destruct (occurs src (c :: p) k) eqn:Ho; [|done]. by apply occurs_cons in Ho as (_ & _ & ? & _).
    + cbn. destruct (occurs src (c :: p) k) eqn:Ho; [|done].
      apply occurs_cons in Ho as (_ & ? & _ & _). pose proof (zlen_nonneg p). lia.
Qed.

Lemma regular_plain p : forallb plain_char p = true -> regular p (literal p).
Proof.
  intros Hp. split; [by apply parse_plain|]. assert (forall l, is_Some (wf_items [] (literal l))) as Hw.
  { induction l; cbn; eauto. }
  split; [done|]. assert (calls (literal p) = 0)%nat as ->; [|lia]. clear. induction p; cbn; auto.
Qed.

(** A pattern without special characters that the matcher accepts has no ')'. *)
Lemma regular_no_special p its :
  regular p its -> existsb special p = false -> forallb plain_char p = true.
Proof.
  intros (Hp & Hw & _) Hs. unfold parse in Hp. revert Hp Hw Hs. generalize (length p) as n.
  revert its. induction p as [|c p IH]; intros its n Hp Hw Hs; [done|].
  cbn [existsb forallb] in *. apply orb_false_iff in Hs as [Hc Hs].
  destruct n as [|n]; [done|]. cbn [parse_items] in Hp.
  destruct (c =? ch ")"%char) eqn:Hclose.
  - assert (c = ch ")"%char) as -> by lia. cbn in Hp.
    destruct (parse_items n p); [|done]. injection Hp as <-. by destruct Hw.
  - assert (plain_char c = true) as Hplain by (unfold plain_char; by rewrite Hc, Hclose).
    rewrite Hplain. cbn [andb].
    assert (parse_item (c :: p) = Some (ISingle (CChar c) QOne, p)) as Hi.
    { unfold parse_item, L_ESC. rewrite !(plain_not c) by done. cbn [andb].
      unfold parse_single, parse_class, L_ESC. rewrite !(plain_not c) by done. cbn.
      destruct p as [|d p]; [done|]. cbn [existsb] in Hs. apply orb_false_iff in Hs as [Hd _].
      unfold quantifier_of. destruct (d =? ch ")"%char) eqn:Hdc.
      - by assert (d = ch ")"%char) as -> by lia.
      - assert (plain_char d = true) as Hpd by (unfold plain_char; by rewrite Hd, Hdc).
        by rewrite !(plain_not d) by done. }
    rewrite Hi in Hp. cbn [mbind option_bind] in Hp.
    destruct (parse_items n p) as [its'|] eqn:Hn; [|done]. injection Hp as <-.
    by apply (IH its' n).
Qed.

(** * find and match *)

(** Where a search begins. *)
Definition search_from (init len : Z) : Z :=
  let i := posrelat init len in if i <? 1 then 1 else i.

(** The place of the first match: only the first index is tried when the pattern
    is anchored. *)
Definition first_match (src : list Z) (its : list item) (anchor : bool) (from : Z) : option Z :=
  find_first (can_match src its) (from - 1)
    (if anchor then 1 else S (Z.to_nat (zlen src - (from - 1)))).

Definition find_values (src : list Z) (its : list item) (k : Z) : list TValue :=
  lua_pushinteger (k + 1) :: lua_pushinteger (best src its k).1
    :: map (capture_value src) (best src its k).2.

Definition closed_status (st : list status) : Prop := Forall (fun x => x <> Open) st.

(** A pattern that raises no error. *)
Record good_pattern (pat : list Z) (its : list item) : Prop := {
  good_regular : regular pat its;
  good_closed : exists st, wf_items [] its = Some st /\ closed_status st;
}.

Lemma wf_items_length st its st' :
  wf_items st its = Some st' -> (length st <= 32)%nat -> (length st' <= 32)%nat.
Proof.
  revert st. induction its as [|i its IH]; intros st Hw Hl; [by injection Hw as <-|].
  rewrite wf_items_cons in Hw. destruct (wf_items st [i]) as [st1|] eqn:Hi; [|done].
  apply (IH st1 Hw). destruct i; cbn [wf_items] in Hi; repeat case_match; simplify_eq; try done.
  - rewrite length_app. cbn. rewrite Nat.ltb_lt in *. lia.
  - rewrite length_app. cbn. rewrite Nat.ltb_lt in *. lia.
  - destruct (close_status st) as [l|] eqn:Hc; [|done]. injection Hi as <-.
    assert (length l = length st) as ->; [|done]. clear -Hc. revert l Hc.
    induction st as [|x st IH]; intros l Hc; [done|]. cbn [close_status] in Hc.
    destruct (close_status st) as [r|]; [injection Hc as <-; cbn; f_equal; auto|].
    case_bool_decide; [|done]. by injection Hc as <-.
Qed.

Section Good.
Context (pat src : list Z) (its : list item) (Hgood : good_pattern pat its).
Context (Hsrc : zlen src <= MAXSSIZE).

Lemma best_good k :
  can_match src its k = true -> 0 <= k <= zlen src ->
  k <= (best src its k).1 <= zlen src /\ Forall (wf_capture (zlen src)) (best src its k).2
  /\ all_closed (best src its k).2 /\ (length (best src its k).2 <= 32)%nat.
Proof.
  intros Hk Hs. destruct (good_closed _ _ Hgood) as (st & Hst & Hc).
  destruct (best_wf src its k st Hst Hk Hs) as (He & Hw & Heq). split_and!; [lia..| | |].
  - by apply (wf_captures_mono (best src its k).1); [|lia].
  - unfold all_closed, closed_status in *. rewrite <- Heq in Hc. by apply (Forall_map status_of (fun x => x <> Open)) in Hc.
  - rewrite <- (length_map status_of), Heq. by apply (wf_items_length [] its); [|cbn; lia].
Qed.

(** The captures of a match are pushed. *)
Lemma push_best top k ms se :
  can_match src its k = true -> 0 <= k <= zlen src -> found src its k ms -> 0 <= top <= 1000 ->
  se = None \/ se = Some (k, (best src its k).1) ->
  push_captures top src ms se
  = Ret (match se with Some (s, e) => match_values src s e (best src its k).2
                     | None => map (capture_value src) (best src its k).2 end).
Proof.
  intros Hk Hs Hf Htop Hse. destruct (best_good k Hk Hs) as (He & Hw & Hc & Hl).
  apply push_captures_spec; try done. intros s e ->. destruct Hse as [|[= -> ->]]; [done|lia].
Qed.
End Good.

(** The results of a search. *)
Definition search_values (find : bool) (src : list Z) (its : list item) (anchor : bool) (from : Z)
    : list TValue :=
  if zlen src + 1 <? from then [LNil]
  else
    match first_match src its anchor from with
    | Some k =>
        if find then find_values src its k
        else match_values src k (best src its k).1 (best src its k).2
    | None => [LNil]
    end.

Section Api.
Context `{Target, NumFormat}.

Lemma no_special_search p src its k :
  existsb special p = false -> good_pattern p its ->
  its = literal p /\ (0 <= k <= zlen src -> can_match src its k = occurs src p k
    /\ (can_match src its k = true -> best src its k = (k + zlen p, []))).
Proof.
  intros Hs [Hreg _]. pose proof (regular_no_special p its Hreg Hs) as Hp.
  assert (its = literal p) as ->.
  { destruct Hreg as [Hi _]. unfold parse in Hi. rewrite parse_plain in Hi by done. by injection Hi. }
  split; [done|]. intros Hk. unfold can_match, best. rewrite matches_literal by done.
  destruct (occurs src p k); done.
Qed.

(** Both searches find the first match of the pattern, with every pattern that
    has no errors. *)
Lemma str_find_aux_spec (find : bool) args s p init anchor pat its :
  luaL_checklstring args 1 = Ret s -> luaL_checklstring args 2 = Ret p ->
  luaL_optinteger args 3 1 = Ret init -> lua_toboolean args 4 = false ->
  anchored p = (anchor, pat) -> good_pattern pat its -> zlen s <= MAXSSIZE ->
  (length args <= 500)%nat ->
  str_find_aux find args
  = Ret (search_values find s its anchor (search_from init (zlen s))).
Proof.
  intros Hs Hp Hi H4 Ha Hgood Hlen Htop. unfold str_find_aux, search_values, search_from.
  rewrite Hs, Hp. cbn [outcome_bind]. rewrite Hi. cbn [outcome_bind]. rewrite H4, Ha.
  set (i := posrelat init (zlen s)). set (from := if i <? 1 then 1 else i).
  assert ((1 <=? i) && (zlen s + 1 <? i) = (zlen s + 1 <? from)) as ->.
  { subst from. pose proof (zlen_nonneg s). destruct (Z.ltb_spec i 1); lia. }
  destruct (Z.ltb_spec (zlen s + 1) from) as [|Hfrom]; [done|].
  assert (1 <= from) as Hfrom1 by (subst from; case_match; lia).
  assert (lua_gettop args <= 500) as Htop' by (unfold lua_gettop; lia).
  assert (0 <= lua_gettop args) by (unfold lua_gettop; lia).
  assert (exists b, (if find then nospecials p else Ret false) = Ret b
    /\ (b = true -> find = true /\ existsb special p = false)) as (b & -> & Hb).
  { destruct find; [|by exists false]. rewrite nospecials_spec. eexists. split; [done|].
    rewrite negb_true_iff. auto. }
  cbn [outcome_bind]. destruct b.
  - destruct Hb as [-> Hnos]; [done|].
    assert (pat = p /\ anchor = false) as [-> ->].
    { destruct p as [|c p]; [by injection Ha|]. cbn in Ha, Hnos.
      apply orb_false_iff in Hnos as [Hc _]. destruct (Z.eqb_spec c (ch "^"%char)) as [->|]; [done|].
      by injection Ha as <- <-. }
    replace (zlen s - from + 1) with (zlen s - (from - 1)) by lia.
    rewrite lmemfind_spec by lia. cbn [outcome_bind]. unfold first_match.
    assert (forall k, 0 <= k <= zlen s -> can_match s its k = occurs s p k) as Hsame
      by (intros k; apply (no_special_search p s its k Hnos Hgood)).
    rewrite (find_first_ext (occurs s p) (can_match s its)) by (intros; symmetry; apply Hsame; lia).
    pose proof (find_first_spec (can_match s its) (from - 1) (S (Z.to_nat (zlen s - (from - 1))))) as Hf.
    destruct (find_first _ _ _) as [k|]; [|done]. destruct Hf as (Hk & Hm & _).
    unfold find_values.
    destruct (no_special_search p s its k Hnos Hgood) as [_ Hk']. destruct Hk' as [_ ->]; [lia|done|done].
  - destruct (first_find_spec pat s its (good_regular _ _ Hgood) Hlen (S (S (length s))) anchor
      (from - 1) prepstate) as (ms' & -> & Hfound); [lia|done|unfold zlen in *; lia|].
    cbn [outcome_bind]. unfold first_match in *.
    pose proof (find_first_spec (can_match s its) (from - 1)
      (if anchor then 1%nat else S (Z.to_nat (zlen s - (from - 1))))) as Hf.
    destruct (find_first _ _ _) as [k|]; [|done]. destruct Hf as (Hk & Hm & _).
    specialize (Hfound k eq_refl). assert (0 <= k <= zlen s) by (destruct anchor; lia).
    cbn [fmap option_fmap option_map]. destruct find.
    + rewrite (push_best pat s its Hgood _ k) by (auto; lia). done.
    + rewrite (push_best pat s its Hgood _ k) by (auto; lia). done.
Qed.
End Api.
