(* ===== verification/StrSafe.v ===== *)
(** The searching functions of the string library, [StrLib.v], on every pattern
    and every argument: they do not read outside of a string and they end; the
    iterator of [gmatch] moves forward with every result. *)
From Stdlib Require Import Ascii.
From stdpp Require Import gmap.
From S2P Require Import Prelude Word Double LuaApi Tm Arith Key TableNode Table TabLib.
From S2P Require Import Pattern PatternSpec PatternMatch PatternSafe StrLib StrSpec.
Open Scope Z_scope.
Open Scope outcome_scope.

Section Safe.
Context `{Target, NumFormat}.
Context (src : list Z) (Hsrc : zlen src <= MAXSSIZE).

(** What a successful match leaves: [k .. e] is in the source. *)
Definition matched (k e : Z) (ms : MatchState) : Prop :=
  0 <= k <= e /\ e <= zlen src /\ exists caps, holds ms caps /\ Forall (wf_capture e) caps
    /\ (length caps <= 32)%nat.

Lemma match_at_left pat s ms :
  0 <= s <= zlen src -> matchdepth ms = LUAI_MAXCCALLS ->
  safe (match_at pat src s (reprepstate ms)) (fun r => matchdepth r.2 = LUAI_MAXCCALLS
    /\ match r.1 with Some e => matched s e r.2 | None => True end).
Proof.
  intros Hs Hd. unfold MAXSSIZE in Hsrc. eapply safe_mono; [by apply match_at_safe; [lia|..]|].
  intros [res ms'] [Hd' Hl]. cbn in *. split; [by rewrite Hd'|]. destruct res as [e|]; [|done].
  destruct Hl as (He & caps & Hl). split_and!; [lia..|eauto].
Qed.

Lemma find_loop_safe fuel pat anchor s ms :
  0 <= s <= zlen src -> matchdepth ms = LUAI_MAXCCALLS -> zlen src - s < Z.of_nat fuel ->
  safe (find_loop fuel pat src anchor s ms) (fun r =>
    match r.1 with Some (k, e) => matched k e r.2 | None => True end).
Proof.
  revert s ms. induction fuel as [|f IH]; intros s ms Hs Hd Hf; [lia|]. cbn [find_loop].
  run_by (by apply match_at_left). intros [[e|] ms'] [Hd' Hm]; cbn in *; [done|]. unfold src_end.
  destruct (Z.ltb_spec s (zlen src)); cbn [andb]; [|done]. destruct anchor; cbn [negb]; [done|].
  apply IH; lia || done.
Qed.

Definition is_text (v : TValue) : Prop := match v with LString _ | LNumber _ => True | _ => False end.

Lemma push_one_safe ms caps i se :
  holds ms caps -> Forall (wf_capture (zlen src)) caps -> 0 <= i ->
  match se with Some (s, e) => 0 <= s <= e /\ e <= zlen src | None => i < level ms end ->
  safe (push_onecapture src ms i se) is_text.
Proof.
  intros Hh Hw Hi Hse. unfold push_onecapture. destruct (Z.leb_spec (level ms) i).
  - destruct (Z.eqb_spec i 0) as [->|]; [|done]. destruct se as [[s e]|]; [|lia].
    rewrite bytes_in by lia. done.
  - destruct (lookup_lt_is_Some_2 caps (Z.to_nat i)) as [[a l] Hc]; [rewrite (proj1 Hh) in *; lia|].
    pose proof (holds_get ms caps Hh _ _ Hc) as Hg. rewrite Z2Nat.id in Hg by done. rewrite Hg.
    cbn [outcome_bind]. destruct (Z.eqb_spec l CAP_UNFINISHED); [done|].
    destruct (Z.eqb_spec l CAP_POSITION); [done|]. rewrite Forall_lookup in Hw.
    destruct (Hw _ _ Hc) as [? [?|[?|?]]]; cbn in *; try done. rewrite bytes_in by lia. done.
Qed.

Lemma push_loop_safe ms caps se m i :
  holds ms caps -> Forall (wf_capture (zlen src)) caps -> 0 <= i ->
  match se with Some (s, e) => 0 <= s <= e /\ e <= zlen src | None => i + Z.of_nat m <= level ms end ->
  safe (push_loop src ms se m i) (fun vs => length vs = m /\ Forall is_text vs).
Proof.
  intros Hh Hw. revert i. induction m as [|m IH]; intros i Hi Hse; cbn [push_loop]; [by repeat split|].
  run_by (apply (push_one_safe ms caps); try done; destruct se as [[s e]|]; [done|lia]).
  intros v Hv. run_by (apply IH; [lia|]; destruct se as [[s e]|]; [done|lia]).
  intros vs [Hl Hvs]. cbn. split; [by rewrite Hl|]. by constructor.
Qed.

Lemma push_captures_safe top ms caps se :
  holds ms caps -> Forall (wf_capture (zlen src)) caps ->
  match se with Some (s, e) => 0 <= s <= e /\ e <= zlen src | None => True end ->
  safe (push_captures top src ms se) (fun vs => Forall is_text vs /\ (is_Some se -> vs <> [])).
Proof.
  intros Hh Hw Hse. unfold push_captures. pose proof (proj1 Hh) as Hl.
  set (n := if _ && _ then 1 else _).
  apply (safe_step _ _ (fun _ => True)); [unfold luaL_checkstack; by destruct (lua_checkstack top n)|].
  intros _ _. assert (0 <= n /\ (is_Some se -> 1 <= n) /\ (se = None -> n = level ms)) as (Hn & H1 & H0').
  { subst n. destruct (Z.eqb_spec (level ms) 0), se; cbn; repeat split; try lia; by intros. }
  eapply safe_mono; [apply (push_loop_safe ms caps); try done|].
  - destruct se as [[s e]|]; [done|]. rewrite H0' by done. lia.
  - intros vs [Hlen Hvs]. split; [done|]. intros Hs ->. specialize (H1 Hs). cbn in Hlen. lia.
Qed.

Lemma matched_push top k e ms se :
  matched k e ms -> se = None \/ se = Some (k, e) ->
  safe (push_captures top src ms se) (fun vs => Forall is_text vs /\ (is_Some se -> vs <> [])).
Proof.
  intros (? & ? & caps & Hh & Hw & _) Hse. apply (push_captures_safe top ms caps); [done| |].
  - by apply (wf_captures_mono e).
  - destruct Hse as [->| ->]; [done|lia].
Qed.

(** * gmatch *)

Lemma gmatch_loop_safe fuel pat s ms :
  0 <= s -> matchdepth ms = LUAI_MAXCCALLS -> (0 < fuel)%nat -> zlen src + 1 - s < Z.of_nat fuel ->
  safe (gmatch_loop fuel pat src s ms) (fun r =>
    match r.1 with Some (k, e) => s <= k /\ matched k e r.2 | None => True end).
Proof.
  revert s ms. induction fuel as [|f IH]; intros s ms Hs Hd Hf0 Hf; [lia|].
  cbn [gmatch_loop]. unfold src_end. destruct (Z.leb_spec s (zlen src)); [|done].
  run_by (apply match_at_left; [lia|done]). intros [[e|] ms'] [Hd' Hm]; cbn in *; [by split; [lia|]|].
  eapply safe_mono; [apply IH; lia || done|]. intros [[[k e]|] ms''] Hr; [|done]. cbn in *.
  split; [lia|apply Hr].
Qed.

(** * gsub *)

Lemma add_s_loop_safe fuel ms news k e i b :
  matched k e ms -> 0 <= i -> zlen news - i < Z.of_nat fuel -> (0 < fuel)%nat ->
  safe (add_s_loop fuel src ms news k e i b) (fun _ => True).
Proof.
  intros Hm. revert i b. induction fuel as [|f IH]; intros i b Hi Hf Hf0; [lia|]. cbn [add_s_loop].
  destruct (Z.ltb_spec i (zlen news)); [|done]. fetch c Hc.
  destruct (c =? L_ESC); cbn [negb]; [|apply IH; lia]. fetch d Hd.
  assert (isdigit d = true -> i + 1 < zlen news) as Hlt.
  { intros Hdig. destruct (decide (i + 1 = zlen news)) as [E|]; [|lia]. apply Hd in E as ->. done. }
  destruct (isdigit d) eqn:Hdig; cbn [negb].
  - specialize (Hlt eq_refl). destruct Hm as (? & ? & caps & Hh & Hw & Hl).
    destruct (Z.eqb_spec d (ch "0"%char)); [rewrite bytes_in by lia; apply IH; lia|].
    unfold isdigit, between in Hdig. apply andb_true_iff in Hdig as [? _].
    run_by (apply (push_one_safe ms caps); [done|by apply (wf_captures_mono e)|lia|done]).
    intros v Hv. destruct v; try done; cbn [value_text outcome_bind]; apply IH; lia.
  - destruct (Z.eqb_spec d L_ESC) as [->|]; cbn [negb]; [|done].
    destruct (decide (i + 1 = zlen news)) as [E|]; [by apply Hd in E|]. apply IH; lia.
Qed.

Context {W : Type} (objects : W -> heap).
Context (call : TValue -> list TValue -> W -> outcome (TValue * W)).
Context (gettable : TValue -> TValue -> W -> outcome (TValue * W)).
Context (call_safe : forall f a w, is_defined (call f a w) = true).
Context (gettable_safe : forall t k w, is_defined (gettable t k w) = true).

Lemma defined_safe {A} (m : outcome A) : is_defined m = true -> safe m (fun _ => True).
Proof. by destruct m. Qed.

Lemma add_result_safe w v k e b :
  0 <= k <= e -> e <= zlen src -> safe (add_result W objects src w v k e b) (fun _ => True).
Proof.
  intros. unfold add_result. destruct (l_isfalse v); [rewrite bytes_in by lia; done|]. by destruct v.
Qed.

Lemma add_value_safe top ms repl k e b w :
  matched k e ms -> (match repl with LNumber _ | LString _ | LFunction _ | LTable _ => True | _ => False end) ->
  safe (add_value W objects call gettable top src ms repl k e b w) (fun _ => True).
Proof.
  intros Hm Hr. pose proof Hm as (? & ? & caps & Hh & Hw & Hl).
  assert (forall news, safe (add_s src ms news k e b) (fun _ => True)) as Hs
    by (intros; apply add_s_loop_safe; unfold zlen; lia || done).
  unfold add_value. destruct repl; try done; cbn [value_text outcome_bind].
  - by run_by (apply Hs).
  - by run_by (apply Hs).
  - run_by (apply (push_one_safe ms caps); [done|by apply (wf_captures_mono e)|lia|done]).
    intros v _. run_by (apply defined_safe, gettable_safe). intros [v' w'] _. by apply add_result_safe.
  - run_by (by eapply matched_push; [|right]). intros vs _.
    run_by (apply defined_safe, call_safe). intros [v' w'] _. by apply add_result_safe.
Qed.

Lemma gsub_loop_safe fuel top pat anchor repl max_s s n ms b w :
  0 <= s <= zlen src -> matchdepth ms = LUAI_MAXCCALLS -> zlen src - s + 1 < Z.of_nat fuel ->
  (match repl with LNumber _ | LString _ | LFunction _ | LTable _ => True | _ => False end) ->
  0 <= n <= s ->
  safe (gsub_loop W objects call gettable fuel top pat src anchor repl max_s s n ms b w)
    (fun r => let '(_, s', n', _) := r in
       s <= s' <= zlen src /\ n <= n' <= Z.max n max_s /\ n' <= s' + 1).
Proof.
  intros Hs Hd Hf Hr. revert s n ms b w Hs Hd Hf.
  induction fuel as [|f IH]; intros s n ms b w Hs Hd Hf Hn; [lia|]. cbn [gsub_loop].
  destruct (Z.ltb_spec n max_s); [|cbn; lia]. run_by (by apply match_at_left).
  intros [e ms'] [Hd' Hm]. cbn [fst snd] in *.
  apply (safe_step _ _ (fun r => n <= r.1.1 <= n + 1 /\ (r.1.1 = n + 1 -> is_Some e))).
  { destruct e as [e|]; [|cbn; lia]. run_by (by apply add_value_safe). intros [b' w'] _. cbn. eauto with lia. }
  intros [[n' b'] w'] [Hn' He]. cbn [fst snd] in *.
  assert (forall s' ms'' b'', s < s' <= zlen src -> matchdepth ms'' = LUAI_MAXCCALLS ->
    safe (if anchor then Ret (b'', s', n', w')
          else gsub_loop W objects call gettable f top pat src anchor repl max_s s' n' ms'' b'' w')
      (fun r => let '(_, s'', n'', _) := r in
         s <= s'' <= zlen src /\ n <= n'' <= Z.max n max_s /\ n'' <= s'' + 1)) as Hgo.
  { intros s' ms'' b'' Hs' Hd''. destruct anchor; [cbn; lia|].
    eapply safe_mono; [apply IH; lia || done|]. intros [[[? s2] n2] ?]. lia. }
  destruct e as [e|]; cbn [default].
  - destruct Hm as (? & ? & _). destruct (Z.ltb_spec s e); [apply Hgo; lia || done|].
    unfold src_end. destruct (Z.ltb_spec s (zlen src)); [|cbn; lia]. fetch c Hc.
    apply Hgo; lia || done.
  - unfold src_end. destruct (Z.ltb_spec s (zlen src)); [|cbn; lia]. fetch c Hc.
    apply Hgo; lia || done.
Qed.
End Safe.

(** * The functions *)

(** No argument is a string longer than a string can be. *)
Definition sized `{NumFormat} (args : list TValue) : Prop :=
  forall i s, lua_tolstring args i = Some s -> zlen s <= MAXSSIZE.

Section Functions.
Context `{Target, NumFormat}.

Lemma checklstring_safe args i :
  sized args -> safe (luaL_checklstring args i) (fun s => zlen s <= MAXSSIZE).
Proof.
  intros Hs. unfold luaL_checklstring. destruct (lua_tolstring args i) eqn:E; [|done]. by eapply Hs.
Qed.

Lemma optinteger_safe args i d : safe (luaL_optinteger args i d) (fun _ => True).
Proof. apply defined_safe. unfold luaL_optinteger. auto with defined. Qed.

Lemma str_find_aux_safe find args : sized args -> safe (str_find_aux find args) (fun _ => True).
Proof.
  intros Hsz. unfold str_find_aux.
  run_by (by apply checklstring_safe). intros s Hs. run_by (by apply checklstring_safe). intros p _.
  run_by (apply optinteger_safe). intros init _.
  set (i := posrelat init (zlen s)). destruct ((1 <=? i) && (zlen s + 1 <? i)) eqn:Hi; [done|].
  set (from := if i <? 1 then 1 else i).
  assert (1 <= from <= zlen s + 1) as Hf by (subst from; pose proof (zlen_nonneg s); case_match; lia).
  apply (safe_step _ _ (fun _ => True)).
  { destruct find; [|done]. destruct (lua_toboolean args 4); [done|]. by rewrite nospecials_spec. }
  intros [|] _.
  - replace (zlen s - from + 1) with (zlen s - (from - 1)) by lia.
    rewrite lmemfind_spec by lia. cbn [outcome_bind]. by case_match.
  - destruct (anchored p) as [anchor pat].
    run_by (apply find_loop_safe; [done|lia|done|unfold zlen in *; lia]).
    intros [[[k e]|] ms] Hm; [|done]. cbn in Hm. destruct find.
    + run_by (by eapply matched_push; [|left]). done.
    + eapply safe_mono; [by eapply matched_push; [|right]|]. done.
Qed.

Lemma gmatch_aux_safe c :
  zlen (gm_s c) <= MAXSSIZE -> 0 <= gm_start c ->
  safe (gmatch_aux c) (fun r => let '(vs, c') := r in
    gm_s c' = gm_s c /\ gm_p c' = gm_p c
    /\ (vs = [] /\ c' = c
        \/ vs <> [] /\ Forall is_text vs /\ gm_start c <= zlen (gm_s c)
           /\ gm_start c < gm_start c')).
Proof.
  intros Hs Hg. unfold gmatch_aux.
  run_by (apply gmatch_loop_safe; [done|lia|done|lia|unfold zlen in *; lia]).
  intros [[[k e]|] ms] Hm; [|cbn; auto]. destruct Hm as [Hk Hm].
  run_by (by eapply matched_push; [|right]). intros vs [Hvs Hne]. cbn. split_and!; [done..|]. right.
  destruct Hm as (? & ? & _). split_and!; [by apply Hne; eauto|done|lia|].
  destruct (Z.eqb_spec e k); lia.
Qed.

(** The results of a loop over an iterator: of its calls until one returns
    nothing. *)
Fixpoint gmatch_all (fuel : nat) (c : gmatch_closure) : outcome (list (list TValue)) :=
  match fuel with
  | O => Undefined "endless iteration"
  | S f =>
      r <- gmatch_aux c ;;
      let '(vs, c) := r in
      match vs with
      | [] => Ret []
      | _ => l <- gmatch_all f c ;; Ret (vs :: l)
      end
  end.

Lemma gmatch_all_safe fuel c :
  zlen (gm_s c) <= MAXSSIZE -> 0 <= gm_start c -> zlen (gm_s c) + 1 - gm_start c < Z.of_nat fuel ->
  (0 < fuel)%nat ->
  safe (gmatch_all fuel c)
    (fun l => Z.of_nat (length l) <= Z.max 0 (zlen (gm_s c) + 1 - gm_start c)
      /\ Forall (fun vs => vs <> [] /\ Forall is_text vs) l).
Proof.
  revert c. induction fuel as [|f IH]; intros c Hs Hg Hf Hf0; [lia|]. cbn [gmatch_all].
  run_by (by apply gmatch_aux_safe). intros [vs c'] (Hs' & _ & [[-> _]|(Hvs & Ht & Hle & Hlt)]).
  - cbn. split; [lia|done].
  - destruct vs as [|v vs]; [done|].
    run_by (apply IH; rewrite ?Hs'; lia). rewrite Hs'. intros l [Hl Hall]. cbn. split; [lia|].
    by constructor.
Qed.

Context {W : Type} (objects : W -> heap).
Context (call : TValue -> list TValue -> W -> outcome (TValue * W)).
Context (gettable : TValue -> TValue -> W -> outcome (TValue * W)).
Context (call_safe : forall f a w, is_defined (call f a w) = true).
Context (gettable_safe : forall t k w, is_defined (gettable t k w) = true).

(** The second result counts the substitutions. *)
Lemma str_gsub_safe args w :
  sized args ->
  safe (str_gsub W objects call gettable args w) (fun r => exists b n, r.1 = [LString b; lua_pushinteger n]
    /\ exists s max_s, luaL_checklstring args 1 = Ret s
       /\ luaL_optinteger args 4 (zlen s + 1) = Ret max_s /\ 0 <= n <= Z.max 0 max_s
       /\ n <= zlen s + 1).
Proof.
  intros Hsz. unfold str_gsub.
  destruct (luaL_checklstring args 1) as [s|e|] eqn:H1; [|done|].
  2:{ pose proof (checklstring_safe args 1 Hsz) as Hc. by rewrite H1 in Hc. }
  pose proof (checklstring_safe args 1 Hsz) as Hs. rewrite H1 in Hs. cbn in Hs. cbn [outcome_bind].
  run_by (by apply checklstring_safe). intros p _.
  pose proof (optinteger_safe args 4 (zlen s + 1)) as Ho.
  destruct (luaL_optinteger args 4 (zlen s + 1)) as [max_s| |] eqn:H4; [|done|done].
  cbn [outcome_bind].
  assert (forall repl, match repl with LNumber _ | LString _ | LFunction _ | LTable _ => True
                                  | _ => False end ->
    safe (let '(anchor, pat) := anchored p in
      r <- gsub_loop W objects call gettable (S (S (length s))) (lua_gettop args) pat s anchor repl
             max_s 0 0 prepstate [] w ;;
      let '(b, s', n, w) := r in
      c <- bytes s s' (zlen s - s') ;; Ret ([LString (b ++ c); lua_pushinteger n], w))
     (fun r => exists b n, r.1 = [LString b; lua_pushinteger n]
      /\ exists s0 max_s0, Ret s = Ret s0 /\ luaL_optinteger args 4 (zlen s0 + 1) = Ret max_s0
         /\ 0 <= n <= Z.max 0 max_s0 /\ n <= zlen s0 + 1)) as Hgo.
  { intros repl Hr. destruct (anchored p) as [anchor pat].
    run_by (apply gsub_loop_safe; try done; unfold zlen; lia).
    intros [[[b s'] n] w'] Hp. rewrite bytes_in by lia. cbn. exists (b ++ slice s s' (zlen s - s')), n.
    split; [done|]. exists s, max_s. split_and!; [done|done|lia..]. }
  destruct (index2addr args 3) as [v|]; [|done]. destruct v; try done; by apply Hgo.
Qed.
End Functions.
