(* ===== verification/StrOps.v ===== *)
(** The other functions of the string library, [StrLib.v]: repetition, slices,
    bytes, splitting, and what a substitution leaves unchanged. *)
From Stdlib Require Import Ascii.
From stdpp Require Import gmap.
From S2P Require Import Prelude Word Double DoubleExact LuaApi Tm Arith Key TableNode Table.
From S2P Require Import TableSpec TableMap TableIter TabLib TabMove TabLibSpec.
From S2P Require Import Pattern PatternSpec PatternMatch PatternSafe StrLib StrSpec StrSafe.
Open Scope Z_scope.
Open Scope outcome_scope.

(** * Slices *)

Lemma length_slice b i n : 0 <= i -> 0 <= n -> i + n <= zlen b -> zlen (slice b i n) = n.
Proof. intros. unfold slice, zlen in *. rewrite length_take, length_drop. lia. Qed.

Lemma slice_all b : slice b 0 (zlen b) = b.
Proof. unfold slice, zlen. rewrite Nat2Z.id. apply firstn_all. Qed.

Lemma slice_app b i n m : 0 <= i -> 0 <= n -> 0 <= m -> slice b i (n + m) = slice b i n ++ slice b (i + n) m.
Proof.
  intros. unfold slice. rewrite !Z2Nat.inj_add by lia. rewrite <- drop_drop. symmetry.
  rewrite <- (take_take_drop (drop (Z.to_nat i) b)). done.
Qed.

Lemma slice_empty b i : slice b i 0 = [].
Proof. done. Qed.

Lemma slice_prefix b n : slice b 0 n = take (Z.to_nat n) b.
Proof. done. Qed.

Lemma slice_end b s : 0 <= s <= zlen b -> slice b 0 s ++ slice b s (zlen b - s) = b.
Proof.
  intros. pose proof (slice_app b 0 s (zlen b - s) ltac:(lia) ltac:(lia) ltac:(lia)) as H'.
  replace (s + (zlen b - s)) with (zlen b) in H' by lia. by rewrite slice_all in H'.
Qed.

Lemma slice_one b s : 0 <= s < zlen b -> slice b s 1 = [nth (Z.to_nat s) b 0].
Proof. intros. change 1 with (0 + 1). rewrite slice_cons by lia. done. Qed.

(** * rep *)

Definition copies (m : Z) (s : list Z) : list Z := concat (replicate (Z.to_nat m) s).

Lemma copies_add m n s : 0 <= m -> 0 <= n -> copies (m + n) s = copies m s ++ copies n s.
Proof. intros. unfold copies. by rewrite Z2Nat.inj_add, replicate_add, concat_app by lia. Qed.

Lemma zlen_copies m s : 0 <= m -> zlen (copies m s) = zlen s * m.
Proof.
  intros Hm. unfold copies. rewrite <- (Z2Nat.id m Hm) at 2. induction (Z.to_nat m) as [|k IH].
  - cbn. rewrite zlen_nil. lia.
  - cbn [replicate concat]. rewrite zlen_app, IH. lia.
Qed.

(** The doubling loop: [m] copies are written, [n] are wanted. *)
Lemma rep_loop_spec fuel s m n :
  1 <= m <= n -> zlen s * n <= MAXSSIZE -> n < m * 2 ^ Z.of_nat fuel -> (0 < fuel)%nat ->
  exists k, rep_loop fuel (copies m s) (zlen s * (n - m)) (zlen s * m)
    = Ret (copies k s, zlen s * (n - k)) /\ 1 <= k <= n /\ zlen s * (n - k) <= zlen s * k.
Proof.
  revert m. induction fuel as [|f IH]; intros m Hm Hs Hf Hf0; [lia|]. cbn [rep_loop].
  pose proof (zlen_nonneg s). destruct (Z.ltb_spec (zlen s * m) (zlen s * (n - m))) as [Hlt|Hge].
  - assert (m < n - m) by nia. rewrite bytes_in by (rewrite ?zlen_copies; nia). cbn [outcome_bind].
    assert (slice (copies m s) 0 (zlen s * m) = copies m s) as ->.
    { rewrite <- zlen_copies by lia. apply slice_all. }
    rewrite <- copies_add by lia.
    replace (zlen s * (n - m) - zlen s * m) with (zlen s * (n - (m + m))) by lia.
    replace (shl_u 64 (zlen s * m) 1) with (zlen s * (m + m)).
    2:{ unfold shl_u. rewrite Z.shiftl_mul_pow2 by lia. rewrite cast_u_id; [lia|].
        unfold in_u, MAXSSIZE in *. nia. }
    destruct f as [|f]; [change (2 ^ Z.of_nat 1) with 2 in Hf; lia|].
    apply IH; [lia|done| |lia]. rewrite (Nat2Z.inj_succ (S f)), Z.pow_succ_r in Hf by lia. lia.
  - exists m. split; [done|]. lia.
Qed.

Section Functions.
Context `{VecSize, Target, NumFormat}.

Lemma str_rep_spec args s n :
  luaL_checklstring args 1 = Ret s -> luaL_checkinteger args 2 = Ret n ->
  str_rep args = if n <=? 0 then Ret [LString []]
                 else if MAXSSIZE <? zlen s * n then luaL_error "resulting string too large"
                 else Ret [LString (copies n s)].
Proof.
  intros Hs Hn. unfold str_rep. rewrite Hs, Hn. cbn [outcome_bind].
  destruct (Z.leb_spec n 0) as [|Hpos]; [done|]. pose proof (zlen_nonneg s) as Hl.
  assert ((MAXSSIZE / n <? zlen s) = (MAXSSIZE <? zlen s * n)) as ->.
  { destruct (Z.ltb_spec (MAXSSIZE / n) (zlen s)) as [Hlt|Hge].
    - symmetry. apply Z.ltb_lt. apply Z.nle_gt. intros Hle. rewrite Z.mul_comm in Hle.
      apply Z.div_le_lower_bound in Hle; lia.
    - symmetry. apply Z.ltb_ge. pose proof (Z.mul_div_le MAXSSIZE n Hpos). nia. }
  destruct (Z.ltb_spec MAXSSIZE (zlen s * n)) as [|Hfit]; [done|].
  apply checkinteger_range in Hn. unfold in_s in Hn.
  destruct (rep_loop_spec 64 s 1 n) as (k & Hk & Hkn & Hle); [lia|lia|lia|lia|].
  assert (copies 1 s = s) as Hone by apply app_nil_r.
  rewrite Hone, Z.mul_1_r in Hk. replace (zlen s * (n - 1)) with (zlen s * n - zlen s) in Hk by lia.
  rewrite Hk. cbn [outcome_bind]. rewrite bytes_in by (rewrite ?zlen_copies; nia). cbn [outcome_bind].
  do 3 f_equal. replace n with (k + (n - k)) at 2 by lia. rewrite copies_add by lia. f_equal.
  destruct (decide (zlen s = 0)) as [Hz|Hz].
  { rewrite Hz, Z.mul_0_l, slice_empty. unfold copies. destruct s; [|unfold zlen in Hz; cbn in Hz; lia].
    induction (Z.to_nat (n - k)); done. }
  assert (n - k <= k) by nia.
  replace (copies k s) with (copies (n - k) s ++ copies (k - (n - k)) s)
    by (rewrite <- copies_add by lia; f_equal; lia).
  rewrite slice_prefix, take_app_le.
  - rewrite firstn_all2; [done|]. pose proof (zlen_copies (n - k) s ltac:(lia)) as Hc.
    unfold zlen in Hc at 1. lia.
  - pose proof (zlen_copies (n - k) s ltac:(lia)) as Hc. unfold zlen in Hc at 1. lia.
Qed.

(** * split *)

(** A table that is a list. *)
Definition seq_map (l : list TValue) : fmap_t := fun k =>
  match index_of k with
  | Some j => if 1 <=? j then default LNil (l !! Z.to_nat (j - 1)) else LNil
  | None => LNil
  end.

Lemma seq_map_snoc l v k :
  Z.of_nat (length l) < 2 ^ 31 - 1 ->
  map_set (seq_map l) (akey (Z.of_nat (length l) + 1)) v k = seq_map (l ++ [v]) k.
Proof.
  intros Hl. rewrite map_set_index by (unfold in_s; lia). unfold seq_map.
  destruct (index_of k) as [j|]; [|done].
  destruct (Z.leb_spec 1 j) as [Hj|Hj].
  - case_bool_decide as E; [injection E as ->|].
    + rewrite list_lookup_middle by lia. done.
    + destruct (decide (Z.to_nat (j - 1) < length l)%nat).
      * by rewrite lookup_app_l.
      * rewrite !lookup_ge_None_2; [done|rewrite length_app; cbn|lia].
        assert (j <> Z.of_nat (length l) + 1) by congruence. lia.
  - rewrite bool_decide_eq_false_2; [done|]. intros [= ->]. lia.
Qed.

Lemma push_span_spec t l s :
  implements t (seq_map l) -> Z.of_nat (length l) < 2 ^ 31 - 1 ->
  match push_span t (Z.of_nat (length l) + 1) s with
  | Ret t' => implements t' (seq_map (l ++ [LString s]))
  | Throw e => e = RunError "table overflow"
  | Undefined _ => False
  end.
Proof.
  intros Him Hl.
  pose proof (set_implements t (seq_map l) (akey (Z.of_nat (length l) + 1)) (LString s) Him) as Hs.
  change (push_span t _ s) with (set t (akey (Z.of_nat (length l) + 1)) (LString s)).
  destruct (set t _ _) as [t'|e|w]; [|destruct Hs as [->|[Hv _]]; [done|]|done].
  - destruct Hs as [Hwf Hg]. split; [done|]. intros k Hk. rewrite Hg by done. by apply seq_map_snoc.
  - rewrite akey_int in Hv by (unfold in_s; lia). done.
Qed.

(** The spans of a text between the occurrences of a separator that is not
    empty: the current one begins at [start], the search goes on at [i]. *)
Fixpoint spans_from (fuel : nat) (src sep : list Z) (start i : Z) : list (list Z) :=
  match fuel with
  | O => []
  | S f =>
      if i <=? zlen src - zlen sep then
        if occurs src sep i
        then slice src start (i - start) :: spans_from f src sep (i + zlen sep) (i + zlen sep)
        else spans_from f src sep start (i + 1)
      else [slice src start (zlen src - start)]
  end.

Definition spans (src sep : list Z) : list (list Z) := spans_from (S (S (length src))) src sep 0 0.

(** The loop keeps: the spans, each with the separator, are the source up to the
    beginning of the next span. *)
Lemma split_loop_spec fuel haystack needle iter spanStart t l :
  zlen haystack <= MAXSSIZE -> implements t (seq_map (map LString l)) ->
  flat_map (fun x => x ++ needle) l = slice haystack 0 spanStart ->
  0 <= spanStart <= iter -> spanStart <= zlen haystack -> Z.of_nat (length l) <= spanStart ->
  (needle = [] -> iter = spanStart + 1) -> zlen haystack + 2 - iter <= Z.of_nat fuel -> (0 < fuel)%nat ->
  match split_loop fuel haystack needle iter spanStart (Z.of_nat (length l)) t with
  | Ret (t', n, start) => exists l', n = Z.of_nat (length l') /\ implements t' (seq_map (map LString l'))
      /\ flat_map (fun x => x ++ needle) l' = slice haystack 0 start
      /\ 0 <= start <= zlen haystack /\ n <= start /\ (needle = [] -> start = zlen haystack)
      /\ (needle <> [] -> l' ++ [slice haystack start (zlen haystack - start)]
                          = l ++ spans_from fuel haystack needle spanStart iter)
  | Throw e => e = RunError "table overflow"
  | Undefined _ => False
  end.
Proof.
  intros Hlen. unfold MAXSSIZE in Hlen. pose proof (zlen_nonneg needle) as Hnl.
  revert iter spanStart t l. induction fuel as [|f IH]; intros iter spanStart t l Him Htext Hs Hsh Hl He Hf Hf0;
    [lia|]. cbn [split_loop spans_from].
  destruct (Z.leb_spec iter (zlen haystack - zlen needle)) as [Hin|Hout].
  2:{ exists l. split_and!; try done; try lia. intros ->. specialize (He eq_refl).
      rewrite zlen_nil in Hout. lia. }
  assert (occurs haystack needle iter = bool_decide (slice haystack iter (zlen needle) = needle)) as ->.
  { unfold occurs. by rewrite (proj2 (Z.leb_le 0 iter)), (proj2 (Z.leb_le _ (zlen haystack))) by lia. }
  rewrite bytes_in by lia. cbn [outcome_bind]. case_bool_decide as Hm.
  - rewrite bytes_in by lia. cbn [outcome_bind].
    assert (Z.of_nat (length (map LString l)) = Z.of_nat (length l)) as Hml by by rewrite length_map.
    pose proof (push_span_spec t (map LString l) (slice haystack spanStart (iter - spanStart)) Him
      ltac:(lia)) as Hp. rewrite Hml in Hp.
    destruct (push_span t _ _) as [t'|e|w]; cbn [outcome_bind]; [|done|done].
    set (l1 := l ++ [slice haystack spanStart (iter - spanStart)]).
    replace (Z.of_nat (length l) + 1) with (Z.of_nat (length l1)) by (subst l1; rewrite length_app; cbn; lia).
    assert (needle = [] \/ 0 < zlen needle) as Hne.
    { destruct needle; [by left|right; rewrite zlen_cons; pose proof (zlen_nonneg needle); lia]. }
    set (next := if 0 <? zlen needle then iter + (zlen needle - 1) else iter).
    assert (next = iter + Z.max 1 (zlen needle) - 1) as Hnext
      by (subst next; destruct (Z.ltb_spec 0 (zlen needle)); lia).
    specialize (IH (next + 1) (iter + zlen needle) t' l1).
    assert (implements t' (seq_map (map LString l1))) as Him1 by (subst l1; by rewrite map_app).
    assert (flat_map (fun x => x ++ needle) l1 = slice haystack 0 (iter + zlen needle)) as Htext1.
    { subst l1. rewrite flat_map_app, Htext. cbn [flat_map]. rewrite app_nil_r, <- Hm at 1.
      replace (iter + zlen needle) with (spanStart + ((iter - spanStart) + zlen needle)) by lia.
      rewrite !slice_app by lia. do 3 f_equal. lia. }
    assert (Z.of_nat (length l1) <= iter + zlen needle) as Hl1.
    { subst l1. rewrite length_app. cbn. destruct Hne as [->|]; [specialize (He eq_refl)|]; lia. }
    specialize (IH Him1 Htext1 ltac:(lia) ltac:(lia) Hl1 ltac:(intros ->; rewrite zlen_nil in *; lia)
      ltac:(lia) ltac:(lia)).
    destruct (split_loop _ _ _ _ _ _ _) as [[[t2 n2] start]|e|w]; [|exact IH|exact IH].
    destruct IH as (l' & ? & ? & ? & ? & ? & ? & Hspans). exists l'. split_and!; try done; try lia.
    intros Hn0. rewrite (Hspans Hn0). subst l1. rewrite <- app_assoc. cbn [app]. do 3 f_equal.
    destruct Hne; [done|lia].
  - assert (needle <> []) as Hn0 by (intros ->; by destruct Hm).
    apply IH; try done; lia.
Qed.

Lemma seq_map_akey l j :
  in_s 32 j -> 1 <= j -> seq_map l (akey j) = default LNil (l !! Z.to_nat (j - 1)).
Proof.
  intros Hj H1'. unfold seq_map. rewrite index_of_akey by done.
  by rewrite (proj2 (Z.leb_le _ _)) by done.
Qed.

(** The length of a table that is a list without [nil]s. *)
Lemma seq_getn t l :
  implements t (seq_map l) -> Forall (fun v => v <> LNil) l -> Z.of_nat (length l) <= MAXSSIZE ->
  exists t', luaH_getn t = Ret (t', Z.of_nat (length l)).
Proof.
  intros [Hwf Hg] Hnil Hl. unfold MAXSSIZE in Hl.
  destruct (getn_wf t Hwf) as (lf & n & -> & Hb & _). exists (set_lastfree lf t). do 2 f_equal.
  pose proof (border_bound t n Hwf Hb) as Hn. rewrite MAXSIZE_eq in Hn.
  destruct (border_get t n Hwf Hb) as [Hlo Hhi].
  rewrite Hg, seq_map_akey in Hhi by (try apply akey_int; unfold in_s; lia).
  destruct (decide (n < Z.of_nat (length l))) as [Hlt|].
  - destruct (lookup_lt_is_Some_2 l (Z.to_nat (n + 1 - 1)) ltac:(lia)) as [v Hv].
    rewrite Hv in Hhi. cbn in Hhi. rewrite Forall_lookup in Hnil. by apply Hnil in Hv.
  - destruct Hlo as [->|Hlo]; [lia|]. destruct (decide (n = Z.of_nat (length l))); [done|].
    rewrite Hg in Hlo by (apply akey_int; unfold in_s; lia).
    rewrite seq_map_akey in Hlo by (unfold in_s; lia).
    by rewrite lookup_ge_None_2 in Hlo by lia.
Qed.

Lemma seq_range t l :
  implements t (seq_map l) -> Z.of_nat (length l) <= MAXSSIZE ->
  range_of t 1 (Z.of_nat (length l)) = l.
Proof.
  intros [Hwf Hg] Hl. unfold MAXSSIZE in Hl. unfold range_of.
  replace (Z.of_nat (length l) - 1 + 1) with (Z.of_nat (length l)) by lia. rewrite Nat2Z.id.
  apply list_eq. intros i. unfold zseq. rewrite map_map.
  destruct (decide (i < length l)%nat) as [Hi|].
  - rewrite lookup_map_seq by done. destruct (lookup_lt_is_Some_2 l i Hi) as [v Hv].
    rewrite Hg by (apply akey_int; unfold in_s; lia). rewrite seq_map_akey by (unfold in_s; lia).
    replace (Z.to_nat (1 + Z.of_nat i - 1)) with i by lia. by rewrite Hv.
  - rewrite !lookup_ge_None_2; [done|lia|rewrite length_map, length_seq; lia].
Qed.

(** The table of the spans, which joined with the separator are the source. *)
Lemma str_split_spec args s sep :
  luaL_checklstring args 1 = Ret s -> luaL_optlstring args 2 (chars ",") = Ret sep ->
  zlen s <= MAXSSIZE ->
  match str_split args with
  | Ret t => exists l, implements t (seq_map (map LString l)) /\ join sep l = s
      /\ Z.of_nat (length l) <= zlen s + 1 /\ (sep <> [] -> l = spans s sep)
  | Throw e => e = RunError "table overflow"
  | Undefined _ => False
  end.
Proof.
  intros Hs Hsep Hlen. unfold str_split. rewrite Hs, Hsep. cbn [outcome_bind].
  destruct (luaH_new_spec 0 0 ltac:(done) ltac:(done)) as (t & -> & Hwf & Hent & _). cbn [outcome_bind].
  assert (implements t (seq_map (map LString []))) as Him.
  { split; [done|]. intros k Hk. unfold seq_map. cbn.
    replace (get t k) with LNil; [by destruct (index_of k); [case_match|]|].
    symmetry. destruct (decide (get t k = LNil)) as [|Hne]; [done|].
    destruct (get_entry t k Hwf Hk Hne) as (k2 & _ & Hin). rewrite Hent in Hin. by apply elem_of_nil in Hin. }
  pose proof (zlen_nonneg s) as Hs0.
  set (begin := if zlen sep =? 0 then 1 else 0).
  assert (begin = 0 \/ begin = 1) as Hbegin by (subst begin; case_match; auto).
  pose proof (split_loop_spec (S (S (length s))) s sep begin 0 t [] Hlen Him eq_refl ltac:(lia)
    ltac:(lia) ltac:(done) ltac:(by intros ->) ltac:(unfold zlen in *; lia) ltac:(lia)) as Hloop.
  cbn [length Z.of_nat] in Hloop.
  destruct (split_loop _ _ _ _ _ _ _) as [[[t' n] start]|e|w]; cbn [outcome_bind]; [|done|done].
  destruct Hloop as (l & -> & Him' & Htext & Hst & Hn & He & Hspans).
  destruct (Z.ltb_spec 0 (zlen sep)).
  - rewrite bytes_in by lia. cbn [outcome_bind].
    pose proof (push_span_spec t' (map LString l) (slice s start (zlen s - start)) Him') as Hp.
    rewrite length_map in Hp. unfold MAXSSIZE in Hlen. specialize (Hp ltac:(lia)).
    destruct (push_span t' _ _) as [t2|e|w]; [|done|done].
    exists (l ++ [slice s start (zlen s - start)]). split_and!.
    + by rewrite map_app.
    + rewrite join_snoc, Htext. by apply slice_end.
    + rewrite length_app. cbn. lia.
    + intros Hne. rewrite (Hspans Hne). unfold spans. subst begin.
      by rewrite (proj2 (Z.eqb_neq _ 0)) by lia.
  - assert (sep = []) as ->.
    { destruct sep; [done|]. rewrite zlen_cons in *. pose proof (zlen_nonneg sep). lia. }
    exists l. split_and!; [done| |lia|done].
    rewrite (He eq_refl), slice_all in Htext. rewrite <- Htext. clear.
    induction l as [|x [|y l] IH]; [done| |].
    + cbn. by rewrite !app_nil_r.
    + change (x ++ join [] (y :: l) = (x ++ []) ++ flat_map (fun x => x ++ []) (y :: l)).
      by rewrite IH, app_nil_r.
Qed.

(** * sub, byte, char, reverse *)

(** The bytes from [i] to [j], counted from 1 and clipped to the string. *)
Definition substring (s : list Z) (i j : Z) : list Z :=
  let i := Z.max 1 i in let j := Z.min (zlen s) j in slice s (i - 1) (Z.max 0 (j - i + 1)).

Lemma str_sub_spec args s i j :
  luaL_checklstring args 1 = Ret s -> luaL_checkinteger args 2 = Ret i ->
  luaL_optinteger args 3 (-1) = Ret j ->
  str_sub args = Ret [LString (substring s (posrelat i (zlen s)) (posrelat j (zlen s)))].
Proof.
  intros Hs Hi Hj. unfold str_sub. rewrite Hs. cbn [outcome_bind]. rewrite Hi. cbn [outcome_bind].
  rewrite Hj. cbn [outcome_bind]. pose proof (zlen_nonneg s). unfold substring.
  set (a := posrelat i (zlen s)). set (b := posrelat j (zlen s)).
  assert ((if a <? 1 then 1 else a) = Z.max 1 a) as -> by (destruct (Z.ltb_spec a 1); lia).
  assert ((if zlen s <? b then zlen s else b) = Z.min (zlen s) b) as ->
    by (destruct (Z.ltb_spec (zlen s) b); lia).
  destruct (Z.leb_spec (Z.max 1 a) (Z.min (zlen s) b)).
  - rewrite bytes_in by lia. cbn [outcome_bind]. by rewrite (Z.max_r 0) by lia.
  - by rewrite (Z.max_l 0) by lia.
Qed.

Lemma reverse_loop_spec s n : (n <= length s)%nat -> reverse_loop s n = Ret (rev (take n s)).
Proof.
  induction n as [|n IH]; intros Hn; cbn [reverse_loop]; [done|].
  rewrite cget_nth by (unfold zlen; lia). rewrite IH by lia. cbn [outcome_bind].
  destruct (lookup_lt_is_Some_2 s n ltac:(lia)) as [x Hx]. rewrite (take_S_r s n x Hx), rev_app_distr.
  rewrite Nat2Z.id, nth_lookup, Hx. done.
Qed.

(** The bytes of a short string, pushed as numbers. *)
Lemma str_byte_spec args s :
  luaL_checklstring args 1 = Ret s -> luaL_optinteger args 2 1 = Ret 1 ->
  luaL_optinteger args 3 1 = Ret (-1) -> lua_gettop args + zlen s <= LUAI_MAXCSTACK ->
  str_byte args = Ret (map lua_pushinteger s).
Proof.
  intros Hs H1' H2' Htop. unfold str_byte. rewrite Hs. cbn [outcome_bind]. rewrite H1'.
  cbn [outcome_bind]. change (posrelat 1 (zlen s)) with 1. rewrite H2'. cbn [outcome_bind].
  pose proof (zlen_nonneg s) as Hl. unfold LUAI_MAXCSTACK in Htop.
  assert (posrelat (-1) (zlen s) = zlen s) as ->.
  { unfold posrelat. cbn. replace (-1 + (zlen s + 1)) with (zlen s) by lia.
    by rewrite (proj2 (Z.leb_le 0 _)). }
  cbn [Z.leb Z.compare Pos.compare Pos.compare_cont]. rewrite Z.ltb_irrefl.
  destruct (Z.ltb_spec (zlen s) 1) as [H0'|Hpos].
  { destruct s; [done|]. rewrite zlen_cons in H0'. pose proof (zlen_nonneg s). lia. }
  replace (zlen s - 1 + 1) with (zlen s) by lia. rewrite (proj2 (Z.leb_gt _ _)) by lia.
  unfold luaL_checkstack, lua_checkstack, LUAI_MAXCSTACK, lua_gettop in *.
  rewrite (proj2 (Z.ltb_ge _ (zlen s))), (proj2 (Z.ltb_ge _ (_ + zlen s))) by lia.
  cbn [orb negb outcome_bind]. rewrite bytes_in by lia. cbn [outcome_bind]. by rewrite slice_all.
Qed.

(** [string.char] of the bytes of a string. *)
Lemma char_loop_spec args n i :
  (forall k, (k < n)%nat -> exists c, args !! (Z.to_nat (i - 1) + k)%nat = Some (lua_pushinteger c)
    /\ in_u 8 c) -> 1 <= i ->
  exists r, char_loop args n i = Ret r
    /\ map lua_pushinteger r = take n (drop (Z.to_nat (i - 1)) args).
Proof.
  revert i. induction n as [|n IH]; intros i Hargs Hi; cbn [char_loop]; [by exists []|].
  destruct (Hargs 0%nat ltac:(lia)) as (c & Hc & Hb). rewrite Nat.add_0_r in Hc.
  unfold luaL_checkinteger, lua_tointegerx, lua_tonumberx, index2addr. rewrite Hc.
  unfold lua_pushinteger in *. cbn [luaV_tonumber]. unfold in_u in Hb.
  rewrite luai_num2int_of_Z by (unfold in_s; lia). cbn [outcome_bind].
  rewrite cast_u_id, Z.eqb_refl by done. cbn [luaL_argcheck outcome_bind].
  destruct (IH (i + 1)) as (r & -> & Hr); [|lia|].
  { intros k Hk. replace (Z.to_nat (i + 1 - 1) + k)%nat with (Z.to_nat (i - 1) + S k)%nat by lia.
    apply Hargs. lia. }
  exists (c :: r). split; [done|]. replace (Z.to_nat (i + 1 - 1)) with (S (Z.to_nat (i - 1))) in Hr by lia.
  cbn [map]. rewrite (drop_S _ _ _ Hc). cbn [take]. by rewrite Hr.
Qed.
End Functions.

(** * gsub *)

Section Gsub.
Context `{Target, NumFormat}.
Context {W : Type} (objects : W -> heap).
Context (call : TValue -> list TValue -> W -> outcome (TValue * W)).
Context (gettable : TValue -> TValue -> W -> outcome (TValue * W)).
Context (pat src : list Z) (its : list item).
Context (Hreg : regular pat its) (Hsrc : zlen src <= MAXSSIZE).

Lemma regular_best k :
  can_match src its k = true -> 0 <= k <= zlen src -> k <= (best src its k).1 <= zlen src.
Proof.
  intros Hk Hs. destruct Hreg as (_ & [st Hst] & _).
  by destruct (best_wf src its k st Hst Hk Hs) as (He & _).
Qed.

(** A replacement without a '%'. *)
Lemma add_s_plain ms r s e b : L_ESC ∉ r -> add_s src ms r s e b = Ret (b ++ r).
Proof.
  intros Hr. unfold add_s.
  assert (forall fuel i b, 0 <= i <= zlen r -> zlen r - i < Z.of_nat fuel ->
    add_s_loop fuel src ms r s e i b = Ret (b ++ slice r i (zlen r - i))) as Hloop.
  { clear b. induction fuel as [|f IH]; intros i b Hi Hf; [lia|]. cbn [add_s_loop].
    destruct (Z.ltb_spec i (zlen r)).
    - rewrite cget_nth by lia. cbn [outcome_bind].
      assert (nth (Z.to_nat i) r 0 <> L_ESC) as Hne.
      { intros E. apply Hr. rewrite <- E. apply list_elem_of_In, nth_In. unfold zlen in *. lia. }
      rewrite (proj2 (Z.eqb_neq _ _) Hne). cbn [negb]. rewrite IH by lia. rewrite <- app_assoc.
      do 2 f_equal. rewrite <- slice_one by lia. rewrite <- slice_app by lia. f_equal. lia.
    - replace (zlen r - i) with 0 by lia. by rewrite slice_empty, app_nil_r. }
  rewrite Hloop by (unfold zlen; lia). by rewrite Z.sub_0_r, slice_all.
Qed.

Lemma add_s_whole ms s e b :
  0 <= s <= e -> e <= zlen src -> add_s src ms (chars "%0") s e b = Ret (b ++ slice src s (e - s)).
Proof.
  intros. unfold add_s. change (chars "%0") with [37; 48].
  cbn -[slice]. rewrite bytes_in by lia. done.
Qed.

(** A step of the loop: the text that replaces a match depends on its ends. *)
Section Step.
Context (repl : TValue) (text_of : Z -> Z -> list Z).
Context (Hrepl : forall top ms s e b w, 0 <= s <= e -> e <= zlen src ->
  add_value W objects call gettable top src ms repl s e b w = Ret (b ++ text_of s e, w)).

Lemma gsub_step f top anchor max_s s n ms b w :
  0 <= s <= zlen src -> matchdepth ms = LUAI_MAXCCALLS -> n < max_s ->
  let m := can_match src its s in
  let e := (best src its s).1 in
  let n' := if m then n + 1 else n in
  let b' := if m then b ++ text_of s e else b in
  exists ms', matchdepth ms' = LUAI_MAXCCALLS /\
    gsub_loop W objects call gettable (S f) top pat src anchor repl max_s s n ms b w =
      if m && (s <? e) then
        if anchor then Ret (b', e, n', w)
        else gsub_loop W objects call gettable f top pat src anchor repl max_s e n' ms' b' w
      else if s <? zlen src then
        let b'' := b' ++ slice src s 1 in
        if anchor then Ret (b'', s + 1, n', w)
        else gsub_loop W objects call gettable f top pat src anchor repl max_s (s + 1) n' ms' b'' w
      else Ret (b', s, n', w).
Proof.
  intros Hs Hd Hn. cbv zeta. cbn [gsub_loop]. rewrite (proj2 (Z.ltb_lt _ _) Hn).
  destruct (match_at_best pat src its Hreg Hsrc s ms Hs Hd) as (ms' & -> & Hd' & _).
  exists ms'. split; [done|]. cbn [outcome_bind]. unfold src_end.
  destruct (can_match src its s) eqn:Hm; cbn [andb default].
  - destruct (regular_best s Hm Hs). rewrite Hrepl by lia. cbn [outcome_bind].
    destruct (s <? _); [done|]. destruct (Z.ltb_spec s (zlen src)); [|done].
    rewrite cget_nth, slice_one by lia. done.
  - cbn [outcome_bind]. destruct (Z.ltb_spec s (zlen src)); [|done].
    rewrite cget_nth, slice_one by lia. done.
Qed.
End Step.

(** Replacing each match by itself. *)
Lemma gsub_identity_loop fuel top anchor max_s s n ms w :
  0 <= s <= zlen src -> matchdepth ms = LUAI_MAXCCALLS -> zlen src - s + 1 < Z.of_nat fuel ->
  exists s' n', gsub_loop W objects call gettable fuel top pat src anchor (LString (chars "%0"))
      max_s s n ms (slice src 0 s) w = Ret (slice src 0 s', s', n', w) /\ 0 <= s' <= zlen src.
Proof.
  revert s n ms. induction fuel as [|f IH]; intros s n ms Hs Hd Hf; [lia|].
  destruct (Z.lt_ge_cases n max_s) as [Hn|Hn].
  2:{ exists s, n. cbn [gsub_loop]. by rewrite (proj2 (Z.ltb_ge _ _) Hn). }
  destruct (gsub_step (LString (chars "%0")) (fun s e => slice src s (e - s))) with
    (f := f) (top := top) (anchor := anchor) (max_s := max_s) (s := s) (n := n) (ms := ms)
    (b := slice src 0 s) (w := w) as (ms' & Hd' & ->); [|done..|].
  { intros. cbn [add_value value_text outcome_bind]. by rewrite add_s_whole. }
  assert (forall e, s <= e -> slice src 0 s ++ slice src s (e - s) = slice src 0 e) as Happ.
  { intros e He. pose proof (slice_app src 0 s (e - s) ltac:(lia) ltac:(lia) ltac:(lia)) as Ha.
    by replace (s + (e - s)) with e in Ha by lia. }
  pose proof (regular_best s) as Hb. set (e := (best src its s).1) in *.
  set (n' := if can_match src its s then n + 1 else n).
  assert ((if can_match src its s then slice src 0 s ++ slice src s (e - s) else slice src 0 s)
    = if can_match src its s && (s <? e) then slice src 0 e else slice src 0 s) as ->.
  { destruct (can_match src its s); [|done]. specialize (Hb eq_refl Hs). rewrite Happ by lia. cbn [andb].
    destruct (Z.ltb_spec s e); [done|]. by replace e with s by lia. }
  destruct (can_match src its s && (s <? e)) eqn:Hm.
  - apply andb_true_iff in Hm as [Hm Hlt]. specialize (Hb Hm Hs). destruct anchor; [eauto with lia|].
    apply IH; lia || done.
  - assert (slice src 0 s ++ slice src s 1 = slice src 0 (s + 1)) as ->.
    { replace 1 with (s + 1 - s) at 1 by lia. apply Happ. lia. }
    destruct (Z.ltb_spec s (zlen src)); [|eauto with lia].
    destruct anchor; [exists (s + 1), n'; split; [done|lia]|]. apply IH; lia || done.
Qed.
End Gsub.

(** * Replacing a plain text, and splitting at it *)

Lemma join_cons sep x l : l <> [] -> join sep (x :: l) = x ++ sep ++ join sep l.
Proof. by destruct l. Qed.

Lemma spans_from_nonempty f src sep start i :
  1 <= zlen sep -> zlen src - i < Z.of_nat f -> (0 < f)%nat -> spans_from f src sep start i <> [].
Proof.
  revert start i. induction f as [|f IH]; intros start i Hsep Hf Hf0; [lia|]. cbn [spans_from].
  destruct (Z.leb_spec i (zlen src - zlen sep)); [|done]. destruct (occurs src sep i); [done|].
  apply IH; lia.
Qed.

Section Plain.
Context `{Target, NumFormat}.
Context {W : Type} (objects : W -> heap).
Context (call : TValue -> list TValue -> W -> outcome (TValue * W)).
Context (gettable : TValue -> TValue -> W -> outcome (TValue * W)).
Context (pat src r : list Z) (Hplain : forallb plain_char pat = true) (Hne : 1 <= zlen pat).
Context (Hsrc : zlen src <= MAXSSIZE) (Hr : L_ESC ∉ r).

(** The loop ends, and the text is [t]. *)
Definition yields (o : outcome (list Z * Z * Z * W)) (t : list Z) (w : W) : Prop :=
  exists b s n, o = Ret (b, s, n, w) /\ 0 <= s <= zlen src /\ b ++ slice src s (zlen src - s) = t.

Lemma literal_match k : 0 <= k <= zlen src ->
  can_match src (literal pat) k = occurs src pat k
  /\ (occurs src pat k = true -> (best src (literal pat) k).1 = k + zlen pat).
Proof.
  intros Hk. unfold can_match, best. rewrite matches_literal by done. by destruct (occurs src pat k).
Qed.

Lemma plain_step f top max_s s n ms b w :
  0 <= s <= zlen src -> matchdepth ms = LUAI_MAXCCALLS -> n < max_s ->
  exists ms', matchdepth ms' = LUAI_MAXCCALLS /\
    gsub_loop W objects call gettable (S f) top pat src false (LString r) max_s s n ms b w =
      if occurs src pat s then
        gsub_loop W objects call gettable f top pat src false (LString r) max_s (s + zlen pat) (n + 1)
          ms' (b ++ r) w
      else if s <? zlen src then
        gsub_loop W objects call gettable f top pat src false (LString r) max_s (s + 1) n ms'
          (b ++ slice src s 1) w
      else Ret (b, s, n, w).
Proof.
  intros Hs Hd Hn.
  destruct (gsub_step objects call gettable pat src (literal pat) (regular_plain pat Hplain) Hsrc
    (LString r) (fun _ _ => r)) with (f := f) (top := top) (anchor := false) (max_s := max_s) (s := s)
    (n := n) (ms := ms) (b := b) (w := w) as (ms' & Hd' & ->); [|done..|].
  { intros. cbn [add_value value_text outcome_bind]. by rewrite add_s_plain. }
  exists ms'. split; [done|]. destruct (literal_match s Hs) as [-> He].
  destruct (occurs src pat s); cbn [andb]; [|done]. rewrite (He eq_refl).
  by rewrite (proj2 (Z.ltb_lt _ _)) by lia.
Qed.

Lemma plain_tail fuel top max_s s n ms b w :
  0 <= s <= zlen src -> matchdepth ms = LUAI_MAXCCALLS -> n < max_s ->
  zlen src - s < Z.of_nat fuel -> (forall j, s <= j -> occurs src pat j = false) ->
  yields (gsub_loop W objects call gettable fuel top pat src false (LString r) max_s s n ms b w)
    (b ++ slice src s (zlen src - s)) w.
Proof.
  revert s ms b. induction fuel as [|f IH]; intros s ms b Hs Hd Hn Hf Ho; [lia|].
  destruct (plain_step f top max_s s n ms b w Hs Hd Hn) as (ms' & Hd' & ->). rewrite Ho by lia.
  destruct (Z.ltb_spec s (zlen src)); [|by exists b, s, n].
  replace (b ++ slice src s (zlen src - s))
    with ((b ++ slice src s 1) ++ slice src (s + 1) (zlen src - (s + 1))).
  { apply IH; try done; try lia. intros j Hj. apply Ho. lia. }
  rewrite <- app_assoc. f_equal. rewrite <- slice_app by lia. f_equal. lia.
Qed.

Lemma plain_loop fuel top max_s start s n ms pre w :
  0 <= start <= s -> s <= zlen src -> matchdepth ms = LUAI_MAXCCALLS -> n <= s -> zlen src < max_s ->
  zlen src - s < Z.of_nat fuel ->
  yields (gsub_loop W objects call gettable fuel top pat src false (LString r) max_s s n ms
            (pre ++ slice src start (s - start)) w)
    (pre ++ join r (spans_from fuel src pat start s)) w.
Proof.
  revert start s n ms pre. induction fuel as [|f IH]; intros start s n ms pre Hst Hs Hd Hn Hmax Hf; [lia|].
  cbn [spans_from]. destruct (Z.leb_spec s (zlen src - zlen pat)) as [Hin|Hout].
  - destruct (plain_step f top max_s s n ms (pre ++ slice src start (s - start)) w ltac:(lia) Hd ltac:(lia))
      as (ms' & Hd' & ->).
    destruct (occurs src pat s).
    + rewrite join_cons by (apply spans_from_nonempty; lia).
      specialize (IH (s + zlen pat) (s + zlen pat) (n + 1) ms' ((pre ++ slice src start (s - start)) ++ r)
        ltac:(lia) ltac:(lia) Hd' ltac:(lia) Hmax ltac:(lia)).
      rewrite Z.sub_diag, slice_empty, app_nil_r, <- !app_assoc in IH. by rewrite <- !app_assoc.
    + rewrite (proj2 (Z.ltb_lt _ _)) by lia. rewrite <- app_assoc.
      replace (slice src start (s - start) ++ slice src s 1) with (slice src start (s + 1 - start)).
      * apply IH; lia || done.
      * replace (s + 1 - start) with (s - start + 1) by lia. rewrite slice_app by lia. do 2 f_equal. lia.
  - cbn [join].
    replace (pre ++ slice src start (zlen src - start))
      with ((pre ++ slice src start (s - start)) ++ slice src s (zlen src - s)).
    + apply plain_tail; try done; try lia. intros j Hj. unfold occurs.
      by rewrite (proj2 (Z.leb_gt (j + zlen pat) _)), andb_false_r by lia.
    + rewrite <- app_assoc. f_equal. replace (zlen src - start) with ((s - start) + (zlen src - s)) by lia.
      rewrite slice_app by lia. do 2 f_equal. lia.
Qed.
End Plain.
