(* ===== verification/StrType.v ===== *)
(** What kind of values the functions of [StrLib.v] return: the strings they build
    consist of bytes and are no longer than a string may be. *)
From Stdlib Require Import Ascii.
From stdpp Require Import gmap.
From S2P Require Import Prelude Word Double DoubleExact LuaApi Tm Arith Key TableNode Table TabLib.
From S2P Require Import Pattern PatternSpec PatternMatch PatternSafe StrLib StrSpec StrSafe StrOps.
Open Scope Z_scope.
Open Scope outcome_scope.

(** A string of the virtual machine. *)
Definition is_string (s : list Z) : Prop := Forall (in_u 8) s /\ zlen s <= MAXSSIZE.

Definition typed (v : TValue) : Prop :=
  match v with LString s => is_string s | LNumber _ | LNil => True | _ => False end.

(** What a function returns, when it returns. *)
Definition returns {A} (m : outcome A) (Q : A -> Prop) : Prop := forall a, m = Ret a -> Q a.

Lemma returns_bind {A B} (m : outcome A) (f : A -> outcome B) P Q :
  returns m P -> (forall a, P a -> returns (f a) Q) -> returns (outcome_bind m f) Q.
Proof. intros Hm Hf b Hb. apply bind_Ret_inv in Hb as (a & Ha & Hb). eapply Hf; eauto. Qed.

Lemma returns_ret {A} (a : A) (Q : A -> Prop) : Q a -> returns (Ret a) Q.
Proof. by intros ? ? [= <-]. Qed.

Lemma returns_any {A} (m : outcome A) : returns m (fun _ => True).
Proof. done. Qed.

Lemma returns_error {A} msg (Q : A -> Prop) : returns (luaL_error msg) Q.
Proof. done. Qed.

Create HintDb returns discriminated.
#[export] Hint Resolve returns_ret returns_any returns_error : returns.

Lemma returns_safe {A} (m : outcome A) (P Q : A -> Prop) : safe m P -> returns m Q -> safe m Q.
Proof. intros Hs Hr. destruct m; [by apply Hr|done|done]. Qed.

Lemma safe_any {A B} (m : outcome A) (f : A -> outcome B) Q :
  is_defined m = true -> (forall a, safe (f a) Q) -> safe (outcome_bind m f) Q.
Proof. intros Hm Hf. destruct m; [apply Hf|done|done]. Qed.

Section Bytes.
Context (b : list Z) (Hb : is_string b).

Lemma bytes_typed i n : returns (bytes b i n) is_string.
Proof.
  destruct Hb as [Hf Hl]. intros r. unfold bytes. case_match eqn:Hc; [|done]. intros [= <-].
  split; [by apply Forall_take, Forall_drop|]. unfold slice, zlen in *.
  rewrite length_take, length_drop. lia.
Qed.

Lemma map_typed f : (forall c, in_u 8 c -> in_u 8 (f c)) -> is_string (map f b).
Proof.
  destruct Hb as [Hf Hl]. intros Hi. split; [|by unfold zlen; rewrite length_map].
  apply Forall_map. eapply Forall_impl; [exact Hf|]. exact Hi.
Qed.

Lemma rev_typed : is_string (rev b).
Proof. destruct Hb. split; [by apply Forall_rev|]. unfold zlen. by rewrite length_rev. Qed.

Lemma copies_typed n : 0 <= n -> zlen b * n <= MAXSSIZE -> is_string (copies n b).
Proof.
  destruct Hb as [Hf _]. intros Hn Hl. split; [|by rewrite zlen_copies].
  unfold copies. induction (Z.to_nat n) as [|m IH]; cbn; [constructor|by apply Forall_app].
Qed.
End Bytes.

Lemma empty_typed : is_string [].
Proof. split; [constructor|]. rewrite zlen_nil. unfold MAXSSIZE. lia. Qed.

Lemma string_typed s : is_string s -> Forall typed [LString s].
Proof. intros Hs. by apply Forall_singleton. Qed.

Lemma pushed_inj l l' : Forall (in_u 8) l -> Forall (in_u 8) l' ->
  map lua_pushinteger l = map lua_pushinteger l' -> l = l'.
Proof.
  revert l'. induction l as [|x l IH]; intros [|y l'] Hl Hl' Heq; try done.
  inversion_clear Hl as [|? ? Hx Hr]. inversion_clear Hl' as [|? ? Hy Hr'].
  cbn [map] in Heq. injection Heq as Hxy Heq. apply (f_equal trunc_Z) in Hxy. unfold in_u in *.
  rewrite !trunc_Z_double_of_Z in Hxy by lia. injection Hxy as ->. by rewrite (IH l').
Qed.

Section Types.
Context `{VecSize, Target, NumFormat}.

(** The arguments of a call; a number is converted to its text. *)
Definition typed_args (args : list TValue) : Prop :=
  Z.of_nat (length args) <= MAXSSIZE /\ forall i s, lua_tolstring args i = Some s -> is_string s.

Lemma typed_sized args : typed_args args -> sized args.
Proof. intros [_ Ha] i s Hs. by eapply Ha. Qed.

Lemma checklstring_typed args i : typed_args args -> returns (luaL_checklstring args i) is_string.
Proof.
  intros Ha s. unfold luaL_checklstring. destruct (lua_tolstring args i) as [s'|] eqn:E; [|done].
  intros [= <-]. by eapply Ha.
Qed.

(** ** The captures *)

Section Captures.
Context (src : list Z) (Hsrc : is_string src).

Lemma push_one_typed ms i se : returns (push_onecapture src ms i se) typed.
Proof.
  unfold push_onecapture. case_match.
  - case_match; [|done]. destruct se as [[s e]|]; [|done].
    eapply returns_bind; [by apply bytes_typed|]. auto with returns.
  - eapply returns_bind; [apply returns_any|]. intros [a l] _. repeat case_match; auto with returns.
    + by apply returns_ret.
    + eapply returns_bind; [by apply bytes_typed|]. auto with returns.
Qed.

Lemma push_loop_typed ms se n i : returns (push_loop src ms se n i) (Forall typed).
Proof.
  revert i. induction n as [|n IH]; intros i; cbn [push_loop]; [by apply returns_ret|].
  eapply returns_bind; [apply push_one_typed|]. intros v Hv.
  eapply returns_bind; [apply IH|]. intros r Hr. apply returns_ret. by constructor.
Qed.

Lemma push_captures_typed top ms se : returns (push_captures top src ms se) (Forall typed).
Proof. eapply returns_bind; [apply returns_any|]. intros _ _. apply push_loop_typed. Qed.
End Captures.

Lemma str_find_aux_typed find args : typed_args args -> returns (str_find_aux find args) (Forall typed).
Proof.
  intros Ha. eapply returns_bind; [by apply checklstring_typed|]. intros s Hs.
  eapply returns_bind; [apply returns_any|]. intros p _.
  eapply returns_bind; [apply returns_any|]. intros init _.
  cbv zeta. destruct (_ && _); [by apply returns_ret; repeat constructor|].
  eapply returns_bind; [apply returns_any|]. intros plain _. destruct plain.
  - eapply returns_bind; [apply returns_any|].
    intros [k|] _; apply returns_ret; repeat constructor.
  - destruct (anchored p) as [anchor pat].
    eapply returns_bind; [apply returns_any|]. intros [[[k e]|] ms] _.
    + destruct find; [|by apply push_captures_typed].
      eapply returns_bind; [by apply push_captures_typed|]. intros caps Hc. apply returns_ret.
      by repeat constructor.
    + apply returns_ret; repeat constructor.
Qed.

(** ** The other functions *)

Lemma str_len_typed args : typed_args args -> safe (str_len args) (Forall typed).
Proof.
  intros Ha. eapply safe_step; [by apply checklstring_safe, typed_sized|].
  intros s _. by repeat constructor.
Qed.

Lemma str_sub_typed args : typed_args args -> safe (str_sub args) (Forall typed).
Proof.
  intros Ha. apply (returns_safe _ (fun _ => True)).
  - eapply safe_step; [by apply checklstring_safe, typed_sized|]. intros s _.
    apply safe_any; [apply checkinteger_defined|]. intros i.
    eapply safe_step; [apply optinteger_safe|]. intros j _. pose proof (zlen_nonneg s).
    cbv zeta. match goal with |- context [(if ?a then ?b else ?c) <=? ?e] =>
      destruct (Z.leb_spec (if a then b else c) e) end; [|done].
    rewrite bytes_in; [done|..]; repeat case_match; lia.
  - eapply returns_bind; [by apply checklstring_typed|]. intros s Hs.
    eapply returns_bind; [apply returns_any|]. intros i _.
    eapply returns_bind; [apply returns_any|]. intros j _. cbv zeta. destruct (_ <=? _).
    + eapply returns_bind; [by apply bytes_typed|]. intros r Hr. by apply returns_ret, string_typed.
    + by apply returns_ret, string_typed, empty_typed.
Qed.

Lemma str_reverse_typed args : typed_args args -> safe (str_reverse args) (Forall typed).
Proof.
  intros Ha. unfold str_reverse.
  eapply safe_step; [eapply returns_safe; [by apply checklstring_safe, typed_sized|by apply checklstring_typed]|].
  intros s Hs. rewrite reverse_loop_spec by done. rewrite firstn_all. cbn.
  by apply string_typed, rev_typed.
Qed.

Lemma map_bytes_typed args f : typed_args args -> (forall c, in_u 8 c -> in_u 8 (f c)) ->
  safe (s <- luaL_checklstring args 1 ;; Ret [LString (map f s)]) (Forall typed).
Proof.
  intros Ha Hf. eapply safe_step; [eapply returns_safe;
    [by apply checklstring_safe, typed_sized|by apply checklstring_typed]|].
  intros s Hs. by apply string_typed, map_typed.
Qed.

Lemma str_case_typed args : typed_args args ->
  safe (str_lower args) (Forall typed) /\ safe (str_upper args) (Forall typed).
Proof.
  intros Ha. split; apply map_bytes_typed; try done; intros c Hc;
    unfold tolower, toupper, isupper, islower, between, in_u in *; case_match; lia.
Qed.

Lemma str_rep_typed args : typed_args args -> safe (str_rep args) (Forall typed).
Proof.
  intros Ha. pose proof (checklstring_safe args 1 (typed_sized _ Ha)) as Hd.
  pose proof (checklstring_typed args 1 Ha) as Ht. pose proof (checkinteger_defined args 2) as Hi.
  destruct (luaL_checklstring args 1) as [s| |] eqn:Es; [|by unfold str_rep; rewrite Es|done].
  destruct (luaL_checkinteger args 2) as [n| |] eqn:Ei; [|by unfold str_rep; rewrite Es; cbn; rewrite Ei|done].
  rewrite (str_rep_spec args s n) by done. specialize (Ht s eq_refl).
  destruct (Z.leb_spec n 0); [by apply string_typed, empty_typed|].
  destruct (Z.ltb_spec MAXSSIZE (zlen s * n)); [done|]. by apply string_typed, copies_typed; try lia.
Qed.

Lemma str_byte_typed args : typed_args args -> safe (str_byte args) (Forall typed).
Proof.
  intros Ha. unfold str_byte. eapply safe_step; [by apply checklstring_safe, typed_sized|]. intros s _.
  eapply safe_step; [apply optinteger_safe|]. intros i _.
  eapply safe_step; [apply optinteger_safe|]. intros j _. cbv zeta. pose proof (zlen_nonneg s).
  set (b := if posrelat i (zlen s) <=? 0 then 1 else posrelat i (zlen s)).
  set (e := if zlen s <? posrelat j (zlen s) then zlen s else posrelat j (zlen s)).
  assert (1 <= b) by (subst b; case_match; lia).
  assert (e <= zlen s) by (subst e; case_match; lia).
  destruct (Z.ltb_spec e b); [by constructor|].
  rewrite (proj2 (Z.leb_gt _ _)) by lia. unfold luaL_checkstack. case_match; [|done].
  cbn [outcome_bind]. rewrite bytes_in by lia. cbn. apply Forall_map, Forall_true. done.
Qed.

Lemma char_loop_typed args n i :
  safe (char_loop args n i) (fun r => Forall (in_u 8) r /\ length r = n).
Proof.
  revert i. induction n as [|n IH]; intros i; cbn [char_loop]; [by split|].
  apply safe_any; [apply checkinteger_defined|]. intros c.
  apply safe_any; [apply argcheck_defined|]. intros _.
  eapply safe_step; [apply IH|]. intros r [Hf Hl]. split; [|by cbn; rewrite Hl].
  constructor; [|done]. apply cast_u_range. lia.
Qed.

Lemma str_char_typed args : typed_args args -> safe (str_char args) (Forall typed).
Proof.
  intros [Hlen _]. unfold str_char. eapply safe_step; [apply char_loop_typed|].
  intros r [Hf Hl]. apply string_typed. split; [done|]. unfold zlen. by rewrite Hl.
Qed.

(** The functions that return values without a call of another. *)
Definition str_functions : list (list TValue -> outcome (list TValue)) :=
  [str_len; str_sub; str_reverse; str_lower; str_upper; str_rep; str_byte; str_char; str_find; str_match].

Lemma str_functions_typed f args :
  f ∈ str_functions -> typed_args args -> safe (f args) (Forall typed).
Proof.
  intros Hf Ha. pose proof (str_case_typed args Ha) as [Hlow Hup].
  repeat (apply elem_of_cons in Hf as [->|Hf]);
    auto using str_len_typed, str_sub_typed, str_reverse_typed, str_rep_typed, str_byte_typed, str_char_typed.
  - eapply returns_safe; [by apply str_find_aux_safe, typed_sized|by apply str_find_aux_typed].
  - eapply returns_safe; [by apply str_find_aux_safe, typed_sized|by apply str_find_aux_typed].
  - by apply elem_of_nil in Hf.
Qed.
End Types.
