(* ===== verification/StrProps.v ===== *)
(** The string library: the theorems about the functions of [StrLib.v], with
    concrete inputs for them. *)
From Stdlib Require Import Ascii.
From stdpp Require Import gmap.
From S2P Require Import Prelude Word Double DoubleExact LuaApi Tm Arith Key TableNode Table.
From S2P Require Import TableSpec TableMap TableIter Sort SortLib TabLib TabMove TabLibSpec.
From S2P Require Import Pattern PatternSpec PatternMatch PatternSafe StrLib StrSpec StrSafe StrOps StrType.
Open Scope Z_scope.
Open Scope outcome_scope.

(** C9. [match] finds the match that the meaning of the pattern puts
    first: for every pattern that parses, has its captures in order and needs fewer
    than 200 nested calls, at every position of every source, the end of the match
    and the captures it leaves are those of the head of the list of all matches, and
    NULL comes out when the list is empty; the depth is restored either way. *)
Theorem match_refines pat src its s ms :
  zlen src <= MAXSSIZE -> regular pat its -> 0 <= s <= zlen src ->
  level ms = 0 -> matchdepth ms = LUAI_MAXCCALLS ->
  exists ms', match_at pat src s ms = Ret (fst <$> head (matches src its s []), ms')
    /\ matchdepth ms' = LUAI_MAXCCALLS
    /\ holds ms' (match head (matches src its s []) with Some (_, caps) => caps | None => [] end).
Proof.
  unfold MAXSSIZE. intros Hsrc Hreg Hs Hl Hd.
  destruct (match_at_spec pat src ltac:(lia) its s ms Hreg Hs Hl Hd) as (ms' & Hr & Hd' & Hh).
  exists ms'. by rewrite Hd' in *.
Qed.

Section Props.
Context `{VecSize, Target, NumFormat}.

(** C10. The searching functions are safe on every pattern, malformed
    ones included, and every argument: no read outside of the source, the pattern, the
    replacement or the captures that were set, no loop or recursion without an end;
    [string.gsub] returns the text and the number of substitutions, which is at
    most the fourth argument and at most one more than the source has bytes. *)
Theorem string_search_safe {W : Type} (objects : W -> heap) call gettable args w :
  sized args ->
  (forall f a w, is_defined (call f a w) = true) ->
  (forall t k w, is_defined (gettable t k w) = true) ->
  is_defined (str_find args) = true /\ is_defined (str_match args) = true /\
  match str_gsub W objects call gettable args w with
  | Ret (r, _) => exists b n s max_s, r = [LString b; lua_pushinteger n]
      /\ luaL_checklstring args 1 = Ret s /\ luaL_optinteger args 4 (zlen s + 1) = Ret max_s
      /\ 0 <= n <= Z.max 0 max_s /\ n <= zlen s + 1
  | Throw _ => True
  | Undefined _ => False
  end.
Proof.
  intros Hsz Hc Hg. split; [|split].
  - by eapply safe_defined, str_find_aux_safe.
  - by eapply safe_defined, str_find_aux_safe.
  - pose proof (str_gsub_safe objects call gettable Hc Hg args w Hsz) as Hs.
    destruct (str_gsub _ _ _ _ _ _) as [[r w']| |]; [|done|done].
    destruct Hs as (b & n & Hr & s & max_s & ?). cbn in Hr. by exists b, n, s, max_s.
Qed.

(** C22. A loop over [string.gmatch] ends: the iterator yields results
    at most once for every position of the source and one behind it - every call
    that yields some moves its start forward, a match of no bytes included - and
    every result is a string or a number, so none ends the loop early. *)
Theorem gmatch_terminates args c :
  sized args -> gmatch args = Ret c ->
  match gmatch_all (S (S (length (gm_s c)))) c with
  | Ret l => Z.of_nat (length l) <= zlen (gm_s c) + 1
      /\ Forall (fun vs => vs <> [] /\ Forall is_text vs) l
  | Throw _ => True
  | Undefined _ => False
  end.
Proof.
  intros Hsz Hc. unfold gmatch in Hc.
  pose proof (checklstring_safe args 1 Hsz) as H1'.
  destruct (luaL_checklstring args 1) as [s| |]; [|done|done]. cbn in H1', Hc.
  destruct (luaL_checklstring args 2) as [p| |]; [|done|done]. injection Hc as <-.
  pose proof (gmatch_all_safe (S (S (length s))) {| gm_s := s; gm_p := p; gm_start := 0 |} H1')
    as Hs. cbn [gm_s gm_p gm_start] in Hs |- *. pose proof (zlen_nonneg s).
  specialize (Hs ltac:(lia) ltac:(unfold zlen; lia) ltac:(lia)).
  destruct (gmatch_all (S (S (length s))) _) as [l| |]; [|done|done].
  destruct Hs as [? ?]. split; [|done].
  lia.
Qed.

(** C17. [string.find] and [string.match] with a pattern return the
    positions and the captures of the preferred match at the first place from
    [init] on where the pattern matches - only at [init] when it is anchored - and
    [nil] when there is none; [find] does so also where it searches for a pattern
    without special characters as for a plain text. *)
Theorem string_find_spec args s p init anchor pat its :
  luaL_checklstring args 1 = Ret s -> luaL_checklstring args 2 = Ret p ->
  luaL_optinteger args 3 1 = Ret init -> lua_toboolean args 4 = false ->
  anchored p = (anchor, pat) -> good_pattern pat its -> zlen s <= MAXSSIZE ->
  (length args <= 500)%nat ->
  let from := search_from init (zlen s) in
  str_find args = Ret (search_values true s its anchor from)
  /\ str_match args = Ret (search_values false s its anchor from).
Proof. intros. split; by eapply str_find_aux_spec. Qed.

(** A plain search returns the first occurrence of the text, for
    every text and every place to begin at. *)
Theorem string_find_plain args s p init :
  luaL_checklstring args 1 = Ret s -> luaL_checklstring args 2 = Ret p ->
  luaL_optinteger args 3 1 = Ret init -> lua_toboolean args 4 = true ->
  str_find args =
    let from := search_from init (zlen s) in
    Ret (if zlen s + 1 <? from then [LNil]
         else match find_first (occurs s p) (from - 1) (S (Z.to_nat (zlen s - (from - 1)))) with
              | Some k => [lua_pushinteger (k + 1); lua_pushinteger (k + zlen p)]
              | None => [LNil]
              end).
Proof.
  intros Hs Hp Hi H4. unfold str_find, str_find_aux, search_from. rewrite Hs, Hp. cbn [outcome_bind].
  rewrite Hi. cbn [outcome_bind]. rewrite H4. cbn [outcome_bind].
  set (i := posrelat init (zlen s)). set (from := if i <? 1 then 1 else i).
  assert ((1 <=? i) && (zlen s + 1 <? i) = (zlen s + 1 <? from)) as ->.
  { subst from. pose proof (zlen_nonneg s). destruct (Z.ltb_spec i 1); lia. }
  destruct (Z.ltb_spec (zlen s + 1) from) as [|Hfrom]; [done|].
  assert (1 <= from) by (subst from; case_match; lia).
  replace (zlen s - from + 1) with (zlen s - (from - 1)) by lia.
  rewrite lmemfind_spec by lia. cbn [outcome_bind]. by destruct (find_first _ _ _).
Qed.

(** Replacing every match by itself leaves the text as it is:
    [string.gsub(s, p, "%0")] is [s] for every pattern without errors, anchored or
    not, up to any number of substitutions. *)
Theorem gsub_identity {W : Type} (objects : W -> heap) call gettable args w s p anchor pat its max_s :
  luaL_checklstring args 1 = Ret s -> luaL_checklstring args 2 = Ret p ->
  index2addr args 3 = Some (LString (chars "%0")) ->
  luaL_optinteger args 4 (zlen s + 1) = Ret max_s ->
  anchored p = (anchor, pat) -> regular pat its -> zlen s <= MAXSSIZE ->
  exists n, str_gsub W objects call gettable args w = Ret ([LString s; lua_pushinteger n], w).
Proof.
  intros Hs Hp H3 H4 Ha Hreg Hlen. unfold str_gsub. rewrite Hs, Hp. cbn [outcome_bind].
  rewrite H4. cbn [outcome_bind]. rewrite H3, Ha. pose proof (zlen_nonneg s).
  destruct (gsub_identity_loop objects call gettable pat s its Hreg Hlen (S (S (length s)))
    (lua_gettop args) anchor max_s 0 0 prepstate w) as (s' & n & Hl & Hs');
    [lia|done|unfold zlen; lia|].
  rewrite slice_empty in Hl. rewrite Hl. cbn [outcome_bind]. exists n.
  rewrite bytes_in by lia. cbn [outcome_bind]. by rewrite slice_end by lia.
Qed.

(** [string.split] and [string.gsub] agree on where a text occurs:
    replacing the occurrences of a plain text is splitting at it and joining the
    spans with the replacement. *)
Theorem gsub_joins_split {W : Type} (objects : W -> heap) call gettable s sep r w :
  zlen s <= MAXSSIZE -> 1 <= zlen sep -> forallb plain_char sep = true -> L_ESC ∉ r ->
  exists n, str_gsub W objects call gettable [LString s; LString sep; LString r] w
      = Ret ([LString (join r (spans s sep)); lua_pushinteger n], w)
  /\ match str_split [LString s; LString sep] with
     | Ret t => implements t (seq_map (map LString (spans s sep)))
     | Throw e => e = RunError "table overflow"
     | Undefined _ => False
     end.
Proof.
  intros Hlen Hsep Hplain Hr. pose proof (zlen_nonneg s).
  destruct (plain_loop objects call gettable sep s r Hplain Hsep Hlen Hr (S (S (length s))) 3
    (zlen s + 1) 0 0 0 prepstate [] w) as (b & s' & n & Hl & Hs' & Ht);
    [lia|lia|done|lia|lia|unfold zlen; lia|].
  rewrite Z.sub_diag, slice_empty in Hl. cbn [app] in Hl, Ht. exists n. split.
  - unfold str_gsub. cbn [luaL_checklstring lua_tolstring index2addr outcome_bind].
    change (index2addr [LString s; LString sep; LString r] 3) with (Some (LString r)).
    assert (anchored sep = (false, sep)) as Ha.
    { destruct sep as [|c sep]; [done|]. cbn [anchored forallb] in *.
      apply andb_true_iff in Hplain as [Hc _]. by rewrite (plain_not c). }
    change (luaL_checklstring [LString s; LString sep; LString r] 1) with (Ret s).
    change (luaL_checklstring [LString s; LString sep; LString r] 2) with (Ret sep).
    cbn [outcome_bind]. rewrite Ha.
    change (luaL_optinteger [LString s; LString sep; LString r] 4 (zlen s + 1)) with (Ret (zlen s + 1)).
    cbn [outcome_bind]. change (lua_gettop [LString s; LString sep; LString r]) with 3.
    rewrite Hl. cbn [outcome_bind]. rewrite bytes_in by lia. cbn [outcome_bind]. by rewrite Ht.
  - pose proof (str_split_spec [LString s; LString sep] s sep eq_refl eq_refl Hlen) as Hsp.
    destruct (str_split _) as [t| |]; [|done|done]. destruct Hsp as (l & Him & _ & _ & Heq).
    rewrite <- Heq; [done|]. intros ->. rewrite zlen_nil in Hsep. lia.
Qed.

(** C16. [table.concat(string.split(s, sep), sep)] is [s], for every
    text and every separator, the empty one included, unless the spans are too many
    for a table. *)
Theorem split_concat_roundtrip objects s sep a σ :
  zlen s < MAXSSIZE ->
  match str_split [LString s; LString sep] with
  | Ret t => exists σ', tconcat objects [LTable a; LString sep] (<[a := t]> σ) = Ret ([LString s], σ')
  | Throw e => e = RunError "table overflow"
  | Undefined _ => False
  end.
Proof.
  intros Hlen. unfold MAXSSIZE in Hlen.
  pose proof (str_split_spec [LString s; LString sep] s sep eq_refl eq_refl ltac:(unfold MAXSSIZE; lia)) as Hs.
  destruct (str_split _) as [t|e|w]; [|done|done]. destruct Hs as (l & Him & Hj & Hl & _).
  assert (Z.of_nat (length (map LString l)) <= MAXSSIZE) as Hml
    by (rewrite length_map; unfold MAXSSIZE; lia).
  set (args := [LTable a; LString sep]).
  destruct (seq_getn t (map LString l) Him) as [t' Hn]; [by apply Forall_map, Forall_true|done|].
  pose proof (tconcat_spec objects args (<[a := t]> σ) a t sep 1 (Z.of_nat (length (map LString l)))
    eq_refl eq_refl ltac:(split; [apply lookup_insert_eq|apply Him]) eq_refl ltac:(lia)) as Hc.
  specialize (Hc ltac:(by exists t')). rewrite (seq_range t (map LString l) Him Hml) in Hc.
  destruct (tconcat objects args _) as [[r σ']|e|w]; [|exfalso|done].
  - destruct Hc as (l' & Hf & -> & _). exists σ'. do 4 f_equal. rewrite <- Hj. f_equal.
    clear -Hf. revert l' Hf. induction l as [|x l IH]; intros l' Hf; inversion Hf; subst; [done|].
    cbn in *. f_equal; [congruence|auto].
  - destruct Hc as (σ' & k & Hk & Hnone & _). destruct Him as [_ Hg].
    rewrite length_map in *. unfold MAXSSIZE in Hml.
    rewrite Hg in Hnone by (apply akey_int; unfold in_s; lia).
    rewrite seq_map_akey in Hnone by (unfold in_s; lia).
    destruct (lookup_lt_is_Some_2 (map LString l) (Z.to_nat (k - 1))) as [v Hv]; [rewrite length_map; lia|].
    rewrite Hv in Hnone. apply list_lookup_fmap_Some in Hv as (x & -> & _). done.
Qed.

(** [string.rep(s, n)] is [n] copies of [s], however the doubling of the copied
    prefix meets the end; its only errors are those of its arguments and of a
    result longer than a string may be. *)
Theorem string_rep_copies args s n :
  luaL_checklstring args 1 = Ret s -> luaL_checkinteger args 2 = Ret n ->
  str_rep args = if n <=? 0 then Ret [LString []]
                 else if MAXSSIZE <? zlen s * n then Throw (RunError "resulting string too large")
                 else Ret [LString (concat (replicate (Z.to_nat n) s))].
Proof. apply str_rep_spec. Qed.

(** [string.char(string.byte(s, 1, -1))] is [s], for every string whose bytes
    fit on the stack. *)
Theorem string_byte_char s :
  Forall (in_u 8) s -> zlen s + 3 <= LUAI_MAXCSTACK ->
  exists r, str_byte [LString s; LNumber (double_of_Z 1); LNumber (double_of_Z (-1))] = Ret r
    /\ length r = length s /\ str_char r = Ret [LString s].
Proof.
  intros Hf Hlen. exists (map lua_pushinteger s). split; [|split; [by rewrite length_map|]].
  - by apply str_byte_spec; [..|unfold lua_gettop; cbn [length]; lia].
  - unfold str_char. rewrite length_map.
    destruct (char_loop_spec (map lua_pushinteger s) (length s) 1) as (r & Hr & Hm); [|lia|].
    + intros k Hk. destruct (lookup_lt_is_Some_2 s k Hk) as [c Hc]. exists c.
      change (Z.to_nat (1 - 1) + k)%nat with k. rewrite list_lookup_fmap, Hc. split; [done|].
      by eapply Forall_lookup_1.
    + pose proof (char_loop_typed (map lua_pushinteger s) (length s) 1) as Ht. rewrite Hr in Ht |- *.
      change (Z.to_nat (1 - 1)) with 0%nat in Hm.
      rewrite drop_0, firstn_all2 in Hm by (rewrite length_map; lia).
      cbn [outcome_bind]. by rewrite (pushed_inj r s (proj1 Ht) Hf Hm).
Qed.

(** C25. The results of the functions are numbers, [nil] and strings, and the strings
    consist of bytes and have at most [MAXSSIZE] of them, when the arguments are such
    values; no call has an undefined effect. *)
Theorem string_results_typed f args :
  f ∈ str_functions -> typed_args args ->
  match f args with Ret r => Forall typed r | Throw _ => True | Undefined _ => False end.
Proof. apply str_functions_typed. Qed.
End Props.

(** * Witnesses *)

#[local] Existing Instance sample_vec.
#[local] Instance sample_format : NumFormat := fun _ => chars "#".

(** A world without state, functions and tables that answer every call with their
    argument. *)
Definition unit_objects (w : unit) : heap := no_objects sample_sort_state.
Definition first_result (f : TValue) (args : list TValue) (w : unit) : outcome (TValue * unit) :=
  Ret (match args with v :: _ => v | [] => LNil end, w).
Definition same_key (t k : TValue) (w : unit) : outcome (TValue * unit) := Ret (k, w).

Lemma text_arg `{NumFormat} args i s (P : list Z -> Prop) :
  lua_tolstring args i = Some s ->
  Forall (fun v => match v with LString s => P s | LNumber n => P (luai_num2str n) | _ => True end) args ->
  P s.
Proof.
  unfold lua_tolstring. destruct (index2addr args i) as [v|] eqn:E; [|done]. intros Hs Hall.
  rewrite Forall_lookup in Hall. pose proof (Hall _ _ E) as Hv. destruct v; try done; injection Hs as <-; done.
Qed.

Definition kv : list Z := chars "(%w+)=(%w*)".
Definition kv_items : list item := Eval vm_compute in default [] (parse kv).
Definition kv_source : list Z := chars "x=1, key=val".

Lemma kv_regular : regular kv kv_items.
Proof. split; [reflexivity|]. split; [by eexists|]. vm_compute. lia. Qed.

Lemma kv_good : good_pattern kv kv_items.
Proof.
  split; [apply kv_regular|]. eexists. split; [vm_compute; reflexivity|]. by repeat constructor.
Qed.

(** The match at the sixth byte. *)
Lemma match_refines_witness : exists ms',
  match_at kv kv_source 5 prepstate = Ret (Some 12, ms') /\ holds ms' [(5, 3); (9, 3)].
Proof.
  destruct (match_refines kv kv_source kv_items 5 prepstate ltac:(vm_compute; discriminate) kv_regular
    ltac:(vm_compute; split; discriminate) eq_refl eq_refl) as (ms' & Hr & _ & Hh).
  exists ms'. split; [rewrite Hr; f_equal; f_equal; vm_compute; reflexivity|].
  assert (matches kv_source kv_items 5 [] = matches kv_source kv_items 5 []) as E by reflexivity.
  vm_compute in E. vm_compute in Hh. exact Hh.
Defined.

(** A malformed pattern, and one with a capture that is never closed. *)
Definition odd_args : list TValue := [LString (chars "aab"); LString (chars "(a+"); LFunction 1].

Lemma string_search_safe_witness :
  is_defined (str_find odd_args) = true /\ is_defined (str_match odd_args) = true /\
  match str_gsub unit unit_objects first_result same_key odd_args tt with
  | Ret (r, _) => exists b n s max_s, r = [LString b; lua_pushinteger n]
      /\ luaL_checklstring odd_args 1 = Ret s /\ luaL_optinteger odd_args 4 (zlen s + 1) = Ret max_s
      /\ 0 <= n <= Z.max 0 max_s /\ n <= zlen s + 1
  | Throw _ => True
  | Undefined _ => False
  end.
Proof.
  apply (string_search_safe unit_objects first_result same_key odd_args tt).
  - intros i s Hs. apply (text_arg _ _ _ (fun s => zlen s <= MAXSSIZE) Hs).
    repeat constructor; vm_compute; discriminate.
  - reflexivity.
  - reflexivity.
Defined.

Lemma gmatch_terminates_witness : exists l,
  gmatch_all 14 {| gm_s := kv_source; gm_p := kv; gm_start := 0 |} = Ret l /\ length l = 2%nat
  /\ Forall (fun vs => vs <> [] /\ Forall is_text vs) l.
Proof.
  pose proof (gmatch_terminates [LString kv_source; LString kv]
    {| gm_s := kv_source; gm_p := kv; gm_start := 0 |}
    ltac:(intros i s Hs; apply (text_arg _ _ _ (fun s => zlen s <= MAXSSIZE) Hs);
          repeat constructor; vm_compute; discriminate) eq_refl) as Hg.
  cbn [gm_s] in Hg. change (S (S (length kv_source))) with 14%nat in Hg.
  destruct (gmatch_all 14 _) as [l|e|w] eqn:E; [|vm_compute in E; discriminate|destruct Hg].
  exists l. split; [reflexivity|]. split; [|apply Hg].
  vm_compute in E. injection E as <-. reflexivity.
Defined.

Lemma string_find_spec_witness :
  str_find [LString kv_source; LString kv; number 2]
    = Ret [number 6; number 12; LString (chars "key"); LString (chars "val")]
  /\ str_match [LString kv_source; LString kv; number 2]
    = Ret [LString (chars "key"); LString (chars "val")].
Proof.
  destruct (string_find_spec [LString kv_source; LString kv; number 2] kv_source kv 2 false kv kv_items
    eq_refl eq_refl eq_refl eq_refl eq_refl kv_good ltac:(vm_compute; discriminate)
    ltac:(cbn; lia)) as [Hf Hm].
  rewrite Hf, Hm. split; vm_compute; reflexivity.
Defined.

Lemma string_find_plain_witness :
  str_find [LString kv_source; LString (chars "="); number 3; LBoolean true] = Ret [number 9; number 9].
Proof.
  rewrite (string_find_plain [LString kv_source; LString (chars "="); number 3; LBoolean true]
    kv_source (chars "=") 3 eq_refl eq_refl eq_refl eq_refl). vm_compute. reflexivity.
Defined.

Lemma gsub_identity_witness : exists n,
  str_gsub unit unit_objects first_result same_key
    [LString kv_source; LString kv; LString (chars "%0"); number 1] tt
  = Ret ([LString kv_source; lua_pushinteger n], tt).
Proof.
  exact (gsub_identity unit_objects first_result same_key
    [LString kv_source; LString kv; LString (chars "%0"); number 1] tt kv_source kv false kv kv_items 1
    eq_refl eq_refl eq_refl eq_refl eq_refl kv_regular ltac:(vm_compute; discriminate)).
Defined.

Lemma gsub_joins_split_witness : exists n,
  str_gsub unit unit_objects first_result same_key
    [LString (chars "a, b,, c"); LString (chars ","); LString (chars ";;")] tt
  = Ret ([LString (chars "a;; b;;;; c"); lua_pushinteger n], tt).
Proof.
  destruct (gsub_joins_split unit_objects first_result same_key (chars "a, b,, c") (chars ",")
    (chars ";;") tt ltac:(vm_compute; discriminate) ltac:(vm_compute; discriminate) eq_refl
    ltac:(by refine (bool_decide_eq_true_1 (L_ESC ∉ chars ";;") _))) as (n & Hn & _).
  exists n. exact Hn.
Defined.

Lemma split_concat_roundtrip_witness : exists t σ',
  str_split [LString (chars "abcabc"); LString (chars "bc")] = Ret t /\
  tconcat (fun _ => no_objects sample_sort_state) [LTable 1; LString (chars "bc")] (<[1 := t]> ∅)
    = Ret ([LString (chars "abcabc")], σ').
Proof.
  pose proof (split_concat_roundtrip (fun _ => no_objects sample_sort_state) (chars "abcabc")
    (chars "bc") 1 ∅ eq_refl) as Hs.
  destruct (str_split _) as [t|e|w] eqn:E; [|vm_compute in E; discriminate|destruct Hs].
  destruct Hs as [σ' Hs]. exists t, σ'. split; [reflexivity|exact Hs].
Defined.

Lemma string_rep_copies_witness :
  str_rep [LString (chars "ab"); number 5] = Ret [LString (chars "ababababab")].
Proof.
  rewrite (string_rep_copies [LString (chars "ab"); number 5] (chars "ab") 5 eq_refl eq_refl).
  reflexivity.
Defined.

Lemma string_byte_char_witness : exists r,
  str_byte [LString [0; 65; 255]; number 1; number (-1)] = Ret r
  /\ length r = 3%nat /\ str_char r = Ret [LString [0; 65; 255]].
Proof.
  exact (string_byte_char [0; 65; 255] ltac:(unfold in_u; repeat constructor; lia)
    ltac:(vm_compute; discriminate)).
Defined.

Lemma string_results_typed_witness : exists r,
  str_rep [LString (chars "ab"); number 3] = Ret r /\ Forall typed r.
Proof.
  pose proof (string_results_typed str_rep [LString (chars "ab"); number 3]
    ltac:(unfold str_functions; do 5 right; left)) as Ht.
  destruct (str_rep _) as [r|e|w] eqn:E; [|vm_compute in E; discriminate|vm_compute in E; discriminate].
  exists r. split; [reflexivity|]. apply Ht. split; [vm_compute; discriminate|].
  intros i s Hs. apply (text_arg _ _ _ is_string Hs).
  repeat constructor; unfold in_u; try lia; vm_compute; discriminate.
Defined.

(** * Examples *)

(** A pattern without special characters is searched for as a text, so a lone
    parenthesis is found and is an error of [string.match] only. *)
Example find_parenthesis :
  str_find [LString (chars "f(x)"); LString (chars ")")] = Ret [number 4; number 4]
  /\ str_match [LString (chars "f(x)"); LString (chars ")")]
     = Throw (RunError "invalid pattern capture").
Proof. split; vm_compute; reflexivity. Qed.

(** A hyphen between alphanumeric characters stands for itself. *)
Example literal_hyphen :
  str_match [LString (chars "2024-01-02"); LString (chars "4-0")] = Ret [LString (chars "4-0")]
  /\ str_match [LString (chars "aab"); LString (chars "^a-b")] = Ret [LNil].
Proof. split; vm_compute; reflexivity. Qed.
