(* ===== verification/StrPack.v ===== *)
(** [string.pack], [string.packsize] and [string.unpack] of [VM/src/lstrlib.cpp].

    The format and the data are lists of bytes with a zero behind them, pointers are
    indices into them.  A number in memory is the little-endian split of its bit
    pattern ([Key.double_bits]); the bits of a NaN are not modelled further.  Loops
    over the format take its length as fuel, since every option has a character. *)
From Stdlib Require Import Ascii.
From stdpp Require Import base list pretty.
From S2P Require Import Prelude Word Bytes Double LuaApi Tm Arith Key Pattern TabLib StrLib.
Open Scope Z_scope.
Open Scope outcome_scope.

Definition LUAL_PACKPADBYTE : Z := 0.
Definition MAXINTSIZE : Z := 16.
Definition NB : Z := 8.
Definition MC : Z := Z.shiftl 1 NB - 1.
Definition SZINT : Z := 8.
Definition MAXALIGN : Z := 8.

(** The machine is little endian. *)
Definition native_little : bool := true.

Record Header := { islittle : bool; maxalign : Z }.

Inductive KOption :=
  | Kint | Kuint | Kfloat | Kchar | Kstring | Kzstr | Kpadding | Kpaddalign | Knop.

#[export] Instance KOption_eq_dec : EqDecision KOption.
Proof. solve_decision. Defined.

Definition initheader : Header := {| islittle := native_little; maxalign := 1 |}.

Definition digit (c : Z) : bool := (ch "0"%char <=? c) && (c <=? ch "9"%char).

(** * The format *)

Section Format.
Variable fmt : list Z.

(** The loop over the digits; [p] is at one. *)
Fixpoint getnum_loop (fuel : nat) (p a : Z) : outcome (Z * Z) :=
  match fuel with
  | O => Undefined "endless numeral"
  | S f =>
      c <- cget fmt p ;;
      a <- Word.add_s 32 (a * 10) (c - ch "0"%char) ;;
      let p := p + 1 in
      c <- cget fmt p ;;
      if digit c && (a <=? (INT_MAX - 9) / 10) then getnum_loop f p a else Ret (a, p)
  end.

Definition getnum (p df : Z) : outcome (Z * Z) :=
  c <- cget fmt p ;;
  if negb (digit c) then Ret (df, p)
  else
    r <- getnum_loop (S (length fmt)) p 0 ;;
    let '(a, p) := r in
    c <- cget fmt p ;;
    if (MAXSSIZE <? a) || digit c then luaL_error "size specifier is too large"
    else Ret (a, p).

Definition getnumlimit (p df : Z) : outcome (Z * Z) :=
  r <- getnum p df ;;
  let '(sz, p) := r in
  if (MAXINTSIZE <? sz) || (sz <=? 0) then
    luaL_error ("integral size (" +:+ pretty sz +:+ ") out of limits [1," +:+ pretty MAXINTSIZE +:+ "]")
  else Ret (sz, p).

(** The option at [p]: its kind and size, the header, and the pointer behind it. *)
Definition getoption (h : Header) (p : Z) : outcome (KOption * Z * Header * Z) :=
  opt <- cget fmt p ;;
  let p := p + 1 in
  let fixed k size := Ret (k, size, h, p) in
  let sized k := r <- getnumlimit p 4 ;; let '(size, p) := r in Ret (k, size, h, p) in
  if opt =? ch "b"%char then fixed Kint 1
  else if opt =? ch "B"%char then fixed Kuint 1
  else if opt =? ch "h"%char then fixed Kint 2
  else if opt =? ch "H"%char then fixed Kuint 2
  else if opt =? ch "l"%char then fixed Kint 8
  else if opt =? ch "L"%char then fixed Kuint 8
  else if opt =? ch "j"%char then fixed Kint 4
  else if opt =? ch "J"%char then fixed Kuint 4
  else if opt =? ch "T"%char then fixed Kuint 4
  else if opt =? ch "f"%char then fixed Kfloat 4
  else if opt =? ch "d"%char then fixed Kfloat 8
  else if opt =? ch "n"%char then fixed Kfloat 8
  else if opt =? ch "i"%char then sized Kint
  else if opt =? ch "I"%char then sized Kuint
  else if opt =? ch "s"%char then sized Kstring
  else if opt =? ch "c"%char then
    r <- getnum p (-1) ;;
    let '(size, p) := r in
    if size =? -1 then luaL_error "missing size for format option 'c'" else Ret (Kchar, size, h, p)
  else if opt =? ch "z"%char then fixed Kzstr 0
  else if opt =? ch "x"%char then fixed Kpadding 1
  else if opt =? ch "X"%char then fixed Kpaddalign 0
  else if opt =? ch " "%char then fixed Knop 0
  else if opt =? ch "<"%char then Ret (Knop, 0, {| islittle := true; maxalign := maxalign h |}, p)
  else if opt =? ch ">"%char then Ret (Knop, 0, {| islittle := false; maxalign := maxalign h |}, p)
  else if opt =? ch "="%char then
    Ret (Knop, 0, {| islittle := native_little; maxalign := maxalign h |}, p)
  else if opt =? ch "!"%char then
    r <- getnumlimit p MAXALIGN ;;
    let '(a, p) := r in Ret (Knop, 0, {| islittle := islittle h; maxalign := a |}, p)
  else luaL_error ("invalid format option '" +:+ c_string [opt] +:+ "'").

(** The same with the bytes of alignment in front of the option. *)
Definition getdetails (h : Header) (totalsize p : Z) : outcome (KOption * Z * Z * Header * Z) :=
  r <- getoption h p ;;
  let '(opt, size, h, p) := r in
  r <- (if bool_decide (opt = Kpaddalign) then
          c <- cget fmt p ;;
          if c =? 0 then luaL_argerror 1 "invalid next option for option 'X'"
          else
            r <- getoption h p ;;
            let '(next, align, h, p) := r in
            if bool_decide (next = Kchar) || (align =? 0) then
              luaL_argerror 1 "invalid next option for option 'X'"
            else Ret (align, h, p)
        else Ret (size, h, p)) ;;
  let '(align, h, p) := r in
  if (align <=? 1) || bool_decide (opt = Kchar) then Ret (opt, size, 0, h, p)
  else
    let align := if maxalign h <? align then maxalign h else align in
    if negb (Z.land align (align - 1) =? 0) then
      luaL_argerror 1 "format asks for alignment not power of 2"
    else
      Ret (opt, size, Z.land (align - Z.land totalsize (align - 1)) (align - 1), h, p).
End Format.

(** * Numbers in memory *)

(** The bytes [buff[0 .. size - 1]] in the order of the loop over [i]: the byte [i]
    goes to the index [i] or, when the order is the other one, [size - 1 - i]. *)
Fixpoint packint_loop (size : nat) (n : Z) : list Z :=
  match size with
  | O => []
  | S k => Z.land n MC :: packint_loop k (Z.shiftr n NB)
  end.

Definition packint (n : Z) (little : bool) (size : Z) (neg : bool) : list Z :=
  let buff := packint_loop (Z.to_nat size) n in
  let buff := if neg && (SZINT <? size)
              then take (Z.to_nat SZINT) buff ++ replicate (Z.to_nat (size - SZINT)) MC else buff in
  if little then buff else rev buff.

Definition copywithendian (src : list Z) (little : bool) : list Z :=
  if eqb little native_little then src else rev src.

(** The loop from [i = k - 1] down to 0, with [str] at the index [pos] of the data. *)
Fixpoint unpackint_loop (data : list Z) (pos : Z) (little : bool) (size : Z) (k : nat) (res : Z)
    : outcome Z :=
  match k with
  | O => Ret res
  | S i =>
      c <- cget data (pos + (if little then Z.of_nat i else size - 1 - Z.of_nat i)) ;;
      unpackint_loop data pos little size i (Z.lor (shl_u 64 res NB) c)
  end.

(** The loop over the [k] unread bytes [i, ...]. *)
Fixpoint unread_loop (data : list Z) (pos : Z) (little : bool) (size mask i : Z) (k : nat)
    : outcome unit :=
  match k with
  | O => Ret tt
  | S k =>
      c <- cget data (pos + (if little then i else size - 1 - i)) ;;
      if negb (c =? mask) then
        luaL_error (pretty size +:+ "-byte integer does not fit into Lua Integer")
      else unread_loop data pos little size mask (i + 1) k
  end.

Definition unpackint (data : list Z) (pos : Z) (little : bool) (size : Z) (issigned : bool) : outcome Z :=
  let limit := if size <=? SZINT then size else SZINT in
  res <- unpackint_loop data pos little size (Z.to_nat limit) 0 ;;
  if size <? SZINT then
    if issigned then
      let mask := shl_u 64 1 (size * NB - 1) in Ret (cast_s 64 (sub_u 64 (Z.lxor res mask) mask))
    else Ret (cast_s 64 res)
  else
    (if SZINT <? size then
       let mask := if negb issigned || (0 <=? cast_s 64 res) then 0 else MC in
       unread_loop data pos little size mask limit (Z.to_nat (size - limit))
     else Ret tt) ;;;
    Ret (cast_s 64 res).

(** A number from its bit pattern, with [mw] bits of mantissa and [ew] of exponent. *)
Definition ieee_of_bits (mw ew i : Z) : spec_float :=
  let s := Z.testbit i (mw + ew) in
  let ex := Z.shiftr i mw mod 2 ^ ew in
  let f := i mod 2 ^ mw in
  let emin := 3 - 2 ^ (ew - 1) - (mw + 1) in
  if ex =? 2 ^ ew - 1 then if f =? 0 then S754_infinity s else S754_nan
  else if ex =? 0 then
    match f with Zpos m => S754_finite s m emin | _ => S754_zero s end
  else
    match f + 2 ^ mw with Zpos m => S754_finite s m (ex - 1 + emin) | _ => S754_nan end.

Definition double_of_bits : Z -> double := ieee_of_bits 52 11.
Definition float_of_bits : Z -> float32 := ieee_of_bits 23 8.

(** The bytes of the member of the union that [size] selects, and its value. *)
Definition float_image (n : double) (size : Z) : list Z :=
  if size =? 4 then le_split 4 (float_bits (float_of_double n)) else le_split 8 (double_bits n).

Definition float_value (b : list Z) (size : Z) : double :=
  if size =? 4 then double_of_float (float_of_bits (le_combine b)) else double_of_bits (le_combine b).

(** * The functions *)

Section Functions.
Context `{Target, NumFormat}.

Definition zeros (n : Z) : list Z := replicate (Z.to_nat n) LUAL_PACKPADBYTE.

(** What the option [opt] appends for the argument [arg]: the bytes, and how much
    more than its size it adds to [totalsize]. *)
Definition pack_item (args : list TValue) (h : Header) (opt : KOption) (size arg : Z)
    : outcome (list Z * Z) :=
  match opt with
  | Kint =>
      d <- luaL_checknumber args arg ;;
      let n := luai_num2long d in
      (if size <? SZINT then
         let lim := Z.shiftl 1 (size * NB - 1) in
         luaL_argcheck ((- lim <=? n) && (n <? lim)) arg "integer overflow"
       else Ret tt) ;;;
      Ret (packint (u64 n) (islittle h) size (n <? 0), 0)
  | Kuint =>
      d <- luaL_checknumber args arg ;;
      let n := luai_num2long d in
      (if size <? SZINT then
         luaL_argcheck (u64 n <? shl_u 64 1 (size * NB)) arg "unsigned overflow"
       else Ret tt) ;;;
      Ret (packint (u64 n) (islittle h) size false, 0)
  | Kfloat =>
      n <- luaL_checknumber args arg ;;
      Ret (copywithendian (float_image n size) (islittle h), 0)
  | Kchar =>
      s <- luaL_checklstring args arg ;;
      luaL_argcheck (zlen s <=? size) arg "string longer than given size" ;;;
      Ret (s ++ zeros (size - zlen s), 0)
  | Kstring =>
      s <- luaL_checklstring args arg ;;
      luaL_argcheck ((8 <=? size) || (zlen s <? shl_u 64 1 (size * NB))) arg
        "string length does not fit in given size" ;;;
      Ret (packint (zlen s) (islittle h) size false ++ s, zlen s)
  | Kzstr =>
      s <- luaL_checklstring args arg ;;
      luaL_argcheck (zlen (c_bytes s) =? zlen s) arg "string contains zeros" ;;;
      Ret (s ++ [0], zlen s + 1)
  | Kpadding => Ret ([LUAL_PACKPADBYTE], 0)
  | Kpaddalign | Knop => Ret ([], 0)
  end.

(** The options with an argument. *)
Definition takes_argument (opt : KOption) : bool :=
  match opt with Kpadding | Kpaddalign | Knop => false | _ => true end.

(** The loop over the options: [b] is the result so far. *)
Fixpoint pack_loop (fuel : nat) (args : list TValue) (fmt : list Z) (h : Header) (p arg totalsize : Z)
    (b : list Z) : outcome (list Z) :=
  match fuel with
  | O => Undefined "endless format"
  | S f =>
      c <- cget fmt p ;;
      if c =? 0 then Ret b
      else
        r <- getdetails fmt h totalsize p ;;
        let '(opt, size, ntoalign, h, p) := r in
        let totalsize := totalsize + (ntoalign + size) in
        r <- pack_item args h opt size (arg + 1) ;;
        let '(item, more) := r in
        let arg := if takes_argument opt then arg + 1 else arg in
        pack_loop f args fmt h p arg (totalsize + more) (b ++ zeros ntoalign ++ item)
  end.

(** The [nil] on the stack separates the arguments from the buffer. *)
Definition str_pack (args : list TValue) : outcome (list TValue) :=
  fmt <- luaL_checklstring args 1 ;;
  b <- pack_loop (S (length fmt)) (args ++ [LNil]) fmt initheader 0 1 0 [] ;;
  Ret [LString b].

Fixpoint packsize_loop (fuel : nat) (fmt : list Z) (h : Header) (p totalsize : Z) : outcome Z :=
  match fuel with
  | O => Undefined "endless format"
  | S f =>
      c <- cget fmt p ;;
      if c =? 0 then Ret totalsize
      else
        r <- getdetails fmt h totalsize p ;;
        let '(opt, size, ntoalign, h, p) := r in
        luaL_argcheck (negb (bool_decide (opt = Kstring)) && negb (bool_decide (opt = Kzstr))) 1
          "variable-length format" ;;;
        let size := size + ntoalign in
        luaL_argcheck (totalsize <=? MAXSSIZE - size) 1 "format result too large" ;;;
        packsize_loop f fmt h p (totalsize + size)
  end.

Definition str_packsize (args : list TValue) : outcome (list TValue) :=
  fmt <- luaL_checklstring args 1 ;;
  totalsize <- packsize_loop (S (length fmt)) fmt initheader 0 0 ;;
  Ret [lua_pushinteger totalsize].

(** What the option reads at [pos]: its value, if it has one, and how far [pos]
    moves more than by the size of the option. *)
Definition unpack_item (data : list Z) (h : Header) (opt : KOption) (size pos : Z)
    : outcome (option TValue * Z) :=
  let ld := zlen data in
  match opt with
  | Kint =>
      res <- unpackint data pos (islittle h) size true ;; Ret (Some (LNumber (double_of_Z res)), 0)
  | Kuint =>
      res <- unpackint data pos (islittle h) size false ;;
      Ret (Some (LNumber (double_of_Z (u64 res))), 0)
  | Kfloat =>
      b <- bytes data pos size ;;
      Ret (Some (LNumber (float_value (copywithendian b (islittle h)) size)), 0)
  | Kchar => b <- bytes data pos size ;; Ret (Some (LString b), 0)
  | Kstring =>
      len <- unpackint data pos (islittle h) size false ;;
      let len := u64 len in
      luaL_argcheck (len <=? u64 (ld - pos - size)) 2 "data string too short" ;;;
      b <- bytes data (pos + size) len ;; Ret (Some (LString b), len)
  | Kzstr =>
      s <- cstr data pos ;;
      let len := zlen s in
      luaL_argcheck (pos + len <? ld) 2 "unfinished string for format 'z'" ;;;
      b <- bytes data pos len ;; Ret (Some (LString b), len + 1)
  | Kpaddalign | Kpadding | Knop => Ret (None, 0)
  end.

(** [top] is the number of arguments, [r] the results so far. *)
Fixpoint unpack_loop (fuel : nat) (fmt data : list Z) (h : Header) (p pos top : Z) (r : list TValue)
    : outcome (list TValue) :=
  match fuel with
  | O => Undefined "endless format"
  | S f =>
      c <- cget fmt p ;;
      if c =? 0 then Ret (r ++ [lua_pushinteger (pos + 1)])
      else
        d <- getdetails fmt h pos p ;;
        let '(opt, size, ntoalign, h, p) := d in
        luaL_argcheck (ntoalign + size <=? u64 (zlen data - pos)) 2 "data string too short" ;;;
        let pos := pos + ntoalign in
        luaL_checkstack (top + Z.of_nat (length r)) 2 "too many results" ;;;
        v <- unpack_item data h opt size pos ;;
        let '(v, more) := v in
        unpack_loop f fmt data h p (pos + more + size) top (r ++ match v with Some v => [v] | None => [] end)
  end.

Definition str_unpack (args : list TValue) : outcome (list TValue) :=
  fmt <- luaL_checklstring args 1 ;;
  data <- luaL_checklstring args 2 ;;
  let ld := zlen data in
  pos <- luaL_optinteger args 3 1 ;;
  let pos := posrelat pos ld - 1 in
  let pos := if pos <? 0 then 0 else pos in
  luaL_argcheck (pos <=? ld) 3 "initial position out of string" ;;;
  unpack_loop (S (length fmt)) fmt data initheader 0 pos (lua_gettop args) [].
End Functions.
