(* ===== verification/StrPackSpec.v ===== *)
(** [string.pack] and [string.unpack] of [StrPack.v]: numbers in memory, integers of
    every size and byte order, the two loops side by side. *)
From Stdlib Require Import Ascii.
From stdpp Require Import base list.
From S2P Require Import Prelude Word Bytes Double DoubleExact DoubleDiv DoubleBits LuaApi Tm Arith Key.
From S2P Require Import Pattern PatternSpec PatternMatch PatternSafe TabLib StrLib StrSpec StrSafe StrOps StrPack.
Open Scope Z_scope.
Open Scope outcome_scope.

(** * The bit patterns of floating point numbers *)

Section Codec.
Context (mw ew : Z) (Hmw : 0 < mw) (Hew : 1 < ew).

Let prec := mw + 1.
Let emax := 2 ^ (ew - 1).

(** The bit pattern of a number of the format; [Key.double_bits] and
    [Key.float_bits] are instances. *)
Definition ieee_bits (d : spec_float) : Z :=
  let sign (s : bool) := if s then 2 ^ (mw + ew) else 0 in
  match d with
  | S754_zero s => sign s
  | S754_infinity s => sign s + (2 ^ ew - 1) * 2 ^ mw
  | S754_nan => (2 ^ ew - 1) * 2 ^ mw + 2 ^ (mw - 1)
  | S754_finite s m e =>
      if Zpos m <? 2 ^ mw then sign s + Zpos m
      else sign s + (e + emax - 2 + prec) * 2 ^ mw + (Zpos m - 2 ^ mw)
  end.

(** The three fields of a pattern. *)
Lemma fields s (E F : Z) : 0 <= E < 2 ^ ew -> 0 <= F < 2 ^ mw ->
  let i := (if s : bool then 2 ^ (mw + ew) else 0) + E * 2 ^ mw + F in
  Z.testbit i (mw + ew) = s /\ Z.shiftr i mw mod 2 ^ ew = E /\ i mod 2 ^ mw = F.
Proof.
  intros HE HF i. pose proof (pow2_pos mw ltac:(lia)) as Hp. pose proof (pow2_pos ew ltac:(lia)) as Hq.
  assert (Hi : i = ((if s then 2 ^ ew else 0) + E) * 2 ^ mw + F).
  { subst i. rewrite Z.pow_add_r by lia. destruct s; ring. }
  assert (Hdiv : Z.shiftr i mw = (if s then 2 ^ ew else 0) + E).
  { rewrite Z.shiftr_div_pow2, Hi by lia. rewrite Z.div_add_l by lia. rewrite Z.div_small by lia. lia. }
  split_and!.
  - replace (mw + ew) with (ew + mw) by lia. rewrite <- Z.shiftr_spec, Hdiv by lia.
    rewrite Z.testbit_odd, Z.shiftr_div_pow2 by lia. destruct s.
    + replace (2 ^ ew + E) with (1 * 2 ^ ew + E) by ring. rewrite Z.div_add_l by lia.
      by rewrite Z.div_small by lia.
    + by rewrite Z.add_0_l, Z.div_small by lia.
  - rewrite Hdiv. destruct s.
    + replace (2 ^ ew + E) with (E + 1 * 2 ^ ew) by ring. by rewrite Z_mod_plus_full, Z.mod_small by lia.
    + by rewrite Z.add_0_l, Z.mod_small by lia.
  - rewrite Hi, Z.add_comm, Z_mod_plus_full. by rewrite Z.mod_small by lia.
Qed.

(** A finite number is subnormal, with the least exponent, or has all digits. *)
Lemma finite_fields m e : bounded prec emax m e = true ->
  (Zpos m < 2 ^ mw /\ e = 3 - emax - prec)
  \/ (2 ^ mw <= Zpos m < 2 ^ (mw + 1) /\ 1 <= e + emax - 2 + prec < 2 ^ ew - 1).
Proof.
  intros Hv. unfold bounded, canonical_mantissa, fexp, emin in Hv.
  apply andb_true_iff in Hv as [Hc He]. apply Z.eqb_eq in Hc. apply Z.leb_le in He.
  assert (Hq2 : 2 ^ ew = 2 * 2 ^ (ew - 1)) by (rewrite <- Z.pow_succ_r by lia; f_equal; lia).
  pose proof (digits2_pos_bounds m) as Hd. destruct (Z.ltb_spec (Zpos m) (2 ^ mw)) as [Hlt|Hge].
  - left. split; [done|]. assert (Zpos (digits2_pos m) <= mw).
    { destruct (Z.leb_spec (Zpos (digits2_pos m)) mw); [done|].
      pose proof (Z.pow_le_mono_r 2 mw (Zpos (digits2_pos m) - 1)). lia. }
    unfold prec in *. lia.
  - right. assert (mw < Zpos (digits2_pos m)).
    { destruct (Z.ltb_spec mw (Zpos (digits2_pos m))); [done|].
      pose proof (Z.pow_le_mono_r 2 (Zpos (digits2_pos m)) mw). lia. }
    assert (Zpos (digits2_pos m) = mw + 1) as Hdig by (unfold prec in *; lia).
    rewrite Hdig in Hd. unfold prec, emax in *. lia.
Qed.

Lemma ieee_bits_range d : valid_binary prec emax d = true -> 0 <= ieee_bits d < 2 ^ (mw + ew + 1).
Proof.
  intros Hv. pose proof (pow2_pos mw ltac:(lia)) as Hp. pose proof (pow2_pos (mw - 1) ltac:(lia)) as Hp1.
  assert (Hq : 4 <= 2 ^ ew) by (change 4 with (2 ^ 2); apply Z.pow_le_mono_r; lia).
  assert (Hm2 : 2 ^ mw = 2 * 2 ^ (mw - 1)) by (rewrite <- Z.pow_succ_r by lia; f_equal; lia).
  rewrite Z.pow_add_r, (Z.pow_add_r 2 mw ew) by lia. change (2 ^ 1) with 2.
  assert (Hs : forall (s : bool) E F, 0 <= E < 2 ^ ew -> 0 <= F < 2 ^ mw ->
    0 <= (if s then 2 ^ mw * 2 ^ ew else 0) + E * 2 ^ mw + F < 2 ^ mw * 2 ^ ew * 2)
    by (intros [] E F HE HF; nia).
  destruct d as [s|s| |s m e]; cbn [ieee_bits]; rewrite ?(Z.pow_add_r 2 mw ew) by lia.
  - specialize (Hs s 0 0). lia.
  - specialize (Hs s (2 ^ ew - 1) 0). lia.
  - specialize (Hs false (2 ^ ew - 1) (2 ^ (mw - 1))). lia.
  - assert (2 ^ (mw + 1) = 2 * 2 ^ mw) by (rewrite <- Z.pow_succ_r by lia; f_equal; lia).
    destruct (finite_fields m e Hv) as [[Hlt He]|[Hm He]].
    + rewrite (proj2 (Z.ltb_lt _ _)) by done. specialize (Hs s 0 (Zpos m)). lia.
    + rewrite (proj2 (Z.ltb_ge _ _)) by lia. apply Hs; lia.
Qed.

Lemma ieee_roundtrip d : valid_binary prec emax d = true -> ieee_of_bits mw ew (ieee_bits d) = d.
Proof.
  intros Hv. pose proof (pow2_pos mw ltac:(lia)) as Hp. pose proof (pow2_pos (mw - 1) ltac:(lia)) as Hp1.
  assert (Hq : 4 <= 2 ^ ew) by (change 4 with (2 ^ 2); apply Z.pow_le_mono_r; lia).
  assert (Hm2 : 2 ^ mw = 2 * 2 ^ (mw - 1)) by (rewrite <- Z.pow_succ_r by lia; f_equal; lia).
  unfold ieee_of_bits. destruct d as [s|s| |s m e]; cbn [ieee_bits].
  - destruct (fields s 0 0) as (H1 & H2 & H3); [lia..|]. rewrite Z.mul_0_l, !Z.add_0_r in *.
    rewrite H1, H2, H3. rewrite (proj2 (Z.eqb_neq _ _)) by lia. done.
  - destruct (fields s (2 ^ ew - 1) 0) as (H1 & H2 & H3); [lia..|]. rewrite !Z.add_0_r in *.
    rewrite H1, H2, H3, Z.eqb_refl. done.
  - destruct (fields false (2 ^ ew - 1) (2 ^ (mw - 1))) as (H1 & H2 & H3); [lia..|]. rewrite Z.add_0_l in *.
    rewrite H1, H2, H3, Z.eqb_refl. by rewrite (proj2 (Z.eqb_neq _ _)) by lia.
  - assert (2 ^ (mw + 1) = 2 * 2 ^ mw) by (rewrite <- Z.pow_succ_r by lia; f_equal; lia).
    destruct (finite_fields m e Hv) as [[Hlt He]|[Hm He]].
    + rewrite (proj2 (Z.ltb_lt _ _)) by done.
      destruct (fields s 0 (Zpos m)) as (H1 & H2 & H3); [lia..|]. rewrite Z.mul_0_l, Z.add_0_r in *.
      rewrite H1, H2, H3. rewrite (proj2 (Z.eqb_neq _ _)) by lia. cbn. by rewrite He.
    + rewrite (proj2 (Z.ltb_ge _ _)) by lia.
      destruct (fields s (e + emax - 2 + prec) (Zpos m - 2 ^ mw)) as (H1 & H2 & H3); [lia..|].
      rewrite H1, H2, H3. rewrite !(proj2 (Z.eqb_neq _ _)) by lia.
      replace (Zpos m - 2 ^ mw + 2 ^ mw) with (Zpos m) by lia. f_equal. unfold prec, emax. lia.
Qed.
End Codec.

Lemma double_bits_ieee d : double_bits d = ieee_bits 52 11 d.
Proof.
  unfold double_bits, ieee_bits, sign_bit_at. destruct d as [[]|[]| |s m e]; try reflexivity.
  destruct (Zpos m <? 2 ^ 52); [done|]. rewrite Z.shiftl_mul_pow2 by lia.
  destruct s; lia.
Qed.

Lemma float_bits_ieee d : float_bits d = ieee_bits 23 8 d.
Proof.
  unfold float_bits, ieee_bits, sign_bit_at. destruct d as [[]|[]| |s m e]; try reflexivity.
  destruct (Zpos m <? 2 ^ 23); [done|]. rewrite Z.shiftl_mul_pow2 by lia. destruct s; lia.
Qed.

Lemma length_float_image n size : size = 4 \/ size = 8 -> zlen (float_image n size) = size.
Proof. intros [->| ->]; unfold float_image; cbn [Z.eqb Pos.eqb]; unfold zlen; by rewrite length_le_split. Qed.

(** What an option for floating point numbers of [size] bytes keeps of a number. *)
Definition kept_float (n : double) (size : Z) : double :=
  if size =? 4 then double_of_float (float_of_double n) else n.

Lemma float_value_image n size : valid_double n = true -> size = 4 \/ size = 8 ->
  float_value (float_image n size) size = kept_float n size.
Proof.
  intros Hn [->| ->]; unfold float_value, float_image, kept_float; cbn [Z.eqb Pos.eqb].
  - rewrite le_combine_split. f_equal. rewrite float_bits_ieee.
    assert (Hv : valid_binary 24 128 (float_of_double n) = true).
    { unfold float_of_double. destruct n; try done. apply round_valid; lia. }
    pose proof (ieee_bits_range 23 8 ltac:(lia) ltac:(lia) _ Hv) as Hr.
    rewrite cast_u_id by (unfold in_u; lia). by apply ieee_roundtrip; [lia..|].
  - rewrite le_combine_split, double_bits_ieee.
    pose proof (ieee_bits_range 52 11 ltac:(lia) ltac:(lia) _ Hn) as Hr.
    rewrite cast_u_id by (unfold in_u; lia). by apply ieee_roundtrip; [lia..|].
Qed.

(** * Integers in memory *)

Definition order (little : bool) (l : list Z) : list Z := if little then l else rev l.

Lemma length_order little l : length (order little l) = length l.
Proof. destruct little; [done|apply length_rev]. Qed.

Lemma packint_loop_split size n : packint_loop size n = le_split size n.
Proof.
  revert n. induction size as [|k IH]; intros n; cbn [packint_loop le_split]; [done|].
  change MC with (Z.ones 8). rewrite Z.land_ones by lia. by rewrite IH.
Qed.

Lemma le_split_take k n x : (k <= n)%nat -> take k (le_split n x) = le_split k x.
Proof.
  revert n x. induction k as [|k IH]; intros [|n] x Hk; try done; [lia|].
  cbn [le_split firstn]. by rewrite IH by lia.
Qed.

Lemma le_split_drop k n x : (k <= n)%nat -> drop k (le_split n x) = le_split (n - k) (Z.shiftr x (8 * Z.of_nat k)).
Proof.
  revert n x. induction k as [|k IH]; intros [|n] x Hk; try lia; cbn [le_split skipn Nat.sub].
  - done.
  - change (8 * Z.of_nat 0) with 0. by rewrite Z.shiftr_0_r.
  - rewrite IH, Z.shiftr_shiftr by lia. do 2 f_equal. lia.
Qed.

(** The bytes of 0 and of -1. *)
Lemma le_split_const n x : x = 0 \/ x = -1 -> le_split n x = replicate n (u8 x).
Proof.
  intros Hx. induction n as [|n IH]; cbn [le_split replicate]; [done|].
  assert (Z.shiftr x 8 = x) as -> by (by destruct Hx as [->| ->]). by rewrite IH.
Qed.

Lemma packint_unsigned n little size : packint n little size false = order little (le_split (Z.to_nat size) n).
Proof. unfold packint. rewrite packint_loop_split. by destruct little. Qed.

Lemma packint_signed x little size : in_s 64 x ->
  packint (u64 x) little size (x <? 0) = order little (le_split (Z.to_nat size) x).
Proof.
  intros Hx. unfold packint. rewrite packint_loop_split.
  change (if little then ?l else rev ?l) with (order little l). f_equal. unfold SZINT.
  destruct (Z.ltb_spec 8 size) as [Hbig|Hsmall]; cbn [andb].
  - destruct (Z.ltb_spec x 0) as [Hneg|Hpos]; cbn [andb].
    + rewrite le_split_take by lia. change (Z.to_nat 8) with 8%nat. rewrite le_split_u64.
      rewrite <- (take_drop 8 (le_split (Z.to_nat size) x)), le_split_take, le_split_drop by lia. f_equal.
      replace (Z.to_nat (size - 8)) with (Z.to_nat size - 8)%nat by lia.
      assert (Z.shiftr x (8 * Z.of_nat 8) = -1) as ->.
      { rewrite Z.shiftr_div_pow2 by lia. unfold in_s in Hx. change (8 * Z.of_nat 8) with 64.
        Z.to_euclidean_division_equations; lia. }
      by rewrite le_split_const by auto.
    + unfold in_s in Hx. by rewrite cast_u_id by (unfold in_u; lia).
  - rewrite andb_false_r. rewrite <- (le_split_cast _ (u64 x)), <- (le_split_cast _ x). f_equal.
    apply Z.bits_inj'. intros i Hi. rewrite !testbit_cast_u by lia.
    destruct (Z.ltb_spec i (8 * Z.of_nat (Z.to_nat size))); [|by rewrite !andb_false_r].
    by rewrite (proj2 (Z.ltb_lt i 64)), andb_true_r by lia.
Qed.

(** A byte of a number that lies in the data at [zlen a]. *)
Lemma cget_order a l b little j : (j < length l)%nat ->
  cget (a ++ order little l ++ b)
    (zlen a + (if little then Z.of_nat j else zlen l - 1 - Z.of_nat j)) = Ret (nth j l 0).
Proof.
  intros Hj. pose proof (zlen_nonneg a). pose proof (zlen_nonneg b).
  assert (zlen (order little l) = zlen l) as Hl by (unfold zlen; by rewrite length_order).
  set (k := if little then j else (length l - 1 - j)%nat).
  replace (if little then Z.of_nat j else zlen l - 1 - Z.of_nat j) with (Z.of_nat k)
    by (subst k; unfold zlen; destruct little; lia).
  assert (k < length l)%nat by (subst k; destruct little; lia).
  unfold cget. rewrite !zlen_app, Hl, !(proj2 (Z.leb_le _ _)) by (unfold zlen in *; lia). cbn [andb].
  f_equal. replace (Z.to_nat (zlen a + Z.of_nat k)) with (length a + k)%nat by (unfold zlen; lia).
  rewrite app_nth2_plus, app_nth1 by (by rewrite length_order).
  subst k. destruct little; [done|]. unfold order. rewrite rev_nth by lia. f_equal. lia.
Qed.

Lemma unpackint_loop_spec a l b little limit k : byte_list l ->
  (k <= limit <= 8)%nat -> (limit <= length l)%nat ->
  unpackint_loop (a ++ order little l ++ b) (zlen a) little (zlen l) k (le_combine (drop k (take limit l)))
  = Ret (le_combine (take limit l)).
Proof.
  intros Hb Hk Hl. induction k as [|i IH]; cbn [unpackint_loop]; [by rewrite drop_0|].
  rewrite cget_order by lia. cbn [outcome_bind]. rewrite <- IH by lia. f_equal.
  assert (Hbt : byte_list (take limit l)) by (by apply Forall_take).
  destruct (lookup_lt_is_Some_2 (take limit l) i) as [c Hc]; [rewrite length_take; lia|].
  rewrite (drop_S _ _ _ Hc). cbn [le_combine].
  assert (nth i l 0 = c) as ->.
  { apply lookup_take_Some in Hc as [Hc _]. rewrite nth_lookup. by rewrite Hc. }
  rewrite Z.lor_comm. f_equal. unfold shl_u. apply cast_u_id.
  pose proof (le_combine_range (drop (S i) (take limit l)) (Forall_drop _ _ _ Hbt)) as Hr.
  rewrite length_drop, length_take in Hr. unfold in_u in *. rewrite Z.shiftl_mul_pow2 by (unfold NB; lia).
  split; [unfold NB; lia|]. apply Z.lt_le_trans with (2 ^ 56 * 2 ^ NB); [|unfold NB; lia].
  apply Z.mul_lt_mono_pos_r; [unfold NB; lia|]. eapply Z.lt_le_trans; [apply Hr|].
  apply Z.pow_le_mono_r; lia.
Qed.

Lemma unread_loop_spec a l b little mask k i : (i + k = length l)%nat ->
  Forall (fun c => c = mask) (drop i l) ->
  unread_loop (a ++ order little l ++ b) (zlen a) little (zlen l) mask (Z.of_nat i) k = Ret tt.
Proof.
  revert i. induction k as [|k IH]; intros i Hi Hm; cbn [unread_loop]; [done|].
  rewrite cget_order by lia. cbn [outcome_bind].
  destruct (lookup_lt_is_Some_2 l i ltac:(lia)) as [c Hc]. rewrite (drop_S _ _ _ Hc) in Hm.
  inversion_clear Hm as [|? ? Hcm Hr]. rewrite nth_lookup, Hc. cbn [default from_option id].
  rewrite Hcm, Z.eqb_refl. cbn [negb]. replace (Z.of_nat i + 1) with (Z.of_nat (S i)) by lia.
  apply IH; [lia|done].
Qed.

(** The sign extension of a [w]-bit number. *)
Lemma sign_extend w c : 0 < w < 64 -> in_u w c ->
  cast_s 64 (sub_u 64 (Z.lxor c (2 ^ (w - 1))) (2 ^ (w - 1))) = cast_s w c.
Proof.
  intros Hw Hc. unfold sub_u. rewrite cast_s_cast_u by lia.
  pose proof (pow2_split w ltac:(lia)) as Hs. unfold in_u in Hc.
  pose proof (pow2_pos (w - 1) ltac:(lia)) as Hp.
  assert (Hbound : 2 ^ (w - 1) <= 2 ^ 62) by (apply Z.pow_le_mono_r; lia).
  assert (Z.lxor c (2 ^ (w - 1)) - 2 ^ (w - 1) = cast_s w c) as ->.
  { unfold cast_s. rewrite cast_u_id by done. destruct (Z.ltb_spec c (2 ^ (w - 1))) as [Hlt|Hge].
    - rewrite <- Z.add_nocarry_lxor; [lia|]. rewrite Z.land_comm.
      apply Z.bits_inj'. intros i Hi. rewrite Z.land_spec, Z.bits_0, Z.pow2_bits_eqb by lia.
      destruct (Z.eqb_spec (w - 1) i) as [<-|]; [|done]. cbn [andb].
      apply (testbit_in_u_high (w - 1)); [unfold in_u; lia|lia].
    - assert (Z.lxor c (2 ^ (w - 1)) = c - 2 ^ (w - 1)) as ->; [|lia].
      assert (c = Z.lxor (c - 2 ^ (w - 1)) (2 ^ (w - 1))) as Hx.
      { rewrite <- Z.add_nocarry_lxor; [lia|].
        apply Z.bits_inj'. intros i Hi. rewrite Z.land_spec, Z.bits_0, Z.pow2_bits_eqb by lia.
        destruct (Z.eqb_spec (w - 1) i) as [<-|]; [|by rewrite andb_false_r]. rewrite andb_true_r.
        apply (testbit_in_u_high (w - 1)); [unfold in_u; lia|lia]. }
      rewrite Hx at 1. by rewrite Z.lxor_assoc, Z.lxor_nilpotent, Z.lxor_0_r. }
  apply cast_s_id; [lia|]. pose proof (cast_s_range w c ltac:(lia)). unfold in_s in *. lia.
Qed.

(** An integer that an option of [size] bytes can hold. *)
Definition fits_signed (size x : Z) : Prop := in_s 64 x /\ (size < 8 -> in_s (8 * size) x).
Definition fits_unsigned (size x : Z) : Prop := in_u 64 x /\ (size < 8 -> in_u (8 * size) x).

Lemma limit_bytes size x (n := Z.to_nat size) (limit := if size <=? SZINT then size else SZINT) :
  0 < size -> le_combine (take (Z.to_nat limit) (le_split n x)) = cast_u (8 * limit) x.
Proof.
  intros Hs. subst limit n. unfold SZINT. rewrite le_split_take by (case_match; lia).
  rewrite le_combine_split. f_equal. case_match; lia.
Qed.

Lemma unpackint_start a l b little limit : byte_list l -> (limit <= 8)%nat -> (limit <= length l)%nat ->
  unpackint_loop (a ++ order little l ++ b) (zlen a) little (zlen l) limit 0 = Ret (le_combine (take limit l)).
Proof.
  intros Hb Hl Hlen. pose proof (unpackint_loop_spec a l b little limit limit Hb) as Hs.
  rewrite drop_ge in Hs by (rewrite length_take; lia). apply Hs; lia.
Qed.

Lemma unpackint_split a b little size x (issigned : bool) : 1 <= size <= 16 ->
  (if issigned then fits_signed size x else fits_unsigned size x) ->
  unpackint (a ++ order little (le_split (Z.to_nat size) x) ++ b) (zlen a) little size issigned
  = Ret (cast_s 64 x).
Proof.
  intros Hsize Hx. set (l := le_split (Z.to_nat size) x).
  assert (Hl : zlen l = size) by (unfold zlen, l; rewrite length_le_split; lia).
  assert (Hll : length l = Z.to_nat size) by (unfold l; apply length_le_split).
  unfold unpackint. set (limit := if size <=? SZINT then size else SZINT).
  assert (Hlim : 1 <= limit <= 8 /\ limit <= size) by (unfold limit, SZINT; destruct (Z.leb_spec size 8); lia).
  pose proof (unpackint_start a l b little (Z.to_nat limit) (le_split_bytes _ _) ltac:(lia) ltac:(lia)) as Hu.
  rewrite Hl in Hu. rewrite Hu.
  pose proof (limit_bytes size x ltac:(lia)) as Hbytes. cbv zeta in Hbytes. fold limit l in Hbytes.
  rewrite Hbytes. cbn [outcome_bind]. unfold SZINT in *.
  destruct (Z.ltb_spec size 8) as [Hsmall|Hbig].
  - assert (limit = size) as -> by (unfold limit; by rewrite (proj2 (Z.leb_le _ _)) by lia).
    pose proof (cast_u_range (8 * size) x ltac:(lia)) as Hr. destruct issigned.
    + destruct Hx as [_ Hx]. specialize (Hx Hsmall). f_equal. unfold shl_u, NB.
      rewrite Z.shiftl_1_l. replace (size * 8 - 1) with (8 * size - 1) by lia.
      rewrite (cast_u_id 64 (2 ^ _)).
      2: { unfold in_u. split; [apply Z.pow_nonneg; lia|]. apply Z.pow_lt_mono_r; lia. }
      rewrite sign_extend by (done || lia). rewrite cast_s_cast_u by lia. rewrite cast_s_id by (done || lia).
      symmetry. apply cast_s_id; [lia|]. unfold in_s in *. change (64 - 1) with 63.
      assert (2 ^ (8 * size - 1) <= 2 ^ 63) by (apply Z.pow_le_mono_r; lia). lia.
    + destruct Hx as [_ Hx]. by rewrite cast_u_id by auto.
  - assert (limit = 8) as Hlim8 by (unfold limit; destruct (Z.leb_spec size 8); lia).
    rewrite Hlim8 in *. change (8 * 8) with 64. rewrite cast_s_cast_u by lia.
    destruct (Z.ltb_spec 8 size) as [Hmore|]; [|done].
    set (mask := if negb issigned || (0 <=? cast_s 64 x) then 0 else MC).
    pose proof (unread_loop_spec a l b little mask (Z.to_nat (size - 8)) 8 ltac:(lia)) as Hunread.
    rewrite Hl in Hunread. change (Z.of_nat 8) with 8 in Hunread.
    rewrite Hunread; [done|]. unfold l. rewrite le_split_drop by lia.
    change (8 * Z.of_nat 8) with 64.
    assert (Hhigh : Z.shiftr x 64 = 0 /\ mask = 0 \/ Z.shiftr x 64 = -1 /\ mask = u8 (-1)).
    { rewrite Z.shiftr_div_pow2 by lia. subst mask. destruct issigned; cbn [negb orb].
      - destruct Hx as [Hx _]. rewrite cast_s_id by (done || lia). unfold in_s in Hx.
        destruct (Z.leb_spec 0 x); [left|right]; (split; [|done]); Z.to_euclidean_division_equations; lia.
      - left. split; [|done]. apply Z.div_small. apply Hx. }
    destruct Hhigh as [[-> ->]|[-> ->]]; rewrite le_split_const by auto; by apply Forall_replicate.
Qed.
