(* ===== verification/StrPackLoop.v ===== *)
(** [string.pack], [packsize] and [unpack] of [StrPack.v]: the format, the safety of
    the three loops, and what [unpack] reads of the result of [pack]. *)
From Stdlib Require Import Ascii.
From stdpp Require Import base list.
From S2P Require Import Prelude Word Bytes Double DoubleExact DoubleBits LuaApi Tm Arith Key.
From S2P Require Import Pattern PatternSpec PatternMatch PatternSafe TabLib StrLib StrSpec StrSafe StrOps StrType.
From S2P Require Import StrPack StrPackSpec.
Open Scope Z_scope.
Open Scope outcome_scope.

(** * The format *)

(** The sizes of the options. *)
Definition option_ok (opt : KOption) (size : Z) : Prop :=
  match opt with
  | Kint | Kuint | Kstring => 1 <= size <= MAXINTSIZE
  | Kfloat => size = 4 \/ size = 8
  | Kchar => 0 <= size <= MAXSSIZE
  | Kpadding => size = 1
  | Kzstr | Kpaddalign | Knop => size = 0
  end.

Definition header_ok (h : Header) : Prop := 1 <= maxalign h <= MAXINTSIZE.

Section Format.
Context (fmt : list Z).

Lemma getnum_loop_safe fuel p a :
  0 <= p < zlen fmt -> digit (nth (Z.to_nat p) fmt 0) = true -> 0 <= a <= (INT_MAX - 9) / 10 ->
  zlen fmt - p < Z.of_nat fuel ->
  safe (getnum_loop fmt fuel p a) (fun r => 0 <= r.1 /\ p < r.2 <= zlen fmt).
Proof.
  change ((INT_MAX - 9) / 10) with 214748363.
  revert p a. induction fuel as [|f IH]; intros p a Hp Hd Ha Hf; [lia|]. cbn [getnum_loop].
  rewrite cget_nth by lia. cbn [outcome_bind]. set (c := nth (Z.to_nat p) fmt 0) in *.
  unfold digit in Hd. apply andb_true_iff in Hd as [H1 H2]. apply Z.leb_le in H1, H2.
  unfold Word.add_s, in_s_b. rewrite (proj2 (Z.leb_le _ _)), (proj2 (Z.ltb_lt _ _)) by lia.
  cbn [andb outcome_bind]. rewrite cget_nth by lia. cbn [outcome_bind].
  destruct (digit _ && _) eqn:Hc; [|cbn; lia].
  apply andb_true_iff in Hc as [Hd' Ha']. apply Z.leb_le in Ha'.
  change ((INT_MAX - 9) / 10) with 214748363 in Ha'.
  assert (p + 1 < zlen fmt).
  { destruct (Z.ltb_spec (p + 1) (zlen fmt)); [done|]. rewrite nth_overflow in Hd' by (unfold zlen in *; lia). done. }
  eapply safe_mono; [apply IH; [lia|done|lia|lia]|]. cbn. lia.
Qed.

Lemma getnum_safe p df : 0 <= p <= zlen fmt ->
  safe (getnum fmt p df) (fun r => (r.1 = df \/ 0 <= r.1 <= MAXSSIZE) /\ p <= r.2 <= zlen fmt).
Proof.
  intros Hp. unfold getnum. rewrite cget_nth by lia. cbn [outcome_bind].
  destruct (digit (nth (Z.to_nat p) fmt 0)) eqn:Hd; cbn [negb]; [|cbn; lia].
  assert (p < zlen fmt).
  { destruct (Z.ltb_spec p (zlen fmt)); [done|]. rewrite nth_overflow in Hd by (unfold zlen in *; lia). done. }
  eapply safe_step; [apply getnum_loop_safe; [lia|done| |unfold zlen in *; lia]|].
  { change ((INT_MAX - 9) / 10) with 214748363. lia. }
  intros [a q] [Ha Hq]. cbn [fst snd] in *. rewrite cget_nth by lia. cbn [outcome_bind].
  destruct (Z.ltb_spec MAXSSIZE a); cbn [orb]; [done|].
  destruct (digit (nth (Z.to_nat q) fmt 0)); [done|]. cbn. lia.
Qed.

Lemma getnumlimit_safe p df : 0 <= p <= zlen fmt ->
  safe (getnumlimit fmt p df) (fun r => 1 <= r.1 <= MAXINTSIZE /\ p <= r.2 <= zlen fmt).
Proof.
  intros Hp. unfold getnumlimit. eapply safe_step; [by apply getnum_safe|].
  intros [sz q] [_ Hq]. cbn [fst snd] in *. destruct (Z.ltb_spec MAXINTSIZE sz); cbn [orb]; [done|].
  destruct (Z.leb_spec sz 0); [done|]. cbn. lia.
Qed.

(** What an option is: its kind and size, a header, the pointer behind it. *)
Definition option_at (p : Z) (r : KOption * Z * Header * Z) : Prop :=
  let '(opt, size, h, q) := r in option_ok opt size /\ header_ok h /\ p < q <= zlen fmt.

Lemma getoption_safe h p : header_ok h -> 0 <= p <= zlen fmt -> safe (getoption fmt h p) (option_at p).
Proof.
  intros Hh Hp. unfold getoption. rewrite cget_nth by lia. cbn [outcome_bind]. cbv zeta.
  set (c := nth (Z.to_nat p) fmt 0).
  destruct (Z.eqb_spec c 0) as [H0|H0]; [rewrite H0; done|].
  assert (p < zlen fmt).
  { destruct (Z.ltb_spec p (zlen fmt)); [done|]. subst c. by rewrite nth_overflow in H0 by (unfold zlen in *; lia). }
  assert (Hsized : forall k, (forall a, 1 <= a <= MAXINTSIZE -> option_ok k a) ->
    safe (r <- getnumlimit fmt (p + 1) 4 ;; let '(size, q) := r in Ret (k, size, h, q)) (option_at p)).
  { intros k Hk. eapply safe_step; [apply getnumlimit_safe; lia|]. intros [a q] [Ha Hq]. cbn in *.
    split_and!; [by apply Hk|done|lia|lia]. }
  repeat match goal with
  | |- safe (if c =? _ then _ else _) _ => destruct (c =? _)
  end; try (cbn; unfold MAXINTSIZE, header_ok in *; split_and!; lia || auto; done);
    try (apply Hsized; done); try done.
  - eapply safe_step; [apply getnum_safe; lia|]. intros [a q] [Ha Hq]. cbn [fst snd] in *.
    destruct (Z.eqb_spec a (-1)); [done|]. cbn. split_and!; [lia..|done|lia|lia].
  - cbn. split_and!; [done..|lia|lia].
  - cbn. split_and!; [done..|lia|lia].
  - cbn. split_and!; [done..|lia|lia].
  - eapply safe_step; [apply getnumlimit_safe; lia|]. intros [a q] [Ha Hq]. cbn in *.
    split_and!; [done|by unfold header_ok|lia|lia].
Qed.

(** The alignment is the only thing that depends on the size so far. *)
Definition details_at (p : Z) (r : KOption * Z * Z * Header * Z) : Prop :=
  let '(opt, size, ntoalign, h, q) := r in option_at p (opt, size, h, q) /\ 0 <= ntoalign.

Lemma getdetails_safe h t p : header_ok h -> 0 <= p <= zlen fmt -> 
  safe (getdetails fmt h t p) (fun r => details_at p r /\ forall t', exists n',
    getdetails fmt h t' p = Ret (let '(opt, size, _, h, q) := r in (opt, size, n', h, q))).
Proof.
  intros Hh Hp. unfold getdetails. pose proof (getoption_safe h p Hh Hp) as Ho.
  destruct (getoption fmt h p) as [[[[opt size] h'] q]| |]; [|done|done].
  destruct Ho as (Hok & Hh' & Hq). cbn [outcome_bind].
  set (m := if bool_decide (opt = Kpaddalign) then _ else _).
  assert (Hm : safe m (fun r => let '(align, h2, q2) := r in header_ok h2 /\ q <= q2 <= zlen fmt)).
  { subst m. case_bool_decide; [|cbn; split; [done|lia]].
    rewrite cget_nth by lia. cbn [outcome_bind]. case_match; [done|].
    eapply safe_step; [apply getoption_safe; [done|lia]|]. intros [[[next align] h2] q2] (_ & Hh2 & Hq2).
    case_match; [done|]. cbn. split; [done|lia]. }
  destruct m as [[[align h2] q2]| |]; [|done|done]. destruct Hm as [Hh2 Hq2]. cbn [outcome_bind].
  case_match; [cbn; split; [split_and!; [done..|lia|lia|lia]|by exists 0]|].
  set (al := if maxalign h2 <? align then _ else _). case_match; [done|]. cbn.
  split; [|intros t'; by eexists]. split_and!; [done..|lia|lia|].
  apply Z.land_nonneg. right. subst al. unfold header_ok in Hh2. case_match; lia.
Qed.
End Format.

(** * One option *)

Lemma bytes_mid a x b : bytes (a ++ x ++ b) (zlen a) (zlen x) = Ret x.
Proof.
  pose proof (zlen_nonneg a). pose proof (zlen_nonneg x). pose proof (zlen_nonneg b).
  rewrite bytes_in by (rewrite ?zlen_app; lia). unfold slice, zlen. rewrite !Nat2Z.id.
  by rewrite drop_app_length, take_app_length.
Qed.

Lemma zlen_zeros n : 0 <= n -> zlen (zeros n) = n.
Proof. intros Hn. unfold zlen, zeros. rewrite length_replicate. lia. Qed.

Lemma zlen_packint n little size neg : 0 <= size -> zlen (packint n little size neg) = size.
Proof.
  intros Hs. unfold packint. change (if little then ?l else rev ?l) with (order little l).
  unfold zlen. rewrite length_order, packint_loop_split. unfold SZINT.
  destruct (Z.ltb_spec 8 size); [|rewrite andb_false_r, length_le_split; lia].
  destruct neg; cbn [andb]; [|rewrite length_le_split; lia].
  rewrite length_app, length_take, length_le_split, length_replicate. lia.
Qed.

Lemma copywithendian_order l little : copywithendian l little = order little l.
Proof. by destruct little. Qed.

Lemma order_order little l : order little (order little l) = l.
Proof. destruct little; [done|apply rev_involutive]. Qed.

Lemma c_bytes_all s : zlen (c_bytes s) = zlen s -> forall r, c_bytes (s ++ 0 :: r) = s.
Proof.
  induction s as [|c s IH]; intros Hl r; [done|]. cbn [c_bytes app] in *. destruct (c =? 0).
  - rewrite zlen_nil, zlen_cons in Hl. pose proof (zlen_nonneg s). lia.
  - rewrite !zlen_cons in Hl. by rewrite IH by lia.
Qed.

Section Items.
Context `{Target, NumFormat}.

(** The number and the text that an argument is converted to. *)
Definition number_of (v : TValue) : double := default S754_nan (luaV_tonumber v).
Definition text_of (v : TValue) : list Z :=
  match v with LString s => s | LNumber n => luai_num2str n | _ => [] end.

(** What [unpack] returns for a value that an option has packed. *)
Definition kept (opt : KOption) (size : Z) (v : TValue) : TValue :=
  match opt with
  | Kint => LNumber (double_of_Z (luai_num2long (number_of v)))
  | Kuint => LNumber (double_of_Z (u64 (luai_num2long (number_of v))))
  | Kfloat => LNumber (kept_float (number_of v) size)
  | Kchar => LString (text_of v ++ zeros (size - zlen (text_of v)))
  | _ => LString (text_of v)
  end.

(** A number of the format, a string of the virtual machine. *)
Definition value_ok (v : TValue) : Prop :=
  valid_double (number_of v) = true /\ zlen (text_of v) <= MAXSSIZE.

Lemma checknumber_inv args i d : luaL_checknumber args i = Ret d ->
  exists v, args !! Z.to_nat (i - 1) = Some v /\ number_of v = d /\ v <> LNil.
Proof.
  unfold luaL_checknumber, lua_tonumberx, index2addr, number_of.
  destruct (args !! _) as [v|]; [|done]. destruct (luaV_tonumber v) as [d'|] eqn:E; [|done].
  intros [= <-]. exists v. rewrite E. split_and!; [done..|by intros ->].
Qed.

Lemma checklstring_inv args i s : luaL_checklstring args i = Ret s ->
  exists v, args !! Z.to_nat (i - 1) = Some v /\ text_of v = s /\ v <> LNil.
Proof.
  unfold luaL_checklstring, lua_tolstring, index2addr.
  destruct (args !! _) as [v|]; [|done]. destruct v; try done; intros [= <-]; by eexists.
Qed.

Lemma argcheck_inv (c : bool) i msg : luaL_argcheck c i msg = Ret tt -> c = true.
Proof. by destruct c. Qed.

(** A sequence with a check that succeeds. *)
Lemma check_step {A} (c : bool) i msg (k : unit -> outcome A) r :
  outcome_bind (luaL_argcheck c i msg) k = Ret r -> c = true /\ k tt = Ret r.
Proof. intros Hr. apply bind_Ret_inv in Hr as ([] & Hc & Hr). split; [by eapply argcheck_inv|done]. Qed.

(** An item that [pack] writes for an option, and [unpack] reads as its value. *)
Definition packs (args : list TValue) (h : Header) (opt : KOption) (size arg : Z) (item : list Z)
    (more : Z) : Prop :=
  zlen item = size + more /\ 0 <= more /\
  exists v, (takes_argument opt = true -> args !! Z.to_nat (arg - 1) = Some v /\ v <> LNil) /\
  forall a b, zlen (a ++ item ++ b) < 2 ^ 63 ->
    unpack_item (a ++ item ++ b) h opt size (zlen a)
    = Ret (if takes_argument opt then Some (kept opt size v) else None, more).

Section Options.
Context (args : list TValue) (h : Header) (size arg : Z).
Context (Hargs : forall v, args !! Z.to_nat (arg - 1) = Some v -> value_ok v).
Context (item : list Z) (more : Z).

Ltac start_option := unfold packs; cbn [pack_item option_ok takes_argument unpack_item kept]; intros Hok Hp.

(** Signed integers *)
Lemma packs_Kint : option_ok Kint size -> pack_item args h Kint size arg = Ret (item, more) ->
  packs args h Kint size arg item more.
Proof.
  start_option.
  apply bind_Ret_inv in Hp as (d & Hd & Hp). apply checknumber_inv in Hd as (v & Hv & <- & Hnil).
  set (n := luai_num2long (number_of v)) in *. pose proof (luai_num2long_range (number_of v)) as Hn. fold n in Hn.
  apply bind_Ret_inv in Hp as ([] & Hc & [= <- <-]).
  assert (Hfit : fits_signed size n).
  { split; [done|]. intros Hs. unfold SZINT in Hc. rewrite (proj2 (Z.ltb_lt _ _)) in Hc by lia.
    cbv zeta in Hc. apply argcheck_inv in Hc. apply andb_true_iff in Hc as [H1 H2].
    apply Z.leb_le in H1. apply Z.ltb_lt in H2. unfold NB in *. rewrite Z.shiftl_1_l in *.
    replace (size * 8 - 1) with (8 * size - 1) in * by lia. unfold in_s. lia. }
  split; [rewrite zlen_packint; lia|]. split; [lia|]. exists v. split; [done|]. intros a b Hlen.
  rewrite packint_signed by done. unfold MAXINTSIZE in Hok.
  rewrite (unpackint_split a b (islittle h) size n true) by done. cbn [outcome_bind].
  by rewrite cast_s_id by done.
Qed.

(** Unsigned integers *)
Lemma packs_Kuint : option_ok Kuint size -> pack_item args h Kuint size arg = Ret (item, more) ->
  packs args h Kuint size arg item more.
Proof.
  start_option.
  apply bind_Ret_inv in Hp as (d & Hd & Hp). apply checknumber_inv in Hd as (v & Hv & <- & Hnil).
  set (n := luai_num2long (number_of v)) in *. pose proof (cast_u_range 64 n ltac:(lia)) as Hn.
  apply bind_Ret_inv in Hp as ([] & Hc & [= <- <-]).
  assert (Hfit : fits_unsigned size (u64 n)).
  { split; [done|]. intros Hs. unfold SZINT in Hc. rewrite (proj2 (Z.ltb_lt _ _)) in Hc by lia.
    apply argcheck_inv in Hc. apply Z.ltb_lt in Hc. unfold NB, shl_u in *. rewrite Z.shiftl_1_l in Hc.
    replace (size * 8) with (8 * size) in * by lia. rewrite (cast_u_id 64 (2 ^ _)) in Hc.
    - unfold in_u in *. lia.
    - unfold in_u. split; [apply Z.pow_nonneg; lia|]. apply Z.pow_lt_mono_r; lia. }
  split; [rewrite zlen_packint; lia|]. split; [lia|]. exists v. split; [done|]. intros a b Hlen.
  rewrite packint_unsigned. unfold MAXINTSIZE in Hok.
  rewrite (unpackint_split a b (islittle h) size (u64 n) false) by done. cbn [outcome_bind].
  by rewrite cast_u_cast_s, cast_u_idemp by lia.
Qed.

(** Floating point numbers *)
Lemma packs_Kfloat : option_ok Kfloat size -> pack_item args h Kfloat size arg = Ret (item, more) ->
  packs args h Kfloat size arg item more.
Proof.
  start_option.
  apply bind_Ret_inv in Hp as (d & Hd & Hp). apply checknumber_inv in Hd as (v & Hv & <- & Hnil).
  injection Hp as <- <-. rewrite copywithendian_order. pose proof (length_float_image (number_of v) size Hok) as Hl.
  assert (zlen (order (islittle h) (float_image (number_of v) size)) = size) as Ho
    by (unfold zlen in *; by rewrite length_order).
  split; [lia|]. split; [lia|]. exists v. split; [done|]. intros a b Hlen.
  rewrite <- Ho at 2. rewrite bytes_mid. cbn [outcome_bind].
  rewrite copywithendian_order, order_order, float_value_image; [done| |done].
  by apply (Hargs _ Hv).
Qed.

(** Strings of a fixed size *)
Lemma packs_Kchar : option_ok Kchar size -> pack_item args h Kchar size arg = Ret (item, more) ->
  packs args h Kchar size arg item more.
Proof.
  start_option.
  apply bind_Ret_inv in Hp as (s & Hs & Hp). apply checklstring_inv in Hs as (v & Hv & <- & Hnil).
  apply check_step in Hp as [Hc [= <- <-]]. apply Z.leb_le in Hc. pose proof (zlen_nonneg (text_of v)).
  assert (zlen (text_of v ++ zeros (size - zlen (text_of v))) = size) as Hl
    by (rewrite zlen_app, zlen_zeros; lia).
  split; [lia|]. split; [lia|]. exists v. split; [done|]. intros a b Hlen.
  rewrite <- Hl at 2. rewrite bytes_mid. done.
Qed.

(** Strings with their length in front *)
Lemma packs_Kstring : option_ok Kstring size -> pack_item args h Kstring size arg = Ret (item, more) ->
  packs args h Kstring size arg item more.
Proof.
  start_option.
  apply bind_Ret_inv in Hp as (s & Hs & Hp). apply checklstring_inv in Hs as (v & Hv & <- & Hnil).
  apply check_step in Hp as [Hc [= <- <-]]. set (s := text_of v) in *. pose proof (zlen_nonneg s).
  assert (zlen s <= MAXSSIZE) as Hmax by (by apply (Hargs _ Hv)).
  unfold MAXSSIZE, MAXINTSIZE in *.
  assert (Hfit : fits_unsigned size (zlen s)).
  { split; [unfold in_u; lia|]. intros Hs. apply orb_true_iff in Hc as [Hc|Hc]; [lia|].
    apply Z.ltb_lt in Hc. unfold NB, shl_u in *. rewrite Z.shiftl_1_l in Hc.
    replace (size * 8) with (8 * size) in * by lia. rewrite (cast_u_id 64 (2 ^ _)) in Hc.
    - unfold in_u in *. lia.
    - unfold in_u. split; [apply Z.pow_nonneg; lia|]. apply Z.pow_lt_mono_r; lia. }
  pose proof (zlen_packint (zlen s) (islittle h) size false ltac:(lia)) as Hpl.
  split; [rewrite zlen_app; lia|]. split; [lia|]. exists v. split; [done|]. intros a b Hlen.
  rewrite packint_unsigned in *. rewrite <- app_assoc.
  rewrite (unpackint_split a (s ++ b) (islittle h) size (zlen s) false) by (done || lia). cbn [outcome_bind].
  rewrite cast_u_cast_s, cast_u_id by (unfold in_u; lia). rewrite !zlen_app, Hpl in *.
  pose proof (zlen_nonneg a). pose proof (zlen_nonneg b). rewrite (cast_u_id 64) by (unfold in_u; lia).
  rewrite (proj2 (Z.leb_le _ _)) by lia. cbn [luaL_argcheck outcome_bind].
  rewrite app_assoc. replace (zlen a + size) with (zlen (a ++ order (islittle h) (le_split (Z.to_nat size) (zlen s))))
    by (rewrite zlen_app; lia).
  by rewrite bytes_mid.
Qed.

(** Strings with a zero behind *)
Lemma packs_Kzstr : option_ok Kzstr size -> pack_item args h Kzstr size arg = Ret (item, more) ->
  packs args h Kzstr size arg item more.
Proof.
  start_option.
  apply bind_Ret_inv in Hp as (s & Hs & Hp). apply checklstring_inv in Hs as (v & Hv & <- & Hnil).
  apply check_step in Hp as [Hc [= <- <-]]. set (s := text_of v) in *. pose proof (zlen_nonneg s).
  apply Z.eqb_eq in Hc. rewrite zlen_app. change (zlen [0]) with 1.
  split; [lia|]. split; [lia|]. exists v. split; [done|]. intros a b Hlen. rewrite <- app_assoc.
  pose proof (zlen_nonneg a). pose proof (zlen_nonneg b). pose proof (zlen_nonneg [0]). unfold cstr, cget.
  rewrite (proj2 (Z.leb_le 0 _)), (proj2 (Z.leb_le (zlen a) _)) by (rewrite ?zlen_app; lia).
  cbn [andb outcome_bind].
  assert (drop (Z.to_nat (zlen a)) (a ++ s ++ [0] ++ b) = s ++ 0 :: b) as ->
    by (unfold zlen; by rewrite Nat2Z.id, drop_app_length).
  rewrite c_bytes_all by done. rewrite (proj2 (Z.ltb_lt _ _)).
  2: { rewrite !zlen_app. change (zlen [0]) with 1. lia. }
  cbn [luaL_argcheck outcome_bind]. by rewrite bytes_mid.
Qed.

End Options.

Lemma pack_item_spec args h opt size arg item more :
  option_ok opt size -> (forall v, args !! Z.to_nat (arg - 1) = Some v -> value_ok v) ->
  pack_item args h opt size arg = Ret (item, more) ->
  packs args h opt size arg item more.
Proof.
  intros Hok Hargs Hp. destruct opt; [by apply packs_Kint|by apply packs_Kuint|by apply packs_Kfloat
    |by apply packs_Kchar|by apply packs_Kstring|by apply packs_Kzstr|..].
  all: cbn in Hok, Hp; injection Hp as <- <-; subst size; split; [done|]; split; [lia|]; by exists LNil.
Qed.
End Items.

(** * The loops *)

(** The options of a format that have an argument, with their sizes. *)
Fixpoint data_options (fuel : nat) (fmt : list Z) (h : Header) (p : Z) : list (KOption * Z) :=
  match fuel with
  | O => []
  | S f =>
      match cget fmt p with
      | Ret c =>
          if c =? 0 then []
          else
            match getdetails fmt h 0 p with
            | Ret (opt, size, _, h, p) =>
                (if takes_argument opt then [(opt, size)] else []) ++ data_options f fmt h p
            | _ => []
            end
      | _ => []
      end
  end.

Section Loops.
Context `{Target, NumFormat}.

Definition kept_values (opts : list (KOption * Z)) (vs : list TValue) : list TValue :=
  zip_with (fun o v => kept o.1 o.2 v) opts vs.

(** The arguments behind the format. *)
Definition arguments_ok (args : list TValue) : Prop :=
  forall i v, (1 <= i)%nat -> args !! i = Some v -> value_ok v.

(** What the rest of the result of [pack] is for [unpack]. *)
Definition reads_back (fuel : nat) (args : list TValue) (fmt : list Z) (h : Header) (p arg total : Z)
    (b out : list Z) : Prop :=
  let opts := data_options fuel fmt h p in
  exists vs rest, out = b ++ rest /\ length vs = length opts
    /\ vs = take (length opts) (drop (Z.to_nat arg) args) /\ Forall (fun v => v <> LNil) vs
    /\ forall top r, top + Z.of_nat (length r) + (zlen fmt - p) + 2 <= LUAI_MAXCSTACK -> 0 <= top ->
       unpack_loop fuel fmt out h p total top r
       = Ret (r ++ kept_values opts vs ++ [lua_pushinteger (zlen out + 1)]).

Lemma checkstack_ok top n msg : 0 <= top -> 0 <= n -> top + n <= LUAI_MAXCSTACK -> luaL_checkstack top n msg = Ret tt.
Proof.
  intros Ht Hn Hl. unfold luaL_checkstack, lua_checkstack.
  by rewrite !(proj2 (Z.ltb_ge _ _)) by lia.
Qed.

Lemma pack_loop_spec fuel args fmt h p arg total b out :
  header_ok h -> 0 <= p <= zlen fmt -> zlen fmt - p < Z.of_nat fuel -> total = zlen b -> 1 <= arg ->
  arguments_ok args -> zlen out < 2 ^ 63 ->
  pack_loop fuel args fmt h p arg total b = Ret out ->
  reads_back fuel args fmt h p arg total b out.
Proof.
  intros Hh Hp Hf Ht Harg Hargs Hout. revert h p arg total b Hh Hp Hf Ht Harg.
  induction fuel as [|f IH]; intros h p arg total b Hh Hp Hf Ht Harg Hpack; [lia|].
  cbn [pack_loop] in Hpack. unfold reads_back. cbn [unpack_loop data_options].
  rewrite cget_nth in Hpack |- * by lia. cbn [outcome_bind] in *.
  destruct (Z.eqb_spec (nth (Z.to_nat p) fmt 0) 0) as [Hz|Hnz].
  { injection Hpack as <-. exists [], []. rewrite app_nil_r. split_and!; [done..|]. intros top r _ _.
    by rewrite Ht. }
  apply bind_Ret_inv in Hpack as (dt & Hd & Hpack). pose proof (getdetails_safe fmt h total p Hh Hp) as Hs.
  rewrite Hd in Hs. destruct dt as [[[[opt size] al] h'] p'].
  destruct Hs as (((Hok & Hh' & Hp') & Hal) & Hany). destruct (Hany 0) as [al0 ->].
  apply bind_Ret_inv in Hpack as ([item more] & Hitem & Hpack).
  destruct (pack_item_spec args h' opt size (arg + 1) item more Hok
    ltac:(intros v0; apply Hargs; lia) Hitem) as (Hlen & Hmore & v & Hv & Hread).
  set (b' := b ++ zeros al ++ item) in *.
  assert (Hb' : zlen b' = total + (al + size) + more)
    by (unfold b'; rewrite !zlen_app, zlen_zeros, Hlen by done; lia).
  set (arg' := if takes_argument opt then arg + 1 else arg) in *.
  assert (Harg' : arg <= arg') by (subst arg'; case_match; lia).
  destruct (IH h' p' arg' (total + (al + size) + more) b') as (vs & rest & Hrest & Hvl & Hvs & Hnil & Hun);
    [done|lia|lia|done|lia|done|].
  set (opts := data_options f fmt h' p') in *.
  exists ((if takes_argument opt then [v] else []) ++ vs), (zeros al ++ item ++ rest). split_and!.
  - rewrite Hrest. unfold b'. by rewrite <- !app_assoc.
  - rewrite !length_app, Hvl. by destruct (takes_argument opt).
  - subst arg'. destruct (takes_argument opt); [|done]. destruct (Hv eq_refl) as [Hlook _].
    replace (Z.to_nat (arg + 1 - 1)) with (Z.to_nat arg) in Hlook by lia.
    cbn [app length]. rewrite (drop_S _ _ _ Hlook). cbn [firstn].
    replace (Z.to_nat (arg + 1)) with (S (Z.to_nat arg)) in Hvs by lia. by rewrite <- Hvs.
  - apply Forall_app. split; [|done]. destruct (takes_argument opt); [|done].
    apply Forall_singleton. by apply Hv.
  - intros top r Htop Htop0. rewrite Hd. cbn [outcome_bind].
    assert (Hz : zlen out = total + (al + size) + more + zlen rest) by (rewrite Hrest, zlen_app; lia).
    pose proof (zlen_nonneg rest).
    pose proof (zlen_nonneg b). rewrite cast_u_id by (unfold in_u, MAXINTSIZE in *; destruct opt; cbn in Hok; lia).
    rewrite (proj2 (Z.leb_le _ _)) by lia. cbn [luaL_argcheck outcome_bind].
    rewrite checkstack_ok by lia. cbn [outcome_bind].
    specialize (Hread (b ++ zeros al) rest).
    assert (out = (b ++ zeros al) ++ item ++ rest) as Hsplit
      by (rewrite Hrest; unfold b'; by rewrite <- !app_assoc).
    rewrite <- Hsplit, zlen_app, zlen_zeros, <- Ht in Hread by done. rewrite Hread by done. cbn [outcome_bind].
    replace (total + al + more + size) with (total + (al + size) + more) by lia.
    rewrite Hun; [|case_match; rewrite length_app; cbn [length]; lia|done].
    rewrite <- app_assoc. do 2 f_equal. unfold kept_values. by destruct (takes_argument opt).
Qed.

(** [packsize] is the size of what [pack] writes. *)
Lemma packsize_loop_spec fuel args fmt h p arg total b out n :
  header_ok h -> 0 <= p <= zlen fmt -> zlen fmt - p < Z.of_nat fuel -> total = zlen b -> 1 <= arg ->
  arguments_ok args -> pack_loop fuel args fmt h p arg total b = Ret out ->
  packsize_loop fuel fmt h p total = Ret n -> zlen out = n.
Proof.
  intros Hh Hp Hf Ht Harg Hargs. revert h p arg total b Hh Hp Hf Ht Harg.
  induction fuel as [|f IH]; intros h p arg total b Hh Hp Hf Ht Harg Hpack Hsize; [lia|].
  cbn [pack_loop packsize_loop] in *. rewrite cget_nth in Hpack, Hsize by lia. cbn [outcome_bind] in *.
  destruct (Z.eqb_spec (nth (Z.to_nat p) fmt 0) 0); [injection Hpack as <-; injection Hsize as <-; done|].
  apply bind_Ret_inv in Hpack as (dt & Hd & Hpack). pose proof (getdetails_safe fmt h total p Hh Hp) as Hs.
  rewrite Hd in Hs, Hsize. destruct dt as [[[[opt size] al] h'] p'].
  destruct Hs as (((Hok & Hh' & Hp') & Hal) & _). cbn [outcome_bind] in Hsize.
  apply bind_Ret_inv in Hpack as ([item more] & Hitem & Hpack).
  apply check_step in Hsize as [Hopt Hsize]. apply check_step in Hsize as [_ Hsize].
  destruct (pack_item_spec args h' opt size (arg + 1) item more Hok
    ltac:(intros v0; apply Hargs; lia) Hitem) as (Hlen & _).
  assert (more = 0) as ->.
  { destruct opt; cbn [pack_item] in Hitem; try done;
      repeat (apply bind_Ret_inv in Hitem as (? & _ & Hitem)); by injection Hitem. }
  eapply (IH h' p' (if takes_argument opt then arg + 1 else arg)); [done|lia|lia| |destruct (takes_argument opt); lia|exact Hpack|].
  - rewrite !zlen_app, zlen_zeros, Hlen by done. lia.
  - replace (total + (al + size) + 0) with (total + (size + al)) by lia. exact Hsize.
Qed.
End Loops.

(** * Safety on any format and any data *)

Section Reads.
Context (data : list Z).

Lemma unpackint_loop_safe pos little size k res :
  0 <= pos -> pos + size <= zlen data -> Z.of_nat k <= size ->
  is_defined (unpackint_loop data pos little size k res) = true.
Proof.
  intros Hp Hs. revert res. induction k as [|i IH]; intros res Hk; cbn [unpackint_loop]; [done|].
  rewrite cget_nth by (destruct little; lia). cbn [outcome_bind]. apply IH. lia.
Qed.

Lemma unread_loop_safe pos little size mask i k :
  0 <= pos -> pos + size <= zlen data -> 0 <= i -> i + Z.of_nat k <= size ->
  is_defined (unread_loop data pos little size mask i k) = true.
Proof.
  intros Hp Hs. revert i. induction k as [|k IH]; intros i Hi Hk; cbn [unread_loop]; [done|].
  rewrite cget_nth by (destruct little; lia). cbn [outcome_bind]. case_match; [done|]. apply IH; lia.
Qed.

Lemma unpackint_safe pos little size issigned :
  0 <= pos -> pos + size <= zlen data -> 1 <= size -> is_defined (unpackint data pos little size issigned) = true.
Proof.
  intros Hp Hs Hsize. unfold unpackint. set (limit := if size <=? SZINT then size else SZINT).
  assert (1 <= limit <= size) by (unfold limit, SZINT; destruct (Z.leb_spec size 8); lia).
  apply bind_defined; [apply unpackint_loop_safe; lia|]. intros res _.
  destruct (size <? SZINT); [by destruct issigned|]. apply bind_defined; [|done].
  destruct (SZINT <? size); [|done]. apply unread_loop_safe; lia.
Qed.
End Reads.

Lemma c_bytes_length l : zlen (c_bytes l) <= zlen l.
Proof.
  induction l as [|c l IH]; cbn [c_bytes]; [lia|]. case_match; rewrite ?zlen_nil, ?zlen_cons;
    pose proof (zlen_nonneg l); lia.
Qed.

Section Safety.
Context `{Target, NumFormat}.

Lemma unpack_item_safe data h opt size pos :
  option_ok opt size -> 0 <= pos -> pos + size <= zlen data -> is_string data ->
  safe (unpack_item data h opt size pos) (fun r => 0 <= r.2 /\ pos + size + r.2 <= zlen data
    /\ match r.1 with Some v => typed v | None => True end).
Proof.
  intros Hok Hp Hs Hdata. unfold MAXINTSIZE in Hok.
  destruct opt; cbn [option_ok unpack_item] in *; try (cbn; lia).
  - apply safe_any; [by apply unpackint_safe; lia|]. intros res. cbn. split_and!; [lia|lia|done].
  - apply safe_any; [by apply unpackint_safe; lia|]. intros res. cbn. split_and!; [lia|lia|done].
  - rewrite bytes_in by lia. cbn. split_and!; [lia|lia|done].
  - rewrite bytes_in by lia. cbn. split_and!; [lia|lia|].
    apply (bytes_typed data Hdata pos size). by apply bytes_in; lia.
  - apply safe_any; [by apply unpackint_safe; lia|]. intros len. cbn [outcome_bind].
    pose proof (cast_u_range 64 len ltac:(lia)) as Hl. unfold in_u in Hl.
    unfold is_string, MAXSSIZE in Hdata. rewrite (cast_u_id 64 (_ - _)) by (unfold in_u; lia).
    destruct (Z.leb_spec (u64 len) (zlen data - pos - size)) as [Hle|]; [|done]. cbn [luaL_argcheck outcome_bind].
    rewrite bytes_in by lia. cbn. split_and!; [lia|lia|].
    apply (bytes_typed data Hdata (pos + size) (u64 len)). by apply bytes_in; lia.
  - unfold cstr. rewrite cget_nth by lia. cbn [outcome_bind].
    set (s := c_bytes _). pose proof (zlen_nonneg s).
    destruct (Z.ltb_spec (pos + zlen s) (zlen data)) as [Hlt|]; [|done]. cbn [luaL_argcheck outcome_bind].
    rewrite bytes_in by lia. cbn. split_and!; [lia|lia|].
    apply (bytes_typed data Hdata pos (zlen s)). by apply bytes_in; lia.
Qed.

Lemma unpack_loop_safe fuel fmt data h p pos top r :
  header_ok h -> 0 <= p <= zlen fmt -> zlen fmt - p < Z.of_nat fuel -> 0 <= pos <= zlen data ->
  is_string data -> Forall typed r ->
  safe (unpack_loop fuel fmt data h p pos top r) (Forall typed).
Proof.
  intros Hh Hp Hf Hpos Hdata. revert h p pos r Hh Hp Hf Hpos.
  induction fuel as [|f IH]; intros h p pos r Hh Hp Hf Hpos Hr; [lia|]. cbn [unpack_loop].
  rewrite cget_nth by lia. cbn [outcome_bind].
  case_match; [cbn; apply Forall_app; split; [done|by apply Forall_singleton]|].
  eapply safe_step; [by apply getdetails_safe|].
  intros [[[[opt size] al] h'] p'] (((Hok & Hh' & Hp') & Hal) & _).
  pose proof (proj2 Hdata) as Hmax. unfold MAXSSIZE in Hmax.
  rewrite cast_u_id by (unfold in_u; lia).
  destruct (Z.leb_spec (al + size) (zlen data - pos)) as [Hle|]; [|done]. cbn [luaL_argcheck outcome_bind].
  unfold luaL_checkstack. case_match; [|done]. cbn [outcome_bind].
  eapply safe_step; [apply unpack_item_safe; [done|lia|lia|done]|]. intros [v more] (Hm & Hle' & Hv).
  cbn [fst snd] in *.
  assert (Hsize : 0 <= size) by (unfold MAXINTSIZE in *; destruct opt; cbn in Hok; lia).
  apply IH; [done|lia|lia|lia|]. apply Forall_app. split; [done|]. destruct v; [by apply Forall_singleton|done].
Qed.

Lemma pack_item_safe args h opt size arg : safe (pack_item args h opt size arg) (fun _ => True).
Proof.
  assert (Hn : forall i, is_defined (luaL_checknumber args i) = true)
    by (intros i; unfold luaL_checknumber; by case_match).
  assert (Hs : forall i, is_defined (luaL_checklstring args i) = true)
    by (intros i; unfold luaL_checklstring; by case_match).
  destruct opt; cbn [pack_item]; try done; apply safe_any; auto; intros x;
    try (apply safe_any; [|done]); try apply argcheck_defined.
  all: try exact I.
  all: destruct (size <? SZINT); [apply argcheck_defined|done].
Qed.

Lemma pack_loop_safe fuel args fmt h p arg total b :
  header_ok h -> 0 <= p <= zlen fmt -> zlen fmt - p < Z.of_nat fuel ->
  safe (pack_loop fuel args fmt h p arg total b) (fun _ => True).
Proof.
  revert h p arg total b. induction fuel as [|f IH]; intros h p arg total b Hh Hp Hf; [lia|].
  cbn [pack_loop]. rewrite cget_nth by lia. cbn [outcome_bind]. case_match; [done|].
  eapply safe_step; [by apply getdetails_safe|].
  intros [[[[opt size] al] h'] p'] (((Hok & Hh' & Hp') & Hal) & _).
  eapply safe_step; [apply pack_item_safe|]. intros [item more] _. apply IH; [done|lia|lia].
Qed.

Lemma packsize_loop_safe fuel fmt h p total :
  header_ok h -> 0 <= p <= zlen fmt -> zlen fmt - p < Z.of_nat fuel -> 0 <= total <= MAXSSIZE ->
  safe (packsize_loop fuel fmt h p total) (fun n => 0 <= n <= MAXSSIZE).
Proof.
  revert h p total. induction fuel as [|f IH]; intros h p total Hh Hp Hf Ht; [lia|].
  cbn [packsize_loop]. rewrite cget_nth by lia. cbn [outcome_bind]. case_match; [done|].
  eapply safe_step; [by apply getdetails_safe|].
  intros [[[[opt size] al] h'] p'] (((Hok & Hh' & Hp') & Hal) & _).
  apply safe_any; [apply argcheck_defined|]. intros _.
  destruct (Z.leb_spec total (MAXSSIZE - (size + al))) as [Hle|]; [|done]. cbn [luaL_argcheck outcome_bind].
  assert (Hsize : 0 <= size) by (unfold MAXINTSIZE in *; destruct opt; cbn in Hok; lia).
  apply IH; [done|lia|lia|lia].
Qed.
End Safety.
