(* ===== verification/StrPackProps.v ===== *)
(** Packing: the theorems about [string.pack], [string.packsize] and [string.unpack]
    of [StrPack.v], with concrete inputs for them. *)
From Stdlib Require Import Ascii.
From stdpp Require Import base list.
From S2P Require Import Prelude Word Bytes Double DoubleExact LuaApi Tm Arith Key Pattern PatternSpec PatternMatch.
From S2P Require Import PatternSafe TabLib Sort SortLib StrLib StrSpec StrSafe StrOps StrType StrPack StrPackSpec StrPackLoop.
Open Scope Z_scope.
Open Scope outcome_scope.

Section Props.
Context `{Target, NumFormat}.

(** C18. [string.unpack] reads back what [string.pack] has written: for every format
    and all values that [pack] accepts, it returns one value for each option with an
    argument - the integer, rounded to a [double]; the number, rounded to a [float]
    for [f]; the text, filled with zeros for [cn] - and the position behind the
    string, whatever the byte order, the sizes and the alignment. *)
Theorem string_pack_unpack fmt vals b :
  str_pack (LString fmt :: vals) = Ret [LString b] ->
  Forall value_ok vals -> zlen fmt + 4 <= LUAI_MAXCSTACK -> zlen b < 2 ^ 63 ->
  let opts := data_options (S (length fmt)) fmt initheader 0 in
  (length opts <= length vals)%nat /\
  str_unpack [LString fmt; LString b]
  = Ret (kept_values opts (take (length opts) vals) ++ [lua_pushinteger (zlen b + 1)]).
Proof.
  intros Hpack Hvals Hfmt Hb opts. unfold str_pack in Hpack.
  change (luaL_checklstring _ 1) with (Ret fmt) in Hpack. cbn [outcome_bind] in Hpack.
  apply bind_Ret_inv in Hpack as (b' & Hpack & [= ->]). pose proof (zlen_nonneg fmt).
  destruct (pack_loop_spec (S (length fmt)) ((LString fmt :: vals) ++ [LNil]) fmt initheader 0 1 0 [] b)
    as (vs & rest & _ & Hl & Hvs & Hnil & Hun); try (done || lia || (unfold zlen; lia)).
  - intros [|i] v Hi Hv; [lia|]. cbn in Hv. apply lookup_app_Some in Hv as [Hv|[_ Hv]].
    + rewrite Forall_lookup in Hvals. by apply (Hvals i).
    + apply list_lookup_singleton_Some in Hv as [_ <-]. by split; vm_compute.
  - fold opts in Hl, Hvs, Hun. change (drop (Z.to_nat 1) _) with (vals ++ [LNil]) in Hvs.
    assert (Hlen : (length opts <= length vals)%nat).
    { destruct (decide (length opts <= length vals)%nat) as [|Hgt]; [done|]. exfalso.
      rewrite firstn_all2 in Hvs by (rewrite length_app; cbn [length]; lia). subst vs.
      apply Forall_app in Hnil as [_ Hnil]. inversion_clear Hnil; congruence. }
    split; [done|]. rewrite take_app_le in Hvs by done. subst vs.
    specialize (Hun 2 []). cbn [app length] in Hun. rewrite Z.sub_0_r in Hun.
    rewrite <- Hun by (unfold LUAI_MAXCSTACK in *; lia).
    unfold str_unpack. change (luaL_checklstring _ 1) with (Ret fmt). change (luaL_checklstring _ 2) with (Ret b).
    cbn [outcome_bind]. change (luaL_optinteger _ 3 1) with (Ret 1). cbn [outcome_bind].
    change (posrelat 1 (zlen b) - 1) with 0. change (0 <? 0) with false. cbn iota. pose proof (zlen_nonneg b).
    by rewrite (proj2 (Z.leb_le 0 _)) by lia.
Qed.

(** [string.packsize] is the length of what [string.pack] writes. *)
Theorem string_packsize_length fmt vals b n :
  str_packsize [LString fmt] = Ret [lua_pushinteger n] -> 0 <= n < 2 ^ 53 ->
  str_pack (LString fmt :: vals) = Ret [LString b] -> Forall value_ok vals ->
  zlen b = n.
Proof.
  intros Hsize Hn Hpack Hvals. unfold str_pack, str_packsize in *.
  change (luaL_checklstring (LString fmt :: vals) 1) with (Ret fmt) in Hpack.
  change (luaL_checklstring [LString fmt] 1) with (Ret fmt) in Hsize. cbn [outcome_bind] in *.
  apply bind_Ret_inv in Hpack as (b' & Hpack & [= ->]). apply bind_Ret_inv in Hsize as (n' & Hsize & Heq).
  assert (Hh : header_ok initheader) by (unfold header_ok, MAXINTSIZE; cbn; lia). pose proof (zlen_nonneg fmt).
  assert (0 <= n' <= MAXSSIZE) as Hn'.
  { pose proof (packsize_loop_safe (S (length fmt)) fmt initheader 0 0 Hh ltac:(lia) ltac:(unfold zlen; lia)
      ltac:(unfold MAXSSIZE; lia)) as Hs. by rewrite Hsize in Hs. }
  injection Heq as Heq. apply (f_equal trunc_Z) in Heq. unfold MAXSSIZE in Hn'.
  rewrite !trunc_Z_double_of_Z in Heq by lia. injection Heq as <-.
  eapply (packsize_loop_spec (S (length fmt)) ((LString fmt :: vals) ++ [LNil]) fmt initheader 0 1 0 []);
    try (done || lia || (unfold zlen; lia)).
  intros [|i] v Hi Hv; [lia|]. cbn in Hv. apply lookup_app_Some in Hv as [Hv|[_ Hv]].
  - rewrite Forall_lookup in Hvals. by apply (Hvals i).
  - apply list_lookup_singleton_Some in Hv as [_ <-]. by split; vm_compute.
Qed.

(** C26. Packing and unpacking are safe for every format, valid or not, and all
    arguments: they read the format and the data within their bounds and end;
    [unpack] returns numbers and strings of bytes. *)
Theorem string_pack_safe args :
  typed_args args ->
  is_defined (str_pack args) = true /\ is_defined (str_packsize args) = true /\
  match str_unpack args with Ret r => Forall typed r | Throw _ => True | Undefined _ => False end.
Proof.
  intros Ha. assert (Hh : header_ok initheader) by (unfold header_ok, MAXINTSIZE; cbn; lia).
  pose proof (fun i => checklstring_safe args i (typed_sized _ Ha)) as Hs. split_and!.
  - apply (safe_defined _ (fun _ => True)). eapply safe_step; [apply Hs|]. intros fmt _. pose proof (zlen_nonneg fmt).
    eapply safe_step; [apply pack_loop_safe; [done|lia|unfold zlen; lia]|]. done.
  - apply (safe_defined _ (fun _ => True)). eapply safe_step; [apply Hs|]. intros fmt _. pose proof (zlen_nonneg fmt).
    eapply safe_step; [apply packsize_loop_safe; [done|lia|unfold zlen; lia|unfold MAXSSIZE; lia]|]. done.
  - enough (safe (str_unpack args) (Forall typed)) as Hu by (by destruct (str_unpack args)).
    eapply safe_step; [apply Hs|]. intros fmt _. pose proof (zlen_nonneg fmt).
    eapply safe_step; [eapply returns_safe; [apply Hs|by apply checklstring_typed]|]. intros data Hd.
    eapply safe_step; [apply optinteger_safe|]. intros pos _. cbv zeta.
    set (q := if posrelat pos (zlen data) - 1 <? 0 then 0 else _).
    assert (0 <= q) by (subst q; destruct (Z.ltb_spec (posrelat pos (zlen data) - 1) 0); lia).
    destruct (Z.leb_spec q (zlen data)); [|done]. cbn [luaL_argcheck outcome_bind].
    apply unpack_loop_safe; [done|lia|unfold zlen; lia|lia|done|done].
Qed.
End Props.

(** * Witnesses *)

#[local] Instance sample_format : NumFormat := fun _ => chars "#".

(** Signed and unsigned integers in both byte orders, alignment, strings, numbers. *)
Definition sample_fmt : list Z := chars "<!4 b Xi4 i4 >I2 s1 z c5 d f i16".
Definition sample_values : list TValue :=
  [number (-3); number (-70000); number 515; LString [1; 2]; LString [3; 4]; LString [5];
   number 3; number 5; number (-1)].

Lemma sample_values_ok : Forall value_ok sample_values.
Proof. repeat constructor; vm_compute; try discriminate; reflexivity. Qed.

Definition sample_packed : list Z :=
  Eval vm_compute in
    match str_pack (LString sample_fmt :: sample_values) with Ret [LString b] => b | _ => [] end.

Lemma sample_pack : str_pack (LString sample_fmt :: sample_values) = Ret [LString sample_packed].
Proof. vm_compute. reflexivity. Qed.

Lemma string_pack_unpack_witness :
  str_unpack [LString sample_fmt; LString sample_packed]
  = Ret [number (-3); number (-70000); number 515; LString [1; 2]; LString [3; 4];
         LString [5; 0; 0; 0; 0]; number 3; number 5; number (-1); number 53].
Proof.
  destruct (string_pack_unpack sample_fmt sample_values sample_packed sample_pack sample_values_ok
    ltac:(vm_compute; discriminate) ltac:(vm_compute; reflexivity)) as [_ Hu].
  rewrite Hu. vm_compute. reflexivity.
Defined.

Definition sized_packed : list Z :=
  Eval vm_compute in
    match str_pack [LString (chars ">i3 !8 d c2"); number (-2); number 7; LString [9]] with
    | Ret [LString b] => b | _ => [] end.

Lemma string_packsize_length_witness :
  str_pack [LString (chars ">i3 !8 d c2"); number (-2); number 7; LString [9]] = Ret [LString sized_packed]
  /\ zlen sized_packed = 18.
Proof.
  assert (E : str_pack [LString (chars ">i3 !8 d c2"); number (-2); number 7; LString [9]]
    = Ret [LString sized_packed]) by (vm_compute; reflexivity).
  split; [exact E|].
  apply (string_packsize_length (chars ">i3 !8 d c2") [number (-2); number 7; LString [9]] sized_packed 18);
    [reflexivity|lia|exact E|].
  repeat constructor; vm_compute; try discriminate; reflexivity.
Defined.

(** A format that asks for an alignment that is no power of two, and data that are
    too short. *)
Lemma string_pack_safe_witness :
  is_defined (str_pack [LString (chars "!4 i3"); number 1]) = true /\
  is_defined (str_packsize [LString (chars "!4 i3"); number 1]) = true /\
  match str_unpack [LString (chars "!4 i3"); number 1] with
  | Ret r => Forall typed r | Throw _ => True | Undefined _ => False
  end.
Proof.
  apply (string_pack_safe [LString (chars "!4 i3"); number 1]).
  split; [vm_compute; discriminate|]. intros i s Hs. unfold lua_tolstring, index2addr in Hs.
  destruct (Z.to_nat (i - 1)) as [|[|n]]; cbn in Hs; [| |discriminate]; injection Hs as <-;
    (split; [repeat constructor; unfold in_u; lia|vm_compute; discriminate]).
Defined.
