(* ===== verification/Utf8Lib.v ===== *)
(** The utf8 library, [VM/src/lutf8lib.cpp].

    A string is the list of its bytes with a zero behind it ([Pattern.cget]), a
    pointer into it an index.  An [int] that would leave its range, and the shift
    of a 32-bit word by 32 bits or more, are [Undefined]. *)
From stdpp Require Import base list.
From S2P Require Import Prelude Word Double LuaApi Pattern TabLib StrLib.
Open Scope Z_scope.
Open Scope outcome_scope.

Definition MAXUNICODE : Z := 0x10FFFF.

Definition iscont (s : list Z) (p : Z) : outcome bool :=
  c <- cget s p ;; Ret (Z.land c 0xC0 =? 0x80).

Definition u_posrelat (pos len : Z) : Z :=
  if 0 <=? pos then pos
  else if len <? u64 (0 - u64 pos) then 0
  else len + pos + 1.

(** * Decoding *)

Definition limits : list Z := [0xFF; 0x7F; 0x7FF; 0xFFFF].

(** The loop [while (c & 0x40)]: [c], [res] and [count] behind it, or [None] where
    it returns NULL.  The continuation bits of a byte are at most seven. *)
Fixpoint decode_loop (fuel : nat) (s : list Z) (o c res count : Z) : outcome (option (Z * Z * Z)) :=
  match fuel with
  | O => Undefined "endless sequence"
  | S f =>
      if negb (Z.land c 0x40 =? 0) then
        let count := count + 1 in
        cc <- cget s (o + count) ;;
        if negb (Z.land cc 0xC0 =? 0x80) then Ret None
        else
          let res := Z.lor (shl_u 32 res 6) (Z.land cc 0x3F) in
          decode_loop f s o (shl_u 32 c 1) res count
      else Ret (Some (c, res, count))
  end.

(** The code point at [o], and the index behind it. *)
Definition utf8_decode (s : list Z) (o : Z) : outcome (option (Z * Z)) :=
  c <- cget s o ;;
  if c <? 0x80 then Ret (Some (c, o + 1))
  else
    r <- decode_loop 8 s o c 0 0 ;;
    match r with
    | None => Ret None
    | Some (c, res, count) =>
        require count * 5 <? 32 else_ Undefined "shift of a 32-bit word" in
        let res := Z.lor res (shl_u 32 (Z.land c 0x7F) (count * 5)) in
        if (3 <? count) || (MAXUNICODE <? res) || (res <=? nth (Z.to_nat count) limits 0) then Ret None
        else if sub_u 32 res 0xD800 <? 0x800 then Ret None
        else Ret (Some (res, o + count + 1))
    end.

Section Utf8.
Context `{Target, NumFormat}.

(** The loop of [utflen] from [posi]. *)
Fixpoint utflen_loop (fuel : nat) (s : list Z) (posi posj n : Z) : outcome (list TValue) :=
  match fuel with
  | O => Undefined "endless length"
  | S f =>
      if posi <=? posj then
        r <- utf8_decode s posi ;;
        match r with
        | None => Ret [LNil; lua_pushinteger (posi + 1)]
        | Some (_, s1) => utflen_loop f s s1 posj (n + 1)
        end
      else Ret [lua_pushinteger n]
  end.

Definition utflen (args : list TValue) : outcome (list TValue) :=
  s <- luaL_checklstring args 1 ;;
  let len := zlen s in
  posi <- luaL_optinteger args 2 1 ;;
  let posi := u_posrelat posi len in
  posj <- luaL_optinteger args 3 (-1) ;;
  let posj := u_posrelat posj len in
  luaL_argcheck ((1 <=? posi) && (posi - 1 <=? len)) 2 "initial position out of string" ;;;
  let posi := posi - 1 in
  luaL_argcheck (posj - 1 <? len) 3 "final position out of string" ;;;
  let posj := posj - 1 in
  utflen_loop (S (length s)) s posi posj 0.

(** The loop of [codepoint] from the pointer [p]. *)
Fixpoint codepoint_loop (fuel : nat) (s : list Z) (p se : Z) : outcome (list TValue) :=
  match fuel with
  | O => Undefined "endless sequence"
  | S f =>
      if p <? se then
        r <- utf8_decode s p ;;
        match r with
        | None => luaL_error "invalid UTF-8 code"
        | Some (code, p) =>
            l <- codepoint_loop f s p se ;; Ret (lua_pushinteger code :: l)
        end
      else Ret []
  end.

Definition codepoint (args : list TValue) : outcome (list TValue) :=
  s <- luaL_checklstring args 1 ;;
  let len := zlen s in
  posi <- luaL_optinteger args 2 1 ;;
  let posi := u_posrelat posi len in
  pose <- luaL_optinteger args 3 posi ;;
  let pose := u_posrelat pose len in
  luaL_argcheck (1 <=? posi) 2 "out of range" ;;;
  luaL_argcheck (pose <=? len) 3 "out of range" ;;;
  if pose <? posi then Ret []
  else if INT_MAX <=? pose - posi then luaL_error "string slice too long"
  else
    let n := pose - posi + 1 in
    luaL_checkstack (lua_gettop args) n "string slice too long" ;;;
    codepoint_loop (S (length s)) s (posi - 1) pose.

(** * Encoding *)

Definition UTF8BUFFSZ : Z := 8.

(** The loop [do ... while (x > mfb)]: [buff] holds the last [n - 1] bytes of the
    buffer. *)
Fixpoint esc_loop (fuel : nat) (x mfb n : Z) (buff : list Z) : outcome (list Z) :=
  match fuel with
  | O => Undefined "endless sequence"
  | S f =>
      require n <=? UTF8BUFFSZ else_ Undefined "write outside of the buffer" in
      let buff := u8 (Z.lor 0x80 (Z.land x 0x3F)) :: buff in
      let n := n + 1 in
      let x := Z.shiftr x 6 in
      let mfb := Z.shiftr mfb 1 in
      if mfb <? x then esc_loop f x mfb n buff
      else
        require n <=? UTF8BUFFSZ else_ Undefined "write outside of the buffer" in
        Ret (u8 (Z.lor (shl_u 32 (not_u 32 mfb) 1) x) :: buff)
  end.

(** The bytes that are put at the end of the buffer. *)
Definition luaO_utf8esc (x : Z) : outcome (list Z) :=
  if x <? 0x80 then Ret [u8 x] else esc_loop 8 x 0x3F 1 [].

Definition buffutfchar (args : list TValue) (arg : Z) : outcome (list Z) :=
  code <- luaL_checkinteger args arg ;;
  luaL_argcheck ((0 <=? code) && (code <=? MAXUNICODE)) arg "value out of range" ;;;
  luaO_utf8esc code.

(** The loop over the arguments [i, ..., i + n - 1]. *)
Fixpoint utfchar_loop (args : list TValue) (n : nat) (i : Z) : outcome (list Z) :=
  match n with
  | O => Ret []
  | S n => c <- buffutfchar args i ;; r <- utfchar_loop args n (i + 1) ;; Ret (c ++ r)
  end.

Definition utfchar (args : list TValue) : outcome (list TValue) :=
  if lua_gettop args =? 1 then
    c <- buffutfchar args 1 ;; Ret [LString c]
  else
    b <- utfchar_loop args (length args) 1 ;; Ret [LString b].

(** * Positions *)

(** [while (posi > 0 && iscont(s + posi)) posi--;] *)
Fixpoint skip_back (fuel : nat) (s : list Z) (posi : Z) : outcome Z :=
  match fuel with
  | O => Undefined "endless skip"
  | S f =>
      if 0 <? posi then
        b <- iscont s posi ;;
        if b : bool then skip_back f s (posi - 1) else Ret posi
      else Ret posi
  end.

(** [while (iscont(s + posi)) posi++;] *)
Fixpoint skip_forward (fuel : nat) (s : list Z) (posi : Z) : outcome Z :=
  match fuel with
  | O => Undefined "endless skip"
  | S f =>
      b <- iscont s posi ;;
      if b : bool then skip_forward f s (posi + 1) else Ret posi
  end.

(** The loop [while (n < 0 && posi > 0)]. *)
Fixpoint move_back (fuel : nat) (s : list Z) (n posi : Z) : outcome (Z * Z) :=
  match fuel with
  | O => Undefined "endless move"
  | S f =>
      if (n <? 0) && (0 <? posi) then
        posi <- skip_back (S (length s)) s (posi - 1) ;;
        move_back f s (n + 1) posi
      else Ret (n, posi)
  end.

(** The loop [while (n > 0 && posi < (int)len)]. *)
Fixpoint move_forward (fuel : nat) (s : list Z) (n posi : Z) : outcome (Z * Z) :=
  match fuel with
  | O => Undefined "endless move"
  | S f =>
      if (0 <? n) && (posi <? zlen s) then
        posi <- skip_forward (S (length s)) s (posi + 1) ;;
        move_forward f s (n - 1) posi
      else Ret (n, posi)
  end.

Definition byteoffset (args : list TValue) : outcome (list TValue) :=
  s <- luaL_checklstring args 1 ;;
  let len := zlen s in
  n <- luaL_checkinteger args 2 ;;
  let posi := if 0 <=? n then 1 else len + 1 in
  posi <- luaL_optinteger args 3 posi ;;
  let posi := u_posrelat posi len in
  luaL_argcheck ((1 <=? posi) && (posi - 1 <=? len)) 3 "position out of range" ;;;
  let posi := posi - 1 in
  r <- (if n =? 0 then
          posi <- skip_back (S (length s)) s posi ;; Ret (n, posi)
        else
          b <- iscont s posi ;;
          if b : bool then luaL_error "initial position is a continuation byte"
          else if n <? 0 then move_back (S (length s)) s n posi
          else move_forward (S (length s)) s (n - 1) posi) ;;
  let '(n, posi) := r in
  Ret [if n =? 0 then lua_pushinteger (posi + 1) else LNil].

(** * Iteration *)

(** [lua_tointeger]: 0 when the value is no number. *)
Definition lua_tointeger (args : list TValue) (idx : Z) : Z :=
  match lua_tointegerx args idx with Some n => n | None => 0 end.

Definition iter_aux (args : list TValue) : outcome (list TValue) :=
  s <- luaL_checklstring args 1 ;;
  let len := zlen s in
  n <- sub_s 32 (lua_tointeger args 2) 1 ;;
  n <- (if n <? 0 then Ret 0
        else if n <? len then skip_forward (S (length s)) s (n + 1)
        else Ret n) ;;
  if len <=? n then Ret []
  else
    r <- utf8_decode s n ;;
    match r with
    | None => luaL_error "invalid UTF-8 code"
    | Some (code, next) =>
        b <- iscont s next ;;
        if b : bool then luaL_error "invalid UTF-8 code"
        else Ret [lua_pushinteger (n + 1); lua_pushinteger code]
    end.

(** What [for] gets: the iterator, the string and the first control value. *)
Definition iter_codes (args : list TValue) : outcome (TValue * TValue) :=
  s <- luaL_checklstring args 1 ;;
  Ret (default LNil (index2addr args 1), lua_pushinteger 0).
End Utf8.
