(* ===== verification/Utf8Spec.v ===== *)
(** UTF-8 as RFC 3629 defines it, and the decoder and the encoder of [Utf8Lib.v]
    against it. *)
From stdpp Require Import base list.
From S2P Require Import Prelude Word Bytes Double LuaApi Pattern PatternSpec PatternMatch PatternSafe Utf8Lib.
Open Scope Z_scope.
Open Scope outcome_scope.

(** * The encoding *)

(** The code points but for the surrogates. *)
Definition scalar (v : Z) : Prop := 0 <= v < 0xD800 \/ 0xE000 <= v <= MAXUNICODE.

Definition encode (v : Z) : list Z :=
  if v <? 0x80 then [v]
  else if v <? 0x800 then [0xC0 + v / 64; 0x80 + v mod 64]
  else if v <? 0x10000 then [0xE0 + v / 4096; 0x80 + v / 64 mod 64; 0x80 + v mod 64]
  else [0xF0 + v / 262144; 0x80 + v / 4096 mod 64; 0x80 + v / 64 mod 64; 0x80 + v mod 64].

Definition encode_all (vs : list Z) : list Z := flat_map encode vs.

Definition cont (b : Z) : bool := (0x80 <=? b) && (b <? 0xC0).

(** The continuation bytes that the byte [c] asks for. *)
Definition lead (c : Z) : nat :=
  if c <? 0xC0 then 0 else if c <? 0xE0 then 1 else if c <? 0xF0 then 2 else if c <? 0xF8 then 3
  else if c <? 0xFC then 4 else if c <? 0xFE then 5 else if c <? 0xFF then 6 else 7.

Fixpoint conts (n : nat) (l : list Z) : option (list Z) :=
  match n, l with
  | O, _ => Some []
  | S n, b :: l => if cont b then (b ::.) <$> conts n l else None
  | S _, [] => None
  end.

Definition add_byte (v b : Z) : Z := v * 64 + (b - 0x80).

(** The code points whose encoding has [n] continuation bytes, without the surrogates. *)
Definition in_length (n : nat) (v : Z) : bool :=
  ((0 <? n) && (n <? 4))%nat && (nth n limits 0 <? v) && (v <=? MAXUNICODE)
    && negb ((0xD800 <=? v) && (v <? 0xE000)).

(** The first code point of a text, and the rest. *)
Definition decode_one (l : list Z) : option (Z * list Z) :=
  match l with
  | [] => None
  | c :: r =>
      if c <? 0x80 then Some (c, r)
      else
        let n := lead c in
        match conts n r with
        | Some bs =>
            let v := fold_left add_byte bs (c mod 2 ^ (6 - Z.of_nat n)) in
            if in_length n v then Some (v, drop n r) else None
        | None => None
        end
  end.

(** * Bits and arithmetic *)

Lemma lor_add k q b : 0 <= k -> 0 <= b < 2 ^ k -> Z.lor (q * 2 ^ k) b = q * 2 ^ k + b.
Proof.
  intros Hk Hb. rewrite <- Z.lxor_lor, <- Z.add_nocarry_lxor; [done|..].
  all: apply Z.bits_inj'; intros i Hi; rewrite Z.land_spec, Z.bits_0.
  all: destruct (Z.ltb_spec i k); [by rewrite Z.mul_pow2_bits_low|].
  all: rewrite (testbit_in_u_high k b i); [by rewrite andb_false_r|done|done].
Qed.

Lemma cont_land b : in_u 8 b -> (Z.land b 0xC0 =? 0x80) = cont b.
Proof.
  intros Hb. apply eqb_prop. apply (bytes_forall (fun b => eqb (Z.land b 0xC0 =? 0x80) (cont b))); [|done].
  vm_compute. done.
Qed.

Lemma cont_payload b : in_u 8 b -> cont b = true -> Z.land b 0x3F = b - 0x80.
Proof.
  intros Hb Hc. apply Z.eqb_eq.
  pose proof (bytes_forall (fun b => implb (cont b) (Z.land b 0x3F =? b - 0x80)) eq_refl b Hb) as H.
  cbv beta in H. by rewrite Hc in H.
Qed.

(** The tests of the decoder on the first byte. *)
Lemma lead_bits c k : in_u 8 c -> 0x80 <= c -> (k <= lead c)%nat ->
  negb (Z.land (c * 2 ^ Z.of_nat k) 0x40 =? 0) = bool_decide (k < lead c)%nat.
Proof.
  intros Hc Hge Hk. apply eqb_prop.
  assert (Hl : (lead c <= 7)%nat) by (unfold lead; repeat case_match; lia).
  pose proof (bytes_forall (fun c => forallb (fun k => implb ((0x80 <=? c) && (k <=? lead c)%nat)
    (eqb (negb (Z.land (c * 2 ^ Z.of_nat k) 0x40 =? 0)) (bool_decide (k < lead c)%nat))) (seq 0 8))
    eq_refl c Hc) as H. cbv beta in H. rewrite forallb_forall in H.
  specialize (H k). rewrite (proj2 (Z.leb_le _ _)), (proj2 (Nat.leb_le _ _)) in H by lia.
  apply H, in_seq. lia.
Qed.

(** * The encoder *)

Lemma low_byte x : 0 <= x -> u8 (Z.lor 0x80 (Z.land x 0x3F)) = 0x80 + x mod 64.
Proof.
  intros Hx. change 0x3F with (Z.ones 6). rewrite Z.land_ones by lia.
  pose proof (Z.mod_pos_bound x (2 ^ 6) ltac:(lia)) as Hb.
  change 0x80 with (2 * 2 ^ 6). rewrite lor_add by lia. change (2 ^ 6) with 64 in *. apply cast_u_id. unfold in_u. lia.
Qed.

Lemma first_byte k x : (k = 1 \/ k = 2 \/ k = 3) -> 0 <= x <= Z.shiftr 0x3F k ->
  u8 (Z.lor (shl_u 32 (not_u 32 (Z.shiftr 0x3F k)) 1) x) = 0xFF * 2 ^ (7 - k) mod 256 + x.
Proof.
  intros Hk Hx. assert (in_u 8 x) as H8.
  { assert (Z.shiftr 0x3F k <= 31) by (by destruct Hk as [->|[->| ->]]). unfold in_u. lia. }
  apply Z.eqb_eq. destruct Hk as [->|[->| ->]].
  all: lazymatch goal with |- context [Z.shiftr _ ?k] =>
    pose proof (bytes_forall (fun x => implb (x <=? Z.shiftr 0x3F k)
      (u8 (Z.lor (shl_u 32 (not_u 32 (Z.shiftr 0x3F k)) 1) x) =? 0xFF * 2 ^ (7 - k) mod 256 + x))
      eq_refl x H8) as H; cbv beta in H end.
  all: by rewrite (proj2 (Z.leb_le _ _)) in H by lia.
Qed.

(** A trip of the encoder's loop that leaves room for the first byte. *)
Lemma esc_step f x mfb n buff : 0 <= x -> n + 1 <= UTF8BUFFSZ ->
  esc_loop (S f) x mfb n buff =
    let buff := (0x80 + x mod 64) :: buff in
    if Z.shiftr mfb 1 <? x / 64 then esc_loop f (x / 64) (Z.shiftr mfb 1) (n + 1) buff
    else Ret (u8 (Z.lor (shl_u 32 (not_u 32 (Z.shiftr mfb 1)) 1) (x / 64)) :: buff).
Proof.
  intros Hx Hn. cbn [esc_loop]. rewrite !(proj2 (Z.leb_le _ _)) by lia. rewrite low_byte by done.
  rewrite (Z.shiftr_div_pow2 x 6) by lia. reflexivity.
Qed.

Ltac div_lia := Z.to_euclidean_division_equations; lia.

Lemma utf8esc_spec x : 0 <= x <= MAXUNICODE -> luaO_utf8esc x = Ret (encode x).
Proof.
  unfold MAXUNICODE. intros Hx. unfold luaO_utf8esc, encode. destruct (Z.ltb_spec x 0x80).
  { rewrite cast_u_id; [done|]. unfold in_u. lia. }
  pose proof (first_byte 1) as F1. pose proof (first_byte 2) as F2. pose proof (first_byte 3) as F3.
  change (Z.shiftr 0x3F 1) with 31 in *. change (Z.shiftr 0x3F 2) with 15 in *.
  change (Z.shiftr 0x3F 3) with 7 in *.
  rewrite esc_step by (unfold UTF8BUFFSZ; lia). cbv zeta. change (Z.shiftr 63 1) with 31.
  destruct (Z.ltb_spec 31 (x / 64)).
  2: { rewrite (proj2 (Z.ltb_lt x 0x800)) by div_lia. by rewrite F1 by (auto; div_lia). }
  rewrite (proj2 (Z.ltb_ge x 0x800)) by div_lia.
  rewrite esc_step by (unfold UTF8BUFFSZ; div_lia). cbv zeta. change (Z.shiftr 31 1) with 15.
  rewrite Z.div_div by lia. change (64 * 64) with 4096. destruct (Z.ltb_spec 15 (x / 4096)).
  2: { rewrite (proj2 (Z.ltb_lt x 0x10000)) by div_lia. by rewrite F2 by (auto; div_lia). }
  rewrite (proj2 (Z.ltb_ge x 0x10000)) by div_lia.
  rewrite esc_step by (unfold UTF8BUFFSZ; div_lia). cbv zeta. change (Z.shiftr 15 1) with 7.
  rewrite Z.div_div by lia. change (4096 * 64) with 262144.
  rewrite (proj2 (Z.ltb_ge 7 _)) by div_lia. by rewrite F3 by (auto; div_lia).
Qed.

(** * The decoder *)

Definition payload (l : list Z) (res : Z) : Z :=
  fold_left (fun r b => Z.lor (shl_u 32 r 6) (Z.land b 0x3F)) l res.

Lemma cget_drop s o i : 0 <= o -> 0 <= i -> o + i < zlen s ->
  exists b r, drop (Z.to_nat (o + i)) s = b :: r /\ cget s (o + i) = Ret b.
Proof.
  intros Ho Hi Hlt. unfold zlen in Hlt.
  destruct (lookup_lt_is_Some_2 s (Z.to_nat (o + i)) ltac:(lia)) as [b Hb].
  exists b, (drop (S (Z.to_nat (o + i))) s). rewrite (drop_S _ _ _ Hb). split; [done|].
  unfold cget. rewrite (proj2 (Z.leb_le _ _)), (proj2 (Z.leb_le (o + i) _)) by (unfold zlen; lia).
  cbn [andb]. by rewrite (nth_lookup_Some _ _ _ _ Hb).
Qed.

Lemma decode_loop_spec s c o m k res :
  Forall (in_u 8) s -> in_u 8 c -> 0x80 <= c -> 0 <= o -> o + Z.of_nat k < zlen s ->
  (k + m = lead c)%nat ->
  decode_loop (8 - k) s o (c * 2 ^ Z.of_nat k) res (Z.of_nat k) =
    Ret (match conts m (drop (Z.to_nat (o + Z.of_nat k + 1)) s) with
         | Some l => Some (c * 2 ^ Z.of_nat (lead c), payload l res, Z.of_nat (lead c))
         | None => None
         end).
Proof.
  intros Hs Hc Hge Ho. assert (Hl : (lead c <= 7)%nat) by (unfold lead; repeat case_match; lia).
  revert k res. induction m as [|m IH]; intros k res Hk Hm.
  - assert (exists f, 8 - k = S f)%nat as [f ->] by (exists (7 - k)%nat; lia). cbn [decode_loop].
    rewrite lead_bits by (done || lia). rewrite bool_decide_false by lia. cbn [conts].
    by replace k with (lead c) by lia.
  - assert (8 - k = S (8 - S k))%nat as -> by lia. cbn [decode_loop].
    rewrite lead_bits by (done || lia). rewrite bool_decide_true by lia.
    replace (o + Z.of_nat k + 1) with (o + (Z.of_nat k + 1)) by lia.
    destruct (Z.ltb_spec (o + (Z.of_nat k + 1)) (zlen s)) as [Hlt|Hend].
    + destruct (cget_drop s o (Z.of_nat k + 1) Ho ltac:(lia) Hlt) as (b & r & Hd & Hg).
      rewrite Hg, Hd. cbn [outcome_bind conts].
      assert (in_u 8 b) as Hb.
      { eapply Forall_forall; [exact Hs|]. eapply list_elem_of_lookup. exists (Z.to_nat (o + (Z.of_nat k + 1))).
        rewrite <- (Nat.add_0_r (Z.to_nat _)), <- lookup_drop, Hd. done. }
      rewrite cont_land by done. destruct (cont b) eqn:Hcb; cbn [negb]; [|done].
      assert (shl_u 32 (c * 2 ^ Z.of_nat k) 1 = c * 2 ^ Z.of_nat (S k)) as ->.
      { unfold shl_u. rewrite Z.shiftl_mul_pow2 by lia. rewrite <- Z.mul_assoc, <- Z.pow_add_r by lia.
           replace (Z.of_nat k + 1) with (Z.of_nat (S k)) by lia. apply cast_u_id. unfold in_u in *.
           assert (2 ^ Z.of_nat (S k) <= 2 ^ 8) by (apply Z.pow_le_mono_r; lia). nia. }
      replace (Z.of_nat k + 1) with (Z.of_nat (S k)) by lia. rewrite IH by lia.
      assert (drop (Z.to_nat (o + Z.of_nat (S k) + 1)) s = r) as ->.
      { replace (Z.to_nat (o + Z.of_nat (S k) + 1)) with (Z.to_nat (o + (Z.of_nat k + 1)) + 1)%nat by lia.
           rewrite <- drop_drop, Hd. reflexivity. }
      by destruct (conts m r).
    + assert (cget s (o + (Z.of_nat k + 1)) = Ret 0) as ->.
      { replace (o + (Z.of_nat k + 1)) with (zlen s) by lia. unfold cget.
        pose proof (zlen_nonneg s). rewrite (proj2 (Z.leb_le _ _)), Z.leb_refl by lia. cbn [andb].
        by rewrite nth_overflow by (unfold zlen; lia). }
      cbn [outcome_bind]. rewrite drop_ge by (unfold zlen in *; lia). done.
Qed.

Lemma conts_spec n l bs : conts n l = Some bs ->
  bs = take n l /\ length bs = n /\ Forall (fun b => cont b = true) bs.
Proof.
  revert l bs. induction n as [|n IH]; intros [|b l] bs Hc; cbn [conts] in Hc; try (by injection Hc as <-).
  - done.
  - destruct (cont b) eqn:Hb; [|done]. destruct (conts n l) as [r|] eqn:Hr; [|done]. injection Hc as <-.
    destruct (IH l r Hr) as (-> & Hl & Hf). cbn. split_and!; [done|by rewrite Hl|by constructor].
Qed.

Lemma add_bytes_linear l v : fold_left add_byte l v = v * 64 ^ Z.of_nat (length l) + fold_left add_byte l 0.
Proof.
  revert v. induction l as [|b l IH]; intros v; cbn [fold_left length]; [lia|].
  rewrite (IH (add_byte v b)), (IH (add_byte 0 b)). unfold add_byte.
  rewrite Nat2Z.inj_succ, Z.pow_succ_r by lia. ring.
Qed.

Lemma add_bytes_bound l : Forall (fun b => cont b = true) l ->
  0 <= fold_left add_byte l 0 < 64 ^ Z.of_nat (length l).
Proof.
  induction 1 as [|b l Hb Hl IH]; cbn [fold_left length]; [cbn; lia|].
  rewrite add_bytes_linear. rewrite Nat2Z.inj_succ, Z.pow_succ_r by lia.
  unfold cont in Hb. unfold add_byte in *. set (p := 64 ^ Z.of_nat (length l)) in *. nia.
Qed.

Lemma payload_spec l k r : Forall (in_u 8) l -> Forall (fun b => cont b = true) l ->
  0 <= r < 2 ^ (6 * k) -> 0 <= k -> 6 * (k + Z.of_nat (length l)) <= 32 ->
  payload l r = fold_left add_byte l r.
Proof.
  intros Hb Hc. revert k r. unfold payload.
  induction l as [|b l IH]; intros k r Hr Hk Hl; cbn [fold_left length] in *; [done|].
  inversion_clear Hb as [|? ? Hb1 Hb2]. inversion_clear Hc as [|? ? Hc1 Hc2].
  assert (Z.lor (shl_u 32 r 6) (Z.land b 0x3F) = add_byte r b) as ->.
  { rewrite cont_payload by done. unfold shl_u. rewrite Z.shiftl_mul_pow2 by lia.
    assert (r * 2 ^ 6 < 2 ^ 32).
    { apply Z.lt_le_trans with (2 ^ (6 * k) * 2 ^ 6); [lia|]. rewrite <- Z.pow_add_r by lia.
      apply Z.pow_le_mono_r; lia. }
    rewrite cast_u_id by (unfold in_u; lia). unfold cont in Hc1. by rewrite lor_add by lia. }
  apply (IH Hb2 Hc2 (k + 1)); [|lia|lia]. unfold add_byte, cont in *.
  replace (6 * (k + 1)) with (6 * k + 6) by lia. rewrite Z.pow_add_r by lia. change (2 ^ 6) with 64. lia.
Qed.

(** The bits of the first byte. *)
Lemma lead_payload c : in_u 8 c -> 0x80 <= c -> (0 < lead c < 4)%nat ->
  Z.land (c * 2 ^ Z.of_nat (lead c)) 0x7F = c mod 2 ^ (6 - Z.of_nat (lead c)) * 2 ^ Z.of_nat (lead c).
Proof.
  intros Hc Hge Hl. apply Z.eqb_eq.
  pose proof (bytes_forall (fun c => implb ((0x80 <=? c) && (0 <? lead c)%nat && (lead c <? 4)%nat)
    (Z.land (c * 2 ^ Z.of_nat (lead c)) 0x7F =? c mod 2 ^ (6 - Z.of_nat (lead c)) * 2 ^ Z.of_nat (lead c)))
    eq_refl c Hc) as H. cbv beta in H.
  by rewrite (proj2 (Z.leb_le _ _)), !(proj2 (Nat.ltb_lt _ _)) in H by lia.
Qed.

(** The value of a sequence of two to four bytes. *)
Lemma sequence_value c bs : in_u 8 c -> 0x80 <= c -> (0 < lead c < 4)%nat ->
  Forall (in_u 8) bs -> Forall (fun b => cont b = true) bs -> length bs = lead c ->
  Z.lor (payload bs 0) (shl_u 32 (Z.land (c * 2 ^ Z.of_nat (lead c)) 0x7F) (Z.of_nat (lead c) * 5))
  = fold_left add_byte bs (c mod 2 ^ (6 - Z.of_nat (lead c))).
Proof.
  intros Hc Hge Hn Hb Hcont Hl. rewrite lead_payload by done.
  rewrite (payload_spec bs 0) by (done || lia).
  pose proof (add_bytes_bound bs Hcont) as Hbd. rewrite (add_bytes_linear bs (c mod _)), Hl in *.
  set (n := Z.of_nat (lead c)) in *. pose proof (Z.mod_pos_bound c (2 ^ (6 - n)) ltac:(lia)) as Hm.
  unfold shl_u. rewrite Z.shiftl_mul_pow2 by lia. rewrite <- Z.mul_assoc, <- Z.pow_add_r by lia.
  replace (n + n * 5) with (6 * n) by lia. change 64 with (2 ^ 6) in *. rewrite <- Z.pow_mul_r in * by lia.
  assert (c mod 2 ^ (6 - n) * 2 ^ (6 * n) < 2 ^ 32).
  { apply Z.lt_le_trans with (2 ^ (6 - n) * 2 ^ (6 * n)); [nia|]. rewrite <- Z.pow_add_r by lia.
    apply Z.pow_le_mono_r; lia. }
  rewrite cast_u_id by (unfold in_u; nia). rewrite Z.lor_comm. apply lor_add; lia.
Qed.

(** The checks of the decoder behind its loop. *)
Lemma checks_spec n v : (n < 4)%nat -> 0 <= v < 2 ^ 32 -> (n = 0%nat -> v <= 0xFF) ->
  ((3 <? Z.of_nat n) || (MAXUNICODE <? v) || (v <=? nth n limits 0)
     || (sub_u 32 v 0xD800 <? 0x800)) = negb (in_length n v).
Proof.
  intros Hn Hv H0. unfold in_length, MAXUNICODE.
  rewrite (proj2 (Z.ltb_ge 3 _)), (proj2 (Nat.ltb_lt n 4)) by lia.
  assert ((sub_u 32 v 0xD800 <? 0x800) = (0xD800 <=? v) && (v <? 0xE000)) as ->.
  { unfold sub_u, cast_u. destruct (Z.leb_spec 0xD800 v).
    - rewrite Z.mod_small by lia. destruct (Z.ltb_spec (v - 55296) 2048), (Z.ltb_spec v 57344); lia.
    - rewrite <- (Z_mod_plus_full _ 1), Z.mod_small by lia. cbn [andb]. lia. }
  rewrite (Z.leb_antisym (nth n limits 0) v), (Z.ltb_antisym v 0x10FFFF). destruct n as [|n].
  - cbn [nth limits Nat.ltb Nat.leb andb negb orb]. rewrite (proj2 (Z.ltb_ge 255 v)) by auto.
    cbn [negb orb]. by rewrite orb_true_r.
  - change (0 <? S n)%nat with true. cbn [andb orb].
    by destruct (nth (S n) limits 0 <? v), (v <=? 0x10FFFF), ((0xD800 <=? v) && (v <? 0xE000)).
Qed.

Lemma checks_if {A} n v (x y : A) : (n < 4)%nat -> 0 <= v < 2 ^ 32 -> (n = 0%nat -> v <= 0xFF) ->
  (if (3 <? Z.of_nat n) || (MAXUNICODE <? v) || (v <=? nth n limits 0) then x
   else if sub_u 32 v 0xD800 <? 0x800 then x else y) = if in_length n v then y else x.
Proof.
  intros Hn Hv H0. pose proof (checks_spec n v Hn Hv H0) as Hc.
  by destruct (_ || (v <=? _)), (sub_u 32 v 0xD800 <? 0x800), (in_length n v).
Qed.

(** A byte 0xFF with seven continuation bytes behind it. *)
Definition overlong (l : list Z) : bool :=
  match l with c :: r => (c =? 0xFF) && bool_decide (is_Some (conts 7 r)) | [] => false end.

Lemma decode_spec s o : Forall (in_u 8) s -> 0 <= o < zlen s ->
  utf8_decode s o =
    if overlong (drop (Z.to_nat o) s) then Undefined "shift of a 32-bit word"
    else Ret (match decode_one (drop (Z.to_nat o) s) with
              | Some (v, r) => Some (v, zlen s - zlen r)
              | None => None
              end).
Proof.
  intros Hs Ho. destruct (cget_drop s o 0) as (c & r & Hd & Hg); [lia..|]. rewrite Z.add_0_r in Hd, Hg.
  unfold utf8_decode. rewrite Hg, Hd. cbn [outcome_bind overlong decode_one].
  assert (Hr : zlen s = o + 1 + zlen r).
  { apply (f_equal length) in Hd. rewrite length_drop in Hd. cbn in Hd. unfold zlen in *. lia. }
  assert (Hall : in_u 8 c /\ Forall (in_u 8) r).
  { apply (Forall_drop _ (Z.to_nat o)) in Hs. rewrite Hd in Hs. by inversion Hs. }
  destruct Hall as [Hc Hbr]. destruct (Z.ltb_spec c 0x80) as [|Hge].
  { rewrite (proj2 (Z.eqb_neq c _)) by lia. cbn [andb]. do 3 f_equal. lia. }
  pose proof (decode_loop_spec s c o (lead c) 0 0 Hs Hc Hge (proj1 Ho) ltac:(lia) eq_refl) as Hloop.
  change (8 - 0)%nat with 8%nat in Hloop. change (Z.of_nat 0) with 0 in Hloop.
  rewrite Z.mul_1_r, Z.add_0_r in Hloop. rewrite Hloop. clear Hloop. cbn [outcome_bind].
  assert (drop (Z.to_nat (o + 1)) s = r) as ->.
  { replace (Z.to_nat (o + 1)) with (Z.to_nat o + 1)%nat by lia. rewrite <- drop_drop, Hd. reflexivity. }
  assert (Hl7 : (lead c = 7)%nat <-> c = 0xFF).
  { unfold in_u in Hc. unfold lead. repeat case_match; lia. }
  assert (Hle : (lead c <= 7)%nat) by (unfold lead; repeat case_match; lia).
  destruct (conts (lead c) r) as [bs|] eqn:Hbs.
  2: { destruct (Z.eqb_spec c 0xFF) as [E|E]; cbn [andb]; [|done]. apply Hl7 in E.
       rewrite E in Hbs. rewrite Hbs. rewrite bool_decide_false by (by intros [? ?]). done. }
  destruct (Z.eqb_spec c 0xFF) as [E|E].
  { apply Hl7 in E. rewrite E in *. rewrite Hbs. rewrite bool_decide_true by eauto. done. }
  cbn [andb]. assert (lead c <> 7)%nat by (by rewrite Hl7).
  rewrite (proj2 (Z.ltb_lt _ 32)) by lia. cbn [guard_or].
  destruct (conts_spec _ _ _ Hbs) as (Ebs & Hlen & Hcont).
  destruct (decide (3 < lead c)%nat) as [Hbig|Hsmall].
  { rewrite (proj2 (Z.ltb_lt 3 _)) by lia. cbn [orb]. unfold in_length.
    rewrite (proj2 (Nat.ltb_ge _ 4)) by lia. by rewrite andb_false_r. }
  rewrite Nat2Z.id. cbn iota. set (n := lead c) in *.
  assert (Hbb : Forall (in_u 8) bs) by (rewrite Ebs; by apply Forall_take).
  destruct (decide (n = 0%nat)) as [Hz|Hnz].
  - rewrite Hz in *. destruct bs; [|done]. unfold payload. cbn [fold_left].
    pose proof (Z.land_ones c 7 ltac:(lia)) as Hland. change (Z.ones 7) with 0x7F in Hland.
    change (2 ^ Z.of_nat 0) with 1. rewrite Z.mul_1_r, Hland, Z.lor_0_l.
    pose proof (Z.mod_pos_bound c (2 ^ 7) ltac:(lia)) as Hm. unfold shl_u. rewrite Z.shiftl_0_r.
    rewrite cast_u_id by (unfold in_u; lia). rewrite checks_if by lia. done.
  - pose proof (sequence_value c bs Hc Hge ltac:(lia) Hbb Hcont Hlen) as Hv.
    fold n in Hv. rewrite Hv. clear Hv.
    pose proof (add_bytes_bound bs Hcont) as Hbd. rewrite Hlen in Hbd. fold n in Hbd.
    pose proof (Z.mod_pos_bound c (2 ^ (6 - Z.of_nat n)) ltac:(lia)) as Hm.
    rewrite checks_if; [|lia| |lia].
    2: { rewrite add_bytes_linear, Hlen. fold n. assert (2 ^ (6 - Z.of_nat n) <= 2 ^ 5) by (apply Z.pow_le_mono_r; lia).
         assert (64 ^ Z.of_nat n <= 64 ^ 3) by (apply Z.pow_le_mono_r; lia). nia. }
    destruct (in_length _ _); [|done]. cbv beta match. do 3 f_equal. unfold zlen. rewrite length_drop.
    assert (n <= length r)%nat.
    { rewrite Ebs, length_take in Hlen. fold n in Hlen. lia. }
    unfold zlen in Hr. lia.
Qed.

(** ** The decoder inverts the encoding *)

Lemma lead_1 c : lead c = 1%nat <-> 0xC0 <= c < 0xE0.
Proof. unfold lead. repeat case_match; lia. Qed.
Lemma lead_2 c : lead c = 2%nat <-> 0xE0 <= c < 0xF0.
Proof. unfold lead. repeat case_match; lia. Qed.
Lemma lead_3 c : lead c = 3%nat <-> 0xF0 <= c < 0xF8.
Proof. unfold lead. repeat case_match; lia. Qed.

Lemma in_length_spec n v : in_length n v = true <->
  (0 < n < 4)%nat /\ nth n limits 0 < v /\ scalar v.
Proof.
  unfold in_length, scalar, MAXUNICODE.
  rewrite !andb_true_iff, negb_true_iff, andb_false_iff, !Nat.ltb_lt, !Z.ltb_lt, !Z.leb_le, Z.leb_gt, Z.ltb_ge.
  destruct n as [|[|[|[|n]]]]; cbn [nth limits]; lia.
Qed.

Lemma decode_one_sound l v r : decode_one l = Some (v, r) -> Forall (in_u 8) l ->
  scalar v /\ l = encode v ++ r.
Proof.
  destruct l as [|c l]; [done|]. cbn [decode_one]. intros Hd Hb. inversion_clear Hb as [|? ? Hc Hl].
  destruct (Z.ltb_spec c 0x80) as [|Hge].
  { injection Hd as -> ->. unfold in_u in Hc. split; [unfold scalar; lia|].
    unfold encode. by rewrite (proj2 (Z.ltb_lt _ _)). }
  destruct (conts (lead c) l) as [bs|] eqn:Hbs; [|done].
  destruct (in_length _ _) eqn:Hin; [|done]. injection Hd as Hv <-.
  apply in_length_spec in Hin as (Hn & Hlim & Hsc). rewrite Hv in Hlim, Hsc. split; [done|].
  destruct (conts_spec _ _ _ Hbs) as (Ebs & Hlen & Hcont).
  rewrite <- (take_drop (lead c) l) at 1. rewrite <- Ebs. rewrite app_comm_cons. f_equal.
  unfold scalar, MAXUNICODE in Hsc. unfold encode. unfold cont in Hcont.
  destruct (lead c) as [|[|[|[|n]]]] eqn:El; [lia| | | |lia]; cbn [nth limits] in Hlim.
  - destruct bs as [|b1 [|]]; try done. apply lead_1 in El. rewrite !Forall_cons in Hcont.
    cbn [fold_left] in Hv. unfold add_byte in Hv. change (2 ^ (6 - Z.of_nat 1)) with 32 in Hv.
    rewrite (proj2 (Z.ltb_ge v _)), (proj2 (Z.ltb_lt v _)) by div_lia.
    repeat f_equal; div_lia.
  - destruct bs as [|b1 [|b2 [|]]]; try done. apply lead_2 in El. rewrite !Forall_cons in Hcont.
    cbn [fold_left] in Hv. unfold add_byte in Hv. change (2 ^ (6 - Z.of_nat 2)) with 16 in Hv.
    rewrite !(proj2 (Z.ltb_ge v _)), (proj2 (Z.ltb_lt v _)) by div_lia.
    repeat f_equal; div_lia.
  - destruct bs as [|b1 [|b2 [|b3 [|]]]]; try done. apply lead_3 in El. rewrite !Forall_cons in Hcont.
    cbn [fold_left] in Hv. unfold add_byte in Hv. change (2 ^ (6 - Z.of_nat 3)) with 8 in Hv.
    rewrite !(proj2 (Z.ltb_ge v _)) by div_lia.
    repeat f_equal; div_lia.
Qed.

(** A sequence whose bytes are those of a code point. *)
Lemma decode_sequence c bs v r : 0x80 <= c -> length bs = lead c -> (0 < lead c < 4)%nat ->
  Forall (fun b => cont b = true) bs ->
  fold_left add_byte bs (c mod 2 ^ (6 - Z.of_nat (lead c))) = v ->
  nth (lead c) limits 0 < v -> scalar v -> decode_one ((c :: bs) ++ r) = Some (v, r).
Proof.
  intros Hc Hlen Hn Hcont Hv Hlim Hsc. cbn [app decode_one].
  rewrite (proj2 (Z.ltb_ge _ _)) by lia.
  assert (conts (lead c) (bs ++ r) = Some bs) as ->.
  { rewrite <- Hlen. clear -Hcont. induction Hcont as [|b l Hb _ IH]; [done|].
    cbn [length conts app]. by rewrite Hb, IH. }
  rewrite Hv, (proj2 (in_length_spec _ _)) by done. by rewrite <- Hlen, drop_app_length.
Qed.

Lemma decode_one_encode v r : scalar v -> decode_one (encode v ++ r) = Some (v, r).
Proof.
  intros Hv. pose proof Hv as Hsc. unfold scalar, MAXUNICODE in Hv. unfold encode.
  destruct (Z.ltb_spec v 0x80); [cbn [app decode_one]; by rewrite (proj2 (Z.ltb_lt _ _))|].
  destruct (Z.ltb_spec v 0x800); [|destruct (Z.ltb_spec v 0x10000)].
  - assert (lead (0xC0 + v / 64) = 1%nat) as E by (apply lead_1; div_lia).
    apply decode_sequence; rewrite ?E; try done; try div_lia.
    + repeat constructor; unfold cont; div_lia.
    + cbn [fold_left]. unfold add_byte. change (2 ^ (6 - Z.of_nat 1)) with 32. div_lia.
    + cbn [nth limits]. lia.
  - assert (lead (0xE0 + v / 4096) = 2%nat) as E by (apply lead_2; div_lia).
    apply decode_sequence; rewrite ?E; try done; try div_lia.
    + repeat constructor; unfold cont; div_lia.
    + cbn [fold_left]. unfold add_byte. change (2 ^ (6 - Z.of_nat 2)) with 16. div_lia.
    + cbn [nth limits]. lia.
  - assert (lead (0xF0 + v / 262144) = 3%nat) as E by (apply lead_3; div_lia).
    apply decode_sequence; rewrite ?E; try done; try div_lia.
    + repeat constructor; unfold cont; div_lia.
    + cbn [fold_left]. unfold add_byte. change (2 ^ (6 - Z.of_nat 3)) with 8. div_lia.
    + cbn [nth limits]. lia.
Qed.

(** * Texts *)

Lemma encode_shape v : 0 <= v <= MAXUNICODE -> exists c bs, encode v = c :: bs /\ in_u 8 c
  /\ cont c = false /\ c < 0xF8 /\ Forall (fun b => cont b = true) bs /\ Forall (in_u 8) bs.
Proof.
  unfold MAXUNICODE. intros Hv. unfold encode, in_u. change (2 ^ 8) with 256.
  destruct (Z.ltb_spec v 0x80); [|destruct (Z.ltb_spec v 0x800); [|destruct (Z.ltb_spec v 0x10000)]];
    eexists _, _; (split; [done|]); unfold cont; split_and!; repeat constructor; div_lia.
Qed.

Lemma scalar_range v : scalar v -> 0 <= v <= MAXUNICODE.
Proof. unfold scalar, MAXUNICODE. lia. Qed.

Lemma encode_bytes v : 0 <= v <= MAXUNICODE -> Forall (in_u 8) (encode v).
Proof. intros Hv. destruct (encode_shape v Hv) as (c & bs & -> & Hc & _ & _ & _ & Hb). by constructor. Qed.

Lemma encode_all_bytes cs : Forall (fun v => 0 <= v <= MAXUNICODE) cs -> Forall (in_u 8) (encode_all cs).
Proof.
  induction 1 as [|v cs Hv _ IH]; cbn; [done|]. apply Forall_app. split; [by apply encode_bytes|done].
Qed.

Lemma zlen_encode v : 0 <= v <= MAXUNICODE -> 1 <= zlen (encode v).
Proof.
  intros Hv. destruct (encode_shape v Hv) as (c & bs & -> & _). rewrite zlen_cons.
  pose proof (zlen_nonneg bs). lia.
Qed.

Lemma encode_all_app cs cs' : encode_all (cs ++ cs') = encode_all cs ++ encode_all cs'.
Proof. apply flat_map_app. Qed.

Lemma decode_at a v b : Forall (in_u 8) (a ++ encode v ++ b) -> scalar v ->
  utf8_decode (a ++ encode v ++ b) (zlen a) = Ret (Some (v, zlen a + zlen (encode v))).
Proof.
  intros Hs Hv. pose proof (zlen_encode v (scalar_range v Hv)) as Hl.
  pose proof (zlen_nonneg a). pose proof (zlen_nonneg b).
  rewrite decode_spec by (rewrite ?zlen_app; done || lia). unfold zlen at 1 2.
  rewrite Nat2Z.id, drop_app_length, decode_one_encode by done.
  assert (overlong (encode v ++ b) = false) as ->.
  { destruct (encode_shape v (scalar_range v Hv)) as (c & bs & -> & _ & _ & Hc & _). cbn.
    by rewrite (proj2 (Z.eqb_neq c _)) by lia. }
  do 3 f_equal. rewrite !zlen_app. lia.
Qed.

(** Where the decoder stops in a text: a prefix of code points, and behind it the
    end or what is none. *)
Definition undecodable (l : list Z) : Prop := l <> [] /\ decode_one l = None.

Lemma undecodable_spec l : Forall (in_u 8) l -> l <> [] ->
  (undecodable l <-> forall v r, scalar v -> l <> encode v ++ r).
Proof.
  intros Hb Hne. split.
  - intros [_ Hd] v r Hv ->. by rewrite decode_one_encode in Hd.
  - intros Hno. split; [done|]. destruct (decode_one l) as [[v r]|] eqn:Hd; [|done].
    destruct (decode_one_sound l v r Hd Hb) as [Hv Hl]. by destruct (Hno v r Hv).
Qed.

Section Functions.
Context `{Target, NumFormat}.

Lemma utflen_loop_spec fuel s a l n :
  Forall (in_u 8) s -> s = a ++ l -> (length l < fuel)%nat ->
  exists cs bad, Forall scalar cs /\ l = encode_all cs ++ bad /\ (bad = [] \/ undecodable bad) /\
    utflen_loop fuel s (zlen a) (zlen s - 1) n =
      if overlong bad then Undefined "shift of a 32-bit word"
      else Ret (if bool_decide (bad = []) then [lua_pushinteger (n + Z.of_nat (length cs))]
                else [LNil; lua_pushinteger (zlen a + zlen (encode_all cs) + 1)]).
Proof.
  revert a l n. induction fuel as [|f IH]; intros a l n Hb Hs Hf; [lia|]. cbn [utflen_loop].
  destruct l as [|c l'].
  { exists [], []. rewrite app_nil_r in Hs. subst s. split_and!; [done|done|by left|].
    rewrite (proj2 (Z.leb_gt _ _)) by lia. rewrite bool_decide_true by done. cbn. do 3 f_equal. lia. }
  pose proof (zlen_nonneg a). pose proof (zlen_nonneg l').
  assert (Hz : zlen s = zlen a + 1 + zlen l') by (subst s; rewrite zlen_app, zlen_cons; lia).
  rewrite (proj2 (Z.leb_le _ _)) by lia. rewrite decode_spec by (done || lia).
  assert (Hd : drop (Z.to_nat (zlen a)) s = c :: l').
  { subst s. unfold zlen. by rewrite Nat2Z.id, drop_app_length. }
  rewrite Hd. set (l := c :: l') in *.
  assert (Hbl : Forall (in_u 8) l) by (subst s; by apply Forall_app in Hb as [_ ?]).
  destruct (decode_one l) as [[v r]|] eqn:Hv.
  - destruct (decode_one_sound l v r Hv Hbl) as [Hsc Hl]. pose proof (zlen_encode v (scalar_range v Hsc)).
    assert (overlong l = false) as ->.
    { rewrite Hl. destruct (encode_shape v (scalar_range v Hsc)) as (c1 & bs & -> & _ & _ & Hc & _). cbn.
      by rewrite (proj2 (Z.eqb_neq c1 _)) by lia. }
    cbn [outcome_bind]. destruct (IH (a ++ encode v) r (n + 1) Hb) as (cs & bad & Hcs & Hr & Hbad & Hres).
    + by rewrite <- app_assoc, <- Hl.
    + assert (length l = (length (encode v) + length r)%nat) by (rewrite Hl; apply length_app).
      unfold zlen in *. lia.
    + exists (v :: cs), bad. split_and!; [by constructor| |done|].
      { cbn [encode_all flat_map]. fold (encode_all cs). by rewrite <- app_assoc, <- Hr. }
      rewrite zlen_app in Hres. assert (zlen l = zlen (encode v) + zlen r) by (rewrite Hl; apply zlen_app).
      assert (zlen l = zlen l' + 1) by apply zlen_cons.
      replace (zlen s - zlen r) with (zlen a + zlen (encode v)) by lia. rewrite Hres.
      cbn [encode_all flat_map length]. fold (encode_all cs). rewrite zlen_app.
      destruct (overlong bad); [done|]. case_bool_decide; [do 3 f_equal; lia|do 4 f_equal; lia].
  - exists [], l. split_and!; [done|done|by right|]. destruct (overlong l); [done|]. cbn [outcome_bind].
    rewrite bool_decide_false by done. cbn [encode_all flat_map]. do 4 f_equal. rewrite zlen_nil. lia.
Qed.
End Functions.
