(* ===== verification/Utf8Ops.v ===== *)
(** The functions of [Utf8Lib.v] on texts that are well-formed UTF-8: code points,
    their positions, and the iteration over them. *)
From stdpp Require Import base list.
From S2P Require Import Prelude Word Double DoubleExact LuaApi Pattern PatternSpec PatternMatch PatternSafe.
From S2P Require Import TabLib StrLib StrSpec Utf8Lib Utf8Spec.
Open Scope Z_scope.
Open Scope outcome_scope.

Section Functions.
Context `{Target, NumFormat}.

(** * char and codepoint *)

Lemma utfchar_loop_spec args n i :
  (forall k, (k < n)%nat -> exists c, args !! (Z.to_nat (i - 1) + k)%nat = Some (lua_pushinteger c)
    /\ 0 <= c <= MAXUNICODE) -> 1 <= i ->
  exists cs, utfchar_loop args n i = Ret (encode_all cs)
    /\ map lua_pushinteger cs = take n (drop (Z.to_nat (i - 1)) args)
    /\ Forall (fun c => 0 <= c <= MAXUNICODE) cs.
Proof.
  revert i. induction n as [|n IH]; intros i Hargs Hi; cbn [utfchar_loop]; [by exists []|].
  destruct (Hargs 0%nat ltac:(lia)) as (c & Hc & Hb). rewrite Nat.add_0_r in Hc.
  unfold buffutfchar, luaL_checkinteger, lua_tointegerx, lua_tonumberx, index2addr. rewrite Hc.
  unfold lua_pushinteger in *. cbn [luaV_tonumber]. unfold MAXUNICODE in *.
  rewrite luai_num2int_of_Z by (unfold in_s; lia). cbn [outcome_bind].
  rewrite !(proj2 (Z.leb_le _ _)) by lia. cbn [andb luaL_argcheck outcome_bind].
  rewrite utf8esc_spec by (unfold MAXUNICODE; lia). cbn [outcome_bind].
  destruct (IH (i + 1)) as (cs & -> & Hr & Hcs); [|lia|].
  { intros k Hk. replace (Z.to_nat (i + 1 - 1) + k)%nat with (Z.to_nat (i - 1) + S k)%nat by lia.
    apply Hargs. lia. }
  exists (c :: cs). split_and!; [done| |by constructor].
  replace (Z.to_nat (i + 1 - 1)) with (S (Z.to_nat (i - 1))) in Hr by lia.
  cbn [map]. rewrite (drop_S _ _ _ Hc). cbn [take]. by rewrite Hr.
Qed.

Lemma pushinteger_inj a b : Z.abs a < 2 ^ 53 -> Z.abs b < 2 ^ 53 -> lua_pushinteger a = lua_pushinteger b -> a = b.
Proof.
  intros Ha Hb Heq. unfold lua_pushinteger in Heq. injection Heq as Heq.
  apply (f_equal trunc_Z) in Heq. rewrite !trunc_Z_double_of_Z in Heq by done. by injection Heq.
Qed.

Lemma map_pushinteger_inj l l' :
  Forall (fun c => 0 <= c <= MAXUNICODE) l -> Forall (fun c => 0 <= c <= MAXUNICODE) l' ->
  map lua_pushinteger l = map lua_pushinteger l' -> l = l'.
Proof.
  revert l'. induction l as [|x l IH]; intros [|y l'] Hl Hl' Heq; try done.
  inversion_clear Hl as [|? ? Hx Hr]. inversion_clear Hl' as [|? ? Hy Hr'].
  cbn [map] in Heq. injection Heq as Hxy Heq. unfold MAXUNICODE in *.
  f_equal; [|by apply IH]. apply pushinteger_inj; [lia..|]. unfold lua_pushinteger. by f_equal.
Qed.

Lemma utfchar_spec cs : Forall (fun c => 0 <= c <= MAXUNICODE) cs ->
  utfchar (map lua_pushinteger cs) = Ret [LString (encode_all cs)].
Proof.
  intros Hcs. pose proof (utfchar_loop_spec (map lua_pushinteger cs) (length cs) 1) as Hl.
  destruct Hl as (r & Hr & Hm & Hrange); [|lia|].
  { intros k Hk. destruct (lookup_lt_is_Some_2 cs k Hk) as [c Hc]. exists c.
    change (Z.to_nat (1 - 1) + k)%nat with k. rewrite list_lookup_fmap, Hc. split; [done|].
    by eapply (Forall_lookup_1 _ _ _ _ Hcs). }
  change (Z.to_nat (1 - 1)) with 0%nat in Hm. rewrite drop_0, firstn_all2 in Hm by (rewrite length_map; lia).
  apply map_pushinteger_inj in Hm as ->; [|done..].
  unfold utfchar, lua_gettop. rewrite length_map. destruct (Z.eqb_spec (Z.of_nat (length cs)) 1) as [E|E].
  - destruct cs as [|c [|]]; cbn [length] in *; try lia. cbn [utfchar_loop] in Hr.
    destruct (buffutfchar _ 1) as [b| |]; [|done|done]. cbn [outcome_bind] in *.
    rewrite app_nil_r in Hr. by injection Hr as ->.
  - rewrite Hr. done.
Qed.

Lemma codepoint_loop_spec fuel s a cs :
  Forall (in_u 8) s -> s = a ++ encode_all cs -> Forall scalar cs -> (length cs < fuel)%nat ->
  codepoint_loop fuel s (zlen a) (zlen s) = Ret (map lua_pushinteger cs).
Proof.
  intros Hb. revert a cs. induction fuel as [|f IH]; intros a cs Hs Hcs Hf; [lia|]. cbn [codepoint_loop].
  destruct cs as [|c cs].
  { rewrite app_nil_r in Hs. subst s. by rewrite Z.ltb_irrefl. }
  inversion_clear Hcs as [|? ? Hc Hr]. cbn [encode_all flat_map] in Hs. fold (encode_all cs) in Hs.
  pose proof (zlen_encode c (scalar_range c Hc)). pose proof (zlen_nonneg (encode_all cs)).
  assert (zlen s = zlen a + zlen (encode c) + zlen (encode_all cs)) as Hz by (subst s; rewrite !zlen_app; lia).
  rewrite (proj2 (Z.ltb_lt _ _)) by lia.
  assert (utf8_decode s (zlen a) = Ret (Some (c, zlen a + zlen (encode c)))) as ->
    by (subst s; by apply decode_at).
  cbn [outcome_bind]. rewrite <- zlen_app. cbn [length] in Hf.
  rewrite (IH (a ++ encode c) cs); [done|by rewrite <- app_assoc|done|lia].
Qed.

Lemma length_encode_all cs : Forall (fun c => 0 <= c <= MAXUNICODE) cs ->
  (length cs <= length (encode_all cs))%nat.
Proof.
  induction 1 as [|c cs Hc _ IH]; cbn [encode_all flat_map length]; [lia|]. fold (encode_all cs).
  rewrite length_app. pose proof (zlen_encode c Hc). unfold zlen in *. lia.
Qed.

Lemma length_encode_all_le cs : (length (encode_all cs) <= 4 * length cs)%nat.
Proof.
  induction cs as [|c cs IH]; cbn [encode_all flat_map length]; [lia|]. fold (encode_all cs).
  rewrite length_app. unfold encode. repeat case_match; cbn [length]; lia.
Qed.

Lemma codepoint_spec s cs :
  s = encode_all cs -> Forall scalar cs -> zlen s + 3 <= LUAI_MAXCSTACK ->
  codepoint [LString s; LNumber (double_of_Z 1); LNumber (double_of_Z (-1))] = Ret (map lua_pushinteger cs).
Proof.
  intros Hs Hcs Hlen. unfold codepoint. change (luaL_checklstring _ 1) with (Ret s). cbn [outcome_bind].
  change (luaL_optinteger _ 2 1) with (Ret 1). cbn [outcome_bind]. change (u_posrelat 1 _) with 1.
  change (luaL_optinteger _ 3 1) with (Ret (-1)). cbn [outcome_bind]. pose proof (zlen_nonneg s) as Hz.
  assert (Hrange : Forall (fun c => 0 <= c <= MAXUNICODE) cs)
    by (eapply Forall_impl; [exact Hcs|apply scalar_range]).
  assert (u_posrelat (-1) (zlen s) = zlen s) as ->.
  { unfold u_posrelat. change (0 <=? -1) with false. cbn iota. change (u64 (0 - u64 (-1))) with 1.
    destruct (Z.ltb_spec (zlen s) 1); lia. }
  change (1 <=? 1) with true. rewrite (proj2 (Z.leb_le (zlen s) (zlen s))) by lia.
  cbn [luaL_argcheck outcome_bind]. unfold LUAI_MAXCSTACK in Hlen.
  destruct (Z.ltb_spec (zlen s) 1) as [H0'|Hpos].
  { destruct cs as [|c cs]; [done|]. exfalso. inversion_clear Hrange as [|? ? Hc ?].
    pose proof (zlen_encode c Hc). subst s. cbn [encode_all flat_map] in H0'. rewrite zlen_app in H0'.
    pose proof (zlen_nonneg (flat_map encode cs)). lia. }
  rewrite (proj2 (Z.leb_gt _ _)) by (unfold INT_MAX; lia).
  unfold luaL_checkstack, lua_checkstack, LUAI_MAXCSTACK. change (lua_gettop _) with 3.
  rewrite (proj2 (Z.ltb_ge _ (_ - _ + _))), (proj2 (Z.ltb_ge _ (3 + _))) by lia.
  cbn [orb negb outcome_bind].
  apply (codepoint_loop_spec _ s [] cs); [|done|done|].
  - subst s. by apply encode_all_bytes.
  - pose proof (length_encode_all cs Hrange). subst s. lia.
Qed.

(** * Positions *)

(** A list that does not begin inside of a code point. *)
Definition starts (l : list Z) : Prop := match l with [] => True | x :: _ => cont x = false end.

Lemma starts_encode_all cs : Forall (fun c => 0 <= c <= MAXUNICODE) cs -> starts (encode_all cs).
Proof.
  intros [|c cs' Hc _]; [done|]. cbn [encode_all flat_map].
  by destruct (encode_shape c Hc) as (x & bs & -> & _ & Hx & _).
Qed.

Lemma iscont_at a x b : in_u 8 x -> iscont (a ++ x :: b) (zlen a) = Ret (cont x).
Proof.
  intros Hx. unfold iscont, cget. pose proof (zlen_nonneg a). pose proof (zlen_nonneg b).
  rewrite zlen_app, zlen_cons, !(proj2 (Z.leb_le _ _)) by lia. cbn [andb outcome_bind].
  unfold zlen. rewrite Nat2Z.id, nth_lookup, lookup_app_r, Nat.sub_diag by lia. cbn.
  by rewrite cont_land.
Qed.

Lemma iscont_end a : iscont a (zlen a) = Ret false.
Proof.
  unfold iscont, cget. pose proof (zlen_nonneg a). rewrite !(proj2 (Z.leb_le _ _)) by lia.
  cbn [andb outcome_bind]. by rewrite nth_overflow by (unfold zlen; lia).
Qed.

Lemma iscont_starts a b : Forall (in_u 8) b -> starts b -> iscont (a ++ b) (zlen a) = Ret false.
Proof.
  intros Hb Hs. destruct b as [|x b]; [rewrite app_nil_r; apply iscont_end|].
  inversion_clear Hb. rewrite iscont_at by done. by rewrite Hs.
Qed.

Lemma skip_forward_spec fuel a bs b :
  Forall (in_u 8) (bs ++ b) -> Forall (fun x => cont x = true) bs -> starts b -> (length bs < fuel)%nat ->
  skip_forward fuel (a ++ bs ++ b) (zlen a) = Ret (zlen a + zlen bs).
Proof.
  intros Hb Hc Hs. revert a bs Hb Hc. induction fuel as [|f IH]; intros a bs Hb Hc Hf; [lia|].
  cbn [skip_forward]. destruct bs as [|x bs]; cbn [app length] in *.
  - rewrite iscont_starts by done. cbn [outcome_bind]. by rewrite zlen_nil, Z.add_0_r.
  - inversion_clear Hb. inversion_clear Hc as [|? ? Hx Hc']. rewrite iscont_at by done. rewrite Hx.
    cbn [outcome_bind]. pose proof (IH (a ++ [x]) bs) as IH'. rewrite <- app_assoc, zlen_app in IH'.
    cbn [app] in IH'. change (zlen [x]) with 1 in IH'. rewrite IH' by (done || lia).
    f_equal. rewrite zlen_cons. lia.
Qed.

Lemma skip_back_spec fuel a c bs b :
  Forall (in_u 8) (c :: bs) -> cont c = false -> Forall (fun x => cont x = true) bs ->
  (length bs < fuel)%nat ->
  skip_back fuel (a ++ (c :: bs) ++ b) (zlen a + zlen bs) = Ret (zlen a).
Proof.
  intros Hb Hc Hbs. pose proof (zlen_nonneg a) as Ha. revert fuel b Hb Hbs.
  induction bs as [|x bs IH] using rev_ind; intros fuel b Hb Hbs Hf; (destruct fuel as [|f]; [lia|]);
    cbn [skip_back].
  - rewrite zlen_nil, Z.add_0_r. inversion_clear Hb. cbn [app].
    destruct (Z.ltb_spec 0 (zlen a)) as [|]; [|done].
    rewrite iscont_at by done. by rewrite Hc.
  - rewrite app_length in Hf. cbn [length] in Hf. rewrite zlen_app. change (zlen [x]) with 1.
    pose proof (zlen_nonneg bs). rewrite (proj2 (Z.ltb_lt 0 _)) by lia.
    apply Forall_app in Hbs as [Hbs Hx]. inversion_clear Hx as [|? ? Hx' _].
    assert (in_u 8 x /\ Forall (in_u 8) (c :: bs)) as [Hx8 Hb'].
    { inversion_clear Hb as [|? ? Hc8 Hr]. apply Forall_app in Hr as [Hr Hx8]. inversion_clear Hx8.
      split; [done|by constructor]. }
    replace (a ++ (c :: bs ++ [x]) ++ b) with ((a ++ c :: bs) ++ x :: b)
      by (by rewrite <- app_assoc; cbn; rewrite <- app_assoc).
    replace (zlen a + (zlen bs + 1)) with (zlen (a ++ c :: bs)) at 1 by (rewrite zlen_app, zlen_cons; lia).
    rewrite iscont_at by done. rewrite Hx'. cbn [outcome_bind].
    replace (zlen a + (zlen bs + 1) - 1) with (zlen a + zlen bs) by lia.
    rewrite <- app_assoc. apply (IH f (x :: b)); done || lia.
Qed.

(** A step over one code point, forwards and backwards. *)
Lemma step_forward a v b : 0 <= v <= MAXUNICODE -> Forall (in_u 8) b -> starts b ->
  skip_forward (S (length (a ++ encode v ++ b))) (a ++ encode v ++ b) (zlen a + 1)
  = Ret (zlen a + zlen (encode v)).
Proof.
  intros Hv Hb Hs. destruct (encode_shape v Hv) as (c & bs & -> & Hc8 & _ & _ & Hbs & Hbs8).
  change (a ++ (c :: bs) ++ b) with (a ++ [c] ++ bs ++ b). rewrite app_assoc.
  replace (zlen a + 1) with (zlen (a ++ [c])) by (by rewrite zlen_app).
  rewrite skip_forward_spec; [rewrite zlen_app, (zlen_cons c bs); change (zlen [c]) with 1; f_equal; lia|by apply Forall_app|done|done|].
  rewrite !length_app. cbn. lia.
Qed.

Lemma step_back a v b : 0 <= v <= MAXUNICODE ->
  skip_back (S (length (a ++ encode v ++ b))) (a ++ encode v ++ b) (zlen a + zlen (encode v) - 1) = Ret (zlen a).
Proof.
  intros Hv. destruct (encode_shape v Hv) as (c & bs & -> & Hc8 & Hc & _ & Hbs & Hbs8).
  rewrite zlen_cons. replace (zlen a + (zlen bs + 1) - 1) with (zlen a + zlen bs) by lia.
  apply skip_back_spec; [by constructor|done|done|]. rewrite !length_app. cbn. lia.
Qed.

Lemma move_forward_spec fuel s a cs n :
  s = a ++ encode_all cs -> Forall (fun c => 0 <= c <= MAXUNICODE) cs -> (length cs < fuel)%nat ->
  move_forward fuel s (Z.of_nat n) (zlen a)
  = Ret (Z.of_nat (n - length cs), zlen a + zlen (encode_all (take n cs))).
Proof.
  revert a cs n. induction fuel as [|f IH]; intros a cs n Hs Hcs Hf; [lia|]. cbn [move_forward].
  destruct n as [|n].
  { change (encode_all (take 0 cs)) with (@nil Z). by rewrite zlen_nil, Z.add_0_r. }
  rewrite (proj2 (Z.ltb_lt 0 _)) by lia. cbn [andb].
  destruct cs as [|c cs].
  { cbn in Hs. rewrite app_nil_r in Hs. subst s. rewrite Z.ltb_irrefl. change (encode_all (take (S n) [])) with (@nil Z).
    cbn [length]. by rewrite zlen_nil, Z.add_0_r, Nat.sub_0_r. }
  inversion_clear Hcs as [|? ? Hc Hr]. cbn [encode_all flat_map] in Hs. fold (encode_all cs) in Hs.
  pose proof (zlen_encode c Hc). pose proof (zlen_nonneg (encode_all cs)).
  rewrite (proj2 (Z.ltb_lt (zlen a) (zlen s))) by (subst s; rewrite !zlen_app; lia).
  subst s. rewrite step_forward; [|done|by apply encode_all_bytes|by apply starts_encode_all].
  cbn [outcome_bind length Nat.sub].
  change (encode_all (take (S n) (c :: cs))) with (encode c ++ encode_all (take n cs)).
  replace (Z.of_nat (S n) - 1) with (Z.of_nat n) by lia.
  rewrite <- zlen_app, (IH (a ++ encode c) cs n); [|by rewrite <- app_assoc|done|cbn in Hf; lia].
  f_equal. f_equal. rewrite !zlen_app. lia.
Qed.

Lemma move_back_spec fuel s cs b n :
  s = encode_all cs ++ b -> Forall (fun c => 0 <= c <= MAXUNICODE) cs -> (length cs < fuel)%nat ->
  move_back fuel s (- Z.of_nat n) (zlen (encode_all cs))
  = Ret (- Z.of_nat (n - length cs), zlen (encode_all (take (length cs - n) cs))).
Proof.
  revert cs b n. induction fuel as [|f IH]; intros cs b n Hs Hcs Hf; [lia|]. cbn [move_back].
  destruct n as [|n].
  { cbn [Z.of_nat Z.opp Z.ltb Z.compare andb Nat.sub]. by rewrite Nat.sub_0_r, firstn_all. }
  rewrite (proj2 (Z.ltb_lt _ 0)) by lia. cbn [andb].
  destruct cs as [|v cs _] using rev_ind.
  { change (zlen (encode_all [])) with 0. rewrite Z.ltb_irrefl. by rewrite Nat.sub_0_r. }
  apply Forall_app in Hcs as [Hcs Hv]. inversion_clear Hv as [|? ? Hv' _].
  rewrite encode_all_app in Hs |- *. cbn [encode_all flat_map] in Hs |- *. rewrite app_nil_r in *.
  fold (encode_all cs) in *. rewrite <- app_assoc in Hs.
  pose proof (zlen_encode v Hv'). pose proof (zlen_nonneg (encode_all cs)). rewrite zlen_app.
  rewrite (proj2 (Z.ltb_lt 0 _)) by lia. rewrite Hs. rewrite step_back by done. rewrite <- Hs. cbn [outcome_bind].
  replace (- Z.of_nat (S n) + 1) with (- Z.of_nat n) by lia.
  rewrite length_app in *. cbn [length] in *.
  rewrite (IH cs (encode v ++ b) n) by (done || lia). do 2 f_equal; [lia|]. do 2 f_equal.
  replace (length cs + 1 - S n)%nat with (length cs - n)%nat by lia.
  rewrite take_app_le by lia. done.
Qed.

(** Where the [n]-th code point begins, counted from the beginning or from behind
    the end. *)
Definition offset_of (cs : list Z) (n : Z) : option Z :=
  if 0 <? n then
    if n - 1 <=? zlen cs then Some (zlen (encode_all (take (Z.to_nat (n - 1)) cs)) + 1) else None
  else if - n <=? zlen cs then Some (zlen (encode_all (take (Z.to_nat (zlen cs + n)) cs)) + 1)
  else None.

Lemma byteoffset_spec s cs n :
  s = encode_all cs -> Forall (fun c => 0 <= c <= MAXUNICODE) cs -> in_s 32 n -> n <> 0 ->
  byteoffset [LString s; LNumber (double_of_Z n)]
  = Ret [match offset_of cs n with Some p => lua_pushinteger p | None => LNil end].
Proof.
  intros Hs Hcs Hn Hn0. unfold byteoffset. change (luaL_checklstring _ 1) with (Ret s). cbn [outcome_bind].
  change (luaL_checkinteger _ 2) with (Ret (luai_num2int (double_of_Z n))). unfold in_s in Hn.
  rewrite luai_num2int_of_Z by (unfold in_s; lia). cbn [outcome_bind].
  change (luaL_optinteger _ 3 ?d) with (Ret d). cbn [outcome_bind].
  pose proof (zlen_nonneg s) as Hz. pose proof (zlen_nonneg cs) as Hzc.
  pose proof (length_encode_all cs Hcs) as Hlen.
  assert (Hbytes : Forall (in_u 8) s) by (subst s; by apply encode_all_bytes).
  assert (u_posrelat (if 0 <=? n then 1 else zlen s + 1) (zlen s) = if 0 <=? n then 1 else zlen s + 1) as ->.
  { unfold u_posrelat. by rewrite (proj2 (Z.leb_le 0 _)) by (case_match; lia). }
  rewrite (proj2 (Z.eqb_neq n 0)) by done. unfold offset_of. destruct (Z.leb_spec 0 n) as [Hpos|Hneg].
  - change (1 <=? 1) with true. change (1 - 1) with (zlen (@nil Z)).
    rewrite (proj2 (Z.leb_le _ (zlen s))) by (rewrite zlen_nil; lia). cbn [andb luaL_argcheck outcome_bind].
    pose proof (iscont_starts [] s Hbytes) as Hi. cbn [app] in Hi. rewrite Hi.
    2: { subst s. by apply starts_encode_all. }
    cbn [outcome_bind]. rewrite (proj2 (Z.ltb_ge n 0)), (proj2 (Z.ltb_lt 0 n)) by lia.
    replace (n - 1) with (Z.of_nat (Z.to_nat (n - 1))) by lia.
    rewrite (move_forward_spec _ s [] cs (Z.to_nat (n - 1))) by (subst s; done || lia).
    cbn [outcome_bind]. rewrite Nat2Z.id, zlen_nil, Z.add_0_l. change (zlen cs) with (Z.of_nat (length cs)).
    destruct (Z.leb_spec (Z.of_nat (Z.to_nat (n - 1))) (Z.of_nat (length cs))).
    + rewrite (proj2 (Z.eqb_eq _ 0)) by lia. done.
    + by rewrite (proj2 (Z.eqb_neq _ 0)) by lia.
  - rewrite (proj2 (Z.leb_le 1 _)), (proj2 (Z.leb_le _ (zlen s))) by lia.
    cbn [andb luaL_argcheck outcome_bind]. replace (zlen s + 1 - 1) with (zlen s) by lia.
    rewrite iscont_end. cbn [outcome_bind].
    rewrite (proj2 (Z.ltb_lt n 0)), (proj2 (Z.ltb_ge 0 n)) by lia.
    assert (zlen s = zlen (encode_all cs)) as -> by (by subst s).
    replace n with (- Z.of_nat (Z.to_nat (- n))) at 1 by lia.
    rewrite (move_back_spec _ s cs [] (Z.to_nat (- n))); [|by rewrite app_nil_r|done|subst s; lia].
    cbn [outcome_bind]. change (zlen cs) with (Z.of_nat (length cs)).
    destruct (Z.leb_spec (- n) (Z.of_nat (length cs))).
    + rewrite (proj2 (Z.eqb_eq _ 0)) by lia.
      by replace (Z.to_nat (Z.of_nat (length cs) + n)) with (length cs - Z.to_nat (- n))%nat by lia.
    + by rewrite (proj2 (Z.eqb_neq _ 0)) by lia.
Qed.

(** * The iteration *)

(** What the loop [for p, c in utf8.codes(s)] sees: the results of the calls of the
    iterator until one returns nothing. *)
Fixpoint codes_all (fuel : nat) (s : list Z) (k : TValue) : outcome (list (list TValue)) :=
  match fuel with
  | O => Undefined "endless iteration"
  | S f =>
      r <- iter_aux [LString s; k] ;;
      match r with
      | [] => Ret []
      | k :: _ => l <- codes_all f s k ;; Ret (r :: l)
      end
  end.

(** The byte that an iteration looks at after the one at [i - 1]. *)
Definition iter_from (s : list Z) (i : Z) : outcome Z :=
  if i =? 0 then Ret 0
  else if i - 1 <? zlen s then skip_forward (S (length s)) s i
  else Ret (i - 1).

Lemma iter_aux_at s i : 0 <= i <= MAXSSIZE ->
  iter_aux [LString s; lua_pushinteger i] =
    n <- iter_from s i ;;
    if zlen s <=? n then Ret []
    else
      r <- utf8_decode s n ;;
      match r with
      | None => luaL_error "invalid UTF-8 code"
      | Some (code, next) =>
          b <- iscont s next ;;
          if b : bool then luaL_error "invalid UTF-8 code"
          else Ret [lua_pushinteger (n + 1); lua_pushinteger code]
      end.
Proof.
  unfold MAXSSIZE. intros Hi. unfold iter_aux. change (luaL_checklstring _ 1) with (Ret s).
  cbn [outcome_bind]. change (lua_tointeger _ 2) with (luai_num2int (double_of_Z i)).
  rewrite luai_num2int_of_Z by (unfold in_s; lia). unfold sub_s, in_s_b.
  rewrite (proj2 (Z.leb_le _ _)), (proj2 (Z.ltb_lt (i - 1) _)) by lia. cbn [andb outcome_bind].
  unfold iter_from. pose proof (zlen_nonneg s). destruct (Z.eqb_spec i 0) as [->|].
  - done.
  - rewrite (proj2 (Z.ltb_ge (i - 1) 0)) by lia. by replace (i - 1 + 1) with i by lia.
Qed.

Fixpoint pairs_from (o : Z) (cs : list Z) : list (list TValue) :=
  match cs with
  | [] => []
  | c :: cs => [lua_pushinteger (o + 1); lua_pushinteger c] :: pairs_from (o + zlen (encode c)) cs
  end.

Lemma codes_all_spec fuel s a i cs :
  s = a ++ encode_all cs -> Forall (in_u 8) s -> Forall scalar cs -> zlen s < MAXSSIZE ->
  (length cs < fuel)%nat -> 0 <= i <= zlen s -> iter_from s i = Ret (zlen a) ->
  codes_all fuel s (lua_pushinteger i) = Ret (pairs_from (zlen a) cs).
Proof.
  revert a i cs. induction fuel as [|f IH]; intros a i cs Hs Hb Hcs Hmax Hf Hi Hfrom; [lia|].
  cbn [codes_all]. rewrite iter_aux_at by lia. rewrite Hfrom. cbn [outcome_bind].
  destruct cs as [|c cs].
  { cbn in Hs. rewrite app_nil_r in Hs. subst s. by rewrite Z.leb_refl. }
  inversion_clear Hcs as [|? ? Hc Hr]. pose proof (scalar_range c Hc) as Hrange.
  assert (Hrest : Forall (fun c => 0 <= c <= MAXUNICODE) cs)
    by (eapply Forall_impl; [exact Hr|apply scalar_range]).
  change (encode_all (c :: cs)) with (encode c ++ encode_all cs) in Hs.
  pose proof (zlen_encode c Hrange). pose proof (zlen_nonneg a). pose proof (zlen_nonneg (encode_all cs)).
  assert (Hz : zlen s = zlen a + zlen (encode c) + zlen (encode_all cs)) by (subst s; rewrite !zlen_app; lia).
  rewrite (proj2 (Z.leb_gt _ _)) by lia.
  assert (utf8_decode s (zlen a) = Ret (Some (c, zlen a + zlen (encode c)))) as ->
    by (subst s; by apply decode_at).
  cbn [outcome_bind].
  assert (iscont s (zlen a + zlen (encode c)) = Ret false) as ->.
  { rewrite <- zlen_app. subst s. rewrite app_assoc.
    apply iscont_starts; [by apply encode_all_bytes|by apply starts_encode_all]. }
  cbn [outcome_bind pairs_from length] in *.
  rewrite (IH (a ++ encode c) (zlen a + 1) cs); [by rewrite zlen_app| |done|done|done|lia|lia|].
  - by rewrite <- app_assoc.
  - unfold iter_from. rewrite (proj2 (Z.eqb_neq _ 0)) by lia.
    replace (zlen a + 1 - 1) with (zlen a) by lia. rewrite (proj2 (Z.ltb_lt _ _)) by lia.
    subst s. rewrite step_forward by (done || by apply encode_all_bytes || by apply starts_encode_all).
    by rewrite zlen_app.
Qed.

(** On any bytes: the loop ends, or stops with an error. *)
Definition orderly {A} (m : outcome A) (Q : A -> Prop) : Prop :=
  match m with
  | Ret a => Q a
  | Throw e => e = RunError "invalid UTF-8 code"
  | Undefined w => w = "shift of a 32-bit word"
  end.

Lemma skip_forward_orderly fuel s p : Forall (in_u 8) s -> 0 <= p <= zlen s ->
  zlen s - p < Z.of_nat fuel -> exists q, skip_forward fuel s p = Ret q /\ p <= q <= zlen s.
Proof.
  intros Hb. revert p. induction fuel as [|f IH]; intros p Hp Hf; [lia|]. cbn [skip_forward].
  destruct (Z.eqb_spec p (zlen s)) as [->|Hne].
  { rewrite iscont_end. cbn. exists (zlen s). split; [done|lia]. }
  destruct (cget_drop s p 0) as (x & r & Hd & Hg); [lia..|]. rewrite Z.add_0_r in Hg.
  unfold iscont. rewrite Hg. cbn [outcome_bind]. case_match; [|exists p; split; [done|lia]].
  destruct (IH (p + 1)) as (q & -> & Hq); [lia|lia|]. exists q. split; [done|lia].
Qed.

Lemma codes_all_orderly fuel s i : Forall (in_u 8) s -> zlen s < MAXSSIZE -> 0 <= i <= zlen s ->
  zlen s - i < Z.of_nat fuel ->
  orderly (codes_all fuel s (lua_pushinteger i)) (fun l => Z.of_nat (length l) <= zlen s - i).
Proof.
  intros Hb Hmax. revert i. induction fuel as [|f IH]; intros i Hi Hf; [lia|]. cbn [codes_all].
  rewrite iter_aux_at by lia. pose proof (zlen_nonneg s).
  assert (exists n, iter_from s i = Ret n /\ (i <= n \/ n = zlen s /\ i = zlen s)) as (n & -> & Hn).
  { unfold iter_from. destruct (Z.eqb_spec i 0) as [->|]; [exists 0; split; [done|lia]|].
    destruct (Z.ltb_spec (i - 1) (zlen s)); [|lia].
    destruct (skip_forward_orderly (S (length s)) s i) as (q & -> & Hq); [done|lia|unfold zlen in *; lia|].
    exists q. split; [done|lia]. }
  cbn [outcome_bind]. destruct (Z.leb_spec (zlen s) n); [cbn; lia|].
  rewrite decode_spec by (done || lia). destruct (overlong _); [done|]. cbn [outcome_bind].
  destruct (decode_one _) as [[v r]|] eqn:Hv; [|done].
  destruct (cget_drop s n 0) as (x & l & Hd & _); [lia..|]. rewrite Z.add_0_r in Hd. rewrite Hd in Hv.
  assert (Hzl : zlen s = n + 1 + zlen l).
  { apply (f_equal length) in Hd. rewrite length_drop in Hd. cbn in Hd. unfold zlen in *. lia. }
  destruct (decode_one_sound _ _ _ Hv) as [Hsc Hl].
  { rewrite <- Hd. by apply Forall_drop. }
  pose proof (zlen_encode v (scalar_range v Hsc)). pose proof (zlen_nonneg r).
  assert (zlen (x :: l) = zlen (encode v) + zlen r) as Hxl by (rewrite Hl; apply zlen_app).
  rewrite zlen_cons in Hxl.
  assert (exists b, iscont s (zlen s - zlen r) = Ret b) as [b ->].
  { unfold iscont, cget. rewrite !(proj2 (Z.leb_le _ _)) by lia. cbn. eauto. }
  cbn [outcome_bind]. destruct b; [done|]. cbn [outcome_bind].
  specialize (IH (n + 1) ltac:(lia) ltac:(lia)).
  destruct (codes_all f s _) as [l'| |]; [|done|done]. cbn in IH |- *. lia.
Qed.
End Functions.
