(* ===== verification/Utf8Props.v ===== *)
(** The utf8 library: the theorems about the functions of [Utf8Lib.v], with concrete
    inputs for them. *)
From stdpp Require Import base list.
From S2P Require Import Prelude Word Double DoubleExact LuaApi Pattern PatternSpec PatternMatch TabLib.
From S2P Require Import StrLib Sort SortLib Utf8Lib Utf8Spec Utf8Ops.
Open Scope Z_scope.
Open Scope outcome_scope.

(** C23. The decoder accepts exactly the encodings of RFC 3629: it returns a code
    point and the index behind it just when the bytes at the index are the shortest
    encoding of that code point, no surrogate and at most 0x10FFFF, and NULL just when
    they are the encoding of none.  It reads nothing behind the string; its one
    undefined effect is the shift by 35 bits after the byte 0xFF with seven
    continuation bytes. *)
Theorem utf8_decode_spec s o :
  Forall (in_u 8) s -> 0 <= o < zlen s ->
  match utf8_decode s o with
  | Ret (Some (v, o')) => scalar v /\ o' = o + zlen (encode v)
      /\ exists r, drop (Z.to_nat o) s = encode v ++ r
  | Ret None => forall v r, scalar v -> drop (Z.to_nat o) s <> encode v ++ r
  | Throw _ => False
  | Undefined _ => overlong (drop (Z.to_nat o) s) = true
  end.
Proof.
  intros Hs Ho. rewrite decode_spec by done. set (l := drop (Z.to_nat o) s).
  assert (Hb : Forall (in_u 8) l) by by apply Forall_drop.
  assert (Hl : zlen l = zlen s - o) by (subst l; unfold zlen in *; rewrite length_drop; lia).
  destruct (overlong l); [done|]. destruct (decode_one l) as [[v r]|] eqn:Hd.
  - destruct (decode_one_sound l v r Hd Hb) as [Hv Hr]. split; [done|]. split; [|by exists r].
    rewrite Hr, zlen_app in Hl. lia.
  - intros v r Hv Hr. by rewrite Hr, decode_one_encode in Hd.
Qed.

Section Props.
Context `{Target, NumFormat}.

(** [utf8.len(s)] counts the code points of a well-formed text; in any other it
    returns [nil] and the position of the first byte at which no code point
    begins. *)
Theorem utf8_len_spec s :
  Forall (in_u 8) s -> zlen s <= MAXSSIZE ->
  exists cs bad, Forall scalar cs /\ s = encode_all cs ++ bad
    /\ (bad = [] \/ forall v r, scalar v -> bad <> encode v ++ r)
    /\ match utflen [LString s] with
       | Ret r => r = if bool_decide (bad = []) then [lua_pushinteger (zlen cs)]
                      else [LNil; lua_pushinteger (zlen (encode_all cs) + 1)]
       | Throw _ => False
       | Undefined _ => overlong bad = true
       end.
Proof.
  intros Hs Hlen. pose proof (zlen_nonneg s).
  destruct (utflen_loop_spec (S (length s)) s [] s 0 Hs eq_refl ltac:(lia))
    as (cs & bad & Hcs & Hsplit & Hbad & Hres).
  exists cs, bad. split_and!; [done|done| |].
  - destruct Hbad as [|Hbad]; [by left|right]. apply undecodable_spec; [|by apply Hbad|done].
    rewrite Hsplit in Hs. by apply Forall_app in Hs as [_ ?].
  - unfold utflen. change (luaL_checklstring _ 1) with (Ret s). cbn [outcome_bind].
    change (luaL_optinteger _ 2 1) with (Ret 1). cbn [outcome_bind]. change (u_posrelat 1 _) with 1.
    change (luaL_optinteger _ 3 (-1)) with (Ret (-1)). cbn [outcome_bind].
    assert (u_posrelat (-1) (zlen s) = zlen s) as ->.
    { unfold u_posrelat. change (0 <=? -1) with false. cbn iota. change (u64 (0 - u64 (-1))) with 1.
      destruct (Z.ltb_spec (zlen s) 1); lia. }
    change (1 <=? 1) with true. change (1 - 1) with (zlen (@nil Z)) at 1.
    rewrite zlen_nil, (proj2 (Z.leb_le 0 _)), (proj2 (Z.ltb_lt _ (zlen s))) by lia.
    cbn [andb luaL_argcheck outcome_bind]. change (1 - 1) with (zlen (@nil Z)). rewrite Hres.
    destruct (overlong bad); [done|]. by rewrite zlen_nil.
Qed.

(** C24. [utf8.codepoint(utf8.char(c1, ..., cn), 1, -1)] is [c1, ..., cn] for all
    code points that are no surrogates, and [utf8.char] is their UTF-8 text. *)
Theorem utf8_char_codepoint cs :
  Forall scalar cs -> 4 * zlen cs + 3 <= LUAI_MAXCSTACK ->
  utfchar (map lua_pushinteger cs) = Ret [LString (encode_all cs)]
  /\ codepoint [LString (encode_all cs); LNumber (double_of_Z 1); LNumber (double_of_Z (-1))]
     = Ret (map lua_pushinteger cs).
Proof.
  intros Hcs Hlen. split.
  - apply utfchar_spec. eapply Forall_impl; [exact Hcs|apply scalar_range].
  - apply codepoint_spec; [done|done|]. pose proof (length_encode_all_le cs). unfold zlen in *. lia.
Qed.

(** [utf8.offset(s, n)] is the position at which the [n]-th code point of a
    text begins - for a negative [n] counted from behind the end -, the position
    behind the text for the next one, and [nil] further away. *)
Theorem utf8_offset_spec cs n :
  Forall (fun c => 0 <= c <= MAXUNICODE) cs -> in_s 32 n -> n <> 0 ->
  byteoffset [LString (encode_all cs); LNumber (double_of_Z n)]
  = Ret [match offset_of cs n with Some p => lua_pushinteger p | None => LNil end].
Proof. intros. by apply byteoffset_spec. Qed.

(** The loop [for p, c in utf8.codes(s)] ends for every string.  It visits the
    code points of a well-formed text in order, each with the position of its first
    byte; the only error is that of an invalid text. *)
Theorem utf8_codes_visits s :
  Forall (in_u 8) s -> zlen s < MAXSSIZE ->
  match codes_all (S (length s)) s (lua_pushinteger 0) with
  | Ret l => Z.of_nat (length l) <= zlen s
  | Throw e => e = RunError "invalid UTF-8 code"
  | Undefined w => w = "shift of a 32-bit word"
  end
  /\ forall cs, Forall scalar cs -> s = encode_all cs ->
     codes_all (S (length s)) s (lua_pushinteger 0) = Ret (pairs_from 0 cs).
Proof.
  intros Hs Hmax. pose proof (zlen_nonneg s). split.
  - pose proof (codes_all_orderly (S (length s)) s 0 Hs Hmax ltac:(lia) ltac:(unfold zlen; lia)) as Ho.
    unfold orderly in Ho. by rewrite Z.sub_0_r in Ho.
  - intros cs Hcs Hcs'. apply (codes_all_spec _ s [] 0 cs); try (done || lia).
    assert (Forall (fun c => 0 <= c <= MAXUNICODE) cs)
      by (eapply Forall_impl; [exact Hcs|apply scalar_range]).
    pose proof (length_encode_all cs ltac:(done)). subst s. lia.
Qed.
End Props.

(** * Witnesses *)

#[local] Instance sample_format : NumFormat := fun _ => chars "#".

(** The code points of one to four bytes: A, e with acute accent, euro, a face. *)
Definition four : list Z := [65; 233; 8364; 128512].

Lemma four_scalar : Forall scalar four.
Proof. repeat constructor; unfold scalar, MAXUNICODE; lia. Qed.

(** A text, a byte that is no encoding, a text. *)
Definition broken : list Z := encode_all [233; 65] ++ [0xC3; 65].

Lemma check_bytes l : forallb (fun b => (0 <=? b) && (b <? 256)) l = true -> Forall (in_u 8) l.
Proof.
  intros Hl. apply Forall_forall. intros b Hb. rewrite forallb_forall in Hl.
  specialize (Hl b ltac:(by apply list_elem_of_In)). unfold in_u. lia.
Qed.

Lemma utf8_decode_spec_witness :
  utf8_decode broken 0 = Ret (Some (233, 2)) /\ scalar 233 /\
  utf8_decode broken 3 = Ret None /\
  forall v r, scalar v -> [0xC3; 65] <> encode v ++ r.
Proof.
  assert (Hb : Forall (in_u 8) broken) by by apply check_bytes.
  pose proof (utf8_decode_spec broken 0 Hb ltac:(vm_compute; split; [discriminate|reflexivity])) as H0.
  pose proof (utf8_decode_spec broken 3 Hb ltac:(vm_compute; split; [discriminate|reflexivity])) as H3.
  destruct (utf8_decode broken 0) as [[[v o]|]|e|w] eqn:E0; try (vm_compute in E0; discriminate).
  destruct (utf8_decode broken 3) as [[[v' o']|]|e|w] eqn:E3; try (vm_compute in E3; discriminate).
  assert (Some (Some (v, o)) = Some (Some (233, 2))) as Hv.
  { change (Some (Some (v, o))) with (match Ret (Some (v, o)) with Ret r => Some r | _ => None end).
    rewrite <- E0. reflexivity. }
  injection Hv as -> ->. split; [reflexivity|]. split; [apply H0|]. split; [reflexivity|].
  intros v r Hsc. exact (H3 v r Hsc).
Defined.

Lemma utf8_len_spec_witness : exists cs bad,
  Forall scalar cs /\ broken = encode_all cs ++ bad
    /\ utflen [LString broken] = Ret [LNil; number 4].
Proof.
  destruct (utf8_len_spec broken ltac:(by apply check_bytes)
    ltac:(vm_compute; discriminate)) as (cs & bad & Hcs & Hs & _ & _).
  exists cs, bad. split; [exact Hcs|]. split; [exact Hs|]. vm_compute. reflexivity.
Defined.

Lemma utf8_char_codepoint_witness :
  utfchar (map lua_pushinteger four) = Ret [LString (encode_all four)]
  /\ codepoint [LString (encode_all four); number 1; number (-1)] = Ret (map lua_pushinteger four).
Proof. exact (utf8_char_codepoint four four_scalar ltac:(vm_compute; discriminate)). Defined.

Lemma utf8_offset_spec_witness :
  byteoffset [LString (encode_all four); number 4] = Ret [number 7]
  /\ byteoffset [LString (encode_all four); number (-2)] = Ret [number 4].
Proof.
  assert (Hf : Forall (fun c => 0 <= c <= MAXUNICODE) four) by (unfold MAXUNICODE; repeat constructor; lia).
  pose proof (utf8_offset_spec four 4 Hf ltac:(unfold in_s; lia) ltac:(lia)) as H4.
  pose proof (utf8_offset_spec four (-2) Hf ltac:(unfold in_s; lia) ltac:(lia)) as H2.
  split; [exact H4|exact H2].
Defined.

Lemma utf8_codes_visits_witness :
  codes_all 11 (encode_all four) (number 0)
  = Ret [[number 1; number 65]; [number 2; number 233]; [number 4; number 8364]; [number 7; number 128512]].
Proof.
  destruct (utf8_codes_visits (encode_all four) ltac:(by apply check_bytes) eq_refl)
    as [_ Hv].
  exact (Hv four four_scalar eq_refl).
Defined.

(** * Examples *)

(** The byte 0xFF with seven continuation bytes: a shift of 32 bits by 35. *)
Example decode_shifts_too_far :
  utflen [LString (0xFF :: replicate 7 0x80)] = Undefined "shift of a 32-bit word".
Proof. vm_compute. reflexivity. Qed.

(** A call of the iterator with the least [int] as its control value. *)
Example codes_overflows :
  iter_aux [LString [65]; number (- 2 ^ 31)] = Undefined "signed overflow in -".
Proof. vm_compute. reflexivity. Qed.

(** [utf8.char] encodes a surrogate, which the other functions refuse. *)
Example char_encodes_surrogates :
  utfchar [number 0xD800] = Ret [LString [0xED; 0xA0; 0x80]]
  /\ utflen [LString [0xED; 0xA0; 0x80]] = Ret [LNil; number 1].
Proof. split; vm_compute; reflexivity. Qed.
