(* ===== verification/MathLib.v ===== *)
(** The math library, [VM/src/lmathlib.cpp].

    A function takes the list of its arguments and yields the list of its
    results; those that draw random numbers also take and yield the state of the
    generator, [global_State::rngstate].  The functions of the C library come from
    [CMath.v].  The feature flag [FixMathNoisePrecision] is the parameter
    [fix_noise].  At the end [math.min], [math.max] and [math.clamp] against the
    order of numbers. *)
From S2P Require Import Prelude Word Double NumParse LuaApi Arith CMath.
Open Scope Z_scope.
Open Scope outcome_scope.

Definition LUAU_PI : double := literal "3.14159265358979323846".
Definition RADIANS_PER_DEGREE : double := d_div LUAU_PI (literal "180.0").
Definition LUAU_NAN : double := S754_nan.
Definition LUAU_E : double := literal "2.71828182845904523536".
Definition LUAU_PHI : double := literal "1.61803398874989484820".
Definition LUAU_SQRT2 : double := literal "1.41421356237309504880".
Definition LUAU_TAU : double := literal "6.28318530717958647692".
Definition HUGE_VAL : double := S754_infinity false.

Definition d_zero : double := S754_zero false.
Definition d_one : double := double_of_Z 1.

(** * The generator *)

Definition PCG32_INC : Z := 105.
Definition PCG32_MULT : Z := 6364136223846793005.

(** The output and the next state. *)
Definition pcg32_random (state : Z) : Z * Z :=
  let oldstate := state in
  let state := add_u 64 (mul_u 64 oldstate PCG32_MULT) (Z.lor PCG32_INC 1) in
  let xorshifted := u32 (shr_u (Z.lxor (shr_u oldstate 18) oldstate) 27) in
  let rot := u32 (shr_u oldstate 59) in
  (Z.lor (shr_u xorshifted rot) (shl_u 32 xorshifted (Z.land (- s32 rot) 31)), state).

Definition pcg32_seed (seed : Z) : Z :=
  let state := 0 in
  let state := snd (pcg32_random state) in
  let state := add_u 64 state seed in
  snd (pcg32_random state).

(** * Functions of numbers *)

Section MathLib.
Context `{Target, LibM, CPow}.

Definition math1 (f : double -> double) (args : list TValue) : outcome (list TValue) :=
  x <- luaL_checknumber args 1 ;; Ret [lua_pushnumber (f x)].

Definition math2 (f : double -> double -> double) (args : list TValue) : outcome (list TValue) :=
  x <- luaL_checknumber args 1 ;;
  y <- luaL_checknumber args 2 ;;
  Ret [lua_pushnumber (f x y)].

Definition math_abs := math1 d_fabs.
Definition math_sin := math1 c_sin.
Definition math_sinh := math1 c_sinh.
Definition math_cos := math1 c_cos.
Definition math_cosh := math1 c_cosh.
Definition math_tan := math1 c_tan.
Definition math_tanh := math1 c_tanh.
Definition math_asin := math1 c_asin.
Definition math_acos := math1 c_acos.
Definition math_atan := math1 c_atan.
Definition math_atan2 := math2 c_atan2.
Definition math_ceil := math1 d_ceil.
Definition math_floor := math1 d_floor.
Definition math_fmod := math2 d_fmod.

Definition math_modf (args : list TValue) : outcome (list TValue) :=
  x <- luaL_checknumber args 1 ;;
  let '(fp, ip) := d_modf x in
  Ret [lua_pushnumber ip; lua_pushnumber fp].

Definition math_sqrt := math1 d_sqrt.
Definition math_pow := math2 c_pow.

Definition math_log (args : list TValue) : outcome (list TValue) :=
  x <- luaL_checknumber args 1 ;;
  res <- (if lua_isnoneornil args 2 then Ret (c_log x)
          else
            base <- luaL_checknumber args 2 ;;
            Ret (if d_eq base (literal "2.0") then c_log2 x
                 else if d_eq base (literal "10.0") then c_log10 x
                 else d_div (c_log x) (c_log base))) ;;
  Ret [lua_pushnumber res].

Definition math_log10 := math1 c_log10.
Definition math_exp := math1 c_exp.
Definition math_deg := math1 (fun x => d_div x RADIANS_PER_DEGREE).
Definition math_rad := math1 (fun x => d_mul x RADIANS_PER_DEGREE).

Definition math_frexp (args : list TValue) : outcome (list TValue) :=
  x <- luaL_checknumber args 1 ;;
  let '(f, e) := d_frexp x in
  Ret [lua_pushnumber f; lua_pushinteger e].

Definition math_ldexp (args : list TValue) : outcome (list TValue) :=
  x <- luaL_checknumber args 1 ;;
  n <- luaL_checkinteger args 2 ;;
  Ret [lua_pushnumber (d_ldexp x n)].

Definition math_min (args : list TValue) : outcome (list TValue) :=
  dmin <- luaL_checknumber args 1 ;;
  dmin <- fold_args args (luaL_checknumber args)
            (fun dmin d => if d_lt d dmin then d else dmin) dmin 2 ;;
  Ret [lua_pushnumber dmin].

Definition math_max (args : list TValue) : outcome (list TValue) :=
  dmax <- luaL_checknumber args 1 ;;
  dmax <- fold_args args (luaL_checknumber args)
            (fun dmax d => if d_lt dmax d then d else dmax) dmax 2 ;;
  Ret [lua_pushnumber dmax].

Definition math_clamp (args : list TValue) : outcome (list TValue) :=
  v <- luaL_checknumber args 1 ;;
  min <- luaL_checknumber args 2 ;;
  max <- luaL_checknumber args 3 ;;
  luaL_argcheck (d_le min max) 3 "max must be greater than or equal to min" ;;;
  let r := if d_lt v min then min else v in
  let r := if d_lt max r then max else r in
  Ret [lua_pushnumber r].

(** [v > 0.0 ? 1.0 : v < 0.0 ? -1.0 : 0.0] *)
Definition d_sign (v : double) : double :=
  if d_lt d_zero v then d_one else if d_lt v d_zero then d_neg d_one else d_zero.

Definition math_sign := math1 d_sign.
Definition math_round := math1 d_round.

Definition math_map (args : list TValue) : outcome (list TValue) :=
  x <- luaL_checknumber args 1 ;;
  inmin <- luaL_checknumber args 2 ;;
  inmax <- luaL_checknumber args 3 ;;
  outmin <- luaL_checknumber args 4 ;;
  outmax <- luaL_checknumber args 5 ;;
  Ret [lua_pushnumber
         (d_add outmin (d_div (d_mul (d_sub x inmin) (d_sub outmax outmin))
                              (d_sub inmax inmin)))].

(** [(t == 1.0) ? b : a + (b - a) * t] *)
Definition d_lerp (a b t : double) : double :=
  if d_eq t d_one then b else d_add a (d_mul (d_sub b a) t).

Definition math_lerp (args : list TValue) : outcome (list TValue) :=
  a <- luaL_checknumber args 1 ;;
  b <- luaL_checknumber args 2 ;;
  t <- luaL_checknumber args 3 ;;
  Ret [lua_pushnumber (d_lerp a b t)].

Definition math_test (f : double -> bool) (args : list TValue) : outcome (list TValue) :=
  x <- luaL_checknumber args 1 ;; Ret [lua_pushboolean (f x)].

Definition math_isnan := math_test d_isnan.
Definition math_isinf := math_test d_isinf.
Definition math_isfinite := math_test d_isfinite.

(** * Random numbers *)

Definition UINT_MAX : Z := 2 ^ 32 - 1.

Definition math_random (rngstate : Z) (args : list TValue) : outcome (list TValue * Z) :=
  match lua_gettop args with
  | 0 =>
      let '(rl, rngstate) := pcg32_random rngstate in
      let '(rh, rngstate) := pcg32_random rngstate in
      let rd := d_ldexp (double_of_Z (Z.lor rl (shl_u 64 rh 32))) (-64) in
      Ret ([lua_pushnumber rd], rngstate)
  | 1 =>
      u <- luaL_checkinteger args 1 ;;
      luaL_argcheck (1 <=? u) 1 "interval is empty" ;;;
      let '(n, rngstate) := pcg32_random rngstate in
      let x := mul_u 64 (u64 u) n in
      let r := s32 (add_u 64 1 (shr_u x 32)) in
      Ret ([lua_pushinteger r], rngstate)
  | 2 =>
      l <- luaL_checkinteger args 1 ;;
      u <- luaL_checkinteger args 2 ;;
      luaL_argcheck (l <=? u) 2 "interval is empty" ;;;
      let ul := sub_u 32 (u32 u) (u32 l) in
      luaL_argcheck (ul <? UINT_MAX) 2 "interval is too large" ;;;
      let '(n, rngstate) := pcg32_random rngstate in
      let x := mul_u 64 (add_u 32 ul 1) n in
      let r := s32 (add_u 64 (u64 l) (shr_u x 32)) in
      Ret ([lua_pushinteger r], rngstate)
  | _ => luaL_error "wrong number of arguments"
  end.

Definition math_randomseed (args : list TValue) : outcome (list TValue * Z) :=
  seed <- luaL_checkinteger args 1 ;;
  Ret ([], pcg32_seed (u64 seed)).

(** [luaopen_math]: the seed, and the constants it registers. *)
Definition open_seed (pointer time clock : Z) : Z :=
  pcg32_seed (Z.lxor (Z.lxor pointer (u64 time)) (u64 clock)).

Definition math_constants : list (string * double) :=
  [("pi", LUAU_PI); ("huge", HUGE_VAL); ("nan", LUAU_NAN); ("e", LUAU_E);
   ("phi", LUAU_PHI); ("sqrt2", LUAU_SQRT2); ("tau", LUAU_TAU)]%string.
End MathLib.

(** * Reading numbers *)

Section Reads.
Variables (v1 v2 : TValue) (r : list TValue).

Lemma checknumber_1 n : luaL_checknumber (LNumber n :: r) 1 = Ret n.
Proof. done. Qed.
Lemma checknumber_2 n : luaL_checknumber (v1 :: LNumber n :: r) 2 = Ret n.
Proof. done. Qed.
Lemma checknumber_3 n : luaL_checknumber (v1 :: v2 :: LNumber n :: r) 3 = Ret n.
Proof. done. Qed.
Lemma checkinteger_1 `{Target} n : luaL_checkinteger (LNumber n :: r) 1 = Ret (luai_num2int n).
Proof. done. Qed.
End Reads.

#[export] Hint Rewrite checknumber_1 checknumber_2 checknumber_3 @checkinteger_1 : args.

(** * The order of numbers

    A number that is not a NaN is ranked by its sign, then by its exponent and its
    mantissa; comparison is the lexicographic order of the ranks. *)
Definition rank (d : double) : Z * Z * Z :=
  match d with
  | S754_infinity true => (-2, 0, 0)
  | S754_finite true m e => (-1, - e, - Zpos m)
  | S754_zero _ | S754_nan => (0, 0, 0)
  | S754_finite false m e => (1, e, Zpos m)
  | S754_infinity false => (2, 0, 0)
  end.

Definition rank_le (a b : Z * Z * Z) : Prop :=
  let '(a1, a2, a3) := a in let '(b1, b2, b3) := b in
  a1 < b1 \/ a1 = b1 /\ (a2 < b2 \/ a2 = b2 /\ a3 <= b3).

Lemma rank_le_trans a b c : rank_le a b -> rank_le b c -> rank_le a c.
Proof. destruct a as [[]], b as [[]], c as [[]]. unfold rank_le. lia. Qed.

Lemma rank_le_total a b : rank_le a b \/ rank_le b a.
Proof. destruct a as [[]], b as [[]]. unfold rank_le. lia. Qed.

Section Order.
Variables a b : double.
Hypothesis Ha : d_isnan a = false.
Hypothesis Hb : d_isnan b = false.

Lemma d_le_rank : d_le a b = true <-> rank_le (rank a) (rank b).
Proof.
  unfold d_le, SFleb. destruct a as [s|[]| |[] m e], b as [s'|[]| |[] m' e']; try done; cbn.
  all: try (split; intros; try done; lia).
  all: destruct (Z.compare_spec e e'); [|split; intros; try done; lia..].
  all: fold (Pos.compare m m'); destruct (Pos.compare_spec m m'); cbn; split; intros; try done; lia.
Qed.

Lemma d_lt_rank : d_lt a b = false <-> rank_le (rank b) (rank a).
Proof.
  unfold d_lt, SFltb. destruct a as [s|[]| |[] m e], b as [s'|[]| |[] m' e']; try done; cbn.
  all: try (split; intros; try done; lia).
  all: destruct (Z.compare_spec e e'); [|split; intros; try done; lia..].
  all: fold (Pos.compare m m'); destruct (Pos.compare_spec m m'); cbn; split; intros; try done; lia.
Qed.
End Order.

Lemma d_lt_nan_r a b : d_isnan b = true -> d_lt a b = false.
Proof. destruct b; try done. by destruct a as [|[]| |[]]. Qed.

Lemma d_lt_nan_l a b : d_isnan a = true -> d_lt a b = false.
Proof. destruct a; try done. Qed.

(** * The least and the greatest argument *)

(** [r] is among the numbers and below the others that are numbers at all. *)
Definition extremum (le : double -> double -> bool) (r : double) (ds : list double) : Prop :=
  r ∈ ds /\ d_isnan r = false /\ forall d, d ∈ ds -> d_isnan d = false -> le r d = true.

Lemma min_step acc d ds :
  extremum d_le acc ds -> extremum d_le (if d_lt d acc then d else acc) (d :: ds).
Proof.
  intros (Hin & Hn & Hle). destruct (d_isnan d) eqn:Hd.
  { rewrite d_lt_nan_l by done. split_and!; [by right|done|].
    intros x [->|Hx]%elem_of_cons Hnx; [congruence|by apply Hle]. }
  destruct (d_lt d acc) eqn:E.
  - assert (Hda : rank_le (rank d) (rank acc)).
    { destruct (rank_le_total (rank d) (rank acc)) as [|Hr]; [done|].
      apply d_lt_rank in Hr; congruence. }
    split_and!; [by left|done|]. intros x [->|Hx]%elem_of_cons Hnx; apply d_le_rank; try done.
    + by destruct (rank_le_total (rank d) (rank d)).
    + eapply rank_le_trans; [done|]. apply d_le_rank; try done. by apply Hle.
  - apply d_lt_rank in E; try done. split_and!; [by right|done|].
    intros x [->|Hx]%elem_of_cons Hnx; [by apply d_le_rank|by apply Hle].
Qed.

Lemma max_step acc d ds :
  extremum (fun a b => d_le b a) acc ds ->
  extremum (fun a b => d_le b a) (if d_lt acc d then d else acc) (d :: ds).
Proof.
  intros (Hin & Hn & Hle). destruct (d_isnan d) eqn:Hd.
  { rewrite d_lt_nan_r by done. split_and!; [by right|done|].
    intros x [->|Hx]%elem_of_cons Hnx; [congruence|by apply Hle]. }
  destruct (d_lt acc d) eqn:E.
  - assert (Hda : rank_le (rank acc) (rank d)).
    { destruct (rank_le_total (rank acc) (rank d)) as [|Hr]; [done|].
      apply d_lt_rank in Hr; congruence. }
    split_and!; [by left|done|]. intros x [->|Hx]%elem_of_cons Hnx; apply d_le_rank; try done.
    + by destruct (rank_le_total (rank d) (rank d)).
    + eapply rank_le_trans; [|done]. apply d_le_rank; try done. by apply Hle.
  - apply d_lt_rank in E; try done. split_and!; [by right|done|].
    intros x [->|Hx]%elem_of_cons Hnx; [by apply d_le_rank|by apply Hle].
Qed.

Lemma fold_extremum le step ds acc seen :
  (forall acc d ds, extremum le acc ds -> extremum le (step acc d) (d :: ds)) ->
  extremum le acc seen -> extremum le (fold_left step ds acc) (rev ds ++ seen).
Proof.
  intros Hs. revert acc seen. induction ds as [|d ds IH]; intros acc seen Ha; [done|].
  cbn [fold_left rev]. rewrite <- app_assoc. apply IH. by apply Hs.
Qed.

Lemma extremum_rev le r ds d : extremum le r (rev ds ++ [d]) -> extremum le r (d :: ds).
Proof.
  assert (Hp : forall x, x ∈ rev ds ++ [d] <-> x ∈ d :: ds).
  { intros x. rewrite elem_of_app, list_elem_of_singleton, elem_of_cons.
    rewrite (list_elem_of_In (rev ds) x), <- in_rev, <- list_elem_of_In. tauto. }
  intros (Hin & Hn & Hle). split_and!; [by apply Hp|done|]. intros x Hx. by apply Hle, Hp.
Qed.

(** The loop over the arguments from the second one on. *)
Lemma fold_numbers step d ds acc :
  fold_args (map LNumber (d :: ds)) (luaL_checknumber (map LNumber (d :: ds))) step acc 2
  = Ret (fold_left step ds acc).
Proof.
  unfold fold_args. apply loop_args_fold.
  - unfold lua_gettop. cbn [map length]. rewrite length_map. lia.
  - intros k x Hk. unfold luaL_checknumber, lua_tonumberx, index2addr.
    replace (Z.to_nat (2 + Z.of_nat k - 1)) with (S k) by lia. cbn [map].
    change ((LNumber d :: map LNumber ds) !! S k) with ((LNumber <$> ds) !! k).
    by rewrite list_lookup_fmap, Hk.
Qed.

Lemma fold_nan (step : double -> double -> double) d ds :
  (forall x, step d x = d) -> fold_left step ds d = d.
Proof. intros Hs. induction ds as [|x ds IH]; [done|]. cbn [fold_left]. by rewrite Hs. Qed.

(** [math.min] and [math.max] of numbers: when the first one is a NaN it is the
    result; otherwise the other NaNs are skipped, and the result is the least or the
    greatest of the rest. *)
Theorem math_min_max d ds :
  let args := map LNumber (d :: ds) in
  exists lo hi, math_min args = Ret [LNumber lo] /\ math_max args = Ret [LNumber hi] /\
    if d_isnan d then lo = d /\ hi = d
    else extremum d_le lo (d :: ds) /\ extremum (fun a b => d_le b a) hi (d :: ds).
Proof.
  intros args. unfold math_min, math_max.
  assert (Hd : luaL_checknumber args 1 = Ret d) by done. rewrite Hd. cbn [outcome_bind].
  subst args. rewrite !fold_numbers. cbn [outcome_bind]. eexists _, _. split_and!; [done..|].
  destruct (d_isnan d) eqn:Hn.
  - split; apply fold_nan; intros x.
    + by rewrite d_lt_nan_r.
    + by rewrite d_lt_nan_l.
  - assert (H0 : forall le, (forall x, d_isnan x = false -> le x x = true) -> extremum le d [d]).
    { intros le Hr. split_and!; [by left|done|].
      intros x Hx Hnx. apply list_elem_of_singleton in Hx as ->. by apply Hr. }
    assert (Hr : forall x, d_isnan x = false -> d_le x x = true).
    { intros x Hx. apply d_le_rank; try done. by destruct (rank_le_total (rank x) (rank x)). }
    split; apply extremum_rev; apply (fold_extremum _ (fun acc d => _)); try by apply H0.
    + intros acc x xs Ha. by apply min_step.
    + intros acc x xs Ha. by apply max_step.
Qed.

(** [math.clamp] keeps a number between its bounds, changes it only when it lies
    outside, keeps a NaN, and refuses bounds in the wrong order or NaN bounds. *)
Theorem math_clamp_spec v lo hi :
  let args := [LNumber v; LNumber lo; LNumber hi] in
  if d_le lo hi then
    exists r, math_clamp args = Ret [LNumber r] /\
      (if d_isnan v then r = v
       else d_le lo r = true /\ d_le r hi = true /\
            (d_le lo v = true -> d_le v hi = true -> r = v))
  else math_clamp args = Throw (ArgError 3 "max must be greater than or equal to min").
Proof.
  intros args. unfold math_clamp. subst args. read_args.
  destruct (d_le lo hi) eqn:Hle; [|done]. cbn [luaL_argcheck outcome_bind]. eexists. split; [done|].
  assert (Hlo : d_isnan lo = false) by (by destruct lo).
  assert (Hhi : d_isnan hi = false) by (by destruct hi as [|[]| |[]], lo as [|[]| |[]]).
  destruct (d_isnan v) eqn:Hv.
  - rewrite (d_lt_nan_l v) by done. by rewrite d_lt_nan_r.
  - destruct (d_lt v lo) eqn:E1.
    + assert (E : d_lt hi lo = false) by (apply d_lt_rank; try done; by apply d_le_rank in Hle).
      rewrite E. split_and!; [|done|].
      * apply d_le_rank; try done. by destruct (rank_le_total (rank lo) (rank lo)).
      * intros Hc. apply d_le_rank, d_lt_rank in Hc; try done. congruence.
    + apply d_lt_rank in E1; try done. apply (d_le_rank lo v Hlo Hv) in E1 as E1'.
      destruct (d_lt hi v) eqn:E2.
      * split_and!; [done| |].
        -- apply d_le_rank; try done. by destruct (rank_le_total (rank hi) (rank hi)).
        -- intros _ Hc. apply d_le_rank, d_lt_rank in Hc; try done. congruence.
      * apply d_lt_rank in E2; try done. split_and!; [done|by apply d_le_rank|done].
Qed.
