(* ===== verification/FoldBuiltin.v ===== *)
(** Folding of builtin calls, [Compiler/src/BuiltinFolding.cpp]: the constant that a
    call of a library function with constant arguments is replaced by.

    [CUnknown] is [cvar()], "not folded".  Arithmetic of [int] that can overflow is
    checked, so that the folder itself can be [Undefined].  A string constant holds its
    bytes; the interning of a new one in the name table is not modelled. *)
From S2P Require Import Prelude Word Double NumParse LuaApi Builtins Tm Arith CMath MathLib Fold.
Open Scope Z_scope.
Open Scope outcome_scope.

(** The builtin ids (Common/include/Luau/Bytecode.h). *)
Inductive LuauBuiltinFunction :=
  | LBF_NONE | LBF_ASSERT | LBF_MATH_ABS | LBF_MATH_ACOS | LBF_MATH_ASIN | LBF_MATH_ATAN2 |
  LBF_MATH_ATAN | LBF_MATH_CEIL | LBF_MATH_COSH | LBF_MATH_COS | LBF_MATH_DEG | LBF_MATH_EXP |
  LBF_MATH_FLOOR | LBF_MATH_FMOD | LBF_MATH_FREXP | LBF_MATH_LDEXP | LBF_MATH_LOG10 |
  LBF_MATH_LOG | LBF_MATH_MAX | LBF_MATH_MIN | LBF_MATH_MODF | LBF_MATH_POW | LBF_MATH_RAD |
  LBF_MATH_SINH | LBF_MATH_SIN | LBF_MATH_SQRT | LBF_MATH_TANH | LBF_MATH_TAN |
  LBF_BIT32_ARSHIFT | LBF_BIT32_BAND | LBF_BIT32_BNOT | LBF_BIT32_BOR | LBF_BIT32_BXOR |
  LBF_BIT32_BTEST | LBF_BIT32_EXTRACT | LBF_BIT32_LROTATE | LBF_BIT32_LSHIFT |
  LBF_BIT32_REPLACE | LBF_BIT32_RROTATE | LBF_BIT32_RSHIFT | LBF_TYPE | LBF_STRING_BYTE |
  LBF_STRING_CHAR | LBF_STRING_LEN | LBF_TYPEOF | LBF_STRING_SUB | LBF_MATH_CLAMP |
  LBF_MATH_SIGN | LBF_MATH_ROUND | LBF_RAWSET | LBF_RAWGET | LBF_RAWEQUAL | LBF_TABLE_INSERT |
  LBF_TABLE_UNPACK | LBF_VECTOR | LBF_BIT32_COUNTLZ | LBF_BIT32_COUNTRZ | LBF_SELECT_VARARG |
  LBF_RAWLEN | LBF_BIT32_EXTRACTK | LBF_GETMETATABLE | LBF_SETMETATABLE | LBF_TONUMBER |
  LBF_TOSTRING | LBF_BIT32_BYTESWAP | LBF_BUFFER_READI8 | LBF_BUFFER_READU8 |
  LBF_BUFFER_WRITEU8 | LBF_BUFFER_READI16 | LBF_BUFFER_READU16 | LBF_BUFFER_WRITEU16 |
  LBF_BUFFER_READI32 | LBF_BUFFER_READU32 | LBF_BUFFER_WRITEU32 | LBF_BUFFER_READF32 |
  LBF_BUFFER_WRITEF32 | LBF_BUFFER_READF64 | LBF_BUFFER_WRITEF64 | LBF_VECTOR_MAGNITUDE |
  LBF_VECTOR_NORMALIZE | LBF_VECTOR_CROSS | LBF_VECTOR_DOT | LBF_VECTOR_FLOOR |
  LBF_VECTOR_CEIL | LBF_VECTOR_ABS | LBF_VECTOR_SIGN | LBF_VECTOR_CLAMP | LBF_VECTOR_MIN |
  LBF_VECTOR_MAX | LBF_MATH_LERP | LBF_VECTOR_LERP | LBF_MATH_ISNAN | LBF_MATH_ISINF |
  LBF_MATH_ISFINITE | LBF_INTEGER_CREATE | LBF_INTEGER_TONUMBER | LBF_INTEGER_NEG |
  LBF_INTEGER_ADD | LBF_INTEGER_SUB | LBF_INTEGER_MUL | LBF_INTEGER_DIV | LBF_INTEGER_MIN |
  LBF_INTEGER_MAX | LBF_INTEGER_REM | LBF_INTEGER_IDIV | LBF_INTEGER_UDIV | LBF_INTEGER_UREM |
  LBF_INTEGER_MOD | LBF_INTEGER_CLAMP | LBF_INTEGER_BAND | LBF_INTEGER_BOR | LBF_INTEGER_BNOT
  | LBF_INTEGER_BXOR | LBF_INTEGER_LT | LBF_INTEGER_LE | LBF_INTEGER_ULT | LBF_INTEGER_ULE |
  LBF_INTEGER_GT | LBF_INTEGER_GE | LBF_INTEGER_UGT | LBF_INTEGER_UGE | LBF_INTEGER_LSHIFT |
  LBF_INTEGER_RSHIFT | LBF_INTEGER_ARSHIFT | LBF_INTEGER_LROTATE | LBF_INTEGER_RROTATE |
  LBF_INTEGER_EXTRACT | LBF_INTEGER_BTEST | LBF_INTEGER_COUNTRZ | LBF_INTEGER_COUNTLZ |
  LBF_INTEGER_BSWAP | LBF_BUFFER_READINTEGER | LBF_BUFFER_WRITEINTEGER | LBF_TABLE_FREEZE |
  LBF_TABLE_ISFROZEN | LBF_TABLE_CLONE | LBF_TABLE_CLEAR | LBF_TABLE_FIND | LBF_TABLE_CREATE.

#[export] Instance LuauBuiltinFunction_eq_dec : EqDecision LuauBuiltinFunction.
Proof. solve_decision. Defined.

Definition kPi : double := literal "3.14159265358979323846".
Definition kRadDeg : double := d_div kPi (literal "180.0").
Definition kNan : double := S754_nan.
Definition kE : double := literal "2.71828182845904523536".
Definition kPhi : double := literal "1.61803398874989484820".
Definition kSqrt2 : double := literal "1.41421356237309504880".
Definition kTau : double := literal "6.28318530717958647692".

Definition kStringCharFoldLimit : Z := 128.

Definition cvar : Constant := CUnknown.
Definition cbool (v : bool) : Constant := CBoolean v.
Definition cnum (v : double) : Constant := CNumber v.
Definition cvectorf (x y z w : float32) : Constant := CVectorf x y z w.
Definition cvectord (x y z w : double) : Constant := CVectord x y z w.
Definition cstring (v : list Z) : Constant := CString v.

Definition ctype (c : Constant) : Constant :=
  match c with
  | CNil => cstring (chars "nil")
  | CBoolean _ => cstring (chars "boolean")
  | CNumber _ => cstring (chars "number")
  | CInteger _ => cstring (chars "integer")
  | CVectorf _ _ _ _ | CVectord _ _ _ _ => cstring (chars "vector")
  | CString _ => cstring (chars "string")
  | CUnknown | CTable _ => cvar
  end.

Definition ctypeof (c : Constant) : Constant :=
  match c with
  | CNil => cstring (chars "nil")
  | CBoolean _ => cstring (chars "boolean")
  | CNumber _ => cstring (chars "number")
  | CInteger _ => cstring (chars "integer")
  | CVectorf _ _ _ _ | CVectord _ _ _ _ => cvar
  | CString _ => cstring (chars "string")
  | CUnknown | CTable _ => cvar
  end.

(** [unsigned(stringLength)] *)
Definition stringLength (s : list Z) : Z := u32 (Z.of_nat (length s)).

Section FoldBuiltin.
Context `{Target, LibM, CPow}.
Variable vectorDoublePrecision : bool.

(** [uint32_t(int64_t(v))] *)
Definition bit32 (v : double) : Z := u32 (luai_num2long v).

Definition fold1 (args : list Constant) (f : double -> Constant) : Constant :=
  match args with [CNumber x] => f x | _ => cvar end.

Definition fold2 (args : list Constant) (f : double -> double -> outcome Constant) : outcome Constant :=
  match args with [CNumber x; CNumber y] => f x y | _ => Ret cvar end.

(** The loop over the arguments after the first: [None] when one is not a number. *)
Fixpoint fold_rest {A} (get : double -> A) (op : A -> A -> A) (r : A) (rest : list Constant) : option A :=
  match rest with
  | [] => Some r
  | CNumber a :: rest => fold_rest get op (op r (get a)) rest
  | _ :: _ => None
  end.

Definition fold_many {A} (get : double -> A) (op : A -> A -> A) (finish : A -> Constant)
    (args : list Constant) : Constant :=
  match args with
  | CNumber a :: rest =>
      match fold_rest get op (get a) rest with Some r => finish r | None => cvar end
  | _ => cvar
  end.

(** A shift folds when its amount is below the width. *)
Definition fold_shift (args : list Constant) (f : Z -> Z -> Z) : outcome Constant :=
  fold2 args (fun x y =>
    let u := bit32 x in
    let s := luai_num2int y in
    Ret (if u32 s <? 32 then cnum (double_of_Z (f u s)) else cvar)).

Definition fold_rotate (args : list Constant) (f : Z -> Z -> Z -> Z) : outcome Constant :=
  fold2 args (fun x y =>
    let u := bit32 x in
    let s := luai_num2int y in
    t <- sub_s 32 32 s ;;
    Ret (cnum (double_of_Z (f u (Z.land s 31) (Z.land t 31))))).

(** [if (f >= 0 && w > 0 && f + w <= 32)] with the mask of the field *)
Definition fold_field (f w : Z) (k : Z -> Constant) : outcome Constant :=
  match field_ok f w with
  | Some true => Ret (k (not_u 32 (shl_u 32 0xfffffffe (w - 1))))
  | Some false => Ret cvar
  | None => Undefined "signed overflow in +"
  end.

Definition fold_extract (args : list Constant) : outcome Constant :=
  match args with
  | CNumber a0 :: CNumber a1 :: rest =>
      let u := bit32 a0 in
      let f := luai_num2int a1 in
      let field w := fold_field f w (fun m => cnum (double_of_Z (Z.land (shr_u u f) m))) in
      match rest with
      | [] => field 1
      | CNumber a2 :: _ => field (luai_num2int a2)
      | _ => Ret cvar
      end
  | _ => Ret cvar
  end.

Definition fold_replace (args : list Constant) : outcome Constant :=
  match args with
  | CNumber a0 :: CNumber a1 :: CNumber a2 :: rest =>
      let n := bit32 a0 in
      let v := bit32 a1 in
      let f := luai_num2int a2 in
      let field w := fold_field f w (fun m =>
        cnum (double_of_Z (Z.lor (Z.land n (not_u 32 (shl_u 32 m f))) (shl_u 32 (Z.land v m) f)))) in
      match rest with
      | [] => field 1
      | CNumber a3 :: _ => field (luai_num2int a3)
      | _ => Ret cvar
      end
  | _ => Ret cvar
  end.

Definition fold_log (args : list Constant) : Constant :=
  match args with
  | [CNumber x] => cnum (c_log x)
  | [CNumber x; CNumber b] =>
      cnum (if d_eq b (literal "2.0") then c_log2 x
            else if d_eq b (literal "10.0") then c_log10 x
            else d_div (c_log x) (c_log b))
  | _ => cvar
  end.

Definition fold_byte (args : list Constant) : Constant :=
  match args with
  | [CString s] =>
      match s with [] => cvar | c :: _ => cnum (double_of_Z (u8 c)) end
  | [CString s; CNumber n] =>
      let i := luai_num2int n in
      if (0 <? i) && (u32 i <=? stringLength s)
      then cnum (double_of_Z (u8 (default 0 (s !! Z.to_nat (i - 1))))) else cvar
  | _ => cvar
  end.

(** The loop of [string.char]: [None] for an argument that is no byte. *)
Fixpoint fold_chars (args : list Constant) : option (list Z) :=
  match args with
  | [] => Some []
  | CNumber n :: args =>
      let c := luai_num2int n in
      if u8 c =? c then match fold_chars args with Some buf => Some (c :: buf) | None => None end
      else None
  | _ => None
  end.

Definition fold_char (args : list Constant) : Constant :=
  if Z.of_nat (length args) <? kStringCharFoldLimit
  then match fold_chars args with Some buf => cstring buf | None => cvar end
  else cvar.

(** The bytes [str[start - 1 .. end - 1]]. *)
Definition piece (s : list Z) (start end_ : Z) : list Z :=
  take (Z.to_nat (end_ - start + 1)) (drop (Z.to_nat (start - 1)) s).

(** [if (p < 0) p += int(len) + 1] *)
Definition from_end (p len : Z) : outcome Z :=
  if p <? 0 then l1 <- add_s 32 (s32 len) 1 ;; add_s 32 p l1 else Ret p.

Definition fold_sub (args : list Constant) : outcome Constant :=
  match args with
  | CString s :: CNumber a1 :: rest =>
      let len := stringLength s in
      let body end_ :=
        start <- from_end (luai_num2int a1) len ;;
        end_ <- from_end end_ len ;;
        Ret (if end_ <? 1 then cstring []
             else
               let start := if start <? 1 then 1 else start in
               let end_ := if s32 len <? end_ then s32 len else end_ in
               if start <=? end_ then cstring (piece s start end_) else cstring []) in
      match rest with
      | [] => body (s32 len)
      | CNumber a2 :: _ => body (luai_num2int a2)
      | _ => Ret cvar
      end
  | _ => Ret cvar
  end.

Definition fold_clamp (args : list Constant) : Constant :=
  match args with
  | [CNumber v; CNumber min; CNumber max] =>
      if d_le min max then
        let v := if d_lt v min then min else v in
        let v := if d_lt max v then max else v in
        cnum v
      else cvar
  | _ => cvar
  end.

Definition fold_vector (args : list Constant) : Constant :=
  match args with
  | CNumber x :: CNumber y :: rest =>
      if vectorDoublePrecision then
        match rest with
        | [] => cvectord x y (S754_zero false) (S754_zero false)
        | [CNumber z] => cvectord x y z (S754_zero false)
        | [CNumber z; CNumber w] => cvectord x y z w
        | _ => cvar
        end
      else
        let fl := float_of_double in
        match rest with
        | [] => cvectorf (fl x) (fl y) (S754_zero false) (S754_zero false)
        | [CNumber z] => cvectorf (fl x) (fl y) (fl z) (S754_zero false)
        | [CNumber z; CNumber w] => cvectorf (fl x) (fl y) (fl z) (fl w)
        | _ => cvar
        end
  | _ => cvar
  end.

Definition fold_lerp (args : list Constant) : Constant :=
  match args with
  | [CNumber a; CNumber b; CNumber t] =>
      cnum (if d_eq t d_one then b else d_add a (d_mul (d_sub b a) t))
  | _ => cvar
  end.

Definition fold_type (args : list Constant) (f : Constant -> Constant) : Constant :=
  match args with [c] => if is_unknown c then cvar else f c | _ => cvar end.

Definition foldBuiltin (bfid : LuauBuiltinFunction) (args : list Constant) : outcome Constant :=
  let num1 f := Ret (fold1 args (fun x => cnum (f x))) in
  let num2 f := fold2 args (fun x y => Ret (cnum (f x y))) in
  let bits op finish := Ret (fold_many bit32 op finish args) in
  let number r := cnum (double_of_Z r) in
  match bfid with
  | LBF_MATH_ABS => num1 d_fabs
  | LBF_MATH_ACOS => num1 c_acos
  | LBF_MATH_ASIN => num1 c_asin
  | LBF_MATH_ATAN2 => num2 c_atan2
  | LBF_MATH_ATAN => num1 c_atan
  | LBF_MATH_CEIL => num1 d_ceil
  | LBF_MATH_COSH => num1 c_cosh
  | LBF_MATH_COS => num1 c_cos
  | LBF_MATH_DEG => num1 (fun x => d_div x kRadDeg)
  | LBF_MATH_EXP => num1 c_exp
  | LBF_MATH_FLOOR => num1 d_floor
  | LBF_MATH_FMOD => num2 d_fmod
  | LBF_MATH_LDEXP => num2 (fun x y => d_ldexp x (luai_num2int y))
  | LBF_MATH_LOG10 => num1 c_log10
  | LBF_MATH_LOG => Ret (fold_log args)
  | LBF_MATH_MAX => Ret (fold_many id (fun r a => if d_lt r a then a else r) cnum args)
  | LBF_MATH_MIN => Ret (fold_many id (fun r a => if d_lt a r then a else r) cnum args)
  | LBF_MATH_POW => num2 c_pow
  | LBF_MATH_RAD => num1 (fun x => d_mul x kRadDeg)
  | LBF_MATH_SINH => num1 c_sinh
  | LBF_MATH_SIN => num1 c_sin
  | LBF_MATH_SQRT => num1 d_sqrt
  | LBF_MATH_TANH => num1 c_tanh
  | LBF_MATH_TAN => num1 c_tan
  | LBF_BIT32_ARSHIFT => fold_shift args (fun u s => u32 (Z.shiftr (s32 u) s))
  | LBF_BIT32_BAND => bits Z.land number
  | LBF_BIT32_BNOT => Ret (fold1 args (fun x => number (not_u 32 (bit32 x))))
  | LBF_BIT32_BOR => bits Z.lor number
  | LBF_BIT32_BXOR => bits Z.lxor number
  | LBF_BIT32_BTEST => bits Z.land (fun r => cbool (negb (r =? 0)))
  | LBF_BIT32_EXTRACT => fold_extract args
  | LBF_BIT32_LROTATE => fold_rotate args (fun u l r => Z.lor (shl_u 32 u l) (shr_u u r))
  | LBF_BIT32_LSHIFT => fold_shift args (shl_u 32)
  | LBF_BIT32_REPLACE => fold_replace args
  | LBF_BIT32_RROTATE => fold_rotate args (fun u l r => Z.lor (shr_u u l) (shl_u 32 u r))
  | LBF_BIT32_RSHIFT => fold_shift args shr_u
  | LBF_TYPE => Ret (fold_type args ctype)
  | LBF_STRING_BYTE => Ret (fold_byte args)
  | LBF_STRING_CHAR => Ret (fold_char args)
  | LBF_STRING_LEN =>
      Ret (match args with [CString s] => cnum (double_of_Z (stringLength s)) | _ => cvar end)
  | LBF_TYPEOF => Ret (fold_type args ctypeof)
  | LBF_STRING_SUB => fold_sub args
  | LBF_MATH_CLAMP => Ret (fold_clamp args)
  | LBF_MATH_SIGN => num1 d_sign
  | LBF_MATH_ROUND => num1 d_round
  | LBF_VECTOR => Ret (fold_vector args)
  | LBF_MATH_LERP => Ret (fold_lerp args)
  | LBF_MATH_ISNAN => Ret (fold1 args (fun x => cbool (d_isnan x)))
  | LBF_MATH_ISINF => Ret (fold1 args (fun x => cbool (d_isinf x)))
  | LBF_MATH_ISFINITE => Ret (fold1 args (fun x => cbool (d_isfinite x)))
  | _ => Ret cvar
  end.

Definition foldBuiltinMath (index : string) : Constant :=
  if String.eqb index "pi" then cnum kPi
  else if String.eqb index "huge" then cnum (S754_infinity false)
  else if String.eqb index "nan" then cnum kNan
  else if String.eqb index "e" then cnum kE
  else if String.eqb index "phi" then cnum kPhi
  else if String.eqb index "sqrt2" then cnum kSqrt2
  else if String.eqb index "tau" then cnum kTau
  else cvar.

(** The call case of [ConstantVisitor::analyze]: a call whose arguments are all known
    constants, and not tables. *)
Definition fold_call (bfid : LuauBuiltinFunction) (args : list Constant) : outcome Constant :=
  if bool_decide (bfid = LBF_NONE) then Ret cvar
  else if forallb (fun ac => match ac with CUnknown | CTable _ => false | _ => true end) args
  then foldBuiltin bfid args else Ret cvar.

(** The constant operand of the [LBF_BIT32_EXTRACTK] call that [compileExprCall]
    emits for [bit32.extract] with a constant field; [None] when it does not. *)
Definition compile_extractk (fc wc : Constant) : outcome (option Z) :=
  let fi := match fc with CNumber n => luai_num2int n | _ => -1 end in
  let wi := match wc with CNumber n => luai_num2int n | _ => -1 end in
  match field_ok fi wi with
  | Some true => Ret (Some (Z.lor fi (Z.shiftl (wi - 1) 5)))
  | Some false => Ret None
  | None => Undefined "signed overflow in +"
  end.
End FoldBuiltin.
