(* ===== verification/MathNoise.v ===== *)
(** [math.noise], [VM/src/lmathlib.cpp]: gradient noise in single precision.

    The reads of the two tables are checked: an index outside of a table is
    undefined behaviour.  The theorems: the tables are read inside their bounds, and
    the noise vanishes on the integer lattice. *)
From S2P Require Import Prelude Word Double NumParse LuaApi Arith CMath MathLib.
Open Scope Z_scope.
Open Scope outcome_scope.

Definition kPerlinHash : list Z :=
  [151; 160; 137; 91; 90; 15; 131; 13; 201; 95; 96; 53; 194; 233; 7; 225; 140; 36; 103; 30; 69;
   142; 8; 99; 37; 240; 21; 10; 23; 190; 6; 148; 247; 120; 234; 75; 0; 26; 197; 62; 94; 252; 219;
   203; 117; 35; 11; 32; 57; 177; 33; 88; 237; 149; 56; 87; 174; 20; 125; 136; 171; 168; 68; 175;
   74; 165; 71; 134; 139; 48; 27; 166; 77; 146; 158; 231; 83; 111; 229; 122; 60; 211; 133; 230;
   220; 105; 92; 41; 55; 46; 245; 40; 244; 102; 143; 54; 65; 25; 63; 161; 1; 216; 80; 73; 209; 76;
   132; 187; 208; 89; 18; 169; 200; 196; 135; 130; 116; 188; 159; 86; 164; 100; 109; 198; 173;
   186; 3; 64; 52; 217; 226; 250; 124; 123; 5; 202; 38; 147; 118; 126; 255; 82; 85; 212; 207; 206;
   59; 227; 47; 16; 58; 17; 182; 189; 28; 42; 223; 183; 170; 213; 119; 248; 152; 2; 44; 154; 163;
   70; 221; 153; 101; 155; 167; 43; 172; 9; 129; 22; 39; 253; 19; 98; 108; 110; 79; 113; 224; 232;
   178; 185; 112; 104; 218; 246; 97; 228; 251; 34; 242; 193; 238; 210; 144; 12; 191; 179; 162;
   241; 81; 51; 145; 235; 249; 14; 239; 107; 49; 192; 214; 31; 181; 199; 106; 157; 184; 84; 204;
   176; 115; 121; 50; 45; 127; 4; 150; 254; 138; 236; 205; 93; 222; 114; 67; 29; 24; 72; 243; 141;
   128; 195; 78; 66; 215; 61; 156; 180; 151].

(** A [float] that is a small integer. *)
Definition f_int (z : Z) : float32 := float_of_double (double_of_Z z).

Definition kPerlinGrad : list (float32 * float32 * float32) :=
  map (fun '(x, y, z) => (f_int x, f_int y, f_int z))
    [(1, 1, 0); (-1, 1, 0); (1, -1, 0); (-1, -1, 0);
     (1, 0, 1); (-1, 0, 1); (1, 0, -1); (-1, 0, -1);
     (0, 1, 1); (0, -1, 1); (0, 1, -1); (0, -1, -1);
     (1, 1, 0); (0, -1, 1); (-1, 1, 0); (0, -1, -1)].

(** [table[i]] *)
Definition aget {A} (table : list A) (i : Z) : outcome A :=
  if 0 <=? i then
    match table !! Z.to_nat i with
    | Some x => Ret x
    | None => Undefined "read past the end of an array"
    end
  else Undefined "read before the start of an array".

Definition perlin_fade (t : float32) : float32 :=
  f_mul (f_mul (f_mul t t) t)
    (f_add (f_mul t (f_sub (f_mul t (f_int 6)) (f_int 15))) (f_int 10)).

Definition perlin_lerp (t a b : float32) : float32 := f_add a (f_mul t (f_sub b a)).

Definition perlin_grad (hash : Z) (x y z : float32) : outcome float32 :=
  g <- aget kPerlinGrad (Z.land hash 15) ;;
  let '(g0, g1, g2) := g in
  Ret (f_add (f_add (f_mul g0 x) (f_mul g1 y)) (f_mul g2 z)).

Section Noise.
Context `{Target}.
Variable fix_noise : bool.

(** [int(f) & 255] *)
Definition cell (f : float32) : Z := Z.land (luai_num2int (double_of_float f)) 255.

(** The part of [perlin] after the floors: cells, then positions in the cell. *)
Definition perlin_at (xi yi zi : Z) (xf yf zf : float32) : outcome float32 :=
  let one := f_int 1 in
  let u := perlin_fade xf in
  let v := perlin_fade yf in
  let w := perlin_fade zf in
  let p := aget kPerlinHash in
  h <- p xi ;; let a := Z.land (h + yi) 255 in
  h <- p a ;; let aa := Z.land (h + zi) 255 in
  h <- p (a + 1) ;; let ab := Z.land (h + zi) 255 in
  h <- p (xi + 1) ;; let b := Z.land (h + yi) 255 in
  h <- p b ;; let ba := Z.land (h + zi) 255 in
  h <- p (b + 1) ;; let bb := Z.land (h + zi) 255 in
  let corner i x y z := (h <- p i ;; perlin_grad h x y z) in
  a0 <- corner aa xf yf zf ;;
  b0 <- corner ba (f_sub xf one) yf zf ;;
  let la := perlin_lerp u a0 b0 in
  a0 <- corner ab xf (f_sub yf one) zf ;;
  b0 <- corner bb (f_sub xf one) (f_sub yf one) zf ;;
  let lb := perlin_lerp u a0 b0 in
  a0 <- corner (aa + 1) xf yf (f_sub zf one) ;;
  b0 <- corner (ba + 1) (f_sub xf one) yf (f_sub zf one) ;;
  let la1 := perlin_lerp u a0 b0 in
  a0 <- corner (ab + 1) xf (f_sub yf one) (f_sub zf one) ;;
  b0 <- corner (bb + 1) (f_sub xf one) (f_sub yf one) (f_sub zf one) ;;
  let lb1 := perlin_lerp u a0 b0 in
  Ret (perlin_lerp w (perlin_lerp v la lb) (perlin_lerp v la1 lb1)).

Definition perlin (x y z : float32) : outcome float32 :=
  let xflr := f_floor x in
  let yflr := f_floor y in
  let zflr := f_floor z in
  perlin_at (cell xflr) (cell yflr) (cell zflr)
    (f_sub x xflr) (f_sub y yflr) (f_sub z zflr).

(** [luaL_argexpected] *)
Definition luaL_argexpected (c : bool) (arg : Z) (tname : string) : outcome unit :=
  if c then Ret tt else tag_error arg tname.

Definition is_number (r : option double) : bool :=
  match r with Some _ => true | None => false end.

Definition math_noise (args : list TValue) : outcome (list TValue) :=
  let nx := lua_tonumberx args 1 in
  let ny := lua_tonumberx args 2 in
  let nz := lua_tonumberx args 3 in
  luaL_argexpected (is_number nx) 1 "number" ;;;
  luaL_argexpected (is_number ny || lua_isnoneornil args 2) 2 "number" ;;;
  luaL_argexpected (is_number nz || lua_isnoneornil args 3) 3 "number" ;;;
  let wrap d := if fix_noise then d_fmod d (double_of_Z 256) else d in
  let x := wrap (default d_zero nx) in
  let y := wrap (default d_zero ny) in
  let z := wrap (default d_zero nz) in
  r <- perlin (float_of_double x) (float_of_double y) (float_of_double z) ;;
  Ret [lua_pushnumber (double_of_float r)].
End Noise.

Example noise_sample :
  math_noise true [LNumber (literal "0.5"); LNumber (literal "0.25")]
  = Ret [LNumber (literal "-0.07763671875")].
Proof. vm_compute. reflexivity. Qed.

Example perlin_sample :
  perlin (float_of_double (literal "1.3")) (float_of_double (literal "2.7"))
    (float_of_double (literal "-3.1")) = Ret (float_of_double (literal "0.36434614658355713")).
Proof. vm_compute. reflexivity. Qed.

(** * Bounds *)

Lemma aget_in {A} (l : list A) i :
  0 <= i < Z.of_nat (length l) -> exists x, aget l i = Ret x /\ x ∈ l.
Proof.
  intros Hi. unfold aget. rewrite (proj2 (Z.leb_le 0 i)) by lia.
  destruct (lookup_lt_is_Some_2 l (Z.to_nat i)) as [x Hx]; [lia|].
  exists x. rewrite Hx. split; [done|]. by apply list_elem_of_lookup_2 in Hx.
Qed.

Lemma land_255 x : 0 <= Z.land x 255 <= 255.
Proof.
  assert (Z.land x 255 = x mod 256) as -> by (apply (Z.land_ones x 8); lia).
  pose proof (Z.mod_pos_bound x 256). lia.
Qed.

Lemma land_15 x : 0 <= Z.land x 15 < 16.
Proof.
  assert (Z.land x 15 = x mod 16) as -> by (apply (Z.land_ones x 4); lia).
  apply Z.mod_pos_bound. lia.
Qed.

Lemma hash_read i : 0 <= i <= 256 -> exists h, aget kPerlinHash i = Ret h.
Proof. intros Hi. destruct (aget_in kPerlinHash i) as (h & Hh & _); [simpl; lia|eauto]. Qed.

Lemma grad_read h x y z : exists i, 0 <= i < 16 /\ perlin_grad h x y z = perlin_grad i x y z.
Proof.
  exists (Z.land h 15). pose proof (land_15 h) as Hh. split; [done|]. unfold perlin_grad.
  do 2 f_equal. rewrite <- Z.land_assoc. done.
Qed.

Lemma grad_defined h x y z : exists g, perlin_grad h x y z = Ret g.
Proof.
  unfold perlin_grad. pose proof (land_15 h). destruct (aget_in kPerlinGrad (Z.land h 15))
    as ([[g0 g1] g2] & -> & _); [simpl; lia|]. cbn [outcome_bind]. eauto.
Qed.

(** The chain of reads of [perlin]: each index is a cell, or a cell and one. *)
Ltac read_hash :=
  match goal with
  | |- context [aget kPerlinHash ?i] =>
      let h := fresh "h" in let Hh := fresh "Hh" in
      destruct (hash_read i) as [h Hh];
      [repeat match goal with |- context [Z.land ?x 255] =>
         lazymatch goal with
         | _ : 0 <= Z.land x 255 <= 255 |- _ => fail
         | _ => pose proof (land_255 x)
         end end; lia
      | rewrite Hh; cbn [outcome_bind]]
  end.

Lemma perlin_at_defined xi yi zi xf yf zf :
  0 <= xi <= 255 -> exists r, perlin_at xi yi zi xf yf zf = Ret r.
Proof.
  intros Hx. unfold perlin_at. cbv zeta.
  repeat (read_hash || match goal with
    | |- context [perlin_grad ?h ?x ?y ?z] =>
        let g := fresh "g" in let Hg := fresh "Hg" in
        destruct (grad_defined h x y z) as [g Hg]; rewrite Hg; cbn [outcome_bind]
    end).
  eauto.
Qed.

(** * The lattice *)

Definition f_zero : float32 := S754_zero false.

Definition is_zero (f : float32) : bool := match f with S754_zero _ => true | _ => false end.

(** The values of a gradient at the corners of a cell. *)
Definition corner_values : list float32 :=
  [S754_zero true; S754_zero false; f_int 1; f_int (-1); f_int 2; f_int (-2)].

Definition corners : list float32 := [f_zero; f_sub f_zero (f_int 1)].

Definition in_list (l : list float32) (f : float32) : bool := bool_decide (f ∈ l).

Definition grad_ok (h : Z) (x y z : float32) : bool :=
  match perlin_grad h x y z with Ret g => in_list corner_values g | _ => false end.

(** The finite cases, evaluated. *)
Lemma grad_cases :
  forallb (fun h => forallb (fun x => forallb (fun y => forallb (grad_ok h x y) corners) corners)
    corners) (zseq 16) = true.
Proof. vm_compute. reflexivity. Qed.

Lemma lerp_cases :
  forallb (fun a => forallb (fun b =>
    in_list corner_values (perlin_lerp f_zero a b) &&
    implb (is_zero a) (is_zero (perlin_lerp f_zero a b))) corner_values) corner_values = true.
Proof. vm_compute. reflexivity. Qed.

Lemma origin_cases :
  forallb (fun h => match perlin_grad h f_zero f_zero f_zero with
                    | Ret g => is_zero g | _ => false end) (zseq 16) = true.
Proof. vm_compute. reflexivity. Qed.

Lemma forallb_elem {A} (f : A -> bool) l x : forallb f l = true -> x ∈ l -> f x = true.
Proof. intros Hf Hx. rewrite forallb_forall in Hf. apply Hf. by apply list_elem_of_In. Qed.

Lemma grad_corner h x y z :
  x ∈ corners -> y ∈ corners -> z ∈ corners ->
  exists g, perlin_grad h x y z = Ret g /\ g ∈ corner_values.
Proof.
  intros Hx Hy Hz. destruct (grad_read h x y z) as (i & Hi & ->).
  assert (Hin : i ∈ zseq 16) by (apply elem_of_zseq; lia).
  pose proof (forallb_elem _ _ _ grad_cases Hin) as H1. cbn beta in H1.
  apply (forallb_elem _ _ _) with (2 := Hx), (forallb_elem _ _ _) with (2 := Hy),
    (forallb_elem _ _ _) with (2 := Hz) in H1.
  unfold grad_ok in H1. destruct (perlin_grad i x y z) as [g| |]; try done.
  exists g. split; [done|]. by apply bool_decide_eq_true in H1.
Qed.

Lemma grad_origin h : exists g, perlin_grad h f_zero f_zero f_zero = Ret g /\ g ∈ corner_values /\ is_zero g = true.
Proof.
  destruct (grad_corner h f_zero f_zero f_zero) as (g & Hg & Hs); [by left..|].
  exists g. split_and!; [done..|]. destruct (grad_read h f_zero f_zero f_zero) as (i & Hi & Ei).
  assert (Hin : i ∈ zseq 16) by (apply elem_of_zseq; lia).
  pose proof (forallb_elem _ _ _ origin_cases Hin) as H1. cbn beta in H1. by rewrite <- Ei, Hg in H1.
Qed.

Lemma lerp_corner a b :
  a ∈ corner_values -> b ∈ corner_values ->
  perlin_lerp f_zero a b ∈ corner_values /\ (is_zero a = true -> is_zero (perlin_lerp f_zero a b) = true).
Proof.
  intros Ha Hb. pose proof (forallb_elem _ _ _ lerp_cases Ha) as H1. cbn beta in H1.
  pose proof (forallb_elem _ _ _ H1 Hb) as H2. cbn beta in H2. apply andb_prop in H2 as [H2 H3].
  apply bool_decide_eq_true in H2. split; [done|]. intros Hz. by rewrite Hz in H3.
Qed.

Lemma fade_zero : perlin_fade f_zero = f_zero.
Proof. vm_compute. reflexivity. Qed.

(** At the origin of a cell each interpolation is its first end, and the gradient of
    that corner vanishes. *)
Lemma perlin_at_origin xi yi zi :
  0 <= xi <= 255 ->
  exists s, perlin_at xi yi zi f_zero f_zero f_zero = Ret (S754_zero s).
Proof.
  intros Hx. unfold perlin_at. rewrite fade_zero. cbv zeta.
  assert (H0 : f_zero ∈ corners) by by left.
  assert (H1 : f_sub f_zero (f_int 1) ∈ corners) by (right; by left).
  do 6 read_hash. read_hash.
  match goal with |- context [perlin_grad ?h f_zero f_zero f_zero] =>
    destruct (grad_origin h) as (g0 & E0 & Hg0 & Hz) end.
  rewrite E0. cbn [outcome_bind].
  repeat (read_hash || match goal with
    | |- context [perlin_grad ?h ?x ?y ?z] =>
        let g := fresh "g" in let Hg := fresh "Hg" in let Hs := fresh "Hs" in
        destruct (grad_corner h x y z) as (g & Hg & Hs); [assumption..|];
        rewrite Hg; cbn [outcome_bind]
    end).
  match goal with |- context [Ret (perlin_lerp f_zero (perlin_lerp f_zero ?la ?lb) (perlin_lerp f_zero ?la1 ?lb1))] =>
    assert (Hla : la ∈ corner_values /\ is_zero la = true) by (split; by apply lerp_corner);
    assert (Hlb : lb ∈ corner_values) by (by apply lerp_corner);
    assert (Hla1 : la1 ∈ corner_values) by (by apply lerp_corner);
    assert (Hlb1 : lb1 ∈ corner_values) by (by apply lerp_corner);
    generalize dependent la; generalize dependent lb; generalize dependent la1; generalize dependent lb1
  end.
  intros lb1 Hlb1 la1 Hla1 lb Hlb la [Hla Hzla].
  destruct (lerp_corner la lb Hla Hlb) as [Ha Hza]. specialize (Hza Hzla).
  destruct (lerp_corner la1 lb1 Hla1 Hlb1) as [Hb _].
  destruct (lerp_corner _ _ Ha Hb) as [_ Hr]. specialize (Hr Hza).
  destruct (perlin_lerp f_zero (perlin_lerp f_zero la lb) _) as [s| | |]; try done. eauto.
Qed.

(** [f - f] *)
Lemma f_sub_self f : d_isfinite f = true -> f_sub f f = f_zero.
Proof.
  destruct f as [s|s| |s m e]; try done; intros _; [by destruct s|].
  unfold f_sub, SFsub. by rewrite Z.sub_diag.
Qed.

(** C37. [math.noise] reads its two tables inside their bounds whatever the arguments
    are, so that it ends with a number or with the error of an argument that is not
    one. *)
Theorem math_noise_safe `{Target} fix_noise args :
  match math_noise fix_noise args with
  | Ret vs => exists r, vs = [LNumber r]
  | Throw e => exists i, e = TypeError i "number" /\ 1 <= i <= 3
  | Undefined _ => False
  end.
Proof.
  unfold math_noise, luaL_argexpected, tag_error.
  destruct (is_number _); cbn [outcome_bind]; [|exists 1; split; [done|lia]].
  destruct (_ || _); cbn [outcome_bind]; [|exists 2; split; [done|lia]].
  destruct (_ || _); cbn [outcome_bind]; [|exists 3; split; [done|lia]].
  unfold perlin.
  match goal with |- context [perlin_at ?xi ?yi ?zi ?xf ?yf ?zf] =>
    destruct (perlin_at_defined xi yi zi xf yf zf) as [r ->]; [apply land_255|] end.
  cbn [outcome_bind]. eauto.
Qed.

(** The noise is zero at every point with integer coordinates. *)
Theorem perlin_lattice `{Target} x y z :
  f_floor x = x -> f_floor y = y -> f_floor z = z ->
  d_isfinite x = true -> d_isfinite y = true -> d_isfinite z = true ->
  exists s, perlin x y z = Ret (S754_zero s).
Proof.
  intros Hx Hy Hz Fx Fy Fz. unfold perlin. rewrite Hx, Hy, Hz, !f_sub_self by done.
  apply perlin_at_origin, land_255.
Qed.

Lemma perlin_lattice_witness :
  f_floor (f_int (-1000)) = f_int (-1000) /\
  exists s, perlin (f_int 3) (f_int (-1000)) (f_int 7) = Ret (S754_zero s).
Proof.
  split; [vm_compute; reflexivity|]. apply perlin_lattice; vm_compute; reflexivity.
Defined.
