(* ===== verification/MathRand.v ===== *)
(** The random numbers of [VM/src/lmathlib.cpp]: the generator has full period, the
    integers it yields are in range and evenly spread. *)
From Stdlib Require Import Znumtheory Zpow_facts.
From S2P Require Import Prelude Word Double NumParse LuaApi Arith CMath MathLib.
From S2P Require Import DoubleExact DoubleDiv DoubleBits.
Open Scope Z_scope.
Open Scope outcome_scope.

(** * The generator as a linear congruence *)

Definition pcg_next (state : Z) : Z := snd (pcg32_random state).

Lemma pcg_next_eq s : pcg_next s = (s * PCG32_MULT + 105) mod 2 ^ 64.
Proof.
  unfold pcg_next, pcg32_random. cbn [snd]. change (Z.lor PCG32_INC 1) with 105.
  unfold add_u, mul_u. by rewrite cast_u_add_l.
Qed.

Lemma pcg_next_range s : in_u 64 (pcg_next s).
Proof. rewrite pcg_next_eq. apply Z.mod_pos_bound. lia. Qed.

Lemma pcg_iter_range n s : in_u 64 s -> in_u 64 (Nat.iter n pcg_next s).
Proof. intros Hs. destruct n; cbn [Nat.iter]; [exact Hs|apply pcg_next_range]. Qed.

(** [1 + a + ... + a^(n-1)] *)
Fixpoint geo (a : Z) (n : nat) : Z :=
  match n with O => 0 | S n => 1 + a * geo a n end.

Lemma geo_spec a n : (a - 1) * geo a n = a ^ Z.of_nat n - 1.
Proof.
  induction n as [|n IH]; [cbn; lia|]. cbn [geo].
  rewrite Nat2Z.inj_succ, Z.pow_succ_r by lia. lia.
Qed.

Lemma geo_add a n m : geo a (n + m) = geo a n + a ^ Z.of_nat n * geo a m.
Proof.
  induction n as [|n IH]; cbn [geo Nat.add]; [lia|].
  rewrite IH, Nat2Z.inj_succ, Z.pow_succ_r by lia. lia.
Qed.

(** [n] steps at once. *)
Lemma pcg_iter n s :
  in_u 64 s ->
  Nat.iter n pcg_next s
  = (s + geo PCG32_MULT n * ((PCG32_MULT - 1) * s + 105)) mod 2 ^ 64.
Proof.
  intros Hs. induction n as [|n IH].
  { cbn [Nat.iter geo]. rewrite Z.mul_0_l, Z.add_0_r. by rewrite Z.mod_small. }
  rewrite Nat.iter_succ, IH, pcg_next_eq. rewrite Z.add_mod, Z.mul_mod_idemp_l, <- Z.add_mod by lia.
  f_equal. cbn [geo]. ring.
Qed.

(** * Powers of two that divide the sum *)

Section Geo.
Variable a : Z.
Hypothesis Ha : a mod 4 = 1.

Lemma pow_mod4 n : (a ^ Z.of_nat n) mod 4 = 1.
Proof.
  induction n as [|n IH]; [done|]. rewrite Nat2Z.inj_succ, Z.pow_succ_r by lia.
  by rewrite Z.mul_mod, Ha, IH by lia.
Qed.

Lemma geo_double m : exists o, Z.odd o = true /\ geo a (m + m) = 2 * (o * geo a m).
Proof.
  rewrite geo_add. exists ((1 + a ^ Z.of_nat m) / 2).
  pose proof (pow_mod4 m) as Hm. set (p := a ^ Z.of_nat m) in *.
  pose proof (Z.div_mod p 4 ltac:(lia)) as Hd. rewrite Hm in Hd.
  assert ((1 + p) / 2 = 1 + 2 * (p / 4)) as ->.
  { symmetry. apply (Z.div_unique _ _ _ 0); lia. }
  split; [by rewrite Z.odd_add_mul_2|lia].
Qed.

Lemma odd_mod4 : Z.odd a = true.
Proof.
  pose proof (Z.div_mod a 4 ltac:(lia)) as Hd. rewrite Ha in Hd.
  replace a with (1 + 2 * (2 * (a / 4))) by lia. by rewrite Z.add_comm, Z.odd_add, Z.odd_mul.
Qed.

Lemma geo_odd n : Z.odd (geo a n) = Nat.odd n.
Proof.
  induction n as [|n IH]; [done|]. cbn [geo].
  by rewrite Z.odd_add, Z.odd_mul, odd_mod4, IH, Nat.odd_succ, <- Nat.negb_odd.
Qed.

Lemma divide_odd_factor k o x :
  0 <= k -> Z.odd o = true -> (2 ^ k | o * x) <-> (2 ^ k | x).
Proof.
  intros Hk Ho. split; [|by apply Z.divide_mul_r]. intros Hd.
  apply (Gauss _ o); [done|]. apply rel_prime_sym, rel_prime_Zpower_r, rel_prime_sym; [done|].
  apply prime_rel_prime; [apply prime_2|]. intros [c ->]. by rewrite Z.odd_mul, andb_false_r in Ho.
Qed.

(** The sum of [n] terms has the factors [2] of [n]. *)
Lemma geo_divide k n : (2 ^ Z.of_nat k | geo a n) <-> (2 ^ Z.of_nat k | Z.of_nat n).
Proof.
  revert n. induction k as [|k IH]; intros n.
  { change (2 ^ Z.of_nat 0) with 1. split; intros _; apply Z.divide_1_l. }
  rewrite Nat2Z.inj_succ, Z.pow_succ_r by lia.
  assert (Hodd : Nat.odd n = true -> ~ (2 * 2 ^ Z.of_nat k | geo a n) /\ ~ (2 * 2 ^ Z.of_nat k | Z.of_nat n)).
  { intros Ho. split; intros [c Hc].
    - rewrite <- geo_odd, Hc, !Z.odd_mul in Ho. by rewrite andb_false_r in Ho.
    - apply Nat.odd_spec in Ho as [j Hj].
      replace (c * (2 * 2 ^ Z.of_nat k)) with (2 * (c * 2 ^ Z.of_nat k)) in Hc by ring. lia. }
  destruct (Nat.odd n) eqn:E; [tauto|].
  apply (f_equal negb) in E. rewrite Nat.negb_odd in E. apply Nat.even_spec in E as [m ->].
  replace (2 * m)%nat with (m + m)%nat by lia. destruct (geo_double m) as (o & Ho & ->).
  rewrite Nat2Z.inj_add, Z.add_diag, !Z.mul_divide_cancel_l by lia.
  by rewrite divide_odd_factor, IH by (done || lia).
Qed.
End Geo.

(** * The period *)

Lemma pcg_iter_fixed n s :
  in_u 64 s -> Nat.iter n pcg_next s = s <-> (2 ^ 64 | Z.of_nat n).
Proof.
  intros Hs. rewrite pcg_iter by done. rewrite <- (geo_divide PCG32_MULT eq_refl 64).
  change (Z.of_nat 64) with 64. set (o := (PCG32_MULT - 1) * s + 105).
  assert (Ho : Z.odd o = true).
  { subst o. by rewrite Z.odd_add, Z.odd_mul. }
  rewrite <- (divide_odd_factor 64 o) by done. rewrite Z.mul_comm. split; intros Hd.
  - apply Z.mod_divide; [lia|]. 
    replace (o * geo PCG32_MULT n) with (s + o * geo PCG32_MULT n - s) by lia.
    by rewrite <- Zminus_mod_idemp_l, Hd, Z.sub_diag.
  - apply Z.mod_divide in Hd; [|lia]. rewrite Z.add_mod, Hd, Z.add_0_r, Z.mod_mod by lia.
    by apply Z.mod_small.
Qed.

Lemma pcg_next_inj s t : in_u 64 s -> in_u 64 t -> pcg_next s = pcg_next t -> s = t.
Proof.
  intros Hs Ht. rewrite !pcg_next_eq. intros He.
  assert (Hd : (2 ^ 64 | PCG32_MULT * (s - t))).
  { apply Z.mod_divide; [lia|]. replace (PCG32_MULT * (s - t))
      with (s * PCG32_MULT + 105 - (t * PCG32_MULT + 105)) by ring.
    by rewrite Zminus_mod, He, Z.sub_diag. }
  apply divide_odd_factor in Hd as [c Hc]; [|lia|done]. unfold in_u in *. nia.
Qed.

(** An injection of [[0, N)] into itself is onto. *)
Lemma onto_of_injective (N : nat) (f : nat -> Z) (t : Z) :
  (forall i j, (i < j < N)%nat -> f i <> f j) ->
  (forall i, (i < N)%nat -> 0 <= f i < Z.of_nat N) ->
  0 <= t < Z.of_nat N -> exists i, (i < N)%nat /\ f i = t.
Proof.
  intros Hinj Hran Ht.
  assert (Hp : f <$> seq 0 N ≡ₚ zseq N).
  { apply submseteq_length_Permutation.
    - apply NoDup_submseteq.
      + apply NoDup_fmap_2_strong; [|apply NoDup_seq].
        intros i j Hi%elem_of_seq Hj%elem_of_seq He.
        destruct (Nat.lt_trichotomy i j) as [Hl|[|Hl]]; [|done|].
        * by destruct (Hinj i j ltac:(lia)).
        * by destruct (Hinj j i ltac:(lia)).
      + intros x Hx. apply list_elem_of_fmap in Hx as (i & -> & Hi%elem_of_seq).
        apply elem_of_zseq, Hran. lia.
    - by rewrite length_zseq, length_fmap, length_seq. }
  assert (Hin : t ∈ f <$> seq 0 N) by (rewrite Hp; by apply elem_of_zseq).
  apply list_elem_of_fmap in Hin as (i & -> & Hi%elem_of_seq). exists i. split; [lia|done].
Qed.

Lemma pcg_reaches s t :
  in_u 64 s -> in_u 64 t -> exists n, Z.of_nat n < 2 ^ 64 /\ Nat.iter n pcg_next s = t.
Proof.
  intros Hs Ht.
  destruct (onto_of_injective (Z.to_nat (2 ^ 64)) (fun n => Nat.iter n pcg_next s) t)
    as (n & Hn & He).
  - intros i j Hij He. replace j with (j - i + i)%nat in He by lia. rewrite Nat.iter_add in He.
    symmetry in He. apply pcg_iter_fixed in He as Hd; [|by apply pcg_iter_range].
    apply Z.divide_pos_le in Hd; lia.
  - intros i _. rewrite Z2Nat.id by lia. by apply pcg_iter_range.
  - rewrite Z2Nat.id by lia. exact Ht.
  - exists n. split; [lia|done].
Qed.

(** C35. The generator has full period: from any state, [n] draws lead back to it
    exactly when [2^64] divides [n], and every state is met within [2^64] draws.
    Different seeds give different states. *)
Theorem pcg32_period s :
  let next := fun state => snd (pcg32_random state) in
  in_u 64 s ->
  (forall n, Nat.iter n next s = s <-> (2 ^ 64 | Z.of_nat n)) /\
  (forall t, in_u 64 t -> exists n, Z.of_nat n < 2 ^ 64 /\ Nat.iter n next s = t) /\
  (forall seed, in_u 64 seed -> pcg32_seed s = pcg32_seed seed -> s = seed).
Proof.
  intros next Hs. split_and!.
  - intros n. by apply pcg_iter_fixed.
  - intros t Ht. by apply pcg_reaches.
  - intros seed Hseed He. unfold pcg32_seed in He. apply pcg_next_inj in He.
    + unfold add_u in He. set (c := snd (pcg32_random 0)) in He.
      assert (cast_u 64 (c + s - c) = cast_u 64 (c + seed - c)) as E.
      { by rewrite <- !(cast_u_sub 64 (c + _)), He. }
      replace (c + s - c) with s in E by lia. replace (c + seed - c) with seed in E by lia.
      by rewrite !cast_u_id in E.
    + apply cast_u_range. lia.
    + apply cast_u_range. lia.
Qed.

Lemma pcg32_period_witness :
  Nat.iter 3 (fun state => snd (pcg32_random state)) 42 <> 42.
Proof.
  intros Hn. apply (proj1 (pcg32_period 42 ltac:(split; [lia|done]))) in Hn as [c Hc]. lia.
Defined.

(** * Integers *)

Lemma pcg_output_range s : in_u 64 s -> in_u 32 (fst (pcg32_random s)).
Proof.
  intros Hs. unfold pcg32_random. cbn [fst].
  assert (Hr : 0 <= u32 (shr_u s 59) < 32).
  { unfold shr_u. rewrite Z.shiftr_div_pow2 by lia. unfold in_u in Hs.
    assert (0 <= s / 2 ^ 59 < 32) by (split; [apply Z.div_pos|apply Z.div_lt_upper_bound]; lia).
    by rewrite cast_u_id by (unfold in_u; lia). }
  apply in_u_lor; [lia|apply in_u_shr; [lia..|auto with word]|apply in_u_shl; lia].
Qed.

(** The multiples [n * w] spread over [w] classes of [2^32]. *)
Section Spread.
Variable w : Z.
Hypothesis Hw : 0 < w <= 2 ^ 32.

Definition class_start (k : Z) : Z := (k * 2 ^ 32 + w - 1) / w.

Lemma class_start_spec k n : class_start k <= n <-> k * 2 ^ 32 <= n * w.
Proof.
  unfold class_start. pose proof (Z.div_mod (k * 2 ^ 32 + w - 1) w ltac:(lia)).
  pose proof (Z.mod_pos_bound (k * 2 ^ 32 + w - 1) w ltac:(lia)).
  set (q := (k * 2 ^ 32 + w - 1) / w) in *. split; intros; nia.
Qed.

Lemma class_of k n : n * w / 2 ^ 32 = k <-> class_start k <= n < class_start (k + 1).
Proof.
  rewrite class_start_spec. assert (n < class_start (k + 1) <-> ~ class_start (k + 1) <= n) as -> by lia.
  rewrite class_start_spec. pose proof (Z.div_mod (n * w) (2 ^ 32) ltac:(lia)).
  pose proof (Z.mod_pos_bound (n * w) (2 ^ 32) ltac:(lia)). nia.
Qed.

Lemma class_size k :
  2 ^ 32 / w <= class_start (k + 1) - class_start k <= 2 ^ 32 / w + 1.
Proof.
  unfold class_start.
  pose proof (Z.div_mod (k * 2 ^ 32 + w - 1) w ltac:(lia)).
  pose proof (Z.mod_pos_bound (k * 2 ^ 32 + w - 1) w ltac:(lia)).
  pose proof (Z.div_mod ((k + 1) * 2 ^ 32 + w - 1) w ltac:(lia)).
  pose proof (Z.mod_pos_bound ((k + 1) * 2 ^ 32 + w - 1) w ltac:(lia)).
  pose proof (Z.div_mod (2 ^ 32) w ltac:(lia)). pose proof (Z.mod_pos_bound (2 ^ 32) w ltac:(lia)).
  set (x := (k * 2 ^ 32 + w - 1) / w) in *. set (y := ((k + 1) * 2 ^ 32 + w - 1) / w) in *.
  set (q := 2 ^ 32 / w) in *. split; nia.
Qed.
End Spread.

Lemma class_range w n : 0 < w <= 2 ^ 32 -> in_u 32 n -> 0 <= n * w / 2 ^ 32 < w.
Proof.
  intros Hw Hn. unfold in_u in Hn. split; [apply Z.div_pos; nia|].
  apply Z.div_lt_upper_bound; nia.
Qed.

Section Random.
Context `{Target}.

Lemma random_interval l u n :
  in_s 32 l -> in_s 32 u -> l <= u -> u - l < 2 ^ 32 - 1 -> in_u 32 n ->
  let w := u - l + 1 in
  s32 (add_u 64 (u64 l) (shr_u (mul_u 64 (add_u 32 (sub_u 32 (u32 u) (u32 l)) 1) n) 32))
  = l + n * w / 2 ^ 32.
Proof.
  intros Hl Hu Hlu Hd Hn w. unfold in_s in *. change (2 ^ (32 - 1)) with (2 ^ 31) in *.
  pose proof (class_range w n ltac:(lia) Hn) as Hc. unfold in_u in Hn.
  assert (sub_u 32 (u32 u) (u32 l) = u - l) as ->.
  { unfold sub_u. rewrite cast_u_sub. apply cast_u_id. unfold in_u. lia. }
  assert (add_u 32 (u - l) 1 = w) as ->.
  { unfold add_u. apply cast_u_id. unfold in_u. lia. }
  assert (mul_u 64 w n = n * w) as ->.
  { unfold mul_u. rewrite Z.mul_comm. apply cast_u_id. unfold in_u. nia. }
  unfold shr_u. rewrite Z.shiftr_div_pow2 by lia.
  unfold add_u. rewrite cast_u_add_l. set (r := n * w / 2 ^ 32) in *.
  assert (s32 (u64 (l + r)) = s32 (l + r)) as ->.
  { unfold cast_s, cast_u. rewrite <- Znumtheory.Zmod_div_mod; [done|lia..|by exists (2 ^ 32)]. }
  apply cast_s_id; [lia|]. unfold in_s. lia.
Qed.

(** What [math.random(l, u)] does with the output [n] of the generator. *)
Lemma math_random2 st a b :
  in_u 64 st ->
  let l := luai_num2int a in let u := luai_num2int b in
  let '(n, st') := pcg32_random st in
  math_random st [LNumber a; LNumber b] =
    (if u <? l then Throw (ArgError 2 "interval is empty")
     else if u - l =? 2 ^ 32 - 1 then Throw (ArgError 2 "interval is too large")
     else Ret ([LNumber (double_of_Z (l + n * (u - l + 1) / 2 ^ 32))], st')).
Proof.
  intros Hst l u. pose proof (luai_num2int_range a) as Hl. pose proof (luai_num2int_range b) as Hu.
  fold l in Hl. fold u in Hu. pose proof (pcg_output_range st Hst) as Hn.
  destruct (pcg32_random st) as [n st'] eqn:Ep. cbn [fst] in Hn.
  unfold math_random. change (lua_gettop [LNumber a; LNumber b]) with 2. cbn iota. read_args.
  fold l u. destruct (Z.ltb_spec u l); [by rewrite (proj2 (Z.leb_gt l u)) by lia|].
  rewrite (proj2 (Z.leb_le l u)) by lia. cbn [luaL_argcheck outcome_bind].
  assert (Hs : sub_u 32 (u32 u) (u32 l) = u - l).
  { unfold sub_u. rewrite cast_u_sub. apply cast_u_id. unfold in_u, in_s in *. lia. }
  unfold UINT_MAX. destruct (Z.eqb_spec (u - l) (2 ^ 32 - 1)) as [E|E].
  { by rewrite Hs, E. }
  rewrite Hs at 1. unfold in_s in *. rewrite (proj2 (Z.ltb_lt _ _)) by lia.
  cbn [luaL_argcheck outcome_bind]. rewrite Ep. unfold lua_pushinteger.
  by rewrite random_interval by (done || lia).
Qed.

(** [math.random(u)] is [math.random(1, u)], but for the error. *)
Lemma math_random1 st b :
  in_u 64 st ->
  let u := luai_num2int b in
  let '(n, st') := pcg32_random st in
  math_random st [LNumber b] =
    (if u <? 1 then Throw (ArgError 1 "interval is empty")
     else Ret ([LNumber (double_of_Z (1 + n * u / 2 ^ 32))], st')).
Proof.
  intros Hst u. pose proof (luai_num2int_range b) as Hu. fold u in Hu.
  pose proof (pcg_output_range st Hst) as Hn.
  destruct (pcg32_random st) as [n st'] eqn:Ep. cbn [fst] in Hn.
  unfold math_random. change (lua_gettop [LNumber b]) with 1. cbn iota. read_args. fold u.
  destruct (Z.ltb_spec u 1); [by rewrite (proj2 (Z.leb_gt 1 u)) by lia|].
  rewrite (proj2 (Z.leb_le 1 u)) by lia. cbn [luaL_argcheck outcome_bind]. rewrite Ep.
  pose proof (random_interval 1 u n) as Hr. unfold in_s in *. change (2 ^ (32 - 1)) with (2 ^ 31) in *.
  cbn zeta in Hr. replace (n * u) with (n * (u - 1 + 1)) by ring.
  rewrite <- Hr by (done || lia).
  assert (add_u 32 (sub_u 32 (u32 u) (u32 1)) 1 = u64 u) as ->; [|done].
  unfold add_u, sub_u. rewrite cast_u_sub, cast_u_add_l, Z.sub_add.
  by rewrite !cast_u_id by (unfold in_u; lia).
Qed.

(** C36. [math.random(l, u)] yields an integer between [l] and [u], and the next
    state of the generator; it refuses an empty interval and the one of all [2^32]
    integers.  [math.random(u)] starts at one. *)
Theorem math_random_range st a b :
  in_u 64 st ->
  let l := luai_num2int a in let u := luai_num2int b in
  let st' := snd (pcg32_random st) in
  (if u <? l then math_random st [LNumber a; LNumber b] = Throw (ArgError 2 "interval is empty")
   else if u - l =? 2 ^ 32 - 1
   then math_random st [LNumber a; LNumber b] = Throw (ArgError 2 "interval is too large")
   else exists r, l <= r <= u /\
     math_random st [LNumber a; LNumber b] = Ret ([LNumber (double_of_Z r)], st')) /\
  (if u <? 1 then math_random st [LNumber b] = Throw (ArgError 1 "interval is empty")
   else exists r, 1 <= r <= u /\ math_random st [LNumber b] = Ret ([LNumber (double_of_Z r)], st')).
Proof.
  intros Hst l u st'. pose proof (math_random2 st a b Hst) as H2.
  pose proof (math_random1 st b Hst) as H1. fold l u in H1, H2.
  pose proof (pcg_output_range st Hst) as Hn. subst st'.
  pose proof (luai_num2int_range a) as Hl. pose proof (luai_num2int_range b) as Hu.
  fold l in Hl. fold u in Hu. unfold in_s in Hl, Hu.
  destruct (pcg32_random st) as [n st']. cbn [fst snd] in *. split.
  - destruct (Z.ltb_spec u l); [done|]. destruct (Z.eqb_spec (u - l) (2 ^ 32 - 1)); [done|].
    pose proof (class_range (u - l + 1) n ltac:(lia) Hn).
    exists (l + n * (u - l + 1) / 2 ^ 32). split; [lia|done].
  - destruct (Z.ltb_spec u 1); [done|]. pose proof (class_range u n ltac:(lia) Hn).
    exists (1 + n * u / 2 ^ 32). split; [lia|done].
Qed.

(** Every integer of the interval is drawn, and none is favoured: it comes from a
    run of consecutive outputs of the generator, and the runs of two integers differ
    in length by one at most. *)
Theorem math_random_even a b k :
  let l := luai_num2int a in let u := luai_num2int b in
  l <= u -> u - l < 2 ^ 32 - 1 -> l <= k <= u ->
  let share := 2 ^ 32 / (u - l + 1) in
  exists first len, 0 <= first /\ first + len <= 2 ^ 32 /\ share <= len <= share + 1 /\ 0 < share /\
    forall st, in_u 64 st ->
      (exists st', math_random st [LNumber a; LNumber b] = Ret ([LNumber (double_of_Z k)], st')) <->
      first <= fst (pcg32_random st) < first + len.
Proof.
  intros l u Hlu Hd Hk share. set (w := u - l + 1) in *. assert (Ew : w = u - l + 1) by done.
  pose proof (luai_num2int_range a) as Hl. pose proof (luai_num2int_range b) as Hu.
  fold l in Hl. fold u in Hu. unfold in_s in Hl, Hu. change (32 - 1) with 31 in *.
  assert (Hw : 0 < w <= 2 ^ 32) by lia. pose proof (class_size w Hw (k - l)) as Hsize.
  exists (class_start w (k - l)), (class_start w (k - l + 1) - class_start w (k - l)).
  assert (Hend : class_start w (k - l + 1) <= 2 ^ 32) by (apply class_start_spec; [done|nia]).
  assert (Hbegin : 0 <= class_start w (k - l)).
  { unfold class_start. apply Z.div_pos; nia. }
  split_and!; [done|lia|apply Hsize|apply Hsize|apply Z.div_str_pos; lia|].
  intros st Hst. replace (class_start w (k - l) + _) with (class_start w (k - l + 1)) by lia.
  rewrite <- class_of by done. pose proof (math_random2 st a b Hst) as H2. fold l u in H2.
  pose proof (pcg_output_range st Hst) as Hn.
  destruct (pcg32_random st) as [n st']. cbn [fst] in *. fold w in H2.
  rewrite (proj2 (Z.ltb_ge u l)), (proj2 (Z.eqb_neq _ _)) in H2 by lia. rewrite H2.
  pose proof (class_range w n Hw Hn) as Hc. split.
  - intros [st2 [= He _]]. apply (f_equal trunc_Z) in He.
    rewrite !trunc_Z_double_of_Z in He by lia. injection He. lia.
  - intros He. exists st'. by replace (l + n * w / 2 ^ 32) with k by lia.
Qed.
End Random.

Lemma math_random_range_witness :
  exists r, 1 <= r <= 6 /\
    math_random 13190821220000991040 [LNumber (double_of_Z 1); LNumber (double_of_Z 6)]
    = Ret ([LNumber (double_of_Z r)], snd (pcg32_random 13190821220000991040)).
Proof.
  exact (proj1 (math_random_range 13190821220000991040 (double_of_Z 1) (double_of_Z 6)
    ltac:(split; [lia|done]))).
Defined.

Lemma math_random_even_witness :
  exists first len, 0 <= first /\ first + len <= 2 ^ 32 /\ 715827882 <= len <= 715827883 /\ 0 < 715827882 /\
    forall st, in_u 64 st ->
      (exists st', math_random st [LNumber (double_of_Z 1); LNumber (double_of_Z 6)]
                   = Ret ([LNumber (double_of_Z 3)], st')) <->
      first <= fst (pcg32_random st) < first + len.
Proof.
  apply (math_random_even (double_of_Z 1) (double_of_Z 6) 3); vm_compute; intuition discriminate.
Defined.

(** * Real numbers *)

Lemma ldexp_canonical s m e n :
  Zpos (digits2_pos m) = 53 -> -1074 <= e + n <= 971 ->
  d_ldexp (S754_finite s m e) n = S754_finite s m (e + n).
Proof.
  intros Hd He. unfold d_ldexp, SFldexp, binary_round, shl_align. rewrite Hd.
  replace (fexp 53 1024 (53 + (e + n)) - (e + n)) with 0 by (unfold fexp, emin; lia).
  apply binary_round_aux_exact; [done|unfold emin; lia].
Qed.

(** Scaling an integer below [2^64] into the unit interval. *)
Lemma unit_interval z :
  in_u 64 z ->
  let r := d_ldexp (double_of_Z z) (-64) in
  valid_double r = true /\ d_le d_zero r = true /\ d_le r d_one = true.
Proof.
  intros Hz. unfold in_u in Hz. cbn zeta.
  assert (Hfin : forall m e, Zpos (digits2_pos m) = 53 -> -1074 <= e -> e < -52 \/ e = -52 /\ m = (2 ^ 52)%positive ->
    valid_double (S754_finite false m e) = true /\ d_le d_zero (S754_finite false m e) = true /\
    d_le (S754_finite false m e) d_one = true).
  { intros m e Hd He Hm. split_and!; [|done|].
    - cbn. unfold bounded, canonical_mantissa, fexp, emin. rewrite Hd.
      apply andb_true_intro. split; [apply Z.eqb_eq|apply Z.leb_le]; lia.
    - change d_one with (S754_finite false (2 ^ 52) (-52)). unfold d_le, SFleb. cbn [SFcompare].
      destruct Hm as [Hm|[-> ->]]; [|done]. by rewrite (proj2 (Z.compare_lt_iff e (-52))). }
  destruct (Z.lt_ge_cases z (2 ^ 53)) as [Hlt|Hge].
  - destruct (Z.eq_dec z 0) as [->|Hne]; [vm_compute; auto|].
    destruct (double_of_Z_spec z Hne) as (m & k & Hk & Hm & -> & Hd); [lia|].
    rewrite (proj2 (Z.ltb_ge z 0)) by lia. rewrite ldexp_canonical by (done || lia).
    apply Hfin; [done|lia..].
  - destruct z as [|p|p]; try lia. pose proof (digits2_pos_bounds p) as Hb.
    set (t := Zpos (digits2_pos p) - 53).
    assert (Ht : 0 <= t <= 11).
    { subst t. split.
      - destruct (Z.le_gt_cases 53 (Zpos (digits2_pos p))); [lia|].
        pose proof (Z.pow_le_mono_r 2 (Zpos (digits2_pos p)) 53). lia.
      - destruct (Z.le_gt_cases (Zpos (digits2_pos p)) 64); [lia|].
        pose proof (Z.pow_le_mono_r 2 64 (Zpos (digits2_pos p) - 1)). lia. }
    destruct (binary_round_mk false p 0 t) as [HM Hr]; [|lia..|].
    { by replace (52 + t) with (Zpos (digits2_pos p) - 1) by lia;
        replace (53 + t) with (Zpos (digits2_pos p)) by lia. }
    change (double_of_Z (Zpos p)) with (binary_round 53 1024 false p 0). rewrite Hr.
    unfold mk_float. destruct (Z.eqb_spec (rne (Zpos p) (2 ^ t)) (2 ^ 53)).
    + rewrite ldexp_canonical by (done || lia). apply Hfin; [done|lia|].
      destruct (Z.eq_dec t 11) as [->|]; [right|left]; [done|lia].
    + assert (Hd : Zpos (digits2_pos (Z.to_pos (rne (Zpos p) (2 ^ t)))) = 53).
      { apply digits2_pos_53. lia. }
      rewrite ldexp_canonical by (done || lia). apply Hfin; [done|lia..].
Qed.

(** [math.random()] yields a number between zero and one, both included: one is
    drawn in the state [5188131240181162351]. *)
Theorem math_random_unit `{Target} st :
  in_u 64 st ->
  (exists r st', math_random st [] = Ret ([LNumber r], st') /\ in_u 64 st' /\
     valid_double r = true /\ d_le d_zero r = true /\ d_le r d_one = true) /\
  exists st', math_random 5188131240181162351 [] = Ret ([LNumber d_one], st').
Proof.
  intros Hst. split.
  - unfold math_random. change (lua_gettop []) with 0. cbn iota.
    pose proof (pcg_output_range st Hst) as Hl. pose proof (pcg_next_range st) as H1.
    unfold pcg_next in H1. destruct (pcg32_random st) as [rl st1]. cbn [fst snd] in *.
    pose proof (pcg_output_range st1 H1) as Hh. pose proof (pcg_next_range st1) as H2.
    unfold pcg_next in H2. destruct (pcg32_random st1) as [rh st2]. cbn [fst snd] in *.
    eexists _, st2. split; [done|]. split; [done|]. apply unit_interval.
    apply in_u_lor; [lia|by apply (in_u_mono 32); [lia|]|apply in_u_shl; lia].
  - eexists. vm_compute. reflexivity.
Qed.

Lemma math_random_unit_witness :
  exists r st', math_random 42 [] = Ret ([LNumber r], st') /\ in_u 64 st' /\
     valid_double r = true /\ d_le d_zero r = true /\ d_le r d_one = true.
Proof. exact (proj1 (math_random_unit 42 ltac:(split; [lia|done]))). Defined.
