(* ===== verification/BaseLib.v ===== *)
(** The base library, [VM/src/lbaselib.cpp]: the functions that neither call Lua
    code nor do input and output.

    Tables are named by their addresses in a store, as in [TabLib.v]; [objects]
    answers what the other objects are.  A function that changes a table yields
    the store. *)
From stdpp Require Import gmap pretty.
From S2P Require Import Prelude Word Double NumParse LuaApi Tm Arith Compare Key TableNode Table Sort TabLib.
Open Scope Z_scope.
Open Scope outcome_scope.

Definition luaL_checkany (args : list TValue) (narg : Z) : outcome unit :=
  if lua_type args narg =? LUA_TNONE
  then luaL_error ("missing argument #" +:+ pretty narg)%string
  else Ret tt.

(** The value at a valid index; [luaO_nilobject] beyond the last one. *)
Definition value_at (args : list TValue) (idx : Z) : TValue := default LNil (index2addr args idx).

Section BaseLib.
Context `{VecSize, Target, NumFormat}.
Variable str_addr : list Z -> Z.
Variable objects : tables -> heap.

(** The bytes of a C string: up to the first NUL. *)
Fixpoint c_bytes (s : list Z) : list Z :=
  match s with
  | [] => []
  | c :: s => if c =? 0 then [] else c :: c_bytes s
  end.

Definition luaB_tonumber (args : list TValue) : outcome (list TValue) :=
  base <- luaL_optinteger args 2 10 ;;
  if base =? 10 then
    match lua_tonumberx args 1 with
    | Some n => Ret [lua_pushnumber n]
    | None => luaL_checkany args 1 ;;; Ret [lua_pushnil]
    end
  else
    s1 <- luaL_checklstring args 1 ;;
    let s1 := c_bytes s1 in
    luaL_argcheck ((2 <=? base) && (base <=? 36)) 2 "base out of range" ;;;
    let '(n, s2) := strtoull s1 base in
    if negb (at_start s1 s2) && only_spaces s2 then Ret [lua_pushnumber (double_of_Z n)]
    else Ret [lua_pushnil].

Definition luaB_rawequal (args : list TValue) : outcome (list TValue) :=
  luaL_checkany args 1 ;;;
  luaL_checkany args 2 ;;;
  Ret [lua_pushboolean (luaO_rawequalObj (value_at args 1) (value_at args 2))].

Definition luaB_rawget (args : list TValue) (σ : tables) : outcome (list TValue) :=
  a <- check_table args 1 ;;
  luaL_checkany args 2 ;;;
  t <- table_at σ a ;;
  Ret [slot_get t (luaH_get t (value_at args 2))].

Definition luaB_rawset (args : list TValue) (σ : tables) : outcome (list TValue * tables) :=
  a <- check_table args 1 ;;
  luaL_checkany args 2 ;;;
  luaL_checkany args 3 ;;;
  t <- table_at σ a ;;
  require negb (readonly t) else_ luaG_readonlyerror in
  p <- luaH_set t (value_at args 2) ;;
  let '(t, slot) := p in
  Ret ([LTable a], <[a := setslot t slot (value_at args 3)]> σ).

(** [lua_objlen] is [luaH_getn] on a table, the length on a string. *)
Definition luaB_rawlen (args : list TValue) (σ : tables) : outcome (list TValue * tables) :=
  match index2addr args 1 with
  | Some (LTable a) => p <- lua_objlen σ a ;; let '(n, σ) := p in Ret ([lua_pushinteger n], σ)
  | Some (LString s) => Ret ([lua_pushinteger (s32 (Z.of_nat (length s)))], σ)
  | _ => luaL_argerror 1 "table or string expected"
  end.

Definition luaB_type (args : list TValue) : outcome (list TValue) :=
  luaL_checkany args 1 ;;; Ret [LString (ttname (value_at args 1))].

(** The name is pushed as a C string. *)
Definition luaB_typeof (args : list TValue) (σ : tables) : outcome (list TValue) :=
  luaL_checkany args 1 ;;;
  Ret [LString (c_bytes (luaT_objtypename (objects σ) (value_at args 1)))].

Definition luaB_next (args : list TValue) (σ : tables) : outcome (list TValue) :=
  a <- check_table args 1 ;;
  t <- table_at σ a ;;
  r <- luaH_next str_addr t (value_at args 2) ;;
  Ret (match r with Some (k, v) => [k; v] | None => [LNil] end).

(** [luaB_pairs] and [luaB_ipairs] return the generator, their upvalue. *)
Definition luaB_pairs (generator : TValue) (args : list TValue) : outcome (list TValue) :=
  a <- check_table args 1 ;; Ret [generator; LTable a; LNil].

Definition luaB_ipairs (generator : TValue) (args : list TValue) : outcome (list TValue) :=
  a <- check_table args 1 ;; Ret [generator; LTable a; lua_pushinteger 0].

Definition luaB_inext (args : list TValue) (σ : tables) : outcome (list TValue) :=
  i <- luaL_checkinteger args 2 ;;
  a <- check_table args 1 ;;
  i <- add_s 32 i 1 ;;
  v <- lua_rawgeti σ a i ;;
  Ret (if ttisnil v then [] else [lua_pushinteger i; v]).

Definition luaB_assert (args : list TValue) : outcome (list TValue) :=
  luaL_checkany args 1 ;;;
  if l_isfalse (value_at args 1) then
    msg <- luaL_optlstring args 2 (chars "assertion failed!") ;;
    luaL_error (c_string msg)
  else Ret args.

Definition luaB_select (args : list TValue) : outcome (list TValue) :=
  let n := lua_gettop args in
  match index2addr args 1 with
  | Some (LString (35 :: _)) => Ret [lua_pushinteger (n - 1)]
  | _ =>
      i <- luaL_checkinteger args 1 ;;
      let i := if i <? 0 then n + i else if n <? i then n else i in
      luaL_argcheck (1 <=? i) 1 "index out of range" ;;;
      Ret (drop (Z.to_nat i) args)
  end.

(** [lua_getmetatable] *)
Definition lua_getmetatable (σ : tables) (o : TValue) : outcome (option Z) :=
  match o with
  | LTable a => t <- table_at σ a ;; Ret (metatable t)
  | LUserdata u => Ret (ud_metatable (objects σ) u)
  | LObject i => Ret (class_instancemetatable (objects σ) (obj_lclass (objects σ) i))
  | _ => Ret (global_mt (objects σ) (ttype o))
  end.

(** The [__metatable] field of a metatable, or the metatable. *)
Definition protected_metatable (σ : tables) (mt : Z) : outcome TValue :=
  m <- table_at σ mt ;; Ret (get m (LString (chars "__metatable"))).

Definition luaB_getmetatable (args : list TValue) (σ : tables) : outcome (list TValue) :=
  luaL_checkany args 1 ;;;
  mt <- lua_getmetatable σ (value_at args 1) ;;
  match mt with
  | None => Ret [lua_pushnil]
  | Some mt =>
      f <- protected_metatable σ mt ;;
      Ret [if ttisnil f then LTable mt else f]
  end.

Definition set_metatable (mt : option Z) (t : LuaTable) : LuaTable :=
  {| tmcache := Table.tmcache t; readonly := readonly t; safeenv := safeenv t;
     lsizenode := lsizenode t; lastfree := lastfree t; metatable := mt; array := array t;
     node := node t |}.

Definition luaB_setmetatable (args : list TValue) (σ : tables) : outcome (list TValue * tables) :=
  a <- check_table args 1 ;;
  mt <- (match index2addr args 2 with
         | Some LNil => Ret None
         | Some (LTable m) => Ret (Some m)
         | _ => tag_error 2 "nil or table"
         end) ;;
  t <- table_at σ a ;;
  m <- has_metafield σ t (chars "__metatable") ;;
  if m : bool then luaL_error "cannot change a protected metatable"
  else
    require negb (readonly t) else_ luaG_readonlyerror in
    Ret ([LTable a], <[a := set_metatable mt t]> σ).
End BaseLib.
