(* ===== verification/FastLib.v ===== *)
(** The fast paths of [VM/src/lbuiltins.cpp] for the math, string and base
    libraries.

    As in [Builtins.v], [params] are the arguments, [nresults] the number of
    results that the call site wants, and [None] is the result [-1]: the real
    call follows.  [Some vs] are the values stored from [res] on.  The SSE4.1
    variants round with [roundsd].  The feature flag [LuauMathRoundNegZero] is the
    parameter [round_neg_zero], and [luaC_needsGC] the parameter [needs_gc]. *)
From stdpp Require Import gmap.
From S2P Require Import Prelude Word Double NumParse LuaApi Builtins Tm Arith CMath Compare MathLib.
From S2P Require Import TabLib Pattern.
Open Scope Z_scope.
Open Scope outcome_scope.

Section FastMath.
Context `{Target, LibM, CPow}.
Variables (nresults : Z) (params : list TValue).

(** One number and at most [k] results. *)
Definition fast_num1 (k : Z) (f : double -> list TValue) : option (list TValue) :=
  match params with
  | LNumber a1 :: _ => if nresults <=? k then Some (f a1) else None
  | _ => None
  end.

Definition fast_num2 (f : double -> double -> list TValue) : option (list TValue) :=
  match params with
  | LNumber a1 :: LNumber a2 :: _ => if nresults <=? 1 then Some (f a1 a2) else None
  | _ => None
  end.

Definition num1 (f : double -> double) := fast_num1 1 (fun a1 => [LNumber (f a1)]).
Definition num2 (f : double -> double -> double) := fast_num2 (fun a1 a2 => [LNumber (f a1 a2)]).

Definition luauF_abs := num1 d_fabs.
Definition luauF_acos := num1 c_acos.
Definition luauF_asin := num1 c_asin.
Definition luauF_atan2 := num2 c_atan2.
Definition luauF_atan := num1 c_atan.
Definition luauF_ceil := num1 d_ceil.
Definition luauF_cosh := num1 c_cosh.
Definition luauF_cos := num1 c_cos.

(** [(3.14159265358979323846 / 180.0)] *)
Definition rpd : double := d_div (literal "3.14159265358979323846") (literal "180.0").

Definition luauF_deg := num1 (fun a1 => d_div a1 rpd).
Definition luauF_exp := num1 c_exp.
Definition luauF_floor := num1 d_floor.
Definition luauF_fmod := num2 d_fmod.

Definition luauF_frexp := fast_num1 2 (fun a1 =>
  let '(f, e) := d_frexp a1 in [LNumber f; LNumber (double_of_Z e)]).

Definition luauF_ldexp := num2 (fun a1 a2 => d_ldexp a1 (luai_num2int a2)).
Definition luauF_log10 := num1 c_log10.

Definition luauF_log : option (list TValue) :=
  match params with
  | LNumber a1 :: rest =>
      if nresults <=? 1 then
        match rest with
        | [] => Some [LNumber (c_log a1)]
        | LNumber a2 :: _ =>
            Some [LNumber (if d_eq a2 (literal "2.0") then c_log2 a1
                           else if d_eq a2 (literal "10.0") then c_log10 a1
                           else d_div (c_log a1) (c_log a2))]
        | _ => None
        end
      else None
  | _ => None
  end.

Definition get_number (v : TValue) : option double :=
  match v with LNumber n => Some n | _ => None end.

(** [min] and [max]: the loop from the third argument on. *)
Definition fast_extremum (pick : double -> double -> double) : option (list TValue) :=
  match params with
  | LNumber a1 :: LNumber a2 :: rest =>
      if nresults <=? 1 then
        match fast_fold get_number pick (pick a1 a2) rest with
        | Some r => Some [LNumber r]
        | None => None
        end
      else None
  | _ => None
  end.

Definition luauF_max := fast_extremum (fun r a => if d_lt r a then a else r).
Definition luauF_min := fast_extremum (fun r a => if d_lt a r then a else r).

Definition luauF_modf := fast_num1 2 (fun a1 =>
  let '(fp, ip) := d_modf a1 in [LNumber ip; LNumber fp]).

Definition luauF_pow := num2 c_pow.
Definition luauF_rad := num1 (fun a1 => d_mul a1 rpd).
Definition luauF_sinh := num1 c_sinh.
Definition luauF_sin := num1 c_sin.
Definition luauF_sqrt := num1 d_sqrt.
Definition luauF_tanh := num1 c_tanh.
Definition luauF_tan := num1 c_tan.

Definition luauF_clamp : option (list TValue) :=
  match params with
  | LNumber v :: LNumber min :: LNumber max :: _ =>
      if nresults <=? 1 then
        if d_le min max then
          let r := if d_lt v min then min else v in
          let r := if d_lt max r then max else r in
          Some [LNumber r]
        else None
      else None
  | _ => None
  end.

Definition luauF_sign := num1 d_sign.
Definition luauF_round := num1 d_round.

Definition luauF_lerp : option (list TValue) :=
  match params with
  | LNumber a :: LNumber b :: LNumber t :: _ =>
      if nresults <=? 1 then Some [LNumber (d_lerp a b t)] else None
  | _ => None
  end.

Definition luauF_isnan := fast_num1 1 (fun x => [LBoolean (d_isnan x)]).
Definition luauF_isinf := fast_num1 1 (fun x => [LBoolean (d_isinf x)]).
Definition luauF_isfinite := fast_num1 1 (fun x => [LBoolean (d_isfinite x)]).

(** * SSE4.1 *)

Inductive rounding := TO_NEG_INF | TO_POS_INF | TO_ZERO.

Definition roundsd_sse41 (mode : rounding) (v : double) : double :=
  match mode with TO_NEG_INF => d_floor v | TO_POS_INF => d_ceil v | TO_ZERO => d_trunc v end.

Definition luauF_floor_sse41 := num1 (roundsd_sse41 TO_NEG_INF).
Definition luauF_ceil_sse41 := num1 (roundsd_sse41 TO_POS_INF).

(** The sign bit of a number; a NaN has none here. *)
Definition sign_bit (d : double) : bool :=
  match d with S754_zero s | S754_infinity s | S754_finite s _ _ => s | S754_nan => false end.

(** [_mm_or_pd] of a positive number and a sign bit *)
Definition or_sign (d : double) (s : bool) : double := if s then d_neg d else d.

Definition offset : double := literal "0.49999999999999994".

Definition round_sse41 (round_neg_zero : bool) (a1 : double) : double :=
  if round_neg_zero then
    let sign := sign_bit a1 in
    let off := or_sign offset sign in
    let sum := d_add a1 off in
    roundsd_sse41 TO_ZERO sum
  else
    roundsd_sse41 TO_ZERO (d_add a1 (if d_lt a1 d_zero then d_neg offset else offset)).
End FastMath.

Definition luauF_round_sse41 (round_neg_zero : bool) (nresults : Z) (params : list TValue) :=
  num1 nresults params (round_sse41 round_neg_zero).

Section FastString.
Context `{Target}.
Variable needs_gc : bool.
Variables (nresults : Z) (params : list TValue).

Definition luauF_byte : option (list TValue) :=
  match params with
  | LString s :: LNumber a2 :: rest =>
      let i := luai_num2int a2 in
      let j := match rest with
               | [] => i
               | LNumber a3 :: _ => luai_num2int a3
               | _ => 0
               end in
      if (1 <=? i) && (i <=? j) && (j <=? s32 (zlen s)) then
        let c := j - i + 1 in
        if c =? (if nresults <? 0 then 1 else nresults)
        then Some (map (fun x => LNumber (double_of_Z (u8 x))) (slice s (i - 1) c))
        else None
      else None
  | _ => None
  end.

(** [int ch = int(nvalue(v)); (unsigned char)(ch) != ch] *)
Definition get_char (v : TValue) : option Z :=
  match v with
  | LNumber n => let c := luai_num2int n in if u8 c =? c then Some c else None
  | _ => None
  end.

Fixpoint get_chars (vs : list TValue) : option (list Z) :=
  match vs with
  | [] => Some []
  | v :: vs =>
      match get_char v with
      | Some c => match get_chars vs with Some l => Some (c :: l) | None => None end
      | None => None
      end
  end.

Definition luauF_char : option (list TValue) :=
  if (Z.of_nat (length params) <? 8) && (nresults <=? 1) then
    if needs_gc then None
    else match get_chars params with
         | Some buffer => Some [LString buffer]
         | None => None
         end
  else None.

Definition luauF_len : option (list TValue) :=
  match params with
  | LString s :: _ =>
      if nresults <=? 1 then Some [LNumber (double_of_Z (s32 (zlen s)))] else None
  | _ => None
  end.

Definition luauF_sub : option (list TValue) :=
  match params with
  | LString s :: LNumber a2 :: LNumber a3 :: _ =>
      if nresults <=? 1 then
        let i := luai_num2int a2 in
        let j := luai_num2int a3 in
        if needs_gc then None
        else if (1 <=? i) && (i <=? j) && (u32 (j - 1) <? u32 (zlen s))
             then Some [LString (slice s (i - 1) (j - i + 1))] else None
      else None
  | _ => None
  end.
End FastString.

Section FastBase.
Context `{VecSize, Target}.
Variable objects : tables -> heap.
Variables (nresults : Z) (params : list TValue).

Definition luauF_assert : option (list TValue) :=
  match params with
  | arg0 :: _ => if (nresults =? 0) && negb (l_isfalse arg0) then Some [] else None
  | [] => None
  end.

Definition fast_any (f : TValue -> list TValue) : option (list TValue) :=
  match params with
  | arg0 :: _ => if nresults <=? 1 then Some (f arg0) else None
  | [] => None
  end.

Definition luauF_type := fast_any (fun arg0 => [LString (ttname arg0)]).

Definition luauF_typeof (σ : tables) :=
  fast_any (fun arg0 => [LString (luaT_objtypenamestr (objects σ) arg0)]).

Definition luauF_rawequal : option (list TValue) :=
  match params with
  | arg0 :: arg1 :: _ =>
      if nresults <=? 1 then Some [LBoolean (luaO_rawequalObj arg0 arg1)] else None
  | _ => None
  end.

Definition luauF_tonumber : option (list TValue) :=
  match params with
  | [arg0] =>
      if nresults <=? 1 then
        Some [match arg0 with
              | LNumber n => LNumber n
              | LString s => match luaO_str2d s with Some num => LNumber num | None => LNil end
              | _ => LNil
              end]
      else None
  | _ => None
  end.

(** [select]: the extra arguments of the running function are not pushed. *)
Definition luauF_select (varargs : list TValue) : outcome (option (list TValue)) :=
  let n := Z.of_nat (length varargs) in
  match params with
  | [arg0] =>
      if nresults =? 1 then
        match arg0 with
        | LNumber a1 =>
            let i := luai_num2int a1 in
            i1 <- sub_s 32 i 1 ;;
            Ret (if u32 i1 <? u32 n then Some [default LNil (varargs !! Z.to_nat i1)] else None)
        | LString (35 :: _) => Ret (Some [LNumber (double_of_Z n)])
        | _ => Ret None
        end
      else Ret None
  | _ => Ret None
  end.

(** [extract] with a constant field, packed by the compiler. *)
Definition luauF_extractk : option (list TValue) :=
  match params with
  | LNumber a1 :: LNumber a2 :: _ =>
      if nresults <=? 1 then
        let n := luai_num2unsigned a1 in
        let fw := luai_num2int a2 in
        let f := Z.land fw 31 in
        let w1 := Z.shiftr fw 5 in
        let m := not_u 32 (shl_u 32 0xfffffffe w1) in
        Some [LNumber (double_of_Z (Z.land (shr_u n f) m))]
      else None
  | _ => None
  end.
End FastBase.
