(* ===== verification/VecLib.v ===== *)
(** The vector library, [VM/src/lveclib.cpp], and its fast paths in
    [VM/src/lbuiltins.cpp], in the builds whose vectors hold floats: three components,
    or four when [vec4]. *)
From S2P Require Import Prelude Word Double NumParse LuaApi Builtins Tm Arith CMath MathLib FastLib.
Open Scope Z_scope.
Open Scope outcome_scope.

(** * lnumutils.h *)

Definition f_lt (a b : float32) : bool := SFltb a b.
Definition f_le (a b : float32) : bool := SFleb a b.
Definition f_eq (a b : float32) : bool := SFeqb a b.
Definition fl_zero : float32 := S754_zero false.
Definition fl_one : float32 := float_of_double d_one.

Definition luai_signf (v : float32) : float32 :=
  if f_lt fl_zero v then fl_one else if f_lt v fl_zero then f_neg fl_one else fl_zero.

Definition luai_clampf (v min max : float32) : float32 :=
  let r := if f_lt v min then min else v in if f_lt max r then max else r.

Definition luai_lerpf (a b t : float32) : float32 :=
  if f_eq t fl_one then b else f_add a (f_mul (f_sub b a) t).

Definition f_abs (v : float32) : float32 := SFabs v.
Definition f_sqrt (v : float32) : float32 := SFsqrt 24 128 v.
Definition f_ceil (f : float32) : float32 := float_of_double (d_ceil (double_of_float f)).

Section VecLib.
Context `{VecSize, LibM}.

(** [setnvalue] of a [float]. *)
Definition push_float (f : float32) : TValue := LNumber (double_of_float f).

(** The sum of products over three or four components. *)
Definition dot_product (a b : list float32) : float32 :=
  let p i := f_mul (vnth a i) (vnth b i) in
  let s := f_add (f_add (p 0%nat) (p 1%nat)) (p 2%nat) in
  if vec4 then f_add s (p 3%nat) else s.

Definition each (f : float32 -> float32) (v : list float32) : TValue :=
  setvvalue (f (vnth v 0)) (f (vnth v 1)) (f (vnth v 2)) (f (vnth v 3)).

Definition each2 (f : float32 -> float32 -> float32) (a b : list float32) : TValue :=
  setvvalue (f (vnth a 0) (vnth b 0)) (f (vnth a 1) (vnth b 1)) (f (vnth a 2) (vnth b 2))
    (f (vnth a 3) (vnth b 3)).

Definition cross_product (a b : list float32) : float32 * float32 * float32 :=
  let p (i j : nat) := f_mul (vnth a i) (vnth b j) in
  (f_sub (p 1 2)%nat (p 2 1)%nat, f_sub (p 2 0)%nat (p 0 2)%nat, f_sub (p 0 1)%nat (p 1 0)%nat).

Definition push_cross (a b : list float32) : TValue :=
  let '(x, y, z) := cross_product a b in setvvalue x y z fl_zero.

Definition normalized (v : list float32) : TValue :=
  let invSqrt := f_div fl_one (f_sqrt (dot_product v v)) in
  each (fun c => f_mul c invSqrt) v.

Definition clamped (v min max : list float32) : TValue :=
  let c i := luai_clampf (vnth v i) (vnth min i) (vnth max i) in
  setvvalue (c 0%nat) (c 1%nat) (c 2%nat) (c 3%nat).

(** The loop body of [min] and [max]: the accumulator has the width of a vector. *)
Definition pick_each (better : float32 -> float32 -> bool) (r b : list float32) : list float32 :=
  let c i := if better (vnth b i) (vnth r i) then vnth b i else vnth r i in
  [c 0%nat; c 1%nat; c 2%nat; c 3%nat].

Definition push_list (r : list float32) : TValue :=
  setvvalue (vnth r 0) (vnth r 1) (vnth r 2) (vnth r 3).

(** * The functions *)

Section Functions.
Variable args : list TValue.

Definition luaL_checkvector (narg : Z) : outcome (list float32) :=
  match index2addr args narg with Some (LVector v) => Ret v | _ => tag_error narg "vector" end.

Definition vector_create : outcome (list TValue) :=
  let count := lua_gettop args in
  x <- luaL_checknumber args 1 ;;
  y <- luaL_checknumber args 2 ;;
  z <- (if 3 <=? count then luaL_checknumber args 3 else Ret d_zero) ;;
  w <- (if vec4 && (4 <=? count) then luaL_checknumber args 4 else Ret d_zero) ;;
  let fl := float_of_double in
  Ret [setvvalue (fl x) (fl y) (fl z) (fl w)].

Definition vec1 (f : list float32 -> TValue) : outcome (list TValue) :=
  v <- luaL_checkvector 1 ;; Ret [f v].

Definition vec2 (f : list float32 -> list float32 -> TValue) : outcome (list TValue) :=
  a <- luaL_checkvector 1 ;; b <- luaL_checkvector 2 ;; Ret [f a b].

Definition vector_magnitude := vec1 (fun v => push_float (f_sqrt (dot_product v v))).
Definition vector_normalize := vec1 normalized.
Definition vector_cross := vec2 push_cross.
Definition vector_dot := vec2 (fun a b => push_float (dot_product a b)).

Definition vector_angle : outcome (list TValue) :=
  a <- luaL_checkvector 1 ;;
  b <- luaL_checkvector 2 ;;
  axis <- luaL_opt args (fun i => v <- luaL_checkvector i ;; Ret (Some v)) 3 None ;;
  let '(x, y, z) := cross_product a b in
  let sum u v w := f_add (f_add u v) w in
  let sinA := double_of_float (f_sqrt (sum (f_mul x x) (f_mul y y) (f_mul z z))) in
  let cosA := double_of_float (sum (f_mul (vnth a 0) (vnth b 0)) (f_mul (vnth a 1) (vnth b 1))
                                   (f_mul (vnth a 2) (vnth b 2))) in
  let angle := c_atan2 sinA cosA in
  let angle :=
    match axis with
    | Some axis =>
        if f_lt (sum (f_mul x (vnth axis 0)) (f_mul y (vnth axis 1)) (f_mul z (vnth axis 2))) fl_zero
        then d_neg angle else angle
    | None => angle
    end in
  Ret [lua_pushnumber angle].

Definition vector_floor := vec1 (each f_floor).
Definition vector_ceil := vec1 (each f_ceil).
Definition vector_abs := vec1 (each f_abs).
Definition vector_sign := vec1 (each luai_signf).

Definition vector_clamp : outcome (list TValue) :=
  v <- luaL_checkvector 1 ;;
  min <- luaL_checkvector 2 ;;
  max <- luaL_checkvector 3 ;;
  let check i msg := luaL_argcheck (f_le (vnth min i) (vnth max i)) 3 msg in
  check 0%nat "max.x must be greater than or equal to min.x" ;;;
  check 1%nat "max.y must be greater than or equal to min.y" ;;;
  check 2%nat "max.z must be greater than or equal to min.z" ;;;
  Ret [clamped v min max].

Definition vector_extremum (better : float32 -> float32 -> bool) : outcome (list TValue) :=
  v <- luaL_checkvector 1 ;;
  r <- fold_args args luaL_checkvector (pick_each better) v 2 ;;
  Ret [push_list r].

Definition vector_min := vector_extremum (fun b r => f_lt b r).
Definition vector_max := vector_extremum (fun b r => f_lt r b).

(** [__index]: the component that a name of one character stands for. *)
Definition vector_index `{NumFormat} : outcome (list TValue) :=
  v <- luaL_checkvector 1 ;;
  name <- luaL_checklstring args 2 ;;
  let fail := luaL_error ("attempt to index vector with '" +:+ c_string name +:+ "'")%string in
  match name with
  | [c] =>
      let ic := Z.lor (cast_s 8 c) 32 - 120 in
      let ic := if vec4 && (ic =? -1) then 3 else ic in
      if u32 ic <? (if vec4 then 4 else 3) then Ret [push_float (vnth v (Z.to_nat ic))] else fail
  | _ => fail
  end.

Definition vector_lerp : outcome (list TValue) :=
  a <- luaL_checkvector 1 ;;
  b <- luaL_checkvector 2 ;;
  t <- luaL_checknumber args 3 ;;
  Ret [each2 (fun x y => luai_lerpf x y (float_of_double t)) a b].
End Functions.

(** * The fast paths *)

Section Fast.
Variables (nresults : Z) (params : list TValue).

Definition luauF_vector : option (list TValue) :=
  match params with
  | LNumber x :: LNumber y :: rest =>
      if nresults <=? 1 then
        let fl := float_of_double in
        match rest with
        | [] => Some [setvvalue (fl x) (fl y) fl_zero fl_zero]
        | LNumber z :: rest =>
            if vec4 then
              match rest with
              | [] => Some [setvvalue (fl x) (fl y) (fl z) fl_zero]
              | LNumber w :: _ => Some [setvvalue (fl x) (fl y) (fl z) (fl w)]
              | _ => None
              end
            else Some [setvvalue (fl x) (fl y) (fl z) fl_zero]
        | _ => None
        end
      else None
  | _ => None
  end.

Definition fast_vec1 (f : list float32 -> TValue) : option (list TValue) :=
  match params with
  | LVector v :: _ => if nresults <=? 1 then Some [f v] else None
  | _ => None
  end.

Definition fast_vec2 (f : list float32 -> list float32 -> TValue) : option (list TValue) :=
  match params with
  | LVector a :: LVector b :: _ => if nresults <=? 1 then Some [f a b] else None
  | _ => None
  end.

Definition luauF_vectormagnitude := fast_vec1 (fun v => push_float (f_sqrt (dot_product v v))).
Definition luauF_vectornormalize := fast_vec1 normalized.
Definition luauF_vectorcross := fast_vec2 push_cross.
Definition luauF_vectordot := fast_vec2 (fun a b => push_float (dot_product a b)).
Definition luauF_vectorfloor := fast_vec1 (each f_floor).
Definition luauF_vectorceil := fast_vec1 (each f_ceil).
Definition luauF_vectorabs := fast_vec1 (each f_abs).
Definition luauF_vectorsign := fast_vec1 (each luai_signf).

Definition luauF_vectorclamp : option (list TValue) :=
  match params with
  | LVector v :: LVector min :: LVector max :: _ =>
      if nresults <=? 1 then
        let le i := f_le (vnth min i) (vnth max i) in
        if le 0%nat && le 1%nat && le 2%nat then Some [clamped v min max] else None
      else None
  | _ => None
  end.

Definition get_vector (v : TValue) : option (list float32) :=
  match v with LVector v => Some v | _ => None end.

Definition fast_vec_extremum (better : float32 -> float32 -> bool) : option (list TValue) :=
  match params with
  | LVector a :: LVector b :: rest =>
      if nresults <=? 1 then
        match fast_fold get_vector (pick_each better) (pick_each better a b) rest with
        | Some r => Some [push_list r]
        | None => None
        end
      else None
  | _ => None
  end.

Definition luauF_vectormin := fast_vec_extremum (fun b r => f_lt b r).
Definition luauF_vectormax := fast_vec_extremum (fun b r => f_lt r b).

Definition luauF_vectorlerp : option (list TValue) :=
  match params with
  | LVector a :: LVector b :: LNumber t :: _ =>
      if nresults <=? 1
      then Some [each2 (fun x y => luai_lerpf x y (float_of_double t)) a b] else None
  | _ => None
  end.
End Fast.
End VecLib.
