(* ===== verification/MathRound.v ===== *)
(** [luauF_round_sse41] of [VM/src/lbuiltins.cpp] computes [round] with the one
    rounding that [roundsd] offers, truncation: it adds the greatest number below
    one half, with the sign of the operand, and drops the fraction.  The sum is
    rounded, and the proof is about that rounding: it never reaches the next
    integer too early, and it does reach it when the fraction is one half. *)
From S2P Require Import Prelude Word Double NumParse LuaApi Arith CMath MathLib.
From S2P Require Import DoubleExact DoubleDiv TabLib FastLib DoubleBits.
Open Scope Z_scope.

Lemma no_multiple_between n U P : 0 < U -> n * U < P * U -> P * U < (n + 1) * U -> False.
Proof. intros HU H1%Z.mul_lt_mono_pos_r H2%Z.mul_lt_mono_pos_r; lia. Qed.

(** * The sum in integers

    [m * 2^-f] and the offset [(2^53 - 1) * 2^-54], both in units of [2^-g]. *)
Section Sum.
Variables m f g t : Z.
Let U := 2 ^ g.
Let X := m * 2 ^ (g - f).
Let S := X + (2 ^ 53 - 1) * 2 ^ (g - 54).
Let n := m / 2 ^ f.
Let M := rne S (2 ^ t).

Hypothesis Hm : 0 < m < 2 ^ 53.
Hypothesis Hf : 1 <= f.
Hypothesis Hg : g = Z.max f 54.
Hypothesis Ht : 0 <= t.
Hypothesis HS : 2 ^ (52 + t) <= S < 2 ^ (53 + t).

Lemma unit_split k : 0 <= k <= g -> U = 2 ^ (g - k) * 2 ^ k.
Proof. intros Hk. unfold U. rewrite <- Z.pow_add_r by lia. f_equal. lia. Qed.

(** The offset: half a unit less one part in [2^54]. *)
Lemma offset_value : 2 * ((2 ^ 53 - 1) * 2 ^ (g - 54)) = U - 2 * 2 ^ (g - 54).
Proof. rewrite (unit_split 54) by lia. lia. Qed.

Lemma mantissa_split :
  X = n * U + m mod 2 ^ f * 2 ^ (g - f) /\ 0 <= m mod 2 ^ f < 2 ^ f /\ 0 <= n.
Proof.
  pose proof (pow2_pos f ltac:(lia)) as Hp.
  pose proof (Z.div_mod m (2 ^ f) ltac:(lia)) as Hd. split_and!.
  - unfold X, n. rewrite Hd at 1. rewrite (unit_split f) by lia. ring.
  - apply Z.mod_pos_bound. lia.
  - apply Z.mod_pos_bound. lia.
  - apply Z.div_pos; lia.
Qed.

Lemma exponent_bound : t <= g.
Proof.
  destruct (Z.le_gt_cases t g) as [|Hgt]; [done|]. exfalso.
  pose proof offset_value as Ho. pose proof (pow2_pos (g - 54) ltac:(lia)).
  pose proof (pow2_pos (g - f) ltac:(lia)).
  assert (U = 2 * 2 ^ (g - 1)) as Hu by (rewrite <- Z.pow_succ_r by lia; unfold U; f_equal; lia).
  assert (2 ^ (g - f) <= 2 ^ (g - 1)) by (apply Z.pow_le_mono_r; lia).
  assert (2 ^ 53 * U <= 2 ^ (52 + t)).
  { unfold U. rewrite <- Z.pow_add_r by lia. apply Z.pow_le_mono_r; lia. }
  unfold S, X in HS. nia.
Qed.

Lemma scaled c : c * U = c * 2 ^ (g - t) * 2 ^ t.
Proof. rewrite (unit_split t) by (pose proof exponent_bound; lia). ring. Qed.

(** The fraction is below one half: the sum stays below the next integer. *)
Lemma sum_below :
  2 * (m mod 2 ^ f) < 2 ^ f -> n * U <= M * 2 ^ t < (n + 1) * U.
Proof.
  intros Hr. pose proof mantissa_split as (HX & Hb & Hn). pose proof offset_value as Ho.
  pose proof exponent_bound as Htg. pose proof (pow2_pos t Ht) as Hpt.
  pose proof (pow2_pos (g - 54) ltac:(lia)) as Hp54. pose proof (pow2_pos (g - f) ltac:(lia)) as Hpf.
  pose proof (pow2_pos (g - t) ltac:(lia)) as Hpgt.
  assert (HU : U = 2 ^ f * 2 ^ (g - f)) by (rewrite (unit_split f) by lia; ring).
  assert (Hf2 : 2 ^ f = 2 * 2 ^ (f - 1)) by (rewrite <- Z.pow_succ_r by lia; f_equal; lia).
  assert (HSu : S <= (n + 1) * U - 2 ^ (g - f) - 2 ^ (g - 54)).
  { assert (2 * (m mod 2 ^ f) <= 2 ^ f - 2) as Hr2 by lia.
    apply (Z.mul_le_mono_nonneg_r _ _ (2 ^ (g - f))) in Hr2; [|lia].
    rewrite Z.mul_sub_distr_r, <- HU in Hr2. unfold S. lia. }
  assert (Hlow : n * 2 ^ (g - t) <= M).
  { apply rne_ge; [done|]. rewrite <- scaled. unfold S.
    assert (0 <= m mod 2 ^ f * 2 ^ (g - f)) by (apply Z.mul_nonneg_nonneg; lia). lia. }
  pose proof (scaled n) as Sn. pose proof (scaled (n + 1)) as Sn1.
  assert (Hup : M <= (n + 1) * 2 ^ (g - t) - 1); [|nia].
  apply rne_le; [done|]. rewrite Z.mul_sub_distr_r, <- Sn1, Z.mul_1_l.
  destruct (Z.le_gt_cases 1 n) as [Hn1|Hn0].
  - (* the sum lies in the binade of [m] *)
    assert (t <= g - f) as Hlt; [|pose proof (Z.pow_le_mono_r 2 t (g - f)); lia].
    destruct (Z.le_gt_cases t (g - f)) as [|Hgt]; [done|exfalso].
    assert (f <= 52).
    { destruct (Z.le_gt_cases f 52); [done|]. pose proof (Z.pow_le_mono_r 2 53 f).
      unfold n in Hn1. pose proof (Z.div_small m (2 ^ f)). lia. }
    assert (HP : 2 ^ (52 + t) = 2 ^ (52 + t - g) * U).
    { unfold U. rewrite <- Z.pow_add_r by lia. f_equal. lia. }
    assert (Hbig : X < 2 ^ (52 + t)).
    { pose proof (Z.pow_le_mono_r 2 (53 + (g - f)) (52 + t)) as Hmono.
      rewrite (Z.pow_add_r 2 53) in Hmono by lia.
      apply (Z.lt_le_trans _ (2 ^ 53 * 2 ^ (g - f))); [|lia].
      apply Z.mul_lt_mono_pos_r; lia. }
    assert (0 <= m mod 2 ^ f * 2 ^ (g - f)) by (apply Z.mul_nonneg_nonneg; lia).
    apply (no_multiple_between n U (2 ^ (52 + t - g))); [apply pow2_pos; lia|lia..].
  - assert (n = 0) as E by lia. rewrite E in HSu |- *. rewrite Z.mul_1_l in *.
    assert (Hsmall : S < U) by lia.
    assert (Ht53 : t <= g - 53).
    { destruct (Z.le_gt_cases t (g - 53)); [done|].
      pose proof (Z.pow_le_mono_r 2 g (52 + t)). unfold U in Hsmall. lia. }
    destruct (Z.le_gt_cases t (g - 54)) as [Hle|Hgt].
    { pose proof (Z.pow_le_mono_r 2 t (g - 54)). lia. }
    assert (Ht' : 2 ^ t = 2 * 2 ^ (g - 54)).
    { rewrite <- Z.pow_succ_r by lia. f_equal. lia. }
    rewrite Ht'. destruct (Z.le_gt_cases f 54).
    + pose proof (Z.pow_le_mono_r 2 (g - 54) (g - f)). lia.
    + assert (X = m) as HXm by (unfold X; replace (g - f) with 0 by lia; apply Z.mul_1_r).
      pose proof (unit_split 54 ltac:(lia)). pose proof (Z.pow_le_mono_r 2 1 (g - 54)).
      unfold S. rewrite HXm. lia.
Qed.

(** The fraction is one half or more: the sum reaches the next integer, and no
    further. *)
Lemma sum_above :
  2 ^ f <= 2 * (m mod 2 ^ f) -> (n + 1) * U <= M * 2 ^ t < (n + 2) * U.
Proof.
  intros Hr. pose proof mantissa_split as (HX & Hb & Hn). pose proof offset_value as Ho.
  pose proof exponent_bound as Htg. pose proof (pow2_pos t Ht) as Hpt.
  pose proof (pow2_pos (g - 54) ltac:(lia)) as Hp54. pose proof (pow2_pos (g - f) ltac:(lia)) as Hpf.
  pose proof (pow2_pos (g - t) ltac:(lia)) as Hpgt.
  assert (HU : U = 2 ^ f * 2 ^ (g - f)) by (rewrite (unit_split f) by lia; ring).
  assert (HR : U <= 2 * (m mod 2 ^ f * 2 ^ (g - f)) < 2 * U).
  { rewrite HU, !Z.mul_assoc. split; [apply Z.mul_le_mono_nonneg_r|apply Z.mul_lt_mono_pos_r]; lia. }
  assert (HSl : (n + 1) * U - 2 ^ (g - 54) <= S) by (unfold S; lia).
  assert (HSu : 2 * S < 2 * ((n + 1) * U) + U) by (unfold S; lia).
  pose proof (scaled (n + 1)) as Sn1. pose proof (scaled (n + 2)) as Sn2. split.
  - assert (Hlow : (n + 1) * 2 ^ (g - t) <= M); [|nia].
    apply rne_up; [done|]. rewrite Z.mul_sub_distr_r, <- Z.mul_assoc, <- Sn1, Z.mul_1_l.
    assert (g - 53 <= t) as Hle.
    { destruct (Z.le_gt_cases (g - 53) t); [done|exfalso].
      pose proof (Z.pow_le_mono_r 2 (53 + t) (g - 1)).
      assert (U = 2 * 2 ^ (g - 1)) by (rewrite <- Z.pow_succ_r by lia; unfold U; f_equal; lia).
      pose proof (Z.pow_lt_mono_r 2 (g - 54) (g - 1)).
      assert (0 <= n * U) by (apply Z.mul_nonneg_nonneg; lia). lia. }
    destruct (Z.le_gt_cases (g - 52) t).
    + left. pose proof (Z.pow_lt_mono_r 2 (g - 53) t).
      assert (2 ^ (g - 53) = 2 * 2 ^ (g - 54)) by (rewrite <- Z.pow_succ_r by lia; f_equal; lia).
      lia.
    + assert (t = g - 53) as Et by lia.
      assert (2 ^ t = 2 * 2 ^ (g - 54)) by (rewrite <- Z.pow_succ_r by lia; f_equal; lia).
      destruct (Z.eq_dec ((n + 1) * U - 2 ^ (g - 54)) S); [right|left; lia].
      split; [lia|]. rewrite Et. replace (g - (g - 53)) with 53 by lia.
      by rewrite Z.even_mul, orb_true_r.
  - destruct (Z.le_gt_cases t (g - 1)) as [Hle|Hgt].
    + assert (Hup : M <= (n + 2) * 2 ^ (g - t) - 1); [|nia].
      apply rne_le; [done|]. rewrite Z.mul_sub_distr_r, <- Sn2, Z.mul_1_l.
      pose proof (Z.pow_le_mono_r 2 t (g - 1)).
      assert (U = 2 * 2 ^ (g - 1)) by (rewrite <- Z.pow_succ_r by lia; unfold U; f_equal; lia).
      lia.
    + assert (t = g) as Et by lia. unfold M. 
      assert (Hup : rne S (2 ^ t) <= n + 1); [|unfold U in *; rewrite Et in *; nia].
      apply rne_down; [done|]. rewrite Et. fold U. lia.
Qed.
End Sum.

(** * Truncation and rounding of scaled mantissas *)

Lemma signed_int_scaled s z m t :
  0 < z < 2 ^ 53 -> 0 <= t -> Zpos m = z * 2 ^ t -> Zpos (digits2_pos m) = 53 ->
  S754_finite s m (- t) = signed_int s z.
Proof.
  intros Hz Ht Hm Hd. rewrite (double_of_Z_unique s z m t) by done. unfold signed_int.
  rewrite (proj2 (Z.eqb_neq z 0)) by lia. by destruct s.
Qed.

Lemma shiftl_opp m t : 0 <= t -> Z.shiftl m (- t) = m / 2 ^ t.
Proof. intros Ht. by rewrite Z.shiftl_opp_r, Z.shiftr_div_pow2. Qed.

Lemma trunc_scaled s m h :
  2 ^ 52 <= Zpos m < 2 ^ 53 -> 0 <= h ->
  d_trunc (S754_finite s m (- h)) = signed_int s (Zpos m / 2 ^ h).
Proof.
  intros Hm Hh. cbn [d_trunc]. rewrite exact_int_scaled, shiftl_opp by done.
  destruct (Z.eqb_spec (Zpos m mod 2 ^ h) 0) as [E|]; [|done].
  pose proof (pow2_pos h Hh) as Hp. pose proof (Z.div_mod (Zpos m) (2 ^ h) ltac:(lia)) as Hd.
  rewrite E, Z.add_0_r, Z.mul_comm in Hd.
  apply signed_int_scaled; [|done|done|by apply digits2_pos_53].
  assert (Zpos m / 2 ^ h <= Zpos m) by (apply Z.div_le_upper_bound; nia). nia.
Qed.

Lemma trunc_mk_float s M h :
  2 ^ 52 <= M <= 2 ^ 53 -> 0 <= h -> M < 2 ^ 53 \/ 1 <= h ->
  d_trunc (mk_float s M (- h)) = signed_int s (M / 2 ^ h).
Proof.
  intros HM Hh Hb. unfold mk_float. destruct (Z.eqb_spec M (2 ^ 53)) as [->|].
  - replace (- h + 1) with (- (h - 1)) by lia. rewrite trunc_scaled by lia. f_equal.
    replace (2 ^ h) with (2 * 2 ^ (h - 1)) by (rewrite <- Z.pow_succ_r by lia; f_equal; lia).
    change (2 ^ 53) with (2 * 2 ^ 52). by rewrite Z.div_mul_cancel_l by (try apply Z.pow_nonzero; lia).
  - rewrite trunc_scaled by lia. by rewrite Z2Pos.id by lia.
Qed.

(** The nearest integer of [m * 2^-f]. *)
Definition nearest (m f : Z) : Z :=
  m / 2 ^ f + (if 2 ^ f <=? 2 * (m mod 2 ^ f) then 1 else 0).

Lemma nearest_div m f : 1 <= f -> (m + 2 ^ (f - 1)) / 2 ^ f = nearest m f.
Proof.
  intros Hf. unfold nearest. pose proof (pow2_pos f ltac:(lia)) as Hp.
  assert (2 ^ f = 2 * 2 ^ (f - 1)) as H2 by (rewrite <- Z.pow_succ_r by lia; f_equal; lia).
  pose proof (Z.div_mod m (2 ^ f) ltac:(lia)). pose proof (Z.mod_pos_bound m (2 ^ f) Hp).
  symmetry. destruct (Z.leb_spec (2 ^ f) (2 * (m mod 2 ^ f))).
  - apply (Z.div_unique _ _ _ (m mod 2 ^ f - 2 ^ (f - 1))); lia.
  - apply (Z.div_unique _ _ _ (m mod 2 ^ f + 2 ^ (f - 1))); lia.
Qed.

Lemma round_scaled s m f :
  valid_double (S754_finite s m (- f)) = true -> 1 <= f ->
  d_round (S754_finite s m (- f)) = signed_int s (nearest (Zpos m) f).
Proof.
  intros Hv Hf. apply valid_finite_inv in Hv as (Hm & Hn & He). cbn [d_round].
  rewrite exact_int_scaled by lia. pose proof (pow2_pos f ltac:(lia)) as Hp.
  destruct (Z.eqb_spec (Zpos m mod 2 ^ f) 0) as [E|].
  - pose proof (Z.div_mod (Zpos m) (2 ^ f) ltac:(lia)) as Hd. unfold nearest.
    rewrite E in *. rewrite (proj2 (Z.leb_gt _ _)) by lia. rewrite Z.add_0_r in *.
    assert (f <= 52).
    { destruct (Z.le_gt_cases f 52); [done|]. pose proof (Z.pow_le_mono_r 2 53 f).
      rewrite (Z.div_small (Zpos m)) in Hd by lia. lia. }
    apply signed_int_scaled; [|lia|lia|apply digits2_pos_53; lia].
    assert (Zpos m / 2 ^ f <= Zpos m) by (apply Z.div_le_upper_bound; nia). nia.
  - f_equal. rewrite shiftl_opp by lia.
    rewrite Z.shiftl_1_l, <- nearest_div by lia. do 3 f_equal. lia.
Qed.

(** * The sum in numbers *)

Lemma offset_eq : offset = S754_finite false (2 ^ 53 - 1) (-54).
Proof. vm_compute. reflexivity. Qed.

Lemma shl_align_value m e ez : ez <= e -> Zpos (fst (shl_align m e ez)) = Zpos m * 2 ^ (e - ez).
Proof.
  intros He. unfold shl_align. destruct (ez - e) as [|d|d] eqn:E; cbn [fst]; [|lia|].
  - replace (e - ez) with 0 by lia. lia.
  - rewrite Pos_iter_xO. by replace (e - ez) with (Zpos d) by lia.
Qed.

(** Numbers of one sign are added as mantissas. *)
Lemma add_same_sign s m e m' e' p :
  let ez := Z.min e e' in
  Zpos p = Zpos m * 2 ^ (e - ez) + Zpos m' * 2 ^ (e' - ez) ->
  d_add (S754_finite s m e) (S754_finite s m' e') = binary_round 53 1024 s p ez.
Proof.
  intros ez Hp. unfold d_add, SFadd. fold ez.
  rewrite !shl_align_value by (subst ez; lia).
  unfold cond_Zopp, binary_normalize. destruct s.
  - by replace (_ + _) with (Zneg p) by lia.
  - by replace (_ + _) with (Zpos p) by lia.
Qed.

(** The sum of a number and the offset, as a mantissa rounded at bit [t]. *)
Lemma offset_sum s m e :
  let g := Z.max (- e) 54 in
  let S := Zpos m * 2 ^ (e + g) + (2 ^ 53 - 1) * 2 ^ (g - 54) in
  valid_double (S754_finite s m e) = true ->
  exists t, 0 <= t /\ 2 ^ (52 + t) <= S < 2 ^ (53 + t) /\
    (t - g <= 970 \/ t - g <= 971 /\ rne S (2 ^ t) < 2 ^ 53 ->
     2 ^ 52 <= rne S (2 ^ t) <= 2 ^ 53 /\
     d_add (S754_finite s m e) (or_sign offset s) = mk_float s (rne S (2 ^ t)) (t - g)).
Proof.
  intros g S Hv. apply valid_finite_inv in Hv as (Hm & _ & He).
  pose proof (pow2_pos (e + g) ltac:(lia)). pose proof (pow2_pos (g - 54) ltac:(lia)).
  assert (HS : 2 ^ 52 <= S) by (subst S; nia).
  destruct S as [|p|p] eqn:ES; try lia. pose proof (digits2_pos_bounds p) as Hb.
  assert (Hd : 53 <= Zpos (digits2_pos p)).
  { destruct (Z.le_gt_cases 53 (Zpos (digits2_pos p))); [done|].
    pose proof (Z.pow_le_mono_r 2 (Zpos (digits2_pos p)) 52). lia. }
  exists (Zpos (digits2_pos p) - 53). split; [lia|].
  replace (52 + (Zpos (digits2_pos p) - 53)) with (Zpos (digits2_pos p) - 1) by lia.
  replace (53 + (Zpos (digits2_pos p) - 53)) with (Zpos (digits2_pos p)) by lia.
  split; [done|]. intros Ht. set (t := Zpos (digits2_pos p) - 53) in *.
  destruct (binary_round_mk s p (- g) t) as [HM Hr]; [|lia..|].
  - replace (52 + t) with (Zpos (digits2_pos p) - 1) by lia.
    by replace (53 + t) with (Zpos (digits2_pos p)) by lia.
  - split; [done|]. replace (t - g) with (- g + t) by lia. rewrite <- Hr.
    assert (or_sign offset s = S754_finite s (2 ^ 53 - 1) (-54)) as ->
      by (rewrite offset_eq; by destruct s).
    rewrite (add_same_sign s m e _ _ p).
    + f_equal. lia.
    + rewrite <- ES. subst S. f_equal; f_equal; f_equal; lia.
Qed.

Lemma sum_small s m f :
  valid_double (S754_finite s m (- f)) = true -> 1 <= f ->
  d_trunc (d_add (S754_finite s m (- f)) (or_sign offset s)) = signed_int s (nearest (Zpos m) f).
Proof.
  intros Hv Hf. destruct (offset_sum s m (- f) Hv) as (t & Ht & HS & Hsum).
  apply valid_finite_inv in Hv as (Hm & Hn & He). rewrite Z.opp_involutive in *.
  replace (- f + Z.max f 54) with (Z.max f 54 - f) in * by lia.
  remember (Z.max f 54) as g eqn:Hg. pose proof (exponent_bound (Zpos m) f g t) as Hb.
  specialize (Hb ltac:(lia) Hf Hg Ht HS). destruct Hsum as [HM ->]; [lia|].
  pose proof (sum_below (Zpos m) f g t ltac:(lia) Hf Hg Ht HS) as Hbelow.
  pose proof (sum_above (Zpos m) f g t ltac:(lia) Hf Hg Ht HS) as Habove.
  set (M := rne _ _) in *. replace (t - g) with (- (g - t)) by lia.
  pose proof (pow2_pos t Ht) as Hpt. pose proof (pow2_pos (g - t) ltac:(lia)) as Hpg.
  assert (HU : 2 ^ g = 2 ^ (g - t) * 2 ^ t) by (rewrite <- Z.pow_add_r by lia; f_equal; lia).
  assert (Hq : M / 2 ^ (g - t) = nearest (Zpos m) f).
  { symmetry. apply Z.le_antisymm; [apply Z.div_le_lower_bound; [done|]|apply Z.lt_succ_r, Z.div_lt_upper_bound; [done|]].
    all: unfold nearest; destruct (Z.leb_spec (2 ^ f) (2 * (Zpos m mod 2 ^ f))) as [Hr|Hr].
    all: first [specialize (Habove Hr) | specialize (Hbelow Hr)].
    all: apply (Z.mul_le_mono_pos_r _ _ (2 ^ t)) || apply (Z.mul_lt_mono_pos_r (2 ^ t)); [done|].
    all: rewrite HU in *; lia. }
  rewrite trunc_mk_float; [by rewrite Hq|done|lia|].
  destruct (Z.eq_dec t g) as [Et|]; [left|right; lia].
  rewrite Et, Z.sub_diag, Z.div_1_r in Hq. rewrite Hq. unfold nearest.
  assert (Zpos m / 2 ^ f < 2 ^ 52); [|case_match; lia].
  apply Z.div_lt_upper_bound; [lia|]. pose proof (Z.pow_le_mono_r 2 1 f). lia.
Qed.

(** A number of [2^52] or more is an integer, and the sum rounds back to it. *)
Lemma exact_int_nonneg m e : 0 <= e -> exact_int m e = true.
Proof.
  intros He. unfold exact_int. apply Z.eqb_eq. rewrite (Z.shiftl_mul_pow2 (Zpos m) e) by done.
  by apply shiftl_neg_exact.
Qed.

Lemma sum_large s m e :
  valid_double (S754_finite s m e) = true -> 0 <= e ->
  d_add (S754_finite s m e) (or_sign offset s) = S754_finite s m e.
Proof.
  intros Hv He. destruct (offset_sum s m e Hv) as (t & Ht & HS & Hsum).
  apply valid_finite_inv in Hv as (Hm & Hn & He').
  replace (Z.max (- e) 54) with 54 in * by lia. specialize (Hn ltac:(lia)).
  pose proof (pow2_pos (e + 54) ltac:(lia)) as Hp.
  assert (Hp54 : 2 ^ 54 <= 2 ^ (e + 54)) by (apply Z.pow_le_mono_r; lia).
  set (S := Zpos m * 2 ^ (e + 54) + (2 ^ 53 - 1) * 2 ^ (54 - 54)) in *.
  assert (Hlo : 2 ^ (52 + (e + 54)) <= S < 2 ^ (53 + (e + 54))).
  { rewrite !Z.pow_add_r by lia. rewrite <- Z.pow_add_r by lia. subst S. nia. }
  assert (t = e + 54) as ->.
  { destruct (Z.lt_trichotomy t (e + 54)) as [Hl|[|Hl]]; [|done|].
    - pose proof (Z.pow_le_mono_r 2 (53 + t) (52 + (e + 54))). lia.
    - pose proof (Z.pow_le_mono_r 2 (53 + (e + 54)) (52 + t)). lia. }
  assert (Hr : rne S (2 ^ (e + 54)) = Zpos m).
  { apply Z.le_antisymm; [apply rne_down|apply rne_ge]; subst S; lia. }
  rewrite Hr in Hsum. destruct Hsum as [_ ->]; [right; lia|]. unfold mk_float.
  rewrite (proj2 (Z.eqb_neq _ _)) by lia. f_equal; lia.
Qed.

(** * The fast path computes [round] *)

Lemma trunc_sum s m e :
  valid_double (S754_finite s m e) = true ->
  d_trunc (d_add (S754_finite s m e) (or_sign offset s)) = d_round (S754_finite s m e).
Proof.
  intros Hv. destruct (Z.le_gt_cases 0 e) as [He|He].
  - rewrite sum_large by done. cbn [d_trunc d_round]. by rewrite exact_int_nonneg.
  - replace e with (- (- e)) in * by lia. set (f := - e) in *.
    rewrite round_scaled, sum_small by (done || lia). done.
Qed.

Lemma round_sse41_sign a1 : valid_double a1 = true -> round_sse41 true a1 = d_round a1.
Proof.
  intros Hv. destruct a1 as [s|s| |s m e]; unfold round_sse41; cbn [sign_bit roundsd_sse41].
  - destruct s; vm_compute; reflexivity.
  - by destruct s.
  - done.
  - by apply trunc_sum.
Qed.

Lemma round_sse41_compare a1 :
  valid_double a1 = true -> a1 <> S754_zero true -> round_sse41 false a1 = d_round a1.
Proof.
  intros Hv Hz. destruct a1 as [s|s| |s m e]; unfold round_sse41; cbn [roundsd_sse41].
  - destruct s; [done|]. vm_compute. reflexivity.
  - by destruct s.
  - done.
  - rewrite <- trunc_sum by done. by destruct s.
Qed.

(** C34. [luauF_round_sse41] and the portable [luauF_round] store the same number,
    for every argument: truncation after adding the predecessor of one half, with
    the rounding of that sum, is rounding to nearest with half-way cases away from
    zero.  Without [LuauMathRoundNegZero] there is one exception, a negative zero,
    which becomes positive. *)
Theorem round_sse41_exact `{Target, LibM, CPow} round_neg_zero nresults params :
  Forall wf_value params ->
  luauF_round_sse41 round_neg_zero nresults params =
  match params with
  | LNumber (S754_zero true) :: _ =>
      if (nresults <=? 1) && negb round_neg_zero then Some [LNumber (S754_zero false)]
      else luauF_round nresults params
  | _ => luauF_round nresults params
  end.
Proof.
  intros Hw. unfold luauF_round_sse41, luauF_round, num1, fast_num1.
  destruct params as [|[] params]; try done. inversion Hw as [|?? Hv _]; subst.
  destruct (nresults <=? 1); cbn [andb]; [|by destruct n as [[]| | |]].
  destruct round_neg_zero; cbn [negb].
  - rewrite round_sse41_sign by done. by destruct n as [[]| | |].
  - destruct (decide (n = S754_zero true)) as [->|Hn]; [vm_compute; reflexivity|].
    rewrite round_sse41_compare by done. by destruct n as [[]| | |].
Qed.

#[local] Instance sample_libm : LibM :=
  {| c_acos := id; c_asin := id; c_atan := id; c_atan2 := fun x _ => x; c_cos := id;
     c_cosh := id; c_exp := id; c_log := id; c_log2 := id; c_log10 := id; c_sin := id;
     c_sinh := id; c_tan := id; c_tanh := id; frexp_special := fun _ => 0 |}.
#[local] Instance sample_pow : CPow := fun x _ => x.

Lemma round_sse41_exact_witness :
  luauF_round_sse41 true 1 [LNumber (literal "0.49999999999999994")] = Some [LNumber (S754_zero false)]
  /\ luauF_round_sse41 true 1 [LNumber (literal "-2.5")] = Some [LNumber (literal "-3")]
  /\ luauF_round_sse41 false 1 [LNumber (S754_zero true)] = Some [LNumber (S754_zero false)].
Proof.
  rewrite !round_sse41_exact by (repeat constructor). vm_compute. auto.
Defined.
