(* ===== verification/FastLibProps.v ===== *)
(** The fast paths of the math, string, vector and base libraries do what the calls that
    they replace do. *)
From stdpp Require Import gmap.
From S2P Require Import Prelude Word Double NumParse LuaApi BitLib Builtins Tm Arith CMath Compare.
From S2P Require Import MathLib MathRound TabLib BaseLib Pattern PatternSpec PatternMatch PatternSafe StrLib StrSpec StrSafe StrOps FastLib VecLib.
Open Scope Z_scope.
Open Scope outcome_scope.

Definition fast_list := Z -> list TValue -> option (list TValue).
Definition library := list TValue -> outcome (list TValue).

(** [LOP_FASTCALL], for a fast path with any number of results. *)
Definition op_fastcall_list (safeenv : bool) (fast : fast_list) (lib : library)
    (nresults : Z) (params : list TValue) : outcome (list TValue) :=
  if safeenv then
    match fast nresults params with
    | Some vs => Ret (adjust_results nresults vs)
    | None => op_call lib nresults params
    end
  else op_call lib nresults params.

(** The frame of a call: well-formed values, strings below the limit of the VM, room for the
    results. *)
Definition wf_frame (nresults : Z) (params : list TValue) : Prop :=
  Forall wf_value params /\ (forall s, LString s ∈ params -> zlen s <= MAXSSIZE) /\
  lua_gettop params + Z.max 1 nresults <= LUAI_MAXCSTACK.

Definition agrees (fast : fast_list) (lib : library) : Prop :=
  forall nresults params vs, wf_frame nresults params -> fast nresults params = Some vs ->
    lib params = Ret vs.

(** * Math *)

Section Math.
Context `{Target, LibM, CPow}.

Lemma fast_num1_agrees k f lib :
  (forall a rest, lib (LNumber a :: rest) = Ret (f a)) ->
  agrees (fun n p => fast_num1 n p k f) lib.
Proof.
  intros Hl n p vs _ Hv. unfold fast_num1 in Hv. destruct p as [|[] p]; try done.
  destruct (n <=? k); [|done]. injection Hv as <-. apply Hl.
Qed.

Lemma fast_num2_agrees f lib :
  (forall a b rest, lib (LNumber a :: LNumber b :: rest) = Ret (f a b)) ->
  agrees (fun n p => fast_num2 n p f) lib.
Proof.
  intros Hl n p vs _ Hv. unfold fast_num2 in Hv. destruct p as [|[] [|[] p]]; try done.
  destruct (n <=? 1); [|done]. injection Hv as <-. apply Hl.
Qed.

Lemma get_number_check args i v a :
  args !! i = Some v -> get_number v = Some a ->
  luaL_checknumber args (Z.of_nat i + 1) = Ret a.
Proof.
  intros Hi%index_lookup Hv. destruct v; try done. injection Hv as <-.
  unfold luaL_checknumber, lua_tonumberx. by rewrite Hi.
Qed.

Lemma fast_extremum_agrees pick lib :
  (forall args, lib args =
     (a <- luaL_checknumber args 1 ;;
      r <- fold_args args (luaL_checknumber args) pick a 2 ;; Ret [LNumber r])) ->
  agrees (fun n p => fast_extremum n p pick) lib.
Proof.
  intros Hl n p vs _ Hv. unfold fast_extremum in Hv. destruct p as [|[] [|[] p]]; try done.
  destruct (n <=? 1); [|done]. destruct (fast_fold _ _ _ p) as [r|] eqn:Hr; [|done].
  injection Hv as <-. rewrite Hl. cbn [luaL_checknumber lua_tonumberx index2addr outcome_bind].
  change (luaL_checknumber (LNumber n0 :: LNumber n1 :: p) 1) with (Ret n0). cbn [outcome_bind].
  by rewrite (fold_args_fast get_number _ pick _ (LNumber n1 :: p) 1 _ r); [|done|simpl; lia|apply get_number_check|].
Qed.

Ltac fast_number :=
  first [apply fast_num1_agrees | apply fast_num2_agrees | apply fast_extremum_agrees];
  intros; first [reflexivity | unfold math_frexp, math_modf; read_args; by case_match].

Lemma math_log_agrees : agrees luauF_log math_log.
Proof.
  intros n p vs _ Hv. unfold luauF_log in Hv. destruct p as [|[] p]; try done.
  destruct (n <=? 1); [|done]. destruct p as [|[] p]; try done; injection Hv as <-; done.
Qed.

Lemma math_clamp_agrees : agrees luauF_clamp math_clamp.
Proof.
  intros n p vs _ Hv. unfold luauF_clamp in Hv. destruct p as [|[] [|[] [|[] p]]]; try done.
  destruct (n <=? 1); [|done]. unfold math_clamp. read_args.
  destruct (d_le _ _); [by injection Hv as <-|done].
Qed.

Lemma math_lerp_agrees : agrees luauF_lerp math_lerp.
Proof.
  intros n p vs _ Hv. unfold luauF_lerp in Hv. destruct p as [|[] [|[] [|[] p]]]; try done.
  destruct (n <=? 1); [|done]. by injection Hv as <-.
Qed.

Definition math_fast : list (string * fast_list * library) :=
  [("LBF_MATH_ABS"%string, luauF_abs, math_abs);
   ("LBF_MATH_ACOS"%string, luauF_acos, math_acos);
   ("LBF_MATH_ASIN"%string, luauF_asin, math_asin);
   ("LBF_MATH_ATAN2"%string, luauF_atan2, math_atan2);
   ("LBF_MATH_ATAN"%string, luauF_atan, math_atan);
   ("LBF_MATH_CEIL"%string, luauF_ceil, math_ceil);
   ("LBF_MATH_CEIL"%string, luauF_ceil_sse41, math_ceil);
   ("LBF_MATH_COSH"%string, luauF_cosh, math_cosh);
   ("LBF_MATH_COS"%string, luauF_cos, math_cos);
   ("LBF_MATH_DEG"%string, luauF_deg, math_deg);
   ("LBF_MATH_EXP"%string, luauF_exp, math_exp);
   ("LBF_MATH_FLOOR"%string, luauF_floor, math_floor);
   ("LBF_MATH_FLOOR"%string, luauF_floor_sse41, math_floor);
   ("LBF_MATH_FMOD"%string, luauF_fmod, math_fmod);
   ("LBF_MATH_FREXP"%string, luauF_frexp, math_frexp);
   ("LBF_MATH_LDEXP"%string, luauF_ldexp, math_ldexp);
   ("LBF_MATH_LOG10"%string, luauF_log10, math_log10);
   ("LBF_MATH_MAX"%string, luauF_max, math_max);
   ("LBF_MATH_MIN"%string, luauF_min, math_min);
   ("LBF_MATH_MODF"%string, luauF_modf, math_modf);
   ("LBF_MATH_POW"%string, luauF_pow, math_pow);
   ("LBF_MATH_RAD"%string, luauF_rad, math_rad);
   ("LBF_MATH_SINH"%string, luauF_sinh, math_sinh);
   ("LBF_MATH_SIN"%string, luauF_sin, math_sin);
   ("LBF_MATH_SQRT"%string, luauF_sqrt, math_sqrt);
   ("LBF_MATH_TANH"%string, luauF_tanh, math_tanh);
   ("LBF_MATH_TAN"%string, luauF_tan, math_tan);
   ("LBF_MATH_SIGN"%string, luauF_sign, math_sign);
   ("LBF_MATH_ROUND"%string, luauF_round, math_round);
   ("LBF_MATH_ISNAN"%string, luauF_isnan, math_isnan);
   ("LBF_MATH_ISINF"%string, luauF_isinf, math_isinf);
   ("LBF_MATH_ISFINITE"%string, luauF_isfinite, math_isfinite);
   ("LBF_MATH_LOG"%string, luauF_log, math_log);
   ("LBF_MATH_CLAMP"%string, luauF_clamp, math_clamp);
   ("LBF_MATH_LERP"%string, luauF_lerp, math_lerp)].

Lemma math_fast_agrees : Forall (fun '(_, fast, lib) => agrees fast lib) math_fast.
Proof.
  unfold math_fast. repeat (constructor; [first [fast_number | apply math_log_agrees
  | apply math_clamp_agrees | apply math_lerp_agrees]|]).
  constructor.
Qed.
End Math.

(** * Strings *)

Section Strings.
Context `{VecSize, Target, NumFormat}.

Lemma frame_string n s p : wf_frame n (LString s :: p) -> 0 <= zlen s <= MAXSSIZE.
Proof. intros (_ & Hs & _). split; [apply zlen_nonneg|]. apply Hs. by left. Qed.

Lemma small_s32 s n p : wf_frame n (LString s :: p) -> s32 (zlen s) = zlen s.
Proof. intros Hf%frame_string. apply cast_s_id; [lia|]. unfold in_s, MAXSSIZE in *. lia. Qed.

Lemma luauF_len_agrees : agrees luauF_len str_len.
Proof.
  intros n p vs Hf Hv. unfold luauF_len in Hv. destruct p as [|[] p]; try done.
  destruct (n <=? 1); [|done]. injection Hv as <-. by rewrite (small_s32 _ _ _ Hf).
Qed.

Lemma posrelat_pos i l : 0 <= i -> posrelat i l = i.
Proof.
  intros Hi. unfold posrelat. rewrite (proj2 (Z.ltb_ge i 0)) by lia.
  by rewrite (proj2 (Z.leb_le 0 i)).
Qed.

Lemma luauF_sub_agrees gc : agrees (luauF_sub gc) str_sub.
Proof.
  intros n p vs Hf Hv. unfold luauF_sub in Hv. destruct p as [|[] [|[] [|[] p]]]; try done.
  destruct (n <=? 1); [|done]. destruct gc; [done|].
  destruct (_ && _) eqn:E in Hv; [|done]. injection Hv as <-. bool_simpl.
  apply frame_string in Hf. unfold MAXSSIZE in Hf.
  pose proof (luai_num2int_range n1) as Hr. set (i := luai_num2int n0) in *.
  set (j := luai_num2int n1) in *. unfold in_s in Hr.
  assert (Hj : j <= zlen s).
  { rewrite !cast_u_id in * by (unfold in_u; lia). lia. }
  rewrite (str_sub_spec _ s i j) by done. rewrite !posrelat_pos by lia. unfold substring.
  by rewrite !Z.max_r, Z.min_r by lia.
Qed.

Lemma luauF_byte_agrees : agrees luauF_byte str_byte.
Proof.
  intros n p vs Hf Hv. pose proof (proj1 Hf) as Hw. unfold luauF_byte in Hv. destruct p as [|[] [|[] rest]]; try done.
  set (i := luai_num2int n0) in *. set (p := LString s :: LNumber n0 :: rest) in *.
  set (j := match rest with [] => i | _ => _ end) in *.
  assert (Hj : luaL_optinteger p 3 i = Ret j \/ j = 0).
  { subst p j. destruct rest as [|[] rest]; auto. }
  rewrite (small_s32 _ _ _ Hf) in Hv. pose proof (frame_string _ _ _ Hf) as Hs.
  destruct (_ && _) eqn:E in Hv; [|done]. bool_simpl. destruct Hj as [Hj|]; [|lia].
  destruct (_ =? _) eqn:Hc in Hv; [|done]. injection Hv as <-. apply Z.eqb_eq in Hc.
  unfold str_byte. change (luaL_checklstring p 1) with (Ret s). cbn [outcome_bind].
  change (luaL_optinteger p 2 1) with (Ret i). cbn [outcome_bind].
  rewrite (posrelat_pos i) by lia. rewrite Hj. cbn [outcome_bind]. rewrite posrelat_pos by lia.
  rewrite (proj2 (Z.leb_gt i 0)), (proj2 (Z.ltb_ge (zlen s) j)), (proj2 (Z.ltb_ge j i)) by lia.
  rewrite (proj2 (Z.leb_gt _ j)) by lia. destruct Hf as (_ & _ & Htop).
  unfold luaL_checkstack, lua_checkstack.
  assert (Hn : j - i + 1 <= Z.max 1 n) by (rewrite Hc; case_match; lia).
  pose proof (Zle_0_nat (length p)) as Hl. unfold lua_gettop in *.
  rewrite (proj2 (Z.ltb_ge LUAI_MAXCSTACK _)), (proj2 (Z.ltb_ge LUAI_MAXCSTACK (_ + _))) by lia.
  cbn [orb negb outcome_bind]. rewrite bytes_in by lia. cbn [outcome_bind]. f_equal.
  inversion Hw as [|?? Hb _]; subst. apply map_ext_in. intros x Hx.
  rewrite cast_u_id; [done|]. cbn in Hb. rewrite Forall_forall in Hb. apply Hb.
  apply list_elem_of_In in Hx. unfold slice in Hx. apply elem_of_take in Hx as (k & Hx & _).
  rewrite lookup_drop in Hx. by apply list_elem_of_lookup_2 in Hx.
Qed.

Lemma get_chars_loop args vs l i :
  drop (Z.to_nat (i - 1)) args = vs -> 1 <= i -> get_chars vs = Some l ->
  char_loop args (length vs) i = Ret l.
Proof.
  revert l i. induction vs as [|v vs IH]; intros l i Hd Hi Hl; cbn in Hl.
  { by injection Hl as <-. }
  destruct (get_char v) as [c|] eqn:Hc; [|done].
  destruct (get_chars vs) as [l'|] eqn:Hl'; [|done]. injection Hl as <-.
  assert (Hv : args !! Z.to_nat (i - 1) = Some v).
  { rewrite <- (Nat.add_0_r (Z.to_nat _)), <- lookup_drop, Hd. done. }
  unfold get_char in Hc. destruct v; try done. cbv zeta in Hc.
  destruct (u8 (luai_num2int n) =? luai_num2int n) eqn:E; [|done]. injection Hc as <-.
  cbn [length char_loop]. unfold luaL_checkinteger, lua_tointegerx, lua_tonumberx, index2addr.
  rewrite Hv. cbn [luaV_tonumber outcome_bind]. rewrite E. cbn [luaL_argcheck outcome_bind].
  rewrite (IH l' (i + 1)); [| |lia|done].
  - cbn [outcome_bind]. apply Z.eqb_eq in E. by rewrite E.
  - replace (Z.to_nat (i + 1 - 1)) with (S (Z.to_nat (i - 1))) by lia.
    by rewrite <- Nat.add_1_r, <- drop_drop, Hd.
Qed.

Lemma luauF_char_agrees gc : agrees (luauF_char gc) str_char.
Proof.
  intros n p vs _ Hv. unfold luauF_char in Hv. destruct (_ && _); [|done]. destruct gc; [done|].
  destruct (get_chars p) as [l|] eqn:Hl; [|done]. injection Hv as <-.
  unfold str_char. by rewrite (get_chars_loop p p l 1).
Qed.
End Strings.

(** * Vectors *)

Section Vectors.
Context `{VecSize, Target, LibM}.

Lemma fast_vec1_agrees f : agrees (fun n p => fast_vec1 n p f) (fun p => vec1 p f).
Proof.
  intros n p vs _ Hv. unfold fast_vec1 in Hv. destruct p as [|[] p]; try done.
  destruct (n <=? 1); [|done]. by injection Hv as <-.
Qed.

Lemma fast_vec2_agrees f : agrees (fun n p => fast_vec2 n p f) (fun p => vec2 p f).
Proof.
  intros n p vs _ Hv. unfold fast_vec2 in Hv. destruct p as [|[] [|[] p]]; try done.
  destruct (n <=? 1); [|done]. by injection Hv as <-.
Qed.

Lemma get_vector_check args i v a :
  args !! i = Some v -> get_vector v = Some a ->
  luaL_checkvector args (Z.of_nat i + 1) = Ret a.
Proof.
  intros Hi%index_lookup Hv. destruct v; try done. injection Hv as <-.
  unfold luaL_checkvector. by rewrite Hi.
Qed.

Lemma vector_extremum_agrees better :
  agrees (fun n p => fast_vec_extremum n p better) (fun p => vector_extremum p better).
Proof.
  intros n p vs _ Hv. unfold fast_vec_extremum in Hv. destruct p as [|[] [|[] p]]; try done.
  destruct (n <=? 1); [|done]. destruct (fast_fold _ _ _ p) as [r|] eqn:Hr; [|done].
  injection Hv as <-. unfold vector_extremum.
  change (luaL_checkvector (LVector v :: LVector v0 :: p) 1) with (Ret v). cbn [outcome_bind].
  by rewrite (fold_args_fast get_vector _ (pick_each better) _ (LVector v0 :: p) 1 _ r);
    [|done|simpl; lia|apply get_vector_check|].
Qed.

Lemma luauF_vector_agrees : agrees luauF_vector vector_create.
Proof.
  intros n p vs _ Hv. unfold luauF_vector in Hv.
  destruct p as [|[] [|[] [|[] [|[] p]]]]; try done; destruct (n <=? 1); try done;
    unfold vector_create, lua_gettop, setvvalue in *; cbn [length] in *; destruct vec4; try done;
    injection Hv as <-; rewrite ?Nat2Z.inj_succ; try done;
    repeat (rewrite (proj2 (Z.leb_le _ _)) by lia); done.
Qed.

Lemma luauF_vectorclamp_agrees : agrees luauF_vectorclamp vector_clamp.
Proof.
  intros n p vs _ Hv. unfold luauF_vectorclamp in Hv. destruct p as [|[] [|[] [|[] p]]]; try done.
  destruct (n <=? 1); [|done]. cbv zeta in Hv. destruct (_ && _) eqn:E; [|done]. bool_simpl.
  injection Hv as <-. unfold vector_clamp. cbn [luaL_checkvector index2addr outcome_bind].
  change (luaL_checkvector (LVector v :: LVector v0 :: LVector v1 :: p) 1) with (Ret v).
  change (luaL_checkvector (LVector v :: LVector v0 :: LVector v1 :: p) 2) with (Ret v0).
  change (luaL_checkvector (LVector v :: LVector v0 :: LVector v1 :: p) 3) with (Ret v1).
  cbn [outcome_bind]. cbv zeta.
  repeat match goal with Hle : f_le _ _ = true |- _ => rewrite Hle; clear Hle end. done.
Qed.

Lemma luauF_vectorlerp_agrees : agrees luauF_vectorlerp vector_lerp.
Proof.
  intros n p vs _ Hv. unfold luauF_vectorlerp in Hv. destruct p as [|[] [|[] [|[] p]]]; try done.
  destruct (n <=? 1); [|done]. by injection Hv as <-.
Qed.

Definition vector_fast : list (string * fast_list * library) :=
  [("LBF_VECTOR"%string, luauF_vector, vector_create);
   ("LBF_VECTOR_MAGNITUDE"%string, luauF_vectormagnitude, vector_magnitude);
   ("LBF_VECTOR_NORMALIZE"%string, luauF_vectornormalize, vector_normalize);
   ("LBF_VECTOR_CROSS"%string, luauF_vectorcross, vector_cross);
   ("LBF_VECTOR_DOT"%string, luauF_vectordot, vector_dot);
   ("LBF_VECTOR_FLOOR"%string, luauF_vectorfloor, vector_floor);
   ("LBF_VECTOR_CEIL"%string, luauF_vectorceil, vector_ceil);
   ("LBF_VECTOR_ABS"%string, luauF_vectorabs, vector_abs);
   ("LBF_VECTOR_SIGN"%string, luauF_vectorsign, vector_sign);
   ("LBF_VECTOR_CLAMP"%string, luauF_vectorclamp, vector_clamp);
   ("LBF_VECTOR_MIN"%string, luauF_vectormin, vector_min);
   ("LBF_VECTOR_MAX"%string, luauF_vectormax, vector_max);
   ("LBF_VECTOR_LERP"%string, luauF_vectorlerp, vector_lerp)].

Lemma vector_fast_agrees : Forall (fun '(_, fast, lib) => agrees fast lib) vector_fast.
Proof.
  unfold vector_fast.
  repeat (constructor; [first [apply fast_vec1_agrees | apply fast_vec2_agrees
    | apply vector_extremum_agrees | apply luauF_vector_agrees | apply luauF_vectorclamp_agrees
    | apply luauF_vectorlerp_agrees]|]).
  constructor.
Qed.
End Vectors.

(** * The base library *)

Section Base.
Context `{VecSize, Target, NumFormat}.
Variable objects : tables -> heap.
Variable σ : tables.

Lemma luauF_type_agrees : agrees luauF_type luaB_type.
Proof.
  intros n [|v p] vs _ Hv; [done|]. unfold luauF_type, fast_any in Hv.
  destruct (n <=? 1); [|done]. injection Hv as <-. by destruct v.
Qed.

(** [lua_pushstring] stops at a NUL of the type name, the fast path does not. *)
Lemma luauF_typeof_value n p vs : luauF_typeof objects n p σ = Some vs ->
  exists v rest, p = v :: rest /\ vs = [LString (luaT_objtypename (objects σ) v)] /\
    luaB_typeof objects p σ = Ret [LString (c_bytes (luaT_objtypename (objects σ) v))].
Proof.
  destruct p as [|v p]; [done|]. unfold luauF_typeof, fast_any.
  destruct (n <=? 1); [|done]. intros [= <-]. exists v, p. by destruct v.
Qed.

Lemma luauF_rawequal_agrees : agrees luauF_rawequal luaB_rawequal.
Proof.
  intros n [|v [|w p]] vs _ Hv; try done. unfold luauF_rawequal in Hv.
  destruct (n <=? 1); [|done]. injection Hv as <-. by destruct v, w.
Qed.

Lemma luauF_tonumber_agrees : agrees luauF_tonumber luaB_tonumber.
Proof.
  intros n [|v [|w p]] vs _ Hv; try done. unfold luauF_tonumber in Hv.
  destruct (n <=? 1); [|done]. injection Hv as <-. unfold luaB_tonumber.
  change (luaL_optinteger [v] 2 10) with (Ret 10). cbn [outcome_bind Z.eqb Pos.eqb].
  unfold lua_tonumberx. change (index2addr [v] 1) with (Some v).
  destruct v; try done. cbn [luaV_tonumber]. by destruct (luaO_str2d s).
Qed.

(** [assert] returns nothing where nothing is wanted. *)
Lemma luauF_assert_agrees n p vs :
  luauF_assert n p = Some vs -> op_call luaB_assert n p = Ret (adjust_results n vs).
Proof.
  destruct p as [|v p]; [done|]. unfold luauF_assert. destruct (Z.eqb_spec n 0) as [->|]; [|done].
  destruct (l_isfalse v) eqn:Hv; [done|]. intros [=<-]. unfold op_call, luaB_assert.
  change (value_at (v :: p) 1) with v. rewrite Hv. by destruct v.
Qed.

(** [select(i, ...)] and [select('#', ...)] on the extra arguments of the caller. *)
Lemma luauF_select_agrees arg0 varargs n vs :
  Z.of_nat (length varargs) < 2 ^ 31 ->
  luauF_select n [arg0] varargs = Ret (Some vs) ->
  op_call luaB_select n (arg0 :: varargs) = Ret (adjust_results n vs).
Proof.
  intros Hlen. unfold luauF_select. destruct (Z.eqb_spec n 1) as [->|]; [|done].
  unfold op_call, luaB_select, lua_gettop. change (index2addr (arg0 :: varargs) 1) with (Some arg0).
  cbn [length]. rewrite Nat2Z.inj_succ. destruct arg0; try done.
  - set (i := luai_num2int n). pose proof (luai_num2int_range n) as Hr. fold i in Hr.
    destruct (sub_s 32 i 1) as [i1| |] eqn:Hs; try done. cbn [outcome_bind].
    unfold sub_s in Hs. destruct (in_s_b 32 (i - 1)) eqn:Hb; [|done]. injection Hs as <-.
    destruct (Z.ltb_spec (u32 (i - 1)) (u32 (Z.of_nat (length varargs)))) as [Hlt|]; [|done].
    intros [=<-]. rewrite (cast_u_id 32 (Z.of_nat _)) in Hlt by (unfold in_u; lia).
    assert (Hi : 1 <= i <= Z.of_nat (length varargs)).
    { unfold cast_u, in_s in *. destruct (Z.le_gt_cases 1 i); [|exfalso].
      - rewrite Z.mod_small in Hlt by lia. lia.
      - rewrite <- (Z.mod_unique (i - 1) (2 ^ 32) (-1) (i - 1 + 2 ^ 32)) in Hlt; lia. }
    rewrite checkinteger_1. fold i. cbn [outcome_bind].
    rewrite (proj2 (Z.ltb_ge i 0)), (proj2 (Z.ltb_ge _ i)), (proj2 (Z.leb_le 1 i)) by lia.
    cbn [luaL_argcheck outcome_bind]. unfold adjust_results. cbn [Z.eqb]. f_equal.
    replace (Z.to_nat i) with (S (Z.to_nat (i - 1))) by lia. cbn [drop].
    destruct (lookup_lt_is_Some_2 varargs (Z.to_nat (i - 1)) ltac:(lia)) as [v Hv].
    rewrite (drop_S _ v) by done. by rewrite Hv.
  - destruct s as [|c s]; [done|]. destruct (decide (c = 35)) as [->|Hc].
    + intros [=<-]. cbn [outcome_bind]. by replace (Z.succ _ - 1) with (Z.of_nat (length varargs)) by lia.
    + intros Hv. exfalso. repeat (destruct c as [|c|c]; try done).
Qed.
End Base.

(** * The call site *)

Section Transparent.
Context `{VecSize, Target, LibM, CPow, NumFormat}.
Variable objects : tables -> heap.
Variable σ : tables.
Variable needs_gc : bool.

Variable round_neg_zero : bool.

(** The rows of [luauF_table] for the string and base libraries, and [math.round] with
    SSE4.1; the flag [LuauMathRoundNegZero] is a parameter. *)
Definition string_fast : list (string * fast_list * library) :=
  [("LBF_STRING_BYTE"%string, luauF_byte, str_byte);
   ("LBF_STRING_CHAR"%string, luauF_char needs_gc, str_char);
   ("LBF_STRING_LEN"%string, luauF_len, str_len);
   ("LBF_STRING_SUB"%string, luauF_sub needs_gc, str_sub);
   ("LBF_TYPE"%string, luauF_type, luaB_type);
   ("LBF_RAWEQUAL"%string, luauF_rawequal, luaB_rawequal);
   ("LBF_TONUMBER"%string, luauF_tonumber, luaB_tonumber)].

Definition library_fast : list (string * fast_list * library) :=
  [("LBF_ASSERT"%string, luauF_assert, luaB_assert);
   ("LBF_MATH_ROUND"%string, luauF_round_sse41 round_neg_zero, math_round);
   ("LBF_TYPEOF"%string, fun n p => luauF_typeof objects n p σ, fun p => luaB_typeof objects p σ)]
  ++ math_fast ++ vector_fast ++ string_fast.

Lemma string_fast_agrees : Forall (fun '(_, fast, lib) => agrees fast lib) string_fast.
Proof.
  unfold string_fast.
  repeat (constructor; [first [apply luauF_byte_agrees
    | apply luauF_char_agrees | apply luauF_len_agrees | apply luauF_sub_agrees
    | apply luauF_type_agrees | apply luauF_rawequal_agrees | apply luauF_tonumber_agrees]|]).
  constructor.
Qed.

(** Where a fast path and its function differ: the one value of each. *)
Inductive deviates : string -> list TValue -> TValue -> TValue -> Prop :=
  | round_deviates rest : round_neg_zero = false ->
      deviates "LBF_MATH_ROUND" (LNumber (S754_zero true) :: rest)
        (LNumber (S754_zero false)) (LNumber (S754_zero true))
  | typeof_deviates v rest (name := luaT_objtypename (objects σ) v) : c_bytes name <> name ->
      deviates "LBF_TYPEOF" (v :: rest) (LString name) (LString (c_bytes name)).

Definition same_or_deviates (name : string) (fast : fast_list) (lib : library) : Prop :=
  forall nresults params vs, wf_frame nresults params -> fast nresults params = Some vs ->
    lib params = Ret vs \/ exists x y, deviates name params x y /\ vs = [x] /\ lib params = Ret [y].

Lemma luauF_round_sse41_deviates :
  same_or_deviates "LBF_MATH_ROUND" (luauF_round_sse41 round_neg_zero) math_round.
Proof.
  intros n p vs [Hw _] Hv. unfold luauF_round_sse41, num1, fast_num1 in Hv.
  destruct p as [|[] p]; try done. destruct (n <=? 1); [|done]. injection Hv as <-.
  inversion Hw as [|?? Hvalid _]; subst. destruct round_neg_zero eqn:Hflag.
  - left. by rewrite round_sse41_sign.
  - destruct (decide (n0 = S754_zero true)) as [->|Hn].
    + right. exists (LNumber (S754_zero false)), (LNumber (S754_zero true)).
      split; [by constructor|]. split; [vm_compute; reflexivity|reflexivity].
    + left. by rewrite round_sse41_compare.
Qed.

Lemma luauF_typeof_deviates :
  same_or_deviates "LBF_TYPEOF" (fun n p => luauF_typeof objects n p σ) (fun p => luaB_typeof objects p σ).
Proof.
  intros n p vs _ (v & rest & -> & -> & Hl)%luauF_typeof_value.
  destruct (decide (c_bytes (luaT_objtypename (objects σ) v) = luaT_objtypename (objects σ) v)) as [He|He].
  - left. by rewrite Hl, He.
  - right. eexists _, _. split; [by constructor|done].
Qed.

(** C4. A fast call of one of the 58 rows of [library_fast] - the functions of [math] and
    [vector] with their SSE4.1 variants, [string.byte], [char], [len] and [sub], [assert],
    [type], [typeof], [rawequal] and [tonumber] - leaves the values that the real call
    leaves, whether or not the fast path takes it, for every number of results and every
    argument list of a frame.  It differs in two cases, and the theorem says how:
    [math.round] of a negative zero with SSE4.1 while the flag [LuauMathRoundNegZero] is
    off, and [typeof] of an object whose type name holds a NUL. *)
Theorem fast_library_transparent name fast lib safeenv nresults params :
  (name, fast, lib) ∈ library_fast -> wf_frame nresults params ->
  op_fastcall_list safeenv fast lib nresults params = op_call lib nresults params \/
  exists x y, deviates name params x y /\
    op_fastcall_list safeenv fast lib nresults params = Ret (adjust_results nresults [x]) /\
    op_call lib nresults params = Ret (adjust_results nresults [y]).
Proof.
  intros Hin Hf. unfold op_fastcall_list. destruct safeenv; [|by left].
  destruct (fast nresults params) as [vs|] eqn:Hv; [|by left].
  unfold library_fast in Hin. apply elem_of_cons in Hin as [[= -> -> ->]|Hin].
  { left. by rewrite (luauF_assert_agrees _ _ vs). }
  assert (Hd : same_or_deviates name fast lib).
  { apply elem_of_cons in Hin as [[= -> -> ->]|Hin]; [exact luauF_round_sse41_deviates|].
    apply elem_of_cons in Hin as [[= -> -> ->]|Hin]; [exact luauF_typeof_deviates|].
    intros n p r Hw Hr. left.
    pose proof math_fast_agrees as Hm. pose proof string_fast_agrees as Hs.
    pose proof vector_fast_agrees as Hv'. rewrite Forall_forall in Hm, Hv', Hs.
    apply elem_of_app in Hin as [Hin|[Hin|Hin]%elem_of_app];
      [by eapply (Hm _ Hin)|by eapply (Hv' _ Hin)|by eapply (Hs _ Hin)]. }
  destruct (Hd _ _ _ Hf Hv) as [Hl|(x & y & Hxy & -> & Hl)]; unfold op_call; rewrite Hl; [by left|].
  right. exists x, y. done.
Qed.
End Transparent.

#[local] Instance sample_libm' : LibM := sample_libm.
#[local] Instance sample_pow' : CPow := fun x _ => x.
#[local] Instance sample_vec : VecSize := false.
#[local] Instance sample_format : NumFormat := fun _ => chars "#".

Lemma fast_library_transparent_witness :
  op_fastcall_list true (luauF_sub false) str_sub 1
    [LString (chars "hello"); LNumber (double_of_Z 2); LNumber (double_of_Z 4)]
  = Ret [LString (chars "ell")].
Proof.
  destruct (fast_library_transparent (fun _ => sample_heap) ∅ false false "LBF_STRING_SUB"
    (luauF_sub false) str_sub true 1 [LString (chars "hello"); LNumber (double_of_Z 2); LNumber (double_of_Z 4)])
    as [He|(x & y & Hd & _)].
  - unfold library_fast, math_fast, vector_fast, string_fast. cbn [app].
    repeat (apply elem_of_cons; first [by left | right]).
  - split_and!; [repeat constructor; vm_compute; intuition discriminate| |vm_compute; discriminate].
    intros s Hs. repeat (apply elem_of_cons in Hs as [Hs|Hs]; [try discriminate Hs|]).
    + injection Hs as ->. vm_compute. discriminate.
    + by apply not_elem_of_nil in Hs.
  - rewrite He. vm_compute. reflexivity.
  - inversion Hd.
Defined.
