(* ===== verification/FoldProps.v ===== *)
(** The folder of builtin calls computes what the library functions compute. *)
From stdpp Require Import gmap.
From S2P Require Import Prelude Word Double NumParse LuaApi BitLib Builtins Tm Arith CMath Compare Fold.
From S2P Require Import MathLib MathRound TabLib BaseLib Pattern PatternMatch PatternSpec PatternSafe StrLib StrSpec StrSafe StrOps FastLib VecLib FoldBuiltin FastLibProps.
Open Scope Z_scope.
Open Scope outcome_scope.

Section FoldProps.
Context `{VecSize, Target, LibM, CPow, NumFormat}.
(** [vectorDoublePrecision] *)
Variable vdp : bool.

(** A folded call on constants has the one result of the library function. *)
Definition folds (fold : list Constant -> outcome Constant) (lib : library) : Prop :=
  forall args vals c, mapM const_value args = Some vals -> wf_frame 1 vals ->
    fold args = Ret c -> c <> CUnknown ->
    exists v, const_value c = Some v /\ lib vals = Ret [v].

(** Reads off the values of a list of constants of known shape. *)
Ltac constants :=
  repeat match goal with
  | Hc : mapM const_value _ = Some _ |- _ => apply mapM_Some_1 in Hc
  | Hc : Forall2 _ (_ :: _) _ |- _ => apply Forall2_cons_inv_l in Hc as (? & ? & ? & Hc & ->)
  | Hc : Forall2 _ [] _ |- _ => apply Forall2_nil_inv_l in Hc as ->
  | Hc : const_value (CNumber _) = Some _ |- _ => injection Hc as <-
  | Hc : const_value (CString _) = Some _ |- _ => injection Hc as <-
  end.

(** * Functions of one and of two numbers *)

Lemma fold1_sound f v lib :
  (forall x, const_value (f x) = Some (v x)) -> (forall x, lib [LNumber x] = Ret [v x]) ->
  folds (fun args => Ret (fold1 args f)) lib.
Proof.
  intros Hc Hl args vals c Hv _ Hf Hn. injection Hf as <-. unfold fold1 in *.
  destruct args as [|[] [|]]; try done. constants. eauto.
Qed.

Lemma fold2_sound f lib :
  (forall x y c, f x y = Ret c -> c <> CUnknown ->
     exists v, const_value c = Some v /\ lib [LNumber x; LNumber y] = Ret [v]) ->
  folds (fun args => fold2 args f) lib.
Proof.
  intros Hl args vals c Hv _ Hf Hn. unfold fold2 in *.
  destruct args as [|[] [|[] [|]]]; try (by injection Hf as <-). constants. by apply Hl.
Qed.

(** * Any number of numbers *)

Definition get_with {A} (get : double -> A) (v : TValue) : option A :=
  match v with LNumber n => Some (get n) | _ => None end.

Lemma fold_rest_fast {A} (get : double -> A) op rest : forall vals r x,
  mapM const_value rest = Some vals -> fold_rest get op r rest = Some x ->
  fast_fold (get_with get) op r vals = Some x.
Proof.
  induction rest as [|c rest IH]; intros vals r x Hv Hr; constants; [done|].
  destruct c; try done. constants. cbn in *. apply IH; [by apply mapM_Some_2|done].
Qed.

Lemma fold_many_sound {A} (get : double -> A) op finish lib :
  (forall n vals x, fast_fold (get_with get) op (get n) vals = Some x ->
     exists v, const_value (finish x) = Some v /\ lib (LNumber n :: vals) = Ret [v]) ->
  folds (fun args => Ret (fold_many get op finish args)) lib.
Proof.
  intros Hl args vals c Hv _ Hf Hn. injection Hf as <-. unfold fold_many in *.
  destruct args as [|[] rest]; try done. destruct (fold_rest _ _ _ rest) as [x|] eqn:Hr; [|done].
  constants. apply Hl. eapply fold_rest_fast; [by apply mapM_Some_2|done].
Qed.

Lemma fold_extremum_sound pick lib :
  (forall args, lib args =
     (a <- luaL_checknumber args 1 ;;
      r <- fold_args args (luaL_checknumber args) pick a 2 ;; Ret [LNumber r])) ->
  folds (fun args => Ret (fold_many id pick cnum args)) lib.
Proof.
  intros Hl. apply fold_many_sound. intros n vals x Hx. exists (LNumber x). split; [done|].
  rewrite Hl, checknumber_1. cbn [outcome_bind].
  by rewrite (fold_args_fast get_number _ pick _ vals 1 _ x); [|done|simpl; lia|apply get_number_check|].
Qed.

(** The folds of [bit32]: the library starts from the neutral element. *)
Lemma fold_bits_lib op neutral (finish : Z -> Constant) (finish' : Z -> TValue) lib :
  (forall args, lib args =
     (r <- fold_args args (luaL_checkunsigned args) op neutral 1 ;;
      Ret [finish' (trim r)])) ->
  (forall r, const_value (finish r) = Some (finish' r)) ->
  (forall u, in_u 32 u -> op neutral u = u) ->
  (forall a b, in_u 32 a -> in_u 32 b -> in_u 32 (op a b)) ->
  folds (fun args => Ret (fold_many bit32 op finish args)) lib.
Proof.
  intros Hl Hfin Hn Hop. apply fold_many_sound. intros n vals x Hx.
  exists (finish' x). split; [done|].
  rewrite Hl, (fold_args_fast get_unsigned _ _ _ (LNumber n :: vals) 0 _ x);
    [|done|simpl; lia|apply get_unsigned_check|].
  - cbn [outcome_bind]. rewrite trim_id; [done|].
    eapply (fast_fold_inv (in_u 32)); [|..|exact Hx]; [apply luai_num2unsigned_range|].
    intros a w b Ha Hw%get_unsigned_range. by apply Hop.
  - cbn [fast_fold get_unsigned]. rewrite Hn by apply luai_num2unsigned_range. exact Hx.
Qed.

Lemma bits_rows :
  folds (foldBuiltin vdp LBF_BIT32_BAND) b_and /\ folds (foldBuiltin vdp LBF_BIT32_BOR) b_or /\
  folds (foldBuiltin vdp LBF_BIT32_BXOR) b_xor /\ folds (foldBuiltin vdp LBF_BIT32_BTEST) b_test.
Proof.
  assert (Hand : forall u, in_u 32 u -> Z.land (not_u 32 0) u = u).
  { intros u Hu. rewrite Z.land_comm. by apply (land_ones_u 32). }
  split_and!.
  - eapply fold_bits_lib with (finish' := lua_pushunsigned); [|done|done|auto with word].
    intros. unfold b_and, andaux. by rewrite bind_assoc.
  - eapply fold_bits_lib with (finish' := lua_pushunsigned); [done|done|done|auto with word].
  - eapply fold_bits_lib with (finish' := lua_pushunsigned); [done|done| |auto with word].
    intros. apply Z.lxor_0_l.
  - eapply fold_bits_lib with (finish' := fun r => lua_pushboolean (negb (r =? 0)));
      [|done|done|auto with word].
    intros. unfold b_test, andaux. by rewrite bind_assoc.
Qed.

(** A fold that is a fast path applied to the same numbers. *)
Lemma fold2_fast (f : double -> double -> outcome Constant) fast lib :
  fast_sound fast lib ->
  (forall x y c, f x y = Ret c -> c <> CUnknown ->
     exists v, const_value c = Some v /\ fast 1 [LNumber x; LNumber y] = Ret (Some v)) ->
  folds (fun args => fold2 args f) lib.
Proof.
  intros Hs Hl. apply fold2_sound. intros x y c Hf Hn.
  destruct (Hl x y c Hf Hn) as (v & Hc & Hv). exists v. split; [done|]. by apply Hs in Hv.
Qed.

Lemma shift_rows :
  folds (foldBuiltin vdp LBF_BIT32_LSHIFT) b_lshift /\
  folds (foldBuiltin vdp LBF_BIT32_RSHIFT) b_rshift /\
  folds (foldBuiltin vdp LBF_BIT32_ARSHIFT) b_arshift.
Proof.
  destruct bit32_shift_sound as (Hl & Hr & Ha).
  split_and!; (eapply fold2_fast; [first [exact Hl | exact Hr | exact Ha]|]);
    intros x y c Hf Hn; cbv beta zeta in Hf; injection Hf as <-;
    unfold total, luauF_lshift, luauF_rshift, luauF_arshift; cbn [Z.leb Z.compare Pos.compare Pos.compare_cont];
    destruct (u32 _ <? 32); try done; eexists; split; reflexivity.
Qed.

Lemma rotate_rows :
  folds (foldBuiltin vdp LBF_BIT32_LROTATE) b_lrot /\
  folds (foldBuiltin vdp LBF_BIT32_RROTATE) b_rrot.
Proof.
  destruct bit32_rotate_sound as (Hl & Hr).
  split; (eapply fold2_fast; [first [exact Hl | exact Hr]|]);
    intros x y c Hf Hn; cbv beta zeta in Hf; apply bind_Ret_inv in Hf as (t & Ht & Hf); injection Hf as <-;
    eexists; (split; [reflexivity|]); unfold luauF_lrotate, luauF_rrotate;
    cbn [Z.leb Z.compare]; cbv zeta; rewrite Ht; reflexivity.
Qed.

Lemma fold_field_inv f w k c :
  fold_field f w k = Ret c -> c <> CUnknown ->
  field_ok f w = Some true /\ c = k (field_mask w).
Proof.
  unfold fold_field. destruct (field_ok f w) as [[]|]; intros Hk Hn; try discriminate; injection Hk as <-; done.
Qed.

Lemma field_rows :
  folds (foldBuiltin vdp LBF_BIT32_EXTRACT) b_extract /\
  folds (foldBuiltin vdp LBF_BIT32_REPLACE) b_replace.
Proof.
  split; intros args vals c Hv _ Hf Hn; cbn [foldBuiltin] in Hf.
  - unfold fold_extract in Hf. destruct args as [|[] [|[] [|[] rest]]];
      try (by injection Hf as <-); cbv zeta in Hf;
      apply fold_field_inv in Hf as [Hok ->]; try done; constants;
      (eexists; split; [reflexivity|]); unfold b_extract;
      (edestruct field_ok_fieldargs as [Hfa Hw]; [..|rewrite Hfa];
        [by read_args|by read_args|exact Hok|]); by read_args.
  - unfold fold_replace in Hf. destruct args as [|[] [|[] [|[] [|[] rest]]]];
      try (by injection Hf as <-); cbv zeta in Hf;
      apply fold_field_inv in Hf as [Hok ->]; try done; constants;
      (eexists; split; [reflexivity|]); unfold b_replace;
      (edestruct field_ok_fieldargs as [Hfa Hw]; [..|rewrite Hfa];
        [by read_args|by read_args|exact Hok|]); by read_args.
Qed.

(** * Strings *)

Lemma byte_at args s i :
  luaL_checklstring args 1 = Ret s -> luaL_optinteger args 2 1 = Ret i ->
  luaL_optinteger args 3 i = Ret i -> 1 <= i <= zlen s -> lua_gettop args < LUAI_MAXCSTACK ->
  str_byte args = Ret [LNumber (double_of_Z (default 0 (s !! Z.to_nat (i - 1))))].
Proof.
  intros Hs Hp2 Hp3 Hi Htop. unfold str_byte. rewrite Hs. cbn [outcome_bind]. rewrite Hp2. cbn [outcome_bind].
  rewrite (posrelat_pos i) by lia. rewrite Hp3. cbn [outcome_bind]. rewrite (posrelat_pos i) by lia.
  rewrite (proj2 (Z.leb_gt i 0)), (proj2 (Z.ltb_ge (zlen s) i)), (proj2 (Z.ltb_ge i i)) by lia.
  rewrite (proj2 (Z.leb_gt _ i)) by lia. unfold luaL_checkstack, lua_checkstack.
  replace (i - i + 1) with 1 by lia.
  rewrite (proj2 (Z.ltb_ge LUAI_MAXCSTACK 1)), (proj2 (Z.ltb_ge LUAI_MAXCSTACK (_ + _))) by (unfold LUAI_MAXCSTACK in *; lia).
  cbn [orb negb outcome_bind]. rewrite bytes_in by lia. cbn [outcome_bind]. f_equal.
  unfold slice. unfold zlen in Hi.
  destruct (lookup_lt_is_Some_2 s (Z.to_nat (i - 1)) ltac:(lia)) as [x Hx].
  by rewrite (drop_S _ x), Hx by done.
Qed.

Lemma byte_value s p k : wf_frame 1 (LString s :: p) ->
  0 <= u8 (default 0 (s !! k)) /\ u8 (default 0 (s !! k)) = default 0 (s !! k).
Proof.
  intros (Hw & _). inversion Hw as [|?? Hb _]; subst. cbn in Hb.
  destruct (s !! k) as [x|] eqn:Hx; [|done]. rewrite Forall_lookup in Hb. apply Hb in Hx.
  change (default 0 (Some x)) with x. rewrite cast_u_id by done. unfold in_u in Hx. split; [lia|done].
Qed.

Lemma frame_top n p : wf_frame n p -> lua_gettop p < LUAI_MAXCSTACK.
Proof. intros (_ & _ & Ht). unfold wf_frame in Ht. lia. Qed.

Lemma stringLength_frame s p : wf_frame 1 (LString s :: p) -> stringLength s = zlen s.
Proof.
  intros Hf%frame_string. unfold stringLength. apply cast_u_id. unfold in_u, MAXSSIZE, zlen in *. lia.
Qed.

Lemma byte_row : folds (foldBuiltin vdp LBF_STRING_BYTE) str_byte.
Proof.
  intros args vals c Hv Hw Hf Hn. injection Hf as <-. unfold fold_byte in *.
  destruct args as [|[] [|[] [|]]]; try done; constants.
  - destruct s as [|c s]; [done|]. exists (LNumber (double_of_Z (u8 c))). split; [done|].
    pose proof (byte_value (c :: s) [] 0 Hw) as [_ Hb]. change (default 0 ((c :: s) !! 0%nat)) with c in Hb.
    rewrite (byte_at _ (c :: s) 1); try done; [by rewrite Hb|].
    unfold zlen. cbn [length]. lia.
  - rewrite (stringLength_frame _ _ Hw) in *. pose proof (luai_num2int_range n) as Hr. unfold in_s in Hr.
    destruct (_ && _) eqn:E in |- *; [|by rewrite E in Hn]. bool_simpl.
    rewrite cast_u_id in * by (unfold in_u; lia).
    exists (LNumber (double_of_Z (u8 (default 0 (s !! Z.to_nat (luai_num2int n - 1)))))). split; [done|].
    rewrite (byte_at _ s (luai_num2int n)); try done; [|lia].
    by destruct (byte_value s [LNumber n] (Z.to_nat (luai_num2int n - 1)) Hw) as [_ ->].
Qed.

Lemma fold_chars_get args : forall vals buf,
  mapM const_value args = Some vals -> fold_chars args = Some buf -> get_chars vals = Some buf.
Proof.
  induction args as [|c args IH]; intros vals buf Hv Hb; constants; [done|].
  destruct c; try done. constants. cbn in *. destruct (u8 _ =? _); [|done].
  destruct (fold_chars args) as [l|]; [|done]. by rewrite (IH _ l) by (done || by apply mapM_Some_2).
Qed.

Lemma char_row : folds (foldBuiltin vdp LBF_STRING_CHAR) str_char.
Proof.
  intros args vals c Hv Hw Hf Hn. injection Hf as <-. unfold fold_char in *. destruct (_ <? _); [|done].
  destruct (fold_chars args) as [buf|] eqn:Hb; [|done]. exists (LString buf). split; [done|].
  unfold str_char. by rewrite (get_chars_loop vals vals buf 1) by (done || by eapply fold_chars_get).
Qed.

Lemma len_row : folds (foldBuiltin vdp LBF_STRING_LEN) str_len.
Proof.
  intros args vals c Hv Hw Hf Hn. injection Hf as <-. destruct args as [|[] [|]]; try done. constants.
  eexists; split; [reflexivity|]. by rewrite (stringLength_frame _ _ Hw).
Qed.

Lemma from_end_spec p len x :
  in_s 32 p -> 0 <= len <= MAXSSIZE -> from_end p len = Ret x -> posrelat p len = Z.max 0 x.
Proof.
  unfold from_end, MAXSSIZE, posrelat. intros Hp Hl.
  rewrite cast_s_id by (try lia; unfold in_s; lia). unfold Word.add_s.
  destruct (p <? 0) eqn:E.
  - repeat (destruct (in_s_b 32 _); [|done]; cbn [outcome_bind]). intros Hx; injection Hx as <-.
    destruct (Z.leb_spec 0 (p + (len + 1))); lia.
  - intros Hx; injection Hx as <-. bool_simpl. destruct (Z.leb_spec 0 p); lia.
Qed.

(** The clamps of the folder after the two positions. *)
Definition sub_piece (s : list Z) (start end_ : Z) : list Z :=
  if end_ <? 1 then []
  else
    let start := if start <? 1 then 1 else start in
    let end_ := if zlen s <? end_ then zlen s else end_ in
    if start <=? end_ then piece s start end_ else [].

Lemma sub_piece_spec s start end_ :
  substring s (Z.max 0 start) (Z.max 0 end_) = sub_piece s start end_.
Proof.
  unfold substring, sub_piece, slice, piece. pose proof (zlen_nonneg s) as Hl.
  assert ((if start <? 1 then 1 else start) = Z.max 1 (Z.max 0 start)) as ->
    by (destruct (Z.ltb_spec start 1); lia).
  destruct (Z.ltb_spec end_ 1).
  - by replace (Z.to_nat (Z.max 0 _)) with O by lia.
  - assert ((if zlen s <? end_ then zlen s else end_) = Z.min (zlen s) (Z.max 0 end_)) as ->
      by (destruct (Z.ltb_spec (zlen s) end_); lia).
    destruct (Z.leb_spec (Z.max 1 (Z.max 0 start)) (Z.min (zlen s) (Z.max 0 end_))).
    + by rewrite (Z.max_r 0) by lia.
    + by replace (Z.to_nat (Z.max 0 _)) with O by lia.
Qed.

Lemma sub_lib args s i j e start end_ :
  luaL_checklstring args 1 = Ret s -> luaL_checkinteger args 2 = Ret i ->
  luaL_optinteger args 3 (-1) = Ret j -> 0 <= zlen s <= MAXSSIZE ->
  in_s 32 i -> in_s 32 e -> posrelat j (zlen s) = posrelat e (zlen s) ->
  from_end i (zlen s) = Ret start -> from_end e (zlen s) = Ret end_ ->
  str_sub args = Ret [LString (sub_piece s start end_)].
Proof.
  intros Hs Hi Hj Hl Hri Hre Hje Hst%from_end_spec Hen%from_end_spec; try done.
  rewrite (str_sub_spec _ s i j) by done. by rewrite Hje, Hst, Hen, sub_piece_spec.
Qed.

Lemma sub_row : folds (foldBuiltin vdp LBF_STRING_SUB) str_sub.
Proof.
  intros args vals c Hv Hw Hf Hn. cbn [foldBuiltin] in Hf. unfold fold_sub in Hf.
  assert (Hret : forall s start end_, Ret c = Ret (if end_ <? 1 then cstring []
      else
        let start := if start <? 1 then 1 else start in
        let end_ := if zlen s <? end_ then zlen s else end_ in
        if start <=? end_ then cstring (piece s start end_) else cstring []) ->
    const_value c = Some (LString (sub_piece s start end_))).
  { intros s start end_ Hc. injection Hc as ->. unfold sub_piece. cbv zeta. by repeat case_match. }
  destruct args as [|[] [|[] [|[] rest]]]; try (by injection Hf as <-); cbv zeta in Hf; constants;
    pose proof (frame_string _ _ _ Hw) as Hs; rewrite (stringLength_frame _ _ Hw) in Hf;
    rewrite (small_s32 _ _ _ Hw) in Hf;
    apply bind_Ret_inv in Hf as (start & Hst & Hf); apply bind_Ret_inv in Hf as (end_ & Hen & Hf);
    symmetry in Hf; apply Hret in Hf; (eexists; split; [exact Hf|]);
    (eapply sub_lib; [done|done|by read_args|exact Hs|apply luai_num2int_range| | |exact Hst|exact Hen]).
  - unfold in_s, MAXSSIZE in *. lia.
  - unfold posrelat. change (-1 <? 0) with true. cbv iota. rewrite (proj2 (Z.ltb_ge (zlen s) 0)) by lia.
    by replace (-1 + (zlen s + 1)) with (zlen s) by lia.
  - apply luai_num2int_range.
  - done.
Qed.

Lemma log_row : folds (foldBuiltin vdp LBF_MATH_LOG) math_log.
Proof.
  intros args vals c Hv Hw Hf Hn. injection Hf as <-. unfold fold_log in *.
  destruct args as [|[] [|[] [|]]]; try done; constants; eexists; (split; [reflexivity|]); done.
Qed.

Lemma clamp_row : folds (foldBuiltin vdp LBF_MATH_CLAMP) math_clamp.
Proof.
  intros args vals c Hv Hw Hf Hn. injection Hf as <-. unfold fold_clamp in *.
  destruct args as [|[] [|[] [|[] [|]]]]; try done. constants. destruct (d_le _ _) eqn:E; [|done].
  eexists; (split; [reflexivity|]). unfold math_clamp. read_args. by rewrite E.
Qed.

Lemma lerp_row : folds (foldBuiltin vdp LBF_MATH_LERP) math_lerp.
Proof.
  intros args vals c Hv Hw Hf Hn. injection Hf as <-. unfold fold_lerp in *.
  destruct args as [|[] [|[] [|[] [|]]]]; try done. constants. by eexists.
Qed.

Lemma vector_row : vdp = false -> folds (foldBuiltin vdp LBF_VECTOR) vector_create.
Proof.
  intros -> args vals c Hv Hw Hf Hn. injection Hf as <-. unfold fold_vector in *.
  destruct args as [|[] [|[] [|[] [|[] [|]]]]]; try done; constants; eexists; (split; [reflexivity|]);
    unfold vector_create, setvvalue; by destruct vec4.
Qed.

Lemma type_row : folds (foldBuiltin vdp LBF_TYPE) luaB_type.
Proof.
  intros args vals c Hv Hw Hf Hn. injection Hf as <-. unfold fold_type in *.
  destruct args as [|c [|]]; try done. constants. destruct c; try done;
    match goal with Hc : const_value _ = Some _ |- _ => injection Hc as <- end; by eexists.
Qed.

(** The metatable that all values of the type of [x] share gives it the name [s], which
    [typeof] returns. *)
Definition renamed (h : heap) (vals : list TValue) (lib : library) : Prop :=
  exists x mt s, vals = [x] /\ global_mt h (ttype x) = Some mt /\
    tab_getstr h mt (luaT_eventname TM_TYPE) = LString s /\ lib vals = Ret [LString (c_bytes s)].

Lemma typeof_row objects σ args vals c (lib : library := fun args => luaB_typeof objects args σ) :
  mapM const_value args = Some vals -> foldBuiltin vdp LBF_TYPEOF args = Ret c -> c <> CUnknown ->
  exists v, const_value c = Some v /\ (lib vals = Ret [v] \/ renamed (objects σ) vals lib).
Proof.
  intros Hv Hf Hn. injection Hf as <-. unfold fold_type in *.
  destruct args as [|c [|]]; try done. constants.
  assert (Hname : forall v, match v with LNil | LBoolean _ | LNumber _ | LInteger _ | LString _ => True
      | _ => False end -> luaT_objtypename (objects σ) v = ttname v \/ renamed (objects σ) [v] lib).
  { intros v Hp. unfold renamed, lib, luaB_typeof, luaT_objtypename, luaT_objtypenamestr, value_at.
    destruct v; try done; cbn [index2addr]; destruct (global_mt _ _) as [mt|] eqn:Hg; try (by left);
      destruct (tab_getstr _ _ _) eqn:Ht; try (by left); right; eexists _, mt, _;
      (split; [done|]; split; [exact Hg|]; split; [exact Ht|]; done). }
  destruct c; try done;
    match goal with Hc : const_value _ = Some ?v |- _ => injection Hc as <- end;
    (eexists; split; [reflexivity|]);
    match goal with |- context [lib [?v]] => destruct (Hname v I) as [He|He]; [left|by right] end;
    unfold lib, luaB_typeof;
    match goal with |- context [value_at [?v] 1] => change (value_at [v] 1) with v end; rewrite He; by vm_compute.
Qed.

(** * The table *)

(** The cases of [foldBuiltin] with the functions that they stand for. *)
Definition fold_table (objects : tables -> heap) (σ : tables) : list (LuauBuiltinFunction * library) :=
  [(LBF_MATH_ABS, math_abs); (LBF_MATH_ACOS, math_acos); (LBF_MATH_ASIN, math_asin);
   (LBF_MATH_ATAN2, math_atan2); (LBF_MATH_ATAN, math_atan); (LBF_MATH_CEIL, math_ceil);
   (LBF_MATH_COSH, math_cosh); (LBF_MATH_COS, math_cos); (LBF_MATH_DEG, math_deg);
   (LBF_MATH_EXP, math_exp); (LBF_MATH_FLOOR, math_floor); (LBF_MATH_FMOD, math_fmod);
   (LBF_MATH_LDEXP, math_ldexp); (LBF_MATH_LOG10, math_log10); (LBF_MATH_LOG, math_log);
   (LBF_MATH_MAX, math_max); (LBF_MATH_MIN, math_min); (LBF_MATH_POW, math_pow);
   (LBF_MATH_RAD, math_rad); (LBF_MATH_SINH, math_sinh); (LBF_MATH_SIN, math_sin);
   (LBF_MATH_SQRT, math_sqrt); (LBF_MATH_TANH, math_tanh); (LBF_MATH_TAN, math_tan);
   (LBF_BIT32_ARSHIFT, b_arshift); (LBF_BIT32_BAND, b_and); (LBF_BIT32_BNOT, b_not);
   (LBF_BIT32_BOR, b_or); (LBF_BIT32_BXOR, b_xor); (LBF_BIT32_BTEST, b_test);
   (LBF_BIT32_EXTRACT, b_extract); (LBF_BIT32_LROTATE, b_lrot); (LBF_BIT32_LSHIFT, b_lshift);
   (LBF_BIT32_REPLACE, b_replace); (LBF_BIT32_RROTATE, b_rrot); (LBF_BIT32_RSHIFT, b_rshift);
   (LBF_TYPE, luaB_type); (LBF_STRING_BYTE, str_byte); (LBF_STRING_CHAR, str_char);
   (LBF_STRING_LEN, str_len); (LBF_TYPEOF, fun args => luaB_typeof objects args σ);
   (LBF_STRING_SUB, str_sub); (LBF_MATH_CLAMP, math_clamp); (LBF_MATH_SIGN, math_sign);
   (LBF_MATH_ROUND, math_round); (LBF_VECTOR, vector_create); (LBF_MATH_LERP, math_lerp);
   (LBF_MATH_ISNAN, math_isnan); (LBF_MATH_ISINF, math_isinf); (LBF_MATH_ISFINITE, math_isfinite)].

Lemma bnot_row : folds (foldBuiltin vdp LBF_BIT32_BNOT) b_not.
Proof.
  eapply fold1_sound; [intros; reflexivity|]. intros x. unfold b_not. read_args.
  by rewrite trim_id by auto with word.
Qed.

Ltac math_row :=
  first [ eapply fold1_sound; intros; reflexivity
        | apply fold2_sound; intros ? ? ? Hf ?; injection Hf as <-; by eexists
        | by apply fold_extremum_sound ].

Lemma fold_table_sound objects σ :
  Forall (fun row => (row.1 = LBF_VECTOR -> vdp = false) -> row.1 <> LBF_TYPEOF ->
    folds (foldBuiltin vdp row.1) row.2) (fold_table objects σ).
Proof.
  destruct bits_rows as (Hand & Hor & Hxor & Htest).
  destruct shift_rows as (Hshl & Hshr & Hsar). destruct rotate_rows as (Hrl & Hrr).
  destruct field_rows as (Hext & Hrep).
  unfold fold_table.
  repeat (constructor; [cbn [fst snd]; intros Hvec Htype; first [assumption | apply bnot_row | apply log_row | apply clamp_row
    | apply lerp_row | by apply vector_row, Hvec | apply type_row | done | apply byte_row
    | apply char_row | apply len_row | apply sub_row | math_row]|]).
  constructor.
Qed.

(** Outside the table nothing folds. *)
Lemma fold_others bfid args c objects σ :
  bfid ∉ (fold_table objects σ).*1 -> foldBuiltin vdp bfid args = Ret c -> c = CUnknown.
Proof.
  intros Hnot. destruct bfid; try (intros Hf; by injection Hf as <-);
    exfalso; apply Hnot; unfold fold_table; cbn [fmap list_fmap fst];
    repeat (apply elem_of_cons; first [by left | right]).
Qed.

(** C6. The compiler folds a call of a library function only to the value that the
    call would have returned: for the 50 functions it folds, all constant arguments
    of a frame and every result that it does not decline.  [vector] is covered for the
    vectors of floats (the option [vectorDoublePrecision] of the compiler is arbitrary for
    the other functions).  [typeof] is folded to the name of the type, which the call does
    not return when a metatable shared by all values of that type has a [__type]: the
    theorem names that case. *)
Theorem fold_builtin_sound objects σ bfid args vals c :
  (bfid = LBF_VECTOR -> vdp = false) -> mapM const_value args = Some vals -> wf_frame 1 vals ->
  fold_call vdp bfid args = Ret c -> c <> CUnknown ->
  exists lib v, (bfid, lib) ∈ fold_table objects σ /\ const_value c = Some v /\
    (lib vals = Ret [v] \/ bfid = LBF_TYPEOF /\ renamed (objects σ) vals lib).
Proof.
  intros Hvec Hv Hw Hf Hn. unfold fold_call in Hf.
  case_bool_decide; [by injection Hf as <-|]. destruct (forallb _ args); [|by injection Hf as <-].
  destruct (decide (bfid = LBF_TYPEOF)) as [->|Htype].
  { destruct (typeof_row objects σ args vals c Hv Hf Hn) as (v & Hc & Hl).
    exists (fun args => luaB_typeof objects args σ), v. split; [|naive_solver].
    unfold fold_table. repeat (apply elem_of_cons; first [by left | right]). }
  destruct (decide (bfid ∈ (fold_table objects σ).*1)) as [Hin|Hin].
  - apply list_elem_of_fmap in Hin as ([b lib] & -> & Hin). cbn [fst] in *.
    pose proof (fold_table_sound objects σ) as Hs. rewrite Forall_forall in Hs.
    destruct (Hs _ Hin Hvec Htype args vals c Hv Hw Hf Hn) as (v & Hc & Hl). eauto 6.
  - by apply (fold_others _ _ _ _ _ Hin) in Hf.
Qed.

Lemma CNumber_inj a b : CNumber a = CNumber b -> a = b.
Proof. by injection 1. Qed.

Ltac constant_row name s k :=
  destruct (String.eqb_spec name s) as [->|];
    [intros <-%CNumber_inj; apply (list_elem_of_lookup_2 _ k%nat); reflexivity|].

(** The members of [math] that the compiler replaces by numbers are those that the
    library registers, with the same values. *)
Theorem fold_math_constants name d :
  foldBuiltinMath name = CNumber d <-> (name, d) ∈ math_constants.
Proof.
  unfold foldBuiltinMath, math_constants. split.
  - constant_row name "pi"%string 0%nat. constant_row name "huge"%string 1%nat. constant_row name "nan"%string 2%nat. constant_row name "e"%string 3%nat.
    constant_row name "phi"%string 4%nat. constant_row name "sqrt2"%string 5%nat. constant_row name "tau"%string 6%nat. done.
  - intros Hin. repeat (apply elem_of_cons in Hin as [[-> ->]%pair_equal_spec|Hin]; [reflexivity|]).
    by apply elem_of_nil in Hin.
Qed.

(** [bit32.extract] with a constant field: the packed operand that the compiler
    emits makes the fast path [LBF_BIT32_EXTRACTK] compute what the library function
    returns for the unpacked field. *)
Theorem extractk_agrees n f w k :
  compile_extractk (CNumber f) (CNumber w) = Ret (Some k) ->
  exists v, luauF_extractk 1 [LNumber n; LNumber (double_of_Z k)] = Some [v] /\
    b_extract [LNumber n; LNumber f; LNumber w] = Ret [v].
Proof.
  unfold compile_extractk. destruct (field_ok _ _) as [[]|] eqn:Hok; try done. intros Hk.
  injection Hk as <-. set (fi := luai_num2int f) in *. set (wi := luai_num2int w) in *.
  pose proof Hok as Hok0. unfold field_ok in Hok0. destruct ((0 <=? fi) && (0 <? wi)) eqn:Hr; [|done]. bool_simpl.
  destruct (in_s_b 32 (fi + wi)); [|done]. assert (fi + wi <= 32) by (by injection Hok0 as ?%Z.leb_le).
  set (k := Z.lor fi (Z.shiftl (wi - 1) 5)).
  assert (Hlow : Z.land k 31 = fi).
  { unfold k. rewrite Z.land_lor_distr_l. change 31 with (Z.ones 5). rewrite !Z.land_ones by lia.
    rewrite Z.shiftl_mul_pow2, Z.mod_mul, Z.lor_0_r by lia. apply Z.mod_small. lia. }
  assert (Hhigh : Z.shiftr k 5 = wi - 1).
  { unfold k. rewrite Z.shiftr_lor, Z.shiftr_shiftl_l, Z.shiftr_div_pow2 by lia.
    rewrite Z.div_small by lia. by rewrite Z.lor_0_l, Z.shiftl_0_r. }
  assert (Hk : in_s 32 k).
  { assert (in_u 10 k); [|unfold in_u, in_s in *; lia]. unfold k. apply in_u_lor; [lia| |].
    - unfold in_u. lia.
    - unfold in_u. rewrite Z.shiftl_mul_pow2 by lia. lia. }
  eexists. split.
  - cbn [luauF_extractk Z.leb Z.compare]. cbv zeta. rewrite luai_num2int_of_Z by done.
    rewrite Hlow, Hhigh. reflexivity.
  - unfold b_extract.
    edestruct (field_ok_fieldargs [LNumber n; LNumber f; LNumber w] 2) as [-> _];
      [by read_args|by read_args| |by read_args].
    exact Hok.
Qed.
End FoldProps.

#[local] Instance fold_libm : LibM := sample_libm.
#[local] Instance fold_pow_id : CPow := fun x _ => x.
#[local] Instance fold_vec : VecSize := false.
#[local] Instance fold_format : NumFormat := fun _ => chars "#".

Lemma fold_builtin_sound_witness :
  exists lib v, (LBF_STRING_SUB, lib) ∈ fold_table (fun _ => sample_heap) ∅ /\
    const_value (CString (chars "ell")) = Some v /\
    lib [LString (chars "hello"); LNumber (double_of_Z 2); LNumber (double_of_Z (-2))] = Ret [v].
Proof.
  destruct (fold_builtin_sound true (fun _ => sample_heap) ∅ LBF_STRING_SUB
    [CString (chars "hello"); CNumber (double_of_Z 2); CNumber (double_of_Z (-2))]
    [LString (chars "hello"); LNumber (double_of_Z 2); LNumber (double_of_Z (-2))] (CString (chars "ell")))
    as (lib & v & Hin & Hc & [Hl|[Ht _]]).
  - discriminate.
  - reflexivity.
  - split_and!; [repeat constructor; vm_compute; intuition discriminate| |vm_compute; discriminate].
    intros s Hs. repeat (apply elem_of_cons in Hs as [Hs|Hs]; [try discriminate Hs|]).
    + injection Hs as ->. vm_compute. discriminate.
    + by apply not_elem_of_nil in Hs.
  - vm_compute. reflexivity.
  - discriminate.
  - exists lib, v. done.
  - discriminate Ht.
Defined.

Lemma extractk_agrees_witness :
  exists v, luauF_extractk 1 [LNumber (double_of_Z 43981); LNumber (double_of_Z 100)] = Some [v] /\
    b_extract [LNumber (double_of_Z 43981); LNumber (double_of_Z 4); LNumber (double_of_Z 4)] = Ret [v].
Proof.
  apply (extractk_agrees (double_of_Z 43981) (double_of_Z 4) (double_of_Z 4) 100).
  vm_compute. reflexivity.
Defined.

(** The folder computes [32 - s], which overflows where the library function is defined. *)
Example fold_rotate_overflow :
  foldBuiltin false LBF_BIT32_LROTATE [CNumber (double_of_Z 1); CNumber (double_of_Z (-2147483648))]
    = Undefined "signed overflow in -" /\
  b_lrot [LNumber (double_of_Z 1); LNumber (double_of_Z (-2147483648))] = Ret [LNumber (double_of_Z 1)].
Proof. split; vm_compute; reflexivity. Qed.
