(* ===== verification/BufLib.v ===== *)
(** The buffer library, [VM/src/lbuflib.cpp], and its fast paths in
    [VM/src/lbuiltins.cpp], for a little-endian target.

    A buffer is a shared object: the value [LBuffer a _] names the bytes at the address
    [a] of a [memory], and two arguments may name one buffer.  Every [memcpy] checks its
    two ranges, so that an access outside of a buffer is [Undefined].  An addition of
    signed integers that the code does not guard is checked.  The templates of the
    library are definitions with the type as an argument. *)
From stdpp Require Import gmap.
From S2P Require Import Prelude Word Bytes Double NumParse LuaApi Builtins Arith Key StrPack.
Open Scope Z_scope.
Open Scope outcome_scope.

Abbreviation memory := (gmap Z (list Z)).

Definition MAX_BUFFER_SIZE : Z := 2 ^ 30.

(** [T]: [int8_t] to [uint32_t] *)
Record int_type := { issigned : bool; sizeof : Z }.

Definition int8_t := {| issigned := true; sizeof := 1 |}.
Definition uint8_t := {| issigned := false; sizeof := 1 |}.
Definition int16_t := {| issigned := true; sizeof := 2 |}.
Definition uint16_t := {| issigned := false; sizeof := 2 |}.
Definition int32_t := {| issigned := true; sizeof := 4 |}.
Definition uint32_t := {| issigned := false; sizeof := 4 |}.

(** The value of the bytes of a [T]. *)
Definition value_of (T : int_type) (b : list Z) : Z :=
  if issigned T then cast_s (8 * sizeof T) (le_combine b) else le_combine b.

(** The bytes of [T(value)]. *)
Definition image_of (T : int_type) (value : Z) : list Z := le_split (Z.to_nat (sizeof T)) value.

(** [isoutofbounds] *)
Definition isoutofbounds (offset len accessize : Z) : bool := len <? add_u 64 (u32 offset) accessize.

(** [memcpy] and [memmove] from a buffer, into a buffer *)
Definition copy_from (b : list Z) (offset n : Z) : outcome (list Z) :=
  if (0 <=? offset) && (0 <=? n) && (offset + n <=? Z.of_nat (length b))
  then Ret (take (Z.to_nat n) (drop (Z.to_nat offset) b))
  else Undefined "read outside of the buffer".

Definition copy_into (b : list Z) (offset : Z) (v : list Z) : outcome (list Z) :=
  if (0 <=? offset) && (offset + Z.of_nat (length v) <=? Z.of_nat (length b))
  then Ret (take (Z.to_nat offset) b ++ v ++ drop (Z.to_nat offset + length v) b)
  else Undefined "write outside of the buffer".

Definition out_of_bounds {A} : outcome A := luaL_error "buffer access out of bounds".

Section Library.
Context `{Target, NumFormat}.
Variable args : list TValue.
Variable μ : memory.

(** [luaL_checkbuffer]: the buffer and its bytes. *)
Definition luaL_checkbuffer (narg : Z) : outcome (Z * list Z) :=
  match index2addr args narg with
  | Some (LBuffer a _) =>
      match μ !! a with Some b => Ret (a, b) | None => Undefined "no buffer at this address" end
  | _ => tag_error narg "buffer"
  end.

Definition blen (b : list Z) : Z := Z.of_nat (length b).

(** [lua_newbuffer]: a new buffer of zeros *)
Definition new_buffer : Z := map_fold (fun a (_ : list Z) m => Z.max m (a + 1)) 1 μ.

Definition lua_newbuffer (sz : Z) : outcome (Z * memory) :=
  if MAX_BUFFER_SIZE <? sz then luaL_error "memory allocation error: block too big"
  else Ret (new_buffer, <[new_buffer := replicate (Z.to_nat sz) 0]> μ).

Definition buffer_result := outcome (list TValue * memory).

(** The bytes are written at an offset. *)
Definition store_bytes (a : Z) (b : list Z) (offset : Z) (v : list Z) : buffer_result :=
  b <- copy_into b offset v ;; Ret ([], <[a := b]> μ).

Definition buffer_create : buffer_result :=
  size <- luaL_checkinteger args 1 ;;
  luaL_argcheck (0 <=? size) 1 "size" ;;;
  r <- lua_newbuffer size ;;
  let '(a, μ) := r in Ret ([LBuffer a []], μ).

Definition buffer_fromstring : buffer_result :=
  val <- luaL_checklstring args 1 ;;
  r <- lua_newbuffer (blen val) ;;
  let '(a, μ) := r in Ret ([LBuffer a []], <[a := val]> μ).

Definition buffer_tostring : buffer_result :=
  r <- luaL_checkbuffer 1 ;;
  let '(_, b) := r in Ret ([LString b], μ).

Definition buffer_readinteger (T : int_type) : buffer_result :=
  r <- luaL_checkbuffer 1 ;;
  let '(_, b) := r in
  offset <- luaL_checkinteger args 2 ;;
  if isoutofbounds offset (blen b) (sizeof T) then out_of_bounds
  else val <- copy_from b offset (sizeof T) ;;
       Ret ([LNumber (double_of_Z (value_of T val))], μ).

Definition buffer_writeinteger (T : int_type) : buffer_result :=
  r <- luaL_checkbuffer 1 ;;
  let '(a, b) := r in
  offset <- luaL_checkinteger args 2 ;;
  value <- luaL_checkunsigned args 3 ;;
  if isoutofbounds offset (blen b) (sizeof T) then out_of_bounds
  else store_bytes a b offset (image_of T value).

Definition buffer_readlong : buffer_result :=
  r <- luaL_checkbuffer 1 ;;
  let '(_, b) := r in
  offset <- luaL_checkinteger args 2 ;;
  if isoutofbounds offset (blen b) 8 then out_of_bounds
  else val <- copy_from b offset 8 ;; Ret ([lua_pushinteger64 (le_combine val)], μ).

Definition buffer_writelong : buffer_result :=
  r <- luaL_checkbuffer 1 ;;
  let '(a, b) := r in
  offset <- luaL_checkinteger args 2 ;;
  value <- luaL_checkinteger64 args 3 ;;
  if isoutofbounds offset (blen b) 8 then out_of_bounds
  else store_bytes a b offset (le_split 8 value).

(** For [float], of 4 bytes, and [double], of 8. *)
Definition buffer_readfp (size : Z) : buffer_result :=
  r <- luaL_checkbuffer 1 ;;
  let '(_, b) := r in
  offset <- luaL_checkinteger args 2 ;;
  if isoutofbounds offset (blen b) size then out_of_bounds
  else val <- copy_from b offset size ;; Ret ([LNumber (float_value val size)], μ).

Definition buffer_writefp (size : Z) : buffer_result :=
  r <- luaL_checkbuffer 1 ;;
  let '(a, b) := r in
  offset <- luaL_checkinteger args 2 ;;
  value <- luaL_checknumber args 3 ;;
  if isoutofbounds offset (blen b) size then out_of_bounds
  else store_bytes a b offset (float_image value size).

Definition buffer_readstring : buffer_result :=
  r <- luaL_checkbuffer 1 ;;
  let '(_, b) := r in
  offset <- luaL_checkinteger args 2 ;;
  size <- luaL_checkinteger args 3 ;;
  luaL_argcheck (0 <=? size) 3 "size" ;;;
  if isoutofbounds offset (blen b) (u32 size) then out_of_bounds
  else val <- copy_from b offset size ;; Ret ([LString val], μ).

Definition buffer_writestring : buffer_result :=
  r <- luaL_checkbuffer 1 ;;
  let '(a, b) := r in
  offset <- luaL_checkinteger args 2 ;;
  val <- luaL_checklstring args 3 ;;
  count <- luaL_optinteger args 4 (s32 (blen val)) ;;
  luaL_argcheck (0 <=? count) 4 "count" ;;;
  if blen val <? count then luaL_error "string length overflow"
  else if isoutofbounds offset (blen b) (u32 count) then out_of_bounds
  else v <- copy_from val 0 count ;; store_bytes a b offset v.

Definition buffer_len : buffer_result :=
  r <- luaL_checkbuffer 1 ;;
  let '(_, b) := r in Ret ([LNumber (double_of_Z (u32 (blen b)))], μ).

Definition buffer_copy : buffer_result :=
  r <- luaL_checkbuffer 1 ;;
  let '(ta, tb) := r in
  toffset <- luaL_checkinteger args 2 ;;
  r <- luaL_checkbuffer 3 ;;
  let '(_, sb) := r in
  soffset <- luaL_optinteger args 4 0 ;;
  rest <- sub_s 32 (s32 (blen sb)) soffset ;;
  size <- luaL_optinteger args 5 rest ;;
  if size <? 0 then out_of_bounds
  else if isoutofbounds soffset (blen sb) (u32 size) then out_of_bounds
  else if isoutofbounds toffset (blen tb) (u32 size) then out_of_bounds
  else v <- copy_from sb soffset size ;; store_bytes ta tb toffset v.

Definition buffer_fill : buffer_result :=
  r <- luaL_checkbuffer 1 ;;
  let '(a, b) := r in
  offset <- luaL_checkinteger args 2 ;;
  value <- luaL_checkunsigned args 3 ;;
  rest <- sub_s 32 (s32 (blen b)) offset ;;
  size <- luaL_optinteger args 4 rest ;;
  if size <? 0 then out_of_bounds
  else if isoutofbounds offset (blen b) (u32 size) then out_of_bounds
  else store_bytes a b offset (replicate (Z.to_nat size) (Z.land value 0xFF)).

(** [memcpy(&data, buf + startbyte, endbyte - startbyte)], into a word of 8 bytes *)
Definition load_bits (b : list Z) (startbyte endbyte : Z) : outcome Z :=
  let n := sub_u 32 endbyte startbyte in
  if 8 <? n then Undefined "write outside of the word"
  else val <- copy_from b startbyte n ;; Ret (le_combine val).

(** The checks that both bit functions make: the bytes that hold the bits. *)
Definition bit_range (b : list Z) (bitoffset bitcount : Z) : outcome (Z * Z) :=
  if bitoffset <? 0 then out_of_bounds
  else if 32 <? u32 bitcount then luaL_error "bit count is out of range of [0; 32]"
  else
    bitend <- add_s 64 bitoffset bitcount ;;
    if mul_u 64 (blen b) 8 <? u64 bitend then out_of_bounds
    else
      bitend7 <- add_s 64 bitend 7 ;;
      Ret (u32 (Z.quot bitoffset 8), u32 (Z.quot bitend7 8)).

Definition buffer_readbits : buffer_result :=
  r <- luaL_checkbuffer 1 ;;
  let '(_, b) := r in
  bitoffset <- luaL_checknumber args 2 ;;
  let bitoffset := luai_num2long bitoffset in
  bitcount <- luaL_checkinteger args 3 ;;
  r <- bit_range b bitoffset bitcount ;;
  let '(startbyte, endbyte) := r in
  data <- load_bits b startbyte endbyte ;;
  let subbyteoffset := Z.land bitoffset 7 in
  let mask := sub_u 64 (shl_u 64 1 bitcount) 1 in
  Ret ([lua_pushunsigned (u32 (Z.land (Z.shiftr data subbyteoffset) mask))], μ).

Definition buffer_writebits : buffer_result :=
  r <- luaL_checkbuffer 1 ;;
  let '(a, b) := r in
  bitoffset <- luaL_checknumber args 2 ;;
  let bitoffset := luai_num2long bitoffset in
  bitcount <- luaL_checkinteger args 3 ;;
  value <- luaL_checkunsigned args 4 ;;
  r <- bit_range b bitoffset bitcount ;;
  let '(startbyte, endbyte) := r in
  data <- load_bits b startbyte endbyte ;;
  let subbyteoffset := Z.land bitoffset 7 in
  let mask := shl_u 64 (sub_u 64 (shl_u 64 1 bitcount) 1) subbyteoffset in
  let data := Z.lor (Z.land data (u64 (Z.lnot mask))) (Z.land (shl_u 64 value subbyteoffset) mask) in
  store_bytes a b startbyte (le_split (Z.to_nat (sub_u 32 endbyte startbyte)) data).
End Library.

(** [bufferlib] *)
Definition bufferlib `{Target, NumFormat} : list (string * (list TValue -> memory -> buffer_result)) := [
  ("create", buffer_create);
  ("fromstring", buffer_fromstring);
  ("tostring", buffer_tostring);
  ("readi8", fun args μ => buffer_readinteger args μ int8_t);
  ("readu8", fun args μ => buffer_readinteger args μ uint8_t);
  ("readi16", fun args μ => buffer_readinteger args μ int16_t);
  ("readu16", fun args μ => buffer_readinteger args μ uint16_t);
  ("readi32", fun args μ => buffer_readinteger args μ int32_t);
  ("readu32", fun args μ => buffer_readinteger args μ uint32_t);
  ("readf32", fun args μ => buffer_readfp args μ 4);
  ("readf64", fun args μ => buffer_readfp args μ 8);
  ("writei8", fun args μ => buffer_writeinteger args μ int8_t);
  ("writeu8", fun args μ => buffer_writeinteger args μ uint8_t);
  ("writei16", fun args μ => buffer_writeinteger args μ int16_t);
  ("writeu16", fun args μ => buffer_writeinteger args μ uint16_t);
  ("writei32", fun args μ => buffer_writeinteger args μ int32_t);
  ("writeu32", fun args μ => buffer_writeinteger args μ uint32_t);
  ("writef32", fun args μ => buffer_writefp args μ 4);
  ("writef64", fun args μ => buffer_writefp args μ 8);
  ("readstring", buffer_readstring);
  ("writestring", buffer_writestring);
  ("len", buffer_len);
  ("copy", buffer_copy);
  ("fill", buffer_fill);
  ("readbits", buffer_readbits);
  ("writebits", buffer_writebits);
  ("readinteger", buffer_readlong);
  ("writeinteger", buffer_writelong)
].

(** * Fast paths *)

(** The result of a fast path; [None] is [-1]. *)
Definition fast_result := outcome (option (list TValue * memory)).

Section Fast.
Context `{Target}.
Variable nresults : Z.
Variable params : list TValue.
Variable μ : memory.

(** [checkoutofbounds] *)
Definition checkoutofbounds (offset len accessize : Z) : bool :=
  len <=? add_u 64 (u32 offset) (accessize - 1).

(** The guard of the read functions, and what they read. *)
Definition fast_read (size : Z) (result : list Z -> TValue) : fast_result :=
  match params with
  | LBuffer a _ :: LNumber n :: _ =>
      if nresults <=? 1 then
        match μ !! a with
        | None => Undefined "no buffer at this address"
        | Some b =>
            let offset := luai_num2int n in
            if checkoutofbounds offset (blen b) size then Ret None
            else val <- copy_from b (u32 offset) size ;; Ret (Some ([result val], μ))
        end
      else Ret None
  | _ => Ret None
  end.

Definition luauF_readinteger (T : int_type) : fast_result :=
  fast_read (sizeof T) (fun val => LNumber (double_of_Z (value_of T val))).
Definition luauF_readfp (size : Z) : fast_result := fast_read size (fun val => LNumber (float_value val size)).
Definition luauF_bufferreadlong : fast_result := fast_read 8 (fun val => LInteger (s64 (le_combine val))).

(** The guard of the write functions, and the bytes that they write. *)
Definition fast_write (size : Z) (image : TValue -> option (list Z)) : fast_result :=
  match params with
  | LBuffer a _ :: LNumber n :: v :: _ =>
      match image v with
      | None => Ret None
      | Some bytes =>
          if nresults <=? 0 then
            match μ !! a with
            | None => Undefined "no buffer at this address"
            | Some b =>
                let offset := luai_num2int n in
                if checkoutofbounds offset (blen b) size then Ret None
                else b <- copy_into b (u32 offset) bytes ;; Ret (Some ([], <[a := b]> μ))
            end
          else Ret None
      end
  | _ => Ret None
  end.

Definition luauF_writeinteger (T : int_type) : fast_result :=
  fast_write (sizeof T)
    (fun v => match v with LNumber n => Some (image_of T (luai_num2unsigned n)) | _ => None end).
Definition luauF_writefp (size : Z) : fast_result :=
  fast_write size (fun v => match v with LNumber n => Some (float_image n size) | _ => None end).
Definition luauF_bufferwritelong : fast_result :=
  fast_write 8 (fun v => match v with LInteger l => Some (le_split 8 l) | _ => None end).
End Fast.

(** [LOP_FASTCALL], for a function that works on the memory. *)
Definition op_fastcall_buffer (safeenv : bool) (fast : Z -> list TValue -> memory -> fast_result)
    (lib : list TValue -> memory -> buffer_result) (nresults : Z) (params : list TValue) (μ : memory)
    : buffer_result :=
  let call :=
    r <- lib params μ ;; let '(vs, μ) := r in Ret (adjust_results nresults vs, μ) in
  if safeenv then
    r <- fast nresults params μ ;;
    match r with
    | Some (vs, μ) => Ret (adjust_results nresults vs, μ)
    | None => call
    end
  else call.

(** The rows of [luauF_table] for the buffer library. *)
Definition buffer_fast `{Target, NumFormat} :
    list ((Z -> list TValue -> memory -> fast_result) * (list TValue -> memory -> buffer_result)) := [
  ((fun n p μ => luauF_readinteger n p μ int8_t), fun args μ => buffer_readinteger args μ int8_t);
  ((fun n p μ => luauF_readinteger n p μ uint8_t), fun args μ => buffer_readinteger args μ uint8_t);
  ((fun n p μ => luauF_writeinteger n p μ uint8_t), fun args μ => buffer_writeinteger args μ uint8_t);
  ((fun n p μ => luauF_readinteger n p μ int16_t), fun args μ => buffer_readinteger args μ int16_t);
  ((fun n p μ => luauF_readinteger n p μ uint16_t), fun args μ => buffer_readinteger args μ uint16_t);
  ((fun n p μ => luauF_writeinteger n p μ uint16_t), fun args μ => buffer_writeinteger args μ uint16_t);
  ((fun n p μ => luauF_readinteger n p μ int32_t), fun args μ => buffer_readinteger args μ int32_t);
  ((fun n p μ => luauF_readinteger n p μ uint32_t), fun args μ => buffer_readinteger args μ uint32_t);
  ((fun n p μ => luauF_writeinteger n p μ uint32_t), fun args μ => buffer_writeinteger args μ uint32_t);
  ((fun n p μ => luauF_readfp n p μ 4), fun args μ => buffer_readfp args μ 4);
  ((fun n p μ => luauF_writefp n p μ 4), fun args μ => buffer_writefp args μ 4);
  ((fun n p μ => luauF_readfp n p μ 8), fun args μ => buffer_readfp args μ 8);
  ((fun n p μ => luauF_writefp n p μ 8), fun args μ => buffer_writefp args μ 8);
  (luauF_bufferreadlong, buffer_readlong);
  (luauF_bufferwritelong, buffer_writelong)
].
