(* ===== verification/BufMem.v ===== *)
(** The memory accesses of the buffer library, [BufLib.v]: a guarded access stays
    inside of its buffer, what a write stores is what a read at the same place yields,
    and bytes read as a number are bits of the whole buffer; the bit functions touch
    the bytes that hold the bits that they are asked for, and no other bits change. *)
From stdpp Require Import gmap.
From S2P Require Import Prelude Word Bytes Double NumParse LuaApi Arith Key StrPack BufLib.
Open Scope Z_scope.
Open Scope outcome_scope.

(** * Ranges *)

Lemma isoutofbounds_false offset len n :
  in_s 32 offset -> 0 <= len <= MAX_BUFFER_SIZE -> 0 <= n < 2 ^ 33 ->
  isoutofbounds offset len n = false -> 0 <= offset /\ offset + n <= len.
Proof.
  unfold isoutofbounds, MAX_BUFFER_SIZE. intros Ho Hl Hn Hb. apply Z.ltb_ge in Hb.
  unfold in_s in Ho. destruct (Z.lt_ge_cases offset 0).
  - assert (u32 offset = offset + 2 ^ 32) as E.
    { unfold u32, cast_u. rewrite <- (Z.mod_add offset 1) by lia. apply Z.mod_small. lia. }
    unfold add_u in Hb. rewrite E, cast_u_id in Hb by (unfold in_u; lia). lia.
  - unfold add_u in Hb. rewrite (cast_u_id 32), cast_u_id in Hb by (unfold in_u; lia). lia.
Qed.

Lemma isoutofbounds_inside offset len n :
  0 <= offset -> 0 <= n -> offset + n <= len -> len <= MAX_BUFFER_SIZE -> isoutofbounds offset len n = false.
Proof.
  unfold isoutofbounds, MAX_BUFFER_SIZE, add_u. intros. apply Z.ltb_ge.
  rewrite (cast_u_id 32), cast_u_id by (unfold in_u; lia). lia.
Qed.

(** The range of an access, inside of the buffer. *)
Definition inside (b : list Z) (offset n : Z) : Prop := 0 <= offset /\ 0 <= n /\ offset + n <= blen b.

(** The bytes of a range. *)
Definition slice (b : list Z) (offset n : Z) : list Z := take (Z.to_nat n) (drop (Z.to_nat offset) b).

(** The buffer with the bytes [v] at [offset]. *)
Definition splice (b : list Z) (offset : Z) (v : list Z) : list Z :=
  take (Z.to_nat offset) b ++ v ++ drop (Z.to_nat offset + length v) b.

Lemma copy_from_inside b offset n : inside b offset n -> copy_from b offset n = Ret (slice b offset n).
Proof.
  intros (Ho & Hn & Hl). unfold copy_from, blen in *.
  by rewrite !(proj2 (Z.leb_le _ _)) by lia.
Qed.

Lemma copy_into_inside b offset v : inside b offset (blen v) -> copy_into b offset v = Ret (splice b offset v).
Proof.
  intros (Ho & _ & Hl). unfold copy_into, blen in *. by rewrite !(proj2 (Z.leb_le _ _)) by lia.
Qed.

Lemma slice_length b offset n : inside b offset n -> blen (slice b offset n) = n.
Proof. intros (Ho & Hn & Hl). unfold blen, slice in *. rewrite length_take, length_drop. lia. Qed.

Lemma splice_length b offset v : inside b offset (blen v) -> length (splice b offset v) = length b.
Proof.
  intros (Ho & _ & Hl). unfold splice, blen in *. rewrite !length_app, length_take, length_drop. lia.
Qed.

Lemma slice_bytes b offset n : byte_list b -> byte_list (slice b offset n).
Proof. intros Hb. by apply Forall_take, Forall_drop. Qed.

Lemma splice_bytes b offset v : byte_list b -> byte_list v -> byte_list (splice b offset v).
Proof.
  intros Hb Hv. apply Forall_app. split; [by apply Forall_take|].
  apply Forall_app. split; [done|by apply Forall_drop].
Qed.

Lemma splice_lookup b offset v i : inside b offset (blen v) ->
  splice b offset v !! i =
    if decide (Z.to_nat offset <= i < Z.to_nat offset + length v)%nat then v !! (i - Z.to_nat offset)%nat else b !! i.
Proof.
  intros (Ho & _ & Hl). unfold splice, blen in *.
  destruct (decide (i < Z.to_nat offset)%nat).
  - rewrite lookup_app_l by (rewrite length_take; lia). rewrite lookup_take_lt by done.
    by rewrite decide_False by lia.
  - rewrite lookup_app_r by (rewrite length_take; lia). rewrite length_take, Nat.min_l by lia.
    destruct (decide (i < Z.to_nat offset + length v)%nat).
    + rewrite lookup_app_l by lia. by rewrite decide_True by lia.
    + rewrite lookup_app_r, lookup_drop by lia. rewrite decide_False by lia. f_equal. lia.
Qed.

Lemma slice_lookup b offset n i : inside b offset n ->
  slice b offset n !! i = if decide (i < Z.to_nat n)%nat then b !! (Z.to_nat offset + i)%nat else None.
Proof.
  intros Hin. unfold slice. case_decide.
  - by rewrite lookup_take_lt, lookup_drop.
  - apply lookup_ge_None_2. rewrite length_take. lia.
Qed.

(** A read behind a write, at the same place and at another one. *)
Lemma slice_splice b offset v : inside b offset (blen v) -> slice (splice b offset v) offset (blen v) = v.
Proof.
  intros Hin. assert (Hin' : inside (splice b offset v) offset (blen v))
    by (unfold inside, blen in *; by rewrite splice_length).
  apply list_eq. intros i. rewrite slice_lookup, splice_lookup by done. unfold blen. rewrite Nat2Z.id.
  case_decide; [|symmetry; apply lookup_ge_None_2; lia]. rewrite decide_True by lia. f_equal. lia.
Qed.

Lemma slice_splice_disjoint b offset v offset' n :
  inside b offset (blen v) -> inside b offset' n -> offset' + n <= offset \/ offset + blen v <= offset' ->
  slice (splice b offset v) offset' n = slice b offset' n.
Proof.
  intros Hin Hin' Hd. assert (Hin2 : inside (splice b offset v) offset' n)
    by (unfold inside, blen in *; by rewrite splice_length).
  apply list_eq. intros i. rewrite !slice_lookup, splice_lookup by done. case_decide; [|done].
  unfold inside, blen in *. rewrite decide_False by lia. done.
Qed.

(** * The buffer as one number *)

Lemma testbit_combine_drop b k i : byte_list b -> 0 <= i ->
  Z.testbit (le_combine (drop k b)) i = Z.testbit (le_combine b) (i + 8 * Z.of_nat k).
Proof.
  revert b. induction k as [|k IH]; intros b Hb Hi; [f_equal; lia|].
  destruct Hb as [|x b Hx Hb]; [cbn; by rewrite !Z.testbit_0_l|]. cbn [drop].
  rewrite IH by done. rewrite testbit_le_combine_cons by (done || lia).
  rewrite (proj2 (Z.ltb_ge _ _)) by lia. f_equal. lia.
Qed.

Lemma testbit_combine_take b k i : byte_list b -> 0 <= i ->
  Z.testbit (le_combine (take k b)) i = Z.testbit (le_combine b) i && (i <? 8 * Z.of_nat k).
Proof.
  revert b i. induction k as [|k IH]; intros b i Hb Hi.
  { rewrite take_0, testbit_le_combine_nil. rewrite (proj2 (Z.ltb_ge _ _)) by lia. by rewrite andb_false_r. }
  destruct Hb as [|x b Hx Hb]; [cbn; by rewrite !Z.testbit_0_l|]. cbn [firstn].
  rewrite !testbit_le_combine_cons by (done || lia). destruct (Z.ltb_spec i 8).
  - rewrite (proj2 (Z.ltb_lt _ _)) by lia. by rewrite andb_true_r.
  - rewrite IH by (done || lia). f_equal. destruct (Z.ltb_spec (i - 8) (8 * Z.of_nat k)); symmetry; [apply Z.ltb_lt|apply Z.ltb_ge]; lia.
Qed.

Lemma testbit_slice b offset n i : byte_list b -> inside b offset n -> 0 <= i ->
  Z.testbit (le_combine (slice b offset n)) i =
    Z.testbit (le_combine b) (8 * offset + i) && (i <? 8 * n).
Proof.
  intros Hb (Ho & Hn & _) Hi. unfold slice. rewrite testbit_combine_take by (by apply Forall_drop || done).
  rewrite testbit_combine_drop by done. f_equal; [f_equal; lia|f_equal; lia].
Qed.

(** The bits [bitoffset ..] of the whole buffer, [bitcount] of them. *)
Definition bits (b : list Z) (bitoffset bitcount : Z) : Z :=
  Z.land (Z.shiftr (le_combine b) bitoffset) (Z.ones bitcount).

Lemma testbit_bits b o n i : 0 <= o -> 0 <= n -> 0 <= i ->
  Z.testbit (bits b o n) i = Z.testbit (le_combine b) (o + i) && (i <? n).
Proof.
  intros Ho Hn Hi. unfold bits. rewrite Z.land_spec, Z.shiftr_spec by done. rewrite Z.testbit_ones_nonneg by lia. by rewrite Z.add_comm.
Qed.

Lemma bits_range b o n : 0 <= n -> 0 <= bits b o n < 2 ^ n.
Proof. intros Hn. unfold bits. rewrite Z.land_ones by done. apply Z.mod_pos_bound. by apply pow2_pos. Qed.

(** A whole number of bytes. *)
Lemma combine_slice b offset n : byte_list b -> inside b offset n ->
  le_combine (slice b offset n) = bits b (8 * offset) (8 * n).
Proof.
  intros Hb Hin. pose proof Hin as (Ho & Hn & _). apply Z.bits_inj'. intros i Hi.
  by rewrite testbit_slice, testbit_bits by (done || lia).
Qed.

Lemma combine_splice b offset v i : byte_list b -> byte_list v -> inside b offset (blen v) -> 0 <= i ->
  Z.testbit (le_combine (splice b offset v)) i =
    if (8 * offset <=? i) && (i <? 8 * (offset + blen v)) then Z.testbit (le_combine v) (i - 8 * offset)
    else Z.testbit (le_combine b) i.
Proof.
  intros Hb Hv Hin Hi. pose proof (splice_bytes b offset v Hb Hv) as Hs.
  assert (Hlen : length (splice b offset v) = length b) by by apply splice_length.
  pose proof Hin as (Ho & _ & Hl).
  assert (Hget : forall o n, inside b o n -> 8 * o <= i < 8 * (o + n) ->
    Z.testbit (le_combine (splice b offset v)) i =
    Z.testbit (le_combine (slice (splice b offset v) o n)) (i - 8 * o)).
  { intros o n Hon Hr. rewrite testbit_slice; [|done|unfold inside, blen in *; by rewrite Hlen|lia].
    rewrite (proj2 (Z.ltb_lt _ _)) by lia. rewrite andb_true_r. f_equal. lia. }
  assert (Hold : forall o n, inside b o n -> 8 * o <= i < 8 * (o + n) ->
    Z.testbit (le_combine b) i = Z.testbit (le_combine (slice b o n)) (i - 8 * o)).
  { intros o n Hon Hr. rewrite testbit_slice by (done || lia).
    rewrite (proj2 (Z.ltb_lt _ _)) by lia. rewrite andb_true_r. f_equal. lia. }
  unfold inside, blen in *. destruct (Z.leb_spec (8 * offset) i); destruct (Z.ltb_spec i (8 * (offset + Z.of_nat (length v)))); cbn [andb].
  - rewrite (Hget offset (Z.of_nat (length v))) by lia. by rewrite slice_splice.
  - destruct (Z.lt_ge_cases i (8 * Z.of_nat (length b))).
    + set (o := offset + Z.of_nat (length v)).
      rewrite (Hget o (Z.of_nat (length b) - o)), (Hold o (Z.of_nat (length b) - o)) by lia.
      rewrite slice_splice_disjoint; [done|done|unfold inside, blen; lia|right; unfold blen; lia].
    + rewrite !testbit_in_u_high with (w := 8 * Z.of_nat (length b)); try done; try lia;
        [by apply le_combine_range|rewrite <- Hlen; by apply le_combine_range].
  - rewrite (Hget 0 offset), (Hold 0 offset) by lia.
    rewrite slice_splice_disjoint; [done|done|unfold inside, blen; lia|left; lia].
  - lia.
Qed.

(** * Bit functions *)

Lemma is_in_s w x : in_s w x -> in_s_b w x = true.
Proof. apply in_s_b_spec. Qed.

(** The bits are in the buffer. *)
Definition bits_inside (b : list Z) (o c : Z) : Prop := 0 <= o /\ 0 <= c <= 32 /\ o + c <= 8 * blen b.

#[export] Instance bits_inside_dec b o c : Decision (bits_inside b o c).
Proof. unfold bits_inside. apply _. Defined.

(** The checks accept those, and compute the bytes. *)
Lemma bit_range_spec b o c : in_s 64 o -> in_s 32 c -> blen b <= MAX_BUFFER_SIZE ->
  match bit_range b o c with
  | Ret r => bits_inside b o c /\ r = (o / 8, (o + c + 7) / 8)
  | Throw _ => ~ bits_inside b o c
  | Undefined w => w = "signed overflow in +"%string /\ 2 ^ 63 - 32 <= o
  end.
Proof.
  unfold bit_range, bits_inside, in_s, MAX_BUFFER_SIZE. intros Ho Hc Hb.
  assert (0 <= blen b) by (unfold blen; lia).
  destruct (Z.ltb_spec o 0); [cbn; lia|].
  assert (Hu : 32 <? u32 c = negb ((0 <=? c) && (c <=? 32))).
  { destruct (Z.leb_spec 0 c).
    - rewrite cast_u_id by (unfold in_u; lia). cbn [andb]. destruct (Z.leb_spec c 32); cbn [negb];
        [apply Z.ltb_ge|apply Z.ltb_lt]; lia.
    - cbn [andb negb]. apply Z.ltb_lt. assert (cast_u 32 c = c + 2 ^ 32) as ->; [|lia].
      unfold cast_u. rewrite <- (Z.mod_add c 1) by lia. apply Z.mod_small. lia. }
  rewrite Hu. clear Hu. destruct (Z.leb_spec 0 c); cbn [andb negb]; [|cbn; lia].
  destruct (Z.leb_spec c 32); cbn [negb]; [|cbn; lia].
  unfold add_s at 1. destruct (in_s_b 64 (o + c)) eqn:Hs; cbn [outcome_bind].
  - apply in_s_b_spec in Hs. unfold in_s in Hs. unfold mul_u.
    rewrite !(cast_u_id 64) by (unfold in_u; lia).
    destruct (Z.ltb_spec (blen b * 8) (o + c)); [cbn; lia|].
    unfold add_s. rewrite is_in_s by (unfold in_s; lia). cbn [outcome_bind]. split; [lia|].
    rewrite !Z.quot_div_nonneg by lia. by rewrite !cast_u_id by (unfold in_u; Z.to_euclidean_division_equations; lia).
  - split; [done|]. assert (~ in_s 64 (o + c)) as Hn by (intros Hi%in_s_b_spec; congruence).
    unfold in_s in Hn. lia.
Qed.

Section Bytes.
Context (b : list Z) (o c : Z).
Context (Hbytes : byte_list b) (Hmax : blen b <= MAX_BUFFER_SIZE) (Hin : bits_inside b o c).

Notation startbyte := (o / 8).
Notation endbyte := ((o + c + 7) / 8).
Notation count := (endbyte - startbyte).

Lemma bytes_inside : inside b startbyte count /\ count <= 5 /\ 8 * startbyte + 8 * count >= o + c.
Proof.
  destruct Hin as (? & ? & ?). unfold inside, blen in *. Z.to_euclidean_division_equations; lia.
Qed.

Lemma count_u : sub_u 32 endbyte startbyte = count.
Proof.
  destruct bytes_inside as ((? & ? & ?) & ? & ?). unfold sub_u. apply cast_u_id. unfold in_u. lia.
Qed.

Lemma load_bits_inside : load_bits b startbyte endbyte = Ret (le_combine (slice b startbyte count)).
Proof.
  destruct bytes_inside as (Hi & ? & ?). unfold load_bits. rewrite count_u.
  rewrite (proj2 (Z.ltb_ge _ _)) by lia. by rewrite copy_from_inside.
Qed.

Lemma subbyte : Z.land o 7 = o mod 8.
Proof. change 7 with (Z.ones 3). by rewrite Z.land_ones. Qed.

Lemma count_mask : sub_u 64 (shl_u 64 1 c) 1 = Z.ones c.
Proof.
  destruct Hin as (_ & Hc & _). unfold sub_u, shl_u. rewrite Z.shiftl_1_l.
  assert (0 < 2 ^ c <= 2 ^ 32) by (split; [apply pow2_pos; lia|apply (Z.pow_le_mono_r 2 c 32); lia]).
  rewrite !cast_u_id by (rewrite ?cast_u_id; unfold in_u; lia). rewrite Z.ones_equiv. lia.
Qed.

Lemma data_bits i : 0 <= i -> Z.testbit (le_combine (slice b startbyte count)) i
  = Z.testbit (le_combine b) (8 * startbyte + i) && (i <? 8 * count).
Proof. intros Hi. apply testbit_slice; [done|apply bytes_inside|done]. Qed.

Lemma read_bits_value :
  u32 (Z.land (Z.shiftr (le_combine (slice b startbyte count)) (Z.land o 7))
    (sub_u 64 (shl_u 64 1 c) 1)) = bits b o c.
Proof.
  rewrite count_mask, subbyte. destruct bytes_inside as (_ & _ & He). destruct Hin as (Ho & Hc & _).
  pose proof (Z.mod_pos_bound o 8 ltac:(lia)). pose proof (Z.div_mod o 8 ltac:(lia)).
  assert (Hv : Z.land (Z.shiftr (le_combine (slice b startbyte count)) (o mod 8)) (Z.ones c) = bits b o c).
  { apply Z.bits_inj'. intros i Hi. rewrite Z.land_spec, Z.shiftr_spec, testbit_bits, data_bits by lia.
    rewrite Z.testbit_ones_nonneg by lia. replace (8 * startbyte + (i + o mod 8)) with (o + i) by lia.
    destruct (Z.ltb_spec i c); [|by rewrite !andb_false_r].
    rewrite (proj2 (Z.ltb_lt _ _)) by lia. by rewrite !andb_true_r. }
  rewrite Hv. apply cast_u_id. unfold in_u. pose proof (bits_range b o c ltac:(lia)).
  pose proof (Z.pow_le_mono_r 2 c 32 ltac:(lia) ltac:(lia)). lia.
Qed.

(** The word that is written back. *)
Definition written (value : Z) : Z :=
  let mask := shl_u 64 (sub_u 64 (shl_u 64 1 c) 1) (Z.land o 7) in
  Z.lor (Z.land (le_combine (slice b startbyte count)) (u64 (Z.lnot mask)))
    (Z.land (shl_u 64 value (Z.land o 7)) mask).

Lemma written_bits value i : 0 <= i < 8 * count ->
  Z.testbit (written value) i =
    if (o <=? 8 * startbyte + i) && (8 * startbyte + i <? o + c)
    then Z.testbit value (8 * startbyte + i - o) else Z.testbit (le_combine b) (8 * startbyte + i).
Proof.
  intros Hi. unfold written. rewrite count_mask, subbyte. destruct bytes_inside as (_ & H5 & He).
  destruct Hin as (Ho & Hc & _).
  pose proof (Z.mod_pos_bound o 8 ltac:(lia)). pose proof (Z.div_mod o 8 ltac:(lia)).
  rewrite Z.lor_spec, !Z.land_spec. rewrite testbit_cast_u, Z.lnot_spec by lia.
  rewrite !testbit_shl_u, data_bits by lia.
  rewrite (proj2 (Z.ltb_lt i 64)), (proj2 (Z.ltb_lt i (8 * count))) by lia. rewrite !andb_true_r.
  destruct (Z.leb_spec o (8 * startbyte + i)); cbn [andb].
  - rewrite Z.testbit_ones_nonneg by lia.
    replace (8 * startbyte + i - o) with (i - o mod 8) by lia.
    destruct (Z.ltb_spec (8 * startbyte + i) (o + c)).
    + rewrite (proj2 (Z.ltb_lt (i - o mod 8) c)) by lia. rewrite andb_true_r. cbn [negb]. by rewrite andb_false_r.
    + rewrite (proj2 (Z.ltb_ge (i - o mod 8) c)) by lia. by rewrite !andb_false_r, andb_true_r, orb_false_r.
  - rewrite !(Z.testbit_neg_r _ (i - o mod 8)) by lia. by rewrite !andb_true_r, orb_false_r.
Qed.

(** The bits of the buffer after the word is written back. *)
Lemma splice_written value i : 0 <= i ->
  Z.testbit (le_combine (splice b startbyte (le_split (Z.to_nat count) (written value)))) i =
    if (o <=? i) && (i <? o + c) then Z.testbit value (i - o) else Z.testbit (le_combine b) i.
Proof.
  intros Hi. destruct bytes_inside as (Hs & H5 & He).
  assert (Hlen : blen (le_split (Z.to_nat count) (written value)) = count)
    by (unfold blen; rewrite length_le_split; destruct Hs; lia).
  rewrite combine_splice; [|done|apply le_split_bytes|by rewrite Hlen|done]. rewrite Hlen.
  destruct Hs as (Hs & Hn & _).
  pose proof (Z.mod_pos_bound o 8 ltac:(lia)). pose proof (Z.div_mod o 8 ltac:(lia)).
  destruct (Z.leb_spec (8 * startbyte) i); [destruct (Z.ltb_spec i (8 * (startbyte + count)))|]; cbn [andb].
  - rewrite testbit_le_combine_split by lia. rewrite (proj2 (Z.ltb_lt _ _)) by lia. rewrite andb_true_r.
    rewrite written_bits by lia. by replace (8 * startbyte + (i - 8 * startbyte)) with i by lia.
  - rewrite (proj2 (Z.ltb_ge i (o + c))) by lia. by rewrite andb_false_r.
  - rewrite (proj2 (Z.leb_gt o i)) by lia. done.
Qed.
End Bytes.
