(* ===== verification/BufSafe.v ===== *)
(** The functions of the buffer library, [BufLib.v], on every argument: no access is
    outside of a buffer, the buffers keep their lengths, and what is not defined is
    the overflow of an [int] in four of the functions. *)
From stdpp Require Import gmap.
From S2P Require Import Prelude Word Bytes Double NumParse LuaApi Arith Key StrPack StrPackSpec.
From S2P Require Import BufLib BufMem.
Open Scope Z_scope.
Open Scope outcome_scope.

(** The buffers are bytes, of a length that the library accepts. *)
Definition wf_buffer (b : list Z) : Prop := byte_list b /\ blen b <= MAX_BUFFER_SIZE.
Definition wf_memory (μ : memory) : Prop := map_Forall (fun _ => wf_buffer) μ.

(** The arguments: a buffer exists, strings are at most as long as the VM makes them. *)
Definition wf_arg (μ : memory) (v : TValue) : Prop :=
  match v with
  | LBuffer a _ => is_Some (μ !! a)
  | LString s => wf_buffer s
  | LInteger l => in_s 64 l
  | _ => True
  end.

(** Every buffer is still there, as long as it was. *)
Definition keeps (μ μ' : memory) : Prop :=
  forall a b, μ !! a = Some b -> exists b', μ' !! a = Some b' /\ length b' = length b.

(** What a call leaves. *)
Definition kept (μ : memory) (r : list TValue * memory) : Prop :=
  wf_memory r.2 /\ keeps μ r.2 /\ Forall (wf_arg r.2) r.1.

(** [o] is undefined for a reason of [ov] only, and [Q] holds of what it returns. *)
Definition safe_but {A} (ov : list string) (o : outcome A) (Q : A -> Prop) : Prop :=
  match o with Ret a => Q a | Throw _ => True | Undefined w => w ∈ ov end.

Lemma safe_but_step {A B} ov (m : outcome A) (f : A -> outcome B) P Q :
  safe_but ov m P -> (forall a, P a -> safe_but ov (f a) Q) -> safe_but ov (outcome_bind m f) Q.
Proof. destruct m; cbn; auto. Qed.

Tactic Notation "run_by" uconstr(t) := eapply safe_but_step; [eapply t; eauto|cbv beta].

Section Safe.
Context `{Target, NumFormat}.
Context (Hfmt : forall d, wf_buffer (luai_num2str d)).
Context (ov : list string) (args : list TValue) (μ : memory).
Context (Hμ : wf_memory μ) (Hargs : Forall (wf_arg μ) args).

Lemma index_wf i v : index2addr args i = Some v -> wf_arg μ v.
Proof. intros Hi. rewrite Forall_lookup in Hargs. by apply (Hargs _ _ Hi). Qed.

Lemma checkbuffer_safe i :
  safe_but ov (luaL_checkbuffer args μ i) (fun r => μ !! r.1 = Some r.2 /\ wf_buffer r.2).
Proof.
  unfold luaL_checkbuffer. destruct (index2addr args i) as [v|] eqn:Hi; [|done]. apply index_wf in Hi.
  destruct v; try done. destruct Hi as [b Hb]. rewrite Hb. split; [done|]. by apply (Hμ gc).
Qed.

Lemma checkinteger_safe i : safe_but ov (luaL_checkinteger args i) (in_s 32).
Proof. destruct (luaL_checkinteger args i) eqn:Hc; [by eapply checkinteger_range|done|].
  pose proof (checkinteger_defined args i) as Hd. by rewrite Hc in Hd. Qed.

Lemma checkunsigned_safe i : safe_but ov (luaL_checkunsigned args i) (in_u 32).
Proof. destruct (luaL_checkunsigned args i) eqn:Hc; [by eapply checkunsigned_range|done|].
  pose proof (checkunsigned_defined args i) as Hd. by rewrite Hc in Hd. Qed.

Lemma checknumber_safe i : safe_but ov (luaL_checknumber args i) (fun _ => True).
Proof. unfold luaL_checknumber. by case_match. Qed.

Lemma checkinteger64_safe i : safe_but ov (luaL_checkinteger64 args i) (fun _ => True).
Proof. unfold luaL_checkinteger64. by case_match. Qed.

Lemma arg_string_safe i : safe_but ov (luaL_checklstring args i) wf_buffer.
Proof.
  unfold luaL_checklstring, lua_tolstring. destruct (index2addr args i) as [[]|] eqn:Hi; try done.
  - apply Hfmt.
  - by apply index_wf in Hi.
Qed.

Lemma opt_arg_safe i d : in_s 32 d -> safe_but ov (luaL_optinteger args i d) (in_s 32).
Proof. intros Hd. unfold luaL_optinteger, luaL_opt. case_match; [done|]. apply checkinteger_safe. Qed.

Lemma argcheck_safe c i m : safe_but ov (luaL_argcheck c i m) (fun _ => c = true).
Proof. by destruct c. Qed.

(** * What the functions leave *)

Lemma blen_range b : wf_buffer b -> 0 <= blen b <= MAX_BUFFER_SIZE.
Proof. intros [_ Hb]. unfold blen in *. lia. Qed.

Lemma keeps_refl : keeps μ μ.
Proof. intros a b Hb. eauto. Qed.

(** A function that does not write. *)
Lemma read_safe vs : Forall (wf_arg μ) vs -> safe_but ov (Ret (vs, μ)) (kept μ).
Proof. intros Hv. split_and!; [done|apply keeps_refl|done]. Qed.

(** A function that writes into a buffer. *)
Lemma store_safe a b offset v : μ !! a = Some b -> byte_list v -> inside b offset (blen v) ->
  safe_but ov (store_bytes μ a b offset v) (kept μ).
Proof.
  intros Ha Hv Hin. destruct (Hμ _ _ Ha) as [Hb Hl]. unfold store_bytes.
  rewrite copy_into_inside by done. split_and!; [|intros a' b' Ha'|by constructor].
  - apply map_Forall_insert_2; [|done]. split; [by apply splice_bytes|].
    unfold blen in *. by rewrite splice_length.
  - cbn. destruct (decide (a' = a)) as [->|].
    + rewrite lookup_insert_eq. simplify_eq. eexists. split; [done|]. by apply splice_length.
    + rewrite lookup_insert_ne by done. eauto.
Qed.

(** The address of a new buffer is fresh. *)
Lemma new_buffer_fresh : μ !! new_buffer μ = None.
Proof.
  assert (Hlt : forall a b, μ !! a = Some b -> a < new_buffer μ).
  { unfold new_buffer. clear Hμ Hargs. revert μ.
    apply (map_fold_weak_ind (fun r m => forall a b, m !! a = Some b -> a < r)).
    - intros a b Hl. by rewrite lookup_empty in Hl.
    - intros i x m r Hi IH a b [[-> ->]|[Hne Hl]]%lookup_insert_Some; [lia|].
      specialize (IH _ _ Hl). lia. }
  destruct (μ !! new_buffer μ) as [b|] eqn:Hn; [|done]. apply Hlt in Hn. lia.
Qed.

(** A function that returns a new buffer. *)
Lemma new_safe sz v : 0 <= sz -> (sz <= MAX_BUFFER_SIZE -> wf_buffer v) ->
  safe_but ov (r <- lua_newbuffer μ sz ;; let '(a, μ') := r in Ret ([LBuffer a []], <[a := v]> μ'))
    (kept μ).
Proof.
  intros Hsz Hv. unfold lua_newbuffer. destruct (Z.ltb_spec MAX_BUFFER_SIZE sz); [done|].
  cbn [outcome_bind]. rewrite insert_insert_eq. split_and!; [|intros a b Ha|].
  - apply map_Forall_insert_2; auto.
  - cbn. rewrite lookup_insert_ne; [eauto|]. intros <-. by rewrite new_buffer_fresh in Ha.
  - repeat constructor. cbn. rewrite lookup_insert_eq. eauto.
Qed.

(** * The functions *)

(** A passed check of an access. *)
Lemma checked b offset n : wf_buffer b -> in_s 32 offset -> 0 <= n < 2 ^ 33 ->
  isoutofbounds offset (blen b) n = false -> inside b offset n.
Proof.
  intros Hb Ho Hn Hc. pose proof (blen_range b Hb).
  destruct (isoutofbounds_false offset (blen b) n) as [? ?]; [done..|]. split_and!; lia.
Qed.

Definition wf_type (T : int_type) : Prop := 1 <= sizeof T <= 4.

Lemma create_safe : safe_but ov (buffer_create args μ) (kept μ).
Proof.
  unfold buffer_create. run_by checkinteger_safe. intros size Hs. run_by argcheck_safe.
  intros _ Hp%Z.leb_le. pose proof (new_safe size (replicate (Z.to_nat size) 0)) as Hn.
  unfold lua_newbuffer in *. destruct (_ <? _) eqn:?; [done|]. cbn [outcome_bind] in *.
  rewrite insert_insert_eq in Hn. apply Hn; [done|]. intros Hm. unfold wf_buffer, blen.
  rewrite length_replicate. split; [|lia]. apply Forall_replicate. unfold in_u. lia.
Qed.

Lemma fromstring_safe : safe_but ov (buffer_fromstring args μ) (kept μ).
Proof.
  unfold buffer_fromstring. run_by arg_string_safe. intros val Hv. apply new_safe; [|done].
  unfold blen. lia.
Qed.

Lemma tostring_safe : safe_but ov (buffer_tostring args μ) (kept μ).
Proof.
  unfold buffer_tostring. run_by checkbuffer_safe. intros [a b] [_ Hb]. by apply read_safe; repeat constructor; apply Hb.
Qed.

Lemma len_safe : safe_but ov (buffer_len args μ) (kept μ).
Proof.
  unfold buffer_len. run_by checkbuffer_safe. intros [a b] _. apply read_safe; by repeat constructor.
Qed.

Lemma readinteger_safe T : wf_type T -> safe_but ov (buffer_readinteger args μ T) (kept μ).
Proof.
  intros HT. unfold wf_type in HT. unfold buffer_readinteger. run_by checkbuffer_safe. intros [a b] [_ Hb].
  run_by checkinteger_safe. intros o Ho. destruct (isoutofbounds _ _ _) eqn:Hc; [done|].
  apply checked in Hc; [|done..|lia]. rewrite copy_from_inside by done. apply read_safe; by repeat constructor.
Qed.

Lemma readlong_safe : safe_but ov (buffer_readlong args μ) (kept μ).
Proof.
  unfold buffer_readlong. run_by checkbuffer_safe. intros [a b] [_ Hb].
  run_by checkinteger_safe. intros o Ho. destruct (isoutofbounds _ _ _) eqn:Hc; [done|].
  apply checked in Hc; [|done..|lia]. rewrite copy_from_inside by done.
  apply read_safe; repeat constructor; cbn; by apply cast_s_range.
Qed.

Lemma readfp_safe size : size = 4 \/ size = 8 -> safe_but ov (buffer_readfp args μ size) (kept μ).
Proof.
  intros Hs. unfold buffer_readfp. run_by checkbuffer_safe. intros [a b] [_ Hb].
  run_by checkinteger_safe. intros o Ho. destruct (isoutofbounds _ _ _) eqn:Hc; [done|].
  apply checked in Hc; [|done..|lia]. rewrite copy_from_inside by done. apply read_safe; by repeat constructor.
Qed.

Lemma readstring_safe : safe_but ov (buffer_readstring args μ) (kept μ).
Proof.
  unfold buffer_readstring. run_by checkbuffer_safe. intros [a b] [_ Hb].
  run_by checkinteger_safe. intros o Ho. run_by checkinteger_safe. intros n Hn.
  run_by argcheck_safe. intros _ Hp%Z.leb_le. unfold in_s in Hn. rewrite (cast_u_id 32) by (unfold in_u; lia).
  destruct (isoutofbounds _ _ _) eqn:Hc; [done|].
  apply checked in Hc; [|done..|lia]. rewrite copy_from_inside by done.
  apply read_safe; repeat constructor; cbn; [by apply slice_bytes, Hb|].
  rewrite slice_length by done. pose proof (blen_range b Hb). destruct Hc. lia.
Qed.

Lemma image_length T v : wf_type T -> blen (image_of T v) = sizeof T.
Proof. unfold wf_type, image_of, blen. intros. rewrite length_le_split. lia. Qed.

Lemma float_length n size : size = 4 \/ size = 8 -> blen (float_image n size) = size.
Proof. apply length_float_image. Qed.

Lemma float_bytes n size : byte_list (float_image n size).
Proof. unfold float_image. case_match; apply le_split_bytes. Qed.

Lemma writeinteger_safe T : wf_type T -> safe_but ov (buffer_writeinteger args μ T) (kept μ).
Proof.
  intros HT. unfold buffer_writeinteger. run_by checkbuffer_safe. intros [a b] [Ha Hb].
  run_by checkinteger_safe. intros o Ho. run_by checkunsigned_safe. intros v _.
  destruct (isoutofbounds _ _ _) eqn:Hc; [done|].
  apply checked in Hc; [|unfold wf_type in HT; done || lia..].
  apply store_safe; [done|apply le_split_bytes|by rewrite image_length].
Qed.

Lemma writelong_safe : safe_but ov (buffer_writelong args μ) (kept μ).
Proof.
  unfold buffer_writelong. run_by checkbuffer_safe. intros [a b] [Ha Hb].
  run_by checkinteger_safe. intros o Ho. run_by checkinteger64_safe. intros v _.
  destruct (isoutofbounds _ _ _) eqn:Hc; [done|]. apply checked in Hc; [|done || lia..].
  apply store_safe; [done|apply le_split_bytes|done].
Qed.

Lemma writefp_safe size : size = 4 \/ size = 8 -> safe_but ov (buffer_writefp args μ size) (kept μ).
Proof.
  intros Hs. unfold buffer_writefp. run_by checkbuffer_safe. intros [a b] [Ha Hb].
  run_by checkinteger_safe. intros o Ho. run_by checknumber_safe. intros v _.
  destruct (isoutofbounds _ _ _) eqn:Hc; [done|]. apply checked in Hc; [|done || lia..].
  apply store_safe; [done|apply float_bytes|by rewrite float_length].
Qed.

Lemma s32_blen b : wf_buffer b -> s32 (blen b) = blen b.
Proof.
  intros Hb. pose proof (blen_range b Hb). unfold MAX_BUFFER_SIZE in *. apply cast_s_id; [lia|]. unfold in_s. lia.
Qed.

Lemma writestring_safe : safe_but ov (buffer_writestring args μ) (kept μ).
Proof.
  unfold buffer_writestring. run_by checkbuffer_safe. intros [a b] [Ha Hb].
  run_by checkinteger_safe. intros o Ho. run_by arg_string_safe. intros val Hv.
  pose proof (blen_range val Hv). unfold MAX_BUFFER_SIZE in *.
  run_by opt_arg_safe. { rewrite s32_blen by done. unfold in_s. lia. }
  intros n Hn. run_by argcheck_safe. intros _ Hp%Z.leb_le.
  destruct (Z.ltb_spec (blen val) n); [done|]. rewrite (cast_u_id 32) by (unfold in_u; lia).
  destruct (isoutofbounds _ _ _) eqn:Hc; [done|]. apply checked in Hc; [|done || lia..].
  assert (Hin : inside val 0 n) by (split_and!; lia). rewrite copy_from_inside by done. cbn [outcome_bind].
  apply store_safe; [done|apply slice_bytes, Hv|by rewrite slice_length].
Qed.

Lemma sub_s_safe w x y : "signed overflow in -"%string ∈ ov -> safe_but ov (sub_s w x y) (in_s w).
Proof. intros Hov. unfold sub_s. destruct (in_s_b w (x - y)) eqn:Hs; [|done]. by apply in_s_b_spec. Qed.

Lemma copy_safe : "signed overflow in -"%string ∈ ov -> safe_but ov (buffer_copy args μ) (kept μ).
Proof.
  intros Hov. unfold buffer_copy. run_by checkbuffer_safe. intros [ta tb] [Hta Htb].
  run_by checkinteger_safe. intros t Ht. run_by checkbuffer_safe. intros [sa sb] [Hsa Hsb]. cbn in Hsa, Hsb.
  run_by opt_arg_safe; [done|]. intros o Ho. run_by sub_s_safe. intros r Hr.
  run_by opt_arg_safe. intros n Hn. unfold in_s in Hn. destruct (Z.ltb_spec n 0); [done|].
  rewrite (cast_u_id 32) by (unfold in_u; lia).
  destruct (isoutofbounds o _ _) eqn:Hc; [done|]. apply checked in Hc; [|done || lia..].
  destruct (isoutofbounds t _ _) eqn:Hd; [done|]. apply checked in Hd; [|done || lia..].
  rewrite copy_from_inside by done. cbn [outcome_bind].
  apply store_safe; [done|apply slice_bytes, Hsb|by rewrite slice_length].
Qed.

Lemma fill_safe : "signed overflow in -"%string ∈ ov -> safe_but ov (buffer_fill args μ) (kept μ).
Proof.
  intros Hov. unfold buffer_fill. run_by checkbuffer_safe. intros [a b] [Ha Hb].
  run_by checkinteger_safe. intros o Ho. run_by checkunsigned_safe. intros v Hv.
  run_by sub_s_safe. intros r Hr. run_by opt_arg_safe. intros n Hn. unfold in_s in Hn.
  destruct (Z.ltb_spec n 0); [done|]. rewrite (cast_u_id 32) by (unfold in_u; lia).
  destruct (isoutofbounds _ _ _) eqn:Hc; [done|]. apply checked in Hc; [|done || lia..].
  apply store_safe; [done| |].
  - apply Forall_replicate. change 0xFF with (Z.ones 8). rewrite Z.land_ones by lia. by apply cast_u_range.
  - unfold blen at 1. rewrite length_replicate, Z2Nat.id by done. done.
Qed.

Lemma bit_range_safe b o c : "signed overflow in +"%string ∈ ov -> in_s 64 o -> in_s 32 c -> wf_buffer b ->
  safe_but ov (bit_range b o c) (fun r => bits_inside b o c /\ r = (o / 8, (o + c + 7) / 8)).
Proof.
  intros Hov Ho Hc [_ Hb]. pose proof (bit_range_spec b o c Ho Hc Hb) as Hs.
  destruct (bit_range b o c); cbn; [done|done|]. by destruct Hs as [-> _].
Qed.

Lemma readbits_safe : "signed overflow in +"%string ∈ ov -> safe_but ov (buffer_readbits args μ) (kept μ).
Proof.
  intros Hov. unfold buffer_readbits. run_by checkbuffer_safe. intros [a b] [Ha Hb].
  run_by checknumber_safe. intros o _. run_by checkinteger_safe. intros c Hc.
  run_by bit_range_safe; [apply luai_num2long_range|]. intros ? [Hin ->].
  rewrite load_bits_inside by (apply Hb || done). apply read_safe; by repeat constructor.
Qed.

Lemma writebits_safe : "signed overflow in +"%string ∈ ov -> safe_but ov (buffer_writebits args μ) (kept μ).
Proof.
  intros Hov. unfold buffer_writebits. run_by checkbuffer_safe. intros [a b] [Ha Hb]. cbn in Ha, Hb.
  run_by checknumber_safe. intros o _. run_by checkinteger_safe. intros c Hc.
  run_by checkunsigned_safe. intros v Hv.
  run_by bit_range_safe; [apply luai_num2long_range|]. intros ? [Hin ->]. destruct Hb as [Hb Hl].
  rewrite load_bits_inside by done. rewrite (count_u b) by done. cbn [outcome_bind].
  destruct (bytes_inside _ _ _ Hin) as (Hi & _).
  apply store_safe; [done|apply le_split_bytes|]. unfold blen at 1.
  rewrite length_le_split, Z2Nat.id by apply Hi. done.
Qed.
End Safe.

Create HintDb safe_but discriminated.
#[export] Hint Resolve create_safe fromstring_safe tostring_safe len_safe readlong_safe
  readstring_safe writelong_safe writestring_safe : safe_but.
#[export] Hint Extern 1 (safe_but _ (buffer_readinteger _ _ _) _) =>
  apply readinteger_safe; [assumption..|unfold wf_type; cbn; lia] : safe_but.
#[export] Hint Extern 1 (safe_but _ (buffer_writeinteger _ _ _) _) =>
  apply writeinteger_safe; [assumption..|unfold wf_type; cbn; lia] : safe_but.
#[export] Hint Extern 1 (safe_but _ (buffer_readfp _ _ _) _) =>
  apply readfp_safe; [assumption..|lia] : safe_but.
#[export] Hint Extern 1 (safe_but _ (buffer_writefp _ _ _) _) =>
  apply writefp_safe; [assumption..|lia] : safe_but.
#[export] Hint Resolve copy_safe fill_safe readbits_safe writebits_safe : safe_but.
#[export] Hint Extern 2 (_ ∈ _) => refine (bool_decide_eq_true_1 _ _); vm_compute; reflexivity : safe_but.
