(* ===== verification/BufProps.v ===== *)
(** The properties of the buffer library, [BufLib.v]: memory safety of its functions, round
    trips, the bit functions, and its fast paths. *)
From stdpp Require Import gmap.
From S2P Require Import Prelude Word Bytes Double NumParse LuaApi Builtins Arith Key StrPack StrPackSpec.
From S2P Require Import BufLib BufMem BufSafe.
Open Scope Z_scope.
Open Scope outcome_scope.

(** * Safety *)

(** The additions of the library that can overflow. *)
Definition overflows (name : string) : list string :=
  if decide (name ∈ ["copy"; "fill"]%string) then ["signed overflow in -"%string]
  else if decide (name ∈ ["readbits"; "writebits"]%string) then ["signed overflow in +"%string] else [].

Lemma elem_of_each {A} (P : A -> Prop) (l : list A) : Forall P l -> forall x, x ∈ l -> P x.
Proof. by rewrite Forall_forall. Qed.

(** C11. Memory safety: a call of any function of the buffer library, with any arguments,
    accesses no byte outside of a buffer or a string.  It returns or raises an error, and every
    buffer of the memory is afterwards still there, of bytes and as long as it was; the values
    returned are well formed.  The one exception are four functions, whose [int] arithmetic may
    overflow: [copy] and [fill] in the default of their last argument, the bit functions in the
    sum of offset and count. *)
Theorem buffer_safe `{Target, NumFormat} name f args μ :
  (forall d, wf_buffer (luai_num2str d)) -> wf_memory μ -> Forall (wf_arg μ) args ->
  (name, f) ∈ bufferlib ->
  match f args μ with
  | Ret (vs, μ') =>
      wf_memory μ' /\ Forall (wf_arg μ') vs /\
      forall a b, μ !! a = Some b -> exists b', μ' !! a = Some b' /\ length b' = length b
  | Throw _ => True
  | Undefined w => w ∈ overflows name
  end.
Proof.
  intros Hf Hμ Ha Hin.
  assert (Hs : safe_but (overflows name) (f args μ) (kept μ)).
  { revert name f Hin. enough (Forall (fun '(name, f) => safe_but (overflows name) (f args μ) (kept μ)) bufferlib) as Hall.
    { intros name f Hin. exact (elem_of_each _ _ Hall _ Hin). }
    unfold bufferlib. repeat (constructor; [cbn beta iota; eauto with safe_but|]). constructor. }
  unfold safe_but, kept, keeps in Hs. destruct (f args μ) as [[vs μ']| |]; naive_solver.
Qed.

(** * Round trips *)

(** The kinds of access: their sizes, the values that they write and what they keep of them *)
Inductive access := AInteger (T : int_type) | ALong | AFloat (size : Z).

Definition wf_access (k : access) : Prop :=
  match k with
  | AInteger T => T ∈ [int8_t; uint8_t; int16_t; uint16_t; int32_t; uint32_t]
  | ALong => True
  | AFloat size => size = 4 \/ size = 8
  end.

Definition width (k : access) : Z :=
  match k with AInteger T => sizeof T | ALong => 8 | AFloat size => size end.

Definition accepts (k : access) (v : TValue) : Prop :=
  match k, v with
  | ALong, LInteger _ | AInteger _, LNumber _ | AFloat _, LNumber _ => True
  | _, _ => False
  end.

Section Access.
Context `{Target}.

Definition read_access (k : access) (args : list TValue) (μ : memory) : buffer_result :=
  match k with
  | AInteger T => buffer_readinteger args μ T
  | ALong => buffer_readlong args μ
  | AFloat size => buffer_readfp args μ size
  end.

Definition write_access (k : access) (args : list TValue) (μ : memory) : buffer_result :=
  match k with
  | AInteger T => buffer_writeinteger args μ T
  | ALong => buffer_writelong args μ
  | AFloat size => buffer_writefp args μ size
  end.

Definition result_of (k : access) (b : list Z) : TValue :=
  match k with
  | AInteger T => LNumber (double_of_Z (value_of T b))
  | ALong => LInteger (s64 (le_combine b))
  | AFloat size => LNumber (float_value b size)
  end.

Definition image (k : access) (v : TValue) : list Z :=
  match k, v with
  | AInteger T, LNumber n => image_of T (luai_num2unsigned n)
  | ALong, LInteger l => le_split 8 l
  | AFloat size, LNumber n => float_image n size
  | _, _ => []
  end.

(** What is left of a value: an integer modulo the range of its type, a number as a [float] *)
Definition kept_value (k : access) (v : TValue) : TValue :=
  match k, v with
  | AInteger T, LNumber n =>
      let u := luai_num2unsigned n in
      LNumber (double_of_Z (if issigned T then cast_s (8 * sizeof T) u else cast_u (8 * sizeof T) u))
  | AFloat size, LNumber n => LNumber (kept_float n size)
  | _, _ => v
  end.

Lemma width_range k : wf_access k -> 1 <= width k <= 8.
Proof.
  destruct k as [T| |size]; cbn [wf_access width]; [|lia|lia]. rewrite !elem_of_cons, elem_of_nil.
  intros; destruct_or?; subst; cbn; lia || done.
Qed.

Lemma type_width T : wf_access (AInteger T) -> wf_type T.
Proof.
  cbn [wf_access]. rewrite !elem_of_cons, elem_of_nil. intros; destruct_or?; subst; unfold wf_type; cbn; lia || done.
Qed.

Lemma image_width k v : wf_access k -> accepts k v -> blen (image k v) = width k.
Proof.
  destruct k as [T| |size], v; cbn [accepts image width]; try done; intros Hk Hv.
  - by apply image_length, type_width.
  - by apply float_length.
Qed.

Lemma image_bytes k v : byte_list (image k v).
Proof. destruct k as [T| |size], v; cbn [image]; first [apply le_split_bytes | apply float_bytes | constructor]. Qed.

Lemma result_image k v : wf_access k -> accepts k v -> wf_value v -> result_of k (image k v) = kept_value k v.
Proof.
  destruct k as [T| |size], v; cbn [accepts image result_of kept_value wf_value]; try done; intros Hk _ Hv.
  - pose proof (type_width T Hk) as HT. unfold wf_type in HT. unfold value_of, image_of.
    rewrite !le_combine_split, !Z2Nat.id by lia. rewrite cast_s_cast_u by lia. by case_match.
  - rewrite le_combine_split. change (8 * Z.of_nat 8) with 64. rewrite cast_s_cast_u by lia.
    by rewrite cast_s_id.
  - by rewrite float_value_image.
Qed.

Lemma checkbuffer_1 a x rest μ b : μ !! a = Some b -> luaL_checkbuffer (LBuffer a x :: rest) μ 1 = Ret (a, b).
Proof. intros Ha. unfold luaL_checkbuffer. change (index2addr (LBuffer a x :: rest) 1) with (Some (LBuffer a x)). cbv beta iota. by rewrite Ha. Qed.

(** Both functions, as a range check and an access. *)
Lemma read_access_spec k a x n rest μ b : wf_memory μ -> wf_access k -> μ !! a = Some b ->
  read_access k (LBuffer a x :: LNumber n :: rest) μ =
    if decide (inside b (luai_num2int n) (width k))
    then Ret ([result_of k (slice b (luai_num2int n) (width k))], μ) else out_of_bounds.
Proof.
  intros Hμ Hk Ha. pose proof (width_range k Hk). pose proof (luai_num2int_range n) as Ho.
  pose proof (Hμ _ _ Ha) as Hb.
  assert (Hread : read_access k (LBuffer a x :: LNumber n :: rest) μ =
    if isoutofbounds (luai_num2int n) (blen b) (width k) then out_of_bounds
    else val <- copy_from b (luai_num2int n) (width k) ;; Ret ([result_of k val], μ)).
  { destruct k; cbn [read_access]; unfold buffer_readinteger, buffer_readlong, buffer_readfp;
      by rewrite (checkbuffer_1 _ _ _ _ _ Ha); read_args. }
  rewrite Hread. case_decide as Hin.
  - rewrite isoutofbounds_inside by (destruct Hin, Hb; lia). by rewrite copy_from_inside.
  - destruct (isoutofbounds _ _ _) eqn:Hc; [done|]. apply checked in Hc; [done|done..|lia].
Qed.

Lemma write_access_spec k a x n v rest μ b : wf_memory μ -> wf_access k -> accepts k v -> μ !! a = Some b ->
  write_access k (LBuffer a x :: LNumber n :: v :: rest) μ =
    if decide (inside b (luai_num2int n) (width k))
    then Ret ([], <[a := splice b (luai_num2int n) (image k v)]> μ) else out_of_bounds.
Proof.
  intros Hμ Hk Hv Ha. pose proof (width_range k Hk). pose proof (luai_num2int_range n) as Ho.
  pose proof (Hμ _ _ Ha) as Hb.
  assert (Hwrite : write_access k (LBuffer a x :: LNumber n :: v :: rest) μ =
    if isoutofbounds (luai_num2int n) (blen b) (width k) then out_of_bounds
    else store_bytes μ a b (luai_num2int n) (image k v)).
  { destruct k, v; try done; cbn [write_access]; unfold buffer_writeinteger, buffer_writelong, buffer_writefp;
      by rewrite (checkbuffer_1 _ _ _ _ _ Ha); read_args. }
  rewrite Hwrite. unfold store_bytes. case_decide as Hin.
  - rewrite isoutofbounds_inside by (destruct Hin, Hb; lia). by rewrite copy_into_inside by by rewrite image_width.
  - destruct (isoutofbounds _ _ _) eqn:Hc; [done|]. apply checked in Hc; [done|done..|lia].
Qed.

(** C19. Round trip: a write inside of the buffer succeeds, and a read of the same type at the same
    place yields the value, up to what the type keeps of it: an integer modulo the range of the
    type (signed or unsigned), a 64-bit integer as it is, a number rounded to a [float] or as it
    is.  A read of any type from another buffer, or from bytes that were not written, yields what
    it yielded before.  A range that is not inside of the buffer is an error for both. *)
Theorem buffer_roundtrip k a x n v μ b (o := luai_num2int n) :
  wf_memory μ -> wf_access k -> accepts k v -> wf_value v -> μ !! a = Some b ->
  if decide (inside b o (width k)) then
    exists μ', write_access k [LBuffer a x; LNumber n; v] μ = Ret ([], μ') /\
      read_access k [LBuffer a x; LNumber n] μ' = Ret ([kept_value k v], μ') /\
      forall k' a' x' n' (o' := luai_num2int n'), wf_access k' -> is_Some (μ !! a') ->
        a' <> a \/ o' + width k' <= o \/ o + width k <= o' ->
        read_access k' [LBuffer a' x'; LNumber n'] μ'
        = (r <- read_access k' [LBuffer a' x'; LNumber n'] μ ;; Ret (r.1, μ'))
  else write_access k [LBuffer a x; LNumber n; v] μ = out_of_bounds /\
       read_access k [LBuffer a x; LNumber n] μ = out_of_bounds.
Proof.
  intros Hμ Hk Hv Hw Ha. subst o. rewrite (write_access_spec k a x n v [] μ b) by done.
  pose proof (image_width k v Hk Hv) as Hl.
  case_decide as Hin; [|by rewrite (read_access_spec k a x n [] μ b), decide_False].
  set (b' := splice b (luai_num2int n) (image k v)). eexists. split; [done|].
  assert (Hlen : forall o n, inside b' o n <-> inside b o n)
    by (intros; unfold inside, blen, b'; by rewrite splice_length by by rewrite Hl).
  assert (Hμ' : wf_memory (<[a := b']> μ)).
  { apply map_Forall_insert_2; [|done]. destruct (Hμ _ _ Ha) as [Hb Hm]. split;
      [apply splice_bytes; [done|apply image_bytes]|].
    unfold blen, b' in *. by rewrite splice_length by by unfold blen; rewrite Hl. }
  split.
  - rewrite (read_access_spec k a x n [] _ b') by (done || by rewrite lookup_insert_eq).
    rewrite decide_True by by apply Hlen. unfold b'. rewrite <- Hl at 1. rewrite slice_splice by by rewrite Hl.
    by rewrite result_image.
  - intros k' a' x' n' o' Hk' [c Hc] Hd. subst o'. rewrite (read_access_spec k' a' x' n' [] μ c) by done.
    destruct (decide (a' = a)) as [->|Hne].
    + simplify_eq. rewrite (read_access_spec k' a x' n' [] _ b') by (done || by rewrite lookup_insert_eq).
      rewrite (decide_ext _ (inside b (luai_num2int n') (width k'))) by apply Hlen.
      case_decide as Hi; [|done]. cbn [outcome_bind fst]. unfold b'.
      rewrite slice_splice_disjoint; [done|by rewrite Hl|done|rewrite Hl; tauto].
    + rewrite (read_access_spec k' a' x' n' [] _ c) by (done || by rewrite lookup_insert_ne). by case_decide.
Qed.

(** * Bits *)

(** C12. The bit functions are defined by the whole buffer, as one little-endian number: [readbits]
    yields the bits [o .. o + c - 1]; [writebits] changes those to the low [c] bits of the value and
    no others, and keeps the length.  Both raise an error when the bits are not in the buffer, or
    more than 32; an offset within 32 of [2^63] is undefined behaviour. *)
Theorem buffer_bits a x n1 n2 v μ b (o := luai_num2long n1) (c := luai_num2int n2)
    (value := luai_num2unsigned v) (read := [LBuffer a x; LNumber n1; LNumber n2]) :
  wf_memory μ -> μ !! a = Some b ->
  match buffer_readbits read μ, buffer_writebits (read ++ [LNumber v]) μ with
  | Ret (vs, μ1), Ret (vs', μ2) =>
      bits_inside b o c /\ vs = [LNumber (double_of_Z (bits b o c))] /\ μ1 = μ /\ vs' = [] /\
      exists b', μ2 = <[a := b']> μ /\ byte_list b' /\ length b' = length b /\
        bits b' o c = cast_u c value /\
        forall i, 0 <= i -> Z.testbit (le_combine b') i =
          if (o <=? i) && (i <? o + c) then Z.testbit value (i - o) else Z.testbit (le_combine b) i
  | Throw e, Throw e' => e = e' /\ ~ bits_inside b o c
  | Undefined w, Undefined w' => w = w' /\ w = "signed overflow in +"%string /\ 2 ^ 63 - 32 <= o
  | _, _ => False
  end.
Proof.
  intros Hμ Ha. destruct (Hμ _ _ Ha) as [Hb Hm].
  pose proof (bit_range_spec b o c (luai_num2long_range n1) (luai_num2int_range n2) Hm) as Hr.
  unfold buffer_readbits, buffer_writebits, read. cbn [app].
  rewrite !(checkbuffer_1 _ _ _ _ _ Ha). cbn [outcome_bind].
  change (luaL_checknumber _ 2) with (Ret n1). change (luaL_checknumber _ 2) with (Ret n1).
  change (luaL_checkinteger _ 3) with (Ret c). change (luaL_checkinteger _ 3) with (Ret c).
  change (luaL_checkunsigned _ 4) with (Ret value). cbn [outcome_bind]. fold o.
  destruct (bit_range b o c) as [r| |]; cbn [outcome_bind]; [|done|tauto]. destruct Hr as [Hin ->].
  rewrite load_bits_inside by done. cbn [outcome_bind]. rewrite (count_u b) by done.
  pose proof (read_bits_value b o c Hb Hin) as Hv.
  destruct (bytes_inside b o c Hin) as (Hs & _). set (count := (o + c + 7) / 8 - o / 8) in *.
  change (Z.lor _ _) with (written b o c value).
  assert (Hl : blen (le_split (Z.to_nat count) (written b o c value)) = count)
    by (unfold blen; rewrite length_le_split; destruct Hs; lia).
  unfold store_bytes. rewrite copy_into_inside by by rewrite Hl. cbn [outcome_bind].
  pose proof (splice_written b o c Hb Hin value) as Hbits.
  rewrite Hv. split_and!; [done..|].
  eexists. split; [done|]. split_and!.
  - apply splice_bytes; [done|apply le_split_bytes].
  - apply splice_length. by rewrite Hl.
  - destruct Hin as (Ho & Hc & _). apply Z.bits_inj'. intros i Hi.
    rewrite testbit_bits, Hbits, testbit_cast_u by lia. destruct (Z.ltb_spec i c); [|by rewrite !andb_false_r].
    rewrite (proj2 (Z.leb_le _ _)), (proj2 (Z.ltb_lt _ _)) by lia. cbn [andb]. rewrite !andb_true_r. f_equal. lia.
  - exact Hbits.
Qed.

(** A read of an unsigned type, as bits. *)
Lemma readinteger_bits T b o : byte_list b -> wf_type T -> issigned T = false -> inside b o (sizeof T) ->
  value_of T (slice b o (sizeof T)) = bits b (8 * o) (8 * sizeof T).
Proof. intros Hb HT Hs Hin. unfold value_of. rewrite Hs. by apply combine_slice. Qed.
End Access.

(** * Fast paths *)

(** A fast path ends, and what it leaves is what the call leaves. *)
Definition agrees_with (fast : Z -> list TValue -> memory -> fast_result)
    (lib : list TValue -> memory -> buffer_result) : Prop :=
  forall nresults params μ, wf_memory μ -> Forall (wf_arg μ) params ->
    match fast nresults params μ with
    | Ret (Some r) => lib params μ = Ret r
    | Ret None => True
    | _ => False
    end.

Section Fast.
Context `{Target}.

(** The check of the fast paths is that of the library. *)
Lemma checkoutofbounds_same offset len size : in_s 32 offset -> 0 <= len <= MAX_BUFFER_SIZE -> 1 <= size <= 8 ->
  checkoutofbounds offset len size = isoutofbounds offset len size.
Proof.
  intros Ho Hl Hs. unfold checkoutofbounds, isoutofbounds, add_u, MAX_BUFFER_SIZE in *.
  pose proof (cast_u_range 32 offset ltac:(lia)) as Hr. unfold in_u in Hr.
  rewrite !(cast_u_id 64) by (unfold in_u; lia).
  destruct (Z.ltb_spec len (u32 offset + size)); [apply Z.leb_le|apply Z.leb_gt]; lia.
Qed.

Lemma inside_checked b n k : wf_buffer b -> wf_access k ->
  checkoutofbounds (luai_num2int n) (blen b) (width k) = false ->
  inside b (luai_num2int n) (width k) /\ u32 (luai_num2int n) = luai_num2int n.
Proof.
  intros Hb Hk Hc. pose proof (width_range k Hk). pose proof (luai_num2int_range n) as Ho.
  rewrite checkoutofbounds_same in Hc by (done || by apply blen_range).
  apply checked in Hc; [|done|done|lia]. split; [done|]. destruct Hc as (? & ? & ?).
  unfold in_s in Ho. apply cast_u_id. unfold in_u. lia.
Qed.

Lemma fast_read_agrees k : wf_access k ->
  agrees_with (fun n p μ => fast_read n p μ (width k) (result_of k)) (read_access k).
Proof.
  intros Hk n p μ Hμ Hp. unfold fast_read. destruct p as [|[| | | | | | | | | | |a x| |] [|[| | |d| | | | | | | | | |] p]]; try done.
  destruct (n <=? 1); [|done]. apply Forall_inv in Hp as [b Hb]. rewrite Hb. pose proof (Hμ _ _ Hb) as Hw.
  destruct (checkoutofbounds _ _ _) eqn:Hc; [done|].
  destruct (inside_checked b d k Hw Hk Hc) as [Hi ->]. rewrite copy_from_inside by done. cbn [outcome_bind].
  by rewrite (read_access_spec k a x d p μ b), decide_True.
Qed.

Lemma fast_write_agrees k (image' : TValue -> option (list Z)) : wf_access k ->
  (forall v bytes, image' v = Some bytes -> accepts k v /\ bytes = image k v) ->
  agrees_with (fun n p μ => fast_write n p μ (width k) image') (write_access k).
Proof.
  intros Hk Him n p μ Hμ Hp. unfold fast_write.
  destruct p as [|[| | | | | | | | | | |a x| |] [|[| | |d| | | | | | | | | |] [|v p]]]; try done.
  destruct (image' v) as [bytes|] eqn:Hv; [|done]. destruct (Him _ _ Hv) as [Ha ->].
  destruct (n <=? 0); [|done]. apply Forall_inv in Hp as [b Hb]. rewrite Hb. pose proof (Hμ _ _ Hb) as Hw.
  destruct (checkoutofbounds _ _ _) eqn:Hc; [done|].
  destruct (inside_checked b d k Hw Hk Hc) as [Hi ->].
  rewrite copy_into_inside by by rewrite image_width. cbn [outcome_bind].
  by rewrite (write_access_spec k a x d v p μ b), decide_True.
Qed.

Ltac known_type := cbn; rewrite !elem_of_cons; tauto.

Lemma buffer_fast_agrees `{NumFormat} : Forall (fun '(fast, lib) => agrees_with fast lib) buffer_fast.
Proof.
  assert (Hri : forall T, wf_access (AInteger T) ->
    agrees_with (fun n p μ => luauF_readinteger n p μ T) (fun args μ => buffer_readinteger args μ T))
    by (intros T HT; exact (fast_read_agrees (AInteger T) HT)).
  assert (Hrf : forall size, size = 4 \/ size = 8 ->
    agrees_with (fun n p μ => luauF_readfp n p μ size) (fun args μ => buffer_readfp args μ size))
    by (intros size Hs; exact (fast_read_agrees (AFloat size) Hs)).
  assert (Hwi : forall T, wf_access (AInteger T) ->
    agrees_with (fun n p μ => luauF_writeinteger n p μ T) (fun args μ => buffer_writeinteger args μ T))
    by (intros T HT; apply (fast_write_agrees (AInteger T) _ HT); intros [] ?; naive_solver).
  assert (Hwf : forall size, size = 4 \/ size = 8 ->
    agrees_with (fun n p μ => luauF_writefp n p μ size) (fun args μ => buffer_writefp args μ size))
    by (intros size Hs; apply (fast_write_agrees (AFloat size) _ Hs); intros [] ?; naive_solver).
  unfold buffer_fast.
  repeat (constructor; [first [apply Hri; known_type | apply Hwi; known_type | apply Hrf; lia | apply Hwf; lia
    | exact (fast_read_agrees ALong I) | apply (fast_write_agrees ALong _ I); intros [] ?; naive_solver]|]).
  constructor.
Qed.
End Fast.

(** C5. Each of the fifteen fast paths of the buffer library is transparent: the fast call leaves
    the values and the memory that the call of the function leaves, errors included, with any
    arguments and any number of expected results. *)
Theorem buffer_fast_transparent `{Target, NumFormat} safeenv fast lib nresults params μ :
  wf_memory μ -> Forall (wf_arg μ) params -> (fast, lib) ∈ buffer_fast ->
  op_fastcall_buffer safeenv fast lib nresults params μ = op_fastcall_buffer false fast lib nresults params μ.
Proof.
  intros Hμ Hp Hin. destruct safeenv; [|done]. unfold op_fastcall_buffer.
  pose proof (elem_of_each _ _ buffer_fast_agrees _ Hin nresults params μ Hμ Hp) as Ha. cbn in Ha.
  destruct (fast nresults params μ) as [[r|]| |]; [|done..]. rewrite Ha. by destruct r.
Qed.

(** * Witnesses *)

Definition example_memory : memory := {[1 := [0x34; 0x12; 0xFF; 0; 0; 0; 0; 0]]}.

Lemma wf_example_memory : wf_memory example_memory.
Proof. apply map_Forall_singleton. split; [by repeat constructor|done]. Qed.

#[local] Instance some_format : NumFormat := fun _ => [48].

Lemma some_format_ok d : wf_buffer (luai_num2str d).
Proof. split; [by repeat constructor|done]. Qed.

Definition at_offset (n : Z) : TValue := LNumber (double_of_Z n).

Lemma buffer_safe_witness :
  match buffer_readbits [LBuffer 1 []; at_offset 4; at_offset 12] example_memory with
  | Ret (vs, μ') =>
      wf_memory μ' /\ Forall (wf_arg μ') vs /\
      forall a b, example_memory !! a = Some b -> exists b', μ' !! a = Some b' /\ length b' = length b
  | Throw _ => True
  | Undefined w => w ∈ overflows "readbits"
  end.
Proof.
  apply (buffer_safe "readbits" buffer_readbits [LBuffer 1 []; at_offset 4; at_offset 12] example_memory).
  - exact some_format_ok.
  - exact wf_example_memory.
  - repeat constructor. cbn. eauto.
  - unfold bufferlib. rewrite !elem_of_cons. tauto.
Defined.

Lemma buffer_roundtrip_witness :
  let write := write_access (AInteger int16_t) [LBuffer 1 []; at_offset 6; LNumber (double_of_Z (-2))] example_memory in
  exists μ', write = Ret ([], μ') /\
    read_access (AInteger int16_t) [LBuffer 1 []; at_offset 6] μ' = Ret ([LNumber (double_of_Z (-2))], μ').
Proof.
  destruct (buffer_roundtrip (AInteger int16_t) 1 [] (double_of_Z 6) (LNumber (double_of_Z (-2))) example_memory
    [0x34; 0x12; 0xFF; 0; 0; 0; 0; 0]) as (μ' & Hw & Hr & _).
  - exact wf_example_memory.
  - cbn. rewrite !elem_of_cons. tauto.
  - exact I.
  - reflexivity.
  - reflexivity.
  - exists μ'. split; [exact Hw|]. refine (eq_trans Hr _). do 3 f_equal.
Defined.

Lemma buffer_bits_witness :
  buffer_readbits [LBuffer 1 []; at_offset 4; at_offset 12] example_memory
    = Ret ([LNumber (double_of_Z 0x123)], example_memory) /\
  match buffer_readbits [LBuffer 1 []; at_offset 4; at_offset 12] example_memory with
  | Ret (vs, μ1) => vs = [LNumber (double_of_Z (bits [0x34; 0x12; 0xFF; 0; 0; 0; 0; 0] 4 12))]
  | _ => False
  end.
Proof.
  pose proof (buffer_bits 1 [] (double_of_Z 4) (double_of_Z 12) (double_of_Z 5) example_memory
    [0x34; 0x12; 0xFF; 0; 0; 0; 0; 0] wf_example_memory eq_refl) as Hb.
  split; [vm_compute; reflexivity|].
  unfold at_offset. destruct (buffer_readbits _ _) as [[vs μ1]| |] eqn:Hr; [|vm_compute in Hr; discriminate Hr..].
  destruct (buffer_writebits _ _) as [[vs' μ2]| |]; [|destruct Hb..]. destruct Hb as (_ & -> & _). reflexivity.
Defined.

Lemma buffer_fast_transparent_witness :
  op_fastcall_buffer true (fun n p μ => luauF_writeinteger n p μ uint8_t)
    (fun args μ => buffer_writeinteger args μ uint8_t) 0 [LBuffer 1 []; at_offset 7; at_offset 300] example_memory
  = Ret ([], {[1 := [0x34; 0x12; 0xFF; 0; 0; 0; 0; 44]]}).
Proof.
  rewrite (buffer_fast_transparent true (fun n p μ => luauF_writeinteger n p μ uint8_t)
    (fun args μ => buffer_writeinteger args μ uint8_t) 0 [LBuffer 1 []; at_offset 7; at_offset 300] example_memory).
  - vm_compute. reflexivity.
  - exact wf_example_memory.
  - repeat constructor. cbn. eauto.
  - unfold buffer_fast. rewrite !elem_of_cons. tauto.
Defined.

(** The subtraction of [fill] overflows before the offset is checked. *)
Example fill_overflows :
  buffer_fill [LBuffer 1 []; at_offset (- 2 ^ 31); at_offset 0] example_memory = Undefined "signed overflow in -".
Proof. vm_compute. reflexivity. Qed.

(** The writes of [copy] between overlapping ranges of one buffer are those of [memmove]. *)
Example copy_overlapping :
  buffer_copy [LBuffer 1 []; at_offset 1; LBuffer 1 []; at_offset 0; at_offset 3] example_memory
  = Ret ([], {[1 := [0x34; 0x34; 0x12; 0xFF; 0; 0; 0; 0]]}).
Proof. vm_compute. reflexivity. Qed.

(** A count at the end of the buffer *)
Example readbits_end :
  buffer_readbits [LBuffer 1 []; at_offset 60; at_offset 5] example_memory = out_of_bounds.
Proof. vm_compute. reflexivity. Qed.

