(* ===== verification/JsonLib.v ===== *)
(** The json library, [VM/src/ljsonlib.cpp].

    The text that is parsed is the list of the bytes that are left, [p .. end - 1].  A
    parse function that succeeds leaves one value on the stack: it is the result, and
    [h] is the number of slots in use before it, so that a push beyond the limit of a C
    function raises the error of [ensure_stack].  Tables are shared objects in a store,
    as in [TabLib.v].  The encoder returns the text that the code appends to [out].

    [snprintf] with [%.14g] is the class [PrintfG]; the calls of Lua code that
    [lua_getfield] and [luaL_tolstring] can make are the parameters [index_tm] and
    [tolstring]. *)
From stdpp Require Import gmap pretty.
From S2P Require Import Prelude Word Double NumParse LuaApi Tm Arith Compare Key TableNode Table Sort TabLib BaseLib.
Open Scope Z_scope.
Open Scope outcome_scope.

(** [snprintf(buf, sizeof buf, "%.14g", n)], for a finite number. *)
Class PrintfG := printf_14g : double -> list Z.

Definition LUA_MINSTACK : Z := 20.

(** [ensure_stack(L, 1)] and [api_incr_top]: the slots in use afterwards. *)
Definition push (nargs h : Z) : outcome Z :=
  if (nargs + LUA_MINSTACK <? h + 1) && negb (lua_checkstack h 1)
  then luaL_error "stack overflow" else Ret (h + 1).

(** The address of a new table. *)
Definition new_addr (σ : tables) : Z := map_fold (fun a (_ : LuaTable) m => Z.max m (a + 1)) 1 σ.

Definition lua_newtable (narray nrec : Z) (σ : tables) : outcome (Z * tables) :=
  t <- luaH_new narray nrec ;;
  let a := new_addr σ in Ret (a, <[a := t]> σ).

(** What a parse function leaves: the value, the text behind it and the store, or
    [error]. *)
Definition parsed (A : Type) : Type := list Z + A * list Z * tables.

Notation "'parse*' x p σ := m 'in' k" :=
  (outcome_bind m (fun r => match r with
                            | inl error => Ret (inl error)
                            | inr (x, p, σ) => k
                            end))
  (at level 60, x name, p name, σ name, m at next level, right associativity).

Section Decode.
Context `{VecSize, Target, NumFormat}.

Definition lua_rawset (σ : tables) (a : Z) (k v : TValue) : outcome tables :=
  t <- table_at σ a ;;
  require negb (readonly t) else_ luaG_readonlyerror in
  p <- luaH_set t k ;;
  let '(t, s) := p in Ret (<[a := setslot t s v]> σ).

(** * Decoding *)

Definition bad {A} (error : string) : outcome (parsed A) := Ret (inl (chars error)).
Definition good {A} (v : A) (p : list Z) (σ : tables) : outcome (parsed A) := Ret (inr (v, p, σ)).

Definition is_white (c : Z) : bool := (c =? 32) || (c =? 9) || (c =? 10) || (c =? 13).

Fixpoint skip_whitespace (p : list Z) : list Z :=
  match p with
  | c :: r => if is_white c then skip_whitespace r else p
  | [] => []
  end.

(** [end - p >= n && strncmp(p, word, n) == 0], and the text behind the word *)
Definition skip_word (word p : list Z) : option (list Z) :=
  if bool_decide (take (length word) p = word) then Some (drop (length word) p) else None.

Definition parse_word (word : string) (v : TValue) (error : string) (nargs h : Z) (p : list Z)
    (σ : tables) : outcome (parsed TValue) :=
  match skip_word (chars word) p with
  | Some p => push nargs h ;;; good v p σ
  | None => bad error
  end.

Definition parse_null := parse_word "null" LNil "invalid null literal".
Definition parse_true := parse_word "true" (LBoolean true) "invalid true literal".
Definition parse_false := parse_word "false" (LBoolean false) "invalid false literal".

(** [while (p < end && isdigit( *p)) p++] *)
Fixpoint skip_digits (p : list Z) : list Z :=
  match p with
  | c :: r => if isdigit c then skip_digits r else p
  | [] => []
  end.

(** [p >= end || !isdigit( *p)] *)
Definition no_digit (p : list Z) : bool :=
  match p with c :: _ => negb (isdigit c) | [] => true end.

(** The text behind the number, and whether it has neither fraction nor exponent. *)
Definition scan_number (p : list Z) : string + list Z * bool :=
  let p := match p with 45 :: r => r | _ => p end in
  if no_digit p then inl "invalid number format"%string
  else
    let p := skip_digits p in
    let fraction :=
      match p with
      | 46 :: r => if no_digit r then inl "invalid fractional number"%string
                   else inr (skip_digits r, false)
      | _ => inr (p, true)
      end in
    match fraction with
    | inl error => inl error
    | inr (p, integral) =>
        match p with
        | c :: r =>
            if (c =? 101) || (c =? 69) then
              let r := match r with s :: r' => if (s =? 43) || (s =? 45) then r' else r | [] => [] end in
              if no_digit r then inl "invalid exponent in number"%string
              else inr (skip_digits r, false)
            else inr (p, integral)
        | [] => inr ([], integral)
        end
    end.

(** The value of the text of a number. *)
Definition number_value (num_str : list Z) (integral : bool) : TValue :=
  let big :=
    if integral then
      let '(integerValue, integerEnd, erange) := strtoll num_str 10 in
      if negb erange && bool_decide (integerEnd = []) &&
         ((9007199254740991 <? integerValue) || (integerValue <? -9007199254740991))
      then Some integerValue else None
    else None in
  match big with
  | Some i => lua_pushinteger64 i
  | None => lua_pushnumber (fst (strtod num_str))
  end.

Definition parse_number (nargs h : Z) (p : list Z) (σ : tables) : outcome (parsed TValue) :=
  match scan_number p with
  | inl error => bad error
  | inr (r, integral) =>
      push nargs h ;;; good (number_value (take (length p - length r) p) integral) r σ
  end.

(** A hexadecimal digit of [\u]. *)
Definition hex_value (h : Z) : option Z :=
  if (48 <=? h) && (h <=? 57) then Some (h - 48)
  else if (97 <=? h) && (h <=? 102) then Some (h - 97 + 10)
  else if (65 <=? h) && (h <=? 70) then Some (h - 65 + 10)
  else None.

(** The loop over the four digits. *)
Fixpoint read_hex4 (n : nat) (p : list Z) (codepoint : Z) : option (Z * list Z) :=
  match n, p with
  | O, _ => Some (codepoint, p)
  | S n, c :: p =>
      match hex_value c with
      | Some d => read_hex4 n p (Z.lor (shl_u 32 codepoint 4) d)
      | None => None
      end
  | S _, [] => None
  end.

(** What [\u] appends: up to three bytes. *)
Definition utf8_bytes (codepoint : Z) : list Z :=
  if codepoint <=? 0x7F then [codepoint]
  else if codepoint <=? 0x7FF then
    [Z.lor 0xC0 (Z.land (Z.shiftr codepoint 6) 0x1F); Z.lor 0x80 (Z.land codepoint 0x3F)]
  else
    [Z.lor 0xE0 (Z.land (Z.shiftr codepoint 12) 0x0F);
     Z.lor 0x80 (Z.land (Z.shiftr codepoint 6) 0x3F);
     Z.lor 0x80 (Z.land codepoint 0x3F)].

(** One escape after the backslash: the bytes it stands for. *)
Definition unescape (p : list Z) : string + list Z * list Z :=
  match p with
  | [] => inl "unexpected end of escape sequence"%string
  | esc :: p =>
      if esc =? 34 then inr ([34], p)
      else if esc =? 92 then inr ([92], p)
      else if esc =? 47 then inr ([47], p)
      else if esc =? 98 then inr ([8], p)
      else if esc =? 102 then inr ([12], p)
      else if esc =? 110 then inr ([10], p)
      else if esc =? 114 then inr ([13], p)
      else if esc =? 116 then inr ([9], p)
      else if esc =? 117 then
        if (length p <? 4)%nat then inl "invalid unicode escape"%string
        else match read_hex4 4 p 0 with
             | Some (codepoint, p) => inr (utf8_bytes codepoint, p)
             | None => inl "invalid hex in unicode escape"%string
             end
      else inl "unknown escape sequence"%string
  end.

(** The loop of [parse_string], behind the opening quote; every trip takes a byte. *)
Fixpoint string_loop (fuel : nat) (p s : list Z) : string + list Z * list Z :=
  match fuel with
  | O => inl "unterminated string"%string
  | S f =>
      match p with
      | [] => inl "unterminated string"%string
      | c :: p =>
          if c =? 34 then inr (s, p)
          else if c =? 92 then
            match unescape p with
            | inl error => inl error
            | inr (b, p) => string_loop f p (s ++ b)
            end
          else string_loop f p (s ++ [c])
      end
  end.

Definition parse_string (nargs h : Z) (p : list Z) (σ : tables) : outcome (parsed TValue) :=
  match p with
  | [] => Undefined "read outside of the text"
  | _ :: p =>
      match string_loop (S (length p)) p [] with
      | inl error => bad error
      | inr (s, p) => push nargs h ;;; good (LString s) p σ
      end
  end.

(** [p < end && *p == c] *)
Definition at_char (c : Z) (p : list Z) : bool := match p with x :: _ => x =? c | [] => false end.

Section Nested.
(** The parser of the values inside of an array or an object. *)
Variable parse_value : Z -> list Z -> tables -> outcome (parsed TValue).
Variable nargs : Z.

(** The loop of [parse_array]: the table is [a], in the slot before the last. *)
Fixpoint elements_loop (fuel : nat) (h a index : Z) (p : list Z) (σ : tables)
    : outcome (parsed unit) :=
  match fuel with
  | O => Undefined "endless array"
  | S f =>
      match p with
      | [] => bad "unterminated array"
      | _ =>
          parse* v p σ := parse_value h p σ in
          σ <- lua_rawseti σ a index v ;;
          index <- add_s 32 index 1 ;;
          match skip_whitespace p with
          | [] => bad "unterminated array"
          | c :: p =>
              if c =? 93 then good tt p σ
              else if c =? 44 then elements_loop f h a index p σ
              else bad "expected ',' or ']' in array"
          end
      end
  end.

Definition parse_array (h : Z) (p : list Z) (σ : tables) : outcome (parsed TValue) :=
  match p with
  | [] => Undefined "read outside of the text"
  | _ :: p =>
      h <- push nargs h ;;
      r <- lua_newtable 0 0 σ ;;
      let '(a, σ) := r in
      let p := skip_whitespace p in
      if at_char 93 p then good (LTable a) (tail p) σ
      else parse* _ p σ := elements_loop (S (length p)) h a 1 p σ in good (LTable a) p σ
  end.

(** The loop of [parse_object]. *)
Fixpoint members_loop (fuel : nat) (h a : Z) (p : list Z) (σ : tables) : outcome (parsed unit) :=
  match fuel with
  | O => Undefined "endless object"
  | S f =>
      match p with
      | [] => bad "unterminated object"
      | _ =>
          let p := skip_whitespace p in
          if at_char 34 p then
            parse* k p σ := parse_string nargs h p σ in
            let p := skip_whitespace p in
            if at_char 58 p then
              parse* v p σ := parse_value (h + 1) (tail p) σ in
              σ <- lua_rawset σ a k v ;;
              match skip_whitespace p with
              | [] => bad "unterminated object"
              | c :: p =>
                  if c =? 125 then good tt p σ
                  else if c =? 44 then members_loop f h a p σ
                  else bad "expected ',' or '}' in object"
              end
            else bad "expected ':' after key in object"
          else bad "expected string key in object"
      end
  end.

Definition parse_object (h : Z) (p : list Z) (σ : tables) : outcome (parsed TValue) :=
  match p with
  | [] => Undefined "read outside of the text"
  | _ :: p =>
      h <- push nargs h ;;
      r <- lua_newtable 0 0 σ ;;
      let '(a, σ) := r in
      let p := skip_whitespace p in
      if at_char 125 p then good (LTable a) (tail p) σ
      else parse* _ p σ := members_loop (S (length p)) h a p σ in good (LTable a) p σ
  end.
End Nested.

(** [fuel] bounds the nesting. *)
Fixpoint parse_value (fuel : nat) (nargs h : Z) (p : list Z) (σ : tables) : outcome (parsed TValue) :=
  match fuel with
  | O => Undefined "endless nesting"
  | S f =>
      match skip_whitespace p with
      | [] => bad "unexpected end of input"
      | (c :: _) as p =>
          if c =? 110 then parse_null nargs h p σ
          else if c =? 116 then parse_true nargs h p σ
          else if c =? 102 then parse_false nargs h p σ
          else if c =? 34 then parse_string nargs h p σ
          else if c =? 91 then parse_array (parse_value f nargs) nargs h p σ
          else if c =? 123 then parse_object (parse_value f nargs) nargs h p σ
          else if (c =? 45) || ((48 <=? c) && (c <=? 57)) then parse_number nargs h p σ
          else Ret (inl (chars "unexpected character: '" ++ [c] ++ chars "'"))
      end
  end.

(** A text needs no more nesting than it has bytes. *)
Definition parse_text (nargs h : Z) (str : list Z) (σ : tables) : outcome (parsed TValue) :=
  parse_value (S (length str)) nargs h str σ.

(** The text of the first argument: a buffer or a string. *)
Definition check_text (args : list TValue) : outcome (list Z) :=
  match index2addr args 1 with
  | Some (LBuffer _ data) => Ret data
  | _ => luaL_checklstring args 1
  end.

Definition json_decode (args : list TValue) (σ : tables) : outcome (list TValue * tables) :=
  str <- check_text args ;;
  let nargs := lua_gettop args in
  r <- parse_text nargs nargs str σ ;;
  match r with
  | inl error => Ret ([LNil; LString error], σ)
  | inr (v, p, σ') =>
      match skip_whitespace p with
      | [] => Ret ([v], σ')
      | _ => Ret ([LNil; LString (chars "trailing garbage after JSON")], σ')
      end
  end.

Definition json_valid (args : list TValue) (σ : tables) : outcome (list TValue) :=
  let text :=
    match index2addr args 1 with
    | Some (LBuffer _ data) => Some data
    | Some (LString s) => Some s
    | Some (LNumber n) => Some (luai_num2str n)
    | _ => None
    end in
  match text with
  | None => Ret [LBoolean false]
  | Some str =>
      let nargs := lua_gettop args in
      r <- parse_text nargs nargs str σ ;;
      Ret [LBoolean (match r with
                     | inl _ => false
                     | inr (_, p, _) => match skip_whitespace p with [] => true | _ => false end
                     end)]
  end.
End Decode.

(** * Encoding *)

(** [snprintf] with [%.0f], for a number with an integer value. *)
Definition printf_0f (n : double) : list Z :=
  match n with
  | S754_finite s m e => (if s then [45] else []) ++ dec_digits (Z.shiftl (Zpos m) e)
  | S754_zero s => (if s then [45] else []) ++ [48]
  | _ => []
  end.

(** [snprintf] into a buffer of that many bytes *)
Definition snprintf (size : Z) (text : list Z) : list Z := take (Z.to_nat (size - 1)) text.

Definition hex_digit (d : Z) : Z := if d <? 10 then 48 + d else 87 + d.

(** What a byte of a string appends. *)
Definition escape_byte (c : Z) : list Z :=
  if c =? 34 then [92; 34]
  else if c =? 92 then [92; 92]
  else if c =? 8 then [92; 98]
  else if c =? 12 then [92; 102]
  else if c =? 10 then [92; 110]
  else if c =? 13 then [92; 114]
  else if c =? 9 then [92; 116]
  else if c <? 0x20 then [92; 117; 48; 48; hex_digit (c / 16); hex_digit (c mod 16)]
  else [c].

Definition encode_string (s : list Z) : list Z := [34] ++ flat_map escape_byte s ++ [34].

Section Encode.
Context `{VecSize, Target, NumFormat, PrintfG}.
Variable str_addr : list Z -> Z.
Variable index_tm : tables -> Z -> list Z -> outcome (TValue * tables).
Variable tolstring : tables -> TValue -> outcome (list Z * tables).
Variable json_null_marker : Z.
Variable nargs : Z.

(** [lua_getfield] on a table *)
Definition lua_getfield (σ : tables) (a : Z) (k : list Z) : outcome (TValue * tables) :=
  t <- table_at σ a ;;
  let v := get t (LString k) in
  if ttisnil v then
    m <- has_metafield σ t (chars "__index") ;;
    if m : bool then index_tm σ a k else Ret (v, σ)
  else Ret (v, σ).

Section Indent.
Variable indent : Z.

Definition indent_line (current_indent : Z) : list Z :=
  if 0 <? indent then 10 :: replicate (Z.to_nat current_indent) 32 else [].

Definition encode_number (n : double) : outcome (list Z) :=
  if d_isnan n || negb (d_isfinite n)
  then luaL_error "JSON encode error: NaN or Infinity cannot be encoded"
  else Ret (snprintf 64 (if d_eq n (d_floor n) then printf_0f n else printf_14g n)).

(** The loop over the keys that looks for an array of [len] elements. *)
Fixpoint keys_loop (fuel : nat) (t : LuaTable) (k : TValue) (len : Z) : outcome bool :=
  match fuel with
  | O => Undefined "endless traversal"
  | S f =>
      r <- luaH_next str_addr t k ;;
      match r with
      | None => Ret true
      | Some (k, _) =>
          let outside d := d_le d (double_of_Z 0) || d_lt (double_of_Z len) d || negb (d_eq d (d_floor d)) in
          match k with
          | LNumber d => if outside d then Ret false else keys_loop f t k len
          | LInteger _ => if outside (double_of_Z 0) then Ret false else keys_loop f t k len
          | _ => Ret false
          end
      end
  end.

(** Whether a table is written as an array: its tag, or else its keys. *)
Definition is_array (h a : Z) (σ : tables) : outcome (bool * tables) :=
  t <- table_at σ a ;;
  tagged <- (match metatable t with
             | None => Ret (None, σ)
             | Some mt =>
                 h <- push nargs h ;;
                 push nargs h ;;;
                 r <- lua_getfield σ mt (chars "__jsontype") ;;
                 let '(v, σ) := r in
                 Ret (match v with
                      | LString s =>
                          if bool_decide (c_bytes s = chars "array") then Some true
                          else if bool_decide (c_bytes s = chars "object") then Some false else None
                      | _ => None
                      end, σ)
             end) ;;
  let '(tag, σ) := tagged in
  match tag with
  | Some b => Ret (b, σ)
  | None =>
      r <- lua_objlen σ a ;;
      let '(len, σ) := r in
      if 0 <? len then
        h <- push nargs h ;;
        push nargs h ;;;
        t <- table_at σ a ;;
        b <- keys_loop (S (length (array t) + length (nodes_of t))) t LNil len ;;
        Ret (b, σ)
      else Ret (false, σ)
  end.

(** The text of a key that is no string: [luaL_addvalueany], read as a C string. *)
Definition key_text (k : TValue) (σ : tables) : outcome (list Z * tables) :=
  r <- (match k with
        | LBoolean b => Ret (chars (if b then "true" else "false"), σ)
        | LNumber n => Ret (luai_num2str n, σ)
        | LInteger l => Ret (dec_of_Z l, σ)
        | _ => tolstring σ k
        end) ;;
  let '(s, σ) := r in Ret (c_bytes s, σ).

Section Nested.
(** The encoder of the values inside of a table: slots in use, current indentation. *)
Variable encode_value : Z -> Z -> TValue -> tables -> outcome (list Z * tables).

(** The loop over the elements [i], [i + 1], ... *)
Fixpoint array_loop (n : nat) (h current_indent a i : Z) (σ : tables) : outcome (list Z * tables) :=
  match n with
  | O => Ret ([], σ)
  | S n =>
      v <- lua_rawgeti σ a i ;;
      h' <- push nargs h ;;
      r <- encode_value h' current_indent v σ ;;
      let '(out, σ) := r in
      r <- array_loop n h current_indent a (i + 1) σ ;;
      let '(rest, σ) := r in
      Ret ((if 1 <? i then [44] else []) ++ indent_line current_indent ++ out ++ rest, σ)
  end.

(** The loop over the entries behind [k]: what it appends, and whether there was one. *)
Fixpoint object_loop (fuel : nat) (h current_indent a : Z) (k : TValue) (first : bool) (σ : tables)
    : outcome (list Z * tables) :=
  match fuel with
  | O => Undefined "endless traversal"
  | S f =>
      t <- table_at σ a ;;
      r <- luaH_next str_addr t k ;;
      match r with
      | None => Ret ([], σ)
      | Some (k, v) =>
          h' <- push nargs h ;;
          r <- (match k with
                | LString s => Ret (encode_string s, σ)
                | _ => push nargs h' ;;; r <- key_text k σ ;;
                       let '(s, σ) := r in Ret ([34] ++ s ++ [34], σ)
                end) ;;
          let '(key, σ) := r in
          r <- encode_value h' current_indent v σ ;;
          let '(out, σ) := r in
          r <- object_loop f h current_indent a k false σ ;;
          let '(rest, σ) := r in
          Ret ((if first then [] else [44]) ++ indent_line current_indent ++ key ++ [58] ++
               (if 0 <? indent then [32] else []) ++ out ++ rest, σ)
      end
  end.

Definition encode_table (h current_indent a : Z) (σ : tables) : outcome (list Z * tables) :=
  r <- is_array h a σ ;;
  let '(arr, σ) := r in
  inner <- add_s 32 current_indent indent ;;
  if arr : bool then
    r <- lua_objlen σ a ;;
    let '(len, σ) := r in
    r <- array_loop (Z.to_nat len) h inner a 1 σ ;;
    let '(out, σ) := r in
    Ret ([91] ++ out ++ (if 0 <? len then indent_line current_indent else []) ++ [93], σ)
  else
    h' <- push nargs h ;;
    t <- table_at σ a ;;
    r <- object_loop (S (length (array t) + length (nodes_of t))) h' inner a LNil true σ ;;
    let '(out, σ) := r in
    Ret ([123] ++ out ++ (match out with [] => [] | _ => indent_line current_indent end) ++ [125], σ).
End Nested.

(** [visited] are the tables that enclose the value. *)
Fixpoint encode_value (fuel : nat) (visited : list Z) (h current_indent : Z) (v : TValue) (σ : tables)
    : outcome (list Z * tables) :=
  match fuel with
  | O => Undefined "endless nesting"
  | S f =>
      match v with
      | LNil => Ret (chars "null", σ)
      | LBoolean b => Ret (chars (if b then "true" else "false"), σ)
      | LNumber n => s <- encode_number n ;; Ret (s, σ)
      | LInteger l => Ret (dec_of_Z l, σ)
      | LString s | LBuffer _ s => Ret (encode_string s, σ)
      | LLightUserdata p _ =>
          if p =? json_null_marker then Ret (chars "null", σ)
          else luaL_error "JSON encode error: unsupported lightuserdata"
      | LTable a =>
          if existsb (Z.eqb a) visited then luaL_error "JSON encode error: table cycle detected"
          else encode_table (encode_value f (visited ++ [a])) h current_indent a σ
      | _ => luaL_error ("JSON encode error: unsupported type " +:+ c_string (ttname v))%string
      end
  end.
End Indent.

(** [indent > 0 ? indent : 0]; a chain of enclosing tables meets no table twice. *)
Definition encode (indent : Z) (args : list TValue) (σ : tables) : outcome (list TValue * tables) :=
  r <- encode_value (if 0 <? indent then indent else 0) (S (size σ)) [] nargs 0 (value_at args 1) σ ;;
  let '(out, σ) := r in Ret ([LString out], σ).
End Encode.

Section Library.
Context `{VecSize, Target, NumFormat, PrintfG}.
Variable str_addr : list Z -> Z.
Variable index_tm : tables -> Z -> list Z -> outcome (TValue * tables).
Variable tolstring : tables -> TValue -> outcome (list Z * tables).
Variable json_null_marker : Z.

(** [(int)lua_tonumber], when [lua_isnumber] *)
Definition indent_of (v : TValue) : Z :=
  match luaV_tonumber v with Some d => luai_num2int d | None => 0 end.

Definition json_encode (args : list TValue) (σ : tables) : outcome (list TValue * tables) :=
  luaL_checkany args 1 ;;;
  let nargs := lua_gettop args in
  r <- (match index2addr args 2 with
        | Some (LTable a) =>
            push nargs nargs ;;;
            r <- lua_getfield index_tm σ a (chars "indent") ;;
            let '(v, σ) := r in Ret (indent_of v, σ)
        | Some v => Ret (indent_of v, σ)
        | None => Ret (0, σ)
        end) ;;
  let '(indent, σ) := r in
  encode str_addr index_tm tolstring json_null_marker nargs indent args σ.

Definition json_pretty (args : list TValue) (σ : tables) : outcome (list TValue * tables) :=
  luaL_checkany args 1 ;;;
  encode str_addr index_tm tolstring json_null_marker (lua_gettop args) 2 args σ.

(** The metatable with the tag. *)
Definition tag_table (tag : string) : outcome LuaTable :=
  t <- luaH_new 0 1 ;;
  p <- luaH_setstr t (chars "__jsontype") ;;
  let '(t, s) := p in Ret (setslot t s (LString (chars tag))).

(** [lua_setmetatable] of a new metatable with the tag *)
Definition set_tag (tag : string) (a : Z) (σ : tables) : outcome tables :=
  m <- tag_table tag ;;
  let mt := new_addr σ in
  let σ := <[mt := m]> σ in
  t <- table_at σ a ;;
  require negb (readonly t) else_ luaG_readonlyerror in
  Ret (<[a := set_metatable (Some mt) t]> σ).

Fixpoint fill_array (a i : Z) (vs : list TValue) (σ : tables) : outcome tables :=
  match vs with
  | [] => Ret σ
  | v :: vs => σ <- lua_rawseti σ a i v ;; fill_array a (i + 1) vs σ
  end.

Definition json_array (args : list TValue) (σ : tables) : outcome (list TValue * tables) :=
  let n := lua_gettop args in
  h <- push n n ;; h <- push n h ;; push n h ;;;
  r <- lua_newtable n 0 σ ;;
  let '(a, σ) := r in
  σ <- fill_array a 1 args σ ;;
  σ <- set_tag "array" a σ ;;
  Ret ([LTable a], σ).

Definition json_object (args : list TValue) (σ : tables) : outcome (list TValue * tables) :=
  let n := lua_gettop args in
  h <- push n n ;; h <- push n h ;; push n h ;;;
  r <- (match index2addr args 1 with
        | Some (LTable a) => Ret (a, σ)
        | _ => lua_newtable 0 0 σ
        end) ;;
  let '(a, σ) := r in
  σ <- set_tag "object" a σ ;;
  Ret ([LTable a], σ).
End Library.
