(* ===== verification/JsonSpec.v ===== *)
(** JSON texts: the trees they denote, their grammar as the decoder of
    [VM/src/ljsonlib.cpp] accepts it, and the tables that stand for a tree.

    The grammar of RFC 8259 is a part of it: beyond that, the decoder takes a number that
    starts with zeros, and a string that holds bytes below 32 as they are, and nothing else.
    The bytes of a string from 128 on are those of a UTF-8 text in the RFC, and any in the
    decoder. *)
From stdpp Require Import gmap.
From S2P Require Import Prelude Word Double NumParse LuaApi Arith Compare Key TableNode Table TableSpec TableMap TabLib TabMove JsonLib.
Open Scope Z_scope.

Inductive json :=
  | JNull
  | JBool (b : bool)
  | JNum (v : TValue)
  | JStr (s : list Z)
  | JArr (l : list json)
  | JObj (l : list (list Z * json)).

(** Induction with the hypothesis for every element. *)
Section JsonInd.
Variable P : json -> Prop.
Hypothesis (Hnull : P JNull) (Hbool : forall b, P (JBool b)) (Hnum : forall v, P (JNum v))
  (Hstr : forall s, P (JStr s)) (Harr : forall l, Forall P l -> P (JArr l))
  (Hobj : forall l, Forall (fun kv => P kv.2) l -> P (JObj l)).

Definition json_tree_ind : forall j, P j :=
  fix go j :=
    match j with
    | JNull => Hnull | JBool b => Hbool b | JNum v => Hnum v | JStr s => Hstr s
    | JArr l =>
        Harr l ((fix gos (l : list json) : Forall P l :=
                   match l with
                   | [] => Forall_nil_2 _
                   | j :: l => Forall_cons_2 _ _ _ (go j) (gos l)
                   end) l)
    | JObj l =>
        Hobj l ((fix gos (l : list (list Z * json)) : Forall (fun kv => P kv.2) l :=
                   match l with
                   | [] => Forall_nil_2 _
                   | kv :: l => Forall_cons_2 _ kv l (go kv.2) (gos l)
                   end) l)
    end.
End JsonInd.

(** * Grammar *)

Definition white (w : list Z) : Prop := Forall (fun c => is_white c = true) w.
Definition digit_run (ds : list Z) : Prop := ds <> [] /\ Forall (fun c => isdigit c = true) ds.

Definition minus (sg : list Z) : Prop := sg = [] \/ sg = [45].

Inductive fraction : list Z -> Prop :=
  | no_fraction : fraction []
  | a_fraction ds : digit_run ds -> fraction (46 :: ds).

(** The text of a number, and whether it has neither fraction nor exponent. *)
Inductive number_text : list Z -> bool -> Prop :=
  | num_int sg ds : minus sg -> digit_run ds -> number_text (sg ++ ds) true
  | num_frac sg ds fs : minus sg -> digit_run ds -> digit_run fs ->
      number_text (sg ++ ds ++ 46 :: fs) false
  | num_exp sg ds fr e es xs : minus sg -> digit_run ds -> fraction fr -> e = 101 \/ e = 69 ->
      es = [] \/ es = [43] \/ es = [45] -> digit_run xs ->
      number_text (sg ++ ds ++ fr ++ e :: es ++ xs) false.

(** An escape behind its backslash, and the bytes it stands for. *)
Inductive escape : list Z -> list Z -> Prop :=
  | esc_char c b :
      (c, b) ∈ [(34, 34); (92, 92); (47, 47); (98, 8); (102, 12); (110, 10); (114, 13); (116, 9)] ->
      escape [c] [b]
  | esc_unicode h1 h2 h3 h4 d1 d2 d3 d4 :
      hex_value h1 = Some d1 -> hex_value h2 = Some d2 ->
      hex_value h3 = Some d3 -> hex_value h4 = Some d4 ->
      escape [117; h1; h2; h3; h4] (utf8_bytes (d1 * 4096 + d2 * 256 + d3 * 16 + d4)).

(** A string behind its opening quote, up to the closing one. *)
Inductive string_text : list Z -> list Z -> Prop :=
  | str_end : string_text [] [34]
  | str_byte c s t : c <> 34 -> c <> 92 -> string_text s t -> string_text (c :: s) (c :: t)
  | str_escape e b s t : escape e b -> string_text s t -> string_text (b ++ s) (92 :: e ++ t).

(** The texts of values, over those of the numbers and of the strings. *)
Section Values.
Variable number : list Z -> bool -> Prop.
Variable string : list Z -> list Z -> Prop.

Inductive value_gen : json -> list Z -> Prop :=
  | vt_null : value_gen JNull (chars "null")
  | vt_true : value_gen (JBool true) (chars "true")
  | vt_false : value_gen (JBool false) (chars "false")
  | vt_num t i : number t i -> value_gen (JNum (number_value t i)) t
  | vt_str s t : string s t -> value_gen (JStr s) (34 :: t)
  | vt_arr0 w : white w -> value_gen (JArr []) (91 :: w ++ [93])
  | vt_arr l t : elements_gen l t -> value_gen (JArr l) (91 :: t)
  | vt_obj0 w : white w -> value_gen (JObj []) (123 :: w ++ [125])
  | vt_obj l t : members_gen l t -> value_gen (JObj l) (123 :: t)
with elements_gen : list json -> list Z -> Prop :=
  | et_last w1 j t w2 : white w1 -> value_gen j t -> white w2 ->
      elements_gen [j] (w1 ++ t ++ w2 ++ [93])
  | et_more w1 j t w2 l ts : white w1 -> value_gen j t -> white w2 -> elements_gen l ts ->
      elements_gen (j :: l) (w1 ++ t ++ w2 ++ 44 :: ts)
with members_gen : list (list Z * json) -> list Z -> Prop :=
  | mt_last k kt w0 w1 w2 j t w3 :
      white w0 -> string k kt -> white w1 -> white w2 -> value_gen j t -> white w3 ->
      members_gen [(k, j)] (w0 ++ 34 :: kt ++ w1 ++ 58 :: w2 ++ t ++ w3 ++ [125])
  | mt_more k kt w0 w1 w2 j t w3 l ts :
      white w0 -> string k kt -> white w1 -> white w2 -> value_gen j t -> white w3 ->
      members_gen l ts ->
      members_gen ((k, j) :: l) (w0 ++ 34 :: kt ++ w1 ++ 58 :: w2 ++ t ++ w3 ++ 44 :: ts).

Definition text_gen (j : json) (s : list Z) : Prop :=
  exists w1 t w2, s = w1 ++ t ++ w2 /\ white w1 /\ value_gen j t /\ white w2.
End Values.

Arguments vt_null {number string}.
Arguments vt_true {number string}.
Arguments vt_false {number string}.
Arguments vt_num {number string}.
Arguments vt_str {number string}.
Arguments vt_arr0 {number string}.
Arguments vt_arr {number string}.
Arguments vt_obj0 {number string}.
Arguments vt_obj {number string}.
Arguments et_last {number string}.
Arguments et_more {number string}.

Scheme value_gen_mut := Induction for value_gen Sort Prop
with elements_gen_mut := Induction for elements_gen Sort Prop
with members_gen_mut := Induction for members_gen Sort Prop.

Abbreviation value_text := (value_gen number_text string_text).
Abbreviation elements_text := (elements_gen number_text string_text).
Abbreviation members_text := (members_gen number_text string_text).

(** A whole text: a value between white space. *)
Definition json_text (j : json) (s : list Z) : Prop := text_gen number_text string_text j s.

(** ** RFC 8259 *)

(** No zero in front of another digit. *)
Definition rfc_int (ds : list Z) : Prop := digit_run ds /\ (ds = [48] \/ head ds <> Some 48).

Inductive rfc_number : list Z -> bool -> Prop :=
  | rfc_num_int sg ds : minus sg -> rfc_int ds -> rfc_number (sg ++ ds) true
  | rfc_num_frac sg ds fs : minus sg -> rfc_int ds -> digit_run fs ->
      rfc_number (sg ++ ds ++ 46 :: fs) false
  | rfc_num_exp sg ds fr e es xs : minus sg -> rfc_int ds -> fraction fr -> e = 101 \/ e = 69 ->
      es = [] \/ es = [43] \/ es = [45] -> digit_run xs ->
      rfc_number (sg ++ ds ++ fr ++ e :: es ++ xs) false.

(** A byte of a string is no control character. *)
Inductive rfc_string : list Z -> list Z -> Prop :=
  | rfc_str_end : rfc_string [] [34]
  | rfc_str_byte c s t : 32 <= c -> c <> 34 -> c <> 92 -> rfc_string s t -> rfc_string (c :: s) (c :: t)
  | rfc_str_escape e b s t : escape e b -> rfc_string s t -> rfc_string (b ++ s) (92 :: e ++ t).

Definition rfc_text (j : json) (s : list Z) : Prop := text_gen rfc_number rfc_string j s.

Lemma value_gen_mono (number number' : list Z -> bool -> Prop) (string string' : list Z -> list Z -> Prop) :
  (forall t i, number t i -> number' t i) -> (forall s t, string s t -> string' s t) ->
  forall j t, value_gen number string j t -> value_gen number' string' j t.
Proof.
  intros Hn Hs. apply (value_gen_mut number string (fun j t _ => value_gen number' string' j t)
    (fun l t _ => elements_gen number' string' l t) (fun l t _ => members_gen number' string' l t));
    intros; constructor; auto.
Qed.

(** The decoder's grammar has every text of the RFC, with the same tree. *)
Lemma rfc_json_text j s : rfc_text j s -> json_text j s.
Proof.
  intros (w1 & t & w2 & -> & Hw1 & Ht & Hw2). exists w1, t, w2. split_and!; try done.
  revert Ht. apply value_gen_mono.
  - intros t' i [sg ds Hsg [Hd _]|sg ds fs Hsg [Hd _] Hf|sg ds fr e es xs Hsg [Hd _] Hfr He Hes Hx]; by constructor.
  - intros s' t'. induction 1; by constructor.
Qed.

(** What may follow a value. *)
Definition ends_value (rest : list Z) : Prop :=
  match rest with [] => True | c :: _ => is_white c = true \/ c = 44 \/ c = 93 \/ c = 125 end.

(** * Tables that stand for a tree *)

Section Represents.
Context `{VecSize, Target}.

(** The content of the table of an array: its elements at [1], [2], ... *)
Definition arr_map (vs : list TValue) : fmap_t := fun k =>
  match index_of k with
  | Some i => if 1 <=? i then default LNil (vs !! Z.to_nat (i - 1)) else LNil
  | None => LNil
  end.

(** The content of the table of an object: of several values at one key the last. *)
Definition obj_map (kvs : list (list Z * TValue)) : fmap_t :=
  fold_left (fun m kv => map_set m (LString kv.1) kv.2) kvs (fun _ => LNil).

(** A table as [lua_newtable] makes it, but for its content. *)
Definition plain_table (t : LuaTable) (m : fmap_t) : Prop :=
  implements t m /\ readonly t = false /\ metatable t = None.

(** [represents δ v j]: the value [v] stands for the tree [j], with the tables of the
    store [δ], which are pairwise different. *)
Inductive represents : tables -> TValue -> json -> Prop :=
  | rep_null : represents ∅ LNil JNull
  | rep_bool b : represents ∅ (LBoolean b) (JBool b)
  | rep_num n : represents ∅ (LNumber n) (JNum (LNumber n))
  | rep_int i : represents ∅ (LInteger i) (JNum (LInteger i))
  | rep_str s : represents ∅ (LString s) (JStr s)
  | rep_arr δ vs l a t : represents_list δ vs l -> δ !! a = None -> plain_table t (arr_map vs) ->
      represents (<[a := t]> δ) (LTable a) (JArr l)
  | rep_obj δ ks vs l a t : represents_list δ vs l -> length ks = length l -> δ !! a = None ->
      plain_table t (obj_map (zip ks vs)) ->
      represents (<[a := t]> δ) (LTable a) (JObj (zip ks l))
with represents_list : tables -> list TValue -> list json -> Prop :=
  | rep_nil : represents_list ∅ [] []
  | rep_cons δ1 δ2 v vs j l : represents δ1 v j -> represents_list δ2 vs l -> δ1 ##ₘ δ2 ->
      represents_list (δ1 ∪ δ2) (v :: vs) (j :: l).

Scheme represents_mut := Induction for represents Sort Prop
with represents_list_mut := Induction for represents_list Sort Prop.
End Represents.
