(* ===== verification/JsonLex.v ===== *)
(** White space, numbers and strings of a JSON text: what the scanning loops of
    [VM/src/ljsonlib.cpp] accept. *)
From stdpp Require Import gmap.
From S2P Require Import Prelude Word Double NumParse LuaApi Arith TabLib JsonLib JsonSpec.
Open Scope Z_scope.

(** * White space *)

Lemma skip_whitespace_split p :
  exists w, white w /\ p = w ++ skip_whitespace p /\
    match skip_whitespace p with [] => True | c :: _ => is_white c = false end.
Proof.
  induction p as [|c p (w & Hw & Hp & Hh)]; cbn [skip_whitespace].
  - exists []. by split; [constructor|].
  - destruct (is_white c) eqn:E.
    + exists (c :: w). split; [by constructor|]. split; [|done]. cbn. by f_equal.
    + exists []. by split; [constructor|].
Qed.

Lemma skip_white w p : white w -> skip_whitespace (w ++ p) = skip_whitespace p.
Proof. induction 1 as [|c w Hc _ IH]; [done|]. cbn. by rewrite Hc. Qed.

Lemma skip_all w : white w -> skip_whitespace w = [].
Proof. intros Hw. rewrite <- (app_nil_r w). by rewrite skip_white. Qed.

Lemma skip_stop w c p : white w -> is_white c = false -> skip_whitespace (w ++ c :: p) = c :: p.
Proof. intros Hw Hc. rewrite skip_white by done. cbn. by rewrite Hc. Qed.

Lemma white_nil : white [].
Proof. constructor. Qed.

Lemma white_ends w p : white w -> ends_value p -> ends_value (w ++ p).
Proof. intros Hw Hp. destruct Hw; [done|]. cbn. auto. Qed.

(** * Numbers *)

(** No digit at the front. *)
Definition stops (r : list Z) : Prop := match r with [] => True | c :: _ => isdigit c = false end.

Lemma skip_digits_app ds r :
  Forall (fun c => isdigit c = true) ds -> stops r -> skip_digits (ds ++ r) = r.
Proof.
  intros Hd Hr. induction Hd as [|c ds Hc _ IH]; cbn.
  - destruct r as [|c r]; [done|]. cbn in *. by rewrite Hr.
  - by rewrite Hc.
Qed.

Lemma skip_digits_split p :
  exists ds, Forall (fun c => isdigit c = true) ds /\ p = ds ++ skip_digits p /\ stops (skip_digits p).
Proof.
  induction p as [|c p (ds & Hd & Hp & Hs)]; cbn [skip_digits].
  - exists []. by split; [constructor|].
  - destruct (isdigit c) eqn:E.
    + exists (c :: ds). split; [by constructor|]. split; [|done]. cbn. by f_equal.
    + exists []. split; [constructor|]. split; [done|]. cbn. done.
Qed.

Lemma no_digit_run ds r : digit_run ds -> no_digit (ds ++ r) = false.
Proof. intros [Hne Hd]. destruct Hd as [|c ds Hc _]; [done|]. cbn. by rewrite Hc. Qed.

Lemma no_digit_split p :
  no_digit p = false -> exists ds, digit_run ds /\ p = ds ++ skip_digits p /\ stops (skip_digits p).
Proof.
  intros Hn. destruct (skip_digits_split p) as (ds & Hd & Hp & Hs). exists ds.
  split; [|done]. split; [|done]. intros ->. cbn in Hp. rewrite <- Hp in Hs.
  destruct p as [|c p]; [done|]. cbn in *. by rewrite Hs in Hn.
Qed.

Lemma digit_not c d : isdigit c = true -> isdigit d = false -> c <> d.
Proof. intros Hc Hd ->. congruence. Qed.

(** What the first branches of [scan_number] do with an optional minus sign. *)
Lemma strip_minus sg ds r :
  minus sg -> digit_run ds -> match sg ++ ds ++ r with 45 :: p => p | _ => sg ++ ds ++ r end = ds ++ r.
Proof.
  intros [-> | ->] [Hne Hd]; [|done]. destruct Hd as [|c ds Hc _]; [done|]. cbn.
  pose proof (digit_not c 45 Hc eq_refl). by repeat (destruct c as [|c|c]; try done).
Qed.

Lemma minus_split p :
  exists sg, minus sg /\ p = sg ++ match p with 45 :: r => r | _ => p end.
Proof.
  destruct (match p with 45 :: _ => true | _ => false end) eqn:E.
  - exists [45]. split; [by right|]. by repeat case_match.
  - exists []. split; [by left|]. by repeat case_match.
Qed.

Definition after_digits (p : list Z) : string + list Z * bool :=
  match p with
  | 46 :: r => if no_digit r then inl "invalid fractional number"%string else inr (skip_digits r, false)
  | _ => inr (p, true)
  end.

Definition after_fraction (p : list Z) (integral : bool) : string + list Z * bool :=
  match p with
  | c :: r =>
      if (c =? 101) || (c =? 69) then
        let r := match r with s :: r' => if (s =? 43) || (s =? 45) then r' else r | [] => [] end in
        if no_digit r then inl "invalid exponent in number"%string else inr (skip_digits r, false)
      else inr (p, integral)
  | [] => inr ([], integral)
  end.

Lemma scan_number_eq p :
  scan_number p =
    let p := match p with 45 :: r => r | _ => p end in
    if no_digit p then inl "invalid number format"%string
    else match after_digits (skip_digits p) with
         | inl error => inl error
         | inr (p, integral) => after_fraction p integral
         end.
Proof. reflexivity. Qed.

Lemma after_digits_other c p : c <> 46 -> after_digits (c :: p) = inr (c :: p, true).
Proof. intros Hc. cbn. by repeat (destruct c as [|c|c]; try done). Qed.

(** Such a byte ends the number. *)
Lemma ends_number rest :
  ends_value rest -> stops rest /\ after_digits rest = inr (rest, true) /\
  forall i, after_fraction rest i = inr (rest, i).
Proof.
  destruct rest as [|c rest]; [done|]. intros He.
  assert (Hc : c = 32 \/ c = 9 \/ c = 10 \/ c = 13 \/ c = 44 \/ c = 93 \/ c = 125).
  { cbn in He. unfold is_white in He. destruct He as [He|He]; [|tauto].
    rewrite !orb_true_iff, !Z.eqb_eq in He. tauto. }
  by destruct Hc as [->| [->| [->| [->| [->| [->| ->]]]]]].
Qed.

Lemma after_exponent e es xs rest i :
  e = 101 \/ e = 69 -> es = [] \/ es = [43] \/ es = [45] -> digit_run xs -> stops rest ->
  after_fraction (e :: es ++ xs ++ rest) i = inr (rest, false).
Proof.
  intros He Hes Hx Hr. pose proof (no_digit_run xs rest Hx) as Hn.
  pose proof (skip_digits_app xs rest (proj2 Hx) Hr) as Hs.
  assert (Hc : (e =? 101) || (e =? 69) = true) by (destruct He as [->| ->]; done).
  unfold after_fraction. rewrite Hc. cbv zeta.
  assert (Hstrip : match es ++ xs ++ rest with
    | s :: r' => if (s =? 43) || (s =? 45) then r' else es ++ xs ++ rest | [] => [] end = xs ++ rest).
  { destruct Hes as [->| [->| ->]]; [|done..]. cbn [app]. destruct Hx as [Hne Hd].
    destruct Hd as [|c xs Hc' _]; [done|]. cbn [app].
    rewrite (proj2 (Z.eqb_neq c 43)), (proj2 (Z.eqb_neq c 45)) by by apply digit_not. done. }
  by rewrite Hstrip, Hn, Hs.
Qed.

Lemma scan_number_complete t i rest :
  number_text t i -> ends_value rest -> scan_number (t ++ rest) = inr (rest, i).
Proof.
  intros Ht He. destruct (ends_number rest He) as (Hst & Hd & Hf). rewrite scan_number_eq.
  destruct Ht as [sg ds Hm Hds|sg ds fs Hm Hds Hfs|sg ds fr e es xs Hm Hds Hfr He' Hes Hxs];
    rewrite <- ?app_assoc; cbv zeta; rewrite strip_minus, no_digit_run by done.
  - by rewrite (skip_digits_app ds rest (proj2 Hds) Hst), Hd.
  - rewrite <- ?app_assoc. cbn [app].
    rewrite (skip_digits_app ds (46 :: fs ++ rest) (proj2 Hds)) by done. cbn [after_digits].
    by rewrite no_digit_run, (skip_digits_app fs rest (proj2 Hfs) Hst), Hf.
  - rewrite <- ?app_assoc. cbn [app]. rewrite <- ?app_assoc.
    assert (Hse : forall r, stops (e :: r)) by (intros r; by destruct He' as [-> | ->]).
    destruct Hfr as [|fs Hfs]; cbn [app].
    + rewrite (skip_digits_app ds _ (proj2 Hds)) by done.
      rewrite after_digits_other by (destruct He' as [-> | ->]; done). by rewrite after_exponent.
    + rewrite (skip_digits_app ds (46 :: _) (proj2 Hds)) by done. cbn [after_digits].
      rewrite no_digit_run, (skip_digits_app fs _ (proj2 Hfs)) by done. by rewrite after_exponent.
Qed.

Lemma after_digits_inv p r i :
  after_digits p = inr (r, i) ->
  (i = true /\ r = p) \/ (i = false /\ exists fs, digit_run fs /\ p = 46 :: fs ++ r).
Proof.
  destruct p as [|c p]; [intros [= <- <-]; by left|].
  destruct (Z.eq_dec c 46) as [->|Hc].
  - cbn [after_digits]. destruct (no_digit p) eqn:E; [done|]. intros [= <- <-]. right.
    split; [done|]. destruct (no_digit_split p E) as (fs & Hfs & Hp & _). exists fs.
    split; [done|]. by rewrite <- Hp.
  - rewrite after_digits_other by done. intros [= <- <-]. by left.
Qed.

Lemma sign_split p :
  exists es, (es = [] \/ es = [43] \/ es = [45]) /\
    p = es ++ match p with s :: r' => if (s =? 43) || (s =? 45) then r' else p | [] => [] end.
Proof.
  destruct p as [|s p]; [by exists []; auto|].
  destruct ((s =? 43) || (s =? 45)) eqn:Es; [|by exists []; auto].
  exists [s]. split; [|done]. apply orb_prop in Es as [->%Z.eqb_eq| ->%Z.eqb_eq]; auto.
Qed.

Lemma after_fraction_inv p i r i' :
  after_fraction p i = inr (r, i') ->
  (i' = i /\ r = p) \/
  (i' = false /\ exists e es xs, (e = 101 \/ e = 69) /\ (es = [] \/ es = [43] \/ es = [45]) /\
     digit_run xs /\ p = e :: es ++ xs ++ r).
Proof.
  destruct p as [|c p]; [intros [= <- <-]; by left|]. cbn [after_fraction].
  destruct ((c =? 101) || (c =? 69)) eqn:E; [|intros [= <- <-]; by left]. cbv zeta.
  set (q := match p with s :: r' => _ | [] => [] end). destruct (no_digit q) eqn:Eq; [done|].
  intros [= <- <-]. right. split; [done|]. destruct (no_digit_split q Eq) as (xs & Hx & Hq & _).
  destruct (sign_split p) as (es & Hes & Hp). fold q in Hp.
  exists c, es, xs. split_and!; try done.
  - apply orb_prop in E as [->%Z.eqb_eq| ->%Z.eqb_eq]; auto.
  - by rewrite <- Hq, <- Hp.
Qed.

Lemma scan_number_sound p r i : scan_number p = inr (r, i) -> exists t, p = t ++ r /\ number_text t i.
Proof.
  rewrite scan_number_eq. cbv zeta. destruct (minus_split p) as (sg & Hm & Hp).
  set (q := match p with 45 :: r => r | _ => p end) in *. destruct (no_digit q) eqn:Eq; [done|].
  destruct (no_digit_split q Eq) as (ds & Hds & Hq & _).
  destruct (after_digits _) as [|[p1 i1]] eqn:Ed; [done|]. intros Hf.
  apply after_digits_inv in Ed. apply after_fraction_inv in Hf. rewrite Hp, Hq.
  destruct Ed as [[-> ->]| [-> (fs & Hfs & ->)]], Hf as [[-> ->]| [-> (e & es & xs & He & Hes & Hxs & Hp1)]].
  - exists (sg ++ ds). split; [by rewrite <- app_assoc|]. by constructor.
  - rewrite Hp1. exists (sg ++ ds ++ [] ++ e :: es ++ xs).
    split; [|apply num_exp; [done|done|constructor|done..]].
    by simplify_list_eq.
  - exists (sg ++ ds ++ 46 :: fs). split; [|by constructor]. by rewrite <- !app_assoc.
  - rewrite Hp1. exists (sg ++ ds ++ (46 :: fs) ++ e :: es ++ xs).
    split; [|apply num_exp; [done|done|by constructor|done..]].
    by simplify_list_eq.
Qed.

(** * Strings *)

Lemma hex_value_range c d : hex_value c = Some d -> 0 <= d < 16.
Proof.
  unfold hex_value. intros Hd.
  destruct ((48 <=? c) && (c <=? 57)) eqn:E1;
    [|destruct ((97 <=? c) && (c <=? 102)) eqn:E2;
      [|destruct ((65 <=? c) && (c <=? 70)) eqn:E3; [|done]]];
    injection Hd as <-; rewrite andb_true_iff, !Z.leb_le in *; lia.
Qed.

Lemma hex_step cp d : 0 <= cp < 2 ^ 28 -> 0 <= d < 16 -> Z.lor (shl_u 32 cp 4) d = cp * 16 + d.
Proof.
  intros Hc Hd. unfold shl_u. rewrite Z.shiftl_mul_pow2 by lia.
  change (2 ^ 4) with 16. rewrite cast_u_id by (unfold in_u; lia).
  apply Z.bits_inj'. intros n Hn. rewrite Z.lor_spec. change 16 with (2 ^ 4).
  destruct (Z.lt_ge_cases n 4) as [Hlt|Hge].
  - rewrite Z.mul_pow2_bits_low by lia. cbn [orb].
    rewrite <- (Z.mod_pow2_bits_low (cp * 2 ^ 4 + d) 4) by lia.
    rewrite Z.add_comm, Z.mod_add by lia. by rewrite Z.mod_small by lia.
  - rewrite Z.mul_pow2_bits by lia.
    assert (Z.testbit d n = false) as ->.
    { destruct (Z.eq_dec d 0) as [->|]; [apply Z.bits_0|]. apply Z.bits_above_log2; [lia|].
      apply Z.log2_lt_pow2; [lia|]. apply Z.lt_le_trans with (2 ^ 4); [lia|].
      by apply Z.pow_le_mono_r. }
    rewrite orb_false_r. replace n with (n - 4 + 4) at 2 by lia.
    rewrite <- Z.div_pow2_bits by lia. f_equal. rewrite Z.add_comm, Z.div_add by lia.
    by rewrite Z.div_small by lia.
Qed.

Lemma read_hex4_step n c p cp :
  read_hex4 (S n) (c :: p) cp =
    match hex_value c with Some d => read_hex4 n p (Z.lor (shl_u 32 cp 4) d) | None => None end.
Proof. done. Qed.

Lemma read_hex4_some n p cp cp' r :
  read_hex4 (S n) p cp = Some (cp', r) -> 0 <= cp < 2 ^ 28 ->
  exists c d q, p = c :: q /\ hex_value c = Some d /\ 0 <= d < 16 /\
    read_hex4 n q (cp * 16 + d) = Some (cp', r).
Proof.
  destruct p as [|c q]; [done|]. rewrite read_hex4_step.
  destruct (hex_value c) as [d|] eqn:Ed; [|done]. intros Hr Hc.
  pose proof (hex_value_range c d Ed) as Hd. rewrite hex_step in Hr by done. by exists c, d, q.
Qed.

Lemma read_hex4_spec p cp r :
  read_hex4 4 p 0 = Some (cp, r) <->
  exists h1 h2 h3 h4 d1 d2 d3 d4, p = h1 :: h2 :: h3 :: h4 :: r /\
    hex_value h1 = Some d1 /\ hex_value h2 = Some d2 /\ hex_value h3 = Some d3 /\
    hex_value h4 = Some d4 /\ cp = d1 * 4096 + d2 * 256 + d3 * 16 + d4.
Proof.
  split.
  - intros Hr. apply read_hex4_some in Hr as (h1 & d1 & p1 & -> & E1 & R1 & Hr); [|lia].
    apply read_hex4_some in Hr as (h2 & d2 & p2 & -> & E2 & R2 & Hr); [|lia].
    apply read_hex4_some in Hr as (h3 & d3 & p3 & -> & E3 & R3 & Hr); [|lia].
    apply read_hex4_some in Hr as (h4 & d4 & p4 & -> & E4 & R4 & Hr); [|lia].
    injection Hr as <- <-. exists h1, h2, h3, h4, d1, d2, d3, d4. split_and!; try done. lia.
  - intros (h1 & h2 & h3 & h4 & d1 & d2 & d3 & d4 & -> & E1 & E2 & E3 & E4 & ->).
    pose proof (hex_value_range _ _ E1). pose proof (hex_value_range _ _ E2).
    pose proof (hex_value_range _ _ E3). pose proof (hex_value_range _ _ E4).
    rewrite !read_hex4_step, E1, read_hex4_step, E2, read_hex4_step, E3, read_hex4_step, E4.
    rewrite (hex_step 0 d1), (hex_step _ d2), (hex_step _ d3), (hex_step _ d4) by lia.
    cbn [read_hex4]. do 3 f_equal. lia.
Qed.

Lemma unescape_complete e b rest : escape e b -> unescape (e ++ rest) = inr (b, rest).
Proof.
  intros [c b' Hin|h1 h2 h3 h4 d1 d2 d3 d4 H1 H2 H3 H4].
  - repeat (apply elem_of_cons in Hin as [[= -> ->]|Hin]; [done|]). by apply elem_of_nil in Hin.
  - cbn [app]. unfold unescape. cbn [Z.eqb Pos.eqb length Nat.ltb Nat.leb].
    by rewrite (proj2 (read_hex4_spec (h1 :: h2 :: h3 :: h4 :: rest)
      (d1 * 4096 + d2 * 256 + d3 * 16 + d4) rest)) by eauto 20.
Qed.

Lemma unescape_sound p b r : unescape p = inr (b, r) -> exists e, p = e ++ r /\ escape e b.
Proof.
  destruct p as [|c p]; [done|]. unfold unescape.
  repeat match goal with
  | |- context [c =? ?k] =>
      destruct (Z.eqb_spec c k) as [->|];
        [try (intros [= <- <-]; eexists [_]; split; [done|]; apply esc_char;
              repeat (apply elem_of_cons; first [by left | right]); fail)|]
  end; [|done].
  destruct (length p <? 4)%nat; [done|]. destruct (read_hex4 4 p 0) as [[cp q]|] eqn:E; [|done].
  intros [= <- <-].
  apply read_hex4_spec in E as (h1 & h2 & h3 & h4 & d1 & d2 & d3 & d4 & -> & ? & ? & ? & ? & ->).
  exists [117; h1; h2; h3; h4]. split; [done|]. by constructor.
Qed.

Lemma string_loop_complete s t : string_text s t -> forall fuel rest acc,
  (length t <= fuel)%nat -> string_loop fuel (t ++ rest) acc = inr (acc ++ s, rest).
Proof.
  induction 1 as [|c s t Hq Hb _ IH|e b s t He _ IH]; intros fuel rest acc Hf;
    (destruct fuel as [|f]; [cbn in Hf; lia|]); cbn [app string_loop length] in *.
  - cbn. by rewrite app_nil_r.
  - rewrite (proj2 (Z.eqb_neq c 34)), (proj2 (Z.eqb_neq c 92)) by done.
    rewrite IH by lia. by rewrite <- app_assoc.
  - cbn [Z.eqb Pos.eqb]. rewrite <- app_assoc, (unescape_complete e b) by done.
    rewrite length_app in Hf. rewrite IH by lia. by rewrite <- app_assoc.
Qed.

Lemma string_loop_sound fuel : forall p acc s r,
  string_loop fuel p acc = inr (s, r) -> exists s' t, s = acc ++ s' /\ p = t ++ r /\ string_text s' t.
Proof.
  induction fuel as [|f IH]; intros p acc s r Hl; [done|]. cbn in Hl.
  destruct p as [|c p]; [done|]. destruct (Z.eqb_spec c 34) as [->|Hq].
  { injection Hl as <- <-. exists [], [34]. rewrite app_nil_r. repeat constructor. }
  destruct (Z.eqb_spec c 92) as [->|Hb].
  - destruct (unescape p) as [|[b q]] eqn:Eu; [done|]. apply unescape_sound in Eu as (e & -> & He).
    apply IH in Hl as (s' & t & -> & -> & Ht). exists (b ++ s'), (92 :: e ++ t).
    rewrite <- !app_assoc. split_and!; [done|by simplify_list_eq|by constructor].
  - apply IH in Hl as (s' & t & -> & -> & Ht). exists (c :: s'), (c :: t).
    rewrite <- !app_assoc. split_and!; [done|done|by constructor].
Qed.
