(* ===== verification/JsonStore.v ===== *)
(** The tables that the decoder of [VM/src/ljsonlib.cpp] makes: creation, assignment
    of an element or a member, and the growth of the store. *)
From stdpp Require Import gmap.
From S2P Require Import Prelude Word Double NumParse LuaApi Arith Compare Key TableNode Table TableSpec TableResize TableRehash TableMap TableIter TabLib TabMove TabLibSpec JsonLib JsonSpec.
Open Scope Z_scope.
Open Scope outcome_scope.

(** * New tables *)

Lemma new_addr_fresh σ : σ !! new_addr σ = None.
Proof.
  assert (Hb : forall a t, σ !! a = Some t -> a < new_addr σ).
  { unfold new_addr.
    apply (map_fold_weak_ind (fun r (m : tables) => forall a t, m !! a = Some t -> a < r)).
    - intros a t Ha. by rewrite lookup_empty in Ha.
    - intros i x m r _ IH a t Ha. apply lookup_insert_Some in Ha as [[-> _]|[_ Ha]]; [lia|].
      specialize (IH a t Ha). lia. }
  destruct (σ !! new_addr σ) as [t|] eqn:E; [|done]. specialize (Hb _ _ E). lia.
Qed.

Section Store.
Context `{VecSize, Target}.

Lemma implements_pointwise t (m m' : fmap_t) :
  (forall k, valid_key k = true -> m k = m' k) -> implements t m -> implements t m'.
Proof. intros E [Hwf Hm]. split; [done|]. intros k Hv. by rewrite Hm, E. Qed.

Lemma plain_ext t (m m' : fmap_t) :
  (forall k, valid_key k = true -> m k = m' k) -> plain_table t m -> plain_table t m'.
Proof. intros E [Hi Hp]. split; [by apply implements_pointwise with m|done]. Qed.

Lemma plain_flags t t' m m' :
  plain_table t m -> flags t' = flags t -> implements t' m' -> plain_table t' m'.
Proof. intros (_ & Hr & Hm) E Hi. unfold flags in E. split; [done|]. split; congruence. Qed.

Lemma newtable_spec σ :
  exists t, lua_newtable 0 0 σ = Ret (new_addr σ, <[new_addr σ := t]> σ) /\
    plain_table t (fun _ => LNil).
Proof.
  destruct (luaH_new_spec 0 0) as (t & Et & Hwf & He & _); [rewrite MAXSIZE_eq; lia..|].
  exists t. unfold lua_newtable. rewrite Et. split; [done|]. split.
  - split; [done|]. intros k Hv. by apply get_empty.
  - by injection Et as <-.
Qed.

(** The limits that the decoder can meet: the slots of a C function and the size of a
    table.  [limit] says that the input is large enough to meet one. *)
Variable limit : Prop.

Definition limit_error (e : lua_error) : Prop :=
  limit /\ (e = RunError "stack overflow" \/ e = RunError "table overflow").

(** A table that holds few keys does not overflow. *)
Definition few_keys (n : nat) : Prop := limit \/ Z.of_nat n < 2 ^ 25.

Lemma entries_bound t m (L : list TValue) :
  implements t m -> (forall k, valid_key k = true -> m k <> LNil -> key_norm k ∈ L) ->
  (length (entries t) <= length L)%nat.
Proof.
  intros [Hwf Hm] HL. rewrite <- (length_map (fun kv : TValue * TValue => key_norm kv.1) (entries t)).
  apply submseteq_length, NoDup_submseteq; [by apply entries_NoDup|].
  intros x (k & v & -> & Hin)%elem_of_norms.
  apply entry_get in Hin as (Hv & Hnv & Hg); [|done]. apply HL; [done|]. by rewrite <- Hm, Hg.
Qed.

(** The table at [a] is changed to one with the content [m]. *)
Definition assigned (σ : tables) (a : Z) (m : fmap_t) (r : outcome tables) : Prop :=
  match r with
  | Ret σ' => exists t, σ' = <[a := t]> σ /\ plain_table t m
  | Throw e => limit_error e
  | Undefined _ => False
  end.

Lemma full_limit t e : few_keys (length (entries t)) ->
  e = RunError "table overflow" -> 2 ^ 25 <= Z.of_nat (length (entries t)) -> limit_error e.
Proof. intros [Hl|Hl] -> Hb; [|lia]. split; [done|by right]. Qed.

Lemma rawseti_assigned σ a t m i v :
  σ !! a = Some t -> plain_table t m -> in_s 32 i -> few_keys (length (entries t)) ->
  assigned σ a (map_set m (akey i) v) (lua_rawseti σ a i v).
Proof.
  intros Ea Hp Hi Hf. pose proof Hp as (Hm & Hr & _). unfold lua_rawseti, table_at. rewrite Ea.
  cbn [outcome_bind]. pose proof (rawseti_spec t m i v Hm Hi Hr) as Hs.
  pose proof (rawseti_keeps t i v) as Hk.
  destruct (rawseti t i v) as [t'|e|] eqn:Et; cbn [outcome_bind full_or assigned] in *; [| |done].
  - exists t'. split; [done|]. apply (plain_flags t t' m); [done|by apply Hk|by apply Hs].
  - apply (full_limit t); [done..|]. pose proof (set_spec t (akey i) v (proj1 Hm)) as Hset.
    unfold rawseti in Et. rewrite Hr, setnum_eq in Et by done. cbn [negb guard_or] in Et.
    destruct (in_array i t); [done|]. unfold set in Hset. rewrite Et in Hset.
    destruct Hset as [[Hv _]|(_ & _ & Hb)]; [|done]. by rewrite akey_int in Hv.
Qed.

Lemma luaH_set_keeps t k : keeps (luaH_set t k) fst t.
Proof.
  unfold luaH_set. case_match; [by apply keeps_ret|].
  apply (keeps_weaken _ _ (invalidateTMcache t)); [done|]. unfold luaH_newkey.
  destruct k; try apply newkey_keeps; try apply keeps_throw;
    (case_match; [apply keeps_throw|apply newkey_keeps]).
Qed.

Lemma rawset_assigned σ a t m k v :
  σ !! a = Some t -> plain_table t m -> valid_key k = true -> few_keys (length (entries t)) ->
  assigned σ a (map_set m k v) (lua_rawset σ a k v).
Proof.
  intros Ea Hp Hv Hf. pose proof Hp as (Hm & Hr & _). unfold lua_rawset, table_at. rewrite Ea.
  cbn [outcome_bind]. rewrite Hr. cbn [negb guard_or]. pose proof (luaH_set_keeps t k) as Hk.
  pose proof (set_implements t m k v Hm) as Hs. pose proof (set_spec t k v (proj1 Hm)) as Ho.
  unfold set in Hs, Ho. destruct (luaH_set t k) as [[t' s]|e|]; cbn [outcome_bind assigned] in *; [| |done].
  - eexists. split; [done|]. apply (plain_flags t _ m); [done| |done].
    rewrite setslot_flags. by apply (Hk (t', s)).
  - destruct Ho as [[Hi _]|(_ & E & Hb)]; [congruence|]. by apply (full_limit t).
Qed.

(** * The content of an array and of an object *)

Lemma arr_map_nil k : arr_map [] k = LNil.
Proof. unfold arr_map. by repeat case_match. Qed.

Lemma arr_map_snoc vs v k :
  Z.of_nat (length vs) + 1 < 2 ^ 31 ->
  map_set (arr_map vs) (akey (Z.of_nat (length vs) + 1)) v k = arr_map (vs ++ [v]) k.
Proof.
  intros Hl. rewrite map_set_index by (unfold in_s; lia). unfold arr_map.
  destruct (index_of k) as [i|]; [|by rewrite bool_decide_eq_false_2].
  destruct (bool_decide_reflect (Some i = Some (Z.of_nat (length vs) + 1))) as [[= ->]|Hne].
  - rewrite (proj2 (Z.leb_le _ _)) by lia. rewrite list_lookup_middle; [done|lia].
  - destruct (Z.leb_spec 1 i); [|done]. destruct (decide (i < Z.of_nat (length vs) + 1)).
    + by rewrite lookup_app_l by lia.
    + rewrite !lookup_ge_None_2; [done| |lia].
      rewrite length_app. cbn. assert (i <> Z.of_nat (length vs) + 1) by congruence. lia.
Qed.

Lemma obj_map_snoc kvs s v : obj_map (kvs ++ [(s, v)]) = map_set (obj_map kvs) (LString s) v.
Proof. unfold obj_map. by rewrite fold_left_app. Qed.

(** The keys with a value are no more than the elements or members. *)
Lemma arr_map_entries t vs : implements t (arr_map vs) -> (length (entries t) <= length vs)%nat.
Proof.
  intros Hi. rewrite <- (length_seq (length vs) 1),
    <- (length_map (fun i => key_norm (akey (Z.of_nat i)))).
  apply (entries_bound t _ _ Hi). intros k _ Hk. unfold arr_map in Hk.
  destruct (index_of k) as [i|] eqn:Ei; [|done]. destruct (Z.leb_spec 1 i); [|done].
  destruct (vs !! Z.to_nat (i - 1)) as [v|] eqn:Ev; [|done]. apply lookup_lt_Some in Ev.
  apply list_elem_of_fmap. exists (Z.to_nat i). rewrite elem_of_seq, Z2Nat.id by lia. split; [|lia].
  apply index_of_norm; [by apply index_of_range in Ei|done].
Qed.

Lemma obj_map_support kvs k :
  obj_map kvs k <> LNil -> key_norm k ∈ map (fun kv : list Z * TValue => key_norm (LString kv.1)) kvs.
Proof.
  induction kvs as [|[s v] kvs IH] using rev_ind; [done|]. rewrite obj_map_snoc. unfold map_set.
  rewrite map_app. intros Hk. apply elem_of_app. destruct (decide _) as [E|]; [right|left; auto].
  rewrite E. by apply list_elem_of_singleton.
Qed.

Lemma obj_map_entries t kvs : implements t (obj_map kvs) -> (length (entries t) <= length kvs)%nat.
Proof.
  intros Hi. rewrite <- (length_map (fun kv : list Z * TValue => key_norm (LString kv.1))).
  apply (entries_bound t _ _ Hi). intros k _. apply obj_map_support.
Qed.

(** * Growth of the store *)

Lemma represents_snoc δ δ1 vs l v j :
  represents_list δ vs l -> represents δ1 v j -> δ ##ₘ δ1 ->
  represents_list (δ ∪ δ1) (vs ++ [v]) (l ++ [j]).
Proof.
  intros Hl Hv. induction Hl as [|δa δb w vs j' l Hw Hvs IH Hd]; intros Hd1; cbn [app].
  - rewrite map_empty_union, <- (map_union_empty δ1). constructor; [done|constructor|].
    apply map_disjoint_empty_r.
  - apply map_disjoint_union_l in Hd1 as [Hda Hdb]. rewrite <- map_union_assoc.
    constructor; [done|by apply IH|]. by apply map_disjoint_union_r.
Qed.

Lemma represents_length δ vs l : represents_list δ vs l -> length vs = length l.
Proof. induction 1; cbn; congruence. Qed.

(** While a table is filled: the table at [a] of [σ] has the content [m], the values
    [vs] stand for the trees [l], and the store was [σ0] before. *)
Definition filling (σ0 : tables) (a : Z) (vs : list TValue) (l : list json) (m : fmap_t)
    (σ : tables) : Prop :=
  exists δ t, σ = <[a := t]> (δ ∪ σ0) /\ represents_list δ vs l /\ δ ##ₘ σ0 /\ δ !! a = None /\
    σ0 !! a = None /\ plain_table t m.

Lemma filling_new σ m :
  (forall k, valid_key k = true -> m k = LNil) ->
  exists a σ', lua_newtable 0 0 σ = Ret (a, σ') /\ filling σ a [] [] m σ'.
Proof.
  intros Hm. destruct (newtable_spec σ) as (t & Et & Hp). eexists _, _. split; [exact Et|].
  exists ∅, t. rewrite map_empty_union. split_and!; try done; try constructor.
  - apply map_disjoint_empty_l.
  - apply new_addr_fresh.
  - by apply implements_pointwise with (fun _ => LNil); [intros k Hk; rewrite Hm|apply Hp].
  - apply Hp.
Qed.

Lemma filling_step σ0 a vs l m σ δ1 v j :
  filling σ0 a vs l m σ -> represents δ1 v j -> δ1 ##ₘ σ ->
  exists t, (δ1 ∪ σ) !! a = Some t /\ plain_table t m /\
    forall m' r, assigned (δ1 ∪ σ) a m' r ->
      match r with Ret σ' => filling σ0 a (vs ++ [v]) (l ++ [j]) m' σ' | Throw e => limit_error e
      | Undefined _ => False end.
Proof.
  intros (δ & t & -> & Hl & Hd & Hda & Ha & Hp) Hv Hd1. exists t.
  apply map_disjoint_insert_r in Hd1 as [Hd1a Hd1]. apply map_disjoint_union_r in Hd1 as [Hd1δ Hd1].
  split; [|split; [done|]].
  - rewrite lookup_union_r by done. apply lookup_insert_eq.
  - intros m' [σ'|e|]; cbn [assigned]; [|done|done]. intros (t' & -> & Hp'). exists (δ ∪ δ1), t'.
    split_and!; try done.
    + rewrite <- insert_union_r by done. rewrite insert_insert_eq. f_equal.
      rewrite (map_union_comm δ δ1) by done. by rewrite map_union_assoc.
    + by apply represents_snoc.
    + by apply map_disjoint_union_l.
    + by apply lookup_union_None.
Qed.

(** A value that is complete. *)
Definition made (σ0 : tables) (v : TValue) (j : json) (σ : tables) : Prop :=
  exists δ, represents δ v j /\ δ ##ₘ σ0 /\ σ = δ ∪ σ0.

Lemma made_flat σ v j : represents ∅ v j -> made σ v j σ.
Proof. intros Hr. exists ∅. split; [done|]. split; [apply map_disjoint_empty_l|by rewrite map_empty_union]. Qed.

Lemma filling_done σ0 a vs l m σ :
  filling σ0 a vs l m σ -> exists δ t, represents_list δ vs l /\ δ !! a = None /\ plain_table t m /\
    <[a := t]> δ ##ₘ σ0 /\ σ = <[a := t]> δ ∪ σ0.
Proof.
  intros (δ & t & -> & Hl & Hd & Hda & Ha & Hp). exists δ, t. split_and!; try done.
  - by apply map_disjoint_insert_l.
  - by rewrite insert_union_l.
Qed.

Lemma filled_array σ0 a vs l σ : filling σ0 a vs l (arr_map vs) σ -> made σ0 (LTable a) (JArr l) σ.
Proof.
  intros (δ & t & Hl & Ha & Hp & Hd & ->)%filling_done. exists (<[a := t]> δ).
  split; [|done]. by apply rep_arr with vs.
Qed.

Lemma filled_object σ0 a ks vs l σ :
  filling σ0 a vs l (obj_map (zip ks vs)) σ -> length ks = length l ->
  made σ0 (LTable a) (JObj (zip ks l)) σ.
Proof.
  intros (δ & t & Hl & Ha & Hp & Hd & ->)%filling_done Hks. exists (<[a := t]> δ).
  split; [|done]. by apply rep_obj with vs.
Qed.
End Store.
