(* ===== verification/JsonParse.v ===== *)
(** The decoder of [VM/src/ljsonlib.cpp] against the grammar of [JsonSpec.v]: what it
    accepts is a JSON text, and the tables it leaves stand for its tree. *)
From stdpp Require Import gmap.
From S2P Require Import Prelude Word Double NumParse LuaApi Arith Compare Key TableNode Table TableMap TabLib TabMove JsonLib JsonSpec JsonLex JsonStore.
Open Scope Z_scope.
Open Scope outcome_scope.

Lemma white_app w w' : white w -> white w' -> white (w ++ w').
Proof. apply Forall_app_2. Qed.

Lemma elements_white w l t : white w -> elements_text l t -> elements_text l (w ++ t).
Proof. intros Hw [w1 j t0 w2 H1|w1 j t0 w2 l0 ts H1]; rewrite app_assoc; constructor; auto using white_app. Qed.

Lemma members_white w l t : white w -> members_text l t -> members_text l (w ++ t).
Proof. intros Hw [k kt w0 w1 w2 j t0 w3 H1|k kt w0 w1 w2 j t0 w3 l0 ts H1]; rewrite app_assoc; constructor; auto using white_app. Qed.

Lemma at_char_true c p : at_char c p = true -> exists q, p = c :: q.
Proof. destruct p as [|x q]; [done|]. cbn. intros ->%Z.eqb_eq. by exists q. Qed.

Section Parse.
Context `{VecSize, Target, NumFormat}.
Variable nargs : Z.

(** [room h n]: there are slots for [n] more values, unless a limit can be met. *)
Variable limit : Prop.
Definition room (h : Z) (n : nat) : Prop := limit \/ h + Z.of_nat n <= LUAI_MAXCSTACK.

(** A success satisfies [P], and the only errors are those of a limit. *)
Definition parse_ok {A} (P : A -> list Z -> tables -> Prop) (r : outcome (parsed A)) : Prop :=
  match r with
  | Ret (inl _) => True
  | Ret (inr (v, p, σ)) => P v p σ
  | Throw e => limit_error limit e
  | Undefined _ => False
  end.

Lemma parse_ok_bind {A B} (P : A -> list Z -> tables -> Prop) (Q : B -> list Z -> tables -> Prop)
    (o : outcome (parsed A)) (k : A -> list Z -> tables -> outcome (parsed B)) :
  parse_ok P o -> (forall v p σ, P v p σ -> parse_ok Q (k v p σ)) ->
  parse_ok Q (parse* v p σ := o in k v p σ).
Proof. destruct o as [[|[[v p] σ]]| |]; cbn; auto. Qed.

Lemma parse_ok_mono {A} (P Q : A -> list Z -> tables -> Prop) (o : outcome (parsed A)) :
  parse_ok P o -> (forall v p σ, P v p σ -> Q v p σ) -> parse_ok Q o.
Proof. destruct o as [[|[[v p] σ]]| |]; cbn; auto. Qed.

Lemma push_spec h :
  match push nargs h with
  | Ret h' => h' = h + 1
  | Throw e => ~ h + 1 <= LUAI_MAXCSTACK /\ e = RunError "stack overflow"
  | Undefined _ => False
  end.
Proof.
  unfold push, lua_checkstack. rewrite negb_involutive.
  destruct (_ && _) eqn:E; [|done]. split; [|done].
  apply andb_prop in E as [_ E]. rewrite orb_true_iff, !Z.ltb_lt in E. unfold LUAI_MAXCSTACK in *. lia.
Qed.

Lemma push_ok {A} (P : A -> list Z -> tables -> Prop) h n (k : Z -> outcome (parsed A)) :
  room h n -> (0 < n)%nat -> parse_ok P (k (h + 1)) -> parse_ok P (h' <- push nargs h ;; k h').
Proof.
  intros Hr Hn Hk. pose proof (push_spec h) as Hp. destruct (push nargs h) as [h'|e|]; [|cbn|done].
  - by rewrite Hp.
  - destruct Hp as [Hp ->]. destruct Hr as [Hl|Hr]; [|lia]. split; [done|by left].
Qed.

Lemma few_keys_weaken n n' : few_keys limit n -> (n' <= n)%nat -> few_keys limit n'.
Proof. intros [Hl|Hr] Hn; [by left|right; lia]. Qed.

Lemma room_weaken h n h' n' :
  room h n -> h' + Z.of_nat n' <= h + Z.of_nat n -> room h' n'.
Proof. intros [Hl|Hr] Hh; [by left|right; lia]. Qed.

(** A value at the front of [p], and the store with its tables. *)
Definition value_ok (p : list Z) (σ : tables) (v : TValue) (r : list Z) (σ' : tables) : Prop :=
  exists w t j, p = w ++ t ++ r /\ white w /\ value_text j t /\ made σ v j σ'.

(** * Atoms *)

Lemma skip_word_spec word p r : skip_word word p = Some r <-> p = word ++ r.
Proof.
  unfold skip_word. split.
  - case_bool_decide as E; [|done]. intros [= <-]. rewrite <- E at 1. by rewrite take_drop.
  - intros ->. rewrite take_app_length, bool_decide_eq_true_2 by done. by rewrite drop_app_length.
Qed.

Lemma parse_word_ok word v error h p σ j :
  value_text j (chars word) -> represents ∅ v j -> room h (length p) -> (0 < length p)%nat ->
  parse_ok (value_ok p σ) (parse_word word v error nargs h p σ).
Proof.
  intros Ht Hv Hr Hl. unfold parse_word. destruct (skip_word (chars word) p) as [r|] eqn:E; [|done].
  apply skip_word_spec in E as ->. apply (push_ok _ _ _ _ Hr Hl).
  exists [], (chars word), j. split; [done|]. split; [apply white_nil|]. split; [done|]. by apply made_flat.
Qed.

Lemma number_value_rep t i : represents ∅ (number_value t i) (JNum (number_value t i)).
Proof. unfold number_value. repeat case_match; constructor. Qed.

Lemma take_front (t r : list Z) : take (length (t ++ r) - length r) (t ++ r) = t.
Proof. rewrite length_app. replace (_ + _ - _)%nat with (length t) by lia. apply take_app_length. Qed.

Lemma parse_number_ok h p σ :
  room h (length p) -> (0 < length p)%nat -> parse_ok (value_ok p σ) (parse_number nargs h p σ).
Proof.
  intros Hr Hl. unfold parse_number. destruct (scan_number p) as [|[r i]] eqn:E; [done|].
  apply scan_number_sound in E as (t & -> & Ht). rewrite take_front. apply (push_ok _ _ _ _ Hr Hl).
  exists [], t, (JNum (number_value t i)). split; [done|]. split; [apply white_nil|].
  split; [by constructor|]. apply made_flat, number_value_rep.
Qed.

Lemma parse_string_ok h p σ :
  room h (length p) -> (0 < length p)%nat ->
  parse_ok (fun v r σ' => exists s t, v = LString s /\ σ' = σ /\ p = take 1 p ++ t ++ r /\
    string_text s t) (parse_string nargs h p σ).
Proof.
  intros Hr Hl. destruct p as [|c p]; [cbn in Hl; lia|]. unfold parse_string.
  destruct (string_loop _ _ _) as [|[s r]] eqn:E; [done|].
  apply string_loop_sound in E as (s' & t & -> & -> & Ht). apply (push_ok _ _ _ _ Hr Hl). by exists s', t.
Qed.

Lemma parse_string_value_ok h p σ :
  room h (length (34 :: p)) -> parse_ok (value_ok (34 :: p) σ) (parse_string nargs h (34 :: p) σ).
Proof.
  intros Hr. eapply parse_ok_mono; [apply parse_string_ok; [done|cbn; lia]|]. intros v r σ' (s & t & -> & -> & E & Ht).
  cbn in E. injection E as ->. exists [], (34 :: t), (JStr s). split; [done|].
  split; [apply white_nil|]. split; [by constructor|]. apply made_flat. constructor.
Qed.

(** * Arrays and objects *)

Lemma value_ok_split p σ v r σ' :
  value_ok p σ v r σ' -> exists w t j δ w2, p = w ++ t ++ w2 ++ skip_whitespace r /\ white w /\
    value_text j t /\ white w2 /\ represents δ v j /\ δ ##ₘ σ /\ σ' = δ ∪ σ.
Proof.
  intros (w & t & j & -> & Hw & Ht & δ & Hv & Hd & E).
  destruct (skip_whitespace_split r) as (w2 & Hw2 & Er & _). exists w, t, j, δ, w2.
  split_and!; try done. by rewrite Er at 1.
Qed.

(** The continuation of a loop after an assignment. *)
Lemma assigned_ok {A} (Q : A -> list Z -> tables -> Prop) (R : tables -> Prop) (o : outcome tables)
    (k : tables -> outcome (parsed A)) :
  match o with Ret σ => R σ | Throw e => limit_error limit e | Undefined _ => False end ->
  (forall σ, R σ -> parse_ok Q (k σ)) -> parse_ok Q (outcome_bind o k).
Proof. destruct o; cbn; auto. Qed.

Section Loops.
Variable parse : Z -> list Z -> tables -> outcome (parsed TValue).
Variable N : nat.
Hypothesis Hparse : forall h p σ, (length p < N)%nat -> room h (length p) ->
  parse_ok (value_ok p σ) (parse h p σ).

(** What the loop of an array adds to the values that are there. *)
Definition elements_ok (σ0 : tables) (a : Z) (vs : list TValue) (l : list json) (p r : list Z)
    (σ' : tables) : Prop :=
  exists t l' vs', p = t ++ r /\ elements_text l' t /\
    filling σ0 a (vs ++ vs') (l ++ l') (arr_map (vs ++ vs')) σ'.

Lemma elements_loop_ok σ0 a fuel : forall h p σ vs l,
  (length p < fuel)%nat -> (length p < N)%nat -> filling σ0 a vs l (arr_map vs) σ ->
  Z.of_nat (length vs) + Z.of_nat (length p) + 1 < 2 ^ 31 ->
  room h (length p) -> few_keys limit (length vs + length p) ->
  parse_ok (fun _ => elements_ok σ0 a vs l p)
    (elements_loop parse fuel h a (Z.of_nat (length vs) + 1) p σ).
Proof.
  induction fuel as [|f IH]; intros h p σ vs l Hf HN Hfill Hlen Hroom Hfew; [lia|]. cbn [elements_loop].
  destruct p as [|c0 p0]; [done|]. set (p := c0 :: p0) in *.
  assert (Hl1 : (1 <= length p)%nat) by (cbn; lia).
  eapply parse_ok_bind; [by apply Hparse|]. intros v r σ1 Hv.
  apply value_ok_split in Hv as (w & t & j & δ & w2 & Ep & Hw & Ht & Hw2 & Hr & Hd & ->).
  destruct (filling_step limit _ _ _ _ _ _ _ _ _ Hfill Hr Hd) as (t0 & Ea & Hp & Hstep).
  pose proof (arr_map_entries t0 vs (proj1 Hp)) as Hkeys.
  eapply assigned_ok; [apply (Hstep (arr_map (vs ++ [v]))), (fun H => H)|].
  { pose proof (rawseti_assigned limit _ _ _ _ (Z.of_nat (length vs) + 1) v Ea Hp) as Ha.
    specialize (Ha ltac:(unfold in_s; lia) ltac:(apply (few_keys_weaken _ _ Hfew); lia)). destruct (lua_rawseti _ _ _ _) as [σ2|e|]; [|done|done].
    destruct Ha as (t2 & -> & Hp2). exists t2. split; [done|].
    apply plain_ext with (2 := Hp2). intros k _. apply arr_map_snoc. lia. }
  intros σ2 Hfill2. unfold add_s. rewrite (proj2 (in_s_b_spec _ _)) by (unfold in_s; lia). cbn [outcome_bind].
  destruct (skip_whitespace r) as [|c q] eqn:Es; [done|].
  destruct (Z.eqb_spec c 93) as [->|_].
  { exists (w ++ t ++ w2 ++ [93]), [j], [v]. split; [rewrite Ep; by simplify_list_eq|].
    split; [by constructor|done]. }
  destruct (Z.eqb_spec c 44) as [->|_]; [|done].
  assert (Hlq : (length q < length p)%nat) by (rewrite Ep, !length_app; cbn; lia).
  replace (Z.of_nat (length vs) + 1 + 1) with (Z.of_nat (length (vs ++ [v])) + 1)
    by (rewrite length_app; cbn; lia).
  eapply parse_ok_mono.
  { apply (IH h q σ2 (vs ++ [v]) (l ++ [j])); try done; rewrite ?length_app; cbn [length]; try lia.
    - apply (room_weaken _ _ _ _ Hroom). lia.
    - apply (few_keys_weaken _ _ Hfew). lia. }
  intros _ r' σ3 (ts & l' & vs' & -> & Hts & Hf3). rewrite <- !app_assoc in Hf3.
  exists (w ++ t ++ w2 ++ 44 :: ts), (j :: l'), (v :: vs').
  split; [rewrite Ep; by simplify_list_eq|]. split; [by constructor|done].
Qed.

Lemma parse_array_ok h p σ :
  (length p < N)%nat -> Z.of_nat (length p) < 2 ^ 30 -> room h (length (91 :: p)) ->
  few_keys limit (length p) ->
  parse_ok (value_ok (91 :: p) σ) (parse_array parse nargs h (91 :: p) σ).
Proof.
  intros HN Hl Hroom Hfew. unfold parse_array. apply (push_ok _ _ _ _ Hroom); [cbn; lia|].
  set (h' := h + 1).
  destruct (filling_new σ (arr_map []) (fun k _ => arr_map_nil k)) as (a & σ1 & -> & Hfill).
  cbn [outcome_bind]. destruct (skip_whitespace_split p) as (w & Hw & Ep & _).
  set (q := skip_whitespace p) in *. cbv zeta. destruct (at_char 93 q) eqn:Ec.
  - apply at_char_true in Ec as [q' Eq]. rewrite Eq in *. exists [], (91 :: w ++ [93]), (JArr []).
    split; [rewrite Ep; by simplify_list_eq|]. split; [apply white_nil|]. split; [by constructor|].
    by apply (filled_array σ a []).
  - assert (Hlq : (length q <= length p)%nat) by (rewrite Ep, length_app; lia).
    eapply parse_ok_bind; [apply (elements_loop_ok σ a (S (length q)) h' q σ1 [] []); try done; cbn [length]; try lia|].
    { apply (room_weaken _ _ _ _ Hroom). unfold h'. cbn [length]. lia. }
    { apply (few_keys_weaken _ _ Hfew). lia. }
    intros _ r σ2 (t & l & vs & Eq & Ht & Hf2). cbn [good parse_ok]. rewrite Ep, Eq.
    exists [], (91 :: w ++ t), (JArr l). split; [by simplify_list_eq|]. split; [apply white_nil|].
    split; [|by apply (filled_array σ a vs)]. by apply vt_arr, elements_white.
Qed.

(** What the loop of an object adds to the members that are there. *)
Definition members_ok (σ0 : tables) (a : Z) (ks : list (list Z)) (vs : list TValue) (l : list json)
    (p r : list Z) (σ' : tables) : Prop :=
  exists t ks' l' vs', p = t ++ r /\ members_text (zip ks' l') t /\ length ks' = length l' /\
    filling σ0 a (vs ++ vs') (l ++ l') (obj_map (zip (ks ++ ks') (vs ++ vs'))) σ'.

Lemma obj_map_zip ks vs k v :
  length ks = length vs -> obj_map (zip (ks ++ [k]) (vs ++ [v])) = map_set (obj_map (zip ks vs)) (LString k) v.
Proof. intros Hl. rewrite zip_with_app by done. apply obj_map_snoc. Qed.

(** One member: its text, and the table with its key assigned. *)
Lemma member_assigned σ0 a ks vs l k v r σ σ1 p :
  filling σ0 a vs l (obj_map (zip ks vs)) σ -> length ks = length vs -> value_ok p σ v r σ1 ->
  few_keys limit (length vs) ->
  exists w t j w2, p = w ++ t ++ w2 ++ skip_whitespace r /\ white w /\ value_text j t /\ white w2 /\
    match lua_rawset σ1 a (LString k) v with
    | Ret σ2 => filling σ0 a (vs ++ [v]) (l ++ [j]) (obj_map (zip (ks ++ [k]) (vs ++ [v]))) σ2
    | Throw e => limit_error limit e
    | Undefined _ => False
    end.
Proof.
  intros Hfill Hks Hv Hfew. apply value_ok_split in Hv as (w & t & j & δ & w2 & Ep & Hw & Ht & Hw2 & Hr & Hd & ->).
  exists w, t, j, w2. split_and!; try done.
  destruct (filling_step limit _ _ _ _ _ _ _ _ _ Hfill Hr Hd) as (t0 & Ea & Hp & Hstep).
  apply Hstep. rewrite obj_map_zip by done. apply rawset_assigned with t0; [done..|].
  apply (few_keys_weaken _ _ Hfew). rewrite (obj_map_entries t0 _ (proj1 Hp)), length_zip_with. lia.
Qed.

Lemma members_loop_ok σ0 a fuel : forall h p σ ks vs l,
  (length p < fuel)%nat -> (length p < N)%nat -> filling σ0 a vs l (obj_map (zip ks vs)) σ ->
  length ks = length vs -> room h (length p) -> few_keys limit (length vs + length p) ->
  parse_ok (fun _ => members_ok σ0 a ks vs l p) (members_loop parse nargs fuel h a p σ).
Proof.
  induction fuel as [|f IH]; intros h p σ ks vs l Hf HN Hfill Hks Hroom Hfew; [lia|]. cbn [members_loop].
  destruct p as [|c0 p0]; [done|]. set (p := c0 :: p0) in *. cbv zeta.
  destruct (skip_whitespace_split p) as (w0 & Hw0 & Ep & _). set (q := skip_whitespace p) in *.
  destruct (at_char 34 q) eqn:Eq; [|done]. apply at_char_true in Eq as [q0 Eq]. rewrite Eq in *.
  assert (Hlq0 : (S (length q0) <= length p)%nat) by (rewrite Ep, length_app; cbn; lia).
  eapply parse_ok_bind.
  { apply parse_string_ok; [|cbn; lia]. apply (room_weaken _ _ _ _ Hroom). cbn [length]. lia. }
  intros k r σ1 (s & kt & -> & -> & Er & Hkt).
  cbn in Er. injection Er as ->.
  destruct (skip_whitespace_split r) as (w1 & Hw1 & Er & _). set (r1 := skip_whitespace r) in *.
  destruct (at_char 58 r1) eqn:Er1; [|done]. apply at_char_true in Er1 as [r2 Er1]. rewrite Er1 in *.
  cbn [tail]. assert (Hl2 : (length r2 < length p)%nat).
  { rewrite Ep, Er, !length_app. cbn. rewrite !length_app. cbn. lia. }
  eapply parse_ok_bind; [apply Hparse; [lia|apply (room_weaken _ _ _ _ Hroom); lia]|]. intros v r3 σ2 Hv.
  destruct (member_assigned σ0 a ks vs l s v r3 σ σ2 r2 Hfill Hks Hv ltac:(apply (few_keys_weaken _ _ Hfew); lia))
    as (w2 & t & j & w3 & E2 & Hw2 & Ht & Hw3 & Ha).
  eapply assigned_ok; [exact Ha|]. intros σ3 Hfill3.
  destruct (skip_whitespace r3) as [|c q3]; [done|].
  assert (Etext : p = (w0 ++ 34 :: kt ++ w1 ++ 58 :: w2 ++ t ++ w3) ++ c :: q3)
    by (rewrite Ep, Er, E2; by simplify_list_eq).
  destruct (Z.eqb_spec c 125) as [->|_].
  { exists (w0 ++ 34 :: kt ++ w1 ++ 58 :: w2 ++ t ++ w3 ++ [125]), [s], [j], [v].
    split; [rewrite Etext; by simplify_list_eq|]. split; [by constructor|done]. }
  destruct (Z.eqb_spec c 44) as [->|_]; [|done].
  assert (Hlq : (length q3 < length p)%nat) by (rewrite Etext, length_app; cbn; lia).
  eapply parse_ok_mono.
  { apply (IH h q3 σ3 (ks ++ [s]) (vs ++ [v]) (l ++ [j])); try done; rewrite ?length_app; cbn [length]; try lia.
    - apply (room_weaken _ _ _ _ Hroom). lia.
    - apply (few_keys_weaken _ _ Hfew). lia. }
  intros _ r' σ4 (ts & ks' & l' & vs' & -> & Hts & Hl' & Hf4). rewrite <- !app_assoc in Hf4.
  exists (w0 ++ 34 :: kt ++ w1 ++ 58 :: w2 ++ t ++ w3 ++ 44 :: ts), (s :: ks'), (j :: l'), (v :: vs').
  split; [rewrite Etext; by simplify_list_eq|]. split; [by constructor|]. split; [cbn; lia|done].
Qed.

Lemma parse_object_ok h p σ :
  (length p < N)%nat -> room h (length (123 :: p)) -> few_keys limit (length p) ->
  parse_ok (value_ok (123 :: p) σ) (parse_object parse nargs h (123 :: p) σ).
Proof.
  intros HN Hroom Hfew. unfold parse_object. apply (push_ok _ _ _ _ Hroom); [cbn; lia|].
  set (h' := h + 1).
  destruct (filling_new σ (obj_map (zip [] [])) (fun k _ => eq_refl)) as (a & σ1 & -> & Hfill).
  cbn [outcome_bind]. destruct (skip_whitespace_split p) as (w & Hw & Ep & _).
  set (q := skip_whitespace p) in *. cbv zeta. destruct (at_char 125 q) eqn:Ec.
  - apply at_char_true in Ec as [q' Eq]. rewrite Eq in *. exists [], (123 :: w ++ [125]), (JObj []).
    split; [rewrite Ep; by simplify_list_eq|]. split; [apply white_nil|]. split; [by constructor|].
    by apply (filled_object σ a [] [] []).
  - assert (Hlq : (length q <= length p)%nat) by (rewrite Ep, length_app; lia).
    eapply parse_ok_bind; [apply (members_loop_ok σ a (S (length q)) h' q σ1 [] [] []); try done; cbn [length]; try lia|].
    { apply (room_weaken _ _ _ _ Hroom). unfold h'. cbn [length]. lia. }
    { apply (few_keys_weaken _ _ Hfew). lia. }
    intros _ r σ2 (t & ks & l & vs & Eq & Ht & Hl & Hf2). cbn [good parse_ok]. rewrite Ep, Eq.
    exists [], (123 :: w ++ t), (JObj (zip ks l)). split; [by simplify_list_eq|]. split; [apply white_nil|].
    split; [|by apply (filled_object σ a ks vs)]. by apply vt_obj, members_white.
Qed.
End Loops.

(** * Values *)

Lemma value_ok_white w p σ v r σ' : white w -> value_ok p σ v r σ' -> value_ok (w ++ p) σ v r σ'.
Proof.
  intros Hw (w' & t & j & -> & Hw' & Ht & Hm). exists (w ++ w'), t, j.
  split; [by rewrite <- app_assoc|]. split; [by apply white_app|done].
Qed.

Lemma parse_value_ok fuel : forall h p σ,
  (length p < fuel)%nat -> Z.of_nat (length p) < 2 ^ 30 -> room h (length p) ->
  few_keys limit (length p) -> parse_ok (value_ok p σ) (parse_value fuel nargs h p σ).
Proof.
  induction fuel as [|f IH]; intros h p σ Hf Hl Hroom Hfew; [lia|]. cbn [parse_value].
  destruct (skip_whitespace_split p) as (w & Hw & Ep & _).
  destruct (skip_whitespace p) as [|c q]; [done|].
  assert (Hlq : (length q < length p)%nat) by (rewrite Ep, length_app; cbn; lia).
  assert (Hr : room h (length (c :: q))) by (apply (room_weaken _ _ _ _ Hroom); cbn; lia).
  assert (Hl0 : (0 < length (c :: q))%nat) by (cbn; lia).
  assert (Hk : few_keys limit (length q)) by (apply (few_keys_weaken _ _ Hfew); lia).
  apply parse_ok_mono with (P := value_ok (c :: q) σ);
    [|intros v r σ' Hv; rewrite Ep; by apply value_ok_white].
  assert (HIH : forall h p σ, (length p < S (length q))%nat -> room h (length p) ->
      parse_ok (value_ok p σ) (parse_value f nargs h p σ))
    by (intros; apply IH; [lia|lia|done|apply (few_keys_weaken _ _ Hfew); lia]).
  destruct (Z.eqb_spec c 110) as [->|_]; [eapply parse_word_ok; (done || constructor)|].
  destruct (Z.eqb_spec c 116) as [->|_]; [eapply parse_word_ok; (done || constructor)|].
  destruct (Z.eqb_spec c 102) as [->|_]; [eapply parse_word_ok; (done || constructor)|].
  destruct (Z.eqb_spec c 34) as [->|_]; [by apply parse_string_value_ok|].
  destruct (Z.eqb_spec c 91) as [->|_]; [apply parse_array_ok with (S (length q)); (done || lia)|].
  destruct (Z.eqb_spec c 123) as [->|_]; [apply parse_object_ok with (S (length q)); (done || lia)|].
  destruct (_ || _); [by apply parse_number_ok|done].
Qed.
End Parse.
