(* ===== verification/JsonComplete.v ===== *)
(** The decoder of [VM/src/ljsonlib.cpp] accepts every JSON text, and a text denotes
    one tree. *)
From stdpp Require Import gmap.
From S2P Require Import Prelude Word Double NumParse LuaApi Arith Compare Key TableNode Table TabLib JsonLib JsonSpec JsonLex JsonParse.
Open Scope Z_scope.
Open Scope outcome_scope.

(** * How a value starts *)

Lemma number_text_head t i : number_text t i -> exists c r, t = c :: r /\ (c = 45 \/ isdigit c = true).
Proof.
  assert (Hds : forall sg ds r, minus sg -> digit_run ds ->
    exists c q, sg ++ ds ++ r = c :: q /\ (c = 45 \/ isdigit c = true)).
  { intros sg ds r [-> | ->] [Hne Hd]; [|by eexists _, _; split; [done|left]].
    destruct Hd as [|c ds Hc _]; [done|]. eexists c, _. split; [done|by right]. }
  intros [sg ds Hm Hd|sg ds fs Hm Hd _|sg ds fr e es xs Hm Hd _ _ _ _]; [|by apply Hds..].
  rewrite <- (app_nil_r ds). by apply Hds.
Qed.

(** The byte that starts a value tells its kind. *)
Definition head_ok (j : json) (c : Z) : Prop :=
  match j with
  | JNull => c = 110
  | JBool b => c = if b then 116 else 102
  | JNum _ => c = 45 \/ 48 <= c <= 57
  | JStr _ => c = 34
  | JArr _ => c = 91
  | JObj _ => c = 123
  end.

Lemma value_text_head j t : value_text j t -> exists c r, t = c :: r /\ head_ok j c.
Proof.
  intros Ht. destruct Ht as [| | |t i Hn|s t _|w _|l t _|w _|l t _]; try by eexists _, _.
  destruct (number_text_head t i Hn) as (c & r & -> & Hc). exists c, r. split; [done|].
  destruct Hc as [->|Hc]; [by left|right]. unfold isdigit in Hc.
  rewrite andb_true_iff, !Z.leb_le in Hc. lia.
Qed.

Lemma head_ok_plain j c : head_ok j c -> is_white c = false /\ c <> 93 /\ c <> 125.
Proof.
  unfold is_white. rewrite !orb_false_iff, !Z.eqb_neq. destruct j as [|[]| | | |]; cbn; lia.
Qed.

Lemma value_text_skip j t p : value_text j t -> skip_whitespace (t ++ p) = t ++ p.
Proof.
  intros (c & r & -> & Hc)%value_text_head. apply head_ok_plain in Hc as (Hc & _).
  cbn. by rewrite Hc.
Qed.

Lemma elements_text_value l t : elements_text l t -> forall p, skip_whitespace (t ++ p) <> [].
Proof.
  intros Ht p. assert (Hs : exists w j u r, t = w ++ u ++ r /\ white w /\ value_text j u)
    by (destruct Ht; eauto 10).
  destruct Hs as (w & j & u & r & -> & Hw & Hu). rewrite <- !app_assoc, skip_white by done.
  rewrite (value_text_skip j) by done. by destruct (value_text_head j u Hu) as (c & q & -> & _).
Qed.

Section Complete.
Context `{VecSize, Target, NumFormat}.
Variable nargs : Z.

(** The routine does not reject the text, and a success leaves [rest]. *)
Definition accepts {A} (rest : list Z) (r : outcome (parsed A)) : Prop :=
  match r with
  | Ret (inl _) => False
  | Ret (inr (_, p, _)) => p = rest
  | _ => True
  end.

Lemma accepts_bind {A B} p0 rest (o : outcome (parsed A)) (k : A -> list Z -> tables -> outcome (parsed B)) :
  accepts p0 o -> (forall v σ, accepts rest (k v p0 σ)) -> accepts rest (parse* v p σ := o in k v p σ).
Proof. destruct o as [[|[[v p] σ]]| |]; cbn; [done| |done|done]. intros ->. auto. Qed.

Lemma accepts_seq {A B} rest (o : outcome A) (k : A -> outcome (parsed B)) :
  (forall a, accepts rest (k a)) -> accepts rest (outcome_bind o k).
Proof. destruct o; cbn; auto. Qed.

Lemma parse_word_accepts word v error h rest σ :
  accepts rest (parse_word word v error nargs h (chars word ++ rest) σ).
Proof. unfold parse_word. rewrite (proj2 (skip_word_spec _ _ rest)) by done. by apply accepts_seq. Qed.

Lemma parse_string_accepts s t h rest σ :
  string_text s t -> accepts rest (parse_string nargs h (34 :: t ++ rest) σ).
Proof.
  intros Ht. unfold parse_string. rewrite (string_loop_complete s t Ht) by (rewrite length_app; lia).
  by apply accepts_seq.
Qed.

Lemma parse_number_accepts t i h rest σ :
  number_text t i -> ends_value rest -> accepts rest (parse_number nargs h (t ++ rest) σ).
Proof.
  intros Ht He. unfold parse_number. rewrite (scan_number_complete t i) by done. by apply accepts_seq.
Qed.

Lemma parse_value_white f h w p σ : white w -> parse_value f nargs h (w ++ p) σ = parse_value f nargs h p σ.
Proof. intros Hw. destruct f as [|f]; [done|]. cbn [parse_value]. by rewrite skip_white. Qed.

Definition value_accepted (j : json) (t : list Z) : Prop :=
  forall f h rest σ, ends_value rest -> accepts rest (parse_value f nargs h (t ++ rest) σ).

Definition elements_accepted (l : list json) (t : list Z) : Prop :=
  forall f fuel h a i rest σ,
    accepts rest (elements_loop (parse_value f nargs) fuel h a i (t ++ rest) σ).

Definition members_accepted (l : list (list Z * json)) (t : list Z) : Prop :=
  forall f fuel h a rest σ,
    accepts rest (members_loop (parse_value f nargs) nargs fuel h a (t ++ rest) σ).

(** A value between white space, before a byte that ends it. *)
Lemma value_then j t f h w1 w2 c rest σ :
  value_accepted j t -> white w1 -> white w2 -> c = 44 \/ c = 93 \/ c = 125 ->
  accepts (w2 ++ c :: rest) (parse_value f nargs h (w1 ++ t ++ w2 ++ c :: rest) σ).
Proof.
  intros Hv Hw1 Hw2 Hc. rewrite parse_value_white by done. apply Hv. apply white_ends; [done|]. by right.
Qed.

(** The loop of an array behind one element. *)
Lemma element_accepted j t w1 w2 c f fuel h a i rest rest' σ :
  value_accepted j t -> value_text j t -> white w1 -> white w2 -> c = 44 \/ c = 93 ->
  (forall fuel i σ, accepts rest'
     (if c =? 93 then good tt rest σ
      else elements_loop (parse_value f nargs) fuel h a i rest σ)) ->
  accepts rest' (elements_loop (parse_value f nargs) fuel h a i (w1 ++ t ++ w2 ++ c :: rest) σ).
Proof.
  intros Hv Ht Hw1 Hw2 Hc Hk. destruct fuel as [|n]; [done|]. cbn [elements_loop].
  destruct (w1 ++ t ++ w2 ++ c :: rest) as [|c0 p0] eqn:Ep.
  { destruct (value_text_head j t Ht) as (x & r & -> & _). by destruct w1. }
  rewrite <- Ep. apply accepts_bind with (w2 ++ c :: rest); [apply (value_then j); try done; tauto|].
  intros v σ1. apply accepts_seq. intros σ2. apply accepts_seq. intros i'.
  rewrite skip_stop; [|done|by destruct Hc as [->| ->]].
  specialize (Hk n i' σ2). by destruct Hc as [->| ->].
Qed.

(** The loop of an object behind one member. *)
Lemma member_accepted s kt j t w0 w1 w2 w3 c f fuel h a rest rest' σ :
  value_accepted j t -> value_text j t -> string_text s kt -> white w0 -> white w1 -> white w2 ->
  white w3 -> c = 44 \/ c = 125 ->
  (forall fuel σ, accepts rest'
     (if c =? 125 then good tt rest σ
      else members_loop (parse_value f nargs) nargs fuel h a rest σ)) ->
  accepts rest' (members_loop (parse_value f nargs) nargs fuel h a
    (w0 ++ 34 :: kt ++ w1 ++ 58 :: w2 ++ t ++ w3 ++ c :: rest) σ).
Proof.
  intros Hv Ht Hkt Hw0 Hw1 Hw2 Hw3 Hc Hk. destruct fuel as [|n]; [done|]. cbn [members_loop].
  destruct (w0 ++ _) as [|c0 p0] eqn:Ep; [by destruct w0|]. rewrite <- Ep. cbv zeta.
  rewrite skip_stop by done. cbn [at_char Z.eqb Pos.eqb].
  apply accepts_bind with (w1 ++ 58 :: w2 ++ t ++ w3 ++ c :: rest).
  { by apply parse_string_accepts with s. }
  intros k σ1. rewrite skip_stop by done. cbn [at_char Z.eqb Pos.eqb tail].
  apply accepts_bind with (w3 ++ c :: rest); [apply (value_then j); try done; tauto|].
  intros v σ2. apply accepts_seq. intros σ3. rewrite skip_stop; [|done|by destruct Hc as [->| ->]].
  specialize (Hk n σ3). by destruct Hc as [->| ->].
Qed.

(** The front of an array or an object that is not empty. *)
Lemma elements_head l t p : elements_text l t -> at_char 93 (skip_whitespace (t ++ p)) = false.
Proof.
  intros Ht. assert (Hs : exists w j u r, t = w ++ u ++ r /\ white w /\ value_text j u)
    by (destruct Ht; eauto 10).
  destruct Hs as (w & j & u & r & -> & Hw & Hu). rewrite <- !app_assoc, skip_white by done.
  rewrite (value_text_skip j) by done. destruct (value_text_head j u Hu) as (c & q & -> & Hc).
  apply head_ok_plain in Hc as (_ & Hc & _). by apply Z.eqb_neq.
Qed.

Lemma members_text_key l t : members_text l t -> forall p, skip_whitespace (t ++ p) <> [].
Proof.
  intros [k kt w0 w1 w2 j u w3 Hw|k kt w0 w1 w2 j u w3 m ts Hw] p;
    by rewrite <- app_assoc; cbn [app]; rewrite skip_stop.
Qed.

Lemma members_head l t p : members_text l t -> at_char 125 (skip_whitespace (t ++ p)) = false.
Proof. intros [k kt w0 w1 w2 j u w3 Hw|k kt w0 w1 w2 j u w3 m ts Hw]; by rewrite <- app_assoc; cbn [app]; rewrite skip_stop. Qed.

(** The loops skip white space themselves. *)
Lemma elements_loop_skip f fuel h a i p σ :
  skip_whitespace p <> [] ->
  elements_loop (parse_value f nargs) fuel h a i (skip_whitespace p) σ =
  elements_loop (parse_value f nargs) fuel h a i p σ.
Proof.
  intros Hp. destruct fuel as [|n]; [done|]. cbn [elements_loop].
  destruct (skip_whitespace_split p) as (w & Hw & Ep & _). set (q := skip_whitespace p) in *.
  clearbody q. subst p. rewrite parse_value_white by done.
  destruct q as [|c q]; [done|]. by destruct w.
Qed.

Lemma members_loop_skip parse fuel h a p σ :
  skip_whitespace p <> [] ->
  members_loop parse nargs fuel h a (skip_whitespace p) σ = members_loop parse nargs fuel h a p σ.
Proof.
  intros Hp. destruct fuel as [|n]; [done|]. cbn [members_loop].
  destruct (skip_whitespace_split p) as (w & Hw & Ep & Hs).
  assert (Hi : skip_whitespace (skip_whitespace p) = skip_whitespace p).
  { destruct (skip_whitespace p) as [|c q]; [done|]. cbn. by rewrite Hs. }
  rewrite Hi. destruct (skip_whitespace p) as [|c q]; [done|].
  destruct p; [by destruct w|done].
Qed.

Lemma value_text_accepted j t (Ht : value_text j t) : value_accepted j t.
Proof.
  revert j t Ht. apply (value_gen_mut number_text string_text (fun j t _ => value_accepted j t)
    (fun l t _ => elements_accepted l t) (fun l t _ => members_accepted l t)).
  4: intros t i Hn. 5: intros s t Hs. 6: intros w Hw. 7: intros l t Ht IH.
  8: intros w Hw. 9: intros l t Ht IH.
  10: intros w1 j t w2 Hw1 Ht IH Hw2. 11: intros w1 j t w2 l ts Hw1 Ht IH Hw2 Hts IHs.
  12: intros k kt w0 w1 w2 j t w3 Hw0 Hk Hw1 Hw2 Ht IH Hw3.
  13: intros k kt w0 w1 w2 j t w3 l ts Hw0 Hk Hw1 Hw2 Ht IH Hw3 Hts IHs.
  all: try (intros [|f] h rest σ He; [done|]).
  - apply (parse_word_accepts "null").
  - apply (parse_word_accepts "true").
  - apply (parse_word_accepts "false").
  - cbn [parse_value]. rewrite (value_text_skip (JNum (number_value t i))) by by constructor.
    destruct (value_text_head _ _ (vt_num t i Hn : value_text _ _)) as (c & r & Et & Hc). cbn [head_ok] in Hc.
    rewrite Et. cbn [app]. rewrite !(proj2 (Z.eqb_neq c _)) by lia.
    rewrite (proj2 (orb_true_iff _ _)).
    + rewrite app_comm_cons, <- Et. by apply parse_number_accepts with i.
    + rewrite andb_true_iff, Z.eqb_eq, !Z.leb_le. lia.
  - cbn. by apply parse_string_accepts with s.
  - cbn [app parse_value skip_whitespace is_white Z.eqb Pos.eqb orb]. unfold parse_array.
    apply accepts_seq. intros h'. apply accepts_seq. intros [a σ1].
    rewrite <- app_assoc. cbn [app]. by rewrite skip_stop.
  - cbn [app parse_value skip_whitespace is_white Z.eqb Pos.eqb orb]. unfold parse_array.
    apply accepts_seq. intros h'. apply accepts_seq. intros [a σ1]. cbv zeta.
    pose proof (elements_head l t rest Ht) as Hc. pose proof (elements_text_value l t Ht rest) as Hn.
    rewrite Hc. apply accepts_bind with rest; [|done].
    rewrite elements_loop_skip by done. apply IH.
  - cbn [app parse_value skip_whitespace is_white Z.eqb Pos.eqb orb]. unfold parse_object.
    apply accepts_seq. intros h'. apply accepts_seq. intros [a σ1].
    rewrite <- app_assoc. cbn [app]. by rewrite skip_stop.
  - cbn [app parse_value skip_whitespace is_white Z.eqb Pos.eqb orb]. unfold parse_object.
    apply accepts_seq. intros h'. apply accepts_seq. intros [a σ1]. cbv zeta.
    pose proof (members_head l t rest Ht) as Hc. pose proof (members_text_key l t Ht rest) as Hn.
    rewrite Hc. apply accepts_bind with rest; [|done].
    rewrite members_loop_skip by done. apply IH.
  - intros f fuel h a i rest σ. rewrite <- ?app_assoc.
    apply element_accepted with j; auto. done.
  - intros f fuel h a i rest σ. rewrite <- ?app_assoc. cbn [app].
    apply element_accepted with j; auto. intros. apply IHs.
  - intros f fuel h a rest σ. repeat (rewrite <- app_assoc || cbn [app]).
    apply member_accepted with k j; auto. done.
  - intros f fuel h a rest σ. repeat (rewrite <- app_assoc || cbn [app]).
    apply member_accepted with k j; auto. intros. apply IHs.
Qed.
End Complete.

(** * One tree *)

(** The constructors of two trees whose texts start alike. *)
Definition same_kind (j j' : json) : Prop :=
  match j, j' with
  | JNull, JNull | JNum _, JNum _ | JStr _, JStr _ | JArr _, JArr _ | JObj _, JObj _ => True
  | JBool a, JBool b => a = b
  | _, _ => False
  end.

Lemma head_same_kind j j' c : head_ok j c -> head_ok j' c -> same_kind j j'.
Proof. destruct j as [|[]| | | |], j' as [|[]| | | |]; cbn; (done || lia). Qed.

Lemma value_same_kind j t j' t' r r' :
  value_text j t -> value_text j' t' -> t ++ r = t' ++ r' -> same_kind j j'.
Proof.
  intros (c & q & -> & Hc)%value_text_head (c' & q' & -> & Hc')%value_text_head [= -> _].
  by apply head_same_kind with c'.
Qed.

Lemma white_eq w w' p p' :
  white w -> white w' -> skip_whitespace p = p -> skip_whitespace p' = p' -> w ++ p = w' ++ p' -> p = p'.
Proof.
  intros Hw Hw' Ep Ep' E. apply (f_equal skip_whitespace) in E.
  by rewrite !skip_white, Ep, Ep' in E.
Qed.

Lemma string_text_unique s t s' t' r r' :
  string_text s t -> string_text s' t' -> t ++ r = t' ++ r' -> s' = s /\ r' = r.
Proof.
  intros Ht Ht' E. pose proof (string_loop_complete s t Ht (length t + length t') r []) as E1.
  pose proof (string_loop_complete s' t' Ht' (length t + length t') r' []) as E2.
  rewrite E in E1. rewrite E1 in E2 by lia. specialize (E2 ltac:(lia)). by injection E2 as -> ->.
Qed.

Lemma number_text_unique t i t' i' r r' :
  number_text t i -> number_text t' i' -> t ++ r = t' ++ r' -> ends_value r -> ends_value r' ->
  t' = t /\ i' = i /\ r' = r.
Proof.
  intros Ht Ht' E Hr Hr'. pose proof (scan_number_complete t i r Ht Hr) as E1.
  rewrite E, (scan_number_complete t' i' r') in E1 by done. injection E1 as -> ->.
  by apply app_inv_tail in E as ->.
Qed.

Definition value_unique (j : json) (t : list Z) : Prop := forall j' t' r r',
  value_text j' t' -> t ++ r = t' ++ r' -> ends_value r -> ends_value r' -> j' = j /\ r' = r.
Definition elements_unique (l : list json) (t : list Z) : Prop := forall l' t' r r',
  elements_text l' t' -> t ++ r = t' ++ r' -> l' = l /\ r' = r.
Definition members_unique (l : list (list Z * json)) (t : list Z) : Prop := forall l' t' r r',
  members_text l' t' -> t ++ r = t' ++ r' -> l' = l /\ r' = r.

(** Behind a value there is white space and a byte that ends it. *)
Lemma after_value w c r : white w -> c = 44 \/ c = 93 \/ c = 125 -> ends_value (w ++ c :: r).
Proof. intros Hw Hc. apply white_ends; [done|]. by right. Qed.

Lemma value_step j t j' t' w1 w1' w2 w2' c c' r r' :
  value_unique j t -> value_text j t -> value_text j' t' -> white w1 -> white w1' -> white w2 ->
  white w2' -> c = 44 \/ c = 93 \/ c = 125 -> c' = 44 \/ c' = 93 \/ c' = 125 ->
  w1 ++ t ++ w2 ++ c :: r = w1' ++ t' ++ w2' ++ c' :: r' -> j' = j /\ c' = c /\ r' = r.
Proof.
  intros Hu Ht Ht' Hw1 Hw1' Hw2 Hw2' Hc Hc' E.
  apply white_eq in E; [|done|done|by apply value_text_skip with j|by apply value_text_skip with j'].
  destruct (Hu j' t' _ _ Ht' E) as [-> E2]; [by apply after_value..|].
  assert (Hs : forall x p, x = 44 \/ x = 93 \/ x = 125 -> skip_whitespace (x :: p) = x :: p)
    by (intros x p [->|[->| ->]]; done).
  apply white_eq in E2; auto. by injection E2 as -> ->.
Qed.

Lemma elements_case l t : elements_text l t -> exists w1 j u w2 c q l0,
  t = w1 ++ u ++ w2 ++ c :: q /\ l = j :: l0 /\ white w1 /\ value_text j u /\ white w2 /\
  (c = 93 /\ q = [] /\ l0 = [] \/ c = 44 /\ elements_text l0 q).
Proof. intros []; eexists _, _, _, _, _, _, _; split_and!; try done; auto. Qed.

Lemma members_case l t : members_text l t -> exists k kt w0 w1 w2 j u w3 c q l0,
  t = w0 ++ 34 :: kt ++ w1 ++ 58 :: w2 ++ u ++ w3 ++ c :: q /\ l = (k, j) :: l0 /\ white w0 /\
  string_text k kt /\ white w1 /\ white w2 /\ value_text j u /\ white w3 /\
  (c = 125 /\ q = [] /\ l0 = [] \/ c = 44 /\ members_text l0 q).
Proof. intros []; eexists _, _, _, _, _, _, _, _, _, _, _; split_and!; try done; auto. Qed.

(** One element against the front of other elements. *)
Lemma element_step j u w1 w2 c q r l' t' r' :
  value_unique j u -> value_text j u -> white w1 -> white w2 -> c = 44 \/ c = 93 ->
  elements_text l' t' -> (w1 ++ u ++ w2 ++ c :: q) ++ r = t' ++ r' ->
  exists l0 q', l' = j :: l0 /\ q ++ r = q' ++ r' /\
    (c = 93 /\ q' = [] /\ l0 = [] \/ c = 44 /\ elements_text l0 q').
Proof.
  intros Hu Ht Hw1 Hw2 Hc Hm E.
  apply elements_case in Hm as (w1' & j' & u' & w2' & c' & q' & l0 & -> & -> & Hw1' & Ht' & Hw2' & Hl).
  repeat (rewrite <- app_assoc in E || cbn [app] in E). assert (Hc' : c' = 44 \/ c' = 93) by tauto.
  destruct (value_step j u j' u' w1 w1' w2 w2' c c' (q ++ r) (q' ++ r')) as (-> & -> & E3); try done; try tauto.
  by exists l0, q'.
Qed.

(** An array or object that ends at once has no elements or members. *)
Lemma elements_not_end l t r w p : elements_text l t -> white w -> w ++ 93 :: p = t ++ r -> False.
Proof.
  intros Ht Hw E. pose proof (elements_head l t r Ht) as Hh. by rewrite <- E, skip_stop in Hh.
Qed.

Lemma members_not_end l t r w p : members_text l t -> white w -> w ++ 125 :: p = t ++ r -> False.
Proof.
  intros Ht Hw E. pose proof (members_head l t r Ht) as Hh. by rewrite <- E, skip_stop in Hh.
Qed.

(** One member against the front of other members. *)
Lemma member_step k kt w0 w1 w2 j u w3 c q r l' t' r' :
  value_unique j u -> value_text j u -> string_text k kt -> white w0 -> white w1 -> white w2 ->
  white w3 -> c = 44 \/ c = 125 -> members_text l' t' ->
  (w0 ++ 34 :: kt ++ w1 ++ 58 :: w2 ++ u ++ w3 ++ c :: q) ++ r = t' ++ r' ->
  exists l0 q', l' = (k, j) :: l0 /\ q ++ r = q' ++ r' /\
    (c = 125 /\ q' = [] /\ l0 = [] \/ c = 44 /\ members_text l0 q').
Proof.
  intros Hu Ht Hk Hw0 Hw1 Hw2 Hw3 Hc Hm E.
  apply members_case in Hm as (k' & kt' & w0' & w1' & w2' & j' & u' & w3' & c' & q' & l0 & -> & -> &
    Hw0' & Hk' & Hw1' & Hw2' & Ht' & Hw3' & Hl).
  repeat (rewrite <- app_assoc in E || cbn [app] in E).
  apply white_eq in E; [|done..]. injection E as E.
  destruct (string_text_unique k kt k' kt' _ _ Hk Hk' E) as [-> E2].
  apply white_eq in E2; [|done..]. injection E2 as E2.
  apply eq_sym in E2. assert (Hc' : c' = 44 \/ c' = 125) by tauto.
  destruct (value_step j u j' u' w2 w2' w3 w3' c c' (q ++ r) (q' ++ r')) as (-> & -> & E3); try done; try tauto.
  exists l0, q'. split; [done|]. split; [done|]. tauto.
Qed.

(** The second tree and its text, from the kind of the first. *)
Ltac same_value Ht :=
  match goal with
  | Ht' : value_text ?j' ?t', E : _ ++ _ = ?t' ++ _ |- _ =>
      pose proof (value_same_kind _ _ _ _ _ _ Ht Ht' E); destruct j'; try done;
      inversion Ht'; subst; try done; simplify_list_eq; try done
  end.

Lemma text_value_unique j t (Ht : value_text j t) : value_unique j t.
Proof.
  revert j t Ht. apply (value_gen_mut number_text string_text (fun j t _ => value_unique j t)
    (fun l t _ => elements_unique l t) (fun l t _ => members_unique l t)).
  4: intros t i Hn. 5: intros s t Hs. 6: intros w Hw. 7: intros l t Ht IH.
  8: intros w Hw. 9: intros l t Ht IH.
  10: intros w1 j t w2 Hw1 Ht IH Hw2. 11: intros w1 j t w2 l ts Hw1 Ht IH Hw2 Hts IHs.
  12: intros k kt w0 w1 w2 j t w3 Hw0 Hk Hw1 Hw2 Ht IH Hw3.
  13: intros k kt w0 w1 w2 j t w3 l ts Hw0 Hk Hw1 Hw2 Ht IH Hw3 Hts IHs.
  1-9: intros j' t' r r' Ht' E Hr Hr'.
  - same_value (vt_null : value_text _ _).
  - same_value (vt_true : value_text _ _).
  - same_value (vt_false : value_text _ _).
  - same_value (vt_num t i Hn : value_text _ _).
    destruct (number_text_unique t i t' i0 r r') as (-> & -> & ->); done.
  - same_value (vt_str s t Hs : value_text _ _). destruct (string_text_unique s t s0 t0 r r') as (-> & ->); done.
  - same_value (vt_arr0 w Hw : value_text _ _).
    + apply (white_eq w) in E; [by injection E|done..].
    + exfalso. by eapply (elements_not_end l t r').
  - same_value (vt_arr l t Ht : value_text _ _).
    + exfalso. by eapply (elements_not_end l t r).
    + match goal with Hl : elements_text ?l' ?u |- _ => by destruct (IH l' u r r' Hl E) as [-> ->] end.
  - same_value (vt_obj0 w Hw : value_text _ _).
    + apply (white_eq w) in E; [by injection E|done..].
    + exfalso. by eapply (members_not_end l t r').
  - same_value (vt_obj l t Ht : value_text _ _).
    + exfalso. by eapply (members_not_end l t r).
    + match goal with Hl : members_text ?l' ?u |- _ => by destruct (IH l' u r r' Hl E) as [-> ->] end.
  - intros l' t' r r' Hl' E.
    destruct (element_step j t w1 w2 93 [] r l' t' r') as (l0 & q' & -> & E' & Hc); auto.
    destruct Hc as [(_ & -> & ->)|[? _]]; [|done]. by cbn in E'; subst.
  - intros l' t' r r' Hl' E.
    destruct (element_step j t w1 w2 44 ts r l' t' r') as (l0 & q' & -> & E' & Hc); auto.
    destruct Hc as [[? _]|[_ Hl0]]; [done|]. by destruct (IHs l0 q' r r' Hl0 E') as [-> ->].
  - intros l' t' r r' Hl' E.
    destruct (member_step k kt w0 w1 w2 j t w3 125 [] r l' t' r') as (l0 & q' & -> & E' & Hc); auto.
    destruct Hc as [(_ & -> & ->)|[? _]]; [|done]. by cbn in E'; subst.
  - intros l' t' r r' Hl' E.
    destruct (member_step k kt w0 w1 w2 j t w3 44 ts r l' t' r') as (l0 & q' & -> & E' & Hc); auto.
    destruct Hc as [[? _]|[_ Hl0]]; [done|]. by destruct (IHs l0 q' r r' Hl0 E') as [-> ->].
Qed.

Lemma json_text_unique j j' s : json_text j s -> json_text j' s -> j' = j.
Proof.
  intros (w1 & t & w2 & -> & Hw1 & Ht & Hw2) (w1' & t' & w2' & E & Hw1' & Ht' & Hw2').
  apply white_eq in E; [|done|done|by apply value_text_skip with j|by apply value_text_skip with j'].
  apply (text_value_unique j t Ht j' t' _ _ Ht' E);
    [rewrite <- (app_nil_r w2)|rewrite <- (app_nil_r w2')]; by apply white_ends.
Qed.
