(* ===== verification/JsonEncode.v ===== *)
(** The encoder of [VM/src/ljsonlib.cpp]: the texts that it writes for numbers and
    strings are texts of the grammar, which the decoder reads back; what is left of a tree
    when the table that stands for it is written. *)
From stdpp Require Import gmap.
From S2P Require Import Prelude Word Double DoubleExact NumParse LuaApi Tm Arith Compare Key TableNode Table.
From S2P Require Import TableSpec TableResize TableRehash TableMap TableIter Sort TabLib TabMove BaseLib.
From S2P Require Import JsonLib JsonSpec JsonLex JsonStore JsonParse.
Open Scope Z_scope.
Open Scope outcome_scope.

(** * Strings *)

Definition bytes (s : list Z) : Prop := Forall (fun c => 0 <= c < 256) s.

Lemma escape_byte_control c :
  0 <= c < 32 -> exists d1 d2, hex_value (hex_digit (c / 16)) = Some d1 /\
    hex_value (hex_digit (c mod 16)) = Some d2 /\ d1 * 16 + d2 = c /\ 
    utf8_bytes (0 * 4096 + 0 * 256 + d1 * 16 + d2) = [c].
Proof.
  intros Hc. assert (Hin : c ∈ map Z.of_nat (seq 0 32)).
  { apply list_elem_of_fmap. exists (Z.to_nat c). rewrite elem_of_seq. lia. }
  cbn in Hin. repeat (apply elem_of_cons in Hin as [->|Hin]; [by eexists _, _|]).
  by apply elem_of_nil in Hin.
Qed.

(** One byte, before the rest of the string. *)
Lemma escape_byte_text c s t :
  0 <= c < 256 -> string_text s t -> string_text (c :: s) (escape_byte c ++ t).
Proof.
  intros Hc Ht. unfold escape_byte.
  assert (Hesc : forall e, (e, c) ∈ [(34, 34); (92, 92); (47, 47); (98, 8); (102, 12); (110, 10); (114, 13); (116, 9)] ->
    string_text (c :: s) ([92; e] ++ t)).
  { intros e He. apply (str_escape [e] [c]); [by constructor|done]. }
  repeat match goal with
  | |- context [c =? ?k] => destruct (Z.eqb_spec c k) as [->|];
      [apply Hesc; repeat (apply elem_of_cons; first [by left | right]); fail|]
  end.
  destruct (Z.ltb_spec c 32) as [Hlt|Hge].
  - destruct (escape_byte_control c ltac:(lia)) as (d1 & d2 & E1 & E2 & _ & Eu).
    apply (str_escape [117; 48; 48; hex_digit (c / 16); hex_digit (c mod 16)] [c]); [|done].
    rewrite <- Eu. by constructor.
  - by constructor.
Qed.

Lemma encode_string_text s : bytes s -> string_text s (flat_map escape_byte s ++ [34]).
Proof.
  induction 1 as [|c s Hc _ IH]; cbn [flat_map]; [constructor|].
  rewrite <- app_assoc. by apply escape_byte_text.
Qed.

Lemma encode_string_value s : bytes s -> value_text (JStr s) (encode_string s).
Proof. intros Hs. unfold encode_string. cbn [app]. by constructor; apply encode_string_text. Qed.

(** * Decimal integers *)

Lemma dec_digits_run n : digit_run (dec_digits n).
Proof. split; [apply dec_digits_nonempty|apply dec_digits_isdigit]. Qed.

Lemma dec_of_Z_text z : number_text (dec_of_Z z) true.
Proof.
  unfold dec_of_Z. destruct (z <? 0).
  - apply (num_int [45]); [by right|apply dec_digits_run].
  - apply (num_int []); [by left|apply dec_digits_run].
Qed.

(** The front of the digits: no sign, no white space, no [0x]. *)
Lemma digits_front ds : digit_run ds ->
  skip_spaces ds = ds /\ read_sign ds = (false, ds) /\ prefix_nocase [48; 120] ds = None.
Proof.
  intros [Hne Hd]. destruct Hd as [|c ds Hc Hd]; [done|]. clear Hne.
  assert (Hlow : forall c, isdigit c = true -> tolower c = c).
  { intros x Hx. apply isdigit_spec in Hx. unfold tolower.
    rewrite (proj2 (Z.leb_gt 65 x)) by lia. done. }
  split_and!.
  - cbn [skip_spaces]. apply isdigit_spec in Hc. unfold isspace.
    rewrite (proj2 (Z.eqb_neq c 32)), (proj2 (Z.leb_gt c 13)), andb_false_r by lia. done.
  - pose proof (digit_not c 43 Hc eq_refl). pose proof (digit_not c 45 Hc eq_refl).
    cbn. by repeat (destruct c as [|c|c]; try done).
  - cbn [prefix_nocase]. destruct (_ =? 48); [|done]. destruct Hd as [|d ds Hx _]; [done|].
    rewrite (Hlow d Hx), (proj2 (Z.eqb_neq d 120)); [done|]. by apply digit_not.
Qed.

Lemma read_digits_whole n : 0 <= n -> exists k, 0 < k /\ read_digits 10 0 0 (dec_digits n) = (n, k, []).
Proof.
  intros Hn. destruct (read_dec_digits n [] Hn) as (k & Hk & E); [unfold stops_digits; cbn; lia|].
  rewrite app_nil_r in E. by exists k.
Qed.

Lemma skip_spaces_minus ds : skip_spaces (45 :: ds) = 45 :: ds.
Proof. done. Qed.

(** The sign and the digits as [strtod] and [strtoll] see them. *)
Lemma read_sign_dec z : read_sign (skip_spaces (dec_of_Z z)) = (z <? 0, dec_digits (Z.abs z)).
Proof.
  unfold dec_of_Z. destruct (Z.ltb_spec z 0).
  - rewrite skip_spaces_minus. cbn. by rewrite Z.abs_neq by lia.
  - destruct (digits_front (dec_digits z) (dec_digits_run z)) as (-> & -> & _).
    by rewrite Z.abs_eq by lia.
Qed.

Lemma strtoll_dec z : in_s 64 z -> strtoll (dec_of_Z z) 10 = (z, [], false).
Proof.
  intros Hz. unfold strtoll, read_integer. rewrite read_sign_dec. cbn [Z.eqb Pos.eqb].
  destruct (read_digits_whole (Z.abs z) (Z.abs_nonneg z)) as (k & Hk & ->).
  rewrite (proj2 (Z.eqb_neq k 0)) by lia.
  replace (if z <? 0 then - Z.abs z else Z.abs z) with z by (destruct (Z.ltb_spec z 0); lia).
  unfold in_s in Hz. rewrite (proj2 (Z.ltb_ge z _)), (proj2 (Z.ltb_ge _ z)) by lia. done.
Qed.

Lemma scaled_integer z : z <> 0 -> scaled_to_double (z <? 0) (Z.abs z) 10 0 = double_of_Z z.
Proof.
  intros Hz. unfold scaled_to_double. destruct z as [|p|p]; [done| |]; cbn [Z.abs Z.leb Z.compare];
    rewrite Z.mul_1_r; done.
Qed.

Lemma strtod_dec z : z <> 0 -> strtod (dec_of_Z z) = (double_of_Z z, []).
Proof.
  intros Hz. unfold strtod. rewrite read_sign_dec.
  destruct (digits_front _ (dec_digits_run (Z.abs z))) as (_ & _ & ->).
  unfold read_decimal, read_mantissa.
  destruct (read_digits_whole (Z.abs z) (Z.abs_nonneg z)) as (k & Hk & ->).
  rewrite (proj2 (Z.eqb_neq k 0)) by lia. cbn [read_exponent]. by rewrite scaled_integer.
Qed.

(** * Numbers *)

Section Numbers.
Context `{VecSize, Target, PrintfG}.

(** The text of a number, as [encode_value] appends it. *)
Definition number_out (v : TValue) : outcome (list Z) :=
  match v with
  | LNumber n => encode_number n
  | LInteger l => Ret (dec_of_Z l)
  | _ => Undefined "not a number"
  end.

(** The number [v'] that the text of the number [v] denotes. *)
Definition reads_as (v v' : TValue) : Prop :=
  exists t i, number_out v = Ret t /\ number_text t i /\ v' = number_value t i.

(** A number whose text is the text of a number. *)
Definition writable (v : TValue) : Prop := exists v', reads_as v v'.

(** A number whose text denotes it. *)
Definition printable (v : TValue) : Prop := reads_as v v.

Lemma dec_digits_fuel_length fuel n acc : (length (dec_digits_fuel fuel n acc) <= fuel + length acc)%nat.
Proof.
  revert n acc. induction fuel as [|f IH]; intros n acc; cbn [dec_digits_fuel]; [lia|].
  destruct (n <? 10); cbn [length]; [lia|]. rewrite IH. cbn. lia.
Qed.

Lemma dec_of_Z_length z : Z.abs z < 2 ^ 53 -> (length (dec_of_Z z) <= 54)%nat.
Proof.
  intros Hz. assert (Hd : forall n, 0 <= n < 2 ^ 53 -> (length (dec_digits n) <= 53)%nat).
  { intros n Hn. unfold dec_digits. rewrite dec_digits_fuel_length. cbn [length].
    pose proof (Z.log2_nonneg n). destruct (Z.eq_dec n 0) as [->|]; [cbn; lia|].
    assert (Z.log2 n < 53) by (apply Z.log2_lt_pow2; lia). lia. }
  unfold dec_of_Z. destruct (Z.ltb_spec z 0); cbn [length]; [specialize (Hd (- z))|specialize (Hd z)]; lia.
Qed.

Lemma d_floor_integer z : Z.abs z < 2 ^ 53 -> d_floor (double_of_Z z) = double_of_Z z.
Proof.
  intros Hz. pose proof (is_integral_double_of_Z z Hz) as Hi.
  destruct (double_of_Z z) as [| | |s m e]; cbn in *; try done. by rewrite Hi.
Qed.

Lemma printf_0f_integer z : Z.abs z < 2 ^ 53 -> printf_0f (double_of_Z z) = dec_of_Z z.
Proof.
  intros Hb. destruct (decide (z = 0)) as [->|Hz]; [done|].
  destruct (double_of_Z_spec z Hz Hb) as (m & k & Hk & Hm & -> & _). cbn [printf_0f].
  rewrite Hm, shiftl_neg_exact by lia. unfold dec_of_Z. destruct (Z.ltb_spec z 0); cbn [app].
  - by rewrite Z.abs_neq by lia.
  - by rewrite Z.abs_eq by lia.
Qed.

Lemma double_of_Z_finite z : Z.abs z < 2 ^ 53 ->
  d_isnan (double_of_Z z) = false /\ d_isfinite (double_of_Z z) = true /\
  d_eq (double_of_Z z) (double_of_Z z) = true.
Proof.
  intros Hb. split_and!; [..|by rewrite d_eq_of_Z, Z.eqb_refl by done];
  (destruct (decide (z = 0)) as [->|Hz]; [done|];
    by destruct (double_of_Z_spec z Hz Hb) as (m & k & _ & _ & -> & _)).
Qed.

Lemma encode_number_integer z : Z.abs z < 2 ^ 53 -> encode_number (double_of_Z z) = Ret (dec_of_Z z).
Proof.
  intros Hb. unfold encode_number. destruct (double_of_Z_finite z Hb) as (-> & -> & He).
  cbn [orb negb]. rewrite d_floor_integer, He, printf_0f_integer by done. unfold snprintf.
  rewrite take_ge; [done|]. pose proof (dec_of_Z_length z Hb). lia.
Qed.

(** Every integer, as the number or the integer that the decoder makes of it. *)
Lemma number_value_dec z : in_s 64 z ->
  number_value (dec_of_Z z) true = if Z.abs z <? 2 ^ 53 then LNumber (double_of_Z z) else LInteger z.
Proof.
  intros Hz. unfold number_value. rewrite strtoll_dec by done. rewrite bool_decide_eq_true_2 by done.
  cbn [negb andb]. destruct (Z.ltb_spec (Z.abs z) (2 ^ 53)) as [Hlt|Hge].
  - rewrite (proj2 (Z.ltb_ge _ z)), (proj2 (Z.ltb_ge z _)) by lia. cbn [orb]. unfold lua_pushnumber.
    destruct (decide (z = 0)) as [->|Hn]; [done|]. by rewrite strtod_dec.
  - assert ((9007199254740991 <? z) || (z <? -9007199254740991) = true) as ->.
    { rewrite orb_true_iff, !Z.ltb_lt. lia. }
    unfold lua_pushinteger64. by rewrite cast_s_id.
Qed.

Lemma integers_printable z : Z.abs z < 2 ^ 53 -> printable (LNumber (double_of_Z z)).
Proof.
  intros Hb. exists (dec_of_Z z), true. split; [by apply encode_number_integer|].
  split; [apply dec_of_Z_text|]. symmetry. rewrite number_value_dec by (unfold in_s; lia).
  by rewrite (proj2 (Z.ltb_lt _ _)).
Qed.

Lemma big_integers_printable z : in_s 64 z -> 2 ^ 53 <= Z.abs z -> printable (LInteger z).
Proof.
  intros Hz Hb. exists (dec_of_Z z), true. split; [done|]. split; [apply dec_of_Z_text|]. symmetry.
  rewrite number_value_dec by done. by rewrite (proj2 (Z.ltb_ge _ _)).
Qed.

Lemma minus_zero_printable : printable (LNumber (S754_zero true)).
Proof. exists [45; 48], true. split; [done|]. split; [|done]. apply (num_int [45] [48]); [by right|]. by split; [|repeat constructor]. Qed.

(** An integral number is written in digits, cut off behind the 63rd byte. *)
Lemma integral_writable d : d_isfinite d = true -> d_eq d (d_floor d) = true -> writable (LNumber d).
Proof.
  intros Hf Hi. unfold writable, reads_as. cbn [number_out]. unfold encode_number.
  assert (d_isnan d = false) as -> by by destruct d. rewrite Hf, Hi. cbn [orb negb].
  assert (Ht : number_text (snprintf 64 (printf_0f d)) true); [|by eexists _, _, true].
  assert (Hrun : forall n ds, digit_run ds -> (0 < n)%nat -> digit_run (take n ds)).
  { intros n ds [Hne Hd] Hn. split; [destruct n; [lia|by destruct ds]|]. by apply Forall_take. }
  assert (Hsign : forall s ds, digit_run ds -> number_text (snprintf 64 ((if s : bool then [45] else []) ++ ds)) true).
  { intros s ds Hds. unfold snprintf. change (Z.to_nat (64 - 1)) with (S 62). destruct s; cbn [app take].
    - apply (num_int [45]); [by right|]. apply Hrun; [done|lia].
    - apply (num_int []); [by left|]. apply (Hrun (S 62)); [done|lia]. }
  destruct d as [s| | |s m e]; try done; cbn [printf_0f]; apply Hsign; [|apply dec_digits_run].
  by split; [|repeat constructor].
Qed.

(** Every finite number is written, if [%.14g] writes JSON numbers of at most 63 bytes. *)
Lemma finite_writable d : d_isfinite d = true ->
  (exists i, number_text (snprintf 64 (printf_14g d)) i) -> writable (LNumber d).
Proof.
  intros Hf (i & Hi). destruct (d_eq d (d_floor d)) eqn:E; [by apply integral_writable|].
  unfold writable, reads_as. cbn [number_out]. unfold encode_number. rewrite Hf, E.
  assert (d_isnan d = false) as -> by by destruct d. by eexists _, _, i.
Qed.

Lemma integers_writable z : writable (LInteger z).
Proof. unfold writable, reads_as. eexists _, _, true. split; [done|]. split; [apply dec_of_Z_text|done]. Qed.
End Numbers.

(** * What the encoder changes *)

Section Touched.
Context `{VecSize, Target}.

(** The length operator caches a boundary, and nothing else changes. *)
Definition touched (t t' : LuaTable) : Prop := wf_table t' /\ exists lf, t' = set_lastfree lf t.

Lemma touched_refl t : wf_table t -> touched t t.
Proof. intros Hwf. split; [done|]. exists (lastfree t). by rewrite set_lastfree_id. Qed.

Lemma touched_trans t1 t2 t3 : touched t1 t2 -> touched t2 t3 -> touched t1 t3.
Proof. intros (_ & lf & ->) (Hwf & lf' & ->). split; [done|]. by exists lf'. Qed.

Lemma touched_wf t t' : touched t t' -> wf_table t'.
Proof. by intros []. Qed.

Lemma touched_entries t t' : touched t t' -> entries t' = entries t.
Proof. by intros (_ & lf & ->). Qed.

Lemma touched_flags t t' : touched t t' -> flags t' = flags t.
Proof. by intros (_ & lf & ->). Qed.

Lemma touched_implements t t' m : implements t m -> touched t t' -> implements t' m.
Proof.
  intros [Hwf Hm] Ht. split; [by eapply touched_wf|]. intros k Hv. rewrite <- Hm by done.
  apply get_entries; try done; [by eapply touched_wf|by apply touched_entries].
Qed.

Lemma touched_plain t t' m : plain_table t m -> touched t t' -> plain_table t' m.
Proof.
  intros Hp Ht. apply (plain_flags t t' m); [done|by apply touched_flags|].
  apply (touched_implements t); [apply Hp|done].
Qed.

Definition stable (σ σ' : tables) : Prop := forall a,
  match σ !! a with Some t => exists t', σ' !! a = Some t' /\ (t' = t \/ touched t t') | None => σ' !! a = None end.

Lemma stable_refl σ : stable σ σ.
Proof. intros a. destruct (σ !! a) as [t|]; [|done]. exists t. auto. Qed.

Lemma stable_trans σ1 σ2 σ3 : stable σ1 σ2 -> stable σ2 σ3 -> stable σ1 σ3.
Proof.
  intros H1 H2 a. specialize (H1 a). specialize (H2 a). destruct (σ1 !! a) as [t1|].
  - destruct H1 as (t2 & E2 & Ht2). rewrite E2 in H2. destruct H2 as (t3 & E3 & Ht3).
    exists t3. split; [done|]. destruct Ht2 as [->|Ht2]; [done|].
    destruct Ht3 as [->|Ht3]; [by right|right]. by apply touched_trans with t2.
  - by rewrite H1 in H2.
Qed.

Lemma stable_insert σ a t t' : σ !! a = Some t -> touched t t' -> stable σ (<[a := t']> σ).
Proof.
  intros Ea Ht b. destruct (decide (b = a)) as [->|Hne].
  - rewrite Ea, lookup_insert_eq. exists t'. auto.
  - rewrite lookup_insert_ne by done. destruct (σ !! b) as [tb|]; [|done]. exists tb. auto.
Qed.

(** The store has the tables of [δ], but for their cached boundaries. *)
Definition covers (δ σ : tables) : Prop :=
  forall a t, δ !! a = Some t -> wf_table t /\ exists t', σ !! a = Some t' /\ touched t t'.

Lemma covers_stable δ σ σ' : covers δ σ -> stable σ σ' -> covers δ σ'.
Proof.
  intros Hc Hs a t Ea. destruct (Hc a t Ea) as (Hwf & t1 & E1 & Ht1). split; [done|].
  specialize (Hs a). rewrite E1 in Hs. destruct Hs as (t2 & E2 & Ht2). exists t2. split; [done|].
  destruct Ht2 as [->|Ht2]; [done|]. by apply touched_trans with t1.
Qed.

Lemma covers_weaken δ δ' σ : covers δ σ -> δ' ⊆ δ -> covers δ' σ.
Proof. intros Hc Hs a t Ea. apply Hc. by eapply lookup_weaken. Qed.

Lemma lua_objlen_touched σ a t :
  σ !! a = Some t -> wf_table t ->
  exists t' n, lua_objlen σ a = Ret (n, <[a := t']> σ) /\ border t n /\ touched t t'.
Proof.
  intros Ea Hwf. destruct (getn_wf t Hwf) as (lf & n & Hg & Hb & Hwf').
  exists (set_lastfree lf t), n. split; [|split; [done|]; split; [done|by exists lf]].
  unfold lua_objlen, table_at. rewrite Ea. cbn [outcome_bind]. by rewrite Hg.
Qed.

(** * Trees that the encoder can write *)

Context {printf : PrintfG}.

(** Of several members with one name the last, unless it is [none]. *)
Fixpoint live_members {A} (none : A -> bool) (l : list (list Z * A)) : list (list Z * A) :=
  match l with
  | [] => []
  | (k, x) :: l =>
      (if none x || bool_decide (k ∈ l.*1) then [] else [(k, x)]) ++ live_members none l
  end.

Definition is_null (j : json) : bool := match j with JNull => true | _ => false end.

(** An array may end in nulls, but has none in front of another element. *)
Inductive encodable : json -> Prop :=
  | enc_null : encodable JNull
  | enc_bool b : encodable (JBool b)
  | enc_num v : writable v -> encodable (JNum v)
  | enc_str s : bytes s -> encodable (JStr s)
  | enc_arr l n : Z.of_nat (length l) < 2 ^ 30 ->
      Forall (fun j => j <> JNull /\ encodable j) l -> encodable (JArr (l ++ replicate n JNull))
  | enc_obj l : Forall (fun kv => bytes kv.1 /\ encodable kv.2) (live_members is_null l) ->
      encodable (JObj l).

(** What is left of the tree [j] in its text: a number is what its text denotes, nulls at the
    end of an array are left out, an array without elements is an object, of the members with
    one name the last is left, none if it is null, and the members are in some order. *)
Inductive encoded : json -> json -> Prop :=
  | ec_null : encoded JNull JNull
  | ec_bool b : encoded (JBool b) (JBool b)
  | ec_num v v' : reads_as v v' -> encoded (JNum v) (JNum v')
  | ec_str s : encoded (JStr s) (JStr s)
  | ec_arr l l' n : l <> [] -> Forall2 encoded l l' -> encoded (JArr (l ++ replicate n JNull)) (JArr l')
  | ec_empty n : encoded (JArr (replicate n JNull)) (JObj [])
  | ec_obj l m l' : live_members is_null l ≡ₚ m ->
      Forall2 (fun a b => a.1 = b.1 /\ encoded a.2 b.2) m l' -> encoded (JObj l) (JObj l').

Lemma live_members_in {A} (none : A -> bool) l k x :
  (k, x) ∈ live_members none l -> (k, x) ∈ l /\ none x = false.
Proof.
  induction l as [|[k' x'] l IH]; cbn [live_members]; [by intros ?%elem_of_nil|].
  intros [Hin|Hin]%elem_of_app; [|destruct (IH Hin); split; [by right|done]].
  destruct (none x') eqn:En; cbn [orb] in Hin; [by apply elem_of_nil in Hin|].
  case_bool_decide; [by apply elem_of_nil in Hin|]. apply list_elem_of_singleton in Hin as [= -> ->].
  split; [by left|done].
Qed.

Lemma live_members_NoDup {A} (none : A -> bool) l : NoDup (live_members none l).*1.
Proof.
  induction l as [|[k x] l IH]; cbn [live_members]; [constructor|].
  destruct (none x); cbn [orb app]; [done|]. case_bool_decide as Hk; [done|]. cbn. constructor; [|done].
  intros Hin. apply Hk. apply list_elem_of_fmap in Hin as ([k' y] & -> & Hin).
  apply live_members_in in Hin as [Hin _]. apply list_elem_of_fmap. by exists (k', y).
Qed.

(** A translation of the members that keeps which are [none]. *)
Lemma live_members_map {A B} (none : A -> bool) (none' : B -> bool) (f : A -> B) l :
  Forall (fun kx => none' (f kx.2) = none kx.2) l ->
  live_members none' (prod_map id f <$> l) = prod_map id f <$> live_members none l.
Proof.
  induction 1 as [|[k x] l Hx _ IH]; [done|]. cbn [fmap list_fmap prod_map live_members fst snd] in *.
  change (list_fmap _ _ ?g ?m) with (g <$> m) in *. rewrite Hx, IH. unfold id at 1.
  assert ((prod_map id f <$> l).*1 = l.*1) as ->.
  { rewrite <- list_fmap_compose. apply list_fmap_ext. by intros ? []. }
  by destruct (none x || _).
Qed.

(** The value stands for the tree with tables of [δ]. *)
Definition item (δ : tables) (v : TValue) (j : json) : Prop := exists δ1, represents δ1 v j /\ δ1 ⊆ δ.

Lemma represents_items δ vs l : represents_list δ vs l -> Forall2 (item δ) vs l.
Proof.
  induction 1 as [|δ1 δ2 v vs j l Hv _ IH Hd]; [constructor|]. constructor.
  - exists δ1. split; [done|]. by apply map_union_subseteq_l.
  - eapply Forall2_impl; [exact IH|]. intros v' j' (δ' & Hr & Hs). exists δ'. split; [done|].
    etrans; [exact Hs|]. by apply map_union_subseteq_r.
Qed.

Lemma represents_nil δ v j : represents δ v j -> v = LNil -> j = JNull.
Proof. by intros [] ?. Qed.

(** ** The content of the table of an object *)

Lemma obj_map_other kvs k :
  key_norm k ∉ map (fun kv : list Z * TValue => key_norm (LString kv.1)) kvs -> obj_map kvs k = LNil.
Proof.
  intros Hk. destruct (decide (obj_map kvs k = LNil)) as [|Hne]; [done|]. by apply obj_map_support in Hne.
Qed.

Lemma obj_map_lookup kvs s v : NoDup (map fst kvs) -> (s, v) ∈ kvs -> obj_map kvs (LString s) = v.
Proof.
  induction kvs as [|[s' v'] kvs IH] using rev_ind; intros Hnd Hin; [by apply elem_of_nil in Hin|].
  rewrite map_app in Hnd. apply NoDup_app in Hnd as (Hnd & Hdis & _).
  rewrite obj_map_snoc. unfold map_set. apply elem_of_app in Hin as [Hin|Hin].
  - rewrite decide_False; [by apply IH|]. cbn. intros [= ->]. apply (Hdis s').
    + apply list_elem_of_fmap. by exists (s', v).
    + by apply list_elem_of_singleton.
  - apply list_elem_of_singleton in Hin as [= -> ->]. by rewrite decide_True.
Qed.

Definition obj_step (m : fmap_t) (kv : list Z * TValue) : fmap_t := map_set m (LString kv.1) kv.2.

Lemma fold_live_members kvs : forall (m m' : fmap_t) k,
  m' k = (if decide (key_norm k ∈ LString <$> kvs.*1) then LNil else m k) ->
  fold_left obj_step (live_members ttisnil kvs) m' k = fold_left obj_step kvs m k.
Proof.
  induction kvs as [|[s v] kvs IH]; intros m m' k Hm; [exact Hm|]. cbn [live_members fold_left].
  cbn [fmap list_fmap fst snd] in Hm. rewrite fold_left_app. apply IH.
  assert (Hs : s ∈ kvs.*1 <-> LString s ∈ LString <$> kvs.*1).
  { split; [intros; apply list_elem_of_fmap; by exists s|]. by intros (s' & [= ->] & Hin)%list_elem_of_fmap. }
  destruct (decide (key_norm k = LString s)) as [E|Hne].
  - rewrite E in *. rewrite decide_True in Hm by left.
    unfold obj_step at 2, map_set. cbn [fst snd key_norm]. rewrite E, (decide_True _ _ (eq_refl (LString s))).
    case_decide as Hin.
    + apply Hs in Hin. rewrite bool_decide_eq_true_2, orb_true_r by done. exact Hm.
    + rewrite bool_decide_eq_false_2, orb_false_r by by rewrite Hs. destruct (ttisnil v) eqn:Ev; cbn [fold_left].
      * rewrite Hm. by destruct v.
      * unfold obj_step, map_set. cbn [fst snd key_norm]. by rewrite E, decide_True.
  - assert (m' k = if decide (key_norm k ∈ LString <$> kvs.*1) then LNil else m k) as Hm'.
    { rewrite Hm. apply decide_ext. change (list_fmap _ _ ?g ?l) with (g <$> l). rewrite elem_of_cons. naive_solver. }
    assert (Hset : forall m0 : fmap_t, obj_step m0 (s, v) k = m0 k).
    { intros m0. unfold obj_step, map_set. cbn [fst snd key_norm]. by rewrite decide_False. }
    rewrite Hset, <- Hm'. destruct (ttisnil v || _); [done|]. apply Hset.
Qed.

(** A member that is overwritten, or [nil], changes nothing. *)
Lemma obj_map_live kvs k : obj_map (live_members ttisnil kvs) k = obj_map kvs k.
Proof. apply (fold_live_members kvs). by case_decide. Qed.

Definition pair_entry (kv : list Z * TValue) : TValue * TValue := (LString kv.1, kv.2).

(** The entries of the table are the members, in some order. *)
Lemma obj_entries t kvs :
  implements t (obj_map kvs) -> NoDup (map fst kvs) -> Forall (fun kv => kv.2 <> LNil) kvs ->
  entries t ≡ₚ map pair_entry kvs.
Proof.
  intros [Hwf Hm] Hnd Hnn. rewrite Forall_forall in Hnn. apply NoDup_Permutation.
  - apply (NoDup_fmap_1 (fun kv : TValue * TValue => key_norm kv.1)). by apply entries_NoDup.
  - apply (NoDup_fmap_1 fst). rewrite map_map. cbn. rewrite <- (map_map fst LString).
    assert (Inj (=) (=) LString) by by intros ? ? [= ->]. by apply (NoDup_fmap_2 LString).
  - intros [k v]. split.
    + intros (Hv & Hnv & Hg)%entry_get; [|done]. rewrite Hm in Hg by done.
      assert (Hs : obj_map kvs k <> LNil) by by rewrite Hg.
      apply obj_map_support, list_elem_of_fmap in Hs as ([s v'] & Ek & Hin).
      assert (k = LString s) as -> by by destruct k.
      rewrite (obj_map_lookup kvs s v') in Hg by done. subst v'.
      apply list_elem_of_fmap. by exists (s, v).
    + intros ([s v'] & [= -> ->] & Hin)%list_elem_of_fmap.
      assert (Hg : get t (LString s) = v') by by rewrite Hm, (obj_map_lookup kvs s v').
      destruct (get_entry t (LString s)) as (k' & Ek & Hk'); [done|done| |].
      { rewrite Hg. by apply (Hnn (s, v')). }
      assert (k' = LString s) as -> by by destruct k'. by rewrite Hg in Hk'.
Qed.
End Touched.
