(* ===== verification/JsonWrite.v ===== *)
(** The loops of the encoder of [VM/src/ljsonlib.cpp] over the elements and the members
    of a table. *)
From stdpp Require Import gmap.
From S2P Require Import Prelude Word Double DoubleExact NumParse LuaApi Tm Arith Compare Key TableNode Table.
From S2P Require Import TableSpec TableResize TableRehash TableMap TableIter Sort TabLib TabMove BaseLib.
From S2P Require Import JsonLib JsonSpec JsonLex JsonStore JsonParse JsonComplete JsonEncode.
Open Scope Z_scope.
Open Scope outcome_scope.

Lemma indent_line_white indent cur : white (indent_line indent cur).
Proof.
  unfold indent_line. destruct (0 <? indent); [|constructor]. constructor; [done|].
  apply Forall_replicate. done.
Qed.

Lemma index_number `{Target} k i : index_of k = Some i -> exists d, k = LNumber d.
Proof. destruct k; try done. by eexists. Qed.

Section Write.
Context `{VecSize, Target, NumFormat, PrintfG}.
Variable str_addr : list Z -> Z.
Variable index_tm : tables -> Z -> list Z -> outcome (TValue * tables).
Variable tolstring : tables -> TValue -> outcome (list Z * tables).
Variable json_null_marker nargs indent : Z.
Variable limit : Prop.

(** The encoder appends a text with [P]; the only error is that of the stack. *)
Definition enc_ok (σ : tables) (P : list Z -> Prop) (r : outcome (list Z * tables)) : Prop :=
  match r with
  | Ret (s, σ') => P s /\ stable σ σ'
  | Throw e => limit /\ e = RunError "stack overflow"
  | Undefined _ => False
  end.

Lemma enc_ok_bind σ (P Q : list Z -> Prop) o (k : list Z * tables -> outcome (list Z * tables)) :
  enc_ok σ P o -> (forall s σ1, P s -> stable σ σ1 -> enc_ok σ1 Q (k (s, σ1))) ->
  enc_ok σ Q (outcome_bind o k).
Proof.
  destruct o as [[s σ1]|e|]; cbn [enc_ok outcome_bind]; [|done|done].
  intros [Hs Hst] Hk. specialize (Hk s σ1 Hs Hst). destruct (k (s, σ1)) as [[s2 σ2]|e|]; [|done|done].
  destruct Hk as [HQ Hst2]. split; [done|]. by apply stable_trans with σ1.
Qed.

Lemma enc_ok_mono σ (P Q : list Z -> Prop) o : enc_ok σ P o -> (forall s, P s -> Q s) -> enc_ok σ Q o.
Proof. destruct o as [[s σ1]|e|]; cbn [enc_ok]; naive_solver. Qed.

Lemma push_enc {A} (Q : outcome A -> Prop) h n (k : Z -> outcome A) :
  (limit -> Q (Throw (RunError "stack overflow"))) ->
  room limit h n -> (0 < n)%nat -> Q (k (h + 1)) -> Q (h' <- push nargs h ;; k h').
Proof.
  intros HT Hr Hn Hk. pose proof (push_spec nargs h) as Hp. destruct (push nargs h) as [h'|e|]; [|cbn|done].
  - by rewrite Hp.
  - destruct Hp as [Hp ->]. destruct Hr as [Hl|Hr]; [by apply HT|lia].
Qed.

Lemma push_enc_ok σ P h n (k : Z -> outcome (list Z * tables)) :
  room limit h n -> (0 < n)%nat -> enc_ok σ P (k (h + 1)) -> enc_ok σ P (h' <- push nargs h ;; k h').
Proof. apply (push_enc (enc_ok σ P)). by intros Hl. Qed.

(** The text of a tree, up to the order of the members. *)
Definition written (j : json) (s : list Z) : Prop := exists j', encoded j j' /\ value_text j' s.

(** * The loops of one table *)

Section Loops.
Variable enc : Z -> Z -> TValue -> tables -> outcome (list Z * tables).
Variables (δ : tables) (a cur : Z) (t0 : LuaTable).
Hypothesis Henc : forall v j h σ, item δ v j -> encodable j -> j <> JNull -> covers δ σ ->
  room limit h (2 * size δ) -> enc_ok σ (written j) (enc h cur v σ).
Hypothesis Ha : δ !! a = None.

Lemma covers_nested σ : covers (<[a := t0]> δ) σ -> covers δ σ.
Proof. intros Hc. apply covers_weaken with (1 := Hc). by apply insert_subseteq. Qed.

Lemma covers_table σ : covers (<[a := t0]> δ) σ -> exists t, table_at σ a = Ret t /\ touched t0 t.
Proof.
  intros Hc. destruct (Hc a t0) as (_ & t & E & Ht); [apply lookup_insert_eq|]. exists t.
  unfold table_at. by rewrite E.
Qed.

(** The elements from [i] on. *)
Definition elements_written (i : Z) (l : list json) (x : list Z) : Prop :=
  exists l', Forall2 encoded l l' /\
    match l with
    | [] => x = []
    | _ => exists y, x = (if 1 <? i then [44] else []) ++ y /\ y <> [] /\
        forall w, white w -> elements_text l' (y ++ w ++ [93])
    end.

Lemma value_text_nonempty j s : value_text j s -> s <> [].
Proof. by intros (c & r & -> & _)%value_text_head. Qed.

Lemma array_loop_ok VS h n i vs l σ :
  plain_table t0 (arr_map VS) -> Z.of_nat (length VS) < 2 ^ 30 -> covers (<[a := t0]> δ) σ ->
  1 <= i -> drop (Z.to_nat (i - 1)) VS = vs -> n = length vs -> Forall2 (item δ) vs l ->
  Forall (fun j => j <> JNull /\ encodable j) l -> room limit h (S (2 * size δ)) ->
  enc_ok σ (elements_written i l) (array_loop nargs indent enc n h cur a i σ).
Proof.
  intros Hp HVS. revert i vs l σ. induction n as [|n IH]; intros i vs l σ Hc Hi Hd Hn Hit Hl Hr.
  { destruct vs; [|done]. inversion Hit; subst. split; [by exists []|apply stable_refl]. }
  destruct vs as [|v vs]; [done|]. inversion Hit as [|? j ? l0 Hv Hvs]; subst. cbn [array_loop].
  inversion Hl as [|? ? [Hjn Hj] Hl0]; subst.
  destruct (covers_table σ Hc) as (t & Et & Ht). unfold lua_rawgeti. rewrite Et. cbn [outcome_bind].
  assert (Hvi : VS !! Z.to_nat (i - 1) = Some v)
    by (rewrite <- (Nat.add_0_r (Z.to_nat (i - 1))), <- lookup_drop, Hd; done).
  pose proof (lookup_lt_Some _ _ _ Hvi) as Hlt.
  assert (rawgeti t i = v) as ->.
  { rewrite (rawgeti_spec t (arr_map VS) i); [|by eapply touched_implements; [apply Hp|]|unfold in_s; lia].
    unfold arr_map. rewrite index_of_akey by (unfold in_s; lia). rewrite (proj2 (Z.leb_le _ _)) by done.
    by rewrite Hvi. }
  apply (push_enc_ok _ _ _ _ _ Hr); [lia|]. eapply enc_ok_bind.
  { apply (Henc v j); [done..|by apply covers_nested|apply (room_weaken _ _ _ _ _ Hr); lia]. }
  intros out σ1 (j' & Hjj & Hout) Hst. cbv beta iota. eapply enc_ok_bind.
  { apply (IH (i + 1) vs l0); [by eapply covers_stable|lia| |by injection Hn|done|done|done].
    replace (Z.to_nat (i + 1 - 1)) with (Z.to_nat (i - 1) + 1)%nat by lia.
    by rewrite <- drop_drop, Hd. }
  intros rest σ2 (l' & Hl' & Hrest) _. split; [|apply stable_refl]. exists (j' :: l').
  split; [by constructor|]. eexists. split; [done|].
  pose proof (indent_line_white indent cur) as Hw. pose proof (value_text_nonempty j' out Hout) as Hne.
  split; [by destruct (indent_line indent cur), out|].
  intros w Hww. destruct l0 as [|j0 l0].
  - rewrite Hrest. inversion Hl'; subst. rewrite app_nil_r, <- app_assoc. by constructor.
  - destruct Hrest as (y & -> & _ & Hy). rewrite (proj2 (Z.ltb_lt 1 (i + 1))) by lia.
    replace ((indent_line indent cur ++ out ++ [44] ++ y) ++ w ++ [93])
      with (indent_line indent cur ++ out ++ [] ++ 44 :: (y ++ w ++ [93])) by by simplify_list_eq.
    constructor; auto using white_nil.
Qed.

(** ** Members *)

(** A member: its key, its value and the tree that the value stands for. *)
Abbreviation row := (list Z * TValue * json)%type.

Definition row_entry (r : row) : TValue * TValue := (LString r.1.1, r.1.2).

Definition row_ok (r : row) : Prop :=
  bytes r.1.1 /\ item δ r.1.2 r.2 /\ r.2 <> JNull /\ encodable r.2.

Definition members_written (first : bool) (rows : list row) (x : list Z) : Prop :=
  exists l', Forall2 (fun r kv => r.1.1 = kv.1 /\ encoded r.2 kv.2) rows l' /\
    match rows with
    | [] => x = []
    | _ => exists y, x = (if first then [] else [44]) ++ y /\ y <> [] /\
        forall w, white w -> members_text l' (y ++ w ++ [125])
    end.

Lemma next_touched t k p :
  touched t0 t -> findindex str_addr t k = Ret (Z.of_nat p - 1) ->
  luaH_next str_addr t k = Ret (pair_of (scan t0 p)).
Proof. intros (Hwf & lf & ->) Hf. by rewrite (next_scan str_addr _ k p Hwf Hf). Qed.

(** The position behind an entry, in the table and in the touched ones. *)
Lemma position_touched s k :
  wf_table t0 -> live_apart str_addr t0 -> slot_key t0 s k ->
  forall t, touched t0 t -> findindex str_addr t k = Ret (Z.of_nat (S (pos t0 s)) - 1).
Proof.
  intros Hwf Hd Hs t (Hwf' & lf & ->).
  rewrite (findindex_slot str_addr _ k s k Hwf' (slot_key_valid _ _ _ Hwf Hs) (Hd s k Hs) Hs eq_refl).
  f_equal. destruct s; cbn [pos]; cbn; lia.
Qed.

Lemma object_loop_ok fuel : forall h k p rows first σ,
  wf_table t0 -> live_apart str_addr t0 -> covers (<[a := t0]> δ) σ ->
  (length rows < fuel)%nat ->
  (forall t, touched t0 t -> findindex str_addr t k = Ret (Z.of_nat p - 1)) ->
  entries_from t0 p = map row_entry rows -> Forall row_ok rows -> room limit h (S (2 * size δ)) ->
  enc_ok σ (members_written first rows)
    (object_loop str_addr tolstring nargs indent enc fuel h cur a k first σ).
Proof.
  induction fuel as [|f IH]; intros h k p rows first σ Hwf Hd Hc Hf Hk He Hrows Hr; [lia|].
  cbn [object_loop]. destruct (covers_table σ Hc) as (t & -> & Ht). cbn [outcome_bind].
  rewrite (next_touched t k p Ht (Hk t Ht)). cbn [outcome_bind].
  pose proof (scan_spec t0 p Hwf) as Hs. destruct (scan t0 p) as [[[s k'] v']|]; cbn [pair_of].
  2:{ cbn in Hs. rewrite Hs in He. destruct rows; [|done]. split; [by exists []|apply stable_refl]. }
  destruct Hs as (Hs & _ & Hs2). rewrite Hs2 in He. destruct rows as [|[[ks v] j] rows]; [done|].
  injection He as -> -> He. inversion Hrows as [|? ? (Hb & Hit & Hjn & Hj) Hrows']; subst. cbn [fst snd] in *.
  apply (push_enc_ok _ _ _ _ _ Hr); [lia|]. cbn [outcome_bind]. eapply enc_ok_bind.
  { apply (Henc v j); [done..|by apply covers_nested|apply (room_weaken _ _ _ _ _ Hr); lia]. }
  intros out σ1 (j' & Hjj & Hout) Hst. cbv beta iota. eapply enc_ok_bind.
  { apply (IH h (LString ks) (S (pos t0 s)) rows false); try done; [by eapply covers_stable|cbn in Hf; lia|].
    by apply position_touched. }
  intros rest σ2 (l' & Hl' & Hrest) _. split; [|apply stable_refl]. exists ((ks, j') :: l').
  split; [by constructor|]. eexists. split; [done|].
  pose proof (indent_line_white indent cur) as Hw.
  split; [by destruct (indent_line indent cur)|]. intros w Hww.
  set (sp := if 0 <? indent then [32] else []).
  assert (Hsp : white sp) by (unfold sp; destruct (0 <? indent); repeat constructor).
  unfold encode_string. destruct rows as [|row rows].
  - rewrite Hrest. inversion Hl'; subst.
    replace (_ ++ w ++ [125]) with (indent_line indent cur ++ 34 :: (flat_map escape_byte ks ++ [34]) ++ [] ++
      58 :: sp ++ out ++ w ++ [125]) by by simplify_list_eq.
    constructor; auto using white_nil, encode_string_text.
  - destruct Hrest as (y & -> & _ & Hy).
    replace (_ ++ w ++ [125]) with (indent_line indent cur ++ 34 :: (flat_map escape_byte ks ++ [34]) ++ [] ++
      58 :: sp ++ out ++ [] ++ 44 :: (y ++ w ++ [125])) by by simplify_list_eq.
    constructor; auto using white_nil, encode_string_text.
Qed.

(** ** Arrays and objects *)

Definition key_within (len : Z) (k : TValue) : Prop :=
  exists i, index_of k = Some i /\ 1 <= i <= len.

Lemma keys_loop_ok fuel : forall len k p,
  wf_table t0 -> live_apart str_addr t0 -> (length (entries_from t0 p) < fuel)%nat ->
  (forall t, touched t0 t -> findindex str_addr t k = Ret (Z.of_nat p - 1)) ->
  Forall (fun e => key_within len e.1) (entries_from t0 p) -> len < 2 ^ 30 ->
  forall t, touched t0 t -> keys_loop str_addr fuel t k len = Ret true.
Proof.
  induction fuel as [|f IH]; intros len k p Hwf Hd Hf Hk He Hlen t Ht; [lia|]. cbn [keys_loop].
  rewrite (next_touched t k p Ht (Hk t Ht)). cbn [outcome_bind].
  pose proof (scan_spec t0 p Hwf) as Hs. destruct (scan t0 p) as [[[s k'] v']|]; cbn [pair_of]; [|done].
  destruct Hs as (Hs & _ & Hs2). rewrite Hs2 in *. cbn [length] in Hf.
  inversion He as [|? ? (i & Hi & Hr) He']; subst. cbn [fst] in *.
  destruct (index_number _ _ Hi) as (d & ->). cbn in Hi.
  destruct (d_eq (double_of_Z (luai_num2int d)) d) eqn:Ed; [|done]. injection Hi as Hi. rewrite Hi in Ed.
  rewrite d_eq_index in Ed by lia. apply bool_decide_eq_true in Ed as ->.
  rewrite d_le_of_Z, d_lt_of_Z, d_floor_integer, d_eq_of_Z by lia.
  rewrite (proj2 (Z.leb_gt i 0)), (proj2 (Z.ltb_ge len i)), Z.eqb_refl by lia. cbn [orb negb].
  apply (IH len (LNumber (double_of_Z i)) (S (pos t0 s))); try done; [lia|].
  by apply position_touched.
Qed.

Definition array_test (σ : tables) (b : bool) (r : outcome (bool * tables)) : Prop :=
  match r with
  | Ret (b', σ') => b' = b /\ stable σ σ'
  | Throw e => limit /\ e = RunError "stack overflow"
  | Undefined _ => False
  end.

Lemma array_test_bind σ b P o (k : bool * tables -> outcome (list Z * tables)) :
  array_test σ b o -> (forall σ1, stable σ σ1 -> enc_ok σ1 P (k (b, σ1))) -> enc_ok σ P (outcome_bind o k).
Proof.
  destruct o as [[b' σ1]|e|]; cbn [array_test outcome_bind]; [|done|done]. intros [-> Hst] Hk.
  specialize (Hk σ1 Hst). destruct (k (b, σ1)) as [[s σ2]|e|]; [|done|done].
  destruct Hk as [Hs Hst2]. split; [done|]. by apply stable_trans with σ1.
Qed.

Lemma covers_objlen m σ :
  plain_table t0 m -> covers (<[a := t0]> δ) σ ->
  exists t t' n, table_at σ a = Ret t /\ touched t0 t /\ metatable t = None /\
    lua_objlen σ a = Ret (n, <[a := t']> σ) /\ border t n /\ touched t0 t' /\ 
    stable σ (<[a := t']> σ) /\ table_at (<[a := t']> σ) a = Ret t'.
Proof.
  intros Hp Hc. destruct (Hc a t0) as (_ & t & E & Ht); [apply lookup_insert_eq|].
  destruct (lua_objlen_touched σ a t E (touched_wf _ _ Ht)) as (t' & n & En & Hb & Ht').
  exists t, t', n. unfold table_at. rewrite E, lookup_insert_eq. split_and!; try done.
  - by apply (touched_plain t0 t m Hp).
  - by apply touched_trans with t.
  - by apply stable_insert with t.
Qed.

Lemma border_range t n : wf_table t -> border t n -> 0 <= n < 2 ^ 30.
Proof.
  intros Hwf (Hn & _). pose proof (wt_asize _ Hwf) as Hm. rewrite MAXSIZE_eq in Hm. lia.
Qed.

(** The boundary of the table of an array is its length, that of an object is 0. *)
Lemma border_array t n vs :
  implements t (arr_map vs) -> Forall (fun v => v <> LNil) vs -> Z.of_nat (length vs) < 2 ^ 30 ->
  border t n -> n = Z.of_nat (length vs).
Proof.
  intros [Hwf Hm] Hvs Hl Hb. pose proof (border_range t n Hwf Hb) as Hn.
  destruct (border_get t n Hwf Hb) as [Hat Hbehind]. rewrite Forall_forall in Hvs.
  assert (Hg : forall i, 0 <= i <= 2 ^ 30 -> get t (akey i) =
    if 1 <=? i then default LNil (vs !! Z.to_nat (i - 1)) else LNil).
  { intros i Hi. rewrite Hm by (apply akey_int; unfold in_s; lia). unfold arr_map.
    by rewrite index_of_akey by (unfold in_s; lia). }
  destruct (Z.lt_total n (Z.of_nat (length vs))) as [Hlt|[Heq|Hgt]]; [|done|].
  - rewrite Hg, (proj2 (Z.leb_le _ _)) in Hbehind by lia.
    destruct (lookup_lt_is_Some_2 vs (Z.to_nat (n + 1 - 1))) as [v Ev]; [lia|]. rewrite Ev in Hbehind.
    cbn in Hbehind. by destruct (Hvs v); [eapply list_elem_of_lookup_2|].
  - destruct Hat as [->|Hat]; [lia|]. rewrite Hg, (proj2 (Z.leb_le _ _)) in Hat by lia.
    by rewrite lookup_ge_None_2 in Hat by lia.
Qed.

Lemma border_object t n kvs : implements t (obj_map kvs) -> border t n -> n = 0.
Proof.
  intros [Hwf Hm] Hb. pose proof (border_range t n Hwf Hb) as Hn.
  destruct (border_get t n Hwf Hb) as [[->|Hat] _]; [done|]. rewrite Hm in Hat by (apply akey_int; unfold in_s; lia).
  apply obj_map_support, list_elem_of_fmap in Hat as (kv & E & _). done.
Qed.

Lemma is_array_array h vs σ :
  plain_table t0 (arr_map vs) -> live_apart str_addr t0 -> vs <> [] ->
  Forall (fun v => v <> LNil) vs -> Z.of_nat (length vs) < 2 ^ 30 -> covers (<[a := t0]> δ) σ ->
  room limit h 2 -> array_test σ true (is_array str_addr index_tm nargs h a σ).
Proof.
  intros Hp Hd Hne Hvs Hl Hc Hr. pose proof (proj1 (proj1 Hp)) as Hwf.
  destruct (covers_objlen _ σ Hp Hc) as (t & t' & n & Et & Ht & Hmt & En & Hb & Ht' & Hst & Et').
  assert (Hn : n = Z.of_nat (length vs)).
  { apply (border_array t); [|done..]. by apply (touched_implements t0); [apply Hp|]. }
  unfold is_array. rewrite Et. cbn [outcome_bind]. rewrite Hmt. cbn [outcome_bind]. rewrite En.
  cbn [outcome_bind]. rewrite (proj2 (Z.ltb_lt 0 n)) by (destruct vs; [done|cbn in Hn; lia]).
  apply (push_enc (array_test σ true) _ _ _ (fun Hlim => conj Hlim eq_refl) Hr); [lia|].
  apply (push_enc (array_test σ true) _ 1 _ (fun Hlim => conj Hlim eq_refl)); [by apply (room_weaken _ _ _ _ _ Hr); lia|lia|].
  rewrite Et'. cbn [outcome_bind].
  assert (Hk : keys_loop str_addr (S (length (array t') + length (nodes_of t'))) t' LNil n = Ret true).
  { apply (keys_loop_ok _ n LNil 0 Hwf Hd); try done; [| |lia].
    - rewrite entries_from_0. destruct Ht' as (_ & lf & ->). apply (length_entries t0).
    - rewrite entries_from_0. apply Forall_forall. intros [k v] (Hv & Hnv & Hg)%entry_get; [|done].
      cbn [fst]. rewrite (proj2 (proj1 Hp)) in Hg by done. unfold arr_map in Hg.
      destruct (index_of k) as [i|] eqn:Ei; [|congruence]. exists i. split; [done|].
      destruct (Z.leb_spec 1 i); [|congruence].
      destruct (vs !! Z.to_nat (i - 1)) as [w|] eqn:Ew; [|cbn in Hg; congruence].
      apply lookup_lt_Some in Ew. lia. }
  rewrite Hk. by split.
Qed.

Lemma is_array_object h kvs σ :
  plain_table t0 (obj_map kvs) -> covers (<[a := t0]> δ) σ ->
  array_test σ false (is_array str_addr index_tm nargs h a σ).
Proof.
  intros Hp Hc.
  destruct (covers_objlen _ σ Hp Hc) as (t & t' & n & Et & Ht & Hmt & En & Hb & Ht' & Hst & Et').
  assert (n = 0) as ->.
  { apply (border_object t n kvs); [|done]. by apply (touched_implements t0); [apply Hp|]. }
  unfold is_array. rewrite Et. cbn [outcome_bind]. rewrite Hmt. cbn [outcome_bind]. rewrite En.
  by split.
Qed.

Lemma add_indent c : 0 <= c + indent < 2 ^ 31 -> add_s 32 c indent = Ret (c + indent).
Proof. intros Hc. unfold add_s. by rewrite (proj2 (in_s_b_spec _ _)) by (unfold in_s; lia). Qed.

Lemma items_not_nil vs l :
  Forall2 (item δ) vs l -> Forall (fun j => j <> JNull /\ encodable j) l -> Forall (fun v => v <> LNil) vs.
Proof.
  induction 1 as [|v j vs l (δ1 & Hv & _) _ IH]; intros Hl; [constructor|].
  inversion Hl as [|? ? [Hj _] Hl']; subst. constructor; [|by apply IH].
  intros E. by apply Hj, (represents_nil δ1 v).
Qed.

Lemma encode_elements_ok h c vs l σ :
  cur = c + indent -> 0 <= c + indent < 2 ^ 31 ->
  plain_table t0 (arr_map vs) -> live_apart str_addr t0 -> Forall2 (item δ) vs l -> l <> [] ->
  Z.of_nat (length l) < 2 ^ 30 -> Forall (fun j => j <> JNull /\ encodable j) l -> covers (<[a := t0]> δ) σ -> room limit h (S (S (2 * size δ))) ->
  enc_ok σ (fun s => exists l', Forall2 encoded l l' /\ value_text (JArr l') s) (encode_table str_addr index_tm tolstring nargs indent enc h c a σ).
Proof.
  intros Hcur Hci Hp Hd Hit Hne Hlen Hl Hc Hr.
  pose proof (Forall2_length _ _ _ Hit) as Hlvs.
  assert (Hnv : vs <> []) by (intros ->; by inversion Hit; subst).
  assert (Hvl : Z.of_nat (length vs) < 2 ^ 30) by lia.
  pose proof (items_not_nil vs l Hit Hl) as Hnn. unfold encode_table.
  eapply array_test_bind.
  { apply (is_array_array h vs); try done. apply (room_weaken _ _ _ _ _ Hr). lia. }
  intros σ1 Hst1. cbv beta iota. rewrite add_indent, <- Hcur by done. cbn [outcome_bind].
  pose proof (covers_stable _ _ _ Hc Hst1) as Hc1.
  destruct (covers_objlen _ σ1 Hp Hc1) as (t & t' & n & Et & Ht & _ & En & Hb & _ & Hst & _).
  assert (n = Z.of_nat (length vs)) as ->.
  { apply (border_array t); [|done..]. by apply (touched_implements t0); [apply Hp|]. }
  rewrite En. cbn [outcome_bind]. rewrite Nat2Z.id.
  assert (Hloop : enc_ok (<[a := t']> σ1) (elements_written 1 l)
    (array_loop nargs indent enc (length vs) h cur a 1 (<[a := t']> σ1))).
  { apply (array_loop_ok vs h _ 1 vs l); try done; [by eapply covers_stable|].
    apply (room_weaken _ _ _ _ _ Hr). lia. }
  destruct (array_loop _ _ _ _ _ _ _ _ _) as [[x σ2]|e|]; cbn [enc_ok outcome_bind] in *; [|done|done].
  destruct Hloop as [(l' & Hl' & Hx) Hst2]. split; [|by apply stable_trans with (2 := Hst2)].
  destruct l as [|j l]; [done|]. destruct Hx as (y & -> & _ & Hy).
  exists l'. split; [done|].
  rewrite (proj2 (Z.ltb_lt 0 _)) by (destruct vs; [done|cbn; lia]).
  replace ([91] ++ _) with (91 :: y ++ indent_line indent c ++ [93]) by by simplify_list_eq.
  apply vt_arr, Hy, indent_line_white.
Qed.

Lemma item_null v j : item δ v j -> ttisnil v = is_null j.
Proof. by intros (δ1 & [] & _). Qed.

(** The members of the tree that are left, in the order of the entries. *)
Lemma members_rows ks vs l :
  length ks = length l -> Forall2 (item δ) vs l -> encodable (JObj (zip ks l)) ->
  plain_table t0 (obj_map (zip ks vs)) ->
  exists rows, entries t0 = map row_entry rows /\ Forall row_ok rows /\
    live_members is_null (zip ks l) ≡ₚ map (fun r => (r.1.1, r.2)) rows.
Proof.
  intros Hks Hit Hj Hp. pose proof (Forall2_length _ _ _ Hit) as Hlvs.
  set (rows0 := live_members (fun x : TValue * json => ttisnil x.1) (zip ks (zip vs l))).
  assert (Hvs : live_members ttisnil (zip ks vs) = prod_map id fst <$> rows0).
  { unfold rows0. rewrite <- (live_members_map _ ttisnil fst) by by apply Forall_true.
    f_equal. clear -Hks Hlvs. revert vs l Hks Hlvs.
    induction ks as [|k ks IH]; intros [|v vs] [|j l] Hks Hlvs; try done. cbn in *. f_equal. apply IH; lia. }
  assert (Hl : live_members is_null (zip ks l) = prod_map id snd <$> rows0).
  { unfold rows0. rewrite <- (live_members_map _ is_null snd).
    - f_equal. clear -Hks Hlvs. revert vs l Hks Hlvs.
      induction ks as [|k ks IH]; intros [|v vs] [|j l] Hks Hlvs; try done. cbn in *. f_equal. apply IH; lia.
    - clear -Hit. revert ks. induction Hit as [|v j vs l Hv _ IH]; intros [|k ks]; cbn; try constructor; [|apply IH].
      cbn. by rewrite (item_null v j). }
  assert (Hok : Forall (fun r => row_ok (r.1, r.2.1, r.2.2)) rows0).
  { apply Forall_forall. intros [k [v j]] Hin. unfold row_ok. cbn [fst snd].
    inversion Hj as [| | | | |? Hm]; subst. rewrite Hl, Forall_fmap, Forall_forall in Hm.
    destruct (Hm _ Hin) as [Hb He]. cbn in Hb, He.
    apply live_members_in in Hin as [Hin Hn]. cbn in Hn. apply elem_of_zip_r in Hin as Hvj.
    assert (Hvj' : item δ v j).
    { clear -Hvj Hit. induction Hit as [|v' j' vs l Hv _ IH]; [by apply elem_of_nil in Hvj|].
      cbn in Hvj. apply elem_of_cons in Hvj as [[= -> ->]|Hvj]; [done|auto]. }
    split_and!; try done. intros ->. by rewrite (item_null v JNull Hvj') in Hn. }
  destruct (Permutation_map_inv row_entry (l1:=entries t0) (map (fun r => (r.1, r.2.1, r.2.2)) rows0))
    as (rows & He & Hperm).
  - rewrite map_map. change (fun x : list Z * (TValue * json) => row_entry (x.1, x.2.1, x.2.2))
      with (fun x : list Z * (TValue * json) => pair_entry (prod_map id fst x)).
    rewrite <- (map_map (prod_map id fst) pair_entry). change (map (prod_map id fst) rows0) with (prod_map id fst <$> rows0).
    rewrite <- Hvs. apply obj_entries.
    + destruct Hp as [[Hwf Hm] _]. split; [done|]. intros k Hk. by rewrite obj_map_live, Hm.
    + apply live_members_NoDup.
    + apply Forall_forall. intros [k v] [_ Hn]%live_members_in. by destruct v.
  - exists rows. split; [done|]. split.
    + rewrite <- Hperm. by apply Forall_fmap.
    + rewrite Hl, <- Hperm, map_map. done.
Qed.

Lemma encode_object_ok h c ks vs l σ :
  cur = c + indent -> 0 <= c + indent < 2 ^ 31 -> length ks = length l ->
  plain_table t0 (obj_map (zip ks vs)) -> live_apart str_addr t0 -> Forall2 (item δ) vs l ->
  encodable (JObj (zip ks l)) -> covers (<[a := t0]> δ) σ -> room limit h (S (S (2 * size δ))) ->
  enc_ok σ (written (JObj (zip ks l))) (encode_table str_addr index_tm tolstring nargs indent enc h c a σ).
Proof.
  intros Hcur Hci Hks Hp Hd Hvs Hj Hc Hr. pose proof (proj1 (proj1 Hp)) as Hwf.
  destruct (members_rows ks vs l Hks Hvs Hj Hp) as (rows & He & Hrows & Hperm).
  unfold encode_table. eapply array_test_bind; [by apply (is_array_object h (zip ks vs))|].
  intros σ1 Hst1. cbv beta iota. rewrite add_indent, <- Hcur by done. cbn [outcome_bind].
  pose proof (covers_stable _ _ _ Hc Hst1) as Hc1. destruct (covers_table σ1 Hc1) as (t & Et & Ht).
  apply (push_enc_ok _ _ _ _ _ Hr); [lia|]. rewrite Et. cbn [outcome_bind]. eapply enc_ok_bind.
  { apply (object_loop_ok _ (h + 1) LNil 0 rows true); try done.
    - destruct Ht as (_ & lf & ->). rewrite <- (length_map row_entry), <- He. apply (length_entries t0).
    - apply (room_weaken _ _ _ _ _ Hr). lia. }
  intros x σ2 (l' & Hl' & Hx) _. split; [|apply stable_refl].
  exists (JObj l'). split.
  { apply ec_obj with (1 := Hperm). by apply Forall2_fmap_l. }
  destruct rows as [|r rows].
  - rewrite Hx. inversion Hl'; subst. apply (vt_obj0 []). constructor.
  - destruct Hx as (y & -> & Hy0 & Hy). cbn [app].
    replace (match y with [] => [] | _ :: _ => indent_line indent c end) with (indent_line indent c)
      by by destruct y.
    apply vt_obj, Hy, indent_line_white.
Qed.
(** A table of nulls alone is one without members. *)
Lemma arr_map_nulls vs n k : arr_map (vs ++ replicate n LNil) k = arr_map vs k.
Proof.
  unfold arr_map. destruct (index_of k) as [i|]; [|done]. destruct (1 <=? i); [|done].
  rewrite lookup_app. destruct (vs !! _); [done|]. cbn.
  destruct (replicate n LNil !! _) as [v|] eqn:E; [|done]. by apply lookup_replicate in E as [-> _].
Qed.

Lemma items_nulls n vs l : Forall2 (item δ) vs (l ++ replicate n JNull) ->
  exists vs', vs = vs' ++ replicate n LNil /\ Forall2 (item δ) vs' l.
Proof.
  intros (vs1 & vs2 & H1' & H2' & ->)%Forall2_app_inv_r. exists vs1. split; [|done]. f_equal.
  revert vs2 H2'. induction n as [|n IH]; intros vs2 H2'; inversion H2' as [|v ? vs ? Hv Hvs]; subst; [done|].
  cbn. f_equal; [|by apply IH]. by destruct Hv as (δ1 & Hr & _); inversion Hr.
Qed.

Lemma encode_array_ok h c vs l σ :
  cur = c + indent -> 0 <= c + indent < 2 ^ 31 ->
  plain_table t0 (arr_map vs) -> live_apart str_addr t0 -> Forall2 (item δ) vs l ->
  encodable (JArr l) -> covers (<[a := t0]> δ) σ -> room limit h (S (S (2 * size δ))) ->
  enc_ok σ (written (JArr l)) (encode_table str_addr index_tm tolstring nargs indent enc h c a σ).
Proof.
  intros Hcur Hci Hp Hd Hit Hj Hc Hr. inversion Hj as [| | | |l1 n Hlen Hl1|]; subst l.
  destruct (items_nulls n vs l1 Hit) as (vs1 & -> & Hit1).
  assert (Hp1 : plain_table t0 (arr_map vs1)).
  { apply plain_ext with (2 := Hp). intros k _. by rewrite arr_map_nulls. }
  destruct (decide (l1 = [])) as [->|Hne].
  - apply Forall2_nil_inv_r in Hit1 as ->. eapply enc_ok_mono.
    + apply (encode_object_ok h c [] [] [] σ); try done; [|apply enc_obj; constructor].
      apply plain_ext with (2 := Hp1). intros k _. unfold arr_map. destruct (index_of k) as [i|]; [|done].
      by destruct (1 <=? i).
    + intros s (j' & Hjj & Hs). exists (JObj []). split; [apply ec_empty|].
      inversion Hjj as [| | | | | |? m l' Hperm Hm]; subst. apply Permutation_nil_l in Hperm as <-.
      by inversion Hm; subst.
  - eapply enc_ok_mono; [by apply (encode_elements_ok h c vs1 l1)|].
    intros s (l' & Hl' & Hs). exists (JArr l'). split; [by constructor|done].
Qed.
End Loops.

(** * Values *)

Lemma encode_value_ok f : 0 <= indent -> forall δ v j visited h cur σ,
  represents δ v j -> encodable j -> covers δ σ ->
  (forall a t, δ !! a = Some t -> live_apart str_addr t) -> (size δ < f)%nat ->
  (forall a, a ∈ visited -> δ !! a = None) -> 0 <= cur -> cur + indent * Z.of_nat (size δ) < 2 ^ 31 ->
  room limit h (2 * size δ) ->
  enc_ok σ (written j)
    (encode_value str_addr index_tm tolstring json_null_marker nargs indent f visited h cur v σ).
Proof.
  intros Hindent. induction f as [|f IH]; intros δ v j visited h cur σ Hr Hj Hc Hd Hf Hvis Hcur Hcb Hroom;
    [lia|]. cbn [encode_value].
  assert (Hflat : forall j j' s, encoded j j' -> value_text j' s -> enc_ok σ (written j) (Ret (s, σ))).
  { intros j1 j' s Hjj Hs. split; [by exists j'|apply stable_refl]. }
  assert (Hnum : forall v, writable v -> exists s v', number_out v = Ret s /\ encoded (JNum v) (JNum v') /\
    value_text (JNum v') s).
  { intros v' (v2 & s & i & Eo & Ht & ->). exists s, (number_value s i). split; [done|].
    split; [|by constructor]. constructor. by exists s, i. }
  assert (Hnest : forall δ1 a t c, δ = <[a := t]> δ1 -> δ1 !! a = None -> c = cur + indent ->
    forall v j h σ, item δ1 v j -> encodable j -> j <> JNull -> covers δ1 σ -> room limit h (2 * size δ1) ->
    enc_ok σ (written j) (encode_value str_addr index_tm tolstring json_null_marker nargs indent f
      (visited ++ [a]) h c v σ)).
  { intros δ1 a t c -> Ha -> v' j' h' σ' (δ2 & Hr2 & Hs2) Hj' _ Hc' Hroom'.
    pose proof (map_subseteq_size _ _ Hs2) as Hsz. rewrite map_size_insert_None in * by done.
    apply (IH δ2); try done; try lia.
    - by apply covers_weaken with δ1.
    - intros b t' Hb. apply (Hd b). rewrite lookup_insert_ne; [by eapply lookup_weaken|].
      intros ->. by rewrite (lookup_weaken _ _ _ _ Hb Hs2) in Ha.
    - intros b [Hb| ->%list_elem_of_singleton]%elem_of_app; [|by eapply lookup_weaken_None].
      apply Hvis in Hb. eapply lookup_weaken_None; [|exact Hs2]. by apply lookup_insert_None in Hb as [Hb _].
    - nia.
    - apply (room_weaken _ _ _ _ _ Hroom'). lia. }
  assert (Hnew : forall δ1 a t, δ = <[a := t]> δ1 -> existsb (Z.eqb a) visited = false).
  { intros δ1 a t ->. apply not_true_iff_false. intros (b & Hb & ->%Z.eqb_eq)%existsb_exists.
    apply list_elem_of_In, Hvis in Hb. by rewrite lookup_insert_eq in Hb. }
  destruct Hr as [|b|n|i|s|δ1 vs l a t Hvs Ha Hp|δ1 ks vs l a t Hvs Hks Ha Hp].
  - apply (Hflat JNull JNull); constructor.
  - apply (Hflat (JBool b) (JBool b)); destruct b; constructor.
  - inversion Hj as [| |? Hn| | |]; subst. destruct (Hnum _ Hn) as (s & v' & Es & He & Hs). cbn in Es.
    rewrite Es. by apply (Hflat _ (JNum v')).
  - inversion Hj as [| |? Hn| | |]; subst. destruct (Hnum _ Hn) as (s & v' & [= <-] & He & Hs).
    by apply (Hflat _ (JNum v')).
  - inversion Hj; subst. by apply (Hflat _ (JStr s)), encode_string_value; [constructor|].
  - rewrite (Hnew δ1 a t eq_refl). rewrite map_size_insert_None in * by done.
    apply (encode_array_ok _ δ1 a (cur + indent) t) with (vs := vs); try done.
    + by apply (Hnest δ1 a t).
    + nia.
    + apply (Hd a), lookup_insert_eq.
    + by apply represents_items.
    + apply (room_weaken _ _ _ _ _ Hroom). lia.
  - rewrite (Hnew δ1 a t eq_refl). rewrite map_size_insert_None in * by done.
    apply (encode_object_ok _ δ1 a (cur + indent) t) with (vs := vs); try done.
    + by apply (Hnest δ1 a t).
    + nia.
    + apply (Hd a), lookup_insert_eq.
    + by apply represents_items.
    + apply (room_weaken _ _ _ _ _ Hroom). lia.
Qed.
End Write.
