(* ===== verification/JsonEnds.v ===== *)
(** The encoder of [VM/src/ljsonlib.cpp] ends for every store of tables, cyclic ones
    included: the list of the tables that enclose a value cuts every cycle. *)
From stdpp Require Import gmap.
From S2P Require Import Prelude Word Double NumParse LuaApi Tm Arith Compare Key TableNode Table.
From S2P Require Import TableSpec TableResize TableRehash TableMap TableIter Sort TabLib TabMove BaseLib.
From S2P Require Import JsonLib JsonStore JsonParse JsonEncode JsonWrite.
Open Scope Z_scope.
Open Scope outcome_scope.

Section Ends.
Context `{VecSize, Target, NumFormat, PrintfG}.
Variable str_addr : list Z -> Z.
Variable index_tm : tables -> Z -> list Z -> outcome (TValue * tables).
Variable tolstring : tables -> TValue -> outcome (list Z * tables).
Variable json_null_marker nargs indent : Z.

(** It ends, and changes no more than cached boundaries. *)
Definition ends {A} (σ : tables) (P : A -> Prop) (r : outcome (A * tables)) : Prop :=
  match r with
  | Ret (x, σ') => P x /\ stable σ σ'
  | Throw _ => True
  | Undefined _ => False
  end.

Lemma ends_bind {A B} σ (P : A -> Prop) (Q : B -> Prop) (o : outcome (A * tables)) (k : A * tables -> outcome (B * tables)) :
  ends σ P o -> (forall x σ1, P x -> stable σ σ1 -> ends σ1 Q (k (x, σ1))) -> ends σ Q (outcome_bind o k).
Proof.
  destruct o as [[x σ1]|e|]; cbn [ends outcome_bind]; [|done|done].
  intros [Hx Hst] Hk. specialize (Hk x σ1 Hx Hst). destruct (k (x, σ1)) as [[y σ2]|e|]; [|done|done].
  destruct Hk as [HQ Hst2]. split; [done|]. by apply stable_trans with σ1.
Qed.

Lemma push_ends {A} σ (P : A -> Prop) h (k : Z -> outcome (A * tables)) :
  (forall h', ends σ P (k h')) -> ends σ P (h' <- push nargs h ;; k h').
Proof. intros Hk. unfold push. destruct (_ && _); cbn [outcome_bind]; [done|apply Hk]. Qed.

(** The metamethods that are called end and leave the tables alone. *)
Hypothesis index_tm_ends : forall σ a k, ends σ (fun _ => True) (index_tm σ a k).
Hypothesis tolstring_ends : forall σ v, ends σ (fun _ => True) (tolstring σ v).

(** Every table that a value or a table refers to is in the store. *)
Definition refers (σ : tables) (v : TValue) : Prop :=
  match v with LTable a => is_Some (σ !! a) | _ => True end.

Record store_ok (σ : tables) : Prop := {
  so_wf : forall a t, σ !! a = Some t -> wf_table t;
  so_live : forall a t, σ !! a = Some t -> live_apart str_addr t;
  so_meta : forall a t mt, σ !! a = Some t -> metatable t = Some mt -> is_Some (σ !! mt);
  so_refs : forall a t k v, σ !! a = Some t -> (k, v) ∈ entries t -> refers σ v;
}.

Lemma stable_dom σ σ' a : stable σ σ' -> is_Some (σ !! a) <-> is_Some (σ' !! a).
Proof.
  intros Hs. specialize (Hs a). destruct (σ !! a) as [t|].
  - destruct Hs as (t' & -> & _). done.
  - by rewrite Hs.
Qed.

Lemma stable_size σ σ' : stable σ σ' -> size σ' = size σ.
Proof.
  intros Hs. rewrite <- !(size_dom (D:=gset Z)). f_equal. apply set_eq. intros a.
  by rewrite !elem_of_dom, (stable_dom _ _ _ Hs).
Qed.

(** A table behind a change is one from before, touched or not. *)
Lemma stable_back σ σ' a t' : stable σ σ' -> σ' !! a = Some t' ->
  exists t, σ !! a = Some t /\ (t' = t \/ touched t t').
Proof.
  intros Hs E. specialize (Hs a). destruct (σ !! a) as [t|]; [|congruence].
  destruct Hs as (t2 & E2 & Ht). rewrite E in E2. injection E2 as ->. by exists t.
Qed.

Lemma refers_stable σ σ' v : stable σ σ' -> refers σ v -> refers σ' v.
Proof. intros Hs. destruct v; try done. apply (stable_dom _ _ _ Hs). Qed.

Lemma store_ok_stable σ σ' : store_ok σ -> stable σ σ' -> store_ok σ'.
Proof.
  intros [Hwf Hlive Hmeta Hrefs] Hs. split.
  - intros a t' E. destruct (stable_back _ _ _ _ Hs E) as (t & Et & [->|Ht]); [by eapply Hwf|by apply (touched_wf t)].
  - intros a t' E. destruct (stable_back _ _ _ _ Hs E) as (t & Et & [->|(_ & lf & ->)]); exact (Hlive a t Et).
  - intros a t' mt E Em. apply (stable_dom _ _ _ Hs).
    destruct (stable_back _ _ _ _ Hs E) as (t & Et & [->|(_ & lf & ->)]); exact (Hmeta a t mt Et Em).
  - intros a t' k v E Hin. apply (refers_stable σ); [done|].
    destruct (stable_back _ _ _ _ Hs E) as (t & Et & [->|Ht]); [by eapply Hrefs|].
    rewrite (touched_entries _ _ Ht) in Hin. by eapply Hrefs.
Qed.

Lemma store_at σ a : is_Some (σ !! a) -> exists t, σ !! a = Some t /\ table_at σ a = Ret t.
Proof. intros [t E]. exists t. unfold table_at. by rewrite E. Qed.

Lemma objlen_ends σ a : store_ok σ -> is_Some (σ !! a) ->
  ends σ (fun n => 0 <= n < 2 ^ 30) (lua_objlen σ a).
Proof.
  intros Hok [t E]. destruct (lua_objlen_touched σ a t E (so_wf _ Hok _ _ E)) as (t' & n & -> & Hb & Ht).
  split; [|by apply stable_insert with t]. apply (border_range t); [by eapply so_wf|done].
Qed.

Lemma getfield_ends σ a k : store_ok σ -> is_Some (σ !! a) ->
  ends σ (fun _ => True) (lua_getfield index_tm σ a k).
Proof.
  intros Hok Ha. destruct (store_at σ a Ha) as (t & E & Et). unfold lua_getfield. rewrite Et.
  cbn [outcome_bind]. destruct (ttisnil _); [|split; [done|apply stable_refl]].
  unfold has_metafield. destruct (metatable t) as [mt|] eqn:Em; cbn [outcome_bind].
  - destruct (store_at σ mt) as (m & _ & ->); [by eapply so_meta|]. cbn [outcome_bind].
    destruct (negb _); [apply index_tm_ends|split; [done|apply stable_refl]].
  - split; [done|apply stable_refl].
Qed.

(** * The loops *)

Lemma keys_loop_ends t fuel : forall len k p,
  wf_table t -> live_apart str_addr t -> (length (entries_from t p) < fuel)%nat ->
  findindex str_addr t k = Ret (Z.of_nat p - 1) -> exists b, keys_loop str_addr fuel t k len = Ret b.
Proof.
  induction fuel as [|f IH]; intros len k p Hwf Hd Hf Hk; [lia|]. cbn [keys_loop].
  rewrite (next_scan str_addr t k p Hwf Hk). cbn [outcome_bind].
  pose proof (scan_spec t p Hwf) as Hs. destruct (scan t p) as [[[s k'] v']|]; cbn [pair_of]; [|by eexists].
  destruct Hs as (Hs & _ & Hs2). rewrite Hs2 in Hf. cbn [length] in Hf.
  assert (Hnext : exists b, keys_loop str_addr f t k' len = Ret b).
  { apply (IH len k' (S (pos t s))); try done; [lia|].
    by apply (position_touched str_addr t); [..|apply touched_refl]. }
  destruct k'; try (by eexists); (destruct (_ || _); [by eexists|exact Hnext]).
Qed.

Lemma is_array_ends h a σ : store_ok σ -> is_Some (σ !! a) ->
  ends σ (fun _ => True) (is_array str_addr index_tm nargs h a σ).
Proof.
  intros Hok Ha. destruct (store_at σ a Ha) as (t & E & Et). unfold is_array. rewrite Et.
  cbn [outcome_bind]. apply ends_bind with (P := fun _ : option bool => True).
  { destruct (metatable t) as [mt|] eqn:Em; [|split; [done|apply stable_refl]].
    apply push_ends. intros h1. apply push_ends. intros h2. eapply ends_bind.
    { apply getfield_ends; [done|]. by eapply so_meta. }
    intros v σ1 _ _. split; [done|apply stable_refl]. }
  intros [b|] σ1 _ Hst; [split; [done|apply stable_refl]|].
  pose proof (store_ok_stable _ _ Hok Hst) as Hok1. eapply ends_bind.
  { apply objlen_ends; [done|by apply (stable_dom _ _ _ Hst)]. }
  intros n σ2 _ Hst2. cbv beta iota. destruct (0 <? n); [|split; [done|apply stable_refl]].
  apply push_ends. intros h1. apply push_ends. intros h2.
  pose proof (store_ok_stable _ _ Hok1 Hst2) as Hok2.
  destruct (store_at σ2 a) as (t2 & E2 & ->).
  { apply (stable_dom _ _ _ Hst2), (stable_dom _ _ _ Hst), Ha. }
  cbn [outcome_bind].
  destruct (keys_loop_ends t2 (S (length (array t2) + length (nodes_of t2))) n LNil 0) as [b ->]; try done.
  - by eapply so_wf.
  - by eapply so_live.
  - rewrite entries_from_0. apply (length_entries t2).
  - split; [done|apply stable_refl].
Qed.

Lemma key_text_ends k σ : ends σ (fun _ => True) (key_text tolstring k σ).
Proof.
  unfold key_text. apply ends_bind with (P := fun _ => True).
  - destruct k; try (by split; [|apply stable_refl]); apply tolstring_ends.
  - intros s σ1 _ _. split; [done|apply stable_refl].
Qed.

Section Loops.
Variable enc : Z -> Z -> TValue -> tables -> outcome (list Z * tables).
Variables (σ0 : tables) (a cur : Z).
Hypothesis Hok0 : store_ok σ0.
Hypothesis Henc : forall v h σ, stable σ0 σ -> refers σ v -> ends σ (fun _ => True) (enc h cur v σ).
Hypothesis Ha : is_Some (σ0 !! a).

Lemma array_loop_ends n : forall h i σ, stable σ0 σ -> 0 <= i -> i + Z.of_nat n < 2 ^ 31 ->
  ends σ (fun _ => True) (array_loop nargs indent enc n h cur a i σ).
Proof.
  induction n as [|n IH]; intros h i σ Hst Hi Hn; [split; [done|apply stable_refl]|]. cbn [array_loop].
  pose proof (store_ok_stable _ _ Hok0 Hst) as Hok.
  destruct (store_at σ a) as (t & E & Et); [by apply (stable_dom _ _ _ Hst)|].
  unfold lua_rawgeti. rewrite Et. cbn [outcome_bind]. apply push_ends. intros h'.
  assert (Hv : refers σ (rawgeti t i)).
  { pose proof (so_wf _ Hok _ _ E) as Hwf. assert (Hint : in_s 32 i) by (unfold in_s; lia).
    rewrite (rawgeti_spec t (get t) i) by done.
    destruct (decide (get t (akey i) = LNil)) as [->|Hne]; [done|].
    destruct (get_entry t (akey i) Hwf (akey_int i Hint) Hne) as (k' & _ & Hin). by eapply so_refs. }
  eapply ends_bind; [by apply Henc|]. intros out σ1 _ Hst1. cbv beta iota.
  eapply ends_bind; [apply (IH h (i + 1)); [by eapply stable_trans|lia|lia]|].
  intros rest σ2 _ _. split; [done|apply stable_refl].
Qed.

Lemma object_loop_ends t0 fuel : forall h k p first σ,
  stable σ0 σ -> σ0 !! a = Some t0 -> (length (entries_from t0 p) < fuel)%nat ->
  (forall t, touched t0 t -> findindex str_addr t k = Ret (Z.of_nat p - 1)) ->
  ends σ (fun _ => True) (object_loop str_addr tolstring nargs indent enc fuel h cur a k first σ).
Proof.
  induction fuel as [|f IH]; intros h k p first σ Hst E0 Hf Hk; [lia|]. cbn [object_loop].
  pose proof (so_wf _ Hok0 _ _ E0) as Hwf. assert (Ht : exists t, table_at σ a = Ret t /\ touched t0 t).
  { specialize (Hst a). rewrite E0 in Hst. destruct Hst as (t & E & Ht). exists t. unfold table_at.
    rewrite E. split; [done|]. destruct Ht as [->|Ht]; [by apply touched_refl|done]. }
  destruct Ht as (t & -> & Ht). cbn [outcome_bind].
  rewrite (next_touched str_addr t0 t k p Ht (Hk t Ht)). cbn [outcome_bind].
  pose proof (scan_spec t0 p Hwf) as Hs. destruct (scan t0 p) as [[[s k'] v']|]; cbn [pair_of];
    [|split; [done|apply stable_refl]].
  destruct Hs as (Hs & Hv' & Hs2). rewrite Hs2 in Hf. cbn [length] in Hf.
  apply push_ends. intros h'. apply ends_bind with (P := fun _ : list Z => True).
  { destruct k'; try (apply push_ends; intros h2; eapply ends_bind; [apply key_text_ends|];
      intros; split; [done|apply stable_refl]). split; [done|apply stable_refl]. }
  intros key σ1 _ Hst1. cbv beta iota. pose proof (stable_trans _ _ _ Hst Hst1) as Hst01.
  eapply ends_bind.
  { apply Henc; [done|]. apply (refers_stable σ0); [done|].
    destruct (decide (v' = LNil)) as [->|Hne]; [done|]. apply (so_refs _ Hok0 a t0 k'); [done|].
    apply holds_entries; [done|done|]. by exists s. }
  intros out σ2 _ Hst2. cbv beta iota. eapply ends_bind.
  { apply (IH h k' (S (pos t0 s)) false); [by eapply stable_trans|done|lia|].
    apply position_touched; try done. by eapply so_live. }
  intros rest σ3 _ _. split; [done|apply stable_refl].
Qed.

Lemma encode_table_ends h c σ :
  stable σ0 σ -> 0 <= c + indent < 2 ^ 31 -> cur = c + indent ->
  ends σ (fun _ => True) (encode_table str_addr index_tm tolstring nargs indent enc h c a σ).
Proof.
  intros Hst Hc Hcur. unfold encode_table. pose proof (store_ok_stable _ _ Hok0 Hst) as Hok.
  assert (Haσ : is_Some (σ !! a)) by by apply (stable_dom _ _ _ Hst).
  eapply ends_bind; [by apply is_array_ends|]. intros arr σ1 _ Hst1. cbv beta iota.
  pose proof (stable_trans _ _ _ Hst Hst1) as Hst01. pose proof (store_ok_stable _ _ Hok0 Hst01) as Hok1.
  rewrite add_indent, <- Hcur by done. cbn [outcome_bind]. destruct arr.
  - eapply ends_bind; [apply objlen_ends; [done|by apply (stable_dom _ _ _ Hst01)]|].
    intros n σ2 Hn Hst2. cbv beta iota in *. eapply ends_bind.
    { apply array_loop_ends; [by eapply stable_trans|lia|lia]. }
    intros x σ3 _ _. split; [done|apply stable_refl].
  - apply push_ends. intros h'. destruct (store_at σ1 a) as (t & E & Et); [by apply (stable_dom _ _ _ Hst01)|].
    rewrite Et. cbn [outcome_bind]. destruct Ha as [t0 E0]. eapply ends_bind.
    { apply (object_loop_ends t0 _ h' LNil 0 true); try done. rewrite entries_from_0.
      destruct (stable_back _ _ _ _ Hst01 E) as (t2 & E2 & Ht). rewrite E0 in E2. injection E2 as <-.
      destruct Ht as [->|(_ & lf & ->)]; apply (length_entries t0). }
    intros x σ2 _ _. split; [done|apply stable_refl].
Qed.
End Loops.

(** * Values *)

(** The tables that enclose a value are different tables of the store. *)
Definition enclosing (σ : tables) (visited : list Z) : Prop :=
  NoDup visited /\ Forall (fun a => is_Some (σ !! a)) visited.

Lemma enclosing_size σ visited : enclosing σ visited -> (length visited <= size σ)%nat.
Proof.
  intros [Hnd Hall]. rewrite <- (size_dom (D:=gset Z)), <- (size_list_to_set (C:=gset Z)) by done.
  apply subseteq_size. intros a Ha%elem_of_list_to_set. rewrite Forall_forall in Hall.
  by apply elem_of_dom, Hall.
Qed.

Lemma enclosing_snoc σ visited a :
  enclosing σ visited -> is_Some (σ !! a) -> existsb (Z.eqb a) visited = false -> enclosing σ (visited ++ [a]).
Proof.
  intros [Hnd Hall] Ha He. split; [|apply Forall_app; by repeat constructor].
  apply NoDup_app. split; [done|]. split; [|apply NoDup_singleton].
  intros b Hb ->%list_elem_of_singleton. apply not_true_iff_false in He. apply He.
  apply existsb_exists. exists a. split; [by apply list_elem_of_In|apply Z.eqb_refl].
Qed.

Lemma encode_value_ends f : 0 <= indent -> forall visited h cur v σ,
  store_ok σ -> enclosing σ visited -> refers σ v -> (size σ < f + length visited)%nat ->
  0 <= cur -> cur + indent * (Z.of_nat (size σ) - Z.of_nat (length visited)) < 2 ^ 31 ->
  ends σ (fun _ => True)
    (encode_value str_addr index_tm tolstring json_null_marker nargs indent f visited h cur v σ).
Proof.
  intros Hi. induction f as [|f IH]; intros visited h cur v σ Hok Henc Hv Hf Hcur Hb.
  { pose proof (enclosing_size σ visited Henc). lia. }
  assert (Hflat : forall s : list Z, ends σ (fun _ => True) (Ret (s, σ))) by (intros s; split; [done|apply stable_refl]).
  cbn [encode_value]. destruct v; try done; try apply Hflat.
  - destruct (_ =? _); [apply Hflat|done].
  - unfold encode_number. destruct (_ || _); [done|apply Hflat].
  - destruct (existsb _ visited) eqn:He; [done|].
    pose proof (enclosing_snoc σ visited _ Henc Hv He) as Henc'.
    pose proof (enclosing_size _ _ Henc') as Hsz. rewrite length_app in Hsz. cbn [length] in Hsz.
    apply (encode_table_ends _ σ _ (cur + indent)); try done; [|apply stable_refl|nia].
    intros v' h' σ' Hst Hv'. apply IH; try done.
    + by apply (store_ok_stable σ).
    + destruct Henc' as [Hnd Hall]. split; [done|]. apply (Forall_impl _ _ _ Hall).
      intros b. apply (stable_dom _ _ _ Hst).
    + rewrite (stable_size _ _ Hst), length_app. cbn [length]. lia.
    + lia.
    + rewrite (stable_size _ _ Hst), length_app. cbn [length]. nia.
Qed.
End Ends.
