(* ===== verification/JsonProps.v ===== *)
(** The contracts of the json library, [VM/src/ljsonlib.cpp]. *)
From stdpp Require Import gmap.
From S2P Require Import Prelude Word Double NumParse LuaApi Sort SortLib Arith Compare Key TableNode Table TableSpec TableMap TableIter TabLib TabMove BaseLib JsonLib JsonSpec JsonLex JsonStore JsonParse JsonComplete JsonEncode JsonWrite JsonEnds.
Open Scope Z_scope.
Open Scope outcome_scope.

Section Decode.
Context `{VecSize, Target, NumFormat}.

(** A text that may meet a limit. *)
Definition long_text (nargs : Z) (str : list Z) : Prop := LUAI_MAXCSTACK < nargs + Z.of_nat (length str).

Lemma parse_text_ok nargs str σ :
  0 <= nargs -> Z.of_nat (length str) < 2 ^ 30 ->
  parse_ok (long_text nargs str) (value_ok str σ) (parse_text nargs nargs str σ).
Proof.
  intros Hn Hl. apply parse_value_ok; [lia|done| |]; unfold room, few_keys, long_text in *.
  - lia.
  - unfold LUAI_MAXCSTACK. lia.
Qed.

Lemma parse_text_accepts nargs str σ j :
  json_text j str ->
  match parse_text nargs nargs str σ with
  | Ret (inl _) => False
  | Ret (inr (_, p, _)) => skip_whitespace p = []
  | _ => True
  end.
Proof.
  intros (w1 & t & w2 & -> & Hw1 & Ht & Hw2). unfold parse_text.
  rewrite parse_value_white by done. set (f := S _).
  assert (He : ends_value w2) by (rewrite <- (app_nil_r w2); by apply white_ends).
  pose proof (value_text_accepted nargs j t Ht f nargs w2 σ He) as Ha. unfold accepts in Ha.
  destruct (parse_value _ _ _ _ _) as [[|[[v p] σ']]| |]; [done| |done|done].
  subst p. by apply skip_all.
Qed.

(** A value and nothing but white space behind it. *)
Lemma value_ok_text str σ v p σ' :
  value_ok str σ v p σ' -> skip_whitespace p = [] -> exists j, json_text j str /\ made σ v j σ'.
Proof.
  intros (w & t & j & -> & Hw & Ht & Hm) Hp. exists j. split; [|done]. exists w, t, p.
  split_and!; try done. destruct (skip_whitespace_split p) as (w2 & Hw2 & Ep & _).
  rewrite Hp, app_nil_r in Ep. by rewrite Ep.
Qed.



Lemma decides_text nargs str σ :
  parse_ok (long_text nargs str) (value_ok str σ) (parse_text nargs nargs str σ) ->
  (forall j, json_text j str -> match parse_text nargs nargs str σ with
     | Ret (inl _) => False
     | Ret (inr (_, p, _)) => skip_whitespace p = []
     | _ => True
     end) ->
  match r <- parse_text nargs nargs str σ ;;
        Ret [LBoolean (match r with
                       | inl _ => false
                       | inr (_, p, _) => match skip_whitespace p with [] => true | _ => false end
                       end)] with
  | Ret [LBoolean b] => b = true <-> exists j, json_text j str
  | Throw e => long_text nargs str
  | _ => False
  end.
Proof.
  intros Hok Hacc.
  destruct (parse_text _ _ str σ) as [[msg|[[v p] σ']]|e|]; cbn [outcome_bind parse_ok] in *; [| |by apply Hok|done].
  - split; [done|]. intros (j & Hj). destruct (Hacc j Hj).
  - destruct (skip_whitespace p) as [|c q] eqn:Ep.
    + destruct (value_ok_text str σ v p σ' Hok Ep) as (j & Hj & _). split; [by exists j|done].
    + split; [done|]. intros (j & Hj). by specialize (Hacc j Hj).
Qed.

(** [json.valid] decides the grammar, for a string, a buffer or the text of a
    number, and raises an error only for a text as long as that. *)
Theorem json_valid_decides args str σ :
  check_text args = Ret str -> Z.of_nat (length str) < 2 ^ 30 ->
  match json_valid args σ with
  | Ret [LBoolean b] => b = true <-> exists j, json_text j str
  | Throw e => long_text (lua_gettop args) str
  | _ => False
  end.
Proof.
  intros Hs Hl. assert (Hn : 0 <= lua_gettop args) by (unfold lua_gettop; lia).
  pose proof (parse_text_ok (lua_gettop args) str σ Hn Hl) as Hok.
  pose proof (parse_text_accepts (lua_gettop args) str σ) as Hacc.
  unfold check_text, luaL_checklstring, lua_tolstring, tag_error in Hs. unfold json_valid.
  destruct (index2addr args 1) as [[]|]; try done; injection Hs as ->; cbv zeta;
    apply (decides_text (lua_gettop args) str σ Hok Hacc).
Qed.
End Decode.

Section Encode.
Context `{VecSize, Target, NumFormat, PrintfG}.
Variable str_addr : list Z -> Z.
Variable index_tm : tables -> Z -> list Z -> outcome (TValue * tables).
Variable tolstring : tables -> TValue -> outcome (list Z * tables).
Variable json_null_marker : Z.






End Encode.

(** * Witnesses *)

#[local] Instance sample_vec : VecSize := false.
#[local] Instance sample_format : NumFormat := fun _ => chars "#".
#[local] Instance sample_printf : PrintfG := fun _ => chars "0.5".

(** A text with quotes, written with apostrophes. *)
Definition quoted (s : string) : list Z := map (fun c => if c =? 39 then 34 else c) (chars s).


Definition outcome_values (o : outcome (list TValue * tables)) : list TValue :=
  match o with Ret (r, _) => r | _ => [] end.

Definition outcome_store (o : outcome (list TValue * tables)) : tables :=
  match o with Ret (_, σ) => σ | _ => ∅ end.


Lemma json_valid_decides_witness :
  json_valid [LString (quoted "[1,]")] ∅ = Ret [LBoolean false] /\ ~ exists j, json_text j (quoted "[1,]").
Proof.
  pose proof (json_valid_decides [LString (quoted "[1,]")] (quoted "[1,]") ∅ eq_refl ltac:(vm_compute; reflexivity)) as Hd.
  assert (He : json_valid [LString (quoted "[1,]")] ∅ = Ret [LBoolean false]) by (vm_compute; reflexivity).
  rewrite He in Hd. split; [exact He|]. intros Hj. apply Hd in Hj. discriminate.
Defined.










(** ** Where the library is not what it means to be *)

(** A number of more than 63 digits loses digits: the text of 1e70 has 63 of its 71. *)
Example json_encode_truncates :
  json_encode (fun _ => 0) (fun σ _ _ => Ret (LNil, σ)) (fun σ _ => Ret ([], σ)) 0
    [LNumber (fst (strtod (chars "1e70")))] ∅
  = Ret ([LString (chars "100000000000000007253143638152923512615837440964652195551821015")], ∅).
Proof. vm_compute. reflexivity. Qed.

(** Two halves of a surrogate pair become two sequences of three bytes, not one of four. *)
Example json_decode_surrogates :
  json_decode [LString (quoted "'\ud83d\ude00'")] ∅ = Ret ([LString [237; 160; 189; 237; 184; 128]], ∅).
Proof. vm_compute. reflexivity. Qed.

(** A list with a null at its end is shorter after a round trip. *)
Example json_null_lost :
  let o := json_decode [LString (chars "[1,null]")] ∅ in
  outcome_values (json_encode (fun _ => 0) (fun σ _ _ => Ret (LNil, σ)) (fun σ _ => Ret ([], σ)) 0
    (outcome_values o) (outcome_store o)) = [LString (chars "[1]")].
Proof. vm_compute. reflexivity. Qed.

(** A number may start with zeros, and a string may hold a line feed. *)
Example json_decode_lenient :
  json_decode [LString (chars "[01]")] ∅ = json_decode [LString (chars "[1]")] ∅ /\
  json_decode [LString [34; 10; 34]] ∅ = Ret ([LString [10]], ∅) /\
  ~ rfc_int (chars "01") /\ ~ (exists s, rfc_string s [10; 34]).
Proof.
  split; [vm_compute; reflexivity|]. split; [vm_compute; reflexivity|]. split.
  - by intros [_ [Hz|Hz]].
  - intros (s & Hs). inversion Hs; subst; lia.
Qed.

(** A null is decoded as [nil], not as the value that is encoded as null. *)
Example json_null_no_sentinel :
  json_decode [LString (chars "null")] ∅ = Ret ([LNil], ∅) /\
  json_encode (fun _ => 0) (fun σ _ _ => Ret (LNil, σ)) (fun σ _ => Ret ([], σ)) 4096 [LLightUserdata 4096 0] ∅ =
    Ret ([LString (chars "null")], ∅).
Proof. split; vm_compute; reflexivity. Qed.

(** An array without elements becomes an object. *)
Example json_empty_array :
  let o := json_decode [LString (chars "[]")] ∅ in
  outcome_values (json_encode (fun _ => 0) (fun σ _ _ => Ret (LNil, σ)) (fun σ _ => Ret ([], σ)) 0
    (outcome_values o) (outcome_store o)) = [LString (chars "{}")].
Proof. vm_compute. reflexivity. Qed.
